(* ===== verification/_CoqProject ===== *)
-Q . S2P
Prelude.v
Json.v
Canonical.v
Utf.v
CanonicalFacts.v
Batches.v
BatchFacts.v
Servers.v
Walk.v
WalkFacts.v
Jobs.v
JobsFacts.v
Executor.v
ExecutorFacts.v
Repository.v
RepositoryFacts.v
Config.v
ConfigFacts.v
Spec.v
SpecFacts.v
Locks.v
Trust.v
TrustFacts.v
Deploy.v
DeployFacts.v
DeployEnds.v
Quote.v
RowSql.v
RowMeaning.v
RowFacts.v
Intents.v
VendorKinds.v
Plan.v
PlanFacts.v
Planner.v
Indexes.v
RowPlan.v
Dml.v
Backfill.v
AddColumn.v
Views.v
Tables.v
Keys.v
Objects.v
Security.v
Replication.v
Alter.v
Physical.v
Extras.v
TextSearch.v
StepReading.v
KeyFacts.v
DmlFacts.v
StepFacts.v
FillFacts.v
FillText.v
FillSteps.v
ViewFacts.v
Migration.v
IntentFacts.v
RowRuns.v
IndexFacts.v
MigrationFacts.v
MigrationRuns.v
Demos.v
Recipes.v
TableFacts.v
UniqueFacts.v
UniqueDemo.v
ObjectFacts.v
DryRun.v
DryRunFacts.v
Timescale.v
Tools.v
SecurityFacts.v
AlterFacts.v
ToolsFacts.v
TimescaleFacts.v
