(* ===== verification/Prelude.v ===== *)
(** * pg_laswell: a verification library for the PostgreSQL migration tool

    pg_laswell applies signed migration specifications to PostgreSQL databases
    while they are in use. A specification (a JSON document) is parsed, its
    canonical bytes are checked against signatures the machine and the database
    trust, a plan is made from what the catalog says, and a job executes the plan
    step by step: short transactions for schema changes, paced batches for rows,
    with an observer that watches who waits and slows the job down. A ledger in
    the target database records what ran; a repository of specifications is
    compared with it to decide what is pending and in which order. The sources
    are the headers under src/cpp/src.

    ** What models what

    The model is a shallow embedding. Exceptions are [Err] values of [result]
    (below); atomics, locals and database tables are fields of records passed
    along; threads, the server and other sessions are sequences of events or of
    operations over which theorems quantify; SQL statements, OpenSSL, libpqxx
    and nlohmann's parser are parameters with their documented behaviour as laws
    in type classes, each with an instance that satisfies them.

    - [Prelude]: results, bytes and strings, lexicographic order, sorting,
      tactics ([ok_inv], [bool_prop], [case_if]), the hint database [laswell].
    - [Json]: nlohmann::json values and the accessors the sources use.
    - [Canonical] (canonical.h): UTF-8, UTF-16 member order, escaping, the RFC
      8785 rendering, digests. [Utf] and [CanonicalFacts]: decoding facts, the
      rendering is a prefix code, so equal bytes come from equal documents.
    - [Batches] (executor.h, [run_paced_batch], [run_composite_batch],
      [run_grouped_batch]): one batch of each of the three walks over a server
      given by a class; [BatchWalk] is what a batch promises to the loop.
      [BatchFacts] shows each walk keeps that promise, [Servers] has concrete
      servers that satisfy the laws.
    - [Walk] (executor.h, [run_backfill], [resume_cursor]): the commit loop, the
      single-statement form, the checks after it, and jobs one after another, each
      from the cursor that was kept, or from the beginning where the ledger is
      unreadable or the cursor is found stale. [WalkFacts]: rows are changed once and
      only once from a beginning on, across crashes and resumptions, walks end,
      transactions are bounded, a succeeded step is verified, what a late cancel skips.
    - [Jobs] (jobs.h): job states, the operation gate, the observer's contention
      ladder, job ids. [JobsFacts]: the gate's count, when a job pauses,
      throttles and resumes.
    - [Executor] (executor.h [execute], [run], [operation_slot],
      [wait_while_paused]; ledger.h step rows and [advisory_key]): the loop over
      the plan, transaction groups, retries for a lock, endings.
      Writes to the ledger may fail, and are caught. [ExecutorFacts]: groups are
      atomic, the job's record tells the truth and so does a ledger whose writes
      got through.
    - [Repository] (repository.h): manifests, classification, gates, drift,
      levels, concurrent groups. [RepositoryFacts]: the order respects
      dependencies, what is runnable, what may run together.
    - [Config] (config.h): the INI file, executor settings, connection strings,
      base64, keys. [ConfigFacts]: an accepted file has usable settings and whole
      keys; base64 and connection strings read back.
    - [Spec] (spec.h): intent kinds, conflict keys, shared checks, [parse_spec].
      [SpecFacts]: a signature covers every field that is read; an object's users
      share its conflict key.
    - [Intents] (spec.h, every [parse_...]): the body checks of the single kinds, the
      instance of the interface [Bodies] that [parse_spec] runs. [VendorKinds]
      (modules/citus, modules/pg_cron, modules/timescaledb: kinds.inc, parse.h,
      keys.inc): the kinds, checks and lock keys the vendor modules add.
      [IntentFacts]: what is accepted has identifiers where the planner quotes
      names, rows that fit their columns, foreign keys that pair theirs, and lock
      keys that can be read.
    - [Locks] (tools.h [start_migration], ledger.h [open_job],
      [release_locks]): advisory locks, one at a time, with sessions interleaved;
      jobs open together have nothing in common.
    - [Trust] (trust.h, ledger.h [verify_signer] and [record_migration], tools.h
      [trust_gates]): the two signature gates. [TrustFacts]: what they accept is
      exactly what is signed by accepted, trusted keys.
    - [Deploy] (deploy.h): the driver that runs a repository's groups: starting
      within the budget, polling, draining, signals, rehearsed chains, exit codes,
      over a class [Tools] of the calls it makes. [DeployFacts] refines it to an
      abstract protocol and, with [RepositoryFacts], shows that dependencies
      succeed first; [DeployEnds] that it ends, and what a rehearsed chain says.
    - [Quote] (planner_base.h): quoting of identifiers and relations, reading them
      back. [Plan] (planner_base.h, planner.h): transaction classes, statements and
      their text, steps, the plan's JSON and digest, memory, steps that are not
      rehearsed. [PlanFacts]: the digest is a receipt for what will run.
    - [Planner] (observations.h, planner.h, modules/timescaledb/constraint.h):
      observations and the rules of checks, foreign keys, NOT NULL and dropped
      constraints. [Indexes] (planner.h): columns, options and definitions of
      indexes, the comparison with an existing index, the modules' answers, builds
      (plain, concurrent, by parts, partitioned), dropping. [IndexFacts].
    - [RowSql] (planner_dml.h): keys, sources, pre-images, the statements over a
      source of rows and the query that cuts a batch from it, as data with their text.
      [RowMeaning] is the server's side: what that data does to rows with NULLs, one
      batch and the whole walk;
      [RowFacts] shows that a paced statement does what the whole one does and
      that a pre-image takes a change back. [RowPlan] (planner_dml.h,
      modules/citus/confine.h): what the row-level planners share, from the pacing
      decision to the indexes that prove a key unique. [Dml]: insert_rows,
      update_rows, delete_rows, merge_rows, copy_rows. [Backfill]: backfill and its
      three walks. [StepReading] (executor.h, [run_backfill]): which loop and which
      statements the executor takes from a step. [KeyFacts], [DmlFacts],
      [StepFacts], [RowRuns]: accepted keys name one row, paced changes are the
      whole change, pre-images revert, the executor runs the walk that was
      planned, large changes are not held in one transaction. [Demos]: the same on
      concrete rows, with added columns and views.
    - [AddColumn] (planner.h, [plan_add_column] and what it calls): columns as they
      are, with a default, with a fill, several together: the trigger, the passes, one
      scan for all, the trigger's end. The body of the trigger's function and what a
      pass sets and selects are data with their text. [FillFacts]: run as that data
      says, the passes do what the trigger does, and no row is left without a value
      while the application writes.
      [FillText]: the function's text stays within its quotes. [FillSteps]: the order
      of the recipe's statements.
    - [Views] (planner.h, [views_to_rebuild] to [plan_drop_column],
      [plan_replace_view]): the views above a column, how they are dropped and put
      back with what is attached to them, type changes and which of them are free.
      [ViewFacts]: no view is in the way of the rebuild, against a server that refuses
      for a dependency and may fail for anything else; privileges come back; what
      decides that a change is free.
    - [Tables] (planner.h, [plan_create_table], [plan_create_partition],
      [plan_drop_table], [plan_rename], [plan_attach_partition],
      [plan_detach_partition]): tables, renames and partitions. [TableFacts]: a rename
      and an attach planned again after they ran, wholly or in part.
    - [Keys] (planner.h, [plan_unique_like], [plan_unique_on_partitions],
      [plan_locked_build], [plan_locked_build_on_partitions],
      [plan_add_exclusion_constraint]): unique constraints, primary keys and exclusion
      constraints. [UniqueFacts]: the recipe that goes partition by partition stopped
      after any step or by a build that fails, against a server given by a class; why
      an exclusion constraint
      cannot be resumed. [UniqueDemo]: a table of two partitions.
    - [Objects] (planner.h, [plan_object]): schemas, extensions, types, enum labels,
      functions, sequences, dropped views. [ObjectFacts]: an intent that a specification
      repeats is planned once, and where the body of a function ends.
    - [Security] (planner.h, [plan_security]): row security, policies, triggers,
      privileges. [SecurityFacts]: what is as it should be is known again, and which
      privileges a column list limits.
    - [Replication] (planner.h, [plan_replication]): publications and subscriptions.
    - [Alter] (planner.h, [plan_alter_misc]), [Extras] ([plan_relation_extras],
      [plan_generic_object], [plan_final_kinds]): objects altered in place, materialized
      views, statistics, rules, object types without a kind of their own.
    - [Physical] (planner.h, [plan_physical]): identity, storage, rewrites and moves.
    - [TextSearch] (planner.h, [plan_set_text_search_mapping]): the mapping of a text
      search configuration and the indexes built with it. [AlterFacts]: where an
      alteration fails, or is not the one asked for; which steps of a subscription run
      outside a transaction; the statements of a mapping are accepted, leave the mapping
      asked for and are not planned again.
    - [Migration] (planner.h [plan_migration] and what it calls on every intent's
      steps): the projection of one intent's effect for
      the next, weaker locks first, timeouts, checks on an empty copy, comments,
      grouping, verification steps, refusals. [MigrationFacts] and
      [MigrationRuns]: every plan is laid out for [Executor], and an accepted one
      runs to the end there. [Recipes]: the multi-step recipes stopped after any
      step and planned anew, against a server given by a class.
    - [DryRun] (catalog.h [rehearse_steps] and what it calls, tools.h
      [rehearsal_inputs]): a plan tried in a transaction, statement by statement.
      [DryRunFacts]: what it says of each step.
    - [Tools] (tools.h [plan_migration_tool], [start_migration], [ChainRehearsal];
      catalog.h [dry_run]): what a request goes through before a job runs, and
      specifications rehearsed on top of each other. [ToolsFacts]: a job that starts
      passed every gate; what a chained rehearsal keeps, against an interface of what a
      transaction promises of its savepoints.
    - [Timescale] (modules/timescaledb: plan.h, project.h, index.h, guard.h): the rules
      of that module on a typed reading of its own, which [OtherRules] leaves open.
      [TimescaleFacts]: policies, which are statements with an effect, are what was
      asked and are not planned again; what the columnstore's settings keep; what the
      guard does not see.

    ** Bounds and fuel

    Integers of the sources that can overflow are written with their wrap-around
    ([int64_of_uint64], [fnv1a], [int32_of]); counters of rows and milliseconds
    are unbounded integers. [decode_loop] has the string's length as fuel and
    consumes a byte a turn ([decode_loop_fuel]); [levels] and [parallel_subsets]
    have the number of specifications as fuel, and each turn places at least
    one ([order_respects_dependencies] proves the result is there);
    [kGroupsPerBatch] is the source's own bound. Loops that wait for the outside
    ([walk], [execute], [pause_loop], [slot_loop]) are driven by their events:
    running out of events is a process that died, and that undisturbed runs end
    is a theorem ([undisturbed_walk_finishes], [undisturbed_run_succeeds]).
    [run_group] and [drain_loop] have a number of turns as fuel, [None] standing
    for a run that is not over; [deployment_ends] gives a number that is enough
    where jobs end. [normalize_loop] and [strip_parens] have the text's length as
    fuel and consume a character a turn. [source_walk] has one more than the rows of
    the source as fuel; each batch before the last takes a row, and
    [paced_change_is_the_whole_change] proves that all are taken. [free_tag] has one
    more than the length of the text as fuel, and a tag longer than the text is not in
    it ([free_tag_free]). [close] has one more than the number of views as fuel, and
    each turn that is not the last adds one ([close_fixed]).

    ** Behaviour that is not as meant

    Some theorems state what the code does where that differs from what it is
    for: a cancelled batch whose transaction held earlier batches
    ([late_cancel_skips_rows]), marks of a rollback that do not reach the ledger
    ([lost_mark_leaves_succeeded]), keys up to zero
    ([plain_walk_never_visits_keys_up_to_zero]), observers of several servers
    ([foreign_observer_defeats_the_pause]), groups across databases
    ([followers_of_another_database_are_not_compared]), arrays of a type
    ([array_columns_miss_the_types_key]), several signatures
    ([ledger_pairs_the_signer_with_the_first_signature]), unsigned integers
    ([unsigned_values_wrap_before_the_range_test]), limits that differ between
    connections ([lower_limit_elsewhere_refuses]), the check after a partitioned
    index ([partitioned_index_goes_unverified]), names the server truncates
    ([long_check_name_stops_the_recipe]), constraints added in one step
    ([one_step_check_never_settles]), NOT NULL stopped before its last step
    ([not_null_recipe_resumes]), views that later intents read
    ([views_are_not_projected]), names no parser looks at
    ([accepted_lock_keys_can_be_read]), numbers past 32 bits
    ([large_moduli_wrap]), NULL in a key of several columns
    ([null_in_a_key_ends_the_walk]), identity columns as keys
    ([identity_keys_cannot_be_updated]), checks known by name only
    ([kept_check_is_taken_for_another]), defaults that are no strings
    ([default_text]), renamed tables ([renames_are_known_again]), an attach stopped
    before its last step ([attach_recipe_resumes]), privileges and role names of
    rebuilt views ([grants_read_back], [quoted_grantees_are_quoted_again]), types that
    go on after their modifier ([text_after_the_modifier_is_not_read]), exclusion
    constraints by partition ([exclusion_recipe_does_not_resume]), partitions created
    during a recipe ([partition_made_meanwhile_is_built_again]), indexes adopted by
    their columns ([adopted_index_is_not_looked_into]), the body of a function
    ([function_body_reads_back]), procedures that are there
    ([existing_procedure_stops_the_plan]), row security that is disabled
    ([security_changes_settle]), column lists of several privileges
    ([columns_limit_the_last_privilege]), objects renamed and changed otherwise
    ([renamed_object_is_not_found]), subscriptions given other publications
    ([subscriptions_run_where_they_can]), changes that an early return hides
    ([same_version_hides_the_schema], [added_check_hides_the_rest]), sequences restarted
    past 32 bits ([large_restart_wraps]), steps after a gap in a rehearsal
    ([rehearsal_accounts_for_its_steps], [refused_copy_is_a_problem]), epochs where a job
    is started directly ([direct_start_skips_the_epoch]), indexes and dimensions that
    TimescaleDB's guard takes as they were ([dropped_index_is_still_found],
    [second_dimension_is_forgotten]), columnstore settings that are left out
    ([kept_segmentation]).

    ** What is not modelled

    Every kind of planner.h has its rule here; the rule of a kind that a module declares
    is a field of the class [OtherRules] of [Migration]: the theorems on plans hold
    whatever it emits, but say nothing of what it does. So are the JSON of the budget
    (compute_budget) and the module hooks, except the modules' kinds, how answers
    are merged and what [Timescale] models. The plan's text rendering,
    the hints and wording of refusals and the
    wording of deployment reports are left out. PostgreSQL is a class wherever a
    statement's effect matters (the walks' servers in [Batches], [Server] and
    [Documented] in [Recipes], [KeyServer], [ViewServer], [NamedServer]) and a function
    on rows in [RowMeaning], where constraint violations and concurrent writers are left
    out. [objects_are_known_again] and [projected_changes_settle] are about the
    planner's own picture of what its steps leave, within one specification. The catalog queries
    (catalog.h), the ledger's status queries, sessions (session.h) and the job registry
    are calls of the classes [Host] and [Linked]; signals, the JSON-RPC surface
    (server.h, the tools that only report) and the other vendor modules are input and
    output around what is modelled. *)

From stdpp Require Export base list strings gmap sets sorting.
From Stdlib Require Export ZArith Lia Ascii.

#[global] Open Scope Z_scope.

(** ** Results: the code's exceptions as values

    Every C++ function of the tool that throws is a function into
    [result E A]; [Err] carries what was thrown. *)
Inductive result (E A : Type) : Type :=
  | Ok (a : A)
  | Err (e : E).
Arguments Ok {E A} a.
Arguments Err {E A} e.

#[global] Instance result_ret {E} : MRet (result E) := fun A a => Ok a.
#[global] Instance result_bind {E} : MBind (result E) :=
  fun A B f r => match r with Ok a => f a | Err e => Err e end.
#[global] Instance result_fmap {E} : FMap (result E) :=
  fun A B f r => match r with Ok a => Ok (f a) | Err e => Err e end.

Definition is_ok {E A} (r : result E A) : bool :=
  match r with Ok _ => true | Err _ => false end.

(** A throw guarded by a condition: [if (c) throw e;]. *)
Definition throw_if {E} (c : bool) (e : E) : result E unit :=
  if c then Err e else Ok tt.

#[global] Instance result_eq_dec {E A} `{EqDecision E, EqDecision A} :
  EqDecision (result E A).
Proof. solve_decision. Defined.

Lemma bind_Ok {E A B} (r : result E A) (f : A -> result E B) b :
  r ≫= f = Ok b <-> exists a, r = Ok a /\ f a = Ok b.
Proof. destruct r; naive_solver. Qed.

Lemma throw_if_Ok {E} c (e : E) u : throw_if c e = Ok u <-> c = false.
Proof. destruct c, u; naive_solver. Qed.

(** Running a fallible function over a list, left to right, stopping at the
    first exception. *)
Fixpoint sequence {E A} (l : list (result E A)) : result E (list A) :=
  match l with
  | [] => Ok []
  | r :: l' => a ← r; la ← sequence l'; Ok (a :: la)
  end.

Lemma sequence_Ok {E A} (l : list (result E A)) la :
  sequence l = Ok la <-> l = Ok <$> la.
Proof.
  revert la; induction l as [|r l IH]; intros la; simpl.
  - destruct la; naive_solver.
  - rewrite bind_Ok. split.
    + intros (a & -> & H). apply bind_Ok in H as (l' & Hl & [= <-]).
      apply IH in Hl. by subst.
    + destruct la as [|a la]; [done|]. intros [= -> ->].
      exists a. split; [done|]. apply bind_Ok. exists la. by rewrite IH.
Qed.

Lemma sequence_length {E A} (l : list (result E A)) la :
  sequence l = Ok la -> length la = length l.
Proof. intros ->%sequence_Ok. by rewrite length_fmap. Qed.

(** ** Automation *)
Create HintDb laswell.

Ltac ok_inv :=
  repeat match goal with
  | H : Ok _ = Ok _ |- _ => injection H as H; try subst
  | H : Ok _ = Err _ |- _ => discriminate H
  | H : Err _ = Ok _ |- _ => discriminate H
  | H : (_ ≫= _) = Ok _ |- _ => apply bind_Ok in H; destruct H as (? & ? & ?)
  | H : throw_if _ _ = Ok _ |- _ => apply throw_if_Ok in H
  end.

(** Booleans of the code to propositions. *)
Ltac bool_prop :=
  repeat match goal with
  | H : (_ && _)%bool = true |- _ => apply andb_prop in H; destruct H
  | H : (_ || _)%bool = false |- _ => apply orb_false_elim in H; destruct H
  | H : negb _ = true |- _ => apply negb_true_iff in H
  | H : negb _ = false |- _ => apply negb_false_iff in H
  | H : (_ =? _)%Z = true |- _ => apply Z.eqb_eq in H
  | H : (_ =? _)%Z = false |- _ => apply Z.eqb_neq in H
  | H : (_ <? _)%Z = true |- _ => apply Z.ltb_lt in H
  | H : (_ <? _)%Z = false |- _ => apply Z.ltb_ge in H
  | H : (_ <=? _)%Z = true |- _ => apply Z.leb_le in H
  | H : (_ <=? _)%Z = false |- _ => apply Z.leb_gt in H
  end.

(** Case analysis on the next [if] or [match] scrutinee of the goal. *)
Ltac case_if :=
  match goal with
  | |- context [if ?b then _ else _] => destruct b eqn:?
  end.

Ltac case_if_in H :=
  match type of H with
  | context [if ?b then _ else _] => destruct b eqn:?
  end.

(** ** Bytes

    A [std::string] is a Rocq [string]: a sequence of 8-bit characters.
    [byte_val] is [static_cast<unsigned char>]. *)
Definition byte_val (c : ascii) : Z := Z.of_N (N_of_ascii c).
Definition byte_of (z : Z) : ascii := ascii_of_N (Z.to_N z).

(** [std::tolower] and [std::isalnum] in the C locale. *)
Definition to_lower (c : ascii) : ascii :=
  let b := byte_val c in if (65 <=? b) && (b <=? 90) then byte_of (b + 32) else c.

Fixpoint lower_text (s : string) : string :=
  match s with EmptyString => "" | String c s' => String (to_lower c) (lower_text s') end.

Definition is_alnum (c : ascii) : bool :=
  let b := byte_val c in
  (48 <=? b) && (b <=? 57) || (65 <=? b) && (b <=? 90) || (97 <=? b) && (b <=? 122).

Lemma byte_val_range c : 0 <= byte_val c < 256.
Proof.
  unfold byte_val. pose proof (N_ascii_bounded c). lia.
Qed.

Lemma byte_of_val c : byte_of (byte_val c) = c.
Proof. unfold byte_of, byte_val. by rewrite N2Z.id, ascii_N_embedding. Qed.

Lemma byte_val_of z : 0 <= z < 256 -> byte_val (byte_of z) = z.
Proof.
  intros Hz. unfold byte_of, byte_val. rewrite N_ascii_embedding by lia. lia.
Qed.

Lemma byte_val_inj a b : byte_val a = byte_val b -> a = b.
Proof. intros H. by rewrite <- (byte_of_val a), <- (byte_of_val b), H. Qed.

(** ** Strings *)
Definition string_of_char (c : ascii) : string := String c EmptyString.

Lemma string_app_cons c (s1 s2 : string) :
  String c s1 +:+ s2 = String c (s1 +:+ s2).
Proof. done. Qed.

Lemma string_cons_inj c1 c2 (s1 s2 : string) :
  String c1 s1 = String c2 s2 -> c1 = c2 /\ s1 = s2.
Proof. by intros [= -> ->]. Qed.

Lemma string_app_nil_l (s : string) : "" +:+ s = s.
Proof. done. Qed.

Lemma string_app_nil_r (s : string) : s +:+ "" = s.
Proof. induction s as [|c s IH]; [done|]. by rewrite string_app_cons, IH. Qed.

Lemma string_app_assoc (s1 s2 s3 : string) :
  (s1 +:+ s2) +:+ s3 = s1 +:+ (s2 +:+ s3).
Proof. induction s1 as [|c s IH]; [done|]. by rewrite !string_app_cons, IH. Qed.

Lemma string_snoc_app acc c s : (acc +:+ String c "") +:+ s = acc +:+ String c s.
Proof. by rewrite string_app_assoc, string_app_cons, string_app_nil_l. Qed.

Lemma string_length_app (s1 s2 : string) :
  String.length (s1 +:+ s2) = (String.length s1 + String.length s2)%nat.
Proof. induction s1 as [|c s IH]; [done|]. rewrite string_app_cons. simpl. by rewrite IH. Qed.

Lemma string_app_inv_l (s s1 s2 : string) : s +:+ s1 = s +:+ s2 -> s1 = s2.
Proof. induction s as [|c s IH]; [done|]. rewrite !string_app_cons. intros [= ?]. auto. Qed.

(** The blanks the sources trim: [" \n\t\r"]. *)
Definition is_blank (c : ascii) : bool :=
  Ascii.eqb c " " || Ascii.eqb c (byte_of 10) || Ascii.eqb c (byte_of 9) || Ascii.eqb c (byte_of 13).

(** Everything up to [find_last_not_of(" \n\t\r")], the text reversed: the blanks
    at the front go. *)
Fixpoint drop_blanks (l : list ascii) : list ascii :=
  match l with
  | c :: l' => if is_blank c then drop_blanks l' else l
  | [] => []
  end.

(** [join(v, sep)] of planner_base.h, and the [if (!out.empty()) out += sep]
    loops that spell it out elsewhere. *)
Fixpoint join (sep : string) (l : list string) : string :=
  match l with
  | [] => ""
  | [x] => x
  | x :: l' => x +:+ sep +:+ join sep l'
  end.

(** ** Lexicographic order on sequences of integers

    [operator<] on [std::vector<std::uint16_t>] and, through the byte values,
    on [std::string]. *)
Fixpoint lex_leb (a b : list Z) : bool :=
  match a, b with
  | [], _ => true
  | _ :: _, [] => false
  | x :: a', y :: b' => if x <? y then true else if x =? y then lex_leb a' b' else false
  end.

Definition lex_ltb (a b : list Z) : bool := negb (lex_leb b a).

Lemma lex_leb_refl a : lex_leb a a = true.
Proof. induction a as [|x a IH]; [done|]. simpl. by rewrite Z.ltb_irrefl, Z.eqb_refl. Qed.

Lemma lex_leb_total a b : lex_leb a b = true \/ lex_leb b a = true.
Proof.
  revert b; induction a as [|x a IH]; intros [|y b]; simpl; auto.
  destruct (Z.lt_trichotomy x y) as [H|[->|H]].
  - left. by replace (x <? y) with true by lia.
  - rewrite Z.ltb_irrefl, Z.eqb_refl. apply IH.
  - right. by replace (y <? x) with true by lia.
Qed.

Lemma lex_leb_antisym a b : lex_leb a b = true -> lex_leb b a = true -> a = b.
Proof.
  revert b; induction a as [|x a IH]; intros [|y b]; simpl; try done.
  destruct (Z.lt_trichotomy x y) as [H|[->|H]].
  - replace (x <? y) with true by lia. replace (y <? x) with false by lia.
    replace (y =? x) with false by lia. done.
  - rewrite Z.ltb_irrefl, Z.eqb_refl. intros. f_equal. auto.
  - replace (x <? y) with false by lia. replace (x =? y) with false by lia. done.
Qed.

Lemma lex_leb_trans a b c : lex_leb a b = true -> lex_leb b c = true -> lex_leb a c = true.
Proof.
  revert b c; induction a as [|x a IH]; intros [|y b] [|z c]; simpl; try done.
  intros H1 H2.
  destruct (Z.ltb_spec x y), (Z.ltb_spec y z); simpl in *;
    repeat (case_if_in H1 || case_if_in H2); bool_prop; try done.
  - by replace (x <? z) with true by lia.
  - by replace (x <? z) with true by lia.
  - by replace (x <? z) with true by lia.
  - subst. rewrite Z.ltb_irrefl, Z.eqb_refl. eauto.
Qed.

(** ** Sorting

    [std::sort] with a strict comparison is modelled by a stable insertion
    sort; the facts below hold of any sorting function on keys that are
    pairwise distinguished by the comparison. *)
Fixpoint insert_by {A} (le : A -> A -> bool) (x : A) (l : list A) : list A :=
  match l with
  | [] => [x]
  | y :: l' => if le x y then x :: l else y :: insert_by le x l'
  end.

Fixpoint sort_by {A} (le : A -> A -> bool) (l : list A) : list A :=
  match l with
  | [] => []
  | x :: l' => insert_by le x (sort_by le l')
  end.

Section sort_by.
Context {A : Type} (le : A -> A -> bool).
Context (le_total : forall x y, le x y = true \/ le y x = true).
Context (le_trans : forall x y z, le x y = true -> le y z = true -> le x z = true).
Let R (x y : A) : Prop := le x y = true.

Lemma insert_by_Permutation x l : insert_by le x l ≡ₚ x :: l.
Proof using Type.
  induction l as [|y l IH]; simpl; [done|]. case_if; [done|].
  rewrite IH. constructor.
Qed.

Lemma sort_by_Permutation l : sort_by le l ≡ₚ l.
Proof using Type. induction l as [|x l IH]; simpl; [done|]. by rewrite insert_by_Permutation, IH. Qed.

Lemma insert_by_sorted x l : StronglySorted R l -> StronglySorted R (insert_by le x l).
Proof.
  induction 1 as [|y l Hl IH Hy]; simpl; [repeat constructor|]. case_if.
  - constructor; [by constructor|]. constructor; [done|].
    eapply Forall_impl; [exact Hy|]. intros z. by apply le_trans.
  - constructor; [done|]. apply Forall_forall. intros z Hz.
    rewrite insert_by_Permutation in Hz. apply elem_of_cons in Hz as [->|Hz].
    + destruct (le_total x y); [congruence|done].
    + rewrite Forall_forall in Hy. by apply Hy.
Qed.

Lemma sort_by_sorted l : StronglySorted R (sort_by le l).
Proof. induction l; simpl; [constructor|]. by apply insert_by_sorted. Qed.

Lemma insert_by_head x l : Forall (R x) l -> insert_by le x l = x :: l.
Proof using Type. intros Hl. destruct Hl as [|y l Hxy]; simpl; [done|]. unfold R in Hxy. by rewrite Hxy. Qed.

Lemma sort_by_id l : StronglySorted R l -> sort_by le l = l.
Proof using Type. induction 1 as [|x l Hl IH Hx]; simpl; [done|]. rewrite IH. by apply insert_by_head. Qed.

Lemma sort_by_idemp l : sort_by le (sort_by le l) = sort_by le l.
Proof. apply sort_by_id, sort_by_sorted. Qed.

(** Two orderings of the same elements sort to the same list when the
    comparison distinguishes them. *)
Lemma sort_by_unique l1 l2 :
  (forall x y, x ∈ l1 -> y ∈ l1 -> le x y = true -> le y x = true -> x = y) ->
  l1 ≡ₚ l2 -> sort_by le l1 = sort_by le l2.
Proof.
  intros Hanti Hp. apply (StronglySorted_unique_strong R).
  - intros x y Hx Hy. rewrite sort_by_Permutation in Hx, Hy. rewrite <- Hp in Hy. by apply Hanti.
  - apply sort_by_sorted.
  - apply sort_by_sorted.
  - by rewrite !sort_by_Permutation.
Qed.
End sort_by.

(** Sorting by a part of the element commutes with changing the rest. *)
Lemma sort_by_fmap {A B} (leA : A -> A -> bool) (leB : B -> B -> bool) (f : A -> B) l :
  (forall x y, leB (f x) (f y) = leA x y) ->
  sort_by leB (f <$> l) = f <$> sort_by leA l.
Proof.
  intros Hf. induction l as [|x l IH]; csimpl; [done|]. rewrite IH.
  generalize (sort_by leA l). intros l'. induction l' as [|y l' IH']; csimpl; [done|].
  rewrite Hf. case_if; csimpl; [done|]. by rewrite IH'.
Qed.

#[export] Hint Resolve lex_leb_refl byte_val_range : laswell.

(** ** Exhaustive facts about bytes and disjoint bit fields *)
Lemma byte_forall (P : Z -> bool) :
  forallb P (seqZ 0 256) = true -> forall c, P (byte_val c) = true.
Proof.
  intros H c. rewrite forallb_forall in H. apply H.
  apply list_elem_of_In, elem_of_seqZ. pose proof (byte_val_range c). lia.
Qed.

Ltac byte_fact P c H :=
  pose proof (byte_forall P eq_refl c) as H; cbv beta in H.

(** A field of [k] bits below a shifted value: [|] is [+]. *)
Lemma lor_shiftl_add a k y : 0 <= k -> 0 <= y < 2 ^ k -> Z.lor (Z.shiftl a k) y = a * 2 ^ k + y.
Proof.
  intros Hk Hy. rewrite <- Z.shiftl_mul_pow2 by done.
  assert (Z.land (Z.shiftl a k) y = 0) as Hland.
  { apply Z.bits_inj'. intros i Hi. rewrite Z.land_spec, Z.bits_0.
    destruct (Z.lt_ge_cases i k).
    - by rewrite Z.shiftl_spec_low.
    - rewrite <- (Z.mod_small y (2 ^ k)) by done.
      by rewrite Z.mod_pow2_bits_high, andb_false_r by lia. }
  rewrite <- Z.lxor_lor, <- Z.add_nocarry_lxor by done. done.
Qed.
