(* ===== verification/Json.v ===== *)
(** * Json: the [nlohmann::json] values the tool reads and writes

    The data the specifications, the plans and the ledger entries are made of,
    with the accessors the sources use on them ([contains], [value],
    [operator[]], [erase]).  An object is the [std::map] nlohmann stores: an
    association list with distinct keys. *)
From S2P Require Import Prelude.

(** [json::value_t] with its payloads.  [JInt] is [number_integer] (a value
    that did not fit the unsigned alternative), [JUint] is [number_unsigned];
    the parser produces the second for every non-negative literal.  A double
    is kept as its 64-bit pattern: nothing in the tool computes with one. *)
Inductive json : Type :=
  | JNull
  | JBool (b : bool)
  | JInt (n : Z)
  | JUint (n : Z)
  | JFloat (bits : Z)
  | JStr (s : string)
  | JArr (l : list json)
  | JObj (l : list (string * json))
  | JBinary
  | JDiscarded.

(** Induction that reaches the elements of arrays and objects. *)
Section json_ind_nested.
Context (P : json -> Prop).
Context (Hnull : P JNull) (Hbool : forall b, P (JBool b))
  (Hint : forall n, P (JInt n)) (Huint : forall n, P (JUint n))
  (Hfloat : forall n, P (JFloat n)) (Hstr : forall s, P (JStr s))
  (Harr : forall l, Forall P l -> P (JArr l))
  (Hobj : forall l, Forall (fun kv => P kv.2) l -> P (JObj l))
  (Hbin : P JBinary) (Hdisc : P JDiscarded).

Fixpoint json_nested_ind (v : json) : P v :=
  match v with
  | JNull => Hnull
  | JBool b => Hbool b
  | JInt n => Hint n
  | JUint n => Huint n
  | JFloat n => Hfloat n
  | JStr s => Hstr s
  | JArr l => Harr l ((fix go l : Forall P l :=
      match l with
      | [] => Forall_nil_2 _
      | x :: l' => Forall_cons_2 _ _ _ (json_nested_ind x) (go l')
      end) l)
  | JObj l => Hobj l ((fix go l : Forall (fun kv => P kv.2) l :=
      match l with
      | [] => Forall_nil_2 _
      | x :: l' => Forall_cons_2 _ x _ (json_nested_ind x.2) (go l')
      end) l)
  | JBinary => Hbin
  | JDiscarded => Hdisc
  end.
End json_ind_nested.

(** What the accessors throw ([json::type_error], [json::out_of_range]). *)
Inductive json_error : Type :=
  | TypeError
  | OutOfRange.

#[global] Instance json_error_eq_dec : EqDecision json_error.
Proof. solve_decision. Defined.

Fixpoint obj_find (k : string) (l : list (string * json)) : option json :=
  match l with
  | [] => None
  | (k', v) :: l' => if String.eqb k k' then Some v else obj_find k l'
  end.

Definition is_object (v : json) : bool := match v with JObj _ => true | _ => false end.
Definition is_array (v : json) : bool := match v with JArr _ => true | _ => false end.
Definition is_string (v : json) : bool := match v with JStr _ => true | _ => false end.
Definition is_boolean (v : json) : bool := match v with JBool _ => true | _ => false end.
(** [is_number_integer()] is true of both integer alternatives. *)
Definition is_number_integer (v : json) : bool :=
  match v with JInt _ | JUint _ => true | _ => false end.
(** [empty()]: null and empty containers. *)
Definition json_empty (v : json) : bool :=
  match v with JNull => true | JArr [] => true | JObj [] => true | _ => false end.

(** [v.contains(k)]: false on anything that is not an object. *)
Definition contains (v : json) (k : string) : bool :=
  match v with
  | JObj l => match obj_find k l with Some _ => true | None => false end
  | _ => false
  end.

(** [v[k]] on a const value whose key is present, the only use the sources
    make of it; the null value otherwise. *)
Definition at_key (v : json) (k : string) : json :=
  match v with
  | JObj l => default JNull (obj_find k l)
  | _ => JNull
  end.

(** [v.value(k, d)] at the types the sources use. *)
Definition value_json (v : json) (k : string) (d : json) : result json_error json :=
  match v with
  | JObj l => Ok (default d (obj_find k l))
  | _ => Err TypeError
  end.

Definition value_str (v : json) (k d : string) : result json_error string :=
  match v with
  | JObj l =>
      match obj_find k l with
      | None => Ok d
      | Some (JStr s) => Ok s
      | Some _ => Err TypeError
      end
  | _ => Err TypeError
  end.

Definition value_bool (v : json) (k : string) (d : bool) : result json_error bool :=
  match v with
  | JObj l =>
      match obj_find k l with
      | None => Ok d
      | Some (JBool b) => Ok b
      | Some _ => Err TypeError
      end
  | _ => Err TypeError
  end.

(** [static_cast<int>] of an integer and of a finite double (its 64-bit pattern). *)
Definition int32_of (n : Z) : Z :=
  let m := n `mod` 2 ^ 32 in if m <? 2 ^ 31 then m else m - 2 ^ 32.

Definition double_trunc (bits : Z) : Z :=
  let e := Z.land (Z.shiftr bits 52) 2047 in
  let m := Z.lor (Z.land bits (2 ^ 52 - 1)) (2 ^ 52) in
  let a := if e <? 1023 then 0 else Z.shiftr (Z.shiftl m (e - 1023)) 52 in
  if Z.testbit bits 63 then - a else a.

(** [v.value(k, 0)] at [int]: every arithmetic alternative converts. *)
Definition value_int (v : json) (k : string) (d : Z) : result json_error Z :=
  match v with
  | JObj l =>
      match obj_find k l with
      | None => Ok d
      | Some (JInt n) | Some (JUint n) => Ok (int32_of n)
      | Some (JFloat bits) => Ok (int32_of (double_trunc bits))
      | Some (JBool b) => Ok (if b then 1 else 0)
      | Some _ => Err TypeError
      end
  | _ => Err TypeError
  end.

(** [v.erase(k)] on an object. *)
Definition erase_key (v : json) (k : string) : json :=
  match v with
  | JObj l => JObj (List.filter (fun kv => negb (String.eqb k kv.1)) l)
  | _ => v
  end.

Definition obj_keys (v : json) : list string :=
  match v with JObj l => l.*1 | _ => [] end.

Lemma obj_find_Some_in k l v : obj_find k l = Some v -> (k, v) ∈ l.
Proof.
  induction l as [|[k' v'] l IH]; simpl; [done|].
  destruct (String.eqb_spec k k') as [->|]; [intros [= ->]; left|].
  intros. right. auto.
Qed.

Lemma obj_find_in k l v : NoDup l.*1 -> (k, v) ∈ l -> obj_find k l = Some v.
Proof.
  induction l as [|[k' v'] l IH]; simpl; intros Hnd Hin; [by apply elem_of_nil in Hin|].
  apply NoDup_cons in Hnd as [Hnotin Hnd].
  apply elem_of_cons in Hin as [[= -> ->]|Hin]; [by rewrite String.eqb_refl|].
  destruct (String.eqb_spec k k') as [->|]; [|auto].
  destruct Hnotin. apply list_elem_of_fmap. by exists (k', v).
Qed.

Lemma obj_find_None k l : obj_find k l = None <-> k ∉ l.*1.
Proof.
  induction l as [|[k' v'] l IH]; simpl; [set_solver|].
  rewrite not_elem_of_cons. destruct (String.eqb_spec k k') as [->|Hne].
  - naive_solver.
  - rewrite IH. naive_solver.
Qed.

(** Lookup sees a member list only up to reordering. *)
Lemma obj_find_Permutation k l1 l2 :
  NoDup l1.*1 -> l1 ≡ₚ l2 -> obj_find k l1 = obj_find k l2.
Proof.
  intros Hnd Hp.
  destruct (obj_find k l1) as [v|] eqn:E1; symmetry.
  - apply obj_find_in; [by rewrite <- Hp|]. rewrite <- Hp. by apply obj_find_Some_in.
  - apply obj_find_None. apply obj_find_None in E1. by rewrite <- Hp.
Qed.
