(* ===== verification/Canonical.v ===== *)
(** * Canonical: RFC 8785 canonical bytes (src/cpp/src/canonical.h)

    UTF-8 decoding, the UTF-16 member order, string escaping and the
    canonical rendering that every digest and every signature is taken over. *)
From S2P Require Import Prelude Json.

(** What this header throws.  [FloatRefused] and [OutOfSafeRange] carry the
    JSON pointer their message names. *)
Inductive canon_error : Type :=
  | TruncatedUtf8
  | MalformedContinuation
  | InvalidLeadByte
  | FloatRefused (pointer : string)
  | OutOfSafeRange (pointer : string)
  | Unrepresentable (pointer : string).

#[global] Instance canon_error_eq_dec : EqDecision canon_error.
Proof. solve_decision. Defined.

(** ** UTF-8 *)

Definition is_continuation (c : ascii) : bool := Z.land (byte_val c) 0xC0 =? 0x80.

(** The first [n] characters of [r], split off: the loop of the lambda
    [need(n)].  The length is tested before any byte is looked at. *)
Fixpoint split_at (n : nat) (r : string) : option (string * string) :=
  match n, r with
  | O, _ => Some ("", r)
  | S n', String c r' =>
      match split_at n' r' with
      | Some (p, q) => Some (String c p, q)
      | None => None
      end
  | S _, EmptyString => None
  end.

Fixpoint all_continuation (s : string) : bool :=
  match s with
  | EmptyString => true
  | String c s' => is_continuation c && all_continuation s'
  end.

Definition need (n : nat) (r : string) : result canon_error (string * string) :=
  match split_at n r with
  | None => Err TruncatedUtf8
  | Some (p, q) => if all_continuation p then Ok (p, q) else Err MalformedContinuation
  end.

(** The code point of a lead byte's payload and its continuation bytes:
    each contributes its low six bits. *)
Fixpoint fold_continuation (acc : Z) (s : string) : Z :=
  match s with
  | EmptyString => acc
  | String c s' =>
      fold_continuation (Z.lor (Z.shiftl acc 6) (Z.land (byte_val c) 0x3F)) s'
  end.

(** [utf8_next(s, i)] on the suffix of [s] at [i]: the code point, the bytes
    it was decoded from, and the suffix at the advanced index. *)
Definition utf8_next (s : string) : result canon_error (Z * string * string) :=
  match s with
  | EmptyString => Err TruncatedUtf8
  | String b0 r =>
      let c0 := byte_val b0 in
      if c0 <? 0x80 then Ok (c0, String b0 "", r)
      else if Z.land c0 0xE0 =? 0xC0 then
        '(p, q) ← need 1 r; Ok (fold_continuation (Z.land c0 0x1F) p, String b0 p, q)
      else if Z.land c0 0xF0 =? 0xE0 then
        '(p, q) ← need 2 r; Ok (fold_continuation (Z.land c0 0x0F) p, String b0 p, q)
      else if Z.land c0 0xF8 =? 0xF0 then
        '(p, q) ← need 3 r; Ok (fold_continuation (Z.land c0 0x07) p, String b0 p, q)
      else Err InvalidLeadByte
  end.

(** The [while (i < s.size())] loops over [utf8_next]: the code points of a
    string with the bytes of each.  The fuel is the length of the string:
    every iteration consumes at least one byte ([decode_fuel_enough]). *)
Fixpoint decode_loop (fuel : nat) (s : string) : result canon_error (list (Z * string)) :=
  match fuel, s with
  | _, EmptyString => Ok []
  | O, String _ _ => Err TruncatedUtf8
  | S fuel', String _ _ =>
      '(cp, bytes, rest) ← utf8_next s;
      l ← decode_loop fuel' rest;
      Ok ((cp, bytes) :: l)
  end.

Definition decode (s : string) : result canon_error (list (Z * string)) :=
  decode_loop (String.length s) s.

(** ** UTF-16 *)

(** [static_cast<std::uint16_t>]. *)
Definition u16 (z : Z) : Z := z mod 0x10000.

Definition utf16_of (cp : Z) : list Z :=
  if cp <=? 0xFFFF then [u16 cp]
  else
    let v := cp - 0x10000 in
    [u16 (0xD800 + Z.shiftr v 10); u16 (0xDC00 + Z.land v 0x3FF)].

Definition utf16_units (s : string) : result canon_error (list Z) :=
  l ← decode s; Ok (concat (utf16_of ∘ fst <$> l)).

(** [utf16_less], on keys that decode. *)
Definition utf16_less (a b : string) : result canon_error bool :=
  ua ← utf16_units a; ub ← utf16_units b; Ok (lex_ltb ua ub).

(** ** Escaping *)

Definition quote_char : ascii := byte_of 34.
Definition backslash : ascii := byte_of 92.

Definition hex_digit (z : Z) : ascii :=
  if z <? 10 then byte_of (48 + z) else byte_of (87 + z).

Definition escape_cp (cp : Z) (bytes : string) : string :=
  if cp =? 34 then String backslash (String quote_char "")
  else if cp =? 92 then String backslash (String backslash "")
  else if cp =? 8 then String backslash "b"
  else if cp =? 12 then String backslash "f"
  else if cp =? 10 then String backslash "n"
  else if cp =? 13 then String backslash "r"
  else if cp =? 9 then String backslash "t"
  else if cp <? 0x20 then
    String backslash ("u00" +:+ String (hex_digit (Z.land (Z.shiftr cp 4) 0xF))
                                  (String (hex_digit (Z.land cp 0xF)) ""))
  else bytes.

Fixpoint escape_pieces (l : list (Z * string)) : string :=
  match l with
  | [] => ""
  | (cp, bytes) :: l' => escape_cp cp bytes +:+ escape_pieces l'
  end.

(** [escape_into(s, out)]: what is appended to [out]. *)
Definition escape_into (s : string) : result canon_error string :=
  l ← decode s;
  Ok (String quote_char (escape_pieces l +:+ String quote_char "")).

(** ** Rendering *)

(** [std::to_string] of a non-negative integer, most significant digit
    first; the fuel bounds the number of digits. *)
Fixpoint dec_digits (fuel : nat) (n : Z) (acc : string) : string :=
  match fuel with
  | O => acc
  | S fuel' =>
      let acc' := String (byte_of (48 + n mod 10)) acc in
      if n <? 10 then acc' else dec_digits fuel' (n / 10) acc'
  end.

Definition digits_fuel (n : Z) : nat := S (Z.to_nat (Z.log2 n)).

Definition to_string (n : Z) : string :=
  if n <? 0 then String (byte_of 45) (dec_digits (digits_fuel (- n)) (- n) "")
  else dec_digits (digits_fuel n) n "".

(** [static_cast<std::int64_t>] of a [std::uint64_t]. *)
Definition int64_of_uint64 (n : Z) : Z :=
  let m := n mod 2 ^ 64 in if m <? 2 ^ 63 then m else m - 2 ^ 64.

Definition canonical_int (n : Z) (pointer : string) : result canon_error string :=
  if (n >? 9007199254740991) || (n <? -9007199254740991) then Err (OutOfSafeRange pointer)
  else Ok (to_string n).

(** The UTF-16 form of a member name that decodes. *)
Definition units_of (k : string) : list Z :=
  match utf16_units k with Ok u => u | Err _ => [] end.

(** The member comparison [std::sort] runs on: not [utf16_less] the other way. *)
Definition member_le {A} (a b : string * A) : bool := lex_leb (units_of a.1) (units_of b.1).

Fixpoint check_names {A} (l : list (string * A)) : result canon_error unit :=
  match l with
  | [] => Ok tt
  | m :: l' => _ ← utf16_units m.1; check_names l'
  end.

(** [std::sort(keys, utf16_less)].  Sorting fewer than two names compares
    nothing, so a malformed name is met there only by [escape_into]. *)
Definition sort_members {A} (l : list (string * A)) : result canon_error (list (string * A)) :=
  match l with
  | [] | [_] => Ok l
  | _ => _ ← check_names l; Ok (sort_by member_le l)
  end.

Definition render_member (m : string * result canon_error string) : result canon_error string :=
  k ← escape_into m.1; v ← m.2; Ok (k +:+ String (byte_of 58) v).

Definition braces (open close : Z) (items : list string) : string :=
  String (byte_of open) (join "," items +:+ String (byte_of close) "").

(** [canonicalize_into(v, out, pointer)]: the text appended to [out], or the
    exception.  The members of an object are rendered in the sorted order, so
    the exception raised is that of the first failing member in that order. *)
Fixpoint canonicalize_into (v : json) (pointer : string) : result canon_error string :=
  match v with
  | JNull => Ok "null"
  | JBool b => Ok (if b then "true" else "false")
  | JFloat _ => Err (FloatRefused (if String.eqb pointer "" then "/" else pointer))
  | JInt n => canonical_int n pointer
  | JUint n => canonical_int (int64_of_uint64 n) pointer
  | JStr s => escape_into s
  | JArr l =>
      items ← sequence ((fix go (i : Z) (l : list json) : list (result canon_error string) :=
        match l with
        | [] => []
        | e :: l' => canonicalize_into e (pointer +:+ "/" +:+ to_string i) :: go (i + 1) l'
        end) 0 l);
      Ok (braces 91 93 items)
  | JObj l =>
      members ← sort_members ((fun kv : string * json =>
        (kv.1, canonicalize_into kv.2 (pointer +:+ "/" +:+ kv.1))) <$> l);
      items ← sequence (render_member <$> members);
      Ok (braces 123 125 items)
  | JBinary | JDiscarded => Err (Unrepresentable pointer)
  end.

Definition canonicalize (v : json) : result canon_error string := canonicalize_into v "".

(** ** Digests *)

Fixpoint to_hex (bytes : string) : string :=
  match bytes with
  | EmptyString => ""
  | String b rest =>
      String (hex_digit (Z.land (Z.shiftr (byte_val b) 4) 0xF))
        (String (hex_digit (Z.land (byte_val b) 0xF)) (to_hex rest))
  end.

Definition digest_hex (sha256 : string -> string) (v : json) : result canon_error string :=
  bytes ← canonicalize v; Ok (to_hex (sha256 bytes)).
