(* ===== verification/Utf.v ===== *)
(** * Utf: what the decoder of canonical.h guarantees

    The decoding loop consumes the string exactly, needs no more fuel than the
    string has bytes, and — on strictly encoded text, which is all a JSON
    parser lets through — the UTF-16 form that orders member names tells any
    two different names apart. *)
From S2P Require Import Prelude Json Canonical.

(** ** Decoding is exact *)
Lemma split_at_Some n r p q :
  split_at n r = Some (p, q) -> r = p +:+ q /\ String.length p = n.
Proof.
  revert r p q; induction n as [|n IH]; intros [|c r] p q; simpl; intros H; simplify_eq; try done.
  destruct (split_at n r) as [[p' q']|] eqn:E; simplify_eq.
  apply IH in E as [-> <-]. by rewrite string_app_cons.
Qed.

Lemma split_at_app p t : split_at (String.length p) (p +:+ t) = Some (p, t).
Proof. induction p as [|c p IH]; simpl; [done|]. by rewrite IH. Qed.

Lemma need_Ok n r p q :
  need n r = Ok (p, q) -> r = p +:+ q /\ String.length p = n /\ all_continuation p = true.
Proof.
  unfold need. destruct (split_at n r) as [[p' q']|] eqn:E; [|done].
  apply split_at_Some in E as [-> Hl]. case_if; intros H; simplify_eq. done.
Qed.

Lemma need_app n r p q t : need n r = Ok (p, q) -> need n (p +:+ t) = Ok (p, t).
Proof.
  intros (_ & <- & Hp)%need_Ok. unfold need. by rewrite split_at_app, Hp.
Qed.

(** One code point: the class of its lead byte, and its bytes. *)
Inductive utf8_case (s : string) (cp : Z) (bytes rest : string) : Prop :=
  | Utf8Ascii b0 :
      s = String b0 rest -> bytes = String b0 "" -> byte_val b0 < 0x80 ->
      cp = byte_val b0 -> utf8_case s cp bytes rest
  | Utf8Multi b0 p n mask tag pay :
      (n, mask, tag, pay) ∈ [(1%nat, 0xE0, 0xC0, 0x1F); (2%nat, 0xF0, 0xE0, 0x0F);
                             (3%nat, 0xF8, 0xF0, 0x07)] ->
      s = String b0 (p +:+ rest) -> bytes = String b0 p ->
      0x80 <= byte_val b0 -> Z.land (byte_val b0) mask = tag ->
      String.length p = n -> all_continuation p = true ->
      cp = fold_continuation (Z.land (byte_val b0) pay) p -> utf8_case s cp bytes rest.

Lemma utf8_next_case s cp bytes rest :
  utf8_next s = Ok (cp, bytes, rest) -> utf8_case s cp bytes rest.
Proof.
  destruct s as [|b0 r]; simpl; [done|]. intros H.
  destruct (Z.ltb_spec (byte_val b0) 0x80); simplify_eq; [by eapply Utf8Ascii|].
  repeat (case_if_in H; [apply bind_Ok in H as ([p q] & Hn & H); simplify_eq;
    apply need_Ok in Hn as (-> & Hl & Hp); bool_prop;
    eapply Utf8Multi; [|done|done|done|eassumption|eassumption|done|done]; set_solver |]).
  discriminate H.
Qed.

Lemma utf8_next_split s cp bytes rest :
  utf8_next s = Ok (cp, bytes, rest) -> s = bytes +:+ rest.
Proof. by intros []%utf8_next_case; subst. Qed.

Lemma utf8_next_length s cp bytes rest :
  utf8_next s = Ok (cp, bytes, rest) -> (1 <= String.length bytes <= 4)%nat.
Proof.
  intros []%utf8_next_case; subst; simpl; [lia|]. set_unfold. naive_solver lia.
Qed.

(** What is decoded depends on the consumed bytes alone. *)
Lemma utf8_next_prefix s cp bytes rest t :
  utf8_next s = Ok (cp, bytes, rest) -> utf8_next (bytes +:+ t) = Ok (cp, bytes, t).
Proof.
  destruct s as [|b0 r]; [done|]. unfold utf8_next at 1. intros H.
  destruct (byte_val b0 <? 0x80) eqn:E0; simplify_eq.
  { rewrite string_app_cons. simpl. by rewrite E0. }
  repeat (case_if_in H; [apply bind_Ok in H as ([p q] & Hn & H); simplify_eq;
    rewrite string_app_cons; simpl;
    repeat match goal with E : _ = false |- _ => rewrite E; clear E end;
    repeat match goal with E : (_ =? _) = true |- _ => rewrite E; clear E end;
    by rewrite (need_app _ _ _ _ _ Hn) |]).
  done.
Qed.

Lemma decode_loop_fuel fuel s :
  (String.length s <= fuel)%nat -> decode_loop fuel s = decode s.
Proof.
  unfold decode. remember (String.length s) as n eqn:Hn.
  revert s fuel Hn. induction n as [n IH] using lt_wf_ind. intros s fuel -> Hf.
  destruct s as [|c s]; [by destruct fuel|].
  destruct fuel as [|fuel]; [simpl in Hf; lia|].
  change (decode_loop (S fuel) (String c s) = decode_loop (S (String.length s)) (String c s)).
  cbn [decode_loop]. destruct (utf8_next (String c s)) as [[[cp b] rest]|e] eqn:E; [|done].
  assert (String.length rest < String.length (String c s))%nat as Hlt.
  { rewrite (utf8_next_split _ _ _ _ E), string_length_app.
    apply utf8_next_length in E. lia. }
  simpl in Hlt, Hf.
  pose proof (IH (String.length rest) ltac:(simpl; lia) rest fuel eq_refl ltac:(lia)) as H1.
  pose proof (IH (String.length rest) ltac:(simpl; lia) rest (String.length s) eq_refl ltac:(lia)) as H2.
  simpl. by rewrite H1, H2.
Qed.

(** The equations of the decoding loop without its fuel. *)
Lemma decode_step s cp bytes rest :
  utf8_next s = Ok (cp, bytes, rest) ->
  decode s = l ← decode rest; Ok ((cp, bytes) :: l).
Proof.
  intros E. destruct s as [|c s]; [done|].
  unfold decode at 1. cbn [String.length decode_loop]. rewrite E. simpl.
  rewrite decode_loop_fuel; [done|].
  pose proof (f_equal String.length (utf8_next_split _ _ _ _ E)) as Hl.
  rewrite string_length_app in Hl. apply utf8_next_length in E. simpl in Hl. lia.
Qed.

Lemma decode_error s e : s <> "" -> utf8_next s = Err e -> decode s = Err e.
Proof.
  destruct s as [|c s]; [done|]. intros _ E.
  unfold decode. cbn [String.length decode_loop]. by rewrite E.
Qed.

(** A successful decode, as a derivation along the string. *)
Inductive decodes : string -> list (Z * string) -> Prop :=
  | decodes_nil : decodes "" []
  | decodes_cons s cp bytes rest l :
      utf8_next s = Ok (cp, bytes, rest) -> decodes rest l ->
      decodes s ((cp, bytes) :: l).

Lemma decode_decodes s l : decode s = Ok l <-> decodes s l.
Proof.
  split.
  - remember (String.length s) as n eqn:Hn. revert s l Hn.
    induction n as [n IH] using lt_wf_ind. intros s l -> H.
    destruct s as [|c s]; [cbv in H; simplify_eq; constructor|].
    destruct (utf8_next (String c s)) as [[[cp b] rest]|e] eqn:E.
    + rewrite (decode_step _ _ _ _ E) in H. ok_inv.
      econstructor; [exact E|]. eapply IH; [|done|eassumption].
      rewrite (utf8_next_split _ _ _ _ E), string_length_app.
      apply utf8_next_length in E. lia.
    + rewrite (decode_error (String c s) e ltac:(discriminate) E) in H; ok_inv.
  - induction 1 as [|s cp b rest l E Hd IH]; [done|].
    by rewrite (decode_step _ _ _ _ E), IH.
Qed.

(** The decoding loop covers the whole string and nothing else. *)
Lemma decodes_concat s l : decodes s l -> s = foldr String.append "" l.*2.
Proof.
  induction 1 as [|s cp b rest l E Hd IH]; [done|]. csimpl. rewrite <- IH.
  by apply utf8_next_split in E.
Qed.

(** ** Strict UTF-8

    What [json::parse] accepts: shortest form, no surrogates, nothing above
    U+10FFFF (RFC 3629). *)
Definition utf8_len (cp : Z) : nat :=
  if cp <? 0x80 then 1 else if cp <? 0x800 then 2 else if cp <? 0x10000 then 3 else 4.

Definition strict_piece (p : Z * string) : bool :=
  Nat.eqb (String.length p.2) (utf8_len p.1) && (p.1 <=? 0x10FFFF)
  && negb ((0xD800 <=? p.1) && (p.1 <=? 0xDFFF)).

Definition utf8_strict (s : string) : bool :=
  match decode s with Ok l => forallb strict_piece l | Err _ => false end.

Lemma utf8_strict_decodes s :
  utf8_strict s = true -> exists l, decodes s l /\ Forall (fun p => strict_piece p = true) l.
Proof.
  unfold utf8_strict. destruct (decode s) as [l|] eqn:E; [|done]. intros H.
  exists l. split; [by apply decode_decodes|]. apply Forall_forall. intros x Hx.
  rewrite forallb_forall in H. by apply H, list_elem_of_In.
Qed.

Lemma continuation_value c :
  is_continuation c = true -> byte_val c = 0x80 + Z.land (byte_val c) 0x3F.
Proof.
  byte_fact (fun b => implb (Z.land b 0xC0 =? 0x80) (b =? 0x80 + Z.land b 0x3F)) c H. unfold is_continuation. intros E.
  rewrite E in H. by apply Z.eqb_eq in H.
Qed.

Lemma low6_range c : 0 <= Z.land (byte_val c) 0x3F < 64.
Proof.
  byte_fact (fun b => (0 <=? Z.land b 0x3F) && (Z.land b 0x3F <? 64)) c H.
  bool_prop. lia.
Qed.

Lemma fold_continuation_cons acc c s :
  fold_continuation acc (String c s) = fold_continuation (acc * 64 + Z.land (byte_val c) 0x3F) s.
Proof. simpl. by rewrite lor_shiftl_add by (pose proof (low6_range c); lia). Qed.

Lemma fold_continuation_range acc p :
  0 <= acc ->
  acc * 64 ^ Z.of_nat (String.length p) <= fold_continuation acc p
  < (acc + 1) * 64 ^ Z.of_nat (String.length p).
Proof.
  revert acc; induction p as [|c p IH]; intros acc Hacc; [simpl; lia|].
  rewrite fold_continuation_cons.
  pose proof (low6_range c) as Hc.
  specialize (IH (acc * 64 + Z.land (byte_val c) 0x3F) ltac:(lia)).
  simpl String.length. rewrite Nat2Z.inj_succ, Z.pow_succ_r by lia.
  nia.
Qed.

(** Continuation bytes are read back from the value they were folded into. *)
Lemma fold_continuation_inj p1 p2 acc1 acc2 :
  String.length p1 = String.length p2 -> 0 <= acc1 -> 0 <= acc2 ->
  all_continuation p1 = true -> all_continuation p2 = true ->
  fold_continuation acc1 p1 = fold_continuation acc2 p2 -> acc1 = acc2 /\ p1 = p2.
Proof.
  revert p2 acc1 acc2; induction p1 as [|c1 p1 IH]; intros [|c2 p2] acc1 acc2; simpl String.length;
    intros Hl H1 H2 Hc1 Hc2 He; try lia; [done|].
  simpl in Hc1, Hc2. bool_prop. rewrite !fold_continuation_cons in He.
  pose proof (low6_range c1). pose proof (low6_range c2).
  apply IH in He as [He ->]; [|lia..|done|done].
  assert (c1 = c2) as ->; [|split; [lia|done]].
  apply byte_val_inj. rewrite (continuation_value c1), (continuation_value c2) by done. lia.
Qed.

Lemma lead_value b n mask tag pay :
  (n, mask, tag, pay) ∈ [(1%nat, 0xE0, 0xC0, 0x1F); (2%nat, 0xF0, 0xE0, 0x0F);
                         (3%nat, 0xF8, 0xF0, 0x07)] ->
  Z.land (byte_val b) mask = tag -> byte_val b = tag + Z.land (byte_val b) pay.
Proof.
  intros Hin E.
  byte_fact (fun b => implb (Z.land b 0xE0 =? 0xC0) (b =? 0xC0 + Z.land b 0x1F)
    && implb (Z.land b 0xF0 =? 0xE0) (b =? 0xE0 + Z.land b 0x0F)
    && implb (Z.land b 0xF8 =? 0xF0) (b =? 0xF0 + Z.land b 0x07)) b H.
  set_unfold in Hin.
  destruct Hin as [[= -> -> -> ->]|[[= -> -> -> ->]|[[= -> -> -> ->]|[]]]]; rewrite E, Z.eqb_refl in H;
    bool_prop; simpl in *; bool_prop; lia.
Qed.

(** A strict code point has one encoding. *)
Lemma utf8_bytes_inj s1 s2 cp b1 b2 r1 r2 :
  utf8_next s1 = Ok (cp, b1, r1) -> utf8_next s2 = Ok (cp, b2, r2) ->
  String.length b1 = String.length b2 -> b1 = b2.
Proof.
  intros H1%utf8_next_case H2%utf8_next_case Hl.
  destruct H1 as [x1 -> -> Hx1 Hcp1|x1 p1 n1 m1 t1 y1 Hi1 -> -> Hx1 Hm1 Hn1 Hp1 Hcp1],
    H2 as [x2 -> -> Hx2 Hcp2|x2 p2 n2 m2 t2 y2 Hi2 -> -> Hx2 Hm2 Hn2 Hp2 Hcp2].
  - by rewrite (byte_val_inj x1 x2) by lia.
  - exfalso. simpl in Hl. set_unfold. naive_solver lia.
  - exfalso. simpl in Hl. set_unfold. naive_solver lia.
  - simpl in Hl. assert (n1 = n2) as -> by lia.
    assert (m1 = m2 /\ t1 = t2 /\ y1 = y2) as (-> & -> & ->) .
    { rewrite !elem_of_cons, elem_of_nil in Hi1, Hi2.
      destruct Hi1 as [[=]|[[=]|[[=]|[]]]], Hi2 as [[=]|[[=]|[[=]|[]]]]; subst; done. }
    rewrite Hcp1 in Hcp2.
    apply fold_continuation_inj in Hcp2 as [Hy ->]; [|lia|apply Z.land_nonneg; left; apply byte_val_range..|done|done].
    f_equal. apply byte_val_inj.
    rewrite (lead_value x1 n2 m2 t2 y2), (lead_value x2 n2 m2 t2 y2) by done. lia.
Qed.

(** ** The member order distinguishes names *)
Definition scalar (cp : Z) : Prop := 0 <= cp <= 0x10FFFF /\ ~ (0xD800 <= cp <= 0xDFFF).

Lemma utf8_next_nonneg s cp b r : utf8_next s = Ok (cp, b, r) -> 0 <= cp.
Proof.
  intros []%utf8_next_case; subst; [apply byte_val_range|].
  pose proof (byte_val_range b0).
  assert (0 <= Z.land (byte_val b0) pay) as Hp by (apply Z.land_nonneg; lia).
  pose proof (fold_continuation_range _ p Hp). nia.
Qed.

Lemma strict_scalar s cp b r :
  utf8_next s = Ok (cp, b, r) -> strict_piece (cp, b) = true -> scalar cp.
Proof.
  intros H%utf8_next_nonneg. unfold strict_piece, scalar. simpl. intros Hs. bool_prop.
  apply andb_false_iff in H1. rewrite !Z.leb_gt in H1. lia.
Qed.

Lemma utf16_of_scalar cp :
  scalar cp ->
  (cp <= 0xFFFF /\ utf16_of cp = [cp]) \/
  (0x10000 <= cp /\ utf16_of cp = [0xD800 + (cp - 0x10000) / 1024; 0xDC00 + (cp - 0x10000) mod 1024]
   /\ 0xD800 <= 0xD800 + (cp - 0x10000) / 1024 <= 0xDBFF).
Proof.
  intros [Hr Hs]. unfold utf16_of, u16. destruct (Z.leb_spec cp 0xFFFF).
  - left. by rewrite Z.mod_small by lia.
  - right. rewrite Z.shiftr_div_pow2 by lia.
    change 0x3FF with (Z.ones 10). rewrite Z.land_ones by lia. change (2 ^ 10) with 1024.
    assert (0 <= (cp - 0x10000) / 1024 < 1024).
    { split; [apply Z.div_pos; lia|]. apply Z.div_lt_upper_bound; lia. }
    pose proof (Z.mod_pos_bound (cp - 0x10000) 1024 ltac:(lia)).
    rewrite !(Z.mod_small _ 0x10000) by lia. split_and!; [lia|done|lia..].
Qed.

(** UTF-16 is a prefix code on scalar values. *)
Lemma utf16_of_prefix a b ra rb :
  scalar a -> scalar b -> utf16_of a ++ ra = utf16_of b ++ rb -> a = b /\ ra = rb.
Proof.
  intros Ha Hb. pose proof Ha as [_ Hsa]. pose proof Hb as [_ Hsb].
  destruct (utf16_of_scalar a Ha) as [[Ha' ->]|(Ha' & -> & Hpa)],
    (utf16_of_scalar b Hb) as [[Hb' ->]|(Hb' & -> & Hpb)]; simpl; intros H; simplify_eq; try lia.
  - done.
  - split; [|done].
    pose proof (Z.div_mod (a - 65536) 1024). pose proof (Z.div_mod (b - 65536) 1024). lia.
Qed.

Lemma utf16_concat_inj (l1 l2 : list Z) :
  Forall scalar l1 -> Forall scalar l2 ->
  concat (utf16_of <$> l1) = concat (utf16_of <$> l2) -> l1 = l2.
Proof.
  intros H1. revert l2. induction H1 as [|a l1 Ha H1 IH]; intros l2 H2 He.
  - destruct H2 as [|b l2 Hb H2]; [done|]. csimpl in He.
    destruct (utf16_of_scalar b Hb) as [[_ E]|(_ & E & _)]; by rewrite E in He.
  - destruct H2 as [|b l2 Hb H2]; csimpl in He.
    + destruct (utf16_of_scalar a Ha) as [[_ E]|(_ & E & _)]; by rewrite E in He.
    + apply utf16_of_prefix in He as [-> He]; [|done..]. f_equal. auto.
Qed.

Lemma strict_scalars s l :
  decodes s l -> Forall (fun p => strict_piece p = true) l -> Forall scalar l.*1.
Proof.
  induction 1 as [|s cp b r l E Hd IH]; csimpl; intros Hs; [constructor|].
  apply Forall_cons in Hs as [Hs Hl]. constructor; [by eapply strict_scalar|auto].
Qed.

Lemma decodes_strict_inj s1 s2 l1 l2 :
  decodes s1 l1 -> decodes s2 l2 ->
  Forall (fun p => strict_piece p = true) l1 -> Forall (fun p => strict_piece p = true) l2 ->
  l1.*1 = l2.*1 -> s1 = s2.
Proof.
  intros H1. revert s2 l2. induction H1 as [|s1 cp1 b1 r1 l1 E1 H1 IH]; intros s2 l2 H2 Hs1 Hs2 He.
  - destruct H2; done.
  - destruct H2 as [|s2 cp2 b2 r2 l2 E2 H2]; [done|]. csimpl in He.
    injection He as -> He. apply Forall_cons in Hs1 as [Hp1 Hs1], Hs2 as [Hp2 Hs2].
    rewrite (utf8_next_split _ _ _ _ E1), (utf8_next_split _ _ _ _ E2).
    f_equal; [|by eapply IH]. eapply utf8_bytes_inj; [exact E1|exact E2|].
    unfold strict_piece in Hp1, Hp2. simpl in Hp1, Hp2. bool_prop.
    rewrite !Nat.eqb_eq in *. congruence.
Qed.

Lemma utf16_units_inj s1 s2 :
  utf8_strict s1 = true -> utf8_strict s2 = true ->
  utf16_units s1 = utf16_units s2 -> s1 = s2.
Proof.
  intros (l1 & H1 & Hs1)%utf8_strict_decodes (l2 & H2 & Hs2)%utf8_strict_decodes.
  unfold utf16_units. rewrite (proj2 (decode_decodes _ _) H1), (proj2 (decode_decodes _ _) H2).
  cbn. intros [= He]. rewrite !list_fmap_compose in He.
  eapply decodes_strict_inj; [exact H1|exact H2|done|done|].
  apply utf16_concat_inj; [by eapply strict_scalars..|done].
Qed.

Lemma utf8_strict_units s : utf8_strict s = true -> utf16_units s = Ok (units_of s).
Proof.
  intros (l & H & _)%utf8_strict_decodes. unfold units_of, utf16_units.
  by rewrite (proj2 (decode_decodes _ _) H).
Qed.

Lemma units_of_inj s1 s2 :
  utf8_strict s1 = true -> utf8_strict s2 = true -> units_of s1 = units_of s2 -> s1 = s2.
Proof.
  intros H1 H2 He. apply utf16_units_inj; [done..|].
  by rewrite !utf8_strict_units, He.
Qed.
