(* ===== verification/CanonicalFacts.v ===== *)
(** * CanonicalFacts: the canonical bytes identify the document

    The rendering of canonical.h is a prefix code: a canonical text, followed
    by anything a canonical text can be followed by, is read back in one way.
    Together with the determinism of the member order this gives both halves
    of what signing needs: documents that differ only in presentation have the
    same bytes, and documents that differ in content do not. *)
From S2P Require Import Prelude Json Canonical Utf.

(** ** Hexadecimal digits and escapes *)
Lemma hex_digit_val d : 0 <= d < 16 -> byte_val (hex_digit d) = if d <? 10 then 48 + d else 87 + d.
Proof. intros Hd. unfold hex_digit. case_if; bool_prop; rewrite byte_val_of; lia. Qed.

Lemma hex_digit_inj a b : 0 <= a < 16 -> 0 <= b < 16 -> hex_digit a = hex_digit b -> a = b.
Proof.
  intros Ha Hb E. apply (f_equal byte_val) in E. rewrite !hex_digit_val in E by done.
  repeat case_if_in E; bool_prop; lia.
Qed.

(** The characters an escape sequence is told apart by. *)
Definition short_escape (cp : Z) : option ascii :=
  if cp =? 34 then Some quote_char else if cp =? 92 then Some backslash
  else if cp =? 8 then Some "b"%char else if cp =? 12 then Some "f"%char
  else if cp =? 10 then Some "n"%char else if cp =? 13 then Some "r"%char
  else if cp =? 9 then Some "t"%char else None.

Lemma escape_cp_unfold cp bytes :
  escape_cp cp bytes =
    match short_escape cp with
    | Some c => String backslash (String c "")
    | None =>
        if cp <? 0x20 then
          String backslash ("u00" +:+ String (hex_digit (Z.land (Z.shiftr cp 4) 0xF))
                                        (String (hex_digit (Z.land cp 0xF)) ""))
        else bytes
    end.
Proof. unfold escape_cp, short_escape. by repeat case_if. Qed.

Lemma short_escape_inj cp1 cp2 c :
  short_escape cp1 = Some c -> short_escape cp2 = Some c -> cp1 = cp2.
Proof.
  unfold short_escape. intros H1 H2.
  repeat case_if_in H1; try discriminate H1; rewrite <- H1 in H2; clear H1;
    repeat case_if_in H2; bool_prop; subst; (done || (vm_compute in H2; congruence)).
Qed.

Lemma short_escape_not_u cp : short_escape cp <> Some "u"%char.
Proof. unfold short_escape. intros H. repeat case_if_in H; vm_compute in H; congruence. Qed.

Lemma hex_pair_inj cp1 cp2 :
  0 <= cp1 < 32 -> 0 <= cp2 < 32 ->
  hex_digit (Z.land (Z.shiftr cp1 4) 0xF) = hex_digit (Z.land (Z.shiftr cp2 4) 0xF) ->
  hex_digit (Z.land cp1 0xF) = hex_digit (Z.land cp2 0xF) -> cp1 = cp2.
Proof.
  intros H1 H2. change 0xF with (Z.ones 4). rewrite !Z.land_ones by lia.
  rewrite !Z.shiftr_div_pow2 by lia. change (2 ^ 4) with 16.
  assert (0 <= cp1 / 16 < 2) by (split; [apply Z.div_pos|apply Z.div_lt_upper_bound]; lia).
  assert (0 <= cp2 / 16 < 2) by (split; [apply Z.div_pos|apply Z.div_lt_upper_bound]; lia).
  pose proof (Z.mod_pos_bound cp1 16 ltac:(lia)). pose proof (Z.mod_pos_bound cp2 16 ltac:(lia)).
  rewrite !(Z.mod_small (_ / 16)) by lia.
  intros E1%hex_digit_inj E2%hex_digit_inj; [|lia..].
  rewrite (Z.div_mod cp1 16), (Z.div_mod cp2 16) by lia. lia.
Qed.

(** A code point whose bytes are copied does not begin like an escape or like
    the closing quote. *)
Lemma literal_head s cp bytes rest :
  utf8_next s = Ok (cp, bytes, rest) -> short_escape cp = None -> 0x20 <= cp ->
  exists b t, bytes = String b t /\ b <> quote_char /\ b <> backslash.
Proof.
  intros []%utf8_next_case Hs Hcp; subst.
  - exists b0, "". split; [done|]. split; intros ->; vm_compute in Hs; congruence.
  - exists b0, p. split; [done|]. split; intros ->; vm_compute in H2; congruence.
Qed.

(** A decoded string in which no ASCII character has an overlong encoding. *)
Definition shortest (p : Z * string) : Prop := p.1 < 0x80 -> String.length p.2 = 1%nat.

Lemma strict_shortest p : strict_piece p = true -> shortest p.
Proof.
  unfold strict_piece, shortest, utf8_len. intros H Hp. bool_prop.
  replace (p.1 <? 0x80) with true in H by lia. by apply Nat.eqb_eq in H.
Qed.

Lemma shortest_bytes s cp b r :
  utf8_next s = Ok (cp, b, r) -> shortest (cp, b) -> cp < 0x80 -> b = String (byte_of cp) "".
Proof.
  intros H%utf8_next_case Hs Hcp. specialize (Hs Hcp). simpl in Hs.
  destruct H; subst; simpl in Hs.
  - by rewrite byte_of_val.
  - exfalso. rewrite !elem_of_cons, elem_of_nil in H.
    destruct H as [[=]|[[=]|[[=]|[]]]]; lia.
Qed.

Lemma short_escape_lt cp c : short_escape cp = Some c -> cp < 0x80.
Proof. unfold short_escape. repeat case_if; bool_prop; intros; simplify_eq; lia. Qed.

(** ** Escaping is a prefix code *)
Inductive escape_shape (cp : Z) (bytes : string) : string -> Prop :=
  | EscShort c : short_escape cp = Some c ->
      escape_shape cp bytes (String backslash (String c ""))
  | EscHex : short_escape cp = None -> 0 <= cp < 0x20 ->
      escape_shape cp bytes
        (String backslash (String "u" (String "0" (String "0"
          (String (hex_digit (Z.land (Z.shiftr cp 4) 0xF))
             (String (hex_digit (Z.land cp 0xF)) ""))))))
  | EscLiteral b t : bytes = String b t -> b <> quote_char -> b <> backslash ->
      escape_shape cp bytes bytes.

Lemma escape_cp_shape s cp b r :
  utf8_next s = Ok (cp, b, r) -> escape_shape cp b (escape_cp cp b).
Proof.
  intros E. rewrite escape_cp_unfold.
  destruct (short_escape cp) eqn:Hc; [by constructor|].
  destruct (Z.ltb_spec cp 0x20).
  - apply EscHex; [done|]. split; [by eapply utf8_next_nonneg|done].
  - destruct (literal_head _ _ _ _ E Hc ltac:(lia)) as (b' & t & -> & Hq & Hb).
    by eapply EscLiteral.
Qed.

Lemma escape_cp_not_quote s cp b r x y :
  utf8_next s = Ok (cp, b, r) -> escape_cp cp b +:+ x <> String quote_char y.
Proof.
  intros E. destruct (escape_cp_shape _ _ _ _ E) as [c| |b' t -> Hq Hb];
    rewrite string_app_cons; intros [= ?]; done.
Qed.

Lemma escape_cp_prefix s1 s2 cp1 cp2 b1 b2 t1 t2 x1 x2 :
  utf8_next s1 = Ok (cp1, b1, t1) -> utf8_next s2 = Ok (cp2, b2, t2) ->
  shortest (cp1, b1) -> shortest (cp2, b2) ->
  escape_cp cp1 b1 +:+ x1 = escape_cp cp2 b2 +:+ x2 -> b1 = b2 /\ x1 = x2.
Proof.
  intros E1 E2 Hp1 Hp2.
  assert (cp1 = cp2 -> cp1 < 0x80 -> b1 = b2) as Hsame.
  { intros <- Hlt. by rewrite (shortest_bytes _ _ _ _ E1), (shortest_bytes _ _ _ _ E2). }
  destruct (escape_cp_shape _ _ _ _ E1) as [c1 Hc1|Hn1 H1|y1 u1 Hb1 Hq1 Hs1],
    (escape_cp_shape _ _ _ _ E2) as [c2 Hc2|Hn2 H2|y2 u2 Hb2 Hq2 Hs2];
    subst; rewrite ?string_app_cons, ?string_app_nil_l; intros He.
  - injection He as -> ->. split; [|done].
    apply Hsame; [by eapply short_escape_inj|by eapply short_escape_lt].
  - injection He as -> _. by apply short_escape_not_u in Hc1.
  - by injection He as <- _.
  - injection He as <- _. by apply short_escape_not_u in Hc2.
  - injection He as Ha Hb ->. split; [|done]. apply Hsame; [by apply hex_pair_inj|lia].
  - by injection He as <- _.
  - by injection He as -> _.
  - by injection He as -> _.
  - rewrite <- !string_app_cons in He.
    pose proof (utf8_next_prefix _ _ _ _ x1 E1) as F1.
    rewrite He, (utf8_next_prefix _ _ _ _ x2 E2) in F1. by injection F1 as _ -> ->.
Qed.

Lemma escape_pieces_prefix s1 s2 l1 l2 r1 r2 :
  decodes s1 l1 -> decodes s2 l2 -> Forall shortest l1 -> Forall shortest l2 ->
  escape_pieces l1 +:+ String quote_char r1 = escape_pieces l2 +:+ String quote_char r2 ->
  s1 = s2 /\ r1 = r2.
Proof.
  intros H1. revert s2 l2. induction H1 as [|s1 cp1 b1 t1 l1 E1 H1 IH]; intros s2 l2 H2 Hs1 Hs2 He.
  - destruct H2 as [|s2 cp2 b2 t2 l2 E2 H2]; simpl in He; [by simplify_eq|exfalso].
    rewrite string_app_assoc in He. symmetry in He. by eapply escape_cp_not_quote.
  - apply Forall_cons in Hs1 as [Hp1 Hs1].
    destruct H2 as [|s2 cp2 b2 t2 l2 E2 H2].
    { exfalso. simpl in He. rewrite string_app_assoc in He. by eapply escape_cp_not_quote. }
    apply Forall_cons in Hs2 as [Hp2 Hs2]. simpl in He. rewrite !string_app_assoc in He.
    destruct (escape_cp_prefix _ _ _ _ _ _ _ _ _ _ E1 E2 Hp1 Hp2 He) as [-> He'].
    destruct (IH _ _ H2 Hs1 Hs2 He') as [-> ->].
    by rewrite (utf8_next_split _ _ _ _ E1), (utf8_next_split _ _ _ _ E2).
Qed.

Lemma escape_into_prefix s1 s2 t1 t2 r1 r2 :
  utf8_strict s1 = true -> utf8_strict s2 = true ->
  escape_into s1 = Ok t1 -> escape_into s2 = Ok t2 ->
  t1 +:+ r1 = t2 +:+ r2 -> s1 = s2 /\ r1 = r2.
Proof.
  intros (l1 & H1 & Hs1)%utf8_strict_decodes (l2 & H2 & Hs2)%utf8_strict_decodes.
  unfold escape_into. rewrite (proj2 (decode_decodes _ _) H1), (proj2 (decode_decodes _ _) H2).
  cbn. intros [= <-] [= <-]. rewrite !string_app_cons, !string_app_assoc, !string_app_cons.
  intros [= He]. eapply escape_pieces_prefix; [exact H1|exact H2| | |exact He];
    (eapply Forall_impl; [eassumption|apply strict_shortest]).
Qed.

Lemma escape_into_head s t : escape_into s = Ok t -> exists u, t = String quote_char u.
Proof. unfold escape_into. intros H. ok_inv. eauto. Qed.

(** ** Integers are delimited by what is not a digit *)
Definition is_digit (c : ascii) : bool := (48 <=? byte_val c) && (byte_val c <=? 57).

Definition delimited (r : string) : Prop :=
  match r with EmptyString => True | String c _ => is_digit c = false end.

Fixpoint read_digits (acc : Z) (s : string) : Z * string :=
  match s with
  | String c s' =>
      if is_digit c then read_digits (acc * 10 + (byte_val c - 48)) s' else (acc, s)
  | EmptyString => (acc, s)
  end.

Lemma dec_digits_app fuel n acc : dec_digits fuel n acc = dec_digits fuel n "" +:+ acc.
Proof.
  revert n acc; induction fuel as [|fuel IH]; intros n acc; simpl; [done|].
  case_if; [done|]. rewrite IH, (IH _ (String _ "")), string_app_assoc. done.
Qed.

Lemma digit_val n : byte_val (byte_of (48 + n mod 10)) = 48 + n mod 10.
Proof. apply byte_val_of. pose proof (Z.mod_pos_bound n 10 ltac:(lia)). lia. Qed.

Lemma digit_is_digit n : is_digit (byte_of (48 + n mod 10)) = true.
Proof. unfold is_digit. rewrite digit_val.
  pose proof (Z.mod_pos_bound n 10 ltac:(lia)). apply andb_true_intro. rewrite !Z.leb_le. lia.
Qed.

Lemma read_dec_digits fuel n acc :
  0 <= n < 10 ^ Z.of_nat (S fuel) ->
  exists k, 0 <= k /\ forall a,
    read_digits a (dec_digits (S fuel) n acc) = read_digits (a * 10 ^ k + n) acc.
Proof.
  revert n acc; induction fuel as [|fuel IH]; intros n acc Hn; cbn [dec_digits].
  - change (10 ^ Z.of_nat 1) with 10 in Hn. replace (n <? 10) with true by lia.
    exists 1. split; [lia|]. intros a. cbn [read_digits].
    rewrite digit_is_digit, digit_val, Z.mod_small by lia. f_equal; lia.
  - destruct (Z.ltb_spec n 10).
    + exists 1. split; [lia|]. intros a. cbn [read_digits].
      rewrite digit_is_digit, digit_val, Z.mod_small by lia. f_equal; lia.
    + rewrite Nat2Z.inj_succ, Z.pow_succ_r in Hn by lia.
      destruct (IH (n / 10) (String (byte_of (48 + n mod 10)) acc)) as (k & Hk & Hr).
      { split; [apply Z.div_pos; lia|]. apply Z.div_lt_upper_bound; lia. }
      exists (k + 1). split; [lia|]. intros a. cbn [dec_digits] in Hr. rewrite Hr.
      cbn [read_digits]. rewrite digit_is_digit, digit_val.
      rewrite Z.pow_add_r by lia. change (10 ^ 1) with 10. f_equal.
      pose proof (Z.div_mod n 10 ltac:(lia)). lia.
Qed.

Lemma read_digits_delimited n r : delimited r -> read_digits n r = (n, r).
Proof. destruct r; simpl; [done|]. by intros ->. Qed.

Lemma read_to_string n r :
  0 <= n -> delimited r -> read_digits 0 (dec_digits (digits_fuel n) n "" +:+ r) = (n, r).
Proof.
  intros Hn Hr. unfold digits_fuel. rewrite <- dec_digits_app.
  destruct (read_dec_digits (Z.to_nat (Z.log2 n)) n r) as (k & Hk & ->).
  { split; [done|]. rewrite Nat2Z.inj_succ, Z2Nat.id by apply Z.log2_nonneg.
    destruct (Z.eq_dec n 0) as [->|]; [done|].
    eapply Z.lt_le_trans; [apply Z.log2_spec; lia|].
    apply Z.pow_le_mono_l. lia. }
  simpl. by apply read_digits_delimited.
Qed.

Lemma dec_digits_head fuel n acc : exists c t,
  dec_digits (S fuel) n acc = String c t /\ is_digit c = true.
Proof.
  revert n acc; induction fuel as [|fuel IH]; intros n acc; cbn [dec_digits].
  - case_if; eexists _, _; (split; [done|apply digit_is_digit]).
  - destruct (n <? 10); [eexists _, _; (split; [done|apply digit_is_digit])|]. apply IH.
Qed.

Lemma minus_not_digit : is_digit (byte_of 45) = false.
Proof. reflexivity. Qed.

Lemma to_string_prefix n m r1 r2 :
  delimited r1 -> delimited r2 -> to_string n +:+ r1 = to_string m +:+ r2 -> n = m /\ r1 = r2.
Proof.
  intros H1 H2. unfold to_string.
  destruct (Z.ltb_spec n 0), (Z.ltb_spec m 0); rewrite ?string_app_cons; intros He.
  - apply string_cons_inj in He as [_ He]. apply (f_equal (read_digits 0)) in He.
    rewrite !read_to_string in He by (done || lia). injection He as ? ->. split; [lia|done].
  - exfalso. unfold digits_fuel in He.
    destruct (dec_digits_head (Z.to_nat (Z.log2 m)) m "") as (c & t & E & Hc).
    rewrite E, string_app_cons in He. injection He as <- _. by rewrite minus_not_digit in Hc.
  - exfalso. unfold digits_fuel in He.
    destruct (dec_digits_head (Z.to_nat (Z.log2 n)) n "") as (c & t & E & Hc).
    rewrite E, string_app_cons in He. injection He as -> _. by rewrite minus_not_digit in Hc.
  - apply (f_equal (read_digits 0)) in He.
    rewrite !read_to_string in He by (done || lia). by simplify_eq.
Qed.

(** ** Lists of items *)

(** What follows the first item of a bracketed list. *)
Definition tail_text (close : ascii) (items : list string) (r : string) : string :=
  match items with
  | [] => String close r
  | _ => String "," (join "," items +:+ String close r)
  end.

Lemma join_cons_tail close x items r :
  join "," (x :: items) +:+ String close r = x +:+ tail_text close items r.
Proof. destruct items; simpl; [done|]. by rewrite !string_app_assoc. Qed.

Lemma tail_text_delimited close items r : is_digit close = false -> delimited (tail_text close items r).
Proof. by destruct items. Qed.

(** A rendering [R] whose texts are told apart up to [f], whatever delimited
    text follows. *)
Definition prefix_code {A B} (R : A -> string -> Prop) (f : A -> B) (a1 : A) : Prop :=
  forall a2 s1 s2 r1 r2, R a1 s1 -> R a2 s2 -> delimited r1 -> delimited r2 ->
    s1 +:+ r1 = s2 +:+ r2 -> f a1 = f a2 /\ r1 = r2.

Lemma items_prefix {A B} (R : A -> string -> Prop) (f : A -> B) close l1 l2 i1 i2 r1 r2 :
  is_digit close = false -> close <> ","%char ->
  (forall a s, R a s -> exists c t, s = String c t /\ c <> close) ->
  Forall (prefix_code R f) l1 ->
  Forall2 R l1 i1 -> Forall2 R l2 i2 ->
  join "," i1 +:+ String close r1 = join "," i2 +:+ String close r2 ->
  f <$> l1 = f <$> l2 /\ r1 = r2.
Proof.
  intros Hd Hne Hhead Hcode H1 H2.
  destruct H1 as [|a1 s1 l1 i1 Ha1 H1], H2 as [|a2 s2 l2 i2 Ha2 H2]; intros He.
  - simpl in He. rewrite !string_app_nil_l in He. by simplify_eq.
  - exfalso. rewrite join_cons_tail in He. destruct (Hhead _ _ Ha2) as (c & t & -> & Hc).
    simpl in He. rewrite string_app_cons, string_app_nil_l in He. by simplify_eq.
  - exfalso. rewrite join_cons_tail in He. destruct (Hhead _ _ Ha1) as (c & t & -> & Hc).
    simpl in He. rewrite string_app_cons, string_app_nil_l in He. by simplify_eq.
  - rewrite !join_cons_tail in He.
    revert a1 s1 a2 s2 l2 i2 Ha1 Ha2 H2 Hcode He.
    induction H1 as [|b1 t1 l1 i1 Hb1 H1 IH]; intros a1 s1 a2 s2 l2 i2 Ha1 Ha2 H2 Hcode He;
      apply Forall_cons in Hcode as [Hc1 Hcode];
      destruct (Hc1 _ _ _ _ _ Ha1 Ha2 (tail_text_delimited _ _ _ Hd)
                  (tail_text_delimited _ _ _ Hd) He) as [Hf Ht]; csimpl; rewrite Hf.
    + destruct H2; simpl in Ht; by simplify_eq.
    + destruct H2 as [|b2 t2 l2 i2 Hb2 H2]; [simpl in Ht; by simplify_eq|].
      unfold tail_text in Ht. apply string_cons_inj in Ht as [_ Ht]. rewrite !join_cons_tail in Ht.
      destruct (IH _ _ _ _ _ _ Hb1 Hb2 H2 Hcode Ht) as [E ->]. csimpl in E. by rewrite E.
Qed.

(** ** The documents compared *)

(** What a parsed specification is: strictly encoded text, distinct member
    names, integers in the ranges their alternatives hold.  The upper bound on
    [JUint] is the part [static_cast<std::int64_t>] needs. *)
Fixpoint wf_json (v : json) : bool :=
  match v with
  | JInt n => (- 2 ^ 63 <=? n) && (n <? 2 ^ 63)
  | JUint n => (0 <=? n) && (n <? 2 ^ 63)
  | JStr s => utf8_strict s
  | JArr l => forallb wf_json l
  | JObj l => bool_decide (NoDup l.*1) && forallb (fun kv => utf8_strict kv.1 && wf_json kv.2) l
  | _ => true
  end.

(** A document up to its presentation: members in the JCS order, and one
    alternative for integers. *)
Fixpoint norm (v : json) : json :=
  match v with
  | JUint n => JInt n
  | JArr l => JArr (norm <$> l)
  | JObj l => JObj (sort_by member_le ((fun kv => (kv.1, norm kv.2)) <$> l))
  | _ => v
  end.

Lemma int64_of_uint64_small n : 0 <= n < 2 ^ 63 -> int64_of_uint64 n = n.
Proof.
  intros Hn. unfold int64_of_uint64. rewrite Z.mod_small by lia. by replace (n <? 2 ^ 63) with true by lia.
Qed.

(** The members with their payload replaced. *)
Definition with_value {A B} (f : string * A -> B) (kv : string * A) : string * B := (kv.1, f kv).

Lemma check_names_fmap {A B} (f : string * A -> B) (l : list (string * A)) :
  check_names (with_value f <$> l) = check_names l.
Proof. induction l as [|kv l IH]; csimpl; [done|]. by rewrite IH. Qed.

(** Sorting looks at the names alone. *)
Lemma sort_members_fmap {A B} (f : string * A -> B) (l : list (string * A)) :
  sort_members (with_value f <$> l)
  = match sort_members l with Ok sl => Ok (with_value f <$> sl) | Err e => Err e end.
Proof.
  destruct l as [|m1 [|m2 l]]; [done..|].
  transitivity (_ ← check_names (with_value f <$> m1 :: m2 :: l);
                Ok (sort_by member_le (with_value f <$> m1 :: m2 :: l))); [done|].
  rewrite check_names_fmap, (sort_by_fmap member_le member_le) by done.
  unfold sort_members. by destruct (check_names (m1 :: m2 :: l)).
Qed.

Lemma member_le_total {A} (x y : string * A) : member_le x y = true \/ member_le y x = true.
Proof. apply lex_leb_total. Qed.
Lemma member_le_trans {A} (x y z : string * A) :
  member_le x y = true -> member_le y z = true -> member_le x z = true.
Proof. apply lex_leb_trans. Qed.

Lemma sort_members_Ok {A} (l sl : list (string * A)) :
  sort_members l = Ok sl -> sl = sort_by member_le l.
Proof.
  destruct l as [|m1 [|m2 l]]; cbn [sort_members]; intros H; [by simplify_eq..|]. ok_inv. done.
Qed.

Lemma check_names_strict {A} (l : list (string * A)) :
  Forall (fun kv => utf8_strict kv.1 = true) l -> check_names l = Ok tt.
Proof. induction 1 as [|m l Hm Hl IH]; simpl; [done|]. by rewrite utf8_strict_units, IH. Qed.

Lemma sort_members_strict {A} (l : list (string * A)) :
  Forall (fun kv => utf8_strict kv.1 = true) l -> sort_members l = Ok (sort_by member_le l).
Proof.
  intros Hl. destruct l as [|m1 [|m2 l]]; [done..|].
  unfold sort_members. by rewrite check_names_strict.
Qed.

(** ** What a successful rendering is made of *)

(** The pointer only ever reaches the message of an exception. *)
Definition renders (v : json) (s : string) : Prop := forall p, canonicalize_into v p = Ok s.

Definition renders_member (kv : string * json) (s : string) : Prop :=
  exists k t, escape_into kv.1 = Ok k /\ renders kv.2 t /\ s = k +:+ String (byte_of 58) t.

Definition item_results (p : string) : Z -> list json -> list (result canon_error string) :=
  fix go i l :=
    match l with
    | [] => []
    | e :: l' => canonicalize_into e (p +:+ "/" +:+ to_string i) :: go (i + 1) l'
    end.

Definition pointer_free (v : json) : Prop :=
  forall p q s, canonicalize_into v p = Ok s -> canonicalize_into v q = Ok s.

Lemma item_results_free p q i j l items :
  Forall pointer_free l -> sequence (item_results p i l) = Ok items ->
  sequence (item_results q j l) = Ok items.
Proof.
  intros Hl. revert i j items. induction Hl as [|e l He Hl IH]; intros i j items; simpl; [done|].
  intros H. ok_inv. rewrite (He _ (q +:+ "/" +:+ to_string j) _ H). simpl.
  by rewrite (IH _ (j + 1) _ H0).
Qed.

Definition member_results (p : string) (l : list (string * json)) :
  list (string * result canon_error string) :=
  with_value (fun kv => canonicalize_into kv.2 (p +:+ "/" +:+ kv.1)) <$> l.

Lemma render_member_Ok m t :
  render_member m = Ok t <->
  exists k v, escape_into m.1 = Ok k /\ m.2 = Ok v /\ t = k +:+ String (byte_of 58) v.
Proof.
  unfold render_member. split.
  - intros H. ok_inv. eauto.
  - intros (k & v & -> & -> & ->). done.
Qed.

Lemma canon_obj_unfold l p :
  canonicalize_into (JObj l) p =
    match sort_members l with
    | Ok sl => items ← sequence (render_member <$> member_results p sl); Ok (braces 123 125 items)
    | Err e => Err e
    end.
Proof.
  change (canonicalize_into (JObj l) p)
    with (members ← sort_members (member_results p l);
          items ← sequence (render_member <$> members); Ok (braces 123 125 items)).
  unfold member_results. rewrite sort_members_fmap. by destruct (sort_members l).
Qed.

Lemma render_members_free p q sl items :
  Forall (fun kv => pointer_free kv.2) sl ->
  sequence (render_member <$> member_results p sl) = Ok items ->
  sequence (render_member <$> member_results q sl) = Ok items.
Proof.
  intros Hl. revert items. induction Hl as [|kv l He Hl IH]; intros items; csimpl; [done|].
  intros H. apply bind_Ok in H as (t & Ht & H). apply bind_Ok in H as (its & Hits & [= <-]).
  apply render_member_Ok in Ht as (k & v & Hk & Hv & ->). simpl in Hv.
  apply (He _ (q +:+ "/" +:+ kv.1)) in Hv.
  rewrite (proj2 (render_member_Ok _ (k +:+ String (byte_of 58) v))) by eauto. simpl.
  by rewrite (IH _ Hits).
Qed.

Lemma canonicalize_pointer_free v : pointer_free v.
Proof.
  induction v as [| | | | | |l IH|l IH| |] using json_nested_ind; intros p q t; try done.
  - simpl. unfold canonical_int. by case_if.
  - simpl. unfold canonical_int. by case_if.
  - change (canonicalize_into (JArr l) p)
      with (items ← sequence (item_results p 0 l); Ok (braces 91 93 items)).
    change (canonicalize_into (JArr l) q)
      with (items ← sequence (item_results q 0 l); Ok (braces 91 93 items)).
    intros H. ok_inv. by rewrite (item_results_free p q 0 0 l _ IH H).
  - rewrite !canon_obj_unfold. destruct (sort_members l) as [sl|] eqn:Hs; [|done].
    apply sort_members_Ok in Hs as ->. intros H. ok_inv.
    rewrite (render_members_free p q _ x); [done| |done].
    by rewrite sort_by_Permutation.
Qed.

Lemma canonicalize_renders v p s : canonicalize_into v p = Ok s <-> renders v s.
Proof. split; [|by intros H]. intros H q. by eapply canonicalize_pointer_free. Qed.

Lemma renders_arr l s :
  renders (JArr l) s <-> exists items, Forall2 renders l items /\ s = braces 91 93 items.
Proof.
  rewrite <- (canonicalize_renders _ ""). 
  change (canonicalize_into (JArr l) "")
    with (items ← sequence (item_results "" 0 l); Ok (braces 91 93 items)).
  assert (forall i items, sequence (item_results "" i l) = Ok items <-> Forall2 renders l items) as H.
  { induction l as [|e l IH]; intros i items; simpl.
    - split; [intros; ok_inv; constructor|by inversion 1].
    - split; intros H.
      + ok_inv. constructor; [by eapply canonicalize_renders|]. by eapply IH.
      + inversion H as [|? t ? its He Hl]; subst. rewrite He. simpl.
        by rewrite (proj2 (IH (i + 1) its) Hl). }
  split.
  - intros Hs. ok_inv. exists x. split; [by eapply H|done].
  - intros (items & Hl & ->). by rewrite (proj2 (H 0 items) Hl).
Qed.

Lemma renders_obj l s :
  renders (JObj l) s <->
  exists sl items, sort_members l = Ok sl /\ Forall2 renders_member sl items /\ s = braces 123 125 items.
Proof.
  rewrite <- (canonicalize_renders _ ""), canon_obj_unfold.
  assert (forall sl items, sequence (render_member <$> member_results "" sl) = Ok items
                           <-> Forall2 renders_member sl items) as H.
  { induction sl as [|kv sl IH]; intros items; csimpl.
    - split; [intros; ok_inv; constructor|by inversion 1].
    - split; intros H.
      + apply bind_Ok in H as (t & Ht & H). apply bind_Ok in H as (its & Hits & [= <-]).
        apply render_member_Ok in Ht as (k & v & Hk & Hv & ->). simpl in Hv.
        constructor; [|by apply IH]. exists k, v. split; [done|].
        split; [by eapply canonicalize_renders|done].
      + inversion H as [|? t ? its (k & u & Hk & Hu & ->) Hl]; subst.
        rewrite (proj2 (render_member_Ok _ (k +:+ String (byte_of 58) u))); [simpl|].
        * by rewrite (proj2 (IH its) Hl).
        * exists k, u. split; [done|]. split; [apply Hu|done]. }
  split.
  - destruct (sort_members l) as [sl|]; [|done]. intros Hs. ok_inv.
    exists sl, x. split; [done|]. split; [by eapply H|done].
  - intros (sl & items & -> & Hl & ->). by rewrite (proj2 (H sl items) Hl).
Qed.

(** ** The rendering is a prefix code *)
Definition kind_of_char (c : ascii) : Z :=
  let b := byte_val c in
  if b =? 110 then 1 else if (b =? 116) || (b =? 102) then 2
  else if is_digit c || (b =? 45) then 3 else if b =? 34 then 4
  else if b =? 91 then 5 else if b =? 123 then 6 else 0.

Definition json_kind (v : json) : Z :=
  match v with
  | JNull => 1 | JBool _ => 2 | JInt _ | JUint _ => 3 | JStr _ => 4 | JArr _ => 5 | JObj _ => 6
  | JFloat _ | JBinary | JDiscarded => 7
  end.

Lemma kind_of_digit c : is_digit c = true -> kind_of_char c = 3.
Proof.
  unfold kind_of_char. intros H. rewrite H. unfold is_digit in H. bool_prop.
  destruct (Z.eqb_spec (byte_val c) 110); [lia|].
  destruct (Z.eqb_spec (byte_val c) 116); [lia|].
  destruct (Z.eqb_spec (byte_val c) 102); [lia|]. done.
Qed.

Lemma to_string_head n : exists c t, to_string n = String c t /\ kind_of_char c = 3.
Proof.
  unfold to_string, digits_fuel. case_if.
  - eexists _, _. split; [done|]. reflexivity.
  - destruct (dec_digits_head (Z.to_nat (Z.log2 n)) n "") as (c & t & -> & Hc).
    exists c, t. split; [done|]. by apply kind_of_digit.
Qed.

Lemma canonical_int_Ok n p s :
  canonical_int n p = Ok s <->
  s = to_string n /\ -9007199254740991 <= n <= 9007199254740991.
Proof.
  unfold canonical_int. destruct (orb _ _) eqn:E.
  - split; [done|]. intros [_ H]. apply orb_true_iff in E as [E|E]; lia.
  - apply orb_false_elim in E as [E1 E2]. split; [intros [= <-]; split; [done|lia]|by intros [-> _]].
Qed.

Lemma renders_head v s :
  renders v s -> exists c t, s = String c t /\ kind_of_char c = json_kind v.
Proof.
  intros H. destruct v as [|b|n|n|f|x|l|l| |]; simpl.
  - specialize (H ""). simpl in H. ok_inv. by eexists _, _.
  - specialize (H ""). simpl in H. ok_inv. destruct b; by eexists _, _.
  - specialize (H ""). simpl in H. apply canonical_int_Ok in H as [-> _]. apply to_string_head.
  - specialize (H ""). simpl in H. apply canonical_int_Ok in H as [-> _]. apply to_string_head.
  - specialize (H ""). simpl in H. done.
  - specialize (H ""). simpl in H. apply escape_into_head in H as [u ->]. by eexists _, _.
  - apply renders_arr in H as (items & _ & ->). by eexists _, _.
  - apply renders_obj in H as (sl & items & _ & _ & ->). by eexists _, _.
  - specialize (H ""). simpl in H. done.
  - specialize (H ""). simpl in H. done.
Qed.

Lemma Forall2_elem_of_l {A B} (R : A -> B -> Prop) l k :
  Forall2 R l k -> forall x, x ∈ l -> exists y, y ∈ k /\ R x y.
Proof. induction 1; intros z; rewrite ?elem_of_nil, ?elem_of_cons; set_solver. Qed.

Definition renders_wf (v : json) (s : string) : Prop := renders v s /\ wf_json v = true.

Definition wf_member (kv : string * json) : bool := utf8_strict kv.1 && wf_json kv.2.

Definition renders_member_wf (kv : string * json) (s : string) : Prop :=
  renders_member kv s /\ wf_member kv = true.

Definition norm_member (kv : string * json) : string * json := (kv.1, norm kv.2).

Lemma colon_delimited t : delimited (String (byte_of 58) t).
Proof. reflexivity. Qed.

Lemma member_prefix_code kv :
  prefix_code renders_wf norm kv.2 -> prefix_code renders_member_wf norm_member kv.
Proof.
  intros Hcode [k2 v2] s1 s2 r1 r2 [(k & t & Hk & Ht & ->) Hwf1] [(k' & t' & Hk' & Ht' & ->) Hwf2] Hr1 Hr2 He.
  destruct kv as [k1 v1]. unfold wf_member in *. simpl in *. bool_prop.
  rewrite !string_app_assoc, !string_app_cons in He.
  destruct (escape_into_prefix _ _ _ _ _ _ H1 H Hk Hk' He) as [-> He'].
  apply string_cons_inj in He' as [_ He'].
  destruct (Hcode v2 t t' r1 r2) as [Hn ->]; [done..|].
  unfold norm_member. simpl. by rewrite Hn.
Qed.

Lemma wf_obj l :
  wf_json (JObj l) = true <-> NoDup l.*1 /\ Forall (fun kv => wf_member kv = true) l.
Proof.
  simpl. rewrite andb_true_iff, bool_decide_eq_true, forallb_forall, Forall_forall.
  by setoid_rewrite list_elem_of_In.
Qed.

Lemma wf_arr l : wf_json (JArr l) = true <-> Forall (fun v => wf_json v = true) l.
Proof. simpl. rewrite forallb_forall, Forall_forall. by setoid_rewrite list_elem_of_In. Qed.

Lemma norm_obj_sorted l : norm (JObj l) = JObj (norm_member <$> sort_by member_le l).
Proof. simpl. f_equal. by apply (sort_by_fmap member_le member_le). Qed.

(** A member of a normalised object, found by its name. *)
Lemma obj_find_norm k l :
  NoDup l.*1 -> obj_find k (norm_member <$> sort_by member_le l) = norm <$> obj_find k l.
Proof.
  intros Hnd.
  assert (forall l' : list (string * json), obj_find k (norm_member <$> l') = norm <$> obj_find k l') as Hmap.
  { induction l' as [|[k' v] l' IH]; csimpl; [done|]. by case_if. }
  rewrite Hmap. f_equal. apply obj_find_Permutation; [|apply sort_by_Permutation].
  by rewrite (sort_by_Permutation member_le l).
Qed.

Lemma Forall2_and_l {A} (R : A -> string -> Prop) (P : A -> Prop) l items :
  Forall2 R l items -> Forall P l -> Forall2 (fun a s => R a s /\ P a) l items.
Proof. induction 1; inversion 1; constructor; auto. Qed.

Lemma braces_app o c items r :
  braces o c items +:+ r = String (byte_of o) (join "," items +:+ String (byte_of c) r).
Proof. unfold braces. by rewrite string_app_cons, string_app_assoc. Qed.

Lemma int_value v n s :
  json_kind v = 3 -> wf_json v = true -> renders v s -> norm v = JInt n -> s = to_string n.
Proof.
  intros Hk Hwf H. specialize (H "").
  destruct v as [|b|m|m|f|x|l|l| |]; try done; simpl in *; bool_prop; intros [= ->].
  - by apply canonical_int_Ok in H as [-> _].
  - rewrite int64_of_uint64_small in H by lia. by apply canonical_int_Ok in H as [-> _].
Qed.

Lemma int_norm v : json_kind v = 3 -> exists n, norm v = JInt n.
Proof. destruct v; simpl; intros; try done; eauto. Qed.

Lemma renders_prefix_code v : prefix_code renders_wf norm v.
Proof.
  induction v as [|b|n|n|f|x|l IH|l IH| |] using json_nested_ind;
    intros v2 s1 s2 r1 r2 [H1 Hw1] [H2 Hw2] Hr1 Hr2 He;
    destruct (renders_head _ _ H1) as (c & t1 & E1 & Hk1);
    destruct (renders_head _ _ H2) as (c2 & t2 & E2 & Hk2);
    assert (json_kind v2 = kind_of_char c) as Hk
      by (rewrite E1, E2, !string_app_cons in He; apply string_cons_inj in He as [-> _]; done);
    rewrite Hk1 in Hk.
  - destruct v2; try done. pose proof (H1 "") as F1; pose proof (H2 "") as F2.
    injection F1 as <-. injection F2 as <-. by apply string_app_inv_l in He.
  - destruct v2 as [|b2|m|m|f|x|l|l| |]; try done.
    pose proof (H1 "") as F1; pose proof (H2 "") as F2.
    injection F1 as <-. injection F2 as <-.
    destruct b, b2; try discriminate He; by apply string_app_inv_l in He.
  - destruct (int_norm v2 Hk) as [m Hm].
    rewrite (int_value (JInt n) n s1), (int_value v2 m s2) in He by done.
    apply to_string_prefix in He as [-> ->]; [|done..]. by rewrite Hm.
  - destruct (int_norm v2 Hk) as [m Hm].
    rewrite (int_value (JUint n) n s1), (int_value v2 m s2) in He by done.
    apply to_string_prefix in He as [-> ->]; [|done..]. by rewrite Hm.
  - by specialize (H1 "").
  - destruct v2 as [|b2|m|m|f|y|l|l| |]; try done.
    destruct (escape_into_prefix _ _ _ _ _ _ Hw1 Hw2 (H1 "") (H2 "") He) as [-> ->]. done.
  - destruct v2 as [|b2|m|m|f|y|l2|l2| |]; try done.
    apply wf_arr in Hw1, Hw2.
    apply renders_arr in H1 as (i1 & F1 & ->), H2 as (i2 & F2 & ->).
    rewrite !braces_app in He. apply string_cons_inj in He as [_ He].
    destruct (items_prefix renders_wf norm (byte_of 93) l l2 i1 i2 r1 r2) as [Hn ->]; try done.
    + intros a s [(c' & u & -> & Hc)%renders_head _]. exists c', u. split; [done|].
      intros ->. by destruct a.
    + by apply Forall2_and_l.
    + by apply Forall2_and_l.
    + simpl. by rewrite Hn.
  - destruct v2 as [|b2|m|m|f|y|l2|l2| |]; try done.
    apply wf_obj in Hw1 as [_ Hw1], Hw2 as [_ Hw2].
    apply renders_obj in H1 as (sl1 & i1 & S1 & F1 & ->), H2 as (sl2 & i2 & S2 & F2 & ->).
    apply sort_members_Ok in S1 as ->, S2 as ->.
    rewrite !braces_app in He. apply string_cons_inj in He as [_ He].
    rewrite !norm_obj_sorted.
    destruct (items_prefix renders_member_wf norm_member (byte_of 125)
                (sort_by member_le l) (sort_by member_le l2) i1 i2 r1 r2) as [Hn ->]; try done.
    + intros a s [(k & u & (k' & ->)%escape_into_head & _ & ->) _].
      rewrite string_app_cons. by eexists _, _.
    + rewrite sort_by_Permutation. eapply Forall_impl; [exact IH|]. apply member_prefix_code.
    + apply Forall2_and_l; [done|]. by rewrite sort_by_Permutation.
    + apply Forall2_and_l; [done|]. by rewrite sort_by_Permutation.
    + by rewrite Hn.
  - by specialize (H1 "").
  - by specialize (H1 "").
Qed.

(** ** Presentation does not matter *)
Lemma renders_member_norm kv s :
  (wf_json kv.2 = true -> forall t, renders kv.2 t -> renders (norm kv.2) t) ->
  wf_member kv = true -> renders_member kv s -> renders_member (norm_member kv) s.
Proof.
  unfold wf_member. intros IH Hwf (k & t & Hk & Ht & ->). bool_prop. exists k, t. auto.
Qed.

Lemma renders_norm v : wf_json v = true -> forall s, renders v s -> renders (norm v) s.
Proof.
  induction v as [|b|n|n|f|x|l IH|l IH| |] using json_nested_ind; intros Hwf s H; try done.
  - intros p. specialize (H p). simpl in *. bool_prop. by rewrite int64_of_uint64_small in H by lia.
  - apply wf_arr in Hwf. apply renders_arr in H as (items & Hl & ->). apply renders_arr.
    exists items. split; [|done].
    induction Hl as [|v t l items Hv Hl IHl]; [constructor|].
    apply Forall_cons in IH as [IHv IH], Hwf as [Hwv Hwf]. constructor; auto.
  - apply wf_obj in Hwf as [Hnd Hwf]. rewrite norm_obj_sorted.
    apply renders_obj in H as (sl & items & Hs & Hl & ->). apply sort_members_Ok in Hs as ->.
    apply renders_obj. exists (norm_member <$> sort_by member_le l), items. split; [|split; [|done]].
    + rewrite sort_members_strict.
      * rewrite <- (sort_by_fmap member_le member_le norm_member) by done.
        by rewrite sort_by_idemp by (apply member_le_total || apply member_le_trans).
      * apply Forall_fmap. rewrite sort_by_Permutation.
        eapply Forall_impl; [exact Hwf|]. intros kv Hkv. unfold wf_member in Hkv. simpl. by bool_prop.
    + assert (Forall (fun kv => wf_member kv = true) (sort_by member_le l)) as Hwf'
        by (by rewrite sort_by_Permutation).
      assert (Forall (fun kv => wf_json kv.2 = true -> forall s, renders kv.2 s -> renders (norm kv.2) s)
                (sort_by member_le l)) as IH' by (by rewrite sort_by_Permutation).
      clear Hnd Hwf IH. induction Hl as [|kv t sl items Hkv Hl IHl]; csimpl; [constructor|].
      apply Forall_cons in IH' as [IHv IH], Hwf' as [Hwv Hwf].
      constructor; [by apply renders_member_norm|auto].
Qed.

Lemma canonicalize_norm v b :
  wf_json v = true -> canonicalize v = Ok b -> canonicalize (norm v) = Ok b.
Proof. intros Hwf Hb. apply renders_norm; [done|]. by eapply canonicalize_renders. Qed.

(** Members that are pairwise distinguished sort to one list. *)
Lemma sort_members_reorder {A} (l1 l2 : list (string * A)) :
  NoDup l1.*1 -> Forall (fun kv => utf8_strict kv.1 = true) l1 -> l1 ≡ₚ l2 ->
  sort_members l1 = sort_members l2.
Proof.
  intros Hnd Hs Hp. rewrite !sort_members_strict; [|by rewrite <- Hp|done].
  f_equal. apply sort_by_unique; [apply member_le_total|apply member_le_trans| |done].
  intros [k1 v1] [k2 v2] H1 H2 Hle Hge. unfold member_le in *. simpl in *.
  rewrite Forall_forall in Hs.
  assert (k1 = k2) as <-.
  { apply units_of_inj; [apply (Hs _ H1)|apply (Hs _ H2)|]. by apply lex_leb_antisym. }
  f_equal. clear Hs Hp Hle Hge. induction l1 as [|[k v] l IH]; [set_solver|].
  csimpl in Hnd. apply NoDup_cons in Hnd as [Hni Hnd].
  rewrite elem_of_cons in H1, H2.
  destruct H1 as [[= -> ->]|H1], H2 as [[= ->]|H2]; try done.
  - subst. destruct Hni. apply list_elem_of_fmap. by exists (k, v2).
  - destruct Hni. apply list_elem_of_fmap. by exists (k, v1).
  - auto.
Qed.

(** Equal bytes come from documents that are equal up to presentation. *)
Lemma canonicalize_inj v1 v2 b :
  wf_json v1 = true -> wf_json v2 = true ->
  canonicalize v1 = Ok b -> canonicalize v2 = Ok b -> norm v1 = norm v2.
Proof.
  intros Hw1 Hw2 H1 H2.
  destruct (renders_prefix_code v1 v2 b b "" "") as [Hn _]; try done;
    (split; [by eapply canonicalize_renders|done]).
Qed.

(** ** The properties of canonicalisation *)

(** C4: the canonical bytes identify a document.  Two well-formed documents
    that both canonicalise have the same bytes exactly when they are the same
    document up to member order and up to which integer alternative the parser
    chose: nothing a parser can see is lost, nothing else shows. *)
Theorem canonical_bytes_identify v1 v2 b1 b2 :
  wf_json v1 = true -> wf_json v2 = true ->
  canonicalize v1 = Ok b1 -> canonicalize v2 = Ok b2 ->
  b1 = b2 <-> norm v1 = norm v2.
Proof.
  intros Hw1 Hw2 H1 H2. split.
  - intros <-. by apply (canonicalize_inj v1 v2 b1).
  - intros Hn. apply (canonicalize_norm _ _ Hw1) in H1. apply (canonicalize_norm _ _ Hw2) in H2.
    rewrite Hn, H2 in H1. by ok_inv.
Qed.

Definition doc_ba : json := JObj [("b", JUint 2); ("a", JStr "x")].
Definition doc_ab : json := JObj [("a", JStr "x"); ("b", JInt 2)].

Lemma canonical_bytes_identify_witness :
  match canonicalize doc_ba, canonicalize doc_ab with
  | Ok b1, Ok b2 => b1 = b2 <-> norm doc_ba = norm doc_ab
  | _, _ => False
  end.
Proof.
  destruct (canonicalize doc_ba) as [b1|] eqn:E1; [|vm_compute in E1; discriminate E1].
  destruct (canonicalize doc_ab) as [b2|] eqn:E2; [|vm_compute in E2; discriminate E2].
  apply canonical_bytes_identify; [vm_compute; reflexivity..|exact E1|exact E2].
Defined.

(** The order the members of an object are stored in does not reach the
    canonical text, nor which exception is thrown. *)
Theorem canonicalize_member_order l1 l2 pointer :
  NoDup l1.*1 -> Forall (fun kv => utf8_strict kv.1 = true) l1 -> l1 ≡ₚ l2 ->
  canonicalize_into (JObj l1) pointer = canonicalize_into (JObj l2) pointer.
Proof. intros. rewrite !canon_obj_unfold. by rewrite (sort_members_reorder l1 l2). Qed.

Lemma canonicalize_member_order_witness :
  canonicalize_into (JObj [("b", JNull); ("a", JFloat 0)]) ""
  = canonicalize_into (JObj [("a", JFloat 0); ("b", JNull)]) "".
Proof.
  apply canonicalize_member_order.
  - exact (bool_decide_unpack (NoDup ["b"; "a"]) I).
  - repeat constructor.
  - apply Permutation_swap.
Defined.

(** Whether a document contains only what may be signed. *)
Fixpoint signable (v : json) : bool :=
  match v with
  | JFloat _ | JBinary | JDiscarded => false
  | JInt n | JUint n => (-9007199254740991 <=? n) && (n <=? 9007199254740991)
  | JArr l => forallb signable l
  | JObj l => forallb (fun kv => signable kv.2) l
  | _ => true
  end.

Lemma signable_int n : signable (JInt n) = true -> -9007199254740991 <= n <= 9007199254740991.
Proof. simpl. intros. bool_prop. lia. Qed.

Lemma renders_signable v s : wf_json v = true -> renders v s -> signable v = true.
Proof.
  revert s; induction v as [|b|n|n|f|x|l IH|l IH| |] using json_nested_ind; intros s Hwf H; try done;
    try (by specialize (H "")).
  - specialize (H ""). apply canonical_int_Ok in H as [_ H]. simpl. apply andb_true_intro. lia.
  - specialize (H ""). simpl in H, Hwf. bool_prop. rewrite int64_of_uint64_small in H by lia.
    apply canonical_int_Ok in H as [_ H]. simpl. apply andb_true_intro. lia.
  - apply wf_arr in Hwf. apply renders_arr in H as (items & Hl & _). apply forallb_forall.
    intros v Hv. apply list_elem_of_In in Hv. rewrite Forall_forall in IH, Hwf.
    destruct (Forall2_elem_of_l _ _ _ Hl v Hv) as (t & _ & Ht). by eapply IH; [|apply Hwf|].
  - apply wf_obj in Hwf as [_ Hwf]. apply renders_obj in H as (sl & items & Hs & Hl & _).
    apply sort_members_Ok in Hs as ->. apply forallb_forall.
    intros kv Hv. apply list_elem_of_In in Hv. rewrite Forall_forall in IH, Hwf.
    rewrite <- (sort_by_Permutation member_le) in Hv.
    destruct (Forall2_elem_of_l _ _ _ Hl kv Hv) as (? & _ & k & t & _ & Ht & _).
    rewrite sort_by_Permutation in Hv.
    specialize (Hwf _ Hv). unfold wf_member in Hwf. bool_prop. by eapply IH.
Qed.

Lemma escape_into_strict s : utf8_strict s = true -> exists t, escape_into s = Ok t.
Proof.
  intros (l & H & _)%utf8_strict_decodes. unfold escape_into.
  rewrite (proj2 (decode_decodes _ _) H). simpl. eauto.
Qed.

Lemma Forall_choice {A B} (R : A -> B -> Prop) l :
  Forall (fun x => exists y, R x y) l -> exists k, Forall2 R l k.
Proof.
  induction 1 as [|x l [y Hy] _ [k Hk]]; [by exists []|]. exists (y :: k). by constructor.
Qed.

Lemma signable_renders v : wf_json v = true -> signable v = true -> exists s, renders v s.
Proof.
  induction v as [|b|n|n|f|x|l IH|l IH| |] using json_nested_ind; intros Hwf Hs; try done.
  - by eexists.
  - by eexists.
  - simpl in Hs. bool_prop. exists (to_string n). intros p. apply canonical_int_Ok; split; [done|lia].
  - simpl in Hs, Hwf. bool_prop. exists (to_string n). intros p.
    simpl. rewrite int64_of_uint64_small by lia. apply canonical_int_Ok; split; [done|lia].
  - destruct (escape_into_strict x Hwf) as [t Ht]. exists t. intros p. exact Ht.
  - apply wf_arr in Hwf. simpl in Hs. rewrite forallb_forall in Hs.
    destruct (Forall_choice renders l) as [items Hi].
    { rewrite Forall_forall in IH, Hwf |- *. intros v Hv. apply IH; [done|by apply Hwf|].
      by apply Hs, list_elem_of_In. }
    eexists. apply renders_arr. eauto.
  - apply wf_obj in Hwf as [_ Hwf]. simpl in Hs. rewrite forallb_forall in Hs.
    destruct (Forall_choice renders_member (sort_by member_le l)) as [items Hi].
    { rewrite sort_by_Permutation. rewrite Forall_forall in IH, Hwf |- *. intros kv Hv.
      specialize (Hwf _ Hv). unfold wf_member in Hwf. bool_prop.
      destruct (escape_into_strict kv.1) as [k Hk]; [done|].
      destruct (IH _ Hv) as [t Ht]; [done|by apply Hs, list_elem_of_In|].
      eexists. exists k, t. done. }
    eexists. apply renders_obj. eexists _, _. split; [|by split].
    apply sort_members_strict. eapply Forall_impl; [exact Hwf|].
    intros kv Hkv. unfold wf_member in Hkv. by bool_prop.
Qed.

(** Which well-formed documents can be signed at all.  Canonicalisation
    succeeds exactly when no float, binary or discarded value occurs anywhere
    in the document and every integer lies within [-(2^53-1), 2^53-1]. *)
Theorem canonicalize_accepts v :
  wf_json v = true -> is_ok (canonicalize v) = signable v.
Proof.
  intros Hwf. destruct (canonicalize v) as [b|e] eqn:E; simpl.
  - symmetry. eapply renders_signable; [done|]. by eapply canonicalize_renders.
  - destruct (signable v) eqn:Hs; [|done].
    destruct (signable_renders v Hwf Hs) as [s H]. unfold canonicalize in E.
    by rewrite (H "") in E.
Qed.

Lemma canonicalize_accepts_witness :
  is_ok (canonicalize (JArr [JUint 9007199254740991; JObj [("k", JInt (-3))]])) = true
  /\ is_ok (canonicalize (JArr [JUint 9007199254740992])) = false.
Proof. split; apply canonicalize_accepts; vm_compute; reflexivity. Defined.

(** An unsigned value of [2^63] or more is narrowed to [int64_t] before its
    range is tested.  The top [2^53 - 1] values of the unsigned range are
    therefore not refused: each canonicalises, and to the bytes of a different
    document, the negative integer it wraps to. *)
Theorem unsigned_values_wrap_before_the_range_test n pointer :
  2 ^ 64 - 9007199254740991 <= n < 2 ^ 64 ->
  canonicalize_into (JUint n) pointer = Ok (to_string (n - 2 ^ 64))
  /\ canonicalize_into (JUint n) pointer = canonicalize_into (JInt (n - 2 ^ 64)) pointer.
Proof.
  intros Hn. simpl.
  assert (int64_of_uint64 n = n - 2 ^ 64) as ->.
  { unfold int64_of_uint64. rewrite Z.mod_small by lia.
    by replace (n <? 2 ^ 63) with false by lia. }
  split; [|done]. apply canonical_int_Ok; split; [done|lia].
Qed.

Lemma unsigned_values_wrap_before_the_range_test_witness :
  canonicalize (JUint 18446744073709551615) = Ok "-1"
  /\ canonicalize (JUint 18446744073709551615) = canonicalize (JInt (-1)).
Proof. apply (unsigned_values_wrap_before_the_range_test 18446744073709551615 ""). lia. Defined.

(** ** Digests *)
Lemma to_hex_length s : String.length (to_hex s) = (2 * String.length s)%nat.
Proof. induction s as [|c s IH]; simpl; [done|]. lia. Qed.

Lemma to_hex_inj s1 s2 : to_hex s1 = to_hex s2 -> s1 = s2.
Proof.
  revert s2; induction s1 as [|c1 s1 IH]; intros [|c2 s2]; simpl; try done.
  intros H. apply string_cons_inj in H as [Ha H]. apply string_cons_inj in H as [Hb H].
  rewrite (IH _ H). f_equal. apply byte_val_inj.
  assert (forall c, byte_val c = Z.land (Z.shiftr (byte_val c) 4) 0xF * 16 + Z.land (byte_val c) 0xF
      /\ 0 <= Z.land (Z.shiftr (byte_val c) 4) 0xF < 16 /\ 0 <= Z.land (byte_val c) 0xF < 16) as Hc.
  { intros c. byte_fact (fun b => (b =? Z.land (Z.shiftr b 4) 0xF * 16 + Z.land b 0xF)
      && (0 <=? Z.land (Z.shiftr b 4) 0xF) && (Z.land (Z.shiftr b 4) 0xF <? 16)
      && (0 <=? Z.land b 0xF) && (Z.land b 0xF <? 16)) c F. bool_prop. lia. }
  destruct (Hc c1) as (E1 & R1 & S1), (Hc c2) as (E2 & R2 & S2).
  apply hex_digit_inj in Ha, Hb; [|done..]. lia.
Qed.
