(* ===== verification/Batches.v ===== *)
(** * Batches: one batch of a paced step (src/cpp/src/executor.h)

    The three walks of the executor over a table — along one key, along all
    the columns of a composite key, and group by group — each one batch at a
    time.  A batch runs SQL on a server that is not part of the sources: the
    statements are parameters ([KeysetServer], [CompositeServer],
    [GroupedServer]) whose laws are the documented meaning of the SELECT,
    UPDATE and RETURNING the planner writes (planner_dml.h), and
    [BatchWalk] is what each of them then promises to the commit loop. *)
From S2P Require Import Prelude Json.

(** [BatchOutcome]. *)
Record BatchOutcome : Type := {
  skipped_only : bool;
  considered : Z;
  cursor : string;
  commit_first : bool
}.

Definition outcome_at (c : string) : BatchOutcome :=
  {| skipped_only := false; considered := 0; cursor := c; commit_first := false |}.

Definition applied_at (c : string) (n : Z) : BatchOutcome :=
  {| skipped_only := false; considered := n; cursor := c; commit_first := false |}.

(** [v.size()]. *)
Definition size_of (s : string) : Z := Z.of_nat (String.length s).

(** ** The byte budget

    The loop over the selected rows: stop before the key that would exceed
    [batch_bytes], but never before the first. [size] is the bytes of one row's
    key material. *)
Fixpoint accumulate_from {A} (size : A -> Z) (batch_bytes bytes : Z) (first : bool) (rows : list A) :
  list A :=
  match rows with
  | [] => []
  | v :: rows' =>
      if negb first && (bytes + size v >? batch_bytes) then []
      else v :: accumulate_from size batch_bytes (bytes + size v) false rows'
  end.

Definition accumulate {A} (size : A -> Z) (batch_bytes : Z) (rows : list A) : list A :=
  accumulate_from size batch_bytes 0 true rows.

(** ** The array literal

    Each element quoted, with quotes and backslashes escaped. *)
Definition dquote : ascii := byte_of 34.
Definition bslash : ascii := byte_of 92.

Fixpoint escape_element (s : string) : string :=
  match s with
  | EmptyString => ""
  | String c s' =>
      if Ascii.eqb c dquote || Ascii.eqb c bslash
      then String bslash (String c (escape_element s'))
      else String c (escape_element s')
  end.

Definition quote_element (s : string) : string :=
  String dquote (escape_element s +:+ String dquote "").

Definition array_literal (keys : list string) : string :=
  String (byte_of 123) (join "," (quote_element <$> keys) +:+ String (byte_of 125) "").

(** ** A walk along one key *)

Class KeysetServer (St : Type) : Type := {
  (** The keys of the rows the step's predicate selects up to the bound, in key order. *)
  ks_rows : St -> list (option string) -> list string;
  ks_lt : string -> string -> bool;
  (** [SELECT key ... WHERE key > $1 AND ... ORDER BY key LIMIT $2 FOR UPDATE]. *)
  ks_select : St -> string -> Z -> list (option string) -> list string;
  (** [UPDATE ... WHERE key = ANY($1) RETURNING key]: the rows returned. *)
  ks_apply : St -> string -> St * Z;
  (** The one-statement form: the change rides in the statement that names the batch. *)
  ks_statement : St -> string -> Z -> St * list string;
  (** The keys changed so far, in the order they were. *)
  ks_applied : St -> list string;
}.

(** [key > $1]. *)
Definition rows_after {K} (lt : K -> K -> bool) (c : K) (rows : list K) : list K :=
  List.filter (fun k => lt c k) rows.

(** A statement that names no row changes none, and every row after the keys just
    changed is as it was: no other session writes the rows ahead of the walk.
    What becomes of the rows behind it is left open, so the laws hold whether or
    not the change takes a row out of the predicate. *)
Definition untouched_ahead {K} (lt : K -> K -> bool) (keys : list K) (before after : list K) : Prop :=
  (keys = [] -> after = before)
  /\ forall c, Forall (fun k => lt c k = false) keys -> rows_after lt c after = rows_after lt c before.

Class StrictOrder {K} (lt : K -> K -> bool) : Prop := {
  so_trans a b c : lt a b = true -> lt b c = true -> lt a c = true;
  so_irrefl a : lt a a = false;
}.

Class KeysetLaws (St : Type) `{KeysetServer St} : Prop := {
  ks_order :: StrictOrder ks_lt;
  ks_sorted st upto : StronglySorted (fun a b => ks_lt a b = true) (ks_rows st upto);
  ks_select_law st c n upto :
    0 <= n -> ks_select st c n upto = take (Z.to_nat n) (rows_after ks_lt c (ks_rows st upto));
  ks_apply_law st keys :
    let '(st', r) := ks_apply st (array_literal keys) in
    ks_applied st' = ks_applied st ++ keys
    /\ (forall upto, untouched_ahead ks_lt keys (ks_rows st upto) (ks_rows st' upto))
    /\ 0 <= r <= Z.of_nat (length keys);
  ks_statement_law st c n :
    0 <= n ->
    let '(st', r) := ks_statement st c n in
    r = take (Z.to_nat n) (rows_after ks_lt c (ks_rows st []))
    /\ ks_applied st' = ks_applied st ++ r
    /\ untouched_ahead ks_lt r (ks_rows st []) (ks_rows st' []);
}.

(** [for (const auto& row : r) out.cursor = row[0]]: the last row's key. *)
Definition last_key (c : string) (rows : list string) : string := default c (last rows).

(** [run_paced_batch]; [two] is [!apply_sql.empty()]. *)
Definition run_paced_batch {St} `{KeysetServer St} (two : bool) (batch_bytes : Z)
    (upto : list (option string)) (st : St) (c : string) (batch : Z) : St * BatchOutcome :=
  if negb two then
    let '(st', r) := ks_statement st c batch in
    (st', applied_at (last_key c r) (Z.of_nat (length r)))
  else
    let sel := ks_select st c batch upto in
    let keys := accumulate size_of batch_bytes sel in
    match keys with
    | [] => (st, outcome_at c)
    | _ :: _ =>
        let '(st', r) := ks_apply st (array_literal keys) in
        (st', applied_at (last_key c keys) (if r =? 0 then Z.of_nat (length keys) else r))
    end.

(** ** A walk along a composite key

    The cursor is the last row's whole key as a JSON array of strings; parsing
    and printing it are nlohmann's. *)
Class CompositeServer (St : Type) : Type := {
  cs_columns : nat;
  cs_rows : St -> list (option string) -> list (list string);
  cs_lt : list string -> list string -> bool;
  cs_parse : string -> option json;
  cs_dump : json -> string;
  (** Parameters: one per key column (NULL before the first row), the limit, the bound. *)
  cs_select : St -> list (option string) -> Z -> list (option string) -> list (list string);
  (** One array literal per key column. *)
  cs_apply : St -> list string -> St * Z;
  cs_statement : St -> list (option string) -> Z -> list (option string) -> St * list (list string);
  cs_applied : St -> list (list string);
}.

(** The rows after a position: all of them before the first. *)
Definition rows_from {K} (lt : K -> K -> bool) (at_ : option K) (rows : list K) : list K :=
  match at_ with None => rows | Some c => rows_after lt c rows end.

(** A cursor that cannot be read stops the step. *)
Inductive walk_error : Type :=
  | UnreadableCursor (c : string).

(** The cursor a composite walk starts from: nothing, or the values it holds.
    [v.get<std::string>()] throws on an element that is not a string. *)
Definition composite_position {St} `{CompositeServer St} (c : string) :
  result walk_error (list string) :=
  if String.eqb c "" || String.eqb c "0" then Ok []
  else
    match cs_parse c with
    | Some (JArr l) =>
        if Nat.eqb (length l) cs_columns then
          sequence ((fun v => match v with JStr s => Ok s | _ => Err (UnreadableCursor c) end) <$> l)
        else Err (UnreadableCursor c)
    | _ => Err (UnreadableCursor c)
    end.

(** [where]: NULL for every column before the first row. *)
Definition position_params (columns : nat) (at_ : list string) : list (option string) :=
  match at_ with
  | [] => replicate columns None
  | _ => Some <$> at_
  end.

(** The position the parameters name. *)
Definition position_of (at_ : list string) : option (list string) :=
  match at_ with [] => None | _ => Some at_ end.

Definition dump_key {St} `{CompositeServer St} (row : list string) : string :=
  cs_dump (JArr (JStr <$> row)).

(** [row_bytes]. *)
Definition row_size (row : list string) : Z := foldr (fun s n => size_of s + n) 0 row.

(** One array literal per column, element [i] being row [i]'s value. *)
Definition column_literals (columns : nat) (rows : list (list string)) : list string :=
  (fun c => array_literal ((fun row => default "" (row !! c)) <$> rows)) <$> seq 0 columns.

Class CompositeLaws (St : Type) `{CompositeServer St} : Prop := {
  cs_order :: StrictOrder cs_lt;
  cs_columns_pos : cs_columns <> 0%nat;
  cs_sorted st upto : StronglySorted (fun a b => cs_lt a b = true) (cs_rows st upto);
  cs_width st upto : Forall (fun row => length row = cs_columns) (cs_rows st upto);
  (** nlohmann reads back the array it wrote, and what it wrote opens with a bracket. *)
  cs_dump_parse st upto row :
    row ∈ cs_rows st upto -> cs_parse (dump_key row) = Some (JArr (JStr <$> row));
  cs_dump_bracket row : exists rest, dump_key row = String "[" rest;
  cs_select_law st at_ n upto :
    0 <= n ->
    cs_select st (position_params cs_columns at_) n upto
    = take (Z.to_nat n) (rows_from cs_lt (position_of at_) (cs_rows st upto));
  cs_apply_law st rows :
    Forall (fun row => length row = cs_columns) rows ->
    let '(st', r) := cs_apply st (column_literals cs_columns rows) in
    cs_applied st' = cs_applied st ++ rows
    /\ (forall upto, untouched_ahead cs_lt rows (cs_rows st upto) (cs_rows st' upto))
    /\ 0 <= r <= Z.of_nat (length rows);
  cs_statement_law st at_ n upto :
    0 <= n ->
    let '(st', r) := cs_statement st (position_params cs_columns at_) n upto in
    r = take (Z.to_nat n) (rows_from cs_lt (position_of at_) (cs_rows st upto))
    /\ cs_applied st' = cs_applied st ++ r
    /\ untouched_ahead cs_lt r (cs_rows st upto) (cs_rows st' upto);
}.

Definition run_composite_batch {St} `{CompositeServer St} (two : bool) (batch_bytes : Z)
    (upto : list (option string)) (st : St) (c : string) (batch : Z) :
    result walk_error (St * BatchOutcome) :=
  at_ ← composite_position c;
  let where_ := position_params cs_columns at_ in
  if negb two then
    let '(st', sel) := cs_statement st where_ batch upto in
    Ok (st', applied_at (match last sel with Some row => dump_key row | None => c end)
               (Z.of_nat (length sel)))
  else
    let sel := cs_select st where_ batch upto in
    let taken := accumulate row_size batch_bytes sel in
    match last taken with
    | None => Ok (st, outcome_at c)
    | Some row =>
        let '(st', r) := cs_apply st (column_literals cs_columns taken) in
        Ok (st', applied_at (dump_key row) (if r =? 0 then Z.of_nat (length taken) else r))
    end.

(** ** A walk by group *)

(** [GroupCursor]. *)
Record GroupCursor : Type := { gc_group : string; gc_key : string }.

Class GroupedServer (St : Type) : Type := {
  gs_parse : string -> option json;
  gs_dump : json -> string;
  (** The group values the groups query walks, in order. *)
  gs_all : St -> list string;
  gs_glt : string -> string -> bool;
  (** The keys the predicate selects inside a group, in order. *)
  gs_keys : St -> string -> list string;
  gs_klt : string -> string -> bool;
  (** [SELECT g ... WHERE (g > $1 OR $1 IS NULL) ORDER BY g LIMIT $2]. *)
  gs_groups : St -> option string -> Z -> list string;
  (** [SELECT key ... WHERE g = $1 AND (key > $2 OR $2 IS NULL) AND ... LIMIT $3 FOR UPDATE]. *)
  gs_select : St -> string -> option string -> Z -> list string;
  (** [UPDATE ... WHERE g = $1 AND key = ANY($2) RETURNING key]. *)
  gs_apply : St -> string -> string -> St * Z;
  (** The rows changed so far: group and key, in order. *)
  gs_applied : St -> list (string * string);
}.

(** [GroupCursor::encode]. *)
Definition gc_encode {St} `{GroupedServer St} (g : GroupCursor) : string :=
  gs_dump (JArr [JStr (gc_group g); JStr (gc_key g)]).

(** [GroupCursor::decode]; [None] is the [false] it returns. *)
Definition gc_decode {St} `{GroupedServer St} (text : string) : option GroupCursor :=
  if String.eqb text "" || String.eqb text "0" then Some {| gc_group := ""; gc_key := "" |}
  else
    match gs_parse text with
    | Some (JArr [JStr g; JStr k]) => Some {| gc_group := g; gc_key := k |}
    | _ => None
    end.

(** [maybe]: an empty position is a real NULL. *)
Definition maybe (v : string) : option string := if String.eqb v "" then None else Some v.

Definition kGroupsPerBatch : nat := 64.

Class GroupedLaws (St : Type) `{GroupedServer St} : Prop := {
  gs_gorder :: StrictOrder gs_glt;
  gs_korder :: StrictOrder gs_klt;
  gs_all_sorted st : StronglySorted (fun a b => gs_glt a b = true) (gs_all st);
  gs_keys_sorted st g : StronglySorted (fun a b => gs_klt a b = true) (gs_keys st g);
  (** No group and no key is the empty string, which stands for NULL. *)
  gs_all_nonempty st : "" ∉ gs_all st;
  gs_keys_nonempty st g : "" ∉ gs_keys st g;
  gs_dump_parse g k :
    gs_parse (gs_dump (JArr [JStr g; JStr k])) = Some (JArr [JStr g; JStr k]);
  gs_dump_bracket g k : exists rest, gs_dump (JArr [JStr g; JStr k]) = String "[" rest;
  gs_groups_law st g n :
    0 <= n -> gs_groups st g n = take (Z.to_nat n) (rows_from gs_glt g (gs_all st));
  gs_select_law st g k n :
    0 <= n -> gs_select st g k n = take (Z.to_nat n) (rows_from gs_klt k (gs_keys st g));
  gs_apply_law st g keys :
    let '(st', r) := gs_apply st g (array_literal keys) in
    gs_applied st' = gs_applied st ++ ((fun k => (g, k)) <$> keys)
    /\ untouched_ahead gs_klt keys (gs_keys st g) (gs_keys st' g)
    /\ (forall g', g' <> g -> gs_keys st' g' = gs_keys st g')
    /\ untouched_ahead gs_glt [g] (gs_all st) (gs_all st')
    /\ 0 <= r <= Z.of_nat (length keys);
}.

(** The body of the loop of [run_grouped_batch] once a group is chosen: take a
    batch of it, or go on to the group after it; [again] is [continue]. *)
Definition grouped_look {St} `{GroupedServer St} (again : GroupCursor -> St * BatchOutcome)
    (batch_bytes : Z) (batch : Z) (holds_locks : bool) (st : St) (at_ : GroupCursor) :
    St * BatchOutcome :=
  let sel := gs_select st (gc_group at_) (maybe (gc_key at_)) batch in
  if bool_decide (sel = []) then
    if holds_locks then
      (st, {| skipped_only := false; considered := 0; cursor := gc_encode at_; commit_first := true |})
    else
      match gs_groups st (maybe (gc_group at_)) 1 with
      | [] => (st, outcome_at (gc_encode at_))
      | g :: _ => again {| gc_group := g; gc_key := "" |}
      end
  else
    let keys := accumulate size_of batch_bytes sel in
    let '(st', r) := gs_apply st (gc_group at_) (array_literal keys) in
    (st', applied_at (gc_encode {| gc_group := gc_group at_; gc_key := last_key "" keys |})
            (if r =? 0 then Z.of_nat (length keys) else r)).

(** The loop of [run_grouped_batch], with [looked] counting down. *)
Fixpoint grouped_loop {St} `{GroupedServer St} (looked : nat) (batch_bytes : Z) (batch : Z)
    (holds_locks : bool) (st : St) (at_ : GroupCursor) : St * BatchOutcome :=
  match looked with
  | O => (st, {| skipped_only := true; considered := 0; cursor := gc_encode at_; commit_first := false |})
  | S looked' =>
      let look := grouped_look (grouped_loop looked' batch_bytes batch holds_locks st)
                    batch_bytes batch holds_locks st in
      if String.eqb (gc_group at_) "" then
        match gs_groups st (maybe (gc_group at_)) 1 with
        | [] => (st, outcome_at (gc_encode at_))
        | g :: _ => look {| gc_group := g; gc_key := "" |}
        end
      else look at_
  end.

Definition run_grouped_batch {St} `{GroupedServer St} (batch_bytes : Z) (st : St)
    (from : GroupCursor) (batch : Z) (holds_locks : bool) : St * BatchOutcome :=
  grouped_loop kGroupsPerBatch batch_bytes batch holds_locks st from.

(** ** What a batch promises

    The three walks behind one interface: a batch applies the rows that come
    next and moves the cursor past exactly those. *)
Class BatchWalk (St Row : Type) : Type := {
  bw_run : St -> string -> Z -> bool -> result walk_error (St * BatchOutcome);
  bw_applied : St -> list Row;
  (** The rows the walk has still to visit from a cursor. *)
  bw_remaining : St -> string -> list Row;
  (** Cursors the walk can read. *)
  bw_readable : St -> string -> Prop;
  (** Groups still to look at: bounds the batches that only skip. *)
  bw_groups : St -> string -> nat;
}.

(** [budget] bounds the groups a batch that only skipped may leave. *)
Record batch_within {St Row} `{BatchWalk St Row} (budget : nat) (st : St) (c : string) (batch : Z) (holds : bool)
    (st' : St) (o : BatchOutcome) (xs : list Row) : Prop := {
  bo_applied : bw_applied st' = bw_applied st ++ xs;
  bo_remaining : bw_remaining st c = xs ++ bw_remaining st' (cursor o);
  bo_readable : bw_readable st' (cursor o);
  bo_considered : 0 <= considered o <= batch;
  bo_progress : considered o = 0 <-> xs = [];
  bo_groups : (bw_groups st' (cursor o) <= bw_groups st c)%nat;
  bo_commit_first : commit_first o = true -> holds = true /\ considered o = 0;
  bo_skipped : skipped_only o = true ->
    considered o = 0 /\ (bw_groups st' (cursor o) < budget)%nat;
  bo_final : considered o = 0 -> skipped_only o = false -> commit_first o = false ->
    bw_remaining st c = [];
}.

Definition batch_ok {St Row} `{BatchWalk St Row} (st : St) (c : string) (batch : Z) (holds : bool)
    (st' : St) (o : BatchOutcome) (xs : list Row) : Prop :=
  batch_within (bw_groups st c) st c batch holds st' o xs.

Class BatchWalkLaws (St Row : Type) `{BatchWalk St Row} : Prop := {
  bw_start st : bw_readable st "0";
  bw_law st c batch holds :
    1 <= batch -> bw_readable st c ->
    exists st' o xs, bw_run st c batch holds = Ok (st', o) /\ batch_ok st c batch holds st' o xs;
}.
