(* ===== verification/BatchFacts.v ===== *)
(** * BatchFacts: the three walks implement [BatchWalk]

    The byte budget takes a non-empty prefix of the selection, the array
    literal names exactly the keys it was made from, and each of
    [run_paced_batch], [run_composite_batch] and [run_grouped_batch] applies
    the rows that come next and leaves the cursor after exactly those. *)
From S2P Require Import Prelude Json Batches.

(** ** The byte budget *)
Section Budget.
Context {A : Type} (size : A -> Z) (batch_bytes : Z).

Definition total_size (l : list A) : Z := foldr (fun v n => size v + n) 0 l.

Lemma accumulate_from_prefix bytes first rows :
  exists rest, rows = accumulate_from size batch_bytes bytes first rows ++ rest.
Proof.
  revert bytes first; induction rows as [|v rows IH]; intros bytes first; simpl; [by exists []|].
  case_if; [by eexists|].
  destruct (IH (bytes + size v) false) as [rest Hr]. exists rest. simpl. by rewrite <- Hr.
Qed.

Lemma accumulate_prefix rows : exists rest, rows = accumulate size batch_bytes rows ++ rest.
Proof. apply accumulate_from_prefix. Qed.

Lemma accumulate_nonempty v rows : exists ks, accumulate size batch_bytes (v :: rows) = v :: ks.
Proof. by eexists. Qed.

Lemma accumulate_nil_iff rows : accumulate size batch_bytes rows = [] <-> rows = [].
Proof. destruct rows; split; intros H; try done. Qed.

Lemma accumulate_from_budget bytes rows :
  bytes <= batch_bytes ->
  bytes + total_size (accumulate_from size batch_bytes bytes false rows) <= batch_bytes.
Proof.
  revert bytes; induction rows as [|v rows IH]; intros bytes Hb; simpl; [lia|].
  destruct (Z.gtb_spec (bytes + size v) batch_bytes); simpl; [lia|].
  specialize (IH (bytes + size v) ltac:(lia)). lia.
Qed.

Lemma accumulate_over bytes rows :
  batch_bytes < bytes -> Forall (fun v => 0 <= size v) rows ->
  accumulate_from size batch_bytes bytes false rows = [].
Proof.
  intros Hb Hs. destruct Hs as [|v rows Hv Hs]; simpl; [done|].
  destruct (Z.gtb_spec (bytes + size v) batch_bytes); [done|lia].
Qed.

Lemma accumulate_budget rows :
  Forall (fun v => 0 <= size v) rows ->
  total_size (accumulate size batch_bytes rows) <= batch_bytes
  \/ (length (accumulate size batch_bytes rows) <= 1)%nat.
Proof.
  intros Hs. destruct Hs as [|v rows Hv Hs]; [by right; simpl; lia|].
  unfold accumulate; simpl.
  destruct (Z.le_gt_cases (size v) batch_bytes) as [Hle|Hgt].
  - left. pose proof (accumulate_from_budget (size v) rows Hle) as Hb.
    exact Hb.
  - right. rewrite accumulate_over; [simpl; lia|lia|done].
Qed.

Lemma accumulate_app_rest rows v rest :
  rows = accumulate size batch_bytes rows ++ v :: rest ->
  batch_bytes < total_size (accumulate size batch_bytes rows ++ [v]).
Proof.
  unfold accumulate.
  assert (Hgen : forall bytes rows0 first,
    rows0 = accumulate_from size batch_bytes bytes first rows0 ++ v :: rest ->
    batch_bytes < bytes + total_size (accumulate_from size batch_bytes bytes first rows0 ++ [v])).
  { intros bytes rows0; revert bytes.
    induction rows0 as [|w rows0 IH]; intros bytes first Hr; simpl in *; [done|].
    destruct (negb first && (bytes + size w >? batch_bytes)) eqn:E; simpl in *.
    - injection Hr as -> _. apply andb_true_iff in E as [_ E]. lia.
    - injection Hr as Hr. specialize (IH _ _ Hr). lia. }
  intros Hr. apply Hgen in Hr. lia.
Qed.

End Budget.

(** ** Array literals

    [read_array]: PostgreSQL's reading of an array of quoted elements, as its
    manual gives it (a backslash takes the next character as it is). *)
Fixpoint read_element (s : string) (acc : string) : option (string * string) :=
  match s with
  | EmptyString => None
  | String c s' =>
      if Ascii.eqb c dquote then Some (acc, s')
      else if Ascii.eqb c bslash then
        match s' with
        | String d s'' => read_element s'' (acc +:+ String d "")
        | EmptyString => None
        end
      else read_element s' (acc +:+ String c "")
  end.

Fixpoint read_elements (fuel : nat) (s : string) : option (list string) :=
  match fuel with
  | O => None
  | S fuel' =>
      match s with
      | String q s' =>
          if Ascii.eqb q dquote then
            '(v, rest) ← read_element s' "";
            match rest with
            | String d rest' =>
                if Ascii.eqb d "," then (fun l => v :: l) <$> read_elements fuel' rest'
                else if Ascii.eqb d (byte_of 125) && String.eqb rest' "" then Some [v] else None
            | EmptyString => None
            end
          else None
      | EmptyString => None
      end
  end.

Definition read_array (s : string) : option (list string) :=
  match s with
  | String b s' =>
      if Ascii.eqb b (byte_of 123) then
        if String.eqb s' (String (byte_of 125) "") then Some []
        else read_elements (String.length s') s'
      else None
  | EmptyString => None
  end.

Lemma read_element_escape s rest acc :
  read_element (escape_element s +:+ String dquote rest) acc = Some (acc +:+ s, rest).
Proof.
  revert acc; induction s as [|c s IH]; intros acc; cbn [escape_element].
  - rewrite string_app_nil_l, string_app_nil_r. cbn. done.
  - destruct (Ascii.eqb c dquote || Ascii.eqb c bslash) eqn:E; rewrite !string_app_cons;
      cbn [read_element].
    + change (Ascii.eqb bslash dquote) with false.
      change (Ascii.eqb bslash bslash) with true. cbn iota. by rewrite IH, string_snoc_app.
    + apply orb_false_elim in E as [-> ->]. by rewrite IH, string_snoc_app.
Qed.

Lemma quoted_app k rest :
  quote_element k +:+ rest = String dquote (escape_element k +:+ String dquote rest).
Proof. unfold quote_element. by rewrite string_app_cons, string_snoc_app. Qed.

Lemma join_quoted_cons k k' keys rest :
  join "," (quote_element <$> k :: k' :: keys) +:+ rest
  = String dquote (escape_element k +:+ String dquote
      (String "," (join "," (quote_element <$> k' :: keys) +:+ rest))).
Proof.
  change (join "," (quote_element <$> k :: k' :: keys))
    with (quote_element k +:+ ("," +:+ join "," (quote_element <$> k' :: keys))).
  by rewrite string_app_assoc, quoted_app, string_app_assoc, string_app_cons, string_app_nil_l.
Qed.

Lemma read_elements_join keys k fuel :
  (length keys < fuel)%nat ->
  read_elements fuel (join "," (quote_element <$> k :: keys) +:+ String (byte_of 125) "")
  = Some (k :: keys).
Proof.
  revert k fuel; induction keys as [|k' keys IH]; intros k [|fuel] Hf; simpl in Hf; try lia.
  - change (join "," (quote_element <$> [k])) with (quote_element k). rewrite quoted_app.
    cbn [read_elements]. rewrite Ascii.eqb_refl, read_element_escape. reflexivity.
  - rewrite join_quoted_cons. cbn [read_elements].
    rewrite Ascii.eqb_refl, read_element_escape. cbn [mbind option_bind].
    rewrite Ascii.eqb_refl, IH by lia. done.
Qed.

Lemma join_quoted_length k (keys : list string) :
  (length keys < String.length (join "," (quote_element <$> k :: keys) +:+ String (byte_of 125) ""))%nat.
Proof.
  revert k; induction keys as [|k' keys IH]; intros k.
  - rewrite string_length_app; simpl; lia.
  - change (join "," (quote_element <$> k :: k' :: keys))
      with (quote_element k +:+ ("," +:+ join "," (quote_element <$> k' :: keys))).
    specialize (IH k'). rewrite !string_length_app in *. simpl in *. lia.
Qed.

Lemma read_array_literal keys : read_array (array_literal keys) = Some keys.
Proof.
  destruct keys as [|k keys]; [reflexivity|].
  unfold array_literal, read_array. rewrite Ascii.eqb_refl.
  destruct (String.eqb_spec (join "," (quote_element <$> k :: keys) +:+ String (byte_of 125) "")
              (String (byte_of 125) "")) as [Heq|Hne].
  - exfalso. destruct keys; csimpl in Heq; unfold quote_element in Heq;
      rewrite ?string_app_cons in Heq; discriminate Heq.
  - apply read_elements_join. apply join_quoted_length.
Qed.

Lemma array_literal_inj keys keys' : array_literal keys = array_literal keys' -> keys = keys'.
Proof.
  intros H. apply (f_equal read_array) in H. rewrite !read_array_literal in H. by injection H.
Qed.

(** ** Rows after a position *)
Section Order.
Context {K : Type} (lt : K -> K -> bool) `{!StrictOrder lt}.

Notation sorted := (StronglySorted (fun a b => lt a b = true)).

Lemma rows_after_sorted c rows : sorted rows -> sorted (rows_after lt c rows).
Proof.
  intros Hs. induction Hs as [|r rows Hs IH Hr]; simpl; [constructor|].
  case_if; [|done]. constructor; [done|].
  rewrite Forall_forall in *. intros x Hx. apply Hr.
  apply list_elem_of_In, filter_In in Hx. apply list_elem_of_In. tauto.
Qed.

Lemma rows_from_sorted c rows : sorted rows -> sorted (rows_from lt c rows).
Proof. destruct c; simpl; auto using rows_after_sorted. Qed.

Lemma rows_from_incl at_ rows k : k ∈ rows_from lt at_ rows -> k ∈ rows.
Proof.
  destruct at_ as [c|]; simpl; [|done]. intros Hin.
  apply list_elem_of_In, filter_In in Hin as [Hin _]. by apply list_elem_of_In.
Qed.

Lemma rows_after_all c rows :
  Forall (fun k => lt c k = true) rows -> rows_after lt c rows = rows.
Proof. induction 1 as [|r rows Hr _ IH]; simpl; [done|]. by rewrite Hr, IH. Qed.

Lemma rows_after_none c rows :
  Forall (fun k => lt c k = false) rows -> rows_after lt c rows = [].
Proof. induction 1 as [|r rows Hr _ IH]; simpl; [done|]. by rewrite Hr. Qed.

Lemma rows_after_app c l1 l2 : rows_after lt c (l1 ++ l2) = rows_after lt c l1 ++ rows_after lt c l2.
Proof. apply List.filter_app. Qed.

Lemma rows_after_twice c k rows :
  lt c k = true -> rows_after lt k (rows_after lt c rows) = rows_after lt k rows.
Proof.
  intros Hck. induction rows as [|r rows IH]; simpl; [done|].
  destruct (lt c r) eqn:E; simpl; rewrite IH; [done|].
  destruct (lt k r) eqn:E'; [|done]. by rewrite (so_trans c k r) in E.
Qed.

(** What the last key of a sorted run does not precede. *)
Lemma last_not_before ks k :
  sorted (ks ++ [k]) -> Forall (fun x => lt k x = false) (ks ++ [k]).
Proof.
  intros Hs. apply Forall_app. split; [|by constructor; [apply so_irrefl|]].
  apply StronglySorted_app in Hs as (Hlt & _ & _).
  rewrite Forall_forall. intros x Hx. destruct (lt k x) eqn:E; [|done].
  rewrite <- (so_irrefl k). symmetry. apply (so_trans k x k); [done|].
  apply Hlt; [done|by apply list_elem_of_singleton].
Qed.

(** The rows after the last key of a prefix are the rows after the prefix. *)
Lemma rows_from_prefix at_ rows ks k rest :
  sorted rows -> rows_from lt at_ rows = ks ++ k :: rest -> rows_after lt k rows = rest.
Proof.
  intros Hs He.
  assert (Hk : rows_after lt k rows = rows_after lt k (rows_from lt at_ rows)).
  { destruct at_ as [c|]; simpl in *; [|done]. symmetry. apply rows_after_twice.
    assert (Hin : k ∈ rows_after lt c rows) by (rewrite He; set_solver).
    apply list_elem_of_In, filter_In in Hin. tauto. }
  rewrite Hk, He. apply (rows_from_sorted at_) in Hs. rewrite He in Hs.
  rewrite (cons_middle k ks rest), app_assoc in Hs. rewrite (cons_middle k ks rest), app_assoc.
  rewrite rows_after_app. pose proof Hs as Hall. apply StronglySorted_app in Hs as (Hlt & Hpre & Hrest).
  rewrite rows_after_none by (by apply last_not_before). simpl.
  apply rows_after_all. rewrite Forall_forall. intros x Hx. apply Hlt; [set_solver|done].
Qed.

(** One batch on a sorted table: [keys], the non-empty prefix it took of the
    rows after the position, and the table it left. *)
Lemma batch_advances at_ rows rows' ks k rest :
  sorted rows -> rows_from lt at_ rows = (ks ++ [k]) ++ rest ->
  untouched_ahead lt (ks ++ [k]) rows rows' -> rows_after lt k rows' = rest.
Proof.
  intros Hs He [_ Hu]. rewrite Hu.
  - apply (rows_from_prefix at_ _ ks); [done|]. by rewrite He, <- app_assoc.
  - apply last_not_before. apply (rows_from_sorted at_) in Hs. rewrite He in Hs.
    by apply StronglySorted_app in Hs as (_ & Hs & _).
Qed.

End Order.

(** [accumulate] of what a LIMIT lets through: nothing when there is nothing,
    and otherwise a non-empty run of at most [batch] of the rows that come next. *)
Lemma take_accumulate {A} (size : A -> Z) bytes batch rows :
  1 <= batch ->
  (rows = [] /\ accumulate size bytes (take (Z.to_nat batch) rows) = [])
  \/ exists ks k rest, accumulate size bytes (take (Z.to_nat batch) rows) = ks ++ [k]
       /\ rows = (ks ++ [k]) ++ rest /\ 1 <= Z.of_nat (length (ks ++ [k])) <= batch.
Proof.
  intros Hb. destruct rows as [|r rows]; [by left; rewrite take_nil|]. right.
  destruct (accumulate_prefix size bytes (take (Z.to_nat batch) (r :: rows))) as [rest Hr].
  destruct (exists_last (l := accumulate size bytes (take (Z.to_nat batch) (r :: rows))))
    as (ks & k & Hk).
  { rewrite accumulate_nil_iff. destruct (Z.to_nat batch) eqn:E; [lia|done]. }
  exists ks, k, (rest ++ drop (Z.to_nat batch) (r :: rows)). split; [done|]. split.
  - rewrite app_assoc. by rewrite <- Hk, <- Hr, take_drop.
  - rewrite <- Hk. apply (f_equal length) in Hr. rewrite length_app, length_take in Hr.
    rewrite Hk, length_app in *. simpl in *. lia.
Qed.

(** Without a byte budget the whole selection is the batch. *)
Lemma take_run {A} batch (rows : list A) :
  1 <= batch ->
  (rows = [] /\ take (Z.to_nat batch) rows = [])
  \/ exists ks k rest, take (Z.to_nat batch) rows = ks ++ [k]
       /\ rows = (ks ++ [k]) ++ rest /\ 1 <= Z.of_nat (length (ks ++ [k])) <= batch.
Proof.
  intros Hb. destruct rows as [|r rows]; [by left; rewrite take_nil|]. right.
  destruct (exists_last (l := take (Z.to_nat batch) (r :: rows))) as (ks & k & Hk).
  { destruct (Z.to_nat batch) eqn:E; [lia|done]. }
  exists ks, k, (drop (Z.to_nat batch) (r :: rows)). split; [done|]. split.
  - by rewrite <- Hk, take_drop.
  - apply (f_equal length) in Hk. rewrite length_take, length_app in Hk.
    rewrite length_app. simpl in *. lia.
Qed.

(** The rows returned, or the keys sent when nothing came back. *)
Definition counted (r : Z) (n : nat) : Z := if r =? 0 then Z.of_nat n else r.

Lemma counted_range r n batch :
  0 <= r <= Z.of_nat n -> 1 <= Z.of_nat n <= batch -> 1 <= counted r n <= batch.
Proof. unfold counted. intros Hr Hn. case_if; bool_prop; lia. Qed.

Lemma last_key_snoc c ks k : last_key c (ks ++ [k]) = k.
Proof. unfold last_key. by rewrite last_snoc. Qed.

(** ** The walk along one key *)
Section Keyset.
Context {St : Type} `{KS : KeysetServer St} `{KL : !KeysetLaws St}.
Context (two : bool) (batch_bytes : Z) (upto : list (option string)).

(** The one-statement form takes no bound. *)
Definition keyset_bound : list (option string) := if two then upto else [].

#[local] Instance keyset_walk : BatchWalk St string := {
  bw_run st c batch _ := Ok (run_paced_batch two batch_bytes upto st c batch);
  bw_applied := ks_applied;
  bw_remaining st c := rows_after ks_lt c (ks_rows st keyset_bound);
  bw_readable _ _ := True;
  bw_groups _ _ := 0%nat;
}.

(** What both forms come to: nothing left and nothing done, or a run of the
    rows that come next. *)
Lemma keyset_ok_empty st st' c batch holds :
  1 <= batch -> bw_remaining st c = [] -> bw_remaining st' c = [] ->
  bw_applied st' = bw_applied st ->
  batch_ok st c batch holds st' (outcome_at c) [].
Proof.
  intros Hb Hr Hr' Ha. constructor; simpl in *; try done; try lia; rewrite ?app_nil_r; try done.
  by rewrite Hr, Hr'.
Qed.

Lemma keyset_ok_run st st' c batch holds ks k rest n :
  bw_remaining st c = (ks ++ [k]) ++ rest -> bw_applied st' = bw_applied st ++ (ks ++ [k]) ->
  untouched_ahead ks_lt (ks ++ [k]) (ks_rows st keyset_bound) (ks_rows st' keyset_bound) ->
  1 <= n <= batch ->
  batch_ok st c batch holds st' (applied_at k n) (ks ++ [k]).
Proof.
  intros Hr Ha Hu Hn. constructor; simpl in *; try done; try lia.
  - rewrite Hr. f_equal. symmetry.
    apply (batch_advances ks_lt (Some c) (ks_rows st keyset_bound) _ ks); auto using ks_sorted.
  - split; [lia|]. by destruct ks.
Qed.

#[local] Instance keyset_walk_laws : BatchWalkLaws St string.
Proof using KL.
  constructor; [done|]. intros st c batch holds Hb _. simpl. unfold run_paced_batch.
  destruct two eqn:Htwo; simpl.
  - rewrite ks_select_law by lia.
    destruct (take_accumulate size_of batch_bytes batch (rows_after ks_lt c (ks_rows st upto)) Hb)
      as [[Hr ->]|(ks & k & rest & Hacc & Hr & Hn)].
    + eexists _, _, _. split; [done|].
      apply keyset_ok_empty; simpl; unfold keyset_bound; rewrite ?Htwo; done.
    + rewrite Hacc. pose proof (ks_apply_law st (ks ++ [k])) as Hap.
      destruct (ks ++ [k]) as [|k0 ks0] eqn:E0; [by destruct ks|]. rewrite <- E0 in *.
      destruct (ks_apply st (array_literal (ks ++ [k]))) as [st' r]. destruct Hap as (Ha & Hu & Hrr).
      eexists _, _, _. split; [done|]. rewrite last_key_snoc.
      eapply keyset_ok_run; simpl; unfold keyset_bound; rewrite ?Htwo; eauto.
      by apply counted_range.
  - pose proof (ks_statement_law st c batch ltac:(lia)) as Hst.
    destruct (ks_statement st c batch) as [st' r]. destruct Hst as (Hr0 & Ha & Hu).
    destruct (take_run batch (rows_after ks_lt c (ks_rows st [])) Hb)
      as [[Hr Ht]|(ks & k & rest & Ht & Hr & Hn)]; rewrite Ht in Hr0; subst r.
    + eexists _, _, _. split; [done|]. change (applied_at (last_key c []) _) with (outcome_at c).
      apply keyset_ok_empty; simpl; unfold keyset_bound; rewrite ?Htwo; try done.
      * by rewrite (proj1 Hu).
      * by rewrite Ha, app_nil_r.
    + eexists _, _, _. split; [done|]. rewrite last_key_snoc.
      eapply keyset_ok_run; simpl; unfold keyset_bound; rewrite ?Htwo; eauto.
Qed.

End Keyset.

(** ** The walk along a composite key *)
Section Composite.
Context {St : Type} `{CS : CompositeServer St} `{CL : !CompositeLaws St}.
Context (two : bool) (batch_bytes : Z) (upto : list (option string)).

#[local] Instance composite_walk : BatchWalk St (list string) := {
  bw_run st c batch _ := run_composite_batch two batch_bytes upto st c batch;
  bw_applied := cs_applied;
  bw_remaining st c :=
    match composite_position c with
    | Ok at_ => rows_from cs_lt (position_of at_) (cs_rows st upto)
    | Err _ => []
    end;
  bw_readable _ c := exists at_, composite_position c = Ok at_;
  bw_groups _ _ := 0%nat;
}.

(** A cursor the walk wrote reads back as the row it was written for. *)
Lemma composite_position_dump st row :
  row ∈ cs_rows st upto -> composite_position (dump_key row) = Ok row.
Proof using CL.
  intros Hin. unfold composite_position.
  destruct (cs_dump_bracket row) as [rest Hd].
  destruct (String.eqb_spec (dump_key row) "") as [E|_]; [by rewrite Hd in E|].
  destruct (String.eqb_spec (dump_key row) "0") as [E|_]; [by rewrite Hd in E|]. cbn [orb].
  rewrite (cs_dump_parse st upto) by done. rewrite length_fmap.
  pose proof (cs_width st upto) as Hw. rewrite Forall_forall in Hw. rewrite (Hw row Hin).
  rewrite Nat.eqb_refl. apply sequence_Ok. rewrite <- list_fmap_compose. done.
Qed.

Lemma composite_ok_empty st st' c at_ batch holds :
  1 <= batch -> composite_position c = Ok at_ ->
  rows_from cs_lt (position_of at_) (cs_rows st upto) = [] ->
  rows_from cs_lt (position_of at_) (cs_rows st' upto) = [] ->
  cs_applied st' = cs_applied st ->
  batch_ok st c batch holds st' (outcome_at c) [].
Proof.
  intros Hb Hp Hr Hr' Ha. constructor; simpl; rewrite ?Hp, ?Hr, ?Hr', ?app_nil_r; try done; try lia.
  by eexists.
Qed.

Lemma composite_ok_run st st' c at_ batch holds rows row rest n :
  composite_position c = Ok at_ ->
  rows_from cs_lt (position_of at_) (cs_rows st upto) = (rows ++ [row]) ++ rest ->
  cs_applied st' = cs_applied st ++ (rows ++ [row]) ->
  untouched_ahead cs_lt (rows ++ [row]) (cs_rows st upto) (cs_rows st' upto) ->
  1 <= n <= batch ->
  batch_ok st c batch holds st' (applied_at (dump_key row) n) (rows ++ [row]).
Proof using CL.
  intros Hp Hr Ha Hu Hn.
  assert (Hin : row ∈ cs_rows st upto).
  { apply (rows_from_incl cs_lt (position_of at_)). rewrite Hr. set_solver. }
  assert (Hpos : position_of row = Some row).
  { pose proof (cs_width st upto) as Hw. rewrite Forall_forall in Hw. specialize (Hw row Hin).
    destruct row; [|done]. by destruct cs_columns_pos. }
  pose proof (composite_position_dump st row Hin) as Hd.
  constructor; simpl; rewrite ?Hp, ?Hd, ?Hpos; try done; try lia.
  - rewrite Hr. f_equal. symmetry.
    by apply (batch_advances cs_lt (position_of at_) (cs_rows st upto) _ rows); auto using cs_sorted.
  - by eexists.
  - split; [lia|]. by destruct rows.
Qed.

#[local] Instance composite_walk_laws : BatchWalkLaws St (list string).
Proof using CL.
  constructor; [by intros; exists []|]. intros st c batch holds Hb [at_ Hp]. simpl. unfold run_composite_batch.
  rewrite Hp. cbn [mbind result_bind]. destruct two; simpl.
  - rewrite cs_select_law by lia.
    destruct (take_accumulate row_size batch_bytes batch
                (rows_from cs_lt (position_of at_) (cs_rows st upto)) Hb)
      as [[Hr ->]|(ks & k & rest & Hacc & Hr & Hn)].
    + eexists _, _, _. split; [done|]. by eapply composite_ok_empty.
    + rewrite Hacc, last_snoc. pose proof (cs_apply_law st (ks ++ [k])) as Hap.
      destruct (cs_apply st (column_literals cs_columns (ks ++ [k]))) as [st' r].
      destruct Hap as (Ha & Hu & Hrr).
      { pose proof (cs_width st upto) as Hw. rewrite Forall_forall in *. intros x Hx. apply Hw.
        apply (rows_from_incl cs_lt (position_of at_)). rewrite Hr. set_solver. }
      eexists _, _, _. split; [done|].
      eapply composite_ok_run; eauto. by apply counted_range.
  - pose proof (cs_statement_law st at_ batch upto ltac:(lia)) as Hst.
    destruct (cs_statement st (position_params cs_columns at_) batch upto) as [st' r].
    destruct Hst as (Hr0 & Ha & Hu).
    destruct (take_run batch (rows_from cs_lt (position_of at_) (cs_rows st upto)) Hb)
      as [[Hr Ht]|(ks & k & rest & Ht & Hr & Hn)]; rewrite Ht in Hr0; subst r.
    + eexists _, _, _. split; [done|].
      eapply composite_ok_empty; eauto; [|by rewrite Ha, app_nil_r].
      by rewrite (proj1 Hu).
    + rewrite last_snoc. eexists _, _, _. split; [done|]. by eapply composite_ok_run.
Qed.

End Composite.

(** ** The walk by group *)
Section Grouped.
Context {St : Type} `{GS : GroupedServer St} `{GL : !GroupedLaws St}.
Context (batch_bytes : Z).

(** The rows of a list of groups, in order. *)
Definition rows_of_groups (st : St) (gs : list string) : list (string * string) :=
  mjoin ((fun g => (fun k => (g, k)) <$> gs_keys st g) <$> gs).

(** The rows a position leaves: all of them, or the rest of its group and the
    groups after it. *)
Definition group_remaining (st : St) (at_ : GroupCursor) : list (string * string) :=
  if String.eqb (gc_group at_) "" then rows_of_groups st (gs_all st)
  else ((fun k => (gc_group at_, k)) <$> rows_from gs_klt (maybe (gc_key at_)) (gs_keys st (gc_group at_)))
       ++ rows_of_groups st (rows_after gs_glt (gc_group at_) (gs_all st)).

Definition groups_left (st : St) (at_ : GroupCursor) : nat :=
  if String.eqb (gc_group at_) "" then length (gs_all st)
  else length (rows_after gs_glt (gc_group at_) (gs_all st)).

#[local] Instance grouped_walk : BatchWalk St (string * string) := {
  bw_run st c batch holds :=
    match gc_decode c with
    | None => Err (UnreadableCursor c)
    | Some at_ => Ok (run_grouped_batch batch_bytes st at_ batch holds)
    end;
  bw_applied := gs_applied;
  bw_remaining st c := match gc_decode c with Some at_ => group_remaining st at_ | None => [] end;
  bw_readable _ c := is_Some (gc_decode c);
  bw_groups st c := match gc_decode c with Some at_ => groups_left st at_ | None => 0%nat end;
}.

Lemma gc_decode_encode at_ : gc_decode (gc_encode at_) = Some at_.
Proof using GL.
  destruct at_ as [g k]. unfold gc_decode, gc_encode; simpl.
  destruct (gs_dump_bracket g k) as [rest Hd].
  destruct (String.eqb_spec (gs_dump (JArr [JStr g; JStr k])) "") as [E|_]; [by rewrite Hd in E|].
  destruct (String.eqb_spec (gs_dump (JArr [JStr g; JStr k])) "0") as [E|_]; [by rewrite Hd in E|].
  cbn [orb]. by rewrite gs_dump_parse.
Qed.

(** A batch from a position with the same rows ahead of it and fewer groups. *)
Lemma batch_within_move st at_ at_' batch holds st' o xs :
  group_remaining st at_' = group_remaining st at_ ->
  (groups_left st at_' < groups_left st at_)%nat ->
  batch_within (S (groups_left st at_')) st (gc_encode at_') batch holds st' o xs ->
  batch_within (groups_left st at_) st (gc_encode at_) batch holds st' o xs.
Proof using GL.
  intros Hr Hg [B1 B2 B3 B4 B5 B6 B7 B8 B9].
  cbn [bw_remaining bw_groups grouped_walk] in *. rewrite !gc_decode_encode in *.
  constructor; cbn [bw_remaining bw_groups grouped_walk]; rewrite ?gc_decode_encode; try done.
  - by rewrite <- Hr.
  - lia.
  - intros Hs. destruct (B8 Hs). split; [done|lia].
  - by rewrite <- Hr.
Qed.

Lemma batch_within_weaken st at_ batch holds st' o xs :
  batch_within (groups_left st at_) st (gc_encode at_) batch holds st' o xs ->
  batch_within (S (groups_left st at_)) st (gc_encode at_) batch holds st' o xs.
Proof. intros [B1 B2 B3 B4 B5 B6 B7 B8 B9]. constructor; try done. intros Hs. destruct (B8 Hs). lia. Qed.

(** Batches that do nothing: at the end, at the end of a group, out of looks. *)
Lemma group_idle_ok budget st at_ batch holds o :
  1 <= batch -> cursor o = gc_encode at_ -> considered o = 0 ->
  (commit_first o = true -> holds = true) ->
  (skipped_only o = true -> (groups_left st at_ < budget)%nat) ->
  (skipped_only o = false -> commit_first o = false -> group_remaining st at_ = []) ->
  batch_within budget st (gc_encode at_) batch holds st o [].
Proof using GL.
  intros Hb Hc Hn Hcf Hsk Hfin.
  constructor; cbn [bw_applied bw_remaining bw_groups bw_readable grouped_walk];
    rewrite ?Hc, ?gc_decode_encode, ?app_nil_r; eauto; try done; try lia.
Qed.

Lemma group_done_remaining st at_ :
  gc_group at_ <> "" ->
  rows_from gs_klt (maybe (gc_key at_)) (gs_keys st (gc_group at_)) = [] ->
  group_remaining st at_ = rows_of_groups st (rows_after gs_glt (gc_group at_) (gs_all st)).
Proof.
  intros Hg Hr. unfold group_remaining.
  destruct (String.eqb_spec (gc_group at_) ""); [done|]. by rewrite Hr.
Qed.

(** Moving to the first group after a position. *)
Lemma group_start_remaining st p g gs :
  rows_from gs_glt p (gs_all st) = g :: gs ->
  group_remaining st {| gc_group := g; gc_key := "" |} = rows_of_groups st (g :: gs)
  /\ groups_left st {| gc_group := g; gc_key := "" |} = length gs /\ g <> "".
Proof using GL.
  intros Hp.
  assert (Hin : g ∈ gs_all st) by (apply (rows_from_incl gs_glt p); rewrite Hp; set_solver).
  assert (Hne : g <> "") by (intros ->; by apply (gs_all_nonempty st)).
  assert (Ha : rows_after gs_glt g (gs_all st) = gs)
    by (by apply (rows_from_prefix gs_glt p _ []); [apply gs_all_sorted|]).
  unfold group_remaining, groups_left; simpl.
  destruct (String.eqb_spec g ""); [done|]. by rewrite Ha.
Qed.

(** The rows of the groups after one are not touched by a change inside it. *)
Lemma rows_of_groups_after st st' g :
  (forall g', g' <> g -> gs_keys st' g' = gs_keys st g') ->
  rows_of_groups st' (rows_after gs_glt g (gs_all st))
  = rows_of_groups st (rows_after gs_glt g (gs_all st)).
Proof using GL.
  intros Hk. unfold rows_of_groups. f_equal. apply list_fmap_ext. intros i g' Hi.
  rewrite Hk; [done|]. intros ->.
  apply list_elem_of_lookup_2, list_elem_of_In, filter_In in Hi as [_ Hi].
  by rewrite so_irrefl in Hi.
Qed.

(** A batch that changed rows. *)
Lemma group_run_ok budget st st' at_ batch holds ks k rest n :
  gc_group at_ <> "" ->
  rows_from gs_klt (maybe (gc_key at_)) (gs_keys st (gc_group at_)) = (ks ++ [k]) ++ rest ->
  gs_applied st' = gs_applied st ++ ((fun x => (gc_group at_, x)) <$> ks ++ [k]) ->
  untouched_ahead gs_klt (ks ++ [k]) (gs_keys st (gc_group at_)) (gs_keys st' (gc_group at_)) ->
  (forall g', g' <> gc_group at_ -> gs_keys st' g' = gs_keys st g') ->
  untouched_ahead gs_glt [gc_group at_] (gs_all st) (gs_all st') ->
  1 <= n <= batch ->
  batch_within budget st (gc_encode at_) batch holds st'
    (applied_at (gc_encode {| gc_group := gc_group at_; gc_key := k |}) n)
    ((fun x => (gc_group at_, x)) <$> ks ++ [k]).
Proof using GL.
  intros Hg Hr Ha Hu Ho [_ Hga] Hn.
  assert (Hk : k <> "").
  { intros ->. apply (gs_keys_nonempty st (gc_group at_)).
    apply (rows_from_incl gs_klt (maybe (gc_key at_))). rewrite Hr. set_solver. }
  assert (Hall : rows_after gs_glt (gc_group at_) (gs_all st')
                 = rows_after gs_glt (gc_group at_) (gs_all st)).
  { apply Hga. constructor; [apply so_irrefl|done]. }
  assert (Hrest : rows_after gs_klt k (gs_keys st' (gc_group at_)) = rest).
  { by eapply (batch_advances gs_klt); [apply gs_keys_sorted| |]. }
  constructor; cbn [bw_applied bw_remaining bw_groups bw_readable grouped_walk applied_at cursor
                    considered commit_first skipped_only]; rewrite ?gc_decode_encode; try done; try lia.
  - unfold group_remaining; simpl. destruct (String.eqb_spec (gc_group at_) ""); [done|].
    unfold maybe at 2. destruct (String.eqb_spec k ""); [done|]. simpl.
    by rewrite Hr, Hrest, Hall, (rows_of_groups_after st st'), fmap_app, <- app_assoc.
  - split; [lia|]. by destruct ks.
  - unfold groups_left; simpl. destruct (String.eqb_spec (gc_group at_) ""); [done|]. by rewrite Hall.
Qed.

(** One look, at a group that has been chosen. *)
Lemma grouped_look_ok again st at_ batch holds :
  1 <= batch -> gc_group at_ <> "" ->
  (forall at_', exists st' o xs, again at_' = (st', o)
    /\ batch_within (S (groups_left st at_')) st (gc_encode at_') batch holds st' o xs) ->
  exists st' o xs, grouped_look again batch_bytes batch holds st at_ = (st', o)
    /\ batch_within (groups_left st at_) st (gc_encode at_) batch holds st' o xs.
Proof using GL.
  intros Hb Hg Hagain. unfold grouped_look. rewrite gs_select_law by lia.
  destruct (take_accumulate size_of batch_bytes batch
              (rows_from gs_klt (maybe (gc_key at_)) (gs_keys st (gc_group at_))) Hb)
    as [[Hr Hacc]|(ks & k & rest & Hacc & Hr & Hn)].
  - rewrite Hr, take_nil, bool_decide_eq_true_2 by done. destruct holds.
    { eexists _, _, _. split; [done|]. apply group_idle_ok; simpl; try done; lia. }
    rewrite gs_groups_law by lia. unfold maybe.
    destruct (String.eqb_spec (gc_group at_) ""); [done|].
    destruct (rows_from gs_glt (Some (gc_group at_)) (gs_all st)) as [|g gs] eqn:Hgs.
    { eexists _, _, _. split; [done|]. apply group_idle_ok; simpl; try done.
      intros _ _. rewrite group_done_remaining by done. simpl in Hgs. by rewrite Hgs. }
    change (take (Z.to_nat 1) (g :: gs)) with [g].
    destruct (group_start_remaining _ _ _ _ Hgs) as (Hrem & Hleft & Hne).
    destruct (Hagain {| gc_group := g; gc_key := "" |}) as (st' & o & xs & Hrun & Hok).
    exists st', o, xs. split; [done|]. eapply batch_within_move; [| |done].
    + rewrite Hrem, group_done_remaining by done. simpl in Hgs. by rewrite Hgs.
    + rewrite Hleft. unfold groups_left. simpl in Hgs.
      destruct (String.eqb_spec (gc_group at_) ""); [done|]. rewrite Hgs. simpl. lia.
  - rewrite bool_decide_eq_false_2 by (intros E; rewrite E in Hacc; by destruct ks).
    rewrite Hacc. pose proof (gs_apply_law st (gc_group at_) (ks ++ [k])) as Hap.
    destruct (gs_apply st (gc_group at_) (array_literal (ks ++ [k]))) as [st' r].
    destruct Hap as (Ha & Hu & Ho & Hga & Hrr).
    eexists _, _, _. split; [done|]. rewrite last_key_snoc.
    eapply group_run_ok; eauto. by apply counted_range.
Qed.

Lemma grouped_loop_ok looked st at_ batch holds :
  1 <= batch ->
  exists st' o xs, grouped_loop looked batch_bytes batch holds st at_ = (st', o)
    /\ batch_within (match looked with O => S (groups_left st at_) | S _ => groups_left st at_ end)
         st (gc_encode at_) batch holds st' o xs.
Proof using GL.
  intros Hb. revert at_. induction looked as [|looked IH]; intros at_; simpl.
  { eexists _, _, _. split; [done|]. apply group_idle_ok; simpl; try done; lia. }
  assert (Hlook : forall at1, gc_group at1 <> "" -> _) by
    (intros at1 Hg1; apply (grouped_look_ok (grouped_loop looked batch_bytes batch holds st) st at1
       batch holds Hb Hg1); intros at2; destruct (IH at2) as (st' & o & xs & Hrun & Hok);
     exists st', o, xs; split; [done|]; by destruct looked; [|apply batch_within_weaken]).
  destruct (String.eqb_spec (gc_group at_) "") as [Hg|Hg]; [|by apply Hlook].
  rewrite Hg, gs_groups_law by lia. simpl.
  destruct (gs_all st) as [|g gs] eqn:Hall.
  { eexists _, _, _. split; [done|]. apply group_idle_ok; simpl; try done.
    intros _ _. unfold group_remaining. by rewrite Hg, Hall. }
  change (take _ (g :: gs)) with [g].
  destruct (group_start_remaining st None g gs Hall) as (Hrem & Hleft & Hne).
  destruct (Hlook {| gc_group := g; gc_key := "" |} Hne) as (st' & o & xs & Hrun & Hok).
  exists st', o, xs. split; [done|].
  eapply batch_within_move; [| |by apply batch_within_weaken].
  - rewrite Hrem. unfold group_remaining. by rewrite Hg, Hall.
  - rewrite Hleft. unfold groups_left. rewrite Hg, Hall. simpl. lia.
Qed.

#[local] Instance grouped_walk_laws : BatchWalkLaws St (string * string).
Proof using GL.
  constructor; [by intros; eexists|]. intros st c batch holds Hb [at_ Hd]. unfold run_grouped_batch.
  destruct (grouped_loop_ok kGroupsPerBatch st at_ batch holds Hb) as (st' & o & xs & Hrun & Hok).
  cbn [bw_run grouped_walk]. rewrite Hd. unfold run_grouped_batch. rewrite Hrun.
  exists st', o, xs. split; [done|].
  destruct Hok as [B1 B2 B3 B4 B5 B6 B7 B8 B9]. unfold batch_ok.
  cbn [bw_remaining bw_groups grouped_walk] in *. rewrite ?gc_decode_encode in *.
  constructor; cbn [bw_remaining bw_groups grouped_walk]; rewrite ?Hd; done.
Qed.

End Grouped.
