(* ===== verification/Servers.v ===== *)
(** * Servers: small servers that satisfy the laws of the three walks

    One table per walk, in memory: a row leaves the predicate once changed.
    They show that the laws of [KeysetLaws], [CompositeLaws] and [GroupedLaws]
    hold together, and they are what the walks are run on in the examples. *)
From S2P Require Import Prelude Json Batches BatchFacts.

(** ** Orders *)
Definition bytes_of (s : string) : list Z := byte_val <$> String.list_ascii_of_string s.

Lemma lex_strict {K} (f : K -> list Z) : StrictOrder (fun a b => lex_ltb (f a) (f b)).
Proof.
  constructor.
  - intros a b c. unfold lex_ltb. intros Hab Hbc. apply negb_true_iff in Hab, Hbc.
    apply negb_true_iff, not_true_is_false. intros Hca.
    destruct (lex_leb_total (f a) (f b)) as [H|H]; [|congruence].
    rewrite (lex_leb_trans (f c) (f a) (f b)) in Hbc; done.
  - intros a. unfold lex_ltb. by rewrite lex_leb_refl.
Qed.

Definition key_lt (a b : string) : bool := lex_ltb (bytes_of a) (bytes_of b).
Definition key_list_lt (a b : list string) : bool :=
  lex_ltb (mjoin ((fun v => bytes_of v ++ [-1]) <$> a)) (mjoin ((fun v => bytes_of v ++ [-1]) <$> b)).

#[export] Instance key_lt_strict : StrictOrder key_lt := lex_strict bytes_of.
#[export] Instance key_list_lt_strict : StrictOrder key_list_lt := lex_strict _.

Fixpoint sortedb {K} (lt : K -> K -> bool) (l : list K) : bool :=
  match l with [] => true | k :: l' => forallb (lt k) l' && sortedb lt l' end.

Lemma sortedb_sorted {K} (lt : K -> K -> bool) l :
  sortedb lt l = true -> StronglySorted (fun a b => lt a b = true) l.
Proof.
  induction l as [|k l IH]; simpl; intros H; [constructor|]. bool_prop. constructor; [auto|].
  apply Forall_forall. intros x Hx. eapply forallb_forall; [done|]. by apply list_elem_of_In.
Qed.

(** ** The rows still selected *)
Lemma filter_strongly_sorted {K} (R : K -> K -> Prop) p l :
  StronglySorted R l -> StronglySorted R (List.filter p l).
Proof.
  induction 1 as [|k l Hl IH Hk]; simpl; [constructor|]. case_if; [|done].
  constructor; [done|]. rewrite Forall_forall in *. intros x Hx. apply Hk.
  apply list_elem_of_In, filter_In in Hx. apply list_elem_of_In. tauto.
Qed.

Section Pending.
Context {K : Type} `{EqDecision K} (lt : K -> K -> bool).

Definition pending (table done_ : list K) : list K :=
  List.filter (fun k => bool_decide (k ∉ done_)) table.

Lemma pending_untouched table done_ keys :
  untouched_ahead lt keys (pending table done_) (pending table (done_ ++ keys)).
Proof.
  split; [intros ->; by rewrite app_nil_r|]. intros c Hk. unfold pending.
  induction table as [|k table IH]; simpl; [done|].
  destruct (decide (k ∈ done_)) as [Hd|Hd].
  - rewrite !bool_decide_eq_false_2 by set_solver. done.
  - rewrite (bool_decide_eq_true_2 (k ∉ done_)) by done. simpl.
    destruct (decide (k ∈ keys)) as [Hin|Hin].
    + rewrite bool_decide_eq_false_2 by set_solver.
      rewrite Forall_forall in Hk. by rewrite (Hk k Hin).
    + rewrite bool_decide_eq_true_2 by set_solver. simpl. by rewrite IH.
Qed.

End Pending.

Lemma pending_incl {K} `{EqDecision K} (table : list K) done_ k : k ∈ pending table done_ -> k ∈ table.
Proof. intros H. apply list_elem_of_In, filter_In in H. apply list_elem_of_In. tauto. Qed.

(** ** A table with one key *)
Definition keyset_table : list string := ["-5"; "1"; "2"; "3"; "4"; "5"; "6"].

(** The keys changed so far. *)
Record KeysetDemo : Type := { kd_done : list string }.

Definition within (upto : list (option string)) (k : string) : bool :=
  match upto with Some b :: _ => negb (key_lt b k) | _ => true end.

Definition kd_rows (st : KeysetDemo) (upto : list (option string)) : list string :=
  List.filter (within upto) (pending keyset_table (kd_done st)).

#[export] Instance keyset_demo : KeysetServer KeysetDemo := {
  ks_rows := kd_rows;
  ks_lt := key_lt;
  ks_select st c n upto := take (Z.to_nat n) (rows_after key_lt c (kd_rows st upto));
  ks_apply st lit :=
    match read_array lit with
    | Some keys => ({| kd_done := kd_done st ++ keys |}, Z.of_nat (length keys))
    | None => (st, 0)
    end;
  ks_statement st c n :=
    let r := take (Z.to_nat n) (rows_after key_lt c (kd_rows st [])) in
    ({| kd_done := kd_done st ++ r |}, r);
  ks_applied := kd_done;
}.

Lemma rows_after_filter {K} (lt : K -> K -> bool) p c l :
  rows_after lt c (List.filter p l) = List.filter p (rows_after lt c l).
Proof.
  unfold rows_after. induction l as [|k l IH]; simpl; [done|].
  destruct (p k) eqn:Hp, (lt c k) eqn:Hc; simpl; rewrite ?Hp, ?Hc; congruence.
Qed.

Lemma kd_untouched st keys upto :
  untouched_ahead key_lt keys (kd_rows st upto) (kd_rows {| kd_done := kd_done st ++ keys |} upto).
Proof.
  unfold kd_rows. destruct (pending_untouched key_lt keyset_table (kd_done st) keys) as [H1 H2].
  cbn [kd_done]. split; [intros Hk; by rewrite H1|].
  intros c Hk. rewrite !rows_after_filter. by rewrite H2.
Qed.

#[export] Instance keyset_demo_laws : KeysetLaws KeysetDemo.
Proof.
  constructor.
  - apply key_lt_strict.
  - intros st upto. apply filter_strongly_sorted, filter_strongly_sorted, sortedb_sorted. reflexivity.
  - done.
  - intros st keys. cbn [ks_apply keyset_demo]. rewrite read_array_literal. simpl. split; [done|].
    split; [|lia]. intros upto. apply kd_untouched.
  - intros st c n Hn. simpl. split; [done|]. split; [done|]. apply kd_untouched.
Qed.

(** ** A writer of string arrays that reads back *)
Definition strings_of (l : list json) : list string :=
  omap (fun v => match v with JStr s => Some s | _ => None end) l.

Definition demo_dump (j : json) : string :=
  match j with JArr l => String "[" (array_literal (strings_of l)) | _ => "" end.

Definition demo_parse (s : string) : option json :=
  match s with
  | String "[" rest => (fun l => JArr (JStr <$> l)) <$> read_array rest
  | _ => None
  end.

Lemma strings_of_JStr l : strings_of (JStr <$> l) = l.
Proof. unfold strings_of. induction l as [|s l IH]; csimpl; [done|]. by rewrite IH. Qed.

Lemma demo_round_trip l : demo_parse (demo_dump (JArr (JStr <$> l))) = Some (JArr (JStr <$> l)).
Proof. cbn [demo_dump demo_parse]. by rewrite strings_of_JStr, read_array_literal. Qed.

(** ** A table with a two-column key *)
Definition composite_table : list (list string) :=
  [["1"; "a"]; ["1"; "b"]; ["2"; "a"]; ["2"; "c"]].

Record CompositeDemo : Type := { cd_done : list (list string) }.

Definition cd_rows (st : CompositeDemo) (_ : list (option string)) : list (list string) :=
  pending composite_table (cd_done st).

(** The position the parameters name: none when the first is NULL. *)
Definition read_position (ps : list (option string)) : option (list string) :=
  match ps with Some _ :: _ => Some (omap id ps) | _ => None end.

Definition cd_select (st : CompositeDemo) (ps : list (option string)) (n : Z)
    (upto : list (option string)) : list (list string) :=
  take (Z.to_nat n) (rows_from key_list_lt (read_position ps) (cd_rows st upto)).

#[export] Instance composite_demo : CompositeServer CompositeDemo := {
  cs_columns := 2;
  cs_rows := cd_rows;
  cs_lt := key_list_lt;
  cs_parse := demo_parse;
  cs_dump := demo_dump;
  cs_select := cd_select;
  cs_apply st lits :=
    match read_array <$> lits with
    | [Some xs; Some ys] =>
        let rows := zip_with (fun x y => [x; y]) xs ys in
        ({| cd_done := cd_done st ++ rows |}, Z.of_nat (length rows))
    | _ => (st, 0)
    end;
  cs_statement st ps n upto :=
    let r := cd_select st ps n upto in ({| cd_done := cd_done st ++ r |}, r);
  cs_applied := cd_done;
}.

Lemma omap_Some (l : list string) : omap id (Some <$> l) = l.
Proof.
  induction l as [|w l IH]; [reflexivity|].
  change (omap id (Some <$> w :: l)) with (w :: omap id (Some <$> l)). by rewrite IH.
Qed.

Lemma read_position_params at_ : read_position (position_params 2 at_) = position_of at_.
Proof.
  destruct at_ as [|v at_]; [done|].
  change (read_position (position_params 2 (v :: at_))) with (Some (omap id (Some <$> v :: at_))).
  by rewrite omap_Some.
Qed.

Lemma zip_columns (rows : list (list string)) :
  Forall (fun row => length row = 2%nat) rows ->
  zip_with (fun x y => [x; y]) ((fun row => default "" (row !! 0%nat)) <$> rows)
    ((fun row => default "" (row !! 1%nat)) <$> rows) = rows.
Proof.
  induction 1 as [|row rows Hrow _ IH]; csimpl; [done|]. rewrite IH.
  destruct row as [|x [|y [|]]]; done.
Qed.

#[export] Instance composite_demo_laws : CompositeLaws CompositeDemo.
Proof.
  constructor.
  - apply key_list_lt_strict.
  - done.
  - intros st upto. apply filter_strongly_sorted, sortedb_sorted. reflexivity.
  - intros st upto. apply Forall_forall. intros row Hrow. apply pending_incl in Hrow.
    revert row Hrow. apply Forall_forall. repeat constructor.
  - intros st upto row _. apply demo_round_trip.
  - intros row. by eexists.
  - intros st at_ n upto _. simpl. unfold cd_select. by rewrite read_position_params.
  - intros st rows Hw. cbn [cs_apply cs_columns composite_demo] in *. unfold column_literals.
    cbn [seq fmap list_fmap]. rewrite !read_array_literal.
    rewrite zip_columns by done. simpl. split; [done|]. split; [|lia].
    intros upto. apply pending_untouched.
  - intros st at_ n upto _. simpl. split; [|split; [done|apply pending_untouched]].
    unfold cd_select. by rewrite read_position_params.
Qed.

(** ** A table with groups *)
Definition demo_groups : list string := ["a"; "b"; "c"].
Definition demo_keys (g : string) : list string :=
  if String.eqb g "a" then ["1"; "2"] else if String.eqb g "c" then ["1"; "3"; "5"] else [].

Record GroupedDemo : Type := { gd_done : list (string * string) }.

Definition gd_keys (st : GroupedDemo) (g : string) : list string :=
  pending (demo_keys g) (snd <$> filter (fun r => r.1 = g) (gd_done st)).

#[export] Instance grouped_demo : GroupedServer GroupedDemo := {
  gs_parse := demo_parse;
  gs_dump := demo_dump;
  gs_all _ := demo_groups;
  gs_glt := key_lt;
  gs_keys := gd_keys;
  gs_klt := key_lt;
  gs_groups _ g n := take (Z.to_nat n) (rows_from key_lt g demo_groups);
  gs_select st g k n := take (Z.to_nat n) (rows_from key_lt k (gd_keys st g));
  gs_apply st g lit :=
    match read_array lit with
    | Some keys => ({| gd_done := gd_done st ++ ((fun k => (g, k)) <$> keys) |}, Z.of_nat (length keys))
    | None => (st, 0)
    end;
  gs_applied := gd_done;
}.

Lemma gd_same_group st g (keys : list string) :
  snd <$> filter (fun r => r.1 = g) (gd_done st ++ ((fun k => (g, k)) <$> keys))
  = (snd <$> filter (fun r => r.1 = g) (gd_done st)) ++ keys.
Proof.
  rewrite filter_app, fmap_app. f_equal. induction keys as [|k keys IH]; csimpl; [done|].
  rewrite filter_cons_True by done. csimpl. by rewrite IH.
Qed.

Lemma gd_other_group st g g' (keys : list string) :
  g' <> g ->
  filter (fun r => r.1 = g') (gd_done st ++ ((fun k => (g, k)) <$> keys))
  = filter (fun r => r.1 = g') (gd_done st).
Proof.
  intros Hg. rewrite filter_app. induction keys as [|k keys IH]; csimpl; [by rewrite app_nil_r|].
  rewrite filter_cons_False by (simpl; congruence). done.
Qed.

#[export] Instance grouped_demo_laws : GroupedLaws GroupedDemo.
Proof.
  constructor; try apply key_lt_strict; try done.
  - intros st. apply sortedb_sorted. reflexivity.
  - intros st g. apply filter_strongly_sorted. simpl. unfold demo_keys.
    repeat case_if; apply sortedb_sorted; reflexivity.
  - intros st. apply (bool_decide_unpack _). by vm_compute.
  - intros st g Hin. simpl in Hin. apply pending_incl in Hin. unfold demo_keys in Hin.
    repeat case_if_in Hin; set_solver.
  - intros g k. apply (demo_round_trip [g; k]).
  - intros g k. by eexists.
  - intros st g keys. cbn [gs_apply grouped_demo]. rewrite read_array_literal. simpl. split; [done|].
    unfold gd_keys; simpl. split; [rewrite gd_same_group; apply pending_untouched|].
    split; [intros g' Hg; by rewrite gd_other_group|]. split; [by split|lia].
Qed.
