(* ===== verification/Walk.v ===== *)
(** * Walk: the commit loop of a paced step (src/cpp/src/executor.h, run_backfill)

    Batches run inside transactions the worker commits on a lock waiter, on
    the interval, on the row cap, at the end of a group or at the end of the
    walk; the cursor is written in the transaction whose rows it describes.
    The server's and the observer's part is a sequence of events, one per
    batch: what the pacing flags read, whether the statement failed, whether
    the commit was acknowledged. A run that uses up its events is a process
    that died there: what is left of it is the committed database. *)
From S2P Require Import Prelude Json Batches BatchFacts.

(** [CommitReason] and its [to_string] (jobs.h). *)
Inductive CommitReason : Type := kInterval | kLockWaiter | kBatchCap | kFinal | kGroupEnd.

Definition reason_to_string (r : CommitReason) : string :=
  match r with
  | kInterval => "interval"
  | kLockWaiter => "lock_waiter"
  | kBatchCap => "batch_cap"
  | kFinal => "final"
  | kGroupEnd => "group_end"
  end.

(** The row of [laswell.backfill_cursor]. *)
Record CursorRow : Type := { last_key_of : string; cursor_rows_done : Z; cursor_commits : Z }.

(** What is committed: the table, and the cursor row of the job. *)
Record Db (St : Type) : Type := { db_data : St; db_cursor : option CursorRow }.
Arguments db_data {St}. Arguments db_cursor {St}.

(** The worker's open transaction. *)
Record Txn (St : Type) : Type := { t_data : St; rows_this_txn : Z }.
Arguments t_data {St}. Arguments rows_this_txn {St}.

(** [pqxx::sql_error]: query_canceled or not, and the flag that tells whose. *)
Record SqlFault : Type := { query_canceled : bool; cancel_requested : bool }.

(** A commit that was not acknowledged: the server may have applied it. *)
Inductive CommitAck : Type := Acknowledged | LostBefore | LostAfter.

(** What the worker reads around one batch. The first four are looked at only
    before a transaction opens: [cancel_stop] three times, and the pause. *)
Record Event : Type := {
  ev_stop_first : bool;
  ev_pause_too_long : bool;
  ev_stop_after_pause : bool;
  ev_stop_at_slot : bool;
  ev_throttled : bool;
  ev_fault : option SqlFault;
  ev_direct_waiters : bool;
  ev_interval_elapsed : bool;
  ev_commit : CommitAck;
}.

(** The locals of [run_backfill] and what is committed. *)
Record Walk (St : Type) : Type := {
  w_db : Db St;
  w_open : option (Txn St);
  w_cursor : string;
  rows_done : Z;
  rows_committed : Z;
  commits : Z;
  reasons : gmap string Z;
}.
Arguments w_db {St}. Arguments w_open {St}. Arguments w_cursor {St}.
Arguments rows_done {St}. Arguments rows_committed {St}. Arguments commits {St}.
Arguments reasons {St}.

(** How the step leaves the loop; the last three are exceptions. *)
Inductive Ending : Type := Finished | Cancelled | AbortedContention | SqlFailed | CursorUnreadable.

#[global] Instance Ending_eq_dec : EqDecision Ending.
Proof. solve_decision. Defined.

Inductive WalkResult (St : Type) : Type :=
  | Going (w : Walk St)
  | Ended (e : Ending) (w : Walk St).
Arguments Going {St}. Arguments Ended {St}.

(** [reasons[k] += 1]. *)
Definition count_reason (k : string) (m : gmap string Z) : gmap string Z :=
  <[k := default 0 (m !! k) + 1]> m.

Definition no_reasons : gmap string Z :=
  list_to_map [("interval", 0); ("lock_waiter", 0); ("batch_cap", 0); ("final", 0); ("group_end", 0)].

Section Loop.
Context {St Row : Type} `{BW : BatchWalk St Row}.
(** [e.batch_rows] and [e.batch_cap_rows]. *)
Context (batch_rows batch_cap_rows : Z).

(** [throttled ? max(1, batch_rows / 2) : batch_rows]. *)
Definition batch_size (throttled : bool) : Z :=
  if throttled then Z.max 1 (Z.quot batch_rows 2) else batch_rows.

(** The transaction closed without its work: rolled back, or lost. The walk's
    own variables are left as they are. *)
Definition closed (w : Walk St) : Walk St :=
  {| w_db := w_db w; w_open := None; w_cursor := w_cursor w; rows_done := rows_done w;
     rows_committed := rows_committed w; commits := commits w; reasons := reasons w |}.

(** The upsert of the cursor row, in the transaction it describes. *)
Definition upsert_cursor (db : Db St) (t : Txn St) (c : string) (rows : Z) : Db St :=
  {| db_data := t_data t;
     db_cursor := Some {| last_key_of := c; cursor_rows_done := rows;
       cursor_commits := match db_cursor db with Some r => cursor_commits r + 1 | None => 1 end |} |}.

(** The commit at the end of the inner loop. *)
Definition commit_txn (w : Walk St) (t : Txn St) (r : CommitReason) (done : bool) (ack : CommitAck) :
  WalkResult St :=
  let db' := upsert_cursor (w_db w) t (w_cursor w) (rows_done w) in
  match ack with
  | LostBefore => Ended SqlFailed (closed w)
  | LostAfter =>
      Ended SqlFailed {| w_db := db'; w_open := None; w_cursor := w_cursor w; rows_done := rows_done w;
        rows_committed := rows_committed w; commits := commits w; reasons := reasons w |}
  | Acknowledged =>
      let w' := {| w_db := db'; w_open := None; w_cursor := w_cursor w; rows_done := rows_done w;
        rows_committed := rows_done w; commits := commits w + 1;
        reasons := count_reason (reason_to_string r) (reasons w) |} in
      if done then Ended Finished w' else Going w'
  end.

(** What follows a batch that returned: commit first, the end, groups skipped,
    then a waiter, the interval and the row cap, in that order. *)
Definition after_batch (w : Walk St) (t : Txn St) (o : BatchOutcome) (ev : Event) : WalkResult St :=
  let skipped_groups_only := (considered o =? 0) && skipped_only o in
  if commit_first o then commit_txn w t kGroupEnd false (ev_commit ev)
  else if (considered o =? 0) && negb skipped_groups_only then commit_txn w t kFinal true (ev_commit ev)
  else if skipped_groups_only then commit_txn w t kInterval false (ev_commit ev)
  else if ev_direct_waiters ev then commit_txn w t kLockWaiter false (ev_commit ev)
  else if ev_interval_elapsed ev then commit_txn w t kInterval false (ev_commit ev)
  else if batch_cap_rows <=? rows_this_txn t then commit_txn w t kBatchCap false (ev_commit ev)
  else Going {| w_db := w_db w; w_open := Some t; w_cursor := w_cursor w; rows_done := rows_done w;
    rows_committed := rows_committed w; commits := commits w; reasons := reasons w |}.

(** One turn of the inner loop. *)
Definition run_batch (w : Walk St) (t : Txn St) (ev : Event) : WalkResult St :=
  let batch := batch_size (ev_throttled ev) in
  match ev_fault ev with
  | Some f =>
      if query_canceled f && cancel_requested f then
        (* our cancel: rolled back, and the outer loop goes round again *)
        Going {| w_db := w_db w; w_open := None; w_cursor := w_cursor w; rows_done := rows_done w;
          rows_committed := rows_committed w; commits := commits w;
          reasons := count_reason "lock_waiter" (reasons w) |}
      else Ended SqlFailed (closed w)
  | None =>
      match bw_run (t_data t) (w_cursor w) batch (batch <=? rows_this_txn t) with
      | Err _ => Ended CursorUnreadable (closed w)
      | Ok (st', o) =>
          after_batch
            {| w_db := w_db w; w_open := w_open w; w_cursor := cursor o;
               rows_done := rows_done w + considered o; rows_committed := rows_committed w;
               commits := commits w; reasons := reasons w |}
            {| t_data := st'; rows_this_txn := rows_this_txn t + considered o |} o ev
      end
  end.

(** One event: the outer loop's gates when no transaction is open, then a batch. *)
Definition walk_step (w : Walk St) (ev : Event) : WalkResult St :=
  match w_open w with
  | Some t => run_batch w t ev
  | None =>
      if ev_stop_first ev then Ended Cancelled w
      else if ev_pause_too_long ev then Ended AbortedContention w
      else if ev_stop_after_pause ev then Ended Cancelled w
      else if ev_stop_at_slot ev then Ended Cancelled w
      else run_batch w {| t_data := db_data (w_db w); rows_this_txn := 0 |} ev
  end.

Fixpoint walk (w : Walk St) (evs : list Event) : WalkResult St :=
  match evs with
  | [] => Going w
  | ev :: evs' =>
      match walk_step w ev with
      | Going w' => walk w' evs'
      | Ended e w' => Ended e w'
      end
  end.

Definition result_walk (r : WalkResult St) : Walk St :=
  match r with Going w => w | Ended _ w => w end.

(** [resume_cursor]: the cursor of a prior unfinished job, unless there is none,
    it cannot be read, or a row behind it still matches. *)
Definition resume_cursor (unreadable stale : bool) (db : Db St) : string :=
  match db_cursor db with
  | Some r => if unreadable || stale then "0" else last_key_of r
  | None => "0"
  end.

(** The locals as the loop begins. *)
Definition start (db : Db St) (c : string) : Walk St :=
  {| w_db := db; w_open := None; w_cursor := c; rows_done := 0; rows_committed := 0;
     commits := 0; reasons := no_reasons |}.

(** A job for the step: whether the ledger cannot be read when it begins, whether
    the check of the cursor it finds there fails, and the events of its walk. *)
Record Attempt : Type := { at_unreadable : bool; at_stale : bool; at_events : list Event }.

(** The locals of a job's loop, at the cursor it resumes from. *)
Definition begin_attempt (db : Db St) (j : Attempt) : Walk St :=
  start db (resume_cursor (at_unreadable j) (at_stale j) db).

(** One job for the step after another, until one finishes, each from the cursor
    the one before committed or from the beginning: the database they leave, and
    how the last of them ended ([None]: it died). *)
Fixpoint attempts (db : Db St) (jobs : list Attempt) : Db St * option Ending :=
  match jobs with
  | [] => (db, None)
  | j :: jobs' =>
      match walk (begin_attempt db j) (at_events j) with
      | Ended Finished w => (w_db w, Some Finished)
      | Ended e w => match jobs' with [] => (w_db w, Some e) | _ => attempts (w_db w) jobs' end
      | Going w => attempts (w_db w) jobs'
      end
  end.

(** ** The one statement

    ["paced": false]: one statement over the whole table ahead of the walk, in
    one transaction, when no earlier attempt left a cursor. *)
Record SingleFault : Type := {
  sf_query_canceled : bool;
  sf_lock_timeout : bool;
  sf_cancel_stop : bool;
  sf_cancel_requested : bool;
}.

Record SingleEvent : Type := {
  se_stop_at_slot : bool;
  se_fault : option SingleFault;
}.

(** [done] after the statement, or the walk to go on with. *)
Definition run_single (exec : St -> St * Z) (w : Walk St) (ev : SingleEvent) : WalkResult St :=
  if se_stop_at_slot ev then Ended Cancelled w
  else
    match se_fault ev with
    | None =>
        let '(st', n) := exec (db_data (w_db w)) in
        Ended Finished {| w_db := {| db_data := st'; db_cursor := db_cursor (w_db w) |}; w_open := None;
          w_cursor := w_cursor w; rows_done := n; rows_committed := n; commits := 1;
          reasons := <["single_statement" := 1]> (reasons w) |}
    | Some f =>
        let fell_back :=
          Going {| w_db := w_db w; w_open := None; w_cursor := w_cursor w; rows_done := rows_done w;
            rows_committed := rows_committed w; commits := commits w;
            reasons := <["single_statement_cancelled" := 1]> (reasons w) |} in
        if sf_query_canceled f && sf_cancel_stop f then Ended Cancelled w
        else if sf_query_canceled f && sf_cancel_requested f then fell_back
        else if sf_lock_timeout f then fell_back
        else Ended SqlFailed w
    end.

(** ** The whole step *)

(** An invariant of the plan: its name and the value its query reads. *)
Record Invariant : Type := { inv_name : string; inv_query : St -> option string }.

(** [invariants_before[name] = scalar(...)], one after another. *)
Definition read_invariants (invs : list Invariant) (st : St) : gmap string (option string) :=
  foldl (fun m i => <[inv_name i := inv_query i st]> m) ∅ invs.

(** [invariants_before.value(name, json())]. *)
Definition value_before (before : gmap string (option string)) (name : string) : option string :=
  default None (before !! name).

Definition broken_invariants (before : gmap string (option string)) (invs : list Invariant) (st : St) :
  list Invariant :=
  List.filter (fun i => negb (bool_decide (inv_query i st = value_before before (inv_name i)))) invs.

(** What the step is recorded as, or that it threw. *)
Inductive StepOutcome : Type :=
  | StepSucceeded (rows : Z)
  | StepCancelled
  | StepDied
  | StepThrew (e : Ending)
  | RowsRemain (n : Z)
  | InvariantBroken (i : Invariant).

(** After the loop: completeness, then the invariants again. *)
Definition finish_backfill (verify_remaining : option (St -> Z)) (invs : list Invariant)
    (before : gmap string (option string)) (w : Walk St) : StepOutcome :=
  let st := db_data (w_db w) in
  let n := match verify_remaining with Some count => count st | None => 0 end in
  if negb (n =? 0) then RowsRemain n
  else
    match broken_invariants before invs st with
    | i :: _ => InvariantBroken i
    | [] => StepSucceeded (rows_done w)
    end.

(** [run_backfill], from the resumed cursor on: the invariants' first reading,
    the one statement where it applies, the walk, the checks. *)
Definition run_backfill (single : option (St -> St * Z)) (verify_remaining : option (St -> Z))
    (invs : list Invariant) (resumed_from : string) (db : Db St) (sev : SingleEvent)
    (evs : list Event) : StepOutcome * Db St :=
  let before := read_invariants invs (db_data db) in
  let w := start db resumed_from in
  let first :=
    match single with
    | Some exec => if String.eqb resumed_from "0" then run_single exec w sev else Going w
    | None => Going w
    end in
  let r := match first with Going w' => walk w' evs | Ended e w' => Ended e w' end in
  match r with
  | Going w' => (StepDied, w_db w')
  | Ended Finished w' => (finish_backfill verify_remaining invs before w', w_db w')
  | Ended Cancelled w' => (StepCancelled, w_db w')
  | Ended e w' => (StepThrew e, w_db w')
  end.

End Loop.
