(* ===== verification/WalkFacts.v ===== *)
(** * WalkFacts: what the commit loop guarantees

    Proved against the interface [BatchWalk] and then instantiated at the
    three walks: crash consistency of data and cursor, that interrupted and
    resumed jobs together change every row exactly once, termination with a
    bound on the number of batches, and the bounds the commit rules put on a
    transaction; and the two ways a walk can pass over rows. *)
From S2P Require Import Prelude Json Batches BatchFacts Servers Walk.

Section Facts.
Context {St Row : Type} `{BW : BatchWalk St Row} `{BL : !BatchWalkLaws St Row}.
Context (batch_rows batch_cap_rows : Z) (Hrows : 1 <= batch_rows).

Notation step := (walk_step batch_rows batch_cap_rows).
Notation run := (walk batch_rows batch_cap_rows).

Lemma batch_size_range throttled : 1 <= batch_size batch_rows throttled <= batch_rows.
Proof using Hrows.
  unfold batch_size. destruct throttled; [|lia].
  pose proof (Z.quot_pos batch_rows 2 ltac:(lia) ltac:(lia)).
  assert (Z.quot batch_rows 2 <= batch_rows) by (apply Z.quot_le_upper_bound; lia). lia.
Qed.

(** Whether an event is the observer's own cancellation of a batch. *)
Definition own_cancel (ev : Event) : bool :=
  match ev_fault ev with Some f => query_canceled f && cancel_requested f | None => false end.

(** No batch is cancelled in a transaction that already holds earlier batches. *)
Fixpoint cancels_alone (w : Walk St) (evs : list Event) : bool :=
  match evs with
  | [] => true
  | ev :: evs' =>
      negb (match w_open w with Some _ => own_cancel ev | None => false end)
      && match step w ev with Going w' => cancels_alone w' evs' | Ended _ _ => true end
  end.

(** ** The invariant

    [all] is every row, in the order they are to be changed. *)
Definition accounts (all : list Row) (st : St) (c : string) : Prop :=
  bw_readable st c /\ bw_applied st ++ bw_remaining st c = all.

(** The cursor the committed database stands at, for a walk that began at [c0]
    over [base]: the one its last commit recorded, or [c0] while it has committed
    nothing. *)
Definition stands (base : Db St) (c0 : string) (db : Db St) (c : string) : Prop :=
  (db = base /\ c = c0) \/ last_key_of <$> db_cursor db = Some c.

Record consistent (all : list Row) (base : Db St) (c0 : string) (w : Walk St) : Prop := {
  co_db : exists c, stands base c0 (w_db w) c /\ accounts all (db_data (w_db w)) c
    /\ (w_open w = None -> w_cursor w = c);
  co_open t : w_open w = Some t -> accounts all (t_data t) (w_cursor w);
}.

(** What a step from an accounted state leaves. *)
Definition safe_result (all : list Row) (base : Db St) (c0 : string) (r : WalkResult St) : Prop :=
  match r with
  | Going w => consistent all base c0 w
  | Ended e w => exists c, stands base c0 (w_db w) c /\ accounts all (db_data (w_db w)) c
      /\ (e = Finished -> bw_applied (db_data (w_db w)) = all /\ last_key_of <$> db_cursor (w_db w) = Some c)
  end.

Lemma commit_txn_safe all base c0 c w t r done ack :
  stands base c0 (w_db w) c -> accounts all (db_data (w_db w)) c ->
  accounts all (t_data t) (w_cursor w) ->
  (done = true -> bw_applied (t_data t) = all) ->
  safe_result all base c0 (commit_txn w t r done ack).
Proof.
  intros Hst Hdb Ht Hdone. unfold commit_txn. destruct ack; simpl; [destruct done|..]; simpl.
  - exists (w_cursor w). split; [by right|]. split; [done|]. intros _. by split; [apply Hdone|].
  - constructor; simpl; [|done]. exists (w_cursor w). by split; [right|].
  - exists c. done.
  - exists (w_cursor w). split; [by right|done].
Qed.

Lemma after_batch_safe all base c0 c w t o ev :
  stands base c0 (w_db w) c -> accounts all (db_data (w_db w)) c ->
  accounts all (t_data t) (w_cursor w) ->
  (considered o = 0 -> skipped_only o = false -> commit_first o = false -> bw_applied (t_data t) = all) ->
  safe_result all base c0 (after_batch batch_cap_rows w t o ev).
Proof.
  intros Hst Hdb Ht Hfin. unfold after_batch.
  destruct (commit_first o); [by eapply commit_txn_safe|].
  destruct (Z.eqb_spec (considered o) 0), (skipped_only o); simpl; try (by eapply commit_txn_safe);
    [eapply commit_txn_safe; eauto|..];
    repeat case_if; try (by eapply commit_txn_safe); constructor; simpl; try (by intros ? [= <-]);
    by exists c.
Qed.

(** One batch from a state that accounts for every row. *)
Lemma run_batch_safe all base c0 c w t ev :
  stands base c0 (w_db w) c -> accounts all (db_data (w_db w)) c ->
  accounts all (t_data t) (w_cursor w) ->
  (own_cancel ev = true -> w_cursor w = c) ->
  safe_result all base c0 (run_batch batch_rows batch_cap_rows w t ev).
Proof using BL Hrows.
  intros Hst Hdb [Hread Hall] Hcancel. unfold run_batch, own_cancel in *.
  destruct (ev_fault ev) as [f|].
  { destruct (query_canceled f && cancel_requested f); simpl; [|by exists c].
    constructor; simpl; [|done]. exists c. auto. }
  destruct (bw_law (t_data t) (w_cursor w) (batch_size batch_rows (ev_throttled ev))
              (batch_size batch_rows (ev_throttled ev) <=? rows_this_txn t))
    as (st' & o & xs & -> & Hok); [apply batch_size_range|done|].
  destruct Hok as [B1 B2 B3 B4 B5 B6 B7 B8 B9].
  eapply after_batch_safe; simpl; [done|done|split; [done|]|].
  - by rewrite B1, <- app_assoc, <- B2.
  - intros Hc Hs Hf. rewrite <- Hall, (B9 Hc Hs Hf), B1. f_equal. by apply B5.
Qed.

Lemma walk_step_safe all base c0 w ev :
  consistent all base c0 w ->
  (is_Some (w_open w) -> own_cancel ev = false) ->
  safe_result all base c0 (step w ev).
Proof using BL Hrows.
  intros [(c & Hst & Hdb & Hclosed) Hopen] Hc. unfold walk_step. destruct (w_open w) as [t|] eqn:Ht.
  - eapply run_batch_safe; eauto. intros Hown. rewrite Hc in Hown; [done|by eexists].
  - rewrite <- (Hclosed eq_refl) in *.
    repeat case_if; simpl; try (by exists (w_cursor w)).
    by eapply run_batch_safe.
Qed.

Lemma walk_safe all base c0 evs w :
  consistent all base c0 w -> cancels_alone w evs = true -> safe_result all base c0 (run w evs).
Proof using BL Hrows.
  revert w; induction evs as [|ev evs IH]; intros w Hw Hc; simpl in *; [done|].
  apply andb_true_iff in Hc as [Hc Hcs].
  assert (Hs : safe_result all base c0 (step w ev)).
  { apply walk_step_safe; [done|]. intros [t Ht]. rewrite Ht in Hc. by destruct (own_cancel ev). }
  destruct (step w ev); [by apply IH|done].
Qed.

Lemma start_consistent all db c :
  accounts all (db_data db) c -> consistent all db c (start db c).
Proof. intros Ha. constructor; simpl; [|done]. exists c. by split; [left|]. Qed.

(** ** One job after another *)

(** All the rows a walk from the beginning has to change, after those changed before it. *)
Definition all_from (st : St) : list Row := bw_applied st ++ bw_remaining st "0".

Definition starts_over (j : Attempt) : bool := at_unreadable j || at_stale j.

(** No observer's cancel of any of the jobs falls on a later batch of a transaction. *)
Fixpoint attempts_alone (db : Db St) (jobs : list Attempt) : bool :=
  match jobs with
  | [] => true
  | j :: jobs' =>
      cancels_alone (begin_attempt db j) (at_events j)
      && match run (begin_attempt db j) (at_events j) with
         | Ended Finished _ => true
         | Ended _ w' | Going w' => attempts_alone (w_db w') jobs'
         end
  end.

(** The database accounts for every row from the cursor the next job finds. *)
Definition settled (all : list Row) (db : Db St) : Prop :=
  accounts all (db_data db) (resume_cursor false false db).

Lemma stands_settled all base db c :
  settled all base -> stands base (resume_cursor false false base) db c -> accounts all (db_data db) c ->
  settled all db.
Proof.
  unfold settled, resume_cursor. intros Hb [[-> _]|Hc] Ha; [done|].
  destruct (db_cursor db); simpl in Hc; [|done]. by injection Hc as ->.
Qed.

(** One job: it goes on accounting for the same rows, or, where it started over
    and committed something, for those it found. *)
Lemma attempt_safe all db j :
  settled all db -> cancels_alone (begin_attempt db j) (at_events j) = true ->
  let r := run (begin_attempt db j) (at_events j) in
  let db' := w_db (result_walk r) in
  exists all', (all' = all \/ starts_over j = true /\ all' = all_from (db_data db))
    /\ settled all' db' /\ forall w, r = Ended Finished w -> bw_applied (db_data db') = all'.
Proof using BL Hrows.
  intros Hset. unfold begin_attempt. cbv zeta.
  assert (Hcase : resume_cursor (at_unreadable j) (at_stale j) db = resume_cursor false false db
    \/ starts_over j = true /\ resume_cursor (at_unreadable j) (at_stale j) db = "0").
  { unfold resume_cursor, starts_over. destruct (db_cursor db); [|by left].
    destruct (at_unreadable j || at_stale j); [by right|by left]. }
  destruct Hcase as [Hsame|[Hover H0]].
  - rewrite Hsame. intros Hc. exists all. split; [by left|].
    pose proof (walk_safe all db _ (at_events j) _ (start_consistent all db _ Hset) Hc) as Hs.
    destruct (run _ _) as [w|e w]; simpl in *.
    + destruct Hs as [(c' & Hst & Ha & _) _]. split; [by eapply stands_settled|done].
    + destruct Hs as (c' & Hst & Ha & Hf). split; [by eapply stands_settled|].
      intros w0 [= -> <-]. by apply Hf.
  - rewrite H0. intros Hc.
    assert (Hacc : accounts (all_from (db_data db)) (db_data db) "0") by (split; [apply bw_start|done]).
    pose proof (walk_safe _ db _ (at_events j) _ (start_consistent _ db _ Hacc) Hc) as Hs.
    assert (Hnew : forall db' c', accounts (all_from (db_data db)) (db_data db') c' ->
      last_key_of <$> db_cursor db' = Some c' -> settled (all_from (db_data db)) db').
    { intros db' c' Ha Hd. eapply (stands_settled _ db' db' c'); [|by right|done].
      unfold settled, resume_cursor. destruct (db_cursor db'); simpl in Hd; [by injection Hd as ->|done]. }
    destruct (run _ _) as [w|e w]; simpl in *.
    + destruct Hs as [(c' & [[-> _]|Hst] & Ha & _) _]; [by exists all; split_and!; [left|..]|].
      exists (all_from (db_data db)). split; [by right|]. by split; [eapply Hnew|].
    + destruct Hs as (c' & Hst & Ha & Hf). destruct (decide (e = Finished)) as [->|Hne].
      * destruct (Hf eq_refl) as [Happ Hcur].
        exists (all_from (db_data db)). split; [by right|]. by split; [eapply Hnew|].
      * destruct Hst as [[-> _]|Hst]; [exists all; split_and!; [by left|done|congruence]|].
        exists (all_from (db_data db)). split_and!; [by right|by eapply Hnew|congruence].
Qed.

Lemma attempts_next db j jobs :
  (forall w, run (begin_attempt db j) (at_events j) <> Ended Finished w) ->
  (attempts batch_rows batch_cap_rows db (j :: jobs)).1
  = (attempts batch_rows batch_cap_rows (w_db (result_walk (run (begin_attempt db j) (at_events j)))) jobs).1.
Proof.
  intros Hn. cbn [attempts]. destruct (run _ _) as [w|e w]; [done|].
  destruct e; [by destruct (Hn w)|..]; by destruct jobs.
Qed.

Definition finished (r : WalkResult St) : bool := match r with Ended Finished _ => true | _ => false end.

(** The rows accounted for are those there were, or those the last job that started
    over found. *)
Lemma attempts_safe all jobs db :
  settled all db -> attempts_alone db jobs = true ->
  let db' := (attempts batch_rows batch_cap_rows db jobs).1 in
  exists all', (all' = all \/ exists n j, jobs !! n = Some j /\ starts_over j = true
      /\ all' = all_from (db_data (attempts batch_rows batch_cap_rows db (take n jobs)).1))
    /\ settled all' db'
    /\ ((attempts batch_rows batch_cap_rows db jobs).2 = Some Finished -> bw_applied (db_data db') = all').
Proof using BL Hrows.
  revert all db; induction jobs as [|j jobs IH]; intros all db Hset Hc; cbn [attempts_alone] in Hc.
  { exists all. by split; [left|]. }
  apply andb_true_iff in Hc as [Hc Hcs].
  destruct (attempt_safe all db j Hset Hc) as (all1 & Hall1 & Hset1 & Hfin).
  assert (Hhere : all1 = all \/ exists n j', (j :: jobs) !! n = Some j' /\ starts_over j' = true
      /\ all1 = all_from (db_data (attempts batch_rows batch_cap_rows db (take n (j :: jobs))).1)).
  { destruct Hall1 as [->|[Ho ->]]; [by left|right]. by exists 0%nat, j. }
  destruct (finished (run (begin_attempt db j) (at_events j))) eqn:Hf.
  - destruct (run (begin_attempt db j) (at_events j)) as [|[] w] eqn:Hr; try done.
    exists all1. cbn [attempts]. rewrite Hr. split; [done|]. split; [done|]. intros _. by eapply Hfin.
  - assert (Hn : forall w, run (begin_attempt db j) (at_events j) <> Ended Finished w) by (by intros w Hw; rewrite Hw in Hf).
    assert (Hcs' : attempts_alone (w_db (result_walk (run (begin_attempt db j) (at_events j)))) jobs = true)
      by (destruct (run _ _) as [|[] ?]; try done).
    destruct (IH all1 _ Hset1 Hcs') as (all' & Hall' & Hset' & Hfin').
    exists all'. rewrite attempts_next by done. split; [|split; [done|]].
    + destruct Hall' as [->|(n & j' & Hj & Ho & ->)]; [done|]. right. exists (S n), j'.
      split; [done|]. split; [done|]. cbn [take firstn]. by rewrite attempts_next.
    + intros He. apply Hfin'. revert He. cbn [attempts].
      destruct (run _ _) as [|[] ?]; try done; by destruct jobs.
Qed.

(** ** Progress *)

(** Nothing stops the walk, no statement fails and every commit is acknowledged. *)
Definition quiet (ev : Event) : bool :=
  negb (ev_stop_first ev) && negb (ev_pause_too_long ev) && negb (ev_stop_after_pause ev)
  && negb (ev_stop_at_slot ev)
  && match ev_fault ev with None => true | Some _ => false end
  && match ev_commit ev with Acknowledged => true | _ => false end.

Definition current (w : Walk St) : St :=
  match w_open w with Some t => t_data t | None => db_data (w_db w) end.

Definition txn_rows (w : Walk St) : Z :=
  match w_open w with Some t => rows_this_txn t | None => 0 end.

Definition any_rows (rows : Z) : nat := if 0 <? rows then 1 else 0.

(** Batches still needed: a row may cost two, one to change it and one to end its group. *)
Definition batches_left (w : Walk St) : nat :=
  2 * length (bw_remaining (current w) (w_cursor w)) + bw_groups (current w) (w_cursor w)
  + any_rows (txn_rows w).

Definition advances (w : Walk St) (r : WalkResult St) : Prop :=
  match r with
  | Going w' => bw_readable (current w') (w_cursor w') /\ (batches_left w' < batches_left w)%nat
  | Ended e _ => e = Finished
  end.

Lemma run_batch_advances w t ev :
  current w = t_data t -> txn_rows w = rows_this_txn t -> bw_readable (current w) (w_cursor w) ->
  quiet ev = true -> advances w (run_batch batch_rows batch_cap_rows w t ev).
Proof using BL Hrows.
  intros Hcur Hrow Hread Hq. unfold quiet in Hq. bool_prop.
  unfold run_batch. destruct (ev_fault ev); [done|]. destruct (ev_commit ev) eqn:Hack; try done.
  pose proof (batch_size_range (ev_throttled ev)) as Hsz.
  destruct (bw_law (t_data t) (w_cursor w) (batch_size batch_rows (ev_throttled ev))
              (batch_size batch_rows (ev_throttled ev) <=? rows_this_txn t))
    as (st' & o & xs & -> & [B1 B2 B3 B4 B5 B6 B7 B8 B9]); [lia|by rewrite <- Hcur|].
  assert (Hleft : (2 * length (bw_remaining st' (cursor o)) + bw_groups st' (cursor o)
                   + 2 * length xs + any_rows (rows_this_txn t) <= batches_left w)%nat).
  { unfold batches_left. rewrite Hcur, Hrow, B2, length_app. lia. }
  unfold after_batch, commit_txn. rewrite Hack. simpl.
  destruct (commit_first o) eqn:Hcf.
  { destruct (B7 eq_refl) as [Hh Hc]. bool_prop. simpl. split; [done|]. unfold batches_left at 1, current, txn_rows; simpl.
    unfold any_rows in *; simpl. destruct (Z.ltb_spec 0 (rows_this_txn t)); lia. }
  destruct (Z.eqb_spec (considered o) 0) as [Hc|Hc].
  { destruct (skipped_only o) eqn:Hsk; simpl; [|done].
    destruct (B8 eq_refl) as [_ Hg]. split; [done|]. unfold batches_left at 1, current, txn_rows; simpl.
    unfold batches_left. rewrite Hcur, B2, length_app. unfold any_rows; simpl. case_if; lia. }
  assert (Hxs : (1 <= length xs)%nat) by (destruct xs; [by exfalso; apply Hc, B5|simpl; lia]).
  simpl. repeat case_if; simpl; (split; [done|]); unfold batches_left at 1, current, txn_rows, any_rows; simpl; repeat case_if; lia.
Qed.

Lemma walk_step_advances w ev :
  bw_readable (current w) (w_cursor w) -> quiet ev = true -> advances w (step w ev).
Proof using BL Hrows.
  intros Hread Hq. unfold walk_step. destruct (w_open w) as [t|] eqn:Ht.
  - apply run_batch_advances; unfold current, txn_rows in *; rewrite ?Ht in *; done.
  - pose proof Hq as Hq'. unfold quiet in Hq'. bool_prop.
    do 4 (match goal with H : ?b = false |- context [if ?b then _ else _] => rewrite H end).
    apply run_batch_advances; unfold current, txn_rows in *; rewrite ?Ht in *; done.
Qed.

Lemma walk_finishes evs w :
  bw_readable (current w) (w_cursor w) -> forallb quiet evs = true ->
  (batches_left w < length evs)%nat -> exists w', run w evs = Ended Finished w'.
Proof using BL Hrows.
  revert w; induction evs as [|ev evs IH]; intros w Hread Hq Hl; simpl in *; [lia|].
  apply andb_true_iff in Hq as [Hq Hqs].
  pose proof (walk_step_advances w ev Hread Hq) as Ha. destruct (step w ev) as [w'|e w']; simpl in Ha.
  - destruct Ha. apply IH; [done|done|lia].
  - subst e. by eexists.
Qed.

(** ** Bounds on a transaction *)

(** The open transaction and the counters, while no cancel loses a batch. *)
Record counted_walk (w : Walk St) : Prop := {
  cw_done : rows_done w = rows_committed w + txn_rows w;
  cw_open t : w_open w = Some t -> 1 <= rows_this_txn t < batch_cap_rows;
  cw_readable : bw_readable (current w) (w_cursor w);
  cw_committed : w_open w = None -> bw_readable (db_data (w_db w)) (w_cursor w);
}.

(** What one event may add to the rows committed. *)
Definition bounded_result (w : Walk St) (r : WalkResult St) : Prop :=
  rows_committed w <= rows_committed (result_walk r)
    <= rows_committed w + Z.max 0 (batch_cap_rows - 1) + batch_rows
  /\ match r with Going w' => counted_walk w' | Ended _ _ => True end.

Lemma commit_txn_bounded w0 w t r done ack :
  rows_committed w = rows_committed w0 -> rows_done w = rows_committed w + rows_this_txn t ->
  0 <= rows_this_txn t <= Z.max 0 (batch_cap_rows - 1) + batch_rows ->
  bw_readable (t_data t) (w_cursor w) ->
  bounded_result w0 (commit_txn w t r done ack).
Proof.
  intros Hc Hd Ht Hread. unfold bounded_result, commit_txn.
  destruct ack; [destruct done|..]; simpl; (split; [lia|]); try done.
  constructor; simpl; try done; unfold txn_rows; simpl; lia.
Qed.

Lemma run_batch_bounded w t ev :
  rows_done w = rows_committed w + rows_this_txn t ->
  0 <= rows_this_txn t <= Z.max 0 (batch_cap_rows - 1) ->
  bw_readable (t_data t) (w_cursor w) ->
  (own_cancel ev = true -> rows_this_txn t = 0 /\ bw_readable (db_data (w_db w)) (w_cursor w)) ->
  bounded_result w (run_batch batch_rows batch_cap_rows w t ev).
Proof using BL Hrows.
  intros Hd Ht Hread Hcancel. unfold run_batch, own_cancel in *.
  destruct (ev_fault ev) as [f|].
  { destruct (query_canceled f && cancel_requested f); unfold bounded_result; simpl;
      [|split; [lia|done]]. destruct (Hcancel eq_refl). split; [lia|]. constructor; simpl; try done. unfold txn_rows; simpl. lia. }
  pose proof (batch_size_range (ev_throttled ev)) as Hsz.
  destruct (bw_law (t_data t) (w_cursor w) (batch_size batch_rows (ev_throttled ev))
              (batch_size batch_rows (ev_throttled ev) <=? rows_this_txn t))
    as (st' & o & xs & -> & [B1 B2 B3 B4 B5 B6 B7 B8 B9]); [lia|done|].
  unfold after_batch.
  repeat (case_if; [apply commit_txn_bounded; simpl; done || lia|]).
  split; simpl; [lia|]. constructor; simpl; try done; [unfold txn_rows; simpl; lia|].
  intros t' [= <-]. simpl. bool_prop.
  destruct (Z.eqb_spec (considered o) 0), (skipped_only o); simpl in *; try done; lia.
Qed.

Lemma walk_step_bounded w ev :
  counted_walk w -> (is_Some (w_open w) -> own_cancel ev = false) -> bounded_result w (step w ev).
Proof using BL Hrows.
  intros [Hd Ho Hr Hc] Hcancel. unfold walk_step, txn_rows, current in *.
  destruct (w_open w) as [t|] eqn:Ht.
  - specialize (Ho t eq_refl). apply run_batch_bounded; auto; [lia|].
    rewrite Hcancel; [done|by eexists].
  - repeat case_if; try (unfold bounded_result; simpl; split; [lia|done]).
    apply run_batch_bounded; simpl; auto; lia.
Qed.

Lemma walk_counted evs w :
  counted_walk w -> cancels_alone w evs = true ->
  match run w evs with Going w' => counted_walk w' | Ended _ _ => True end.
Proof using BL Hrows.
  revert w; induction evs as [|ev evs IH]; intros w Hw Hc; simpl in *; [done|].
  apply andb_true_iff in Hc as [Hc Hcs].
  assert (Hs : bounded_result w (step w ev)).
  { apply walk_step_bounded; [done|]. intros [t Ht]. rewrite Ht in Hc. by destruct (own_cancel ev). }
  destruct Hs as [_ Hs]. destruct (step w ev); [by apply IH|done].
Qed.
End Facts.

(** ** What the walks guarantee *)

Lemma paced_batch_applies {St} `{KS : KeysetServer St} `{KL : !KeysetLaws St}
    batch_bytes upto st c batch :
  ks_applied (run_paced_batch true batch_bytes upto st c batch).1
  = ks_applied st ++ accumulate size_of batch_bytes (ks_select st c batch upto).
Proof.
  unfold run_paced_batch; simpl.
  pose proof (ks_apply_law st (accumulate size_of batch_bytes (ks_select st c batch upto))) as Hap.
  destruct (accumulate size_of batch_bytes (ks_select st c batch upto)); [by rewrite app_nil_r|].
  destruct (ks_apply st _) as [st' r]. by destruct Hap.
Qed.

Lemma size_of_nonneg l : Forall (fun v => 0 <= size_of v) l.
Proof. apply Forall_forall. intros. unfold size_of. lia. Qed.

(** One batch of the walk along one key ([run_paced_batch], both its forms)
    changes the rows that come next after the cursor, in key order, at least one
    when there is one and at most [batch] of them; it leaves the cursor so that
    exactly the others are still ahead, it reports 0 only when nothing was
    ahead, and the keys sent in one statement fit the byte budget unless a
    single key does not. *)
Theorem paced_batch_takes_the_next_rows {St} `{KS : KeysetServer St} `{KL : !KeysetLaws St}
    (two : bool) batch_bytes upto st c batch :
  1 <= batch ->
  let bound := if two then upto else [] in
  let '(st', o) := run_paced_batch two batch_bytes upto st c batch in
  exists xs,
    rows_after ks_lt c (ks_rows st bound) = xs ++ rows_after ks_lt (cursor o) (ks_rows st' bound)
    /\ ks_applied st' = ks_applied st ++ xs
    /\ 0 <= considered o <= batch
    /\ (considered o = 0 <-> rows_after ks_lt c (ks_rows st bound) = [])
    /\ (two = true -> total_size size_of xs <= batch_bytes \/ (length xs <= 1)%nat).
Proof.
  intros Hb bound.
  pose proof (@bw_law St string (keyset_walk two batch_bytes upto)
    (keyset_walk_laws two batch_bytes upto) st c batch false Hb I)
    as (st' & o & xs & Hrun & [B1 B2 B3 B4 B5 B6 B7 B8 B9]).
  cbn [bw_run keyset_walk] in Hrun. injection Hrun as Hrun. rewrite Hrun. exists xs.
  split; [exact B2|]. split; [exact B1|]. split; [exact B4|]. split.
  - split.
    + intros Hc. destruct (skipped_only o) eqn:Hs; [by destruct (B8 eq_refl); simpl in *; lia|].
      destruct (commit_first o) eqn:Hf; [by destruct (B7 eq_refl)|]. by apply B9.
    + intros Hr. apply B5. apply (app_eq_nil xs (rows_after ks_lt (cursor o) (ks_rows st' bound))).
      by rewrite <- Hr.
  - intros ->. pose proof (paced_batch_applies batch_bytes upto st c batch) as Hx.
    rewrite Hrun in Hx. simpl in B1, Hx. rewrite B1 in Hx. apply app_inv_head in Hx as ->.
    apply accumulate_budget, size_of_nonneg.
Qed.

(** [paced_batch_takes_the_next_rows] on seven rows, three at a time after "1". *)
Lemma paced_batch_takes_the_next_rows_witness :
  run_paced_batch true 100 [] {| kd_done := ["1"] |} "1" 3
    = ({| kd_done := ["1"; "2"; "3"; "4"] |}, applied_at "4" 3)
  /\ exists xs, rows_after ks_lt "1" (ks_rows {| kd_done := ["1"] |} []) = xs ++ ["5"; "6"].
Proof.
  split; [by vm_compute|].
  pose proof (paced_batch_takes_the_next_rows true 100 [] {| kd_done := ["1"] |} "1" 3 ltac:(lia)) as H.
  destruct (run_paced_batch true 100 [] {| kd_done := ["1"] |} "1" 3) as [st' o] eqn:E.
  vm_compute in E. injection E as <- <-. destruct H as (xs & Hx & _). exists xs.
  rewrite Hx. by vm_compute.
Defined.

(** One batch of the walk along a composite key ([run_composite_batch]):
    from any cursor the walk can read it does not fail, it changes the rows that
    come next in the order of the whole key, and the cursor it writes is one it
    reads back as the position after exactly those rows. *)
Theorem composite_batch_takes_the_next_rows {St} `{CS : CompositeServer St} `{CL : !CompositeLaws St}
    (two : bool) batch_bytes upto st c at_ batch :
  1 <= batch -> composite_position c = Ok at_ ->
  let ahead := rows_from cs_lt (position_of at_) (cs_rows st upto) in
  exists st' o at_' xs,
    run_composite_batch two batch_bytes upto st c batch = Ok (st', o)
    /\ composite_position (cursor o) = Ok at_'
    /\ ahead = xs ++ rows_from cs_lt (position_of at_') (cs_rows st' upto)
    /\ cs_applied st' = cs_applied st ++ xs
    /\ 0 <= considered o <= batch
    /\ (considered o = 0 <-> xs = []).
Proof.
  intros Hb Hp ahead.
  pose proof (@bw_law St (list string) (composite_walk two batch_bytes upto)
    (composite_walk_laws two batch_bytes upto) st c batch false Hb (ex_intro _ at_ Hp))
    as (st' & o & xs & Hrun & [B1 B2 [at_' B3] B4 B5 B6 B7 B8 B9]).
  exists st', o, at_', xs. split; [exact Hrun|]. split; [exact B3|].
  cbn [bw_remaining composite_walk] in B2. rewrite Hp, B3 in B2.
  split; [exact B2|]. split; [exact B1|]. split; [exact B4|exact B5].
Qed.

(** [composite_batch_takes_the_next_rows] from the start of a table of four rows. *)
Lemma composite_batch_takes_the_next_rows_witness :
  exists st' o, run_composite_batch true 100 [] {| cd_done := [] |} "0" 3 = Ok (st', o)
    /\ cd_done st' = [["1"; "a"]; ["1"; "b"]; ["2"; "a"]] /\ considered o = 3.
Proof.
  destruct (composite_batch_takes_the_next_rows true 100 [] {| cd_done := [] |} "0" [] 3
              ltac:(lia) eq_refl) as (st' & o & at_' & xs & H & _).
  exists st', o. split; [exact H|]. vm_compute in H. injection H as <- <-. by vm_compute.
Defined.

(** One batch of the walk by group ([run_grouped_batch]): it changes rows of
    one group only, the next ones of the walk; the cursor it writes reads back as
    the position after them. It asks for a commit first only when the caller said
    it holds locks, it reports that it only skipped when it got closer to the
    last group, and otherwise it considers nothing only at the end of the walk. *)
Theorem grouped_batch_takes_the_next_rows {St} `{GS : GroupedServer St} `{GL : !GroupedLaws St}
    batch_bytes st at_ batch holds :
  1 <= batch ->
  let '(st', o) := run_grouped_batch batch_bytes st at_ batch holds in
  exists at_' xs,
    gc_decode (cursor o) = Some at_'
    /\ group_remaining st at_ = xs ++ group_remaining st' at_'
    /\ gs_applied st' = gs_applied st ++ xs
    /\ 0 <= considered o <= batch
    /\ (considered o = 0 <-> xs = [])
    /\ (commit_first o = true -> holds = true)
    /\ (skipped_only o = true -> (groups_left st' at_' < groups_left st at_)%nat)
    /\ (considered o = 0 -> skipped_only o = false -> commit_first o = false ->
        group_remaining st at_ = []).
Proof.
  intros Hb. unfold run_grouped_batch.
  destruct (grouped_loop_ok batch_bytes kGroupsPerBatch st at_ batch holds Hb)
    as (st' & o & xs & -> & [B1 B2 [at_' B3] B4 B5 B6 B7 B8 B9]).
  exists at_', xs. cbn [bw_remaining bw_groups bw_applied grouped_walk] in *.
  rewrite gc_decode_encode in *. rewrite B3 in *.
  split; [done|]. split; [exact B2|]. split; [exact B1|]. split; [exact B4|]. split; [exact B5|].
  split; [by intros H; apply B7 in H as [H _]|]. split; [by intros H; apply B8 in H as [_ H]|exact B9].
Qed.

(** [grouped_batch_takes_the_next_rows] past a group with nothing in it. *)
Lemma grouped_batch_takes_the_next_rows_witness :
  let st := {| gd_done := [] |} in let at_ := {| gc_group := "a"; gc_key := "2" |} in
  (exists xs, group_remaining st at_ = xs ++ [("c", "5")])
  /\ gs_applied (run_grouped_batch 100 st at_ 2 false).1 = [("c", "1"); ("c", "3")].
Proof.
  intros st at_. split; [|by vm_compute].
  pose proof (grouped_batch_takes_the_next_rows 100 st at_ 2 false ltac:(lia)) as H.
  destruct (run_grouped_batch 100 st at_ 2 false) as [st' o] eqn:E.
  vm_compute in E. injection E as <- <-. destruct H as (at_' & xs & Hd & Hx & _).
  exists xs. rewrite Hx. vm_compute in Hd. injection Hd as <-. by vm_compute.
Defined.

(** Events of the examples: nothing happens; a waiter is seen; the observer
    cancels the batch; the connection is lost after the server committed. *)
Definition calm : Event :=
  {| ev_stop_first := false; ev_pause_too_long := false; ev_stop_after_pause := false;
     ev_stop_at_slot := false; ev_throttled := false; ev_fault := None;
     ev_direct_waiters := false; ev_interval_elapsed := false; ev_commit := Acknowledged |}.

Definition waited_on : Event :=
  {| ev_stop_first := false; ev_pause_too_long := false; ev_stop_after_pause := false;
     ev_stop_at_slot := false; ev_throttled := true; ev_fault := None;
     ev_direct_waiters := true; ev_interval_elapsed := false; ev_commit := Acknowledged |}.

Definition cancelled_batch : Event :=
  {| ev_stop_first := false; ev_pause_too_long := false; ev_stop_after_pause := false;
     ev_stop_at_slot := false; ev_throttled := false;
     ev_fault := Some {| query_canceled := true; cancel_requested := true |};
     ev_direct_waiters := true; ev_interval_elapsed := false; ev_commit := Acknowledged |}.

Definition lost_after_commit : Event :=
  {| ev_stop_first := false; ev_pause_too_long := false; ev_stop_after_pause := false;
     ev_stop_at_slot := false; ev_throttled := false; ev_fault := None;
     ev_direct_waiters := true; ev_interval_elapsed := false; ev_commit := LostAfter |}.

Definition fresh {St} (st : St) : Db St := {| db_data := st; db_cursor := None |}.

(** C2: Any number of jobs for one step, each of them killed, cancelled, failed,
    aborted or cut off in the middle of a commit at any point, each resuming from
    the cursor the last left or, where the ledger cannot be read or the cursor is
    found stale, starting over. The rows to change are those ahead of the cursor
    "0" in the data the jobs began with, or in the data a job that started over
    found ([st0]); no other session writes rows ahead of the walk. At every moment
    the rows changed since and the rows ahead of the committed cursor are all of
    those, each once, in order; and when a job finishes, each has been changed
    exactly once. Where no job starts over the data is that of the beginning. It
    is assumed ([attempts_alone]) that no cancel of the observer falls on a batch
    that is not the first of its transaction: see [late_cancel_skips_rows]; rows
    whose key is not beyond "0" are never among them: see
    [plain_walk_never_visits_keys_up_to_zero]. *)
Theorem resumed_jobs_change_every_row_once {St Row} `{BW : BatchWalk St Row} `{BL : !BatchWalkLaws St Row}
    batch_rows batch_cap_rows st jobs :
  1 <= batch_rows ->
  attempts_alone batch_rows batch_cap_rows (fresh st) jobs = true ->
  let '(db, ending) := attempts batch_rows batch_cap_rows (fresh st) jobs in
  exists st0,
    (st0 = st \/ exists n j, jobs !! n = Some j /\ starts_over j = true
       /\ st0 = db_data (attempts batch_rows batch_cap_rows (fresh st) (take n jobs)).1)
    /\ bw_applied (db_data db) ++ bw_remaining (db_data db) (resume_cursor false false db)
       = bw_applied st0 ++ bw_remaining st0 "0"
    /\ (ending = Some Finished -> bw_applied (db_data db) = bw_applied st0 ++ bw_remaining st0 "0").
Proof.
  intros Hb Hc.
  destruct (attempts_safe batch_rows batch_cap_rows Hb (all_from st) jobs (fresh st)
    (conj (bw_start st) eq_refl) Hc) as (all & Hall & [_ Ha] & Hf).
  destruct (attempts batch_rows batch_cap_rows (fresh st) jobs) as [db e].
  destruct Hall as [->|(n & j & Hj & Ho & ->)]; [exists st; by split; [left|]|].
  eexists. split; [right; exists n, j; by split_and!|done].
Qed.

(** [resumed_jobs_change_every_row_once] by group: a job that loses its first
    acknowledgement, one that finds the cursor stale, starts over and is killed,
    one cancelled on its first batch and carried on to the end. *)
Lemma resumed_jobs_change_every_row_once_witness :
  let jobs := [{| at_unreadable := false; at_stale := false; at_events := [calm; lost_after_commit] |};
               {| at_unreadable := false; at_stale := true; at_events := [calm; calm] |};
               {| at_unreadable := false; at_stale := false;
                  at_events := [cancelled_batch; calm; calm; waited_on; calm; calm; calm] |}] in
  let bw := grouped_walk (St := GroupedDemo) 100 in
  let left := attempts (BW := bw) 2 3 (fresh {| gd_done := [] |}) jobs in
  left.2 = Some Finished
  /\ gd_done (db_data left.1) = [("a", "1"); ("a", "2"); ("c", "1"); ("c", "3"); ("c", "5")]
  /\ exists st0, gd_done (db_data left.1) = gs_applied st0 ++ bw_remaining (BatchWalk := bw) st0 "0".
Proof.
  intros jobs bw left.
  pose proof (resumed_jobs_change_every_row_once (BW := bw) (BL := grouped_walk_laws 100)
    2 3 {| gd_done := [] |} jobs ltac:(lia)
    (eq_refl : attempts_alone (BW := bw) 2 3 (fresh {| gd_done := [] |}) jobs = true)) as H.
  fold left in H. destruct left as [db e] eqn:E.
  assert (He : e = Some Finished) by (apply (f_equal snd) in E; vm_compute in E; congruence).
  assert (Hd : gd_done (db_data db) = [("a", "1"); ("a", "2"); ("c", "1"); ("c", "3"); ("c", "5")])
    by (apply (f_equal fst) in E; vm_compute in E; subst db; by vm_compute).
  split; [exact He|]. split; [exact Hd|]. destruct H as (st0 & _ & _ & H). exists st0. exact (H He).
Defined.

(** C28: A walk from the beginning that nothing disturbs ends, within two batches
    a row, one a group and one more, and it ends with every row ahead of the cursor
    "0" changed, each once and in order (a row whose key is not beyond "0" is not
    among them: see [plain_walk_never_visits_keys_up_to_zero]); throttling, waiters
    and the clock may read anything in between. *)
Theorem undisturbed_walk_finishes {St Row} `{BW : BatchWalk St Row} `{BL : !BatchWalkLaws St Row}
    batch_rows batch_cap_rows db evs :
  1 <= batch_rows -> bw_readable (db_data db) "0" ->
  forallb quiet evs = true ->
  (2 * length (bw_remaining (db_data db) "0") + bw_groups (db_data db) "0" < length evs)%nat ->
  exists w, walk batch_rows batch_cap_rows (start db "0") evs = Ended Finished w
    /\ bw_applied (db_data (w_db w)) = bw_applied (db_data db) ++ bw_remaining (db_data db) "0".
Proof.
  intros Hb Hread Hq Hl.
  destruct (walk_finishes batch_rows batch_cap_rows Hb evs (start db "0")) as [w Hw]; [done|done|..].
  { unfold batches_left, current, txn_rows, any_rows. simpl. lia. }
  exists w. split; [exact Hw|].
  assert (Hc : cancels_alone batch_rows batch_cap_rows (start db "0") evs = true).
  { clear -Hq. generalize (start db "0"). induction evs as [|ev evs IH]; intros w; simpl in *; [done|].
    apply andb_true_iff in Hq as [Hq Hqs]. unfold quiet, own_cancel in *. bool_prop.
    destruct (ev_fault ev); [done|]. destruct (w_open w); simpl; destruct (walk_step _ _ w ev); auto. }
  pose proof (walk_safe batch_rows batch_cap_rows Hb _ db "0" evs _
    (start_consistent (all_from (db_data db)) db "0" (conj Hread eq_refl)) Hc) as Hsafe.
  rewrite Hw in Hsafe. destruct Hsafe as (? & ? & ? & Hf). by apply Hf.
Qed.

(** [undisturbed_walk_finishes] along a composite key. *)
Lemma undisturbed_walk_finishes_witness :
  let bw := composite_walk (St := CompositeDemo) true 100 [] in
  exists w, walk (BW := bw) 1 2 (start (fresh {| cd_done := [] |}) "0")
      (replicate 5 waited_on ++ replicate 4 calm) = Ended Finished w
    /\ cd_done (db_data (w_db w)) = composite_table.
Proof.
  intros bw.
  apply (undisturbed_walk_finishes (BW := bw) (BL := composite_walk_laws true 100 [])
    1 2 (fresh {| cd_done := [] |})); [lia|by exists []|reflexivity|vm_compute; lia].
Defined.

(** C33: The pacing contract of the commit rules. While no late cancel happens:
    a transaction left open holds fewer than [batch_cap_rows] rows, one event
    commits at most [batch_cap_rows - 1 + batch_rows] rows, and after a batch
    during which the observer saw a waiter, or the interval passed, no
    transaction is open. *)
Theorem transactions_stay_short {St Row} `{BW : BatchWalk St Row} `{BL : !BatchWalkLaws St Row}
    batch_rows batch_cap_rows st evs ev w :
  1 <= batch_rows -> 1 <= batch_cap_rows -> bw_readable st "0" ->
  cancels_alone batch_rows batch_cap_rows (start (fresh st) "0") (evs ++ [ev]) = true ->
  walk batch_rows batch_cap_rows (start (fresh st) "0") evs = Going w ->
  let w' := result_walk (walk_step batch_rows batch_cap_rows w ev) in
  (forall t, w_open w = Some t -> 1 <= rows_this_txn t < batch_cap_rows)
  /\ rows_committed w <= rows_committed w' <= rows_committed w + (batch_cap_rows - 1) + batch_rows
  /\ (ev_direct_waiters ev || ev_interval_elapsed ev = true ->
      forall w1, walk_step batch_rows batch_cap_rows w ev = Going w1 -> w_open w1 = None).
Proof.
  intros Hb Hcap Hread Hc Hw w'.
  assert (Hstart : counted_walk batch_cap_rows (start (fresh st) "0")) by (by constructor).
  assert (Hboth : cancels_alone batch_rows batch_cap_rows (start (fresh st) "0") evs = true
                  /\ (is_Some (w_open w) -> own_cancel ev = false)).
  { revert Hc Hw. clear. generalize (start (fresh st) "0").
    induction evs as [|e evs IH]; intros w0 Hc Hw; simpl in *.
    - injection Hw as ->. apply andb_true_iff in Hc as [Hc _]. split; [done|].
      intros [t Ht]. rewrite Ht in Hc. by destruct (own_cancel ev).
    - apply andb_true_iff in Hc as [-> Hc]. destruct (walk_step _ _ w0 e); [|done]. by apply IH. }
  destruct Hboth as [Hc' Hev].
  pose proof (walk_counted batch_rows batch_cap_rows Hb evs _ Hstart Hc') as Hcount. rewrite Hw in Hcount.
  destruct (walk_step_bounded batch_rows batch_cap_rows Hb w ev Hcount Hev) as [Hr _].
  split; [apply Hcount|]. split; [subst w'; lia|].
  intros Hflag w1 Hstep. clear -Hflag Hstep. unfold walk_step in Hstep.
  assert (Hbatch : forall t, run_batch batch_rows batch_cap_rows w t ev = Going w1 -> w_open w1 = None).
  { intros t Ht. unfold run_batch, after_batch, commit_txn in Ht.
    destruct (ev_fault ev); [case_if_in Ht; [by injection Ht as <-|done]|].
    destruct (bw_run _ _ _ _) as [[st' o]|]; [|done].
    destruct (ev_commit ev); repeat case_if_in Ht; try done; try (by injection Ht as <-); done. }
  destruct (w_open w); [by eapply Hbatch|]. repeat case_if_in Hstep; try done. by eapply Hbatch.
Qed.

(** [transactions_stay_short] with a transaction of two batches open. *)
Lemma transactions_stay_short_witness :
  let bw := keyset_walk (St := KeysetDemo) true 100 [] in
  let w := result_walk (walk (BW := bw) 2 5 (start (fresh {| kd_done := [] |}) "0") [calm; calm]) in
  option_map rows_this_txn (w_open w) = Some 4
  /\ rows_committed (result_walk (walk_step (BW := bw) 2 5 w calm)) <= rows_committed w + (5 - 1) + 2.
Proof.
  intros bw w. split; [by vm_compute|].
  apply (transactions_stay_short (BW := bw) (BL := keyset_walk_laws true 100 []) 2 5
    {| kd_done := [] |} [calm; calm] calm w); [lia|lia|exact I|by vm_compute|by vm_compute].
Defined.

(** A batch of the walk along one key names rows that come next, puts the cursor at
    the last of them and leaves the rows after it as they were. *)
Lemma paced_batch_names {St} `{KS : KeysetServer St} `{KL : !KeysetLaws St}
    two batch_bytes upto st c batch :
  1 <= batch ->
  let b := keyset_bound two upto in
  let '(st', o) := run_paced_batch two batch_bytes upto st c batch in
  exists xs rest, ks_applied st' = ks_applied st ++ xs /\ (considered o <> 0 -> xs <> [])
    /\ rows_after ks_lt c (ks_rows st b) = xs ++ rest /\ cursor o = last_key c xs
    /\ untouched_ahead ks_lt xs (ks_rows st b) (ks_rows st' b).
Proof.
  intros Hb b. unfold run_paced_batch, b, keyset_bound. destruct two; simpl.
  - rewrite ks_select_law by lia.
    destruct (take_accumulate size_of batch_bytes batch (rows_after ks_lt c (ks_rows st upto)) Hb)
      as [[Hr ->]|(ks & k & rest & -> & Hr & Hn)].
    + exists [], []. rewrite app_nil_r. by split_and!.
    + pose proof (ks_apply_law st (ks ++ [k])) as Hap.
      destruct (ks ++ [k]) as [|k0 ks0] eqn:E0; [by destruct ks|]. rewrite <- E0 in *.
      destruct (ks_apply st (array_literal (ks ++ [k]))) as [st' r]. destruct Hap as (Ha & Hu & _).
      exists (ks ++ [k]), rest. split_and!; [done|by destruct ks|done|done|apply Hu].
  - pose proof (ks_statement_law st c batch ltac:(lia)) as Hst.
    destruct (ks_statement st c batch) as [st' r]. destruct Hst as (-> & Ha & Hu).
    set (r := take _ _) in *. exists r, (drop (Z.to_nat batch) (rows_after ks_lt c (ks_rows st []))).
    split_and!; [done| |symmetry; apply take_drop|done|done]. simpl. by destruct r.
Qed.

Lemma paced_batch_ahead {St} `{KS : KeysetServer St} `{KL : !KeysetLaws St}
    two batch_bytes upto st0 st c batch :
  1 <= batch ->
  let b := keyset_bound two upto in
  rows_after ks_lt c (ks_rows st b) = rows_after ks_lt c (ks_rows st0 b) ->
  let '(st', o) := run_paced_batch two batch_bytes upto st c batch in
  rows_after ks_lt (cursor o) (ks_rows st' b) = rows_after ks_lt (cursor o) (ks_rows st0 b)
  /\ exists xs, ks_applied st' = ks_applied st ++ xs /\ (considered o <> 0 -> xs <> []).
Proof.
  intros Hb b Hsame. pose proof (paced_batch_names two batch_bytes upto st c batch Hb) as H.
  destruct (run_paced_batch two batch_bytes upto st c batch) as [st' o].
  destruct H as (xs & rest & Ha & Hne & Hr & Hc & Hu). split; [|by exists xs].
  fold b in Hr, Hu. destruct xs as [|k ks _] using rev_ind.
  { unfold last_key in Hc; simpl in Hc. by rewrite Hc, (proj1 Hu eq_refl). }
  rewrite last_key_snoc in Hc. rewrite Hc.
  assert (Hck : ks_lt c k = true).
  { assert (Hin : k ∈ rows_after ks_lt c (ks_rows st b)) by (rewrite Hr; set_solver).
    by apply list_elem_of_In, filter_In in Hin as [_ ?]. }
  rewrite (proj2 Hu).
  - by rewrite <- (rows_after_twice ks_lt c k (ks_rows st b) Hck), <- (rows_after_twice ks_lt c k (ks_rows st0 b) Hck), Hsame.
  - apply last_not_before; [apply _|].
    pose proof (rows_from_sorted ks_lt (Some c) (ks_rows st b) (ks_sorted st b)) as Hs. simpl in Hs.
    rewrite Hr in Hs. by apply StronglySorted_app in Hs as (_ & Hs & _).
Qed.

(** What an open transaction of the walk along one key holds: rows of its own, and
    the rows ahead of the cursor as the committed table has them. *)
Definition holds_rows {St} `{KeysetServer St} (b : list (option string)) (w : Walk St) : Prop :=
  forall t, w_open w = Some t ->
    (exists lost, lost <> [] /\ ks_applied (t_data t) = ks_applied (db_data (w_db w)) ++ lost)
    /\ rows_after ks_lt (w_cursor w) (ks_rows (t_data t) b)
       = rows_after ks_lt (w_cursor w) (ks_rows (db_data (w_db w)) b).

Lemma run_batch_holds_rows {St} `{KS : KeysetServer St} `{KL : !KeysetLaws St}
    two batch_bytes upto batch_rows batch_cap_rows w t ev w' :
  1 <= batch_rows ->
  (exists l, ks_applied (t_data t) = ks_applied (db_data (w_db w)) ++ l) ->
  rows_after ks_lt (w_cursor w) (ks_rows (t_data t) (keyset_bound two upto))
  = rows_after ks_lt (w_cursor w) (ks_rows (db_data (w_db w)) (keyset_bound two upto)) ->
  run_batch (BW := keyset_walk two batch_bytes upto) batch_rows batch_cap_rows w t ev = Going w' ->
  holds_rows (keyset_bound two upto) w'.
Proof.
  intros Hb [l Hl] Hsame Hrun. unfold run_batch in Hrun.
  destruct (ev_fault ev); [case_if_in Hrun; [by injection Hrun as <-|done]|].
  cbn [bw_run keyset_walk] in Hrun.
  pose proof (paced_batch_ahead two batch_bytes upto (db_data (w_db w)) (t_data t) (w_cursor w)
    (batch_size batch_rows (ev_throttled ev)) (proj1 (batch_size_range batch_rows Hb _)) Hsame) as H.
  destruct (run_paced_batch _ _ _ _ _ _) as [st' o]. destruct H as (Hr & xs & Ha & Hne).
  unfold after_batch, commit_txn in Hrun.
  destruct (ev_commit ev); repeat case_if_in Hrun; try done; injection Hrun as <-; intros t' Ht'; try done;
    simpl in *; injection Ht' as <-; simpl; (split; [|done]); exists (l ++ xs); rewrite Ha, Hl, <- app_assoc;
    (split; [|done]); intros [_ Hx]%app_eq_nil; apply Hne in Hx; try done; intros Hz;
    destruct (Z.eqb_spec (considered o) 0), (skipped_only o); done.
Qed.

Lemma walk_holds_rows {St} `{KS : KeysetServer St} `{KL : !KeysetLaws St}
    two batch_bytes upto batch_rows batch_cap_rows evs w w' :
  1 <= batch_rows -> holds_rows (keyset_bound two upto) w ->
  walk (BW := keyset_walk two batch_bytes upto) batch_rows batch_cap_rows w evs = Going w' ->
  holds_rows (keyset_bound two upto) w'.
Proof.
  intros Hb. revert w; induction evs as [|ev evs IH]; intros w Hw Hrun; simpl in Hrun; [by injection Hrun as <-|].
  destruct (walk_step _ _ w ev) as [w1|] eqn:Hs; [|done]. apply (IH w1); [|done].
  unfold walk_step in Hs. destruct (w_open w) as [t|] eqn:Ht.
  - destruct (Hw t Ht) as [(lost & _ & Hl) Hr]. by eapply run_batch_holds_rows; [done|exists lost| |].
  - repeat case_if_in Hs; try done.
    eapply (run_batch_holds_rows two batch_bytes upto _ _ w _ ev); [done| | |exact Hs]; simpl; [|done].
    exists []. by rewrite app_nil_r.
Qed.

(** C40: A cancel that falls on a later batch of a transaction loses rows. Wherever
    a walk along one key from the beginning stands with a transaction open, and the
    observer's cancel falls on its next batch: the rollback undoes the batches the
    transaction held, but the cursor stays where they had moved it. However the walk
    goes on from there, with no other such cancel, when it finishes it has changed
    the rows committed before and those ahead of that cursor, and the rows the lost
    batches had changed, at least one, are neither among them nor visited again. *)
Theorem late_cancel_skips_rows {St} `{KS : KeysetServer St} `{KL : !KeysetLaws St}
    (two : bool) batch_bytes upto batch_rows batch_cap_rows st evs w t ev later w' :
  let bw := keyset_walk two batch_bytes upto in
  1 <= batch_rows ->
  cancels_alone (BW := bw) batch_rows batch_cap_rows (start (fresh st) "0") evs = true ->
  walk (BW := bw) batch_rows batch_cap_rows (start (fresh st) "0") evs = Going w ->
  w_open w = Some t -> own_cancel ev = true ->
  let resumed := result_walk (walk_step (BW := bw) batch_rows batch_cap_rows w ev) in
  cancels_alone (BW := bw) batch_rows batch_cap_rows resumed later = true ->
  walk (BW := bw) batch_rows batch_cap_rows w (ev :: later) = Ended Finished w' ->
  exists before lost ahead, lost <> []
    /\ before = ks_applied (db_data (w_db w)) /\ ks_applied (t_data t) = before ++ lost
    /\ ks_applied st ++ bw_remaining (BatchWalk := bw) st "0" = before ++ lost ++ ahead
    /\ ks_applied (db_data (w_db w')) = before ++ ahead.
Proof.
  intros bw Hb Hc Hw Ht Hown resumed Hlater Hend.
  pose proof (walk_safe (BL := keyset_walk_laws two batch_bytes upto) batch_rows batch_cap_rows Hb
    _ (fresh st) "0" evs _ (start_consistent (BW := bw) (all_from (BW := bw) st) (fresh st) "0" (conj I eq_refl)) Hc) as Hs.
  fold bw in Hs. rewrite Hw in Hs. destruct Hs as [_ Hopen]. destruct (Hopen t Ht) as [_ Hall].
  assert (H0 : holds_rows (keyset_bound two upto) (start (fresh st) "0")) by (by intros ? ?).
  destruct (walk_holds_rows two batch_bytes upto batch_rows batch_cap_rows evs _ w Hb H0 Hw t Ht) as [(lost & Hne & Hl) Hr].
  exists (ks_applied (db_data (w_db w))), lost, (bw_remaining (BatchWalk := bw) (db_data (w_db w)) (w_cursor w)).
  split; [done|]. split; [done|]. split; [done|]. split.
  { unfold all_from in Hall. cbn [bw_applied bw_remaining bw keyset_walk] in *.
    by rewrite <- Hall, Hl, <- app_assoc, Hr. }
  cbn [walk] in Hend.
  assert (Hstep : walk_step (BW := bw) batch_rows batch_cap_rows w ev = Going resumed
    /\ w_db resumed = w_db w /\ w_open resumed = None /\ w_cursor resumed = w_cursor w).
  { unfold resumed, walk_step, run_batch, own_cancel in *. rewrite Ht.
    destruct (ev_fault ev); [by rewrite Hown|done]. }
  destruct Hstep as (Hstep & Hdb & Hno & Hcur). rewrite Hstep in Hend.
  pose proof (walk_safe (BL := keyset_walk_laws two batch_bytes upto) batch_rows batch_cap_rows Hb
    (bw_applied (BatchWalk := bw) (db_data (w_db w)) ++ bw_remaining (BatchWalk := bw) (db_data (w_db w)) (w_cursor w))
    (w_db w) (w_cursor w) later resumed) as Hs.
  fold bw in Hs. rewrite Hend in Hs. destruct Hs as (? & ? & ? & Hf); [|done|by apply Hf].
  constructor; [|by rewrite Hno]. exists (w_cursor w). rewrite Hdb. by split_and!; [left|..].
Qed.

(** [late_cancel_skips_rows]: six rows are ahead of the walk; two are changed, rolled
    back and never visited again, and counted as done. *)
Lemma late_cancel_skips_rows_witness :
  let bw := keyset_walk (St := KeysetDemo) true 100 [] in
  let w := result_walk (walk (BW := bw) 2 10 (start (fresh {| kd_done := [] |}) "0") [calm]) in
  let w' := result_walk (walk (BW := bw) 2 10 w [cancelled_batch; calm; calm; calm]) in
  (exists before lost ahead, lost <> [] /\ kd_done (db_data (w_db w')) = before ++ ahead
    /\ ["1"; "2"; "3"; "4"; "5"; "6"] = before ++ lost ++ ahead)
  /\ kd_done (db_data (w_db w')) = ["3"; "4"; "5"; "6"]
  /\ rows_done w' = 6 /\ rows_committed w' = 6 /\ last_key_of <$> db_cursor (w_db w') = Some "6".
Proof.
  intros bw w w'. split; [|by vm_compute].
  destruct (w_open w) as [t|] eqn:Ht; [|vm_compute in Ht; discriminate Ht].
  destruct (late_cancel_skips_rows true 100 [] 2 10 {| kd_done := [] |} [calm] w t cancelled_batch
    [calm; calm; calm] w') as (before & lost & ahead & Hne & _ & _ & Hall & Hend);
    [lia|by vm_compute|by vm_compute|exact Ht|reflexivity|by vm_compute|by vm_compute|].
  exists before, lost, ahead. split; [exact Hne|]. split; [exact Hend|]. rewrite <- Hall. by vm_compute.
Defined.

(** The plain walk starts from the text "0" and asks for keys greater than
    it: a row whose key is not greater (a negative or zero integer, a text key
    sorting before "0") is never changed by the walk, which still finishes. *)
Theorem plain_walk_never_visits_keys_up_to_zero {St} `{KS : KeysetServer St} `{KL : !KeysetLaws St}
    (two : bool) batch_bytes upto batch_rows batch_cap_rows st evs w k :
  let bw := keyset_walk two batch_bytes upto in
  1 <= batch_rows ->
  cancels_alone (BW := bw) batch_rows batch_cap_rows (start (fresh st) "0") evs = true ->
  walk (BW := bw) batch_rows batch_cap_rows (start (fresh st) "0") evs = Ended Finished w ->
  k ∈ ks_rows st (keyset_bound two upto) -> ks_lt "0" k = false -> k ∉ ks_applied st ->
  k ∉ ks_applied (db_data (w_db w)).
Proof.
  intros bw Hb Hc Hw Hk Hlt Hnot. subst bw.
  pose proof (walk_safe (BL := keyset_walk_laws two batch_bytes upto) batch_rows batch_cap_rows Hb
    (ks_applied st ++ rows_after ks_lt "0" (ks_rows st (keyset_bound two upto))) (fresh st) "0" evs
    (start (fresh st) "0")) as Hs.
  rewrite Hw in Hs. destruct Hs as (? & ? & ? & Hf); [by apply start_consistent|done|].
  cbn [bw_applied keyset_walk] in Hf. rewrite (proj1 (Hf eq_refl)).
  rewrite not_elem_of_app. split; [done|]. intros Hin.
  apply list_elem_of_In, filter_In in Hin as [_ Hin]. congruence.
Qed.

(** [plain_walk_never_visits_keys_up_to_zero]: the row "-5". *)
Lemma plain_walk_never_visits_keys_up_to_zero_witness :
  let bw := keyset_walk (St := KeysetDemo) true 100 [] in
  let w := result_walk (walk (BW := bw) 3 10 (start (fresh {| kd_done := [] |}) "0") [calm; calm; calm]) in
  "-5" ∈ ks_rows {| kd_done := [] |} [] /\ "-5" ∉ ks_applied (db_data (w_db w)).
Proof.
  intros bw w. split; [apply (bool_decide_unpack _); by vm_compute|].
  apply (plain_walk_never_visits_keys_up_to_zero true 100 [] 3 10 {| kd_done := [] |} [calm; calm; calm] w);
    [lia|by vm_compute|by vm_compute|apply (bool_decide_unpack _); by vm_compute|by vm_compute
    |apply (bool_decide_unpack _); by vm_compute].
Defined.

Lemma read_invariants_skip {St} (invs : list (Invariant (St := St))) st (m : gmap string (option string)) name :
  name ∉ inv_name <$> invs ->
  foldl (fun m i => <[inv_name i := inv_query i st]> m) m invs !! name = m !! name.
Proof.
  revert m; induction invs as [|i invs IH]; intros m Hn; csimpl in *; [done|].
  rewrite IH by set_solver. apply lookup_insert_ne. set_solver.
Qed.

Lemma read_invariants_lookup {St} (invs : list (Invariant (St := St))) st i :
  NoDup (inv_name <$> invs) -> i ∈ invs ->
  value_before (read_invariants invs st) (inv_name i) = inv_query i st.
Proof.
  unfold read_invariants, value_before. intros Hn Hi.
  cut (foldl (fun m i => <[inv_name i := inv_query i st]> m) (∅ : gmap string (option string)) invs
       !! inv_name i = Some (inv_query i st));
    [by intros ->|].
  generalize (∅ : gmap string (option string)).
  induction invs as [|j invs IH]; intros m; csimpl in *; [set_solver|].
  apply NoDup_cons in Hn as [Hj Hn]. apply elem_of_cons in Hi as [<-|Hi]; [|by apply IH].
  rewrite read_invariants_skip by done. by rewrite lookup_insert_eq.
Qed.

(** A backfill step is recorded as succeeded only when, in the database it
    leaves, [verify_remaining] selects no row and every invariant of the plan
    reads as it did before the first batch; whatever ran before it, the one
    statement or the walk, and whatever the events were. *)
Theorem succeeded_step_is_verified {St Row} `{BW : BatchWalk St Row}
    batch_rows batch_cap_rows single verify_remaining invs resumed_from db sev evs rows db' :
  NoDup (inv_name <$> invs) ->
  run_backfill batch_rows batch_cap_rows single verify_remaining invs resumed_from db sev evs
    = (StepSucceeded rows, db') ->
  (forall count, verify_remaining = Some count -> count (db_data db') = 0)
  /\ forall i, i ∈ invs -> inv_query i (db_data db') = inv_query i (db_data db).
Proof.
  intros Hnd Hrun. unfold run_backfill in Hrun.
  set (r := match match single with Some _ => _ | None => _ end with Going _ => _ | Ended _ _ => _ end)
    in Hrun.
  destruct r as [w|[] w]; try discriminate Hrun. injection Hrun as Hfin Hdb. subst db'.
  unfold finish_backfill in Hfin. case_if_in Hfin; [done|].
  destruct (broken_invariants _ invs _) eqn:Hbr in Hfin; [|done]. bool_prop. split.
  - by intros count ->.
  - intros i Hi. rewrite <- (read_invariants_lookup invs (db_data db) i Hnd Hi).
    destruct (decide (inv_query i (db_data (w_db w))
                      = value_before (read_invariants invs (db_data db)) (inv_name i))) as [|Hne]; [done|].
    exfalso. assert (Hin : In i (broken_invariants (read_invariants invs (db_data db)) invs (db_data (w_db w)))).
    { apply filter_In. split; [by apply list_elem_of_In|]. by rewrite bool_decide_eq_false_2. }
    by rewrite Hbr in Hin.
Qed.

(** [succeeded_step_is_verified] with a count and an invariant. *)
Lemma succeeded_step_is_verified_witness :
  let bw := composite_walk (St := CompositeDemo) true 100 [] in
  let count (st : CompositeDemo) := Z.of_nat (length (cd_rows st [])) in
  let inv := {| inv_name := "columns"; inv_query := fun _ : CompositeDemo => Some "2" |} in
  let r := run_backfill (BW := bw) 2 10 None (Some count) [inv] "0" (fresh {| cd_done := [] |})
             {| se_stop_at_slot := false; se_fault := None |} [calm; calm; calm] in
  r.1 = StepSucceeded 4 /\ count (db_data r.2) = 0.
Proof.
  intros bw count inv r. split; [by vm_compute|].
  refine (proj1 (succeeded_step_is_verified (BW := bw) 2 10 None (Some count) [inv] "0"
    (fresh {| cd_done := [] |}) {| se_stop_at_slot := false; se_fault := None |} [calm; calm; calm]
    4 r.2 _ _) count eq_refl); [apply NoDup_singleton|by vm_compute].
Defined.
