(* ===== verification/Jobs.v ===== *)
(** * Jobs: job states, the operation gate and the observer (src/cpp/src/jobs.h)

    The state a job publishes, the process-wide ceiling on operations in
    flight, and the observer that turns readings of the lock table into the
    pacing flags the worker reads between batches. *)
From S2P Require Import Prelude.

(** ** Job states *)
Inductive JobState : Type :=
  | kPlanned | kRunning | kThrottled | kPausedContention
  | kSucceeded | kFailed | kCancelled | kAbortedContention.

#[export] Instance JobState_eq_dec : EqDecision JobState.
Proof. solve_decision. Defined.

(** [to_string(JobState)]. *)
Definition state_to_string (s : JobState) : string :=
  match s with
  | kPlanned => "planned"
  | kRunning => "running"
  | kThrottled => "throttled"
  | kPausedContention => "paused_contention"
  | kSucceeded => "succeeded"
  | kFailed => "failed"
  | kCancelled => "cancelled"
  | kAbortedContention => "aborted_contention"
  end.

Definition is_terminal (s : JobState) : bool :=
  match s with
  | kSucceeded | kFailed | kCancelled | kAbortedContention => true
  | _ => false
  end.

(** ** The operation gate *)
Record OperationGate : Type := { limit : Z; in_flight : Z; peak : Z }.

Definition new_gate : OperationGate := {| limit := 0; in_flight := 0; peak := 0 |}.

Definition configure (l : Z) (g : OperationGate) : OperationGate :=
  {| limit := l; in_flight := in_flight g; peak := peak g |}.

(** [try_acquire_for]: the wait is over with room, with no ceiling, or with
    neither ([in_flight_] and [limit_] as the wait leaves them). The boolean is
    [Slot::held]. *)
Definition try_acquire (g : OperationGate) : OperationGate * bool :=
  if limit g <=? 0 then (g, false)
  else if negb ((limit g <=? 0) || (in_flight g <? limit g)) then (g, false)
  else
    let n := in_flight g + 1 in
    ({| limit := limit g; in_flight := n; peak := if n >? peak g then n else peak g |}, true).

(** [Slot::release] of a held slot. *)
Definition release (g : OperationGate) : OperationGate :=
  {| limit := limit g; in_flight := in_flight g - 1; peak := peak g |}.

Definition would_block (g : OperationGate) : bool := (0 <? limit g) && (limit g <=? in_flight g).

(** The gate and the slots of the process that hold it, by name. *)
Record GateState : Type := { gate : OperationGate; held : gset nat }.

Definition release_slot (v : nat) (s : GateState) : GateState :=
  if bool_decide (v ∈ held s)
  then {| gate := release (gate s); held := held s ∖ {[ v ]} |}
  else s.

(** What threads do with the gate. [Assign v]: [v = try_acquire_for(...)], which
    takes the new slot before it releases what [v] held; [Move v u]: [v =
    std::move(u)]; [Destroy v]: [v] goes out of scope. *)
Inductive GateOp : Type :=
  | Configure (l : Z)
  | Assign (v : nat)
  | Move (v u : nat)
  | Destroy (v : nat).

Definition gate_step (s : GateState) (o : GateOp) : GateState :=
  match o with
  | Configure l => {| gate := configure l (gate s); held := held s |}
  | Assign v =>
      let '(g, got) := try_acquire (gate s) in
      let s1 := release_slot v {| gate := g; held := held s |} in
      if got then {| gate := gate s1; held := {[ v ]} ∪ held s1 |} else s1
  | Move v u =>
      if Nat.eqb v u then s
      else
        let s1 := release_slot v s in
        if bool_decide (u ∈ held s1)
        then {| gate := gate s1; held := {[ v ]} ∪ (held s1 ∖ {[ u ]}) |}
        else s1
  | Destroy v => release_slot v s
  end.

Definition gate_run (s : GateState) (ops : list GateOp) : GateState := foldl gate_step s ops.

Definition gate_start : GateState := {| gate := new_gate; held := ∅ |}.

(** ** Pacing *)

(** [ExecutorConfig]'s contention settings. *)
Record Ladder : Type := {
  throttle_waiters : Z;
  pause_waiters : Z;
  resume_waiters : Z;
  contention_dwell_ticks : Z;
  max_waiter_wait_ms : Z;
}.

(** [PacingState]. *)
Record PacingState : Type := {
  worker_pid : Z;
  direct_waiters : Z;
  transitive_waiters : Z;
  blocking_waiter_pid : Z;
  oldest_wait_ms : Z;
  inflicted_blocked_ms : Z;
  contention_ticks : Z;
  quiet_ticks : Z;
  cancel_requested : bool;
  cancel_stop : bool;
  long_statement : bool;
  stop_now : bool;
  in_walk : bool;
  throttled : bool;
  paused : bool;
  paused_since_ms : Z;
  cic_lockers_total : Z;
  cic_lockers_done : Z;
  cic_current_locker_pid : Z;
}.

Definition new_pacing (pid : Z) : PacingState :=
  {| worker_pid := pid; direct_waiters := 0; transitive_waiters := 0; blocking_waiter_pid := 0;
     oldest_wait_ms := 0; inflicted_blocked_ms := 0; contention_ticks := 0; quiet_ticks := 0;
     cancel_requested := false; cancel_stop := false; long_statement := false; stop_now := false;
     in_walk := false; throttled := false; paused := false; paused_since_ms := 0;
     cic_lockers_total := 0; cic_lockers_done := 0; cic_current_locker_pid := 0 |}.

(** One worker's entry of the observer's reading; a key that is absent reads 0. *)
Record Reading : Type := {
  r_direct : Z;
  r_transitive : Z;
  r_blocking_pid : Z;
  r_oldest_wait_ms : Z;
  r_inflicted_ms : Z;
  r_cic : option (Z * Z * Z);
}.

Definition empty_reading : Reading :=
  {| r_direct := 0; r_transitive := 0; r_blocking_pid := 0; r_oldest_wait_ms := 0;
     r_inflicted_ms := 0; r_cic := None |}.

(** The cluster's entry: counts, and an upper bound on the age where it has one. *)
Record ClusterReading : Type := {
  c_direct : Z;
  c_transitive : Z;
  c_oldest_upper_ms : option Z;
}.

(** The larger of the two counts, and of the two ages. *)
Definition merge_reading (r : Reading) (c : option ClusterReading) : Reading :=
  match c with
  | None => r
  | Some c =>
      {| r_direct := Z.max (r_direct r) (c_direct c);
         r_transitive := Z.max (r_transitive r) (c_transitive c);
         r_blocking_pid := r_blocking_pid r;
         r_oldest_wait_ms :=
           match c_oldest_upper_ms c with
           | Some ms => Z.max (r_oldest_wait_ms r) ms
           | None => r_oldest_wait_ms r
           end;
         r_inflicted_ms := r_inflicted_ms r;
         r_cic := r_cic r |}
  end.

(** The flags [quiet_ticks], [contention_ticks], [throttled], [paused] and
    [paused_since_ms], the rest kept. *)
Definition set_flags (p : PacingState) (quiet contention : Z) (thr pau : bool) (since : Z) :
  PacingState :=
  {| worker_pid := worker_pid p; direct_waiters := direct_waiters p;
     transitive_waiters := transitive_waiters p; blocking_waiter_pid := blocking_waiter_pid p;
     oldest_wait_ms := oldest_wait_ms p; inflicted_blocked_ms := inflicted_blocked_ms p;
     contention_ticks := contention; quiet_ticks := quiet; cancel_requested := cancel_requested p;
     cancel_stop := cancel_stop p; long_statement := long_statement p; stop_now := stop_now p;
     in_walk := in_walk p; throttled := thr; paused := pau; paused_since_ms := since;
     cic_lockers_total := cic_lockers_total p; cic_lockers_done := cic_lockers_done p;
     cic_current_locker_pid := cic_current_locker_pid p |}.

(** The counts of a reading, the rest kept. *)
Definition set_counts (p : PacingState) (direct transitive pid oldest inflicted : Z) : PacingState :=
  {| worker_pid := worker_pid p; direct_waiters := direct; transitive_waiters := transitive;
     blocking_waiter_pid := pid; oldest_wait_ms := oldest; inflicted_blocked_ms := inflicted;
     contention_ticks := contention_ticks p; quiet_ticks := quiet_ticks p;
     cancel_requested := cancel_requested p; cancel_stop := cancel_stop p;
     long_statement := long_statement p; stop_now := stop_now p; in_walk := in_walk p;
     throttled := throttled p; paused := paused p; paused_since_ms := paused_since_ms p;
     cic_lockers_total := cic_lockers_total p; cic_lockers_done := cic_lockers_done p;
     cic_current_locker_pid := cic_current_locker_pid p |}.

Definition set_cic (p : PacingState) (c : option (Z * Z * Z)) : PacingState :=
  match c with
  | None => p
  | Some (total, done_, locker) =>
      {| worker_pid := worker_pid p; direct_waiters := direct_waiters p;
         transitive_waiters := transitive_waiters p; blocking_waiter_pid := blocking_waiter_pid p;
         oldest_wait_ms := oldest_wait_ms p; inflicted_blocked_ms := inflicted_blocked_ms p;
         contention_ticks := contention_ticks p; quiet_ticks := quiet_ticks p;
         cancel_requested := cancel_requested p; cancel_stop := cancel_stop p;
         long_statement := long_statement p; stop_now := stop_now p; in_walk := in_walk p;
         throttled := throttled p; paused := paused p; paused_since_ms := paused_since_ms p;
         cic_lockers_total := total; cic_lockers_done := done_; cic_current_locker_pid := locker |}
  end.

Definition set_cancel_requested (p : PacingState) (b : bool) : PacingState :=
  {| worker_pid := worker_pid p; direct_waiters := direct_waiters p;
     transitive_waiters := transitive_waiters p; blocking_waiter_pid := blocking_waiter_pid p;
     oldest_wait_ms := oldest_wait_ms p; inflicted_blocked_ms := inflicted_blocked_ms p;
     contention_ticks := contention_ticks p; quiet_ticks := quiet_ticks p;
     cancel_requested := b; cancel_stop := cancel_stop p;
     long_statement := long_statement p; stop_now := stop_now p; in_walk := in_walk p;
     throttled := throttled p; paused := paused p; paused_since_ms := paused_since_ms p;
     cic_lockers_total := cic_lockers_total p; cic_lockers_done := cic_lockers_done p;
     cic_current_locker_pid := cic_current_locker_pid p |}.

(** What the observer sees of a job. [j_cancels] counts the calls of
    [cancel_query] on its worker. *)
Record Job : Type := {
  j_connection : string;
  j_state : JobState;
  j_pacing : PacingState;
  j_worker_conn : bool;
  j_cancels : Z;
}.

Definition with_pacing (j : Job) (p : PacingState) : Job :=
  {| j_connection := j_connection j; j_state := j_state j; j_pacing := p;
     j_worker_conn := j_worker_conn j; j_cancels := j_cancels j |}.

Definition bump_quiet (l : Ladder) (p : PacingState) : PacingState :=
  if transitive_waiters p <=? resume_waiters l then
    let q := quiet_ticks p + 1 in
    if contention_dwell_ticks l <=? q
    then set_flags p q (contention_ticks p) false false (paused_since_ms p)
    else set_flags p q (contention_ticks p) (throttled p) (paused p) (paused_since_ms p)
  else set_flags p 0 (contention_ticks p) (throttled p) (paused p) (paused_since_ms p).

Definition clear_contention (l : Ladder) (p : PacingState) : PacingState :=
  let p := set_counts p 0 0 0 0 0 in
  bump_quiet l (set_flags p (quiet_ticks p) 0 (throttled p) (paused p) (paused_since_ms p)).

(** The ladder of [apply], up to the escalation. *)
Definition apply_ladder (l : Ladder) (now : Z) (r : Reading) (p : PacingState) : PacingState :=
  let p := set_counts p (r_direct r) (r_transitive r) (r_blocking_pid r) (r_oldest_wait_ms r)
             (r_inflicted_ms r) in
  let p := set_cic p (r_cic r) in
  let thr := throttle_waiters l <=? r_transitive r in
  if pause_waiters l <=? r_transitive r then
    let n := contention_ticks p + 1 in
    if (contention_dwell_ticks l <=? n) && negb (paused p)
    then set_flags p 0 n thr true now
    else set_flags p 0 n thr (paused p) (paused_since_ms p)
  else
    bump_quiet l (set_flags p (quiet_ticks p) 0 thr (paused p) (paused_since_ms p)).

(** [request_cancel]: the flag first, and nothing when it was set already. *)
Definition request_cancel (j : Job) : Job :=
  if cancel_requested (j_pacing j) then j
  else
    {| j_connection := j_connection j; j_state := j_state j;
       j_pacing := set_cancel_requested (j_pacing j) true; j_worker_conn := j_worker_conn j;
       j_cancels := if j_worker_conn j then j_cancels j + 1 else j_cancels j |}.

(** [apply]. *)
Definition apply (l : Ladder) (now : Z) (r : Reading) (j : Job) : Job :=
  let j := with_pacing j (apply_ladder l now r (j_pacing j)) in
  if oldest_wait_ms (j_pacing j) >? max_waiter_wait_ms l then request_cancel j else j.

(** What one tick reads: nothing (it failed), nobody waiting, or the entries. *)
Inductive Observation : Type :=
  | Unread
  | NobodyWaiting
  | Entries (by_pid : gmap Z Reading) (cluster : gmap Z ClusterReading).

(** The jobs [tick] looks at: not terminal, and with a worker. *)
Definition is_live (j : Job) : bool :=
  negb (is_terminal (j_state j)) && (0 <? worker_pid (j_pacing j)).

(** cancelJob inside one long statement, or a stop outside a walk. *)
Definition cancel_if_stopped (j : Job) : Job :=
  let p := j_pacing j in
  if cancel_stop p && (long_statement p || (stop_now p && negb (in_walk p)))
  then request_cancel j else j.

Definition observe (l : Ladder) (now : Z) (o : Observation) (j : Job) : Job :=
  match o with
  | Unread => j
  | NobodyWaiting => with_pacing j (clear_contention l (j_pacing j))
  | Entries by_pid cluster =>
      let pid := worker_pid (j_pacing j) in
      let r := merge_reading (default empty_reading (by_pid !! pid)) (cluster !! pid) in
      if (r_direct r =? 0) && (r_transitive r =? 0)
      then with_pacing j (clear_contention l (j_pacing j))
      else apply l now r j
  end.

(** [Observer::tick] over the registry, the map of every job of the process. *)
Definition tick (l : Ladder) (now : Z) (o : Observation) (registry : gmap string Job) :
  gmap string Job :=
  (fun j => if is_live j then observe l now o (cancel_if_stopped j) else j) <$> registry.

(** [running_count]. *)
Definition running_count (registry : gmap string Job) : nat :=
  length (List.filter (fun j => negb (is_terminal (j_state j))) (snd <$> map_to_list registry)).

(** ** cancelJob *)
Definition set_cancel_stop (p : PacingState) : PacingState :=
  {| worker_pid := worker_pid p; direct_waiters := direct_waiters p;
     transitive_waiters := transitive_waiters p; blocking_waiter_pid := blocking_waiter_pid p;
     oldest_wait_ms := oldest_wait_ms p; inflicted_blocked_ms := inflicted_blocked_ms p;
     contention_ticks := contention_ticks p; quiet_ticks := quiet_ticks p;
     cancel_requested := cancel_requested p; cancel_stop := true;
     long_statement := long_statement p; stop_now := stop_now p; in_walk := in_walk p;
     throttled := throttled p; paused := paused p; paused_since_ms := paused_since_ms p;
     cic_lockers_total := cic_lockers_total p; cic_lockers_done := cic_lockers_done p;
     cic_current_locker_pid := cic_current_locker_pid p |}.

Inductive CancelAnswer : Type :=
  | NoSuchJob
  | AlreadyFinished (s : JobState)
  | CancelNoted.

(** [cancel_job]: cooperative, it only sets the flag. *)
Definition cancel_job (id : string) (registry : gmap string Job) : CancelAnswer * gmap string Job :=
  match registry !! id with
  | None => (NoSuchJob, registry)
  | Some j =>
      if is_terminal (j_state j) then (AlreadyFinished (j_state j), registry)
      else (CancelNoted, <[id := with_pacing j (set_cancel_stop (j_pacing j))]> registry)
  end.

(** ** Job ids

    [%0nx] of the two random words. *)
Definition hex_nibble (n : Z) : ascii :=
  if n <? 10 then byte_of (48 + n) else byte_of (87 + n).

Fixpoint hex_padded (digits : nat) (v : Z) : string :=
  match digits with
  | O => ""
  | S d => hex_padded d (Z.shiftr v 4) +:+ String (hex_nibble (Z.land v 15)) ""
  end.

Definition new_job_id (a b : Z) : string :=
  hex_padded 8 (Z.shiftr a 32) +:+ "-" +:+
  hex_padded 4 (Z.land (Z.shiftr a 16) 65535) +:+ "-4" +:+
  hex_padded 3 (Z.land a 4095) +:+ "-" +:+
  hex_padded 4 (Z.lor 32768 (Z.land (Z.shiftr b 48) 16383)) +:+ "-" +:+
  hex_padded 12 (Z.land b 281474976710655).
