(* ===== verification/JobsFacts.v ===== *)
(** * JobsFacts: the gate's ceiling, the observer's hysteresis, job ids

    The operation gate counts exactly the slots held and never lets more in
    than the highest ceiling it was given; the pacing flags are a function of
    the history of readings, which says when a job pauses and resumes; and
    what a second observer does to a job that is not on its connection. *)
From S2P Require Import Prelude Jobs.

(** ** The gate *)

(** The highest ceiling configured in a run. *)
Fixpoint highest_limit (ops : list GateOp) : Z :=
  match ops with
  | [] => 0
  | Configure l :: ops' => Z.max l (highest_limit ops')
  | _ :: ops' => highest_limit ops'
  end.

Record gate_ok (bound : Z) (s : GateState) : Prop := {
  gk_count : in_flight (gate s) = Z.of_nat (size (held s));
  gk_peak : in_flight (gate s) <= peak (gate s);
  gk_bound : peak (gate s) <= bound;
  gk_limit : limit (gate s) <= bound;
}.

Lemma size_add_remove (v : nat) (h : gset nat) :
  v ∈ h -> Z.of_nat (size (h ∖ {[ v ]})) = Z.of_nat (size h) - 1.
Proof.
  intros Hv. assert (Hs : size h = S (size (h ∖ {[ v ]}))).
  { rewrite (union_difference_L {[ v ]} h) at 1 by set_solver.
    rewrite size_union by set_solver. by rewrite size_singleton. }
  lia.
Qed.

Lemma size_add (v : nat) (h : gset nat) :
  v ∉ h -> Z.of_nat (size ({[ v ]} ∪ h)) = Z.of_nat (size h) + 1.
Proof. intros Hv. rewrite size_union by set_solver. rewrite size_singleton. lia. Qed.

Lemma release_slot_ok bound v s :
  gate_ok bound s -> gate_ok bound (release_slot v s) /\ v ∉ held (release_slot v s)
    /\ held (release_slot v s) = held s ∖ {[ v ]}.
Proof.
  intros [H1 H2 H3 H4]. unfold release_slot. case_bool_decide as Hv; simpl.
  - split; [|set_solver]. constructor; simpl; try done; [|lia].
    by rewrite size_add_remove, H1.
  - split; [by constructor|]. set_solver.
Qed.

Lemma gate_step_ok bound s o :
  gate_ok bound s -> (forall l, o = Configure l -> l <= bound) -> gate_ok bound (gate_step s o).
Proof.
  intros Hok Hl. pose proof Hok as [H1 H2 H3 H4].
  destruct o as [l|v|v u|v]; simpl.
  - constructor; simpl; auto.
  - unfold try_acquire.
    destruct (Z.leb_spec (limit (gate s)) 0); [by apply release_slot_ok; constructor|].
    destruct (Z.ltb_spec (in_flight (gate s)) (limit (gate s))); simpl;
      [|by apply release_slot_ok; constructor].
    unfold release_slot; simpl. case_bool_decide as Hv; constructor; simpl; try done;
      repeat case_if; rewrite ?H1 in *; try lia.
    + replace ({[v]} ∪ held s ∖ {[v]}) with (held s); [lia|].
      apply union_difference_singleton_L in Hv. done.
    + rewrite size_add by done. lia.
  - destruct (Nat.eqb_spec v u) as [|Hne]; [done|].
    destruct (release_slot_ok bound v s Hok) as (Hr & Hv & Hh).
    set (s1 := release_slot v s) in *. case_bool_decide as Hu; [|done].
    destruct Hr as [R1 R2 R3 R4]. constructor; simpl; try done.
    rewrite size_add by set_solver. rewrite size_add_remove by done. lia.
  - by apply release_slot_ok.
Qed.

Lemma gate_run_ok bound ops s :
  gate_ok bound s -> highest_limit ops <= bound -> gate_ok bound (gate_run s ops).
Proof.
  revert s; induction ops as [|o ops IH]; intros s Hs Hb; simpl in *; [done|].
  apply IH; [|destruct o; lia]. apply gate_step_ok; [done|]. intros l ->. lia.
Qed.

(** Whatever sequence of ceilings, acquisitions, assignments, moves and
    destructions the process performs, the gate's count is exactly the number of
    slots held, no more were ever in flight than its peak says, and never more
    than the highest ceiling it was given. *)
Theorem gate_counts_the_slots_held ops :
  let s := gate_run gate_start ops in
  in_flight (gate s) = Z.of_nat (size (held s))
  /\ in_flight (gate s) <= peak (gate s) <= highest_limit ops.
Proof.
  intros s.
  assert (Hpos : 0 <= highest_limit ops) by (clear; induction ops as [|[] ops IH]; simpl; lia).
  destruct (gate_run_ok (highest_limit ops) ops gate_start) as [H1 H2 H3 H4]; [|lia|].
  { constructor; simpl; try lia. done. }
  split; [done|]. subst s. lia.
Qed.

(** [gate_counts_the_slots_held] when the ceiling comes down under held slots. *)
Example gate_lowered :
  in_flight (gate (gate_run gate_start
    [Configure 3; Assign 1; Assign 2; Configure 1; Assign 3; Move 4 1; Destroy 2])) = 1.
Proof. by vm_compute. Qed.

(** ** Runs in a history, the most recent first *)
Section Runs.
Context {A : Type} (f : A -> bool).

Fixpoint run_length (h : list A) : nat :=
  match h with
  | x :: h' => if f x then S (run_length h') else 0%nat
  | [] => 0%nat
  end.

Lemma run_length_app l h : Forall (fun x => f x = true) l -> (length l <= run_length (l ++ h))%nat.
Proof. induction 1 as [|x l Hx _ IH]; simpl; [lia|]. rewrite Hx. lia. Qed.

Lemma run_length_take n h :
  (n <= run_length h)%nat -> length (take n h) = n /\ Forall (fun x => f x = true) (take n h).
Proof.
  revert h; induction n as [|n IH]; intros [|x h] Hn; simpl in *; try lia; auto.
  destruct (f x) eqn:Hx; [|lia]. destruct (IH h) as [IH1 IH2]; [lia|]. auto.
Qed.
End Runs.

(** ** The pause *)
Section Pause.
Context (l : Ladder).
Context (Hpause : 1 <= pause_waiters l) (Hresume : 0 <= resume_waiters l)
  (Hdwell : 1 <= contention_dwell_ticks l).

(** What a tick does to the pacing of a live job whose reading was taken. *)
Definition pace (now : Z) (r : Reading) (p : PacingState) : PacingState :=
  if (r_direct r =? 0) && (r_transitive r =? 0) then clear_contention l p else apply_ladder l now r p.

(** At or above the pause threshold; below it and at or below the resume one. *)
Definition hot (r : Reading) : bool := pause_waiters l <=? r_transitive r.
Definition cool (r : Reading) : bool := negb (hot r) && (r_transitive r <=? resume_waiters l).

(** The pacing after a history of readings, the most recent first. *)
Definition paced (pid : Z) (h : list (Z * Reading)) : PacingState :=
  foldr (fun nr p => pace nr.1 nr.2 p) (new_pacing pid) h.

Notation dwell := (Z.to_nat (contention_dwell_ticks l)).

(** The abstract specification: a job is paused when at some time the last
    [contention_dwell_ticks] readings were all hot, and since then no
    [contention_dwell_ticks] readings in a row were all cool. *)
Definition should_pause (h : list Reading) : Prop :=
  exists recent hots before,
    h = recent ++ hots ++ before /\ length hots = dwell /\ Forall (fun r => hot r = true) hots
    /\ ~ exists a cools b, recent = a ++ cools ++ b /\ length cools = dwell
           /\ Forall (fun r => cool r = true) cools.

Fixpoint pause_flag (h : list Reading) : bool :=
  match h with
  | [] => false
  | r :: h' =>
      if hot r && (dwell <=? run_length hot (r :: h'))%nat then true
      else if cool r && (dwell <=? run_length cool (r :: h'))%nat then false
      else pause_flag h'
  end.

Lemma hot_not_cool r : hot r = true -> cool r = false.
Proof. unfold cool. by intros ->. Qed.

Lemma pause_flag_should h : pause_flag h = true -> should_pause h.
Proof using Hdwell.
  induction h as [|r h IH]; cbn [pause_flag]; [done|].
  destruct (hot r && (dwell <=? run_length hot (r :: h))%nat) eqn:Eh.
  { intros _. bool_prop. rewrite Nat.leb_le in *.
    destruct (run_length_take hot dwell (r :: h)) as [Hl Hf]; [done|].
    exists [], (take dwell (r :: h)), (drop dwell (r :: h)). simpl app. rewrite take_drop.
    split; [done|]. split; [done|]. split; [done|]. intros (a & cools & b & He & Hlen & _).
    symmetry in He. apply app_nil in He as [_ He]. apply app_nil in He as [-> _]. simpl in Hlen. lia. }
  destruct (cool r && (dwell <=? run_length cool (r :: h))%nat) eqn:Ec; [done|].
  intros Hp. destruct (IH Hp) as (recent & hots & before & -> & Hl & Hf & Hno).
  exists (r :: recent), hots, before. split; [done|]. split; [done|]. split; [done|].
  intros (a & cools & b & He & Hlen & Hcool). destruct a as [|r' a].
  - destruct cools as [|r' cools]; [simpl in Hlen; lia|]. injection He as <- ->.
    pose proof (run_length_app cool (r :: cools) (b ++ hots ++ before) Hcool) as Hrun.
    apply Forall_cons in Hcool as [Hr _]. rewrite Hr in Ec. cbn [andb] in Ec.
    apply Nat.leb_gt in Ec. rewrite <- !app_assoc in Ec. simpl app in *. lia.
  - injection He as <- ->. apply Hno. by exists a, cools, b.
Qed.

Lemma should_pause_flag h : should_pause h -> pause_flag h = true.
Proof using Hdwell.
  intros (recent & hots & before & -> & Hl & Hf & Hno).
  assert (Hh : exists r hots', hots = r :: hots' /\ hot r = true).
  { destruct Hf as [|r hots' Hr]; [simpl in Hl; lia|]. by exists r, hots'. }
  induction recent as [|r recent IH]; cbn [app pause_flag].
  - destruct Hh as (r & hots' & -> & Hr). cbn [app pause_flag]. rewrite Hr.
    pose proof (run_length_app hot (r :: hots') before Hf) as Hrun. rewrite Hl in Hrun.
    apply Nat.leb_le in Hrun. cbn [app] in Hrun. by rewrite Hrun.
  - destruct (hot r && (dwell <=? run_length hot (r :: recent ++ hots ++ before))%nat); [done|].
    destruct (cool r && (dwell <=? run_length cool (r :: recent ++ hots ++ before))%nat) eqn:Ec.
    + exfalso. bool_prop. rewrite Nat.leb_le in *.
      destruct (run_length_take cool dwell ((r :: recent) ++ hots ++ before)) as [Ht Hc]; [done|].
      destruct (Nat.le_gt_cases dwell (length (r :: recent))) as [Hle|Hgt].
      * rewrite take_app_le in Ht, Hc by done. apply Hno.
        exists [], (take dwell (r :: recent)), (drop dwell (r :: recent)). simpl app.
        by rewrite take_drop.
      * rewrite take_app_ge in Hc by lia. apply Forall_app in Hc as [_ Hc].
        destruct Hh as (r0 & hots' & -> & Hr0).
        destruct (dwell - length (r :: recent))%nat eqn:E; [lia|].
        cbn [app take] in Hc. apply Forall_cons in Hc as [Hc _].
        by rewrite (hot_not_cool r0) in Hc.
    + apply IH. intros (a & cools & b & -> & Hlen & Hcool). apply Hno. by exists (r :: a), cools, b.
Qed.

(** The three fields the pause depends on, after one reading. *)
Lemma pace_fields now r p :
  let d := contention_dwell_ticks l in
  (contention_ticks (pace now r p), quiet_ticks (pace now r p), paused (pace now r p))
  = if hot r then (contention_ticks p + 1, 0, paused p || (d <=? contention_ticks p + 1))
    else if cool r then (0, quiet_ticks p + 1, paused p && negb (d <=? quiet_ticks p + 1))
    else (0, 0, paused p).
Proof using Hpause Hresume.
  unfold pace, clear_contention, apply_ladder, bump_quiet, cool, hot.
  destruct (Z.eqb_spec (r_direct r) 0), (Z.eqb_spec (r_transitive r) 0); cbn [andb];
    destruct (r_cic r) as [[[? ?] ?]|]; cbn [set_cic];
    destruct (Z.leb_spec (pause_waiters l) (r_transitive r)); try lia; cbn [negb andb];
    cbn [set_counts transitive_waiters set_flags contention_ticks quiet_ticks paused];
    repeat match goal with
      | |- context [if (?b && negb ?c)%bool then _ else _] => destruct b, c; simpl
      | |- context [Z.leb ?x ?y] => destruct (Z.leb_spec x y); try lia; simpl
      end; rewrite ?andb_true_r, ?andb_false_r, ?orb_true_r, ?orb_false_r; congruence || done.
Qed.

(** The counters and the flag are functions of the history. *)
Lemma paced_history pid h :
  let p := paced pid h in
  contention_ticks p = Z.of_nat (run_length hot (snd <$> h))
  /\ quiet_ticks p = Z.of_nat (run_length cool (snd <$> h))
  /\ paused p = pause_flag (snd <$> h).
Proof using Hdwell Hpause Hresume.
  induction h as [|[now r] h (H1 & H2 & H3)]; [done|].
  cbn [paced foldr fst snd]. fold (paced pid h).
  change (snd <$> (now, r) :: h) with (r :: (snd <$> h)). cbn [pause_flag run_length].
  pose proof (pace_fields now r (paced pid h)) as Hp. cbn zeta in Hp.
  rewrite H1, H2, H3 in Hp.
  assert (Hle : forall n : nat, (contention_dwell_ticks l <=? Z.of_nat n + 1) = (dwell <=? S n)%nat).
  { intros n. destruct (Nat.leb_spec dwell (S n)); lia. }
  rewrite !Hle in Hp. destruct (hot r) eqn:Eh; cbn [andb].
  - rewrite (hot_not_cool r Eh). injection Hp as -> -> ->. split; [lia|]. split; [done|].
    destruct (dwell <=? _)%nat; rewrite ?orb_true_r, ?orb_false_r; done.
  - destruct (cool r) eqn:Ec; cbn [andb]; injection Hp as -> -> ->; (split; [done|]); (split; [lia|]);
      [|done]. destruct (dwell <=? _)%nat; rewrite ?andb_true_r, ?andb_false_r; done.
Qed.

End Pause.

(** The contention breaker, against its specification: whatever the history
    of readings, the job is paused exactly when at some time the last
    [contention_dwell_ticks] readings in a row were at or above [pause_waiters]
    and, since then, there have not been [contention_dwell_ticks] readings in a
    row below it and at or below [resume_waiters]. A commit of the worker does
    not enter into it. *)
Theorem pause_follows_the_readings l pid h :
  1 <= pause_waiters l -> 0 <= resume_waiters l -> 1 <= contention_dwell_ticks l ->
  paused (paced l pid h) = true <-> should_pause l (snd <$> h).
Proof.
  intros Hp Hr Hd. destruct (paced_history l Hp Hr Hd pid h) as (_ & _ & ->).
  split; [by apply pause_flag_should|by apply should_pause_flag].
Qed.

Definition some_waiters (n : Z) : Reading :=
  {| r_direct := Z.min n 1; r_transitive := n; r_blocking_pid := 7; r_oldest_wait_ms := 10;
     r_inflicted_ms := 10; r_cic := None |}.

Definition demo_ladder : Ladder :=
  {| throttle_waiters := 3; pause_waiters := 10; resume_waiters := 1; contention_dwell_ticks := 2;
     max_waiter_wait_ms := 500 |}.

(** [pause_follows_the_readings]: two hot readings pause, one cool one does not resume. *)
Lemma pause_follows_the_readings_witness :
  should_pause demo_ladder [some_waiters 0; some_waiters 12; some_waiters 11; some_waiters 2].
Proof.
  apply (pause_follows_the_readings demo_ladder 7
    [(4, some_waiters 0); (3, some_waiters 12); (2, some_waiters 11); (1, some_waiters 2)]);
    [by vm_compute|by vm_compute|by vm_compute|by vm_compute].
Defined.

(** Throttling is immediate and one reading deep: where the resume
    threshold is below the throttle threshold, after a reading with waiters the
    job is throttled exactly when the transitive count is at or above
    [throttle_waiters], whatever happened before. *)
Theorem throttle_follows_the_last_reading l now r p :
  resume_waiters l < throttle_waiters l -> throttle_waiters l <= pause_waiters l ->
  throttled (apply_ladder l now r p) = true <-> throttle_waiters l <= r_transitive r.
Proof.
  intros Hl Hp. unfold apply_ladder, bump_quiet.
  destruct (r_cic r) as [[[? ?] ?]|]; cbn [set_cic];
    cbn [set_counts transitive_waiters set_flags contention_ticks quiet_ticks paused throttled];
    destruct (Z.leb_spec (pause_waiters l) (r_transitive r)); repeat case_if; simpl; bool_prop;
    rewrite ?Z.leb_le; split; try done; lia.
Qed.

(** [throttle_follows_the_last_reading] with four waiters. *)
Lemma throttle_follows_the_last_reading_witness :
  throttled (apply_ladder demo_ladder 5 (some_waiters 4) (new_pacing 7)) = true.
Proof. apply (throttle_follows_the_last_reading demo_ladder); [by vm_compute|by vm_compute|by vm_compute]. Defined.

(** ** Two observers *)

(** One tick of the observer of the job's own connection, which sees [r], and
    one of the observer of another connection, whose server has no waiters. *)
Definition round (l : Ladder) (id : string) (pid : Z) (registry : gmap string Job)
    (nr : Z * Reading) : gmap string Job :=
  tick l nr.1 NobodyWaiting (tick l nr.1 (Entries {[ pid := nr.2 ]} ∅) registry).

Lemma observe_unpaused l now r j :
  2 <= contention_dwell_ticks l -> contention_ticks (j_pacing j) = 0 -> paused (j_pacing j) = false ->
  paused (j_pacing (apply l now r j)) = false.
Proof.
  intros Hd Hc Hp. unfold apply, request_cancel.
  assert (H : paused (apply_ladder l now r (j_pacing j)) = false).
  { unfold apply_ladder, bump_quiet. destruct (r_cic r) as [[[? ?] ?]|]; cbn [set_cic];
      cbn [set_counts transitive_waiters set_flags contention_ticks quiet_ticks paused];
      rewrite ?Hc, ?Hp; replace (contention_dwell_ticks l <=? 0 + 1) with false by lia;
      cbn [andb]; repeat case_if; done. }
  repeat case_if; simpl; done.
Qed.

Lemma cancel_if_stopped_pacing j :
  contention_ticks (j_pacing (cancel_if_stopped j)) = contention_ticks (j_pacing j)
  /\ paused (j_pacing (cancel_if_stopped j)) = paused (j_pacing j)
  /\ worker_pid (j_pacing (cancel_if_stopped j)) = worker_pid (j_pacing j)
  /\ j_state (cancel_if_stopped j) = j_state j.
Proof. unfold cancel_if_stopped, request_cancel. repeat case_if; done. Qed.

Lemma clear_contention_fields l p :
  paused p = false ->
  contention_ticks (clear_contention l p) = 0 /\ paused (clear_contention l p) = false
  /\ worker_pid (clear_contention l p) = worker_pid p.
Proof. intros Hp. unfold clear_contention, bump_quiet. simpl. repeat case_if; done. Qed.

Lemma apply_identity l now r j :
  worker_pid (j_pacing (apply l now r j)) = worker_pid (j_pacing j)
  /\ j_state (apply l now r j) = j_state j.
Proof.
  assert (H : forall p, worker_pid (apply_ladder l now r p) = worker_pid p).
  { intros p. unfold apply_ladder, bump_quiet. destruct (r_cic r) as [[[? ?] ?]|];
      cbn [set_cic set_flags set_counts contention_ticks paused quiet_ticks transitive_waiters];
      repeat case_if; reflexivity. }
  unfold apply, request_cancel. repeat case_if; split; try reflexivity; apply H.
Qed.

(** A live, unpaused job with no contention counted. *)
Definition idle_job (pid : Z) (j : Job) : Prop :=
  contention_ticks (j_pacing j) = 0 /\ paused (j_pacing j) = false
  /\ worker_pid (j_pacing j) = pid /\ is_terminal (j_state j) = false.

Lemma observe_clear_idle l now pid j :
  paused (j_pacing j) = false -> worker_pid (j_pacing j) = pid -> is_terminal (j_state j) = false ->
  idle_job pid (observe l now NobodyWaiting (cancel_if_stopped j)).
Proof.
  intros Hp Hw Ht. destruct (cancel_if_stopped_pacing j) as (_ & H2 & H3 & H4).
  destruct (clear_contention_fields l (j_pacing (cancel_if_stopped j))) as (C1 & C2 & C3); [congruence|].
  unfold idle_job, observe; simpl. repeat split; congruence.
Qed.

Lemma round_idle l id pid j nr :
  2 <= contention_dwell_ticks l -> 0 < pid -> idle_job pid j ->
  exists j', round l id pid {[ id := j ]} nr = {[ id := j' ]} /\ idle_job pid j'.
Proof.
  intros Hd Hpid (Hc & Hp & Hw & Ht). unfold round, tick. rewrite !map_fmap_singleton.
  assert (Hlive : is_live j = true) by (unfold is_live; rewrite Ht, Hw; simpl; lia).
  rewrite Hlive. set (j1 := observe l nr.1 (Entries {[ pid := nr.2 ]} ∅) (cancel_if_stopped j)).
  destruct (cancel_if_stopped_pacing j) as (E1 & E2 & E3 & E4).
  assert (H1 : paused (j_pacing j1) = false /\ worker_pid (j_pacing j1) = pid
               /\ is_terminal (j_state j1) = false).
  { subst j1. unfold observe. case_if.
    - destruct (clear_contention_fields l (j_pacing (cancel_if_stopped j))) as (_ & C2 & C3);
        [congruence|]. simpl. repeat split; congruence.
    - set (r := merge_reading _ _). destruct (apply_identity l nr.1 r (cancel_if_stopped j)) as [A1 A2].
      rewrite A1, A2, observe_unpaused by (done || congruence). repeat split; congruence. }
  destruct H1 as (P1 & P2 & P3).
  assert (Hlive1 : is_live j1 = true) by (unfold is_live; rewrite P3, P2; simpl; lia).
  rewrite Hlive1. eexists. split; [done|]. by apply observe_clear_idle.
Qed.

(** Every observer's tick goes over every job of the process, whatever its
    connection. A job under contention on its own server is watched by its own
    observer, but the observer of another server reads no waiters and clears the
    job's counters in between: however long the pile-up lasts and however deep
    it is, a breaker that wants two readings in a row never pauses the job. *)
Theorem foreign_observer_defeats_the_pause l id pid j readings :
  2 <= contention_dwell_ticks l -> 0 < pid -> is_terminal (j_state j) = false ->
  j_pacing j = new_pacing pid ->
  exists j', foldl (round l id pid) {[ id := j ]} readings = {[ id := j' ]}
    /\ paused (j_pacing j') = false.
Proof.
  intros Hd Hpid Ht Hp.
  assert (Hj : idle_job pid j) by (unfold idle_job; by rewrite Hp).
  clear Ht Hp. revert j Hj. induction readings as [|nr readings IH]; intros j Hj; simpl.
  - exists j. split; [done|]. apply Hj.
  - destruct (round_idle l id pid j nr Hd Hpid Hj) as (j1 & -> & Hj1). by apply IH.
Qed.

Definition demo_job : Job :=
  {| j_connection := "pub"; j_state := kRunning; j_pacing := new_pacing 7; j_worker_conn := true;
     j_cancels := 0 |}.

(** [foreign_observer_defeats_the_pause]: a thousand waiters, three times, where
    the job's own observer alone pauses after two. *)
Lemma foreign_observer_defeats_the_pause_witness :
  let hot := [(1, some_waiters 1000); (2, some_waiters 1000); (3, some_waiters 1000)] in
  paused (paced demo_ladder 7 hot) = true
  /\ exists j', foldl (round demo_ladder "job" 7) {[ "job" := demo_job ]} hot = {[ "job" := j' ]}
       /\ paused (j_pacing j') = false.
Proof.
  intros hot. split; [by vm_compute|].
  apply (foreign_observer_defeats_the_pause demo_ladder "job" 7 demo_job hot);
    [by vm_compute|lia|reflexivity|reflexivity].
Defined.

(** ** Job ids *)

(** A lower-case hexadecimal digit. *)
Definition is_hex (c : ascii) : bool :=
  let b := byte_val c in ((48 <=? b) && (b <=? 57)) || ((97 <=? b) && (b <=? 102)).

(** The shape of a version 4, variant 1 UUID: [x] a digit, [y] one of 8, 9, a, b. *)
Fixpoint matches (pattern s : string) : bool :=
  match pattern, s with
  | EmptyString, EmptyString => true
  | String p pattern', String c s' =>
      (if Ascii.eqb p "x" then is_hex c
       else if Ascii.eqb p "y" then is_hex c && existsb (Ascii.eqb c) ["8"; "9"; "a"; "b"]%char
       else Ascii.eqb p c) && matches pattern' s'
  | _, _ => false
  end.

Lemma matches_app p1 p2 s1 s2 :
  matches p1 s1 = true -> matches p2 s2 = true -> matches (p1 +:+ p2) (s1 +:+ s2) = true.
Proof.
  revert s1; induction p1 as [|p p1 IH]; intros [|c s1]; cbn [matches]; try done.
  rewrite !string_app_cons. cbn [matches]. intros H1 H2. apply andb_true_iff in H1 as [-> H1].
  simpl. by apply IH.
Qed.

Lemma hex_nibble_hex v : is_hex (hex_nibble (Z.land v 15)) = true.
Proof.
  assert (Hv : 0 <= Z.land v 15 < 16).
  { change 15 with (Z.ones 4). rewrite Z.land_ones by lia. apply Z.mod_pos_bound. lia. }
  unfold is_hex, hex_nibble. case_if; rewrite byte_val_of; lia.
Qed.

Lemma hex_padded_matches n v :
  matches (String.string_of_list_ascii (replicate n "x"%char)) (hex_padded n v) = true.
Proof.
  revert v; induction n as [|n IH]; intros v; [done|]. cbn [hex_padded].
  replace (String.string_of_list_ascii (replicate (S n) "x"%char))
    with (String.string_of_list_ascii (replicate n "x"%char) +:+ "x").
  - apply matches_app; [done|]. cbn [matches]. cbn. by rewrite hex_nibble_hex.
  - clear. induction n as [|n IH]; [done|]. cbn [replicate String.string_of_list_ascii].
    rewrite string_app_cons, IH. done.
Qed.

Lemma variant_nibble x :
  matches "yxxx" (hex_padded 4 (Z.lor 32768 (Z.land x 16383))) = true.
Proof.
  change 16383 with (Z.ones 14). rewrite Z.land_ones by lia.
  assert (Hy : 0 <= x `mod` 2 ^ 14 < 2 ^ 14) by (apply Z.mod_pos_bound; lia).
  set (y := x `mod` 2 ^ 14) in *. change 32768 with (Z.shiftl 2 14).
  rewrite lor_shiftl_add by lia. set (v := 2 * 2 ^ 14 + y).
  change (hex_padded 4 v) with
    (hex_padded 1 (Z.shiftr (Z.shiftr (Z.shiftr v 4) 4) 4)
     +:+ String (hex_nibble (Z.land (Z.shiftr (Z.shiftr v 4) 4) 15)) ""
     +:+ String (hex_nibble (Z.land (Z.shiftr v 4) 15)) "" +:+ String (hex_nibble (Z.land v 15)) "").
  change "yxxx" with ("y" +:+ "x" +:+ "x" +:+ "x").
  repeat (apply matches_app; [|]); try (cbn; by rewrite hex_nibble_hex).
  rewrite !Z.shiftr_shiftr by lia. change (4 + (4 + 4)) with 12. cbn [hex_padded].
  rewrite string_app_nil_l. rewrite Z.shiftr_div_pow2 by lia.
  assert (Hq : 8 <= v / 2 ^ 12 < 12) by (subst v; split; [apply Z.div_le_lower_bound|apply Z.div_lt_upper_bound]; lia).
  assert (Hc : v / 2 ^ 12 = 8 \/ v / 2 ^ 12 = 9 \/ v / 2 ^ 12 = 10 \/ v / 2 ^ 12 = 11) by lia.
  destruct Hc as [-> | [-> | [-> | ->]]]; by vm_compute.
Qed.

(** Every job id, whatever the two random words, has the shape of a version 4
    UUID, which is what the ledger's [uuid] columns take. *)
Theorem job_id_is_a_uuid a b :
  matches "xxxxxxxx-xxxx-4xxx-yxxx-xxxxxxxxxxxx" (new_job_id a b) = true.
Proof.
  change "xxxxxxxx-xxxx-4xxx-yxxx-xxxxxxxxxxxx"
    with ("xxxxxxxx" +:+ "-" +:+ "xxxx" +:+ "-4" +:+ "xxx" +:+ "-" +:+ "yxxx" +:+ "-" +:+ "xxxxxxxxxxxx").
  unfold new_job_id.
  apply matches_app; [apply (hex_padded_matches 8)|]. apply matches_app; [done|].
  apply matches_app; [apply (hex_padded_matches 4)|]. apply matches_app; [done|].
  apply matches_app; [apply (hex_padded_matches 3)|]. apply matches_app; [done|].
  apply matches_app; [apply variant_nibble|]. apply matches_app; [done|].
  apply (hex_padded_matches 12).
Qed.

(** ** Cancellation *)
Lemma observe_keeps_cancels l now o j : j_cancels j <= j_cancels (observe l now o j).
Proof.
  destruct o as [| |by_pid cluster]; cbn [observe]; [done|done|]. case_match; [done|].
  unfold apply. case_match; [|done]. unfold request_cancel. repeat case_match; cbn; lia.
Qed.

(** A job inside one long statement that is asked to stop has its query cancelled by the
    next tick, whatever the tick reads. *)
Lemma cancel_reaches_a_long_statement l now o id registry j :
  registry !! id = Some j -> is_live j = true -> long_statement (j_pacing j) = true ->
  cancel_requested (j_pacing j) = false -> j_worker_conn j = true ->
  (cancel_job id registry).1 = CancelNoted
  /\ exists j', tick l now o (cancel_job id registry).2 !! id = Some j' /\ j_cancels j < j_cancels j'.
Proof.
  intros Hj Hlive Hlong Hreq Hconn. unfold cancel_job. rewrite Hj.
  assert (is_terminal (j_state j) = false) as -> by (unfold is_live in Hlive; by destruct (is_terminal _)).
  split; [done|]. cbn [snd]. unfold tick. rewrite lookup_fmap, lookup_insert_eq. cbn [fmap option_fmap option_map].
  change (is_live (with_pacing j (set_cancel_stop (j_pacing j)))) with (is_live j). rewrite Hlive.
  eexists. split; [done|].
  eapply Z.lt_le_trans; [|apply observe_keeps_cancels]. unfold cancel_if_stopped, request_cancel. cbn. rewrite Hlong, Hreq, Hconn. cbn. lia.
Qed.
