(* ===== verification/Executor.v ===== *)
(** * Executor: running a plan (src/cpp/src/executor.h)

    The loop of [execute] over the plan's steps: which transaction a step runs
    in, when a group of steps commits or is rolled back and marked so, the
    whole-group retry of an exclusive lock that does not come, and how a job
    ends. What a step's SQL does on the server is an event of the run; a
    step's effect is its ordinal, kept when its transaction commits. The walks
    of the steps that commit batch by batch are Walk.v's. *)
From S2P Require Import Prelude Jobs.

(** ** Small helpers *)

(** [strip_semicolon]: trailing blanks, one semicolon, the blanks before it. *)
Definition strip_semicolon (s : string) : string :=
  let back := drop_blanks (rev (String.list_ascii_of_string s)) in
  let back := match back with
              | c :: back' => if Ascii.eqb c ";" then drop_blanks back' else back
              | [] => []
              end in
  String.string_of_list_ascii (rev back).

(** [advisory_key] (ledger.h): FNV-1a on 64 bits, the sign bit cleared. *)
Fixpoint fnv1a (h : Z) (s : string) : Z :=
  match s with
  | EmptyString => h
  | String c s' => fnv1a ((Z.lxor h (byte_val c) * 1099511628211) `mod` 2 ^ 64) s'
  end.

Definition advisory_key (s : string) : Z :=
  Z.land (fnv1a 1469598103934665603 s) (2 ^ 63 - 1).

(** ** The plan, as the loop reads it *)
Record PlanStep : Type := {
  ps_ordinal : Z;
  ps_group : Z;             (* txnGroup *)
  ps_kind : string;
  ps_class : string;        (* txnClass *)
  ps_action : string;
  ps_exclusive_retry : bool;
  ps_index : option (string * string);  (* detail.schema, detail.index *)
}.

(** [index_name_for]: the nearest [create_index] before the ordinal. The inner
    loop takes the first step that has the ordinal and the kind. *)
Definition build_at (steps : list PlanStep) (i : Z) : option PlanStep :=
  List.find (fun s => (ps_ordinal s =? i) && String.eqb (ps_kind s) "create_index") steps.

Fixpoint index_name_from (steps : list PlanStep) (n : nat) : string * string :=
  match n with
  | O => ("", "")
  | S n' =>
      match build_at steps (Z.of_nat n') with
      | Some s => default ("", "") (ps_index s)
      | None => index_name_from steps n'
      end
  end.

Definition index_name_for (steps : list PlanStep) (ordinal : Z) : string * string :=
  index_name_from steps (Z.to_nat ordinal).

(** ** The run *)

(** The locals of [execute], the job's record of its steps, the ledger's rows,
    and what is committed. [x_open] is the open group's transaction: the
    ordinals whose work is in it. *)
Record Exec : Type := {
  x_at : nat;
  x_current_group : Z;
  x_open : option (list Z);
  x_group_first : nat;
  x_group_attempt : Z;
  x_group_began : Z;
  x_uncommitted : list Z;
  x_steps : list (Z * string);
  x_ledger : gmap Z string;
  x_db : list Z;
}.

Definition exec_start : Exec :=
  {| x_at := 0; x_current_group := -1; x_open := None; x_group_first := 0; x_group_attempt := 1;
     x_group_began := 0; x_uncommitted := []; x_steps := []; x_ledger := ∅; x_db := [] |}.

(** How a step's work came out. *)
Inductive Ran : Type :=
  | RanOk
  | RanLockTimeout
  | RanFailed (canceled : bool)
  | RanThrew                (* an exception that is not the server's: nothing recorded *)
  | RanCancelled.           (* a walk that saw [cancel_stop] *)

Record ExecEvent : Type := {
  xe_stop : bool;           (* cancel_stop, at the head of the loop *)
  xe_commit_ok : bool;      (* the commit of the group before, if there is one *)
  xe_ran : Ran;
  xe_opened_ms : Z;         (* steady_ms() if the group opens here *)
  xe_stop_after : bool;     (* cancel_stop, after a group was rolled back for a lock *)
  xe_now_ms : Z;
  (* whether the turn's writes to the ledger reach it: begin_step, record_step, roll_back_steps *)
  xe_begin_written : bool;
  xe_record_written : bool;
  xe_rollback_written : bool;
}.

Inductive ExecResult : Type :=
  | XGoing (x : Exec)
  | XSucceeded (x : Exec)
  | XCancelled (x : Exec)
  | XThrew (canceled : bool) (x : Exec).

(** [kExclusivePatienceFactor]. *)
Definition kExclusivePatienceFactor : Z := 20.

Definition next (x : Exec) : Exec :=
  {| x_at := S (x_at x); x_current_group := x_current_group x; x_open := x_open x;
     x_group_first := x_group_first x; x_group_attempt := x_group_attempt x;
     x_group_began := x_group_began x; x_uncommitted := x_uncommitted x; x_steps := x_steps x;
     x_ledger := x_ledger x; x_db := x_db x |}.

(** A write to the ledger, on the coordination connection: one that fails is caught
    and the job goes on. *)
Definition ledger_put (written : bool) (o : Z) (state : string) (m : gmap Z string) : gmap Z string :=
  if written then <[o := state]> m else m.

(** [record_step]: appended to the job's record, upserted in the ledger. *)
Definition record_step (written : bool) (o : Z) (state : string) (x : Exec) : Exec :=
  {| x_at := x_at x; x_current_group := x_current_group x; x_open := x_open x;
     x_group_first := x_group_first x; x_group_attempt := x_group_attempt x;
     x_group_began := x_group_began x; x_uncommitted := x_uncommitted x;
     x_steps := x_steps x ++ [(o, state)]; x_ledger := ledger_put written o state (x_ledger x); x_db := x_db x |}.

(** [begin_step]. *)
Definition begin_step (written : bool) (o : Z) (x : Exec) : Exec :=
  {| x_at := x_at x; x_current_group := x_current_group x; x_open := x_open x;
     x_group_first := x_group_first x; x_group_attempt := x_group_attempt x;
     x_group_began := x_group_began x; x_uncommitted := x_uncommitted x; x_steps := x_steps x;
     x_ledger := ledger_put written o "running" (x_ledger x); x_db := x_db x |}.

(** [worker.commit(); group_committed(); group_open = false]. *)
Definition commit_group (x : Exec) : Exec :=
  {| x_at := x_at x; x_current_group := x_current_group x; x_open := None;
     x_group_first := x_group_first x; x_group_attempt := x_group_attempt x;
     x_group_began := x_group_began x; x_uncommitted := []; x_steps := x_steps x;
     x_ledger := x_ledger x; x_db := x_db x ++ default [] (x_open x) |}.

(** ["succeeded"] becomes ["rolled_back"] for the group's steps. *)
Definition mark_rolled_back (os : list Z) (r : Z * string) : Z * string :=
  if String.eqb r.2 "succeeded" && bool_decide (r.1 ∈ os) then (r.1, "rolled_back") else r.

(** [worker.rollback(); group_rolled_back(); group_open = false]; the job's record is
    always marked, the ledger where [roll_back_steps] gets through. *)
Definition roll_back_group (written : bool) (x : Exec) : Exec :=
  {| x_at := x_at x; x_current_group := x_current_group x; x_open := None;
     x_group_first := x_group_first x; x_group_attempt := x_group_attempt x;
     x_group_began := x_group_began x; x_uncommitted := [];
     x_steps := mark_rolled_back (x_uncommitted x) <$> x_steps x;
     x_ledger := if written
                 then map_imap (fun o st => Some (mark_rolled_back (x_uncommitted x) (o, st)).2) (x_ledger x)
                 else x_ledger x;
     x_db := x_db x |}.

Definition set_group (g : Z) (x : Exec) : Exec :=
  {| x_at := x_at x; x_current_group := g; x_open := x_open x; x_group_first := x_group_first x;
     x_group_attempt := x_group_attempt x; x_group_began := x_group_began x;
     x_uncommitted := x_uncommitted x; x_steps := x_steps x; x_ledger := x_ledger x; x_db := x_db x |}.

(** [open_group]. *)
Definition open_group (opened_ms : Z) (x : Exec) : Exec :=
  match x_open x with
  | Some _ => x
  | None =>
      let anew := negb (Nat.eqb (x_group_first x) (x_at x)) || (x_group_began x =? 0) in
      {| x_at := x_at x; x_current_group := x_current_group x; x_open := Some [];
         x_group_first := if anew then x_at x else x_group_first x;
         x_group_attempt := if anew then 1 else x_group_attempt x;
         x_group_began := if anew then opened_ms else x_group_began x;
         x_uncommitted := x_uncommitted x; x_steps := x_steps x; x_ledger := x_ledger x; x_db := x_db x |}
  end.

(** A step's work in the open transaction, recorded and not yet kept. *)
Definition work_in_group (written : bool) (o : Z) (x : Exec) : Exec :=
  let x := record_step written o "succeeded" x in
  {| x_at := x_at x; x_current_group := x_current_group x;
     x_open := (fun l => l ++ [o]) <$> x_open x; x_group_first := x_group_first x;
     x_group_attempt := x_group_attempt x; x_group_began := x_group_began x;
     x_uncommitted := x_uncommitted x ++ [o]; x_steps := x_steps x; x_ledger := x_ledger x;
     x_db := x_db x |}.

(** A step's work that is kept as soon as it is done. *)
Definition work_alone (written : bool) (o : Z) (x : Exec) : Exec :=
  let x := record_step written o "succeeded" x in
  {| x_at := x_at x; x_current_group := x_current_group x; x_open := x_open x;
     x_group_first := x_group_first x; x_group_attempt := x_group_attempt x;
     x_group_began := x_group_began x; x_uncommitted := x_uncommitted x; x_steps := x_steps x;
     x_ledger := x_ledger x; x_db := x_db x ++ [o] |}.

(** [forget_steps_from]. *)
Definition forget_steps_from (first_ordinal : Z) (x : Exec) : Exec :=
  {| x_at := x_at x; x_current_group := x_current_group x; x_open := x_open x;
     x_group_first := x_group_first x; x_group_attempt := x_group_attempt x;
     x_group_began := x_group_began x; x_uncommitted := x_uncommitted x;
     x_steps := List.filter (fun r => negb (first_ordinal <=? r.1)) (x_steps x);
     x_ledger := x_ledger x; x_db := x_db x |}.

(** [++group_attempt; at = group_first - 1; continue]. *)
Definition try_group_again (x : Exec) : Exec :=
  {| x_at := x_group_first x; x_current_group := x_current_group x; x_open := x_open x;
     x_group_first := x_group_first x; x_group_attempt := x_group_attempt x + 1;
     x_group_began := x_group_began x; x_uncommitted := x_uncommitted x; x_steps := x_steps x;
     x_ledger := x_ledger x; x_db := x_db x |}.

Section Run.
Context (steps : list PlanStep) (lock_timeout_ms : Z).

(** The exclusive step's lock did not come. *)
Definition lock_did_not_come (o : Z) (ev : ExecEvent) (x : Exec) : ExecResult :=
  let x := roll_back_group (xe_rollback_written ev) x in
  if xe_stop_after ev then XCancelled x
  else if lock_timeout_ms * kExclusivePatienceFactor <=? xe_now_ms ev - x_group_began x
  then XThrew false (record_step (xe_record_written ev) o "lock_not_acquired" x)
  else
    let first := match steps !! x_group_first x with Some s => ps_ordinal s | None => 0 end in
    XGoing (try_group_again (forget_steps_from first x)).

(** [run_in_transaction] or [run_copy] on the open group. *)
Definition step_in_group (step : PlanStep) (ev : ExecEvent) (x : Exec) : ExecResult :=
  let o := ps_ordinal step in
  let x := open_group (xe_opened_ms ev) x in
  match xe_ran ev with
  | RanOk => XGoing (next (work_in_group (xe_record_written ev) o x))
  | RanLockTimeout =>
      if ps_exclusive_retry step then lock_did_not_come o ev x
      else XThrew false (record_step (xe_record_written ev) o "lock_not_acquired" x)
  | RanFailed canceled => XThrew canceled (record_step (xe_record_written ev) o "failed" x)
  | RanThrew | RanCancelled => XThrew false x
  end.

(** [run_backfill] and [run_nontransactional], outside any group. *)
Definition step_alone (step : PlanStep) (ev : ExecEvent) (x : Exec) : ExecResult :=
  let o := ps_ordinal step in
  match xe_ran ev with
  | RanOk => XGoing (next (work_alone (xe_record_written ev) o x))
  | RanLockTimeout => XThrew false (record_step (xe_record_written ev) o "failed" x)
  | RanFailed canceled => XThrew canceled (record_step (xe_record_written ev) o "failed" x)
  | RanThrew => XThrew false x
  | RanCancelled =>
      if String.eqb (ps_class step) "own_txn_per_batch" then XCancelled x else XThrew false x
  end.

(** [verify_index_valid]: a read in a transaction of its own, which a group still
    open refuses; an index that is not valid is a failure. *)
Definition step_verify (step : PlanStep) (ev : ExecEvent) (x : Exec) : ExecResult :=
  let o := ps_ordinal step in
  if String.eqb (index_name_for steps o).2 "" then XGoing (next (record_step (xe_record_written ev) o "succeeded" x))
  else
    match x_open x with
    | Some _ => XThrew false x
    | None =>
        match xe_ran ev with
        | RanOk => XGoing (next (record_step (xe_record_written ev) o "succeeded" x))
        | RanFailed canceled => XThrew canceled (record_step (xe_record_written ev) o "failed" x)
        | _ => XThrew false x
        end
    end.

Definition needs_own (step : PlanStep) : bool :=
  String.eqb (ps_class step) "txn_forbidden" || String.eqb (ps_class step) "own_txn_per_batch".

(** [group != current_group || needs_own]. *)
Definition changes_group (step : PlanStep) (x : Exec) : bool :=
  negb (ps_group step =? x_current_group x) || needs_own step.

Definition closes_group (step : PlanStep) (x : Exec) : bool :=
  match x_open x with Some _ => changes_group step x | None => false end.

(** The open group committed where it ends, and the step's group the current one. *)
Definition enter_group (step : PlanStep) (x : Exec) : Exec :=
  let y := if closes_group step x then commit_group x else x in
  if changes_group step x then set_group (ps_group step) y else y.

(** One turn of the loop. *)
Definition exec_step (x : Exec) (ev : ExecEvent) : ExecResult :=
  match steps !! x_at x with
  | None =>
      match x_open x with
      | None => XSucceeded x
      | Some _ => if xe_commit_ok ev then XSucceeded (commit_group x) else XThrew false x
      end
  | Some step =>
      if xe_stop ev then
        XCancelled (match x_open x with Some _ => roll_back_group (xe_rollback_written ev) x | None => x end)
      else if String.eqb (ps_action step) "satisfied" then
        XGoing (next (record_step (xe_record_written ev) (ps_ordinal step) "skipped_satisfied" x))
      else if negb (String.eqb (ps_action step) "apply") then XGoing (next x)
      else
        let x := begin_step (xe_begin_written ev) (ps_ordinal step) x in
        if closes_group step x && negb (xe_commit_ok ev) then XThrew false x
        else
          let x := enter_group step x in
          if needs_own step then step_alone step ev x
          else if String.eqb (ps_kind step) "verify_index_valid" then step_verify step ev x
          else step_in_group step ev x
  end.

(** The loop over the events of a run; one that uses them up has died. *)
Fixpoint execute (x : Exec) (evs : list ExecEvent) : ExecResult :=
  match evs with
  | [] => XGoing x
  | ev :: evs' =>
      match exec_step x ev with
      | XGoing x' => execute x' evs'
      | r => r
      end
  end.

End Run.

(** ** How a job ends *)

(** What other sessions can see, in the order it is written. *)
Inductive Publication : Type :=
  | LedgerFinished (s : JobState)
  | StatePublished (s : JobState).

(** [finish_job]: steps still running are cancelled or failed with the job. *)
Definition finish_job (s : JobState) (x : Exec) : Exec :=
  {| x_at := x_at x; x_current_group := x_current_group x; x_open := x_open x;
     x_group_first := x_group_first x; x_group_attempt := x_group_attempt x;
     x_group_began := x_group_began x; x_uncommitted := x_uncommitted x; x_steps := x_steps x;
     x_ledger := (fun st => if String.eqb st "running"
                            then (if bool_decide (s = kCancelled) then "cancelled" else "failed")
                            else st) <$> x_ledger x;
     x_db := x_db x |}.

(** [succeed], [cancelled] and [fail]: the ledger first, then the state. *)
Definition succeed : list Publication := [LedgerFinished kSucceeded; StatePublished kSucceeded].
Definition cancelled : list Publication := [LedgerFinished kCancelled; StatePublished kCancelled].
Definition fail (state : JobState) : list Publication :=
  let ending := if bool_decide (state = kAbortedContention) then kAbortedContention else kFailed in
  [LedgerFinished ending; StatePublished ending].

(** [run]: what is left, what was published and the state it ends in. [state] is
    the job's when an exception arrives; the three flags are read in the handler.
    The ledger's [finish_job] is taken to get through: where it throws the job has
    no terminal state. *)
Record StopFlags : Type := {
  sf_stop_now : bool;
  sf_cancel_stop : bool;
  sf_cancel_requested : bool;
  sf_rollback_written : bool;  (* whether [roll_back_steps] reaches the ledger *)
}.

Definition run_job (state : JobState) (flags : StopFlags) (r : ExecResult) :
  option (Exec * JobState * list Publication) :=
  match r with
  | XGoing _ => None
  | XSucceeded x => Some (finish_job kSucceeded x, kSucceeded, succeed)
  | XCancelled x => Some (finish_job kCancelled x, kCancelled, cancelled)
  | XThrew canceled x =>
      let x := roll_back_group (sf_rollback_written flags) x in
      if canceled && sf_stop_now flags && sf_cancel_stop flags && sf_cancel_requested flags
      then Some (finish_job kCancelled x, kCancelled, cancelled)
      else
        let ending := if bool_decide (state = kAbortedContention) then kAbortedContention else kFailed in
        Some (finish_job ending x, ending, fail state)
  end.

(** [wait_while_paused]: the readings of the loop, one per tick. *)
Record PauseTick : Type := { pt_paused : bool; pt_cancel_stop : bool; pt_waited_ms : Z }.

Inductive PauseResult : Type :=
  | PauseOver (state : JobState)
  | PauseAborted            (* throws, with the state already published *)
  | PauseWaiting.

Fixpoint pause_loop (max_pause_s : Z) (ticks : list PauseTick) : PauseResult :=
  match ticks with
  | [] => PauseWaiting
  | t :: ticks' =>
      if pt_paused t && negb (pt_cancel_stop t) then
        if max_pause_s * 1000 <? pt_waited_ms t then PauseAborted else pause_loop max_pause_s ticks'
      else PauseOver (if pt_cancel_stop t then kPausedContention else kRunning)
  end.

Definition wait_while_paused (max_pause_s : Z) (paused_now : bool) (state : JobState)
    (ticks : list PauseTick) : PauseResult :=
  if negb paused_now then
    PauseOver (if bool_decide (state = kPausedContention) then kRunning else state)
  else pause_loop max_pause_s ticks.

(** What an aborted pause and the handler after it publish. *)
Definition abort_publications : list Publication := StatePublished kAbortedContention :: fail kAbortedContention.

(** [operation_slot]: the readings of its loop. [None]: still waiting. *)
Record SlotTry : Type := { st_got : bool; st_limit : Z; st_stop : bool }.

Fixpoint slot_loop (tries : list SlotTry) : option bool :=
  match tries with
  | [] => None
  | t :: tries' =>
      if st_got t then Some true
      else if st_limit t <=? 0 then Some false
      else if st_stop t then Some false
      else slot_loop tries'
  end.

Definition operation_slot (limit0 : option Z) (tries : list SlotTry) : option bool :=
  match limit0 with
  | None => Some false
  | Some l => if l <=? 0 then Some false else slot_loop tries
  end.
