(* ===== verification/ExecutorFacts.v ===== *)
(** * ExecutorFacts: what a run of a plan guarantees

    In every state a run can reach, and however it ends: what is committed is
    the work of a prefix of the plan that does not cut a transaction group in
    two, and a step the ledger calls succeeded is one whose work was kept. *)
From S2P Require Import Prelude Jobs Executor.

Section Facts.
Context (steps : list PlanStep) (lock_timeout_ms : Z).

Notation step_at i s := (steps !! (i : nat) = Some s).

Definition applies (s : PlanStep) : bool := String.eqb (ps_action s) "apply".
Definition verifies (s : PlanStep) : bool := String.eqb (ps_kind s) "verify_index_valid".

(** A step that changes the database, and one that does it in a group. *)
Definition works (s : PlanStep) : bool := applies s && (needs_own s || negb (verifies s)).
Definition grouped (s : PlanStep) : bool := works s && negb (needs_own s).

Definition work (l : list PlanStep) : list Z := ps_ordinal <$> List.filter works l.

(** The steps from [i] up to [b] all belong to the group of step [i]. *)
Definition together (i b : nat) (g : Z) : Prop :=
  forall k s, (i <= k < b)%nat -> step_at k s -> applies s = true ->
    needs_own s = false /\ ps_group s = g.

(** [b] cuts a transaction group in two. *)
Definition splits (b : nat) : Prop :=
  exists i j si sj, (i < b <= j)%nat /\ step_at i si /\ step_at j sj
    /\ grouped si = true /\ grouped sj = true /\ together i (S j) (ps_group si).

(** Step [i] works in a group the run is still in at [at_]. *)
Definition pending (i at_ : nat) (g : Z) : Prop :=
  exists si, (i < at_)%nat /\ step_at i si /\ grouped si = true /\ ps_group si = g
    /\ together i at_ g.

(** Where the committed part of the plan ends. *)
Definition boundary (x : Exec) : nat := match x_open x with Some _ => x_group_first x | None => x_at x end.

Record shape (x : Exec) : Prop := {
  sh_db : x_db x = work (take (boundary x) steps);
  sh_all : x_db x ++ x_uncommitted x = work (take (x_at x) steps);
  sh_open : default [] (x_open x) = x_uncommitted x;
  sh_first : (boundary x <= x_at x)%nat;
  sh_split : ~ splits (boundary x);
  sh_current : is_Some (x_open x) -> forall i g, pending i (x_at x) g -> g = x_current_group x;
  sh_pending : is_Some (x_open x) -> exists i g, pending i (x_at x) g;
}.

Lemma work_snoc at_ s :
  step_at at_ s ->
  work (take (S at_) steps) = work (take at_ steps) ++ (if works s then [ps_ordinal s] else []).
Proof.
  intros Hs. rewrite (take_S_r _ _ s) by done. unfold work. rewrite List.filter_app, fmap_app.
  f_equal. simpl. by destruct (works s).
Qed.

Lemma grouped_applies s : grouped s = true -> applies s = true.
Proof. unfold grouped, works. intros H. by bool_prop. Qed.

Lemma grouped_not_own s : grouped s = true -> needs_own s = false.
Proof. unfold grouped. intros H. by bool_prop. Qed.

Lemma splits_pending b : splits b -> exists i g, pending i b g.
Proof.
  intros (i & j & si & sj & Hij & Hi & Hj & Gi & Gj & Ht). exists i, (ps_group si), si.
  repeat split; try done; try lia; apply (Ht k s); done || lia.
Qed.

(** A cut after a step is a cut before it, unless the step itself is before the cut. *)
Lemma splits_S at_ s :
  step_at at_ s -> grouped s = false -> splits (S at_) -> splits at_.
Proof.
  intros Hs Hg (i & j & si & sj & Hij & Hi & Hj & Gi & Gj & Ht).
  destruct (decide (i = at_)) as [->|Hne]; [congruence|].
  exists i, j, si, sj. repeat split; try done; try lia; apply (Ht k s0); done.
Qed.

Lemma splits_own at_ s :
  step_at at_ s -> applies s = true -> needs_own s = true -> ~ splits (S at_).
Proof.
  intros Hs Ha Ho (i & j & si & sj & Hij & Hi & Hj & Gi & Gj & Ht).
  destruct (Ht at_ s) as [H _]; [lia|done|done|congruence].
Qed.

Lemma splits_change at_ s g :
  step_at at_ s -> applies s = true ->
  (forall i g', pending i at_ g' -> g' = g) ->
  ps_group s <> g \/ needs_own s = true -> ~ splits at_.
Proof.
  intros Hs Ha Hp Hch Hsp. pose proof Hsp as (i & j & si & sj & Hij & Hi & Hj & Gi & Gj & Ht).
  destruct (Ht at_ s) as [Ho Hg]; [lia|done|done|].
  destruct Hch as [Hch|Hch]; [|congruence]. apply Hch. rewrite Hg. apply (Hp i). exists si.
  repeat split; try done; try lia; apply (Ht k s0); done || lia.
Qed.

Lemma pending_S_skip i at_ s g :
  step_at at_ s -> applies s = false -> pending i (S at_) g <-> pending i at_ g.
Proof.
  intros Hs Ha. split.
  - intros (si & Hlt & Hi & Gi & Hg & Ht). destruct (decide (i = at_)) as [->|Hne].
    { apply grouped_applies in Gi. congruence. }
    exists si. repeat split; try done; try lia; apply (Ht k s0); done || lia.
  - intros (si & Hlt & Hi & Gi & Hg & Ht). exists si. repeat split; try done; try lia;
      (destruct (decide (k = at_)) as [->|]; [congruence|apply (Ht k s0); done || lia]).
Qed.

Lemma pending_S_group i at_ s g :
  step_at at_ s -> applies s = true -> pending i (S at_) g -> g = ps_group s.
Proof. intros Hs Ha (si & Hlt & Hi & Gi & Hg & Ht). symmetry. apply (Ht at_ s); done || lia. Qed.

Lemma pending_S_keep i at_ s g :
  step_at at_ s -> needs_own s = false -> ps_group s = g -> pending i at_ g -> pending i (S at_) g.
Proof.
  intros Hs Ho Hg (si & Hlt & Hi & Gi & Hgi & Ht). exists si.
  repeat split; try done; try lia;
    (destruct (decide (k = at_)) as [->|]; [congruence|apply (Ht k s0); done || lia]).
Qed.

Lemma pending_here at_ s :
  step_at at_ s -> grouped s = true -> pending at_ (S at_) (ps_group s).
Proof.
  intros Hs Gs. exists s. repeat split; try done; try lia;
    (assert (k = at_) as -> by lia; simplify_eq; auto using grouped_not_own).
Qed.

(** What is committed is the work of a prefix that cuts no group. *)
Definition whole_groups (x : Exec) : Prop :=
  exists b, x_db x = work (take b steps) /\ ~ splits b.

Lemma shape_whole x : shape x -> whole_groups x.
Proof. intros [H1 H2 H3 H4 H5 H6 H7]. by exists (boundary x). Qed.

Definition shape_result (r : ExecResult) : Prop :=
  match r with
  | XGoing x => shape x
  | XSucceeded x => x_db x = work steps
  | XCancelled x | XThrew _ x => whole_groups x
  end.

(** Records and the ledger do not enter into the shape. *)
Lemma shape_ext x y :
  x_at y = x_at x -> x_current_group y = x_current_group x -> x_open y = x_open x ->
  x_group_first y = x_group_first x -> x_uncommitted y = x_uncommitted x -> x_db y = x_db x ->
  shape x -> shape y.
Proof.
  intros E1 E2 E3 E4 E5 E6 [H1 H2 H3 H4 H5 H6 H7].
  assert (Eb : boundary y = boundary x) by (unfold boundary; by rewrite E3, E1, E4).
  constructor; rewrite ?Eb, ?E1, ?E2, ?E3, ?E5, ?E6; done.
Qed.

Lemma shape_record x b o st : shape x -> shape (record_step b o st x).
Proof. by apply shape_ext. Qed.

Lemma shape_begin x b o : shape x -> shape (begin_step b o x).
Proof. by apply shape_ext. Qed.

Lemma shape_commit x s :
  shape x -> step_at (x_at x) s -> applies s = true -> is_Some (x_open x) ->
  ps_group s <> x_current_group x \/ needs_own s = true ->
  shape (commit_group x).
Proof.
  intros [H1 H2 H3 H4 H5 H6 H7] Hs Ha Ho Hch.
  constructor; simpl; unfold boundary; simpl; try (by intros []); rewrite ?app_nil_r, ?H3; auto.
  by eapply splits_change; eauto.
Qed.

Lemma shape_set_group x g : shape x -> x_open x = None -> shape (set_group g x).
Proof.
  intros [H1 H2 H3 H4 H5 H6 H7] Ho. unfold boundary in *. rewrite Ho in *.
  constructor; unfold boundary; simpl; rewrite ?Ho; try done; by intros [].
Qed.

(** A step that does not apply, or only looks. *)
Lemma shape_next_idle x s :
  shape x -> step_at (x_at x) s -> works s = false ->
  (applies s = true -> needs_own s = false /\ (is_Some (x_open x) -> ps_group s = x_current_group x)) ->
  shape (next x).
Proof.
  intros [H1 H2 H3 H4 H5 H6 H7] Hs Hw Ha.
  assert (Hg : grouped s = false) by (unfold grouped; by rewrite Hw).
  assert (Hwork : work (take (S (x_at x)) steps) = work (take (x_at x) steps)).
  { rewrite (work_snoc _ s) by done. by rewrite Hw, app_nil_r. }
  unfold boundary in *. constructor; unfold boundary; simpl; rewrite ?Hwork; try done.
  - destruct (x_open x); [done|]. by rewrite Hwork.
  - destruct (x_open x); lia.
  - destruct (x_open x); [done|]. intros Hsp. by apply H5, (splits_S _ s).
  - intros Ho i g Hp. destruct (applies s) eqn:E.
    + destruct (Ha eq_refl) as [_ Hc]. rewrite <- (Hc Ho). by eapply pending_S_group.
    + apply (H6 Ho i). by apply (pending_S_skip _ _ s).
  - intros Ho. destruct (H7 Ho) as (i & g & Hp). exists i, g. destruct (applies s) eqn:E.
    + destruct (Ha eq_refl) as [Hn Hc]. apply (pending_S_keep _ _ s); try done.
      rewrite (Hc Ho). symmetry. by apply (H6 Ho i).
    + by apply (pending_S_skip _ _ s).
Qed.

Lemma shape_alone x b s :
  shape x -> step_at (x_at x) s -> applies s = true -> needs_own s = true -> x_open x = None ->
  shape (next (work_alone b (ps_ordinal s) x)).
Proof.
  intros [H1 H2 H3 H4 H5 H6 H7] Hs Ha Hn Ho. unfold boundary in *. rewrite Ho in *. simpl in H3.
  assert (Hw : works s = true) by (unfold works; by rewrite Ha, Hn).
  constructor; unfold boundary; simpl; rewrite ?Ho; simpl; try done; try (by intros []).
  - by rewrite (work_snoc _ s), Hw, H1.
  - rewrite <- H3, app_nil_r, (work_snoc _ s), Hw by done. by rewrite H1.
  - by eapply splits_own.
Qed.

(** The group a step works in, opened if it was not. *)
Lemma open_group_boundary x ms :
  shape x ->
  let y := open_group ms x in
  is_Some (x_open y) /\ x_at y = x_at x /\ x_db y = x_db x /\ x_uncommitted y = x_uncommitted x
  /\ default [] (x_open y) = x_uncommitted x /\ x_current_group y = x_current_group x
  /\ x_group_first y = boundary x.
Proof.
  intros [H1 H2 H3 H4 H5 H6 H7]. unfold open_group, boundary in *. destruct (x_open x) eqn:Ho; simpl in *.
  - rewrite Ho. by eauto 10.
  - split; [by eexists|]. repeat split; try done.
    destruct (Nat.eqb_spec (x_group_first x) (x_at x)) as [->|]; simpl; [by destruct (_ =? _)|done].
Qed.

Lemma shape_grouped x b s ms :
  shape x -> step_at (x_at x) s -> grouped s = true ->
  (is_Some (x_open x) -> ps_group s = x_current_group x) -> x_current_group x = ps_group s ->
  shape (next (work_in_group b (ps_ordinal s) (open_group ms x))).
Proof.
  intros Hx Hs Gs Hc Hcur. pose proof Hx as [H1 H2 H3 H4 H5 H6 H7].
  destruct (open_group_boundary x ms Hx) as ([l Ho] & E1 & E2 & E3 & E4 & E5 & E6).
  assert (Hw : works s = true) by (unfold grouped in Gs; by bool_prop).
  set (y := open_group ms x) in *.
  assert (Hb : boundary (next (work_in_group b (ps_ordinal s) y)) = boundary x).
  { unfold boundary at 1. simpl. by rewrite Ho. }
  rewrite Ho in E4. simpl in E4. subst l.
  constructor; rewrite ?Hb; simpl; rewrite ?Ho, ?E1, ?E2, ?E3, ?E5; simpl; try done.
  - by rewrite (work_snoc _ s), Hw, app_assoc, H2.
  - lia.
  - intros _ i g Hp. rewrite Hcur. apply (pending_S_group i (x_at x)); eauto using grouped_applies.
  - intros _. exists (x_at x), (ps_group s). by apply pending_here.
Qed.

(** A group given up is one whose work is not committed. *)
Lemma opened_whole x ms : shape x -> whole_groups (open_group ms x).
Proof.
  intros Hx. pose proof Hx as [H1 H2 H3 H4 H5 H6 H7].
  destruct (open_group_boundary x ms Hx) as (_ & _ & E2 & _). exists (boundary x). by rewrite E2.
Qed.

Lemma lock_did_not_come_shape x ms o ev :
  shape x -> shape_result (lock_did_not_come steps lock_timeout_ms o ev (open_group ms x)).
Proof.
  intros Hx. pose proof (opened_whole x ms Hx) as Hw. pose proof Hx as [H1 H2 H3 H4 H5 H6 H7].
  destruct (open_group_boundary x ms Hx) as (_ & _ & E2 & _ & _ & _ & E6).
  unfold lock_did_not_come. repeat case_if; simpl; [exact Hw|exact Hw|].
  constructor; unfold boundary; simpl; rewrite ?app_nil_r, ?E2, ?E6; try done; by intros [].
Qed.

Lemma step_in_group_shape x s ev :
  shape x -> step_at (x_at x) s -> grouped s = true ->
  (is_Some (x_open x) -> ps_group s = x_current_group x) -> x_current_group x = ps_group s ->
  shape_result (step_in_group steps lock_timeout_ms s ev x).
Proof.
  intros Hx Hs Gs Hc Hcur. pose proof (opened_whole x (xe_opened_ms ev) Hx) as Hw.
  unfold step_in_group. destruct (xe_ran ev); simpl; try exact Hw; [by apply shape_grouped|].
  case_if; [by apply lock_did_not_come_shape|exact Hw].
Qed.

Lemma step_alone_shape x s ev :
  shape x -> step_at (x_at x) s -> applies s = true -> needs_own s = true -> x_open x = None ->
  shape_result (step_alone s ev x).
Proof.
  intros Hx Hs Ha Hn Ho. pose proof (shape_whole x Hx) as Hw. unfold step_alone.
  destruct (xe_ran ev); try case_if; simpl; try exact Hw. by apply shape_alone.
Qed.

Lemma step_verify_shape x s ev :
  shape x -> step_at (x_at x) s -> applies s = true -> needs_own s = false -> verifies s = true ->
  (is_Some (x_open x) -> ps_group s = x_current_group x) ->
  shape_result (step_verify steps s ev x).
Proof.
  intros Hx Hs Ha Hn Hv Hc. pose proof (shape_whole x Hx) as Hw. unfold step_verify.
  assert (Hnext : shape (next (record_step (xe_record_written ev) (ps_ordinal s) "succeeded" x))).
  { apply (shape_next_idle _ s); simpl; auto using shape_record. unfold works. by rewrite Hn, Hv, andb_false_r. }
  case_if; [exact Hnext|]. destruct (x_open x); [exact Hw|].
  destruct (xe_ran ev); simpl; try exact Hw. exact Hnext.
Qed.

(** The ordinals whose work is in the database or in the open transaction. *)
Definition kept (x : Exec) : list Z := x_db x ++ x_uncommitted x.

Lemma enter_group_shape x s :
  shape x -> step_at (x_at x) s -> applies s = true ->
  let y := enter_group s x in
  shape y /\ x_at y = x_at x /\ x_current_group y = ps_group s
  /\ (needs_own s = true -> x_open y = None) /\ kept y = kept x
  /\ x_ledger y = x_ledger x /\ x_steps y = x_steps x.
Proof.
  intros Hx Hs Ha. unfold enter_group. set (x2 := if closes_group s x then commit_group x else x).
  assert (Hx2 : shape x2 /\ x_at x2 = x_at x /\ x_current_group x2 = x_current_group x
                /\ (changes_group s x = true -> x_open x2 = None) /\ kept x2 = kept x
                /\ x_ledger x2 = x_ledger x /\ x_steps x2 = x_steps x).
  { subst x2. unfold closes_group. destruct (x_open x) as [l|] eqn:Ho; [|by rewrite Ho].
    destruct (changes_group s x) eqn:Hch; [|done].
    refine (conj _ (conj _ (conj _ (conj _ (conj _ (conj _ _)))))); try done.
    - apply (shape_commit x s); [done|done|exact Ha|by eexists|].
      apply orb_true_iff in Hch as [Hch|Hch]; [left; bool_prop; done|by right].
    - unfold kept; simpl. by rewrite (sh_open x Hx), app_nil_r. }
  destruct Hx2 as (Hx2 & Hat & Hcg & Hclosed & Hrest).
  destruct (changes_group s x) eqn:Hch.
  - refine (conj _ (conj _ (conj _ (conj _ Hrest)))); try done.
    + apply shape_set_group; auto.
    + by intros; apply Hclosed.
  - apply orb_false_iff in Hch as [Hg Hn]. bool_prop.
    refine (conj _ (conj _ (conj _ (conj _ Hrest)))); try done; congruence.
Qed.

Lemma exec_step_shape x ev :
  shape x -> shape_result (exec_step steps lock_timeout_ms x ev).
Proof.
  intros Hx. pose proof (shape_whole x Hx) as Hw. unfold exec_step.
  destruct (steps !! x_at x) as [s|] eqn:Hs.
  2:{ apply lookup_ge_None in Hs. destruct Hx as [H1 H2 H3 H4 H5 H6 H7].
      rewrite (take_ge steps (x_at x)) in H2 by done.
      destruct (x_open x) eqn:Ho; [case_if; [|exact Hw]|]; simpl in *.
      - by rewrite Ho, <- H2, H3.
      - by rewrite <- H2, <- H3, app_nil_r. }
  case_if; [by destruct (x_open x)|].
  destruct (String.eqb_spec (ps_action s) "satisfied") as [Hsat|_].
  { apply (shape_next_idle _ s); simpl; auto using shape_record;
      unfold works, applies; by rewrite Hsat. }
  destruct (applies s) eqn:Ha; unfold applies in Ha; rewrite Ha; cbn [negb].
  2:{ apply (shape_next_idle _ s); auto; unfold works, applies; by rewrite Ha. }
  apply (shape_begin _ (xe_begin_written ev) (ps_ordinal s)) in Hx. case_if; [exact Hw|].
  destruct (enter_group_shape (begin_step (xe_begin_written ev) (ps_ordinal s) x) s Hx Hs Ha) as (Hx3 & Hat3 & Hg3 & Hn3 & _).
  change (x_at (begin_step (xe_begin_written ev) (ps_ordinal s) x)) with (x_at x) in Hat3.
  set (x3 := enter_group s _) in *. rewrite <- Hat3 in Hs.
  destruct (needs_own s) eqn:Hn; [apply step_alone_shape; auto|].
  change (String.eqb (ps_kind s) "verify_index_valid") with (verifies s).
  destruct (verifies s) eqn:Hv; [by apply step_verify_shape|].
  apply step_in_group_shape; auto. unfold grouped, works, applies. by rewrite Ha, Hn, Hv.
Qed.

Lemma execute_shape evs x : shape x -> shape_result (execute steps lock_timeout_ms x evs).
Proof.
  revert x; induction evs as [|ev evs IH]; intros x Hx; simpl; [done|].
  pose proof (exec_step_shape x ev Hx) as H. destruct (exec_step steps lock_timeout_ms x ev); auto.
Qed.

Lemma exec_start_shape : shape exec_start.
Proof.
  constructor; simpl; try done; try (by intros []).
  unfold boundary; simpl. intros (i & j & si & sj & Hij & _). lia.
Qed.

(** ** The record *)
Context (Hnd : NoDup (ps_ordinal <$> steps)).
(** Whether every record of a step, and every mark of a rollback, reached the ledger. *)
Context (records rollbacks : bool).

Record truth (x : Exec) : Prop := {
  tr_nodup : NoDup (kept x);
  tr_kept o : records = true -> o ∈ kept x -> x_ledger x !! o = Some "succeeded";
  tr_ledger s : rollbacks = true -> s ∈ steps -> works s = true -> x_ledger x !! ps_ordinal s = Some "succeeded" ->
    ps_ordinal s ∈ kept x;
  tr_steps s : s ∈ steps -> works s = true -> (ps_ordinal s, "succeeded") ∈ x_steps x ->
    ps_ordinal s ∈ kept x;
}.

Lemma truth_ext x y :
  kept y = kept x -> x_ledger y = x_ledger x -> x_steps y = x_steps x -> truth x -> truth y.
Proof. intros E1 E2 E3 [T1 T2 T3 T4]. constructor; rewrite ?E1, ?E2, ?E3; done. Qed.

Lemma ordinal_inj s1 s2 : s1 ∈ steps -> s2 ∈ steps -> ps_ordinal s1 = ps_ordinal s2 -> s1 = s2.
Proof using Hnd.
  intros [i Hi]%list_elem_of_lookup [j Hj]%list_elem_of_lookup He.
  assert (i = j) as ->; [|congruence].
  eapply (NoDup_lookup _ i j (ps_ordinal s1) Hnd); rewrite list_lookup_fmap;
    [by rewrite Hi|by rewrite Hj, He].
Qed.

(** The step at hand has not been done. *)
Lemma shape_fresh x s : shape x -> step_at (x_at x) s -> ps_ordinal s ∉ kept x.
Proof using Hnd.
  intros Hx Hs Hin. unfold kept in Hin. rewrite (sh_all x Hx) in Hin.
  apply list_elem_of_fmap in Hin as (s' & He & Hin). apply list_elem_of_In, filter_In in Hin as [Hin _].
  apply list_elem_of_In, list_elem_of_lookup in Hin as [i Hi].
  apply lookup_take_Some in Hi as [Hi Hlt].
  assert (i = x_at x); [|lia].
  eapply (NoDup_lookup _ i (x_at x) (ps_ordinal s) Hnd); rewrite list_lookup_fmap;
    [by rewrite Hi, He|by rewrite Hs].
Qed.

Lemma truth_put x y b o st :
  truth x -> o ∉ kept x -> st <> "succeeded" -> kept y = kept x ->
  x_ledger y = ledger_put b o st (x_ledger x) ->
  (forall s, s ∈ steps -> works s = true -> (ps_ordinal s, "succeeded") ∈ x_steps y ->
    (ps_ordinal s, "succeeded") ∈ x_steps x) ->
  truth y.
Proof.
  intros [T1 T2 T3 T4] Hf Hst Hk Hl Hs. constructor; rewrite ?Hk, ?Hl; unfold ledger_put; auto.
  - intros o' Hr Ho'. destruct b; [|by apply T2]. rewrite lookup_insert_ne; [by apply T2|]. by intros ->.
  - intros s Hr Hin Hw. destruct b; [|by apply T3]. destruct (decide (o = ps_ordinal s)) as [->|Hne].
    + rewrite lookup_insert_eq. by intros [= He].
    + rewrite lookup_insert_ne by done. by apply T3.
Qed.

Lemma truth_record x b o st :
  truth x -> o ∉ kept x -> st <> "succeeded" -> truth (record_step b o st x).
Proof.
  intros Ht Hf Hst. apply (truth_put x _ b o st); try done. intros s _ _. simpl.
  rewrite elem_of_app, list_elem_of_singleton. by intros [Hin|[= _ He]].
Qed.

Lemma truth_begin x b o : truth x -> o ∉ kept x -> truth (begin_step b o x).
Proof. intros Ht Hf. by apply (truth_put x _ b o "running"). Qed.

(** A look is recorded as succeeded and is nobody's work. *)
Lemma truth_look x b s :
  truth x -> s ∈ steps -> works s = false -> truth (record_step b (ps_ordinal s) "succeeded" x).
Proof using Hnd.
  intros [T1 T2 T3 T4] Hin Hw. constructor; unfold kept in *; simpl; unfold ledger_put; try done.
  - intros o Hr Ho. destruct b; [|by apply T2]. destruct (decide (ps_ordinal s = o)) as [->|];
      [by rewrite lookup_insert_eq|rewrite lookup_insert_ne by done; by apply T2].
  - intros s' Hr Hs' Hw'. destruct b; [|by apply T3].
    destruct (decide (ps_ordinal s = ps_ordinal s')) as [He|Hne].
    + rewrite (ordinal_inj s s') in Hw by done. congruence.
    + rewrite lookup_insert_ne by done. by apply T3.
  - intros s' Hs' Hw'. rewrite elem_of_app, list_elem_of_singleton.
    intros [Hi|[= He]]; [by apply T4|]. rewrite (ordinal_inj s' s) in Hw' by done. congruence.
Qed.

(** Work recorded and added to what is kept. *)
Lemma truth_work x y b o :
  truth x -> o ∉ kept x -> kept y ≡ₚ o :: kept x -> (records = true -> b = true) ->
  x_ledger y = ledger_put b o "succeeded" (x_ledger x) -> x_steps y = x_steps x ++ [(o, "succeeded")] ->
  truth y.
Proof.
  intros [T1 T2 T3 T4] Hf Hk Hb Hl Hst. constructor; rewrite ?Hl, ?Hst; unfold ledger_put.
  - rewrite Hk. by constructor.
  - intros o' Hr. rewrite Hb, Hk, elem_of_cons by done. intros [->|Ho']; [by rewrite lookup_insert_eq|].
    rewrite lookup_insert_ne; [by apply T2|]. by intros ->.
  - intros s Hr Hs Hw. rewrite Hk, elem_of_cons.
    destruct (decide (o = ps_ordinal s)) as [->|Hne]; [by left|]. intros Hl'. right. apply T3; try done.
    destruct b; [|done]. by rewrite lookup_insert_ne in Hl' by done.
  - intros s Hs Hw. rewrite Hk, elem_of_cons, elem_of_app, list_elem_of_singleton.
    intros [Hin|[= ->]]; [right; by apply T4|by left].
Qed.

(** A group rolled back leaves the truth about what was committed before it. *)
Lemma truth_roll_back x b :
  (rollbacks = true -> b = true) -> truth x -> truth (roll_back_group b x).
Proof.
  intros Hb [T1 T2 T3 T4]. unfold kept in *.
  assert (Hdis : forall o, o ∈ x_db x -> o ∉ x_uncommitted x) by (apply NoDup_app in T1; naive_solver).
  constructor; unfold kept; simpl; rewrite ?app_nil_r.
  - by apply NoDup_app in T1 as [T1 _].
  - intros o Hr Ho. destruct b; [|apply T2; set_solver].
    rewrite map_lookup_imap, (T2 o) by set_solver. simpl. unfold mark_rolled_back; simpl.
    by rewrite bool_decide_eq_false_2 by auto.
  - intros s Hr Hs Hw. rewrite Hb, map_lookup_imap by done.
    destruct (x_ledger x !! ps_ordinal s) as [st|] eqn:E; [|done].
    simpl. unfold mark_rolled_back; simpl.
    destruct (String.eqb_spec st "succeeded") as [->|]; simpl; [|congruence].
    case_bool_decide as Hu; [done|]. intros _. specialize (T3 s Hr Hs Hw E). set_solver.
  - intros s Hs Hw Hin. apply list_elem_of_fmap in Hin as ([o st] & He & Hin).
    unfold mark_rolled_back in He; simpl in He.
    destruct (String.eqb st "succeeded" && bool_decide (o ∈ x_uncommitted x)) eqn:E; [discriminate He|].
    injection He as <- <-. rewrite String.eqb_refl in E. simpl in E.
    apply bool_decide_eq_false in E. specialize (T4 s Hs Hw Hin). set_solver.
Qed.

Lemma truth_forget x n : truth x -> truth (forget_steps_from n x).
Proof.
  intros [T1 T2 T3 T4]. constructor; unfold kept in *; simpl; try done.
  intros s Hs Hw Hin. apply T4; try done. apply list_elem_of_In, filter_In in Hin as [Hin _].
  by apply list_elem_of_In.
Qed.

(** The turn's writes get through where all are said to. *)
Definition writes_kept (ev : ExecEvent) : Prop :=
  (records = true -> xe_record_written ev = true) /\ (rollbacks = true -> xe_rollback_written ev = true).

Definition truth_result (r : ExecResult) : Prop :=
  match r with
  | XGoing x | XThrew _ x => truth x
  | XSucceeded x | XCancelled x => truth x /\ x_uncommitted x = []
  end.

Lemma truth_open x ms : shape x -> truth x -> truth (open_group ms x).
Proof.
  intros Hx. destruct (open_group_boundary x ms Hx) as (_ & _ & E2 & E3 & _).
  apply truth_ext; [unfold kept; by rewrite E2, E3|..]; unfold open_group; by destruct (x_open x).
Qed.

Lemma open_group_kept x ms : shape x -> kept (open_group ms x) = kept x.
Proof. intros Hx. destruct (open_group_boundary x ms Hx) as (_ & _ & E2 & E3 & _). unfold kept. by rewrite E2, E3. Qed.

Lemma step_in_group_truth x s ev :
  shape x -> truth x -> writes_kept ev -> ps_ordinal s ∉ kept x ->
  truth_result (step_in_group steps lock_timeout_ms s ev x).
Proof.
  intros Hx Ht [Hwr Hwb] Hf. pose proof (truth_open x (xe_opened_ms ev) Hx Ht) as Ho.
  rewrite <- (open_group_kept x (xe_opened_ms ev)) in Hf by done.
  unfold step_in_group. set (y := open_group (xe_opened_ms ev) x) in *.
  destruct (xe_ran ev); simpl; try done; try (by apply truth_record).
  - apply (truth_work y _ (xe_record_written ev) (ps_ordinal s)); try done. unfold kept; simpl.
    rewrite app_assoc. by rewrite Permutation_app_comm.
  - case_if; [|by apply truth_record]. unfold lock_did_not_come.
    apply (truth_roll_back _ _ Hwb) in Ho. repeat case_if; simpl;
      [done| |eapply truth_ext; [..|eapply truth_forget, Ho]; done].
    apply truth_record; try done. unfold kept in *; simpl. rewrite app_nil_r. set_solver.
Qed.

Lemma step_alone_truth x s ev :
  shape x -> truth x -> writes_kept ev -> ps_ordinal s ∉ kept x -> x_open x = None ->
  truth_result (step_alone s ev x).
Proof.
  intros Hx Ht [Hwr _] Hf Ho. assert (Hu : x_uncommitted x = []) by (rewrite <- (sh_open x Hx); by rewrite Ho).
  unfold step_alone. destruct (xe_ran ev); try case_if; simpl; try done; try (by apply truth_record).
  apply (truth_work x _ (xe_record_written ev) (ps_ordinal s)); try done. unfold kept; simpl. rewrite Hu, !app_nil_r.
  by rewrite Permutation_app_comm.
Qed.

Lemma step_verify_truth x s ev :
  truth x -> s ∈ steps -> works s = false -> ps_ordinal s ∉ kept x ->
  truth_result (step_verify steps s ev x).
Proof using Hnd.
  intros Ht Hin Hw Hf. unfold step_verify.
  assert (Hl : truth (next (record_step (xe_record_written ev) (ps_ordinal s) "succeeded" x)))
    by (eapply truth_ext; [..|by apply (truth_look x (xe_record_written ev) s)]; done).
  case_if; [exact Hl|].
  destruct (x_open x); [done|]. destruct (xe_ran ev); simpl; try done; by apply truth_record.
Qed.

Lemma commit_group_kept x : shape x -> kept (commit_group x) = kept x.
Proof. intros Hx. unfold kept; simpl. by rewrite (sh_open x Hx), app_nil_r. Qed.

Lemma exec_step_truth x ev :
  shape x -> truth x -> writes_kept ev -> truth_result (exec_step steps lock_timeout_ms x ev).
Proof using Hnd.
  intros Hx Ht Hev. unfold exec_step. destruct (steps !! x_at x) as [s|] eqn:Hs.
  2:{ destruct (x_open x) eqn:Ho; [case_if; [|exact Ht]|]; simpl.
      - split; [|done]. eapply truth_ext; [by apply commit_group_kept|done|done|done].
      - split; [done|]. rewrite <- (sh_open x Hx). by rewrite Ho. }
  pose proof (shape_fresh x s Hx Hs) as Hf.
  assert (Hin : s ∈ steps) by (by eapply list_elem_of_lookup_2).
  case_if.
  { destruct (x_open x) eqn:Ho; simpl; [split; [apply truth_roll_back; [by apply Hev|done]|done]|].
    split; [done|]. rewrite <- (sh_open x Hx). by rewrite Ho. }
  destruct (String.eqb (ps_action s) "satisfied"); [by eapply truth_ext; [..|apply truth_record]|].
  destruct (applies s) eqn:Ha; unfold applies in Ha; rewrite Ha; cbn [negb];
    [|by eapply truth_ext; [..|exact Ht]].
  pose proof (truth_begin x (xe_begin_written ev) (ps_ordinal s) Ht Hf) as Hb. case_if; [exact Hb|].
  destruct (enter_group_shape (begin_step (xe_begin_written ev) (ps_ordinal s) x) s (shape_begin x _ _ Hx) Hs Ha)
    as (Hx3 & Hat & Hg & Hn & Hk & Hl & Hst).
  assert (Ht3 : truth (enter_group s (begin_step (xe_begin_written ev) (ps_ordinal s) x)))
    by (eapply truth_ext; [exact Hk|exact Hl|exact Hst|exact Hb]).
  change (kept (begin_step (xe_begin_written ev) (ps_ordinal s) x)) with (kept x) in Hk.
  rewrite <- Hk in Hf. destruct (needs_own s) eqn:Hno; [apply step_alone_truth; auto|].
  change (String.eqb (ps_kind s) "verify_index_valid") with (verifies s).
  destruct (verifies s) eqn:Hv; [|by apply step_in_group_truth].
  apply step_verify_truth; auto. unfold works. by rewrite Hno, Hv, andb_false_r.
Qed.

Lemma execute_truth evs x :
  shape x -> truth x -> Forall writes_kept evs -> truth_result (execute steps lock_timeout_ms x evs).
Proof using Hnd.
  revert x; induction evs as [|ev evs IH]; intros x Hx Ht Hw; simpl; [done|].
  apply Forall_cons in Hw as [Hev Hevs].
  pose proof (exec_step_shape x ev Hx) as H1. pose proof (exec_step_truth x ev Hx Ht Hev) as H2.
  destruct (exec_step steps lock_timeout_ms x ev); auto.
Qed.

Lemma exec_start_truth : truth exec_start.
Proof. constructor; unfold kept; simpl; try done; [constructor|set_solver|set_solver]. Qed.

(** ** Progress *)

(** Nothing stops the run and every step and commit succeeds. *)
Definition calm_event (ev : ExecEvent) : bool :=
  negb (xe_stop ev) && xe_commit_ok ev && match xe_ran ev with RanOk => true | _ => false end.

(** No step that looks at an index comes in the middle of a group. *)
Definition verify_apart : Prop :=
  forall k s i, step_at k s -> applies s = true -> verifies s = true -> needs_own s = false ->
    (index_name_for steps (ps_ordinal s)).2 <> "" -> ~ pending i k (ps_group s).

Lemma enter_group_open x s :
  is_Some (x_open (enter_group s x)) -> is_Some (x_open x) /\ ps_group s = x_current_group x.
Proof.
  unfold enter_group, closes_group. intros H. destruct (x_open x) as [l|] eqn:Ho.
  - split; [by eexists|]. unfold changes_group in *.
    destruct (Z.eqb_spec (ps_group s) (x_current_group x)); [done|]. simpl in H. by destruct H.
  - destruct (changes_group s x); simpl in H; rewrite Ho in H; by destruct H.
Qed.

Lemma exec_step_calm x ev s :
  shape x -> step_at (x_at x) s -> calm_event ev = true -> verify_apart ->
  exists y, exec_step steps lock_timeout_ms x ev = XGoing y /\ x_at y = S (x_at x).
Proof.
  intros Hx Hs Hc Hap. unfold calm_event in Hc. bool_prop. unfold exec_step. rewrite Hs.
  destruct (xe_stop ev); [done|]. destruct (xe_commit_ok ev); [|done].
  destruct (xe_ran ev) eqn:Hr; try done.
  destruct (String.eqb (ps_action s) "satisfied"); [by eexists|].
  destruct (applies s) eqn:Ha; unfold applies in Ha; rewrite Ha; cbn [negb]; [|by eexists].
  rewrite andb_false_r.
  destruct (enter_group_shape (begin_step (xe_begin_written ev) (ps_ordinal s) x) s (shape_begin x _ _ Hx) Hs Ha)
    as (Hx3 & Hat & Hg & _). pose proof (enter_group_open (begin_step (xe_begin_written ev) (ps_ordinal s) x) s) as Hopen.
  set (x3 := enter_group s _) in *. change (x_at (begin_step (xe_begin_written ev) (ps_ordinal s) x)) with (x_at x) in Hat.
  destruct (needs_own s) eqn:Hn; [unfold step_alone; rewrite Hr; eexists; split; [done|simpl; by rewrite Hat]|].
  change (String.eqb (ps_kind s) "verify_index_valid") with (verifies s). destruct (verifies s) eqn:Hv.
  - unfold step_verify. destruct (String.eqb_spec (index_name_for steps (ps_ordinal s)).2 "").
    { eexists. split; [done|simpl; by rewrite Hat]. }
    destruct (x_open x3) eqn:Ho; [|rewrite Hr; eexists; split; [done|simpl; by rewrite Hat]].
    exfalso. destruct Hopen as [Hox Hgx]; [by eexists|].
    destruct (sh_pending x Hx Hox) as (i & g & Hp). pose proof (sh_current x Hx Hox i g Hp) as ->.
    simpl in Hgx. rewrite <- Hgx in Hp. by apply (Hap (x_at x) s i).
  - unfold step_in_group. rewrite Hr. eexists. split; [done|]. simpl.
    destruct (open_group_boundary x3 (xe_opened_ms ev) Hx3) as (_ & E1 & _). by rewrite E1, Hat.
Qed.

Lemma execute_calm evs x :
  shape x -> verify_apart -> forallb calm_event evs = true ->
  (length steps - x_at x < length evs)%nat ->
  exists y, execute steps lock_timeout_ms x evs = XSucceeded y.
Proof.
  revert x; induction evs as [|ev evs IH]; intros x Hx Hap Hc Hl; simpl in *; [lia|].
  apply andb_true_iff in Hc as [Hc Hcs]. destruct (steps !! x_at x) as [s|] eqn:Hs.
  - destruct (exec_step_calm x ev s Hx Hs Hc Hap) as (y & Hy & Hat). rewrite Hy.
    pose proof (exec_step_shape x ev Hx) as Hxy. rewrite Hy in Hxy.
    apply lookup_lt_Some in Hs. apply IH; try done. lia.
  - unfold exec_step. rewrite Hs. unfold calm_event in Hc. bool_prop.
    destruct (x_open x); [|by eexists]. destruct (xe_commit_ok ev); [by eexists|done].
Qed.
End Facts.

(** The state a run is left in, whether it ended or died. *)
Definition left_by (r : ExecResult) : Exec :=
  match r with XGoing x | XSucceeded x | XCancelled x | XThrew _ x => x end.

(** C26: Transaction groups are atomic. Whatever the plan and whatever happens to
    the run (steps failing, locks not coming and the group tried again, a cancel,
    a commit refused, the process dying), what is committed is the work of the
    first steps of the plan up to a point that does not lie inside a transaction
    group; and a run that succeeds has committed the work of all of them. *)
Theorem groups_commit_whole steps lock_timeout_ms evs :
  let r := execute steps lock_timeout_ms exec_start evs in
  whole_groups steps (left_by r) /\ forall x, r = XSucceeded x -> x_db x = work steps.
Proof.
  intros r. pose proof (execute_shape steps lock_timeout_ms evs _ (exec_start_shape steps)) as H.
  fold r in H. destruct r as [x|x|x|c x]; simpl in *; split; try done.
  - by apply shape_whole.
  - exists (length steps). rewrite firstn_all. split; [done|].
    intros (i & j & si & sj & Hij & _ & Hj & _). apply lookup_lt_Some in Hj. lia.
  - by intros y [= <-].
Qed.

(** C24: What is recorded as succeeded was kept. In a plan whose ordinals are
    distinct, when a job has ended, in whatever state, the job's own record calls no
    step succeeded that changes the database and whose work was not committed. The
    ledger's writes on the coordination connection can fail, and then the job goes
    on: where every mark of a rollback got through, a step the ledger has as
    succeeded is committed, and where every record of a step did, a committed step
    is there as succeeded. [lost_mark_leaves_succeeded] shows the first is needed. *)
Theorem succeeded_steps_are_committed steps lock_timeout_ms evs state flags x st pubs :
  NoDup (ps_ordinal <$> steps) ->
  run_job state flags (execute steps lock_timeout_ms exec_start evs) = Some (x, st, pubs) ->
  forall s, s ∈ steps -> works s = true ->
    ((ps_ordinal s, "succeeded") ∈ x_steps x -> ps_ordinal s ∈ x_db x)
    /\ (forallb xe_rollback_written evs = true -> sf_rollback_written flags = true ->
        x_ledger x !! ps_ordinal s = Some "succeeded" -> ps_ordinal s ∈ x_db x)
    /\ (forallb xe_record_written evs = true ->
        ps_ordinal s ∈ x_db x -> x_ledger x !! ps_ordinal s = Some "succeeded").
Proof.
  intros Hnd Hrun s Hs Hw.
  set (records := forallb xe_record_written evs).
  set (rollbacks := forallb xe_rollback_written evs && sf_rollback_written flags).
  assert (Hevs : Forall (writes_kept records rollbacks) evs).
  { apply Forall_forall. intros ev Hev. apply list_elem_of_In in Hev. unfold records, rollbacks. split; intros H; bool_prop.
    - by apply (proj1 (forallb_forall _ _) H).
    - by apply (proj1 (forallb_forall _ _) H). }
  pose proof (execute_truth steps lock_timeout_ms Hnd records rollbacks evs _ (exec_start_shape steps)
    (exec_start_truth steps Hnd records rollbacks) Hevs) as H.
  assert (Hfin : exists y s', x = finish_job s' y /\ truth steps records rollbacks y /\ x_uncommitted y = []).
  { destruct (execute steps lock_timeout_ms exec_start evs) as [y|y|y|c y]; simpl in *; [done|..].
    - injection Hrun as <- _ _. by exists y, kSucceeded.
    - injection Hrun as <- _ _. by exists y, kCancelled.
    - assert (Hb : rollbacks = true -> sf_rollback_written flags = true)
        by (unfold rollbacks; intros H0; by bool_prop).
      pose proof (truth_roll_back steps Hnd records rollbacks y _ Hb H) as H2.
      case_if_in Hrun; injection Hrun as <- _ _; eexists (roll_back_group _ y), _; done. }
  destruct Hfin as (y & s' & -> & [T1 T2 T3 T4] & Hu). unfold kept in *. rewrite Hu, app_nil_r in *.
  split; [by apply T4|]. simpl. rewrite lookup_fmap. split.
  - intros Hr Hf Hl. apply T3; try done; [unfold rollbacks; by rewrite Hr, Hf|].
    destruct (x_ledger y !! ps_ordinal s) as [v|]; [|done].
    simpl in Hl. injection Hl as Hl. f_equal.
    destruct (String.eqb v "running"); [by destruct (bool_decide _)|done].
  - intros Hr Hin. by rewrite (T2 _ Hr Hin).
Qed.

Definition demo_step (o g : Z) (kind class : string) (retry : bool) : PlanStep :=
  {| ps_ordinal := o; ps_group := g; ps_kind := kind; ps_class := class; ps_action := "apply";
     ps_exclusive_retry := retry; ps_index := Some ("public", "i") |}.

(** An index built concurrently and looked at, then three steps in one group, the
    last of them wanting an exclusive lock. *)
Definition demo_plan : list PlanStep :=
  [demo_step 0 0 "create_index" "txn_forbidden" false;
   demo_step 1 1 "verify_index_valid" "txn_ok" false;
   demo_step 2 2 "add_column" "txn_ok" false;
   demo_step 3 2 "insert_rows" "txn_ok" false;
   demo_step 4 2 "drop_column" "txn_ok" true].

Definition demo_event (r : Ran) (now : Z) : ExecEvent :=
  {| xe_stop := false; xe_commit_ok := true; xe_ran := r; xe_opened_ms := 1000;
     xe_stop_after := false; xe_now_ms := now; xe_begin_written := true; xe_record_written := true;
     xe_rollback_written := true |}.

(** [succeeded_steps_are_committed]: the lock does not come, the group is tried
    again, and one of its steps fails. *)
Lemma succeeded_steps_are_committed_witness :
  let r := run_job kRunning {| sf_stop_now := false; sf_cancel_stop := false; sf_cancel_requested := false;
      sf_rollback_written := true |}
    (execute demo_plan 1000 exec_start
       ((fun k => demo_event k 2000) <$> [RanOk; RanOk; RanOk; RanOk; RanLockTimeout; RanOk; RanFailed false])) in
  match r with
  | Some (x, st, _) => st = kFailed /\ x_db x = [0] /\ x_ledger x !! 2 = Some "rolled_back"
      /\ (x_ledger x !! 0 = Some "succeeded" -> 0 ∈ x_db x)
  | None => False
  end.
Proof.
  intros r. destruct r as [[[x st] pubs]|] eqn:E; [|by vm_compute in E].
  assert (Hx : x_db x = [0] /\ st = kFailed /\ x_ledger x !! 2 = Some "rolled_back").
  { clear -E. subst r. vm_compute in E. injection E as <- <- _. by vm_compute. }
  destruct Hx as (Hdb & Hst & Hl). split; [done|]. split; [done|]. split; [done|].
  refine (proj1 (proj2 (succeeded_steps_are_committed demo_plan 1000 _ _ _ x st pubs _ E
    (demo_step 0 0 "create_index" "txn_forbidden" false) _ _)) _ _);
    [apply (bool_decide_unpack _); by vm_compute|by left|by vm_compute|reflexivity|reflexivity].
Defined.

(** A mark of a rollback that does not get through leaves the group's steps as
    succeeded in the ledger, beside a database that has nothing of them; the job's
    own record has them as rolled back. *)
Example lost_mark_leaves_succeeded :
  let r := run_job kRunning {| sf_stop_now := false; sf_cancel_stop := false; sf_cancel_requested := false;
      sf_rollback_written := false |}
    (execute demo_plan 1000 exec_start
       ((fun k => demo_event k 2000) <$> [RanOk; RanOk; RanOk; RanFailed false])) in
  exists x st pubs, r = Some (x, st, pubs) /\ x_db x = [0] /\ x_ledger x !! 2 = Some "succeeded"
    /\ (2, "rolled_back") ∈ x_steps x.
Proof.
  intros r. eexists _, _, _. split; [by vm_compute|]. split; [done|]. split; [by vm_compute|].
  apply (bool_decide_unpack _); by vm_compute.
Qed.

(** A run that nothing disturbs succeeds, one turn of the loop a step and one
    to commit the last group, where the plan keeps its index checks out of the
    transaction groups; and then every step's work is committed, in order. *)
Theorem undisturbed_run_succeeds steps lock_timeout_ms evs :
  verify_apart steps -> forallb calm_event evs = true -> (length steps < length evs)%nat ->
  exists x, execute steps lock_timeout_ms exec_start evs = XSucceeded x /\ x_db x = work steps.
Proof.
  intros Hap Hc Hl.
  destruct (execute_calm steps lock_timeout_ms evs exec_start (exec_start_shape steps) Hap Hc) as [x Hx];
    [simpl; lia|].
  exists x. split; [done|].
  pose proof (execute_shape steps lock_timeout_ms evs _ (exec_start_shape steps)) as H.
  by rewrite Hx in H.
Qed.

(** [undisturbed_run_succeeds] on the plan above. *)
Lemma undisturbed_run_succeeds_witness :
  exists x, execute demo_plan 1000 exec_start (replicate 6 (demo_event RanOk 1500)) = XSucceeded x
    /\ x_db x = [0; 2; 3; 4].
Proof.
  apply (undisturbed_run_succeeds demo_plan 1000); [|reflexivity|simpl; lia].
  intros k s i Hk Ha Hv Hn Hi (si & Hlt & Hsi & Hg & _).
  destruct k as [|[|[|[|[|]]]]]; simplify_eq/=; try done.
  destruct i as [|]; [|lia]. simplify_eq/=.
Defined.

(** The advisory lock key of any text is a non-negative 63-bit integer, so it
    is the same number in the process and in the server's [bigint] argument. *)
Theorem advisory_key_fits s : 0 <= advisory_key s < 2 ^ 63.
Proof.
  unfold advisory_key. change (2 ^ 63 - 1) with (Z.ones 63). rewrite Z.land_ones by lia.
  apply Z.mod_pos_bound. lia.
Qed.
