(* ===== verification/Repository.v ===== *)
(** * Repository: what is pending, and in which order (src/cpp/src/repository.h)

    Specifications classified against the ledger of the database each one
    targets, gated by what that database says of itself, checked for drift,
    put in levels by [depends_on] and split into groups that may run at the
    same time. The files, the catalog and the ledger's SQL are read into the
    records below; the wording of messages is left out and what a message is
    about is a constructor of [Problem]. *)
From S2P Require Import Prelude Json.

(** [RelationSet]. *)
Record RelationSet : Type := { relations : gset string; opaque : list string }.

Definition complete (r : RelationSet) : bool := match opaque r with [] => true | _ => false end.

Inductive RepoStatus : Type :=
  | kPending | kApplied | kModified | kInProgress | kFailed | kUnreadable
  | kWrongEnvironment | kWrongDatabase | kHeldForRelease | kHeldForEpoch
  | kRetiredEpoch | kUnknownConnection.

#[export] Instance RepoStatus_eq_dec : EqDecision RepoStatus.
Proof. solve_decision. Defined.

(** [to_string(RepoStatus)]. *)
Definition status_to_string (s : RepoStatus) : string :=
  match s with
  | kPending => "pending"
  | kApplied => "applied"
  | kModified => "modified_after_apply"
  | kInProgress => "in_progress"
  | kFailed => "failed"
  | kUnreadable => "unreadable"
  | kWrongEnvironment => "wrong_environment"
  | kWrongDatabase => "wrong_database"
  | kHeldForRelease => "held_for_release"
  | kHeldForEpoch => "held_for_epoch"
  | kRetiredEpoch => "retired_epoch"
  | kUnknownConnection => "unknown_connection"
  end.

(** [RepoEntry], without the text of its error and hint. *)
Record RepoEntry : Type := {
  spec_id : string;
  digest : string;
  status : RepoStatus;
  depends_on : list string;
  rels : RelationSet;
  applied_digest : string;
  connection : string;
  database_name : string;
  database_identity : string;
  database : string;
  environment : string;
  release : string;
  epoch : string;
}.

Definition with_status (e : RepoEntry) (s : RepoStatus) (applied : string) : RepoEntry :=
  {| spec_id := spec_id e; digest := digest e; status := s; depends_on := depends_on e;
     rels := rels e; applied_digest := applied; connection := connection e;
     database_name := database_name e; database_identity := database_identity e;
     database := database e; environment := environment e; release := release e; epoch := epoch e |}.

(** ** The manifest *)
Record Source : Type := { source_name : string; source_dir : string }.
Record Manifest : Type := { sources : list Source; manifest_complete : bool }.

Inductive manifest_error : Type :=
  | NotAnObject
  | UnsupportedVersion (v : Z)
  | NoSources
  | SourceNotAnObject
  | SourceWithoutDirectory
  | DuplicateSourceName (name : string)
  | ManifestType (e : json_error).

Definition of_json {A} (r : result json_error A) : result manifest_error A :=
  match r with Ok a => Ok a | Err e => Err (ManifestType e) end.

(** The loop over the sources; [resolve] is the path of a directory relative to
    the manifest's own, in normal form. *)
Fixpoint parse_sources (resolve : string -> string) (names : gset string) (srcs : list json) :
  result manifest_error (list Source) :=
  match srcs with
  | [] => Ok []
  | src :: srcs' =>
      if negb (is_object src) then Err SourceNotAnObject
      else
        dir ← of_json (value_str src "directory" "");
        if String.eqb dir "" then Err SourceWithoutDirectory
        else
          name ← of_json (value_str src "name" dir);
          if bool_decide (name ∈ names) then Err (DuplicateSourceName name)
          else
            rest ← parse_sources resolve ({[ name ]} ∪ names) srcs';
            Ok ({| source_name := name; source_dir := resolve dir |} :: rest)
  end.

(** [parse_manifest], from the parsed document on. *)
Definition parse_manifest (resolve : string -> string) (doc : json) : result manifest_error Manifest :=
  if negb (is_object doc) then Err NotAnObject
  else
    version ← of_json (value_int doc "laswell_manifest_version" 0);
    if negb (version =? 1) then Err (UnsupportedVersion version)
    else
      match at_key doc "sources" with
      | JArr (src :: srcs) =>
          l ← parse_sources resolve ∅ (src :: srcs);
          all ← of_json (value_bool doc "complete" false);
          Ok {| sources := l; manifest_complete := all |}
      | _ => Err NoSources
      end.

(** ** One database's answers *)

(** The digests a ledger records for one id of one epoch. *)
Record Recorded : Type := {
  running : list string;
  succeeded : list string;
  failed : list string;
}.

(** [View]. [applied] is epoch -> id -> what is recorded. *)
Record View : Type := {
  v_database : string;
  v_identity : string;
  v_environment : string;
  releases_ready : gset string;
  epochs_live : gset string;
  epochs_retired : gset string;
  applied : gmap string (gmap string Recorded);
}.

(** What [view_for] leaves when the database cannot be read. *)
Definition unreachable : View :=
  {| v_database := ""; v_identity := ""; v_environment := ""; releases_ready := ∅;
     epochs_live := ∅; epochs_retired := ∅; applied := ∅ |}.

Definition provably_different_databases (a b : RepoEntry) : bool :=
  if negb (String.eqb (database_identity a) "") && negb (String.eqb (database_identity b) "")
  then negb (String.eqb (database_identity a) (database_identity b))
  else negb (String.eqb (database_name a) "") && negb (String.eqb (database_name b) "")
       && negb (String.eqb (database_name a) (database_name b)).

(** The static [contains]. *)
Definition listed (v : string) (l : list string) : bool := existsb (String.eqb v) l.

Definition classify (e : RepoEntry) (a : gmap string (gmap string Recorded)) : RepoEntry :=
  match a !! epoch e with
  | None => with_status e kPending (applied_digest e)
  | Some ids =>
      match ids !! spec_id e with
      | None => with_status e kPending (applied_digest e)
      | Some r =>
          if listed (digest e) (running r) then with_status e kInProgress (applied_digest e)
          else if listed (digest e) (succeeded r) then with_status e kApplied (applied_digest e)
          else
            match succeeded r with
            | d :: _ => with_status e kModified d
            | [] =>
                if listed (digest e) (failed r) then with_status e kFailed (applied_digest e)
                else with_status e kPending (applied_digest e)
            end
      end
  end.

Definition is_runnable (s : RepoStatus) : bool :=
  match s with kPending | kFailed => true | _ => false end.

Definition gate (e : RepoEntry) (v : View) : RepoEntry :=
  let hold s := with_status e s (applied_digest e) in
  if negb (is_runnable (status e)) then e
  else if negb (String.eqb (database e) "") && negb (String.eqb (v_database v) "")
          && negb (String.eqb (database e) (v_database v)) then hold kWrongDatabase
  else if negb (String.eqb (environment e) "") && String.eqb (v_environment v) "" then hold kWrongEnvironment
  else if negb (String.eqb (environment e) "") && negb (String.eqb (environment e) (v_environment v))
       then hold kWrongEnvironment
  else if bool_decide (epoch e ∈ epochs_retired v) then hold kRetiredEpoch
  else if negb (String.eqb (epoch e) "") && bool_decide (epoch e ∉ epochs_live v)
          && bool_decide (epochs_live v <> ∅) then hold kHeldForEpoch
  else if negb (String.eqb (release e) "") && bool_decide (release e ∉ releases_ready v)
       then hold kHeldForRelease
  else e.

(** [applied_somewhere], over the views read so far. *)
Definition applied_somewhere (views : list View) (id : string) : bool :=
  existsb (fun v =>
    existsb (fun ids : gmap string Recorded =>
      match ids !! id with Some r => match succeeded r with [] => false | _ => true end | None => false end)
      (snd <$> map_to_list (applied v))) views.

(** ** The scan *)

(** What is wrong with a repository. *)
Inductive Problem : Type :=
  | IdenticalCopies (id : string)
  | ConflictingSpecs (id : string)
  | UnknownConnection (id : string)
  | DoesNotParse
  | DescribesNothing (conn : string)
  | AppliedElsewhere (conn epoch id : string)
  | ModifiedAfterApply (id : string)
  | MissingDependency (id dep : string)
  | BlockedBy (id dep : string) (s : RepoStatus)
  | Cycle (ids : list string).

(** What [parse_spec] gives of one file; [None] is a file that does not parse. *)
Record SpecInfo : Type := {
  si_id : string;
  si_digest : string;
  si_depends_on : list string;
  si_connection : string;
  si_database : string;
  si_environment : string;
  si_release : string;
  si_epoch : string;
}.

Definition no_relations : RelationSet := {| relations := ∅; opaque := [] |}.

Definition unreadable_entry : RepoEntry :=
  {| spec_id := ""; digest := ""; status := kUnreadable; depends_on := []; rels := no_relations;
     applied_digest := ""; connection := ""; database_name := ""; database_identity := "";
     database := ""; environment := ""; release := ""; epoch := "" |}.

Definition entry_of (default_connection : string) (s : SpecInfo) : RepoEntry :=
  {| spec_id := si_id s; digest := si_digest s; status := kPending; depends_on := si_depends_on s;
     rels := no_relations; applied_digest := "";
     connection := if String.eqb (si_connection s) "" then default_connection else si_connection s;
     database_name := ""; database_identity := ""; database := si_database s;
     environment := si_environment s; release := si_release s;
     epoch := if String.eqb (si_epoch s) "" then "default" else si_epoch s |}.

Definition with_identity (e : RepoEntry) (v : View) : RepoEntry :=
  {| spec_id := spec_id e; digest := digest e; status := status e; depends_on := depends_on e;
     rels := rels e; applied_digest := applied_digest e; connection := connection e;
     database_name := v_database v; database_identity := v_identity v;
     database := database e; environment := environment e; release := release e; epoch := epoch e |}.

Section Scan.
(** The configured connections and what each database answers. *)
Context (registry : gmap string View) (default_connection : string).

(** One file: routed, classified and gated. *)
Definition read_entry (s : SpecInfo) : RepoEntry :=
  let e := entry_of default_connection s in
  match registry !! connection e with
  | None => with_status e kUnknownConnection ""
  | Some v => gate (classify (with_identity e v) (applied v)) v
  end.

(** The loop over the files; [claimed] is id -> digest of the first that has it. *)
Fixpoint read_files (claimed : gmap string string) (files : list (option SpecInfo)) :
  list RepoEntry * list Problem :=
  match files with
  | [] => ([], [])
  | None :: files' =>
      let '(es, ps) := read_files claimed files' in (unreadable_entry :: es, ps)
  | Some s :: files' =>
      match claimed !! si_id s with
      | Some d =>
          let '(es, ps) := read_files claimed files' in
          (es, (if String.eqb d (si_digest s) then IdenticalCopies (si_id s)
                else ConflictingSpecs (si_id s)) :: ps)
      | None =>
          let '(es, ps) := read_files (<[si_id s := si_digest s]> claimed) files' in
          (read_entry s :: es, ps)
      end
  end.

Definition entry_problems (es : list RepoEntry) : list Problem :=
  omap (fun e =>
    match status e with
    | kUnknownConnection => Some (UnknownConnection (spec_id e))
    | kUnreadable => Some DoesNotParse
    | _ => None
    end) es.

(** The views this listing read: of every entry's connection, and the default's. *)
Definition views_read (es : list RepoEntry) : list (string * View) :=
  map_to_list (filter (fun '(c, _) => c = default_connection \/ c ∈ (connection <$> es)) registry).

(** [on_disk] and [epochs_claimed]. *)
Definition on_disk (es : list RepoEntry) : list (string * string) :=
  (fun e => (epoch e, spec_id e)) <$> List.filter (fun e => negb (String.eqb (spec_id e) "")) es.

Definition describes_nothing (es : list RepoEntry) : list Problem :=
  match on_disk es with
  | [] => omap (fun '(c, v) => if bool_decide (applied v = ∅) then None else Some (DescribesNothing c))
            (views_read es)
  | _ => []
  end.

(** What a ledger records as applied or being applied, and no file describes. *)
Definition drift (complete_ : bool) (es : list RepoEntry) : list Problem :=
  '(c, v) ← views_read es;
  '(ep, ids) ← map_to_list (applied v);
  if negb complete_ && bool_decide (ep ∉ (on_disk es).*1) then []
  else if bool_decide (ep ∈ epochs_retired v) then []
  else
    omap (fun '(id, r) =>
      if bool_decide ((ep, id) ∈ on_disk es) then None
      else if bool_decide (succeeded r = []) && bool_decide (running r = []) then None
      else Some (AppliedElsewhere c ep id)) (map_to_list ids).

End Scan.

(** ** Levels *)

(** [by_id], where a later entry with an id wins. *)
Definition by_id (es : list RepoEntry) : gmap string RepoEntry :=
  foldl (fun m e => if String.eqb (spec_id e) "" then m else <[spec_id e := e]> m) ∅ es.

Definition runnable (es : list RepoEntry) : list string :=
  spec_id <$> List.filter (fun e => is_runnable (status e)) es.

Definition deps (m : gmap string RepoEntry) (id : string) : list string :=
  match m !! id with Some e => depends_on e | None => [] end.

(** A dependency that keeps [id] from being ready: in the repository, not applied
    and not placed. *)
Definition unmet (m : gmap string RepoEntry) (placed : gset string) (d : string) : bool :=
  match m !! d with
  | None => false
  | Some e => negb (bool_decide (status e = kApplied)) && negb (bool_decide (d ∈ placed))
  end.

Definition is_ready (m : gmap string RepoEntry) (placed : gset string) (id : string) : bool :=
  negb (existsb (unmet m placed) (deps m id)).

(** [blocked]: the unmet dependencies that will not run. *)
Definition blocked (m : gmap string RepoEntry) (placed : gset string) (remaining : list string) :
  list Problem :=
  id ← remaining;
  omap (fun d =>
    match m !! d with
    | Some e => if unmet m placed d && negb (is_runnable (status e))
                then Some (BlockedBy id d (status e)) else None
    | None => None
    end) (deps m id).

(** The loop: the levels in order, and why it stopped. [fuel] counts its turns. *)
Fixpoint levels (m : gmap string RepoEntry) (fuel : nat) (placed : gset string)
    (remaining : list string) : option (list (list string) * list Problem) :=
  match remaining with
  | [] => Some ([], [])
  | _ =>
      match fuel with
      | O => None
      | S fuel' =>
          match List.filter (is_ready m placed) remaining with
          | [] =>
              Some ([], match blocked m placed remaining with
                        | [] => [Cycle remaining]
                        | ps => ps
                        end)
          | ready =>
              let placed' := placed ∪ list_to_set ready in
              '(ls, ps) ← levels m fuel' placed'
                (List.filter (fun id => negb (bool_decide (id ∈ placed'))) remaining);
              Some (ready :: ls, ps)
          end
      end
  end.

Definition missing_dependencies (views : list View) (es : list RepoEntry) : list Problem :=
  id ← runnable es;
  omap (fun d =>
    match by_id es !! d with
    | Some _ => None
    | None => if applied_somewhere views d then None else Some (MissingDependency id d)
    end) (deps (by_id es) id).

(** [assemble]: the levels and the problems, in the order they are reported. *)
Definition assemble (views : list View) (es : list RepoEntry) (problems : list Problem) :
  option (list (list string) * list Problem) :=
  let modified := omap (fun e => if bool_decide (status e = kModified)
                                 then Some (ModifiedAfterApply (spec_id e)) else None) es in
  '(ls, ps) ← levels (by_id es) (length (runnable es)) ∅ (runnable es);
  Some (ls, problems ++ modified ++ missing_dependencies views es ++ ps).

(** ** Groups that may run at the same time *)

(** The inner loop for one leader: the group so far, its relations, and those of
    the rest that stay for later groups. *)
Fixpoint gather (leader : RepoEntry) (group : list RepoEntry) (rs : gset string)
    (rest : list RepoEntry) : list RepoEntry * list RepoEntry :=
  match rest with
  | [] => (group, [])
  | e :: rest' =>
      if provably_different_databases leader e then gather leader (group ++ [e]) rs rest'
      else if bool_decide (rs ∩ relations (rels e) <> ∅) then
        let '(g, later) := gather leader group rs rest' in (g, e :: later)
      else if negb (complete (rels leader)) || negb (complete (rels e)) then
        let '(g, later) := gather leader group rs rest' in (g, e :: later)
      else gather leader (group ++ [e]) (rs ∪ relations (rels e)) rest'
  end.

(** [parallel_subsets]: leaders in order. *)
Fixpoint parallel_subsets (fuel : nat) (ready : list RepoEntry) : list (list RepoEntry) :=
  match fuel, ready with
  | S fuel', e :: rest =>
      let '(g, later) := gather e [e] (relations (rels e)) rest in
      g :: parallel_subsets fuel' later
  | _, _ => []
  end.

(** ** The whole listing *)

(** [derive], over the entries it looks at. *)
Definition derive (analyze : RepoEntry -> RelationSet) (e : RepoEntry) : RepoEntry :=
  match status e with
  | kUnreadable | kApplied | kUnknownConnection => e
  | _ =>
      {| spec_id := spec_id e; digest := digest e; status := status e; depends_on := depends_on e;
         rels := analyze e; applied_digest := applied_digest e; connection := connection e;
         database_name := database_name e; database_identity := database_identity e;
         database := database e; environment := environment e; release := release e; epoch := epoch e |}
  end.

(** [scan], from the parsed files on. *)
Definition scan (registry : gmap string View) (default_connection : string)
    (analyze : option (RepoEntry -> RelationSet)) (complete_ : bool) (files : list (option SpecInfo)) :
  option (list (list string) * list Problem) :=
  let '(es, copies) := read_files registry default_connection ∅ files in
  let problems := copies ++ entry_problems es
    ++ describes_nothing registry default_connection es
    ++ drift registry default_connection complete_ es in
  let views := snd <$> views_read registry default_connection es in
  let es := match analyze with Some f => derive f <$> es | None => es end in
  assemble views es problems.
