(* ===== verification/RepositoryFacts.v ===== *)
(** * RepositoryFacts: the order, the gates and the groups

    The levels respect every dependency and place every runnable
    specification once, or name what stands in the way; a cycle that is
    reported is one. What may run at all is decided by the database. Groups
    inside one database are pairwise independent; across databases they are
    not always. *)
From S2P Require Import Prelude Json Repository.

(** ** Levels *)
Section Levels.
Context (m : gmap string RepoEntry).

(** Every runnable entry is placed or remains. *)
Definition covers (placed : gset string) (remaining : list string) : Prop :=
  forall d e, m !! d = Some e -> is_runnable (status e) = true -> d ∈ placed \/ d ∈ remaining.

Lemma filter_placed_length (placed : gset string) ready remaining :
  ready <> [] -> (forall id, id ∈ ready -> id ∈ remaining) ->
  (length (List.filter (fun id => negb (bool_decide (id ∈ placed ∪ list_to_set ready))) remaining)
   < length remaining)%nat.
Proof.
  intros Hne Hsub. destruct ready as [|id ready]; [done|].
  assert (Hin : id ∈ remaining) by (apply Hsub; set_solver). clear Hne Hsub.
  assert (Hid : id ∈ placed ∪ list_to_set (id :: ready)) by set_solver.
  revert Hid. generalize (placed ∪ list_to_set (id :: ready)). intros P HP.
  pose proof (List.filter_length_le (fun id => negb (bool_decide (id ∈ P)))) as Hle.
  induction remaining as [|x remaining IH]; [set_solver|]. simpl.
  apply elem_of_cons in Hin as [<-|Hin].
  - rewrite bool_decide_eq_true_2 by done. simpl. specialize (Hle remaining). lia.
  - specialize (IH Hin). case_if; simpl; lia.
Qed.

Lemma elem_of_keep {A} (f : A -> bool) (l : list A) x : x ∈ List.filter f l <-> f x = true /\ x ∈ l.
Proof. rewrite !list_elem_of_In, filter_In. tauto. Qed.

(** What one run of the loop gives. *)
Record levels_ok (placed : gset string) (remaining : list string)
    (ls : list (list string)) (ps : list Problem) : Prop := {
  lo_deps i l id d e : ls !! i = Some l -> id ∈ l -> d ∈ deps m id -> m !! d = Some e ->
    status e = kApplied \/ d ∈ placed \/ exists j l', (j < i)%nat /\ ls !! j = Some l' /\ d ∈ l';
  lo_all : ps = [] -> mjoin ls ≡ₚ remaining;
  lo_sub id : id ∈ mjoin ls -> id ∈ remaining;
  lo_once : NoDup (mjoin ls);
  lo_cycle ids : Cycle ids ∈ ps -> ids <> [] /\ forall id, id ∈ ids -> exists d, d ∈ deps m id /\ d ∈ ids;
}.

Lemma not_ready_unmet placed id : is_ready m placed id = false -> exists d, d ∈ deps m id /\ unmet m placed d = true.
Proof.
  unfold is_ready. intros H. bool_prop. apply existsb_exists in H as (d & Hd & Hu).
  exists d. split; [by apply list_elem_of_In|done].
Qed.

Lemma ready_met placed id d e :
  is_ready m placed id = true -> d ∈ deps m id -> m !! d = Some e -> status e = kApplied \/ d ∈ placed.
Proof.
  unfold is_ready. intros H Hd He. bool_prop.
  destruct (unmet m placed d) eqn:Hu.
  - assert (Hx : existsb (unmet m placed) (deps m id) = true)
      by (apply existsb_exists; exists d; by rewrite <- list_elem_of_In). congruence.
  - unfold unmet in Hu. rewrite He in Hu.
    destruct (bool_decide_reflect (status e = kApplied)); [by left|].
    destruct (bool_decide_reflect (d ∈ placed)); [by right|done].
Qed.

(** Stuck without a blocked dependency, every remaining specification waits on
    another that remains. *)
Lemma stuck_cycle placed remaining :
  covers placed remaining -> remaining <> [] ->
  List.filter (is_ready m placed) remaining = [] -> blocked m placed remaining = [] ->
  forall id, id ∈ remaining -> exists d, d ∈ deps m id /\ d ∈ remaining.
Proof.
  intros Hc Hne Hr Hb id Hid.
  assert (Hnr : is_ready m placed id = false).
  { apply not_true_is_false. intros Hy.
    assert (Hx : id ∈ List.filter (is_ready m placed) remaining) by (by apply elem_of_keep).
    rewrite Hr in Hx. set_solver. }
  destruct (not_ready_unmet placed id Hnr) as (d & Hd & Hu). exists d. split; [done|].
  unfold unmet in Hu. destruct (m !! d) as [e|] eqn:He; [|done].
  destruct (is_runnable (status e)) eqn:Hrun.
  - destruct (Hc d e He Hrun) as [Hp|]; [|done]. rewrite (bool_decide_eq_true_2 (d ∈ placed)) in Hu by done.
    by rewrite andb_false_r in Hu.
  - exfalso. assert (Hin : BlockedBy id d (status e) ∈ blocked m placed remaining).
    { unfold blocked. apply list_elem_of_bind. exists id. split; [|done]. apply list_elem_of_omap.
      exists d. split; [done|]. unfold unmet. by rewrite He, Hu, Hrun. }
    rewrite Hb in Hin. set_solver.
Qed.

Lemma levels_correct fuel placed remaining :
  (length remaining <= fuel)%nat -> NoDup remaining -> covers placed remaining ->
  (forall id, id ∈ remaining -> id ∉ placed) ->
  exists ls ps, levels m fuel placed remaining = Some (ls, ps) /\ levels_ok placed remaining ls ps.
Proof.
  revert placed remaining. induction fuel as [|fuel IH]; intros placed remaining Hf Hnd Hc Hfresh.
  { destruct remaining; [|simpl in Hf; lia]. exists [], []. split; [done|].
    constructor; simpl; try done; try constructor; set_solver. }
  destruct remaining as [|r0 remaining0].
  { exists [], []. split; [done|]. constructor; simpl; try done; try constructor; set_solver. }
  cbn [levels]. set (remaining := r0 :: remaining0) in *.
  destruct (List.filter (is_ready m placed) remaining) as [|x ready0] eqn:Hready.
  - eexists [], _. split; [done|]. constructor; try done; try (by constructor); try set_solver.
    + destruct (blocked m placed remaining); [discriminate|discriminate].
    + intros ids Hin. destruct (blocked m placed remaining) as [|p ps] eqn:Hb.
      * apply list_elem_of_singleton in Hin as [= ->]. split; [done|]. by apply (stuck_cycle placed).
      * exfalso. rewrite <- Hb in Hin. unfold blocked in Hin.
        apply list_elem_of_bind in Hin as (id & Hin & _). apply list_elem_of_omap in Hin as (d & _ & Hd).
        destruct (m !! d); [|done]. by destruct (_ && _) in Hd.
  - set (ready := x :: ready0) in *. set (placed' := placed ∪ list_to_set ready).
    set (rest := List.filter (fun id => negb (bool_decide (id ∈ placed'))) remaining).
    assert (Hsub : forall id, id ∈ ready -> id ∈ remaining /\ is_ready m placed id = true).
    { intros id. rewrite <- Hready, elem_of_keep. tauto. }
    assert (Hlen : (length rest < length remaining)%nat).
    { apply filter_placed_length; [done|]. intros id Hid. by apply Hsub. }
    destruct (IH placed' rest) as (ls & ps & -> & [L1 L2 L3 L5 L4]).
    + lia.
    + by apply NoDup_ListNoDup, List.NoDup_filter, NoDup_ListNoDup.
    + intros d e He Hr. destruct (Hc d e He Hr) as [|Hin]; [left; set_solver|].
      destruct (decide (d ∈ placed')); [by left|right]. apply elem_of_keep.
      by rewrite bool_decide_eq_false_2.
    + intros id. unfold rest. rewrite elem_of_keep. intros [Hn _]. bool_prop.
      by apply bool_decide_eq_false in Hn.
    + exists (ready :: ls), ps. split; [done|].
      assert (Hperm : ready ++ rest ≡ₚ remaining).
      { apply NoDup_Permutation; [apply NoDup_app; split_and!|exact Hnd|].
        - rewrite <- Hready. by apply NoDup_ListNoDup, List.NoDup_filter, NoDup_ListNoDup.
        - intros id Hid Hrest. unfold rest in Hrest. apply elem_of_keep in Hrest as [Hn _]. bool_prop.
          apply bool_decide_eq_false in Hn. set_solver.
        - by apply NoDup_ListNoDup, List.NoDup_filter, NoDup_ListNoDup.
        - intros id. rewrite elem_of_app. unfold rest. rewrite elem_of_keep. split.
          + intros [H|[_ H]]; [by apply Hsub|done].
          + intros Hid. destruct (decide (id ∈ ready)); [by left|right].
            split; [|done]. rewrite bool_decide_eq_false_2; [done|]. specialize (Hfresh id Hid). set_solver. }
      constructor.
      * intros [|i] l id d e Hl Hid Hd He; simpl in Hl.
        { injection Hl as <-. destruct (Hsub id Hid) as [_ Hr].
          destruct (ready_met placed id d e Hr Hd He); auto. }
        destruct (L1 i l id d e Hl Hid Hd He) as [|[Hp|(j & l' & Hj & Hl' & Hin)]]; [by left| |].
        { unfold placed' in Hp. apply elem_of_union in Hp as [|Hp]; [by right; left|].
          right. right. exists 0%nat, ready. split; [lia|]; split; [done|set_solver]. }
        right. right. exists (S j), l'. split; [lia|]; split; done.
      * intros Hps. simpl. by rewrite (L2 Hps).
      * intros id. change (mjoin (ready :: ls)) with (ready ++ mjoin ls). rewrite elem_of_app. intros [Hin|Hin]; [by apply Hsub|].
        apply L3, elem_of_keep in Hin. tauto.
      * change (mjoin (ready :: ls)) with (ready ++ mjoin ls). apply NoDup_app. split_and!; [|intros id Hid Hin|done].
        { rewrite <- Hready. by apply NoDup_ListNoDup, List.NoDup_filter, NoDup_ListNoDup. }
        apply L3, elem_of_keep in Hin as [Hn _]. bool_prop. apply bool_decide_eq_false in Hn. set_solver.
      * done.
Qed.
End Levels.

(** ** The entries a scan reads *)
Section Entries.
Context (registry : gmap string View) (dc : string).

Lemma classify_same e a :
  spec_id (classify e a) = spec_id e /\ depends_on (classify e a) = depends_on e
  /\ environment (classify e a) = environment e /\ release (classify e a) = release e
  /\ epoch (classify e a) = epoch e /\ database (classify e a) = database e.
Proof.
  unfold classify. destruct (a !! epoch e) as [ids|]; [|done].
  destruct (ids !! spec_id e) as [r|]; [|done]. repeat case_if; try done;
    by destruct (succeeded r).
Qed.

Lemma gate_same e v : spec_id (gate e v) = spec_id e /\ depends_on (gate e v) = depends_on e.
Proof. unfold gate. repeat case_if; done. Qed.

Lemma read_entry_id s : spec_id (read_entry registry dc s) = si_id s.
Proof.
  unfold read_entry. destruct (registry !! _) as [v|]; [|done].
  rewrite (proj1 (gate_same _ _)). by rewrite (proj1 (classify_same _ _)).
Qed.

Lemma read_entry_readable s : status (read_entry registry dc s) <> kUnreadable.
Proof.
  unfold read_entry. destruct (registry !! _) as [v|]; [|done].
  unfold gate. set (e := classify _ _).
  assert (He : status e <> kUnreadable).
  { subst e. unfold classify. destruct (_ !! _) as [ids|]; [|done].
    destruct (ids !! _) as [r|]; [|done]. repeat case_if; try done;
      by destruct (succeeded r). }
  repeat case_if; done.
Qed.

(** An entry is an unreadable file's or has the id of a file; ids come once. *)
Lemma read_files_ids files claimed :
  (forall s, Some s ∈ files -> si_id s <> "") ->
  let es := (read_files registry dc claimed files).1 in
  Forall (fun e => e = unreadable_entry
                   \/ (spec_id e <> "" /\ claimed !! spec_id e = None /\ status e <> kUnreadable)) es
  /\ NoDup (spec_id <$> List.filter (fun e => negb (String.eqb (spec_id e) "")) es).
Proof.
  revert claimed. induction files as [|[s|] files IH]; intros claimed Hid; cbn [read_files].
  - by split; [|constructor].
  - assert (Hs : si_id s <> "") by (apply Hid; set_solver).
    destruct (claimed !! si_id s) as [d|] eqn:Hc.
    + specialize (IH claimed ltac:(intros; apply Hid; set_solver)).
      by destruct (read_files registry dc claimed files) as [es ps].
    + specialize (IH (<[si_id s := si_digest s]> claimed) ltac:(intros; apply Hid; set_solver)).
      destruct (read_files registry dc (<[si_id s := si_digest s]> claimed) files) as [es ps].
      destruct IH as [IH1 IH2]. simpl in *. split.
      * constructor; [right; rewrite read_entry_id; auto using read_entry_readable|].
        eapply Forall_impl; [exact IH1|]. intros e [|(H1 & H2 & H3)]; [by left|right].
        by apply lookup_insert_None in H2 as [H2 _].
      * rewrite read_entry_id. destruct (String.eqb_spec (si_id s) ""); [done|]. csimpl.
        rewrite read_entry_id. constructor; [|done].
        intros Hin. apply list_elem_of_fmap in Hin as (e & He & Hin).
        apply elem_of_keep in Hin as [Hne Hin]. rewrite Forall_forall in IH1.
        destruct (IH1 e Hin) as [->|(_ & H2 & _)]; [done|].
        rewrite <- He, lookup_insert_eq in H2. done.
  - specialize (IH claimed ltac:(intros; apply Hid; set_solver)).
    destruct (read_files registry dc claimed files) as [es ps]. destruct IH as [IH1 IH2].
    simpl in *. split; [constructor; [by left|done]|done].
Qed.
End Entries.

(** ** The listing *)

Lemma by_id_lookup_gen es (m : gmap string RepoEntry) d e :
  foldl (fun m e => if String.eqb (spec_id e) "" then m else <[spec_id e := e]> m) m es !! d = Some e ->
  m !! d = Some e \/ (e ∈ es /\ spec_id e = d).
Proof.
  revert m. induction es as [|x es IH]; intros m H; simpl in *; [by left|].
  apply IH in H as [H|[H1 H2]]; [|right; set_solver].
  destruct (String.eqb (spec_id x) ""); [by left|].
  apply lookup_insert_Some in H as [[<- <-]|[_ H]]; [right; set_solver|by left].
Qed.

Lemma by_id_covers es : covers (by_id es) ∅ (runnable es).
Proof.
  intros d e He Hr. right. apply by_id_lookup_gen in He as [He|[Hin <-]]; [by rewrite lookup_empty in He|].
  apply list_elem_of_fmap. exists e. split; [done|]. by apply elem_of_keep.
Qed.

Lemma runnable_NoDup es :
  Forall (fun e => e = unreadable_entry \/ (spec_id e <> "" /\ status e <> kUnreadable)) es ->
  NoDup (spec_id <$> List.filter (fun e => negb (String.eqb (spec_id e) "")) es) ->
  NoDup (runnable es).
Proof.
  intros Hf. unfold runnable. induction Hf as [|e es He Hf IH]; simpl; [done|].
  destruct He as [->|[Hne Hst]]; [simpl; exact IH|].
  destruct (String.eqb_spec (spec_id e) ""); [done|]. csimpl. intros Hnd.
  apply NoDup_cons in Hnd as [Hnot Hnd]. case_if; csimpl; [|auto].
  constructor; [|auto]. intros Hin. apply Hnot. apply list_elem_of_fmap in Hin as (x & Hx & Hin).
  apply elem_of_keep in Hin as [Hr Hin]. apply list_elem_of_fmap. exists x. split; [done|].
  apply elem_of_keep. split; [|done]. rewrite <- Hx. by destruct (String.eqb_spec (spec_id e) "").
Qed.

Definition is_stuck (p : Problem) : bool :=
  match p with BlockedBy _ _ _ | Cycle _ => true | _ => false end.

Lemma levels_stuck m fuel placed rem ls ps p :
  levels m fuel placed rem = Some (ls, ps) -> p ∈ ps -> is_stuck p = true.
Proof.
  revert placed rem ls ps. induction fuel as [|fuel IH]; intros placed [|r rem] ls ps; cbn [levels];
    try discriminate; try (intros [= <- <-]; set_solver).
  remember (r :: rem) as rr eqn:Hrr. destruct (List.filter (is_ready m placed) rr) as [|x ready].
  - intros [= <- <-]. destruct (blocked m placed rr) as [|b bs] eqn:Hb.
    + by intros ->%list_elem_of_singleton.
    + rewrite <- Hb. unfold blocked. intros Hin. apply list_elem_of_bind in Hin as (id & Hin & _).
      apply list_elem_of_omap in Hin as (d & _ & Hd). destruct (m !! d) as [e|]; [|done].
      case_if_in Hd; [by injection Hd as <-|done].
  - destruct (levels m fuel _ _) as [[ls' ps']|] eqn:E; [|done]. intros [= <- <-]. by eapply IH.
Qed.

Lemma omap_not_stuck {A} (f : A -> option Problem) l :
  (forall a p, f a = Some p -> is_stuck p = false) -> Forall (fun p => is_stuck p = false) (omap f l).
Proof.
  intros H. apply Forall_forall. intros p Hp. apply list_elem_of_omap in Hp as (a & _ & Ha). by eapply H.
Qed.

Lemma bind_not_stuck {A} (f : A -> list Problem) l :
  (forall a, Forall (fun p => is_stuck p = false) (f a)) ->
  Forall (fun p => is_stuck p = false) (l ≫= f).
Proof.
  intros H. apply Forall_forall. intros p Hp. apply list_elem_of_bind in Hp as (a & Hp & _).
  specialize (H a). rewrite Forall_forall in H. auto.
Qed.

Lemma read_files_not_stuck registry dc files claimed :
  Forall (fun p => is_stuck p = false) (read_files registry dc claimed files).2.
Proof.
  revert claimed. induction files as [|[s|] files IH]; intros claimed; cbn [read_files]; [constructor| |].
  - destruct (claimed !! si_id s) as [d|].
    + specialize (IH claimed). destruct (read_files registry dc claimed files). simpl in *.
      constructor; [by case_if|done].
    + specialize (IH (<[si_id s := si_digest s]> claimed)).
      by destruct (read_files registry dc (<[si_id s := si_digest s]> claimed) files).
  - specialize (IH claimed). by destruct (read_files registry dc claimed files).
Qed.

Lemma scan_problems_not_stuck registry dc complete_ es :
  Forall (fun p => is_stuck p = false)
    (entry_problems es ++ describes_nothing registry dc es ++ drift registry dc complete_ es).
Proof.
  apply Forall_app. split; [|apply Forall_app; split].
  - apply omap_not_stuck. intros e p. destruct (status e); try done; by intros [= <-].
  - unfold describes_nothing. destruct (on_disk es); [|constructor].
    apply omap_not_stuck. intros [c v] p. case_bool_decide; [done|]. by intros [= <-].
  - unfold drift. apply bind_not_stuck. intros [c v]. apply bind_not_stuck. intros [ep ids].
    repeat case_if; try constructor. apply omap_not_stuck. intros [id r] p.
    repeat case_if; try done. by intros [= <-].
Qed.

Lemma derive_same f e : spec_id (derive f e) = spec_id e /\ status (derive f e) = status e
  /\ depends_on (derive f e) = depends_on e.
Proof. unfold derive. by destruct (status e) eqn:E; simpl; rewrite ?E. Qed.

(** The entries a scan assembles. *)
Definition scanned (registry : gmap string View) (dc : string)
    (analyze : option (RepoEntry -> RelationSet)) (files : list (option SpecInfo)) : list RepoEntry :=
  let es := (read_files registry dc ∅ files).1 in
  match analyze with Some f => derive f <$> es | None => es end.

Lemma scanned_NoDup registry dc analyze files :
  (forall s, Some s ∈ files -> si_id s <> "") -> NoDup (runnable (scanned registry dc analyze files)).
Proof.
  intros Hid. destruct (read_files_ids registry dc files ∅ Hid) as [H1 H2].
  assert (Hbase : NoDup (runnable (read_files registry dc ∅ files).1)).
  { apply runnable_NoDup; [|done]. eapply Forall_impl; [exact H1|]. intros e [|(? & _ & ?)]; auto. }
  unfold scanned. destruct analyze as [f|]; [|done].
  replace (runnable (derive f <$> (read_files registry dc ∅ files).1))
    with (runnable (read_files registry dc ∅ files).1); [done|].
  unfold runnable. generalize (read_files registry dc ∅ files).1. intros es. clear.
  induction es as [|e es IH]; [done|]. csimpl. destruct (derive_same f e) as (H1 & H2 & _).
  rewrite H2. case_if; csimpl; rewrite ?H1; congruence.
Qed.

(** C27: The order of a listing. For any set of files (every specification has an
    id), connections and ledgers, the scan returns levels such that each
    dependency of a specification in a level is not in the repository, is
    applied, or is in an earlier level; the levels hold runnable specifications
    only, each at most once; if nothing is reported as blocked or
    cyclic, the levels hold every runnable specification exactly once; and a
    cycle that is reported is a real one: each specification named depends on
    another of those named. *)
Theorem order_respects_dependencies registry dc analyze complete_ files :
  (forall s, Some s ∈ files -> si_id s <> "") ->
  let es := scanned registry dc analyze files in
  exists ls ps, scan registry dc analyze complete_ files = Some (ls, ps)
    /\ (forall i l id d e, ls !! i = Some l -> id ∈ l -> d ∈ deps (by_id es) id -> by_id es !! d = Some e ->
          status e = kApplied \/ exists j l', (j < i)%nat /\ ls !! j = Some l' /\ d ∈ l')
    /\ NoDup (mjoin ls) /\ (forall id, id ∈ mjoin ls -> id ∈ runnable es)
    /\ (forallb (fun p => negb (is_stuck p)) ps = true -> mjoin ls ≡ₚ runnable es)
    /\ (forall ids, Cycle ids ∈ ps ->
          ids <> [] /\ forall id, id ∈ ids -> exists d, d ∈ deps (by_id es) id /\ d ∈ ids).
Proof.
  intros Hid es.
  destruct (levels_correct (by_id es) (length (runnable es)) ∅ (runnable es))
    as (ls & ps & Hlev & [L1 L2 L3 L5 L4]); [lia|by apply scanned_NoDup|apply by_id_covers|set_solver|].
  pose proof (read_files_not_stuck registry dc files ∅) as Hcopies.
  unfold scan. destruct (read_files registry dc ∅ files) as [es0 copies] eqn:Hread. simpl in Hcopies.
  assert (Hes : es = match analyze with Some f => derive f <$> es0 | None => es0 end)
    by (subst es; unfold scanned; by rewrite Hread).
  pose proof (scan_problems_not_stuck registry dc complete_ es0) as Hprob.
  rewrite <- Hes. unfold assemble. rewrite Hlev. cbn [mbind option_bind].
  eexists ls, _. split; [reflexivity|]. split; [|split; [done|split; [done|split]]].
  - intros i l id d e Hl Hin Hd He. destruct (L1 i l id d e Hl Hin Hd He) as [|[|]]; auto. set_solver.
  - intros Hall. apply L2. rewrite !forallb_app in Hall. bool_prop.
    assert (Hps : forall p, p ∈ ps -> is_stuck p = true) by (intros p; by eapply levels_stuck).
    destruct ps as [|p ps']; [done|]. exfalso.
    match goal with H : forallb _ (p :: ps') = true |- _ => simpl in H; bool_prop end.
    rewrite (Hps p) in *; [done|set_solver].
  - intros ids Hin. apply L4. rewrite !elem_of_app in Hin.
    assert (Hno : forall l : list Problem, Forall (fun p => is_stuck p = false) l -> Cycle ids ∉ l).
    { intros l Hl Hx. rewrite Forall_forall in Hl. by specialize (Hl _ Hx). }
    rewrite !Forall_app in Hprob. destruct Hprob as (P1 & P2 & P3).
    destruct Hin as [[Hin|[Hin|[Hin|Hin]]]|[Hin|[Hin|Hin]]]; 
      try (exfalso; eapply Hno; [|exact Hin]; assumption); [..|done].
    + exfalso. revert Hin. apply Hno, omap_not_stuck. intros e p. case_bool_decide; [|done]. by intros [= <-].
    + exfalso. revert Hin. apply Hno, bind_not_stuck. intros id. apply omap_not_stuck. intros d p.
      destruct (_ !! d); [done|]. case_if; [done|]. by intros [= <-].
Qed.

Definition demo_spec (id : string) (on : list string) : SpecInfo :=
  {| si_id := id; si_digest := "d-" +:+ id; si_depends_on := on; si_connection := "";
     si_database := ""; si_environment := ""; si_release := ""; si_epoch := "" |}.

Definition demo_view : View :=
  {| v_database := "app"; v_identity := "1/1"; v_environment := "production"; releases_ready := ∅;
     epochs_live := ∅; epochs_retired := ∅;
     applied := {[ "default" := {[ "0001" := {| running := []; succeeded := ["d-0001"]; failed := [] |} ]} ]} |}.

(** [order_respects_dependencies] on a chain that begins with an applied one, and
    two that wait on each other. *)
Lemma order_respects_dependencies_witness :
  let files := [Some (demo_spec "0003" ["0002"]); Some (demo_spec "0002" ["0001"]);
                Some (demo_spec "0001" []); Some (demo_spec "a" ["b"]); Some (demo_spec "b" ["a"])] in
  scan {[ "main" := demo_view ]} "main" None false files = Some ([["0002"]; ["0003"]], [Cycle ["a"; "b"]])
  /\ exists d, d ∈ deps (by_id (scanned {[ "main" := demo_view ]} "main" None files)) "a" /\ d ∈ ["a"; "b"].
Proof.
  intros files. split; [by vm_compute|].
  destruct (order_respects_dependencies {[ "main" := demo_view ]} "main" None false files)
    as (ls & ps & Hs & _ & _ & _ & _ & Hc).
  - intros s Hs. repeat (apply elem_of_cons in Hs as [[= ->]|Hs]; [done|]). set_solver.
  - vm_compute in Hs. injection Hs as <- <-. apply (Hc ["a"; "b"]); set_solver.
Defined.

(** Each gate as a condition of its own. *)
Lemma gate_runnable e v :
  epoch e <> "" ->
  is_runnable (status (gate e v)) = true <->
  is_runnable (status e) = true
  /\ (database e = "" \/ v_database v = "" \/ database e = v_database v)
  /\ (environment e = "" \/ environment e = v_environment v)
  /\ epoch e ∉ epochs_retired v
  /\ (epoch e ∈ epochs_live v \/ epochs_live v = ∅)
  /\ (release e = "" \/ release e ∈ releases_ready v).
Proof.
  intros Hep. unfold gate.
  destruct (is_runnable (status e)) eqn:Hr; cbn [negb]; [|split; [congruence|by intros [? _]]].
  destruct (negb (String.eqb (database e) "") && _ && _) eqn:G1.
  { split; [done|]. intros (_ & H & _). bool_prop.
    destruct (String.eqb_spec (database e) ""), (String.eqb_spec (v_database v) ""),
      (String.eqb_spec (database e) (v_database v)); naive_solver. }
  assert (P1 : database e = "" \/ v_database v = "" \/ database e = v_database v).
  { destruct (String.eqb_spec (database e) ""), (String.eqb_spec (v_database v) ""),
      (String.eqb_spec (database e) (v_database v)); naive_solver. }
  clear G1. destruct (negb (String.eqb (environment e) "") && String.eqb (v_environment v) "") eqn:G2.
  { split; [done|]. intros (_ & _ & H & _). bool_prop.
    destruct (String.eqb_spec (environment e) ""), (String.eqb_spec (v_environment v) ""); naive_solver congruence. }
  destruct (negb (String.eqb (environment e) "") && negb (String.eqb (environment e) (v_environment v))) eqn:G3.
  { split; [done|]. intros (_ & _ & H & _). bool_prop.
    destruct (String.eqb_spec (environment e) ""), (String.eqb_spec (environment e) (v_environment v)); naive_solver. }
  assert (P2 : environment e = "" \/ environment e = v_environment v).
  { destruct (String.eqb_spec (environment e) ""), (String.eqb_spec (environment e) (v_environment v)); naive_solver. }
  clear G2 G3. case_bool_decide as G4; [split; [done|naive_solver]|].
  destruct (String.eqb_spec (epoch e) ""); [done|]. cbn [negb andb].
  case_bool_decide as G5; [case_bool_decide as G6; cbn [andb]|cbn [andb]].
  { split; [done|naive_solver]. }
  all: assert (P5 : epoch e ∈ epochs_live v \/ epochs_live v = ∅) by
    (destruct (decide (epoch e ∈ epochs_live v)), (decide (epochs_live v = ∅)); tauto).
  all: destruct (String.eqb_spec (release e) "") as [Hrel|Hrel]; cbn [negb andb];
    [rewrite Hr; split; [intros _; split_and!; auto|done]|].
  all: destruct (decide (release e ∈ releases_ready v)) as [G7|G7];
    [rewrite bool_decide_eq_false_2 by tauto; rewrite Hr; split; [intros _; split_and!; auto|done]
    |rewrite bool_decide_eq_true_2 by done; simpl; split; [done|intros (_ & _ & _ & _ & _ & ?); tauto]].
Qed.

(** What may run is the database's decision. A specification is listed as
    runnable exactly when its connection is configured, the ledger of that
    database records neither a running job of this digest nor a success of any
    digest of its id in its epoch, the database is the one it names if it names
    one and the name can be read, the database is labelled with the environment
    it names if it names one, its epoch is not retired and is open where the
    database keeps epochs at all, and its release, if it has one, is approved. *)
Theorem runnable_when_the_database_agrees registry dc s :
  let e := entry_of dc s in
  is_runnable (status (read_entry registry dc s)) = true <->
  exists v, registry !! connection e = Some v
    /\ (forall ids r, applied v !! epoch e = Some ids -> ids !! si_id s = Some r ->
          si_digest s ∉ running r /\ succeeded r = [])
    /\ (si_database s = "" \/ v_database v = "" \/ si_database s = v_database v)
    /\ (si_environment s = "" \/ si_environment s = v_environment v)
    /\ epoch e ∉ epochs_retired v
    /\ (epoch e ∈ epochs_live v \/ epochs_live v = ∅)
    /\ (si_release s = "" \/ si_release s ∈ releases_ready v).
Proof.
  intros e. unfold read_entry. fold e. destruct (registry !! connection e) as [v|] eqn:Hreg;
    [|by split; [|intros (v & H & _)]].
  assert (Hlist : forall l, listed (si_digest s) l = true <-> si_digest s ∈ l).
  { intros l. unfold listed. rewrite existsb_exists. setoid_rewrite String.eqb_eq.
    split; [intros (x & Hx & ->); by apply list_elem_of_In|intros Hx; exists (si_digest s)].
    by rewrite <- list_elem_of_In. }
  assert (Hclass : is_runnable (status (classify (with_identity e v) (applied v))) = true <->
    forall ids r, applied v !! epoch e = Some ids -> ids !! si_id s = Some r ->
      si_digest s ∉ running r /\ succeeded r = []).
  { unfold classify. simpl. change (epoch e) with (epoch (entry_of dc s)). cbn [epoch entry_of].
    set (ep := if String.eqb (si_epoch s) "" then "default" else si_epoch s).
    destruct (applied v !! ep) as [ids|] eqn:Hids; [|split; [intros _ ids r [=]|done]].
    destruct (ids !! si_id s) as [r|] eqn:Hr; [|split; [intros _ ? r [= <-]; congruence|done]].
    transitivity (si_digest s ∉ running r /\ succeeded r = []);
      [|split; [intros H ? ? [= <-]; rewrite Hr; by intros [= <-]|intros H; by apply (H ids r)]].
    destruct (listed (si_digest s) (running r)) eqn:E1.
    { apply Hlist in E1. split; [done|]. by intros [? _]. }
    assert (si_digest s ∉ running r) by (rewrite <- Hlist; congruence).
    destruct (succeeded r) as [|d ds] eqn:Es; simpl; [case_if; by split|].
    case_if; split; try done; by intros [_ ?]. }
  transitivity (is_runnable (status (classify (with_identity e v) (applied v))) = true
    /\ (si_database s = "" \/ v_database v = "" \/ si_database s = v_database v)
    /\ (si_environment s = "" \/ si_environment s = v_environment v)
    /\ epoch e ∉ epochs_retired v /\ (epoch e ∈ epochs_live v \/ epochs_live v = ∅)
    /\ (si_release s = "" \/ si_release s ∈ releases_ready v)).
  2:{ rewrite Hclass. split; [intros H; by exists v|intros (? & [= <-] & H); exact H]. }
  destruct (classify_same (with_identity e v) (applied v)) as (_ & _ & E1 & E2 & E3 & E4).
  assert (Hep : epoch e <> "") by (subst e; simpl; by destruct (String.eqb_spec (si_epoch s) "")).
  rewrite gate_runnable by (rewrite E3; exact Hep). rewrite E1, E2, E3, E4. reflexivity.
Qed.

(** ** Groups *)

Section Groups.

Lemma gather_perm leader group rs rest :
  let '(g, later) := gather leader group rs rest in g ++ later ≡ₚ group ++ rest.
Proof.
  revert group rs. induction rest as [|e rest IH]; intros group rs; cbn [gather]; [done|].
  assert (Hin : forall group' rs', let '(g, later) := gather leader (group' ++ [e]) rs' rest in
                  g ++ later ≡ₚ group' ++ e :: rest).
  { intros group' rs'. specialize (IH (group' ++ [e]) rs').
    destruct (gather leader (group' ++ [e]) rs' rest) as [g later]. by rewrite IH, <- app_assoc. }
  assert (Hout : let '(g, later) := gather leader group rs rest in g ++ e :: later ≡ₚ group ++ e :: rest).
  { specialize (IH group rs). destruct (gather leader group rs rest) as [g later].
    by rewrite <- !Permutation_middle, IH. }
  repeat case_if; try apply Hin; by destruct (gather leader group rs rest).
Qed.

Lemma gather_length leader group rs rest :
  let '(g, later) := gather leader group rs rest in (length later <= length rest)%nat /\ exists g', g = group ++ g'.
Proof.
  revert group rs. induction rest as [|e rest IH]; intros group rs; cbn [gather].
  { split; [done|exists []; by rewrite app_nil_r]. }
  repeat case_if.
  - specialize (IH (group ++ [e]) rs). destruct (gather leader (group ++ [e]) rs rest) as [g later].
    destruct IH as [IH [g' ->]]. split; [simpl; lia|]. exists (e :: g'). by rewrite <- app_assoc.
  - specialize (IH group rs). destruct (gather leader group rs rest) as [g later].
    destruct IH as [IH [g' ->]]. split; [simpl; lia|]. by exists g'.
  - specialize (IH group rs). destruct (gather leader group rs rest) as [g later].
    destruct IH as [IH [g' ->]]. split; [simpl; lia|]. by exists g'.
  - specialize (IH (group ++ [e]) (rs ∪ relations (rels e))).
    destruct (gather leader (group ++ [e]) (rs ∪ relations (rels e)) rest) as [g later].
    destruct IH as [IH [g' ->]]. split; [simpl; lia|]. exists (e :: g'). by rewrite <- app_assoc.
Qed.

Lemma parallel_subsets_perm fuel ready :
  (length ready <= fuel)%nat -> mjoin (parallel_subsets fuel ready) ≡ₚ ready.
Proof.
  revert ready. induction fuel as [|fuel IH]; intros [|e rest] Hf; simpl in *; try lia; [done|done|].
  pose proof (gather_perm e [e] (relations (rels e)) rest) as Hp.
  pose proof (gather_length e [e] (relations (rels e)) rest) as Hl.
  destruct (gather e [e] (relations (rels e)) rest) as [g later]. destruct Hl as [Hl _].
  change (mjoin (g :: parallel_subsets fuel later)) with (g ++ mjoin (parallel_subsets fuel later)).
  rewrite IH by lia. exact Hp.
Qed.

(** Two specifications that may run together: no relation in common, and nothing
    unseen in either. *)
Definition independent (a b : RepoEntry) : Prop :=
  relations (rels a) ∩ relations (rels b) = ∅ /\ complete (rels a) = true /\ complete (rels b) = true.

Fixpoint pairwise (g : list RepoEntry) : Prop :=
  match g with [] => True | a :: g' => Forall (independent a) g' /\ pairwise g' end.

Lemma pairwise_snoc g e : pairwise g -> Forall (fun a => independent a e) g -> pairwise (g ++ [e]).
Proof.
  induction g as [|a g IH]; simpl; [by repeat constructor|]. intros [H1 H2] Hf.
  apply Forall_cons in Hf as [Hae Hf]. split; [|auto]. apply Forall_app. split; [exact H1|constructor; [exact Hae|constructor]].
Qed.

Lemma gather_pairwise leader group rs rest :
  (forall e, e ∈ rest -> provably_different_databases leader e = false) ->
  leader ∈ group -> pairwise group ->
  (forall a, a ∈ group -> relations (rels a) ⊆ rs) ->
  ((length group <= 1)%nat \/ Forall (fun a => complete (rels a) = true) group) ->
  pairwise (gather leader group rs rest).1.
Proof.
  revert group rs. induction rest as [|e rest IH]; intros group rs Hsame Hlead Hp Hrs Hc; cbn [gather]; [done|].
  rewrite Hsame by set_solver.
  assert (Hskip : pairwise (gather leader group rs rest).1) by (apply IH; auto; set_solver).
  destruct (bool_decide_reflect (rs ∩ relations (rels e) <> ∅)) as [|Hdis].
  { by destruct (gather leader group rs rest). }
  destruct (complete (rels leader)) eqn:Cl; cbn [negb orb]; [|by destruct (gather leader group rs rest)].
  destruct (complete (rels e)) eqn:Ce; cbn [negb orb]; [|by destruct (gather leader group rs rest)].
  assert (Hdis' : rs ∩ relations (rels e) = ∅) by (by apply dec_stable).
  assert (Hall : Forall (fun a => complete (rels a) = true) group).
  { destruct Hc as [Hlen|]; [|done]. destruct group as [|a [|]]; simpl in Hlen; try lia; [constructor|].
    apply list_elem_of_singleton in Hlead as <-. by repeat constructor. }
  apply IH; [set_solver|set_solver| |set_solver|right].
  - apply pairwise_snoc; [done|]. rewrite Forall_forall in *. intros a Ha.
    split; [|auto]. specialize (Hrs a Ha). set_solver.
  - apply Forall_app. split; [exact Hall|constructor; [exact Ce|constructor]].
Qed.

Lemma parallel_subsets_pairwise fuel ready :
  (forall a b, a ∈ ready -> b ∈ ready -> provably_different_databases a b = false) ->
  Forall pairwise (parallel_subsets fuel ready).
Proof.
  revert ready. induction fuel as [|fuel IH]; intros [|e rest] Hsame; simpl; try constructor.
  pose proof (gather_pairwise e [e] (relations (rels e)) rest) as Hp.
  pose proof (gather_perm e [e] (relations (rels e)) rest) as Hperm.
  destruct (gather e [e] (relations (rels e)) rest) as [g later]. simpl in Hp. constructor.
  - apply Hp; [intros x Hx; apply Hsame; set_solver|set_solver|by repeat constructor| |left; simpl; lia].
    intros a ->%list_elem_of_singleton. done.
  - apply IH. intros a b Ha Hb.
    assert (Hsub : forall x, x ∈ later -> x ∈ e :: rest).
    { intros x Hx. change (e :: rest) with ([e] ++ rest). rewrite <- Hperm. set_solver. }
    apply Hsame; auto.
Qed.

End Groups.

(** C15: The concurrent groups of a level, where its specifications are not
    provably on different databases: every specification is in exactly one
    group, and any two in one group share no relation and have nothing unseen
    in either. *)
Theorem groups_in_one_database_are_independent ready :
  (forall a b, a ∈ ready -> b ∈ ready -> provably_different_databases a b = false) ->
  let groups := parallel_subsets (length ready) ready in
  mjoin groups ≡ₚ ready /\ Forall pairwise groups.
Proof. intros H groups. split; [by apply parallel_subsets_perm|by apply parallel_subsets_pairwise]. Qed.

Definition demo_entry (id db : string) (rs : gset string) (unseen : list string) : RepoEntry :=
  {| spec_id := id; digest := id; status := kPending; depends_on := [];
     rels := {| relations := rs; opaque := unseen |}; applied_digest := ""; connection := db;
     database_name := "app"; database_identity := db; database := ""; environment := "";
     release := ""; epoch := "default" |}.

(** [groups_in_one_database_are_independent]: two apart, one that overlaps, one with a trigger. *)
Lemma groups_in_one_database_are_independent_witness :
  let ready := [demo_entry "a" "1" {[ "shop.orders" ]} []; demo_entry "b" "1" {[ "shop.users" ]} [];
                demo_entry "c" "1" {[ "shop.orders" ]} []; demo_entry "d" "1" {[ "shop.log" ]} ["a trigger"]] in
  map (map spec_id) (parallel_subsets 4 ready) = [["a"; "b"]; ["c"]; ["d"]]
  /\ Forall pairwise (parallel_subsets 4 ready).
Proof.
  intros ready. split; [by vm_compute|].
  apply (groups_in_one_database_are_independent ready).
  intros a b Ha Hb.
  repeat (apply elem_of_cons in Ha as [->|Ha]; [repeat (apply elem_of_cons in Hb as [->|Hb]; [by vm_compute|]); set_solver|]);
    set_solver.
Defined.

(** Across databases the groups are not safe: a specification joins a group
    because its database is not the leader's, without being compared with the
    others of its own database that joined the same way. Two specifications of
    one database that write the same table end up in one concurrent group. *)
Theorem followers_of_another_database_are_not_compared :
  let leader := demo_entry "a" "1" {[ "shop.orders" ]} [] in
  let x := demo_entry "x" "2" {[ "shop.users" ]} [] in
  let y := demo_entry "y" "2" {[ "shop.users" ]} [] in
  parallel_subsets 3 [leader; x; y] = [[leader; x; y]]
  /\ provably_different_databases x y = false
  /\ relations (rels x) ∩ relations (rels y) <> ∅
  /\ parallel_subsets 2 [x; y] = [[x]; [y]].
Proof. cbv zeta. split; [by vm_compute|]. split; [by vm_compute|]. split; [set_solver|by vm_compute]. Qed.
