(* ===== verification/Config.v ===== *)
(** * Config: the configuration file and connection strings (src/cpp/src/config.h)

    The INI file parsed into connections, executor settings and a trust
    policy; the checks that make a configuration usable before anything
    connects; libpq connection strings; base64. What the code throws is an
    [Err] with what it is about; file permissions are not modelled. *)
From S2P Require Import Prelude Canonical CanonicalFacts.

Inductive config_error : Type :=
  | NotPositive (key value : string)
  | NotNonNegative (key value : string)
  | EmptyList (key : string)
  | EmptyEntry (key : string)
  | CapBelowBatch
  | PauseBelowThrottle
  | ResumeNotBelowPause
  | TickAboveInterval
  | SafetyAbove100
  | UnterminatedHeader
  | EmptySection
  | DuplicateSection (name : string)
  | KeyOutsideSection
  | NoEquals
  | EmptyKey
  | DuplicateKey (section key : string)
  | UnknownKey (section key : string)
  | KeyWithoutId
  | KeyWithoutBytes (id : string)
  | KeyWithoutLabel (id : string)
  | KeySize (id : string) (n : nat)
  | NoModule (name : string)
  | OptionsRefused (section : string)
  | NoParameters (section : string)
  | AcceptsUnknownKey (id : string)
  | Base64Length
  | Base64Padding
  | Base64Character (c : ascii)
  | Base64AfterPadding.

(** ** Text *)

(** [detail::trim]. *)
Definition trim (s : string) : string :=
  let front := drop_blanks (String.list_ascii_of_string s) in
  String.string_of_list_ascii (rev (drop_blanks (rev front))).

(** [detail::strip_comment]: up to the first [;] or [#]. *)
Fixpoint strip_comment (s : string) : string :=
  match s with
  | EmptyString => ""
  | String c s' => if Ascii.eqb c ";" || Ascii.eqb c "#" then "" else String c (strip_comment s')
  end.

(** The text before the first [c] and after it. *)
Fixpoint split_first (c : ascii) (s : string) : option (string * string) :=
  match s with
  | EmptyString => None
  | String d s' =>
      if Ascii.eqb d c then Some ("", s')
      else '(a, b) ← split_first c s'; Some (String d a, b)
  end.

(** The pieces between commas; one more than there are commas. *)
Fixpoint split_on (c : ascii) (s : string) : list string :=
  match s with
  | EmptyString => [""]
  | String d s' =>
      let l := split_on c s' in
      if Ascii.eqb d c then "" :: l
      else match l with p :: l' => String d p :: l' | [] => [String d ""] end
  end.

(** [detail::module_compiled_in]; [set_] is PGLASWELL_MODULE_SET. *)
Definition module_compiled_in (set_ mod_ : string) : bool :=
  existsb (fun item => negb (String.eqb item "") && String.eqb item mod_) (split_on "," set_).

(** [std::isspace] in the "C" locale. *)
Definition is_space (c : ascii) : bool :=
  let b := byte_val c in (b =? 32) || ((9 <=? b) && (b <=? 13)).

Fixpoint skip_spaces (s : string) : string :=
  match s with
  | String c s' => if is_space c then skip_spaces s' else s
  | EmptyString => ""
  end.

(** [std::stol] with a 64-bit [long]: the value and what is left unread; [None] is
    an exception. *)
Definition stol (s : string) : option (Z * string) :=
  let s := skip_spaces s in
  let '(neg, s) := match s with
                   | String c s' => if Ascii.eqb c "-" then (true, s')
                                    else if Ascii.eqb c "+" then (false, s') else (false, s)
                   | EmptyString => (false, s)
                   end in
  match s with
  | String c _ =>
      if is_digit c then
        let '(n, rest) := read_digits 0 s in
        let v := if (neg : bool) then - n else n in
        if (- 2 ^ 63 <=? v) && (v <? 2 ^ 63) then Some (v, rest) else None
      else None
  | EmptyString => None
  end.

Definition positive_int (value key : string) : result config_error Z :=
  match stol value with
  | Some (v, rest) =>
      if negb (String.eqb rest "") || (v <=? 0) || (v >? 2147483647) then Err (NotPositive key value)
      else Ok v
  | None => Err (NotPositive key value)
  end.

Definition non_negative_int (value key : string) : result config_error Z :=
  match stol value with
  | Some (v, rest) =>
      if negb (String.eqb rest "") || (v <? 0) || (v >? 2147483647) then Err (NotNonNegative key value)
      else Ok v
  | None => Err (NotNonNegative key value)
  end.

(** [detail::split_list]. *)
Definition split_list (value key : string) : result config_error (list string) :=
  if String.eqb (trim value) "" then Err (EmptyList key)
  else
    sequence ((fun piece => if String.eqb (trim piece) "" then Err (EmptyEntry key) else Ok (trim piece))
              <$> split_on "," value).

(** ** Connection strings *)

Definition squote : ascii := byte_of 39.
Definition backslash : ascii := byte_of 92.

Fixpoint escape_conninfo (s : string) : string :=
  match s with
  | EmptyString => ""
  | String c s' =>
      if Ascii.eqb c squote || Ascii.eqb c backslash then String backslash (String c (escape_conninfo s'))
      else String c (escape_conninfo s')
  end.

Definition needs_quoting (v : string) : bool :=
  String.eqb v ""
  || existsb (fun c => Ascii.eqb c " " || Ascii.eqb c (byte_of 9) || Ascii.eqb c squote
                       || Ascii.eqb c backslash) (String.list_ascii_of_string v).

Definition quote_conninfo (v : string) : string :=
  if needs_quoting v then String squote (escape_conninfo v +:+ String squote "") else v.

Definition is_conninfo_uri (url : string) : bool :=
  String.prefix "postgresql://" url || String.prefix "postgres://" url.

Definition upper_hex (n : Z) : ascii := if n <? 10 then byte_of (48 + n) else byte_of (55 + n).

Definition unreserved (c : ascii) : bool :=
  let b := byte_val c in
  ((65 <=? b) && (b <=? 90)) || ((97 <=? b) && (b <=? 122)) || ((48 <=? b) && (b <=? 57))
  || (b =? 45) || (b =? 46) || (b =? 95) || (b =? 126).

Fixpoint percent_encode (v : string) : string :=
  match v with
  | EmptyString => ""
  | String c v' =>
      if unreserved c then String c (percent_encode v')
      else String "%" (String (upper_hex (Z.shiftr (byte_val c) 4))
             (String (upper_hex (Z.land (byte_val c) 15)) (percent_encode v')))
  end.

(** A parameter added to either spelling of a connection string. *)
Definition with_parameter (name url value : string) : string :=
  if negb (is_conninfo_uri url) then url +:+ " " +:+ name +:+ "=" +:+ quote_conninfo value
  else
    let sep := if existsb (Ascii.eqb "?") (String.list_ascii_of_string url) then "&" else "?" in
    url +:+ sep +:+ name +:+ "=" +:+ percent_encode value.

Definition with_application_name (url app_name : string) : string := with_parameter "application_name" url app_name.
Definition with_dbname (conninfo dbname : string) : string := with_parameter "dbname" conninfo dbname.

(** ** Executor settings *)

(** The integer members of [ExecutorConfig], by name. *)
Inductive Setting : Type :=
  | batch_rows | commit_interval_ms | batch_cap_rows | progress_interval_ms | batch_bytes
  | dml_single_txn_rows | lock_timeout_ms | dry_run_statement_timeout_ms | observer_tick_ms
  | max_concurrent_jobs | max_concurrent_operations | host_vcpus | maintenance_work_mem_mb
  | throttle_waiters | pause_waiters | resume_waiters | contention_dwell_ticks
  | max_waiter_wait_ms | max_pause_s | app_pool_size | app_statement_timeout_ms | safety_percent.

#[export] Instance Setting_eq_dec : EqDecision Setting.
Proof. solve_decision. Defined.

(** [ExecutorConfig]: a value for every member, and what modules read. *)
Record ExecutorConfig : Type := {
  setting : Setting -> Z;
  module_settings : list (string * string);
}.

Definition default_setting (s : Setting) : Z :=
  match s with
  | batch_rows => 1000 | commit_interval_ms => 1000 | batch_cap_rows => 10000
  | progress_interval_ms => 10000 | batch_bytes => Z.shiftl 1 20 | dml_single_txn_rows => 1000
  | lock_timeout_ms => 3000 | dry_run_statement_timeout_ms => 10000 | observer_tick_ms => 250
  | max_concurrent_jobs => 2 | max_concurrent_operations => 0 | host_vcpus => 0
  | maintenance_work_mem_mb => 0 | throttle_waiters => 4 | pause_waiters => 8 | resume_waiters => 1
  | contention_dwell_ticks => 3 | max_waiter_wait_ms => 5000 | max_pause_s => 300
  | app_pool_size => 0 | app_statement_timeout_ms => 0 | safety_percent => 25
  end.

Definition default_executor : ExecutorConfig :=
  {| setting := default_setting; module_settings := [] |}.

Definition set_value (e : ExecutorConfig) (s : Setting) (v : Z) : ExecutorConfig :=
  {| setting := fun s' => if decide (s' = s) then v else setting e s'; module_settings := module_settings e |}.

(** The keys of the file, and whether 0 is allowed. *)
Definition setting_of_key (key : string) : option (Setting * bool) :=
  if String.eqb key "batch_rows" then Some (batch_rows, false)
  else if String.eqb key "batch_bytes" then Some (batch_bytes, false)
  else if String.eqb key "commit_interval_ms" then Some (commit_interval_ms, false)
  else if String.eqb key "progress_interval_ms" then Some (progress_interval_ms, false)
  else if String.eqb key "batch_cap_rows" then Some (batch_cap_rows, false)
  else if String.eqb key "max_concurrent_operations" then Some (max_concurrent_operations, true)
  else if String.eqb key "dml_single_txn_rows" then Some (dml_single_txn_rows, false)
  else if String.eqb key "lock_timeout_ms" then Some (lock_timeout_ms, false)
  else if String.eqb key "dry_run_statement_timeout_ms" then Some (dry_run_statement_timeout_ms, false)
  else if String.eqb key "observer_tick_ms" then Some (observer_tick_ms, false)
  else if String.eqb key "max_concurrent_jobs" then Some (max_concurrent_jobs, false)
  else if String.eqb key "host_vcpus" then Some (host_vcpus, false)
  else if String.eqb key "maintenance_work_mem_mb" then Some (maintenance_work_mem_mb, false)
  else if String.eqb key "throttle_waiters" then Some (throttle_waiters, false)
  else if String.eqb key "pause_waiters" then Some (pause_waiters, false)
  else if String.eqb key "resume_waiters" then Some (resume_waiters, true)
  else if String.eqb key "contention_dwell_ticks" then Some (contention_dwell_ticks, false)
  else if String.eqb key "max_waiter_wait_ms" then Some (max_waiter_wait_ms, false)
  else if String.eqb key "max_pause_s" then Some (max_pause_s, false)
  else if String.eqb key "app_pool_size" then Some (app_pool_size, true)
  else if String.eqb key "app_statement_timeout_ms" then Some (app_statement_timeout_ms, true)
  else if String.eqb key "safety_percent" then Some (safety_percent, false)
  else None.

(** [apply_executor_key]: [None] is the [false] it returns. *)
Definition apply_executor_key (e : ExecutorConfig) (key value : string) :
  result config_error (option ExecutorConfig) :=
  match setting_of_key key with
  | None => Ok None
  | Some (s, zero_ok) =>
      v ← (if (zero_ok : bool) then non_negative_int value key else positive_int value key);
      Ok (Some (set_value e s v))
  end.

Definition validate_executor (e : ExecutorConfig) : result config_error unit :=
  _ ← throw_if (setting e batch_cap_rows <? setting e batch_rows) CapBelowBatch;
  _ ← throw_if (setting e pause_waiters <? setting e throttle_waiters) PauseBelowThrottle;
  _ ← throw_if (setting e pause_waiters <=? setting e resume_waiters) ResumeNotBelowPause;
  _ ← throw_if (setting e observer_tick_ms >? setting e commit_interval_ms) TickAboveInterval;
  throw_if (setting e safety_percent >? 100) SafetyAbove100.

(** ** Base64

    Bytes are the characters of a string. *)
Definition b64_char (n : Z) : ascii :=
  if n <? 26 then byte_of (65 + n)
  else if n <? 52 then byte_of (97 + (n - 26))
  else if n <? 62 then byte_of (48 + (n - 52))
  else if n =? 62 then byte_of 43 else byte_of 47.

(** The lambda [value]; -1 outside the alphabet. *)
Definition b64_value (c : ascii) : Z :=
  let b := byte_val c in
  if (65 <=? b) && (b <=? 90) then b - 65
  else if (97 <=? b) && (b <=? 122) then b - 97 + 26
  else if (48 <=? b) && (b <=? 57) then b - 48 + 52
  else if b =? 43 then 62 else if b =? 47 then 63 else -1.

(** Four characters of [(b0 << 16) | (b1 << 8) | b2]. *)
Definition b64_quad (t : Z) (third fourth : bool) : string :=
  String (b64_char (Z.land (Z.shiftr t 18) 63))
    (String (b64_char (Z.land (Z.shiftr t 12) 63))
      (String (if third then b64_char (Z.land (Z.shiftr t 6) 63) else "="%char)
        (String (if fourth then b64_char (Z.land t 63) else "="%char) ""))).

Definition triple_of (b0 b1 b2 : Z) : Z := Z.lor (Z.lor (Z.shiftl b0 16) (Z.shiftl b1 8)) b2.

Fixpoint base64_encode (bytes : string) : string :=
  match bytes with
  | EmptyString => ""
  | String b0 EmptyString => b64_quad (triple_of (byte_val b0) 0 0) false false
  | String b0 (String b1 EmptyString) => b64_quad (triple_of (byte_val b0) (byte_val b1) 0) true false
  | String b0 (String b1 (String b2 rest)) =>
      b64_quad (triple_of (byte_val b0) (byte_val b1) (byte_val b2)) true true +:+ base64_encode rest
  end.

(** The inner loop over four characters, from position [j] with [pad] so far. *)
Fixpoint b64_digits (j : nat) (pad : Z) (cs : list ascii) : result config_error (list Z * Z) :=
  match cs with
  | [] => Ok ([], pad)
  | c :: cs' =>
      if Ascii.eqb c "=" then
        if (j <? 2)%nat then Err Base64Padding
        else '(ns, p) ← b64_digits (S j) (pad + 1) cs'; Ok (0 :: ns, p)
      else if b64_value c <? 0 then Err (Base64Character c)
      else if pad >? 0 then Err Base64AfterPadding
      else '(ns, p) ← b64_digits (S j) pad cs'; Ok (b64_value c :: ns, p)
  end.

Definition b64_bytes (ns : list Z) (pad : Z) : string :=
  match ns with
  | [n0; n1; n2; n3] =>
      let triple := Z.lor (Z.lor (Z.lor (Z.shiftl n0 18) (Z.shiftl n1 12)) (Z.shiftl n2 6)) n3 in
      String (byte_of (Z.land (Z.shiftr triple 16) 255))
        ((if pad <? 2 then String (byte_of (Z.land (Z.shiftr triple 8) 255)) "" else "")
         +:+ (if pad <? 1 then String (byte_of (Z.land triple 255)) "" else ""))
  | _ => ""
  end.

Fixpoint b64_loop (s : string) : result config_error string :=
  match s with
  | EmptyString => Ok ""
  | String c0 (String c1 (String c2 (String c3 rest))) =>
      '(ns, pad) ← b64_digits 0 0 [c0; c1; c2; c3];
      out ← b64_loop rest;
      Ok (b64_bytes ns pad +:+ out)
  | _ => Err Base64Length
  end.

Fixpoint drop_whitespace (s : string) : string :=
  match s with
  | EmptyString => ""
  | String c s' => if is_blank c then drop_whitespace s' else String c (drop_whitespace s')
  end.

Definition base64_decode (s : string) : result config_error string :=
  let s := drop_whitespace s in
  if negb (Nat.eqb (String.length s mod 4) 0) then Err Base64Length else b64_loop s.

(** ** Keys *)

(** [TrustedKey] and [TrustPolicy]; a key's bytes are a string. *)
Record TrustedKey : Type := { key_id : string; label : string; public_key : string }.
Record TrustPolicy : Type := { accept : list string; keys : gmap string TrustedKey }.

Definition configured (p : TrustPolicy) : bool := match accept p with [] => false | _ => true end.
Definition accepts (p : TrustPolicy) (id : string) : bool := existsb (fun k => String.eqb k id) (accept p).

Definition spki_prefix : string :=
  String.string_of_list_ascii (byte_of <$> [48; 42; 48; 5; 6; 3; 43; 101; 112; 3; 33; 0]).

Definition decode_public_key (b64 id : string) : result config_error string :=
  raw ← base64_decode b64;
  if Nat.eqb (String.length raw) 32 then Ok raw
  else if Nat.eqb (String.length raw) 44 && String.prefix spki_prefix raw
  then Ok (String.substring 12 32 raw)
  else Err (KeySize id (String.length raw)).

(** ** The file *)

Definition Section_ : Type := list (string * string).

(** The sections in the order they open, each with its keys in theirs. *)
Record IniState : Type := {
  ini_order : list (string * Section_);
  ini_current : string;
}.

Definition find_section (name : string) (l : list (string * Section_)) : option Section_ :=
  snd <$> List.find (fun s => String.eqb name s.1) l.

Definition add_key (name key value : string) (l : list (string * Section_)) : list (string * Section_) :=
  (fun s => if String.eqb name s.1 then (s.1, s.2 ++ [(key, value)]) else s) <$> l.

Definition last_char (s : string) : option ascii := last (String.list_ascii_of_string s).

(** One line. *)
Definition ini_line (st : IniState) (line : string) : result config_error IniState :=
  let text := trim (strip_comment line) in
  match text with
  | EmptyString => Ok st
  | String c rest =>
      if Ascii.eqb c "[" then
        if negb (bool_decide (last_char text = Some "]"%char)) then Err UnterminatedHeader
        else
          let section := trim (String.substring 1 (String.length text - 2) text) in
          if String.eqb section "" then Err EmptySection
          else
            match find_section section (ini_order st) with
            | Some _ => Err (DuplicateSection section)
            | None => Ok {| ini_order := ini_order st ++ [(section, [])]; ini_current := section |}
            end
      else if String.eqb (ini_current st) "" then Err KeyOutsideSection
      else
        match split_first "=" text with
        | None => Err NoEquals
        | Some (k, v) =>
            let key := trim k in
            if String.eqb key "" then Err EmptyKey
            else
              match find_section (ini_current st) (ini_order st) with
              | Some kv =>
                  if existsb (fun p => String.eqb key p.1) kv then Err (DuplicateKey (ini_current st) key)
                  else Ok {| ini_order := add_key (ini_current st) key (trim v) (ini_order st);
                             ini_current := ini_current st |}
              | None => Err KeyOutsideSection
              end
        end
  end.

Fixpoint ini_lines (st : IniState) (lines : list string) : result config_error IniState :=
  match lines with
  | [] => Ok st
  | l :: lines' => st' ← ini_line st l; ini_lines st' lines'
  end.

(** A [std::map]'s keys come in byte order. *)
Definition key_le (a b : string * string) : bool :=
  lex_leb (byte_val <$> String.list_ascii_of_string a.1) (byte_val <$> String.list_ascii_of_string b.1).

Definition in_key_order (kv : Section_) : Section_ := sort_by key_le kv.

(** [ConnConfig]. *)
Record ConnConfig : Type := {
  c_name : string;
  conninfo : string;
  c_host : string;
  c_port : string;
  c_dbname : string;
  c_user : string;
  c_service : string;
  statement_timeout_ms : Z;
  executor : ExecutorConfig;
}.

Record Registry : Type := {
  conns : gmap string ConnConfig;
  order : list string;
  default_name : string;
  trust : TrustPolicy;
  r_executor : ExecutorConfig;
}.

Definition empty_registry : Registry :=
  {| conns := ∅; order := []; default_name := ""; trust := {| accept := []; keys := ∅ |};
     r_executor := default_executor |}.

Fixpoint parse_trust (p : TrustPolicy) (kv : Section_) : result config_error TrustPolicy :=
  match kv with
  | [] => Ok p
  | (k, v) :: kv' =>
      if String.eqb k "accept" then
        l ← split_list v k;
        parse_trust {| accept := l; keys := keys p |} kv'
      else Err (UnknownKey "trust" k)
  end.

Fixpoint parse_key_fields (id : string) (k : TrustedKey) (kv : Section_) : result config_error TrustedKey :=
  match kv with
  | [] => Ok k
  | (f, v) :: kv' =>
      if String.eqb f "label" then
        parse_key_fields id {| key_id := key_id k; label := v; public_key := public_key k |} kv'
      else if String.eqb f "public_key" then
        b ← decode_public_key v id;
        parse_key_fields id {| key_id := key_id k; label := label k; public_key := b |} kv'
      else Err (UnknownKey id f)
  end.

Definition parse_key (p : TrustPolicy) (id : string) (kv : Section_) : result config_error TrustPolicy :=
  if String.eqb id "" then Err KeyWithoutId
  else
    k ← parse_key_fields id {| key_id := id; label := ""; public_key := "" |} kv;
    if String.eqb (public_key k) "" then Err (KeyWithoutBytes id)
    else if String.eqb (label k) "" then Err (KeyWithoutLabel id)
    else Ok {| accept := accept p; keys := <[id := k]> (keys p) |}.

Fixpoint parse_executor (e : ExecutorConfig) (kv : Section_) : result config_error ExecutorConfig :=
  match kv with
  | [] => Ok e
  | (k, v) :: kv' =>
      o ← apply_executor_key e k v;
      match o with Some e' => parse_executor e' kv' | None => Err (UnknownKey "executor" k) end
  end.

(** The loop of [parse_connection]: the configuration so far and the conninfo parts. *)
Fixpoint connection_keys (module_set : string) (c : ConnConfig) (parts : list string) (kv : Section_) :
  result config_error (ConnConfig * list string) :=
  match kv with
  | [] => Ok (c, parts)
  | (k, v) :: kv' =>
      let with_executor e t :=
        {| c_name := c_name c; conninfo := conninfo c; c_host := c_host c; c_port := c_port c;
           c_dbname := c_dbname c; c_user := c_user c; c_service := c_service c;
           statement_timeout_ms := t; executor := e |} in
      if String.eqb k "statement_timeout_ms" then
        t ← non_negative_int v k;
        connection_keys module_set (with_executor (executor c) t) parts kv'
      else
        o ← apply_executor_key (executor c) k v;
        match o with
        | Some e => connection_keys module_set (with_executor e (statement_timeout_ms c)) parts kv'
        | None =>
            match split_first "." k with
            | Some (mod_, _) =>
                if module_compiled_in module_set mod_ then
                  connection_keys module_set
                    (with_executor {| setting := setting (executor c);
                                      module_settings := module_settings (executor c) ++ [(k, v)] |}
                       (statement_timeout_ms c)) parts kv'
                else Err (NoModule mod_)
            | None =>
                if String.eqb k "options" then Err (OptionsRefused (c_name c))
                else
                  let c' := {| c_name := c_name c; conninfo := conninfo c;
                    c_host := if String.eqb k "host" then v else c_host c;
                    c_port := if String.eqb k "port" then v else c_port c;
                    c_dbname := if String.eqb k "dbname" then v else c_dbname c;
                    c_user := if String.eqb k "user" then v else c_user c;
                    c_service := if String.eqb k "service" then v else c_service c;
                    statement_timeout_ms := statement_timeout_ms c; executor := executor c |} in
                  connection_keys module_set c' (parts ++ [k +:+ "=" +:+ quote_conninfo v]) kv'
            end
        end
  end.

Definition parse_connection (module_set app_name : string) (r : Registry) (name : string) (kv : Section_) :
  result config_error Registry :=
  '(c, parts) ← connection_keys module_set
    {| c_name := name; conninfo := ""; c_host := ""; c_port := ""; c_dbname := ""; c_user := "";
       c_service := ""; statement_timeout_ms := 120000; executor := r_executor r |} [] kv;
  _ ← validate_executor (executor c);
  match parts with
  | [] => Err (NoParameters name)
  | _ =>
      let c' := {| c_name := c_name c;
        conninfo := join " " (parts ++ ["application_name=" +:+ quote_conninfo app_name]);
        c_host := c_host c; c_port := c_port c; c_dbname := c_dbname c; c_user := c_user c;
        c_service := c_service c; statement_timeout_ms := statement_timeout_ms c; executor := executor c |} in
      Ok {| conns := <[name := c']> (conns r); order := order r ++ [name];
            default_name := if String.eqb (default_name r) "" then name else default_name r;
            trust := trust r; r_executor := r_executor r |}
  end.

Definition with_trust (r : Registry) (p : TrustPolicy) : Registry :=
  {| conns := conns r; order := order r; default_name := default_name r; trust := p;
     r_executor := r_executor r |}.

(** One section of the file, by its name. *)
Definition parse_section (module_set app_name : string) (r : Registry) (s : string * Section_) :
  result config_error Registry :=
  let '(name, kv0) := s in
  let kv := in_key_order kv0 in
  if String.eqb name "trust" then p ← parse_trust (trust r) kv; Ok (with_trust r p)
  else if String.eqb name "executor" then
    e ← parse_executor (r_executor r) kv;
    _ ← validate_executor e;
    Ok {| conns := conns r; order := order r; default_name := default_name r; trust := trust r;
          r_executor := e |}
  else if String.prefix "key " name then
    p ← parse_key (trust r) (trim (String.substring 4 (String.length name - 4) name)) kv;
    Ok (with_trust r p)
  else parse_connection module_set app_name r name kv.

Fixpoint parse_sections (module_set app_name : string) (r : Registry) (l : list (string * Section_)) :
  result config_error Registry :=
  match l with
  | [] => Ok r
  | s :: l' => r' ← parse_section module_set app_name r s; parse_sections module_set app_name r' l'
  end.

(** [Registry::from_ini], from the lines of the file on. *)
Definition from_ini (module_set app_name : string) (lines : list string) : result config_error Registry :=
  st ← ini_lines {| ini_order := []; ini_current := "" |} lines;
  r ← parse_sections module_set app_name empty_registry (ini_order st);
  match List.find (fun id => bool_decide (keys (trust r) !! id = None)) (accept (trust r)) with
  | Some id => Err (AcceptsUnknownKey id)
  | None => Ok r
  end.

(** [Registry::from_url]. *)
Definition from_url (url app_name : string) : Registry :=
  {| conns := {[ "default" := {| c_name := "default"; conninfo := with_application_name url app_name;
       c_host := ""; c_port := ""; c_dbname := ""; c_user := ""; c_service := "";
       statement_timeout_ms := 120000; executor := default_executor |} ]};
     order := ["default"]; default_name := "default"; trust := {| accept := []; keys := ∅ |};
     r_executor := default_executor |}.
