(* ===== verification/ConfigFacts.v ===== *)
(** * ConfigFacts: what an accepted configuration guarantees

    The invariants of the executor's settings the rest of the development
    takes as hypotheses, established from the text of the file; base64 and
    connection strings read back; keys are whole. *)
From S2P Require Import Prelude Canonical CanonicalFacts Config.

(** ** Numbers *)
Lemma positive_int_range v k n : positive_int v k = Ok n -> 0 < n <= 2147483647.
Proof.
  unfold positive_int. destruct (stol v) as [[z rest]|]; [|discriminate].
  case_if; [discriminate|]. intros [= <-]. bool_prop. lia.
Qed.

Lemma non_negative_int_range v k n : non_negative_int v k = Ok n -> 0 <= n <= 2147483647.
Proof.
  unfold non_negative_int. destruct (stol v) as [[z rest]|]; [|discriminate].
  case_if; [discriminate|]. intros [= <-]. bool_prop. lia.
Qed.

(** ** The executor's settings *)

(** Settings whose default is 0 (off, or unknown) may stay at 0. *)
Definition may_be_zero (s : Setting) : bool :=
  match s with
  | max_concurrent_operations | host_vcpus | maintenance_work_mem_mb | resume_waiters
  | app_pool_size | app_statement_timeout_ms => true
  | _ => false
  end.

Definition in_range (e : ExecutorConfig) : Prop :=
  forall s, (if may_be_zero s then 0 else 1) <= setting e s <= 2147483647.

Record executor_ok (e : ExecutorConfig) : Prop := {
  settings_in_range : in_range e;
  cap_covers_batch : setting e batch_rows <= setting e batch_cap_rows;
  pause_above_throttle : setting e throttle_waiters <= setting e pause_waiters;
  resume_below_pause : setting e resume_waiters < setting e pause_waiters;
  tick_within_interval : setting e observer_tick_ms <= setting e commit_interval_ms;
  safety_is_a_percentage : 1 <= setting e safety_percent <= 100;
}.

Lemma default_in_range : in_range default_executor.
Proof. intros []; vm_compute; split; discriminate. Qed.

Lemma validate_executor_ok e u : in_range e -> validate_executor e = Ok u -> executor_ok e.
Proof.
  intros Hr H. unfold validate_executor in H. ok_inv. bool_prop.
  pose proof (Hr safety_percent) as Hs. simpl in Hs. constructor; (done || lia).
Qed.

Lemma setting_of_key_zero key s z : setting_of_key key = Some (s, z) -> z = true -> may_be_zero s = true.
Proof.
  unfold setting_of_key. intros H.
  repeat case_if_in H; try discriminate H; injection H as <- <-; by intros.
Qed.

Lemma apply_executor_key_in_range e k v e' :
  in_range e -> apply_executor_key e k v = Ok (Some e') -> in_range e'.
Proof.
  intros Hr H. unfold apply_executor_key in H.
  destruct (setting_of_key k) as [[s z]|] eqn:Hk; [|discriminate]. ok_inv.
  intros s'. simpl. case_decide as E; [|apply Hr]. subst s'.
  destruct z.
  - rewrite (setting_of_key_zero _ _ _ Hk eq_refl). by apply non_negative_int_range in H.
  - apply positive_int_range in H. destruct (may_be_zero s); lia.
Qed.

Lemma parse_executor_in_range e kv e' : in_range e -> parse_executor e kv = Ok e' -> in_range e'.
Proof.
  revert e; induction kv as [|[k v] kv IH]; intros e Hr H; simpl in H; ok_inv; [done|].
  destruct x as [e1|]; [|discriminate]. eauto using apply_executor_key_in_range.
Qed.

Lemma connection_keys_in_range ms c parts kv c' parts' :
  in_range (executor c) -> 0 <= statement_timeout_ms c ->
  connection_keys ms c parts kv = Ok (c', parts') ->
  in_range (executor c') /\ 0 <= statement_timeout_ms c' /\ c_name c' = c_name c.
Proof.
  revert c parts; induction kv as [|[k v] kv IH]; intros c parts Hr Ht H; simpl in H; [by ok_inv|].
  case_if_in H.
  { ok_inv. apply non_negative_int_range in H as ?. by apply IH in H0; [|done|simpl; lia]. }
  ok_inv. destruct x as [e|].
  { apply apply_executor_key_in_range in H; [|done]. by apply IH in H0. }
  destruct (split_first "." k) as [[m r]|].
  - case_if_in H0; [|discriminate]. by apply IH in H0.
  - case_if_in H0; [discriminate|]. by apply IH in H0.
Qed.

(** ** The registry *)
Record conn_ok (name : string) (c : ConnConfig) : Prop := {
  conn_executor_ok : executor_ok (executor c);
  conn_timeout_ok : 0 <= statement_timeout_ms c;
  conn_named : c_name c = name;
}.

Definition key_ok (id : string) (k : TrustedKey) : Prop :=
  key_id k = id /\ label k <> "" /\ String.length (public_key k) = 32%nat.

(** What parsing keeps, section by section. *)
Record registry_ok (r : Registry) : Prop := {
  base_in_range : in_range (r_executor r);
  conns_ok : forall n c, conns r !! n = Some c -> conn_ok n c;
  keys_ok : forall id k, keys (trust r) !! id = Some k -> key_ok id k;
  order_lists_conns : forall n, n ∈ order r <-> is_Some (conns r !! n);
  names_not_empty : Forall (fun n : string => n <> "") (order r);
  default_is_first : default_name r = default "" (head (order r));
}.

Lemma spki_tail raw : String.length raw = 44%nat -> String.length (String.substring 12 32 raw) = 32%nat.
Proof.
  intros H. do 12 (destruct raw as [|? raw]; [discriminate H|]). simpl in H.
  do 32 (destruct raw as [|? raw]; [discriminate H|]). by destruct raw.
Qed.

Lemma decode_public_key_size b id raw : decode_public_key b id = Ok raw -> String.length raw = 32%nat.
Proof.
  unfold decode_public_key. intros H. ok_inv. case_if_in H0.
  - ok_inv. by apply Nat.eqb_eq.
  - case_if_in H0; [|discriminate]. ok_inv. bool_prop. by apply spki_tail, Nat.eqb_eq.
Qed.

Lemma parse_key_fields_ok id k kv k' :
  parse_key_fields id k kv = Ok k' ->
  (public_key k = "" \/ String.length (public_key k) = 32%nat) ->
  key_id k' = key_id k /\ (public_key k' = "" \/ String.length (public_key k') = 32%nat).
Proof.
  revert k; induction kv as [|[f v] kv IH]; intros k H Hk; simpl in H; [by ok_inv|].
  case_if_in H; [by apply IH in H|]. case_if_in H; [|discriminate]. ok_inv.
  apply decode_public_key_size in H. apply IH in H0; [done|by right].
Qed.

Lemma parse_key_keys p id kv p' :
  parse_key p id kv = Ok p' -> exists k, p' = {| accept := accept p; keys := <[id := k]> (keys p) |} /\ key_ok id k.
Proof.
  unfold parse_key. case_if; [discriminate|]. intros H. ok_inv.
  case_if_in H0; [discriminate|]. case_if_in H0; [discriminate|]. ok_inv.
  apply parse_key_fields_ok in H as [Hid Hb]; [|by left]. exists x. split; [done|].
  apply String.eqb_neq in Heqb0, Heqb1. split; [done|]. split; [done|]. by destruct Hb.
Qed.

Lemma parse_trust_keys p kv p' : parse_trust p kv = Ok p' -> keys p' = keys p.
Proof.
  revert p; induction kv as [|[k v] kv IH]; intros p H; simpl in H; [by ok_inv|].
  case_if_in H; [|discriminate]. ok_inv. by apply IH in H0.
Qed.

Lemma parse_connection_ok ms app r name kv r' :
  name <> "" -> registry_ok r -> parse_connection ms app r name kv = Ok r' -> registry_ok r'.
Proof.
  intros Hn Hr H. unfold parse_connection in H. ok_inv. destruct x as [c parts]. ok_inv.
  apply connection_keys_in_range in H as (Hc & Ht & Hname); [|apply Hr|done].
  apply validate_executor_ok in H0; [|done].
  destruct parts as [|p ps]; [discriminate|]. ok_inv. destruct Hr as [Hb Hcs Hks Ho Hne Hd].
  constructor; simpl; [done| |done| | |].
  - intros n c'. rewrite lookup_insert_Some. intros [[<- <-]|[_ Hc']]; [|by apply Hcs].
    by constructor.
  - intros n. rewrite elem_of_app, list_elem_of_singleton, Ho, lookup_insert_is_Some.
    destruct (decide (name = n)); naive_solver.
  - apply Forall_app. by split; [|apply Forall_singleton].
  - destruct Hne as [|o os Ho' Hos]; simpl in Hd |- *; rewrite Hd; [done|].
    destruct (String.eqb_spec o ""); done.
Qed.

Lemma parse_section_ok ms app r s r' :
  s.1 <> "" -> registry_ok r -> parse_section ms app r s = Ok r' -> registry_ok r'.
Proof.
  destruct s as [name kv]. simpl. intros Hn Hr H. case_if_in H.
  { ok_inv. apply parse_trust_keys in H. destruct Hr. by constructor; simpl; rewrite ?H. }
  case_if_in H.
  { ok_inv. apply parse_executor_in_range in H; [|apply Hr]. destruct Hr. by constructor. }
  case_if_in H; [|by eapply parse_connection_ok].
  ok_inv. apply parse_key_keys in H as (k & -> & Hk). destruct Hr. constructor; simpl; try done.
  intros id' k'. rewrite lookup_insert_Some. naive_solver.
Qed.

Lemma parse_sections_ok ms app r l r' :
  Forall (fun s => s.1 <> "") l -> registry_ok r -> parse_sections ms app r l = Ok r' -> registry_ok r'.
Proof.
  intros Hl. revert r. induction Hl as [|s l Hs Hl IH]; intros r Hr H; simpl in H; ok_inv; [done|].
  eauto using parse_section_ok.
Qed.

Lemma empty_registry_ok : registry_ok empty_registry.
Proof.
  constructor; simpl; [apply default_in_range|set_solver..| |constructor|done].
  intros n. rewrite lookup_empty, is_Some_alt. set_solver.
Qed.

(** ** The text of the file *)

(** The sections in hand are named, and no name is used twice. *)
Definition sections_ok (l : list (string * Section_)) : Prop :=
  Forall (fun s => s.1 <> "") l /\ NoDup l.*1.

Lemma find_section_None name l : find_section name l = None -> name ∉ l.*1.
Proof.
  unfold find_section. rewrite fmap_None. intros H Hin.
  apply list_elem_of_fmap in Hin as (s & -> & Hs).
  eapply List.find_none in H; [|by apply list_elem_of_In]. by rewrite String.eqb_refl in H.
Qed.

Lemma add_key_names name k v l : (add_key name k v l).*1 = l.*1.
Proof. unfold add_key. rewrite <- list_fmap_compose. apply list_fmap_ext. intros i s _. simpl. by case_if. Qed.

Lemma ini_line_ok st line st' :
  ini_line st line = Ok st' -> sections_ok (ini_order st) -> sections_ok (ini_order st').
Proof.
  unfold ini_line, sections_ok. intros H [Hn Hd]. destruct (trim (strip_comment line)) as [|c rest]; [by ok_inv|].
  case_if_in H.
  - case_if_in H; [discriminate|]. case_if_in H; [discriminate|].
    destruct (find_section _ _) eqn:Hf in H; [discriminate|]. ok_inv. simpl.
    apply find_section_None in Hf. apply String.eqb_neq in Heqb1.
    rewrite fmap_app, Forall_app, NoDup_app. split_and!; try done.
    + by apply Forall_singleton.
    + intros n Hin Hin'. csimpl in Hin'. apply list_elem_of_singleton in Hin' as ->. done.
    + apply NoDup_singleton.
  - case_if_in H; [discriminate|]. destruct (split_first "=" _) as [[k v]|]; [|discriminate].
    case_if_in H; [discriminate|]. destruct (find_section _ _); [|discriminate].
    case_if_in H; [discriminate|]. ok_inv. simpl. rewrite add_key_names. split; [|done].
    apply Forall_fmap. eapply Forall_impl; [exact Hn|]. intros sec. simpl. by case_if.
Qed.

Lemma ini_lines_ok st lines st' :
  ini_lines st lines = Ok st' -> sections_ok (ini_order st) -> sections_ok (ini_order st').
Proof.
  revert st; induction lines as [|l ls IH]; intros st H Hs; simpl in H; ok_inv; [done|].
  eauto using ini_line_ok.
Qed.

Lemma from_ini_registry ms app lines r :
  from_ini ms app lines = Ok r ->
  registry_ok r /\ forall id, id ∈ accept (trust r) -> is_Some (keys (trust r) !! id).
Proof.
  unfold from_ini. intros H. ok_inv. destruct (List.find _ _) eqn:Hf in H1; [discriminate|]. ok_inv.
  apply ini_lines_ok in H as [Hn _]; [|split; constructor].
  split; [eauto using parse_sections_ok, empty_registry_ok|].
  intros id Hid. apply list_elem_of_In in Hid. eapply List.find_none in Hf; [|exact Hid].
  apply bool_decide_eq_false in Hf. by destruct (keys _ !! id); [eexists|].
Qed.

(** ** Base64 *)
Lemma lor_low k x y : 0 <= k -> (2 ^ k | x) -> 0 <= y < 2 ^ k -> Z.lor x y = x + y.
Proof.
  intros Hk [q ->] Hy. rewrite <- (lor_shiftl_add q k y) by done. by rewrite Z.shiftl_mul_pow2.
Qed.

Lemma land63 z : Z.land z 63 = z mod 64.
Proof. change 63 with (Z.ones 6). by rewrite Z.land_ones. Qed.
Lemma land255 z : Z.land z 255 = z mod 256.
Proof. change 255 with (Z.ones 8). by rewrite Z.land_ones. Qed.

Lemma triple_sum b0 b1 b2 :
  0 <= b0 < 256 -> 0 <= b1 < 256 -> 0 <= b2 < 256 ->
  triple_of b0 b1 b2 = b0 * 65536 + b1 * 256 + b2.
Proof.
  intros. unfold triple_of. rewrite !Z.shiftl_mul_pow2 by lia.
  rewrite (lor_low 16 (b0 * 2 ^ 16)) by (lia || (exists b0; lia)).
  rewrite (lor_low 8) by (lia || (exists (b0 * 256 + b1); lia)). lia.
Qed.

Lemma digits_sum n0 n1 n2 n3 :
  0 <= n0 < 64 -> 0 <= n1 < 64 -> 0 <= n2 < 64 -> 0 <= n3 < 64 ->
  Z.lor (Z.lor (Z.lor (Z.shiftl n0 18) (Z.shiftl n1 12)) (Z.shiftl n2 6)) n3
  = n0 * 262144 + n1 * 4096 + n2 * 64 + n3.
Proof.
  intros. rewrite !Z.shiftl_mul_pow2 by lia.
  rewrite (lor_low 18 (n0 * 2 ^ 18)) by (lia || (exists n0; lia)).
  rewrite (lor_low 12 _ (n2 * 2 ^ 6)) by (lia || (exists (n0 * 64 + n1); lia)).
  rewrite (lor_low 6 _ n3) by (lia || (exists (n0 * 4096 + n1 * 64 + n2); lia)). lia.
Qed.

Lemma b64_char_fact n :
  0 <= n < 64 -> b64_value (b64_char n) = n /\ b64_char n <> "="%char /\ is_blank (b64_char n) = false.
Proof.
  intros Hn.
  assert (forallb (fun n => (b64_value (b64_char n) =? n) && negb (Ascii.eqb (b64_char n) "=")
                            && negb (is_blank (b64_char n))) (seqZ 0 64) = true) as H by (vm_compute; done).
  rewrite forallb_forall in H. specialize (H n). rewrite <- list_elem_of_In, elem_of_seqZ in H.
  specialize (H ltac:(lia)). bool_prop. split_and!; [done| |done]. by apply Ascii.eqb_neq.
Qed.

(** The four characters of a triple, read back. *)
Section quad.
Context (t : Z) (Ht : 0 <= t < 16777216).
Let n0 := Z.land (Z.shiftr t 18) 63.
Let n1 := Z.land (Z.shiftr t 12) 63.
Let n2 := Z.land (Z.shiftr t 6) 63.
Let n3 := Z.land t 63.

Lemma digit_range k : 0 <= k -> 0 <= Z.land (Z.shiftr t k) 63 < 64.
Proof using Type. intros. rewrite land63. apply Z.mod_pos_bound. lia. Qed.

Lemma last_digit_range : 0 <= n3 < 64.
Proof using Type. unfold n3. rewrite land63. apply Z.mod_pos_bound. lia. Qed.

Lemma digits_of_triple : n0 * 262144 + n1 * 4096 + n2 * 64 + n3 = t.
Proof using Ht.
  unfold n0, n1, n2, n3. rewrite !land63, !Z.shiftr_div_pow2 by lia.
  change (2 ^ 18) with 262144. change (2 ^ 12) with 4096. change (2 ^ 6) with 64.
  Z.div_mod_to_equations. lia.
Qed.
End quad.

Lemma b64_digits_char j n cs :
  0 <= n < 64 ->
  b64_digits j 0 (b64_char n :: cs) = ('(ns, p) ← b64_digits (S j) 0 cs; Ok (n :: ns, p)).
Proof.
  intros Hn. destruct (b64_char_fact n Hn) as (Hv & Hc & _). cbn [b64_digits].
  rewrite (proj2 (Ascii.eqb_neq _ _) Hc), Hv.
  by replace (n <? 0) with false by lia.
Qed.

Lemma drop_whitespace_cons c s : is_blank c = false -> drop_whitespace (String c s) = String c (drop_whitespace s).
Proof. simpl. by intros ->. Qed.

Lemma bytes_of_sum b0 b1 b2 :
  0 <= b0 < 256 -> 0 <= b1 < 256 -> 0 <= b2 < 256 ->
  Z.land (Z.shiftr (b0 * 65536 + b1 * 256 + b2) 16) 255 = b0 /\
  Z.land (Z.shiftr (b0 * 65536 + b1 * 256 + b2) 8) 255 = b1 /\
  Z.land (b0 * 65536 + b1 * 256 + b2) 255 = b2.
Proof.
  intros. rewrite !land255, !Z.shiftr_div_pow2 by lia.
  change (2 ^ 16) with 65536. change (2 ^ 8) with 256.
  split_and!; Z.div_mod_to_equations; lia.
Qed.

Definition quad_bytes (b0 b1 b2 : ascii) (third fourth : bool) : string :=
  String b0 ((if third then String b1 "" else "") +:+ (if fourth then String b2 "" else "")).

(** What the decoder's inner loop makes of a quad. *)
Lemma b64_digits_quad t (third fourth : bool) n2 n3 :
  0 <= t < 16777216 ->
  (if third then n2 = Z.land (Z.shiftr t 6) 63 else fourth = false /\ n2 = 0) ->
  (if fourth then n3 = Z.land t 63 else n3 = 0) ->
  b64_digits 0 0 (String.list_ascii_of_string (b64_quad t third fourth)) =
  Ok ([Z.land (Z.shiftr t 18) 63; Z.land (Z.shiftr t 12) 63; n2; n3],
      if third then if fourth then 0 else 1 else 2).
Proof.
  intros Ht H2 H3. unfold b64_quad. cbn [String.list_ascii_of_string].
  rewrite b64_digits_char by (apply digit_range; lia).
  rewrite b64_digits_char by (apply digit_range; lia).
  destruct third, fourth; destruct_and?; subst; try done.
  - rewrite b64_digits_char by (apply digit_range; lia).
    rewrite b64_digits_char by apply last_digit_range. done.
  - rewrite b64_digits_char by (apply digit_range; lia). done.
Qed.

Lemma b64_bytes_quad b0 b1 b2 (third fourth : bool) n2 n3 :
  let t := triple_of (byte_val b0) (byte_val b1) (byte_val b2) in
  n2 = Z.land (Z.shiftr t 6) 63 -> n3 = Z.land t 63 -> (third = false -> fourth = false) ->
  b64_bytes [Z.land (Z.shiftr t 18) 63; Z.land (Z.shiftr t 12) 63; n2; n3]
    (if third then if fourth then 0 else 1 else 2) = quad_bytes b0 b1 b2 third fourth.
Proof.
  intros t -> -> Hp. pose proof (byte_val_range b0). pose proof (byte_val_range b1).
  pose proof (byte_val_range b2). assert (0 <= t < 16777216) as Ht by (subst t; rewrite triple_sum; lia).
  unfold b64_bytes. rewrite digits_sum by (apply digit_range || apply last_digit_range; lia).
  rewrite digits_of_triple by done. subst t. rewrite triple_sum by lia.
  destruct (bytes_of_sum (byte_val b0) (byte_val b1) (byte_val b2)) as (-> & -> & ->); [lia..|].
  rewrite !byte_of_val. unfold quad_bytes. destruct third, fourth; try done. by specialize (Hp eq_refl).
Qed.

Lemma quad_whitespace t third fourth s :
  0 <= t < 16777216 -> drop_whitespace (b64_quad t third fourth +:+ s) = b64_quad t third fourth +:+ drop_whitespace s.
Proof.
  intros Ht. unfold b64_quad. rewrite !string_app_cons, !string_app_nil_l.
  rewrite !drop_whitespace_cons; [done|..].
  - destruct fourth; [apply b64_char_fact, last_digit_range|done].
  - destruct third; [apply b64_char_fact, digit_range; lia|done].
  - apply b64_char_fact, digit_range. lia.
  - apply b64_char_fact, digit_range. lia.
Qed.

Lemma triple_range b0 b1 b2 : 0 <= triple_of (byte_val b0) (byte_val b1) (byte_val b2) < 16777216.
Proof.
  pose proof (byte_val_range b0). pose proof (byte_val_range b1). pose proof (byte_val_range b2).
  rewrite triple_sum; lia.
Qed.

Lemma byte_val_zero : byte_val (byte_of 0) = 0.
Proof. done. Qed.

(** The padded positions of a quad hold zeros. *)
Lemma padded_zero b0 b1 :
  Z.land (triple_of (byte_val b0) (byte_val b1) 0) 63 = 0 /\
  Z.land (Z.shiftr (triple_of (byte_val b0) 0 0) 6) 63 = 0 /\ Z.land (triple_of (byte_val b0) 0 0) 63 = 0.
Proof.
  pose proof (byte_val_range b0). pose proof (byte_val_range b1).
  rewrite !triple_sum, !land63, !Z.shiftr_div_pow2 by lia. change (2 ^ 6) with 64.
  split_and!; Z.div_mod_to_equations; lia.
Qed.

Definition quad_ok (b1 b2 : ascii) (third fourth : bool) : Prop :=
  (third = false -> b1 = byte_of 0 /\ fourth = false) /\ (fourth = false -> b2 = byte_of 0).

Lemma b64_loop_quad b0 b1 b2 third fourth s :
  quad_ok b1 b2 third fourth ->
  b64_loop (b64_quad (triple_of (byte_val b0) (byte_val b1) (byte_val b2)) third fourth +:+ s) =
  (out ← b64_loop s; Ok (quad_bytes b0 b1 b2 third fourth +:+ out)).
Proof.
  intros [H1 H2]. pose proof (triple_range b0 b1 b2) as Ht. destruct (padded_zero b0 b1) as (P1 & P2 & P3).
  set (t := triple_of _ _ _) in *.
  assert (third = false -> Z.land (Z.shiftr t 6) 63 = 0) as Z2.
  { intros [-> ->]%H1. subst t. by rewrite (H2 eq_refl), byte_val_zero. }
  assert (fourth = false -> Z.land t 63 = 0) as Z3.
  { intros E. subst t. rewrite (H2 E), byte_val_zero. apply padded_zero. }
  pose proof (b64_digits_quad t third fourth (Z.land (Z.shiftr t 6) 63) (Z.land t 63) Ht) as Hd.
  ospecialize (Hd _ _).
  { destruct third; [done|]. destruct (H1 eq_refl). auto. }
  { destruct fourth; auto. }
  unfold b64_quad in *. rewrite !string_app_cons, string_app_nil_l. cbn [b64_loop].
  cbn [String.list_ascii_of_string] in Hd. rewrite Hd. cbn [mbind result_bind].
  subst t. by rewrite b64_bytes_quad by naive_solver.
Qed.

(** Strings three characters at a time. *)
Lemma string_ind3 (P : string -> Prop) :
  P "" -> (forall a, P (String a "")) -> (forall a b, P (String a (String b ""))) ->
  (forall a b c s, P s -> P (String a (String b (String c s)))) -> forall s, P s.
Proof.
  intros H0 H1 H2 H3 s. cut (P s /\ (forall a, P (String a s)) /\ (forall a b, P (String a (String b s)))).
  { by intros []. }
  induction s as [|c s (IH0 & IH1 & IH2)]; [done|]. split; [apply IH1|]. split; [intros; apply IH2|].
  intros a b. by apply H3.
Qed.

Lemma quad_length t third fourth s :
  String.length (b64_quad t third fourth +:+ s) = (4 + String.length s)%nat.
Proof. done. Qed.

Lemma base64_encode_plain s :
  drop_whitespace (base64_encode s) = base64_encode s /\ (String.length (base64_encode s) mod 4)%nat = 0%nat /\
  b64_loop (base64_encode s) = Ok s.
Proof.
  induction s as [|a|a b|a b c s (IHw & IHl & IHd)] using string_ind3; [done|..].
  - change (base64_encode _) with (b64_quad (triple_of (byte_val a) (byte_val (byte_of 0)) (byte_val (byte_of 0))) false false).
    rewrite <- (string_app_nil_r (b64_quad _ _ _)). split_and!; [|done|].
    + rewrite quad_whitespace by apply triple_range. done.
    + by rewrite b64_loop_quad by (split; by intros).
  - change (base64_encode _) with (b64_quad (triple_of (byte_val a) (byte_val b) (byte_val (byte_of 0))) true false).
    rewrite <- (string_app_nil_r (b64_quad _ _ _)). split_and!; [|done|].
    + rewrite quad_whitespace by apply triple_range. done.
    + by rewrite b64_loop_quad by (split; by intros).
  - cbn [base64_encode]. split_and!.
    + rewrite quad_whitespace by apply triple_range. by rewrite IHw.
    + rewrite quad_length, Nat.add_comm. by rewrite (Nat.Div0.mod_add _ 1 4).
    + rewrite b64_loop_quad, IHd by (split; by intros). done.
Qed.

(** ** Connection strings

    The documented keyword/value syntax, read one character at a time: names up
    to [=], blanks around it skipped, a value either bare up to a blank or in
    single quotes, a backslash taking the next character as it is. *)
Inductive Reading_ : Type :=
  | Between
  | InName (name : string)
  | AfterName (name : string)
  | BeforeValue (name : string)
  | Bare (name value : string) (escaped : bool)
  | Quoted (name value : string) (escaped : bool).

Definition snoc (s : string) (c : ascii) : string := s +:+ String c "".

Fixpoint read_from (m : Reading_) (s : string) : option (list (string * string)) :=
  match s, m with
  | EmptyString, Between => Some []
  | EmptyString, BeforeValue n => Some [(n, "")]
  | EmptyString, Bare n v false => Some [(n, v)]
  | EmptyString, _ => None
  | String c s', Between => if is_space c then read_from Between s' else read_from (InName (snoc "" c)) s'
  | String c s', InName n =>
      if Ascii.eqb c "=" then read_from (BeforeValue n) s'
      else if is_space c then read_from (AfterName n) s'
      else read_from (InName (snoc n c)) s'
  | String c s', AfterName n =>
      if is_space c then read_from (AfterName n) s'
      else if Ascii.eqb c "=" then read_from (BeforeValue n) s' else None
  | String c s', BeforeValue n =>
      if is_space c then read_from (BeforeValue n) s'
      else if Ascii.eqb c squote then read_from (Quoted n "" false) s'
      else if Ascii.eqb c backslash then read_from (Bare n "" true) s'
      else read_from (Bare n (snoc "" c) false) s'
  | String c s', Bare n v true => read_from (Bare n (snoc v c) false) s'
  | String c s', Bare n v false =>
      if is_space c then l ← read_from Between s'; Some ((n, v) :: l)
      else if Ascii.eqb c backslash then read_from (Bare n v true) s'
      else read_from (Bare n (snoc v c) false) s'
  | String c s', Quoted n v true => read_from (Quoted n (snoc v c) false) s'
  | String c s', Quoted n v false =>
      if Ascii.eqb c backslash then read_from (Quoted n v true) s'
      else if Ascii.eqb c squote then l ← read_from Between s'; Some ((n, v) :: l)
      else read_from (Quoted n (snoc v c) false) s'
  end.

Definition read_conninfo : string -> option (list (string * string)) := read_from Between.

(** Characters a name may have, and the blanks [quote_conninfo] does not look for. *)
Definition name_char (c : ascii) : bool := negb (is_space c) && negb (Ascii.eqb c "=").
Definition plain_name (n : string) : bool :=
  negb (String.eqb n "") && forallb name_char (String.list_ascii_of_string n).
Definition hidden_blank (c : ascii) : bool :=
  is_space c && negb (Ascii.eqb c " ") && negb (Ascii.eqb c (byte_of 9)).
Definition plain_value (v : string) : bool :=
  needs_quoting v || negb (existsb hidden_blank (String.list_ascii_of_string v)).

(** What may follow a value: the end, or a blank. *)
Definition then_rest (p : string * string) (rest : string) : option (list (string * string)) :=
  match rest with
  | EmptyString => Some [p]
  | String c s' => if is_space c then l ← read_from Between s'; Some (p :: l) else None
  end.

Lemma read_escaped n v w rest :
  (rest = "" \/ exists s', rest = String " " s') ->
  read_from (Quoted n w false) (escape_conninfo v +:+ String squote rest) = then_rest (n, w +:+ v) rest.
Proof.
  intros Hr. revert w; induction v as [|c v IH]; intros w.
  - cbn [escape_conninfo]. rewrite string_app_nil_l, string_app_nil_r.
    destruct Hr as [->|[s' ->]]; [done|]. cbn. done.
  - cbn [escape_conninfo]. case_if.
    + rewrite !string_app_cons. cbn [read_from]. rewrite Ascii.eqb_refl.
      cbn [read_from]. rewrite IH. unfold snoc. by rewrite string_snoc_app.
    + bool_prop. rewrite !string_app_cons. cbn [read_from]. rewrite H0, H, IH. unfold snoc. by rewrite string_snoc_app.
Qed.

Lemma read_bare n v w rest :
  (rest = "" \/ exists s', rest = String " " s') ->
  forallb (fun c => negb (is_space c) && negb (Ascii.eqb c backslash)) (String.list_ascii_of_string v) = true ->
  read_from (Bare n w false) (v +:+ rest) = then_rest (n, w +:+ v) rest.
Proof.
  intros Hr. revert w; induction v as [|c v IH]; intros w Hv.
  - rewrite string_app_nil_l, string_app_nil_r. by destruct Hr as [->|[s' ->]].
  - cbn [String.list_ascii_of_string forallb] in Hv. bool_prop.
    rewrite string_app_cons. cbn [read_from]. rewrite H, H1, IH by done. unfold snoc. by rewrite string_snoc_app.
Qed.

Lemma bare_chars v :
  needs_quoting v = false -> plain_value v = true ->
  exists c s, v = String c s /\ Ascii.eqb c squote = false /\
  forallb (fun c => negb (is_space c) && negb (Ascii.eqb c backslash)) (String.list_ascii_of_string v) = true.
Proof.
  unfold plain_value. intros Hq. rewrite Hq. unfold needs_quoting in Hq. simpl. intros Hh. bool_prop.
  destruct v as [|c s]; [discriminate|]. exists c, s. split; [done|].
  assert (forall d, d ∈ String.list_ascii_of_string (String c s) ->
          is_space d = false /\ Ascii.eqb d backslash = false /\ Ascii.eqb d squote = false) as Hall.
  { intros d Hd%list_elem_of_In. split_and!; apply not_true_iff_false; intros E.
    - destruct (Ascii.eqb d " ") eqn:E1; [|destruct (Ascii.eqb d (byte_of 9)) eqn:E2].
      + rewrite <- not_true_iff_false in H0. apply H0, existsb_exists. exists d. by rewrite E1.
      + rewrite <- not_true_iff_false in H0. apply H0, existsb_exists. exists d. by rewrite E1, E2.
      + rewrite <- not_true_iff_false in Hh. apply Hh, existsb_exists. exists d. unfold hidden_blank. by rewrite E, E1, E2.
    - rewrite <- not_true_iff_false in H0. apply H0, existsb_exists. exists d. by rewrite E, !orb_true_r.
    - rewrite <- not_true_iff_false in H0. apply H0, existsb_exists. exists d. rewrite E, !orb_true_r. done. }
  split; [apply (Hall c); simpl; by left|].
  apply forallb_forall. intros d Hd%list_elem_of_In. by destruct (Hall d Hd) as (-> & -> & _).
Qed.

Lemma read_quoted n v rest :
  (rest = "" \/ exists s', rest = String " " s') -> plain_value v = true ->
  read_from (BeforeValue n) (quote_conninfo v +:+ rest) = then_rest (n, v) rest.
Proof.
  intros Hr Hv. unfold quote_conninfo. destruct (needs_quoting v) eqn:Hq.
  - rewrite string_app_cons, string_snoc_app. cbn [read_from]. by rewrite read_escaped.
  - destruct (bare_chars v Hq Hv) as (c & s & -> & Hs & Hb).
    pose proof Hb as Hb'. cbn [String.list_ascii_of_string forallb] in Hb'. bool_prop.
    rewrite string_app_cons. cbn [read_from]. rewrite H, Hs, H1. unfold snoc. by rewrite read_bare.
Qed.

Lemma read_name n w v :
  forallb name_char (String.list_ascii_of_string n) = true ->
  read_from (InName w) (n +:+ String "=" v) = read_from (BeforeValue (w +:+ n)) v.
Proof.
  revert w; induction n as [|c n IH]; intros w Hn.
  - by rewrite string_app_nil_l, string_app_nil_r.
  - cbn [String.list_ascii_of_string forallb] in Hn. unfold name_char at 1 in Hn. bool_prop.
    rewrite string_app_cons. cbn [read_from]. rewrite H1, H, IH by done. unfold snoc. by rewrite string_snoc_app.
Qed.

Definition spelled (p : string * string) : string := p.1 +:+ "=" +:+ quote_conninfo p.2.
Definition plain_pair (p : string * string) : bool := plain_name p.1 && plain_value p.2.

Lemma read_pair p rest :
  (rest = "" \/ exists s', rest = String " " s') -> plain_pair p = true ->
  read_conninfo (spelled p +:+ rest) = then_rest p rest.
Proof.
  destruct p as [n v]. unfold plain_pair, plain_name, spelled. simpl.
  intros Hr [[Hn0 Hn]%andb_prop Hv]%andb_prop. destruct n as [|c n]; [discriminate|].
  cbn [String.list_ascii_of_string forallb] in Hn. apply andb_prop in Hn as [Hc Hn].
  unfold name_char in Hc. apply andb_prop in Hc as [Hs _]. apply negb_true_iff in Hs. unfold read_conninfo.
  rewrite !string_app_assoc, !string_app_cons, string_app_nil_l. cbn [read_from]. rewrite Hs.
  rewrite read_name by done. by rewrite read_quoted.
Qed.

Lemma read_join kvs :
  kvs <> [] -> forallb plain_pair kvs = true -> read_conninfo (join " " (spelled <$> kvs)) = Some kvs.
Proof.
  induction kvs as [|p kvs IH]; intros Hne Hp; [done|]. simpl in Hp. bool_prop.
  destruct kvs as [|q kvs].
  - csimpl. rewrite <- (string_app_nil_r (spelled p)), read_pair by (done || by left). done.
  - csimpl in IH. csimpl. rewrite read_pair; [|right; by eexists|done].
    rewrite string_app_cons, string_app_nil_l. cbn [then_rest]. simpl is_space. cbv iota.
    change (read_from Between) with read_conninfo. by rewrite IH.
Qed.

(** The keys of a connection's section that go into its connection string. *)
Definition is_parameter (k : string) : bool :=
  negb (String.eqb k "statement_timeout_ms")
  && match setting_of_key k with None => true | Some _ => false end
  && match split_first "." k with None => true | Some _ => false end.

Definition parameters (kv : Section_) : Section_ := List.filter (fun p => is_parameter p.1) kv.

Lemma parameters_cons k v kv :
  parameters ((k, v) :: kv) = if is_parameter k then (k, v) :: parameters kv else parameters kv.
Proof. done. Qed.

Lemma connection_keys_parts ms c parts kv c' parts' :
  connection_keys ms c parts kv = Ok (c', parts') ->
  parts' = parts ++ (spelled <$> parameters kv) /\ Forall (fun p : string * string => p.1 <> "options") (parameters kv).
Proof.
  revert c parts; induction kv as [|[k v] kv IH]; intros c parts H; cbn [connection_keys] in H.
  { ok_inv. split; [by rewrite app_nil_r|constructor]. }
  rewrite parameters_cons. unfold is_parameter.
  destruct (k =? "statement_timeout_ms")%string.
  { ok_inv. by apply IH in H0. }
  ok_inv. unfold apply_executor_key in H. destruct (setting_of_key k) as [[s z]|].
  { ok_inv. by apply IH in H0. }
  ok_inv. destruct (split_first "." k) as [[m rest]|].
  { case_if_in H0; [|discriminate]. by apply IH in H0. }
  case_if_in H0; [discriminate|]. apply String.eqb_neq in Heqb. apply IH in H0 as [-> Ho].
  split; [by rewrite <- app_assoc|by constructor].
Qed.

(** Percent-decoding, as RFC 3986 has it. *)
Definition hex_value (c : ascii) : option Z :=
  let b := byte_val c in
  if (48 <=? b) && (b <=? 57) then Some (b - 48)
  else if (65 <=? b) && (b <=? 70) then Some (b - 55)
  else if (97 <=? b) && (b <=? 102) then Some (b - 87) else None.

Fixpoint percent_decode (s : string) : option string :=
  match s with
  | EmptyString => Some ""
  | String c s' =>
      if Ascii.eqb c "%" then
        match s' with
        | String h (String l s'') =>
            x ← hex_value h; y ← hex_value l; t ← percent_decode s''; Some (String (byte_of (16 * x + y)) t)
        | _ => None
        end
      else t ← percent_decode s'; Some (String c t)
  end.

Definition byte_escape_ok (b : Z) : bool :=
  (bool_decide (hex_value (upper_hex (Z.shiftr b 4)) = Some (Z.shiftr b 4))
   && bool_decide (hex_value (upper_hex (Z.land b 15)) = Some (Z.land b 15))
   && (16 * Z.shiftr b 4 + Z.land b 15 =? b))
  && (negb (unreserved (byte_of b)) || negb (b =? 37)).

Lemma percent_round_trip v : percent_decode (percent_encode v) = Some v.
Proof.
  induction v as [|c v IH]; [done|]. byte_fact byte_escape_ok c Hc. unfold byte_escape_ok in Hc.
  rewrite byte_of_val in Hc. bool_prop. cbn [percent_encode]. case_if.
  - cbn [percent_decode]. destruct (Ascii.eqb_spec c "%") as [->|_]; [discriminate|]. by rewrite IH.
  - cbn [percent_decode]. rewrite Ascii.eqb_refl.
    apply bool_decide_eq_true in H, H2. rewrite H, H2. simpl. rewrite IH. simpl. by rewrite H1, byte_of_val.
Qed.

Lemma join_snoc sep l x : l <> [] -> join sep (l ++ [x]) = join sep l +:+ sep +:+ x.
Proof.
  induction l as [|y l IH]; [done|]. intros _. destruct l as [|z l]; [done|].
  specialize (IH ltac:(done)). cbn [app join] in IH |- *. by rewrite IH, !string_app_assoc.
Qed.

(** The characters of a percent-encoded value. *)
Definition encoded_char (c : ascii) : bool := unreserved c || Ascii.eqb c "%".

Lemma percent_encode_chars v : forallb encoded_char (String.list_ascii_of_string (percent_encode v)) = true.
Proof.
  assert (forall c, encoded_char (upper_hex (Z.shiftr (byte_val c) 4)) && encoded_char (upper_hex (Z.land (byte_val c) 15)) = true) as H.
  { intros c. by apply (byte_forall (fun b => encoded_char (upper_hex (Z.shiftr b 4)) && encoded_char (upper_hex (Z.land b 15)))). }
  induction v as [|c v IH]; [done|]. cbn [percent_encode]. case_if.
  - simpl. unfold encoded_char at 1. by rewrite Heqb, IH.
  - cbn [String.list_ascii_of_string forallb]. specialize (H c). apply andb_prop in H as [-> ->]. by rewrite IH.
Qed.

(** ** Claims *)

(** an accepted configuration is usable as it stands. Every connection has
    executor settings in range whose relations hold (a batch cap no smaller than
    a batch, a pause threshold above the resume threshold and no lower than the
    throttle threshold, an observer that ticks at least once per commit interval,
    a safety percentage), and every key the trust policy accepts is defined,
    filed under its own id, labelled, and exactly 32 bytes long. The connection
    the file names first is the default one. *)
Theorem accepted_configuration_is_usable ms app lines r :
  from_ini ms app lines = Ok r ->
  (forall name c, conns r !! name = Some c -> conn_ok name c) /\
  (forall id, id ∈ accept (trust r) -> exists k, keys (trust r) !! id = Some k /\ key_ok id k) /\
  (forall name, name ∈ order r <-> is_Some (conns r !! name)) /\
  (order r <> [] -> is_Some (conns r !! default_name r)).
Proof.
  intros [Hr Hacc]%from_ini_registry. split_and!.
  - apply Hr.
  - intros id [k Hk]%Hacc. exists k. split; [done|]. by apply Hr.
  - apply Hr.
  - intros Ho. apply Hr. destruct Hr as [_ _ _ _ _ ->]. destruct (order r); [done|]. simpl. by left.
Qed.

(** A configuration with every kind of section. *)
Definition sample_ini : list string :=
  ["# deployment"; "[executor]"; "batch_rows = 500"; "pause_waiters=6 ; hot table"; "";
   "[trust]"; "accept = ed25519:0011223344556677"; "[key ed25519:0011223344556677]"; "label = ops";
   "public_key = QUFBQUFBQUFBQUFBQUFBQUFBQUFBQUFBQUFBQUFBQUE="; "[prod]"; "host = db.example";
   "dbname = it's"; "batch_rows = 2000"; "statement_timeout_ms = 0"].

Lemma accepted_configuration_is_usable_witness : exists r,
  from_ini "" "laswell" sample_ini = Ok r /\ order r = ["prod"] /\
  (forall name c, conns r !! name = Some c -> conn_ok name c).
Proof.
  destruct (from_ini "" "laswell" sample_ini) as [r|e] eqn:E; [|vm_compute in E; discriminate E].
  exists r. split; [done|]. split.
  - assert (order <$> from_ini "" "laswell" sample_ini = Ok ["prod"]) as H by (vm_compute; reflexivity).
    rewrite E in H. by injection H.
  - apply (accepted_configuration_is_usable "" "laswell" sample_ini r E).
Defined.

(** Decoding undoes encoding: the bytes [base64_encode] prints are the bytes
    [base64_decode] returns, for every byte sequence of every length. *)
Theorem base64_round_trip bytes : base64_decode (base64_encode bytes) = Ok bytes.
Proof.
  destruct (base64_encode_plain bytes) as (Hw & Hl & Hd). unfold base64_decode.
  by rewrite Hw, Hl.
Qed.

(** Padding closes its group of four only: a padded group in the middle of the
    text is read, so several texts decode to the same bytes. *)
Example base64_padding_inside_is_read :
  base64_decode "QQ==QUJD" = Ok "AABC" /\ base64_decode "QUFCQw==" = Ok "AABC".
Proof. by vm_compute. Qed.

(** A connection string says what the section says. The string assembled
    for a connection, read by the documented keyword/value syntax, gives back
    every parameter of the section with its value as written, then the
    application name, whatever quotes, backslashes, blanks or emptiness the
    values have; naming another database with [with_dbname] adds that database
    and nothing else. [options] is never among the parameters. Names must be
    plain; a value that needs no quoting must not hold a line break, which
    [quote_conninfo] does not look for. *)
Theorem conninfo_reads_back ms app r name kv r' dbname :
  parse_connection ms app r name kv = Ok r' ->
  forallb plain_pair (parameters kv) = true -> plain_value app = true -> plain_value dbname = true ->
  exists c, conns r' !! name = Some c /\
    read_conninfo (conninfo c) = Some (parameters kv ++ [("application_name", app)]) /\
    Forall (fun p : string * string => p.1 <> "options") (parameters kv) /\
    (is_conninfo_uri (conninfo c) = false ->
     read_conninfo (with_dbname (conninfo c) dbname) =
     Some (parameters kv ++ [("application_name", app); ("dbname", dbname)])).
Proof.
  intros H Hkv Happ Hdb. unfold parse_connection in H. ok_inv. destruct x as [c parts]. ok_inv.
  apply connection_keys_parts in H as [Hp Ho]. rewrite app_nil_l in Hp.
  destruct parts as [|q parts]; [discriminate|]. ok_inv. eexists. split; [by apply lookup_insert_eq|]. cbn [conninfo].
  set (app_pair := ("application_name", app)).
  change ("application_name=" +:+ quote_conninfo app) with (spelled app_pair).
  assert (forall l, forallb plain_pair l = true -> l <> [] ->
    read_conninfo (join " " (spelled <$> (parameters kv ++ l))) = Some (parameters kv ++ l)) as Hread.
  { intros l Hl Hne. apply read_join; [by destruct (parameters kv), l|]. by rewrite forallb_app, Hkv, Hl. }
  change (match parts ++ [spelled app_pair] with
          | [] => q | _ :: _ => q +:+ " " +:+ join " " (parts ++ [spelled app_pair]) end)
    with (join " " ((q :: parts) ++ (spelled <$> [app_pair]))).
  rewrite Hp, <- fmap_app. split_and!; [|done|].
  - apply Hread; [|done]. unfold app_pair, plain_pair. simpl. by rewrite Happ.
  - intros Hu. unfold with_dbname, with_parameter. rewrite Hu. cbn [negb].
    change (join _ ?l +:+ " " +:+ "dbname" +:+ "=" +:+ quote_conninfo dbname)
      with (join " " l +:+ " " +:+ spelled ("dbname", dbname)).
    rewrite <- join_snoc by (rewrite fmap_app; by destruct (spelled <$> parameters kv)).
    change [spelled ("dbname", dbname)] with (spelled <$> [("dbname", dbname)]).
    rewrite <- fmap_app, <- app_assoc. apply Hread; [|done].
    unfold app_pair, plain_pair. simpl. by rewrite Happ, Hdb.
Qed.

Definition sample_section : Section_ :=
  [("batch_rows", "10"); ("dbname", "it's"); ("host", ""); ("password", "a b\c")].

Lemma conninfo_reads_back_witness : exists r' c,
  parse_connection "" "laswell" empty_registry "prod" sample_section = Ok r' /\
  conns r' !! "prod" = Some c /\
  read_conninfo (with_dbname (conninfo c) "other db") =
    Some [("dbname", "it's"); ("host", ""); ("password", "a b\c"); ("application_name", "laswell");
          ("dbname", "other db")].
Proof.
  destruct (parse_connection "" "laswell" empty_registry "prod" sample_section) as [r'|e] eqn:E;
    [|vm_compute in E; discriminate E].
  destruct (conninfo_reads_back "" "laswell" empty_registry "prod" sample_section r' "other db" E
    eq_refl eq_refl eq_refl) as (c & Hc & _ & _ & Hdb).
  exists r', c. split; [done|]. split; [done|]. apply Hdb.
  assert ((fun r => is_conninfo_uri ∘ conninfo <$> conns r !! "prod")
    <$> parse_connection "" "laswell" empty_registry "prod" sample_section = Ok (Some false)) as H
    by (vm_compute; reflexivity).
  rewrite E in H. simpl in H. rewrite Hc in H. by injection H.
Defined.

(** A database named onto a URI is that database. The value [with_dbname]
    appends to a URI consists of characters that cannot end a parameter or start
    another, and percent-decodes to the name given, byte for byte. *)
Theorem uri_parameter_decodes url dbname :
  is_conninfo_uri url = true ->
  exists sep value, with_dbname url dbname = url +:+ sep +:+ "dbname=" +:+ value /\
    (sep = "?" \/ sep = "&") /\
    percent_decode value = Some dbname /\
    forallb encoded_char (String.list_ascii_of_string value) = true.
Proof.
  intros Hu. unfold with_dbname, with_parameter. rewrite Hu. cbn [negb].
  eexists _, (percent_encode dbname). split_and!;
    [done|by case_if; auto|apply percent_round_trip|apply percent_encode_chars].
Qed.

Lemma uri_parameter_decodes_witness : exists sep value,
  with_dbname "postgresql://h/app?sslmode=require" "a&b = c" =
    "postgresql://h/app?sslmode=require" +:+ sep +:+ "dbname=" +:+ value /\
  percent_decode value = Some "a&b = c".
Proof.
  destruct (uri_parameter_decodes "postgresql://h/app?sslmode=require" "a&b = c" eq_refl)
    as (sep & value & H & _ & Hd & _).
  by exists sep, value.
Defined.
