(* ===== verification/Spec.v ===== *)
(** * Spec: specifications (src/cpp/src/spec.h)

    The closed set of intent kinds, the keys an intent is locked and measured
    by, and [parse_spec]: the checks on a document, the fields read from it and
    the projection that is signed. The body checks of the kinds
    ([parse_add_column] and its like) and what vendor modules add at build time
    are interfaces here ([Bodies], [Modules]), which [Intents] and [VendorKinds]
    implement: the theorems of [SpecFacts] hold for every choice of them. *)
From S2P Require Import Prelude Json Canonical.

(** ** Kinds *)

(** [IntentKind]; a vendor module's kinds are [kModule]. *)
Inductive IntentKind : Type :=
  | kAddColumn | kBackfill | kCreateIndex | kDropIndex | kSetNotNull | kAddForeignKey
  | kAddCheckConstraint | kDropConstraint | kAlterColumnType | kDropColumn | kReplaceView
  | kAddUniqueConstraint | kAddPrimaryKey | kAttachPartition | kDetachPartition | kRenameTable
  | kRenameColumn | kRenameConstraint | kCreateTable | kDropTable | kDeleteRows | kSetRowSecurity
  | kCreatePolicy | kDropPolicy | kSetTriggerState | kGrant | kRevoke | kCreateSchema | kDropSchema
  | kCreateExtension | kDropExtension | kCreateType | kDropType | kAddEnumValue | kCreateFunction
  | kDropFunction | kCreateTrigger | kDropTrigger | kCreateSequence | kDropSequence | kDropView
  | kAlterColumnDefault | kDropNotNull | kAlterSequence | kAlterSchema | kAlterExtension
  | kAlterDomain | kAlterFunction | kAlterView | kAlterPolicy | kSetComment | kSetOwner
  | kSetIdentity | kDropExpression | kSetColumnOptions | kSetTableOptions | kSetLogged
  | kSetTablespace | kSetAccessMethod | kSetReplicaIdentity | kClusterOn | kCreateMaterializedView
  | kCreateStatistics | kDropStatistics | kCreateRule | kDropRule | kCreatePublication
  | kAlterPublication | kDropPublication | kCreateSubscription | kAlterSubscription
  | kDropSubscription | kCreateObject | kDropObject | kAlterObject | kAddExclusionConstraint
  | kSetTextSearchMapping | kCreateTableAs | kImportForeignSchema | kSecurityLabel
  | kAlterDefaultPrivileges | kInsertRows | kUpdateRows | kMergeRows | kCopyRows
  | kModule (name : string).

#[export] Instance IntentKind_eq_dec : EqDecision IntentKind.
Proof. solve_decision. Defined.

(** [intent_kinds()], core's part. *)
Definition intent_kinds : list (string * IntentKind) :=
  [("add_column", kAddColumn); ("backfill", kBackfill); ("create_index", kCreateIndex);
   ("drop_index", kDropIndex); ("set_not_null", kSetNotNull); ("add_foreign_key", kAddForeignKey);
   ("add_check_constraint", kAddCheckConstraint); ("drop_constraint", kDropConstraint);
   ("alter_column_type", kAlterColumnType); ("drop_column", kDropColumn);
   ("replace_view", kReplaceView); ("add_unique_constraint", kAddUniqueConstraint);
   ("add_primary_key", kAddPrimaryKey); ("attach_partition", kAttachPartition);
   ("detach_partition", kDetachPartition); ("rename_table", kRenameTable);
   ("rename_column", kRenameColumn); ("rename_constraint", kRenameConstraint);
   ("create_table", kCreateTable); ("drop_table", kDropTable); ("delete_rows", kDeleteRows);
   ("set_row_security", kSetRowSecurity); ("create_policy", kCreatePolicy);
   ("drop_policy", kDropPolicy); ("set_trigger_state", kSetTriggerState); ("grant", kGrant);
   ("revoke", kRevoke); ("create_schema", kCreateSchema); ("drop_schema", kDropSchema);
   ("create_extension", kCreateExtension); ("drop_extension", kDropExtension);
   ("create_type", kCreateType); ("drop_type", kDropType); ("add_enum_value", kAddEnumValue);
   ("create_function", kCreateFunction); ("drop_function", kDropFunction);
   ("create_trigger", kCreateTrigger); ("drop_trigger", kDropTrigger);
   ("create_sequence", kCreateSequence); ("drop_sequence", kDropSequence); ("drop_view", kDropView);
   ("alter_column_default", kAlterColumnDefault); ("drop_not_null", kDropNotNull);
   ("alter_sequence", kAlterSequence); ("alter_schema", kAlterSchema);
   ("alter_extension", kAlterExtension); ("alter_domain", kAlterDomain);
   ("alter_function", kAlterFunction); ("alter_view", kAlterView); ("alter_policy", kAlterPolicy);
   ("set_comment", kSetComment); ("set_owner", kSetOwner); ("set_identity", kSetIdentity);
   ("drop_expression", kDropExpression); ("set_column_options", kSetColumnOptions);
   ("set_table_options", kSetTableOptions); ("set_logged", kSetLogged);
   ("set_tablespace", kSetTablespace); ("set_access_method", kSetAccessMethod);
   ("set_replica_identity", kSetReplicaIdentity); ("cluster_on", kClusterOn);
   ("create_materialized_view", kCreateMaterializedView); ("create_statistics", kCreateStatistics);
   ("drop_statistics", kDropStatistics); ("create_rule", kCreateRule); ("drop_rule", kDropRule);
   ("create_publication", kCreatePublication); ("alter_publication", kAlterPublication);
   ("drop_publication", kDropPublication); ("create_subscription", kCreateSubscription);
   ("alter_subscription", kAlterSubscription); ("drop_subscription", kDropSubscription);
   ("create_object", kCreateObject); ("drop_object", kDropObject); ("alter_object", kAlterObject);
   ("add_exclusion_constraint", kAddExclusionConstraint);
   ("set_text_search_mapping", kSetTextSearchMapping); ("create_table_as", kCreateTableAs);
   ("import_foreign_schema", kImportForeignSchema); ("security_label", kSecurityLabel);
   ("alter_default_privileges", kAlterDefaultPrivileges); ("insert_rows", kInsertRows);
   ("update_rows", kUpdateRows); ("merge_rows", kMergeRows); ("copy_rows", kCopyRows)].

(** A lookup in the map, with the modules' kinds merged in. *)
Definition find_kind (modules : list string) (name : string) : option IntentKind :=
  match List.find (fun p => String.eqb name p.1) intent_kinds with
  | Some p => Some p.2
  | None => if existsb (String.eqb name) modules then Some (kModule name) else None
  end.

Record Intent : Type := {
  kind : IntentKind;
  kind_name : string;
  ordinal : Z;
  body : json;
}.

(** [Refused] is a [SpecError]; the others are what else may be thrown. *)
Inductive spec_error : Type :=
  | Refused (what : string)
  | Threw (e : json_error)
  | Unrepresentable (e : canon_error)
  | Runtime (what : string).

(** An accessor's exception passing through. *)
Definition lift {A} (r : result json_error A) : result spec_error A :=
  match r with Ok a => Ok a | Err e => Err (Threw e) end.

Definition lift_canon {A} (r : result canon_error A) : result spec_error A :=
  match r with Ok a => Ok a | Err e => Err (Unrepresentable e) end.

Definition str (b : json) (k : string) : result spec_error string := lift (value_str b k "").

Definition schema (i : Intent) : result spec_error string := str (body i) "schema".
Definition table (i : Intent) : result spec_error string := str (body i) "table".
Definition qualified_table (i : Intent) : result spec_error string :=
  s ← schema i; t ← table i; Ok (s +:+ "." +:+ t).

(** ** What an intent serialises against *)

(** [std::string::find(c)] and [substr(0, find(c))]. *)
Definition has_char (c : ascii) (s : string) : bool :=
  existsb (Ascii.eqb c) (String.list_ascii_of_string s).

Fixpoint before_char (c : ascii) (s : string) : string :=
  match s with
  | EmptyString => ""
  | String d s' => if Ascii.eqb d c then "" else String d (before_char c s')
  end.

Definition object_key_for (module_key : string -> json -> result spec_error string) (i : Intent) :
  result spec_error string :=
  sch ← str (body i) "schema";
  name ← str (body i) "name";
  match kind i with
  | kCreateSchema | kDropSchema | kAlterSchema => Ok ("schema:" +:+ sch)
  | kCreateExtension | kDropExtension | kAlterExtension => Ok ("extension:" +:+ name)
  | kCreateType | kDropType | kAddEnumValue | kAlterDomain => Ok ("type:" +:+ sch +:+ "." +:+ name)
  | kCreateFunction | kDropFunction | kAlterFunction => Ok ("function:" +:+ sch +:+ "." +:+ name)
  | kCreateSequence | kDropSequence | kAlterSequence => Ok ("sequence:" +:+ sch +:+ "." +:+ name)
  | kSetTextSearchMapping => Ok ("tsconfig:" +:+ sch +:+ "." +:+ name)
  | kModule m => module_key m (body i)
  | _ => Ok ""
  end.

(** The lambda [add]: an empty or unfinished key is dropped. *)
Definition key_complete (k : string) : bool :=
  negb (String.eqb k "") && negb (String.eqb k ".")
  && negb (bool_decide (last (String.list_ascii_of_string k) = Some "."%char)).

Definition add_conflict (keys : list string) (k : string) : list string :=
  if key_complete k then keys ++ [k] else keys.

(** Trailing blanks and opening brackets popped. *)
Fixpoint pop_open (l : list ascii) : list ascii :=
  match l with
  | c :: l' => if Ascii.eqb c " " || Ascii.eqb c "[" then pop_open l' else l
  | [] => []
  end.

Definition pop_back_open (s : string) : string :=
  String.string_of_list_ascii (rev (pop_open (rev (String.list_ascii_of_string s)))).

(** The loop over a table's columns. *)
Fixpoint column_type_keys (keys : list string) (cols : list json) : result spec_error (list string) :=
  match cols with
  | [] => Ok keys
  | c :: cols' =>
      type ← str c "type";
      column_type_keys
        (if has_char "." type then add_conflict keys ("type:" +:+ before_char "(" type) else keys) cols'
  end.

(** What a range-for over a JSON value visits. *)
Definition elements (v : json) : list json :=
  match v with JArr l => l | JObj l => l.*2 | JNull => [] | _ => [v] end.

(** The switch of [conflict_keys]. *)
Definition conflict_edges (module_edges : string -> json -> list string -> result spec_error (list string))
    (i : Intent) (sch : string) (keys : list string) : result spec_error (list string) :=
  let b := body i in
  match kind i with
  | kModule m => module_edges m b keys
  | kAddColumn | kAlterColumnType =>
      type ← str b "type";
      Ok (if has_char "." type then add_conflict keys ("type:" +:+ pop_back_open (before_char "(" type)) else keys)
  | kCreateTable =>
      keys ← (if contains b "partition_of" then p ← str b "partition_of"; Ok (add_conflict keys p) else Ok keys);
      overlaps ← lift (value_bool b "without_overlaps" false);
      let keys := if (overlaps : bool) then add_conflict keys "extension:btree_gist" else keys in
      cols ← lift (value_json b "columns" (JArr []));
      column_type_keys keys (elements cols)
  | kCreateTrigger =>
      fn ← str b "function";
      let fn := before_char "(" fn in
      Ok (if has_char "." fn then add_conflict keys ("function:" +:+ fn) else keys)
  | kAttachPartition | kDetachPartition => p ← str b "partition"; Ok (add_conflict keys (sch +:+ "." +:+ p))
  | kRenameTable => t ← str b "to"; Ok (add_conflict keys (sch +:+ "." +:+ t))
  | kAddForeignKey =>
      rs ← str b "references_schema"; rt ← str b "references_table";
      Ok (add_conflict keys (rs +:+ "." +:+ rt))
  | kAddUniqueConstraint | kAddPrimaryKey =>
      overlaps ← lift (value_bool b "without_overlaps" false);
      Ok (if (overlaps : bool) then add_conflict keys "extension:btree_gist" else keys)
  | kAddExclusionConstraint =>
      method ← lift (value_str b "using" "gist");
      Ok (if String.eqb method "gist" then add_conflict keys "extension:btree_gist" else keys)
  | kReplaceView | kDropView | kAlterView | kCreateMaterializedView =>
      n ← str b "name"; Ok (add_conflict keys (sch +:+ "." +:+ n))
  | _ => Ok keys
  end.

(** What modules contribute, generated at build time. *)
Class Modules : Type := {
  module_kinds : list string;
  module_key : string -> json -> result spec_error string;
  module_edges : string -> json -> list string -> result spec_error (list string);
}.

Definition conflict_keys `{Modules} (i : Intent) : result spec_error (list string) :=
  sch ← str (body i) "schema";
  object ← object_key_for module_key i;
  let keys := if String.eqb object "" then [] else add_conflict [] object in
  t ← table i;
  keys ← (if String.eqb t "" then Ok keys else q ← qualified_table i; Ok (add_conflict keys q));
  conflict_edges module_edges i sch keys.

(** ** Checks on a document *)

(** [require_identifier]. *)
Definition lower (c : ascii) : bool := let b := byte_val c in (97 <=? b) && (b <=? 122).
Definition digit (c : ascii) : bool := let b := byte_val c in (48 <=? b) && (b <=? 57).
Definition underscore (c : ascii) : bool := Ascii.eqb c "_".

Definition require_identifier (v : string) : result spec_error unit :=
  match v with
  | EmptyString => Err (Refused "empty")
  | String c _ =>
      if (63 <? String.length v)%nat then Err (Refused "longer than 63 bytes")
      else if negb (lower c || underscore c) then Err (Refused "first character")
      else if forallb (fun c => lower c || digit c || underscore c) (String.list_ascii_of_string v) then Ok tt
      else Err (Refused "character")
  end.

Definition require_string (obj : json) (key : string) : result spec_error string :=
  match at_key obj key with
  | JStr s => if String.eqb s "" then Err (Refused key) else Ok s
  | _ => Err (Refused key)
  end.

Definition reject_unknown_keys (obj : json) (allowed : list string) : result spec_error unit :=
  match List.find (fun k => negb (existsb (String.eqb k) allowed)) (obj_keys obj) with
  | Some k => Err (Refused k)
  | None => Ok tt
  end.

(** [row_key_columns]. *)
Fixpoint key_strings (l : list json) : result spec_error (list string) :=
  match l with
  | [] => Ok []
  | JStr s :: l' => ks ← key_strings l'; Ok (s :: ks)
  | _ :: _ => Err (Refused "key")
  end.

Fixpoint check_row_keys (seen keys : list string) : result spec_error unit :=
  match keys with
  | [] => Ok tt
  | k :: keys' =>
      _ ← require_identifier k;
      if existsb (String.eqb k) seen then Err (Refused "key twice") else check_row_keys (seen ++ [k]) keys'
  end.

Definition row_key_columns (b : json) (required : bool) : result spec_error (list string) :=
  if negb (contains b "key") then if required then Err (Refused "key") else Ok []
  else
    keys ← match at_key b "key" with
           | JStr s => Ok [s]
           | JArr (x :: l) => key_strings (x :: l)
           | _ => Err (Refused "key")
           end;
    _ ← check_row_keys [] keys;
    Ok keys.

(** [period_flag]. *)
Definition period_flag (b : json) (flag columns : string) : result spec_error unit :=
  if negb (contains b flag) then Ok tt
  else
    match at_key b flag with
    | JBool false => Ok tt
    | JBool true =>
        match at_key b columns with
        | JArr (_ :: _ :: _) => Ok tt
        | _ => Err (Refused flag)
        end
    | _ => Err (Refused flag)
    end.

(** [signed_top_level_keys()], in the set's order. *)
Definition signed_top_level_keys : list string :=
  ["depends_on"; "description"; "id"; "intents"; "laswell_spec_version"; "rationale"; "release"; "target"].

(** ** [parse_spec] *)
Record Spec : Type := {
  document : json;
  signed_projection : json;
  canonical_bytes : string;
  digest : string;
  id : string;
  description : string;
  rationale : string;
  target_connection : string;
  target_database : string;
  target_environment : string;
  target_epoch : string;
  release : string;
  min_server_version : Z;
  depends_on : list string;
  intents : list Intent;
  signatures : json;
}.

Definition kSpecVersion : Z := 1.

Definition integer_of (v : json) : option Z :=
  match v with JInt n | JUint n => Some (int32_of n) | _ => None end.

Fixpoint parse_depends (own : string) (l : list json) : result spec_error (list string) :=
  match l with
  | [] => Ok []
  | JStr d :: l' =>
      if String.eqb d "" then Err (Refused "depends_on")
      else if String.eqb d own then Err (Refused "depends on itself")
      else ds ← parse_depends own l'; Ok (d :: ds)
  | _ :: _ => Err (Refused "depends_on")
  end.

(** The fields of [target]. *)
Record Target : Type := {
  t_connection : string; t_database : string; t_environment : string; t_epoch : string; t_min : Z;
}.

Definition no_target : Target :=
  {| t_connection := ""; t_database := ""; t_environment := ""; t_epoch := ""; t_min := 0 |}.

Definition when_present (obj : json) (k : string) : result spec_error string :=
  if contains obj k then require_string obj k else Ok "".

Definition target_fields (t : json) : result spec_error Target :=
  conn ← when_present t "connection";
  db ← str t "database";
  env ← when_present t "environment";
  epoch ← when_present t "epoch";
  min ← (if contains t "min_server_version" then
           match integer_of (at_key t "min_server_version") with
           | Some n => Ok n
           | None => Err (Refused "min_server_version")
           end
         else Ok 0);
  Ok {| t_connection := conn; t_database := db; t_environment := env; t_epoch := epoch; t_min := min |}.

Definition parse_target (t : json) : result spec_error Target :=
  if negb (is_object t) then Err (Refused "target")
  else
    _ ← reject_unknown_keys t ["connection"; "database"; "environment"; "epoch"; "min_server_version"];
    target_fields t.

(** The body checks of a kind: [parse_add_column(in)] and its like. *)
Class Bodies : Type := { parse_body : IntentKind -> json -> Z -> result spec_error unit }.

Fixpoint parse_intents `{Modules, Bodies} (n : Z) (l : list json) : result spec_error (list Intent) :=
  match l with
  | [] => Ok []
  | b :: l' =>
      if negb (is_object b) then Err (Refused "intent")
      else
        name ← require_string b "kind";
        match find_kind module_kinds name with
        | None => Err (Refused name)
        | Some k =>
            _ ← parse_body k b n;
            is_ ← parse_intents (n + 1) l';
            Ok ({| kind := k; kind_name := name; ordinal := n; body := b |} :: is_)
        end
  end.

(** The loop that copies what is allowed. *)
Definition project (doc : json) : json :=
  JObj (omap (fun k => if contains doc k then Some (k, at_key doc k) else None) signed_top_level_keys).

(** The scalar fields, in the order they are read. *)
Record Header : Type := {
  h_id : string; h_description : string; h_rationale : string; h_depends : list string; h_release : string;
}.

Definition parse_header (doc : json) : result spec_error Header :=
  _ ← match integer_of (at_key doc "laswell_spec_version") with
      | Some v => throw_if (negb (v =? kSpecVersion)) (Refused "version")
      | None => Err (Refused "version")
      end;
  id ← require_string doc "id";
  description ← require_string doc "description";
  rationale ← str doc "rationale";
  depends ← (if contains doc "depends_on" then
               match at_key doc "depends_on" with
               | JArr l => parse_depends id l
               | _ => Err (Refused "depends_on")
               end
             else Ok []);
  release ← when_present doc "release";
  Ok {| h_id := id; h_description := description; h_rationale := rationale; h_depends := depends;
        h_release := release |}.

Definition parse_spec `{Modules, Bodies} (sha256 : string -> string) (doc : json) : result spec_error Spec :=
  if negb (is_object doc) then Err (Refused "not an object")
  else
    _ ← reject_unknown_keys doc ("signatures" :: signed_top_level_keys);
    h ← parse_header doc;
    target ← (if contains doc "target" then parse_target (at_key doc "target") else Ok no_target);
    intents ← match at_key doc "intents" with
              | JArr (x :: l) => parse_intents 0 (x :: l)
              | _ => Err (Refused "intents")
              end;
    signatures ← (if contains doc "signatures" then
                    match at_key doc "signatures" with
                    | JArr l => Ok (JArr l)
                    | _ => Err (Refused "signatures")
                    end
                  else Ok (JArr []));
    let projection := project doc in
    bytes ← lift_canon (canonicalize projection);
    Ok {| document := doc; signed_projection := projection; canonical_bytes := bytes;
          digest := to_hex (sha256 bytes); id := h_id h; description := h_description h;
          rationale := h_rationale h; target_connection := t_connection target;
          target_database := t_database target; target_environment := t_environment target;
          target_epoch := t_epoch target; release := h_release h; min_server_version := t_min target;
          depends_on := h_depends h; intents := intents; signatures := signatures |}.
