(* ===== verification/SpecFacts.v ===== *)
(** * SpecFacts: what a signature covers, and what a lock covers

    Every field [parse_spec] reads is a function of the canonical bytes, so a
    signature over them covers all that runs; and the keys two intents share. *)
From S2P Require Import Prelude Json Canonical Utf CanonicalFacts Spec.

(** ** Documents equal up to presentation *)
Definition same (v1 v2 : json) : Prop := norm v1 = norm v2 /\ wf_json v1 = true /\ wf_json v2 = true.

Lemma wf_find k l v : wf_json (JObj l) = true -> obj_find k l = Some v -> wf_json v = true.
Proof.
  intros [_ Hl]%wf_obj H. apply obj_find_Some_in in H. rewrite Forall_forall in Hl. specialize (Hl _ H).
  unfold wf_member in Hl. by bool_prop.
Qed.

Lemma norm_object v1 v2 l1 : norm v1 = norm v2 -> v1 = JObj l1 -> exists l2, v2 = JObj l2.
Proof. intros H ->. destruct v2; simpl in H; try discriminate H. eauto. Qed.

Lemma same_find k l1 l2 :
  same (JObj l1) (JObj l2) ->
  match obj_find k l1, obj_find k l2 with
  | Some v1, Some v2 => same v1 v2
  | None, None => True
  | _, _ => False
  end.
Proof.
  intros (Hn & Hw1 & Hw2). pose proof Hw1 as [Hd1 _]%wf_obj. pose proof Hw2 as [Hd2 _]%wf_obj.
  rewrite !norm_obj_sorted in Hn. injection Hn as Hn.
  pose proof (f_equal (obj_find k) Hn) as Hf. rewrite !obj_find_norm in Hf by done.
  destruct (obj_find k l1) eqn:E1, (obj_find k l2) eqn:E2; simpl in Hf; try discriminate Hf; [|done].
  injection Hf as Hf. split; [done|]. by split; [eapply wf_find, E1|eapply wf_find, E2].
Qed.

(** What the accessors return is the same. *)
Section same.
Context (l1 l2 : list (string * json)) (Hs : same (JObj l1) (JObj l2)) (k : string).

Lemma same_contains : contains (JObj l1) k = contains (JObj l2) k.
Proof using Hs. pose proof (same_find k l1 l2 Hs). simpl. by repeat case_match. Qed.

Lemma same_at_key : same (at_key (JObj l1) k) (at_key (JObj l2) k).
Proof using Hs. pose proof (same_find k l1 l2 Hs). simpl. by repeat case_match. Qed.

Lemma same_value_str d : value_str (JObj l1) k d = value_str (JObj l2) k d.
Proof using Hs.
  pose proof (same_find k l1 l2 Hs) as H. simpl.
  destruct (obj_find k l1) as [v1|], (obj_find k l2) as [v2|]; try done.
  destruct H as [H _]. by destruct v1, v2; simplify_eq/=.
Qed.
End same.

Lemma same_require_string l1 l2 k :
  same (JObj l1) (JObj l2) -> require_string (JObj l1) k = require_string (JObj l2) k.
Proof.
  intros Hs. unfold require_string. destruct (same_at_key _ _ Hs k) as [H _].
  by destruct (at_key _ k), (at_key _ k); simplify_eq/=.
Qed.

Lemma same_integer v1 v2 : same v1 v2 -> integer_of v1 = integer_of v2.
Proof. intros [H _]. by destruct v1, v2; simplify_eq/=. Qed.

Lemma same_arr l1 l2 : same (JArr l1) (JArr l2) -> Forall2 same l1 l2.
Proof.
  intros (Hn & Hw1 & Hw2). apply wf_arr in Hw1, Hw2. simpl in Hn. injection Hn as Hn.
  revert l2 Hn Hw2. induction Hw1 as [|v1 l1 Hv1 Hl1 IH]; intros [|v2 l2] Hn Hw2; try discriminate Hn; [done|].
  csimpl in Hn. injection Hn as H Hn. inversion Hw2; subst. constructor; [done|]. auto.
Qed.

Lemma same_is_arr v1 v2 l1 : same v1 v2 -> v1 = JArr l1 -> exists l2, v2 = JArr l2.
Proof. intros [H _] ->. destruct v2; simpl in H; try discriminate H. eauto. Qed.

Lemma same_when_present l1 l2 k :
  same (JObj l1) (JObj l2) -> when_present (JObj l1) k = when_present (JObj l2) k.
Proof. intros Hs. unfold when_present. by rewrite (same_contains _ _ Hs), (same_require_string _ _ k Hs). Qed.

Lemma same_depends own l1 l2 : Forall2 same l1 l2 -> parse_depends own l1 = parse_depends own l2.
Proof.
  induction 1 as [|v1 v2 l1 l2 [Hv _] Hl IH]; [done|]. simpl. rewrite IH.
  by destruct v1, v2; simplify_eq/=.
Qed.

Lemma same_target t1 t2 x1 x2 : same t1 t2 -> parse_target t1 = Ok x1 -> parse_target t2 = Ok x2 -> x1 = x2.
Proof.
  intros Hs H1 H2. unfold parse_target in H1, H2.
  destruct t1 as [| | | | | | |l1| |], t2 as [| | | | | | |l2| |]; simpl in H1, H2; try discriminate. ok_inv.
  cut (target_fields (JObj l1) = target_fields (JObj l2)); [congruence|].
  unfold target_fields, str. rewrite !(same_when_present _ _ _ Hs), (same_value_str _ _ Hs), (same_contains _ _ Hs).
  by rewrite (same_integer _ _ (same_at_key _ _ Hs "min_server_version")).
Qed.

Lemma same_depends_field l1 l2 own :
  same (JObj l1) (JObj l2) ->
  match at_key (JObj l1) "depends_on" with JArr l => parse_depends own l | _ => Err (Refused "depends_on") end =
  match at_key (JObj l2) "depends_on" with JArr l => parse_depends own l | _ => Err (Refused "depends_on") end.
Proof.
  intros Hs. pose proof (same_at_key _ _ Hs "depends_on") as Ha.
  destruct (at_key (JObj l1) _), (at_key (JObj l2) _); destruct Ha as (Hn & Hw); try discriminate Hn; try done.
  by apply same_depends, same_arr.
Qed.

Lemma same_header l1 l2 : same (JObj l1) (JObj l2) -> parse_header (JObj l1) = parse_header (JObj l2).
Proof.
  intros Hs. unfold parse_header, str.
  rewrite (same_integer _ _ (same_at_key _ _ Hs "laswell_spec_version")), !(same_require_string _ _ _ Hs).
  rewrite (same_value_str _ _ Hs), (same_contains _ _ Hs), (same_when_present _ _ _ Hs).
  destruct (integer_of _); [|done]. destruct (throw_if _ _); [|done]. cbn [mbind result_bind].
  destruct (require_string _ "id") as [own|]; [|done]. cbn [mbind result_bind].
  destruct (require_string _ "description"); [|done]. cbn [mbind result_bind].
  by rewrite (same_depends_field _ _ own Hs).
Qed.

(** What of an intent is signed: everything, its body up to presentation. *)
Definition signed_intent (i : Intent) : IntentKind * string * Z * json :=
  (kind i, kind_name i, ordinal i, norm (body i)).

(** ** The signed projection *)

(** The members of [l] named in [ks]. *)
Definition picked (ks : list string) (l : list (string * json)) : list (string * json) :=
  omap (fun k => pair k <$> obj_find k l) ks.

Lemma elem_of_picked kv ks l : kv ∈ picked ks l <-> kv.1 ∈ ks /\ obj_find kv.1 l = Some kv.2.
Proof.
  unfold picked. rewrite list_elem_of_omap. split.
  - intros (k & Hk & E). destruct (obj_find k l) eqn:Ef; [|discriminate]. by injection E as <-.
  - intros [Hk Hf]. exists kv.1. split; [done|]. rewrite Hf. by destruct kv.
Qed.

Lemma picked_names ks l : NoDup ks -> NoDup (picked ks l).*1.
Proof.
  induction 1 as [|k ks Hni Hnd IH]; [constructor|]. unfold picked in *. csimpl.
  destruct (obj_find k l); csimpl; [|done]. apply NoDup_cons. split; [|done].
  intros (kv & E & Hin)%list_elem_of_fmap. apply elem_of_picked in Hin as [Hin _]. by subst.
Qed.

Lemma obj_find_picked k ks l : NoDup ks -> k ∈ ks -> obj_find k (picked ks l) = obj_find k l.
Proof.
  intros Hnd Hk. destruct (obj_find k l) as [v|] eqn:E.
  - apply obj_find_in; [by apply picked_names|]. by apply elem_of_picked.
  - apply obj_find_None. intros ([k' v'] & Ek & [_ Hf]%elem_of_picked)%list_elem_of_fmap. simpl in *. congruence.
Qed.

Lemma signed_keys_distinct : NoDup signed_top_level_keys.
Proof. apply (bool_decide_unpack _). by vm_compute. Qed.

Definition projected (l : list (string * json)) : list (string * json) := picked signed_top_level_keys l.

Lemma project_obj l : project (JObj l) = JObj (projected l).
Proof.
  unfold project, projected, picked. f_equal. apply list_omap_ext. apply Forall_Forall2_diag, Forall_forall.
  intros k _. cbn [contains at_key]. by destruct (obj_find k l).
Qed.

Lemma wf_projected l : wf_json (JObj l) = true -> wf_json (JObj (projected l)) = true.
Proof.
  intros Hw. apply wf_obj. split; [apply picked_names, signed_keys_distinct|].
  apply Forall_forall. intros [k v] [_ Hf]%elem_of_picked. simpl in Hf.
  apply wf_obj in Hw as [_ Hw]. apply obj_find_Some_in in Hf. rewrite Forall_forall in Hw. by apply Hw.
Qed.

(** Reading a signed key from the projection is reading it from the document. *)
Section projected.
Context (l : list (string * json)) (k : string) (Hk : k ∈ signed_top_level_keys).

Lemma projected_find : obj_find k (projected l) = obj_find k l.
Proof using Hk. apply obj_find_picked; [apply signed_keys_distinct|done]. Qed.

Lemma projected_contains : contains (JObj (projected l)) k = contains (JObj l) k.
Proof using Hk. cbn [contains]. by rewrite projected_find. Qed.

Lemma projected_at_key : at_key (JObj (projected l)) k = at_key (JObj l) k.
Proof using Hk. cbn [at_key]. by rewrite projected_find. Qed.

Lemma projected_value_str d : value_str (JObj (projected l)) k d = value_str (JObj l) k d.
Proof using Hk. cbn [value_str]. by rewrite projected_find. Qed.
End projected.

Ltac signed_key := apply (bool_decide_unpack _); vm_compute; exact I.

Lemma projected_header l : parse_header (JObj (projected l)) = parse_header (JObj l).
Proof.
  unfold parse_header, require_string, when_present, require_string, str.
  by rewrite !projected_contains, !projected_at_key, projected_value_str by signed_key.
Qed.

Section parse.
Context `{Modules, Bodies} (sha256 : string -> string).

Lemma same_intents n l1 l2 is1 is2 :
  Forall2 same l1 l2 -> parse_intents n l1 = Ok is1 -> parse_intents n l2 = Ok is2 ->
  signed_intent <$> is1 = signed_intent <$> is2.
Proof using Type.
  intros Hl. revert n is1 is2. induction Hl as [|b1 b2 l1 l2 Hb Hl IH]; intros n is1 is2 H1 H2;
    simpl in H1, H2; [by ok_inv|].
  case_if_in H1; [discriminate|]. case_if_in H2; [discriminate|].
  destruct b1 as [| | | | | | |m1| |], b2 as [| | | | | | |m2| |]; try discriminate.
  rewrite (same_require_string _ _ _ Hb) in H1. destruct (require_string (JObj m2) _); [|discriminate].
  cbn [mbind result_bind] in H1, H2. destruct (find_kind _ _) as [k|]; [|discriminate]. ok_inv. csimpl. f_equal; [|eauto].
  unfold signed_intent. simpl. f_equal. apply Hb.
Qed.

(** The fields a signature is to cover. *)
Definition signed_part (s : Spec) :=
  (id s, description s, rationale s, depends_on s, release s,
   (target_connection s, target_database s, target_environment s, target_epoch s, min_server_version s),
   signed_intent <$> intents s).

Lemma parse_spec_projected l s :
  parse_spec sha256 (JObj l) = Ok s ->
  signed_projection s = JObj (projected l) /\
  canonicalize (JObj (projected l)) = Ok (canonical_bytes s) /\ digest s = to_hex (sha256 (canonical_bytes s)) /\
  exists h t x is_,
    parse_header (JObj (projected l)) = Ok h /\
    (if contains (JObj (projected l)) "target" then parse_target (at_key (JObj (projected l)) "target")
     else Ok no_target) = Ok t /\
    at_key (JObj (projected l)) "intents" = JArr x /\ parse_intents 0 x = Ok is_ /\
    signed_part s = (h_id h, h_description h, h_rationale h, h_depends h, h_release h,
      (t_connection t, t_database t, t_environment t, t_epoch t, t_min t), signed_intent <$> is_).
Proof using Type.
  unfold parse_spec. intros Hp. rewrite project_obj in Hp. cbn [is_object negb] in Hp. ok_inv.
  split; [done|]. unfold lift_canon in *. split; [by repeat case_match; simplify_eq|]. split; [done|].
  rewrite projected_header, !projected_contains, !projected_at_key by signed_key.
  destruct (at_key (JObj l) "intents") as [| | | | | |[|b bs]| | |] eqn:Ei; try discriminate.
  do 4 eexists. split_and!; done.
Qed.

Lemma same_projected l1 l2 s1 s2 :
  same (JObj (projected l1)) (JObj (projected l2)) ->
  parse_spec sha256 (JObj l1) = Ok s1 -> parse_spec sha256 (JObj l2) = Ok s2 -> signed_part s1 = signed_part s2.
Proof using Type.
  intros Hs (_ & _ & _ & h1 & t1 & x1 & is1 & Hh1 & Ht1 & Hx1 & Hi1 & ->)%parse_spec_projected
    (_ & _ & _ & h2 & t2 & x2 & is2 & Hh2 & Ht2 & Hx2 & Hi2 & ->)%parse_spec_projected.
  rewrite (same_header _ _ Hs), Hh2 in Hh1. injection Hh1 as ->.
  pose proof (same_at_key _ _ Hs "intents") as Hx. rewrite Hx1, Hx2 in Hx. apply same_arr in Hx.
  rewrite (same_intents 0 x1 x2 is1 is2) by done.
  rewrite (same_contains _ _ Hs) in Ht1. destruct (contains (JObj (projected l2)) "target").
  - by rewrite (same_target _ _ _ _ (same_at_key _ _ Hs "target") Ht1 Ht2).
  - rewrite Ht1 in Ht2. by injection Ht2 as ->.
Qed.
End parse.

Lemma parse_spec_object `{Modules, Bodies} sha256 doc s :
  parse_spec sha256 doc = Ok s -> exists l, doc = JObj l.
Proof. unfold parse_spec. destruct doc; try discriminate. eauto. Qed.

(** ** Conflict keys *)
Definition ident (v : string) : Prop := require_identifier v = Ok tt.

Definition ident_char (c : ascii) : bool := lower c || digit c || underscore c.

Lemma ident_chars v :
  ident v -> v <> "" /\ forallb ident_char (String.list_ascii_of_string v) = true.
Proof.
  unfold ident, require_identifier. destruct v as [|c v]; [discriminate|]. repeat case_if; try discriminate.
  intros _. by split.
Qed.

Lemma ident_char_plain c : ident_char c = true ->
  Ascii.eqb c "(" = false /\ Ascii.eqb c "." = false /\ Ascii.eqb c " " || Ascii.eqb c "[" = false.
Proof.
  intros H. split_and!; apply not_true_iff_false; intros E; try apply orb_true_iff in E as [E|E];
    apply Ascii.eqb_eq in E; subst c; discriminate H.
Qed.

Lemma before_char_app c a b :
  forallb (fun d => negb (Ascii.eqb d c)) (String.list_ascii_of_string a) = true ->
  before_char c (a +:+ String c b) = a /\ before_char c a = a.
Proof.
  induction a as [|d a IH]; cbn [String.list_ascii_of_string forallb]; intros H.
  - rewrite string_app_nil_l. simpl. by rewrite Ascii.eqb_refl.
  - apply andb_prop in H as [H1 H2]. apply negb_true_iff in H1. rewrite string_app_cons. cbn [before_char].
    rewrite H1. destruct (IH H2) as [-> ->]. done.
Qed.

Lemma chars_app a b :
  String.list_ascii_of_string (a +:+ b) = String.list_ascii_of_string a ++ String.list_ascii_of_string b.
Proof. induction a as [|c a IH]; [done|]. rewrite string_app_cons. cbn. by rewrite IH. Qed.

(** A qualified name, as a column's type or a trigger's function spells it, with
    or without what follows in parentheses. *)
Definition qualified (s n : string) : string := s +:+ "." +:+ n.
Definition spelling (s n t : string) : Prop := t = qualified s n \/ exists args, t = qualified s n +:+ String "(" args.

Section qualified.
Context (s n : string) (Hs : ident s) (Hn : ident n).

Lemma qualified_no_paren :
  forallb (fun d => negb (Ascii.eqb d "(")) (String.list_ascii_of_string (qualified s n)) = true.
Proof using Hs Hn.
  unfold qualified. rewrite !chars_app, !forallb_app. apply ident_chars in Hs as [_ H1], Hn as [_ H2].
  assert (forall l, forallb ident_char l = true -> forallb (fun d => negb (Ascii.eqb d "(")) l = true) as H.
  { intros l. rewrite !forallb_forall. intros H d Hd. by destruct (ident_char_plain d (H d Hd)) as (-> & _). }
  by rewrite (H _ H1), (H _ H2).
Qed.

Lemma spelling_base t : spelling s n t -> before_char "(" t = qualified s n.
Proof using Hs Hn.
  pose proof (before_char_app "(" (qualified s n)) as H.
  intros [->|[args ->]]; [apply (H "" qualified_no_paren)|apply (H args qualified_no_paren)].
Qed.

Lemma qualified_last : exists c, last (String.list_ascii_of_string (qualified s n)) = Some c /\ ident_char c = true.
Proof using Hn.
  apply ident_chars in Hn as [Hne Hc]. unfold qualified. rewrite !chars_app, !last_app.
  destruct (last (String.list_ascii_of_string n)) as [c|] eqn:E.
  - exists c. split; [done|]. rewrite forallb_forall in Hc. apply Hc, list_elem_of_In.
    by apply last_Some_elem_of.
  - apply last_None in E. by destruct n.
Qed.

Lemma qualified_dot : has_char "." (qualified s n) = true.
Proof using Type. unfold has_char, qualified. rewrite chars_app, existsb_app. apply orb_true_r. Qed.

Lemma pop_back_qualified : pop_back_open (qualified s n) = qualified s n.
Proof using Hn.
  destruct qualified_last as (c & Hl & Hc). unfold pop_back_open.
  destruct (ident_char_plain c Hc) as (_ & _ & Ho). apply last_Some in Hl as [l' E].
  rewrite E, rev_app_distr. cbn [rev app pop_open]. rewrite Ho. cbn [rev]. rewrite rev_involutive, <- E.
  apply String.string_of_list_ascii_of_string.
Qed.

Lemma key_complete_qualified p : key_complete (p +:+ qualified s n) = true.
Proof using Hn.
  destruct qualified_last as (c & Hl & Hc). unfold key_complete.
  destruct (ident_char_plain c Hc) as (_ & Hd & _). apply Ascii.eqb_neq in Hd.
  assert (last (String.list_ascii_of_string (p +:+ qualified s n)) = Some c) as Hl'
    by (by rewrite chars_app, last_app, Hl).
  rewrite (bool_decide_eq_false_2 _) by congruence.
  destruct (String.eqb_spec (p +:+ qualified s n) "") as [E|_]; [by rewrite E in Hl'|].
  destruct (String.eqb_spec (p +:+ qualified s n) ".") as [E|_]; [|done].
  rewrite E in Hl'. by injection Hl' as <-.
Qed.
End qualified.

Lemma elem_of_add_conflict k keys k' : k ∈ keys \/ (k = k' /\ key_complete k = true) -> k ∈ add_conflict keys k'.
Proof. unfold add_conflict. intros [H|[-> H]]; [case_if; set_solver|rewrite H; set_solver]. Qed.

(** ** Conflict keys grow *)
Lemma column_type_keys_grow keys cols keys' :
  column_type_keys keys cols = Ok keys' -> keys ⊆ keys'.
Proof.
  revert keys; induction cols as [|c cols IH]; intros keys H; simpl in H; ok_inv; [done|].
  apply IH in H0. intros k Hk. apply H0. case_if; [|done]. apply elem_of_add_conflict. by left.
Qed.

Lemma conflict_edges_grow `{Modules} i sch keys keys' :
  (forall m, kind i <> kModule m) -> conflict_edges module_edges i sch keys = Ok keys' -> keys ⊆ keys'.
Proof.
  intros Hm H0 k Hk. unfold conflict_edges in H0.
  destruct (kind i); try (by destruct (Hm name)); ok_inv; try done;
    try (apply elem_of_add_conflict; by left);
    try (case_if; [apply elem_of_add_conflict; by left|done]).
  - apply column_type_keys_grow in H3. apply H3.
    assert (k ∈ x) as Hx by (case_if_in H0; ok_inv; [apply elem_of_add_conflict; by left|done]).
    case_if; [apply elem_of_add_conflict; by left|done].
Qed.

Inductive object_class : Type := TypeObject | FunctionObject.

Definition object_key (c : object_class) (s n : string) : string :=
  match c with TypeObject => "type:" | FunctionObject => "function:" end +:+ qualified s n.

(** The intent creates, changes or drops the object [s.n]. *)
Definition defines (i : Intent) (c : object_class) (s n : string) : Prop :=
  str (body i) "schema" = Ok s /\ str (body i) "name" = Ok n /\
  match c, kind i with
  | TypeObject, (kCreateType | kDropType | kAddEnumValue | kAlterDomain) => True
  | FunctionObject, (kCreateFunction | kDropFunction | kAlterFunction) => True
  | _, _ => False
  end.

(** The intent makes a column of the type [s.n] itself, written with its schema and
    perhaps a modifier, or a trigger that calls [s.n]. A column of an array of the type
    is not meant: see [array_columns_miss_the_types_key]. *)
Definition uses_itself (i : Intent) (c : object_class) (s n : string) : Prop :=
  match c, kind i with
  | TypeObject, (kAddColumn | kAlterColumnType) => exists t, str (body i) "type" = Ok t /\ spelling s n t
  | TypeObject, kCreateTable => exists cols col t,
      value_json (body i) "columns" (JArr []) = Ok cols /\ col ∈ elements cols /\
      str col "type" = Ok t /\ spelling s n t
  | FunctionObject, kCreateTrigger => exists t, str (body i) "function" = Ok t /\ spelling s n t
  | _, _ => False
  end.

Section shared_key.
Context `{Modules} (s n : string) (Hs : ident s) (Hn : ident n).

Lemma key_complete_object c : key_complete (object_key c s n) = true.
Proof using Hn. by apply key_complete_qualified. Qed.

Lemma object_key_not_empty c : String.eqb (object_key c s n) "" = false.
Proof using Hn. pose proof (key_complete_object c) as Hc. unfold key_complete in Hc. by bool_prop. Qed.

Lemma spelling_dot t : spelling s n t -> has_char "." t = true.
Proof using Type.
  intros [->|[args ->]]; [apply qualified_dot|]. unfold has_char. rewrite chars_app, existsb_app.
  pose proof (qualified_dot s n) as Hd. unfold has_char in Hd. by rewrite Hd.
Qed.

Lemma defines_key i c ks : defines i c s n -> conflict_keys i = Ok ks -> object_key c s n ∈ ks.
Proof using Hn.
  intros (Hsc & Hna & Hk) Hc.
  assert (object_key_for module_key i = Ok (object_key c s n)) as Ho.
  { unfold object_key_for. rewrite Hsc, Hna. simpl. by destruct c, (kind i). }
  unfold conflict_keys in Hc. rewrite Hsc, Ho in Hc. cbn [mbind result_bind] in Hc.
  rewrite object_key_not_empty in Hc. ok_inv.
  apply conflict_edges_grow in H2; [|intros m E; rewrite E in Hk; by destruct c]. apply H2.
  assert (object_key c s n ∈ add_conflict [] (object_key c s n)) as Hin
    by (apply elem_of_add_conflict; right; split; [done|apply key_complete_object]).
  case_if_in H1; ok_inv; [done|]. apply elem_of_add_conflict. by left.
Qed.

Lemma column_key keys cols col t keys' :
  col ∈ cols -> str col "type" = Ok t -> spelling s n t ->
  column_type_keys keys cols = Ok keys' -> object_key TypeObject s n ∈ keys'.
Proof using Hs Hn.
  intros Hin Ht Hsp. revert keys. induction cols as [|c cols IH]; intros keys Hc; [by apply elem_of_nil in Hin|].
  simpl in Hc. apply elem_of_cons in Hin as [<-|Hin].
  - rewrite Ht in Hc. cbn [mbind result_bind] in Hc. rewrite (spelling_dot t Hsp) in Hc.
    apply column_type_keys_grow in Hc. apply Hc. apply elem_of_add_conflict. right.
    rewrite (spelling_base s n) by done. split; [done|apply (key_complete_object TypeObject)].
  - ok_inv. by eapply IH.
Qed.

Lemma uses_key i c ks : uses_itself i c s n -> conflict_keys i = Ok ks -> object_key c s n ∈ ks.
Proof using Hs Hn.
  intros Hu Hc. unfold conflict_keys in Hc. ok_inv. clear H0 H1 H2 H3. revert H4.
  unfold conflict_edges. unfold uses_itself in Hu.
  destruct c, (kind i); try done; intros H4.
  1,2: destruct Hu as (t & Ht & Hsp); rewrite Ht in H4; cbn [mbind result_bind] in H4;
    rewrite (spelling_dot t Hsp), (spelling_base s n), pop_back_qualified in H4 by done;
    injection H4 as <-; apply elem_of_add_conflict; right; split; [done|apply (key_complete_object TypeObject)].
  - destruct Hu as (cols & col & t & Hcols & Hcol & Ht & Hsp). ok_inv.
    unfold lift in *. rewrite Hcols in *. simplify_eq. by eapply column_key.
  - destruct Hu as (t & Ht & Hsp). rewrite Ht in H4. cbn [mbind result_bind] in H4.
    rewrite (spelling_base s n), qualified_dot in H4 by done.
    injection H4 as <-. apply elem_of_add_conflict. right. split; [done|apply (key_complete_object FunctionObject)].
Qed.
End shared_key.

Lemma conflict_keys_eq `{Modules} i sch o t :
  str (body i) "schema" = Ok sch -> object_key_for module_key i = Ok o -> table i = Ok t ->
  conflict_keys i =
    let keys := if String.eqb o "" then [] else add_conflict [] o in
    conflict_edges module_edges i sch (if String.eqb t "" then keys else add_conflict keys (qualified sch t)).
Proof.
  intros Hs Ho Ht. unfold conflict_keys, qualified_table, schema. rewrite Hs, Ho. cbn [mbind result_bind].
  rewrite Ht. cbn [mbind result_bind]. by case_if.
Qed.

(** An array of a named type. *)
Definition add_array_column (sch tab s n : string) : Intent :=
  {| kind := kAddColumn; kind_name := "add_column"; ordinal := 0;
     body := JObj [("schema", JStr sch); ("table", JStr tab); ("type", JStr (qualified s n +:+ "[]"))] |}.

Definition drop_type (s n : string) : Intent :=
  {| kind := kDropType; kind_name := "drop_type"; ordinal := 0;
     body := JObj [("schema", JStr s); ("name", JStr n)] |}.

Lemma array_base s n :
  ident s -> ident n -> pop_back_open (before_char "(" (qualified s n +:+ "[]")) = qualified s n +:+ "[]".
Proof.
  intros Hs Hn.
  assert (forallb (fun d => negb (Ascii.eqb d "(")) (String.list_ascii_of_string (qualified s n +:+ "[]")) = true) as Hp.
  { rewrite chars_app, forallb_app. by rewrite qualified_no_paren. }
  destruct (before_char_app "(" (qualified s n +:+ "[]") "" Hp) as [_ ->].
  unfold pop_back_open. rewrite chars_app, rev_app_distr. cbn [String.list_ascii_of_string rev app pop_open].
  cbn. rewrite rev_involutive, <- app_assoc. cbn [app].
  change (["["%char; "]"%char]) with (String.list_ascii_of_string "[]"). rewrite <- chars_app.
  apply String.string_of_list_ascii_of_string.
Qed.

(** A specification over one table, and the same one reformatted and signed twice. *)
#[export] Instance no_modules : Modules :=
  {| module_kinds := []; module_key := fun _ _ => Ok ""; module_edges := fun _ _ keys => Ok keys |}.
#[export] Instance any_body : Bodies := {| parse_body := fun _ _ _ => Ok tt |}.

Definition sample_intent : json :=
  JObj [("kind", JStr "add_column"); ("schema", JStr "shop"); ("table", JStr "orders"); ("type", JStr "shop.status")].

Definition sample_spec : json :=
  JObj [("laswell_spec_version", JUint 1); ("id", JStr "s1"); ("description", JStr "d");
        ("target", JObj [("environment", JStr "prod"); ("min_server_version", JUint 150000)]);
        ("intents", JArr [sample_intent])].

Definition sample_spec_reformatted : json :=
  JObj [("signatures", JArr [JObj [("key_id", JStr "k")]]); ("intents", JArr [sample_intent]);
        ("target", JObj [("min_server_version", JInt 150000); ("environment", JStr "prod")]);
        ("description", JStr "d"); ("laswell_spec_version", JInt 1); ("id", JStr "s1")].

(** ** Claims *)

(** C1: a signature covers everything that runs. Two documents [parse_spec]
    accepts with the same canonical bytes (the bytes a signature is over) have the
    same id, description, rationale, dependencies, release, target connection,
    database, environment, epoch and minimum version, and the same intents in the
    same order, bodies included up to presentation, and the same digest: no field
    read from a document lies outside what is signed. It is so of documents that are
    well formed ([wf_json]): no object with a member name twice, text in UTF-8, and no
    unsigned integer of 2^63 or more. Those integers are narrowed before they are
    rendered, so that 18446744073709551615 and -1 have the same bytes
    ([unsigned_values_wrap_before_the_range_test]), and a signature does not tell two
    documents apart that differ in such a place. *)
Theorem signature_covers_the_specification `{Modules, Bodies} sha256 d1 d2 s1 s2 :
  wf_json d1 = true -> wf_json d2 = true ->
  parse_spec sha256 d1 = Ok s1 -> parse_spec sha256 d2 = Ok s2 ->
  canonical_bytes s1 = canonical_bytes s2 ->
  signed_part s1 = signed_part s2 /\ digest s1 = digest s2.
Proof.
  intros Hw1 Hw2 H1 H2 Hb.
  destruct (parse_spec_object _ _ _ H1) as [l1 ->], (parse_spec_object _ _ _ H2) as [l2 ->].
  pose proof (parse_spec_projected _ _ _ H1) as (_ & Hc1 & Hd1 & _).
  pose proof (parse_spec_projected _ _ _ H2) as (_ & Hc2 & Hd2 & _).
  apply wf_projected in Hw1, Hw2. split; [|by rewrite Hd1, Hd2, Hb].
  eapply same_projected; [|done..]. split; [|done]. rewrite Hb in Hc1. by eapply canonicalize_inj.
Qed.

Lemma signature_covers_the_specification_witness : exists s1 s2,
  parse_spec (fun b => b) sample_spec = Ok s1 /\ parse_spec (fun b => b) sample_spec_reformatted = Ok s2 /\
  canonical_bytes s1 = canonical_bytes s2 /\ signed_part s1 = signed_part s2.
Proof.
  destruct (parse_spec (fun b => b) sample_spec) as [s1|] eqn:E1; [|vm_compute in E1; discriminate E1].
  destruct (parse_spec (fun b => b) sample_spec_reformatted) as [s2|] eqn:E2; [|vm_compute in E2; discriminate E2].
  assert (canonical_bytes <$> parse_spec (fun b => b) sample_spec =
          canonical_bytes <$> parse_spec (fun b => b) sample_spec_reformatted) as Hb by (vm_compute; reflexivity).
  rewrite E1, E2 in Hb. injection Hb as Hb. exists s1, s2. split; [done|]. split; [done|]. split; [done|].
  apply (signature_covers_the_specification (fun b => b) sample_spec sample_spec_reformatted s1 s2
    eq_refl eq_refl E1 E2 Hb).
Defined.

(** an object's users share its key. An intent that makes a column of a
    user-defined type (with or without a modifier in parentheses) or a trigger on a
    function has, among the keys it is locked and grouped by, the very key of every
    intent that creates, changes or drops that type or function, so the two are
    never run at the same time. *)
Theorem users_share_the_objects_key `{Modules} i j c s n ki kj :
  ident s -> ident n -> defines i c s n -> uses_itself j c s n ->
  conflict_keys i = Ok ki -> conflict_keys j = Ok kj ->
  object_key c s n ∈ ki /\ object_key c s n ∈ kj.
Proof. intros. split; [by eapply defines_key|by eapply uses_key]. Qed.

Definition sample_user : Intent :=
  {| kind := kCreateTrigger; kind_name := "create_trigger"; ordinal := 0;
     body := JObj [("schema", JStr "shop"); ("table", JStr "orders"); ("name", JStr "t");
                   ("function", JStr "util.touch()")] |}.
Definition sample_definer : Intent :=
  {| kind := kDropFunction; kind_name := "drop_function"; ordinal := 0;
     body := JObj [("schema", JStr "util"); ("name", JStr "touch")] |}.

Lemma users_share_the_objects_key_witness :
  conflict_keys sample_definer = Ok ["function:util.touch"] /\
  conflict_keys sample_user = Ok ["shop.orders"; "function:util.touch"] /\
  (object_key FunctionObject "util" "touch" ∈ ["function:util.touch"] /\
   object_key FunctionObject "util" "touch" ∈ ["shop.orders"; "function:util.touch"]).
Proof.
  split; [reflexivity|]. split; [reflexivity|].
  apply (users_share_the_objects_key sample_definer sample_user FunctionObject "util" "touch");
    [reflexivity|reflexivity| | |reflexivity|reflexivity].
  - split; [reflexivity|]. split; [reflexivity|exact I].
  - exists "util.touch()". split; [reflexivity|]. right. exists ")". reflexivity.
Defined.

(** An array column does not share its element type's key. For a column of
    type [s.n[]] the key is [type:s.n[]], brackets included (only opening brackets
    and blanks are popped from the end), while dropping the type is keyed
    [type:s.n]: the two intents share no key and are free to run together. *)
Theorem array_columns_miss_the_types_key `{Modules} sch tab s n :
  ident sch -> ident tab -> ident s -> ident n ->
  conflict_keys (add_array_column sch tab s n) =
    Ok [qualified sch tab; object_key TypeObject s n +:+ "[]"] /\
  conflict_keys (drop_type s n) = Ok [object_key TypeObject s n] /\
  object_key TypeObject s n <> object_key TypeObject s n +:+ "[]".
Proof.
  intros Hsch Htab Hs Hn. split_and!.
  - rewrite (conflict_keys_eq _ sch "" tab) by done. cbv zeta.
    assert (String.eqb tab "" = false) as -> by (apply String.eqb_neq; by apply ident_chars in Htab as [? _]).
    rewrite String.eqb_refl. unfold add_conflict at 1.
    pose proof (key_complete_qualified sch tab Htab "") as Hk. rewrite string_app_nil_l in Hk. rewrite Hk.
    cbn [conflict_edges add_array_column kind body].
    change (str _ "type") with (Ok (E := spec_error) (qualified s n +:+ "[]")). cbn [mbind result_bind].
    assert (has_char "." (qualified s n +:+ "[]") = true) as ->.
    { unfold has_char. rewrite chars_app, existsb_app. pose proof (qualified_dot s n) as Hd.
      unfold has_char in Hd. by rewrite Hd. }
    rewrite array_base by done. unfold add_conflict.
    assert (key_complete ("type:" +:+ qualified s n +:+ "[]") = true) as Hc.
    { unfold key_complete. rewrite bool_decide_eq_false_2 by (by rewrite !chars_app, !last_app). done. }
    by rewrite Hc.
  - rewrite (conflict_keys_eq _ s (object_key TypeObject s n) "") by done. cbv zeta.
    rewrite object_key_not_empty, String.eqb_refl by done. unfold add_conflict. by rewrite key_complete_object.
  - intros E. apply (f_equal String.length) in E. rewrite string_length_app in E. simpl in E. lia.
Qed.

Lemma array_columns_miss_the_types_key_witness :
  conflict_keys (add_array_column "shop" "orders" "shop" "status") = Ok ["shop.orders"; "type:shop.status[]"] /\
  conflict_keys (drop_type "shop" "status") = Ok ["type:shop.status"].
Proof.
  destruct (array_columns_miss_the_types_key "shop" "orders" "shop" "status" eq_refl eq_refl eq_refl eq_refl)
    as (H1 & H2 & _).
  split; [exact H1|exact H2].
Defined.
