(* ===== verification/Locks.v ===== *)
(** * Locks: the advisory locks that keep jobs apart

    The keys a job locks (src/cpp/src/tools.h, [start_migration]) and the way
    they are taken and given back (src/cpp/src/ledger.h, [open_job] and
    [release_locks]): one key at a time, never waiting, on a connection that
    lives as long as the job. Sessions interleave at every single lock. *)
From S2P Require Import Prelude Json Canonical CanonicalFacts Spec SpecFacts Executor.

(** ** The keys *)
Definition string_le (a b : string) : bool :=
  lex_leb (byte_val <$> String.list_ascii_of_string a) (byte_val <$> String.list_ascii_of_string b).

(** The keys of every intent, as the [std::set] holds them. *)
Definition target_set (keys : list (list string)) : list string := sort_by string_le (remove_dups (concat keys)).

Definition lock_keys `{Modules} (spec : Spec) : result spec_error (list Z) :=
  keys ← sequence (conflict_keys <$> intents spec);
  Ok (advisory_key ("laswell:spec:" +:+ id spec)
      :: ((fun t => advisory_key ("laswell:target:" +:+ t)) <$> target_set keys)).

(** ** Sessions

    A session is a number; the server's table says who holds a key. *)
Notation LockTable := (gmap Z nat).

(** [pg_try_advisory_lock]: granted when nobody else holds the key. *)
Definition try_lock (t : LockTable) (session : nat) (key : Z) : option LockTable :=
  match t !! key with
  | Some owner => if Nat.eqb owner session then Some t else None
  | None => Some (<[key := session]> t)
  end.

Inductive Phase : Type :=
  | Taking (todo : list Z)
  | Opened
  | Conflicted
  | Released.

(** A job's coordination connection: what it asked for, what [held_] lists. *)
Record Session : Type := { wanted : list Z; held : list Z; phase : Phase }.

Record Server : Type := { table : LockTable; sessions : gmap nat Session }.

Definition empty_server : Server := {| table := ∅; sessions := ∅ |}.

(** What can happen next, anywhere. *)
Inductive LockOp : Type :=
  | Begin (session : nat) (keys : list Z)
  | Try (session : nat)
  | ReleaseLocks (session : nat)
  | Disconnect (session : nat).

Definition set_session (v : Server) (n : nat) (s : Session) (t : LockTable) : Server :=
  {| table := t; sessions := <[n := s]> (sessions v) |}.

(** One turn of the loop of [open_job]; past its last key, the job row is inserted. *)
Definition try_next (v : Server) (n : nat) (s : Session) : Server :=
  match phase s with
  | Taking [] => set_session v n {| wanted := wanted s; held := held s; phase := Opened |} (table v)
  | Taking (k :: ks) =>
      match try_lock (table v) n k with
      | Some t => set_session v n {| wanted := wanted s; held := held s ++ [k]; phase := Taking ks |} t
      | None => set_session v n {| wanted := wanted s; held := held s; phase := Conflicted |} (table v)
      end
  | _ => v
  end.

(** [pg_advisory_unlock]. *)
Definition unlock (t : LockTable) (session : nat) (key : Z) : LockTable :=
  match t !! key with
  | Some owner => if Nat.eqb owner session then delete key t else t
  | None => t
  end.

Definition release_locks (v : Server) (n : nat) (s : Session) : Server :=
  set_session v n {| wanted := wanted s; held := []; phase := Released |}
    (foldl (fun t k => unlock t n k) (table v) (held s)).

(** A backend that goes away gives back everything it held. *)
Definition disconnect (v : Server) (n : nat) : Server :=
  {| table := filter (fun kv => kv.2 <> n) (table v); sessions := delete n (sessions v) |}.

Definition lock_apply (v : Server) (op : LockOp) : Server :=
  match op with
  | Begin n keys =>
      match sessions v !! n with
      | Some _ => v
      | None => set_session v n {| wanted := keys; held := []; phase := Taking keys |} (table v)
      end
  | Try n => match sessions v !! n with Some s => try_next v n s | None => v end
  | ReleaseLocks n => match sessions v !! n with Some s => release_locks v n s | None => v end
  | Disconnect n => disconnect v n
  end.

Definition lock_run (ops : list LockOp) : Server := foldl lock_apply empty_server ops.

(** ** What the protocol keeps *)

(** A session not yet released has every key it took, and what it took and what
    is left are what it wanted. *)
Record session_ok (t : LockTable) (n : nat) (s : Session) : Prop := {
  held_in_table : Forall (fun k => t !! k = Some n) (held s);
  held_so_far :
    match phase s with
    | Taking todo => held s ++ todo = wanted s
    | Opened => held s = wanted s
    | Conflicted => True
    | Released => held s = []
    end;
}.

Definition server_ok (v : Server) : Prop :=
  map_Forall (fun n s => session_ok (table v) n s) (sessions v).

(** A change of the table that keeps what the others hold keeps them right. *)
Lemma server_ok_set v n s t :
  server_ok v -> (forall k m, m <> n -> table v !! k = Some m -> t !! k = Some m) -> session_ok t n s ->
  server_ok (set_session v n s t).
Proof.
  intros Hv Ht Hs m s'. simpl. rewrite lookup_insert_Some. intros [[<- <-]|[Hne Hm]]; [done|].
  destruct (Hv m s' Hm) as [Hh Hp]. constructor; [|done].
  eapply Forall_impl; [exact Hh|]. intros k. by apply Ht.
Qed.

Lemma try_lock_Some t n k t' :
  try_lock t n k = Some t' -> t' !! k = Some n /\ (forall k' m, t !! k' = Some m -> t' !! k' = Some m).
Proof.
  unfold try_lock. destruct (t !! k) as [o|] eqn:E.
  - case_if; [|done]. apply Nat.eqb_eq in Heqb. by intros [= <-]; subst.
  - intros [= <-]. split; [by rewrite lookup_insert_eq|]. intros k' m Hk.
    rewrite lookup_insert_ne; [done|]. congruence.
Qed.

Lemma unlock_others t n k k' m : m <> n -> t !! k' = Some m -> unlock t n k !! k' = Some m.
Proof.
  intros Hne Hk. unfold unlock. destruct (t !! k) as [o|] eqn:E; [|done]. case_if; [|done].
  apply Nat.eqb_eq in Heqb. rewrite lookup_delete_ne; [done|]. congruence.
Qed.

Lemma unlock_all_others t n ks k' m :
  m <> n -> t !! k' = Some m -> foldl (fun t k => unlock t n k) t ks !! k' = Some m.
Proof. intros Hne. revert t. induction ks as [|k ks IH]; intros t Hk; [done|]. simpl. by apply IH, unlock_others. Qed.

Lemma try_next_ok v n s : server_ok v -> sessions v !! n = Some s -> server_ok (try_next v n s).
Proof.
  intros Hv Hs. destruct (Hv n s Hs) as [Hh Hp]. unfold try_next.
  destruct (phase s) as [[|k ks]| | |]; try done.
  - apply server_ok_set; [done|done|]. constructor; [done|]. simpl. by rewrite app_nil_r in Hp.
  - destruct (try_lock _ n k) as [t|] eqn:E; [|by apply server_ok_set].
    apply try_lock_Some in E as [Hk Ht]. apply server_ok_set; [done|by intros; apply Ht|].
    constructor; simpl; [|by rewrite <- app_assoc].
    apply Forall_app. split; [|by apply Forall_singleton]. eapply Forall_impl; [exact Hh|]. intros ?. apply Ht.
Qed.

Lemma lock_apply_ok v op : server_ok v -> server_ok (lock_apply v op).
Proof.
  intros Hv. destruct op as [n keys|n|n|n]; simpl.
  - destruct (sessions v !! n); [done|]. apply server_ok_set; [done|done|]. by constructor.
  - destruct (sessions v !! n) eqn:E; [|done]. by apply try_next_ok.
  - destruct (sessions v !! n) eqn:E; [|done]. apply server_ok_set; [done| |by constructor].
    intros k m Hne. by apply unlock_all_others.
  - intros m s. simpl. rewrite lookup_delete_Some. intros [Hne Hm]. destruct (Hv m s Hm) as [Hh Hp].
    constructor; [|done]. eapply Forall_impl; [exact Hh|]. simpl. intros k Hk.
    apply map_lookup_filter_Some_2; simpl; congruence.
Qed.

Lemma lock_run_ok ops : server_ok (lock_run ops).
Proof.
  unfold lock_run. assert (server_ok empty_server) as H by apply map_Forall_empty. revert H.
  generalize empty_server. induction ops as [|op ops IH]; intros v Hv; [done|]. simpl. by apply IH, lock_apply_ok.
Qed.

Lemma opened_disjoint ops a b sa sb :
  a <> b -> sessions (lock_run ops) !! a = Some sa -> sessions (lock_run ops) !! b = Some sb ->
  phase sa = Opened -> phase sb = Opened -> forall k, k ∈ wanted sa -> k ∉ wanted sb.
Proof.
  intros Hne Ha Hb Hpa Hpb k Hka Hkb.
  destruct (lock_run_ok ops a sa Ha) as [Hha Hwa], (lock_run_ok ops b sb Hb) as [Hhb Hwb].
  rewrite Hpa in Hwa. rewrite Hpb in Hwb. rewrite Forall_forall in Hha, Hhb.
  rewrite <- Hwa in Hka. rewrite <- Hwb in Hkb. apply Hha in Hka. apply Hhb in Hkb. congruence.
Qed.

Lemma elem_of_target_set t keys : t ∈ target_set keys <-> exists ks, ks ∈ keys /\ t ∈ ks.
Proof.
  unfold target_set. rewrite sort_by_Permutation, elem_of_remove_dups, list_elem_of_In, in_concat.
  setoid_rewrite list_elem_of_In. naive_solver.
Qed.

Lemma lock_keys_cover `{Modules} spec ks i keys t :
  lock_keys spec = Ok ks -> i ∈ intents spec -> conflict_keys i = Ok keys -> t ∈ keys ->
  advisory_key ("laswell:target:" +:+ t) ∈ ks.
Proof.
  unfold lock_keys. intros Hl Hi Hk Ht. ok_inv. apply sequence_Ok in H0.
  right. apply list_elem_of_fmap. exists t. split; [done|]. apply elem_of_target_set. exists keys. split; [|done].
  assert (conflict_keys i ∈ (conflict_keys <$> intents spec)) as Hin by (by apply list_elem_of_fmap_2).
  rewrite H0, Hk in Hin. apply list_elem_of_fmap in Hin as (keys' & [= ->] & Hin). done.
Qed.

Lemma lock_keys_conflict_keys `{Modules} spec ks i :
  lock_keys spec = Ok ks -> i ∈ intents spec -> exists keys, conflict_keys i = Ok keys.
Proof.
  unfold lock_keys. intros Hl Hi. ok_inv. apply sequence_Ok in H0.
  assert (conflict_keys i ∈ (conflict_keys <$> intents spec)) as Hin by (by apply list_elem_of_fmap_2).
  rewrite H0 in Hin. apply list_elem_of_fmap in Hin as (keys & Hk & _). eauto.
Qed.

(** A run of the loop with nobody in the way. *)
Lemma try_all v n s todo :
  sessions v !! n = Some s -> phase s = Taking todo ->
  Forall (fun k => table v !! k = None \/ table v !! k = Some n) todo ->
  exists s', sessions (foldl lock_apply v (replicate (S (length todo)) (Try n))) !! n = Some s' /\
    phase s' = Opened /\ wanted s' = wanted s.
Proof.
  revert v s. induction todo as [|k todo IH]; intros v s Hs Hp Hfree; cbn [replicate length foldl lock_apply].
  - rewrite Hs. unfold try_next. rewrite Hp. simpl. rewrite lookup_insert_eq. by eexists.
  - inversion Hfree as [|? ? Hk Hks]; subst. rewrite Hs. unfold try_next. rewrite Hp.
    destruct (try_lock (table v) n k) as [t|] eqn:E.
    + edestruct (IH (set_session v n {| wanted := wanted s; held := held s ++ [k]; phase := Taking todo |} t))
        as (s' & Hs' & Hp' & Hw'); [by apply lookup_insert_eq|done| |by eauto].
      simpl. eapply Forall_impl; [exact Hks|]. simpl. unfold try_lock in E.
      intros k' Hk'. destruct Hk as [Hk|Hk]; rewrite Hk in E; [|rewrite Nat.eqb_refl in E]; injection E as <-; [|done].
      destruct (decide (k = k')) as [->|]; [right; apply lookup_insert_eq|by rewrite lookup_insert_ne].
    + exfalso. unfold try_lock in E. destruct Hk as [Hk|Hk]; rewrite Hk in E; [done|]. by rewrite Nat.eqb_refl in E.
Qed.

(** ** Claims *)

(** C10: two jobs open at once have nothing in common. However the sessions'
    single lock requests, releases and disconnections interleave, if two sessions
    both have their job open then their specifications have different ids, no
    intent of one shares a conflict key with an intent of the other, and neither
    has a column of a type, or a trigger calling a function, that the other creates,
    changes or drops, where the type is written with its schema and as itself. It is
    not so of a column of an array of the type: its key is another one
    ([array_columns_miss_the_types_key]), and the two jobs may be open together. *)
Theorem open_jobs_have_nothing_in_common `{Modules} ops a b sa sb A B :
  a <> b -> sessions (lock_run ops) !! a = Some sa -> sessions (lock_run ops) !! b = Some sb ->
  phase sa = Opened -> phase sb = Opened ->
  lock_keys A = Ok (wanted sa) -> lock_keys B = Ok (wanted sb) ->
  id A <> id B /\
  forall i j, i ∈ intents A -> j ∈ intents B ->
    (exists ki kj, conflict_keys i = Ok ki /\ conflict_keys j = Ok kj /\ forall t, t ∈ ki -> t ∉ kj) /\
    (forall c s n, ident s -> ident n -> defines i c s n -> ~ uses_itself j c s n).
Proof.
  intros Hne Ha Hb Hpa Hpb HA HB. pose proof (opened_disjoint ops a b sa sb Hne Ha Hb Hpa Hpb) as Hdis.
  split.
  { intros E. apply bind_Ok in HA as (ka & _ & [= HA]), HB as (kb & _ & [= HB]).
    apply (Hdis (advisory_key ("laswell:spec:" +:+ id A))); [rewrite <- HA; left|rewrite <- HB, E; left]. }
  intros i j Hi Hj.
  destruct (lock_keys_conflict_keys _ _ i HA Hi) as [ki Hki], (lock_keys_conflict_keys _ _ j HB Hj) as [kj Hkj].
  assert (forall t, t ∈ ki -> t ∉ kj) as Hd.
  { intros t Hti Htj. by eapply Hdis; [eapply (lock_keys_cover A)|eapply (lock_keys_cover B)]. }
  split; [by exists ki, kj|]. intros c s n Hs Hn Hdef Huse.
  by eapply Hd; [eapply defines_key|eapply uses_key].
Qed.

(** Two specifications that can run together, and their jobs. *)
Definition spec_of (name : string) (i : Intent) : Spec :=
  {| document := JNull; signed_projection := JNull; canonical_bytes := ""; digest := ""; id := name;
     description := ""; rationale := ""; target_connection := ""; target_database := "";
     target_environment := ""; target_epoch := ""; release := ""; min_server_version := 0;
     depends_on := []; intents := [i]; signatures := JArr [] |}.

Definition keys_of (s : Spec) : list Z := match lock_keys s with Ok ks => ks | Err _ => [] end.

Definition two_jobs : list LockOp :=
  [Begin 1 (keys_of (spec_of "a" (drop_type "shop" "status")));
   Begin 2 (keys_of (spec_of "b" sample_user)); Try 1; Try 2; Try 2; Try 1; Try 1; Try 2; Try 2].

Lemma open_jobs_have_nothing_in_common_witness :
  (phase <$> sessions (lock_run two_jobs) !! 1%nat) = Some Opened /\
  (phase <$> sessions (lock_run two_jobs) !! 2%nat) = Some Opened /\
  id (spec_of "a" (drop_type "shop" "status")) <> id (spec_of "b" sample_user).
Proof.
  split; [vm_compute; reflexivity|]. split; [vm_compute; reflexivity|].
  destruct (sessions (lock_run two_jobs) !! 1%nat) as [sa|] eqn:Ea; [|vm_compute in Ea; discriminate Ea].
  destruct (sessions (lock_run two_jobs) !! 2%nat) as [sb|] eqn:Eb; [|vm_compute in Eb; discriminate Eb].
  apply (open_jobs_have_nothing_in_common two_jobs 1 2 sa sb
    (spec_of "a" (drop_type "shop" "status")) (spec_of "b" sample_user) ltac:(discriminate) Ea Eb);
    vm_compute in Ea, Eb; injection Ea as <-; injection Eb as <-; vm_compute; reflexivity.
Defined.

(** A job nobody contends with opens. From any state the protocol can reach,
    a new session whose keys nobody else holds has its job open after one attempt
    per key and the insertion of its row. *)
Theorem uncontended_job_opens ops n keys :
  sessions (lock_run ops) !! n = None ->
  Forall (fun k => table (lock_run ops) !! k = None) keys ->
  exists s, sessions (lock_run (ops ++ Begin n keys :: replicate (S (length keys)) (Try n))) !! n = Some s /\
    phase s = Opened /\ wanted s = keys.
Proof.
  intros Hn Hk. unfold lock_run. rewrite foldl_app. cbn [foldl lock_apply]. fold (lock_run ops). rewrite Hn.
  edestruct (try_all (set_session (lock_run ops) n {| wanted := keys; held := []; phase := Taking keys |}
    (table (lock_run ops))) n) as (s & Hs & Hp & Hw); [by apply lookup_insert_eq|done| |by exists s].
  simpl. eapply Forall_impl; [exact Hk|]. auto.
Qed.

Lemma uncontended_job_opens_witness :
  exists s, sessions (lock_run (two_jobs ++ Begin 3 [5; 6] :: replicate 3 (Try 3))) !! 3%nat = Some s /\
    phase s = Opened /\ wanted s = [5; 6].
Proof.
  apply (uncontended_job_opens two_jobs 3 [5; 6]); [vm_compute; reflexivity|].
  repeat constructor; vm_compute; reflexivity.
Defined.
