(* ===== verification/Trust.v ===== *)
(** * Trust: the two signature gates (src/cpp/src/trust.h, ledger.h)

    The machine's policy and the database's trusted keys, each checked against
    the canonical bytes; the ledger row that records who signed. OpenSSL's
    digest and Ed25519 are parameters. *)
From S2P Require Import Prelude Json Canonical CanonicalFacts Utf Config ConfigFacts Spec.

(** What the code calls in OpenSSL: SHA-256; whether a key and a context for it
    can be made; what [EVP_DigestVerify] returns. *)
Class OpenSSL : Type := {
  sha256 : string -> string;
  evp_ready : string -> bool;
  evp_digest_verify : string -> string -> string -> Z;
}.

(** The exceptions that leave the gates. *)
Inductive trust_error : Type :=
  | KeyBytes (n : nat)
  | JsonType.

Definition trust_lift {A} (r : result json_error A) : result trust_error A :=
  match r with Ok a => Ok a | Err _ => Err JsonType end.

Definition key_id_for `{OpenSSL} (public_key : string) : result trust_error string :=
  if negb (Nat.eqb (String.length public_key) 32) then Err (KeyBytes (String.length public_key))
  else Ok ("ed25519:" +:+ String.substring 0 16 (to_hex (sha256 public_key))).

Definition verify_ed25519 `{OpenSSL} (public_key message signature : string) : bool :=
  if negb (Nat.eqb (String.length public_key) 32) then false
  else if negb (Nat.eqb (String.length signature) 64) then false
  else if negb (evp_ready public_key) then false
  else evp_digest_verify public_key message signature =? 1.

(** Why a check did not verify. *)
Inductive Reason : Type :=
  | NoReason
  | NotConfigured
  | NoSignatures
  | NoKeyId
  | Algorithm (name : string)
  | NotItsOwnKey (id : string)
  | NoValue (id : string)
  | NotBase64 (id : string)
  | DoesNotVerify (id : string)
  | Revoked (id : string)
  | NotAccepted (tried accepted : list string).

Record SignatureCheck : Type := {
  verified : bool;
  not_configured : bool;
  check_key_id : string;
  check_label : string;
  reason : Reason;
}.

Definition refused (r : Reason) : SignatureCheck :=
  {| verified := false; not_configured := false; check_key_id := ""; check_label := ""; reason := r |}.

Definition verified_by (id label : string) : SignatureCheck :=
  {| verified := true; not_configured := false; check_key_id := id; check_label := label; reason := NoReason |}.

(** An entry's [key_id]: an object that has one, as a string. *)
Definition entry_key_id (sig : json) : option string :=
  if is_object sig then match at_key sig "key_id" with JStr s => Some s | _ => None end else None.

(** ** Gate 1: the machine *)

(** What the loop does with an entry whose key is accepted and defined. *)
Definition check_entry `{OpenSSL} (bytes id : string) (key : TrustedKey) (sig : json) :
  result trust_error SignatureCheck :=
  own ← key_id_for (public_key key);
  if negb (String.eqb own id) then Ok (refused (NotItsOwnKey id))
  else
    match at_key sig "signature" with
    | JStr value =>
        match base64_decode value with
        | Err _ => Ok (refused (NotBase64 id))
        | Ok raw =>
            if negb (verify_ed25519 (public_key key) bytes raw) then Ok (refused (DoesNotVerify id))
            else Ok (verified_by id (label key))
        end
    | _ => Ok (refused (NoValue id))
    end.

Fixpoint policy_loop `{OpenSSL} (policy : TrustPolicy) (bytes : string) (tried : list string) (sigs : list json) :
  result trust_error SignatureCheck :=
  match sigs with
  | [] => Ok (refused (NotAccepted tried (accept policy)))
  | sig :: sigs' =>
      match entry_key_id sig with
      | None => Ok (refused NoKeyId)
      | Some id =>
          algorithm ← trust_lift (value_str sig "algorithm" "ed25519");
          if negb (String.eqb algorithm "ed25519") then Ok (refused (Algorithm algorithm))
          else if negb (accepts policy id) then policy_loop policy bytes (tried ++ [id]) sigs'
          else
            match keys policy !! id with
            | None => policy_loop policy bytes (tried ++ [id]) sigs'
            | Some key => check_entry bytes id key sig
            end
      end
  end.

Definition verify_against_policy `{OpenSSL} (policy : TrustPolicy) (bytes : string) (signatures : json) :
  result trust_error SignatureCheck :=
  if negb (configured policy) then
    Ok {| verified := false; not_configured := true; check_key_id := ""; check_label := "";
          reason := NotConfigured |}
  else
    match signatures with
    | JArr (x :: l) => policy_loop policy bytes [] (x :: l)
    | _ => Ok (refused NoSignatures)
    end.

(** ** Gate 2: the database *)

(** A row of laswell.trusted_key. *)
Record TrustedRow : Type := { row_key : string; row_label : string; row_revoked : bool }.

Definition row_entry `{OpenSSL} (bytes id : string) (row : TrustedRow) (sig : json) : SignatureCheck :=
  if row_revoked row then refused (Revoked id)
  else
    match value_str sig "signature" "" with
    | Err _ => refused (NotBase64 id)
    | Ok value =>
        match base64_decode value with
        | Err _ => refused (NotBase64 id)
        | Ok raw =>
            if negb (verify_ed25519 (row_key row) bytes raw) then refused (DoesNotVerify id)
            else verified_by id (row_label row)
        end
    end.

(** The ids not revoked, in the order of the query. *)
Definition trusted_ids (trusted : gmap string TrustedRow) : list string :=
  sort_by (fun a b => lex_leb (byte_val <$> String.list_ascii_of_string a) (byte_val <$> String.list_ascii_of_string b))
    ((map_to_list (filter (fun kv : string * TrustedRow => row_revoked kv.2 = false) trusted)).*1).

Fixpoint signer_loop `{OpenSSL} (trusted : gmap string TrustedRow) (bytes : string) (offered : list string)
    (sigs : list json) : SignatureCheck :=
  match sigs with
  | [] => refused (NotAccepted offered (trusted_ids trusted))
  | sig :: sigs' =>
      match entry_key_id sig with
      | None => signer_loop trusted bytes offered sigs'
      | Some id =>
          match trusted !! id with
          | None => signer_loop trusted bytes (offered ++ [id]) sigs'
          | Some row => row_entry bytes id row sig
          end
      end
  end.

Definition verify_signer `{OpenSSL} (trusted : gmap string TrustedRow) (spec : Spec) : SignatureCheck :=
  match signatures spec with
  | JArr (x :: l) => signer_loop trusted (canonical_bytes spec) [] (x :: l)
  | _ => refused NoSignatures
  end.

(** ** Both gates ([trust_gates], tools.h) *)
Inductive GateAnswer : Type :=
  | BothPass
  | MachineRefuses (r : Reason)
  | DatabaseRefuses (r : Reason).

Definition trust_gates `{OpenSSL} (policy : TrustPolicy) (trusted : gmap string TrustedRow) (spec : Spec) :
  result trust_error GateAnswer :=
  gate1 ← verify_against_policy policy (canonical_bytes spec) (signatures spec);
  if negb (verified gate1) && negb (not_configured gate1) then Ok (MachineRefuses (reason gate1))
  else
    let gate2 := verify_signer trusted spec in
    if negb (verified gate2) then Ok (DatabaseRefuses (reason gate2)) else Ok BothPass.

(** ** The ledger's record *)

(** A row of laswell.migration; the signature is the text handed to [decode]. *)
Record MigrationRow : Type := {
  m_spec_id : string;
  m_canonical_bytes : string;
  m_signer : string;
  m_signature : string;
}.

Inductive record_error : Type :=
  | ForeignKey (signer : string)
  | FirstSignature.

(** [spec.signatures[0].value("signature", "")]. *)
Definition first_signature (signatures : json) : result record_error string :=
  match signatures with
  | JArr (sig :: _) =>
      match value_str sig "signature" "" with Ok v => Ok v | Err _ => Err FirstSignature end
  | _ => Err FirstSignature
  end.

(** The table is keyed by epoch and digest; a conflict updates the id alone. The
    signer's foreign key is checked where the signer is written, on insertion. *)
Definition record_migration (trusted : gmap string TrustedRow) (rows : gmap (string * string) MigrationRow)
    (spec : Spec) (signer : string) : result record_error (gmap (string * string) MigrationRow) :=
  value ← first_signature (signatures spec);
  let at_ := (if String.eqb (target_epoch spec) "" then "default" else target_epoch spec, digest spec) in
  match rows !! at_ with
  | Some row =>
      Ok (<[at_ := {| m_spec_id := id spec; m_canonical_bytes := m_canonical_bytes row;
                      m_signer := m_signer row; m_signature := m_signature row |}]> rows)
  | None =>
      match trusted !! signer with
      | None => Err (ForeignKey signer)
      | Some _ =>
          Ok (<[at_ := {| m_spec_id := id spec; m_canonical_bytes := canonical_bytes spec;
                          m_signer := signer; m_signature := value |}]> rows)
      end
  end.
