(* ===== verification/TrustFacts.v ===== *)
(** * TrustFacts: what passing the gates proves

    A verified check names an entry of the document, a key that is accepted (or
    trusted and not revoked) and filed under the address of its own bytes, and a
    signature OpenSSL verified over exactly the canonical bytes. *)
From S2P Require Import Prelude Json Canonical Utf CanonicalFacts Config ConfigFacts Spec SpecFacts Trust.

Section gates.
Context `{OpenSSL}.

Lemma verify_ed25519_true k m s :
  verify_ed25519 k m s = true <->
  String.length k = 32%nat /\ String.length s = 64%nat /\ evp_ready k = true /\ evp_digest_verify k m s = 1.
Proof using Type.
  unfold verify_ed25519. repeat case_if; bool_prop; rewrite ?Nat.eqb_eq, ?Nat.eqb_neq in *; rewrite ?Z.eqb_eq;
    naive_solver.
Qed.

(** The entry carries a signature of [bytes] by the key [k]. *)
Definition signs (k bytes : string) (sig : json) : Prop :=
  exists value raw, at_key sig "signature" = JStr value /\ base64_decode value = Ok raw /\
    String.length k = 32%nat /\ String.length raw = 64%nat /\ evp_ready k = true /\
    evp_digest_verify k bytes raw = 1.

(** ** Gate 1 *)
Definition ed25519_entry (sig : json) (id : string) : Prop :=
  entry_key_id sig = Some id /\ value_str sig "algorithm" "ed25519" = Ok "ed25519".

(** Entries the loop passes over. *)
Definition passed_over (policy : TrustPolicy) (sig : json) : Prop :=
  exists id, ed25519_entry sig id /\ (accepts policy id = false \/ keys policy !! id = None).

(** The entry that decides, and what it has: the specification of the loop. *)
Inductive verifies (policy : TrustPolicy) (bytes : string) : list json -> string -> Prop :=
  | verifies_here sig sigs id k :
      ed25519_entry sig id -> accepts policy id = true -> keys policy !! id = Some k ->
      key_id_for (public_key k) = Ok id -> signs (public_key k) bytes sig ->
      verifies policy bytes (sig :: sigs) id
  | verifies_later sig sigs id :
      passed_over policy sig -> verifies policy bytes sigs id -> verifies policy bytes (sig :: sigs) id.

Definition check_says (c : SignatureCheck) (P : string -> Prop) : Prop :=
  forall id, verified c = true /\ check_key_id c = id <-> P id.

Lemma refused_says r (P : string -> Prop) : (forall id, ~ P id) -> check_says (refused r) P.
Proof using Type. intros HP id. split; [by intros []|]. intros []%HP. Qed.

Lemma check_entry_says bytes id k sig c :
  check_entry bytes id k sig = Ok c ->
  check_says c (fun id' => id' = id /\ key_id_for (public_key k) = Ok id /\ signs (public_key k) bytes sig).
Proof using Type.
  unfold check_entry, signs. intros Hc. destruct (key_id_for (public_key k)) as [own|]; [|discriminate].
  cbn [mbind result_bind] in Hc. destruct (String.eqb own id) eqn:Eo; cbn [negb] in Hc;
    [apply String.eqb_eq in Eo as <-|apply String.eqb_neq in Eo].
  2:{ injection Hc as <-. apply refused_says. intros ? (_ & [= ?] & _). done. }
  destruct (at_key sig "signature") as [| | | | |value| | | |];
    try (injection Hc as <-; apply refused_says; by intros ? (_ & _ & v & r & [=] & _)).
  destruct (base64_decode value) as [raw|] eqn:Eb.
  2:{ injection Hc as <-. apply refused_says. intros ? (_ & _ & v & r & [= <-] & Hr & _). by rewrite Eb in Hr. }
  pose proof (verify_ed25519_true (public_key k) bytes raw) as Hv.
  destruct (verify_ed25519 _ _ _); cbn [negb] in Hc; injection Hc as <-.
  - intros id'. simpl. split; [|naive_solver]. intros [_ <-]. split; [done|]. split; [done|].
    exists value, raw. naive_solver.
  - apply refused_says. intros ? (_ & _ & v & r & [= <-] & Hr & Hk). rewrite Eb in Hr.
    injection Hr as <-. by apply Hv in Hk.
Qed.

Lemma entry_unique sig id id' : ed25519_entry sig id -> ed25519_entry sig id' -> id = id'.
Proof using Type. intros [E1 _] [E2 _]. congruence. Qed.

(** Nothing can come of an entry that is not an ed25519 one. *)
Lemma verifies_bad policy bytes sig sigs id :
  (forall i, ~ ed25519_entry sig i) -> ~ verifies policy bytes (sig :: sigs) id.
Proof using Type. intros Hno Hv. inversion Hv as [? ? ? ? He|? ? ? (i & He & _)]; subst; by eapply Hno. Qed.

Lemma verifies_skip policy bytes sig sigs id i :
  ed25519_entry sig i -> accepts policy i = false \/ keys policy !! i = None ->
  verifies policy bytes (sig :: sigs) id <-> verifies policy bytes sigs id.
Proof using Type.
  intros He Hno. split; [|intros; apply verifies_later; [by exists i|done]].
  intros Hv. inversion Hv as [? ? ? k He' Ha Hk|]; subst; [|done].
  rewrite (entry_unique _ _ _ He He') in Hno. destruct Hno; congruence.
Qed.

Lemma verifies_entry policy bytes sig sigs id i k :
  ed25519_entry sig i -> accepts policy i = true -> keys policy !! i = Some k ->
  verifies policy bytes (sig :: sigs) id <->
  id = i /\ key_id_for (public_key k) = Ok i /\ signs (public_key k) bytes sig.
Proof using Type.
  intros He Ha Hk. split.
  - intros Hv. inversion Hv as [? ? ? k' He' Ha' Hk'|? ? ? (i' & He' & Hno)]; subst;
      rewrite <- (entry_unique _ _ _ He He') in *.
    + rewrite Hk in Hk'. by injection Hk' as ->.
    + destruct Hno; congruence.
  - intros (-> & Ho & Hs). by eapply verifies_here.
Qed.

Lemma policy_loop_says policy bytes tried sigs c :
  policy_loop policy bytes tried sigs = Ok c -> check_says c (verifies policy bytes sigs).
Proof using Type.
  revert tried. induction sigs as [|sig sigs IH]; intros tried Hc; simpl in Hc.
  { injection Hc as <-. apply refused_says. by inversion 1. }
  destruct (entry_key_id sig) as [id|] eqn:Eid.
  2:{ injection Hc as <-. apply refused_says. intros id. apply verifies_bad. intros i [E _]. congruence. }
  destruct (value_str sig "algorithm" "ed25519") as [alg|] eqn:Ea; [|discriminate].
  cbn [trust_lift mbind result_bind] in Hc.
  destruct (String.eqb_spec alg "ed25519") as [->|Hne]; cbn [negb] in Hc.
  2:{ injection Hc as <-. apply refused_says. intros i. apply verifies_bad. intros ? [_ E]. congruence. }
  assert (ed25519_entry sig id) as Hsig by done.
  destruct (accepts policy id) eqn:Eacc; cbn [negb] in Hc;
    [destruct (keys policy !! id) as [k|] eqn:Ek|].
  - intros i. rewrite (check_entry_says _ _ _ _ _ Hc i). symmetry. by apply verifies_entry.
  - intros i. rewrite (verifies_skip _ _ _ _ _ id) by auto. by apply (IH _ Hc).
  - intros i. rewrite (verifies_skip _ _ _ _ _ id) by auto. by apply (IH _ Hc).
Qed.

Lemma verifies_runs policy bytes tried sigs id :
  verifies policy bytes sigs id -> exists c, policy_loop policy bytes tried sigs = Ok c.
Proof using Type.
  intros Hv. revert tried. induction Hv as [sig sigs id k [Ei Ea] Hacc Hk Ho Hs|sig sigs id (i & [Ei Ea] & Hno) Hv IH];
    intros tried; simpl; rewrite Ei, Ea; simpl.
  - rewrite Hacc, Hk. simpl. unfold check_entry. rewrite Ho. cbn [mbind result_bind].
    repeat case_match; eauto.
  - destruct (accepts policy i); simpl; [|apply IH]. destruct Hno as [?| ->]; [done|]. apply IH.
Qed.

Lemma policy_says policy bytes sigs id :
  (exists c, verify_against_policy policy bytes sigs = Ok c /\ verified c = true /\ check_key_id c = id) <->
  configured policy = true /\ exists l, sigs = JArr l /\ verifies policy bytes l id.
Proof using Type.
  unfold verify_against_policy. destruct (configured policy); cbn [negb].
  2:{ split; [intros (c & [= <-] & [=] & _)|intros [? _]; done]. }
  split.
  - intros (c & Hc & Hv). split; [done|].
    destruct sigs as [| | | | | |[|x l]| | |]; try (injection Hc as <-; by destruct Hv).
    exists (x :: l). split; [done|]. by apply (policy_loop_says _ _ _ _ _ Hc).
  - intros (_ & l & -> & Hv). destruct l as [|x l]; [inversion Hv|].
    destruct (verifies_runs policy bytes [] _ _ Hv) as [c Hc]. exists c. split; [done|].
    by apply (policy_loop_says _ _ _ _ _ Hc).
Qed.

Lemma policy_loop_configured policy bytes tried sigs c :
  policy_loop policy bytes tried sigs = Ok c -> not_configured c = false.
Proof using Type.
  revert tried. induction sigs as [|sig sigs IH]; intros tried Hc; simpl in Hc; [by injection Hc as <-|].
  destruct (entry_key_id sig); [|by injection Hc as <-]. ok_inv. case_if_in H1; [by injection H1 as <-|].
  case_if_in H1; [by eapply IH|]. destruct (keys policy !! _); [|by eapply IH].
  unfold check_entry in H1. ok_inv. repeat (case_match; [by simplify_eq|]); by repeat case_match; simplify_eq.
Qed.

(** ** Gate 2 *)
Inductive trusted_signer (trusted : gmap string TrustedRow) (bytes : string) : list json -> string -> Prop :=
  | trusted_here sig sigs id row :
      entry_key_id sig = Some id -> trusted !! id = Some row -> row_revoked row = false ->
      signs (row_key row) bytes sig -> trusted_signer trusted bytes (sig :: sigs) id
  | trusted_later sig sigs id :
      (forall i, entry_key_id sig = Some i -> trusted !! i = None) ->
      trusted_signer trusted bytes sigs id -> trusted_signer trusted bytes (sig :: sigs) id.

Lemma row_entry_says bytes id row sig :
  entry_key_id sig = Some id ->
  check_says (row_entry bytes id row sig) (fun i => i = id /\ row_revoked row = false /\ signs (row_key row) bytes sig).
Proof using Type.
  intros He. unfold row_entry, signs. destruct (row_revoked row); [by apply refused_says; intros ? (_ & [=] & _)|].
  destruct sig as [| | | | | | |l| |]; try discriminate He. cbn [value_str at_key].
  assert (forall k, ~ (exists value raw, "" = value /\ base64_decode value = Ok raw /\ String.length k = 32%nat /\
    String.length raw = 64%nat /\ evp_ready k = true /\ evp_digest_verify k bytes raw = 1)) as Hempty.
  { intros k (v & r & <- & [= <-] & _ & [=] & _). }
  destruct (obj_find "signature" l) as [v|] eqn:Ef; cbn [default].
  - destruct v as [| | | | |value| | | |]; try (apply refused_says; by intros ? (_ & _ & v & r & [=] & _)).
    destruct (base64_decode value) as [raw|] eqn:Eb.
    2:{ apply refused_says. intros ? (_ & _ & v & r & [= <-] & Hr & _). by rewrite Eb in Hr. }
    pose proof (verify_ed25519_true (row_key row) bytes raw) as Hv.
    destruct (verify_ed25519 _ _ _); cbn [negb].
    + intros i. simpl. split; [|naive_solver]. intros [_ <-]. split; [done|]. split; [done|].
      exists value, raw. naive_solver.
    + apply refused_says. intros ? (_ & _ & v & r & [= <-] & Hr & Hk). rewrite Eb in Hr.
      injection Hr as <-. by apply Hv in Hk.
  - assert (base64_decode "" = Ok "") as -> by done.
    pose proof (verify_ed25519_true (row_key row) bytes "") as Hv.
    destruct (verify_ed25519 _ _ _); cbn [negb].
    + destruct (proj1 Hv eq_refl) as (_ & [=] & _).
    + apply refused_says. by intros ? (_ & _ & v & r & [=] & _).
Qed.

Lemma signer_loop_says trusted bytes offered sigs :
  check_says (signer_loop trusted bytes offered sigs) (trusted_signer trusted bytes sigs).
Proof using Type.
  revert offered. induction sigs as [|sig sigs IH]; intros offered; simpl.
  { apply refused_says. by inversion 1. }
  assert ((forall i, entry_key_id sig = Some i -> trusted !! i = None) ->
    forall id, trusted_signer trusted bytes sigs id <-> trusted_signer trusted bytes (sig :: sigs) id) as Hskip.
  { intros Hno id. split; [by apply trusted_later|]. inversion 1 as [? ? ? row He Hr|]; subst; [|done].
    rewrite (Hno _ He) in Hr. discriminate. }
  destruct (entry_key_id sig) as [id|] eqn:Eid.
  2:{ intros i. rewrite <- Hskip by done. apply IH. }
  destruct (trusted !! id) as [row|] eqn:Er.
  2:{ intros i. rewrite <- Hskip by naive_solver. apply IH. }
  intros i. rewrite (row_entry_says bytes id row sig Eid i). split.
  - intros (-> & Hrev & Hs). by eapply trusted_here.
  - inversion 1 as [? ? ? row' He Hr|? ? ? Hno]; subst.
    + rewrite Eid in He. injection He as <-. rewrite Er in Hr. by injection Hr as <-.
    + rewrite (Hno _ Eid) in Er. discriminate.
Qed.

Lemma signer_says trusted spec :
  check_says (verify_signer trusted spec) (fun id => exists l, signatures spec = JArr l /\
    trusted_signer trusted (canonical_bytes spec) l id).
Proof using Type.
  unfold verify_signer. destruct (signatures spec) as [| | | | | |[|x l]| | |];
    try (apply refused_says; by intros ? (? & [=] & _)).
  - apply refused_says. intros ? (l & [= <-] & Ht). inversion Ht.
  - intros id. rewrite (signer_loop_says _ _ _ _ id). split; [by exists (x :: l)|]. by intros (l' & [= <-] & Ht).
Qed.
End gates.

(** ** Claims *)

(** A signature scheme to try things on: the signature is the padded message. *)
Definition zeros (n : nat) : string := String.string_of_list_ascii (replicate n (byte_of 0)).

#[export] Instance toy_openssl : OpenSSL :=
  {| sha256 := fun s => s; evp_ready := fun _ => true;
     evp_digest_verify := fun k m s => if String.eqb s (String.substring 0 64 (k +:+ m +:+ zeros 64)) then 1 else 0 |}.

Definition toy_key : string := zeros 32.
Definition toy_id : string := "ed25519:0000000000000000".
Definition toy_signature : string := base64_encode (String.substring 0 64 (toy_key +:+ "bytes" +:+ zeros 64)).
Definition toy_policy : TrustPolicy :=
  {| accept := [toy_id]; keys := {[ toy_id := {| key_id := toy_id; label := "ops"; public_key := toy_key |} ]} |}.
Definition toy_entry (id value : string) : json := JObj [("key_id", JStr id); ("signature", JStr value)].
Definition toy_trusted : gmap string TrustedRow :=
  {[ toy_id := {| row_key := toy_key; row_label := "ops"; row_revoked := false |} ]}.
Definition toy_spec (l : list json) : Spec :=
  {| document := JNull; signed_projection := JNull; canonical_bytes := "bytes"; digest := "d"; id := "s";
     description := ""; rationale := ""; target_connection := ""; target_database := "";
     target_environment := ""; target_epoch := ""; release := ""; min_server_version := 0;
     depends_on := []; intents := []; signatures := JArr l |}.

(** the machine's gate verifies exactly the documents its policy covers. A
    check is verified, by the key [id], if and only if a policy is configured and
    the signatures hold, after entries for keys that are not accepted or not
    defined, an ed25519 entry for an accepted key, defined and filed under the
    address of its own 32 bytes, whose 64-byte signature OpenSSL verified over the
    canonical bytes. *)
Theorem machine_gate_verifies_accepted_signatures `{OpenSSL} policy bytes sigs id :
  (exists c, verify_against_policy policy bytes sigs = Ok c /\ verified c = true /\ check_key_id c = id) <->
  configured policy = true /\ exists l, sigs = JArr l /\ verifies policy bytes l id.
Proof. apply policy_says. Qed.

(** C11: what passes both gates is signed by a key the database trusts now. When
    [trust_gates] lets a parsed specification through, the database holds a key,
    not revoked, for which an entry of the document carries a signature OpenSSL
    verified, with the bytes the database holds, over the canonical form of the
    document's signed projection; and where the machine has a policy, an accepted
    key verified it too. *)
Theorem passing_both_gates_means_signed `{OpenSSL, Modules, Bodies} policy trusted doc spec :
  parse_spec sha256 doc = Ok spec -> trust_gates policy trusted spec = Ok BothPass ->
  canonicalize (project doc) = Ok (canonical_bytes spec) /\
  (exists l id, signatures spec = JArr l /\ trusted_signer trusted (canonical_bytes spec) l id) /\
  (configured policy = true ->
   exists l id, signatures spec = JArr l /\ verifies policy (canonical_bytes spec) l id).
Proof.
  intros Hp Hg. destruct (parse_spec_object _ _ _ Hp) as [m ->].
  pose proof (parse_spec_projected _ _ _ Hp) as (_ & Hc & _). rewrite <- project_obj in Hc. split; [done|].
  unfold trust_gates in Hg. ok_inv. case_if_in H3; [discriminate|]. case_if_in H3; [discriminate|]. bool_prop.
  split.
  - destruct (proj1 (signer_says trusted spec (check_key_id (verify_signer trusted spec)))) as (l & Hl & Ht);
      [by split|]. by exists l, (check_key_id (verify_signer trusted spec)).
  - intros Hconf. destruct (proj1 (policy_says policy (canonical_bytes spec) (signatures spec) (check_key_id x)))
      as (_ & l & Hl & Hv).
    + exists x. split; [done|]. split; [|done]. apply andb_false_iff in Heqb as [E|E]; apply negb_false_iff in E; [done|].
      exfalso. unfold verify_against_policy in H2. rewrite Hconf in H2. cbn [negb] in H2.
      destruct (signatures spec) as [| | | | | |[|y l]| | |]; try (injection H2 as <-; discriminate E).
      by apply policy_loop_configured in H2; rewrite H2 in E.
    + by exists l, (check_key_id x).
Qed.

(** The sample specification with a signature of its own bytes. *)
Definition sample_bytes : string := match canonicalize (project sample_spec) with Ok b => b | Err _ => "" end.
Definition sign_with (bytes : string) : string :=
  base64_encode (String.substring 0 64 (toy_key +:+ bytes +:+ zeros 64)).
Definition signed_sample : json :=
  match sample_spec with
  | JObj l => JObj (l ++ [("signatures", JArr [toy_entry toy_id (sign_with sample_bytes)])])
  | v => v
  end.

Lemma passing_both_gates_means_signed_witness : exists spec,
  parse_spec sha256 signed_sample = Ok spec /\ trust_gates toy_policy toy_trusted spec = Ok BothPass /\
  exists l id, signatures spec = JArr l /\ trusted_signer toy_trusted (canonical_bytes spec) l id.
Proof.
  destruct (parse_spec sha256 signed_sample) as [spec|] eqn:E; [|vm_compute in E; discriminate E].
  assert (match parse_spec sha256 signed_sample with
    Ok spec => trust_gates toy_policy toy_trusted spec | Err _ => Err JsonType end = Ok BothPass) as Hg'
    by (vm_compute; reflexivity).
  rewrite E in Hg'.
  exists spec. split; [reflexivity|]. split; [exact Hg'|].
  destruct (passing_both_gates_means_signed toy_policy toy_trusted signed_sample spec E Hg') as (_ & Ht & _).
  exact Ht.
Defined.

(** Where a migration is recorded. *)
Definition migration_key (spec : Spec) : string * string :=
  (if String.eqb (target_epoch spec) "" then "default" else target_epoch spec, digest spec).

(** The ledger records the first signature, whoever verified. When the first
    entry is by a key this database does not know and a later one verifies, the row
    names the key that verified beside the first entry's signature, which is not
    that key's. *)
Theorem ledger_pairs_the_signer_with_the_first_signature `{OpenSSL} trusted rows spec s0 rest id0 v0 rows' :
  signatures spec = JArr (s0 :: rest) -> entry_key_id s0 = Some id0 -> trusted !! id0 = None ->
  value_str s0 "signature" "" = Ok v0 -> verified (verify_signer trusted spec) = true ->
  rows !! migration_key spec = None ->
  record_migration trusted rows spec (check_key_id (verify_signer trusted spec)) = Ok rows' ->
  exists row id, rows' !! migration_key spec = Some row /\
    m_signer row = id /\ m_signature row = v0 /\
    id <> id0 /\ trusted_signer trusted (canonical_bytes spec) rest id.
Proof.
  intros Hs He Ht Hv Hver Hr Hrec.
  destruct (proj1 (signer_says trusted spec (check_key_id (verify_signer trusted spec)))) as (l & Hl & Hsig); [by split|].
  rewrite Hs in Hl. injection Hl as <-. unfold record_migration in Hrec. rewrite Hs in Hrec. simpl in Hrec.
  rewrite Hv in Hrec. cbn [mbind result_bind] in Hrec. fold (migration_key spec) in Hrec. rewrite Hr in Hrec.
  destruct (trusted !! check_key_id _) eqn:Ek; [|discriminate]. injection Hrec as <-.
  eexists _, (check_key_id (verify_signer trusted spec)). split; [apply lookup_insert_eq|].
  split; [done|]. split; [done|]. split; [intros E; congruence|].
  inversion Hsig as [? ? ? row He' Hr'|]; subst; [|done]. rewrite He in He'. injection He' as E.
  by rewrite E, Hr' in Ht.
Qed.

Definition two_signatures : Spec := toy_spec [toy_entry "ed25519:other" "QUJD"; toy_entry toy_id toy_signature].

Lemma ledger_pairs_the_signer_with_the_first_signature_witness : exists rows row id,
  record_migration toy_trusted ∅ two_signatures (check_key_id (verify_signer toy_trusted two_signatures)) = Ok rows /\
  rows !! migration_key two_signatures = Some row /\ m_signer row = id /\ m_signature row = "QUJD".
Proof.
  destruct (record_migration toy_trusted ∅ two_signatures (check_key_id (verify_signer toy_trusted two_signatures)))
    as [rows|] eqn:E; [|vm_compute in E; discriminate E].
  destruct (ledger_pairs_the_signer_with_the_first_signature toy_trusted ∅ two_signatures
    (toy_entry "ed25519:other" "QUJD") [toy_entry toy_id toy_signature] "ed25519:other" "QUJD" rows)
    as (row & id & H1 & H2 & H3 & _);
    [reflexivity|reflexivity|vm_compute; reflexivity|reflexivity|vm_compute; reflexivity|reflexivity|exact E|].
  exists rows, row, id. split; [reflexivity|]. split; [exact H1|]. split; [exact H2|exact H3].
Defined.
