(* ===== verification/Deploy.v ===== *)
(** * Deploy: unattended deployment (src/cpp/src/deploy.h)

    What a repository has pending is listed, and its groups are run one after
    another: up to the connection budget at once, watched until every job that
    was started has ended, with an exit code at the end. The tools it drives
    are an interface, [Tools]: every call may change the world, so a signal, a
    changed file or a job's end may come between any two of them. The log is a
    list of events; a line's wording is left out, what it is about is kept. *)
From S2P Require Import Prelude Json Repository.

(** [DeployResult]. *)
Inductive DeployResult : Type := kOk | kRefused | kRepoProblem | kConfigProblem | kInterrupted.

#[export] Instance DeployResult_eq_dec : EqDecision DeployResult.
Proof. solve_decision. Defined.

Definition exit_code (r : DeployResult) : Z :=
  match r with kOk => 0 | kRefused => 1 | kRepoProblem => 2 | kConfigProblem => 3 | kInterrupted => 130 end.

(** [DeployOptions]. *)
Record DeployOptions : Type := {
  repos : list string;
  repo : string;
  manifest : string;
  dry_run : bool;
  chain : bool;
  status_only : bool;
  poll_ms : Z;
  progress_first_s : Z;
}.

(** [detail::is_terminal]. *)
Definition is_terminal (state : string) : bool :=
  String.eqb state "succeeded" || String.eqb state "failed" || String.eqb state "cancelled"
  || String.eqb state "interrupted" || String.eqb state "aborted_contention".

(** One entry of a listing's [migrations]. *)
Record Migration : Type := {
  m_specId : string;
  m_status : string;
  m_connection : string;
  m_path : string;
  m_dependsOn : list string;
}.

(** What [list_migrations] answers. [l_order] is level -> group -> ids. *)
Record Listing : Type := {
  l_error : bool;
  l_problems : list Problem;
  l_migrations : list Migration;
  l_order : list (list (list string));
}.

(** A plan, as far as the runner reads it. *)
Record PlanAnswer : Type := { p_error : bool; p_ok : bool }.

(** [backfill] and [runningStep] of a job's status; a key that is absent is [None]. *)
Record StepReport : Type := {
  s_ordinal : option Z;
  s_single : bool;
  s_elapsed : option Z;
  s_rate : option Z;
}.

Record JobReport : Type := {
  j_state : string;
  j_backfill : option StepReport;
  j_runningStep : option StepReport;
}.

(** [json::object()]. *)
Definition no_report : JobReport := {| j_state := ""; j_backfill := None; j_runningStep := None |}.
Definition no_step : StepReport :=
  {| s_ordinal := None; s_single := false; s_elapsed := None; s_rate := None |}.

(** A line of the log. [Started] and [Ended] carry the job they are about. *)
Inductive Event : Type :=
  | ListingFailed
  | ProblemsFound (ps : list Problem)
  | Planned (pending : nat)
  | WillRetry (ids : list string)
  | NotForHere (id status : string)
  | HeldCount (held elsewhere : nat)
  | CouldNotRead (id : string)
  | PlanAccepted (id : string)
  | PlanRefused (id : string)
  | NotAccepted (id : string)
  | Started (id job : string)
  | Ended (id job state : string)
  | Progressed (id : string) (step : StepReport)
  | Waiting (n : nat)
  | StopAsked (sig asked : Z)
  | NotRehearsed (id cause : string)
  | Rehearsed (id : string)
  | Incomplete (id : string)
  | RehearsalFailed (id : string)
  | ChainSummary (rehearsed failed incomplete blocked : nat)
  | DryRunComplete
  | Applied (n retried : nat).

(** What the runner calls: tools.h, signals.h, the clock and the files. *)
Class Tools (W : Type) : Type := {
  max_concurrent_jobs : Z;
  list_migrations : list string -> string -> W -> Listing * W;
  received : W -> Z * W;
  stop_jobs : W -> Z * W;
  sleep_for : Z -> W -> W;
  now : W -> Z * W;
  read_spec_file : string -> W -> option json * W;
  plan_migration : json -> string -> W -> PlanAnswer * W;
  start_migration : json -> string -> W -> option string * W;
  job_status : string -> W -> list (string * JobReport) * W;
  rehearse : json -> string -> W -> (string * PlanAnswer) * W;
  chain_end : W -> W;
}.

Record Progress : Type := { interval_s : Z; next_ms : Z }.

(** [progress_]'s key: the job, the step, and whether it is its one statement. *)
Notation ProgressKey := (string * Z * bool)%type.

(** [Deployment], with the world it acts on and the log it has written. *)
Record Deployment (W : Type) : Type := {
  world : W;
  stop_said : bool;
  progress : gmap ProgressKey Progress;
  log : list Event;
}.
Arguments world {W}.
Arguments stop_said {W}.
Arguments progress {W}.
Arguments log {W}.
Arguments Build_Deployment {W}.

Definition new_deployment {W} (w : W) : Deployment W :=
  {| world := w; stop_said := false; progress := ∅; log := [] |}.

Definition with_world {W} (d : Deployment W) (w : W) : Deployment W :=
  {| world := w; stop_said := stop_said d; progress := progress d; log := log d |}.

Definition emit {W} (e : Event) (d : Deployment W) : Deployment W :=
  {| world := world d; stop_said := stop_said d; progress := progress d; log := log d ++ [e] |}.

(** One call of a tool. *)
Definition call {W A} (f : W -> A * W) (d : Deployment W) : A * Deployment W :=
  let '(a, w) := f (world d) in (a, with_world d w).

(** ** The listing *)

(** [by_id], where a later entry with an id wins. *)
Definition index (ms : list Migration) : gmap string Migration :=
  foldl (fun b m => <[m_specId m := m]> b) ∅ ms.

Definition no_migration : Migration :=
  {| m_specId := ""; m_status := ""; m_connection := ""; m_path := ""; m_dependsOn := [] |}.

Definition find_migration (b : gmap string Migration) (id : string) : Migration :=
  default no_migration (b !! id).

(** What is acted on: pending, or failed on an earlier run. *)
Definition acted_on (st : string) : bool := String.eqb st "pending" || String.eqb st "failed".

Definition is_held (st : string) : bool :=
  String.eqb st "held_for_release" || String.eqb st "held_for_epoch".

Definition is_elsewhere (st : string) : bool :=
  String.eqb st "retired_epoch" || String.eqb st "wrong_environment" || String.eqb st "wrong_database".

(** The ids of a group that are run. *)
Definition group_ids (b : gmap string Migration) (group : list string) : list string :=
  List.filter (fun id => match b !! id with Some m => acted_on (m_status m) | None => false end) group.

Definition count_status (f : string -> bool) (ms : list Migration) : nat :=
  length (List.filter (fun m => f (m_status m)) ms).

(** The listing of a repository ([assemble]): the entries, and the levels split
    into groups. [path] is where an entry's file is. *)
Definition migration_of (path : string -> string) (e : RepoEntry) : Migration :=
  {| m_specId := spec_id e; m_status := status_to_string (status e); m_connection := connection e;
     m_path := path (spec_id e); m_dependsOn := depends_on e |}.

Definition level_groups (b : gmap string RepoEntry) (level : list string) : list (list string) :=
  let ready := omap (b !!.) level in
  map (map spec_id) (parallel_subsets (length ready) ready).

Definition repository_listing (path : string -> string) (es : list RepoEntry)
    (ls : list (list string)) (ps : list Problem) : Listing :=
  {| l_error := false; l_problems := ps; l_migrations := migration_of path <$> es;
     l_order := level_groups (by_id es) <$> ls |}.

(** The directories [run] lists. *)
Definition directories (opts : DeployOptions) : list string :=
  repos opts ++ (if String.eqb (repo opts) "" then [] else [repo opts]).

Section Deploy.
Context {W : Type} `{Tools W} (opts : DeployOptions).
Implicit Types d : Deployment W.

(** [stop_on_signal]. *)
Definition stop_on_signal (d : Deployment W) : bool * Deployment W :=
  let '(sig, d) := call received d in
  if sig =? 0 then (false, d)
  else if stop_said d then (true, d)
  else
    let d := {| world := world d; stop_said := true; progress := progress d; log := log d |} in
    let '(asked, d) := call stop_jobs d in
    (true, emit (StopAsked sig asked) d).

(** [snapshot]: a job the answer does not have has no state. *)
Definition snapshot (job : string) (d : Deployment W) : JobReport * Deployment W :=
  let '(jobs, d) := call (job_status job) d in
  (match List.find (fun j => String.eqb j.1 job) jobs with Some (_, st) => st | None => no_report end, d).

(** [report_progress]: a line at the first interval, then after twice as long
    each time, up to ten minutes. *)
Definition report_progress (id job : string) (st : JobReport) (d : Deployment W) : Deployment W :=
  let walk := default no_step (j_backfill st) in
  let other := match j_runningStep st with
               | Some r => negb (default 0 (s_ordinal r) =? default (-1) (s_ordinal walk))
               | None => false
               end in
  let b := if other then default no_step (j_runningStep st) else walk in
  let one := s_single b && match s_elapsed b with Some _ => true | None => false end in
  if negb other && negb one && match s_rate b with Some _ => false | None => true end then d
  else
    let '(t, d) := call now d in
    let key := (job, default 0 (s_ordinal b), one) in
    let p := default {| interval_s := 0; next_ms := 0 |} (progress d !! key) in
    let p := if interval_s p =? 0
             then {| interval_s := progress_first_s opts; next_ms := t + 1000 * progress_first_s opts |}
             else p in
    if t <? next_ms p
    then {| world := world d; stop_said := stop_said d; progress := <[key := p]> (progress d); log := log d |}
    else
      let i := Z.min (interval_s p * 2) 600 in
      emit (Progressed id b)
        {| world := world d; stop_said := stop_said d;
           progress := <[key := {| interval_s := i; next_ms := t + 1000 * i |}]> (progress d);
           log := log d |}.

(** One pass over the running jobs. [stop] is [run_group]'s, which leaves at the
    first job that did not succeed; [drain] goes on. The jobs still to watch, and
    whether it left. *)
Fixpoint poll (stop : bool) (running : list (string * string)) (d : Deployment W) :
  bool * list (string * string) * Deployment W :=
  match running with
  | [] => (false, [], d)
  | (id, job) :: rest =>
      let '(st, d) := snapshot job d in
      if negb (is_terminal (j_state st)) then
        let d := report_progress id job st d in
        let '(quit, kept, d) := poll stop rest d in (quit, (id, job) :: kept, d)
      else
        let d := emit (Ended id job (j_state st)) d in
        if negb (String.eqb (j_state st) "succeeded") && stop then (true, rest, d)
        else poll stop rest d
  end.

(** [drain]'s loop; [fuel] counts its turns, and [false] is a run not over yet. *)
Fixpoint drain_loop (fuel : nat) (running : list (string * string)) (d : Deployment W) :
  bool * Deployment W :=
  match running with
  | [] => (true, d)
  | _ =>
      match fuel with
      | O => (false, d)
      | S fuel' =>
          let '(_, d) := stop_on_signal d in
          let d := with_world d (sleep_for (poll_ms opts) (world d)) in
          let '(_, running, d) := poll false running d in
          drain_loop fuel' running d
      end
  end.

Definition drain (fuel : nat) (running : list (string * string)) (d : Deployment W) :
  bool * Deployment W :=
  match running with
  | [] => (true, d)
  | _ => drain_loop fuel running (emit (Waiting (length running)) d)
  end.

(** [drain(out, running); return r;] *)
Definition leave (fuel : nat) (r : DeployResult) (running : list (string * string)) (d : Deployment W) :
  option DeployResult * Deployment W :=
  let '(over, d) := drain fuel running d in (if over then Some r else None, d).

Definition report_plan_outcome (id : string) (plan : PlanAnswer) (d : Deployment W) :
  DeployResult * Deployment W :=
  if p_error plan then (kRefused, emit (PlanRefused id) d)
  else if negb (p_ok plan) then (kRefused, emit (PlanRefused id) d)
  else (kOk, emit (PlanAccepted id) d).

(** How the inner loop of [run_group] ends: what is left to start and what runs,
    a return after a drain, or a return. *)
Inductive Turn : Type :=
  | Go (ids : list string) (running : list (string * string))
  | Leave (r : DeployResult) (running : list (string * string))
  | LeaveNow (r : DeployResult).

(** [while (next < ids.size() && running.size() < cap)]. *)
Fixpoint start_loop (b : gmap string Migration) (ids : list string)
    (running : list (string * string)) (d : Deployment W) : Turn * Deployment W :=
  match ids with
  | [] => (Go [] running, d)
  | id :: rest =>
      if negb (Z.of_nat (length running) <? max_concurrent_jobs) then (Go ids running, d)
      else
        let '(sig, d) := call received d in
        if negb (sig =? 0) then (Go ids running, d)
        else
          let m := find_migration b id in
          let '(spec, d) := call (read_spec_file (m_path m)) d in
          match spec with
          | None => (Leave kRepoProblem running, emit (CouldNotRead id) d)
          | Some spec =>
              if dry_run opts then
                let '(plan, d) := call (plan_migration spec (m_connection m)) d in
                let '(outcome, d) := report_plan_outcome id plan d in
                match outcome with
                | kOk => start_loop b rest running d
                | r => (LeaveNow r, d)
                end
              else
                let '(started, d) := call (start_migration spec (m_connection m)) d in
                match started with
                | None => (Leave kRefused running, emit (NotAccepted id) d)
                | Some job => start_loop b rest (running ++ [(id, job)]) (emit (Started id job) d)
                end
          end
  end.

(** [run_group]; [None] is a run not over yet. *)
Fixpoint run_group (fuel : nat) (b : gmap string Migration) (ids : list string)
    (running : list (string * string)) (d : Deployment W) : option DeployResult * Deployment W :=
  match ids, running with
  | [], [] => (Some kOk, d)
  | _, _ =>
      match fuel with
      | O => (None, d)
      | S fuel' =>
          let '(turn, d) := start_loop b ids running d in
          match turn with
          | LeaveNow r => (Some r, d)
          | Leave r running => leave fuel' r running d
          | Go ids running =>
              let '(stop, d) := stop_on_signal d in
              if stop then leave fuel' kInterrupted running d
              else
                match running with
                | [] => run_group fuel' b ids [] d
                | _ =>
                    let d := with_world d (sleep_for (poll_ms opts) (world d)) in
                    let '(failed, running, d) := poll true running d in
                    if failed then leave fuel' kRefused running d
                    else run_group fuel' b ids running d
                end
          end
      end
  end.

(** The loops over the levels and the groups of each. *)
Fixpoint run_groups (fuel : nat) (b : gmap string Migration) (groups : list (list string))
    (d : Deployment W) : option DeployResult * Deployment W :=
  match groups with
  | [] => (Some kOk, d)
  | group :: groups' =>
      match group_ids b group with
      | [] => run_groups fuel b groups' d
      | ids =>
          match run_group fuel b ids [] d with
          | (Some kOk, d) => run_groups fuel b groups' d
          | r => r
          end
      end
  end.

(** [rehearsed], [failed], [incomplete], [blocked]. *)
Record Counts : Type := { n_rehearsed : nat; n_failed : nat; n_incomplete : nat; n_blocked : nat }.

Definition no_counts : Counts := {| n_rehearsed := 0; n_failed := 0; n_incomplete := 0; n_blocked := 0 |}.

(** One specification of the chain; [None] is a file that cannot be read. *)
Definition chain_step (b : gmap string Migration) (id : string) (broken : gset string) (n : Counts)
    (d : Deployment W) : option (gset string * Counts) * Deployment W :=
  let m := find_migration b id in
  match List.find (fun dep => bool_decide (dep ∈ broken)) (m_dependsOn m) with
  | Some cause =>
      (Some ({[ id ]} ∪ broken,
             {| n_rehearsed := n_rehearsed n; n_failed := n_failed n; n_incomplete := n_incomplete n;
                n_blocked := S (n_blocked n) |}), emit (NotRehearsed id cause) d)
  | None =>
      let '(spec, d) := call (read_spec_file (m_path m)) d in
      match spec with
      | None => (None, emit (CouldNotRead id) d)
      | Some spec =>
          let '(outcome, plan, d) := call (rehearse spec (m_connection m)) d in
          if String.eqb outcome "rehearsed" then
            (Some (broken,
                   {| n_rehearsed := S (n_rehearsed n); n_failed := n_failed n;
                      n_incomplete := n_incomplete n; n_blocked := n_blocked n |}), emit (Rehearsed id) d)
          else if String.eqb outcome "incomplete" then
            (Some ({[ id ]} ∪ broken,
                   {| n_rehearsed := n_rehearsed n; n_failed := n_failed n;
                      n_incomplete := S (n_incomplete n); n_blocked := n_blocked n |}),
             emit (Incomplete id) d)
          else
            let n := {| n_rehearsed := n_rehearsed n; n_failed := S (n_failed n);
                        n_incomplete := n_incomplete n; n_blocked := n_blocked n |} in
            if String.eqb outcome "failed" then (Some ({[ id ]} ∪ broken, n), emit (RehearsalFailed id) d)
            else
              let '(_, d) := report_plan_outcome id plan d in
              (Some ({[ id ]} ∪ broken, n), d)
      end
  end.

Fixpoint chain_loop (b : gmap string Migration) (ids : list string) (broken : gset string) (n : Counts)
    (d : Deployment W) : option Counts * Deployment W :=
  match ids with
  | [] => (Some n, d)
  | id :: ids' =>
      match chain_step b id broken n d with
      | (None, d) => (None, d)
      | (Some (broken, n), d) => chain_loop b ids' broken n d
      end
  end.

(** [run_chain]; the rehearsal's destructor rolls back on the early return. *)
Definition run_chain (l : Listing) (b : gmap string Migration) (d : Deployment W) :
  DeployResult * Deployment W :=
  match chain_loop b (group_ids b (mjoin (mjoin (l_order l)))) ∅ no_counts d with
  | (None, d) => (kRepoProblem, with_world d (chain_end (world d)))
  | (Some n, d) =>
      let d := with_world d (chain_end (world d)) in
      let d := emit (ChainSummary (n_rehearsed n) (n_failed n) (n_incomplete n) (n_blocked n)) d in
      (if Nat.eqb (n_failed n + n_incomplete n + n_blocked n) 0 then kOk else kRefused, d)
  end.

(** What [run] reports of a listing before it acts. *)
Definition report_listing (l : Listing) (d : Deployment W) : Deployment W :=
  let ms := l_migrations l in
  let d := emit (Planned (count_status (fun st => String.eqb st "pending") ms)) d in
  let failed := List.filter (fun m => String.eqb (m_status m) "failed") ms in
  let d := match failed with [] => d | _ => emit (WillRetry (m_specId <$> failed)) d end in
  let not_here := List.filter (fun m => is_held (m_status m) || is_elsewhere (m_status m)) ms in
  let d := foldl (fun d m => emit (NotForHere (m_specId m) (m_status m)) d) d not_here in
  let held := count_status is_held ms in
  let elsewhere := count_status is_elsewhere ms in
  if Nat.eqb held 0 && Nat.eqb elsewhere 0 then d else emit (HeldCount held elsewhere) d.

(** [Deployment::run]. *)
Definition run (fuel : nat) (d : Deployment W) : option DeployResult * Deployment W :=
  let '(l, d) := call (list_migrations (directories opts) (manifest opts)) d in
  if l_error l then (Some kConfigProblem, emit ListingFailed d)
  else
    match l_problems l with
    | _ :: _ => (Some kRepoProblem, emit (ProblemsFound (l_problems l)) d)
    | [] =>
        let b := index (l_migrations l) in
        let pending := count_status (fun st => String.eqb st "pending") (l_migrations l) in
        let retry := count_status (fun st => String.eqb st "failed") (l_migrations l) in
        let d := report_listing l d in
        if status_only opts then (Some (if Nat.ltb 0 retry then kRefused else kOk), d)
        else if Nat.eqb (pending + retry) 0 then (Some kOk, d)
        else if chain opts then let '(r, d) := run_chain l b d in (Some r, d)
        else
          match run_groups fuel b (mjoin (l_order l)) d with
          | (Some kOk, d) =>
              (Some kOk, emit (if dry_run opts then DryRunComplete else Applied (pending + retry) retry) d)
          | r => r
          end
    end.

End Deploy.
