(* ===== verification/DeployFacts.v ===== *)
(** * DeployFacts: what a deployment's log and exit code mean

    The protocol a run of [Deploy] keeps, as a machine over the events of its
    log: jobs start in the order of the groups, a group only when the one
    before it is over, never more at once than the budget, nothing after the
    first thing that went wrong, and a job that was started is watched to its
    end. From it: dependencies first, and what the exit codes say. *)
From stdpp Require Import gmultiset.
From S2P Require Import Prelude Json Repository RepositoryFacts Deploy.
#[local] Open Scope Z_scope.

(** ** The protocol *)

(** The jobs that run, the ids not started yet by group (the current one first),
    and why nothing further may be started, by exit code. *)
Record Protocol : Type := {
  live : gmultiset (string * string);
  todo : list (list string);
  causes : list DeployResult;
}.

(** The groups that are not over. *)
Fixpoint drop_done (gs : list (list string)) : list (list string) :=
  match gs with [] :: gs' => drop_done gs' | _ => gs end.

Definition blame (r : DeployResult) (p : Protocol) : Protocol :=
  {| live := live p; todo := todo p; causes := causes p ++ [r] |}.

Definition protocol_step (cap : Z) (p : Protocol) (e : Event) : option Protocol :=
  match e with
  | Started id job =>
      match (if decide (live p = ∅) then drop_done (todo p) else todo p) with
      | (next :: g) :: gs =>
          if bool_decide (causes p = []) && (Z.of_nat (size (live p)) <? cap) && String.eqb next id
          then Some {| live := live p ⊎ {[+ (id, job) +]}; todo := g :: gs; causes := causes p |}
          else None
      | _ => None
      end
  | Ended id job st =>
      if is_terminal st && bool_decide ((id, job) ∈ live p)
      then Some {| live := live p ∖ {[+ (id, job) +]}; todo := todo p;
                   causes := causes p ++ (if String.eqb st "succeeded" then [] else [kRefused]) |}
      else None
  | ListingFailed => Some (blame kConfigProblem p)
  | ProblemsFound _ | CouldNotRead _ => Some (blame kRepoProblem p)
  | PlanRefused _ | NotAccepted _ => Some (blame kRefused p)
  | StopAsked _ _ => Some (blame kInterrupted p)
  | _ => Some p
  end.

Definition replay (cap : Z) (p : Protocol) (es : list Event) : option Protocol :=
  foldl (fun p e => p ← p; protocol_step cap p e) (Some p) es.

(** Where a run over these groups begins. *)
Definition protocol_start (groups : list (list string)) : Protocol :=
  {| live := ∅; todo := groups; causes := [] |}.

Lemma replay_snoc cap p es e : replay cap p (es ++ [e]) = (p ← replay cap p es; protocol_step cap p e).
Proof. unfold replay. by rewrite foldl_app. Qed.

Lemma replay_app cap p es es' : replay cap p (es ++ es') = (p ← replay cap p es; replay cap p es').
Proof.
  unfold replay. rewrite foldl_app. destruct (foldl _ (Some p) es); [done|].
  cbn. induction es'; [done|]. by simpl.
Qed.

(** ** A run keeps it *)
Section Simulation.
Context {W : Type} `{Tools W} (opts : DeployOptions) (start : Protocol).
Implicit Types (d : Deployment W) (p : Protocol).

(** The log so far leads the protocol to [p]. *)
Definition keeps (p : Protocol) (d : Deployment W) : Prop :=
  replay max_concurrent_jobs start (log d) = Some p
  /\ (stop_said d = true -> kInterrupted ∈ causes p).

Definition jobs (l : list (string * string)) : gmultiset (string * string) := list_to_set_disj l.

Lemma keeps_emit p p' e d :
  keeps p d -> protocol_step max_concurrent_jobs p e = Some p' ->
  (stop_said d = true -> kInterrupted ∈ causes p') -> keeps p' (emit e d).
Proof. intros [Hr _] He Hs. split; [|done]. simpl. by rewrite replay_snoc, Hr. Qed.

Lemma keeps_blame p r e d :
  keeps p d -> protocol_step max_concurrent_jobs p e = Some (blame r p) -> keeps (blame r p) (emit e d).
Proof. intros Hk He. eapply keeps_emit; [done..|]. destruct Hk as [_ Hs]. simpl. set_solver. Qed.

Lemma keeps_silent p e d :
  keeps p d -> protocol_step max_concurrent_jobs p e = Some p -> keeps p (emit e d).
Proof. intros Hk He. eapply keeps_emit; [done..|]. by destruct Hk. Qed.

Lemma keeps_same p d d' : keeps p d -> log d' = log d -> stop_said d' = stop_said d -> keeps p d'.
Proof. intros [Hr Hs] Hl Ht. split; rewrite ?Hl, ?Ht; done. Qed.

Lemma call_same {A} (f : W -> A * W) d a d' :
  call f d = (a, d') -> log d' = log d /\ stop_said d' = stop_said d.
Proof. unfold call. destruct (f (world d)). by intros [= <- <-]. Qed.

Lemma keeps_call {A} (f : W -> A * W) p d a d' : keeps p d -> call f d = (a, d') -> keeps p d'.
Proof. intros Hk [Hl Ht]%call_same. by eapply keeps_same. Qed.

Lemma keeps_world p d w : keeps p d -> keeps p (with_world d w).
Proof. intros Hk. by eapply keeps_same. Qed.

(** The causes only grow. *)
Definition follows p p' : Prop := todo p' = todo p /\ causes p `prefix_of` causes p'.

Lemma follows_refl p : follows p p.
Proof. by split. Qed.

Lemma follows_trans p1 p2 p3 : follows p1 p2 -> follows p2 p3 -> follows p1 p3.
Proof. intros [H1 H2] [H3 H4]. split; [congruence|by etrans]. Qed.

Lemma follows_blame r p : follows p (blame r p).
Proof. split; [done|by apply prefix_app_r]. Qed.

Lemma keeps_stop_on_signal p d b d' :
  keeps p d -> stop_on_signal d = (b, d') ->
  exists p', keeps p' d' /\ live p' = live p /\ follows p p'
    /\ (if b then kInterrupted ∈ causes p' else p' = p).
Proof.
  intros Hk. unfold stop_on_signal. destruct (call received d) as [sig d1] eqn:E1.
  pose proof (keeps_call _ _ _ _ _ Hk E1) as Hk1.
  case_if; [intros [= <- <-]; exists p; eauto using follows_refl|].
  destruct (stop_said d1) eqn:Es.
  { intros [= <- <-]. exists p. split_and!; eauto using follows_refl. by apply Hk1. }
  set (d2 := Build_Deployment _ _ _ _). destruct (call stop_jobs d2) as [asked d3] eqn:E3.
  intros [= <- <-]. exists (blame kInterrupted p). split_and!; eauto using follows_blame; [|set_solver].
  apply call_same in E3 as [Hl _]. destruct Hk1 as [Hr _]. split; [|set_solver].
  simpl. rewrite replay_snoc, Hl. subst d2. simpl. by rewrite Hr.
Qed.

Lemma keeps_snapshot p job d st d' : keeps p d -> snapshot job d = (st, d') -> keeps p d'.
Proof.
  intros Hk. unfold snapshot. destruct (call (job_status job) d) as [l d1] eqn:E1.
  intros [= _ <-]. by eapply keeps_call.
Qed.

Lemma keeps_report_progress p id job st d : keeps p d -> keeps p (report_progress opts id job st d).
Proof.
  intros Hk. unfold report_progress. cbv zeta. case_if; [done|].
  destruct (call now d) as [t d1] eqn:E1. pose proof (keeps_call _ _ _ _ _ Hk E1) as Hk1.
  case_if; [by eapply keeps_same|]. apply keeps_silent; [|done]. by eapply keeps_same.
Qed.

Lemma jobs_cons x l : jobs (x :: l) = {[+ x +]} ⊎ jobs l.
Proof. done. Qed.

Lemma keeps_poll stop running before p d quit kept d' :
  keeps p d -> live p = before ⊎ jobs running -> poll opts stop running d = (quit, kept, d') ->
  exists p', keeps p' d' /\ live p' = before ⊎ jobs kept /\ follows p p'
    /\ (quit = true -> kRefused ∈ causes p')
    /\ (stop = true -> quit = false -> causes p' = causes p).
Proof.
  revert before p d quit kept d'. induction running as [|[id job] rest IH];
    intros before p d quit kept d' Hk Hl; cbn [poll].
  { intros [= <- <- <-]. exists p. split_and!; eauto using follows_refl; done. }
  destruct (snapshot job d) as [st d1] eqn:E1. pose proof (keeps_snapshot _ _ _ _ _ Hk E1) as Hk1.
  destruct (is_terminal (j_state st)) eqn:Ht; cbn [negb].
  2:{ destruct (poll opts stop rest (report_progress opts id job st d1)) as [[q k] d2] eqn:E2.
      intros [= <- <- <-]. rewrite jobs_cons in *.
      destruct (IH (before ⊎ {[+ (id, job) +]}) p _ q k d2 (keeps_report_progress p id job st d1 Hk1))
        as (p' & H1 & H2 & H3 & H4 & H5); [rewrite Hl; multiset_solver|exact E2|].
      exists p'. split_and!; auto. rewrite H2. multiset_solver. }
  rewrite jobs_cons in Hl.
  set (p1 := {| live := before ⊎ jobs rest; todo := todo p;
                causes := causes p ++ (if String.eqb (j_state st) "succeeded" then [] else [kRefused]) |}).
  assert (Hk2 : keeps p1 (emit (Ended id job (j_state st)) d1)).
  { eapply keeps_emit; [exact Hk1| |destruct Hk1 as [_ Hs]; simpl; set_solver].
    simpl. rewrite Ht, bool_decide_eq_true_2 by (rewrite Hl; multiset_solver). subst p1. simpl.
    do 2 f_equal. rewrite Hl. multiset_solver. }
  assert (Hf : follows p p1) by (split; [done|by apply prefix_app_r]).
  destruct (String.eqb (j_state st) "succeeded") eqn:Hs; cbn [negb andb].
  - intros E2. destruct (IH before p1 _ _ _ _ Hk2 eq_refl E2) as (p' & H1 & H2 & H3 & H4 & H5).
    exists p'. split_and!; eauto using follows_trans. intros Hst Hq. rewrite H5 by done.
    subst p1. simpl. by rewrite app_nil_r.
  - destruct stop.
    + intros [= <- <- <-]. exists p1. split_and!; auto; [|done]. intros _. subst p1. simpl. set_solver.
    + intros E2. destruct (IH before p1 _ _ _ _ Hk2 eq_refl E2) as (p' & H1 & H2 & H3 & H4 & H5).
      exists p'. split_and!; eauto using follows_trans. done.
Qed.

Lemma keeps_drain_loop fuel running p d over d' :
  keeps p d -> live p = jobs running -> drain_loop opts fuel running d = (over, d') ->
  exists p', keeps p' d' /\ follows p p' /\ (over = true -> live p' = ∅).
Proof.
  revert running p d. induction fuel as [|fuel IH]; intros [|j running] p d Hk Hl; cbn [drain_loop].
  1,2,3: intros [= <- <-]; exists p; split_and!; eauto using follows_refl; done.
  destruct (stop_on_signal d) as [b d1] eqn:E1.
  destruct (keeps_stop_on_signal _ _ _ _ Hk E1) as (p1 & Hk1 & Hl1 & Hf1 & _).
  destruct (poll opts false _ _) as [[q kept] d2] eqn:E2. intros E3.
  destruct (keeps_poll false (j :: running) ∅ p1 _ _ _ _
    (keeps_world _ _ (sleep_for (poll_ms opts) (world d1)) Hk1) ltac:(rewrite Hl1, Hl; multiset_solver) E2)
    as (p2 & Hk2 & Hl2 & Hf2 & _).
  destruct (IH kept p2 d2 Hk2 ltac:(rewrite Hl2; multiset_solver) E3) as (p' & H1 & H2 & H3).
  exists p'. eauto 6 using follows_trans.
Qed.

Lemma keeps_leave fuel r running p d res d' :
  keeps p d -> live p = jobs running -> r ∈ causes p -> leave opts fuel r running d = (res, d') ->
  exists p', keeps p' d' /\ (res = None \/ res = Some r /\ live p' = ∅ /\ r ∈ causes p').
Proof.
  intros Hk Hl Hr. unfold leave. destruct (drain opts fuel running d) as [over d1] eqn:E.
  intros [= <- <-].
  assert (Hd : exists p', keeps p' d1 /\ follows p p' /\ (over = true -> live p' = ∅)).
  { unfold drain in E. destruct running as [|j running].
    - injection E as <- <-. exists p. split_and!; auto using follows_refl.
    - eapply keeps_drain_loop; [|exact Hl|exact E]. by apply keeps_silent. }
  destruct Hd as (p' & H1 & H2 & H3). exists p'. split; [done|].
  destruct over; [right|by left]. split_and!; auto. destruct H2 as [_ [l ->]]. set_solver.
Qed.

(** Where the protocol is while [ids] of the current group are still to start. *)
Definition at_group (gs : list (list string)) (ids : list string) (later : list (list string))
    (running : list (string * string)) : Prop :=
  gs = ids :: later \/ (running = [] /\ drop_done gs = drop_done (ids :: later)).

Lemma size_jobs l : size (jobs l) = length l.
Proof.
  induction l as [|x l IH]; [done|]. rewrite jobs_cons, gmultiset_size_disj_union, gmultiset_size_singleton.
  simpl. by rewrite IH.
Qed.

Lemma jobs_empty l : jobs l = ∅ -> l = [].
Proof. intros He%(f_equal size). rewrite size_jobs in He. by destruct l. Qed.

(** Starting the next id of the group is allowed. *)
Lemma start_allowed p id job ids later running :
  at_group (todo p) (id :: ids) later running -> live p = jobs running -> causes p = [] ->
  Z.of_nat (length running) < max_concurrent_jobs ->
  protocol_step max_concurrent_jobs p (Started id job)
  = Some {| live := jobs (running ++ [(id, job)]); todo := ids :: later; causes := [] |}.
Proof.
  intros Hat Hl Hc Hcap. simpl.
  replace (if decide (live p = ∅) then drop_done (todo p) else todo p) with ((id :: ids) :: later).
  2:{ destruct Hat as [->|[-> Hd]]; [by case_decide|].
      rewrite Hl. rewrite decide_True by done. by rewrite Hd. }
  rewrite (bool_decide_eq_true_2 (causes p = [])) by done. rewrite Hl, size_jobs.
  replace (Z.of_nat (length running) <? max_concurrent_jobs) with true by lia.
  rewrite String.eqb_refl, Hc. simpl. do 2 f_equal. unfold jobs. rewrite list_to_set_disj_app. multiset_solver.
Qed.

Lemma keeps_start_loop b ids later running p d turn d' :
  dry_run opts = false ->
  keeps p d -> live p = jobs running -> causes p = [] -> at_group (todo p) ids later running ->
  start_loop opts b ids running d = (turn, d') ->
  exists p', keeps p' d' /\
    match turn with
    | Go ids' running' => live p' = jobs running' /\ causes p' = [] /\ at_group (todo p') ids' later running'
    | Leave r running' => live p' = jobs running' /\ r ∈ causes p' /\ r <> kOk
    | LeaveNow _ => False
    end.
Proof.
  intros Hdry. revert running p d. induction ids as [|id ids IH]; intros running p d Hk Hl Hc Hat; cbn [start_loop].
  { intros [= <- <-]. by exists p. }
  destruct (Z.ltb_spec (Z.of_nat (length running)) max_concurrent_jobs); cbn [negb];
    [|intros [= <- <-]; by exists p].
  destruct (call received d) as [sig d1] eqn:E1. pose proof (keeps_call _ _ _ _ _ Hk E1) as Hk1.
  destruct (sig =? 0); cbn [negb]; [|intros [= <- <-]; by exists p].
  cbv zeta. destruct (call (read_spec_file _) d1) as [spec d2] eqn:E2.
  pose proof (keeps_call _ _ _ _ _ Hk1 E2) as Hk2.
  destruct spec as [spec|].
  2:{ intros [= <- <-]. exists (blame kRepoProblem p). split; [by apply keeps_blame|].
      split_and!; [done|simpl; set_solver|done]. }
  rewrite Hdry. destruct (call (start_migration _ _) d2) as [started d3] eqn:E3.
  pose proof (keeps_call _ _ _ _ _ Hk2 E3) as Hk3. destruct started as [job|].
  2:{ intros [= <- <-]. exists (blame kRefused p). split; [by apply keeps_blame|].
      split_and!; [done|simpl; set_solver|done]. }
  apply (IH (running ++ [(id, job)])
    {| live := jobs (running ++ [(id, job)]); todo := ids :: later; causes := [] |}); try done; [|by left].
  eapply keeps_emit; [exact Hk3|by eapply start_allowed|].
  destruct Hk3 as [_ Hs]. by rewrite Hc in Hs.
Qed.

(** One turn of [run_group]'s loop. *)
Lemma run_group_turn fuel b ids running d :
  ~ (ids = [] /\ running = []) ->
  run_group opts (S fuel) b ids running d =
  let '(turn, d) := start_loop opts b ids running d in
  match turn with
  | LeaveNow r => (Some r, d)
  | Leave r running => leave opts fuel r running d
  | Go ids running =>
      let '(stop, d) := stop_on_signal d in
      if stop then leave opts fuel kInterrupted running d
      else match running with
           | [] => run_group opts fuel b ids [] d
           | _ => let d := with_world d (sleep_for (poll_ms opts) (world d)) in
                  let '(failed, running, d) := poll opts true running d in
                  if failed then leave opts fuel kRefused running d
                  else run_group opts fuel b ids running d
           end
  end.
Proof. intros Hne. destruct ids, running; try done. by destruct Hne. Qed.

(** What an ending says of the protocol's state. *)
Definition ends_as (res : option DeployResult) (later : list (list string)) (p : Protocol) : Prop :=
  match res with
  | None => True
  | Some kOk => live p = ∅ /\ causes p = [] /\ drop_done (todo p) = drop_done later
  | Some r => live p = ∅ /\ r ∈ causes p
  end.

Lemma keeps_run_group fuel b ids later running p d res d' :
  dry_run opts = false ->
  keeps p d -> live p = jobs running -> causes p = [] -> at_group (todo p) ids later running ->
  run_group opts fuel b ids running d = (res, d') ->
  exists p', keeps p' d' /\ ends_as res later p'.
Proof.
  intros Hdry. revert ids running p d. induction fuel as [|fuel IH]; intros ids running p d Hk Hl Hc Hat.
  { assert (Hend : ids = [] -> running = [] -> exists p', keeps p' d /\ live p' = ∅ /\ causes p' = []
      /\ drop_done (todo p') = drop_done later).
    { intros -> ->. exists p. split; [done|]. split_and!; auto. by destruct Hat as [->|[_ Hd]]. }
    destruct ids, running; cbn [run_group]; intros [= <- <-]; eauto; exists p; done. }
  destruct (decide (ids = [] /\ running = [])) as [[-> ->]|Hne].
  { cbn [run_group]. intros [= <- <-]. exists p. split; [done|]. split_and!; auto. by destruct Hat as [->|[_ Hd]]. }
  rewrite run_group_turn by done. destruct (start_loop opts b ids running d) as [turn d1] eqn:E1.
  destruct (keeps_start_loop _ _ _ _ _ _ _ _ Hdry Hk Hl Hc Hat E1) as (p1 & Hk1 & Hp1).
  assert (Hleave : forall r l q e, keeps q e -> live q = jobs l -> r ∈ causes q -> r <> kOk ->
    leave opts fuel r l e = (res, d') ->
    exists p', keeps p' d' /\ ends_as res later p').
  { intros r l q e Hq Hlq Hr Hok E. destruct (keeps_leave _ _ _ _ _ _ _ Hq Hlq Hr E)
      as (p' & Hk' & [->|(-> & H1 & H2)]); exists p'; [done|]. by destruct r. }
  destruct turn as [ids' running'|r running'|r]; [|destruct Hp1 as (Hl1 & Hr1 & Hok1); eauto|done].
  destruct Hp1 as (Hl1 & Hc1 & Hat1). destruct (stop_on_signal d1) as [stop d2] eqn:E2.
  destruct (keeps_stop_on_signal _ _ _ _ Hk1 E2) as (p2 & Hk2 & Hl2 & _ & Hb).
  destruct stop; [intros E3; eapply Hleave; [exact Hk2|by rewrite Hl2|done..|exact E3]|]. subst p2.
  destruct running' as [|j running']; [by apply IH with (p := p1)|]. cbv zeta.
  destruct (poll opts true _ _) as [[failed kept] d3] eqn:E3.
  destruct (keeps_poll true (j :: running') ∅ p1 _ _ _ _
    (keeps_world _ _ (sleep_for (poll_ms opts) (world d2)) Hk2) ltac:(rewrite Hl1; multiset_solver) E3)
    as (p3 & Hk3 & Hl3 & [Ht3 _] & Hq & Hgo).
  rewrite (left_id_L ∅ (⊎)) in Hl3. destruct failed; [intros E4; eapply Hleave; eauto; done|].
  apply IH with (p := p3); auto; [by rewrite Hgo|]. rewrite Ht3.
  destruct Hat1 as [->|[? _]]; [by left|done].
Qed.
Lemma keeps_run_groups fuel b groups p d res d' :
  dry_run opts = false ->
  keeps p d -> live p = ∅ -> causes p = [] -> drop_done (todo p) = drop_done (group_ids b <$> groups) ->
  run_groups opts fuel b groups d = (res, d') ->
  exists p', keeps p' d' /\ ends_as res [] p'.
Proof.
  intros Hdry. revert p d. induction groups as [|group groups IH]; intros p d Hk Hl Hc Ht; cbn [run_groups].
  { intros [= <- <-]. by exists p. }
  csimpl in Ht. destruct (group_ids b group) as [|id ids] eqn:Hg; [by apply (IH p)|].
  destruct (run_group opts fuel b (id :: ids) [] d) as [r d1] eqn:E1.
  destruct (keeps_run_group fuel b (id :: ids) (group_ids b <$> groups) [] p d r d1 Hdry Hk Hl Hc)
    as (p1 & Hk1 & He1); [by right|exact E1|].
  destruct r as [[]|]; [|intros [= <- <-]; by exists p1..].
  destruct He1 as (Hl1 & Hc1 & Ht1). by apply (IH p1).
Qed.

Lemma keeps_report_listing p l d : keeps p d -> keeps p (report_listing l d).
Proof.
  intros Hk. unfold report_listing. cbv zeta.
  assert (Hfold : forall ms e, keeps p e ->
    keeps p (foldl (fun d m => emit (NotForHere (m_specId m) (m_status m)) d) e ms)).
  { intros ms. induction ms as [|m ms IH]; intros e He; [done|]. simpl. apply IH. by apply keeps_silent. }
  case_if; [|apply keeps_silent; [|done]]; apply Hfold;
    (destruct (List.filter _ _); [|apply keeps_silent; [|done]]); by apply keeps_silent.
Qed.
End Simulation.

(** ** The listing *)
Lemma index_lookup ms id m : index ms !! id = Some m -> m ∈ ms /\ m_specId m = id.
Proof.
  unfold index. rewrite <- (rev_involutive ms). induction (rev ms) as [|x l IH]; simpl; [done|].
  rewrite foldl_app. simpl. rewrite lookup_insert_Some. intros [[<- <-]|[_ Hm]]; [set_solver|].
  apply IH in Hm as [? ?]. set_solver.
Qed.

Lemma count_status_zero f ms m : count_status f ms = 0%nat -> m ∈ ms -> f (m_status m) = false.
Proof.
  unfold count_status. intros Hz%length_zero_iff_nil Hm. destruct (f (m_status m)) eqn:E; [|done].
  assert (Hin : m ∈ List.filter (fun m => f (m_status m)) ms) by (by apply elem_of_keep).
  rewrite Hz in Hin. set_solver.
Qed.

(** Nothing pending and nothing failed leaves nothing to start. *)
Lemma nothing_acted_on ms groups :
  (count_status (fun st => String.eqb st "pending") ms
   + count_status (fun st => String.eqb st "failed") ms)%nat = 0%nat ->
  drop_done (group_ids (index ms) <$> groups) = [].
Proof.
  intros Hz. induction groups as [|g groups IH]; [done|]. csimpl.
  replace (group_ids (index ms) g) with (@nil string); [done|]. symmetry. unfold group_ids.
  induction g as [|id g IHg]; [done|]. simpl. destruct (index ms !! id) as [m|] eqn:E; [|done].
  apply index_lookup in E as [Hm _]. unfold acted_on.
  rewrite (count_status_zero (fun st => String.eqb st "pending") ms) by (done || lia).
  by rewrite (count_status_zero (fun st => String.eqb st "failed") ms) by (done || lia).
Qed.

(** A run that may start jobs. *)
Definition acting (opts : DeployOptions) : bool :=
  negb (dry_run opts) && negb (chain opts) && negb (status_only opts).

(** The ids a listing has to run, by group. *)
Definition run_order (l : Listing) : list (list string) :=
  group_ids (index (l_migrations l)) <$> mjoin (l_order l).

Lemma run_keeps {W} `{Tools W} opts fuel w r d :
  acting opts = true -> run opts fuel (new_deployment w) = (r, d) ->
  let l := (list_migrations (directories opts) (manifest opts) w).1 in
  exists p, replay max_concurrent_jobs (protocol_start (run_order l)) (log d) = Some p
    /\ ends_as r [] p.
Proof.
  intros Hact E l. unfold acting in Hact. bool_prop. set (p0 := protocol_start (run_order l)).
  assert (Hk0 : keeps p0 p0 (new_deployment w)) by (by split).
  cut (exists p, keeps p0 p d /\ ends_as r [] p); [intros (p & [Hr _] & He); by exists p|].
  revert E. unfold run. destruct (call (list_migrations _ _) _) as [l' d1] eqn:E1.
  pose proof (keeps_call _ _ _ _ _ _ Hk0 E1) as Hk1.
  assert (l' = l) as ->.
  { unfold call in E1. simpl in E1. subst l. destruct (list_migrations _ _ w). by injection E1 as <- <-. }
  case_if; [intros [= <- <-]; exists (blame kConfigProblem p0); split; [by apply keeps_blame|simpl; set_solver]|].
  destruct (l_problems l) as [|pr prs].
  2:{ intros [= <- <-]. exists (blame kRepoProblem p0). split; [by apply keeps_blame|simpl; set_solver]. }
  cbv zeta. pose proof (keeps_report_listing _ _ l _ Hk1) as Hk2.
  match goal with Hs : status_only opts = false, Hc : chain opts = false, Hd : dry_run opts = false |- _ =>
    rewrite Hs, Hc, Hd; rename Hd into Hdry end.
  cbv iota. destruct (Nat.eqb _ 0) eqn:Hz.
  { intros [= <- <-]. exists p0. split; [done|]. split_and!; try done. apply nothing_acted_on.
    by apply Nat.eqb_eq. }
  destruct (run_groups opts fuel _ _ _) as [res d2] eqn:E2.
  destruct (keeps_run_groups opts p0 fuel _ _ p0 _ _ _ Hdry Hk2 eq_refl eq_refl eq_refl E2) as (p & Hk3 & He).
  destruct res as [[]|]; intros [= <- <-]; exists p; auto. split; [|done]. by apply keeps_silent.
Qed.

(** ** What a log that keeps the protocol says *)
Definition ended (es : list Event) (id : string) : Prop := exists job st, Ended id job st ∈ es.
Definition succeeded_in (es : list Event) (id : string) : Prop := exists job, Ended id job "succeeded" ∈ es.

(** Where a log has led: the groups before the current one have ended, what was
    started of the current one has ended or runs, and without a cause to stop
    every end was a success. *)
Record sofar (groups : list (list string)) (es : list Event) (p : Protocol) : Prop := {
  sf_place : (groups = [] /\ todo p = [])
    \/ exists before cur hd tl, todo p = hd :: tl /\ groups = before ++ (cur ++ hd) :: tl
       /\ (forall x, x ∈ mjoin before -> ended es x)
       /\ (forall x, x ∈ cur -> ended es x \/ exists job, (x, job) ∈ live p);
  sf_ok : causes p = [] -> forall id job st, Ended id job st ∈ es -> st = "succeeded";
}.

Lemma drop_done_split gs g gs' : drop_done gs = g :: gs' -> exists n, gs = replicate n [] ++ g :: gs'.
Proof.
  induction gs as [|[|x y] gs IH]; simpl; [done| |intros [= <- <-]; by exists 0%nat].
  intros [n ->]%IH. by exists (S n).
Qed.

Lemma drop_done_nil gs : drop_done gs = [] -> forall g, g ∈ gs -> g = [].
Proof. induction gs as [|[|x y] gs IH]; simpl; try done; set_solver. Qed.

Lemma mjoin_replicate_nil n (x : string) : x ∉ mjoin (replicate n (@nil string)).
Proof. induction n; simpl; set_solver. Qed.

Lemma ended_app es es' x : ended es x -> ended (es ++ es') x.
Proof. intros (job & st & He). exists job, st. set_solver. Qed.

(** The group a start is allowed in. *)
Lemma start_place cap groups es p id job p' :
  sofar groups es p -> protocol_step cap p (Started id job) = Some p' ->
  causes p = [] /\ Z.of_nat (size (live p)) < cap
  /\ live p' = live p ⊎ {[+ (id, job) +]} /\ causes p' = causes p
  /\ exists before cur g gs, todo p' = g :: gs /\ groups = before ++ (cur ++ id :: g) :: gs
     /\ (forall x, x ∈ mjoin before -> ended es x)
     /\ (forall x, x ∈ cur -> ended es x \/ exists job, (x, job) ∈ live p).
Proof.
  intros [Hp _] Hs. simpl in Hs.
  destruct (if decide (live p = ∅) then _ else _) as [|[|x g] gs] eqn:Hgs; [done|done|].
  destruct (bool_decide_reflect (causes p = [])) as [Hc|]; [|done]. cbn [andb] in Hs.
  destruct (Z.ltb_spec (Z.of_nat (size (live p))) cap); [|done]. cbn [andb] in Hs.
  destruct (String.eqb_spec x id) as [->|]; [|done]. injection Hs as <-. split_and!; try done.
  destruct Hp as [[_ Ht]|(before & cur & hd & tl & Ht & -> & Hb & Hcur)].
  { rewrite Ht in Hgs. by case_decide. }
  rewrite Ht in Hgs. destruct hd as [|y hd].
  - case_decide as Hlive; [|done]. simpl in Hgs. apply drop_done_split in Hgs as [n ->].
    exists (before ++ cur :: replicate n []), [], g, gs. split_and!; [done| | |set_solver].
    + by rewrite app_nil_r, <- app_assoc.
    + intros x. rewrite join_app. simpl. rewrite !elem_of_app. intros [Hx|[Hx|Hx]]; [auto| |].
      * destruct (Hcur x Hx) as [|[j Hj]]; [done|]. rewrite Hlive in Hj. multiset_solver.
      * by apply mjoin_replicate_nil in Hx.
  - assert (Heq : (y :: hd) :: tl = (id :: g) :: gs) by (by case_decide).
    injection Heq as -> -> ->. by exists before, cur, g, gs.
Qed.

Lemma sofar_step cap groups es p e p' :
  sofar groups es p -> protocol_step cap p e = Some p' -> sofar groups (es ++ [e]) p'.
Proof.
  intros Hsf He.
  assert (Hquiet : (forall id job st, e <> Ended id job st) -> todo p' = todo p -> live p' = live p ->
    (causes p' = [] -> causes p = []) -> sofar groups (es ++ [e]) p').
  { destruct Hsf as [Hp Hok]. intros Hne Ht Hl Hc. split.
    - rewrite Ht, Hl. destruct Hp as [|(before & cur & hd & tl & H1 & H2 & H3 & H4)]; [by left|right].
      exists before, cur, hd, tl. split_and!; auto using ended_app.
      intros x Hx. destruct (H4 x Hx); auto using ended_app.
    - intros Hn id job st. rewrite elem_of_app, list_elem_of_singleton.
      intros [Hin| <-]; [by eapply Hok; auto|]. by destruct (Hne id job st). }
  destruct e; try (simpl in He; injection He as <-; apply Hquiet; try done; by intros [_ [=]]%app_nil).
  - destruct (start_place _ _ _ _ _ _ _ Hsf He) as (Hc & _ & Hl & Hc' & before & cur & g & gs & H1 & H2 & H3 & H4).
    split; [right|].
    + exists before, (cur ++ [id]), g, gs. split_and!; auto using ended_app; [by rewrite <- app_assoc|].
      intros x. rewrite elem_of_app, list_elem_of_singleton, Hl. intros [Hx| ->].
      * destruct (H4 x Hx) as [|[j Hj]]; [left; by apply ended_app|right; exists j; multiset_solver].
      * right. exists job. multiset_solver.
    + intros _ i j st. rewrite elem_of_app, list_elem_of_singleton. intros [Hin|[=]].
      by eapply (sf_ok _ _ _ Hsf).
  - simpl in He. case_if_in He; [|done]. injection He as <-. bool_prop. destruct Hsf as [Hp Hok]. split; simpl.
    + destruct Hp as [|(before & cur & hd & tl & H1 & H2 & H3 & H4)]; [by left|right].
      exists before, cur, hd, tl. split_and!; auto using ended_app.
      intros x Hx. destruct (H4 x Hx) as [|[j Hj]]; [left; by apply ended_app|].
      destruct (decide ((x, j) = (id, job))) as [[= -> ->]|Hn]; [left; exists job, state; set_solver|].
      right. exists j. multiset_solver.
    + intros [Hc1 Hc2]%app_nil i j st. rewrite elem_of_app, list_elem_of_singleton.
      intros [Hin|[= -> -> ->]]; [by eapply Hok|]. by destruct (String.eqb_spec state "succeeded").
Qed.

Lemma replay_sofar cap groups es p :
  replay cap (protocol_start groups) es = Some p -> sofar groups es p.
Proof.
  revert p. induction es as [|e es IH] using rev_ind; intros p.
  - intros [= <-]. split; [|set_solver]. destruct groups as [|g gs]; [by left|right].
    exists [], [], g, gs. split_and!; try done; set_solver.
  - rewrite replay_snoc. destruct (replay cap (protocol_start groups) es) as [q|]; [|done].
    intros He. eapply sofar_step; [by apply IH|exact He].
Qed.

(** A job is started only when every id of the groups before its own has
    succeeded, with room for it, and with nothing wrong so far. *)
Lemma started_in_order cap groups pre id job post p :
  replay cap (protocol_start groups) (pre ++ Started id job :: post) = Some p ->
  exists q before g after, replay cap (protocol_start groups) pre = Some q
    /\ causes q = [] /\ Z.of_nat (size (live q)) < cap
    /\ groups = before ++ g :: after /\ id ∈ g /\ forall x, x ∈ mjoin before -> succeeded_in pre x.
Proof.
  rewrite replay_app. destruct (replay cap (protocol_start groups) pre) as [q|] eqn:Eq; [|done].
  pose proof (replay_sofar _ _ _ _ Eq) as Hsf. cbn [mbind option_bind]. unfold replay. cbn [foldl mbind option_bind].
  destruct (protocol_step cap q (Started id job)) as [q'|] eqn:Es.
  2:{ intros Hn. exfalso. clear -Hn. induction post; [done|]. by apply IHpost. }
  intros _. destruct (start_place _ _ _ _ _ _ _ Hsf Es) as (Hc & Hcap & _ & _ & before & cur & g & gs & _ & Hg & Hb & _).
  exists q, before, (cur ++ id :: g), gs. split_and!; auto; [set_solver|].
  intros x Hx. destruct (Hb x Hx) as (j & st & Hin). exists j. by rewrite <- (sf_ok _ _ _ Hsf Hc _ _ _ Hin).
Qed.

(** Nothing left to start, nothing running and nothing wrong: everything has
    succeeded. *)
Lemma sofar_done groups es p id :
  sofar groups es p -> live p = ∅ -> causes p = [] -> drop_done (todo p) = [] ->
  id ∈ mjoin groups -> succeeded_in es id.
Proof.
  intros [Hp Hok] Hl Hc Ht Hid.
  assert (He : ended es id).
  { destruct Hp as [[-> _]|(before & cur & hd & tl & H1 & -> & H3 & H4)]; [set_solver|].
    rewrite H1 in Ht. pose proof (drop_done_nil _ Ht) as Hnil.
    rewrite join_app in Hid. simpl in Hid. rewrite !elem_of_app in Hid.
    destruct Hid as [Hx|[[Hx|Hx]|Hx]]; [auto| | |].
    - destruct (H4 id Hx) as [|[j Hj]]; [done|]. rewrite Hl in Hj. multiset_solver.
    - rewrite (Hnil hd) in Hx by set_solver. set_solver.
    - apply list_elem_of_join in Hx as (l & Hx & Hin). rewrite (Hnil l) in Hx by set_solver. set_solver. }
  destruct He as (j & st & Hin). exists j. by rewrite <- (Hok Hc _ _ _ Hin).
Qed.

(** ** A world to deploy in

    Jobs that end after a number of polls, a signal at a time, and the limit
    startMigration holds each connection to (tools.h). *)
Record DemoWorld : Type := {
  dw_listing : Listing;
  dw_limits : gmap string Z;
  dw_script : string -> nat * string;
  dw_jobs : list (string * (nat * string));
  dw_clock : Z;
  dw_signal_at : option Z;
}.

Definition with_jobs (w : DemoWorld) (clock : Z) (js : list (string * (nat * string))) : DemoWorld :=
  {| dw_listing := dw_listing w; dw_limits := dw_limits w; dw_script := dw_script w; dw_jobs := js;
     dw_clock := clock; dw_signal_at := dw_signal_at w |}.

Definition demo_running (js : list (string * (nat * string))) : Z :=
  Z.of_nat (length (List.filter (fun j => negb (Nat.eqb j.2.1 0)) js)).

(** The connections' [max_concurrent_jobs]; the default connection's is [cap]. *)
Definition demo_start (cap : Z) (spec : json) (conn : string) (w : DemoWorld) : option string * DemoWorld :=
  if default cap (dw_limits w !! conn) <=? demo_running (dw_jobs w) then (None, w)
  else
    let job := "job of " +:+ match spec with JStr s => s | _ => "" end in
    let '(polls, last) := dw_script w job in
    (Some job, with_jobs w (dw_clock w) ((job, (Nat.min polls 9, last)) :: dw_jobs w)).

Definition demo_tools (cap : Z) : Tools DemoWorld :=
  {| max_concurrent_jobs := cap;
     list_migrations _ _ w := (dw_listing w, w);
     received w := (match dw_signal_at w with Some t => if t <=? dw_clock w then 15 else 0 | None => 0 end, w);
     stop_jobs w :=
       (demo_running (dw_jobs w),
        with_jobs w (dw_clock w) ((fun j => if Nat.eqb j.2.1 0 then j else (j.1, (1%nat, "cancelled"))) <$> dw_jobs w));
     sleep_for ms w := with_jobs w (dw_clock w + ms) ((fun j => (j.1, (pred j.2.1, j.2.2))) <$> dw_jobs w);
     now w := (dw_clock w, w);
     read_spec_file path w := (if String.eqb path "" then None else Some (JStr path), w);
     plan_migration _ _ w := ({| p_error := false; p_ok := true |}, w);
     start_migration := demo_start cap;
     job_status job w :=
       ((fun j => (j.1, {| j_state := if negb (Nat.eqb j.2.1 0) then "running"
                                       else if is_terminal j.2.2 then j.2.2 else "failed";
                           j_backfill := None; j_runningStep := None |})) <$> dw_jobs w, w);
     rehearse spec _ w :=
       (((match spec with JStr s => if String.eqb s "b" then "failed" else "rehearsed" | _ => "" end),
         {| p_error := false; p_ok := true |}), w);
     chain_end w := w |}.

Definition demo_options : DeployOptions :=
  {| repos := ["specs"]; repo := ""; manifest := ""; dry_run := false; chain := false;
     status_only := false; poll_ms := 500; progress_first_s := 10 |}.

Definition demo_migration (id conn : string) (deps : list string) : Migration :=
  {| m_specId := id; m_status := "pending"; m_connection := conn; m_path := id; m_dependsOn := deps |}.

(** Two specifications that may run together, then one that needs both. *)
Definition demo_listing : Listing :=
  {| l_error := false; l_problems := [];
     l_migrations := [demo_migration "a" "main" []; demo_migration "b" "other" [];
                      demo_migration "c" "main" ["a"; "b"]];
     l_order := [[["a"; "b"]]; [["c"]]] |}.

Definition demo_world (limits : gmap string Z) (script : string -> nat * string) (sig : option Z) : DemoWorld :=
  {| dw_listing := demo_listing; dw_limits := limits; dw_script := script; dw_jobs := [];
     dw_clock := 0; dw_signal_at := sig |}.

(** C22: Every run of a deployment that may start jobs keeps the protocol, in any
    world and however far it has got: jobs are started in the order of the
    groups, those of a group only when every job of the groups before it has
    ended, never more at once than the budget, and none after a start that was
    refused, a file that could not be read, a job that did not succeed or a
    signal. When it has returned, whatever the exit code, every job it started
    has been seen to end; exit code 0 means that everything there was to run
    was run and succeeded, and any other code has its cause in the log. *)
Theorem deployment_keeps_the_protocol {W} `{Tools W} opts fuel w r d :
  acting opts = true -> run opts fuel (new_deployment w) = (r, d) ->
  let groups := run_order (list_migrations (directories opts) (manifest opts) w).1 in
  exists p, replay max_concurrent_jobs (protocol_start groups) (log d) = Some p
    /\ (r <> None -> live p = ∅)
    /\ (r = Some kOk -> causes p = [] /\ forall id, id ∈ mjoin groups -> succeeded_in (log d) id)
    /\ (forall c, r = Some c -> c <> kOk -> c ∈ causes p).
Proof.
  intros Ha E. destruct (run_keeps opts fuel w r d Ha E) as (p & Hr & He). exists p. split; [exact Hr|].
  apply replay_sofar in Hr as Hsf. destruct r as [[]|]; simpl in He; split_and!; try naive_solver.
  intros _. destruct He as (Hl & Hc & Ht). split; [done|]. intros id Hid. by eapply sofar_done.
Qed.

(** [deployment_keeps_the_protocol]: [b] fails while [a] runs, so [a] is waited
    for, [c] is never started, and the exit code is 1. *)
Lemma deployment_keeps_the_protocol_witness :
  let script job := if String.eqb job "job of b" then (1%nat, "failed") else (3%nat, "succeeded") in
  let w := demo_world ∅ script None in
  let '(r, d) := run (H := demo_tools 2) demo_options 10 (new_deployment w) in
  (r, log d) = (Some kRefused,
                [Planned 3; Started "a" "job of a"; Started "b" "job of b"; Ended "b" "job of b" "failed";
                 Waiting 1; Ended "a" "job of a" "succeeded"])
  /\ exists p, replay 2 (protocol_start (run_order demo_listing)) (log d) = Some p /\ kRefused ∈ causes p.
Proof.
  intros script w. destruct (run _ _ _) as [r d] eqn:E.
  destruct (deployment_keeps_the_protocol (H := demo_tools 2) demo_options 10 w r d eq_refl E)
    as (p & Hr & _ & _ & Hc).
  vm_compute in E. injection E as <- <-. split; [done|]. exists p. split; [exact Hr|]. by apply Hc.
Defined.

(** ** Dependencies first *)

(** The index of a listing is the repository's own. *)
Lemma index_by_id path es d :
  d <> "" -> index (migration_of path <$> es) !! d = migration_of path <$> (by_id es !! d).
Proof.
  intros Hd. unfold index, by_id. rewrite <- (rev_involutive es).
  induction (rev es) as [|x l IH]; [cbn; by rewrite !lookup_empty|]. simpl.
  rewrite fmap_app, !foldl_app. simpl. destruct (String.eqb_spec (spec_id x) "") as [He|He].
  - rewrite lookup_insert_ne by (simpl; congruence). exact IH.
  - destruct (decide (spec_id x = d)) as [<-|Hn]; [by rewrite !lookup_insert_eq|].
    by rewrite !lookup_insert_ne by done.
Qed.

Lemma by_id_spec es d e : by_id es !! d = Some e -> e ∈ es /\ spec_id e = d /\ d <> "".
Proof.
  unfold by_id. rewrite <- (rev_involutive es). induction (rev es) as [|x l IH]; [cbn; by rewrite lookup_empty|].
  simpl. rewrite foldl_app. simpl. destruct (String.eqb_spec (spec_id x) "").
  - intros Hx%IH. set_solver.
  - rewrite lookup_insert_Some. intros [[<- <-]|[_ Hx%IH]]; set_solver.
Qed.

Lemma acted_on_runnable s : acted_on (status_to_string s) = is_runnable s.
Proof. by destruct s. Qed.

(** A level's groups have its ids. *)
Lemma level_groups_ids es level id :
  id ∈ mjoin (level_groups (by_id es) level) <-> id ∈ level /\ is_Some (by_id es !! id).
Proof.
  unfold level_groups. set (ready := omap (by_id es !!.) level).
  assert (Hr : forall e, e ∈ ready <-> spec_id e ∈ level /\ by_id es !! spec_id e = Some e).
  { intros e. unfold ready. rewrite list_elem_of_omap. split.
    - intros (x & Hx & He). pose proof (by_id_spec _ _ _ He) as (_ & <- & _). done.
    - intros [H1 H2]. by exists (spec_id e). }
  assert (Hp : forall e, e ∈ ready <-> exists g, e ∈ g /\ g ∈ parallel_subsets (length ready) ready).
  { intros e. rewrite <- list_elem_of_join. by rewrite parallel_subsets_perm. }
  rewrite list_elem_of_join. transitivity (exists e, e ∈ ready /\ spec_id e = id).
  - setoid_rewrite Hp. split.
    + intros (g & Hid & Hg). apply list_elem_of_fmap in Hg as (g' & -> & Hg).
      apply list_elem_of_fmap in Hid as (e & -> & He). by exists e; eauto.
    + intros (e & (g & He & Hg) & <-). exists (spec_id <$> g).
      split; [by apply list_elem_of_fmap_2|apply (list_elem_of_fmap_2 (map spec_id)); done].
  - setoid_rewrite Hr. split; [intros (e & [H1 H2] & <-); by eauto|].
    intros [H1 [e He]]. exists e. pose proof (by_id_spec _ _ _ He) as (_ & <- & _). by eauto.
Qed.

(** A group of a list of levels comes after every group of the levels before its own. *)
Lemma groups_split {A B} (f : A -> list B) ls before g after :
  mjoin (f <$> ls) = before ++ g :: after ->
  exists i l, ls !! i = Some l /\ g ∈ f l
    /\ forall j l' g', (j < i)%nat -> ls !! j = Some l' -> g' ∈ f l' -> g' ∈ before.
Proof.
  revert before. induction ls as [|l ls IH]; intros before Hj; csimpl in Hj; [by destruct before|].
  change (mjoin (f l :: (f <$> ls))) with (f l ++ mjoin (f <$> ls)) in Hj.
  apply app_eq_inv in Hj as [(k & H1 & H2)|(k & H1 & H2)].
  - destruct k as [|x k].
    + destruct (IH [] ltac:(by rewrite H2)) as (i & l' & Hi & Hg & Hb). exists (S i), l'. split_and!; auto.
      intros [|j] l0 g' Hji Hl0 Hg'; [|exfalso; by apply (Hb j l0 g') in Hg'; [set_solver|lia|]].
      injection Hl0 as <-. by rewrite H1, app_nil_r in Hg'.
    + injection H2 as <- H2. exists 0%nat, l. split_and!; [done|rewrite H1; set_solver|lia].
  - destruct (IH k H2) as (i & l' & Hi & Hg & Hb). exists (S i), l'. split_and!; auto.
    intros [|j] l0 g' Hji Hl0 Hg'; [injection Hl0 as <-; set_solver|].
    assert (g' ∈ k) by (apply (Hb j l0); [lia|done..]). set_solver.
Qed.

Lemma scanned_ids registry dc analyze files :
  (forall s, Some s ∈ files -> si_id s <> "") ->
  NoDup (spec_id <$> List.filter (fun e => negb (String.eqb (spec_id e) "")) (scanned registry dc analyze files)).
Proof.
  intros Hid. destruct (read_files_ids registry dc files ∅ Hid) as [_ Hnd].
  unfold scanned. destruct analyze as [f|]; [|exact Hnd]. revert Hnd.
  generalize (read_files registry dc ∅ files).1. intros es. cut (forall es,
    spec_id <$> List.filter (fun e => negb (String.eqb (spec_id e) "")) (derive f <$> es)
    = spec_id <$> List.filter (fun e => negb (String.eqb (spec_id e) "")) es); [by intros ->|].
  clear. induction es as [|e es IH]; [done|]. csimpl. destruct (derive_same f e) as (-> & _).
  case_if; csimpl; [|exact IH]. rewrite IH. f_equal. by destruct (derive_same f e).
Qed.

(** One entry to an id. *)
Lemma by_id_unique es d e e' :
  NoDup (spec_id <$> List.filter (fun e => negb (String.eqb (spec_id e) "")) es) ->
  by_id es !! d = Some e -> e' ∈ es -> spec_id e' = d -> e' = e.
Proof.
  intros Hnd (Hin & He & Hne)%by_id_spec Hin' He'.
  assert (Hkeep : forall x, x ∈ es -> spec_id x = d ->
    x ∈ List.filter (fun e => negb (String.eqb (spec_id e) "")) es).
  { intros x Hx Hd. apply elem_of_keep. split; [|done]. rewrite Hd. by destruct (String.eqb_spec d ""). }
  apply (Hkeep e Hin) in He as Hk. apply (Hkeep e' Hin') in He' as Hk'. clear Hkeep.
  apply list_elem_of_lookup in Hk as [i Hi]. apply list_elem_of_lookup in Hk' as [j Hj].
  assert (i = j) as <-; [|congruence].
  eapply NoDup_lookup; [exact Hnd|by rewrite list_lookup_fmap, Hi|rewrite list_lookup_fmap, Hj; simpl; congruence].
Qed.

(** A runnable id of an earlier level is in an earlier group. *)
Lemma earlier_level_group registry dc analyze files path ls ps es (before : list (list string)) j l' dep e :
  (forall s, Some s ∈ files -> si_id s <> "") ->
  es = scanned registry dc analyze files ->
  levels_ok (by_id es) ∅ (runnable es) ls ps ->
  (forall g', g' ∈ (group_ids (index (migration_of path <$> es)) <$> level_groups (by_id es) l') -> g' ∈ before) ->
  ls !! j = Some l' -> dep ∈ l' -> by_id es !! dep = Some e -> dep ∈ mjoin before.
Proof.
  intros Hid Hes Hlo Hb Hl' Hdep He.
  assert (Hin : dep ∈ mjoin (level_groups (by_id es) l')) by (apply level_groups_ids; eauto).
  apply list_elem_of_join in Hin as (g & Hg & Hgs). apply list_elem_of_join.
  exists (group_ids (index (migration_of path <$> es)) g).
  split; [|apply Hb; by apply list_elem_of_fmap_2].
  apply elem_of_keep. split; [|done]. destruct (by_id_spec _ _ _ He) as (_ & _ & Hne).
  rewrite index_by_id, He by done. simpl. rewrite acted_on_runnable.
  assert (Hrun : dep ∈ runnable es).
  { apply (lo_sub _ _ _ _ _ Hlo). apply list_elem_of_join. exists l'. split; [done|].
    by eapply list_elem_of_lookup_2. }
  apply list_elem_of_fmap in Hrun as (e' & Hid' & Hin'). apply elem_of_keep in Hin' as [Hr Hin'].
  replace e with e'; [done|]. eapply by_id_unique; [|exact He|done|done].
  rewrite Hes. by apply scanned_ids.
Qed.

(** C23: Dependencies first. A deployment of a repository starts a specification
    only after every specification it depends on and that the repository has is
    applied already or has been reported as succeeded by this run, whatever the
    jobs, the files and the signals do in between. *)
Theorem dependencies_succeed_first {W} `{Tools W} registry dc analyze complete_ files path opts fuel w w' ls ps :
  (forall s, Some s ∈ files -> si_id s <> "") ->
  scan registry dc analyze complete_ files = Some (ls, ps) ->
  let es := scanned registry dc analyze files in
  list_migrations (directories opts) (manifest opts) w = (repository_listing path es ls ps, w') ->
  acting opts = true ->
  forall pre id job post dep e,
  log (run opts fuel (new_deployment w)).2 = pre ++ Started id job :: post ->
  dep ∈ deps (by_id es) id -> by_id es !! dep = Some e ->
  status e = kApplied \/ succeeded_in pre dep.
Proof.
  intros Hid Hscan es Hlist Hact pre id job post dep e Hlog Hdep He.
  destruct (run opts fuel (new_deployment w)) as [r d] eqn:Erun.
  destruct (run_keeps opts fuel w r d Hact Erun) as (p & Hr & _). simpl in Hlog. rewrite Hlog, Hlist in Hr.
  destruct (started_in_order _ _ _ _ _ _ _ Hr) as (_ & before & g & after & _ & _ & _ & Hgs & Hin & Hb).
  destruct (levels_correct (by_id es) (length (runnable es)) ∅ (runnable es)) as (ls' & ps' & Hls & Hlo);
    [done|by apply scanned_NoDup|apply by_id_covers|set_solver|].
  assert (ls' = ls) as ->.
  { revert Hscan. unfold scan. subst es. unfold scanned in Hls |- *.
    destruct (read_files registry dc ∅ files) as [es0 copies]. simpl in *. unfold assemble.
    rewrite Hls. cbn. by intros [= <- _]. }
  set (f l := group_ids (index (migration_of path <$> es)) <$> level_groups (by_id es) l).
  assert (Hf : mjoin (f <$> ls) = before ++ g :: after).
  { rewrite <- Hgs. unfold run_order. simpl. clear. induction ls as [|l ls IH]; [done|]. csimpl.
    change (mjoin (f l :: (f <$> ls))) with (f l ++ mjoin (f <$> ls)). rewrite IH. symmetry.
    change (mjoin (?x :: ?y)) with (x ++ mjoin y). apply fmap_app. }
  destruct (groups_split f ls before g after Hf) as (i & l & Hi & Hg & Hbefore).
  assert (Hidl : id ∈ l).
  { apply list_elem_of_fmap in Hg as (g0 & -> & Hg0). apply elem_of_keep in Hin as [_ Hin].
    apply (level_groups_ids es l id). apply list_elem_of_join. by exists g0. }
  destruct (lo_deps _ _ _ _ _ Hlo i l id dep e Hi Hidl Hdep He) as [|[Hx|(j & l' & Hj & Hl' & Hin')]];
    [by left|set_solver|right].
  apply Hb. eapply earlier_level_group; [exact Hid|done|exact Hlo| |exact Hl'|exact Hin'|exact He].
  intros g' Hg'. by apply (Hbefore j l').
Qed.

(** [dependencies_succeed_first]: the second of a chain of two, whose first is applied by this run. *)
Lemma dependencies_succeed_first_witness :
  let files := [Some (demo_spec "0003" ["0002"]); Some (demo_spec "0002" []); Some (demo_spec "0001" [])] in
  let reg := {[ "main" := demo_view ]} in
  let w := {| dw_listing := repository_listing (fun id => id) (scanned reg "main" None files) [["0002"]; ["0003"]] [];
              dw_limits := ∅; dw_script := fun _ => (1%nat, "succeeded"); dw_jobs := []; dw_clock := 0;
              dw_signal_at := None |} in
  let pre := [Planned 2; Started "0002" "job of 0002"; Ended "0002" "job of 0002" "succeeded"] in
  log (run (H := demo_tools 2) demo_options 10 (new_deployment w)).2
  = pre ++ Started "0003" "job of 0003" :: [Ended "0003" "job of 0003" "succeeded"; Applied 2 0]
  /\ (kPending = kApplied \/ succeeded_in pre "0002").
Proof.
  intros files reg w pre.
  assert (Hid : forall s, Some s ∈ files -> si_id s <> "").
  { intros s Hs. repeat (apply elem_of_cons in Hs as [[= ->]|Hs]; [done|]). by apply not_elem_of_nil in Hs. }
  assert (Hscan : scan reg "main" None false files = Some ([["0002"]; ["0003"]], [])) by (by vm_compute).
  assert (Hdep : "0002" ∈ deps (by_id (scanned reg "main" None files)) "0003") by (vm_compute; constructor).
  assert (He : by_id (scanned reg "main" None files) !! "0002" = Some (read_entry reg "main" (demo_spec "0002" [])))
    by (by vm_compute).
  assert (Hlog : log (run (H := demo_tools 2) demo_options 10 (new_deployment w)).2
    = pre ++ Started "0003" "job of 0003" :: [Ended "0003" "job of 0003" "succeeded"; Applied 2 0])
    by (by vm_compute).
  split; [exact Hlog|].
  exact (dependencies_succeed_first (H := demo_tools 2) reg "main" None false files (fun id => id)
    demo_options 10 w w _ _ Hid Hscan eq_refl eq_refl pre "0003" "job of 0003" _ "0002" _ Hlog Hdep He).
Defined.
