(* ===== verification/DeployEnds.v ===== *)
(** * DeployEnds: a deployment ends, and what a rehearsed chain shows

    That a run returns where its jobs end, with a bound on its turns; what the
    lines and the exit code of a chain rehearsal mean; and a budget that is read
    from another connection than the one a job runs on. *)
From S2P Require Import Prelude Json Repository RepositoryFacts Deploy DeployFacts.

(** ** A deployment ends *)

(** What is asked of the world: a job that was started ends. [ends w] is the
    number of pauses after which every job known in [w] is terminal; only a start
    may raise it, and never above [longest]. A signal that was seen stays. *)
Class JobsEnd (W : Type) `{Tools W} : Type := {
  ends : W -> nat;
  longest : nat;
  known : W -> gset string;
  received_stays w z w' : received w = (z, w') -> z <> 0 -> (received w').1 <> 0;
  received_keeps w z w' : received w = (z, w') -> (ends w' <= ends w)%nat /\ known w ⊆ known w';
  stop_keeps w z w' : stop_jobs w = (z, w') -> (ends w' <= ends w)%nat /\ known w ⊆ known w';
  now_keeps w z w' : now w = (z, w') -> (ends w' <= ends w)%nat /\ known w ⊆ known w';
  read_keeps p w z w' : read_spec_file p w = (z, w') -> (ends w' <= ends w)%nat /\ known w ⊆ known w';
  plan_keeps s c w z w' : plan_migration s c w = (z, w') -> (ends w' <= ends w)%nat /\ known w ⊆ known w';
  list_keeps ds m w z w' : list_migrations ds m w = (z, w') -> (ends w' <= ends w)%nat /\ known w ⊆ known w';
  status_keeps j w z w' : job_status j w = (z, w') -> (ends w' <= ends w)%nat /\ known w ⊆ known w';
  sleep_keeps ms w : (ends (sleep_for ms w) <= pred (ends w))%nat /\ known w ⊆ known (sleep_for ms w);
  start_keeps s c w z w' : start_migration s c w = (z, w') -> (ends w <= longest)%nat ->
    (ends w' <= longest)%nat /\ known w ⊆ known w' /\ (z = None -> ends w' <= ends w)%nat
    /\ forall job, z = Some job -> job ∈ known w';
  status_ends j w l w' : job_status j w = (l, w') -> ends w = 0%nat -> j ∈ known w ->
    exists st, List.find (fun x => String.eqb x.1 j) l = Some (j, st) /\ is_terminal (j_state st) = true;
}.

Section Ends.
Context {W : Type} `{JobsEnd W} (opts : DeployOptions).
Implicit Types d : Deployment W.

(** The world has not got further from the end, and forgets no job. *)
Definition no_later d d' : Prop :=
  (ends (world d') <= ends (world d))%nat /\ known (world d) ⊆ known (world d').

#[local] Instance no_later_preorder : PreOrder no_later.
Proof. split; [by split|]. intros d1 d2 d3 [? ?] [? ?]. split; [lia|set_solver]. Qed.

Lemma no_later_call {A} (f : W -> A * W) d a d' :
  (forall w z w', f w = (z, w') -> (ends w' <= ends w)%nat /\ known w ⊆ known w') ->
  call f d = (a, d') -> no_later d d'.
Proof. unfold call. intros Hf. destruct (f (world d)) as [a' w'] eqn:E. intros [= <- <-]. exact (Hf _ _ _ E). Qed.

Lemma no_later_signal d b d' : stop_on_signal d = (b, d') -> no_later d d'.
Proof.
  unfold stop_on_signal. destruct (call received d) as [sig d1] eqn:E1.
  apply (no_later_call _ _ _ _ received_keeps) in E1.
  case_if; [by intros [= <- <-]|]. destruct (stop_said d1); [by intros [= <- <-]|].
  destruct (call stop_jobs _) as [asked d2] eqn:E2. apply (no_later_call _ _ _ _ stop_keeps) in E2.
  intros [= <- <-]. etrans; [exact E1|exact E2].
Qed.

Lemma no_later_progress id job st d : no_later d (report_progress opts id job st d).
Proof.
  unfold report_progress. cbv zeta. case_if; [reflexivity|].
  destruct (call now d) as [t d1] eqn:E1. apply (no_later_call _ _ _ _ now_keeps) in E1.
  case_if; exact E1.
Qed.

Lemma no_later_snapshot job d st d' : snapshot job d = (st, d') -> no_later d d'.
Proof.
  unfold snapshot. destruct (call (job_status job) d) as [l d1] eqn:E1.
  apply (no_later_call _ _ _ _ (status_keeps job)) in E1. by intros [= _ <-].
Qed.

Lemma snapshot_terminal job d st d' :
  snapshot job d = (st, d') -> ends (world d) = 0%nat -> job ∈ known (world d) -> is_terminal (j_state st) = true.
Proof.
  unfold snapshot, call. destruct (job_status job (world d)) as [l w] eqn:E. intros [= <- _] He Hk.
  destruct (status_ends job (world d) l w E He Hk) as (st & Hf & Ht). by rewrite Hf.
Qed.

(** The jobs that are watched are known. *)
Definition watched (running : list (string * string)) d : Prop :=
  forall j, j ∈ running -> j.2 ∈ known (world d).

Lemma watched_later running d d' : watched running d -> no_later d d' -> watched running d'.
Proof. intros Hw [_ Hk] j Hj. apply Hk, Hw, Hj. Qed.

Lemma poll_ends stop running d quit kept d' :
  watched running d -> poll opts stop running d = (quit, kept, d') ->
  no_later d d' /\ watched kept d' /\ (length kept <= length running)%nat
  /\ (ends (world d) = 0%nat -> quit = false -> kept = []).
Proof.
  revert d quit kept d'. induction running as [|[id job] rest IH]; intros d quit kept d' Hw; cbn [poll].
  { intros [= <- <- <-]. split_and!; try done. }
  destruct (snapshot job d) as [st d1] eqn:E1. pose proof (no_later_snapshot _ _ _ _ E1) as Hn1.
  assert (Hrest : watched rest d1) by (eapply watched_later; [|exact Hn1]; intros j Hj; apply Hw; set_solver).
  destruct (is_terminal (j_state st)) eqn:Ht; cbn [negb].
  - case_if.
    + intros [= <- <- <-]. split_and!; simpl; auto; done.
    + intros E2. destruct (IH (emit (Ended id job (j_state st)) d1) _ _ _ Hrest E2) as (H1 & H2 & H3 & H4). simpl.
      split; [etrans; [exact Hn1|exact H1]|]. split; [done|]. split; [clear -H3; lia|].
      intros He Hq. apply H4; [|done]. destruct Hn1 as [Hn1 _]. clear -He Hn1. simpl. lia.
  - destruct (poll opts stop rest _) as [[q k] d2] eqn:E2. intros [= <- <- <-].
    pose proof (no_later_progress id job st d1) as Hn2.
    destruct (IH _ _ _ _ (watched_later _ _ _ Hrest Hn2) E2) as (H1 & H2 & H3 & _).
    assert (Hall : no_later d d2) by (do 2 (etrans; [eassumption|]); done).
    split_and!; simpl; [done| |lia|].
    + intros j [->|Hj]%elem_of_cons; [|by apply H2]. apply (watched_later _ _ _ Hw Hall). set_solver.
    + intros He _. rewrite (snapshot_terminal _ _ _ _ E1 He) in Ht; [done|]. apply (Hw (id, job)). set_solver.
Qed.

Lemma poll_goes_on running d quit kept d' : poll opts false running d = (quit, kept, d') -> quit = false.
Proof.
  revert d kept. induction running as [|[id job] rest IH]; intros d kept; cbn [poll].
  - by intros [= <- _ _].
  - destruct (snapshot job d) as [st d1]. case_if; [|rewrite andb_false_r; apply IH].
    destruct (poll opts false rest _) as [[q k] d2] eqn:E. intros [= <- _ <-]. by eapply IH.
Qed.

Lemma sleep_later d : no_later d (with_world d (sleep_for (poll_ms opts) (world d)))
  /\ (ends (sleep_for (poll_ms opts) (world d)) <= pred (ends (world d)))%nat.
Proof. destruct (sleep_keeps (poll_ms opts) (world d)) as [H1 H2]. split; [split; simpl; [lia|done]|done]. Qed.

Lemma drain_loop_ends fuel running d :
  watched running d -> (ends (world d) <= fuel)%nat -> (0 < fuel)%nat ->
  exists d', drain_loop opts fuel running d = (true, d') /\ no_later d d'.
Proof.
  revert running d. induction fuel as [|fuel IH]; intros running d Hw He Hf; [lia|].
  destruct running as [|j running]; [by exists d|]. cbn [drain_loop].
  destruct (stop_on_signal d) as [b d1] eqn:E1. pose proof (no_later_signal _ _ _ E1) as Hn1.
  destruct (sleep_later d1) as [Hn2 Hs]. destruct (poll opts false _ _) as [[q kept] d2] eqn:E2.
  assert (Hw2 : watched (j :: running) (with_world d1 (sleep_for (poll_ms opts) (world d1))))
    by (eapply watched_later; [exact Hw|by etrans]).
  destruct (poll_ends _ _ _ _ _ _ Hw2 E2) as (Hn3 & H2 & _ & H4).
  assert (Hn : no_later d d2) by (etrans; [exact Hn1|etrans; [exact Hn2|exact Hn3]]).
  destruct Hn1 as [Hn1 _], Hn3 as [Hn3 _]. simpl in Hn3.
  destruct fuel as [|fuel].
  - assert (kept = []) as -> by (apply H4; [simpl in *; lia|by eapply poll_goes_on]). by exists d2.
  - destruct (IH kept d2 H2 ltac:(simpl in *; lia) ltac:(lia)) as (d' & E & Hd). exists d'.
    split; [exact E|by etrans].
Qed.

Lemma leave_ends fuel r running d :
  watched running d -> (ends (world d) <= longest)%nat -> (longest < fuel)%nat ->
  exists d', leave opts fuel r running d = (Some r, d') /\ (ends (world d') <= longest)%nat.
Proof.
  intros Hw He Hf. unfold leave, drain. destruct running as [|j running]; [by exists d|].
  destruct (drain_loop_ends fuel (j :: running) (emit (Waiting (length (j :: running))) d) Hw
    ltac:(simpl; lia) ltac:(lia)) as (d' & -> & [Hd _]). exists d'. split; [done|]. simpl in Hd. lia.
Qed.

(** What the inner loop leaves: it has started something or found a reason not to. *)
Lemma start_loop_ends b ids running d turn d' :
  watched running d -> (ends (world d) <= longest)%nat -> start_loop opts b ids running d = (turn, d') ->
  match turn with
  | Go ids' running' =>
      watched running' d' /\ (ends (world d') <= longest)%nat /\ (length ids' <= length ids)%nat
      /\ (length ids' = length ids -> running' = running /\ no_later d d')
      /\ (ids' = [] \/ max_concurrent_jobs <= Z.of_nat (length running') \/ (received (world d')).1 <> 0)
  | Leave _ running' => watched running' d' /\ (ends (world d') <= longest)%nat
  | LeaveNow _ => (ends (world d') <= longest)%nat
  end.
Proof.
  revert running d. induction ids as [|id ids IH]; intros running d Hw He; cbn [start_loop].
  { intros [= <- <-]. split_and!; auto. by split. }
  destruct (Z.ltb_spec (Z.of_nat (length running)) max_concurrent_jobs) as [Hroom|Hfull]; cbn [negb].
  2:{ intros [= <- <-]. split_and!; auto. by split. }
  destruct (call received d) as [sig d1] eqn:E1. pose proof (no_later_call _ _ _ _ received_keeps E1) as Hn1.
  destruct (Z.eqb_spec sig 0) as [|Hsig]; cbn [negb].
  2:{ intros [= <- <-]. split_and!; auto; [by eapply watched_later|destruct Hn1; lia|right; right].
      unfold call in E1. destruct (received (world d)) as [z w'] eqn:Er. injection E1 as <- <-.
      by eapply received_stays. }
  cbv zeta. destruct (call (read_spec_file _) d1) as [spec d2] eqn:E2.
  assert (Hn2 : no_later d d2) by (etrans; [exact Hn1|exact (no_later_call _ _ _ _ (read_keeps _) E2)]).
  assert (He2 : (ends (world d2) <= longest)%nat) by (destruct Hn2; lia).
  pose proof (watched_later _ _ _ Hw Hn2) as Hw2. destruct spec as [spec|]; [|by intros [= <- <-]].
  assert (Hgo : forall running' d3, watched running' d3 -> (ends (world d3) <= longest)%nat ->
    start_loop opts b ids running' d3 = (turn, d') ->
    match turn with
    | Go ids' running' =>
        watched running' d' /\ (ends (world d') <= longest)%nat /\ (length ids' <= S (length ids))%nat
        /\ (length ids' = S (length ids) -> running' = running /\ no_later d d')
        /\ (ids' = [] \/ max_concurrent_jobs <= Z.of_nat (length running') \/ (received (world d')).1 <> 0)
    | Leave _ running' => watched running' d' /\ (ends (world d') <= longest)%nat
    | LeaveNow _ => (ends (world d') <= longest)%nat
    end).
  { intros running' d3 Hw3 He3 E. specialize (IH running' d3 Hw3 He3 E). destruct turn; auto.
    destruct IH as (? & ? & ? & _ & ?). split_and!; auto; lia. }
  destruct (dry_run opts).
  - destruct (call (plan_migration _ _) d2) as [plan d3] eqn:E3.
    pose proof (no_later_call _ _ _ _ (plan_keeps _ _) E3) as Hn3.
    assert (He3 : (ends (world d3) <= longest)%nat) by (destruct Hn3; lia).
    pose proof (watched_later _ _ _ Hw2 Hn3) as Hw3. unfold report_plan_outcome.
    repeat case_if; try (by intros [= <- <-]); apply Hgo; done.
  - destruct (call (start_migration _ _) d2) as [started d3] eqn:E3. unfold call in E3.
    destruct (start_migration _ _ (world d2)) as [z w'] eqn:Es. injection E3 as <- <-.
    destruct (start_keeps _ _ _ _ _ Es He2) as (H1 & H2 & _ & H4). destruct z as [job|].
    + apply Hgo; [|exact H1]. intros j [Hj| ->%list_elem_of_singleton]%elem_of_app; [apply H2, Hw2, Hj|by apply H4].
    + intros [= <- <-]. split; [|done]. intros j Hj. apply H2, Hw2, Hj.
Qed.

(** What is left of a group: ids to start, the jobs' ends, and looking at them. *)
Definition group_measure (ids : list string) (running : list (string * string)) d : nat :=
  (length ids * (longest + 3) + ends (world d) + match running with [] => 0 | _ => 1 end)%nat.

Lemma received_quiet d d' : stop_on_signal d = (false, d') -> (received (world d)).1 = 0.
Proof.
  unfold stop_on_signal, call. destruct (received (world d)) as [z w'] eqn:E. simpl.
  destruct (Z.eqb_spec z 0); [done|]. destruct (stop_said d); [done|].
  by destruct (stop_jobs _).
Qed.

Lemma run_group_ends fuel b ids running d :
  1 <= max_concurrent_jobs -> watched running d -> (ends (world d) <= longest)%nat ->
  (group_measure ids running d + longest + 2 <= fuel)%nat ->
  exists r d', run_group opts fuel b ids running d = (Some r, d') /\ (ends (world d') <= longest)%nat.
Proof.
  intros Hcap. revert ids running d. induction fuel as [|fuel IH]; intros ids running d Hw He Hf; [lia|].
  destruct (decide (ids = [] /\ running = [])) as [[-> ->]|Hne]; [by exists kOk, d|].
  rewrite run_group_turn by done. destruct (start_loop opts b ids running d) as [turn d1] eqn:E1.
  pose proof (start_loop_ends _ _ _ _ _ _ Hw He E1) as Ht.
  destruct turn as [ids' running'|r running'|r]; [|destruct Ht as [H1 H2]; exists r; by apply leave_ends; [..|lia]|by exists r, d1].
  destruct Ht as (Hw1 & He1 & Hlen & Hsame & Hwhy).
  destruct (stop_on_signal d1) as [stop d2] eqn:E2. pose proof (no_later_signal _ _ _ E2) as Hn2.
  assert (He2 : (ends (world d2) <= longest)%nat) by (destruct Hn2; lia).
  pose proof (watched_later _ _ _ Hw1 Hn2) as Hw2.
  destruct stop; [exists kInterrupted; by apply leave_ends; [..|lia]|].
  apply received_quiet in E2.
  assert (Hwhy' : ids' = [] \/ running' <> []).
  { destruct Hwhy as [|[Hc|]]; [by left|right|done]. intros ->. simpl in Hc. lia. }
  destruct running' as [|j running'].
  { destruct Hwhy' as [->|]; [|done]. exists kOk, d2. split; [by destruct fuel|done]. }
  destruct (sleep_later d2) as [Hn3 Hs]. cbv zeta.
  destruct (poll opts true (j :: running') _) as [[failed kept] d3] eqn:E3.
  pose proof (watched_later _ _ _ Hw2 Hn3) as Hw2'.
  destruct (poll_ends _ _ _ _ _ _ Hw2' E3) as ([Hn4 _] & Hw3 & Hk & Hempty).
  assert (He3 : (ends (world d3) <= pred (ends (world d2)))%nat) by (simpl in Hn4; lia).
  destruct failed; [exists kRefused; apply leave_ends; [done|lia|lia]|].
  apply IH; [done|lia|]. unfold group_measure in *. destruct Hn2 as [Hn2 _].
  destruct (decide (length ids' = length ids)) as [Heq|Hlt]; [|destruct kept, running; nia].
  destruct (Hsame Heq) as [<- [Hn1 _]]. rewrite Heq.
  destruct (decide (ends (world d2) = 0%nat)) as [Hz|Hnz]; [|destruct kept; lia].
  rewrite (Hempty ltac:(simpl; lia) eq_refl). simpl. lia.
Qed.

Lemma run_groups_ends fuel b groups d :
  1 <= max_concurrent_jobs -> (ends (world d) <= longest)%nat ->
  (length (mjoin groups) * (longest + 3) + 2 * longest + 3 <= fuel)%nat ->
  exists r d', run_groups opts fuel b groups d = (Some r, d').
Proof.
  intros Hcap. revert d. induction groups as [|g groups IH]; intros d He Hf; [by exists kOk, d|].
  cbn [run_groups]. change (mjoin (g :: groups)) with (g ++ mjoin groups) in Hf. rewrite length_app in Hf.
  pose proof (List.filter_length_le (fun id => match b !! id with
    | Some m => acted_on (m_status m) | None => false end) g) as Hg. fold (group_ids b g) in Hg.
  destruct (group_ids b g) as [|id ids]; [apply IH; [done|nia]|].
  destruct (run_group_ends fuel b (id :: ids) [] d Hcap) as (r & d1 & -> & He1).
  - intros j Hj. by apply not_elem_of_nil in Hj.
  - done.
  - unfold group_measure. nia.
  - destruct r; try (eexists _, _; reflexivity). apply IH; [done|nia].
Qed.
End Ends.

Lemma report_listing_world {W} `{Tools W} l (d : Deployment W) : world (report_listing l d) = world d.
Proof.
  unfold report_listing. cbv zeta.
  assert (Hfold : forall ms (e : Deployment W),
    world (foldl (fun d m => emit (NotForHere (m_specId m) (m_status m)) d) e ms) = world e)
    by (intros ms; induction ms as [|m ms IH]; intros e; [done|]; simpl; by rewrite IH).
  case_if; simpl; rewrite Hfold; by destruct (List.filter _ _).
Qed.

(** C29: A deployment ends. Where every job ends some time after it was started
    and at least one may run at a time, a run of any listing returns an exit
    code after a number of turns that the number of specifications and the
    longest job bound. *)
Theorem deployment_ends {W} `{JobsEnd W} opts fuel w :
  1 <= max_concurrent_jobs -> (ends w <= longest)%nat ->
  let l := (list_migrations (directories opts) (manifest opts) w).1 in
  (length (mjoin (mjoin (l_order l))) * (longest + 3) + 2 * longest + 3 <= fuel)%nat ->
  exists r d, run opts fuel (new_deployment w) = (Some r, d).
Proof.
  intros Hcap He l Hf. unfold run. destruct (call (list_migrations _ _) _) as [l' d1] eqn:E1.
  pose proof (no_later_call _ _ _ _ (list_keeps _ _) E1) as [Hn _]. simpl in Hn.
  assert (l' = l) as ->.
  { unfold call in E1. simpl in E1. subst l. destruct (list_migrations _ _ w). by injection E1 as <- <-. }
  case_if; [by eauto|]. destruct (l_problems l); [|by eauto]. cbv zeta.
  case_if; [by eauto|]. case_if; [by eauto|]. case_if; [destruct (run_chain l _ _); by eauto|].
  destruct (run_groups_ends opts fuel (index (l_migrations l)) (mjoin (l_order l)) (report_listing l d1))
    as (r & d & ->); [done|rewrite report_listing_world; lia|done|]. destruct r; by eauto.
Qed.

Definition demo_ends (js : list (string * (nat * string))) : nat := list_max ((fun j => j.2.1) <$> js).

(** The jobs of the demonstration end: none takes more than nine polls. *)
#[local] Instance demo_jobs_end (cap : Z) : @JobsEnd DemoWorld (demo_tools cap).
Proof.
  refine {| ends w := demo_ends (dw_jobs w); longest := 9; known w := list_to_set (fst <$> dw_jobs w) |}.
  - intros w z w' [= <- <-] Hz. simpl. exact Hz.
  - by intros w z w' [= <- <-].
  - intros w z w' [= <- <-]. simpl. split.
    + unfold demo_ends. induction (dw_jobs w) as [|[j [n st]] js IH]; csimpl; [done|].
      destruct n; csimpl; lia.
    + induction (dw_jobs w) as [|[j [n st]] js IH]; csimpl; [done|]. destruct n; csimpl; set_solver.
  - by intros w z w' [= <- <-].
  - by intros p w z w' [= <- <-].
  - by intros s c w z w' [= <- <-].
  - by intros ds m w z w' [= <- <-].
  - by intros j w z w' [= <- <-].
  - intros ms w. simpl. split.
    + unfold demo_ends. induction (dw_jobs w) as [|[j [n st]] js IH]; csimpl; [done|]. lia.
    + induction (dw_jobs w) as [|[j [n st]] js IH]; csimpl; [done|]. set_solver.
  - intros s c w z w'. simpl. unfold demo_start. case_if; [by intros [= <- <-]|].
    destruct (dw_script w _) as [polls last]. intros [= <- <-] He. simpl. unfold demo_ends in *. csimpl.
    split_and!; [lia|set_solver|done|intros job [= <-]; set_solver].
  - intros j w l w' [= <- <-] He Hj. simpl in *. unfold demo_ends in He.
    induction (dw_jobs w) as [|[k [n st]] js IH]; csimpl in *; [set_solver|].
    assert (n = 0%nat) as -> by lia. simpl. destruct (String.eqb_spec k j) as [->|Hne].
    + eexists. split; [done|]. simpl. by destruct (is_terminal st) eqn:?.
    + apply IH; [lia|set_solver].
Defined.

(** [deployment_ends]: a signal comes while two jobs run. *)
Lemma deployment_ends_witness :
  let w := demo_world ∅ (fun _ => (3%nat, "succeeded")) (Some 500) in
  exists r d, run (H := demo_tools 2) demo_options 57 (new_deployment w) = (Some r, d)
    /\ exit_code r = 130
    /\ log d = [Planned 3; Started "a" "job of a"; Started "b" "job of b"; StopAsked 15 2; Waiting 2;
                Ended "a" "job of a" "cancelled"; Ended "b" "job of b" "cancelled"].
Proof.
  intros w. destruct (deployment_ends (H := demo_tools 2) (H0 := demo_jobs_end 2) demo_options 57 w)
    as (r & d & E); [done|vm_compute; lia|vm_compute; lia|].
  exists r, d. split; [exact E|]. vm_compute in E. by injection E as <- <-.
Defined.

(** ** A rehearsed chain *)

(** What a line of the log says of one specification of the chain. *)
Definition verdict (e : Event) : option (string * bool) :=
  match e with
  | Rehearsed id => Some (id, true)
  | NotRehearsed id _ | Incomplete id | RehearsalFailed id | PlanRefused id | PlanAccepted id => Some (id, false)
  | _ => None
  end.

Definition verdicts (es : list Event) : list (string * bool) := omap verdict es.

(** The specifications that did not rehearse cleanly. *)
Definition unclean (vs : list (string * bool)) : gset string :=
  list_to_set (fst <$> List.filter (fun v => negb v.2) vs).

Definition problem_count (n : Counts) : nat := n_failed n + n_incomplete n + n_blocked n.

(** What is rehearsed, given what did not rehearse before. *)
Fixpoint clean_chain (b : gmap string Migration) (broken : gset string) (vs : list (string * bool)) : Prop :=
  match vs with
  | [] => True
  | (id, v) :: vs' =>
      (v = true -> forall dep, dep ∈ m_dependsOn (find_migration b id) -> dep ∉ broken)
      /\ clean_chain b (if v then broken else {[ id ]} ∪ broken) vs'
  end.

Section Chain.
Context {W : Type} `{Tools W}.
Implicit Types d : Deployment W.

Lemma call_log {A} (f : W -> A * W) d a d' : call f d = (a, d') -> log d' = log d.
Proof. by intros [? _]%call_same. Qed.

(** One step says one thing of its specification, or stops the chain. *)
Lemma chain_step_verdict b id broken n d res d' :
  chain_step b id broken n d = (res, d') ->
  match res with
  | None => log d' = log d ++ [CouldNotRead id]
  | Some (broken', n') => exists e v, log d' = log d ++ [e] /\ verdict e = Some (id, v)
      /\ broken' = (if v then broken else {[ id ]} ∪ broken)
      /\ problem_count n' = (problem_count n + if v then 0 else 1)%nat
      /\ (v = true -> forall dep, dep ∈ m_dependsOn (find_migration b id) -> dep ∉ broken)
  end.
Proof.
  unfold chain_step, problem_count. cbv zeta. destruct (List.find _ _) as [cause|] eqn:Hf.
  { intros [= <- <-]. eexists _, false. split_and!; try done. simpl. lia. }
  assert (Hdeps : forall dep, dep ∈ m_dependsOn (find_migration b id) -> dep ∉ broken).
  { intros dep Hd Hb. apply list_elem_of_In in Hd. pose proof (List.find_none _ _ Hf dep Hd) as Hn. simpl in Hn.
    by apply bool_decide_eq_false in Hn. }
  destruct (call (read_spec_file _) d) as [spec d1] eqn:E1. apply call_log in E1.
  destruct spec as [spec|]; [|intros [= <- <-]; simpl; by rewrite E1].
  destruct (call (rehearse _ _) d1) as [[outcome plan] d2] eqn:E2. apply call_log in E2.
  rewrite E1 in E2. unfold report_plan_outcome.
  repeat case_if; intros [= <- <-]; simpl; rewrite E2;
    (eexists _, true; split_and!; done || lia) || (eexists _, false; split_and!; done || (simpl; lia)).
Qed.

Lemma chain_loop_verdicts b ids broken n d res d' :
  chain_loop b ids broken n d = (res, d') ->
  exists vs, verdicts (log d') = verdicts (log d) ++ vs /\ fst <$> vs `prefix_of` ids
    /\ clean_chain b broken vs
    /\ (forall i j, Started i j ∈ log d' -> Started i j ∈ log d)
    /\ match res with
       | None => exists id, CouldNotRead id ∈ log d'
       | Some n' => fst <$> vs = ids
           /\ problem_count n' = (problem_count n + length (List.filter (fun v => negb v.2) vs))%nat
       end.
Proof.
  revert broken n d. induction ids as [|id ids IH]; intros broken n d; cbn [chain_loop].
  { intros [= <- <-]. exists []. rewrite app_nil_r. split_and!; simpl; try done; lia. }
  destruct (chain_step b id broken n d) as [r d1] eqn:E1. apply chain_step_verdict in E1.
  destruct r as [[broken1 n1]|].
  2:{ intros [= <- <-]. exists []. rewrite E1. unfold verdicts. rewrite omap_app, !app_nil_r. split_and!; try done.
      - apply prefix_nil.
      - intros i j. set_solver.
      - exists id. set_solver. }
  destruct E1 as (e & v & Hlog & Hv & -> & Hn & Hd). intros E2.
  destruct (IH _ _ _ E2) as (vs & H1 & H2 & H3 & H4 & H5). exists ((id, v) :: vs).
  split_and!; [| |by split| |].
  - rewrite H1, Hlog. unfold verdicts. rewrite omap_app, <- app_assoc. simpl. by rewrite Hv.
  - csimpl. by apply prefix_cons.
  - intros i j Hin%H4. rewrite Hlog in Hin. apply elem_of_app in Hin as [|Hin]; [done|].
    apply list_elem_of_singleton in Hin as <-. done.
  - destruct res as [n'|]; [|done]. destruct H5 as [H5 H6]. csimpl. split; [by rewrite H5|].
    rewrite H6, Hn. destruct v; simpl; lia.
Qed.
End Chain.

(** What a rehearsed chain says. Every specification that would run is
    rehearsed in the deployment's order or reported, one line each, up to a file
    that cannot be read; one is only rehearsed when none of its dependencies
    failed, was incomplete or was left out earlier in the chain; the exit code
    is 0 exactly when all of them rehearsed, and no job is ever started. *)
Theorem chain_rehearses_what_can_run {W} `{Tools W} l w r d :
  run_chain l (index (l_migrations l)) (new_deployment w) = (r, d) ->
  exists vs, verdicts (log d) = vs /\ fst <$> vs `prefix_of` mjoin (run_order l)
    /\ clean_chain (index (l_migrations l)) ∅ vs
    /\ (forall id job, Started id job ∉ log d)
    /\ match r with
       | kOk => vs = (fun id => (id, true)) <$> mjoin (run_order l)
       | kRefused => fst <$> vs = mjoin (run_order l) /\ exists id, (id, false) ∈ vs
       | _ => r = kRepoProblem /\ exists id, CouldNotRead id ∈ log d
       end.
Proof.
  assert (Hids : mjoin (run_order l) = group_ids (index (l_migrations l)) (mjoin (mjoin (l_order l)))).
  { unfold run_order. induction (mjoin (l_order l)) as [|g gs IH]; [done|].
    change (mjoin (g :: gs)) with (g ++ mjoin gs). unfold group_ids in *. rewrite List.filter_app, <- IH. done. }
  unfold run_chain. rewrite <- Hids.
  destruct (chain_loop _ _ _ _ _) as [res d1] eqn:E. apply chain_loop_verdicts in E as (vs & H1 & H2 & H3 & H4 & H5).
  assert (Hstart : forall id job, Started id job ∉ log d1) by (intros i j Hin%H4; by apply not_elem_of_nil in Hin).
  destruct res as [n|]; intros [= <- <-]; exists vs; simpl.
  - destruct H5 as [H5 H6]. unfold verdicts. rewrite omap_app, app_nil_r. split_and!; try done.
    + intros i j. rewrite elem_of_app, list_elem_of_singleton. intros [?%Hstart|[=]]. done.
    + unfold problem_count in H6. simpl in H6. rewrite H6.
      assert (Hall : forall vs, List.filter (fun v : string * bool => negb v.2) vs = [] ->
        vs = (fun id => (id, true)) <$> (fst <$> vs)).
      { intros l0. induction l0 as [|[i []] l0 IH]; csimpl; [done|intros Hl; f_equal; by apply IH|done]. }
      destruct (List.filter _ vs) as [|[i v] fs] eqn:Ef; simpl; [rewrite <- H5; by apply Hall|].
      split; [done|]. exists i. assert (Hin : (i, v) ∈ List.filter (fun v => negb v.2) vs) by (rewrite Ef; set_solver).
      apply elem_of_keep in Hin as [Hv Hin]. by destruct v.
  - split_and!; try done.
Qed.

(** [chain_rehearses_what_can_run]: [b] fails, so [c] is not rehearsed. *)
Lemma chain_rehearses_what_can_run_witness :
  let w := demo_world ∅ (fun _ => (1%nat, "succeeded")) None in
  let '(r, d) := run_chain (H := demo_tools 2) demo_listing (index (l_migrations demo_listing)) (new_deployment w) in
  (r, verdicts (log d)) = (kRefused, [("a", true); ("b", false); ("c", false)])
  /\ exists id, (id, false) ∈ verdicts (log d).
Proof.
  intros w. destruct (run_chain _ _ _) as [r d] eqn:E.
  destruct (chain_rehearses_what_can_run (H := demo_tools 2) demo_listing w r d E) as (vs & <- & _ & _ & _ & Hr).
  vm_compute in E. injection E as <- <-. split; [done|]. by destruct Hr.
Defined.

(** The budget a deployment keeps to is the default connection's, while each
    start is held to the limit of the connection the specification runs on: with
    a lower limit there, the run asks for a slot it cannot have, and ends with
    exit code 1 with nothing wrong in any specification. With the same limit
    everywhere the same repository is applied. *)
Theorem lower_limit_elsewhere_refuses :
  let script := fun _ : string => (2%nat, "succeeded") in
  (let '(r, d) := run (H := demo_tools 2) demo_options 57 (new_deployment (demo_world {[ "other" := 1 ]} script None)) in
   (r, log d) = (Some kRefused, [Planned 3; Started "a" "job of a"; NotAccepted "b"; Waiting 1;
                                 Ended "a" "job of a" "succeeded"]))
  /\ (run (H := demo_tools 2) demo_options 57 (new_deployment (demo_world ∅ script None))).1 = Some kOk.
Proof. cbv zeta. split; by vm_compute. Qed.
