(* ===== verification/Quote.v ===== *)
(** * Quote: names and literals in SQL text (src/cpp/src/planner_base.h, planner.h)

    How the planner writes an identifier, a literal and a "schema.table" into a
    statement, and how it finds a quoted relation in one again. The reader they
    are measured against is PostgreSQL's lexical rule for quoted tokens with
    standard_conforming_strings on, its default: a quoted token runs to the next
    quote that is not doubled. *)
From S2P Require Import Prelude Canonical Spec.

Definition squote : ascii := byte_of 39.
Definition dquote : ascii := byte_of 34.

(** The loops of [quote_literal] and [quote_identifier]. *)
Fixpoint double_quotes (q : ascii) (s : string) : string :=
  match s with
  | EmptyString => ""
  | String c s' => if Ascii.eqb c q then String q (String c (double_quotes q s')) else String c (double_quotes q s')
  end.

Definition quote_with (q : ascii) (s : string) : string :=
  String q (double_quotes q s +:+ string_of_char q).

Definition quote_literal (s : string) : string := quote_with squote s.
Definition quote_identifier (s : string) : string := quote_with dquote s.

(** [find(c)] and the two halves around it. *)
Fixpoint split_first (c : ascii) (s : string) : option (string * string) :=
  match s with
  | EmptyString => None
  | String x s' =>
      if Ascii.eqb x c then Some ("", s')
      else '(a, b) ← split_first c s'; Some (String x a, b)
  end.

Definition quote_qualified (qualified : string) : string :=
  match split_first "." qualified with
  | None => quote_identifier qualified
  | Some (a, b) => quote_identifier a +:+ "." +:+ quote_identifier b
  end.

(** [quoted_relation_at], from the position on: the length of one quoted part,
    then of the two with the dot between them. *)
Fixpoint quoted_part (s : string) : option string :=
  match s with
  | EmptyString => None
  | String c s' =>
      if Ascii.eqb c dquote then
        match s' with
        | String c' s'' => if Ascii.eqb c' dquote then p ← quoted_part s''; Some (String c (String c' p))
                           else Some (string_of_char c)
        | EmptyString => Some (string_of_char c)
        end
      else p ← quoted_part s'; Some (String c p)
  end.

Definition quoted_name (s : string) : option string :=
  match s with
  | String c s' => if Ascii.eqb c dquote then p ← quoted_part s'; Some (String c p) else None
  | EmptyString => None
  end.

(** What is left of [s] after [n] bytes. *)
Fixpoint skip (n : nat) (s : string) : string :=
  match n, s with
  | O, _ => s
  | S n', String _ s' => skip n' s'
  | S _, EmptyString => ""
  end.

Definition quoted_relation_at (s : string) : string :=
  match quoted_name s with
  | None => ""
  | Some a =>
      match skip (String.length a) s with
      | String c s' =>
          if Ascii.eqb c "." then
            match quoted_name s' with Some b => a +:+ "." +:+ b | None => "" end
          else ""
      | EmptyString => ""
      end
  end.

(** ** The server's reading *)

(** A quoted token's text and what follows it. *)
Fixpoint lex_body (q : ascii) (s : string) : option (string * string) :=
  match s with
  | EmptyString => None
  | String c s' =>
      if Ascii.eqb c q then
        match s' with
        | String c' s'' =>
            if Ascii.eqb c' q then '(a, r) ← lex_body q s''; Some (String q a, r) else Some ("", s')
        | EmptyString => Some ("", "")
        end
      else '(a, r) ← lex_body q s'; Some (String c a, r)
  end.

Definition lex_quoted (q : ascii) (s : string) : option (string * string) :=
  match s with
  | String c s' => if Ascii.eqb c q then lex_body q s' else None
  | EmptyString => None
  end.

(** A relation: an identifier, with another after a dot. *)
Definition lex_relation (s : string) : option (list string * string) :=
  '(a, r) ← lex_quoted dquote s;
  match r with
  | String c r' =>
      if Ascii.eqb c "." then '(b, r'') ← lex_quoted dquote r'; Some ([a; b], r'') else Some ([a], r)
  | EmptyString => Some ([a], r)
  end.

(** The text after a token does not go on with a quote. *)
Definition not_at (q : ascii) (s : string) : Prop :=
  match s with String c _ => c <> q | EmptyString => True end.

Lemma lex_body_doubled q s r :
  not_at q r -> lex_body q (double_quotes q s +:+ String q r) = Some (s, r).
Proof.
  intros Hr. induction s as [|c s IH]; simpl.
  - rewrite Ascii.eqb_refl. destruct r as [|c r]; [done|]. simpl in Hr.
    by destruct (Ascii.eqb_spec c q).
  - destruct (Ascii.eqb_spec c q) as [->|Hne]; simpl.
    + rewrite !Ascii.eqb_refl. change (double_quotes q s ++ String q r)%string with (double_quotes q s +:+ String q r).
      by rewrite IH.
    + destruct (Ascii.eqb_spec c q); [done|].
      change (double_quotes q s ++ String q r)%string with (double_quotes q s +:+ String q r). by rewrite IH.
Qed.

(** A quoted text is one token, and reads back as itself. *)
Lemma lex_quote_with q s r : not_at q r -> lex_quoted q (quote_with q s +:+ r) = Some (s, r).
Proof.
  intros Hr. unfold quote_with. rewrite string_app_cons. simpl. rewrite Ascii.eqb_refl.
  rewrite string_app_assoc. by apply lex_body_doubled.
Qed.

Lemma lex_identifier_app s r :
  not_at dquote r -> lex_quoted dquote (quote_identifier s +:+ r) = Some (s, r).
Proof. apply lex_quote_with. Qed.

Lemma has_char_cons x c s : has_char x (String c s) = Ascii.eqb x c || has_char x s.
Proof. done. Qed.

Lemma has_char_app x a b : has_char x (a +:+ b) = has_char x a || has_char x b.
Proof.
  induction a as [|c a IH]; [done|]. unfold has_char in *. rewrite string_app_cons. cbn.
  by rewrite IH, orb_assoc.
Qed.

Lemma split_first_app c a b :
  has_char c a = false -> split_first c (a +:+ String c b) = Some (a, b).
Proof.
  induction a as [|x a IH]; simpl; intros Ha; [by rewrite Ascii.eqb_refl|].
  unfold has_char in *. simpl in Ha. apply orb_false_iff in Ha as [Hx Ha].
  destruct (Ascii.eqb_spec x c) as [->|]; [by rewrite Ascii.eqb_refl in Hx|].
  change (a ++ String c b)%string with (a +:+ String c b). by rewrite IH.
Qed.

Lemma quoted_part_doubled s r :
  not_at dquote r ->
  quoted_part (double_quotes dquote s +:+ String dquote r) = Some (double_quotes dquote s +:+ string_of_char dquote).
Proof.
  intros Hr. induction s as [|c s IH].
  - destruct r as [|c r]; [done|]. simpl in *. by destruct (Ascii.eqb_spec c dquote).
  - cbn [double_quotes]. destruct (Ascii.eqb_spec c dquote) as [->|Hne];
      rewrite !string_app_cons; cbn [quoted_part]; rewrite ?Ascii.eqb_refl.
    + by rewrite IH.
    + destruct (Ascii.eqb_spec c dquote); [done|]. by rewrite IH.
Qed.

Lemma quoted_name_app s r : not_at dquote r -> quoted_name (quote_identifier s +:+ r) = Some (quote_identifier s).
Proof.
  intros Hr. unfold quote_identifier, quote_with. rewrite string_app_cons. cbn [quoted_name].
  rewrite Ascii.eqb_refl, string_app_assoc. change (string_of_char dquote +:+ r) with (String dquote r).
  by rewrite quoted_part_doubled.
Qed.

Lemma skip_app a r : skip (String.length a) (a +:+ r) = r.
Proof. induction a as [|c a IH]; [done|]. exact IH. Qed.

Lemma identifier_lacks c s :
  lower c || digit c || underscore c = false -> require_identifier s = Ok tt -> has_char c s = false.
Proof.
  intros Hc. unfold require_identifier. destruct s as [|d s]; [done|]. case_if; [done|]. case_if; [done|].
  case_if; [|done]. intros _. unfold has_char.
  match goal with H : forallb _ _ = true |- _ => rename H into Hall end.
  rewrite forallb_forall in Hall. apply not_true_is_false. intros (x & Hx & Hd)%existsb_exists.
  apply Ascii.eqb_eq in Hd as <-. specialize (Hall _ Hx). congruence.
Qed.

Lemma identifier_has_no_dot s : require_identifier s = Ok tt -> has_char "." s = false.
Proof. by apply identifier_lacks. Qed.

Lemma quote_qualified_parts schema table :
  require_identifier schema = Ok tt ->
  quote_qualified (schema +:+ "." +:+ table) = quote_identifier schema +:+ String "." (quote_identifier table).
Proof.
  intros Hs. unfold quote_qualified. change ("." +:+ table) with (String "." table).
  by rewrite split_first_app by (by apply identifier_has_no_dot).
Qed.

Lemma quoted_relation_app schema table r :
  require_identifier schema = Ok tt -> not_at dquote r ->
  let q := quote_qualified (schema +:+ "." +:+ table) in quoted_relation_at (q +:+ r) = q.
Proof.
  intros Hs Hd q. unfold q. rewrite quote_qualified_parts, string_app_assoc, string_app_cons by done.
  unfold quoted_relation_at. rewrite quoted_name_app by done. rewrite skip_app, Ascii.eqb_refl.
  by rewrite quoted_name_app.
Qed.

Lemma lex_relation_quoted schema table r :
  require_identifier schema = Ok tt -> not_at dquote r ->
  lex_relation (quote_qualified (schema +:+ "." +:+ table) +:+ r) = Some ([schema; table], r).
Proof.
  intros Hs Hd. rewrite quote_qualified_parts, string_app_assoc, string_app_cons by done.
  unfold lex_relation. rewrite lex_identifier_app by done. cbn [mbind option_bind].
  rewrite Ascii.eqb_refl. by rewrite lex_identifier_app.
Qed.

(** What the planner quotes is read back by the server as it was. A relation
    is written as two quoted names from which the server reads the schema and
    the table again, whatever bytes the table's name has and whatever the
    statement goes on with; the planner finds exactly that text in a statement
    again; and a literal is one token with the text it was made from. No name
    and no text can end its token early. *)
Theorem quoted_names_read_back schema table text r :
  require_identifier schema = Ok tt -> not_at dquote r -> not_at squote r ->
  let q := quote_qualified (schema +:+ "." +:+ table) in
  lex_relation (q +:+ r) = Some ([schema; table], r)
  /\ quoted_relation_at (q +:+ r) = q
  /\ lex_quoted squote (quote_literal text +:+ r) = Some (text, r).
Proof.
  intros Hs Hd Hq q. split_and!; [by apply lex_relation_quoted|by apply quoted_relation_app|by apply lex_quote_with].
Qed.

(** [quoted_names_read_back]: a table named with quotes and a dot, and a text
    that tries to end its literal. *)
Lemma quoted_names_read_back_witness :
  let table := "o" +:+ string_of_char dquote +:+ ".x" in
  let text := "it" +:+ string_of_char squote +:+ "; DROP TABLE t; --" in
  let q := quote_qualified ("shop" +:+ "." +:+ table) in
  String.length q = 14%nat
  /\ lex_relation (q +:+ " VALIDATE") = Some (["shop"; table], " VALIDATE")
  /\ lex_quoted squote (quote_literal text +:+ ";") = Some (text, ";").
Proof.
  intros table text q.
  destruct (quoted_names_read_back "shop" table text " VALIDATE" eq_refl) as (H1 & _ & _); [done..|].
  destruct (quoted_names_read_back "shop" table text ";" eq_refl) as (_ & _ & H3); [done..|].
  split; [done|]. split; [exact H1|exact H3].
Defined.
