(* ===== verification/RowSql.v ===== *)
(** * RowSql: row-level statements and what they do (src/cpp/src/planner_dml.h)

    The statements the row-level planners write over a source of rows: literal
    rows or a query, joined to the target by a key of one or several columns,
    whole or one batch at a time, with the rows they change saved beside the
    change. Each has its text ([render_row]) and its meaning on the rows of a
    table, which is PostgreSQL's documented one: NULL is equal to nothing, a row
    comparison is decided by the first pair that differs or has a NULL, an
    ascending order puts NULL last and a descending one first, and every CTE of
    a statement reads the table as it was before the statement. *)
From S2P Require Import Prelude Json Canonical Spec Quote.

(** A line's end. *)
Definition nl : string := string_of_char (byte_of 10).

(** ** Keys (RowKey) *)
Record RowKey : Type := { rk_columns : list string }.

Definition rk_empty (k : RowKey) : bool := bool_decide (rk_columns k = []).
Definition rk_composite (k : RowKey) : bool := (1 <? length (rk_columns k))%nat.
Definition rk_has (k : RowKey) (c : string) : bool := existsb (String.eqb c) (rk_columns k).
(** [columns[0]], or the empty string the callers use for no key. *)
Definition rk_first (k : RowKey) : string := default "" (head (rk_columns k)).

Definition rk_label (k : RowKey) : string :=
  if rk_composite k then "(" +:+ join ", " (rk_columns k) +:+ ")" else rk_first k.

Definition equal_terms (columns : list string) (left right : string) : string :=
  join " AND " ((fun c => left +:+ "." +:+ quote_identifier c +:+ " = " +:+ right +:+ "." +:+ quote_identifier c)
                  <$> columns).

Definition rk_equals (k : RowKey) (left right : string) : string := equal_terms (rk_columns k) left right.

Definition alias_list (alias : string) (columns : list string) : list string :=
  (fun c => alias +:+ "." +:+ quote_identifier c) <$> columns.

Definition rk_list (k : RowKey) (alias : string) : string := join ", " (alias_list alias (rk_columns k)).

(** ** Sources *)

(** Literal rows as columns with their types and rendered cells, or a query. *)
Inductive Source : Type :=
  | Literal (columns : list (string * string)) (rows : list (list string))
  | Query (text : string).

(** One row of [values_relation]; the first carries the casts. *)
Definition values_row (casts : option (list string)) (cells : list string) : string :=
  "(" +:+ join ", " (match casts with
                     | Some types => zip_with (fun cell type => cell +:+ "::" +:+ type) cells types
                     | None => cells
                     end) +:+ ")".

Definition values_relation (columns : list (string * string)) (rows : list (list string)) (alias : string) : string :=
  "(VALUES "
  +:+ join ("," +:+ nl +:+ "        ")
        (match rows with
         | [] => []
         | first :: rest => values_row (Some (columns.*2)) first :: (values_row None <$> rest)
         end)
  +:+ ") AS " +:+ alias +:+ " (" +:+ join ", " (quote_identifier <$> columns.*1) +:+ ")".

Definition source_relation (s : Source) : string :=
  match s with
  | Query text => "  " +:+ text
  | Literal columns rows => "  SELECT * FROM " +:+ values_relation columns rows "v"
  end.

(** The source as an item of a FROM, where nothing else reads it. *)
Definition source_item (s : Source) (alias : string) : string :=
  match s with
  | Query text => "(" +:+ text +:+ ") AS " +:+ alias
  | Literal columns rows => values_relation columns rows alias
  end.

(** ** The pre-image (Preserved) *)
Record Preserved : Type := { pv_qualified : string; pv_cols : list string }.

Definition pv_sql_rel (pv : Preserved) : string := quote_qualified (pv_qualified pv).

(** The INSERT both captures open with. *)
Definition preserve_head (pv : Preserved) (target_ref : string) : string :=
  "preserved AS (" +:+ nl
  +:+ "  INSERT INTO " +:+ pv_sql_rel pv +:+ " (" +:+ join ", " (quote_identifier <$> pv_cols pv) +:+ ")" +:+ nl
  +:+ "  SELECT " +:+ join ", " (alias_list target_ref (pv_cols pv)) +:+ nl.

Definition preserve_cte (pv : Preserved) (target_sql_rel target_ref : string) (key : list string)
    (source_alias : string) : string :=
  preserve_head pv target_ref
  +:+ "    FROM " +:+ target_sql_rel +:+ ", " +:+ source_alias +:+ " AS pb" +:+ nl
  +:+ "   WHERE " +:+ equal_terms key target_ref "pb" +:+ nl
  +:+ ")".

Definition preserve_cte_by_keys (pv : Preserved) (target_sql_rel target_ref key key_array : string) : string :=
  preserve_head pv target_ref
  +:+ "    FROM " +:+ target_sql_rel +:+ nl
  +:+ "   WHERE " +:+ target_ref +:+ "." +:+ quote_identifier key +:+ " = " +:+ key_array +:+ nl
  +:+ ")".

(** ** Mutations *)
Inductive OnConflict : Type :=
  | DoNothing
  | DoUpdate (columns : list string).

(** ON CONFLICT: the target, its predicate, and what a match does. *)
Record Conflict : Type := { cf_target : list string; cf_where : string; cf_do : OnConflict }.

Inductive WhenMatched : Type := MatchedUpdate | MatchedDelete | MatchedNothing.

#[export] Instance WhenMatched_eq_dec : EqDecision WhenMatched.
Proof. solve_decision. Defined.

Inductive Mutation : Type :=
  | InsertRows (columns : list string) (overriding : string) (conflict : option Conflict)
  | UpdateRows (sets : list string)
  | DeleteRows
  | MergeRows (matched : WhenMatched) (sets : list string) (inserts : option (list string)) (by_source_delete : bool).

(** [col = alias.col]. *)
Definition assignments (columns : list string) (alias : string) : string :=
  join ", " ((fun c => quote_identifier c +:+ " = " +:+ alias +:+ "." +:+ quote_identifier c) <$> columns).

Definition conflict_clause (c : Conflict) : string :=
  "ON CONFLICT (" +:+ join ", " (quote_identifier <$> cf_target c) +:+ ")"
  +:+ (if String.eqb (cf_where c) "" then "" else " WHERE " +:+ cf_where c)
  +:+ match cf_do c with
      | DoNothing => " DO NOTHING"
      | DoUpdate columns => " DO UPDATE SET " +:+ assignments columns "EXCLUDED"
      end.

Definition column_list (columns : list string) : string := "(" +:+ join ", " (quote_identifier <$> columns) +:+ ")".

Definition overriding_clause (overriding : string) : string :=
  if String.eqb overriding "system" then "OVERRIDING SYSTEM VALUE" +:+ nl
  else if String.eqb overriding "user" then "OVERRIDING USER VALUE" +:+ nl
  else "".

(** The WHEN branches of [plan_merge_rows], built against an alias. *)
Definition merge_branches (matched : WhenMatched) (sets : list string) (inserts : option (list string))
    (by_source_delete : bool) (alias : string) : string :=
  match matched with
  | MatchedUpdate => "  WHEN MATCHED THEN UPDATE SET " +:+ assignments sets alias +:+ nl
  | MatchedDelete => "  WHEN MATCHED THEN DELETE" +:+ nl
  | MatchedNothing => ""
  end
  +:+ match inserts with
      | Some columns => "  WHEN NOT MATCHED THEN INSERT (" +:+ join ", " (quote_identifier <$> columns)
                        +:+ ") VALUES (" +:+ join ", " (alias_list alias columns) +:+ ")" +:+ nl
      | None => ""
      end
  +:+ (if by_source_delete then "  WHEN NOT MATCHED BY SOURCE THEN DELETE" +:+ nl else "").

(** The mutation as a CTE beside [batch]. *)
Definition mutation_cte (rel : string) (key : RowKey) (m : Mutation) : string :=
  let sql_rel := quote_qualified rel in
  match m with
  | InsertRows columns overriding conflict =>
      let over := overriding_clause overriding in
      "ins AS (" +:+ nl
      +:+ "  INSERT INTO " +:+ sql_rel +:+ " " +:+ column_list columns +:+ nl
      +:+ "  " +:+ (if String.eqb over "" then "" else over +:+ "  ")
      +:+ "SELECT " +:+ join ", " (alias_list "batch" columns) +:+ " FROM batch" +:+ nl
      +:+ match conflict with Some c => "  " +:+ conflict_clause c +:+ nl | None => "" end
      +:+ "  RETURNING 1" +:+ nl +:+ ")"
  | UpdateRows sets =>
      "upd AS (" +:+ nl +:+ "  UPDATE " +:+ sql_rel +:+ nl
      +:+ "     SET " +:+ assignments sets "batch" +:+ nl
      +:+ "    FROM batch" +:+ nl
      +:+ "   WHERE " +:+ rk_equals key sql_rel "batch" +:+ nl
      +:+ "  RETURNING 1" +:+ nl +:+ ")"
  | DeleteRows =>
      "del AS (" +:+ nl +:+ "  DELETE FROM " +:+ sql_rel +:+ nl
      +:+ "   USING batch" +:+ nl
      +:+ "   WHERE " +:+ rk_equals key sql_rel "batch" +:+ nl
      +:+ "  RETURNING 1" +:+ nl +:+ ")"
  | MergeRows matched sets inserts by_source =>
      "m AS (" +:+ nl +:+ "  MERGE INTO " +:+ sql_rel +:+ " USING batch" +:+ nl
      +:+ "     ON " +:+ rk_equals key sql_rel "batch" +:+ nl
      +:+ merge_branches matched sets inserts by_source "batch"
      +:+ "  RETURNING 1" +:+ nl +:+ ")"
  end.

(** ** Paced and whole statements *)

(** The part of [paced_statement] that takes the next rows, as data: its text is
    [batch_text] and [returned_text], its meaning is RowMeaning's. The key compared
    with the cursor's parameters, and the first of them tested for NULL. *)
Inductive KeyTest : Type :=
  | KeyAbove (columns : list string) (marks : list nat)
  | OrStart (test : KeyTest) (mark : nat).

(** Columns of an ORDER BY; [true] is DESC. *)
Notation Ordering := (list (string * bool)).

(** [SELECT upto.k FROM (SELECT src.k FROM src WHERE .. ORDER BY src.k LIMIT $n) AS
    upto ORDER BY upto.k DESC LIMIT 1]. *)
Record BoundQuery : Type := {
  bd_inner : list string;
  bd_where : KeyTest;
  bd_inner_order : Ordering;
  bd_limit : nat;             (* the parameter of the LIMIT *)
  bd_outer : list string;
  bd_outer_order : Ordering;
}.

(** [SELECT * FROM src WHERE .. AND src.k <= (..)], and what the statement returns:
    [SELECT batch.k FROM batch ORDER BY batch.k]. *)
Record BatchQuery : Type := {
  bt_where : KeyTest;
  bt_bounded : list string;
  bt_bound : BoundQuery;
  bt_returned : list string;
  bt_return_order : Ordering;
}.

Definition ascending (columns : list string) : Ordering := (fun c => (c, false)) <$> columns.
Definition descending (columns : list string) : Ordering := (fun c => (c, true)) <$> columns.

(** The columns both forms name: all of a composite key's, or the first. *)
Definition stmt_columns (key : RowKey) : list string :=
  if rk_composite key then rk_columns key else [rk_first key].

Definition batch_query (key : RowKey) : BatchQuery :=
  let columns := stmt_columns key in
  let n := length columns in
  let above := KeyAbove columns (seq 1 n) in
  let after := if rk_composite key then OrStart above 1 else above in
  {| bt_where := after;
     bt_bounded := columns;
     bt_bound := {| bd_inner := columns; bd_where := after; bd_inner_order := ascending columns;
                    bd_limit := n + 1; bd_outer := columns; bd_outer_order := descending columns |};
     bt_returned := columns;
     bt_return_order := ascending columns |}.

(** One term as it stands, several in parentheses. *)
Definition row_text (terms : list string) : string :=
  if (1 <? length terms)%nat then "(" +:+ join ", " terms +:+ ")" else join ", " terms.

Definition mark_text (n : nat) : string := "$" +:+ to_string (Z.of_nat n).

Fixpoint test_text (alias : string) (t : KeyTest) : string :=
  match t with
  | KeyAbove columns marks => row_text (alias_list alias columns) +:+ " > " +:+ row_text (mark_text <$> marks)
  | OrStart t mark => "(" +:+ test_text alias t +:+ " OR " +:+ mark_text mark +:+ " IS NULL)"
  end.

Definition order_text (alias : string) (order : Ordering) : string :=
  join ", " ((fun cd => alias +:+ "." +:+ quote_identifier cd.1 +:+ (if (cd.2 : bool) then " DESC" else "")) <$> order).

Definition bound_text (q : BoundQuery) : string :=
  "(SELECT " +:+ join ", " (alias_list "upto" (bd_outer q)) +:+ " FROM (" +:+ nl
  +:+ "           SELECT " +:+ join ", " (alias_list "src" (bd_inner q)) +:+ " FROM src WHERE "
  +:+ test_text "src" (bd_where q) +:+ nl
  +:+ "            ORDER BY " +:+ order_text "src" (bd_inner_order q) +:+ " LIMIT " +:+ mark_text (bd_limit q)
  +:+ ") AS upto" +:+ nl
  +:+ "          ORDER BY " +:+ order_text "upto" (bd_outer_order q) +:+ " LIMIT 1)".

Definition batch_text (q : BatchQuery) : string :=
  "  SELECT * FROM src" +:+ nl
  +:+ "   WHERE " +:+ test_text "src" (bt_where q) +:+ nl
  +:+ "     AND " +:+ row_text (alias_list "src" (bt_bounded q)) +:+ " <= " +:+ bound_text (bt_bound q) +:+ nl.

Definition returned_text (q : BatchQuery) : string :=
  "SELECT " +:+ join ", " (alias_list "batch" (bt_returned q)) +:+ " FROM batch ORDER BY "
  +:+ order_text "batch" (bt_return_order q) +:+ ";".

(** [paced_statement]. *)
Definition paced_statement (source : string) (key : RowKey) (mutation : string) : string :=
  "WITH src AS (" +:+ nl +:+ source +:+ nl
  +:+ "), batch AS (" +:+ nl
  +:+ batch_text (batch_query key)
  +:+ "), " +:+ mutation +:+ nl
  +:+ returned_text (batch_query key).

(** The text of a key of one column, spelled out. *)
Lemma paced_statement_one source c mutation :
  let k := quote_identifier c in
  paced_statement source {| rk_columns := [c] |} mutation
  = "WITH src AS (" +:+ nl +:+ source +:+ nl
    +:+ "), batch AS (" +:+ nl
    +:+ "  SELECT * FROM src" +:+ nl
    +:+ "   WHERE src." +:+ k +:+ " > $1" +:+ nl
    +:+ "     AND src." +:+ k +:+ " <= (SELECT upto." +:+ k +:+ " FROM (" +:+ nl
    +:+ "           SELECT src." +:+ k +:+ " FROM src WHERE src." +:+ k +:+ " > $1" +:+ nl
    +:+ "            ORDER BY src." +:+ k +:+ " LIMIT $2) AS upto" +:+ nl
    +:+ "          ORDER BY upto." +:+ k +:+ " DESC LIMIT 1)" +:+ nl
    +:+ "), " +:+ mutation +:+ nl
    +:+ "SELECT batch." +:+ k +:+ " FROM batch ORDER BY batch." +:+ k +:+ ";".
Proof.
  intros k. unfold paced_statement, batch_text, bound_text, returned_text, order_text, row_text. simpl.
  rewrite !string_app_assoc. done.
Qed.

(** The text of a key of several. *)
Lemma paced_statement_several source key mutation :
  rk_composite key = true ->
  let n := length (rk_columns key) in
  let marks := (fun c => "$" +:+ to_string (Z.of_nat c)) <$> seq 1 n in
  let desc := (fun c => "upto." +:+ quote_identifier c +:+ " DESC") <$> rk_columns key in
  let after := "((" +:+ rk_list key "src" +:+ ") > (" +:+ join ", " marks +:+ ") OR $1 IS NULL)" in
  paced_statement source key mutation
  = "WITH src AS (" +:+ nl +:+ source +:+ nl
    +:+ "), batch AS (" +:+ nl
    +:+ "  SELECT * FROM src" +:+ nl
    +:+ "   WHERE " +:+ after +:+ nl
    +:+ "     AND (" +:+ rk_list key "src" +:+ ") <= (SELECT " +:+ rk_list key "upto" +:+ " FROM (" +:+ nl
    +:+ "           SELECT " +:+ rk_list key "src" +:+ " FROM src WHERE " +:+ after +:+ nl
    +:+ "            ORDER BY " +:+ rk_list key "src" +:+ " LIMIT $" +:+ to_string (Z.of_nat (n + 1)) +:+ ") AS upto" +:+ nl
    +:+ "          ORDER BY " +:+ join ", " desc +:+ " LIMIT 1)" +:+ nl
    +:+ "), " +:+ mutation +:+ nl
    +:+ "SELECT " +:+ rk_list key "batch" +:+ " FROM batch ORDER BY " +:+ rk_list key "batch" +:+ ";".
Proof.
  intros Hk n marks desc after. unfold paced_statement, batch_text, bound_text, returned_text, batch_query, stmt_columns.
  rewrite Hk. cbn [bt_where bt_bounded bt_bound bd_inner bd_where bd_inner_order bd_limit bd_outer bd_outer_order
    bt_returned bt_return_order test_text]. fold n.
  assert (forall alias, row_text (alias_list alias (rk_columns key)) = "(" +:+ rk_list key alias +:+ ")") as Hrow.
  { intros alias. unfold row_text, alias_list. rewrite length_fmap. unfold rk_composite in Hk. by rewrite Hk. }
  assert (row_text (mark_text <$> seq 1 n) = "(" +:+ join ", " marks +:+ ")") as Hmarks.
  { unfold row_text. rewrite length_fmap, length_seq. unfold rk_composite in Hk. unfold n. by rewrite Hk. }
  assert (forall alias, order_text alias (ascending (rk_columns key)) = rk_list key alias) as Hasc.
  { intros alias. unfold order_text, ascending, rk_list, alias_list. rewrite <- list_fmap_compose. f_equal.
    apply list_fmap_ext. intros i c _. simpl. by rewrite string_app_nil_r. }
  assert (order_text "upto" (descending (rk_columns key)) = join ", " desc) as Hdesc.
  { unfold order_text, descending, desc. by rewrite <- list_fmap_compose. }
  rewrite !Hrow, Hmarks, !Hasc, Hdesc. unfold rk_list, after, mark_text. simpl. rewrite !string_app_assoc.
  done.
Qed.

(** The one-transaction forms: with a pre-image the source becomes a CTE both
    parts read, without one it is an item of the statement itself. *)
Definition whole_statement (rel : string) (source : Source) (key : RowKey) (saved : option Preserved) (m : Mutation) :
  string :=
  let sql_rel := quote_qualified rel in
  let with_src pv := "WITH src AS (" +:+ nl +:+ source_relation source +:+ nl
                     +:+ "), " +:+ preserve_cte pv sql_rel sql_rel (rk_columns key) "src" +:+ nl in
  match m with
  | InsertRows columns overriding conflict =>
      "INSERT INTO " +:+ sql_rel +:+ " " +:+ column_list columns +:+ nl
      +:+ overriding_clause overriding
      +:+ match source with
          | Query text => text
          | Literal _ rows => "VALUES " +:+ join ("," +:+ nl +:+ "       ") (values_row None <$> rows)
          end
      +:+ match conflict with Some c => nl +:+ conflict_clause c | None => "" end +:+ ";"
  | UpdateRows sets =>
      match saved with
      | Some pv => with_src pv +:+ "UPDATE " +:+ sql_rel +:+ nl +:+ "   SET " +:+ assignments sets "src" +:+ nl
                   +:+ "  FROM src" +:+ nl +:+ " WHERE " +:+ rk_equals key sql_rel "src" +:+ ";"
      | None => "UPDATE " +:+ sql_rel +:+ nl +:+ "   SET " +:+ assignments sets "v" +:+ nl
                +:+ "  FROM " +:+ source_item source "v" +:+ nl
                +:+ " WHERE " +:+ rk_equals key sql_rel "v" +:+ ";"
      end
  | DeleteRows =>
      match saved with
      | Some pv => with_src pv +:+ "DELETE FROM " +:+ sql_rel +:+ nl +:+ " USING src" +:+ nl
                   +:+ " WHERE " +:+ rk_equals key sql_rel "src" +:+ ";"
      | None => "DELETE FROM " +:+ sql_rel +:+ nl +:+ " USING " +:+ source_item source "v" +:+ nl
                +:+ " WHERE " +:+ rk_equals key sql_rel "v" +:+ ";"
      end
  | MergeRows matched sets inserts by_source =>
      match saved with
      | Some pv => with_src pv +:+ "MERGE INTO " +:+ sql_rel +:+ " USING src" +:+ nl
                   +:+ "   ON " +:+ rk_equals key sql_rel "src" +:+ nl
                   +:+ merge_branches matched sets inserts by_source "src" +:+ ";"
      | None => "MERGE INTO " +:+ sql_rel +:+ " USING " +:+ source_item source "s" +:+ nl
                +:+ "   ON " +:+ rk_equals key sql_rel "s" +:+ nl
                +:+ merge_branches matched sets inserts by_source "s" +:+ ";"
      end
  end.

(** A row-level statement over a source. *)
Record RowStmt : Type := {
  rs_paced : bool;
  rs_rel : string;
  rs_source : Source;
  rs_key : RowKey;
  rs_saved : option Preserved;
  rs_mutation : Mutation;
}.

Definition render_row (s : RowStmt) : string :=
  if rs_paced s then
    let sql_rel := quote_qualified (rs_rel s) in
    paced_statement (source_relation (rs_source s)) (rs_key s)
      (match rs_saved s with
       | Some pv => preserve_cte pv sql_rel sql_rel (rk_columns (rs_key s)) "batch" +:+ "," +:+ nl
       | None => ""
       end +:+ mutation_cte (rs_rel s) (rs_key s) (rs_mutation s))
  else whole_statement (rs_rel s) (rs_source s) (rs_key s) (rs_saved s) (rs_mutation s).
