(* ===== verification/RowMeaning.v ===== *)
(** * RowMeaning: what row-level statements do to a table

    The server's side of the statements of RowSql: rows with NULLs, comparison
    and order of keys, one batch of a paced statement and the walk over all of
    them, UPDATE, DELETE, INSERT and MERGE from a source, and the rows a capture
    saves. Constraint violations and concurrent writers are outside. The first
    facts are about the order of keys and about one batch. *)
From S2P Require Import Prelude Json Canonical Spec Quote Batches RowSql.

(** A type of values with the order its operator class has. *)
Class SqlValues (V : Type) : Type := {
  sv_eq :: EqDecision V;
  vlt : V -> V -> bool;
  sv_order :: StrictOrder vlt;
  sv_total a b : a <> b -> vlt a b = true \/ vlt b a = true;
}.

(** A row: its columns that are not NULL. *)
Notation Row V := (gmap string V).

Section Keys.
Context `{SqlValues V}.

Definition key_vals (columns : list string) (r : Row V) : list (option V) := (fun c => r !! c) <$> columns.

(** [(a, b) ? (c, d)]: decided by the first pair that differs or has a NULL. *)
Fixpoint row_compare (a b : list (option V)) : option comparison :=
  match a, b with
  | [], [] => Some Eq
  | Some x :: a', Some y :: b' =>
      if bool_decide (x = y) then row_compare a' b' else Some (if vlt x y then Lt else Gt)
  | _, _ => None
  end.

Definition row_gt (a b : list (option V)) : bool := bool_decide (row_compare a b = Some Gt).
Definition row_le (a b : list (option V)) : bool :=
  bool_decide (row_compare a b = Some Lt) || bool_decide (row_compare a b = Some Eq).

(** [ORDER BY a, b]: ascending, NULL last. *)
Fixpoint order_le (a b : list (option V)) : bool :=
  match a, b with
  | [], _ => true
  | _ :: _, [] => false
  | Some x :: a', Some y :: b' => if bool_decide (x = y) then order_le a' b' else vlt x y
  | Some _ :: _, None :: _ => true
  | None :: _, Some _ :: _ => false
  | None :: a', None :: b' => order_le a' b'
  end.

(** [ORDER BY a DESC, b DESC]: NULL first. *)
Definition order_ge (a b : list (option V)) : bool := order_le b a.

(** A key no part of which is NULL. *)
Definition complete (k : list (option V)) : bool := forallb (fun v => match v with Some _ => true | None => false end) k.

(** The rows a walk at a cursor has yet to reach: those with a greater key, and all
    of them where a walk along several columns has not begun. *)
Definition after (key : RowKey) (cursor : list (option V)) (r : Row V) : bool :=
  row_gt (key_vals (rk_columns key) r) cursor
  || rk_composite key && match cursor with None :: _ => true | _ => false end.

(** ** What the batch of a paced statement is

    [BatchQuery] as the server runs it. The executor binds the parts of the cursor
    to [$1] and on and the batch size to the parameter after them. *)
Definition arg (cursor : list (option V)) (mark : nat) : option V := mjoin (cursor !! pred mark).

Fixpoint test_holds (cursor : list (option V)) (t : KeyTest) (r : Row V) : bool :=
  match t with
  | KeyAbove columns marks => row_gt (key_vals columns r) (arg cursor <$> marks)
  | OrStart t mark => test_holds cursor t r || match arg cursor mark with None => true | Some _ => false end
  end.

(** Ascending puts NULL last, descending first. *)
Definition below (x y : option V) : bool :=
  match x, y with
  | Some x, Some y => vlt x y
  | Some _, None => true
  | None, _ => false
  end.

Fixpoint order_by (desc : list bool) (a b : list (option V)) : bool :=
  match desc, a, b with
  | d :: desc', x :: a', y :: b' =>
      if bool_decide (x = y) then order_by desc' a' b' else if (d : bool) then below y x else below x y
  | _, _, _ => true
  end.

Definition in_order (order : Ordering) (rows : list (Row V)) : list (Row V) :=
  sort_by (fun a b => order_by (order.*2) (key_vals (order.*1) a) (key_vals (order.*1) b)) rows.

(** [SET a = s.a, b = s.b]. *)
Definition assign (columns : list string) (s r : Row V) : Row V :=
  foldr (fun c r => partial_alter (fun _ => s !! c) c r) r columns.

Definition restrict (columns : list string) (r : Row V) : Row V := assign columns r ∅.

(** The rows [LIMIT $mark] lets through, where the batch size is bound to [batch_mark];
    any other parameter is not a count, and the statement returns nothing. *)
Definition limited (batch_mark mark limit : nat) (rows : list (Row V)) : list (Row V) :=
  if Nat.eqb mark batch_mark then take limit rows else [].

Definition bound (q : BoundQuery) (batch_mark : nat) (cursor : list (option V)) (limit : nat) (src : list (Row V)) :
  option (list (option V)) :=
  let upto := restrict (bd_inner q)
              <$> limited batch_mark (bd_limit q) limit
                    (in_order (bd_inner_order q) (List.filter (test_holds cursor (bd_where q)) src)) in
  key_vals (bd_outer q) <$> head (in_order (bd_outer_order q) upto).

(** A sub-select without a row is NULL, and nothing compares with it. *)
Definition select_batch (q : BatchQuery) (batch_mark : nat) (cursor : list (option V)) (limit : nat)
    (src : list (Row V)) : list (Row V) :=
  match bound (bt_bound q) batch_mark cursor limit src with
  | None => []
  | Some u => List.filter (fun r => test_holds cursor (bt_where q) r && row_le (key_vals (bt_bounded q) r) u) src
  end.

Definition returned (q : BatchQuery) (b : list (Row V)) : list (list (option V)) :=
  key_vals (bt_returned q) <$> in_order (bt_return_order q) b.

(** The walk: batches until one is empty, the cursor at the last key returned. *)
Fixpoint source_walk (fuel : nat) (key : RowKey) (cursor : list (option V)) (limit : nat) (src : list (Row V)) :
  list (list (Row V)) :=
  match fuel with
  | O => []
  | S fuel' =>
      match select_batch (batch_query key) (S (length (stmt_columns key))) cursor limit src with
      | [] => []
      | b => b :: source_walk fuel' key (default cursor (last (returned (batch_query key) b))) limit src
      end
  end.

(** ** Changes from a source of rows *)

(** [r.a = s.a AND r.b = s.b]. *)
Definition matches (columns : list string) (r s : Row V) : bool :=
  forallb (fun c => match r !! c, s !! c with Some x, Some y => bool_decide (x = y) | _, _ => false end) columns.

Definition run_update (key sets : list string) (src t : list (Row V)) : list (Row V) :=
  (fun r => match List.find (matches key r) src with Some s => assign sets s r | None => r end) <$> t.

Definition run_delete (key : list string) (src t : list (Row V)) : list (Row V) :=
  List.filter (fun r => negb (existsb (matches key r) src)) t.

(** What MERGE does to one row of the target. *)
Definition merge_row (key : list string) (matched : WhenMatched) (sets : list string) (by_source_delete : bool)
    (src : list (Row V)) (r : Row V) : option (Row V) :=
  match List.find (matches key r) src with
  | Some s => match matched with
              | MatchedUpdate => Some (assign sets s r)
              | MatchedDelete => None
              | MatchedNothing => Some r
              end
  | None => if by_source_delete then None else Some r
  end.

Definition merge_inserts (key : list string) (inserts : option (list string)) (src t : list (Row V)) : list (Row V) :=
  match inserts with
  | Some columns => restrict columns <$> List.filter (fun s => negb (existsb (fun r => matches key r s) t)) src
  | None => []
  end.

Definition run_merge (key : list string) (matched : WhenMatched) (sets : list string) (inserts : option (list string))
    (by_source_delete : bool) (src t : list (Row V)) : list (Row V) :=
  omap (merge_row key matched sets by_source_delete src) t ++ merge_inserts key inserts src t.

(** One row of an INSERT with its conflict clause; [within] is the clause's
    predicate, the arbiter's. *)
Definition insert_one (within : Row V -> bool) (conflict : option Conflict) (t : list (Row V)) (s : Row V) : list (Row V) :=
  match conflict with
  | None => t ++ [s]
  | Some c =>
      let hit r := within r && within s && matches (cf_target c) r s in
      if existsb hit t then
        match cf_do c with
        | DoNothing => t
        | DoUpdate columns => (fun r => if hit r then assign columns s r else r) <$> t
        end
      else t ++ [s]
  end.

Definition run_insert (within : Row V -> bool) (columns : list string) (conflict : option Conflict)
    (src t : list (Row V)) : list (Row V) :=
  foldl (insert_one within conflict) t (restrict columns <$> src).

(** [within] answers the predicate of a conflict clause. *)
Definition run_mutation (within : string -> Row V -> bool) (key : list string) (m : Mutation) (src t : list (Row V)) :
  list (Row V) :=
  match m with
  | InsertRows columns _ conflict =>
      run_insert (match conflict with Some c => within (cf_where c) | None => fun _ => true end) columns conflict src t
  | UpdateRows sets => run_update key sets src t
  | DeleteRows => run_delete key src t
  | MergeRows matched sets inserts by_source => run_merge key matched sets inserts by_source src t
  end.

(** What the capture beside a change inserts into its side table: the saved
    columns of each target row once for each row of the source it matches. *)
Definition captured (key cols : list string) (src t : list (Row V)) : list (Row V) :=
  r ← t; (fun _ => restrict cols r) <$> List.filter (matches key r) src.

(** The paced statement run to its end, and the whole one. *)
Definition run_paced (within : string -> Row V -> bool) (key : RowKey) (cursor : list (option V)) (limit : nat)
    (m : Mutation) (src t : list (Row V)) : list (Row V) :=
  foldl (fun t b => run_mutation within (rk_columns key) m b t) t
    (source_walk (S (length src)) key cursor limit src).

Definition run_whole (within : string -> Row V -> bool) (key : RowKey) (m : Mutation) (src t : list (Row V)) :
  list (Row V) :=
  run_mutation within (rk_columns key) m src t.

End Keys.

(** ** The order of keys *)
Section Order.
Context `{SqlValues V}.

Lemma order_le_total a b : order_le a b = true \/ order_le b a = true.
Proof.
  revert b; induction a as [|[x|] a IH]; intros [|[y|] b]; simpl; auto.
  destruct (bool_decide_reflect (x = y)) as [->|Hne].
  - rewrite bool_decide_true by done. apply IH.
  - rewrite bool_decide_false by auto. by apply sv_total.
Qed.

Lemma order_le_trans a b c : order_le a b = true -> order_le b c = true -> order_le a c = true.
Proof.
  revert b c; induction a as [|[x|] a IH]; intros [|[y|] b] [|[z|] c]; simpl; try done; [|by eauto].
  destruct (bool_decide_reflect (x = y)) as [->|Hxy]; destruct (bool_decide_reflect (y = z)) as [->|Hyz].
  - eauto.
  - done.
  - by rewrite bool_decide_false by done.
  - intros H1 H2. destruct (bool_decide_reflect (x = z)) as [->|Hxz]; [|by eapply so_trans].
    pose proof (so_trans _ _ _ H1 H2) as Hzz. by rewrite so_irrefl in Hzz.
Qed.

Lemma order_le_antisym a b : order_le a b = true -> order_le b a = true -> a = b.
Proof.
  revert b; induction a as [|[x|] a IH]; intros [|[y|] b]; simpl; try done; [|by intros; f_equal; auto].
  destruct (bool_decide_reflect (x = y)) as [->|Hxy].
  - rewrite bool_decide_true by done. intros. f_equal. auto.
  - rewrite bool_decide_false by auto. intros H1 H2.
    pose proof (so_trans _ _ _ H1 H2) as Hxx. by rewrite so_irrefl in Hxx.
Qed.

Lemma order_le_refl a : order_le a a = true.
Proof. by destruct (order_le_total a a). Qed.

(** On complete keys of one length the row comparison is the order. *)
Lemma row_compare_complete a b :
  complete a = true -> complete b = true -> length a = length b ->
  row_compare a b = Some (if bool_decide (a = b) then Eq else if order_le a b then Lt else Gt).
Proof.
  revert b; induction a as [|[x|] a IH]; intros [|[y|] b]; simpl; try done.
  intros Ha Hb [= Hl]. destruct (bool_decide_reflect (x = y)) as [->|Hne].
  - rewrite IH by done. destruct (bool_decide_reflect (a = b)) as [->|Hab].
    + by rewrite bool_decide_true.
    + by rewrite (bool_decide_false (_ :: _ = _)) by congruence.
  - by rewrite (bool_decide_false (_ :: _ = _)) by congruence.
Qed.

Lemma row_gt_complete a b :
  complete a = true -> complete b = true -> length a = length b -> row_gt a b = negb (order_le a b).
Proof.
  intros Ha Hb Hl. unfold row_gt. rewrite row_compare_complete by done.
  destruct (bool_decide_reflect (a = b)) as [->|Hne]; [by rewrite order_le_refl|].
  by destruct (order_le a b).
Qed.

Lemma row_le_complete a b :
  complete a = true -> complete b = true -> length a = length b -> row_le a b = order_le a b.
Proof.
  intros Ha Hb Hl. unfold row_le. rewrite row_compare_complete by done.
  destruct (bool_decide_reflect (a = b)) as [->|Hne]; [by rewrite order_le_refl|].
  by destruct (order_le a b).
Qed.

Lemma order_le_not_le a b : order_le a b = false -> order_le b a = true.
Proof. intros Hf. destruct (order_le_total a b); congruence. Qed.

(** A sorted list read backwards is sorted the other way. *)
Lemma sort_ge_head (l : list (list (option V))) :
  StronglySorted (fun a b => order_le a b = true) l -> head (sort_by order_ge l) = last l.
Proof.
  intros Hs. assert (sort_by order_ge l = reverse l) as ->.
  { rewrite <- (sort_by_id order_ge (reverse l)).
    - apply sort_by_unique; try by intros; apply order_le_antisym.
      + intros x y. unfold order_ge. destruct (order_le_total x y); auto.
      + intros x y z. unfold order_ge. intros. by eapply order_le_trans.
      + by rewrite reverse_Permutation.
    - induction Hs as [|x l Hl IH Hx]; [constructor|]. rewrite reverse_cons.
      apply StronglySorted_app_2; [|done|repeat constructor].
      intros a b Ha ->%list_elem_of_singleton. rewrite reverse_Permutation in Ha.
      rewrite Forall_forall in Hx. by apply Hx. }
  by rewrite head_reverse.
Qed.

End Order.
