(* ===== verification/RowFacts.v ===== *)
(** * RowFacts: a paced source is the whole source

    The batches of a paced statement cut the source at keys, so running them one
    after the other does what the statement over the whole source does; the rows
    a capture saves take the change back; and what goes wrong where a key is
    NULL. *)
From S2P Require Import Prelude Json Canonical Spec Quote Batches RowSql RowMeaning.

Section Lists.
Context {A : Type}.

Lemma filter_filter (p q : A -> bool) l : List.filter p (List.filter q l) = List.filter (fun x => q x && p x) l.
Proof.
  induction l as [|x l IH]; simpl; [done|]. destruct (q x); simpl; [|done]. by destruct (p x); rewrite IH.
Qed.

Lemma filter_ext_elem (p q : A -> bool) l : (forall x, x ∈ l -> p x = q x) -> List.filter p l = List.filter q l.
Proof.
  intros Hpq. apply List.filter_ext_in. intros x Hx. apply Hpq. by apply list_elem_of_In.
Qed.

Lemma filter_split (p : A -> bool) l : List.filter p l ++ List.filter (fun x => negb (p x)) l ≡ₚ l.
Proof.
  induction l as [|x l IH]; simpl; [done|]. destruct (p x); simpl; [by rewrite IH|].
  rewrite <- Permutation_middle. by rewrite IH.
Qed.

Lemma filter_all (p : A -> bool) l : (forall x, x ∈ l -> p x = true) -> List.filter p l = l.
Proof.
  induction l as [|x l IH]; simpl; intros Hp; [done|]. rewrite Hp by left. f_equal. apply IH. intros. apply Hp. by right.
Qed.

Lemma filter_none (p : A -> bool) l : (forall x, x ∈ l -> p x = false) -> List.filter p l = [].
Proof.
  induction l as [|x l IH]; simpl; intros Hp; [done|]. rewrite Hp by left. apply IH. intros. apply Hp. by right.
Qed.

Lemma elem_of_filter_bool (p : A -> bool) l x : x ∈ List.filter p l <-> x ∈ l /\ p x = true.
Proof. by rewrite !list_elem_of_In, filter_In. Qed.

Lemma filter_bool_Permutation (p : A -> bool) (l l' : list A) : l ≡ₚ l' -> List.filter p l ≡ₚ List.filter p l'.
Proof.
  induction 1; simpl; try done; [by destruct (p x); [constructor|]|destruct (p x), (p y); try done; constructor|].
  by etransitivity.
Qed.

(** The first element that satisfies [f], where [f] only holds where [p] is [b]. *)
Lemma find_filter (f p : A -> bool) (b : bool) l :
  (forall x, x ∈ l -> f x = true -> p x = b) ->
  List.find f (List.filter p l) = if b then List.find f l else None.
Proof.
  induction l as [|x l IH]; simpl; intros Hf; [by destruct b|].
  assert (forall y, y ∈ l -> f y = true -> p y = b) as Hl by (intros; apply Hf; [by right|done]).
  destruct (p x) eqn:Hp; simpl.
  - destruct (f x) eqn:Hfx; [|by apply IH]. specialize (Hf x ltac:(left) Hfx). rewrite Hp in Hf. by subst.
  - rewrite IH by done. destruct (f x) eqn:Hfx; [|done]. specialize (Hf x ltac:(left) Hfx). rewrite Hp in Hf. by subst.
Qed.

Lemma existsb_find (f : A -> bool) l : existsb f l = match List.find f l with Some _ => true | None => false end.
Proof. induction l as [|x l IH]; simpl; [done|]. by destruct (f x). Qed.

Lemma filter_cut (p q : A -> bool) l :
  List.filter q (List.filter p l) ++ List.filter q (List.filter (fun x => negb (p x)) l) ≡ₚ List.filter q l.
Proof.
  rewrite !filter_filter.
  rewrite (filter_ext_elem (fun x => p x && q x) (fun x => q x && p x)) by (intros; apply andb_comm).
  rewrite (filter_ext_elem (fun x => negb (p x) && q x) (fun x => q x && negb (p x))) by (intros; apply andb_comm).
  rewrite <- !filter_filter. apply filter_split.
Qed.

Lemma omap_two {B C} (f : A -> option B) (g : B -> option C) (h : A -> option C) (l : list A) :
  (forall x, f x ≫= g = h x) -> omap g (omap f l) = omap h l.
Proof.
  intros Hfg. induction l as [|x l IH]; csimpl; [done|]. rewrite <- Hfg.
  destruct (f x) as [y|]; csimpl; [|done]. by destruct (g y); rewrite IH.
Qed.

(** The last of a sorted list is the one no other exceeds. *)
Lemma sorted_last_max (le : A -> A -> bool) l u :
  (forall a b, le a b = true -> le b a = true -> a = b) ->
  StronglySorted (fun a b => le a b = true) l -> u ∈ l -> (forall x, x ∈ l -> le x u = true) -> last l = Some u.
Proof.
  intros Hanti Hs Hu Hmax. destruct (last l) as [x|] eqn:Hx; [|by apply last_None in Hx as ->; apply elem_of_nil in Hu].
  f_equal. pose proof (last_Some_elem_of l x Hx) as Hin.
  apply Hanti; [by apply Hmax|]. apply last_Some in Hx as [l' ->].
  apply elem_of_app in Hu as [Hu| ->%list_elem_of_singleton]; [|by apply Hmax].
  eapply (StronglySorted_app_1_elem_of _ _ _ u x Hs Hu). by apply list_elem_of_singleton.
Qed.
End Lists.

Section Walks.
Context `{SqlValues V}.
Implicit Types (src t : list (Row V)) (r s : Row V).

(** A list cut at keys, piece by piece. *)
Inductive splits (columns : list string) : list (Row V) -> list (list (Row V)) -> Prop :=
  | splits_nil : splits columns [] []
  | splits_cons p src bs :
      splits columns (List.filter (fun r => negb (p (key_vals columns r))) src) bs ->
      splits columns src (List.filter (fun r => p (key_vals columns r)) src :: bs).

Lemma splits_concat columns src bs : splits columns src bs -> concat bs ≡ₚ src.
Proof. induction 1 as [|p src bs _ IH]; simpl; [done|]. rewrite IH. apply filter_split. Qed.

Definition keyed (columns : list string) src : Prop :=
  Forall (fun r => complete (key_vals columns r) = true) src.

(** Where a walk can be: before the first row, or at a complete key. *)
Definition cursor_ok (key : RowKey) (c : list (option V)) : Prop :=
  (rk_composite key = true /\ exists c', c = None :: c')
  \/ (complete c = true /\ length c = length (rk_columns key)).

Lemma key_vals_length columns r : length (key_vals columns r) = length columns.
Proof. apply length_fmap. Qed.

(** A cursor at a key [u] that a row after [c] has leaves the rows after [c] above [u]. *)
Lemma after_advance key c u r :
  cursor_ok key c -> complete u = true -> length u = length (rk_columns key) ->
  complete (key_vals (rk_columns key) r) = true ->
  (row_gt u c || rk_composite key && match c with None :: _ => true | _ => false end = true) ->
  after key u r = after key c r && negb (row_le (key_vals (rk_columns key) r) u).
Proof.
  intros Hc Hu Hul Hr Hgt. unfold after. set (k := key_vals (rk_columns key) r) in *.
  assert (length k = length u) as Hk by (unfold k; by rewrite key_vals_length).
  assert (match u with None :: _ => true | _ => false end = false) as ->.
  { destruct u as [|[?|] ?]; done. }
  rewrite andb_false_r, orb_false_r, row_gt_complete, row_le_complete by done.
  destruct Hc as [[Hcomp (c' & ->)]|[Hcc Hcl]].
  - by rewrite Hcomp, orb_true_r.
  - assert (match c with None :: _ => true | _ => false end = false) as Hn by (destruct c as [|[?|] ?]; done).
    rewrite Hn, andb_false_r, orb_false_r in Hgt |- *. rewrite row_gt_complete in Hgt by (done || lia).
    rewrite row_gt_complete by (done || lia).
    destruct (order_le k u) eqn:Hku; [by rewrite andb_false_r|]. simpl. rewrite andb_true_r.
    destruct (order_le k c) eqn:Hkc; [|done].
    assert (order_le u c = true); [|by destruct (order_le u c)].
    eapply order_le_trans; [by apply order_le_not_le|done].
Qed.

(** ** The batch the statement takes

    The last key among the first [limit] after the cursor, the rows up to it, and
    their keys in order. *)
Definition upto (key : RowKey) (cursor : list (option V)) (limit : nat) (src : list (Row V)) : option (list (option V)) :=
  head (sort_by order_ge
          (take limit (sort_by order_le (key_vals (rk_columns key) <$> List.filter (after key cursor) src)))).

Definition batch (key : RowKey) (cursor : list (option V)) (limit : nat) (src : list (Row V)) : list (Row V) :=
  match upto key cursor limit src with
  | None => []
  | Some u => List.filter (fun r => after key cursor r && row_le (key_vals (rk_columns key) r) u) src
  end.

Definition batch_keys (key : RowKey) (b : list (Row V)) : list (list (option V)) :=
  sort_by order_le (key_vals (rk_columns key) <$> b).

Lemma order_by_ascending (a b : list (option V)) :
  length a = length b -> order_by (replicate (length a) false) a b = order_le a b.
Proof.
  revert b; induction a as [|x a IH]; intros [|y b] Hl; simpl in *; try done. injection Hl as Hl.
  case_bool_decide as Hxy; [subst y|].
  - rewrite IH by done. destruct x; [by rewrite bool_decide_true|done].
  - destruct x as [x|], y as [y|]; simpl; try done. by rewrite bool_decide_false by congruence.
Qed.

Lemma order_by_descending (a b : list (option V)) :
  length a = length b -> order_by (replicate (length a) true) a b = order_ge a b.
Proof.
  unfold order_ge. revert b; induction a as [|x a IH]; intros [|y b] Hl; simpl in *; try done. injection Hl as Hl.
  case_bool_decide as Hxy; [subst y|].
  - rewrite IH by done. destruct x; [by rewrite bool_decide_true|done].
  - destruct x as [x|], y as [y|]; simpl; try done. by rewrite bool_decide_false by congruence.
Qed.

Lemma ordering_columns (columns : list string) (d : bool) :
  ((fun c => (c, d)) <$> columns).*1 = columns /\ ((fun c => (c, d)) <$> columns).*2 = replicate (length columns) d.
Proof. induction columns as [|c columns [IH1 IH2]]; csimpl; [done|]. by rewrite IH1, IH2. Qed.

(** Rows in the order of their key are their keys in order. *)
Lemma in_order_ascending columns rows :
  key_vals columns <$> in_order (ascending columns) rows = sort_by order_le (key_vals columns <$> rows).
Proof.
  symmetry. apply sort_by_fmap. intros a b. unfold ascending.
  destruct (ordering_columns columns false) as [-> ->].
  rewrite <- (key_vals_length columns a). symmetry. apply order_by_ascending. by rewrite !key_vals_length.
Qed.

Lemma in_order_descending columns rows :
  key_vals columns <$> in_order (descending columns) rows = sort_by order_ge (key_vals columns <$> rows).
Proof.
  symmetry. apply sort_by_fmap. intros a b. unfold descending.
  destruct (ordering_columns columns true) as [-> ->].
  rewrite <- (key_vals_length columns a). symmetry. apply order_by_descending. by rewrite !key_vals_length.
Qed.

Lemma assign_lookup columns s r c : assign columns s r !! c = if bool_decide (c ∈ columns) then s !! c else r !! c.
Proof.
  unfold assign. induction columns as [|x columns IH]; simpl; [done|].
  destruct (decide (c = x)) as [->|Hne].
  - rewrite lookup_partial_alter_eq, bool_decide_true by left. done.
  - rewrite lookup_partial_alter_ne, IH by done. rewrite (bool_decide_ext (c ∈ x :: columns) (c ∈ columns)); [done|].
    rewrite elem_of_cons. naive_solver.
Qed.

Lemma key_vals_restrict key columns s :
  (forall c, c ∈ key -> c ∈ columns) -> key_vals key (restrict columns s) = key_vals key s.
Proof.
  intros Hd. unfold key_vals, restrict. apply list_fmap_ext. intros i c Hc. apply list_elem_of_lookup_2 in Hc.
  rewrite assign_lookup, bool_decide_true by auto. done.
Qed.

(** Comparing with the parameters is comparing with the cursor. *)
Lemma row_compare_args (k c : list (option V)) i :
  row_compare k (arg c <$> seq (S i) (length k)) = Some Gt <-> row_compare k (drop i c) = Some Gt.
Proof.
  revert i; induction k as [|x k IH]; intros i; csimpl; [by destruct (drop i c)|].
  unfold arg at 1. cbn [pred]. destruct (c !! i) as [v|] eqn:Hi.
  - rewrite (drop_S _ _ _ Hi). simpl. destruct x as [x|], v as [v|]; simpl; try done. case_bool_decide; [apply IH|done].
  - apply lookup_ge_None in Hi. rewrite drop_ge by done. by destruct x.
Qed.

Lemma row_gt_args (k c : list (option V)) : row_gt k (arg c <$> seq 1 (length k)) = row_gt k c.
Proof. apply bool_decide_ext, (row_compare_args k c 0). Qed.

Lemma stmt_columns_key key : rk_columns key <> [] -> stmt_columns key = rk_columns key.
Proof. unfold stmt_columns, rk_composite, rk_first. by destruct key as [[|k [|k2 ks]]]. Qed.

Lemma test_after key c r :
  rk_columns key <> [] -> c <> [] -> test_holds c (bt_where (batch_query key)) r = after key c r.
Proof.
  intros Hk Hc. unfold batch_query, after. cbn [bt_where]. rewrite stmt_columns_key by done.
  rewrite <- (key_vals_length (rk_columns key) r).
  destruct (rk_composite key); simpl; rewrite row_gt_args, ?orb_false_r; [|done].
  f_equal. destruct c as [|[v|] c]; done.
Qed.

Lemma head_fmap {A B} (f : A -> B) (l : list A) : f <$> head l = head (f <$> l).
Proof. by destruct l. Qed.

Lemma bound_eq key c limit src :
  rk_columns key <> [] -> c <> [] ->
  bound (bt_bound (batch_query key)) (S (length (stmt_columns key))) c limit src = upto key c limit src.
Proof.
  intros Hk Hc. unfold bound, upto.
  cbn [batch_query bt_bound bd_outer bd_outer_order bd_inner bd_inner_order bd_limit bd_where].
  change (if rk_composite key then _ else _) with (bt_where (batch_query key)).
  rewrite (filter_ext_elem (test_holds c (bt_where (batch_query key))) (after key c) src) by (intros; by apply test_after).
  rewrite stmt_columns_key by done. unfold limited. rewrite Nat.add_1_r, Nat.eqb_refl.
  rewrite head_fmap, in_order_descending. do 2 f_equal.
  rewrite <- list_fmap_compose, <- in_order_ascending, <- firstn_map. f_equal. apply list_fmap_ext.
  intros i r _. by apply key_vals_restrict.
Qed.

(** The statement's batch is that one, and what it returns are its keys in order. *)
Lemma select_batch_eq key c limit src :
  rk_columns key <> [] -> c <> [] ->
  select_batch (batch_query key) (S (length (stmt_columns key))) c limit src = batch key c limit src.
Proof.
  intros Hk Hc. unfold select_batch, batch. rewrite bound_eq by done. destruct (upto key c limit src); [|done].
  apply filter_ext_elem. intros r _. rewrite test_after by done. cbn [bt_bounded batch_query].
  by rewrite stmt_columns_key.
Qed.

Lemma returned_eq key b : rk_columns key <> [] -> returned (batch_query key) b = batch_keys key b.
Proof.
  intros Hk. unfold returned, batch_keys, batch_query. cbn [bt_returned bt_return_order].
  rewrite stmt_columns_key by done. apply in_order_ascending.
Qed.

(** What one batch is: the rows after the cursor up to a key one of them has. *)
Lemma batch_spec key c limit src :
  cursor_ok key c -> keyed (rk_columns key) src -> (1 <= limit)%nat ->
  (List.filter (after key c) src = [] /\ batch key c limit src = [])
  \/ exists u, complete u = true /\ length u = length (rk_columns key)
       /\ (row_gt u c || rk_composite key && match c with None :: _ => true | _ => false end = true)
       /\ (exists r, r ∈ src /\ after key c r = true /\ key_vals (rk_columns key) r = u)
       /\ batch key c limit src
          = List.filter (fun r => row_le (key_vals (rk_columns key) r) u) (List.filter (after key c) src)
       /\ last (batch_keys key (batch key c limit src)) = Some u.
Proof.
  intros Hc Hsrc Hlim. unfold batch, upto.
  set (ks := key_vals (rk_columns key) <$> List.filter (after key c) src).
  set (sorted := sort_by order_le ks).
  assert (StronglySorted (fun a b => order_le a b = true) sorted) as Hsorted.
  { apply sort_by_sorted; [apply order_le_total|apply order_le_trans]. }
  assert (StronglySorted (fun a b => order_le a b = true) (take limit sorted)) as Htake.
  { rewrite <- (take_drop limit sorted) in Hsorted. by eapply StronglySorted_app_1_l. }
  rewrite sort_ge_head by done. destruct (last (take limit sorted)) as [u|] eqn:Hu.
  2: { left. apply last_None in Hu. assert (ks = []) as Hks.
       { destruct ks as [|x ks']; [done|]. exfalso. subst sorted.
         pose proof (sort_by_Permutation order_le (x :: ks')) as Hp. apply Permutation_length in Hp.
         apply (f_equal length) in Hu. rewrite length_take in Hu. simpl in *. lia. }
       by apply fmap_nil_inv in Hks. }
  right. exists u. apply last_Some_elem_of in Hu as Hin.
  assert (u ∈ ks) as Hks.
  { rewrite <- (sort_by_Permutation order_le ks). change (u ∈ sorted). rewrite <- (take_drop limit sorted).
    apply elem_of_app. by left. }
  apply list_elem_of_fmap in Hks as (r0 & Hu0 & Hr0). apply elem_of_filter_bool in Hr0 as [Hr0 Ha0].
  assert (complete u = true) as Hcu. { rewrite Hu0. unfold keyed in Hsrc. rewrite Forall_forall in Hsrc. by apply Hsrc. }
  assert (length u = length (rk_columns key)) as Hlu by (rewrite Hu0; apply key_vals_length).
  split; [done|]. split; [done|]. split.
  { unfold after in Ha0. by rewrite <- Hu0 in Ha0. }
  split; [by exists r0|]. rewrite filter_filter. split; [done|].
  unfold batch_keys. apply (sorted_last_max order_le); [apply order_le_antisym| | |].
  - apply sort_by_sorted; [apply order_le_total|apply order_le_trans].
  - rewrite sort_by_Permutation. apply list_elem_of_fmap. exists r0. split; [done|].
    apply elem_of_filter_bool. split; [done|]. rewrite Ha0, <- Hu0, row_le_complete by done. apply order_le_refl.
  - intros x. rewrite sort_by_Permutation. intros (r & -> & Hr)%list_elem_of_fmap.
    apply elem_of_filter_bool in Hr as [Hr Hle]. apply andb_true_iff in Hle as [_ Hle].
    unfold keyed in Hsrc. rewrite Forall_forall in Hsrc.
    by rewrite row_le_complete in Hle by (rewrite ?key_vals_length; auto).
Qed.

(** Without a key the statement compares with a column that has no name. *)
Lemma select_batch_run key c limit src :
  cursor_ok key c ->
  select_batch (batch_query key) (S (length (stmt_columns key))) c limit src = batch key c limit src.
Proof.
  intros Hc. destruct (decide (rk_columns key = [])) as [Hk|Hk].
  - destruct Hc as [[Hcomp _]|[_ Hl]]; [unfold rk_composite in Hcomp; by rewrite Hk in Hcomp|].
    rewrite Hk in Hl. apply nil_length_inv in Hl as ->. destruct key as [columns]; simpl in Hk; subst columns.
    trans (@nil (Row V)); [|symmetry].
    + unfold select_batch. destruct (bound _ _ _ _ _); [|done]. apply filter_none. intros r _. simpl.
      unfold row_gt. csimpl. by destruct (r !! rk_first {| rk_columns := [] |}).
    + unfold batch. destruct (upto _ _ _ _); [|done]. by apply filter_none.
  - apply select_batch_eq; [done|]. destruct Hc as [[_ (c' & ->)]|[_ Hl]]; [done|]. intros ->. by destruct (rk_columns key).
Qed.

(** The walk cuts the rows after its cursor at keys. *)
Lemma walk_splits fuel key c limit src :
  cursor_ok key c -> keyed (rk_columns key) src -> (1 <= limit)%nat ->
  (length (List.filter (after key c) src) < fuel)%nat ->
  splits (rk_columns key) (List.filter (after key c) src) (source_walk fuel key c limit src).
Proof.
  revert c. induction fuel as [|fuel IH]; intros c Hc Hsrc Hlim Hfuel; [lia|].
  cbn [source_walk]. rewrite select_batch_run by done.
  destruct (batch_spec key c limit src Hc Hsrc Hlim) as [[He ->]|(u & Hcu & Hlu & Hgt & (r0 & Hr0 & Ha0 & Hk0) & Hb & Hlast)].
  { rewrite He. constructor. }
  assert (r0 ∈ batch key c limit src) as Hin.
  { rewrite Hb. apply elem_of_filter_bool. split; [by apply elem_of_filter_bool|].
    rewrite Hk0, row_le_complete by done. apply order_le_refl. }
  destruct (batch key c limit src) as [|b0 b] eqn:Hbatch; [by apply elem_of_nil in Hin|].
  assert (rk_columns key <> []) as Hne.
  { intros Hk. unfold rk_composite in Hgt. rewrite Hk in Hlu, Hgt. apply nil_length_inv in Hlu as ->. by destruct c. }
  rewrite returned_eq, Hlast by done. cbn [default from_option Datatypes.id]. rewrite Hb.
  assert (List.filter (after key u) src
          = List.filter (fun r => negb (row_le (key_vals (rk_columns key) r) u)) (List.filter (after key c) src)) as Hrest.
  { rewrite filter_filter. apply filter_ext_elem. intros r Hr. apply after_advance; try done.
    unfold keyed in Hsrc. rewrite Forall_forall in Hsrc. by apply Hsrc. }
  apply (splits_cons _ (fun k => row_le k u)). rewrite <- Hrest. apply IH; [by right|done|done|].
  rewrite Hrest. pose proof (filter_split (fun r => row_le (key_vals (rk_columns key) r) u) (List.filter (after key c) src)) as Hp.
  apply Permutation_length in Hp. rewrite length_app, <- Hb in Hp. simpl in Hp. lia.
Qed.

(** ** Rows and their keys *)
Lemma matches_keys columns r s : matches columns r s = true -> key_vals columns r = key_vals columns s.
Proof.
  unfold matches, key_vals. induction columns as [|c columns IH]; csimpl; [done|].
  destruct (r !! c), (s !! c); try done. intros [Hv Hrest]%andb_true_iff. apply bool_decide_eq_true in Hv as ->.
  f_equal. auto.
Qed.

Lemma matches_by_key columns r r' s s' :
  key_vals columns r = key_vals columns r' -> key_vals columns s = key_vals columns s' ->
  matches columns r s = matches columns r' s'.
Proof.
  unfold matches, key_vals. induction columns as [|c columns IH]; csimpl; [done|].
  intros [= Hr Hrs] [= Hs Hss]. rewrite Hr, Hs, IH by done. done.
Qed.

(** A row that takes values from one it matches keeps its key, even where the key
    is among the columns it takes. *)
Lemma key_vals_assign key sets s r :
  matches key r s = true -> key_vals key (assign sets s r) = key_vals key r.
Proof.
  intros Hm%matches_keys. unfold key_vals in *. apply list_fmap_ext. intros i c Hc. rewrite assign_lookup.
  case_if; [|done]. apply (f_equal (fun l => l !! i)) in Hm. rewrite !list_lookup_fmap, Hc in Hm. by injection Hm.
Qed.

Lemma find_split key p r src :
  List.find (matches key r) (List.filter (fun s => p (key_vals key s)) src)
  = if p (key_vals key r) then List.find (matches key r) src else None.
Proof. apply find_filter. intros s _ Hm. by rewrite (matches_keys key r s Hm). Qed.

Lemma find_by_key key r r' src :
  key_vals key r = key_vals key r' -> List.find (matches key r) src = List.find (matches key r') src.
Proof.
  intros Hk. induction src as [|s src IH]; simpl; [done|]. by rewrite (matches_by_key key r r' s s Hk), IH.
Qed.

(** ** A change in two parts

    The rows of the source on one side of a cut by key, then those on the other. *)
Lemma update_split key sets p src t :
  run_update key sets (List.filter (fun s => negb (p (key_vals key s))) src)
    (run_update key sets (List.filter (fun s => p (key_vals key s)) src) t)
  = run_update key sets src t.
Proof.
  unfold run_update. rewrite <- list_fmap_compose. apply list_fmap_ext. intros i r _. simpl.
  rewrite !find_split, (find_split key (fun k => negb (p k))).
  destruct (List.find (matches key r) src) as [s|] eqn:Hf.
  - pose proof (find_some _ _ Hf) as [_ Hm]. destruct (p (key_vals key r)) eqn:Hp; rewrite ?key_vals_assign, ?Hp by done; simpl; [done|]. by rewrite Hf.
  - assert ((if p (key_vals key r) then None else None : option (Row V)) = None) as -> by (by destruct (p _)).
    rewrite Hf. by destruct (negb _).
Qed.

Lemma delete_split key p src t :
  run_delete key (List.filter (fun s => negb (p (key_vals key s))) src)
    (run_delete key (List.filter (fun s => p (key_vals key s)) src) t)
  = run_delete key src t.
Proof.
  unfold run_delete. rewrite filter_filter. apply filter_ext_elem. intros r _.
  rewrite !existsb_find, !find_split, (find_split key (fun k => negb (p k))).
  destruct (p (key_vals key r)), (List.find (matches key r) src); done.
Qed.

Lemma insert_split key columns p src t :
  run_insert (fun _ => true) columns None (List.filter (fun s => negb (p (key_vals key s))) src)
    (run_insert (fun _ => true) columns None (List.filter (fun s => p (key_vals key s)) src) t)
  ≡ₚ run_insert (fun _ => true) columns None src t.
Proof.
  assert (forall l t, foldl (insert_one (fun _ => true) None) t l = t ++ l) as Hfold.
  { induction l as [|x l IH]; intros u; simpl; [by rewrite app_nil_r|]. by rewrite IH, <- app_assoc. }
  unfold run_insert. rewrite !Hfold, <- app_assoc, <- fmap_app. f_equiv. apply fmap_Permutation, filter_split.
Qed.

(** MERGE with the rows of one side leaves the target rows of the other alone. *)
Lemma merge_row_filter key matched sets p src r :
  merge_row key matched sets false (List.filter (fun s => p (key_vals key s)) src) r
  = if p (key_vals key r) then merge_row key matched sets false src r else Some r.
Proof. unfold merge_row. rewrite find_split. by destruct (p (key_vals key r)). Qed.

Lemma merge_row_key key matched sets src r r' :
  merge_row key matched sets false src r = Some r' -> key_vals key r' = key_vals key r.
Proof.
  unfold merge_row. destruct (List.find _ _) eqn:Hf; [|by intros [= ->]]. apply find_some in Hf as [_ Hm].
  destruct matched; intros [= <-]; [by apply key_vals_assign|done].
Qed.

Lemma merge_row_split key matched sets p src r :
  (merge_row key matched sets false (List.filter (fun s => p (key_vals key s)) src) r
   ≫= merge_row key matched sets false (List.filter (fun s => negb (p (key_vals key s))) src))
  = merge_row key matched sets false src r.
Proof.
  rewrite merge_row_filter. destruct (p (key_vals key r)) eqn:Hp; simpl.
  - destruct (merge_row key matched sets false src r) as [r'|] eqn:Hr; simpl; [|done].
    by rewrite (merge_row_filter _ _ _ (fun k => negb (p k))), (merge_row_key _ _ _ _ _ _ Hr), Hp.
  - by rewrite (merge_row_filter _ _ _ (fun k => negb (p k))), Hp.
Qed.

(** A target row that matches a row beyond the cut is the row it was. *)
Lemma merge_keeps_unmatched key matched sets inserts p src t s :
  (forall columns, inserts = Some columns -> forall c, c ∈ key -> c ∈ columns) ->
  p (key_vals key s) = false ->
  existsb (fun r => matches key r s)
    (run_merge key matched sets inserts false (List.filter (fun s => p (key_vals key s)) src) t)
  = existsb (fun r => matches key r s) t.
Proof.
  intros Hi Hs. unfold run_merge. rewrite existsb_app. apply eq_true_iff_eq. rewrite orb_true_iff.
  rewrite !existsb_exists. setoid_rewrite <- list_elem_of_In. split.
  - intros [(r' & Hr' & Hm)|(r' & Hr' & Hm)].
    + apply list_elem_of_omap in Hr' as (r & Hr & Hmr). exists r. split; [done|].
      rewrite merge_row_filter in Hmr. destruct (p (key_vals key r)) eqn:Hp; [|by injection Hmr as ->].
      apply merge_row_key in Hmr. apply matches_keys in Hm. congruence.
    + exfalso. unfold merge_inserts in Hr'. destruct inserts as [columns|]; [|by apply elem_of_nil in Hr'].
      apply list_elem_of_fmap in Hr' as (s' & -> & Hs'). apply elem_of_filter_bool in Hs' as [Hs' _].
      apply elem_of_filter_bool in Hs' as [_ Hp]. apply matches_keys in Hm.
      rewrite key_vals_restrict in Hm by eauto. congruence.
  - intros (r & Hr & Hm). left. exists r. split; [|done]. apply list_elem_of_omap. exists r. split; [done|].
    by rewrite merge_row_filter, (matches_keys _ _ _ Hm), Hs.
Qed.

(** What one part inserted, the other keeps. *)
Lemma merge_keeps_inserted key matched sets columns p src (l : list (Row V)) :
  (forall c, c ∈ key -> c ∈ columns) -> (forall s, s ∈ l -> p (key_vals key s) = true) ->
  omap (merge_row key matched sets false (List.filter (fun s => negb (p (key_vals key s))) src)) (restrict columns <$> l)
  = restrict columns <$> l.
Proof.
  intros Hi. induction l as [|s l IH]; intros Hl; csimpl; [done|].
  rewrite (merge_row_filter _ _ _ (fun k => negb (p k))), key_vals_restrict, Hl by (done || left). simpl.
  rewrite IH; [done|]. intros. apply Hl. by right.
Qed.

Lemma merge_split key matched sets inserts p src t :
  (forall columns, inserts = Some columns -> forall c, c ∈ key -> c ∈ columns) ->
  run_merge key matched sets inserts false (List.filter (fun s => negb (p (key_vals key s))) src)
    (run_merge key matched sets inserts false (List.filter (fun s => p (key_vals key s)) src) t)
  ≡ₚ run_merge key matched sets inserts false src t.
Proof.
  intros Hi. pose proof (fun s => merge_keeps_unmatched key matched sets inserts p src t s Hi) as Hun.
  revert Hun. unfold run_merge. intros Hun. rewrite omap_app, <- app_assoc.
  rewrite (omap_two _ _ _ t (fun r => merge_row_split key matched sets p src r)). f_equiv.
  unfold merge_inserts in *. destruct inserts as [columns|]; [|done].
  rewrite merge_keeps_inserted; [|by eauto|by intros s [[_ ?]%elem_of_filter_bool _]%elem_of_filter_bool].
  rewrite <- fmap_app. apply fmap_Permutation.
  rewrite <- (filter_cut (fun s => p (key_vals key s)) (fun s => negb (existsb (fun r => matches key r s) t)) src).
  f_equiv. erewrite filter_ext_elem; [done|]. intros s [_ Hs]%elem_of_filter_bool. f_equal. apply Hun.
  by apply negb_true_iff.
Qed.

(** A mutation whose parts can be run one after the other: what a MERGE inserts
    carries its key and it deletes nothing for not being in the source, and a row
    an INSERT adds is not held against another. *)
Definition separable (key : list string) (m : Mutation) : Prop :=
  match m with
  | InsertRows _ _ conflict => conflict = None
  | UpdateRows _ | DeleteRows => True
  | MergeRows _ _ inserts by_source =>
      (forall columns, inserts = Some columns -> forall c, c ∈ key -> c ∈ columns) /\ by_source = false
  end.

Lemma mutation_split within key m p src t :
  separable key m ->
  run_mutation within key m (List.filter (fun s => negb (p (key_vals key s))) src)
    (run_mutation within key m (List.filter (fun s => p (key_vals key s)) src) t)
  ≡ₚ run_mutation within key m src t.
Proof.
  destruct m as [columns o conflict|sets| |matched sets inserts by_source]; simpl.
  - intros ->. apply insert_split.
  - intros. by rewrite update_split.
  - intros. by rewrite delete_split.
  - intros (? & ->). by apply merge_split.
Qed.

Lemma mutation_nil within key m t :
  separable key m -> run_mutation within key m [] t = t.
Proof.
  destruct m as [columns o conflict|sets| |matched sets inserts by_source]; simpl.
  - intros ->. done.
  - intros _. unfold run_update. simpl. by apply list_fmap_id.
  - intros _. unfold run_delete. by apply filter_all.
  - intros (_ & ->). unfold run_merge, merge_inserts. simpl.
    assert (omap (merge_row key matched sets false []) t = t) as -> by (induction t as [|r t IH]; csimpl; congruence).
    destruct inserts; simpl; by rewrite app_nil_r.
Qed.

Lemma walk_all fuel key c limit src :
  Forall (fun b => b <> []) (source_walk fuel key c limit src).
Proof.
  revert c. induction fuel as [|fuel IH]; intros c; simpl; [done|].
  destruct (select_batch _ _ c limit src) as [|b0 b]; constructor; [done|apply IH].
Qed.

Lemma concat_length_bound {A} (bs : list (list A)) : Forall (fun b => b <> []) bs -> (length bs <= length (concat bs))%nat.
Proof. induction 1 as [|[|x b] bs Hb _ IH]; simpl; [done|done|]. rewrite length_app. lia. Qed.

Lemma splits_run within key m src bs t :
  separable key m -> splits key src bs ->
  foldl (fun t b => run_mutation within key m b t) t bs ≡ₚ run_mutation within key m src t.
Proof.
  intros Hm Hs. revert t. induction Hs as [|p src bs _ IH]; intros t; simpl; [by rewrite mutation_nil|].
  rewrite IH. by apply mutation_split.
Qed.

Lemma paced_run within key c limit m src t :
  separable (rk_columns key) m -> cursor_ok key c -> keyed (rk_columns key) src -> (1 <= limit)%nat ->
  let bs := source_walk (S (length src)) key c limit src in
  let ahead := List.filter (after key c) src in
  concat bs ≡ₚ ahead /\ (length bs <= length src)%nat
  /\ run_paced within key c limit m src t ≡ₚ run_whole within key m ahead t.
Proof.
  intros Hm Hc Hsrc Hlim bs ahead. assert (splits (rk_columns key) ahead bs) as Hs.
  { apply walk_splits; try done. pose proof (filter_split (after key c) src) as Hp. apply Permutation_length in Hp.
    rewrite length_app in Hp. lia. }
  assert (concat bs ≡ₚ ahead) as Hcat by by eapply splits_concat.
  split; [done|]. split; [|by apply splits_run].
  pose proof (concat_length_bound bs (walk_all _ _ _ _ _)) as Hb. rewrite Hcat in Hb.
  pose proof (filter_split (after key c) src) as Hp. apply Permutation_length in Hp. rewrite length_app in Hp.
  unfold ahead in Hb. lia.
Qed.

(** ** The rows a capture saves *)

(** No two rows agree on the columns. *)
Definition apart (columns : list string) (rows : list (Row V)) : Prop :=
  forall n m r s, rows !! n = Some r -> rows !! m = Some s -> matches columns r s = true -> n = m.

Lemma filter_matches_split key p r src :
  List.filter (matches key r) (List.filter (fun s => p (key_vals key s)) src)
  = if p (key_vals key r) then List.filter (matches key r) src else [].
Proof.
  rewrite filter_filter. destruct (p (key_vals key r)) eqn:Hp.
  - apply filter_ext_elem. intros s _. destruct (matches key r s) eqn:Hm; [|by rewrite andb_false_r].
    by rewrite <- (matches_keys _ _ _ Hm), Hp.
  - induction src as [|s src IH]; simpl; [done|]. destruct (matches key r s) eqn:Hm; [|by rewrite andb_false_r].
    by rewrite <- (matches_keys _ _ _ Hm), Hp.
Qed.

(** A change that drops rows or changes them without moving their key, and leaves
    alone what the first part of the source does not match. *)
Lemma captured_split key cols p src t (f : Row V -> option (Row V)) :
  (forall r r', f r = Some r' -> key_vals key r' = key_vals key r) ->
  (forall r, p (key_vals key r) = false -> f r = Some r) ->
  captured key cols (List.filter (fun s => p (key_vals key s)) src) t
  ++ captured key cols (List.filter (fun s => negb (p (key_vals key s))) src) (omap f t)
  ≡ₚ captured key cols src t.
Proof.
  intros Hkey Hf. unfold captured. induction t as [|r t IH]; csimpl; [done|].
  rewrite filter_matches_split. destruct (p (key_vals key r)) eqn:Hp.
  - rewrite <- app_assoc. f_equiv. destruct (f r) as [r'|] eqn:Hr; [|exact IH]. csimpl.
    by rewrite (filter_matches_split key (fun k => negb (p k))), (Hkey r r' Hr), Hp.
  - rewrite (Hf r Hp). csimpl. rewrite (filter_matches_split key (fun k => negb (p k))), Hp. simpl.
    rewrite (Permutation_app_comm (_ <$> List.filter _ src)), app_assoc, IH. apply Permutation_app_comm.
Qed.

(** The change of one row by UPDATE and by DELETE. *)
Definition updated_row key sets src r : option (Row V) :=
  Some (match List.find (matches key r) src with Some s => assign sets s r | None => r end).
Definition kept_row key src r : option (Row V) := if existsb (matches key r) src then None else Some r.

Lemma run_update_omap key sets src t : run_update key sets src t = omap (updated_row key sets src) t.
Proof. induction t as [|r t IH]; csimpl; [done|]. by rewrite <- IH. Qed.

Lemma run_delete_omap key src t : run_delete key src t = omap (kept_row key src) t.
Proof.
  unfold run_delete, kept_row. induction t as [|r t IH]; csimpl; [done|]. by destruct (existsb _ _); rewrite <- IH.
Qed.

Lemma updated_row_part key sets p src r r' :
  (updated_row key sets (List.filter (fun s => p (key_vals key s)) src) r = Some r' -> key_vals key r' = key_vals key r)
  /\ (p (key_vals key r) = false -> updated_row key sets (List.filter (fun s => p (key_vals key s)) src) r = Some r).
Proof.
  unfold updated_row. rewrite find_split. split; [|by intros ->].
  intros [= <-]. destruct (p _); [|done]. destruct (List.find _ _) eqn:Hf; [|done].
  apply find_some in Hf as [_ Hm]. by apply key_vals_assign.
Qed.

Lemma kept_row_part key p src r r' :
  (kept_row key (List.filter (fun s => p (key_vals key s)) src) r = Some r' -> key_vals key r' = key_vals key r)
  /\ (p (key_vals key r) = false -> kept_row key (List.filter (fun s => p (key_vals key s)) src) r = Some r).
Proof.
  unfold kept_row. split; [by case_if; [|intros [= ->]]|]. intros Hp. by rewrite existsb_find, find_split, Hp.
Qed.

(** ** Statements with their capture *)

(** One statement: the table after it, and what its capture adds to the side table. *)
Definition change_and_capture within (key : list string) (cols : option (list string)) (m : Mutation)
    (ts : list (Row V) * list (Row V)) (src : list (Row V)) : list (Row V) * list (Row V) :=
  (run_mutation within key m src ts.1,
   ts.2 ++ match cols with Some cols => captured key cols src ts.1 | None => [] end).

Definition run_stmt within (c : list (option V)) (limit : nat) (s : RowStmt) (src t : list (Row V)) :
  list (Row V) * list (Row V) :=
  let key := rs_key s in
  let step := change_and_capture within (rk_columns key) (pv_cols <$> rs_saved s) (rs_mutation s) in
  if rs_paced s then foldl step (t, []) (source_walk (S (length src)) key c limit src)
  else step (t, []) src.

(** The kinds whose capture names every row they change. *)
Definition by_key_only (m : Mutation) : Prop := match m with UpdateRows _ | DeleteRows => True | _ => False end.

Lemma splits_capture within key cols m src bs t sv :
  by_key_only m -> splits key src bs ->
  let r := foldl (change_and_capture within key (Some cols) m) (t, sv) bs in
  r.1 = run_mutation within key m src t /\ r.2 ≡ₚ sv ++ captured key cols src t.
Proof.
  intros Hm Hs. revert t sv. induction Hs as [|p src bs _ IH]; intros t sv; simpl.
  - assert (captured key cols [] t = []) as -> by (unfold captured; induction t; csimpl; auto).
    split; [|by rewrite app_nil_r]. rewrite mutation_nil; [done|]. by destruct m.
  - destruct (IH (run_mutation within key m (List.filter (fun r => p (key_vals key r)) src) t)
                 (sv ++ captured key cols (List.filter (fun r => p (key_vals key r)) src) t)) as [H1 H2].
    rewrite <- app_assoc in H2.
    split; [etransitivity; [exact H1|]|etransitivity; [exact H2|f_equiv]]; destruct m as [|sets| |]; try done; cbn [run_mutation].
    + by apply update_split.
    + by apply delete_split.
    + rewrite run_update_omap. apply captured_split; intros; by eapply updated_row_part.
    + rewrite run_delete_omap. apply captured_split; intros; by eapply kept_row_part.
Qed.

(** The rows the statement reaches: those after the cursor when it is paced. *)
Definition reached (c : list (option V)) (s : RowStmt) (src : list (Row V)) : list (Row V) :=
  if rs_paced s then List.filter (after (rs_key s) c) src else src.

Lemma run_stmt_spec within c limit (s : RowStmt) pv src t :
  by_key_only (rs_mutation s) -> rs_saved s = Some pv ->
  (rs_paced s = true -> cursor_ok (rs_key s) c /\ keyed (rk_columns (rs_key s)) src /\ (1 <= limit)%nat) ->
  let r := run_stmt within c limit s src t in
  r.1 = run_mutation within (rk_columns (rs_key s)) (rs_mutation s) (reached c s src) t
  /\ r.2 ≡ₚ captured (rk_columns (rs_key s)) (pv_cols pv) (reached c s src) t.
Proof.
  intros Hm Hpv Hp. unfold run_stmt, reached. rewrite Hpv. destruct (rs_paced s); [|done].
  destruct (Hp eq_refl) as (Hc & Hk & Hl). apply splits_capture; [done|]. apply walk_splits; try done.
  pose proof (filter_split (after (rs_key s) c) src) as Hq. apply Permutation_length in Hq. rewrite length_app in Hq. lia.
Qed.

(** ** Taking a change back *)
Lemma matches_self key r : complete (key_vals key r) = true -> matches key r r = true.
Proof.
  unfold complete, key_vals, matches. induction key as [|c key IH]; csimpl; [done|].
  destruct (r !! c); [|done]. intros. rewrite bool_decide_true by done. by apply IH.
Qed.

Lemma matches_complete key r s : matches key r s = true -> complete (key_vals key r) = true.
Proof.
  unfold complete, key_vals, matches. induction key as [|c key IH]; csimpl; [done|].
  destruct (r !! c), (s !! c); try done. intros [_ ?]%andb_true_iff. by apply IH.
Qed.

(** Putting back what was saved of a row undoes a change of saved columns only. *)
Lemma assign_restrict sets cols s r :
  (forall c, c ∈ sets -> c ∈ cols) -> assign cols (restrict cols r) (assign sets s r) = r.
Proof.
  intros Hsub. apply map_eq. intros c. unfold restrict. rewrite !assign_lookup.
  destruct (bool_decide_reflect (c ∈ cols)) as [Hc|Hc]; [done|].
  rewrite bool_decide_false by auto. done.
Qed.

Lemma update_reverts key sets cols src saved t :
  apart key t -> (forall c, c ∈ key -> c ∈ cols) -> (forall c, c ∈ sets -> c ∈ cols) ->
  saved ≡ₚ captured key cols src t ->
  run_update key cols saved (run_update key sets src t) = t.
Proof.
  intros Ha Hkc Hsc Hsv. unfold run_update. rewrite <- list_fmap_compose.
  rewrite <- (list_fmap_id t) at 2. apply list_fmap_ext. intros n r Hr. unfold compose, Datatypes.id.
  assert (forall x, x ∈ saved <-> exists r2 s, r2 ∈ t /\ s ∈ src /\ matches key r2 s = true /\ x = restrict cols r2) as Hin.
  { intros x. rewrite Hsv. unfold captured. rewrite list_elem_of_bind. split.
    - intros (r2 & (s & -> & Hs)%list_elem_of_fmap & Hr2). apply elem_of_filter_bool in Hs as [??]. eauto 10.
    - intros (r2 & s & Hr2 & Hs & Hm & ->). exists r2. split; [|done]. apply list_elem_of_fmap. exists s.
      split; [done|]. by apply elem_of_filter_bool. }
  set (r' := match List.find (matches key r) src with Some s => assign sets s r | None => r end).
  assert (key_vals key r' = key_vals key r) as Hk'.
  { unfold r'. destruct (List.find _ _) eqn:Hf; [|done]. apply find_some in Hf as [_ Hm]. by apply key_vals_assign. }
  destruct (List.find (matches key r') saved) as [x|] eqn:Hfind.
  - apply find_some in Hfind as [Hx Hm]. apply list_elem_of_In, Hin in Hx as (r2 & s & Hr2 & Hs & Hms & ->).
    apply list_elem_of_lookup in Hr2 as [m Hr2].
    assert (n = m) as <-.
    { eapply Ha; [done..|]. rewrite <- Hm. symmetry. apply matches_by_key; [done|]. by apply key_vals_restrict. }
    rewrite Hr in Hr2. injection Hr2 as <-. unfold r'.
    destruct (List.find _ _); [by apply assign_restrict|].
    change r with (assign [] r r) at 2. apply assign_restrict. by intros c Hc%elem_of_nil.
  - unfold r'. destruct (List.find (matches key r) src) as [s|] eqn:Hf; [|done]. exfalso.
    pose proof (find_some _ _ Hf) as [Hs Hm].
    pose proof (find_none _ _ Hfind (restrict cols r)) as Hno.
    rewrite <- list_elem_of_In, Hin in Hno.
    rewrite (matches_by_key key r' r (restrict cols r) r) in Hno; [|done|by apply key_vals_restrict].
    rewrite matches_self in Hno by (by eapply matches_complete). apply Bool.diff_true_false. apply Hno.
    exists r, s. split_and!; [by eapply list_elem_of_lookup_2|by apply list_elem_of_In|done|done].
Qed.

Lemma apart_filter key r src :
  apart key src -> List.filter (matches key r) src = option_list (List.find (matches key r) src).
Proof.
  induction src as [|s src IH]; intros Ha; simpl; [done|].
  assert (apart key src) as Ha'.
  { intros n m a b Hn Hm Hab. apply Nat.succ_inj. by eapply (Ha (S n) (S m)). }
  destruct (matches key r s) eqn:Hm; [|by apply IH]. simpl. f_equal. rewrite IH by done.
  destruct (List.find (matches key r) src) as [s2|] eqn:Hf; [|done]. exfalso.
  apply find_some in Hf as [Hs2 Hm2]. apply list_elem_of_In, list_elem_of_lookup in Hs2 as [n Hn].
  assert (0%nat = S n); [|done]. eapply (Ha 0%nat (S n)); [done..|].
  rewrite <- Hm2. apply matches_by_key; [|done]. symmetry. by apply matches_keys.
Qed.

Lemma restrict_all cols r : (forall c, is_Some (r !! c) -> c ∈ cols) -> restrict cols r = r.
Proof.
  intros Hc. apply map_eq. intros c. unfold restrict. rewrite assign_lookup.
  destruct (bool_decide_reflect (c ∈ cols)) as [|Hn]; [done|]. rewrite lookup_empty. symmetry.
  destruct (r !! c) eqn:Hr; [|done]. destruct Hn. apply Hc. by rewrite Hr.
Qed.

Lemma delete_reverts key cols src saved t :
  apart key src -> (forall r c, r ∈ t -> is_Some (r !! c) -> c ∈ cols) -> saved ≡ₚ captured key cols src t ->
  run_delete key src t ++ saved ≡ₚ t.
Proof.
  intros Ha Hcols ->. unfold run_delete, captured. induction t as [|r t IH]; csimpl; [done|].
  rewrite apart_filter, existsb_find by done.
  assert (restrict cols r = r) as Hrr by (apply restrict_all; intros; eapply Hcols; [left|done]).
  specialize (IH ltac:(intros; eapply Hcols; [by right|done])).
  destruct (List.find (matches key r) src) as [s|]; simpl.
  - rewrite Hrr, <- Permutation_middle. by constructor.
  - by constructor.
Qed.

Lemma apart_sublist_filter key (p : Row V -> bool) src : apart key src -> apart key (List.filter p src).
Proof.
  intros Ha. induction src as [|s src IH]; simpl; [done|].
  assert (apart key src) as Ha'.
  { intros n m a b Hn Hm Hab. apply Nat.succ_inj. by eapply (Ha (S n) (S m)). }
  destruct (p s); [|by apply IH]. specialize (IH Ha'). intros [|n] [|m] a b; simpl; [done| | |].
  - intros [= <-] Hm Hab. exfalso. apply list_elem_of_lookup_2, elem_of_filter_bool in Hm as [Hm _].
    apply list_elem_of_lookup in Hm as [k Hk]. assert (0%nat = S k); [|done]. by eapply Ha.
  - intros Hn [= <-] Hab. exfalso. apply list_elem_of_lookup_2, elem_of_filter_bool in Hn as [Hn _].
    apply list_elem_of_lookup in Hn as [k Hk]. assert (S k = 0%nat); [|done]. by eapply Ha.
  - intros Hn Hm Hab. f_equal. by eapply IH.
Qed.

End Walks.
