(* ===== verification/Intents.v ===== *)
(** * Intents: the body checks of the single kinds (src/cpp/src/spec.h)

    One definition per [parse_...] of spec.h, in the order of its checks, and the
    switch of [parse_spec] over them as the instance of [Bodies] the tool has. The
    functions of spec.h read the body and throw; nothing is changed in it. A hint
    and the wording of a refusal are left out: [Refused] names the key or the
    complaint. What a vendor module checks is a parameter. *)
From S2P Require Import Prelude Json Canonical Spec Quote.

(** ** The shapes the checks are made of *)
Notation fail_if c what := (throw_if c (Refused what)).

Definition fail {A} (what : string) : result spec_error A := Err (Refused what).

(** [for (const auto& x : l) ...]. *)
Fixpoint each {A} (f : A -> result spec_error unit) (l : list A) : result spec_error unit :=
  match l with [] => Ok tt | x :: l' => _ ← f x; each f l' end.

(** [require_identifier(require_string(obj, key, at), key, ordinal)]. *)
Definition identifier_at (b : json) (k : string) : result spec_error unit :=
  s ← require_string b k; require_identifier s.

Definition text_at (b : json) (k : string) : result spec_error unit := _ ← require_string b k; Ok tt.

(** [v.get<std::string>()]. *)
Definition get_string (v : json) : result spec_error string :=
  match v with JStr s => Ok s | _ => Err (Threw TypeError) end.

Definition is_number (v : json) : bool := match v with JInt _ | JUint _ | JFloat _ => true | _ => false end.

(** [v == s], a value compared with a literal. *)
Definition is_text (v : json) (s : string) : bool := match v with JStr t => String.eqb t s | _ => false end.

Definition one_of (l : list string) (v : json) : bool := existsb (is_text v) l.

(** The key is absent, or what is there passes the test. *)
Definition if_given (b : json) (k : string) (f : json -> bool) : result spec_error unit :=
  fail_if (contains b k && negb (f (at_key b k))) k.

(** The key is there and a boolean. *)
Definition boolean_at (b : json) (k : string) : result spec_error unit :=
  fail_if (negb (contains b k) || negb (is_boolean (at_key b k))) k.

Definition non_empty_array (b : json) (k : string) : result spec_error (list json) :=
  match at_key b k with JArr (x :: l) => Ok (x :: l) | _ => fail k end.

Definition non_empty_text (v : json) : bool := match v with JStr s => negb (String.eqb s "") | _ => false end.

(** An entry that has to be a string naming something. *)
Definition entry_identifier (v : json) : result spec_error unit :=
  match v with JStr s => require_identifier s | _ => fail "entries must be strings" end.

Definition some_of (b : json) (ks : list string) : bool := existsb (contains b) ks.

Definition optional_creation_comment (b : json) : result spec_error unit := if_given b "comment" non_empty_text.

Definition identifiers_at (b : json) (ks : list string) : result spec_error unit := each (identifier_at b) ks.

(** The head of a definition is not the word CREATE in any case. *)
Definition starts_with_create (def : string) : bool :=
  String.eqb (lower_text (String.substring 0 6 def)) "create".

(** A name that is qualified by a schema or not. *)
Definition require_qualified (v : string) : result spec_error unit :=
  match split_first "." v with
  | None => require_identifier v
  | Some (a, b) => _ ← require_identifier a; require_identifier b
  end.

(** A list of names without repetition. *)
Fixpoint distinct_identifiers (seen : list string) (l : list json) : result spec_error unit :=
  match l with
  | [] => Ok tt
  | JStr s :: l' =>
      _ ← require_identifier s;
      if existsb (String.eqb s) seen then fail "named twice" else distinct_identifiers (seen ++ [s]) l'
  | _ :: _ => fail "entries must be strings"
  end.

(** ** Columns *)
Definition fill_source (src : json) : result spec_error unit :=
  match src with
  | JStr s => fail_if (String.eqb s "") "fill"
  | JObj l =>
      _ ← each (fun kv => fail_if (negb (existsb (String.eqb kv.1) ["from"; "on"; "value"])) "fill") l;
      each (text_at src) ["from"; "on"; "value"]
  | _ => fail "fill"
  end.

Definition parse_fill (b : json) : result spec_error unit :=
  let fill := at_key b "fill" in
  _ ← match fill with
      | JStr s => fail_if (String.eqb s "") "fill"
      | JArr (x :: l) => each fill_source (x :: l)
      | _ => fail "fill"
      end;
  fail_if (match at_key b "nullable" with JBool true => true | _ => false end) "fill".

Definition parse_add_column (b : json) : result spec_error unit :=
  _ ← reject_unknown_keys b ["kind"; "schema"; "table"; "column"; "type"; "nullable"; "default"; "comment"; "fill";
                             "key"; "after"; "paced"];
  _ ← identifiers_at b ["schema"; "table"; "column"];
  _ ← text_at b "type";
  _ ← boolean_at b "nullable";
  _ ← text_at b "comment";
  _ ← (if contains b "paced" then
         _ ← fail_if (negb (is_boolean (at_key b "paced"))) "paced"; fail_if (negb (contains b "fill")) "paced"
       else Ok tt);
  _ ← (if contains b "fill" then parse_fill b else Ok tt);
  let defaulted_fill :=
    contains b "fill" && contains b "default" && match at_key b "default" with JNull => false | _ => true end in
  _ ← fail_if (defaulted_fill && contains b "after") "after";
  _ ← (if negb defaulted_fill && (contains b "fill" || contains b "after") then
         _ ← fail_if (negb (contains b "fill")) "after";
         fail_if (negb (one_of ["drop_trigger"; "keep_trigger"] (at_key b "after"))) "after"
       else Ok tt);
  _ ← (if contains b "key" then
         _ ← fail_if (negb (contains b "fill")) "key";
         match at_key b "key" with JStr s => require_identifier s | _ => fail "key" end
       else Ok tt);
  if negb (contains b "fill") then Ok tt
  else
    t ← str b "table"; c ← str b "column";
    fail_if (63 <? String.length (t +:+ "_" +:+ c +:+ "_laswell_fill"))%nat "generated name".

Definition parse_set_not_null (b : json) : result spec_error unit :=
  _ ← reject_unknown_keys b ["kind"; "schema"; "table"; "column"; "keep_check"];
  _ ← identifiers_at b ["schema"; "table"; "column"];
  if_given b "keep_check" is_boolean.

Definition parse_alter_column_type (b : json) : result spec_error unit :=
  _ ← reject_unknown_keys b ["kind"; "schema"; "table"; "column"; "type"; "using"];
  _ ← identifiers_at b ["schema"; "table"; "column"];
  _ ← text_at b "type";
  throw_if (contains b "using" && negb (is_string (at_key b "using"))) (Runtime "using").

Definition parse_alter_column_default (b : json) : result spec_error unit :=
  _ ← reject_unknown_keys b ["kind"; "schema"; "table"; "column"; "default"];
  _ ← identifiers_at b ["schema"; "table"; "column"];
  if_given b "default" is_string.

Definition parse_drop_not_null (b : json) : result spec_error unit :=
  _ ← reject_unknown_keys b ["kind"; "schema"; "table"; "column"];
  identifiers_at b ["schema"; "table"; "column"].

Definition parse_drop_column (b : json) : result spec_error unit :=
  _ ← reject_unknown_keys b ["kind"; "schema"; "table"; "column"];
  identifiers_at b ["schema"; "table"; "column"].

Definition parse_set_identity (b : json) : result spec_error unit :=
  _ ← reject_unknown_keys b ["kind"; "schema"; "table"; "column"; "identity"];
  _ ← identifiers_at b ["schema"; "table"; "column"];
  if contains b "identity" then
    v ← require_string b "identity";
    fail_if (negb (String.eqb v "ALWAYS") && negb (String.eqb v "BY DEFAULT")) "identity"
  else Ok tt.

Definition parse_set_column_options (b : json) : result spec_error unit :=
  _ ← reject_unknown_keys b ["kind"; "schema"; "table"; "column"; "statistics"; "storage"; "compression"];
  _ ← identifiers_at b ["schema"; "table"; "column"];
  _ ← if_given b "statistics" is_number_integer;
  _ ← (if contains b "storage" then
         v ← str b "storage"; fail_if (negb (one_of ["PLAIN"; "EXTERNAL"; "EXTENDED"; "MAIN"] (JStr v))) "storage"
       else Ok tt);
  _ ← (if contains b "compression" then
         v ← str b "compression"; fail_if (negb (one_of ["pglz"; "lz4"; "default"] (JStr v))) "compression"
       else Ok tt);
  fail_if (negb (some_of b ["statistics"; "storage"; "compression"])) "changes nothing".

(** ** Indexes and constraints *)
Definition index_entry (c : json) : result spec_error unit :=
  match c with
  | JStr s => require_identifier s
  | JObj _ =>
      _ ← reject_unknown_keys c ["name"; "expression"; "direction"; "nulls"; "opclass"];
      let has_name := contains c "name" in
      _ ← fail_if (Bool.eqb has_name (contains c "expression")) "columns";
      _ ← (if has_name then identifier_at c "name" else text_at c "expression");
      _ ← if_given c "direction" (one_of ["asc"; "desc"]);
      _ ← if_given c "nulls" (one_of ["first"; "last"]);
      if contains c "opclass" then identifier_at c "opclass" else Ok tt
  | _ => fail "columns"
  end.

Definition short_word (v : json) : bool :=
  match v with
  | JStr s => negb (String.eqb s "")
              && forallb (fun c => is_alnum c || Ascii.eqb c "_" || Ascii.eqb c ".") (String.list_ascii_of_string s)
  | _ => false
  end.

Definition storage_parameter (kv : string * json) : result spec_error unit :=
  _ ← require_identifier kv.1;
  fail_if (negb (is_number kv.2 || is_boolean kv.2 || short_word kv.2)) "with".

Definition parse_create_index (b : json) : result spec_error unit :=
  _ ← reject_unknown_keys b ["kind"; "schema"; "table"; "name"; "columns"; "include"; "unique"; "method"; "where";
                             "with"; "comment"; "on_equivalent_index"];
  _ ← identifiers_at b ["schema"; "table"; "name"];
  columns ← non_empty_array b "columns";
  _ ← each index_entry columns;
  _ ← (if contains b "include" then
         include ← non_empty_array b "include";
         _ ← each entry_identifier include;
         method ← lift (value_str b "method" "btree");
         fail_if (negb (one_of ["btree"; "gist"; "spgist"] (JStr method))) "include"
       else Ok tt);
  _ ← text_at b "comment";
  _ ← (if contains b "with" then
         match at_key b "with" with
         | JObj (x :: l) => each storage_parameter (x :: l)
         | _ => fail "with"
         end
       else Ok tt);
  if_given b "on_equivalent_index" (one_of ["rename"; "adopt"; "refuse"]).

Definition parse_drop_index (b : json) : result spec_error unit :=
  _ ← reject_unknown_keys b ["kind"; "schema"; "table"; "name"];
  identifiers_at b ["schema"; "table"; "name"].

Definition foreign_key_actions : list string := ["NO ACTION"; "RESTRICT"; "CASCADE"; "SET NULL"; "SET DEFAULT"].

Definition foreign_key_columns (b : json) (key : string) : result spec_error unit :=
  columns ← non_empty_array b key; each entry_identifier columns.

Definition foreign_key_action (b : json) (key : string) : result spec_error unit :=
  if negb (contains b key) then Ok tt
  else
    v ← str b key;
    _ ← fail_if (negb (one_of foreign_key_actions (JStr v))) key;
    period ← lift (value_bool b "period" false);
    fail_if (period && negb (String.eqb v "NO ACTION")) key.

(** [j.size()] of an array. *)
Definition array_size (v : json) : nat := match v with JArr l => length l | _ => 0 end.

Definition parse_add_foreign_key (b : json) : result spec_error unit :=
  _ ← reject_unknown_keys b ["kind"; "schema"; "table"; "name"; "columns"; "references_schema"; "references_table";
                             "references_columns"; "on_delete"; "on_update"; "comment"; "period"];
  _ ← optional_creation_comment b;
  _ ← identifiers_at b ["schema"; "table"; "name"; "references_schema"; "references_table"];
  _ ← each (foreign_key_columns b) ["columns"; "references_columns"];
  _ ← fail_if (negb (array_size (at_key b "columns") =? array_size (at_key b "references_columns"))%nat) "columns";
  _ ← each (foreign_key_action b) ["on_delete"; "on_update"];
  period_flag b "period" "columns".

(** An operator's own characters, and no start of a comment. *)
Definition holds (part s : string) : bool := match String.index 0 part s with Some _ => true | None => false end.

Definition is_operator (op : string) : bool :=
  negb (String.eqb op "") && (String.length op <=? 63)%nat
  && forallb (fun c => has_char c "+-*/<>=~!@#%^&|`?") (String.list_ascii_of_string op)
  && negb (holds "--" op) && negb (holds "/*" op).

Definition exclusion_element (e : json) : result spec_error unit :=
  _ ← fail_if (negb (is_object e)) "elements";
  _ ← reject_unknown_keys e ["column"; "expression"; "with"];
  _ ← fail_if (Bool.eqb (contains e "column") (contains e "expression")) "elements";
  _ ← (if contains e "column" then identifier_at e "column" else text_at e "expression");
  op ← require_string e "with";
  fail_if (negb (is_operator op)) "with".

Definition parse_add_exclusion_constraint (b : json) : result spec_error unit :=
  _ ← reject_unknown_keys b ["kind"; "schema"; "table"; "name"; "using"; "elements"; "where"; "comment"];
  _ ← optional_creation_comment b;
  _ ← identifiers_at b ["schema"; "table"; "name"];
  _ ← (if contains b "using" then identifier_at b "using" else Ok tt);
  _ ← if_given b "where" non_empty_text;
  elements ← non_empty_array b "elements";
  each exclusion_element elements.

Definition parse_add_check_constraint (b : json) : result spec_error unit :=
  _ ← reject_unknown_keys b ["kind"; "schema"; "table"; "name"; "expression"; "comment"];
  _ ← optional_creation_comment b;
  _ ← identifiers_at b ["schema"; "table"; "name"];
  text_at b "expression".

Definition parse_unique_like (b : json) : result spec_error unit :=
  _ ← reject_unknown_keys b ["kind"; "schema"; "table"; "name"; "columns"; "comment"; "without_overlaps"];
  _ ← optional_creation_comment b;
  _ ← identifiers_at b ["schema"; "table"; "name"];
  columns ← non_empty_array b "columns";
  _ ← each entry_identifier columns;
  period_flag b "without_overlaps" "columns".

Definition parse_drop_constraint (b : json) : result spec_error unit :=
  _ ← reject_unknown_keys b ["kind"; "schema"; "table"; "name"];
  identifiers_at b ["schema"; "table"; "name"].

(** ** Tables and partitions *)
Definition table_option (kv : string * json) : result spec_error unit :=
  _ ← require_identifier kv.1; fail_if (negb (is_string kv.2) && negb (is_number kv.2)) "options".

Definition table_options (v : json) : result spec_error unit :=
  match v with JObj l => each table_option l | _ => fail "options" end.

(** The values of a list partition. *)
Definition bound_values (b : json) : result spec_error unit :=
  values ← non_empty_array b "values"; each (fun v => fail_if (negb (is_string v)) "values") values.

(** A partition of a table that exists or is made before it. *)
Definition partition_bound (b : json) (range list_ hash deflt : bool) : result spec_error unit :=
  parent ← require_string b "partition_of";
  _ ← match split_first "." parent with
      | None => fail "partition_of"
      | Some (s, t) => _ ← require_identifier s; require_identifier t
      end;
  _ ← fail_if (some_of b ["columns"; "primary_key"; "without_overlaps"]) "partition_of";
  _ ← fail_if (negb (Nat.b2n range + Nat.b2n list_ + Nat.b2n hash + Nat.b2n deflt =? 1)%nat) "bound";
  _ ← (if range then _ ← text_at b "from"; text_at b "to" else Ok tt);
  _ ← (if list_ then bound_values b else Ok tt);
  if hash then
    match integer_of (at_key b "modulus"), integer_of (at_key b "remainder") with
    | Some m, Some r => fail_if ((m <? 1) || (r <? 0) || (m <=? r)) "modulus"
    | _, _ => fail "modulus"
    end
  else Ok tt.

Definition table_column (col : json) : result spec_error unit :=
  _ ← fail_if (negb (is_object col)) "columns";
  _ ← reject_unknown_keys col ["name"; "type"; "nullable"; "default"; "comment"];
  _ ← identifier_at col "name";
  _ ← text_at col "type";
  _ ← text_at col "comment";
  boolean_at col "nullable".

Definition key_column_declared (declared : list json) (c : json) : result spec_error unit :=
  match c with
  | JStr s => fail_if (negb (existsb (fun col => is_text (at_key col "name") s) declared)) "primary_key"
  | _ => fail "primary_key"
  end.

Definition parse_create_table (b : json) : result spec_error unit :=
  _ ← reject_unknown_keys b ["kind"; "schema"; "table"; "columns"; "comment"; "primary_key"; "without_overlaps";
                             "partition_by"; "unlogged"; "options"; "partition_of"; "from"; "to"; "values"; "default";
                             "modulus"; "remainder"];
  _ ← identifiers_at b ["schema"; "table"];
  _ ← text_at b "comment";
  _ ← (if contains b "options" then
         _ ← table_options (at_key b "options"); fail_if (contains b "partition_by") "options"
       else Ok tt);
  let range := some_of b ["from"; "to"] in
  let list_ := contains b "values" in
  let hash := some_of b ["modulus"; "remainder"] in
  deflt ← lift (value_bool b "default" false);
  if contains b "partition_of" then partition_bound b range list_ hash deflt
  else
    _ ← fail_if (range || list_ || hash || contains b "default") "partition_of";
    columns ← non_empty_array b "columns";
    _ ← each table_column columns;
    _ ← (if contains b "primary_key" then
           keys ← non_empty_array b "primary_key"; each (key_column_declared columns) keys
         else Ok tt);
    if contains b "without_overlaps" then
      _ ← fail_if (negb (contains b "primary_key")) "without_overlaps";
      period_flag b "without_overlaps" "primary_key"
    else Ok tt.

Definition parse_drop_table (b : json) : result spec_error unit :=
  _ ← reject_unknown_keys b ["kind"; "schema"; "table"]; identifiers_at b ["schema"; "table"].

Definition parse_rename (b : json) (what : string) : result spec_error unit :=
  let named := if String.eqb what "" then [] else [what] in
  _ ← reject_unknown_keys b (["kind"; "schema"; "table"; "to"] ++ named);
  identifiers_at b (["schema"; "table"; "to"] ++ named).

Definition parse_attach_partition (b : json) : result spec_error unit :=
  _ ← reject_unknown_keys b ["kind"; "schema"; "table"; "partition"; "from"; "to"; "values"; "default"];
  _ ← identifiers_at b ["schema"; "table"; "partition"];
  let range := some_of b ["from"; "to"] in
  let list_ := contains b "values" in
  deflt ← lift (value_bool b "default" false);
  _ ← fail_if (negb (Nat.b2n range + Nat.b2n list_ + Nat.b2n deflt =? 1)%nat) "bound";
  _ ← (if range then _ ← text_at b "from"; text_at b "to" else Ok tt);
  if list_ then bound_values b else Ok tt.

Definition parse_detach_partition (b : json) : result spec_error unit :=
  _ ← reject_unknown_keys b ["kind"; "schema"; "table"; "partition"];
  identifiers_at b ["schema"; "table"; "partition"].

Definition parse_create_table_as (b : json) : result spec_error unit :=
  _ ← reject_unknown_keys b ["kind"; "schema"; "table"; "definition"; "comment"; "with_data"; "unlogged"];
  _ ← identifiers_at b ["schema"; "table"];
  _ ← text_at b "definition";
  _ ← text_at b "comment";
  if_given b "with_data" is_boolean.

Definition parse_set_table_options (b : json) : result spec_error unit :=
  _ ← reject_unknown_keys b ["kind"; "schema"; "table"; "options"; "reset"];
  _ ← identifiers_at b ["schema"; "table"];
  _ ← (if contains b "options" then table_options (at_key b "options") else Ok tt);
  _ ← (if contains b "reset" then
         match at_key b "reset" with
         | JArr l => each (fun r => s ← get_string r; require_identifier s) l
         | _ => fail "reset"
         end
       else Ok tt);
  fail_if (negb (some_of b ["options"; "reset"])) "changes nothing".

Definition parse_set_logged (b : json) : result spec_error unit :=
  _ ← reject_unknown_keys b ["kind"; "schema"; "table"; "logged"];
  _ ← identifiers_at b ["schema"; "table"];
  boolean_at b "logged".

Definition parse_set_tablespace (b : json) : result spec_error unit :=
  _ ← reject_unknown_keys b ["kind"; "schema"; "table"; "tablespace"];
  identifiers_at b ["schema"; "table"; "tablespace"].

Definition parse_set_access_method (b : json) : result spec_error unit :=
  _ ← reject_unknown_keys b ["kind"; "schema"; "table"; "method"];
  identifiers_at b ["schema"; "table"; "method"].

Definition parse_set_replica_identity (b : json) : result spec_error unit :=
  _ ← reject_unknown_keys b ["kind"; "schema"; "table"; "identity"; "index"];
  _ ← identifiers_at b ["schema"; "table"];
  v ← require_string b "identity";
  _ ← fail_if (negb (one_of ["DEFAULT"; "FULL"; "NOTHING"; "USING INDEX"] (JStr v))) "identity";
  if String.eqb v "USING INDEX" then identifier_at b "index" else Ok tt.

Definition parse_cluster_on (b : json) : result spec_error unit :=
  _ ← reject_unknown_keys b ["kind"; "schema"; "table"; "index"];
  _ ← identifiers_at b ["schema"; "table"];
  if contains b "index" then v ← str b "index"; require_identifier v else Ok tt.

(** ** Views, statistics, rules *)
Definition parse_replace_view (b : json) : result spec_error unit :=
  _ ← reject_unknown_keys b ["kind"; "schema"; "name"; "definition"; "comment"];
  _ ← identifiers_at b ["schema"; "name"];
  def ← require_string b "definition";
  fail_if (starts_with_create def) "definition".

Definition parse_create_matview (b : json) : result spec_error unit :=
  _ ← reject_unknown_keys b ["kind"; "schema"; "name"; "definition"; "comment"; "with_data"; "tablespace"];
  _ ← identifiers_at b ["schema"; "name"];
  _ ← text_at b "comment";
  def ← require_string b "definition";
  _ ← fail_if (starts_with_create def) "definition";
  if_given b "with_data" is_boolean.

Definition parse_alter_view (b : json) : result spec_error unit :=
  _ ← reject_unknown_keys b ["kind"; "schema"; "name"; "to"; "owner"; "options"];
  _ ← identifiers_at b ["schema"; "name"];
  fail_if (negb (some_of b ["to"; "owner"; "options"])) "changes nothing".

Definition parse_create_statistics (b : json) : result spec_error unit :=
  _ ← reject_unknown_keys b ["kind"; "schema"; "name"; "table"; "columns"; "kinds"; "comment"];
  _ ← identifiers_at b ["schema"; "name"; "table"];
  _ ← match at_key b "columns" with
      | JArr (x :: y :: l) => each (fun c => s ← get_string c; require_identifier s) (x :: y :: l)
      | _ => fail "columns"
      end;
  kinds ← lift (value_json b "kinds" (JArr []));
  each (fun k => fail_if (negb (one_of ["ndistinct"; "dependencies"; "mcv"] k)) "kinds") (elements kinds).

Definition parse_create_rule (b : json) : result spec_error unit :=
  _ ← reject_unknown_keys b ["kind"; "schema"; "table"; "name"; "event"; "instead"; "action"; "where"; "comment"];
  _ ← optional_creation_comment b;
  _ ← identifiers_at b ["schema"; "table"; "name"];
  event ← require_string b "event";
  _ ← fail_if (negb (one_of ["SELECT"; "INSERT"; "UPDATE"; "DELETE"] (JStr event))) "event";
  text_at b "action".

Definition parse_drop_rule (b : json) : result spec_error unit :=
  _ ← reject_unknown_keys b ["kind"; "schema"; "table"; "name"];
  identifiers_at b ["schema"; "table"; "name"].

(** ** Schemas, extensions, types, functions, triggers, sequences *)
Definition parse_schema_like (b : json) (creating : bool) : result spec_error unit :=
  _ ← reject_unknown_keys b (["kind"; "schema"] ++ if creating then ["comment"; "owner"] else []);
  _ ← identifier_at b "schema";
  if creating then text_at b "comment" else Ok tt.

Definition parse_alter_schema (b : json) : result spec_error unit :=
  _ ← reject_unknown_keys b ["kind"; "schema"; "to"; "owner"];
  _ ← identifier_at b "schema";
  fail_if (negb (some_of b ["to"; "owner"])) "changes nothing".

Definition parse_create_extension (b : json) : result spec_error unit :=
  _ ← reject_unknown_keys b ["kind"; "name"; "schema"; "version"; "comment"];
  _ ← optional_creation_comment b;
  _ ← identifier_at b "name";
  _ ← (if contains b "schema" then s ← str b "schema"; require_identifier s else Ok tt);
  if_given b "version" is_string.

Definition parse_drop_extension (b : json) : result spec_error unit :=
  _ ← reject_unknown_keys b ["kind"; "name"]; identifier_at b "name".

Definition parse_alter_extension (b : json) : result spec_error unit :=
  _ ← reject_unknown_keys b ["kind"; "name"; "version"; "schema"];
  _ ← identifier_at b "name";
  fail_if (negb (some_of b ["version"; "schema"])) "changes nothing".

Definition parse_named_object (b : json) : result spec_error unit :=
  _ ← reject_unknown_keys b ["kind"; "schema"; "name"]; identifiers_at b ["schema"; "name"].

Definition parse_create_type (b : json) : result spec_error unit :=
  _ ← reject_unknown_keys b ["kind"; "schema"; "name"; "type_kind"; "labels"; "base"; "check"; "attributes";
                             "comment"; "not_null"];
  _ ← identifiers_at b ["schema"; "name"];
  _ ← text_at b "comment";
  tk ← require_string b "type_kind";
  if String.eqb tk "enum" then
    labels ← non_empty_array b "labels"; each (fun l => fail_if (negb (is_string l)) "labels") labels
  else if String.eqb tk "domain" then text_at b "base"
  else if String.eqb tk "composite" then _ ← non_empty_array b "attributes"; Ok tt
  else fail "type_kind".

Definition parse_add_enum_value (b : json) : result spec_error unit :=
  _ ← reject_unknown_keys b ["kind"; "schema"; "name"; "value"; "before"; "after"];
  _ ← identifiers_at b ["schema"; "name"];
  _ ← text_at b "value";
  fail_if (contains b "before" && contains b "after") "before".

Definition parse_alter_domain (b : json) : result spec_error unit :=
  _ ← reject_unknown_keys b ["kind"; "schema"; "name"; "add_check"; "constraint_name"; "drop_constraint"; "not_null";
                             "default"];
  _ ← identifiers_at b ["schema"; "name"];
  _ ← (if contains b "add_check" then _ ← text_at b "add_check"; identifier_at b "constraint_name" else Ok tt);
  fail_if (negb (some_of b ["add_check"; "drop_constraint"; "not_null"; "default"])) "changes nothing".

Definition parse_create_function (b : json) : result spec_error unit :=
  _ ← reject_unknown_keys b ["kind"; "schema"; "name"; "arguments"; "returns"; "language"; "body"; "volatility";
                             "strict"; "security_definer"; "comment"; "routine_kind"];
  rk ← lift (value_str b "routine_kind" "FUNCTION");
  _ ← fail_if (negb (one_of ["FUNCTION"; "PROCEDURE"] (JStr rk))) "routine_kind";
  _ ← fail_if (String.eqb rk "PROCEDURE" && contains b "returns") "returns";
  _ ← identifiers_at b ["schema"; "name"];
  _ ← (if String.eqb rk "FUNCTION" then text_at b "returns" else Ok tt);
  _ ← text_at b "language";
  _ ← text_at b "body";
  _ ← text_at b "comment";
  _ ← if_given b "arguments" is_array;
  arguments ← lift (value_json b "arguments" (JArr []));
  each (fun a => fail_if (negb (is_object a) || negb (contains a "type")) "arguments") (elements arguments).

(** The arguments are there, even when empty. *)
Definition arguments_listed (b : json) : result spec_error unit :=
  fail_if (negb (contains b "arguments") || negb (is_array (at_key b "arguments"))) "arguments".

Definition parse_drop_function (b : json) : result spec_error unit :=
  _ ← reject_unknown_keys b ["kind"; "schema"; "name"; "arguments"; "routine_kind"];
  _ ← identifiers_at b ["schema"; "name"];
  arguments_listed b.

Definition parse_alter_function (b : json) : result spec_error unit :=
  _ ← reject_unknown_keys b ["kind"; "schema"; "name"; "arguments"; "to"; "owner"; "search_path"; "volatility"];
  _ ← identifiers_at b ["schema"; "name"];
  _ ← arguments_listed b;
  fail_if (negb (some_of b ["to"; "owner"; "search_path"; "volatility"])) "changes nothing".

Definition parse_create_trigger (b : json) : result spec_error unit :=
  _ ← reject_unknown_keys b ["kind"; "schema"; "table"; "name"; "timing"; "events"; "function"; "for_each"; "when";
                             "comment"];
  _ ← optional_creation_comment b;
  _ ← identifiers_at b ["schema"; "table"; "name"];
  _ ← text_at b "function";
  timing ← require_string b "timing";
  _ ← fail_if (negb (one_of ["BEFORE"; "AFTER"; "INSTEAD OF"] (JStr timing))) "timing";
  events ← non_empty_array b "events";
  each (fun e => fail_if (negb (one_of ["INSERT"; "UPDATE"; "DELETE"; "TRUNCATE"] e)) "events") events.

Definition parse_drop_trigger (b : json) : result spec_error unit :=
  _ ← reject_unknown_keys b ["kind"; "schema"; "table"; "name"];
  identifiers_at b ["schema"; "table"; "name"].

Definition parse_set_trigger_state (b : json) : result spec_error unit :=
  _ ← reject_unknown_keys b ["kind"; "schema"; "table"; "trigger"; "enabled"];
  _ ← identifiers_at b ["schema"; "table"; "trigger"];
  boolean_at b "enabled".

Definition parse_create_sequence (b : json) : result spec_error unit :=
  _ ← reject_unknown_keys b ["kind"; "schema"; "name"; "comment"; "start"; "increment"; "owned_by"];
  _ ← identifiers_at b ["schema"; "name"];
  _ ← text_at b "comment";
  each (fun k => if_given b k is_number_integer) ["start"; "increment"].

Definition parse_alter_sequence (b : json) : result spec_error unit :=
  _ ← reject_unknown_keys b ["kind"; "schema"; "name"; "restart"; "increment"; "owned_by"; "to"];
  _ ← identifiers_at b ["schema"; "name"];
  _ ← each (fun k => if_given b k is_number_integer) ["restart"; "increment"];
  fail_if (negb (some_of b ["restart"; "increment"; "owned_by"; "to"])) "changes nothing".

Definition parse_set_text_search_mapping (b : json) : result spec_error unit :=
  _ ← reject_unknown_keys b ["kind"; "schema"; "name"; "tokens"; "dictionaries"];
  _ ← identifiers_at b ["schema"; "name"];
  tokens ← non_empty_array b "tokens";
  _ ← distinct_identifiers [] tokens;
  match at_key b "dictionaries" with
  | JArr l => each (fun d => match d with JStr v => require_qualified v | _ => fail "dictionaries" end) l
  | _ => fail "dictionaries"
  end.

(** ** Policies and privileges *)
Definition parse_set_row_security (b : json) : result spec_error unit :=
  _ ← reject_unknown_keys b ["kind"; "schema"; "table"; "enabled"; "force"];
  _ ← identifiers_at b ["schema"; "table"];
  _ ← boolean_at b "enabled";
  if_given b "force" is_boolean.

Definition parse_create_policy (b : json) : result spec_error unit :=
  _ ← reject_unknown_keys b ["kind"; "schema"; "table"; "name"; "command"; "roles"; "using"; "check"; "comment"];
  _ ← optional_creation_comment b;
  _ ← identifiers_at b ["schema"; "table"; "name"];
  _ ← fail_if (negb (some_of b ["using"; "check"])) "using";
  _ ← each (fun k => if_given b k is_string) ["using"; "check"; "command"];
  if contains b "roles" then roles ← non_empty_array b "roles"; each entry_identifier roles else Ok tt.

Definition parse_drop_policy (b : json) : result spec_error unit :=
  _ ← reject_unknown_keys b ["kind"; "schema"; "table"; "name"];
  identifiers_at b ["schema"; "table"; "name"].

Definition parse_alter_policy (b : json) : result spec_error unit :=
  _ ← reject_unknown_keys b ["kind"; "schema"; "table"; "name"; "using"; "check"; "roles"];
  _ ← identifiers_at b ["schema"; "table"; "name"];
  fail_if (negb (some_of b ["using"; "check"; "roles"])) "changes nothing".

(** [kPrivs], and [kGrantable] its keys. *)
Definition privileges_of : list (string * list string) :=
  [("TABLE", ["SELECT"; "INSERT"; "UPDATE"; "DELETE"; "TRUNCATE"; "REFERENCES"; "TRIGGER"; "MAINTAIN"; "ALL"]);
   ("SCHEMA", ["USAGE"; "CREATE"; "ALL"]); ("SEQUENCE", ["USAGE"; "SELECT"; "UPDATE"; "ALL"]);
   ("FUNCTION", ["EXECUTE"; "ALL"]); ("TYPE", ["USAGE"; "ALL"]); ("DOMAIN", ["USAGE"; "ALL"]);
   ("DATABASE", ["CREATE"; "CONNECT"; "TEMPORARY"; "TEMP"; "ALL"])].

Definition parse_grant_like (b : json) (granting : bool) : result spec_error unit :=
  let who := if granting then "to" else "from" in
  _ ← reject_unknown_keys b ["kind"; "object_type"; "schema"; "table"; "name"; "arguments"; "privileges"; "columns";
                             "all_in_schema"; who];
  ot ← lift (value_str b "object_type" "TABLE");
  match List.find (fun p => String.eqb ot p.1) privileges_of with
  | None => fail "object_type"
  | Some (_, allowed) =>
      _ ← (if String.eqb ot "TABLE" then
             _ ← identifier_at b "schema";
             all ← lift (value_bool b "all_in_schema" false);
             if (all : bool) then Ok tt else identifier_at b "table"
           else identifier_at b "name");
      _ ← if_given b "all_in_schema" is_boolean;
      privileges ← non_empty_array b "privileges";
      _ ← each (fun p => fail_if (negb (one_of allowed p)) "privileges") privileges;
      roles ← non_empty_array b who;
      _ ← each (fun r => fail_if (negb (is_string r)) who) roles;
      if contains b "columns" then
        _ ← fail_if (negb (String.eqb ot "TABLE")) "columns";
        columns ← non_empty_array b "columns";
        each entry_identifier columns
      else Ok tt
  end.

Definition parse_alter_default_privileges (b : json) : result spec_error unit :=
  granting ← lift (value_bool b "grant" true);
  let who := if (granting : bool) then "to" else "from" in
  _ ← reject_unknown_keys b ["kind"; "schema"; "for_role"; "object_type"; "privileges"; "grant"; who];
  ot ← require_string b "object_type";
  _ ← fail_if (negb (one_of ["TABLES"; "SEQUENCES"; "FUNCTIONS"; "TYPES"; "SCHEMAS"] (JStr ot))) "object_type";
  _ ← non_empty_array b "privileges";
  _ ← non_empty_array b who;
  Ok tt.

(** ** Comments, owners, labels, objects without a plan of their own *)
Definition commentable_object_types : list string :=
  ["TABLE"; "COLUMN"; "VIEW"; "MATERIALIZED VIEW"; "INDEX"; "SEQUENCE"; "SCHEMA"; "TYPE"; "DOMAIN"; "FUNCTION";
   "TRIGGER"; "CONSTRAINT"; "POLICY"; "RULE"; "EXTENSION"; "PUBLICATION"; "SUBSCRIPTION"].

Definition parse_set_comment (b : json) : result spec_error unit :=
  _ ← reject_unknown_keys b ["kind"; "object_type"; "schema"; "name"; "table"; "comment"];
  ot ← require_string b "object_type";
  _ ← fail_if (negb (one_of commentable_object_types (JStr ot))) "object_type";
  _ ← identifier_at b "name";
  _ ← text_at b "comment";
  _ ← fail_if (one_of ["SCHEMA"; "EXTENSION"; "PUBLICATION"; "SUBSCRIPTION"] (JStr ot) && contains b "schema") "schema";
  fail_if (one_of ["COLUMN"; "TRIGGER"; "CONSTRAINT"; "POLICY"; "RULE"] (JStr ot) && negb (contains b "table")) "table".

Definition ownable : list string :=
  ["TABLE"; "VIEW"; "MATERIALIZED VIEW"; "SEQUENCE"; "SCHEMA"; "TYPE"; "DOMAIN"; "FUNCTION"].

Definition parse_set_owner (b : json) : result spec_error unit :=
  _ ← reject_unknown_keys b ["kind"; "object_type"; "schema"; "name"; "owner"];
  ot ← require_string b "object_type";
  _ ← fail_if (negb (one_of ownable (JStr ot))) "object_type";
  identifiers_at b ["name"; "owner"].

Definition generic_object_types : list string :=
  ["AGGREGATE"; "CAST"; "COLLATION"; "CONVERSION"; "OPERATOR"; "OPERATOR CLASS"; "OPERATOR FAMILY";
   "TEXT SEARCH CONFIGURATION"; "TEXT SEARCH DICTIONARY"; "TEXT SEARCH PARSER"; "TEXT SEARCH TEMPLATE"; "TRANSFORM";
   "ACCESS METHOD"; "LANGUAGE"; "FOREIGN DATA WRAPPER"; "SERVER"; "USER MAPPING"; "FOREIGN TABLE"].

Definition generic_object (b : json) : result spec_error unit :=
  ot ← require_string b "object_type";
  _ ← fail_if (negb (one_of generic_object_types (JStr ot))) "object_type";
  text_at b "name".

Definition parse_create_object (b : json) : result spec_error unit :=
  _ ← reject_unknown_keys b ["kind"; "object_type"; "schema"; "name"; "definition"; "comment"];
  _ ← generic_object b;
  text_at b "definition".

Definition parse_drop_object (b : json) : result spec_error unit :=
  _ ← reject_unknown_keys b ["kind"; "object_type"; "schema"; "name"]; generic_object b.

Definition parse_alter_object (b : json) : result spec_error unit :=
  _ ← reject_unknown_keys b ["kind"; "object_type"; "schema"; "name"; "to"; "owner"; "set_schema"];
  _ ← generic_object b;
  fail_if (negb (some_of b ["to"; "owner"; "set_schema"])) "changes nothing".

Definition parse_import_foreign_schema (b : json) : result spec_error unit :=
  _ ← reject_unknown_keys b ["kind"; "server"; "remote_schema"; "schema"; "limit_to"; "except"];
  _ ← identifiers_at b ["server"; "remote_schema"; "schema"];
  fail_if (contains b "limit_to" && contains b "except") "except".

Definition parse_security_label (b : json) : result spec_error unit :=
  _ ← reject_unknown_keys b ["kind"; "object_type"; "schema"; "name"; "provider"; "label"];
  _ ← each (text_at b) ["object_type"; "name"; "provider"];
  if_given b "label" is_string.

(** ** Replication *)
Definition parse_replication_name (b : json) : result spec_error unit :=
  _ ← reject_unknown_keys b ["kind"; "name"]; identifier_at b "name".

Definition parse_publication (b : json) (creating : bool) : result spec_error unit :=
  _ ← reject_unknown_keys b (["kind"; "name"; "tables"; "all_tables"; "operations"; "add_tables"; "drop_tables";
                              "publish_via_partition_root"] ++ if creating then ["comment"] else []);
  _ ← optional_creation_comment b;
  _ ← if_given b "publish_via_partition_root" is_boolean;
  _ ← identifier_at b "name";
  _ ← each (fun k => if_given b k (fun v => is_array v && negb (json_empty v))) ["tables"; "add_tables"; "drop_tables"];
  operations ← lift (value_json b "operations" (JArr []));
  each (fun o => fail_if (negb (one_of ["insert"; "update"; "delete"; "truncate"] o)) "operations") (elements operations).

Definition parse_subscription (b : json) (creating : bool) : result spec_error unit :=
  _ ← reject_unknown_keys b (["kind"; "name"; "connection"; "publications"; "enabled"; "connect"; "slot_name"; "refresh"]
                             ++ if creating then ["comment"] else []);
  _ ← optional_creation_comment b;
  _ ← identifier_at b "name";
  _ ← (if contains b "connection" then
         conn ← require_string b "connection"; fail_if (holds "password" (lower_text conn)) "connection"
       else Ok tt);
  _ ← (if creating then _ ← text_at b "connection"; _ ← non_empty_array b "publications"; Ok tt else Ok tt);
  each (fun k => if_given b k is_boolean) ["enabled"; "connect"; "refresh"].

(** ** Rows *)
Definition parse_preserve (b : json) : result spec_error unit :=
  if negb (contains b "preserve") then Ok tt
  else
    let p := at_key b "preserve" in
    _ ← fail_if (negb (is_object p)) "preserve";
    _ ← reject_unknown_keys p ["schema"; "table"];
    _ ← identifiers_at p ["schema"; "table"];
    ps ← str p "schema"; bs ← str b "schema"; pt ← str p "table"; bt ← str b "table";
    fail_if (String.eqb ps bs && String.eqb pt bt) "preserve".

Definition invariant_entry (v : json) : result spec_error unit :=
  _ ← fail_if (negb (is_object v)) "assert_invariants";
  _ ← reject_unknown_keys v ["name"; "query"];
  each (text_at v) ["name"; "query"].

Definition parse_preserve_and_invariants (b : json) : result spec_error unit :=
  _ ← parse_preserve b;
  if contains b "assert_invariants" then
    match at_key b "assert_invariants" with
    | JArr l => each invariant_entry l
    | _ => fail "assert_invariants"
    end
  else Ok tt.

Definition set_entry (kv : string * json) : result spec_error unit :=
  _ ← require_identifier kv.1; fail_if (negb (non_empty_text kv.2)) "set".

Definition parse_backfill (b : json) : result spec_error unit :=
  _ ← reject_unknown_keys b ["kind"; "schema"; "table"; "key"; "set"; "from"; "where"; "verify_remaining";
                             "assert_invariants"; "preserve"; "paced"];
  _ ← (if contains b "paced" then
         match at_key b "paced" with
         | JBool paced => fail_if (negb paced && contains b "preserve") "paced"
         | _ => fail "paced"
         end
       else Ok tt);
  _ ← identifiers_at b ["schema"; "table"; "key"];
  _ ← match at_key b "set" with JObj (x :: l) => each set_entry (x :: l) | _ => fail "set" end;
  where_ ← str b "where";
  _ ← fail_if (String.eqb where_ "") "where";
  parse_preserve_and_invariants b.

Definition scalar_cell (cell : json) : result spec_error unit :=
  fail_if (is_object cell || is_array cell) "values".

(** One row of [values]: as many cells as there are columns. *)
Definition value_row (arity : nat) (row : json) : result spec_error unit :=
  match row with
  | JArr cells => _ ← fail_if (negb (length cells =? arity)%nat) "values"; each scalar_cell cells
  | _ => fail "values"
  end.

Definition carries (columns : list json) (key : string) : bool := existsb (fun c => is_text c key) columns.

Definition parse_values (b : json) : result spec_error unit :=
  columns ← non_empty_array b "columns";
  _ ← distinct_identifiers [] columns;
  rows ← non_empty_array b "values";
  _ ← each (value_row (length columns)) rows;
  keys ← row_key_columns b false;
  each (fun key => fail_if (negb (carries columns key)) "key") keys.

Definition parse_select (b : json) : result spec_error unit :=
  _ ← text_at b "select";
  columns ← lift (value_json b "columns" (JArr []));
  _ ← each entry_identifier (elements columns);
  fail_if (negb (contains b "key")) "key".

Definition parse_row_source (b : json) (allow_where : bool) : result spec_error unit :=
  let has_values := contains b "values" in
  let has_select := contains b "select" in
  let has_where := allow_where && contains b "where" && non_empty_text (at_key b "where") in
  _ ← fail_if (negb (Nat.b2n has_values + Nat.b2n has_select + Nat.b2n has_where =? 1)%nat) "rows";
  _ ← (if has_select then parse_select b else Ok tt);
  _ ← (if has_values then parse_values b else Ok tt);
  _ ← if_given b "paced" is_boolean;
  if_given b "verify_remaining" is_string.

Definition require_update_columns_supplied (b : json) : result spec_error unit :=
  if negb (contains b "update_columns") then Ok tt
  else
    columns ← lift (value_json b "columns" (JArr []));
    match List.filter is_string (elements columns) with
    | [] => Ok tt
    | supplied =>
        each (fun c => match c with
                       | JStr name => fail_if (negb (carries supplied name)) "update_columns"
                       | _ => Ok tt
                       end) (elements (at_key b "update_columns"))
    end.

Definition parse_update_columns (b : json) : result spec_error unit :=
  columns ← non_empty_array b "update_columns";
  _ ← each entry_identifier columns;
  require_update_columns_supplied b.

Definition parse_delete_rows (b : json) : result spec_error unit :=
  _ ← reject_unknown_keys b ["kind"; "schema"; "table"; "key"; "where"; "columns"; "values"; "select"; "paced";
                             "verify_remaining"; "preserve"; "assert_invariants"];
  _ ← identifiers_at b ["schema"; "table"];
  delete_keys ← row_key_columns b true;
  _ ← (if negb (contains b "values") && negb (contains b "select") then
         _ ← fail_if (1 <? length delete_keys)%nat "key";
         where_ ← str b "where";
         fail_if (String.eqb where_ "") "where"
       else Ok tt);
  _ ← parse_row_source b true;
  parse_preserve_and_invariants b.

Definition parse_insert_rows (b : json) : result spec_error unit :=
  _ ← reject_unknown_keys b ["kind"; "schema"; "table"; "key"; "columns"; "values"; "select"; "on_conflict";
                             "conflict_target"; "conflict_where"; "update_columns"; "overriding"; "paced";
                             "verify_remaining"; "assert_invariants"];
  _ ← identifiers_at b ["schema"; "table"];
  _ ← row_key_columns b false;
  _ ← parse_row_source b false;
  _ ← (if contains b "select" then _ ← non_empty_array b "columns"; Ok tt else Ok tt);
  on_conflict ← lift (value_str b "on_conflict" "refuse");
  _ ← fail_if (negb (one_of ["refuse"; "skip"; "update"] (JStr on_conflict))) "on_conflict";
  _ ← (if negb (String.eqb on_conflict "refuse") then
         target ← non_empty_array b "conflict_target"; each entry_identifier target
       else fail_if (contains b "conflict_target") "conflict_target");
  _ ← if_given b "conflict_where" non_empty_text;
  _ ← (if contains b "update_columns" then
         _ ← fail_if (negb (String.eqb on_conflict "update")) "update_columns"; parse_update_columns b
       else Ok tt);
  _ ← (if contains b "overriding" then
         o ← str b "overriding"; fail_if (negb (one_of ["system"; "user"] (JStr o))) "overriding"
       else Ok tt);
  parse_preserve_and_invariants b.

(** The loop over the keys: each is a column the source carries. *)
Definition keys_carried (columns : list json) (keys : list string) : result spec_error unit :=
  each (fun key => fail_if (negb (carries columns key)) "columns") keys.

Definition parse_update_rows (b : json) : result spec_error unit :=
  _ ← reject_unknown_keys b ["kind"; "schema"; "table"; "key"; "columns"; "values"; "select"; "paced";
                             "verify_remaining"; "preserve"; "assert_invariants"];
  _ ← identifiers_at b ["schema"; "table"];
  update_keys ← row_key_columns b true;
  _ ← parse_row_source b false;
  columns ← non_empty_array b "columns";
  _ ← keys_carried columns update_keys;
  _ ← fail_if (length columns <? length update_keys + 1)%nat "columns";
  parse_preserve_and_invariants b.

Definition parse_merge_rows (b : json) : result spec_error unit :=
  _ ← reject_unknown_keys b ["kind"; "schema"; "table"; "key"; "columns"; "values"; "select"; "when_matched";
                             "update_columns"; "when_not_matched"; "when_not_matched_by_source"; "paced";
                             "verify_remaining"; "preserve"; "assert_invariants"];
  _ ← identifiers_at b ["schema"; "table"];
  merge_keys ← row_key_columns b true;
  _ ← parse_row_source b false;
  columns ← non_empty_array b "columns";
  _ ← each (fun c => fail_if (negb (is_string c)) "columns") columns;
  _ ← keys_carried columns merge_keys;
  matched ← lift (value_str b "when_matched" "update");
  _ ← fail_if (negb (one_of ["update"; "delete"; "nothing"] (JStr matched))) "when_matched";
  not_matched ← lift (value_str b "when_not_matched" "insert");
  _ ← fail_if (negb (one_of ["insert"; "nothing"] (JStr not_matched))) "when_not_matched";
  by_source ← lift (value_str b "when_not_matched_by_source" "nothing");
  _ ← fail_if (negb (one_of ["nothing"; "delete"] (JStr by_source))) "when_not_matched_by_source";
  _ ← fail_if (forallb (String.eqb "nothing") [matched; not_matched; by_source]) "would do nothing";
  _ ← (if contains b "update_columns" then
         _ ← fail_if (negb (String.eqb matched "update")) "update_columns"; parse_update_columns b
       else Ok tt);
  parse_preserve_and_invariants b.

Definition parse_copy_rows (b : json) : result spec_error unit :=
  _ ← fail_if (some_of b ["on_error"; "reject_limit"; "freeze"]) "cannot send";
  _ ← reject_unknown_keys b ["kind"; "schema"; "table"; "columns"; "values"; "verify_remaining"; "assert_invariants"];
  _ ← identifiers_at b ["schema"; "table"];
  _ ← fail_if (contains b "select") "select";
  _ ← parse_row_source b false;
  _ ← fail_if (negb (contains b "values")) "values";
  _ ← non_empty_array b "columns";
  Ok tt.

(** ** The switch of [parse_spec] *)

(** [parse_fn] of a module's kind, generated into the switch. *)
Class ModuleBodies : Type := { parse_module : string -> json -> Z -> result spec_error unit }.

Definition parse_core `{ModuleBodies} (k : IntentKind) (b : json) (n : Z) : result spec_error unit :=
  match k with
  | kModule m => parse_module m b n
  | kAddColumn => parse_add_column b
  | kBackfill => parse_backfill b
  | kCreateIndex => parse_create_index b
  | kDropIndex => parse_drop_index b
  | kSetNotNull => parse_set_not_null b
  | kAddForeignKey => parse_add_foreign_key b
  | kAddCheckConstraint => parse_add_check_constraint b
  | kDropConstraint => parse_drop_constraint b
  | kAlterColumnType => parse_alter_column_type b
  | kDropColumn => parse_drop_column b
  | kReplaceView => parse_replace_view b
  | kAddUniqueConstraint | kAddPrimaryKey => parse_unique_like b
  | kAttachPartition => parse_attach_partition b
  | kDetachPartition => parse_detach_partition b
  | kRenameTable => parse_rename b ""
  | kRenameColumn => parse_rename b "column"
  | kRenameConstraint => parse_rename b "name"
  | kCreateTable => parse_create_table b
  | kDropTable => parse_drop_table b
  | kDeleteRows => parse_delete_rows b
  | kInsertRows => parse_insert_rows b
  | kUpdateRows => parse_update_rows b
  | kMergeRows => parse_merge_rows b
  | kCopyRows => parse_copy_rows b
  | kSetRowSecurity => parse_set_row_security b
  | kCreatePolicy => parse_create_policy b
  | kDropPolicy => parse_drop_policy b
  | kSetTriggerState => parse_set_trigger_state b
  | kGrant => parse_grant_like b true
  | kRevoke => parse_grant_like b false
  | kCreateSchema => parse_schema_like b true
  | kDropSchema => parse_schema_like b false
  | kCreateExtension => parse_create_extension b
  | kDropExtension => parse_drop_extension b
  | kCreateType => parse_create_type b
  | kDropType | kDropSequence | kDropView | kDropStatistics => parse_named_object b
  | kAddEnumValue => parse_add_enum_value b
  | kCreateFunction => parse_create_function b
  | kDropFunction => parse_drop_function b
  | kCreateTrigger => parse_create_trigger b
  | kDropTrigger => parse_drop_trigger b
  | kCreateSequence => parse_create_sequence b
  | kAlterColumnDefault => parse_alter_column_default b
  | kDropNotNull | kDropExpression => parse_drop_not_null b
  | kAlterSequence => parse_alter_sequence b
  | kAlterSchema => parse_alter_schema b
  | kAlterExtension => parse_alter_extension b
  | kAlterDomain => parse_alter_domain b
  | kAlterFunction => parse_alter_function b
  | kAlterView => parse_alter_view b
  | kAlterPolicy => parse_alter_policy b
  | kSetComment => parse_set_comment b
  | kSetOwner => parse_set_owner b
  | kSetIdentity => parse_set_identity b
  | kSetColumnOptions => parse_set_column_options b
  | kSetTableOptions => parse_set_table_options b
  | kSetLogged => parse_set_logged b
  | kSetTablespace => parse_set_tablespace b
  | kSetAccessMethod => parse_set_access_method b
  | kSetReplicaIdentity => parse_set_replica_identity b
  | kClusterOn => parse_cluster_on b
  | kCreateMaterializedView => parse_create_matview b
  | kCreateStatistics => parse_create_statistics b
  | kCreateRule => parse_create_rule b
  | kDropRule => parse_drop_rule b
  | kCreatePublication => parse_publication b true
  | kAlterPublication => parse_publication b false
  | kDropPublication | kDropSubscription => parse_replication_name b
  | kCreateSubscription => parse_subscription b true
  | kAlterSubscription => parse_subscription b false
  | kCreateObject => parse_create_object b
  | kDropObject => parse_drop_object b
  | kAlterObject => parse_alter_object b
  | kAddExclusionConstraint => parse_add_exclusion_constraint b
  | kSetTextSearchMapping => parse_set_text_search_mapping b
  | kCreateTableAs => parse_create_table_as b
  | kImportForeignSchema => parse_import_foreign_schema b
  | kSecurityLabel => parse_security_label b
  | kAlterDefaultPrivileges => parse_alter_default_privileges b
  end.

#[export] Instance core_bodies `{ModuleBodies} : Bodies := {| parse_body := parse_core |}.
