(* ===== verification/VendorKinds.v ===== *)
(** * VendorKinds: the kinds the vendor modules add (src/cpp/src/modules)

    What citus, pg_cron and timescaledb contribute to [parse_spec], [object_key_for]
    and [conflict_keys]: the kinds of their kinds.inc, the parsers of their parse.h
    and the keys of their keys.inc, for a build with all of them. pgvector adds no
    kind. The instances here are what [Spec] and [Intents] take as parameters. *)
From S2P Require Import Prelude Json Canonical Spec Quote Intents.

(** ** Shapes shared by the modules' parsers *)

(** [shard_count], [min_workers] and their like. *)
Definition positive_if_given (b : json) (k : string) : result spec_error unit :=
  if negb (contains b k) then Ok tt
  else match integer_of (at_key b k) with Some n => fail_if (n <=? 0) k | None => fail k end.

(** [std::istringstream >> word], until nothing is left. *)
Definition blank (c : ascii) : bool := let b := byte_val c in (b =? 32) || (9 <=? b) && (b <=? 13).

Fixpoint words_from (word : string) (s : string) : list string :=
  match s with
  | EmptyString => if String.eqb word "" then [] else [word]
  | String c s' =>
      if blank c then (if String.eqb word "" then [] else [word]) ++ words_from "" s'
      else words_from (word +:+ String c "") s'
  end.

Definition words (s : string) : list string := words_from "" s.

(** ** citus *)
Definition citus_is_colocation_sentinel (v : string) : bool := String.eqb v "none" || String.eqb v "default".

Definition citus_check_colocate_with (b : json) : result spec_error unit :=
  v ← str b "colocate_with";
  if String.eqb v "" then Ok tt
  else if citus_is_colocation_sentinel v then Ok tt
  else fail_if (negb (has_char "." v)) "colocate_with".

Definition parse_citus_distribute_table (b : json) : result spec_error unit :=
  _ ← reject_unknown_keys b ["kind"; "schema"; "table"; "distribution_column"; "shard_method"; "colocate_with";
                             "shard_count"; "concurrently"; "comment"];
  _ ← identifiers_at b ["schema"; "table"; "distribution_column"];
  method ← lift (value_str b "shard_method" "hash");
  _ ← fail_if (negb (one_of ["hash"; "append"; "range"] (JStr method))) "shard_method";
  when ← lift (value_str b "concurrently" "auto");
  _ ← fail_if (negb (one_of ["auto"; "always"; "never"] (JStr when))) "concurrently";
  _ ← citus_check_colocate_with b;
  with_ ← str b "colocate_with";
  _ ← fail_if (contains b "colocate_with" && contains b "shard_count" && negb (citus_is_colocation_sentinel with_))
        "shard_count";
  positive_if_given b "shard_count".

Definition parse_citus_create_reference_table (b : json) : result spec_error unit :=
  _ ← reject_unknown_keys b ["kind"; "schema"; "table"; "comment"]; identifiers_at b ["schema"; "table"].

Definition parse_citus_distribute_function (b : json) : result spec_error unit :=
  _ ← reject_unknown_keys b ["kind"; "schema"; "name"; "arguments"; "distribution_argument"; "colocate_with";
                             "force_delegation"; "comment"];
  _ ← identifiers_at b ["schema"; "name"];
  _ ← text_at b "arguments";
  _ ← fail_if (negb (Bool.eqb (contains b "distribution_argument") (contains b "colocate_with"))) "colocate_with";
  _ ← (if contains b "colocate_with" then citus_check_colocate_with b else Ok tt);
  if_given b "force_delegation" is_boolean.

Definition parse_citus_alter_distributed_table (b : json) : result spec_error unit :=
  _ ← reject_unknown_keys b ["kind"; "schema"; "table"; "distribution_column"; "shard_count"; "colocate_with";
                             "cascade_to_colocated"; "comment"];
  _ ← identifiers_at b ["schema"; "table"];
  let col := contains b "distribution_column" in
  let count := contains b "shard_count" in
  _ ← fail_if (negb (some_of b ["distribution_column"; "shard_count"; "colocate_with"])) "changes nothing";
  _ ← (if col then identifier_at b "distribution_column" else Ok tt);
  _ ← positive_if_given b "shard_count";
  _ ← (if contains b "colocate_with" then
         _ ← citus_check_colocate_with b;
         with_ ← str b "colocate_with";
         _ ← fail_if (String.eqb with_ "default") "colocate_with";
         fail_if (count && negb (citus_is_colocation_sentinel with_)) "shard_count"
       else Ok tt);
  _ ← (if col then cascade ← lift (value_bool b "cascade_to_colocated" false); fail_if cascade "cascade_to_colocated"
       else Ok tt);
  if_given b "cascade_to_colocated" is_boolean.

Definition parse_citus_undistribute_table (b : json) : result spec_error unit :=
  _ ← reject_unknown_keys b ["kind"; "schema"; "table"; "cascade_via_foreign_keys"; "comment"];
  _ ← identifiers_at b ["schema"; "table"];
  if_given b "cascade_via_foreign_keys" is_boolean.

Definition parse_citus_add_local_table_to_metadata (b : json) : result spec_error unit :=
  _ ← reject_unknown_keys b ["kind"; "schema"; "table"; "cascade_via_foreign_keys"; "comment"];
  _ ← identifiers_at b ["schema"; "table"];
  if_given b "cascade_via_foreign_keys" is_boolean.

Definition parse_citus_truncate_local_data (b : json) : result spec_error unit :=
  _ ← reject_unknown_keys b ["kind"; "schema"; "table"; "comment"]; identifiers_at b ["schema"; "table"].

(** A blank, a quote of either kind. *)
Definition not_in_host (c : ascii) : bool :=
  let b := byte_val c in (b =? 32) || (b =? 9) || (b =? 10) || Ascii.eqb c squote || Ascii.eqb c dquote.

Definition citus_parse_node (b : json) : result spec_error unit :=
  host ← require_string b "host";
  _ ← fail_if (existsb not_in_host (String.list_ascii_of_string host)) "host";
  if negb (contains b "port") then Ok tt
  else match integer_of (at_key b "port") with Some n => fail_if ((n <=? 0) || (65535 <? n)) "port" | None => fail "port" end.

Definition citus_parse_transfer_mode (b : json) : result spec_error unit :=
  if negb (contains b "transfer_mode") then Ok tt
  else
    m ← str b "transfer_mode";
    fail_if (negb (one_of ["auto"; "force_logical"; "block_writes"] (JStr m))) "transfer_mode".

Definition parse_citus_add_node (b : json) : result spec_error unit :=
  _ ← reject_unknown_keys b ["kind"; "host"; "port"; "should_have_shards"; "comment"];
  _ ← citus_parse_node b;
  if_given b "should_have_shards" is_boolean.

Definition parse_citus_remove_node (b : json) : result spec_error unit :=
  _ ← reject_unknown_keys b ["kind"; "host"; "port"; "comment"]; citus_parse_node b.

Definition parse_citus_set_coordinator_host (b : json) : result spec_error unit :=
  _ ← reject_unknown_keys b ["kind"; "host"; "port"; "comment"]; citus_parse_node b.

Definition parse_citus_set_node_property (b : json) : result spec_error unit :=
  _ ← reject_unknown_keys b ["kind"; "host"; "port"; "should_have_shards"; "comment"];
  _ ← citus_parse_node b;
  boolean_at b "should_have_shards".

Definition parse_citus_drain_node (b : json) : result spec_error unit :=
  _ ← reject_unknown_keys b ["kind"; "host"; "port"; "transfer_mode"; "comment"];
  _ ← citus_parse_node b;
  citus_parse_transfer_mode b.

Definition parse_citus_rebalance_shards (b : json) : result spec_error unit :=
  _ ← reject_unknown_keys b ["kind"; "transfer_mode"; "comment"]; citus_parse_transfer_mode b.

Definition parse_citus_ensure_workers (b : json) : result spec_error unit :=
  _ ← reject_unknown_keys b ["kind"; "hosts_matching"; "min_workers"; "max_workers"; "unlisted"; "comment"];
  _ ← if_given b "hosts_matching" non_empty_text;
  _ ← each (positive_if_given b) ["min_workers"; "max_workers"];
  _ ← match integer_of (at_key b "min_workers"), integer_of (at_key b "max_workers") with
      | Some least, Some most => fail_if (most <? least) "min_workers"
      | _, _ => Ok tt
      end;
  if contains b "unlisted" then
    u ← str b "unlisted"; fail_if (negb (one_of ["keep"; "refuse"; "remove"] (JStr u))) "unlisted"
  else Ok tt.

Definition parse_citus_disable_node (b : json) : result spec_error unit :=
  _ ← reject_unknown_keys b ["kind"; "host"; "port"; "comment"]; citus_parse_node b.

Definition parse_citus_activate_node (b : json) : result spec_error unit :=
  _ ← reject_unknown_keys b ["kind"; "host"; "port"; "comment"]; citus_parse_node b.

Definition parse_citus_update_table_statistics (b : json) : result spec_error unit :=
  _ ← reject_unknown_keys b ["kind"; "schema"; "table"; "comment"]; identifiers_at b ["schema"; "table"].

(** ** pg_cron *)
Definition pg_cron_require_text (b : json) (key : string) (required : bool) : result spec_error unit :=
  if negb (contains b key) then fail_if required key else fail_if (negb (non_empty_text (at_key b key))) key.

Definition parse_pg_cron_schedule (b : json) : result spec_error unit :=
  _ ← reject_unknown_keys b ["kind"; "name"; "schedule"; "command"; "database"; "username"; "active";
                             "validate_command"; "comment"];
  _ ← pg_cron_require_text b "name" true;
  _ ← pg_cron_require_text b "schedule" true;
  _ ← pg_cron_require_text b "command" true;
  _ ← pg_cron_require_text b "database" false;
  _ ← pg_cron_require_text b "username" false;
  _ ← if_given b "validate_command" is_boolean;
  _ ← if_given b "active" is_boolean;
  pg_cron_require_text b "comment" false.

Definition parse_pg_cron_unschedule (b : json) : result spec_error unit :=
  _ ← reject_unknown_keys b ["kind"; "name"; "username"; "comment"];
  _ ← pg_cron_require_text b "name" true;
  _ ← pg_cron_require_text b "username" false;
  pg_cron_require_text b "comment" false.

(** ** timescaledb *)
Record TsInterval : Type := { ti_months : Z; ti_days : Z; ti_seconds : Z }.

Definition no_interval : TsInterval := {| ti_months := 0; ti_days := 0; ti_seconds := 0 |}.

(** [operator+=] over the three parts. *)
Definition ti_add (a b : TsInterval) : TsInterval :=
  {| ti_months := ti_months a + ti_months b; ti_days := ti_days a + ti_days b;
     ti_seconds := ti_seconds a + ti_seconds b |}.

Definition in_months (n : Z) : TsInterval := {| ti_months := n; ti_days := 0; ti_seconds := 0 |}.
Definition in_days (n : Z) : TsInterval := {| ti_months := 0; ti_days := n; ti_seconds := 0 |}.
Definition in_seconds (n : Z) : TsInterval := {| ti_months := 0; ti_days := 0; ti_seconds := n |}.

(** [std::stoll] of a run of digits. *)
Fixpoint digits_value (acc : Z) (l : list ascii) : Z :=
  match l with [] => acc | c :: l' => digits_value (10 * acc + (byte_val c - 48)) l' end.

Definition interval_number (s : string) : option Z :=
  let cs := String.list_ascii_of_string s in
  if (12 <? String.length s)%nat || negb (forallb digit cs) then None else Some (digits_value 0 cs).

(** The chain of units. *)
Definition interval_unit (unit : string) (n : Z) : option TsInterval :=
  let is_ l := existsb (String.eqb unit) l in
  if is_ ["year"; "years"] then Some (in_months (12 * n))
  else if is_ ["month"; "months"; "mon"; "mons"] then Some (in_months n)
  else if is_ ["week"; "weeks"] then Some (in_days (7 * n))
  else if is_ ["day"; "days"] then Some (in_days n)
  else if is_ ["hour"; "hours"] then Some (in_seconds (3600 * n))
  else if is_ ["minute"; "minutes"; "min"; "mins"] then Some (in_seconds (60 * n))
  else if is_ ["second"; "seconds"; "sec"; "secs"] then Some (in_seconds n)
  else None.

(** The loop over pairs of words. *)
Fixpoint interval_loop (out : TsInterval) (ws : list string) : option TsInterval :=
  match ws with
  | [] => Some out
  | [_] => None
  | number :: unit :: ws' =>
      n ← interval_number number;
      d ← interval_unit (lower_text unit) n;
      interval_loop (ti_add out d) ws'
  end.

Definition ts_parse_interval (text : string) : option TsInterval :=
  match words text with [] => None | ws => interval_loop no_interval ws end.

Definition ts_require_interval (b : json) (key : string) (required : bool) : result spec_error unit :=
  if negb (contains b key) then fail_if required key
  else
    match at_key b key with
    | JStr s => match ts_parse_interval s with Some _ => Ok tt | None => fail key end
    | _ => fail key
    end.

Definition ts_require_table (b : json) : result spec_error unit := identifiers_at b ["schema"; "table"].

Definition ts_optional_text (b : json) (key : string) : result spec_error unit := if_given b key non_empty_text.

Definition parse_timescaledb_create_hypertable (b : json) : result spec_error unit :=
  _ ← reject_unknown_keys b ["kind"; "schema"; "table"; "time_column"; "chunk_time_interval"; "migrate_data"; "comment"];
  _ ← ts_require_table b;
  _ ← identifier_at b "time_column";
  _ ← ts_require_interval b "chunk_time_interval" false;
  _ ← if_given b "migrate_data" is_boolean;
  ts_optional_text b "comment".

Definition parse_timescaledb_set_chunk_time_interval (b : json) : result spec_error unit :=
  _ ← reject_unknown_keys b ["kind"; "schema"; "table"; "chunk_time_interval"; "comment"];
  _ ← ts_require_table b;
  _ ← ts_require_interval b "chunk_time_interval" true;
  ts_optional_text b "comment".

(** One entry of [segment_by] or [order_by]. *)
Definition columnstore_entry (ordered : bool) (e : json) : result spec_error unit :=
  match e with
  | JStr s =>
      let ws := words s in
      let direction := lower_text (default "" (ws !! 1%nat)) in
      _ ← require_identifier (default "" (ws !! 0%nat));
      fail_if (bool_decide (is_Some (ws !! 2%nat))
               || negb (String.eqb direction "") && (negb ordered || negb (one_of ["asc"; "desc"] (JStr direction))))
        "columnstore"
  | _ => fail "columnstore"
  end.

Definition parse_timescaledb_set_columnstore (b : json) : result spec_error unit :=
  _ ← reject_unknown_keys b ["kind"; "schema"; "table"; "segment_by"; "order_by"; "comment"];
  _ ← ts_require_table b;
  _ ← each (fun key =>
        if negb (contains b key) then Ok tt
        else match at_key b key with
             | JArr l => each (columnstore_entry (String.eqb key "order_by")) l
             | _ => fail key
             end) ["segment_by"; "order_by"];
  ts_optional_text b "comment".

Definition parse_timescaledb_add_columnstore_policy (b : json) : result spec_error unit :=
  _ ← reject_unknown_keys b ["kind"; "schema"; "table"; "after"; "comment"];
  _ ← ts_require_table b;
  _ ← ts_require_interval b "after" true;
  ts_optional_text b "comment".

Definition parse_timescaledb_remove_columnstore_policy (b : json) : result spec_error unit :=
  _ ← reject_unknown_keys b ["kind"; "schema"; "table"; "comment"];
  _ ← ts_require_table b;
  ts_optional_text b "comment".

Definition parse_timescaledb_add_retention_policy (b : json) : result spec_error unit :=
  _ ← reject_unknown_keys b ["kind"; "schema"; "table"; "drop_after"; "acknowledge_data_loss"; "comment"];
  _ ← ts_require_table b;
  _ ← ts_require_interval b "drop_after" true;
  _ ← fail_if (match at_key b "acknowledge_data_loss" with JBool true => false | _ => true end) "acknowledge_data_loss";
  ts_optional_text b "comment".

Definition parse_timescaledb_remove_retention_policy (b : json) : result spec_error unit :=
  _ ← reject_unknown_keys b ["kind"; "schema"; "table"; "comment"];
  _ ← ts_require_table b;
  ts_optional_text b "comment".

Definition parse_timescaledb_create_continuous_aggregate (b : json) : result spec_error unit :=
  _ ← reject_unknown_keys b ["kind"; "schema"; "name"; "query"; "materialized_only"; "refresh"; "comment"];
  _ ← identifiers_at b ["schema"; "name"];
  _ ← text_at b "query";
  _ ← each (fun k => if_given b k is_boolean) ["materialized_only"; "refresh"];
  ts_optional_text b "comment".

Definition parse_timescaledb_add_continuous_aggregate_policy (b : json) : result spec_error unit :=
  _ ← reject_unknown_keys b ["kind"; "schema"; "name"; "start_offset"; "end_offset"; "schedule_interval"; "comment"];
  _ ← identifiers_at b ["schema"; "name"];
  _ ← ts_require_interval b "start_offset" true;
  _ ← ts_require_interval b "end_offset" true;
  _ ← ts_require_interval b "schedule_interval" true;
  ts_optional_text b "comment".

(** ** What the generated files put together *)

(** [PGLASWELL_KIND] of the three kinds.inc: a kind's name and its parser. *)
Definition vendor_kinds : list (string * (json -> result spec_error unit)) :=
  [("citus_distribute_table", parse_citus_distribute_table);
   ("citus_create_reference_table", parse_citus_create_reference_table);
   ("citus_distribute_function", parse_citus_distribute_function);
   ("citus_alter_distributed_table", parse_citus_alter_distributed_table);
   ("citus_undistribute_table", parse_citus_undistribute_table);
   ("citus_add_local_table_to_metadata", parse_citus_add_local_table_to_metadata);
   ("citus_truncate_local_data", parse_citus_truncate_local_data);
   ("citus_add_node", parse_citus_add_node); ("citus_remove_node", parse_citus_remove_node);
   ("citus_set_coordinator_host", parse_citus_set_coordinator_host);
   ("citus_set_node_property", parse_citus_set_node_property); ("citus_drain_node", parse_citus_drain_node);
   ("citus_rebalance_shards", parse_citus_rebalance_shards); ("citus_ensure_workers", parse_citus_ensure_workers);
   ("citus_disable_node", parse_citus_disable_node); ("citus_activate_node", parse_citus_activate_node);
   ("citus_update_table_statistics", parse_citus_update_table_statistics);
   ("pg_cron_schedule", parse_pg_cron_schedule); ("pg_cron_unschedule", parse_pg_cron_unschedule);
   ("timescaledb_create_hypertable", parse_timescaledb_create_hypertable);
   ("timescaledb_set_chunk_time_interval", parse_timescaledb_set_chunk_time_interval);
   ("timescaledb_set_columnstore", parse_timescaledb_set_columnstore);
   ("timescaledb_add_columnstore_policy", parse_timescaledb_add_columnstore_policy);
   ("timescaledb_remove_columnstore_policy", parse_timescaledb_remove_columnstore_policy);
   ("timescaledb_add_retention_policy", parse_timescaledb_add_retention_policy);
   ("timescaledb_remove_retention_policy", parse_timescaledb_remove_retention_policy);
   ("timescaledb_create_continuous_aggregate", parse_timescaledb_create_continuous_aggregate);
   ("timescaledb_add_continuous_aggregate_policy", parse_timescaledb_add_continuous_aggregate_policy)].

Definition vendor_parse (name : string) (b : json) (n : Z) : result spec_error unit :=
  match List.find (fun p => String.eqb name p.1) vendor_kinds with Some (_, parse) => parse b | None => fail name end.

(** [PGLASWELL_OBJECT_KEY]. *)
Definition vendor_key (name : string) (b : json) : result spec_error string :=
  if String.eqb name "citus_distribute_function" then
    s ← str b "schema"; n ← str b "name"; Ok ("function:" +:+ s +:+ "." +:+ n)
  else Ok "".

(** [PGLASWELL_CONFLICT_KEYS]. *)
Definition add_colocation (b : json) (keys : list string) : result spec_error (list string) :=
  with_ ← str b "colocate_with";
  Ok (if negb (String.eqb with_ "") && negb (citus_is_colocation_sentinel with_)
      then add_conflict keys ("colocation:" +:+ with_) else keys).

Definition own_colocation (b : json) : result spec_error string :=
  s ← str b "schema"; t ← str b "table"; Ok ("colocation:" +:+ s +:+ "." +:+ t).

Definition topology_kinds : list string :=
  ["citus_add_node"; "citus_remove_node"; "citus_set_coordinator_host"; "citus_set_node_property"; "citus_drain_node";
   "citus_rebalance_shards"; "citus_ensure_workers"; "citus_disable_node"; "citus_activate_node"].

Definition vendor_edges (name : string) (b : json) (keys : list string) : result spec_error (list string) :=
  let is_ l := existsb (String.eqb name) l in
  if is_ ["citus_distribute_table"; "citus_distribute_function"] then add_colocation b keys
  else if is_ ["citus_alter_distributed_table"] then own ← own_colocation b; add_colocation b (add_conflict keys own)
  else if is_ ["citus_undistribute_table"] then own ← own_colocation b; Ok (add_conflict keys own)
  else if is_ topology_kinds then Ok (add_conflict keys "citus:topology")
  else if is_ ["pg_cron_schedule"; "pg_cron_unschedule"] then
    n ← str b "name"; Ok (add_conflict keys ("pg_cron:job:" +:+ n))
  else if is_ ["timescaledb_create_continuous_aggregate"; "timescaledb_add_continuous_aggregate_policy"] then
    s ← str b "schema"; n ← str b "name"; Ok (add_conflict keys ("timescaledb:cagg:" +:+ s +:+ "." +:+ n))
  else Ok keys.

#[export] Instance vendor_modules : Modules :=
  {| module_kinds := vendor_kinds.*1; module_key := vendor_key; module_edges := vendor_edges |}.

#[export] Instance vendor_bodies : ModuleBodies := {| parse_module := vendor_parse |}.

(** ** The sums of an interval fit their type

    [long long] sums are unbounded integers here; for texts of up to 2500 words
    they are in its range, so nothing is lost. *)
Lemma digits_value_bounds acc l k :
  forallb digit l = true -> 0 <= acc < 10 ^ k -> 0 <= k -> 0 <= digits_value acc l < 10 ^ (k + Z.of_nat (length l)).
Proof.
  revert acc k. induction l as [|c l IH]; intros acc k; simpl; intros Hd Ha Hk; [by rewrite Z.add_0_r|].
  apply andb_prop in Hd as [Hc Hd]. unfold digit in Hc. bool_prop.
  replace (k + Z.of_nat (S (length l))) with ((k + 1) + Z.of_nat (length l)) by lia.
  apply IH; [done| |lia]. rewrite Z.pow_add_r by lia. lia.
Qed.

Lemma interval_number_bounds s n : interval_number s = Some n -> 0 <= n < 10 ^ 12.
Proof.
  unfold interval_number. case_if; [done|]. bool_prop. intros [= <-].
  match goal with H : negb (forallb _ _) = false |- _ => apply negb_false_iff in H as Hd | H : forallb _ _ = true |- _ => rename H into Hd end.
  match goal with H : (_ <? _)%nat = false |- _ => apply Nat.ltb_ge in H as Hl end.
  pose proof (digits_value_bounds 0 (String.list_ascii_of_string s) 0 Hd ltac:(lia) ltac:(lia)) as [H1 H2].
  split; [done|]. eapply Z.lt_le_trans; [exact H2|]. apply Z.pow_le_mono_r; [lia|].
  assert (length (String.list_ascii_of_string s) = String.length s) as -> by (clear; induction s; simpl; congruence). lia.
Qed.

(** The most one pair adds to a part: hours. *)
Definition pair_bound : Z := 3600 * 10 ^ 12.

Definition within (m : Z) (t : TsInterval) : Prop :=
  0 <= ti_months t <= m /\ 0 <= ti_days t <= m /\ 0 <= ti_seconds t <= m.

Lemma interval_unit_within unit n d : 0 <= n < 10 ^ 12 -> interval_unit unit n = Some d -> within pair_bound d.
Proof.
  intros Hn. unfold interval_unit. repeat (case_if; [intros [= <-]; unfold within, pair_bound; cbn; lia|]). done.
Qed.

Lemma interval_loop_within ws out m r :
  within m out -> interval_loop out ws = Some r -> within (m + Z.of_nat (length ws) * pair_bound) r.
Proof.
  remember (length ws) as k eqn:Hk. revert ws out m Hk.
  induction (lt_wf k) as [k _ IH]. intros ws out m -> Hm.
  destruct ws as [|number [|unit ws]]; cbn [interval_loop]; [intros [= <-]; revert Hm; unfold within; simpl; lia|done|].
  destruct (interval_number number) as [n|] eqn:En; [|done]. cbn [mbind option_bind].
  destruct (interval_unit _ _) as [d|] eqn:Ed; [|done]. cbn [mbind option_bind]. intros Hr.
  apply interval_number_bounds in En. apply interval_unit_within in Ed; [|done].
  eapply (IH _ _ ws (ti_add out d) (m + pair_bound)) in Hr; [|done|].
  - revert Hr. unfold within, pair_bound. cbn [length]. lia.
  - revert Hm Ed. unfold within, ti_add. cbn. lia.
  Unshelve. cbn. lia.
Qed.

Lemma interval_fits text r :
  ts_parse_interval text = Some r -> (length (words text) <= 2500)%nat -> within (2 ^ 63 - 1) r.
Proof.
  unfold ts_parse_interval. destruct (words text) as [|w ws] eqn:Hw; [done|]. rewrite <- Hw. intros Hr Hl.
  eapply interval_loop_within with (m := 0) in Hr; [|unfold within; cbn; lia].
  revert Hr. unfold within, pair_bound. assert (Z.of_nat (length (words text)) <= 2500) by lia. nia.
Qed.
