(* ===== verification/Plan.v ===== *)
(** * Plan: steps, plans and their digest (src/cpp/src/planner_base.h)

    The planner's vocabulary: what a step is, how a plan is written as JSON and
    what its digest covers, the memory an index build runs with and the
    connection budget. SQL is kept as statements with [render], the text that is
    executed, so that what a statement does can be stated beside it. *)
From S2P Require Import Prelude Json Canonical Spec Quote RowSql.

Inductive TxnClass : Type := kRequired | kOptional | kForbidden | kOwnTxnPerBatch.

#[export] Instance TxnClass_eq_dec : EqDecision TxnClass.
Proof. solve_decision. Defined.

Definition txn_to_string (c : TxnClass) : string :=
  match c with
  | kRequired => "txn_required"
  | kOptional => "txn_optional"
  | kForbidden => "txn_forbidden"
  | kOwnTxnPerBatch => "own_txn_per_batch"
  end.

Inductive Action : Type := kApply | kSatisfied | kConflict.

#[export] Instance Action_eq_dec : EqDecision Action.
Proof. solve_decision. Defined.

Definition action_to_string (a : Action) : string :=
  match a with kApply => "apply" | kSatisfied => "satisfied" | kConflict => "conflict" end.

(** ** Statements *)

(** The foreign key clause's parts. *)
Record ForeignKey : Type := {
  fk_columns : list string;
  fk_parent : string;
  fk_references : list string;
  fk_period : bool;
  fk_on_delete : option string;
  fk_on_update : option string;
}.

(** The forms of ALTER TABLE ... ROW LEVEL SECURITY. *)
Inductive RlsForm : Type := RlsEnable | RlsDisable | RlsForce | RlsNoForce.

(** What is done to an object that is named. *)
Inductive NamedChange : Type :=
  | RenameTo (to : string)
  | OwnerTo (owner : string)
  | SetSchema (schema : string)
  | ChangeTo (text : string).

(** The statements on a subscription. *)
Inductive SubForm : Type :=
  | SubCreate (connection : string) (publications options : list string)
  | SubConnection (connection : string)
  | SubSetPublication (publications : list string)
  | SubRefresh
  | SubEnable (enabled : bool)
  | SubDrop.

(** The statements on the mapping of a text search configuration. *)
Inductive MapForm : Type :=
  | MapAdd (tokens dictionaries : list string)
  | MapAlter (tokens dictionaries : list string)
  | MapDrop (if_exists : bool) (tokens : list string).

(** The statements on the policies of TimescaleDB, on a hypertable or on a continuous
    aggregate; [modern] is the newer name of the columnstore's. *)
Inductive PolicyForm : Type :=
  | AddColumnstorePolicy (modern : bool) (after : string)
  | AddRetentionPolicy (drop_after : string)
  | AddRefreshPolicy (start_offset end_offset schedule_interval : string)
  | RemoveColumnstorePolicy (modern : bool)
  | RemoveRetentionPolicy
  | RemoveRefreshPolicy.

(** The body of the function an added column's trigger runs: a column of the new row
    set from an expression, under a test that it is NULL. *)
Inductive FillStmt (E : Type) : Type :=
  | SelectInto (column : string) (e : E)
  | IfNull (column : string) (f : FillStmt E).
Arguments SelectInto {E}. Arguments IfNull {E}.

(** The column a statement fills. *)
Definition fill_column {E} (s : FillStmt E) : string :=
  match s with SelectInto c _ | IfNull c _ => c end.

Fixpoint fill_stmt_map {E E'} (f : E -> E') (s : FillStmt E) : FillStmt E' :=
  match s with
  | SelectInto c e => SelectInto c (f e)
  | IfNull c s => IfNull c (fill_stmt_map f s)
  end.

(** A statement of a plan. Relations are "schema.table"; [tail] is everything
    after an index's relation. *)
Inductive Stmt : Type :=
  | LockTable (rel : string)
  | LockOnly (rel : string)
  | AddCheck (rel name expression : string) (not_valid : bool)
  | AddForeignKey (rel name : string) (fk : ForeignKey) (not_valid : bool)
  | ValidateConstraint (rel name : string)
  | SetNotNull (rel column : string)
  | SetNotNulls (rel : string) (columns : list string)
  | AddColumn (rel column definition : string)
  | FillFunction (schema name tag alias : string) (fills : list (FillStmt string))
  | FillTrigger (rel name schema : string)
  | DropTrigger (rel name : string)
  | DropFillFunction (schema name : string)
  | DropConstraint (rel name : string)
  | AlterColumnType (rel column type : string) (using_ : option string)
  | DropColumn (rel column : string)
  | DropTable (rel : string)
  | RenameTable (rel to : string)
  | RenameColumn (rel column to : string)
  | RenameConstraint (rel name to : string)
  | AttachPartition (rel child bound : string)
  | DetachPartition (rel child mode : string)
  | DropView (materialized : bool) (name : string)
  | CreateView (materialized : bool) (name options definition : string)
  | Grant (privilege column on who : string) (with_grant : bool)
  | DropIndex (concurrently : bool) (schema name : string)
  | CreateIndex (unique concurrently only : bool) (name rel tail : string)
  | RowSecurity (rel : string) (form : RlsForm)
  | AlterNamed (what target : string) (change : NamedChange)
  | Subscription (name : string) (form : SubForm)
  | TextSearchMapping (config : string) (form : MapForm)
  | AddKey (only : bool) (rel name clause : string)
  | AddKeyUsing (rel name key index : string)
  | AttachIndexOf (schema name child_schema child : string)
  | RenameIndex (schema name to : string)
  | AttachIndex (schema name child : string)
  | CommentOnIndex (schema name comment : string)
  | CommentOn (target comment : string)
  | JobPolicy (target : string) (form : PolicyForm)
  | RowChange (s : RowStmt)
  | OtherSql (text : string).

Definition quote_pair (schema name : string) : string := quote_identifier schema +:+ "." +:+ quote_identifier name.

(** The last name of a list, behind PERIOD. *)
Fixpoint period_last (l : list string) : list string :=
  match l with
  | [] => []
  | [x] => ["PERIOD " +:+ x]
  | x :: l' => x :: period_last l'
  end.

Definition fk_clause (fk : ForeignKey) : string :=
  let cols := quote_identifier <$> fk_columns fk in
  let refs := quote_identifier <$> fk_references fk in
  let period := fk_period fk && match cols with [] => false | _ => true end in
  "FOREIGN KEY (" +:+ join ", " (if period then period_last cols else cols) +:+ ") REFERENCES "
  +:+ quote_qualified (fk_parent fk) +:+ " (" +:+ join ", " (if period then period_last refs else refs) +:+ ")"
  +:+ match fk_on_delete fk with Some a => " ON DELETE " +:+ a | None => "" end
  +:+ match fk_on_update fk with Some a => " ON UPDATE " +:+ a | None => "" end.

(** The statements of the function that fills rows as they are written. *)
Fixpoint fill_case (alias : string) (f : FillStmt string) : string :=
  match f with
  | SelectInto column e =>
      "    SELECT (" +:+ e +:+ ") INTO NEW." +:+ quote_identifier column +:+ " FROM (SELECT NEW.*) AS " +:+ alias +:+ ";" +:+ nl
  | IfNull column f =>
      "  IF NEW." +:+ quote_identifier column +:+ " IS NULL THEN" +:+ nl +:+ fill_case alias f +:+ "  END IF;" +:+ nl
  end.

Definition render_change (c : NamedChange) : string :=
  match c with
  | RenameTo to => " RENAME TO " +:+ quote_identifier to
  | OwnerTo owner => " OWNER TO " +:+ quote_identifier owner
  | SetSchema schema => " SET SCHEMA " +:+ quote_identifier schema
  | ChangeTo text => text
  end.

Definition render_subscription (name : string) (f : SubForm) : string :=
  let alter := "ALTER SUBSCRIPTION " +:+ name in
  match f with
  | SubCreate connection publications options =>
      "CREATE SUBSCRIPTION " +:+ name +:+ " CONNECTION " +:+ quote_literal connection +:+ " PUBLICATION "
      +:+ join ", " (quote_identifier <$> publications)
      +:+ match options with [] => "" | _ => " WITH (" +:+ join ", " options +:+ ")" end +:+ ";"
  | SubConnection connection => alter +:+ " CONNECTION " +:+ quote_literal connection +:+ ";"
  | SubSetPublication publications => alter +:+ " SET PUBLICATION " +:+ join ", " (quote_identifier <$> publications) +:+ ";"
  | SubRefresh => alter +:+ " REFRESH PUBLICATION;"
  | SubEnable enabled => alter +:+ (if enabled then " ENABLE;" else " DISABLE;")
  | SubDrop => "DROP SUBSCRIPTION " +:+ name +:+ ";"
  end.

(** A dictionary, with its schema or without. *)
Definition quoted_dictionary (given : string) : string :=
  if has_char "." given then quote_qualified given else quote_identifier given.

Definition render_mapping (config : string) (f : MapForm) : string :=
  let head := "ALTER TEXT SEARCH CONFIGURATION " +:+ config in
  let with_ ds := " WITH " +:+ join ", " (quoted_dictionary <$> ds) +:+ ";" in
  match f with
  | MapAdd tokens ds => head +:+ " ADD MAPPING FOR " +:+ join ", " tokens +:+ with_ ds
  | MapAlter tokens ds => head +:+ " ALTER MAPPING FOR " +:+ join ", " tokens +:+ with_ ds
  | MapDrop if_exists tokens => head +:+ " DROP MAPPING " +:+ (if if_exists then "IF EXISTS " else "") +:+ "FOR " +:+ join ", " tokens +:+ ";"
  end.

Definition ts_regclass (qualified : string) : string := quote_literal (quote_qualified qualified) +:+ "::regclass".
Definition ts_interval_sql (text : string) : string := "INTERVAL " +:+ quote_literal text.

Definition render_policy (target : string) (f : PolicyForm) : string :=
  match f with
  | AddColumnstorePolicy true after =>
      "CALL add_columnstore_policy(" +:+ ts_regclass target +:+ ", after => " +:+ ts_interval_sql after +:+ ");"
  | AddColumnstorePolicy false after =>
      "SELECT add_compression_policy(" +:+ ts_regclass target +:+ ", compress_after => " +:+ ts_interval_sql after +:+ ");"
  | AddRetentionPolicy drop_after =>
      "SELECT add_retention_policy(" +:+ ts_regclass target +:+ ", drop_after => " +:+ ts_interval_sql drop_after +:+ ");"
  | AddRefreshPolicy start_offset end_offset schedule_interval =>
      "SELECT add_continuous_aggregate_policy(" +:+ ts_regclass target +:+ ", start_offset => " +:+ ts_interval_sql start_offset
      +:+ ", end_offset => " +:+ ts_interval_sql end_offset +:+ ", schedule_interval => " +:+ ts_interval_sql schedule_interval +:+ ");"
  | RemoveColumnstorePolicy true => "CALL remove_columnstore_policy(" +:+ ts_regclass target +:+ ");"
  | RemoveColumnstorePolicy false => "SELECT remove_compression_policy(" +:+ ts_regclass target +:+ ");"
  | RemoveRetentionPolicy => "SELECT remove_retention_policy(" +:+ ts_regclass target +:+ ");"
  | RemoveRefreshPolicy => "SELECT remove_continuous_aggregate_policy(" +:+ ts_regclass target +:+ ");"
  end.

(** The text that is executed. *)
Definition render (s : Stmt) : string :=
  match s with
  | LockTable rel => "LOCK TABLE " +:+ quote_qualified rel +:+ " IN SHARE UPDATE EXCLUSIVE MODE;"
  | LockOnly rel => "LOCK TABLE ONLY " +:+ quote_qualified rel +:+ " IN SHARE UPDATE EXCLUSIVE MODE;"
  | AddCheck rel name expression not_valid =>
      "ALTER TABLE " +:+ quote_qualified rel +:+ " ADD CONSTRAINT " +:+ quote_identifier name
      +:+ " CHECK (" +:+ expression +:+ ")" +:+ (if not_valid then " NOT VALID;" else ";")
  | AddForeignKey rel name fk not_valid =>
      "ALTER TABLE " +:+ quote_qualified rel +:+ " ADD CONSTRAINT " +:+ quote_identifier name
      +:+ " " +:+ fk_clause fk +:+ (if not_valid then " NOT VALID;" else ";")
  | ValidateConstraint rel name =>
      "ALTER TABLE " +:+ quote_qualified rel +:+ " VALIDATE CONSTRAINT " +:+ quote_identifier name +:+ ";"
  | SetNotNull rel column =>
      "ALTER TABLE " +:+ quote_qualified rel +:+ " ALTER COLUMN " +:+ quote_identifier column +:+ " SET NOT NULL;"
  | SetNotNulls rel columns =>
      "ALTER TABLE " +:+ quote_qualified rel +:+ " "
      +:+ join ", " ((fun c => "ALTER COLUMN " +:+ quote_identifier c +:+ " SET NOT NULL") <$> columns) +:+ ";"
  | AddColumn rel column definition =>
      "ALTER TABLE " +:+ quote_qualified rel +:+ " ADD COLUMN " +:+ quote_identifier column +:+ " " +:+ definition +:+ ";"
  | FillFunction schema name tag alias fills =>
      "CREATE OR REPLACE FUNCTION " +:+ quote_pair schema name +:+ "() RETURNS trigger LANGUAGE plpgsql AS $" +:+ tag
      +:+ "$" +:+ nl +:+ "BEGIN" +:+ nl +:+ join "" (fill_case alias <$> fills)
      +:+ "  RETURN NEW;" +:+ nl +:+ "END" +:+ nl +:+ "$" +:+ tag +:+ "$;"
  | FillTrigger rel name schema =>
      "CREATE TRIGGER " +:+ quote_identifier name +:+ " BEFORE INSERT OR UPDATE ON " +:+ quote_qualified rel
      +:+ " FOR EACH ROW EXECUTE FUNCTION " +:+ quote_pair schema name +:+ "();"
  | DropTrigger rel name => "DROP TRIGGER " +:+ quote_identifier name +:+ " ON " +:+ quote_qualified rel +:+ ";"
  | DropFillFunction schema name => "DROP FUNCTION " +:+ quote_pair schema name +:+ "();"
  | DropConstraint rel name =>
      "ALTER TABLE " +:+ quote_qualified rel +:+ " DROP CONSTRAINT " +:+ quote_identifier name +:+ ";"
  | AlterColumnType rel column type using_ =>
      "ALTER TABLE " +:+ quote_qualified rel +:+ " ALTER COLUMN " +:+ quote_identifier column +:+ " TYPE " +:+ type
      +:+ match using_ with Some u => " USING " +:+ u | None => "" end +:+ ";"
  | DropColumn rel column => "ALTER TABLE " +:+ quote_qualified rel +:+ " DROP COLUMN " +:+ quote_identifier column +:+ ";"
  | DropTable rel => "DROP TABLE " +:+ quote_qualified rel +:+ ";"
  | RenameTable rel to => "ALTER TABLE " +:+ quote_qualified rel +:+ " RENAME TO " +:+ quote_identifier to +:+ ";"
  | RenameColumn rel column to =>
      "ALTER TABLE " +:+ quote_qualified rel +:+ " RENAME COLUMN " +:+ quote_identifier column +:+ " TO " +:+ quote_identifier to +:+ ";"
  | RenameConstraint rel name to =>
      "ALTER TABLE " +:+ quote_qualified rel +:+ " RENAME CONSTRAINT " +:+ quote_identifier name +:+ " TO " +:+ quote_identifier to +:+ ";"
  | AttachPartition rel child bound =>
      "ALTER TABLE " +:+ quote_qualified rel +:+ " ATTACH PARTITION " +:+ quote_qualified child +:+ " " +:+ bound +:+ ";"
  | DetachPartition rel child mode =>
      "ALTER TABLE " +:+ quote_qualified rel +:+ " DETACH PARTITION " +:+ quote_qualified child +:+ mode +:+ ";"
  | DropView materialized name => "DROP " +:+ (if materialized then "MATERIALIZED VIEW " else "VIEW ") +:+ name +:+ ";"
  | CreateView materialized name options definition =>
      "CREATE " +:+ (if materialized then "MATERIALIZED VIEW " else "VIEW ") +:+ name +:+ options +:+ " AS " +:+ definition +:+ ";"
  | Grant privilege column on who with_grant =>
      "GRANT " +:+ privilege +:+ (if String.eqb column "" then "" else " (" +:+ quote_identifier column +:+ ")") +:+ " ON " +:+ on
      +:+ " TO " +:+ who +:+ (if with_grant then " WITH GRANT OPTION;" else ";")
  | DropIndex concurrently schema name =>
      "DROP INDEX " +:+ (if concurrently then "CONCURRENTLY " else "") +:+ quote_pair schema name +:+ ";"
  | CreateIndex unique concurrently only name rel tail =>
      "CREATE " +:+ (if unique then "UNIQUE " else "") +:+ "INDEX " +:+ (if concurrently then "CONCURRENTLY " else "")
      +:+ quote_identifier name +:+ (if only then " ON ONLY " else " ON ") +:+ quote_qualified rel +:+ tail +:+ ";"
  | RowSecurity rel form =>
      "ALTER TABLE " +:+ quote_qualified rel
      +:+ match form with RlsEnable => " ENABLE" | RlsDisable => " DISABLE" | RlsForce => " FORCE" | RlsNoForce => " NO FORCE" end
      +:+ " ROW LEVEL SECURITY;"
  | AlterNamed what target change => "ALTER " +:+ what +:+ " " +:+ target +:+ render_change change +:+ ";"
  | Subscription name form => render_subscription name form
  | TextSearchMapping config form => render_mapping config form
  | AddKey only rel name clause =>
      "ALTER TABLE " +:+ (if only then "ONLY " else "") +:+ quote_qualified rel +:+ " ADD CONSTRAINT "
      +:+ quote_identifier name +:+ " " +:+ clause +:+ ";"
  | AddKeyUsing rel name key index =>
      "ALTER TABLE " +:+ quote_qualified rel +:+ " ADD CONSTRAINT " +:+ quote_identifier name +:+ " " +:+ key
      +:+ " USING INDEX " +:+ quote_identifier index +:+ ";"
  | AttachIndexOf schema name child_schema child =>
      "ALTER INDEX " +:+ quote_pair schema name +:+ " ATTACH PARTITION " +:+ quote_pair child_schema child +:+ ";"
  | RenameIndex schema name to =>
      "ALTER INDEX " +:+ quote_pair schema name +:+ " RENAME TO " +:+ quote_identifier to +:+ ";"
  | AttachIndex schema name child =>
      "ALTER INDEX " +:+ quote_pair schema name +:+ " ATTACH PARTITION " +:+ quote_pair schema child +:+ ";"
  | CommentOnIndex schema name comment =>
      "COMMENT ON INDEX " +:+ quote_pair schema name +:+ " IS " +:+ quote_literal comment +:+ ";"
  | CommentOn target comment => "COMMENT ON " +:+ target +:+ " IS " +:+ quote_literal comment +:+ ";"
  | JobPolicy target form => render_policy target form
  | RowChange s => render_row s
  | OtherSql text => text
  end.

(** ** Steps *)
Notation Detail := (list (string * json)) (only parsing).

Record Step : Type := {
  st_ordinal : Z;
  st_group : Z;
  st_kind : string;
  st_class : TxnClass;
  st_action : Action;
  st_sql : list Stmt;
  st_why : string;
  st_lock : string;
  st_own : bool;
  st_detail : list (string * json);
}.

(** [Step s; s.kind = kind;] *)
Definition new_step (kind : string) : Step :=
  {| st_ordinal := 0; st_group := 0; st_kind := kind; st_class := kOptional; st_action := kApply;
     st_sql := []; st_why := ""; st_lock := ""; st_own := false; st_detail := [] |}.

(** [detail[k] = v]. *)
Fixpoint set_key (k : string) (v : json) (l : list (string * json)) : list (string * json) :=
  match l with
  | [] => [(k, v)]
  | (k', v') :: l' => if String.eqb k k' then (k, v) :: l' else (k', v') :: set_key k v l'
  end.

Definition set_detail (k : string) (v : json) (s : Step) : Step :=
  {| st_ordinal := st_ordinal s; st_group := st_group s; st_kind := st_kind s; st_class := st_class s;
     st_action := st_action s; st_sql := st_sql s; st_why := st_why s; st_lock := st_lock s;
     st_own := st_own s; st_detail := set_key k v (st_detail s) |}.

Definition with_sql (sql : list Stmt) (s : Step) : Step :=
  {| st_ordinal := st_ordinal s; st_group := st_group s; st_kind := st_kind s; st_class := st_class s;
     st_action := st_action s; st_sql := sql; st_why := st_why s; st_lock := st_lock s;
     st_own := st_own s; st_detail := st_detail s |}.

Definition with_why (why : string) (s : Step) : Step :=
  {| st_ordinal := st_ordinal s; st_group := st_group s; st_kind := st_kind s; st_class := st_class s;
     st_action := st_action s; st_sql := st_sql s; st_why := why; st_lock := st_lock s;
     st_own := st_own s; st_detail := st_detail s |}.

Definition with_lock (lock : string) (s : Step) : Step :=
  {| st_ordinal := st_ordinal s; st_group := st_group s; st_kind := st_kind s; st_class := st_class s;
     st_action := st_action s; st_sql := st_sql s; st_why := st_why s; st_lock := lock;
     st_own := st_own s; st_detail := st_detail s |}.

Definition with_place (ordinal group : Z) (s : Step) : Step :=
  {| st_ordinal := ordinal; st_group := group; st_kind := st_kind s; st_class := st_class s;
     st_action := st_action s; st_sql := st_sql s; st_why := st_why s; st_lock := st_lock s;
     st_own := st_own s; st_detail := st_detail s |}.

(** [detail.value(k, false)] and [detail.value(k, "")] on what the planner wrote. *)
Definition detail_flag (k : string) (s : Step) : bool :=
  match obj_find k (st_detail s) with Some (JBool b) => b | _ => false end.

Definition detail_text (k : string) (s : Step) : string :=
  match obj_find k (st_detail s) with Some (JStr t) => t | _ => "" end.

Definition step_to_json (s : Step) : json :=
  JObj [("ordinal", JInt (st_ordinal s)); ("txnGroup", JInt (st_group s)); ("kind", JStr (st_kind s));
        ("txnClass", JStr (txn_to_string (st_class s))); ("action", JStr (action_to_string (st_action s)));
        ("sql", JArr (JStr <$> (render <$> st_sql s))); ("why", JStr (st_why s)); ("lock", JStr (st_lock s));
        ("detail", JObj (st_detail s))].

(** ** Plans *)
Record Plan : Type := {
  ok : bool;
  plan_spec_id : string;
  plan_spec_digest : string;
  steps : list Step;
  warnings : list string;
  advisories : list string;
  conflicts : list string;
  prerequisites : list json;
  budget : json;
}.

(** [Plan::to_json]; [modules] is the set the binary was built with. *)
Definition plan_to_json (modules : list string) (p : Plan) : json :=
  JObj ([("ok", JBool (ok p)); ("specId", JStr (plan_spec_id p)); ("specDigest", JStr (plan_spec_digest p));
         ("steps", JArr (step_to_json <$> steps p)); ("warnings", JArr (JStr <$> warnings p));
         ("conflicts", JArr (JStr <$> conflicts p)); ("prerequisites", JArr (prerequisites p));
         ("modules", JArr (JStr <$> modules)); ("budget", budget p)]
        ++ match advisories p with [] => [] | a => [("advisories", JArr (JStr <$> a))] end).

(** [kObservedDetailKeys]. *)
Definition observed_detail_keys : list string := ["estimated_from"; "lock_waiters"].

(** The step as it is hashed. *)
Definition hashed_step (s : json) : json :=
  match s with
  | JObj l => JObj ((fun kv => if String.eqb kv.1 "detail" && is_object kv.2
                               then (kv.1, foldl erase_key kv.2 observed_detail_keys) else kv) <$> l)
  | _ => s
  end.

(** What [digest] hashes. *)
Definition hashed_plan (modules : list string) (p : Plan) : json :=
  match erase_key (erase_key (erase_key (plan_to_json modules p) "budget") "modules") "advisories" with
  | JObj l => JObj ((fun kv => match kv.2 with
                               | JArr ss => if String.eqb kv.1 "steps" then (kv.1, JArr (hashed_step <$> ss)) else kv
                               | _ => kv
                               end) <$> l)
  | v => v
  end.

Definition plan_digest (sha256 : string -> string) (modules : list string) (p : Plan) : result canon_error string :=
  digest_hex sha256 (hashed_plan modules p).

(** ** Memory and connections *)

(** [budget["maintenanceWorkMem"]], as [compute_budget] fills it. *)
Record WorkMem : Type := { per_step_mb : Z; derived_ceiling_mb : Z; server_default_kb : Z }.

Definition maintenance_work_mem (configured_mb jobs shared_buffers_bytes server_kb : Z) : WorkMem :=
  if 0 <? configured_mb then
    {| per_step_mb := Z.max 1 (configured_mb `quot` jobs); derived_ceiling_mb := 0; server_default_kb := server_kb |}
  else
    {| per_step_mb := 0;
       derived_ceiling_mb := if 0 <? shared_buffers_bytes
                             then shared_buffers_bytes `quot` (1024 * 1024) `quot` jobs else 0;
       server_default_kb := server_kb |}.

Definition index_build_mwm_bytes (m : WorkMem) (wanted : Z) : Z :=
  let per_step := per_step_mb m * 1024 * 1024 in
  if 0 <? per_step then per_step
  else
    let server := server_default_kb m * 1024 in
    let limit := derived_ceiling_mb m * 1024 * 1024 in
    if (server <? wanted) && (server <? limit) then Z.min wanted limit else server.

(** ** What every planner does to a step *)

Definition not_rehearsed_text : string :=
  "the scan: the dry run runs in one transaction, where the lock of the step before would be held across it. A violating row is found when the job reaches this step".
Definition needs_the_scan_text : string :=
  "it is cheap only because the scan before it proved the rows; in the dry run that scan did not run, so this would scan under its exclusive lock".
Definition heavy_not_rehearsed_text : string :=
  "it reads or rewrites the whole table under a lock that blocks writes, and the dry run would do that to the live table and hold the lock until its final rollback. What it would refuse is found when the job reaches this step".

(** [kEmptyCopy] and [check_on_empty_copy]. *)
Definition kEmptyCopy : string := "pg_temp.laswell_shape".

Definition check_on_empty_copy (of_ sql : string) (s : Step) : Step :=
  let before := match obj_find "rehearse_on_copy" (st_detail s) with Some (JArr l) => l | _ => [] end in
  set_detail "rehearse_on_copy" (JArr (before ++ [JObj [("of", JStr of_); ("sql", JStr sql)]])) s.

(** [do_not_rehearse]. *)
Definition do_not_rehearse (why : string) (leaves_gap : bool) (s : Step) : Step :=
  set_detail "not_rehearsed_leaves_gap" (JBool leaves_gap) (set_detail "not_rehearsed" (JStr why) s).

(** [weaker_lock_first], over relations and over a relation without its partitions. *)
Definition weaker_locks_first (locks : list Stmt) (s : Step) : Step :=
  let s := with_sql (locks ++ st_sql s) s in
  let s := set_detail "weaker_lock_first" (JInt (Z.of_nat (length locks)))
             (set_detail "exclusive_retry" (JBool true) s) in
  with_why (st_why s +:+ ". SHARE UPDATE EXCLUSIVE is taken first: it waits out an autovacuum without queueing reads or writes, and the exclusive lock after it is asked for with a short timeout and retried") s.

Definition weaker_lock_first (rels : list string) (s : Step) : Step := weaker_locks_first (LockTable <$> rels) s.
Definition weaker_lock_only (rel : string) (s : Step) : Step := weaker_locks_first [LockOnly rel] s.
