(* ===== verification/PlanFacts.v ===== *)
(** * PlanFacts: what a plan's digest says (src/cpp/src/planner_base.h)

    [Plan::digest] is the receipt between showing a plan and running it. It hashes
    the canonical form of the plan less its budget, module set, advisories and the
    two readings in a step's detail that move by themselves. *)
From S2P Require Import Prelude Json Canonical CanonicalFacts Spec Quote Plan.

(** ** Documents equal up to presentation agree member by member *)
Lemma norm_find l1 l2 k :
  NoDup l1.*1 -> NoDup l2.*1 -> norm (JObj l1) = norm (JObj l2) ->
  norm <$> obj_find k l1 = norm <$> obj_find k l2.
Proof. rewrite !norm_obj_sorted. intros Hn1 Hn2 [= Hs]. by rewrite <- !obj_find_norm, Hs. Qed.

(** ** What is hashed *)
Lemma erased_keys d ks : foldl erase_key (JObj d) ks = JObj (List.filter (fun kv => negb (bool_decide (kv.1 ∈ ks))) d).
Proof.
  revert d; induction ks as [|k ks IH]; intros d; cbn [foldl erase_key].
  - f_equal. induction d as [|kv d IHd]; [done|]. cbn [List.filter].
    rewrite bool_decide_eq_false_2 by (by intros ?%not_elem_of_nil). by rewrite <- IHd at 1.
  - rewrite IH. f_equal. induction d as [|kv d IHd]; [done|]. cbn [List.filter].
    destruct (String.eqb_spec k kv.1) as [->|Hne]; cbn [negb List.filter].
    + rewrite (bool_decide_eq_true_2 (kv.1 ∈ kv.1 :: ks)) by set_solver. done.
    + rewrite (bool_decide_ext (kv.1 ∈ k :: ks) (kv.1 ∈ ks)) by set_solver. rewrite IHd. done.
Qed.

Definition hashed_detail (s : Step) : list (string * json) :=
  List.filter (fun kv => negb (bool_decide (kv.1 ∈ observed_detail_keys))) (st_detail s).

Lemma hashed_step_members s :
  hashed_step (step_to_json s) =
    JObj [("ordinal", JInt (st_ordinal s)); ("txnGroup", JInt (st_group s)); ("kind", JStr (st_kind s));
          ("txnClass", JStr (txn_to_string (st_class s))); ("action", JStr (action_to_string (st_action s)));
          ("sql", JArr (JStr <$> (render <$> st_sql s))); ("why", JStr (st_why s)); ("lock", JStr (st_lock s));
          ("detail", JObj (hashed_detail s))].
Proof.
  unfold hashed_step, step_to_json. cbn [fmap list_fmap fst snd String.eqb Ascii.eqb Bool.eqb andb is_object].
  rewrite erased_keys. done.
Qed.

Lemma hashed_plan_members m p :
  hashed_plan m p =
    JObj [("ok", JBool (ok p)); ("specId", JStr (plan_spec_id p)); ("specDigest", JStr (plan_spec_digest p));
          ("steps", JArr (hashed_step <$> (step_to_json <$> steps p))); ("warnings", JArr (JStr <$> warnings p));
          ("conflicts", JArr (JStr <$> conflicts p)); ("prerequisites", JArr (prerequisites p))].
Proof. unfold hashed_plan, plan_to_json. by destruct (advisories p). Qed.

(** Two steps that run the same statements the same way, for the same reasons. *)
Record same_step (a b : Step) : Prop := {
  ss_ordinal : st_ordinal a = st_ordinal b;
  ss_group : st_group a = st_group b;
  ss_kind : st_kind a = st_kind b;
  ss_class : st_class a = st_class b;
  ss_action : st_action a = st_action b;
  ss_sql : render <$> st_sql a = render <$> st_sql b;
  ss_why : st_why a = st_why b;
  ss_lock : st_lock a = st_lock b;
  ss_detail : forall k, k ∉ observed_detail_keys -> norm <$> obj_find k (st_detail a) = norm <$> obj_find k (st_detail b);
}.

#[export] Instance txn_to_string_inj : Inj (=) (=) txn_to_string.
Proof. by intros [] []. Qed.
#[export] Instance action_to_string_inj : Inj (=) (=) action_to_string.
Proof. by intros [] []. Qed.
#[export] Instance JStr_inj : Inj (=) (=) JStr.
Proof. by intros x y [= ->]. Qed.

Lemma norm_strings l1 l2 : norm (JArr (JStr <$> l1)) = norm (JArr (JStr <$> l2)) -> l1 = l2.
Proof.
  intros H. change (JArr (norm <$> (JStr <$> l1)) = JArr (norm <$> (JStr <$> l2))) in H. injection H as H.
  rewrite <- !list_fmap_compose in H. revert H. apply (inj (fmap JStr)).
Qed.

Lemma obj_find_filter k (f : string -> bool) (d : list (string * json)) :
  f k = true -> obj_find k (List.filter (fun kv => f kv.1) d) = obj_find k d.
Proof.
  intros Hf. induction d as [|[k' v] d IH]; [done|]. cbn [List.filter fst obj_find].
  destruct (String.eqb_spec k k') as [->|Hne].
  - rewrite Hf. cbn [obj_find]. by rewrite String.eqb_refl.
  - destruct (f k'); cbn [obj_find]; [|done]. destruct (String.eqb_spec k k'); done.
Qed.

(** Equal objects with the same distinct keys, member by member. *)
Ltac distinct_keys := cbn [fmap list_fmap fst]; apply (bool_decide_unpack _); vm_compute; exact I.
Ltac by_member Hn Hf :=
  match type of Hn with
  | norm (JObj ?l1) = norm (JObj ?l2) =>
      assert (Hf : forall k, norm <$> obj_find k l1 = norm <$> obj_find k l2)
        by (intros k; apply norm_find; [distinct_keys|distinct_keys|exact Hn])
  end.

Lemma same_step_of a b :
  NoDup (hashed_detail a).*1 -> NoDup (hashed_detail b).*1 ->
  norm (hashed_step (step_to_json a)) = norm (hashed_step (step_to_json b)) -> same_step a b.
Proof.
  intros Ha Hb. rewrite !hashed_step_members. intros Hn.
  by_member Hn Hf.
  pose proof (Hf "ordinal") as H1. pose proof (Hf "txnGroup") as H2. pose proof (Hf "kind") as H3.
  pose proof (Hf "txnClass") as H4. pose proof (Hf "action") as H5. pose proof (Hf "sql") as H6.
  pose proof (Hf "why") as H7. pose proof (Hf "lock") as H8. pose proof (Hf "detail") as H9. clear Hf Hn.
  cbn [obj_find String.eqb Ascii.eqb Bool.eqb fmap option_fmap option_map] in *.
  injection H1 as H1. injection H2 as H2. injection H3 as H3. injection H4 as H4%(inj txn_to_string).
  injection H5 as H5%(inj action_to_string). apply (inj Some), norm_strings in H6. injection H7 as H7. injection H8 as H8.
  apply (inj Some) in H9. split; try done. intros k Hk.
  set (f := fun k => negb (bool_decide (k ∈ observed_detail_keys))).
  assert (Hfk : f k = true) by (unfold f; by rewrite bool_decide_eq_false_2).
  rewrite <- (obj_find_filter k f (st_detail a) Hfk), <- (obj_find_filter k f (st_detail b) Hfk).
  apply (norm_find (hashed_detail a) (hashed_detail b) k Ha Hb H9).
Qed.

(** The budget, the advisories and the module set replaced. *)
Definition shown_with (b : json) (a : list string) (p : Plan) : Plan :=
  {| ok := ok p; plan_spec_id := plan_spec_id p; plan_spec_digest := plan_spec_digest p; steps := steps p;
     warnings := warnings p; advisories := a; conflicts := conflicts p; prerequisites := prerequisites p; budget := b |}.

Lemma norm_steps l1 l2 :
  Forall (fun s => NoDup (hashed_detail s).*1) l1 -> Forall (fun s => NoDup (hashed_detail s).*1) l2 ->
  norm <$> (hashed_step <$> (step_to_json <$> l1)) = norm <$> (hashed_step <$> (step_to_json <$> l2)) ->
  Forall2 same_step l1 l2.
Proof.
  intros H1; revert l2; induction H1 as [|a l1 Ha _ IH]; intros [|b l2] H2 Hn; try done.
  apply Forall_cons in H2 as [Hb H2]. rewrite !fmap_cons in Hn. apply (inj2 cons) in Hn as [Hs Hn]. constructor; [by apply same_step_of|auto].
Qed.

Lemma wf_step_detail s : wf_json (hashed_step (step_to_json s)) = true -> NoDup (hashed_detail s).*1.
Proof.
  rewrite hashed_step_members. intros [_ Hm]%wf_obj. rewrite Forall_forall in Hm.
  assert (Hd : wf_member ("detail", JObj (hashed_detail s)) = true) by (apply Hm; set_solver).
  unfold wf_member in Hd. apply andb_true_iff in Hd as [_ Hd]. by apply wf_obj in Hd as [? _].
Qed.

Lemma wf_plan_steps m p : wf_json (hashed_plan m p) = true -> Forall (fun s => NoDup (hashed_detail s).*1) (steps p).
Proof.
  rewrite hashed_plan_members. intros [_ Hm]%wf_obj. rewrite Forall_forall in Hm.
  assert (Hd : wf_member ("steps", JArr (hashed_step <$> (step_to_json <$> steps p))) = true) by (apply Hm; set_solver).
  unfold wf_member in Hd. apply andb_true_iff in Hd as [_ Hd]. apply wf_arr in Hd. rewrite !Forall_fmap in Hd.
  eapply Forall_impl; [exact Hd|]. intros s. apply wf_step_detail.
Qed.

(** C30: The plan's digest is a receipt for what will run. Two plans whose hashed
    bytes are the same were refused or accepted alike, come from the same
    specification, warn of the same things and have the same steps: the same
    statements in the same order, in the same transaction groups, with the same
    class, action, lock and reason and the same details but for the two readings
    that move by themselves. And those bytes do not change with the budget, the
    advisories or the modules the binary was built with. *)
Theorem plan_digest_is_a_receipt m m' p p' bytes :
  wf_json (hashed_plan m p) = true -> wf_json (hashed_plan m' p') = true ->
  canonicalize (hashed_plan m p) = Ok bytes -> canonicalize (hashed_plan m' p') = Ok bytes ->
  (ok p = ok p' /\ plan_spec_id p = plan_spec_id p' /\ plan_spec_digest p = plan_spec_digest p'
   /\ warnings p = warnings p' /\ conflicts p = conflicts p' /\ Forall2 same_step (steps p) (steps p'))
  /\ forall m2 b a sha256, plan_digest sha256 m2 (shown_with b a p) = plan_digest sha256 m p.
Proof.
  intros Hw Hw' Hb Hb'. split.
  - pose proof (canonicalize_inj _ _ _ Hw Hw' Hb Hb') as Hn.
    pose proof (wf_plan_steps m p Hw) as Hs. pose proof (wf_plan_steps m' p' Hw') as Hs'.
    rewrite !hashed_plan_members in Hn. by_member Hn Hf.
    pose proof (Hf "ok") as H1. pose proof (Hf "specId") as H2. pose proof (Hf "specDigest") as H3.
    pose proof (Hf "steps") as H4. pose proof (Hf "warnings") as H5. pose proof (Hf "conflicts") as H6. clear Hf Hn.
    cbn [obj_find String.eqb Ascii.eqb Bool.eqb fmap option_fmap option_map] in *.
    injection H1 as H1. injection H2 as H2. injection H3 as H3. apply (inj Some) in H4, H5, H6.
    split_and!; [done..|by apply norm_strings|by apply norm_strings|]. injection H4 as H4. by apply norm_steps.
  - intros m2 b a sha256. unfold plan_digest. by rewrite !hashed_plan_members.
Qed.

Definition receipt_plan (waiters : Z) : Plan :=
  {| ok := true; plan_spec_id := "0001-demo"; plan_spec_digest := "d";
     steps := [with_sql [DropConstraint "app.orders" "c"] (set_detail "lock_waiters" (JInt waiters) (new_step "drop_constraint"))];
     warnings := ["w"]; advisories := []; conflicts := []; prerequisites := []; budget := JObj [] |}.

(** [plan_digest_is_a_receipt] on two readings of one plan. *)
Lemma plan_digest_is_a_receipt_witness :
  exists bytes, canonicalize (hashed_plan [] (receipt_plan 0)) = Ok bytes
    /\ canonicalize (hashed_plan ["citus"] (receipt_plan 7)) = Ok bytes
    /\ Forall2 same_step (steps (receipt_plan 0)) (steps (receipt_plan 7)).
Proof.
  destruct (canonicalize (hashed_plan [] (receipt_plan 0))) as [bytes|e] eqn:H1; [|vm_compute in H1; discriminate].
  assert (H2 : canonicalize (hashed_plan ["citus"] (receipt_plan 7)) = Ok bytes) by (rewrite <- H1; vm_compute; reflexivity).
  exists bytes. split; [done|]. split; [exact H2|].
  apply (plan_digest_is_a_receipt [] ["citus"] (receipt_plan 0) (receipt_plan 7) bytes); [vm_compute; reflexivity..|done|done].
Defined.
