(* ===== verification/Planner.v ===== *)
(** * Planner: constraints into steps (src/cpp/src/planner.h)

    What a rule of the planner reads, what the vendor modules answer, and the
    rules of the constraint kinds: a check or a foreign key added NOT VALID and
    validated apart, NOT NULL through a validated check, a constraint dropped.
    An observation is a record of the readings the modelled rules look at. *)
From S2P Require Import Prelude Json Canonical Spec Quote Plan.

(** ** Observations (observations.h) *)

(** [c_generated] and [c_identity] are the catalog's letters, empty for an
    ordinary column; [c_sequence] the sequence it owns. *)
Record ColumnObs : Type := {
  c_type : string;
  c_not_null : bool;
  c_generated : string;
  c_identity : string;
  c_sequence : option string;
  c_type_kind : option string;     (* base type, range, multirange, ...: one letter *)
  c_gist : option bool;            (* whether GiST has a default operator class for it *)
}.

Definition plain_column (type : string) (not_null : bool) : ColumnObs :=
  {| c_type := type; c_not_null := not_null; c_generated := ""; c_identity := ""; c_sequence := None;
     c_type_kind := None; c_gist := None |}.

Definition with_type (type : string) (c : ColumnObs) : ColumnObs :=
  {| c_type := type; c_not_null := c_not_null c; c_generated := c_generated c; c_identity := c_identity c;
     c_sequence := c_sequence c; c_type_kind := c_type_kind c; c_gist := c_gist c |}.

Definition with_not_null (b : bool) (c : ColumnObs) : ColumnObs :=
  {| c_type := c_type c; c_not_null := b; c_generated := c_generated c; c_identity := c_identity c;
     c_sequence := c_sequence c; c_type_kind := c_type_kind c; c_gist := c_gist c |}.

Record ConstraintObs : Type := {
  k_type : string;
  k_validated : bool;
  k_depended_on_by : list string;
  k_has_index : bool;
  k_index : option string;
  k_references : string;
  k_column : option string;
}.

Record IndexObs : Type := {
  i_is_valid : bool;
  i_is_unique : bool;
  i_constraint_backed : bool;
  i_leading_column : string;
  i_columns : list string;         (* the payload of INCLUDE after the key *)
  i_key_column_count : option nat;
  i_column_order : list string;
  i_column_opclasses : list string;
  i_method : string;
  i_predicate : string;
  i_options : option (list string);
  i_has_expressions : bool;
  i_is_primary : bool;
  (* whether the reading says which columns there are and whether it is partial *)
  i_says_columns : bool;
  i_definition : string;
}.

(** A view that reads the table, directly or through another. *)
Record DependentView : Type := {
  v_name : string;                 (* qualified and quoted *)
  v_kind : string;
  v_level : Z;
  v_definition : string;
  v_owner : string;
  v_comment : option string;
  v_reloptions : list string;
  v_uses : list string;            (* columns of the table *)
  v_depends : list string;         (* other views *)
  v_column_comments : list (string * string);
  v_grants : list string;
  v_column_grants : list (string * list string);
  v_triggers : list string;
  v_indexes : list string;
}.

(** A partition and its indexes, as the recipes that work partition by partition read them. *)
Record PartIndex : Type := {
  px_valid : bool;
  px_unique : bool;
  px_constraint : bool;            (* it backs a constraint *)
  px_attached : option string;     (* the parent's index it is attached to *)
}.

Record PartObs : Type := {
  pt_relation : string;
  pt_partitioned : bool;
  pt_indexes : gmap string PartIndex;
}.

Record TableObs : Type := {
  t_exists : bool;
  t_kind : string;
  t_columns : gmap string ColumnObs;
  t_constraints : gmap string ConstraintObs;
  t_indexes : gmap string IndexObs;
  t_lock_waiters : Z;
  t_size_measured : option Z;
  t_size_estimate : Z;
  t_estimated_from : json;
  t_partitions : list string;
  t_partition_key : string;
  t_partition_parts : list PartObs;
  t_blocked : option string;                 (* observation_blocked, with its reason *)
  t_reltuples : Z;
  t_referenced_by : list string;
  t_row_security : bool * bool;              (* enabled, forced *)
  t_triggers : gmap string bool;             (* whether it is enabled *)
  t_policies : gset string;
  t_dependent_views : gmap string DependentView;
  t_reloptions : list string;
  t_owner : string;
  t_default_partition : option string;
  t_default_rows : option Z;
  t_detach_pending : list string;
  t_is_partition : bool;
  t_partition_by : string;                   (* of a table an earlier intent creates *)
}.

(** A hypertable of the TimescaleDB module's reading. *)
Record Hypertable : Type := { h_columnstore : bool; h_size_bytes : Z; h_rows : Z; h_chunks : Z; h_projected : bool }.

(** A table of the Citus module's reading. *)
Record CitusTable : Type := { ct_partmethod : string; ct_distribution_column : string }.

(** What is read of a text search configuration. *)
Record DictionaryObs : Type := { d_schema : string; d_name : string; d_visible : bool }.

Definition dictionary_name (d : DictionaryObs) : string := d_schema d +:+ "." +:+ d_name d.

(** An index whose definition names the configuration. *)
Record BuiltIndex : Type := { b_table : string; b_schema : string; b_index : string; b_bytes : Z }.

Record TextSearchObs : Type := {
  ts_dictionaries : list DictionaryObs;
  ts_tokens : list string;
  ts_mapping : gmap string (list string);
  ts_indexes : list BuiltIndex;
  ts_other_dependents : list string;
}.

Definition no_text_search : TextSearchObs :=
  {| ts_dictionaries := []; ts_tokens := []; ts_mapping := ∅; ts_indexes := []; ts_other_dependents := [] |}.

(** What is not a relation: a schema, an extension, a type, a function, a sequence. *)
Record ObjectObs : Type := {
  ob_exists : bool;
  ob_contains : list string;
  ob_depended_on_by : list string;
  ob_version : option string;
  ob_available : option bool;
  ob_default_version : option string;
  ob_type_kind : string;
  ob_enum_labels : list string;
  ob_returns : option string;      (* null for a procedure *)
  ob_created_in_spec : bool;
  ob_text_search : TextSearchObs;
}.

Definition no_object : ObjectObs :=
  {| ob_exists := false; ob_contains := []; ob_depended_on_by := []; ob_version := None; ob_available := None;
     ob_default_version := None; ob_type_kind := ""; ob_enum_labels := []; ob_returns := None; ob_created_in_spec := false;
     ob_text_search := no_text_search |}.

Record Observations : Type := {
  o_server_version : Z;
  o_is_in_recovery : bool;
  o_shared_buffers_bytes : Z;
  o_maintenance_work_mem_kb : Z;
  o_tables : gmap string TableObs;
  o_hypertables : option (gmap string Hypertable);
  o_citus : option (gmap string CitusTable);
  o_extension_errors : list (string * string);
  o_objects : gmap string ObjectObs;
}.

(** [kEmpty], what [table()] gives for a relation that was not read. *)
Definition no_table : TableObs :=
  {| t_exists := false; t_kind := ""; t_columns := ∅; t_constraints := ∅; t_indexes := ∅;
     t_lock_waiters := 0; t_size_measured := None; t_size_estimate := 0; t_estimated_from := JNull;
     t_partitions := []; t_partition_key := ""; t_partition_parts := []; t_blocked := None;
     t_reltuples := 0; t_referenced_by := []; t_row_security := (false, false); t_triggers := ∅; t_policies := ∅;
     t_dependent_views := ∅; t_reloptions := []; t_owner := "";
     t_default_partition := None; t_default_rows := None; t_detach_pending := []; t_is_partition := false;
     t_partition_by := "" |}.

Definition table_obs (o : Observations) (qualified : string) : TableObs :=
  default no_table (o_tables o !! qualified).

(** [object()]. *)
Definition object_obs (o : Observations) (key : string) : ObjectObs := default no_object (o_objects o !! key).

(** ** Readings with one part replaced *)
Definition with_tables (ts : gmap string TableObs) (o : Observations) : Observations :=
  {| o_server_version := o_server_version o; o_is_in_recovery := o_is_in_recovery o;
     o_shared_buffers_bytes := o_shared_buffers_bytes o; o_maintenance_work_mem_kb := o_maintenance_work_mem_kb o;
     o_tables := ts; o_hypertables := o_hypertables o; o_citus := o_citus o;
     o_extension_errors := o_extension_errors o; o_objects := o_objects o |}.

Definition with_objects (os : gmap string ObjectObs) (o : Observations) : Observations :=
  {| o_server_version := o_server_version o; o_is_in_recovery := o_is_in_recovery o;
     o_shared_buffers_bytes := o_shared_buffers_bytes o; o_maintenance_work_mem_kb := o_maintenance_work_mem_kb o;
     o_tables := o_tables o; o_hypertables := o_hypertables o; o_citus := o_citus o;
     o_extension_errors := o_extension_errors o; o_objects := os |}.

Definition with_columns (cs : gmap string ColumnObs) (t : TableObs) : TableObs :=
  {| t_exists := t_exists t; t_kind := t_kind t; t_columns := cs; t_constraints := t_constraints t;
     t_indexes := t_indexes t; t_lock_waiters := t_lock_waiters t; t_size_measured := t_size_measured t;
     t_size_estimate := t_size_estimate t; t_estimated_from := t_estimated_from t; t_partitions := t_partitions t;
     t_partition_key := t_partition_key t; t_partition_parts := t_partition_parts t; t_blocked := t_blocked t;
     t_reltuples := t_reltuples t; t_referenced_by := t_referenced_by t; t_row_security := t_row_security t;
     t_triggers := t_triggers t; t_policies := t_policies t; t_dependent_views := t_dependent_views t;
     t_reloptions := t_reloptions t; t_owner := t_owner t;
     t_default_partition := t_default_partition t; t_default_rows := t_default_rows t;
     t_detach_pending := t_detach_pending t; t_is_partition := t_is_partition t; t_partition_by := t_partition_by t |}.

Definition with_constraints (cs : gmap string ConstraintObs) (t : TableObs) : TableObs :=
  {| t_exists := t_exists t; t_kind := t_kind t; t_columns := t_columns t; t_constraints := cs;
     t_indexes := t_indexes t; t_lock_waiters := t_lock_waiters t; t_size_measured := t_size_measured t;
     t_size_estimate := t_size_estimate t; t_estimated_from := t_estimated_from t; t_partitions := t_partitions t;
     t_partition_key := t_partition_key t; t_partition_parts := t_partition_parts t; t_blocked := t_blocked t;
     t_reltuples := t_reltuples t; t_referenced_by := t_referenced_by t; t_row_security := t_row_security t;
     t_triggers := t_triggers t; t_policies := t_policies t; t_dependent_views := t_dependent_views t;
     t_reloptions := t_reloptions t; t_owner := t_owner t;
     t_default_partition := t_default_partition t; t_default_rows := t_default_rows t;
     t_detach_pending := t_detach_pending t; t_is_partition := t_is_partition t; t_partition_by := t_partition_by t |}.

Definition with_indexes (is_ : gmap string IndexObs) (t : TableObs) : TableObs :=
  {| t_exists := t_exists t; t_kind := t_kind t; t_columns := t_columns t; t_constraints := t_constraints t;
     t_indexes := is_; t_lock_waiters := t_lock_waiters t; t_size_measured := t_size_measured t;
     t_size_estimate := t_size_estimate t; t_estimated_from := t_estimated_from t; t_partitions := t_partitions t;
     t_partition_key := t_partition_key t; t_partition_parts := t_partition_parts t; t_blocked := t_blocked t;
     t_reltuples := t_reltuples t; t_referenced_by := t_referenced_by t; t_row_security := t_row_security t;
     t_triggers := t_triggers t; t_policies := t_policies t; t_dependent_views := t_dependent_views t;
     t_reloptions := t_reloptions t; t_owner := t_owner t;
     t_default_partition := t_default_partition t; t_default_rows := t_default_rows t;
     t_detach_pending := t_detach_pending t; t_is_partition := t_is_partition t; t_partition_by := t_partition_by t |}.

Definition with_partitions (ps : list string) (t : TableObs) : TableObs :=
  {| t_exists := t_exists t; t_kind := t_kind t; t_columns := t_columns t; t_constraints := t_constraints t;
     t_indexes := t_indexes t; t_lock_waiters := t_lock_waiters t; t_size_measured := t_size_measured t;
     t_size_estimate := t_size_estimate t; t_estimated_from := t_estimated_from t; t_partitions := ps;
     t_partition_key := t_partition_key t; t_partition_parts := t_partition_parts t; t_blocked := t_blocked t;
     t_reltuples := t_reltuples t; t_referenced_by := t_referenced_by t; t_row_security := t_row_security t;
     t_triggers := t_triggers t; t_policies := t_policies t; t_dependent_views := t_dependent_views t;
     t_reloptions := t_reloptions t; t_owner := t_owner t;
     t_default_partition := t_default_partition t; t_default_rows := t_default_rows t;
     t_detach_pending := t_detach_pending t; t_is_partition := t_is_partition t; t_partition_by := t_partition_by t |}.

Definition with_exists (e : bool) (kind : string) (t : TableObs) : TableObs :=
  {| t_exists := e; t_kind := kind; t_columns := t_columns t; t_constraints := t_constraints t;
     t_indexes := t_indexes t; t_lock_waiters := t_lock_waiters t; t_size_measured := t_size_measured t;
     t_size_estimate := t_size_estimate t; t_estimated_from := t_estimated_from t; t_partitions := t_partitions t;
     t_partition_key := t_partition_key t; t_partition_parts := t_partition_parts t; t_blocked := t_blocked t;
     t_reltuples := t_reltuples t; t_referenced_by := t_referenced_by t; t_row_security := t_row_security t;
     t_triggers := t_triggers t; t_policies := t_policies t; t_dependent_views := t_dependent_views t;
     t_reloptions := t_reloptions t; t_owner := t_owner t;
     t_default_partition := t_default_partition t; t_default_rows := t_default_rows t;
     t_detach_pending := t_detach_pending t; t_is_partition := t_is_partition t; t_partition_by := t_partition_by t |}.

Definition with_row_security (enabled forced : bool) (t : TableObs) : TableObs :=
  {| t_exists := t_exists t; t_kind := t_kind t; t_columns := t_columns t; t_constraints := t_constraints t;
     t_indexes := t_indexes t; t_lock_waiters := t_lock_waiters t; t_size_measured := t_size_measured t;
     t_size_estimate := t_size_estimate t; t_estimated_from := t_estimated_from t; t_partitions := t_partitions t;
     t_partition_key := t_partition_key t; t_partition_parts := t_partition_parts t; t_blocked := t_blocked t;
     t_reltuples := t_reltuples t; t_referenced_by := t_referenced_by t; t_row_security := (enabled, forced);
     t_triggers := t_triggers t; t_policies := t_policies t; t_dependent_views := t_dependent_views t;
     t_reloptions := t_reloptions t; t_owner := t_owner t;
     t_default_partition := t_default_partition t; t_default_rows := t_default_rows t;
     t_detach_pending := t_detach_pending t; t_is_partition := t_is_partition t; t_partition_by := t_partition_by t |}.

Definition with_triggers (ts : gmap string bool) (t : TableObs) : TableObs :=
  {| t_exists := t_exists t; t_kind := t_kind t; t_columns := t_columns t; t_constraints := t_constraints t;
     t_indexes := t_indexes t; t_lock_waiters := t_lock_waiters t; t_size_measured := t_size_measured t;
     t_size_estimate := t_size_estimate t; t_estimated_from := t_estimated_from t; t_partitions := t_partitions t;
     t_partition_key := t_partition_key t; t_partition_parts := t_partition_parts t; t_blocked := t_blocked t;
     t_reltuples := t_reltuples t; t_referenced_by := t_referenced_by t; t_row_security := t_row_security t;
     t_triggers := ts; t_policies := t_policies t; t_dependent_views := t_dependent_views t;
     t_reloptions := t_reloptions t; t_owner := t_owner t;
     t_default_partition := t_default_partition t; t_default_rows := t_default_rows t;
     t_detach_pending := t_detach_pending t; t_is_partition := t_is_partition t; t_partition_by := t_partition_by t |}.

Definition with_policies (ps : gset string) (t : TableObs) : TableObs :=
  {| t_exists := t_exists t; t_kind := t_kind t; t_columns := t_columns t; t_constraints := t_constraints t;
     t_indexes := t_indexes t; t_lock_waiters := t_lock_waiters t; t_size_measured := t_size_measured t;
     t_size_estimate := t_size_estimate t; t_estimated_from := t_estimated_from t; t_partitions := t_partitions t;
     t_partition_key := t_partition_key t; t_partition_parts := t_partition_parts t; t_blocked := t_blocked t;
     t_reltuples := t_reltuples t; t_referenced_by := t_referenced_by t; t_row_security := t_row_security t;
     t_triggers := t_triggers t; t_policies := ps; t_dependent_views := t_dependent_views t;
     t_reloptions := t_reloptions t; t_owner := t_owner t;
     t_default_partition := t_default_partition t; t_default_rows := t_default_rows t;
     t_detach_pending := t_detach_pending t; t_is_partition := t_is_partition t; t_partition_by := t_partition_by t |}.

Definition with_default_partition (d : string) (rows : Z) (t : TableObs) : TableObs :=
  {| t_exists := t_exists t; t_kind := t_kind t; t_columns := t_columns t; t_constraints := t_constraints t;
     t_indexes := t_indexes t; t_lock_waiters := t_lock_waiters t; t_size_measured := t_size_measured t;
     t_size_estimate := t_size_estimate t; t_estimated_from := t_estimated_from t; t_partitions := t_partitions t;
     t_partition_key := t_partition_key t; t_partition_parts := t_partition_parts t; t_blocked := t_blocked t;
     t_reltuples := t_reltuples t; t_referenced_by := t_referenced_by t; t_row_security := t_row_security t;
     t_triggers := t_triggers t; t_policies := t_policies t; t_dependent_views := t_dependent_views t;
     t_reloptions := t_reloptions t; t_owner := t_owner t;
     t_default_partition := Some d; t_default_rows := Some rows;
     t_detach_pending := t_detach_pending t; t_is_partition := t_is_partition t; t_partition_by := t_partition_by t |}.

(** ** Intents: the parsed body's fields *)
Definition bstr (i : Intent) (k d : string) : string :=
  match value_str (body i) k d with Ok s => s | Err _ => d end.
Definition bbool (i : Intent) (k : string) (d : bool) : bool :=
  match value_bool (body i) k d with Ok b => b | Err _ => d end.
Definition bstrs (i : Intent) (k : string) : list string :=
  omap (fun v => match v with JStr s => Some s | _ => None end) (elements (at_key (body i) k)).
Definition bopt (i : Intent) (k : string) : option string :=
  if contains (body i) k then Some (bstr i k "") else None.

Definition in_schema (i : Intent) : string := bstr i "schema" "".
Definition in_table (i : Intent) : string := bstr i "table" "".
Definition in_qualified (i : Intent) : string := in_schema i +:+ "." +:+ in_table i.

Definition dq : string := string_of_char dquote.

(** [find(sub) != npos]. *)
Definition has_sub (sub s : string) : bool :=
  match String.index 0 sub s with Some _ => true | None => false end.

(** ** What the modules answer *)
Record ConstraintTraits : Type := {
  ct_separate_validation : bool;
  ct_reason : string;
  ct_size_bytes : Z;
  ct_rows : Z;
  ct_scope : string;
}.

(** [timescaledb_constraint_traits] (modules/timescaledb/constraint.h). *)
Definition timescaledb_constraint_traits (o : Observations) (qualified : string) : option ConstraintTraits :=
  match o_hypertables o with
  | None => None
  | Some h =>
      match h !! qualified with
      | None => None
      | Some t =>
          if negb (h_columnstore t) then None
          else
            Some {| ct_separate_validation := false;
                    ct_reason := "operation not supported on hypertables that have columnstore enabled";
                    ct_size_bytes := if h_projected t then -1 else h_size_bytes t;
                    ct_rows := if h_projected t then -1 else h_rows t;
                    ct_scope := qualified +:+ " and each of its " +:+ to_string (h_chunks t) +:+ " chunk"
                                +:+ (if h_chunks t =? 1 then "" else "s") |}
      end
  end.

(** [IndexPart] and [IndexTraits] (planner_base.h); a module that does not answer
    gives no record. *)
Record IndexPart : Type := { part_relation : string; part_indexes : gmap string bool }.

Record IndexTraits : Type := {
  it_parts : list IndexPart;
  it_concurrent : bool;
  it_per_part_option : string;
  it_per_part_unique : bool;
  it_size_bytes : Z;
  it_rows : Z;
  it_scope : string;
  it_memory_wanted : Z;
  it_memory_per_row : Z;
  it_memory_by : string;
}.

(** What is not in core: the answers of the enabled modules that answer, by module
    name in the build's order, and the rendering of a size. *)
Class Vendors : Type := {
  constraint_answers : Observations -> string -> list (string * ConstraintTraits);
  index_answers : Observations -> string -> Intent -> list (string * IndexTraits);
  human_bytes : Z -> string;
  (** What each enabled module requires row-locking batches to be confined to. *)
  confinements : list (string * (Observations -> string -> string));
}.

(** [constraint_traits]: the first module to answer wins. *)
Definition constraint_traits `{Vendors} (o : Observations) (qualified : string) : option (string * ConstraintTraits) :=
  head (constraint_answers o qualified).

(** ** Steps that say no or already *)

(** What one rule adds: steps, warnings and conflicts. *)
Record Emitted : Type := { e_steps : list Step; e_warnings : list string; e_conflicts : list string }.

Definition emit (ss : list Step) : Emitted := {| e_steps := ss; e_warnings := []; e_conflicts := [] |}.

Definition with_action (a : Action) (why : string) (s : Step) : Step :=
  {| st_ordinal := st_ordinal s; st_group := st_group s; st_kind := st_kind s; st_class := st_class s;
     st_action := a; st_sql := st_sql s; st_why := why; st_lock := st_lock s;
     st_own := st_own s; st_detail := st_detail s |}.

Definition refuse (i : Intent) (why conflict : string) : Emitted :=
  {| e_steps := [with_action kConflict why (new_step (kind_name i))]; e_warnings := [];
     e_conflicts := [conflict] |}.

Definition satisfied (i : Intent) (why : string) : Emitted :=
  emit [with_action kSatisfied why (new_step (kind_name i))].

(** A step of a kind with its class, boundary, statements, lock and reason. *)
Definition make (kind : string) (c : TxnClass) (own : bool) (sql : list Stmt) (lock why : string)
    (detail : list (string * json)) : Step :=
  {| st_ordinal := 0; st_group := 0; st_kind := kind; st_class := c; st_action := kApply; st_sql := sql;
     st_why := why; st_lock := lock; st_own := own; st_detail := detail |}.

(** ** Constraints *)
Inductive ConstraintState : Type := kAbsent | kNotValid | kValid.

#[export] Instance ConstraintState_eq_dec : EqDecision ConstraintState.
Proof. solve_decision. Defined.

Definition constraint_state (t : TableObs) (name : string) : ConstraintState :=
  match t_constraints t !! name with
  | None => kAbsent
  | Some c => if k_validated c then kValid else kNotValid
  end.

Definition exclusive_briefly : string :=
  "AccessExclusiveLock, briefly: reads and writes wait while it is requested and held; NOT VALID means no scan".
Definition weak_lock : string := "ShareUpdateExclusiveLock -- does NOT block reads or writes".

Section Rules.
Context `{Vendors}.

(** [validate_in_one_step]; the step and its warning. *)
Definition validate_in_one_step (s : Step) (tr : ConstraintTraits) (by_ qualified what lock blocks : string) :
  Step * string :=
  let scope := if String.eqb (ct_scope tr) "" then qualified else ct_scope tr in
  let over := if 0 <=? ct_size_bytes tr then ", over " +:+ human_bytes (ct_size_bytes tr) else "" in
  let s := {| st_ordinal := st_ordinal s; st_group := st_group s; st_kind := st_kind s; st_class := kRequired;
              st_action := st_action s; st_sql := st_sql s;
              st_why := by_ +:+ " refuses VALIDATE CONSTRAINT on " +:+ qualified +:+ " (" +:+ dq +:+ ct_reason tr
                        +:+ dq +:+ "), so NOT VALID followed by VALIDATE would commit the first step and fail on the second -> validated by the statement that adds it" +:+ over;
              st_lock := lock +:+ " on " +:+ scope +:+ ", held for the whole scan"; st_own := true;
              st_detail := st_detail s |} in
  let s := set_detail "validated_in_one_step_by" (JStr by_) s in
  let s := if 0 <=? ct_rows tr then set_detail "rows" (JInt (ct_rows tr)) s else s in
  (do_not_rehearse heavy_not_rehearsed_text true s,
   what +:+ " on " +:+ qualified +:+ " is validated in one statement: " +:+ by_
   +:+ " allows no separate VALIDATE CONSTRAINT here. " +:+ blocks +:+ " " +:+ scope
   +:+ " block for the whole scan" +:+ over +:+ ". Schedule it for a quiet window.").

(** [plan_add_check_constraint]. *)
Definition plan_add_check_constraint (i : Intent) (o : Observations) : Emitted :=
  let qualified := in_qualified i in
  let t := table_obs o qualified in
  let name := bstr i "name" "" in
  let expression := bstr i "expression" "" in
  if negb (t_exists t) then refuse i (qualified +:+ " does not exist") (qualified +:+ " does not exist")
  else
    let two_steps :=
      match constraint_state t name with
      | kValid =>
          satisfied i ("constraint " +:+ name +:+ " already exists on " +:+ qualified +:+ " and is valid")
      | have =>
          let resuming := bool_decide (have = kNotValid) in
          let add :=
            weaker_lock_first [qualified]
              (make (kind_name i) kRequired true [AddCheck qualified name expression true] exclusive_briefly
                 "step 1 of 2: NOT VALID costs no scan, so the exclusive lock is held for the catalog change only. It still has to be GRANTED: behind a long transaction or an autovacuum on the table it waits, and every reader and writer queues behind it until lock_timeout"
                 [("constraint", JStr name)]) in
          let validate :=
            do_not_rehearse not_rehearsed_text false
              (make (kind_name i) kRequired true [ValidateConstraint qualified name] weak_lock
                 (if resuming
                  then "the constraint is already there, NOT VALID: an earlier attempt added it and did not finish validating. This resumes at the scan, under a lock the application can work through"
                  else "step 2 of 2: the scan, under a lock the application can work through. Its own transaction, or step 1's lock would span it")
                 [("constraint", JStr name)]) in
          emit ((if resuming then [] else [add]) ++ [validate])
      end in
    match constraint_traits o qualified with
    | Some (by_, tr) =>
        if negb (ct_separate_validation tr) then
          let '(one, warning) :=
            validate_in_one_step (with_sql [AddCheck qualified name expression false] (new_step (kind_name i)))
              tr by_ qualified ("check constraint " +:+ dq +:+ name +:+ dq) "AccessExclusiveLock"
              "Reads and writes on" in
          {| e_steps := [set_detail "constraint" (JStr name) one]; e_warnings := [warning]; e_conflicts := [] |}
        else two_steps
    | None => two_steps
    end.

(** The clause of [plan_add_foreign_key]. *)
Definition intent_fk (i : Intent) : ForeignKey :=
  {| fk_columns := bstrs i "columns";
     fk_parent := bstr i "references_schema" "" +:+ "." +:+ bstr i "references_table" "";
     fk_references := bstrs i "references_columns"; fk_period := bbool i "period" false;
     fk_on_delete := bopt i "on_delete"; fk_on_update := bopt i "on_update" |}.

(** [plan_add_foreign_key]. *)
Definition plan_add_foreign_key (i : Intent) (o : Observations) : Emitted :=
  let qualified := in_qualified i in
  let t := table_obs o qualified in
  let name := bstr i "name" "" in
  let fk := intent_fk i in
  let parent := fk_parent fk in
  if negb (t_exists t) then refuse i (qualified +:+ " does not exist") (qualified +:+ " does not exist")
  else
    let unsupported :=
      match fk_columns fk with
      | [] => []
      | c :: _ =>
          if existsb (fun ix => String.eqb (i_leading_column ix) c) (snd <$> map_to_list (t_indexes t)) then []
          else ["no index leads with " +:+ qualified +:+ "." +:+ c +:+ ", so every UPDATE or DELETE on " +:+ parent
                +:+ " will scan " +:+ qualified
                +:+ " to check this constraint. Add the index first, in an earlier intent."]
      end in
    let two_steps :=
      match constraint_state t name with
      | kValid =>
          satisfied i ("constraint " +:+ name +:+ " already exists on " +:+ qualified +:+ " and is valid")
      | have =>
          let resuming := bool_decide (have = kNotValid) in
          let add :=
            weaker_lock_first [qualified; parent]
              (make (kind_name i) kRequired true [AddForeignKey qualified name fk true]
                 ("ShareRowExclusiveLock on " +:+ qualified +:+ " and on " +:+ parent
                  +:+ ", briefly: writes to both wait, reads do not; NOT VALID means no scan")
                 ("step 1 of 2: NOT VALID takes the same strong locks as a validating add but for a catalog change only, so they are held for milliseconds rather than for the length of a scan. Note the second lock: this statement names one table and locks two, and "
                  +:+ parent +:+ " may be the busier one")
                 [("constraint", JStr name); ("references", JStr parent)]) in
          let validate :=
            do_not_rehearse not_rehearsed_text false
              (make (kind_name i) kRequired true [ValidateConstraint qualified name]
                 ("ShareUpdateExclusiveLock on " +:+ qualified +:+ " and RowShareLock on " +:+ parent
                  +:+ " -- neither blocks reads or writes")
                 (if resuming
                  then "the constraint is already there, NOT VALID: an earlier attempt added it and did not finish validating. This resumes at the scan, under a lock that lets the application keep working"
                  else "step 2 of 2: the scan, under a lock that lets the application keep working. It must be its own transaction, or step 1's ShareRowExclusiveLock would be held across it and the two-step form would buy nothing")
                 [("constraint", JStr name)]) in
          emit ((if resuming then [] else [add]) ++ [validate])
      end in
    let e :=
      match constraint_traits o qualified with
      | Some (by_, tr) =>
          if negb (ct_separate_validation tr) then
            let '(one, warning) :=
              validate_in_one_step (with_sql [AddForeignKey qualified name fk false] (new_step (kind_name i)))
                tr by_ qualified ("foreign key " +:+ dq +:+ name +:+ dq) "ShareRowExclusiveLock"
                ("Writes to " +:+ parent +:+ " and to") in
            let one := with_lock (st_lock one +:+ "; ShareRowExclusiveLock on " +:+ parent +:+ " for as long") one in
            {| e_steps := [set_detail "references" (JStr parent) (set_detail "constraint" (JStr name) one)];
               e_warnings := [warning]; e_conflicts := [] |}
          else two_steps
      | None => two_steps
      end in
    {| e_steps := e_steps e; e_warnings := unsupported ++ e_warnings e; e_conflicts := e_conflicts e |}.

(** The temporary check's name. *)
Definition not_null_check (i : Intent) : string :=
  in_table i +:+ "_" +:+ bstr i "column" "" +:+ "_laswell_nn".

(** [make] of [plan_set_not_null]. *)
Definition not_null_step (i : Intent) (s : Stmt) (lock why : string) : Step :=
  let step := make (kind_name i) kRequired true [s] lock why
                [("column", JStr (bstr i "column" "")); ("qualified", JStr (in_qualified i))] in
  if has_sub "VALIDATE CONSTRAINT" (render s) then step else weaker_lock_first [in_qualified i] step.

(** [plan_set_not_null]. *)
Definition plan_set_not_null (i : Intent) (o : Observations) : Emitted :=
  let qualified := in_qualified i in
  let t := table_obs o qualified in
  let column := bstr i "column" "" in
  let check := not_null_check i in
  if negb (t_exists t) then refuse i (qualified +:+ " does not exist") (qualified +:+ " does not exist")
  else
    match t_columns t !! column with
    | None => refuse i (qualified +:+ "." +:+ column +:+ " does not exist")
                (qualified +:+ "." +:+ column +:+ " does not exist, so it cannot be set NOT NULL")
    | Some c =>
        if c_not_null c then satisfied i (qualified +:+ "." +:+ column +:+ " is already NOT NULL")
        else
          let recipe :=
            let have := constraint_state t check in
            let add := not_null_step i
              (AddCheck qualified check (quote_identifier column +:+ " IS NOT NULL") true) exclusive_briefly
              "step 1 of 4: a NOT VALID check costs no scan, so the exclusive lock is held only for the catalog change. It still has to be GRANTED: behind a long transaction or an autovacuum on the table it waits, and every reader and writer queues behind it until lock_timeout" in
            let validate := do_not_rehearse not_rehearsed_text false
              (not_null_step i (ValidateConstraint qualified check) weak_lock
                 "step 2 of 4: this is where the scan happens, and it happens under a lock that lets the application keep working. It must be its own transaction, or step 1's stronger lock would be held across it") in
            let set_nn := not_null_step i (SetNotNull qualified column) "AccessExclusiveLock, but no scan"
              "step 3 of 4: still an exclusive lock, but PostgreSQL skips the scan because the validated CHECK already proves the column has no nulls (measured: 24ms on 5000 rows)" in
            let drop := not_null_step i (DropConstraint qualified check) "AccessExclusiveLock, briefly"
              "step 4 of 4: the CHECK is redundant once the column is NOT NULL, and a redundant constraint costs time on every insert. Set keep_check to keep it" in
            emit ((if bool_decide (have = kAbsent) then [add] else [])
                  ++ (if bool_decide (have = kValid) then [] else [validate])
                  ++ [if bool_decide (have = kValid) then set_nn
                      else do_not_rehearse needs_the_scan_text true set_nn]
                  ++ (if bbool i "keep_check" false then [] else [drop])) in
          match constraint_traits o qualified with
          | Some (by_, tr) =>
              if negb (ct_separate_validation tr) then
                let '(one, warning) :=
                  validate_in_one_step (with_sql [SetNotNull qualified column] (new_step (kind_name i)))
                    tr by_ qualified ("NOT NULL on column " +:+ dq +:+ column +:+ dq) "AccessExclusiveLock"
                    "Reads and writes on" in
                {| e_steps := [set_detail "qualified" (JStr qualified) (set_detail "column" (JStr column) one)];
                   e_warnings := [warning]; e_conflicts := [] |}
              else recipe
          | None => recipe
          end
    end.

(** What [plan_drop_constraint] calls the constraint's type. *)
Definition constraint_type_text (type : string) : string :=
  if String.eqb type "c" then "check" else if String.eqb type "u" then "unique"
  else if String.eqb type "x" then "exclusion" else if String.eqb type "n" then "not-null"
  else if String.eqb type "p" then "primary key" else "".

(** [plan_drop_constraint]. *)
Definition plan_drop_constraint (i : Intent) (o : Observations) : Emitted :=
  let qualified := in_qualified i in
  let t := table_obs o qualified in
  let name := bstr i "name" "" in
  if negb (t_exists t) then refuse i (qualified +:+ " does not exist") (qualified +:+ " does not exist")
  else
    match t_constraints t !! name with
    | None => satisfied i ("no constraint named " +:+ name +:+ " on " +:+ qualified)
    | Some c =>
        let type := k_type c in
        match k_depended_on_by c with
        | d :: ds =>
            let names := join ", " (d :: ds) in
            refuse i (name +:+ " is depended on by " +:+ names)
              (dq +:+ name +:+ dq +:+ " on " +:+ qualified +:+ " cannot be dropped: " +:+ names
               +:+ " depends on its index. Drop the dependent constraint first, in an earlier intent. pg_laswell will not emit CASCADE, because CASCADE drops objects the spec never named and a signed change must not do that.")
        | [] =>
            let parent := k_references c in
            let fk := String.eqb type "f" in
            {| e_steps :=
                 [make (kind_name i) kRequired false [DropConstraint qualified name]
                    (if fk then "AccessExclusiveLock on " +:+ qualified +:+ " AND on " +:+ parent
                                +:+ ", which this statement never names"
                     else "AccessExclusiveLock on " +:+ qualified)
                    (if fk
                     then "dropping a foreign key; note the second lock -- it is stronger on the parent than ADDING the constraint takes, and " +:+ parent +:+ " may be the busier table"
                     else "dropping a " +:+ constraint_type_text type
                          +:+ " constraint; there is no concurrent variant, so the lock is brief but exclusive")
                    [("constraint", JStr name); ("constraint_type", JStr type)]];
               e_warnings :=
                 (if k_has_index c
                  then ["dropping " +:+ dq +:+ name +:+ dq +:+ " also drops its index " +:+ default "(unnamed)" (k_index c)
                        +:+ ", so every lookup that index served becomes a scan. pg_licht evaluateIndex with hide will say what still plans against it."]
                  else [])
                 ++ (if String.eqb type "n"
                     then [dq +:+ name +:+ dq +:+ " is a NOT NULL constraint: dropping it makes " +:+ qualified +:+ "."
                           +:+ default "that column" (k_column c)
                           +:+ " nullable again, which is a change to what the data may contain and not merely to what is enforced."]
                     else [])
                 ++ (if String.eqb type "p"
                     then [dq +:+ name +:+ dq +:+ " is the PRIMARY KEY of " +:+ qualified
                           +:+ ". Dropping it removes the row identity anything else may rely on, including a backfill's keyset walk."]
                     else []);
               e_conflicts := [] |}
        end
    end.

End Rules.
