(* ===== verification/Indexes.v ===== *)
(** * Indexes: index intents into steps (src/cpp/src/planner.h)

    How an index is written, compared with the ones there and built: plainly,
    concurrently, part by part where a module says so, or on every partition and
    attached. What the modules answer about a table is merged here; the size and
    the waiters decide between a plain and a concurrent build. *)
From S2P Require Import Prelude Json Canonical Spec Quote Plan Planner.

(** ** The definition of an index *)

(** [operator<] on [std::string], the order of a JSON object's members. *)
Definition string_leb (a b : string) : bool :=
  lex_leb (byte_val <$> String.list_ascii_of_string a) (byte_val <$> String.list_ascii_of_string b).

Definition by_key {A} (l : list (string * A)) : list (string * A) :=
  sort_by (fun x y => string_leb x.1 y.1) l.

Record IndexColumn : Type := {
  ic_name : string;
  ic_expression : string;
  ic_opclass : string;
  ic_direction : string;
  ic_nulls : string;
}.

Definition text_at (v : json) (k : string) : string :=
  match value_str v k "" with Ok s => s | Err _ => "" end.

Definition index_columns (body : json) : list IndexColumn :=
  (fun c => match c with
            | JStr s => {| ic_name := s; ic_expression := ""; ic_opclass := ""; ic_direction := ""; ic_nulls := "" |}
            | _ => {| ic_name := text_at c "name"; ic_expression := text_at c "expression";
                      ic_opclass := text_at c "opclass"; ic_direction := text_at c "direction";
                      ic_nulls := text_at c "nulls" |}
            end) <$> elements (at_key body "columns").

Definition index_column_sql (k : IndexColumn) : string :=
  (if String.eqb (ic_expression k) "" then quote_identifier (ic_name k) else "(" +:+ ic_expression k +:+ ")")
  +:+ (if String.eqb (ic_opclass k) "" then "" else " " +:+ quote_identifier (ic_opclass k))
  +:+ (if String.eqb (ic_direction k) "desc" then " DESC" else if String.eqb (ic_direction k) "asc" then " ASC" else "")
  +:+ (if String.eqb (ic_nulls k) "first" then " NULLS FIRST"
       else if String.eqb (ic_nulls k) "last" then " NULLS LAST" else "").

(** [s.substr(s.find(c) + 1)]: all of it when there is no [c]. *)
Definition after_char (c : ascii) (s : string) : string :=
  if has_char c s then String.substring (S (String.length (before_char c s))) (String.length s) s else s.

Definition normalize_reloption (opt : string) : string :=
  let opt := lower_text opt in
  if has_char "=" opt then
    let name := before_char "=" opt +:+ "=" in
    let value := after_char "=" opt in
    if existsb (String.eqb value) ["on"; "yes"; "true"] then name +:+ "true"
    else if existsb (String.eqb value) ["off"; "no"; "false"] then name +:+ "false"
    else opt
  else opt.

Definition members (v : json) : list (string * json) := match v with JObj l => by_key l | _ => [] end.

(** How the rules print what the modules and the JSON library give them. *)
Class Printing : Type := { dump : json -> string }.

Section Indexes.
Context `{Vendors, Printing}.

Definition index_options (body : json) : list string :=
  sort_by string_leb
    ((fun kv => normalize_reloption (kv.1 +:+ "=" +:+ match kv.2 with
                                                     | JStr s => s
                                                     | JBool b => if b then "true" else "false"
                                                     | v => dump v
                                                     end)) <$> members (at_key body "with")).

Definition catalog_index_options (ix : IndexObs) : list string :=
  sort_by string_leb (normalize_reloption <$> default [] (i_options ix)).

Definition index_with_sql (body : json) : string :=
  match members (at_key body "with") with
  | [] => ""
  | w => " WITH (" +:+ join ", "
           ((fun kv => quote_identifier kv.1 +:+ " = " +:+ match kv.2 with
                                                          | JStr s => quote_literal s
                                                          | JBool b => if b then "true" else "false"
                                                          | v => dump v
                                                          end) <$> w) +:+ ")"
  end.

Definition index_order_terms (keys : list IndexColumn) : list string :=
  (fun k => let desc := String.eqb (ic_direction k) "desc" in
            let nulls := if String.eqb (ic_nulls k) "" then (if desc then "first" else "last") else ic_nulls k in
            (if desc then "desc" else "asc") +:+ " nulls " +:+ nulls) <$> keys.

Definition is_desc (term : string) : bool := String.prefix "desc" term.

Definition is_full_reverse (have want : list string) : bool :=
  Nat.eqb (length have) (length want) && negb (Nat.eqb (length have) 0)
  && forallb (fun hw => negb (Bool.eqb (is_desc hw.1) (is_desc hw.2))) (combine have want).

(** [include_sql] and [using_tail]: everything after the relation. *)
Definition index_tail_with (with_sql : string) (i : Intent) : string :=
  let where_ := bstr i "where" "" in
  " USING " +:+ bstr i "method" "btree" +:+ " ("
  +:+ join ", " (index_column_sql <$> index_columns (body i)) +:+ ")"
  +:+ match bstrs i "include" with [] => "" | cs => " INCLUDE (" +:+ join ", " (quote_identifier <$> cs) +:+ ")" end
  +:+ with_sql +:+ (if String.eqb where_ "" then "" else " WHERE " +:+ where_).

Definition index_tail (i : Intent) : string := index_tail_with (index_with_sql (body i)) i.

(** ** Predicates compared as text: [normalize] of [plan_create_index] *)
Fixpoint skip_while (f : ascii -> bool) (l : list ascii) : list ascii :=
  match l with c :: l' => if f c then skip_while f l' else l | [] => [] end.

(** What is left after a cast's type name: an (n) or [] goes with it. *)
Definition after_cast (l : list ascii) : list ascii :=
  match skip_while (fun c => is_alnum c || Ascii.eqb c "_" || Ascii.eqb c ".") l with
  | "("%char :: l' => drop 1 (skip_while (fun c => negb (Ascii.eqb c ")")) l')
  | "["%char :: "]"%char :: l' => l'
  | l' => l'
  end.

Definition squote : ascii := "'".

(** The loop over the characters; [acc] is [norm] reversed. Every turn takes a
    character off, so the length is fuel enough. *)
Fixpoint normalize_loop (fuel : nat) (in_string : bool) (acc l : list ascii) : list ascii :=
  match fuel with
  | O => acc
  | S fuel =>
      match l with
      | [] => acc
      | c :: l' =>
          if Ascii.eqb c squote then normalize_loop fuel (negb in_string) (c :: acc) l'
          else if in_string then normalize_loop fuel in_string (c :: acc) l'
          else if Ascii.eqb c ":" && match l' with d :: _ => Ascii.eqb d ":" | [] => false end
          then normalize_loop fuel in_string acc (after_cast (drop 1 l'))
          else if Ascii.eqb c " " || Ascii.eqb c (byte_of 10) || Ascii.eqb c (byte_of 9)
          then normalize_loop fuel in_string
                 (match acc with [] => acc | d :: _ => if Ascii.eqb d " " then acc else " "%char :: acc end) l'
          else normalize_loop fuel in_string (to_lower c :: acc) l'
      end
  end.

Definition trim (l : list ascii) : list ascii :=
  let spaces := skip_while (Ascii.eqb " ") in rev (spaces (rev (spaces l))).

(** Whether the first parenthesis is closed by the last character only. *)
Fixpoint wraps (depth : Z) (l : list ascii) : bool :=
  match l with
  | [] => true
  | c :: l' =>
      let depth := if Ascii.eqb c "(" then depth + 1 else if Ascii.eqb c ")" then depth - 1 else depth in
      if (depth =? 0) && match l' with [] => false | _ => true end then false else wraps depth l'
  end.

Fixpoint strip_parens (fuel : nat) (l : list ascii) : list ascii :=
  match fuel with
  | O => l
  | S fuel =>
      match l, last l with
      | "("%char :: _ :: _, Some ")"%char =>
          if wraps 0 l then strip_parens fuel (trim (removelast (tail l))) else l
      | _, _ => l
      end
  end.

Definition normalize_list (l : list ascii) : list ascii :=
  let norm := trim (rev (normalize_loop (length l) false [] l)) in
  strip_parens (length norm) norm.

Definition normalize (p : string) : string :=
  String.string_of_list_ascii (normalize_list (String.list_ascii_of_string p)).

(** ** What the modules say of an index: [index_traits] *)
Definition no_traits : IndexTraits :=
  {| it_parts := []; it_concurrent := true; it_per_part_option := ""; it_per_part_unique := false;
     it_size_bytes := -1; it_rows := -1; it_scope := ""; it_memory_wanted := 0; it_memory_per_row := 0;
     it_memory_by := "" |}.

Record Merging : Type := {
  mg_traits : IndexTraits;
  mg_first : string;
  mg_first_build : string;
  mg_not_concurrent : string;
  mg_per_row_by : string;
}.

Definition first_text (a b : string) : string := if String.eqb a "" then b else a.

Definition gives_build (t : IndexTraits) : bool :=
  (0 <=? it_size_bytes t) || match it_parts t with [] => false | _ => true end
  || negb (String.eqb (it_per_part_option t) "").

Definition merge_answer (m : Merging) (nt : string * IndexTraits) : Merging :=
  let '(name, t) := nt in
  let d := mg_traits m in
  let no_option := String.eqb (it_per_part_option d) "" in
  {| mg_traits :=
       {| it_parts := match it_parts d with [] => it_parts t | ps => ps end;
          it_concurrent := it_concurrent d && it_concurrent t;
          it_per_part_option := if no_option then it_per_part_option t else it_per_part_option d;
          it_per_part_unique := if no_option && negb (String.eqb (it_per_part_option t) "")
                                then it_per_part_unique t else it_per_part_unique d;
          it_size_bytes := Z.max (it_size_bytes d) (it_size_bytes t);
          it_rows := Z.max (it_rows d) (it_rows t);
          it_scope := first_text (it_scope d) (it_scope t);
          it_memory_wanted := Z.max (it_memory_wanted d) (it_memory_wanted t);
          it_memory_per_row := Z.max (it_memory_per_row d) (it_memory_per_row t);
          it_memory_by := if it_memory_wanted d <? it_memory_wanted t then name else it_memory_by d |};
     mg_first := first_text (mg_first m) name;
     mg_first_build := if gives_build t then first_text (mg_first_build m) name else mg_first_build m;
     mg_not_concurrent := if it_concurrent t then mg_not_concurrent m else first_text (mg_not_concurrent m) name;
     mg_per_row_by := if it_memory_per_row d <? it_memory_per_row t then name else mg_per_row_by m |}.

Definition merge_start : Merging :=
  {| mg_traits := no_traits; mg_first := ""; mg_first_build := ""; mg_not_concurrent := ""; mg_per_row_by := "" |}.

(** The merged answer with the module that decided the build; [None] is
    [answered == false]. *)
Definition merge_traits (answers : list (string * IndexTraits)) : option (string * IndexTraits) :=
  match answers with
  | [] => None
  | _ =>
      let m := foldl merge_answer merge_start answers in
      let d := mg_traits m in
      let by_row := it_rows d * it_memory_per_row d in
      let raised := (0 <? it_memory_per_row d) && (0 <? it_rows d) && (it_memory_wanted d <? by_row) in
      Some (first_text (mg_not_concurrent m) (first_text (mg_first_build m) (mg_first m)),
            {| it_parts := it_parts d; it_concurrent := it_concurrent d;
               it_per_part_option := it_per_part_option d; it_per_part_unique := it_per_part_unique d;
               it_size_bytes := it_size_bytes d; it_rows := it_rows d; it_scope := it_scope d;
               it_memory_wanted := if raised then by_row else it_memory_wanted d;
               it_memory_per_row := it_memory_per_row d;
               it_memory_by := if raised then mg_per_row_by m else it_memory_by d |})
  end.

Definition index_traits (o : Observations) (qualified : string) (i : Intent) : option (string * IndexTraits) :=
  merge_traits (index_answers o qualified i).

(** ** Building on each part *)
Definition dot : ascii := ".".

Definition index_part_name (part : IndexPart) (name : string) : string :=
  let child := after_char dot (part_relation part) +:+ "_" +:+ name in
  if Nat.ltb 63 (String.length child) then "" else child.

(** The parts that lack a valid index of the name; [None] is -1: a name does not fit. *)
Definition index_parts_missing (parts : list IndexPart) (name : string) : option nat :=
  if existsb (fun p => String.eqb (index_part_name p name) "") parts then None
  else Some (length (List.filter (fun p => negb (default false (part_indexes p !! index_part_name p name))) parts)).

Definition comment_on_index (i : Intent) : Stmt :=
  CommentOnIndex (in_schema i) (bstr i "name" "") (bstr i "comment" "").

Definition part_failure_text : string :=
  "a failed CREATE INDEX CONCURRENTLY leaves an INVALID index on this part; the next step reads indisvalid, and a re-plan drops it and builds this part again, leaving the parts already done alone".

(** The build of one part, unless its index is there and valid. *)
Definition part_build (i : Intent) (tail : string) (total : nat) (pos : nat) (part : IndexPart) : list Step :=
  let child := index_part_name part (bstr i "name" "") in
  let schema := before_char dot (part_relation part) in
  let build (recovering : bool) :=
    make (kind_name i) kForbidden true
      ((if recovering then [DropIndex true schema child] else [])
       ++ [CreateIndex false true false child (part_relation part) tail])
      ("ShareUpdateExclusiveLock on " +:+ part_relation part +:+ " -- blocks neither reads nor writes")
      ("part " +:+ to_string (Z.of_nat pos) +:+ " of " +:+ to_string (Z.of_nat total)
       +:+ ": built concurrently on the part itself, so a write that touches every part is not held behind it")
      ((if recovering then [("recovering_invalid_index", JBool true)] else [])
       ++ [("partition", JStr (part_relation part)); ("index", JStr child); ("schema", JStr schema);
           ("must_verify_valid", JBool true); ("failure_mode", JStr part_failure_text)]) in
  match part_indexes part !! child with
  | Some true => []
  | Some false => [build true]
  | None => [build false]
  end.

(** [plan_index_by_parts]. *)
Definition plan_index_by_parts (i : Intent) (tr : IndexTraits) (by_ tail : string) (parent_exists : bool) : Emitted :=
  let qualified := in_qualified i in
  let name := bstr i "name" "" in
  let scope := if String.eqb (it_scope tr) "" then qualified else it_scope tr in
  let size := if 0 <=? it_size_bytes tr then "size " +:+ human_bytes (it_size_bytes tr) +:+ ", and " else "" in
  let parent :=
    weaker_lock_first [qualified]
      (make (kind_name i) kRequired true
         [CreateIndex false false true name qualified tail; comment_on_index i]
         ("ShareLock on " +:+ scope +:+ ", briefly: a catalog change, no part is read")
         (size +:+ by_ +:+ " says a concurrent build is not possible on " +:+ qualified
          +:+ " itself but is on each of its parts -> the index is created on the parent ONLY, which reads nothing, and each part is then built concurrently. A part created from here on gets its index by itself")
         ([("index", JStr name); ("schema", JStr (in_schema i)); ("index_build_by", JStr by_)]
          ++ (if 0 <=? it_rows tr then [("rows", JInt (it_rows tr))] else []))) in
  let total := length (it_parts tr) in
  let builds := concat (imap (fun k p => part_build i tail total (S k) p) (it_parts tr)) in
  if parent_exists && match builds with [] => true | _ => false end then
    satisfied i "index already present, and valid on every part"
  else
    {| e_steps := (if parent_exists then [] else [parent]) ++ builds;
       e_warnings :=
         [dq +:+ name +:+ dq +:+ " on " +:+ qualified +:+ " is built part by part: "
          +:+ to_string (Z.of_nat (length builds)) +:+ " of " +:+ to_string (Z.of_nat total)
          +:+ " part(s) concurrently, each in a step of its own with its own validity check"
          +:+ (if parent_exists then ", continuing an earlier attempt" else "") +:+ ". " +:+ by_
          +:+ " counts an index of the same definition on a part as the parent index's -- that is what was measured, not something its documentation promises -- so the last step of each part is the proof that it is there and valid. If the job stops partway the index exists on some parts only; applying the specification again builds the rest."];
       e_conflicts := [] |}.

(** ** Partitioned tables *)

(** The pieces between commas. *)
Fixpoint split_commas (cur : list ascii) (l : list ascii) : list (list ascii) :=
  match l with
  | [] => [rev cur]
  | c :: l' => if Ascii.eqb c "," then rev cur :: split_commas [] l' else split_commas (c :: cur) l'
  end.

Definition take_until (c : ascii) (l : list ascii) : list ascii :=
  String.list_ascii_of_string (before_char c (String.string_of_list_ascii l)).

(** One part of the key: the column without an operator class or a collation. *)
Definition key_column (part : list ascii) : option string :=
  match skip_while (Ascii.eqb " ") part with
  | [] => None
  | c :: l =>
      if Ascii.eqb c dquote
      then if existsb (Ascii.eqb dquote) l then Some (String.string_of_list_ascii (take_until dquote l)) else None
      else Some (String.string_of_list_ascii (take_until " " (c :: l)))
  end.

(** [partition_key_columns]: what is between the first parenthesis and the last. *)
Definition partition_key_columns (partkeydef : string) : list string :=
  let l := String.list_ascii_of_string partkeydef in
  if existsb (Ascii.eqb "(") l && existsb (Ascii.eqb ")") l then
    let inner_on := drop 1 (skip_while (fun c => negb (Ascii.eqb c "(")) l) in
    if existsb (Ascii.eqb ")") inner_on then
      let inner := rev (drop 1 (skip_while (fun c => negb (Ascii.eqb c ")")) (rev inner_on))) in
      if existsb (Ascii.eqb "(") inner then []
      else default [] (mapM key_column (split_commas [] inner))
    else []
  else [].

Definition partition_index_name (part name : string) : string := after_char dot part +:+ "_" +:+ name.

(** The concurrent build on one partition. *)
Definition partition_build (i : Intent) (tail : string) (total pos : nat) (part : string) : Step :=
  let child := partition_index_name part (bstr i "name" "") in
  make (kind_name i) kForbidden true
    [CreateIndex (bbool i "unique" false) true false child part tail]
    ("ShareUpdateExclusiveLock on " +:+ part)
    ("partition " +:+ to_string (Z.of_nat pos) +:+ " of " +:+ to_string (Z.of_nat total)
     +:+ ": CREATE INDEX CONCURRENTLY is refused on the parent, so each partition is built separately and concurrently")
    [("partition", JStr part); ("index", JStr child); ("schema", JStr (in_schema i))].

Definition attach_step (i : Intent) (total pos : nat) (child : string) : Step :=
  make (kind_name i) kOptional false [AttachIndex (in_schema i) (bstr i "name" "") child]
    "AccessExclusiveLock on the partition's index and ShareUpdateExclusiveLock on the parent index, briefly"
    ("attach " +:+ to_string (Z.of_nat pos) +:+ " of " +:+ to_string (Z.of_nat total)
     +:+ "; the parent index becomes valid only when the last one lands") [].

Definition verify_step (schema index why : string) : Step :=
  make "verify_index_valid" kOptional false [] "none (catalog read)" why
    [("schema", JStr schema); ("index", JStr index)].

(** The first partition whose index name would not fit, with the ones before it. *)
Fixpoint name_too_long (name : string) (before parts : list string) : option (list string * string) :=
  match parts with
  | [] => None
  | p :: parts' =>
      if Nat.ltb 63 (String.length (partition_index_name p name)) then Some (before, p)
      else name_too_long name (before ++ [p]) parts'
  end.

Definition refused (i : Intent) (why : string) : Step := with_action kConflict why (new_step (kind_name i)).

Definition conflict (ss : list Step) (i : Intent) (why text : string) : Emitted :=
  {| e_steps := ss ++ [refused i why]; e_warnings := []; e_conflicts := [text] |}.

(** What a unique index on a partitioned table lacks: [Some None] is a key that is
    an expression, [Some (Some c)] a partition column it does not contain. *)
Definition lacks_partition_column (columns key : list string) : option (option string) :=
  match key with
  | [] => Some None
  | _ => match List.find (fun k => negb (existsb (String.eqb k) columns)) key with
         | Some k => if String.eqb k "" then None else Some (Some k)
         | None => None
         end
  end.

(** [plan_partitioned_index]; the step that carries a refusal comes last. *)
Definition plan_partitioned_index (i : Intent) (t : TableObs) : Emitted :=
  let qualified := in_qualified i in
  let name := bstr i "name" "" in
  let unique := bbool i "unique" false in
  let columns := ic_name <$> index_columns (body i) in
  let tail := index_tail i in
  let parts := t_partitions t in
  let total := length parts in
  let builds ps := imap (fun k p => partition_build i tail total (S k) p) ps in
  let recipe :=
    match pt_relation <$> List.find pt_partitioned (t_partition_parts t) with
    | Some part =>
        conflict [] i (part +:+ " is itself partitioned")
          (dq +:+ name +:+ dq +:+ " on " +:+ qualified +:+ ": its partition " +:+ part
           +:+ " is itself partitioned, so no index can be built on it concurrently. Create the index on " +:+ part
           +:+ " first, in an intent of its own, is not enough -- this recipe builds and attaches an index of its own name on each partition -- so build this one by hand, as PostgreSQL's documentation of partitioned tables describes.")
    | None =>
        match name_too_long name [] parts with
        | Some (before, part) =>
            conflict (builds before) i "a per-partition index name would exceed 63 bytes"
              ("the per-partition index for " +:+ part +:+ " would be named " +:+ dq +:+ partition_index_name part name
               +:+ dq +:+ ", which PostgreSQL would truncate at 63 bytes -- and a truncated name is not deterministic, so two runs could disagree about whether the index exists. Use a shorter index name.")
        | None =>
            emit (builds parts
                  ++ [make (kind_name i) kOptional true
                        [CreateIndex unique false true name qualified tail; comment_on_index i]
                        ("ShareLock on " +:+ qualified +:+ ", which holds no data itself")
                        "ON ONLY means the parent index is a catalog entry with no data, so this scans nothing. It stays INVALID until every partition is attached"
                        [("index", JStr name); ("schema", JStr (in_schema i))]]
                  ++ imap (fun k p => attach_step i total (S k) (partition_index_name p name)) parts
                  ++ [verify_step (in_schema i) name
                        "a partitioned index that is missing even one attachment exists, is INVALID, and is never used -- and nothing else would say so"])
        end
    end in
  match parts with
  | [] =>
      conflict [] i (qualified +:+ " is partitioned but has no partitions")
        (qualified +:+ " is a partitioned table with no partitions. Create the index once there is something to build it on, or attach a partition first.")
  | _ =>
      match (if unique then lacks_partition_column columns (partition_key_columns (t_partition_key t)) else None) with
      | Some None =>
          conflict [] i ("the partition key of " +:+ qualified +:+ " is an expression")
            (dq +:+ name +:+ dq +:+ " is UNIQUE on " +:+ qualified +:+ ", partitioned by " +:+ t_partition_key t
             +:+ ". PostgreSQL allows no unique index on a table whose partition key includes an expression.")
      | Some (Some missing) =>
          conflict [] i ("the key does not contain the partition column " +:+ missing)
            (dq +:+ name +:+ dq +:+ " is UNIQUE on " +:+ qualified +:+ ", partitioned by " +:+ t_partition_key t
             +:+ ", and its columns (" +:+ join ", " columns +:+ ") do not contain " +:+ missing
             +:+ ". PostgreSQL: " +:+ dq +:+ "unique constraint on partitioned table must include all partitioning columns"
             +:+ dq +:+ ". Add " +:+ missing +:+ " to the index.")
      | None => recipe
      end
  end.

(** ** An index that is already there *)

(** What comparing with one existing index says: warnings and go on, or the step
    the rule ends with. *)
Inductive Compared : Type :=
  | GoOn (warnings : list string)
  | EndWith (step : Step) (conflicts : list string).

Fixpoint is_prefix (a b : list string) : bool :=
  match a, b with
  | [], _ => true
  | x :: a', y :: b' => String.eqb x y && is_prefix a' b'
  | _, [] => false
  end.

Definition quoted (s : string) : string := dq +:+ s +:+ dq.
Definition none_if_empty (s : string) : string := if String.eqb s "" then "none" else s.

(** An existing index of the same shape: refused, adopted or renamed. *)
Definition equivalent_index (i : Intent) (key : string) (ex : IndexObs) : Compared :=
  let qualified := in_qualified i in
  let name := bstr i "name" "" in
  let policy := bstr i "on_equivalent_index" "rename" in
  if i_constraint_backed ex then
    EndWith (refused i ("an equivalent index already exists as " +:+ key +:+ ", and it backs a constraint"))
      [quoted name +:+ " duplicates " +:+ quoted key +:+ " on " +:+ qualified
       +:+ ", which backs a constraint. Renaming it would rename the constraint as well, which is a larger change than adopting an index name, so pg_laswell will not do it implicitly. Drop this intent: the constraint's index already serves these lookups."]
  else if String.eqb policy "refuse" then
    EndWith (refused i ("an index identical to this one already exists as " +:+ key))
      [quoted name +:+ " would duplicate the existing index " +:+ quoted key +:+ " on " +:+ qualified
       +:+ ": same method, same columns (" +:+ join ", " (ic_name <$> index_columns (body i))
       +:+ "), same predicate. A redundant index costs write time on every INSERT, UPDATE and DELETE for as long as it exists."]
  else if String.eqb policy "adopt" then
    EndWith (set_detail "adopted" (JStr key)
               (with_action kSatisfied ("an equivalent index already exists as " +:+ key +:+ "; adopted where it is, nothing renamed")
                  (new_step (kind_name i)))) []
  else
    EndWith (make (kind_name i) kOptional false [RenameIndex (in_schema i) key name; comment_on_index i]
               "ShareUpdateExclusiveLock on the index; the table is not locked at all"
               ("an equivalent index already exists as " +:+ quoted key
                +:+ " (same method, columns and predicate); renaming it to the declared name rather than building a second one")
               [("renamed_from", JStr key);
                ("risk", JStr ("the old name may be referenced outside the database -- a monitoring dashboard, a planner hint, a deployment script. pg_laswell cannot see those. Set on_equivalent_index to "
                               +:+ quoted "adopt" +:+ " to leave the name alone."))]) [].

(** The existing index's key and the payload after it. *)
Definition key_of (ex : IndexObs) : list string * list string :=
  let n := default (length (i_columns ex)) (i_key_column_count ex) in
  if Nat.ltb n (length (i_columns ex)) then (take n (i_columns ex), drop n (i_columns ex)) else (i_columns ex, []).

Definition list_eqb (a b : list string) : bool := bool_decide (a = b).

(** One turn of the loop over the table's indexes. *)
Definition compare_existing (i : Intent) (key : string) (ex : IndexObs) : Compared :=
  let qualified := in_qualified i in
  let name := bstr i "name" "" in
  let where_ := bstr i "where" "" in
  let keys := index_columns (body i) in
  let columns := ic_name <$> keys in
  if String.eqb key name || negb (i_is_valid ex) || i_has_expressions ex
     || existsb (fun k => negb (String.eqb (ic_expression k) "")) keys
     || negb (String.eqb (i_method ex) (bstr i "method" "btree"))
  then GoOn []
  else
    let '(ex_cols, ex_include) := key_of ex in
    let want_order := index_order_terms keys in
    let ex_pred := normalize (i_predicate ex) in
    let want_pred := normalize where_ in
    let comparable := Nat.eqb (length (i_column_order ex)) (length ex_cols)
                      && Nat.eqb (length (i_column_opclasses ex)) (length ex_cols) in
    let alike := comparable && list_eqb ex_cols columns && list_eqb ex_include (bstrs i "include")
                 && list_eqb (i_column_opclasses ex) (ic_opclass <$> keys)
                 && Bool.eqb (i_is_unique ex) (bbool i "unique" false) in
    let same_order := comparable && list_eqb (i_column_order ex) want_order in
    let same_pred := String.eqb ex_pred want_pred in
    let same_options := list_eqb (catalog_index_options ex) (index_options (body i)) in
    if alike && negb same_order && same_pred && is_full_reverse (i_column_order ex) want_order then
      GoOn [quoted name +:+ " is the exact reverse of the existing index " +:+ quoted key +:+ " on " +:+ qualified
            +:+ ". A btree scans backwards at the same cost, so that index already serves this ordering; build this one only if something depends on the physical order rather than the sort it can produce."]
    else if alike && same_order && negb same_options && same_pred then
      GoOn [quoted name +:+ " has the same columns, method and predicate as the existing index " +:+ quoted key
            +:+ " on " +:+ qualified +:+ ", but different storage parameters (["
            +:+ join ", " (catalog_index_options ex) +:+ "] there, [" +:+ join ", " (index_options (body i))
            +:+ "] here), so it is built as a second index. Drop the other one afterwards if this replaces it."]
    else if alike && same_order && same_options then
      if same_pred then equivalent_index i key ex
      else if negb (String.eqb ex_pred "") && negb (String.eqb want_pred "") then
        GoOn [quoted name +:+ " has the same columns and method as the existing index " +:+ quoted key +:+ " on "
              +:+ qualified +:+ ", but their predicates differ as written: this spec has [" +:+ none_if_empty where_
              +:+ "] and the existing index has [" +:+ none_if_empty (i_predicate ex)
              +:+ "]. If those are equivalent, this would be a duplicate. pg_licht duplicateIndexes compares them properly."]
      else GoOn []
    else if Nat.ltb (length columns) (length ex_cols) && is_prefix columns ex_cols then
      GoOn [quoted name +:+ " on (" +:+ join ", " columns +:+ ") is a prefix of the existing index " +:+ quoted key
            +:+ " on (" +:+ join ", " ex_cols
            +:+ "), which already serves those lookups. Build it only if the narrower index is wanted for its size. pg_licht evaluateIndex will say whether the planner would actually use it."]
    else if Nat.ltb (length ex_cols) (length columns) && is_prefix ex_cols columns then
      GoOn [quoted name +:+ " on (" +:+ join ", " columns +:+ ") makes the existing index " +:+ quoted key
            +:+ " on (" +:+ join ", " ex_cols
            +:+ ") redundant. Dropping it afterwards is a separate migration; pg_licht duplicateIndexes confirms the redundancy and evaluateIndex hide will say whether anything still needs it."]
    else GoOn [].

Fixpoint compare_all (i : Intent) (l : list (string * IndexObs)) : list string * option (Step * list string) :=
  match l with
  | [] => ([], None)
  | (key, ex) :: l' =>
      match compare_existing i key ex with
      | EndWith s cs => ([], Some (s, cs))
      | GoOn ws => let '(ws', r) := compare_all i l' in (ws ++ ws', r)
      end
  end.

(** ** Memory for a build *)

(** What the rules read of [ExecutorConfig]. *)
Record PlannerConfig : Type := {
  pc_maintenance_work_mem_mb : Z;
  pc_max_concurrent_jobs : Z;
  pc_batch_rows : Z;
  pc_commit_interval_ms : Z;
  pc_batch_cap_rows : Z;
  pc_dml_single_txn_rows : Z;
  pc_max_waiter_wait_ms : Z;
}.

Definition planning_jobs (cfg : PlannerConfig) : Z := Z.max 1 (pc_max_concurrent_jobs cfg).

Definition work_mem (o : Observations) (cfg : PlannerConfig) : WorkMem :=
  maintenance_work_mem (pc_maintenance_work_mem_mb cfg) (planning_jobs cfg)
    (o_shared_buffers_bytes o) (o_maintenance_work_mem_kb o).

(** [derivedFrom]. *)
Definition derived_from (o : Observations) (cfg : PlannerConfig) : string :=
  "shared_buffers " +:+ to_string (o_shared_buffers_bytes o `quot` (1024 * 1024))
  +:+ "MB divided by max_concurrent_jobs (" +:+ to_string (planning_jobs cfg) +:+ ")".

Definition raise_build_memory (tr : option (string * IndexTraits)) (o : Observations) (cfg : PlannerConfig) (s : Step) : Step :=
  match tr with
  | None => s
  | Some (_, t) =>
      if (it_memory_wanted t <=? 0) || negb (pc_maintenance_work_mem_mb cfg =? 0) then s
      else
        let m := work_mem o cfg in
        let eff := index_build_mwm_bytes m (it_memory_wanted t) in
        if eff <=? server_default_kb m * 1024 then s
        else
          let mb := Z.shiftr (eff + Z.shiftl 1 20 - 1) 20 in
          let s := set_detail "memory_wanted_by" (JStr (it_memory_by t))
                     (set_detail "maintenance_work_mem_mb" (JInt mb) s) in
          with_why (st_why s +:+ "; maintenance_work_mem raised to " +:+ to_string mb +:+ "MB for this build: "
                    +:+ it_memory_by t +:+ " says it needs about " +:+ human_bytes (it_memory_wanted t)
                    +:+ (if eff <? it_memory_wanted t then ", limited to " +:+ derived_from o cfg else "")
                    +:+ " (no maintenance_work_mem_mb configured)") s
  end.

(** ** [plan_create_index] *)

(** [per_part_option_sql]: one or two labels; anything else throws. *)
Definition option_label (l : string) : bool :=
  match String.list_ascii_of_string l with
  | [] => false
  | c :: cs => (lower c || underscore c)
               && forallb (fun d => lower d || digit d || underscore d) (c :: cs)
  end.

Definition per_part_option_sql (o : string) : option string :=
  let fits := if has_char dot o then option_label (before_char dot o) && option_label (after_char dot o)
              else option_label o in
  if fits then Some o else None.

Definition kPlainCeilingBytes : Z := 64 * 1024 * 1024.

Definition cic_failure_text : string :=
  "a failed CREATE INDEX CONCURRENTLY leaves an INVALID index that still appears in pg_indexes; the next step reads indisvalid, and a re-plan will DROP INDEX CONCURRENTLY before rebuilding".
Definition part_option_failure_text : string :=
  "a build that fails partway leaves the index INVALID with some parts built; the next step reads indisvalid, and a re-plan drops it with a plain DROP INDEX before rebuilding".

(** The size an index build reads, and where it comes from. *)
Definition build_size (t : TableObs) (tr : option (string * IndexTraits)) : Z :=
  match tr with
  | Some (_, x) => if 0 <=? it_size_bytes x then it_size_bytes x else default (t_size_estimate t) (t_size_measured t)
  | None => default (t_size_estimate t) (t_size_measured t)
  end.

Definition size_source (t : TableObs) (tr : option (string * IndexTraits)) : string :=
  let own := match t_size_measured t with Some _ => "measured" | None => "estimate" end in
  match tr with Some (by_, x) => if 0 <=? it_size_bytes x then by_ else own | None => own end.

Definition small_enough (t : TableObs) (tr : option (string * IndexTraits)) : bool := build_size t tr <? kPlainCeilingBytes.
Definition quiet (t : TableObs) : bool := t_lock_waiters t =? 0.

(** [plain]: the build holds its lock for moments. *)
Definition builds_plainly (i : Intent) (t : TableObs) (tr : option (string * IndexTraits)) : bool :=
  small_enough t tr && quiet t && negb (bbool i "unique" false).

(** [traits.answered && !traits.concurrent]. *)
Definition no_concurrent (tr : option (string * IndexTraits)) : bool :=
  match tr with Some (_, x) => negb (it_concurrent x) | None => false end.

(** The step of a build on the table itself, before what every build adds; [None]
    is the exception of [per_part_option_sql]. *)
Definition table_build (i : Intent) (t : TableObs) (tr : option (string * IndexTraits)) (dropping : list Stmt)
    (detail : list (string * json)) : option (Step * list string) :=
  let qualified := in_qualified i in
  let name := bstr i "name" "" in
  let unique := bbool i "unique" false in
  let size := build_size t tr in
  let waiters := t_lock_waiters t in
  let plain := builds_plainly i t tr in
  let build concurrently tail := dropping ++ [CreateIndex unique concurrently false name qualified tail] in
  let '(by_, x) := default ("", no_traits) tr in
  let scope := if String.eqb (it_scope x) "" then qualified else it_scope x in
  if no_concurrent tr && negb plain then
    let heavy s := if small_enough t tr && quiet t then s else do_not_rehearse heavy_not_rehearsed_text true s in
    if negb (String.eqb (it_per_part_option x) "") && (negb unique || it_per_part_unique x) then
      opt ← per_part_option_sql (it_per_part_option x);
      let with_sql := index_with_sql (body i) in
      let with_opt := if String.eqb with_sql "" then " WITH (" +:+ opt +:+ ")"
                      else String.substring 0 (String.length with_sql - 1) with_sql +:+ ", " +:+ opt +:+ ")" in
      let s := make (kind_name i) kForbidden false (build false (index_tail_with with_opt i))
                 ("ShareLock on one part at a time, each in its own transaction (" +:+ scope +:+ ")")
                 ("size " +:+ human_bytes size +:+ (if 0 <? waiters then ", " +:+ to_string waiters +:+ " lock waiters" else "")
                  +:+ ", and " +:+ by_ +:+ " says a concurrent build is not possible here -> built one part at a time ("
                  +:+ opt +:+ ")") detail in
      let s := check_on_empty_copy (quote_qualified qualified)
                 ("CREATE " +:+ (if unique then "UNIQUE " else "") +:+ "INDEX " +:+ quote_identifier name +:+ " ON "
                  +:+ kEmptyCopy +:+ index_tail i +:+ ";") s in
      Some (heavy (set_detail "failure_mode" (JStr part_option_failure_text)
                     (set_detail "must_verify_valid" (JBool true) s)), [])
    else
      Some (heavy (make (kind_name i) kOptional false (build false (index_tail i))
                     ("ShareLock on " +:+ scope +:+ " (blocks writes for the whole build)")
                     ("size " +:+ human_bytes size +:+ ", and " +:+ by_
                      +:+ " says neither a concurrent build nor a per-part one can build this index here -> plain build") detail),
            [quoted name +:+ " on " +:+ qualified +:+ " can only be built plainly: " +:+ by_
             +:+ " allows no concurrent build here"
             +:+ (if unique && negb (String.eqb (it_per_part_option x) "")
                  then ", and its per-part build refuses a UNIQUE index" else "")
             +:+ ". Writes to " +:+ scope +:+ " block for the whole build, over " +:+ human_bytes size
             +:+ ". Schedule it for a quiet window."])
  else if plain then
    Some (make (kind_name i) kOptional false (build false (index_tail i)) "ShareLock (blocks writes for the whole build)"
            ("size " +:+ human_bytes size +:+ " < 64 MiB ceiling, " +:+ to_string waiters
             +:+ " lock waiters -> plain build (transactional, cannot leave an invalid index)") detail, [])
  else
    Some (make (kind_name i) kForbidden false (build true (index_tail i)) "ShareUpdateExclusiveLock (two table scans)"
            ((if negb (small_enough t tr) then "size " +:+ human_bytes size +:+ " >= 64 MiB ceiling"
              else if negb (quiet t) then to_string waiters +:+ " lock waiters already on the table"
              else "unique index; a failed plain build would hold ShareLock for the whole scan")
             +:+ " -> concurrent build")
            (detail ++ [("must_verify_valid", JBool true); ("failure_mode", JStr cic_failure_text)]), []).

(** What every build on the table itself adds. *)
Definition finish_build (i : Intent) (t : TableObs) (tr : option (string * IndexTraits)) (o : Observations)
    (cfg : PlannerConfig) (s : Step) : Step :=
  let s := raise_build_memory tr o cfg s in
  let s := with_sql (st_sql s ++ [comment_on_index i]) s in
  let s := set_detail "schema" (JStr (in_schema i)) s in
  let s := set_detail "index" (JStr (bstr i "name" "")) s in
  let s := set_detail "qualified" (JStr (in_qualified i)) s in
  let s := set_detail "size_bytes" (JInt (build_size t tr)) s in
  let s := set_detail "size_source" (JStr (size_source t tr)) s in
  set_detail "lock_waiters" (JInt (t_lock_waiters t)) (set_detail "estimated_from" (t_estimated_from t) s).

(** The rule after the comparison with the indexes there. *)
Definition build_index (i : Intent) (t : TableObs) (o : Observations) (cfg : PlannerConfig) (rebuild : bool) : option Emitted :=
  let qualified := in_qualified i in
  let name := bstr i "name" "" in
  let tr := index_traits o qualified i in
  if String.eqb (t_kind t) "partitioned_table" then Some (plan_partitioned_index i t)
  else
    let plain := builds_plainly i t tr in
    let dropping := if rebuild then [DropIndex (negb (no_concurrent tr || plain)) (in_schema i) name] else [] in
    let '(by_, x) := default ("", no_traits) tr in
    if no_concurrent tr && negb plain && negb (bbool i "unique" false) && negb rebuild
       && match it_parts x with [] => false | _ => true end
       && match index_parts_missing (it_parts x) name with Some _ => true | None => false end
    then
      let e := plan_index_by_parts i x by_ (index_tail i) false in
      Some {| e_steps := (fun s => if bool_decide (st_class s = kForbidden) && String.eqb (st_kind s) (kind_name i)
                                   then raise_build_memory tr o cfg s else s) <$> e_steps e;
              e_warnings := e_warnings e; e_conflicts := e_conflicts e |}
    else
      let detail :=
        (if rebuild then [("recovering_invalid_index", JBool true)] else [])
        ++ (if no_concurrent tr || match tr with Some (_, x) => 0 <=? it_size_bytes x | None => false end
            then ("index_build_by", JStr by_) :: (if 0 <=? it_rows x then [("rows", JInt (it_rows x))] else [])
            else []) in
      '(s, ws) ← table_build i t tr dropping detail;
      Some {| e_steps := [finish_build i t tr o cfg s]; e_warnings := ws; e_conflicts := [] |}.

(** [plan_create_index]. *)
Definition plan_create_index (i : Intent) (o : Observations) (cfg : PlannerConfig) : option Emitted :=
  let qualified := in_qualified i in
  let t := table_obs o qualified in
  let name := bstr i "name" "" in
  let build rebuild :=
    let '(ws, ended) := compare_all i (by_key (map_to_list (t_indexes t))) in
    match ended with
    | Some (s, cs) => Some {| e_steps := [s]; e_warnings := ws; e_conflicts := cs |}
    | None =>
        e ← build_index i t o cfg rebuild;
        Some {| e_steps := e_steps e; e_warnings := ws ++ e_warnings e; e_conflicts := e_conflicts e |}
    end in
  if negb (t_exists t) then Some (refuse i (qualified +:+ " does not exist") (qualified +:+ " does not exist"))
  else
    match t_indexes t !! name with
    | None => build false
    | Some ex =>
        if negb (i_is_valid ex) then build true
        else
          let '(by_, x) := default ("", no_traits) (index_traits o qualified i) in
          if match it_parts x with [] => false | _ => true end && negb (bbool i "unique" false)
             && match index_parts_missing (it_parts x) name with Some (S _) => true | _ => false end
          then Some (plan_index_by_parts i x by_ (index_tail i) true)
          else
            Some {| e_steps := [set_detail "existing_definition" (JStr (i_definition ex))
                                  (with_action kSatisfied "index already present and valid" (new_step (kind_name i)))];
                    e_warnings :=
                      if contains (body i) "with" && match i_options ex with Some _ => true | None => false end
                         && negb (list_eqb (catalog_index_options ex) (index_options (body i)))
                      then ["the index " +:+ name +:+ " on " +:+ qualified +:+ " exists with storage parameters ["
                            +:+ join ", " (catalog_index_options ex) +:+ "], not the ["
                            +:+ join ", " (index_options (body i))
                            +:+ "] this specification asks for. It is left as it is: changing them means rebuilding it, so drop it and create it again in a later specification if they matter."]
                      else [];
                    e_conflicts := [] |}
    end.

(** ** [plan_drop_index] *)
Definition plan_drop_index (i : Intent) (o : Observations) : Emitted :=
  let qualified := in_qualified i in
  let t := table_obs o qualified in
  let name := bstr i "name" "" in
  let waiters := t_lock_waiters t in
  let named (d : list (string * json)) := d ++ [("index", JStr name); ("schema", JStr (in_schema i))] in
  if negb (t_exists t) then refuse i (qualified +:+ " does not exist") (qualified +:+ " does not exist")
  else
    match t_indexes t !! name with
    | None => satisfied i ("no index named " +:+ name +:+ " on " +:+ qualified)
    | Some ex =>
        if i_constraint_backed ex then
          refuse i (name +:+ " backs a constraint and cannot be dropped on its own")
            (quoted name +:+ " on " +:+ qualified
             +:+ " backs a constraint. PostgreSQL refuses to drop such an index directly; drop the constraint instead, with a drop_constraint intent.")
        else
          let uniqueness :=
            if i_is_unique ex
            then [quoted name +:+ " is UNIQUE. Dropping it removes the uniqueness it enforces, not merely a lookup path. pg_licht evaluateIndex with hide will say whether anything still plans against it."]
            else [] in
          let tr := index_traits o qualified i in
          if no_concurrent tr then
            let '(by_, x) := default ("", no_traits) tr in
            {| e_steps :=
                 [make (kind_name i) kOptional false [DropIndex false (in_schema i) name]
                    ("AccessExclusiveLock on " +:+ (if String.eqb (it_scope x) "" then qualified else it_scope x) +:+ ", briefly")
                    (by_ +:+ " says a concurrent drop is not possible here -> plain DROP")
                    (named [("index_build_by", JStr by_)])];
               e_warnings :=
                 uniqueness
                 ++ (if 0 <? waiters
                     then [quoted name +:+ " is dropped plainly although " +:+ to_string waiters +:+ " session(s) already wait on "
                           +:+ qualified +:+ ": a concurrent drop is not possible there, so this one queues behind them, and everything after it queues behind it."]
                     else []);
               e_conflicts := [] |}
          else
            {| e_steps :=
                 [if waiters =? 0 then
                    make (kind_name i) kOptional false [DropIndex false (in_schema i) name] "AccessExclusiveLock, briefly"
                      "0 lock waiters -> plain DROP (transactional, so a failure leaves nothing behind)" (named [])
                  else
                    make (kind_name i) kForbidden false [DropIndex true (in_schema i) name] "ShareUpdateExclusiveLock"
                      (to_string waiters +:+ " lock waiters already on " +:+ qualified
                       +:+ " -> concurrent drop; a plain DROP would queue behind them and everything arriving after it would queue behind that")
                      (named [])];
               e_warnings := uniqueness; e_conflicts := [] |}
    end.

End Indexes.
