(* ===== verification/RowPlan.v ===== *)
(** * RowPlan: what the row-level planners share (src/cpp/src/planner_dml.h)

    Literal rows rendered as SQL, the decision whether a change is paced, the
    refusals PostgreSQL would raise at execution, the indexes that prove a key
    unique, the side table of a pre-image, the sequence that follows explicit
    values, and what every paced step carries for the executor. *)
From S2P Require Import Prelude Json Canonical Spec Quote RowSql Plan Planner Indexes.

(** Prose with its double quotes written as [~]. *)
Fixpoint say (s : string) : string :=
  match s with
  | EmptyString => ""
  | String c s' => String (if Ascii.eqb c "~" then dquote else c) (say s')
  end.

(** ** Confinement *)

(** [citus_required_confinement] (modules/citus/confine.h). *)
Definition citus_required_confinement (o : Observations) (qualified : string) : string :=
  match o_citus o with
  | None => ""
  | Some tables =>
      match tables !! qualified with
      | None => ""
      | Some t => if String.eqb (ct_partmethod t) "n" then "" else ct_distribution_column t
      end
  end.

(** [required_confinement]: the column and the module that answered, both empty
    when none did. *)
Fixpoint first_confinement (o : Observations) (qualified : string)
    (l : list (string * (Observations -> string -> string))) : string * string :=
  match l with
  | [] => ("", "")
  | (m, f) :: l' =>
      let column := f o qualified in
      if String.eqb column "" then first_confinement o qualified l' else (column, m)
  end.

Definition required_confinement `{Vendors} (o : Observations) (qualified : string) : string * string :=
  first_confinement o qualified confinements.

(** ** Literal rows *)

(** [render_cell]; a cell that is neither null, a boolean nor a number is a
    string, which spec.h makes sure of. *)
Definition render_cell `{Printing} (cell : json) : string :=
  match cell with
  | JNull => "NULL"
  | JBool b => if b then "true" else "false"
  | JInt _ | JUint _ | JFloat _ => dump cell
  | JStr s => quote_literal s
  | _ => ""
  end.

Definition column_type (columns : gmap string ColumnObs) (name : string) : string :=
  match columns !! name with Some c => c_type c | None => "text" end.

Definition column_names (i : Intent) : list string := bstrs i "columns".

(** [row[c]] for every column. *)
Definition row_cells `{Printing} (names : list string) (row : json) : list string :=
  (fun c => render_cell (default JNull (elements row !! c))) <$> seq 0 (length names).

Definition literal_rows (i : Intent) : list json := elements (at_key (body i) "values").

(** The rows of an intent, as [source_relation] and the unpaced forms write them. *)
Definition intent_source `{Printing} (i : Intent) (names : list string) (columns : gmap string ColumnObs) : Source :=
  if contains (body i) "select" then Query (bstr i "select" "")
  else Literal ((fun n => (n, column_type columns n)) <$> names) (row_cells names <$> literal_rows i).

(** ** The key of a row-level kind *)
Definition row_key (i : Intent) : RowKey :=
  {| rk_columns :=
       match at_key (body i) "key" with
       | JStr s => if String.eqb s "" then [] else [s]
       | JArr l => omap (fun v => match v with JStr s => Some s | _ => None end) l
       | _ => []
       end |}.

(** ** Pacing *)
Inductive Form : Type := kValues | kSelect | kWhere.

#[export] Instance Form_eq_dec : EqDecision Form.
Proof. solve_decision. Defined.

Record Pacing : Type := {
  pa_form : Form;
  pa_row_count : Z;
  pa_paced : bool;
  pa_why : string;
  pa_unpaced_for_want_of_a_key : bool;
}.

Definition decide_pacing (i : Intent) (cfg : PlannerConfig) (key_available : bool) : Pacing :=
  let form := if contains (body i) "values" then kValues else if contains (body i) "select" then kSelect else kWhere in
  let row_count := if contains (body i) "values" then Z.of_nat (length (literal_rows i)) else -1 in
  let limit := pc_dml_single_txn_rows cfg in
  let forced := contains (body i) "paced" in
  let want := if forced then bbool i "paced" false
              else negb (bool_decide (form = kValues)) || (limit <? row_count) in
  let n := to_string row_count in
  let why :=
    match form with
    | kValues =>
        if forced then n +:+ " literal rows; pacing was set explicitly to " +:+ (if want then "true" else "false")
                       +:+ " in the spec"
        else if limit <? row_count then
          n +:+ " literal rows, above dml_single_txn_rows (" +:+ to_string limit
          +:+ "), so this is paced into short transactions rather than held open for the whole list"
        else
          n +:+ " literal rows, at or below dml_single_txn_rows (" +:+ to_string limit
          +:+ "), so this runs in ONE transaction and is all-or-nothing -- a half-applied set of literal rows is worse than one that failed"
    | kSelect => "the row count of a select cannot be measured without running it, and this planner has no database in it, so this is paced rather than sized by a number the tool cannot derive"
    | kWhere => "a predicate matches an unknown number of rows -- reltuples estimates the TABLE, not the filter -- so this is paced"
    end in
  let keyless := want && negb key_available in
  {| pa_form := form; pa_row_count := row_count; pa_paced := want && key_available;
     pa_why := why +:+ (if keyless then ". It could NOT be paced: no key column was given, so there is nothing to walk by, and it runs in one transaction" else "");
     pa_unpaced_for_want_of_a_key := keyless |}.

(** ** Refusals *)

(** A step refused with why, and the plan's conflict. *)
Record Refusal : Type := { rf_why : string; rf_conflict : string }.

Definition refused_with (steps_ : list Step) (ws : list string) (s : Step) (r : Refusal) : Emitted :=
  {| e_steps := steps_ ++ [with_action kConflict (rf_why r) s]; e_warnings := ws; e_conflicts := [rf_conflict r] |}.

(** One column of [refuse_unwritable_columns]. *)
Definition unwritable (overriding qualified : string) (columns : gmap string ColumnObs) (name : string) : option Refusal :=
  match columns !! name with
  | None =>
      let why := qualified +:+ "." +:+ name +:+ " does not exist" in
      Some {| rf_why := why;
              rf_conflict := why +:+ "; if an earlier intent in this spec adds it, this intent must come after it, and the planner does not reorder intents." |}
  | Some c =>
      if String.eqb (c_generated c) "s" then
        Some {| rf_why := qualified +:+ "." +:+ name +:+ " is a generated column";
                rf_conflict := qualified +:+ "." +:+ name
                  +:+ say " is GENERATED ALWAYS AS ... STORED, and PostgreSQL refuses any statement that supplies a value for it -- measured on 18.6: ~cannot insert a non-DEFAULT value into column~. Drop it from ~columns~; the database computes it from the columns that remain." |}
      else if String.eqb (c_identity c) "a" && negb (String.eqb overriding "system") then
        Some {| rf_why := qualified +:+ "." +:+ name +:+ " is GENERATED ALWAYS AS IDENTITY";
                rf_conflict := qualified +:+ "." +:+ name
                  +:+ say " is GENERATED ALWAYS AS IDENTITY, so supplying a value is an error -- measured on 18.6, with PostgreSQL's own hint: ~Use OVERRIDING SYSTEM VALUE to override.~ Either drop the column from ~columns~ and let the sequence assign it, or set ~overriding~: ~system~ and say in the rationale why the generated values are being overridden." |}
      else None
  end.

Definition refuse_unwritable_columns (i : Intent) (columns : gmap string ColumnObs) (qualified : string)
    (names : list string) : option Refusal :=
  head (omap (unwritable (bstr i "overriding" "") qualified columns) names).

(** [row_target_ok]: [None] is its [true]. *)
Definition row_target_refused (t : TableObs) (qualified : string) (keys : RowKey) : option Refusal :=
  if negb (t_exists t) then
    let why := qualified +:+ " does not exist" in Some {| rf_why := why; rf_conflict := why |}
  else if String.eqb (t_kind t) "view" || String.eqb (t_kind t) "materialized_view" then
    Some {| rf_why := qualified +:+ " is a " +:+ t_kind t;
            rf_conflict := qualified +:+ " is a " +:+ t_kind t
              +:+ ", not a table. Writing through a view needs an INSTEAD OF trigger or an auto-updatable definition, and neither is something this planner can measure -- so it refuses rather than emitting a statement whose effect it cannot predict." |}
  else
    match List.find (fun key => match t_columns t !! key with Some _ => false | None => true end) (rk_columns keys) with
    | Some key =>
        let why := qualified +:+ "." +:+ key +:+ " does not exist" in
        Some {| rf_why := why; rf_conflict := why +:+ ", so there is nothing to match rows by." |}
    | None => None
    end.

(** The position of a column among the names, the first one. *)
Fixpoint position (k : string) (names : list string) : option nat :=
  match names with
  | [] => None
  | n :: names' => if String.eqb n k then Some O else S <$> position k names'
  end.

(** The key of one literal row as it is compared and shown. *)
Definition rendered_key `{Printing} (idx : list nat) (row : json) : string :=
  let rendered := join ", " ((fun c => render_cell (default JNull (elements row !! c))) <$> idx) in
  if (1 <? length idx)%nat then "(" +:+ rendered +:+ ")" else rendered.

(** The first value that was seen before. *)
Fixpoint first_repeat (seen l : list string) : option string :=
  match l with
  | [] => None
  | x :: l' => if existsb (String.eqb x) seen then Some x else first_repeat (x :: seen) l'
  end.

Definition refuse_duplicate_keys `{Printing} (i : Intent) (names : list string) (key : RowKey) : option Refusal :=
  if negb (contains (body i) "values") || rk_empty key then None
  else
    match mapM (fun k => position k names) (rk_columns key) with
    | None => None
    | Some idx =>
        rendered ← first_repeat [] (rendered_key idx <$> literal_rows i);
        Some {| rf_why := say "~values~ gives key " +:+ rendered +:+ " twice";
                rf_conflict := say "~values~ contains the key " +:+ rendered
                  +:+ say " more than once. PostgreSQL breaks on this three different ways depending on the statement -- an INSERT violates the unique constraint, a MERGE raises ~MERGE command cannot affect row a second time~ (measured on 18.6), and an UPDATE quietly applies whichever row it reaches last -- so it is refused here instead. Decide which of the two rows is meant." |}
    end.

(** ** Indexes that prove a key unique *)

(** The readings every proof asks for: unique, valid, over plain columns it names,
    and not partial. *)
Definition proves_rows_apart (ix : IndexObs) : bool :=
  i_is_unique ix && i_is_valid ix && negb (i_has_expressions ix) && i_says_columns ix
  && String.eqb (i_predicate ix) "".

Definition index_key_count (ix : IndexObs) : nat := default (length (i_columns ix)) (i_key_column_count ix).

(** The indexes in the order of the JSON object's keys. *)
Definition indexes_of (t : TableObs) : list (string * IndexObs) := by_key (map_to_list (t_indexes t)).

(** [unique_group_key_index]: the group column and the index. *)
Definition group_of (key required_group : string) (ni : string * IndexObs) : option (string * string) :=
  let ix := ni.2 in
  if proves_rows_apart ix && (index_key_count ix =? 2)%nat then
    match i_columns ix with
    | g :: k :: _ =>
        if String.eqb k key && (String.eqb required_group "" || String.eqb g required_group)
        then Some (g, ni.1) else None
    | _ => None
    end
  else None.

Definition unique_group_key_index (t : TableObs) (key required_group : string) : option (string * string) :=
  head (omap (group_of key required_group) (indexes_of t)).

Definition type_grows (type : string) : bool :=
  existsb (String.eqb type)
    ["bigint"; "integer"; "smallint"; "timestamp with time zone"; "timestamp without time zone"; "date"].

(** The key columns of an index that contains [key], all of them NOT NULL. *)
Definition containing_columns (t : TableObs) (key : string) (ix : IndexObs) : option (list string) :=
  let n := index_key_count ix in
  let cols := take n (i_columns ix) in
  if proves_rows_apart ix && (2 <=? n)%nat && (n <=? length (i_columns ix))%nat
     && forallb (fun c => match t_columns t !! c with Some o => c_not_null o | None => false end) cols
     && existsb (String.eqb key) cols
  then Some cols else None.

(** What the loop of [unique_index_containing] keeps. *)
Record Candidate : Type := { cd_columns : list string; cd_index : string; cd_primary : bool }.

Definition better_candidate (have : option Candidate) (c : Candidate) : bool :=
  match have with
  | None => true
  | Some b => (cd_primary c && negb (cd_primary b))
              || (Bool.eqb (cd_primary c) (cd_primary b) && (length (cd_columns c) <? length (cd_columns b))%nat)
  end.

Definition consider (t : TableObs) (key : string) (have : option Candidate) (ni : string * IndexObs) : option Candidate :=
  match containing_columns t key ni.2 with
  | None => have
  | Some cols =>
      let c := {| cd_columns := cols; cd_index := ni.1; cd_primary := i_is_primary ni.2 |} in
      if better_candidate have c then Some c else have
  end.

Definition unique_index_containing (t : TableObs) (key : string) : option Candidate :=
  foldl (consider t key) None (indexes_of t).

(** What [unique_key_index] answers: whether the key is proven unique, the index
    that proves it or the nearest candidate, and why that one does not. *)
Record KeyProof : Type := { kp_proven : bool; kp_index : string; kp_reason : string }.

(** Why an index that leads with the key proves nothing; [None] is the proof. *)
Definition why_not (key name : string) (ix : IndexObs) : option string :=
  if negb (i_is_unique ix) then Some (name +:+ " leads with it but is not unique")
  else if negb (i_is_valid ix) then
    Some (name +:+ " is unique but not valid -- a CREATE INDEX CONCURRENTLY that failed leaves exactly this behind")
  else if negb (i_says_columns ix) then
    Some (name +:+ " is unique, but this observation does not say which columns it covers or whether it is partial, so it proves nothing")
  else if negb (index_key_count ix =? 1)%nat then
    Some (name +:+ " is UNIQUE (" +:+ join ", " (i_columns ix) +:+ "), which permits the same " +:+ key
          +:+ " on rows that differ in the other column(s)")
  else if negb (String.eqb (i_predicate ix) "") then
    Some (name +:+ " is unique but PARTIAL (WHERE " +:+ i_predicate ix
          +:+ "), which says nothing about the rows outside its predicate")
  else None.

(** The loop, with the nearest candidate and the first reason so far. *)
Fixpoint prove_key (key nearest why : string) (l : list (string * IndexObs)) : KeyProof :=
  match l with
  | [] => {| kp_proven := false; kp_index := nearest; kp_reason := why |}
  | (name, ix) :: l' =>
      if negb (String.eqb (i_leading_column ix) key) then prove_key key nearest why l'
      else
        match why_not key name ix with
        | None => {| kp_proven := true; kp_index := name; kp_reason := "" |}
        | Some r => prove_key key (first_text nearest name) (first_text why r) l'
        end
  end.

Definition unique_key_index (t : TableObs) (key : string) : KeyProof := prove_key key "" "" (indexes_of t).

(** [row_key_is_unique]. *)
Definition within_key (key : RowKey) (ix : IndexObs) : bool :=
  let n := index_key_count ix in
  proves_rows_apart ix && negb (n =? 0)%nat && (n <=? length (i_columns ix))%nat
  && forallb (rk_has key) (take n (i_columns ix)).

Definition row_key_is_unique (t : TableObs) (key : RowKey) : KeyProof :=
  if negb (rk_composite key) then unique_key_index t (rk_first key)
  else
    match List.find (fun ni => within_key key ni.2) (indexes_of t) with
    | Some (name, _) => {| kp_proven := true; kp_index := name; kp_reason := "" |}
    | None => {| kp_proven := false; kp_index := "";
                 kp_reason := "no valid, complete unique index has all its columns among " +:+ rk_label key |}
    end.

Definition with_rest_of_key (key : RowKey) (changed : list string) : list string := tail (rk_columns key) ++ changed.

Definition no_unique_key_advice (t : TableObs) (qualified : string) (key : RowKey) : string :=
  let said := say " Name as ~key~ the columns of a unique index on " +:+ qualified in
  if rk_composite key || rk_empty key then said +:+ "."
  else
    match unique_index_containing t (rk_first key) with
    | Some c => said +:+ ": a list is accepted, and " +:+ cd_index c +:+ " makes ["
                +:+ join ", " ((fun x => say ("~" +:+ x +:+ "~")) <$> cd_columns c) +:+ "] one."
    | None => said +:+ ": a list is accepted, for a table where " +:+ rk_first key
              +:+ " is unique only together with other columns."
    end.

(** ** The pre-image's side table *)

(** [pv.cols]: the key, then what changes, once each. *)
Definition saved_columns (key : string) (changed : list string) : list string :=
  foldl (fun cols c => if existsb (String.eqb c) cols then cols else cols ++ [c]) [key] changed.

(** [plan_preserve]: the step that makes the side table, and what to splice. *)
Definition plan_preserve (i : Intent) (columns : gmap string ColumnObs) (target_sql_rel key : string)
    (changed : list string) : option (Step * Preserved) :=
  if negb (contains (body i) "preserve") then None
  else
    let p := at_key (body i) "preserve" in
    let qualified := text_at p "schema" +:+ "." +:+ text_at p "table" in
    let pv := {| pv_qualified := qualified; pv_cols := saved_columns key changed |} in
    let cols_ddl := join ", " ((fun c => quote_identifier c +:+ " " +:+ column_type columns c) <$> pv_cols pv) in
    Some (make (kind_name i) kRequired true
            [OtherSql ("CREATE TABLE IF NOT EXISTS " +:+ pv_sql_rel pv +:+ " (" +:+ cols_ddl
                       +:+ ", laswell_saved_at timestamptz NOT NULL DEFAULT now());");
             OtherSql ("COMMENT ON TABLE " +:+ pv_sql_rel pv +:+ " IS "
                       +:+ quote_literal ("Pre-image captured by pg_laswell before " +:+ kind_name i +:+ " changed "
                                          +:+ target_sql_rel
                                          +:+ ". Each row is what the target looked like before the change, written in the same statement as the change itself.")
                       +:+ ";")]
            "AccessExclusiveLock on the new table only"
            "preserve: the pre-image needs somewhere to live, and it must exist before the first batch writes to it" [],
          pv).

Definition all_columns (columns : gmap string ColumnObs) : list string := (by_key (map_to_list columns)).*1.

(** ** Sequences and row-level security *)
Definition catchup_sql (qualified name seq_ : string) : string :=
  "SELECT setval(" +:+ quote_literal seq_ +:+ ", s.v)" +:+ nl
  +:+ "  FROM (SELECT max(" +:+ quote_identifier name +:+ ") AS v FROM " +:+ quote_qualified qualified +:+ ") s" +:+ nl
  +:+ " WHERE s.v IS NOT NULL;".

Definition catchup_step (i : Intent) (qualified name seq_ : string) : Step :=
  make (kind_name i) kRequired false [OtherSql (catchup_sql qualified name seq_)]
    "no table lock; a row lock on the sequence for the duration of the setval"
    ("explicit values were supplied for " +:+ qualified +:+ "." +:+ name +:+ ", which draws from " +:+ seq_
     +:+ ". Inserting an explicit value does NOT advance a sequence, so without this the application's next insert collides on a duplicate key -- after the migration has reported success. Measured on 18.6")
    [("sequence", JStr seq_); ("column", JStr name);
     ("derives_value_from", JStr ("max(" +:+ name +:+ ") read from the table at execution time, never from the spec, so it is correct when the seed was already partly applied"))].

(** [emit_sequence_catchup]. *)
Definition emit_sequence_catchup (i : Intent) (columns : gmap string ColumnObs) (qualified : string)
    (names : list string) : list Step :=
  omap (fun name =>
          c ← columns !! name;
          seq_ ← c_sequence c;
          if String.eqb seq_ "" then None else Some (catchup_step i qualified name seq_)) names.

Definition warn_about_row_security (t : TableObs) (qualified : string) (writes_new_rows : bool) : list string :=
  let '(enabled, forced) := t_row_security t in
  if negb enabled then []
  else
    [qualified
     +:+ say " has row-level security enabled, and this step writes rows through it. The two halves fail differently and only one of them is visible: a WITH CHECK policy REFUSES a row loudly, but a USING policy silently narrows which rows are matched at all -- measured on 18.6, a DELETE naming two ids removed one, reported ~DELETE 1~, and said nothing about the other. "
     +:+ (if writes_new_rows
          then "Rows this step inserts must satisfy the WITH CHECK clause of every applicable policy."
          else "Rows this step means to change may not be visible to the role running the migration at all.")
     +:+ (if forced
          then " force_row_level_security is ON, so the table's owner is subject to the policies too."
          else " force_row_level_security is OFF, so if the migration runs as the table's owner it BYPASSES the policies entirely and this will behave differently from the application -- which is its own kind of surprise.")].

(** [table_data(...).rows], and the same reading in [plan_backfill]. *)
Definition table_rows `{Vendors} (o : Observations) (qualified : string) (i : Intent) : Z :=
  match index_traits o qualified i with
  | Some (_, tr) => if 0 <=? it_rows tr then it_rows tr else t_reltuples (table_obs o qualified)
  | None => t_reltuples (table_obs o qualified)
  end.

(** ** What a paced step carries *)
Definition strings_json (l : list string) : json := JArr (JStr <$> l).

Definition with_class (c : TxnClass) (s : Step) : Step :=
  {| st_ordinal := st_ordinal s; st_group := st_group s; st_kind := st_kind s; st_class := c;
     st_action := st_action s; st_sql := st_sql s; st_why := st_why s; st_lock := st_lock s;
     st_own := st_own s; st_detail := st_detail s |}.

(** [step.detail[k] = v] for each. *)
Definition set_details (l : list (string * json)) (s : Step) : Step := foldl (fun s kv => set_detail kv.1 kv.2 s) s l.

(** [if (in.body.contains(k))] the value and where it is used. *)
Definition given (i : Intent) (k note_key note : string) : list (string * json) :=
  if contains (body i) k then [(k, at_key (body i) k); (note_key, JStr note)] else [].

(** [attach_pacing_detail]. *)
Definition attach_pacing_detail (i : Intent) (cfg : PlannerConfig) (row_count : Z) (qualified : string) (key : RowKey)
    (resume_where : string) (s : Step) : Step :=
  with_class kOwnTxnPerBatch
    (set_details
       ([("qualified", JStr qualified); ("key", JStr (rk_first key))]
        ++ (if rk_composite key
            then [("key_columns", strings_json (rk_columns key)); ("batch_mode", JStr "composite_statement")] else [])
        ++ [("where", JStr resume_where); ("batch_rows", JInt (pc_batch_rows cfg));
            ("commit_interval_ms", JInt (pc_commit_interval_ms cfg)); ("batch_cap_rows", JInt (pc_batch_cap_rows cfg));
            ("rows_estimated", JInt (if row_count <? 0 then 0 else row_count));
            ("commits_on", strings_json ["lock_waiter"; "interval"; "batch_cap"]);
            ("cursor_names", JStr "the batch, not the mutation's RETURNING: a row that matched no target row still has to advance the cursor, or the walk stops early and reports success")]
        ++ given i "verify_remaining" "verify_runs_on" "worker connection, after the final batch"
        ++ given i "assert_invariants" "invariants_run_on" "the worker connection, before the first batch and after the last")
       s).
