(* ===== verification/Dml.v ===== *)
(** * Dml: the row-level planners (src/cpp/src/planner_dml.h)

    insert_rows, update_rows, delete_rows, merge_rows and copy_rows: each with
    its refusals in the order the code makes them, its statements, and the step
    the executor runs. Every planner emits its step whatever happened to it, a
    refused one with the reason. *)
From S2P Require Import Prelude Json Canonical Spec Quote RowSql Plan Planner Indexes RowPlan.

(** A refusal ends the planner with the step as it stands. *)
Definition unless_refused (r : option Refusal) (s : Step) (rest : Emitted) : Emitted :=
  match r with Some r => refused_with [] [] s r | None => rest end.

Definition one_transaction_lock (qualified : string) : string :=
  "RowExclusiveLock on " +:+ qualified +:+ " for one transaction; no table-level exclusive lock".

Definition paced_lock (qualified : string) : string :=
  "RowExclusiveLock on " +:+ qualified +:+ " plus row locks, released at every commit".

Definition row_source_text (i : Intent) : string := if contains (body i) "values" then "values" else "select".

Section Dml.
Context `{Vendors, Printing}.

(** The step of a change from a source, paced or whole. *)
Definition change_step (i : Intent) (cfg : PlannerConfig) (src : Pacing) (columns : gmap string ColumnObs)
    (saved : option Preserved) (m : Mutation) (whole_lock : string) (s : Step) : Step :=
  let qualified := in_qualified i in
  let stmt paced := RowChange {| rs_paced := paced; rs_rel := qualified;
                                 rs_source := intent_source i (column_names i) columns;
                                 rs_key := row_key i; rs_saved := saved; rs_mutation := m |} in
  if pa_paced src then
    with_lock (paced_lock qualified)
      (attach_pacing_detail i cfg (pa_row_count src) qualified (row_key i) "" (with_sql [stmt true] s))
  else
    set_detail "rows" (JInt (pa_row_count src))
      (with_sql [stmt false] (with_lock whole_lock (with_class kRequired s))).

(** ** insert_rows *)

(** The search for ON CONFLICT's arbiter: the index that arbitrates, and the
    partial one seen on the way. *)
Fixpoint find_arbiter (target : list string) (conflict_where : string) (partial : option (string * string))
    (l : list (string * IndexObs)) : option string * option (string * string) :=
  match l with
  | [] => (None, partial)
  | (name, ix) :: l' =>
      if negb (i_is_unique ix && i_is_valid ix && negb (i_has_expressions ix)) then
        find_arbiter target conflict_where partial l'
      else if negb (bool_decide (i_columns ix = target)) then find_arbiter target conflict_where partial l'
      else if String.eqb (i_predicate ix) "" then
        if String.eqb conflict_where "" then (Some name, partial)
        else find_arbiter target conflict_where partial l'
      else if negb (String.eqb conflict_where "") then (Some name, Some (name, i_predicate ix))
      else find_arbiter target conflict_where (Some (name, i_predicate ix)) l'
  end.

Definition nothing_arbitrates (qualified cols : string) : string :=
  qualified +:+ " has no valid unique index on (" +:+ cols
  +:+ say "), so ON CONFLICT has nothing to arbitrate on. Measured on 18.6, PostgreSQL refuses this at execution -- ~there is no unique or exclusion constraint matching the ON CONFLICT specification~ -- rather than falling back to the primary key. Create the index first, in an earlier intent, or name the columns that a unique index does cover.".

Definition no_arbiter (qualified : string) (target : list string) (conflict_where : string)
    (partial : option (string * string)) : Refusal :=
  let cols := join ", " target in
  {| rf_why := "no unique index matches the ON CONFLICT target";
     rf_conflict :=
       match partial with
       | Some (name, predicate) =>
           if String.eqb conflict_where "" then
             qualified +:+ " has a unique index " +:+ name +:+ " on (" +:+ cols
             +:+ ") but it is PARTIAL, with predicate " +:+ predicate +:+ ". Measured on 18.6, ON CONFLICT (" +:+ cols
             +:+ ") is refused against a partial index and ON CONFLICT (" +:+ cols +:+ ") WHERE " +:+ predicate
             +:+ say " is accepted. Add ~conflict_where~: " +:+ quote_literal predicate +:+ "."
           else nothing_arbitrates qualified cols
       | None => nothing_arbitrates qualified cols
       end |}.

(** What the conflict clause of an intent is: refused, absent, or the clause with
    the index that arbitrates. *)
Definition insert_conflict (i : Intent) (t : TableObs) (qualified : string) (names : list string) :
  Refusal + option (Conflict * string) :=
  let on_conflict := bstr i "on_conflict" "refuse" in
  if String.eqb on_conflict "refuse" then inr None
  else
    let target := bstrs i "conflict_target" in
    let conflict_where := bstr i "conflict_where" "" in
    match find_arbiter target conflict_where None (indexes_of t) with
    | (None, partial) => inl (no_arbiter qualified target conflict_where partial)
    | (Some arbiter, _) =>
        let clause d := inr (Some ({| cf_target := target; cf_where := conflict_where; cf_do := d |}, arbiter)) in
        if String.eqb on_conflict "skip" then clause DoNothing
        else
          let update_cols := if contains (body i) "update_columns" then bstrs i "update_columns"
                             else List.filter (fun n => negb (existsb (String.eqb n) target)) names in
          match update_cols with
          | [] => inl {| rf_why := say "on_conflict ~update~ has no column left to update";
                         rf_conflict := say "on_conflict ~update~ on " +:+ qualified
                           +:+ say " would update nothing: every column supplied is part of the conflict target, so there is no value a matched row could take that it does not already have. Use ~skip~, or supply a column outside the arbiter." |}
          | _ => clause (DoUpdate update_cols)
          end
    end.

(** The foreign keys a paced insert warns of. *)
Definition foreign_keys (t : TableObs) : list string :=
  omap (fun kc => if String.eqb (k_type kc.2) "f" then Some (kc.1 +:+ " -> " +:+ k_references kc.2) else None)
    (by_key (map_to_list (t_constraints t))).

Definition insert_warnings (i : Intent) (cfg : PlannerConfig) (t : TableObs) (qualified : string) (src : Pacing) :
  list string :=
  (if pa_unpaced_for_want_of_a_key src
   then ["insert_rows on " +:+ qualified +:+ " supplies " +:+ to_string (pa_row_count src)
         +:+ " rows, above dml_single_txn_rows (" +:+ to_string (pc_dml_single_txn_rows cfg)
         +:+ say "), so it would be paced -- but it names no ~key~, and a keyset walk needs a column to walk by. It runs in ONE transaction instead, holding RowExclusiveLock and its row locks for the whole list. Add ~key~ naming a column the rows carry, or say ~paced~: false to record that one transaction is what you meant."]
   else [])
  ++ (match foreign_keys t with
      | [] => []
      | fks => if pa_paced src
               then [qualified +:+ " has foreign keys (" +:+ join ", " fks
                     +:+ say ") and this insert is paced, so a row naming a parent that does not exist fails its batch AFTER earlier batches have committed -- the insert stops part-done rather than rolling back. Insert the parents in an earlier intent, or set ~paced~: false to make it all-or-nothing if the list is small enough to hold in one transaction."]
               else []
      end)
  ++ warn_about_row_security t qualified true.

(** [plan_insert_rows], once its target is accepted. *)
Definition insert_accepted (i : Intent) (cfg : PlannerConfig) (t : TableObs) (conflict : option (Conflict * string)) :
  Emitted :=
  let qualified := in_qualified i in
  let columns := t_columns t in
  let names := column_names i in
  let rk := row_key i in
  let src := decide_pacing i cfg (negb (String.eqb (rk_first rk) "")) in
  let s := new_step (kind_name i) in
  let s := match conflict with Some (_, arbiter) => set_detail "conflict_arbiter" (JStr arbiter) s | None => s end in
  let s := set_details [("row_source", JStr (row_source_text i)); ("paced", JBool (pa_paced src))] s in
  let s := change_step i cfg src columns None (InsertRows names (bstr i "overriding" "") (fst <$> conflict))
             (one_transaction_lock qualified) s in
  let why := pa_why src +:+ match conflict with
                            | None => ""
                            | Some _ => "; " +:+ (if String.eqb (bstr i "on_conflict" "refuse") "skip"
                                then "ON CONFLICT DO NOTHING, so re-running this spec against a database that already has these rows changes nothing"
                                else "ON CONFLICT DO UPDATE, so existing rows are overwritten with the values in the spec")
                            end in
  {| e_steps := with_why why s :: emit_sequence_catchup i columns qualified names;
     e_warnings := insert_warnings i cfg t qualified src; e_conflicts := [] |}.

(** [plan_insert_rows]. *)
Definition plan_insert_rows (i : Intent) (o : Observations) (cfg : PlannerConfig) : Emitted :=
  let qualified := in_qualified i in
  let t := table_obs o qualified in
  let names := column_names i in
  let s := new_step (kind_name i) in
  unless_refused (row_target_refused t qualified (row_key i)) s
    (unless_refused (refuse_unwritable_columns i (t_columns t) qualified names) s
       (unless_refused (refuse_duplicate_keys i names (row_key i)) s
          (match insert_conflict i t qualified names with
           | inl r => refused_with [] [] s r
           | inr conflict => insert_accepted i cfg t conflict
           end))).

(** ** update_rows *)

(** The refusal where no index proves the key unique; [consequence] is what each
    kind says of it. *)
Definition no_unique_key (t : TableObs) (qualified : string) (rk : RowKey) (proof : KeyProof) (consequence : string) :
  option Refusal :=
  if kp_proven proof then None
  else Some {| rf_why := "no unique index proves " +:+ rk_label rk +:+ " unique";
               rf_conflict := qualified +:+ " has no valid unique index on "
                 +:+ (if rk_composite rk then rk_label rk +:+ " or columns among them" else "(" +:+ rk_first rk +:+ ") alone")
                 +:+ (if String.eqb (kp_reason proof) "" then "" else " (" +:+ kp_reason proof +:+ ")")
                 +:+ consequence +:+ no_unique_key_advice t qualified rk |}.

Definition update_consequence : string :=
  say ", so one row of ~values~ could match several rows of the table and every one of them would take a value meant for a single row -- with no error anywhere.".

(** The columns that are not of the key. *)
Definition beside_key (rk : RowKey) (names : list string) : list string :=
  List.filter (fun n => negb (rk_has rk n)) names.

Definition overwrites_warning (qualified : string) : string :=
  "update_rows on " +:+ qualified
  +:+ say " overwrites values with no record of what they were. A backfill has its own WHERE clause as that record -- re-running it says what is left -- and per-row values have nothing equivalent. ~preserve~ captures the pre-image in the SAME transaction as the change, which makes it durable and doubles as the revert path; ~assert_invariants~ catches a transform that completed and still broke a total.".

(** The side table's step before the change's, and its name in the detail. *)
Definition preserving (pv : option (Step * Preserved)) (s : Step) : Step :=
  match pv with Some (_, p) => set_detail "preserve" (JStr (pv_qualified p)) s | None => s end.

Definition update_accepted (i : Intent) (cfg : PlannerConfig) (t : TableObs) (index : string) : Emitted :=
  let qualified := in_qualified i in
  let columns := t_columns t in
  let rk := row_key i in
  let set_columns := beside_key rk (column_names i) in
  let src := decide_pacing i cfg true in
  let pv := plan_preserve i columns (quote_qualified qualified) (rk_first rk) (with_rest_of_key rk set_columns) in
  let s := set_details [("row_source", JStr (row_source_text i)); ("paced", JBool (pa_paced src));
                        ("supporting_index", JStr index); ("sets", strings_json set_columns)] (new_step (kind_name i)) in
  let s := change_step i cfg src columns (snd <$> pv) (UpdateRows set_columns) (one_transaction_lock qualified)
             (preserving pv s) in
  let why := pa_why src +:+ "; each row takes its own values, which no expression can derive -- so "
             +:+ (if contains (body i) "preserve"
                  then "the previous values are preserved in the same transaction as the change"
                  else say "there is no record of the previous values unless ~preserve~ asks for one") in
  {| e_steps := option_list (fst <$> pv) ++ [with_why why s];
     e_warnings := (if negb (contains (body i) "preserve") && negb (contains (body i) "assert_invariants")
                    then [overwrites_warning qualified] else [])
                   ++ warn_about_row_security t qualified true;
     e_conflicts := [] |}.

(** [plan_update_rows]. *)
Definition plan_update_rows (i : Intent) (o : Observations) (cfg : PlannerConfig) : Emitted :=
  let qualified := in_qualified i in
  let t := table_obs o qualified in
  let names := column_names i in
  let rk := row_key i in
  let s := new_step (kind_name i) in
  let proof := row_key_is_unique t rk in
  unless_refused (row_target_refused t qualified rk) s
    (unless_refused (refuse_unwritable_columns i (t_columns t) qualified names) s
       (unless_refused (refuse_duplicate_keys i names rk) s
          (unless_refused (no_unique_key t qualified rk proof update_consequence) s
             (update_accepted i cfg t (kp_index proof))))).

(** ** delete_rows *)
Definition referenced_warning (t : TableObs) (qualified : string) : list string :=
  match t_referenced_by t with
  | [] => []
  | refs => [qualified +:+ " is referenced by " +:+ join ", " refs
             +:+ ". Any row still referenced will fail its batch, and because this is paced, earlier batches have already COMMITTED by then -- the purge stops part-done rather than rolling back. Delete the children first, in an earlier intent, or confirm the constraint cascades."]
  end.

Definition no_shrink_warning (qualified : string) : string :=
  "a delete does not shrink " +:+ qualified
  +:+ " on disk: the rows become dead tuples and the space is reused by future inserts, not returned to the filesystem. Autovacuum will reclaim it for reuse; only VACUUM FULL or pg_repack returns it, and neither is a migration. pg_licht tableBloat shows what is actually there afterwards.".

(** A batch's confinement to the walk's own key. *)
Definition confined_to_key (qualified key confined_by advice : string) : Refusal :=
  let why := "row-locking batches on " +:+ qualified +:+ " must be confined to one value of " +:+ key
             +:+ ", which is the walk key" in
  {| rf_why := why;
     rf_conflict := why +:+ " -- the " +:+ confined_by
       +:+ " reading says so, and with the two the same every batch would be a single row. " +:+ advice |}.

(** The statements of a delete by predicate: along the key, or within each value
    of a group. *)
Definition delete_walk (rel key key_type where_ : string) (saved : option Preserved) : list Stmt :=
  let sql_rel := quote_qualified rel in
  let k := quote_identifier key in
  let key_array := "ANY($1::" +:+ key_type +:+ "[])" in
  [OtherSql ("SELECT " +:+ sql_rel +:+ "." +:+ k +:+ nl
             +:+ "  FROM " +:+ sql_rel +:+ nl
             +:+ " WHERE " +:+ sql_rel +:+ "." +:+ k +:+ " > $1 AND (" +:+ where_ +:+ ")" +:+ nl
             +:+ " ORDER BY " +:+ sql_rel +:+ "." +:+ k +:+ nl
             +:+ " LIMIT $2" +:+ nl
             +:+ " FOR UPDATE;");
   OtherSql (match saved with
             | Some pv => "WITH " +:+ preserve_cte_by_keys pv sql_rel sql_rel key key_array +:+ nl
             | None => ""
             end
             +:+ "DELETE FROM " +:+ sql_rel +:+ nl
             +:+ " WHERE " +:+ sql_rel +:+ "." +:+ k +:+ " = " +:+ key_array +:+ " AND (" +:+ where_ +:+ ")" +:+ nl
             +:+ "RETURNING " +:+ sql_rel +:+ "." +:+ k +:+ ";")].

(** The groups in order, and the keys of one under a predicate; [rel] is how the
    target is referred to. *)
Definition group_selects (sql_rel rel from g k where_ lock : string) : list Stmt :=
  [OtherSql ("SELECT " +:+ rel +:+ "." +:+ g +:+ nl
             +:+ "  FROM " +:+ sql_rel +:+ nl
             +:+ " WHERE (" +:+ rel +:+ "." +:+ g +:+ " > $1 OR $1 IS NULL)" +:+ nl
             +:+ " ORDER BY " +:+ rel +:+ "." +:+ g +:+ nl
             +:+ " LIMIT $2;");
   OtherSql ("SELECT " +:+ rel +:+ "." +:+ k +:+ nl
             +:+ "  FROM " +:+ sql_rel +:+ from +:+ nl
             +:+ " WHERE " +:+ rel +:+ "." +:+ g +:+ " = $1" +:+ nl
             +:+ "   AND (" +:+ rel +:+ "." +:+ k +:+ " > $2 OR $2 IS NULL) AND (" +:+ where_ +:+ ")" +:+ nl
             +:+ " ORDER BY " +:+ rel +:+ "." +:+ k +:+ nl
             +:+ " LIMIT $3" +:+ nl
             +:+ lock)].

Definition delete_grouped_walk (rel key group key_type where_ : string) (saved : option Preserved) : list Stmt :=
  let sql_rel := quote_qualified rel in
  let k := quote_identifier key in
  let g := quote_identifier group in
  let in_batch := "ANY($2::" +:+ key_type +:+ "[])" in
  group_selects sql_rel sql_rel "" g k where_ " FOR UPDATE;"
  ++ [OtherSql (match saved with
                | Some pv => "WITH " +:+ preserve_cte_by_keys pv sql_rel sql_rel key
                                           (in_batch +:+ " AND " +:+ sql_rel +:+ "." +:+ g +:+ " = $1") +:+ nl
                | None => ""
                end
                +:+ "DELETE FROM " +:+ sql_rel +:+ nl
                +:+ " WHERE " +:+ sql_rel +:+ "." +:+ g +:+ " = $1" +:+ nl
                +:+ "   AND " +:+ sql_rel +:+ "." +:+ k +:+ " = " +:+ in_batch +:+ " AND (" +:+ where_ +:+ ")" +:+ nl
                +:+ "RETURNING " +:+ sql_rel +:+ "." +:+ k +:+ ";")].

(** The step of a delete by predicate; [rows] is the table's estimate. *)
Definition delete_by_predicate (i : Intent) (cfg : PlannerConfig) (t : TableObs) (rows : Z) (saved : option Preserved)
    (group confined_by : string) (s : Step) : Step :=
  let qualified := in_qualified i in
  let rk := row_key i in
  let key := rk_first rk in
  let where_ := bstr i "where" "" in
  let key_type := column_type (t_columns t) key in
  let s := if String.eqb group ""
           then set_detail "batch_mode" (JStr "two_statement") (with_sql (delete_walk qualified key key_type where_ saved) s)
           else set_details [("batch_mode", JStr "grouped"); ("group_column", JStr group); ("confined_by", JStr confined_by)]
                  (with_sql (delete_grouped_walk qualified key group key_type where_ saved) s) in
  let s := attach_pacing_detail i cfg (-1) qualified rk where_ (set_detail "key_type" (JStr key_type) s) in
  with_why ("deleting " +:+ to_string rows +:+ " estimated rows in batches of " +:+ to_string (pc_batch_rows cfg)
            +:+ ", committing on a lock waiter, on " +:+ to_string (pc_commit_interval_ms cfg)
            +:+ "ms elapsed, or on " +:+ to_string (pc_batch_cap_rows cfg)
            +:+ " rows -- whichever comes first. A single DELETE over the same predicate would hold its locks for the whole of it")
    (with_lock ("RowExclusiveLock on " +:+ qualified +:+ " -- no table-level exclusive lock at any point")
       (set_detail "rows_estimated" (JInt rows) s)).

(** What a delete's step ends with. *)
Definition delete_finished (i : Intent) (pv : option (Step * Preserved)) (s : Step) : Step :=
  let s := match pv with
           | Some (_, p) => with_why (st_why s +:+ "; every column of each deleted row is preserved in "
                                      +:+ pv_qualified p +:+ " in the same statement as the delete") s
           | None => s
           end in
  if contains (body i) "verify_remaining" then set_detail "verify_remaining" (at_key (body i) "verify_remaining") s else s.

(** [plan_delete_rows]. *)
Definition plan_delete_rows (i : Intent) (o : Observations) (cfg : PlannerConfig) : Emitted :=
  let qualified := in_qualified i in
  let t := table_obs o qualified in
  let columns := t_columns t in
  let rk := row_key i in
  let key := rk_first rk in
  let s := new_step (kind_name i) in
  unless_refused (row_target_refused t qualified rk) s
    (unless_refused (refuse_duplicate_keys i (column_names i) rk) s
       (let warned := referenced_warning t qualified in
        let src := decide_pacing i cfg true in
        let by_predicate := negb (contains (body i) "values") && negb (contains (body i) "select") in
        let s := set_details [("row_source", JStr (if by_predicate then "where" else row_source_text i));
                              ("paced", JBool (pa_paced src))] s in
        let pv := plan_preserve i columns (quote_qualified qualified) key (all_columns columns) in
        let made := option_list (fst <$> pv) in
        let s := preserving pv s in
        let done s := {| e_steps := made ++ [delete_finished i pv s];
                         e_warnings := warned ++ warn_about_row_security t qualified false ++ [no_shrink_warning qualified];
                         e_conflicts := [] |} in
        if by_predicate then
          let s := with_class kOwnTxnPerBatch s in
          let '(group, confined_by) := required_confinement o qualified in
          if negb (String.eqb group "") && String.eqb group key then
            refused_with made warned s
              (confined_to_key qualified key confined_by
                 "Supply the keys with delete_rows `values`, which needs no walk.")
          else done (delete_by_predicate i cfg t (table_rows o qualified i) (snd <$> pv) group confined_by s)
        else
          done (with_why (pa_why src)
                  (change_step i cfg src columns (snd <$> pv) DeleteRows (one_transaction_lock qualified) s)))).

(** ** merge_rows *)
Definition merge_consequence : string :=
  ", and MERGE's ON clause is not a key constraint. Measured on 18.6: with duplicate target rows, one source row updated BOTH of them -- no error, nothing in the row count to notice, and the extra row silently carrying values meant for another.".

(** The version floor, and what has no paced form. *)
Definition merge_refused (o : Observations) (qualified by_source : string) (paced : bool) : option Refusal :=
  let server := to_string (o_server_version o) in
  let old := (o_server_version o <? 170000) && (0 <? o_server_version o) in
  if old && paced then
    Some {| rf_why := "a paced merge needs MERGE ... RETURNING, which is PostgreSQL 17+";
            rf_conflict := "merge_rows on " +:+ qualified
              +:+ " would be paced, and a paced merge emits MERGE ... RETURNING, which arrived in PostgreSQL 17. This server is "
              +:+ server
              +:+ say ", where it is a syntax error -- measured, not assumed. Either set ~paced~: false, accepting that the statement holds its locks for the whole source rather than committing as it goes, or run this against 17 or later. It is NOT silently unpaced here: that would turn a bounded change into one long transaction, which is the harm this tool exists to prevent." |}
  else if old && String.eqb by_source "delete" then
    Some {| rf_why := "when_not_matched_by_source needs PostgreSQL 17+";
            rf_conflict := "when_not_matched_by_source on " +:+ qualified
              +:+ " emits WHEN NOT MATCHED BY SOURCE, which arrived in PostgreSQL 17. This server is " +:+ server
              +:+ ", where it is a syntax error -- measured, not assumed. Express the removal as its own delete_rows intent with a predicate that says which rows are obsolete; that runs on every version this tool supports." |}
  else if String.eqb by_source "delete" && paced then
    Some {| rf_why := say "when_not_matched_by_source ~delete~ cannot be paced";
            rf_conflict := say "when_not_matched_by_source ~delete~ on " +:+ qualified
              +:+ say " means ~delete every target row the source does not mention~, and a paced MERGE only ever sees one batch of the source at a time. The first batch would delete everything outside it, including the rows the later batches were going to match. It is only correct over the WHOLE source at once, so either set ~paced~: false -- accepting that the statement holds its locks for the whole table -- or express the removal as its own delete_rows intent with a predicate that says which rows are obsolete." |}
  else None.

Definition merge_updates (i : Intent) : list string :=
  if contains (body i) "update_columns" then bstrs i "update_columns" else beside_key (row_key i) (column_names i).

Definition nothing_to_update (i : Intent) : option Refusal :=
  if String.eqb (bstr i "when_matched" "update") "update" && bool_decide (merge_updates i = []) then
    Some {| rf_why := say "when_matched ~update~ has no column to update";
            rf_conflict := say "when_matched ~update~ on " +:+ in_qualified i
              +:+ say " would update nothing: the only column the source carries is the key it matches on. Supply the columns to write, or set when_matched to ~nothing~ if the intent is insert-only." |}
  else None.

Definition when_matched (matched : string) : WhenMatched :=
  if String.eqb matched "update" then MatchedUpdate else if String.eqb matched "delete" then MatchedDelete
  else MatchedNothing.

Definition replaces_warning (qualified : string) : string :=
  say "when_not_matched_by_source ~delete~ on " +:+ qualified
  +:+ say " removes every row the source does not mention. This is a full replacement of the table's contents, not an upsert: any row the application inserted since the spec was written is deleted, and nothing in the plan can know how many that is. Consider ~assert_invariants~ with a count, so the job records what the table held before and after.".

Definition merge_mutation (i : Intent) : Mutation :=
  MergeRows (when_matched (bstr i "when_matched" "update")) (merge_updates i)
    (if String.eqb (bstr i "when_not_matched" "insert") "insert" then Some (column_names i) else None)
    (String.eqb (bstr i "when_not_matched_by_source" "nothing") "delete").

Definition merge_accepted (i : Intent) (cfg : PlannerConfig) (t : TableObs) (index : string) : Emitted :=
  let qualified := in_qualified i in
  let columns := t_columns t in
  let rk := row_key i in
  let matched := bstr i "when_matched" "update" in
  let not_matched := bstr i "when_not_matched" "insert" in
  let by_source := bstr i "when_not_matched_by_source" "nothing" in
  let inserts := String.eqb not_matched "insert" in
  let deletes := String.eqb by_source "delete" in
  let src := decide_pacing i cfg true in
  let pv := plan_preserve i columns (quote_qualified qualified) (rk_first rk)
              (if String.eqb matched "delete" then all_columns columns else with_rest_of_key rk (merge_updates i)) in
  let s := set_details [("row_source", JStr (row_source_text i)); ("paced", JBool (pa_paced src));
                        ("supporting_index", JStr index); ("when_matched", JStr matched);
                        ("when_not_matched", JStr not_matched); ("when_not_matched_by_source", JStr by_source)]
             (new_step (kind_name i)) in
  let s := change_step i cfg src columns (snd <$> pv) (merge_mutation i)
             (one_transaction_lock qualified
              +:+ (if deletes then " -- but the statement scans the WHOLE table to find the rows the source does not mention"
                   else ""))
             (preserving pv s) in
  let why := pa_why src +:+ "; ON " +:+ rk_first rk +:+ " is backed by " +:+ index
             +:+ ", which is what makes one source row match at most one target row"
             +:+ match pv with
                 | Some (_, p) => "; matched rows are preserved in " +:+ pv_qualified p
                                  +:+ " in the same statement as the merge"
                 | None => ""
                 end in
  {| e_steps := option_list (fst <$> pv) ++ [with_why why s]
                ++ (if inserts then emit_sequence_catchup i columns qualified (column_names i) else []);
     e_warnings := (if deletes then [replaces_warning qualified] else []) ++ warn_about_row_security t qualified inserts;
     e_conflicts := [] |}.

(** [plan_merge_rows]. *)
Definition plan_merge_rows (i : Intent) (o : Observations) (cfg : PlannerConfig) : Emitted :=
  let qualified := in_qualified i in
  let t := table_obs o qualified in
  let names := column_names i in
  let rk := row_key i in
  let s := new_step (kind_name i) in
  let proof := row_key_is_unique t rk in
  unless_refused (row_target_refused t qualified rk) s
    (unless_refused (refuse_duplicate_keys i names rk) s
       (unless_refused (if String.eqb (bstr i "when_not_matched" "insert") "insert"
                        then refuse_unwritable_columns i (t_columns t) qualified names else None) s
          (unless_refused (no_unique_key t qualified rk proof merge_consequence) s
             (unless_refused (merge_refused o qualified (bstr i "when_not_matched_by_source" "nothing")
                                (pa_paced (decide_pacing i cfg true))) s
                (unless_refused (nothing_to_update i) s
                   (merge_accepted i cfg t (kp_index proof))))))).

(** ** copy_rows *)
Definition copy_warnings (cfg : PlannerConfig) (t : TableObs) (qualified : string) (rows : Z) : list string :=
  (if pc_dml_single_txn_rows cfg <? rows
   then ["copy_rows on " +:+ qualified +:+ " sends " +:+ to_string rows
         +:+ " rows in ONE transaction, above dml_single_txn_rows (" +:+ to_string (pc_dml_single_txn_rows cfg)
         +:+ say "), and COPY has no paced form. It holds RowExclusiveLock and its row locks for the whole load. insert_rows with the same rows IS paced, and insert_rows with ~select~ is the right shape for a load this size."]
   else [])
  ++ (match List.find (fun kc => String.eqb (k_type kc.2) "f") (by_key (map_to_list (t_constraints t))) with
      | Some (name, _) =>
          [qualified +:+ " has foreign key " +:+ name
           +:+ ", and COPY is not a fast path around it: measured on 18.6, a COPY naming a parent row that did not exist failed on the constraint exactly as an INSERT would. Row triggers fire too."]
      | None => []
      end)
  ++ warn_about_row_security t qualified true.

(** [plan_copy_rows]. *)
Definition plan_copy_rows (i : Intent) (o : Observations) (cfg : PlannerConfig) : Emitted :=
  let qualified := in_qualified i in
  let sql_rel := quote_qualified qualified in
  let t := table_obs o qualified in
  let names := column_names i in
  let s := new_step (kind_name i) in
  unless_refused (row_target_refused t qualified {| rk_columns := [] |}) s
    (unless_refused (refuse_unwritable_columns i (t_columns t) qualified names) s
       (let rows := Z.of_nat (length (literal_rows i)) in
        let payload := (fun row => JArr ((fun c => default JNull (elements row !! c)) <$> seq 0 (length names)))
                         <$> literal_rows i in
        let step := make (kind_name i) kRequired false
                      [OtherSql ("COPY " +:+ sql_rel +:+ "(" +:+ join ", " (quote_identifier <$> names)
                                 +:+ ") FROM STDIN;")]
                      ("RowExclusiveLock on " +:+ qualified
                       +:+ " for the whole COPY, which is one transaction however long it takes -- there is no batch boundary to release it at")
                      (to_string rows
                       +:+ " rows sent as COPY ... FROM STDIN. Unlike every other row-level kind this one is NOT paced and cannot be: measured on 18.6, a COPY whose second of three rows violated a constraint rolled back all three, so it is a single transaction whatever its size")
                      [("copy_columns", strings_json names); ("copy_rows", JArr payload); ("rows", JInt rows);
                       ("qualified", JStr qualified); ("copy_relation", JStr sql_rel)] in
        {| e_steps := step :: emit_sequence_catchup i (t_columns t) qualified names;
           e_warnings := copy_warnings cfg t qualified rows; e_conflicts := [] |})).

End Dml.
