(* ===== verification/Backfill.v ===== *)
(** * Backfill: one expression applied to many rows (src/cpp/src/planner_dml.h, plan_backfill)

    Which walk a backfill takes — along a key that is unique by itself, along all
    the columns of a unique index that contains it, or group by group — and the
    statements of each, with the pre-image, the upper bound and the single
    statement that is tried first where nothing needs pacing. *)
From S2P Require Import Prelude Json Canonical Spec Quote RowSql Plan Planner Indexes RowPlan Dml.

(** ** Which walk *)
Inductive WalkShape : Type :=
  | Plain
  | CompositeWalk (columns : list string)
  | Grouped (group : string).

Record WalkChoice : Type := { wk_shape : WalkShape; wk_index : string; wk_confined_by : string }.

Section Backfill.
Context `{Vendors, Printing}.

Definition no_group_index (qualified key required confined_by : string) : Refusal :=
  let why := "no unique index on (" +:+ required +:+ ", " +:+ key +:+ ") covers " +:+ qualified in
  {| rf_why := why;
     rf_conflict := why +:+ ". The " +:+ confined_by
       +:+ " reading says row-locking batches on this table must be confined to one value of " +:+ required
       +:+ ", so " +:+ key +:+ " only has to be unique WITHIN one -- which a unique index on (" +:+ required +:+ ", "
       +:+ key +:+ "), in that order, proves. Create it, or walk a key that such an index already covers." |}.

Definition no_walk_index (qualified key unproven : string) : Refusal :=
  {| rf_why := "no unique index proves " +:+ key +:+ " unique";
     rf_conflict := qualified +:+ " has no valid unique index on (" +:+ key +:+ ") alone"
       +:+ (if String.eqb unproven "" then "" else " (" +:+ unproven +:+ ")")
       +:+ ", nor one that contains " +:+ key
       +:+ " over NOT NULL columns only, so a keyset walk could skip or repeat rows. The walk needs a unique index that contains "
       +:+ key +:+ say ": on it alone, or with other columns, which it then follows together. Name as ~key~ a column of such an index, or create one." |}.

(** The cascade of [plan_backfill]: the walk, or why there is none. *)
Definition choose_walk (t : TableObs) (qualified key required confined_by : string) : Refusal + WalkChoice :=
  let proof := unique_key_index t key in
  if String.eqb required "" && kp_proven proof then
    inr {| wk_shape := Plain; wk_index := kp_index proof; wk_confined_by := confined_by |}
  else
    match (if String.eqb required "" then unique_index_containing t key else None) with
    | Some c => inr {| wk_shape := CompositeWalk (cd_columns c); wk_index := cd_index c; wk_confined_by := confined_by |}
    | None =>
        if negb (String.eqb required "") && String.eqb required key then
          inl (confined_to_key qualified key confined_by
                 ("Walk a different key that is unique within one " +:+ key
                  +:+ ", or supply the rows with update_rows, which needs no walk."))
        else
          match unique_group_key_index t key required with
          | Some (g, index) => inr {| wk_shape := Grouped g; wk_index := index; wk_confined_by := confined_by |}
          | None => inl (if String.eqb required "" then no_walk_index qualified key (kp_reason proof)
                         else no_group_index qualified key required confined_by)
          end
    end.

(** ** The parts of the statements *)
Record Parts : Type := {
  bp_sql_rel : string;       (* the quoted relation *)
  bp_rel : string;           (* its own bare name, quoted *)
  bp_key : string;
  bp_key_type : string;
  bp_where : string;
  bp_from : string;
  bp_computed : string;
  bp_select_where : string;
  bp_select_from : string;
  bp_set_list : string;
  bp_and_where : string;
}.

(** [in.body["set"]], in the order of its keys. *)
Definition set_entries (i : Intent) : list (string * string) :=
  (fun kv => (kv.1, match kv.2 with JStr s => s | _ => "" end)) <$> members (at_key (body i) "set").

Definition backfill_parts (i : Intent) (columns : gmap string ColumnObs) : Parts :=
  let where_ := bstr i "where" "" in
  let from := bstr i "from" "" in
  let computed := bstr i "computed" "" in
  let key := bstr i "key" "" in
  {| bp_sql_rel := quote_qualified (in_qualified i); bp_rel := quote_identifier (in_table i); bp_key := key;
     bp_key_type := column_type columns key; bp_where := where_; bp_from := from; bp_computed := computed;
     bp_select_where := bstr i "select_where" where_;
     bp_select_from := (if String.eqb from "" then "" else ", " +:+ from)
                       +:+ (if String.eqb computed "" then "" else ", " +:+ computed);
     bp_set_list := if contains (body i) "apply_set" then bstr i "apply_set" ""
                    else join ", " ((fun kv => quote_identifier kv.1 +:+ " = " +:+ kv.2) <$> set_entries i);
     bp_and_where := if String.eqb computed "" then " AND (" +:+ where_ +:+ ")" else "" |}.

(** [rel.c]. *)
Definition col (p : Parts) (c : string) : string := bp_rel p +:+ "." +:+ quote_identifier c.

(** What the mutation opens and ends with. *)
Definition update_sql (p : Parts) (preserve condition returning : string) : string :=
  preserve +:+ "UPDATE " +:+ bp_sql_rel p +:+ nl
  +:+ "   SET " +:+ bp_set_list p +:+ nl
  +:+ (if String.eqb (bp_from p) "" then "" else "  FROM " +:+ bp_from p +:+ nl)
  +:+ " WHERE " +:+ condition +:+ bp_and_where p +:+ nl
  +:+ "RETURNING " +:+ returning +:+ ";".

(** ** The upper bound of a walk whose new rows are filled by something else *)
Definition walk_columns (p : Parts) (shape : WalkShape) : list string :=
  match shape with CompositeWalk columns => columns | _ => [bp_key p] end.

Definition bounded (i : Intent) (columns : gmap string ColumnObs) (p : Parts) (shape : WalkShape) : bool :=
  bbool i "new_rows_are_filled" false && match shape with Grouped _ => false | _ => true end
  && type_grows (match columns !! default "" (head (walk_columns p shape)) with Some c => c_type c | None => "" end).

Definition mark (n : nat) : string := "$" +:+ to_string (Z.of_nat n).

(** The marks after the cursor's and the limit's. *)
Definition bound_marks (bound : list string) : list string :=
  (fun i => mark (length bound + 2 + i)) <$> seq 0 (length bound).

Definition bound_sql (p : Parts) (bound : list string) : string :=
  let cs := col p <$> bound in
  let ms := bound_marks bound in
  let first := default "" (head ms) in
  if (length bound =? 1)%nat then " AND (" +:+ default "" (head cs) +:+ " <= " +:+ first +:+ " OR " +:+ first +:+ " IS NULL)"
  else " AND ((" +:+ join ", " cs +:+ ") <= (" +:+ join ", " ms +:+ ") OR " +:+ first +:+ " IS NULL)".

Definition bound_detail (p : Parts) (bound : list string) : list (string * json) :=
  let cs := col p <$> bound in
  [("upper_bound_sql", JStr ("SELECT " +:+ join ", " cs +:+ " FROM " +:+ bp_sql_rel p +:+ " ORDER BY "
                             +:+ join ", " ((fun c => c +:+ " DESC") <$> cs) +:+ " LIMIT 1;"));
   ("upper_bound_columns", JInt (Z.of_nat (length bound)))].

(** ** The single statement *)
Definition single_sql (i : Intent) (p : Parts) (shape : WalkShape) : string :=
  if String.eqb (bp_computed p) "" then
    "UPDATE " +:+ bp_sql_rel p +:+ nl +:+ "   SET " +:+ bp_set_list p +:+ nl
    +:+ (if String.eqb (bp_from p) "" then "" else "  FROM " +:+ bp_from p +:+ nl)
    +:+ " WHERE (" +:+ bp_where p +:+ ");"
  else
    let key_columns := match shape with
                       | CompositeWalk columns => columns
                       | Grouped g => [g; bp_key p]
                       | Plain => [bp_key p]
                       end in
    let fresh := quote_identifier "laswell_new" in
    let name prefix n := quote_identifier (prefix +:+ to_string (Z.of_nat n)) in
    let kc c := col p (default "" (key_columns !! c)) in
    let keys := seq 0 (length key_columns) in
    let values := bstrs i "single_values" in
    let cols := bstrs i "single_columns" in
    let news := seq 0 (length cols) in
    let selected := ((fun c => kc c +:+ " AS " +:+ name "k" (S c)) <$> keys)
                    ++ ((fun c => default "" (values !! c) +:+ " AS " +:+ name "n" (S c)) <$> news) in
    let joined := (fun c => kc c +:+ " = " +:+ fresh +:+ "." +:+ name "k" (S c)) <$> keys in
    let assigned := (fun c => default "" (cols !! c) +:+ " = " +:+ fresh +:+ "." +:+ name "n" (S c)) <$> news in
    "UPDATE " +:+ bp_sql_rel p +:+ nl +:+ "   SET " +:+ join ", " assigned +:+ nl
    +:+ "  FROM (SELECT " +:+ join ", " selected +:+ nl
    +:+ "          FROM " +:+ bp_sql_rel p +:+ bp_select_from p +:+ nl
    +:+ "         WHERE (" +:+ bp_select_where p +:+ ")) AS " +:+ fresh +:+ nl
    +:+ " WHERE " +:+ join " AND " joined +:+ ";".

(** ** The statements of each walk *)
Definition plain_walk (p : Parts) (bound : string) (saved : option Preserved) : list Stmt :=
  let k := col p (bp_key p) in
  let key_array := "ANY($1::" +:+ bp_key_type p +:+ "[])" in
  [OtherSql ("SELECT " +:+ k +:+ nl
             +:+ "  FROM " +:+ bp_sql_rel p +:+ bp_select_from p +:+ nl
             +:+ " WHERE " +:+ k +:+ " > $1" +:+ bound +:+ " AND (" +:+ bp_select_where p +:+ ")" +:+ nl
             +:+ " ORDER BY " +:+ k +:+ nl
             +:+ " LIMIT $2" +:+ nl
             +:+ " FOR UPDATE OF " +:+ bp_rel p +:+ ";");
   OtherSql (update_sql p
               (match saved with
                | Some pv => "WITH " +:+ preserve_cte_by_keys pv (bp_sql_rel p) (bp_rel p) (bp_key p) key_array +:+ nl
                | None => ""
                end)
               (k +:+ " = " +:+ key_array) k)].

(** The rows of a composite batch: each column against its own array, and the
    tuple as a filter. *)
Definition in_composite_batch (p : Parts) (columns : gmap string ColumnObs) (key : list string) : string :=
  let cols := col p <$> key in
  let arrays := imap (fun n c => mark (S n) +:+ "::" +:+ column_type columns c +:+ "[]") key in
  join " AND " (zip_with (fun c a => c +:+ " = ANY(" +:+ a +:+ ")") cols arrays)
  +:+ " AND ((" +:+ join ", " cols +:+ ") IN (SELECT * FROM unnest(" +:+ join ", " arrays +:+ "))) IS TRUE".

Definition composite_walk (p : Parts) (columns : gmap string ColumnObs) (key : list string) (bound : string)
    (saved : option Preserved) : list Stmt :=
  let cols := col p <$> key in
  let marks := mark <$> seq 1 (length key) in
  let in_batch := in_composite_batch p columns key in
  [OtherSql ("SELECT " +:+ join ", " cols +:+ nl
             +:+ "  FROM " +:+ bp_sql_rel p +:+ bp_select_from p +:+ nl
             +:+ " WHERE ((" +:+ join ", " cols +:+ ") > (" +:+ join ", " marks +:+ ") OR $1 IS NULL)"
             +:+ bound +:+ " AND (" +:+ bp_select_where p +:+ ")" +:+ nl
             +:+ " ORDER BY " +:+ join ", " cols +:+ nl
             +:+ " LIMIT " +:+ mark (S (length key)) +:+ nl
             +:+ " FOR UPDATE OF " +:+ bp_rel p +:+ ";");
   OtherSql (update_sql p
               (match saved with
                | Some pv => "WITH " +:+ preserve_head pv (bp_rel p)
                             +:+ "    FROM " +:+ bp_sql_rel p +:+ nl
                             +:+ "   WHERE " +:+ in_batch +:+ nl +:+ ")" +:+ nl
                | None => ""
                end)
               in_batch (join ", " cols))].

Definition grouped_walk (p : Parts) (group : string) (saved : option Preserved) : list Stmt :=
  let g := quote_identifier group in
  let k := quote_identifier (bp_key p) in
  let in_batch := "ANY($2::" +:+ bp_key_type p +:+ "[])" in
  group_selects (bp_sql_rel p) (bp_rel p) (bp_select_from p) g k (bp_select_where p)
    (" FOR UPDATE OF " +:+ bp_rel p +:+ ";")
  ++ [OtherSql (update_sql p
                  (match saved with
                   | Some pv => "WITH " +:+ preserve_cte_by_keys pv (bp_sql_rel p) (bp_rel p) (bp_key p)
                                             (in_batch +:+ " AND " +:+ col p group +:+ " = $1") +:+ nl
                   | None => ""
                   end)
                  (col p group +:+ " = $1" +:+ nl +:+ "   AND " +:+ col p (bp_key p) +:+ " = " +:+ in_batch)
                  (col p (bp_key p)))].

(** The statements and what the executor reads to run them. *)
Definition walk_statements (p : Parts) (columns : gmap string ColumnObs) (w : WalkChoice) (bound : string)
    (saved : option Preserved) : list Stmt * list (string * json) :=
  match wk_shape w with
  | CompositeWalk key => (composite_walk p columns key bound saved,
                          [("batch_mode", JStr "composite"); ("key_columns", strings_json key)])
  | Plain => (plain_walk p bound saved, [("batch_mode", JStr "two_statement")])
  | Grouped g => (grouped_walk p g saved,
                  [("batch_mode", JStr "grouped"); ("group_column", JStr g)]
                  ++ (if String.eqb (wk_confined_by w) "" then [] else [("confined_by", JStr (wk_confined_by w))]))
  end.

(** ** The step *)
Definition backfill_why (cfg : PlannerConfig) (key : string) (rows : Z) (w : WalkChoice) (single : bool) : string :=
  let walked := to_string rows +:+ " rows estimated; keyset walk on "
    +:+ match wk_shape w with
        | CompositeWalk columns => "(" +:+ join ", " columns +:+ ") together"
        | _ => key
        end
    +:+ match wk_shape w with Grouped g => " within each " +:+ g | _ => "" end
    +:+ " via " +:+ wk_index w +:+ ", " +:+ to_string (pc_batch_rows cfg)
    +:+ " rows per batch, committing on a lock waiter or " +:+ to_string (pc_commit_interval_ms cfg) +:+ "ms" in
  (if single
   then say "~paced~: false: the first statement is tried alone, over the whole table, in one transaction and without a statement timeout. It keeps every row it writes locked and every old row version in place until it commits, and sends its WAL in one burst. If a session waits behind it for more than "
        +:+ to_string (pc_max_waiter_wait_ms cfg)
        +:+ " ms it is cancelled and rolled back whole, and the walk does the work instead; if it finishes, the walk is not run. The walk: "
        +:+ walked
   else walked)
  +:+ match wk_shape w with
      | Grouped g =>
          if String.eqb (wk_confined_by w) "" then "; grouped because " +:+ key +:+ " is unique only within one " +:+ g
          else "; grouped because the " +:+ wk_confined_by w
               +:+ " reading requires row-locking batches on this table to be confined to one " +:+ g
      | _ => ""
      end.

(** What is saved beside the first key column. *)
Definition backfill_saved (i : Intent) (key : string) (shape : WalkShape) : string * list string :=
  let changed := (set_entries i).*1 in
  match shape with
  | CompositeWalk columns => (default "" (head columns), tail columns ++ changed)
  | _ => (key, changed)
  end.

Definition backfill_detail (i : Intent) (cfg : PlannerConfig) (qualified key key_type : string) (rows : Z) (index : string) :
  list (string * json) :=
  [("key_type", JStr key_type); ("qualified", JStr qualified); ("where", JStr (bstr i "where" ""));
   ("batch_rows", JInt (pc_batch_rows cfg)); ("commit_interval_ms", JInt (pc_commit_interval_ms cfg));
   ("batch_cap_rows", JInt (pc_batch_cap_rows cfg)); ("rows_estimated", JInt rows); ("key", JStr key);
   ("supporting_index", JStr index); ("commits_on", strings_json ["lock_waiter"; "interval"; "batch_cap"])]
  ++ given i "verify_remaining" "verify_runs_on" "worker connection, after the final batch"
  ++ given i "assert_invariants" "invariants_run_on" "the worker connection, before the first batch and after the last. They ask whether the work broke something, which verify_remaining does not: a backfill can complete every row and still halve a total.".

(** The warning where no partial index helps a large table's walk. *)
Definition no_filtered_index (t : TableObs) (qualified key : string) (rows : Z) : list string :=
  if negb (existsb (fun ni => has_sub " WHERE " (i_definition ni.2) && String.eqb (i_leading_column ni.2) key) (indexes_of t))
     && (1000000 <? rows)
  then ["no partial index supports (" +:+ key +:+ ") under the backfill's filter on " +:+ qualified +:+ "; at "
        +:+ to_string rows
        +:+ " estimated rows each batch may rescan already-updated rows. Consider a partial index before running this against a live system."]
  else [].

Definition backfill_lock : string := "RowExclusiveLock plus row locks, released at every commit".

(** The step as it stands before a walk is chosen. *)
Definition backfill_opened (i : Intent) : Step :=
  with_lock backfill_lock (with_class kOwnTxnPerBatch (new_step (kind_name i))).

(** With the pre-image, the upper bound and the single statement noted. *)
Definition backfill_begun (i : Intent) (columns : gmap string ColumnObs) (p : Parts) (shape : WalkShape)
    (pv : option (Step * Preserved)) : Step :=
  let s := preserving pv (backfill_opened i) in
  let s := if bounded i columns p shape then set_details (bound_detail p (walk_columns p shape)) s else s in
  if bbool i "paced" true then s
  else set_detail "single_statement" (JBool true)
         (with_lock "RowExclusiveLock; the one statement holds a row lock on every row it writes until it commits, the walk releases its own at every commit" s).

(** The statements of the walk and the detail that names it. *)
Definition backfill_walk (i : Intent) (columns : gmap string ColumnObs) (w : WalkChoice) (saved : option Preserved) :
  list Stmt * list (string * json) :=
  let p := backfill_parts i columns in
  walk_statements p columns w
    (if bounded i columns p (wk_shape w) then bound_sql p (walk_columns p (wk_shape w)) else "") saved.

Definition backfill_step (i : Intent) (cfg : PlannerConfig) (columns : gmap string ColumnObs) (rows : Z) (w : WalkChoice)
    (pv : option (Step * Preserved)) : Step :=
  let key := bstr i "key" "" in
  let p := backfill_parts i columns in
  let single := negb (bbool i "paced" true) in
  let walked := backfill_walk i columns w (snd <$> pv) in
  with_why (backfill_why cfg key rows w single)
    (set_details (walked.2 ++ backfill_detail i cfg (in_qualified i) key (bp_key_type p) rows (wk_index w))
       (with_sql ((if single then [OtherSql (single_sql i p (wk_shape w))] else []) ++ walked.1)
          (backfill_begun i columns p (wk_shape w) pv))).

Definition backfill_accepted (i : Intent) (cfg : PlannerConfig) (t : TableObs) (rows : Z) (w : WalkChoice) : Emitted :=
  let qualified := in_qualified i in
  let key := bstr i "key" "" in
  let '(first, changed) := backfill_saved i key (wk_shape w) in
  let pv := plan_preserve i (t_columns t) (quote_qualified qualified) first changed in
  {| e_steps := option_list (fst <$> pv) ++ [backfill_step i cfg (t_columns t) rows w pv];
     e_warnings := no_filtered_index t qualified key rows; e_conflicts := [] |}.

(** The first column set that is not there. *)
Definition missing_set_column (i : Intent) (t : TableObs) (qualified : string) : option Refusal :=
  kv ← List.find (fun kv => match t_columns t !! kv.1 with Some _ => false | None => true end) (set_entries i);
  let why := qualified +:+ "." +:+ kv.1 +:+ " does not exist" in
  Some {| rf_why := why;
          rf_conflict := why +:+ "; if an earlier intent in this spec adds it, the backfill must come after that intent, and the planner does not reorder intents." |}.

(** [plan_backfill]. *)
Definition plan_backfill (i : Intent) (o : Observations) (cfg : PlannerConfig) : Emitted :=
  let qualified := in_qualified i in
  let t := table_obs o qualified in
  let key := bstr i "key" "" in
  let s := backfill_opened i in
  let missing := qualified +:+ " does not exist" in
  unless_refused (if t_exists t then None else Some {| rf_why := missing; rf_conflict := missing |}) s
    (unless_refused (missing_set_column i t qualified) s
       (let '(required, confined_by) := required_confinement o qualified in
        match choose_walk t qualified key required confined_by with
        | inl r => refused_with [] [] s r
        | inr w => backfill_accepted i cfg t (table_rows o qualified i) w
        end)).

End Backfill.
