(* ===== verification/AddColumn.v ===== *)
(** * AddColumn: columns and the values of the rows already there (src/cpp/src/planner.h)

    add_column: as it is, catalog-only; with "fill" and no default, added nullable
    with a trigger that fills new rows in the same transaction, a backfill pass for
    every source of a value, NOT NULL last; with a default and a fill, one walk over
    the rows whose value differs. Consecutive columns of one table that do not name
    each other share the recipe. *)
From S2P Require Import Prelude Json Canonical Spec Quote RowSql Plan Planner Indexes RowPlan Dml Backfill.

(** ** Columns planned together *)
Record FillSource : Type := { fill_from : string; fill_on : string; fill_value : string }.

Definition fill_sources (body : json) : list FillSource :=
  let plain s := {| fill_from := ""; fill_on := ""; fill_value := s |} in
  if contains body "fill" then
    match at_key body "fill" with
    | JStr s => [plain s]
    | v => (fun src => match src with
                       | JStr s => plain s
                       | _ => {| fill_from := text_at src "from"; fill_on := text_at src "on";
                                 fill_value := text_at src "value" |}
                       end) <$> elements v
    end
  else [].

Fixpoint concat_text (l : list string) : string :=
  match l with [] => "" | s :: l' => s +:+ concat_text l' end.

Definition fill_text (body : json) : string :=
  concat_text ((fun s => fill_from s +:+ " " +:+ fill_on s +:+ " " +:+ fill_value s +:+ " ") <$> fill_sources body).

Definition ident_char (c : ascii) : bool := is_alnum c || Ascii.eqb c "_".

(** [names_word], from a position whose character before is [prev]. *)
Fixpoint names_word_from (prev : option ascii) (text word : string) : bool :=
  (String.prefix word text && negb (match prev with Some c => ident_char c | None => false end)
   && negb (match skip (String.length word) text with String c _ => ident_char c | EmptyString => false end))
  || match text with EmptyString => false | String c text' => names_word_from (Some c) text' word end.

Definition names_word (text word : string) : bool := names_word_from None text word.

Definition defaulted (i : Intent) : bool :=
  contains (body i) "default" && match at_key (body i) "default" with JNull => false | _ => true end.

Definition fills (i : Intent) : bool := bool_decide (kind i = kAddColumn) && contains (body i) "fill".

Definition entangled (group : list Intent) (next : Intent) : bool :=
  existsb (fun g => names_word (fill_text (body next)) (bstr g "column" "")
                    || names_word (fill_text (body g)) (bstr next "column" "")) group.

Definition joins_group (lead : Intent) (group : list Intent) (next : Intent) : bool :=
  fills next && Bool.eqb (defaulted next) (defaulted lead)
  && String.eqb (in_qualified next) (in_qualified lead)
  && String.eqb (bstr next "after" "") (bstr lead "after" "")
  && String.eqb (bstr next "key" "") (bstr lead "key" "")
  && Bool.eqb (bbool next "paced" true) (bbool lead "paced" true)
  && negb (entangled group next).

Fixpoint group_with (lead : Intent) (group rest : list Intent) : list Intent :=
  match rest with
  | [] => group
  | next :: rest' => if joins_group lead group next then group_with lead (group ++ [next]) rest' else group
  end.

(** [filled_column_group], the intents from the lead on. *)
Definition filled_column_group (lead : Intent) (rest : list Intent) : list Intent :=
  if fills lead then group_with lead [lead] rest else [].


(** ** Sources of a value *)
Definition joined (s : FillSource) : bool := negb (String.eqb (fill_from s) "").

(** [fill_expression]: what the trigger evaluates over the row. *)
Definition source_expression (s : FillSource) : string :=
  if joined s then "(SELECT (" +:+ fill_value s +:+ ") FROM " +:+ fill_from s +:+ " WHERE " +:+ fill_on s +:+ ")"
  else fill_value s.

Definition fill_expression (sources : list FillSource) : string :=
  match sources with
  | [s] => source_expression s
  | _ => "COALESCE(" +:+ join ", " (source_expression <$> sources) +:+ ")"
  end.

(** [fill_described]. *)
Definition fill_described (sources : list FillSource) : string :=
  join ", then " ((fun s => if joined s then "(" +:+ fill_value s +:+ ") from " +:+ fill_from s +:+ " on " +:+ fill_on s
                            else "(" +:+ fill_value s +:+ ")") <$> sources).

(** [fill_has_subquery]: the word select in a source that is an expression. *)
Definition fill_has_subquery (body : json) : bool :=
  existsb (fun s => negb (joined s) && names_word (lower_text (fill_value s)) "select") (fill_sources body).

(** [warn_about_looked_up_fills]. *)
Definition warn_about_looked_up_fills (group : list Intent) (qualified : string) : list string :=
  match (fun g => bstr g "column" "") <$> List.filter (fun g => fill_has_subquery (body g)) group with
  | [] => []
  | which =>
      [qualified +:+ ": the fill of " +:+ join ", " which
       +:+ say " is a subquery, so it is evaluated row by row: once for every row the walk reads to find a batch, whether or not that row takes a value, and once more for every row it writes. On a large table that is the cost of the walk. A source written as {~from~, ~on~, ~value~} is planned as one join for the batch instead; it needs the other table to hold at most one row for each row of this one. ~paced~: false fills in a single statement where nothing else is using the table."]
  end.

(** [default_fill_key]: a column of the primary key, of several the first that a
    module does not confine batches to. *)
Definition key_of_primary (confined : string) (ix : IndexObs) : option string :=
  let keys := index_key_count ix in
  if i_is_primary ix
  then head (List.filter (fun c => negb ((1 <? keys)%nat && String.eqb c confined)) (take keys (i_columns ix)))
  else None.

Definition default_fill_key `{Vendors} (o : Observations) (qualified : string) : string :=
  let confined := (required_confinement o qualified).1 in
  default "" (head (omap (fun ni : string * IndexObs => key_of_primary confined ni.2) (indexes_of (table_obs o qualified)))).

(** The key a fill walks: as the specification names it, or the default. *)
Definition fill_key `{Vendors} (i : Intent) (o : Observations) : string :=
  first_text (bstr i "key" "") (default_fill_key o (in_qualified i)).

Definition no_key_to_walk (i : Intent) (columns : string) : Emitted :=
  let why := in_qualified i +:+ " has no primary key to walk while filling " +:+ columns
             +:+ say ". Name in ~key~ a column that is unique, or that a unique index over NOT NULL columns contains." in
  refuse i why why.

(** ** What an intent leaves for the recipes composed with it *)
Definition adding_column (qualified column : string) (c : ColumnObs) (o : Observations) : Observations :=
  let t := table_obs o qualified in
  with_tables (<[qualified := with_columns (<[column := c]> (t_columns t)) t]> (o_tables o)) o.

Definition adding_trigger (qualified trigger : string) (o : Observations) : Observations :=
  let t := table_obs o qualified in
  with_tables (<[qualified := with_triggers (<[trigger := true]> (t_triggers t)) t]> (o_tables o)) o.

(** Emissions one after the other; a refused one is the last. *)
Definition and_emit (e e' : Emitted) : Emitted :=
  {| e_steps := e_steps e ++ e_steps e'; e_warnings := e_warnings e ++ e_warnings e';
     e_conflicts := e_conflicts e ++ e_conflicts e' |}.

Definition is_refused (e : Emitted) : bool := existsb (fun s => bool_decide (st_action s = kConflict)) (e_steps e).

Definition unless_stopped (e : Emitted) (rest : Emitted) : Emitted := if is_refused e then e else and_emit e rest.

Definition warn (ws : list string) : Emitted := {| e_steps := []; e_warnings := ws; e_conflicts := [] |}.

(** ** Step 1: the columns and the trigger *)
Definition filler (i : Intent) : string := in_table i +:+ "_" +:+ bstr i "column" "" +:+ "_laswell_fill".

(** A dollar quote's tag that none of the text holds. *)
Fixpoint free_tag (fuel : nat) (tag text : string) : string :=
  match fuel with
  | O => tag
  | S fuel' => if has_sub ("$" +:+ tag +:+ "$") text then free_tag fuel' (tag +:+ "_") text else tag
  end.

Definition group_text (group : list Intent) : string := concat_text ((fun g => fill_text (body g)) <$> group).

Definition fill_tag (group : list Intent) : string :=
  free_tag (S (String.length (group_text group))) "laswell_fill" (group_text group).

Definition column_name (g : Intent) : string := bstr g "column" "".

Definition add_nullable (qualified : string) (g : Intent) : list Stmt :=
  [AddColumn qualified (column_name g) (bstr g "type" "");
   CommentOn ("COLUMN " +:+ quote_qualified qualified +:+ "." +:+ quote_identifier (column_name g)) (bstr g "comment" "")].

(** What the trigger's function does, column after column. *)
Definition fill_body (group : list Intent) : list (FillStmt (list FillSource)) :=
  (fun g => IfNull (column_name g) (SelectInto (column_name g) (fill_sources (body g)))) <$> group.

(** The columns [missing] of the group, and the trigger where it is not there. *)
Definition fill_statements (i : Intent) (group missing : list Intent) (has_trigger : bool) : list Stmt :=
  (missing ≫= add_nullable (in_qualified i))
  ++ FillFunction (in_schema i) (filler i) (fill_tag group) (quote_identifier (in_table i))
       (fill_stmt_map fill_expression <$> fill_body group)
  :: (if has_trigger then [] else [FillTrigger (in_qualified i) (filler i) (in_schema i)]).

Definition plural (group : list Intent) (one many : string) : string := if (length group =? 1)%nat then one else many.

Definition fill_step (i : Intent) (group missing : list Intent) (has_trigger : bool) : Step :=
  let qualified := in_qualified i in
  let there := bool_decide (missing = []) in
  weaker_lock_first [qualified]
    (make (kind_name i) kRequired true (fill_statements i group missing has_trigger)
       (if there then "ShareRowExclusiveLock on " +:+ qualified +:+ " -- blocks writes, not reads"
        else "AccessExclusiveLock on " +:+ qualified +:+ ", briefly: a nullable column with no default is catalog-only")
       (if there then
          plural group "the column is" "the columns are" +:+ " there, nullable, without the trigger that fills "
          +:+ plural group "it" "them" +:+ ": an earlier attempt was interrupted, or "
          +:+ plural group "the column was" "they were"
          +:+ " added by hand. The trigger first, so no row arrives without a value while the rest runs"
        else
          "step 1: " +:+ plural group "the column is added nullable"
                           (to_string (Z.of_nat (length group)) +:+ " columns are added nullable")
          +:+ " -- catalog-only, no rewrite -- and, in the same transaction, "
          +:+ plural group "a trigger that fills it" "ONE trigger that fills them"
          +:+ " for every row inserted or updated from this commit on. NOT NULL comes last, when every row has a value")
       [("trigger", JStr (filler i)); ("columns", strings_json (column_name <$> group));
        ("expected", JStr "metadata only, no table rewrite")]).

(** [drop_filler]. *)
Definition drop_filler (i : Intent) (why : string) : Step :=
  weaker_lock_first [in_qualified i]
    (make (kind_name i) kRequired true
       [DropTrigger (in_qualified i) (filler i); DropFillFunction (in_schema i) (filler i)]
       ("AccessExclusiveLock on " +:+ in_qualified i +:+ ", briefly") why [("trigger", JStr (filler i))]).

(** ** Step 2: the rows that were already there *)

(** One pass of a round: the relation it joins, and the columns it fills. *)
Record Pass : Type := { ps_round : nat; ps_from : string; ps_on : string; ps_columns : list Intent }.

(** A column joins the pass over the same relation, or begins one. *)
Fixpoint add_to_passes (round : nat) (src : FillSource) (g : Intent) (l : list Pass) : list Pass :=
  match l with
  | [] => [{| ps_round := round; ps_from := fill_from src; ps_on := fill_on src; ps_columns := [g] |}]
  | p :: l' =>
      if String.eqb (ps_from p) (fill_from src) && String.eqb (ps_on p) (fill_on src)
      then {| ps_round := ps_round p; ps_from := ps_from p; ps_on := ps_on p; ps_columns := ps_columns p ++ [g] |} :: l'
      else p :: add_to_passes round src g l'
  end.

Definition source_at (round : nat) (g : Intent) : option FillSource := fill_sources (body g) !! round.

Definition passes_of_round (pending : list Intent) (round : nat) : list Pass :=
  foldl (fun l g => match source_at round g with Some src => add_to_passes round src g l | None => l end) [] pending.

Definition fill_rounds (pending : list Intent) : nat :=
  foldr (fun g n => Nat.max (length (fill_sources (body g))) n) 0%nat pending.

Definition fill_passes (pending : list Intent) : list Pass := seq 0 (fill_rounds pending) ≫= passes_of_round pending.

(** One column, one plain expression. *)
Definition simple_fill (pending : list Intent) : bool :=
  match pending with
  | [g] => match fill_sources (body g) with [s] => negb (joined s) | _ => false end
  | _ => false
  end.

Definition pass_joined (p : Pass) : bool := negb (String.eqb (ps_from p) "").

(** The value a pass gives a column. *)
Definition pass_value (p : Pass) (g : Intent) : string := default "" (fill_value <$> source_at (ps_round p) g).

Definition own_column (i : Intent) (column : string) : string :=
  quote_identifier (in_table i) +:+ "." +:+ quote_identifier column.

(** What a pass sets a column to: the value, or the value where the column has none.
    What its predicate asks of a column: that it is NULL, and where the pass joins a
    relation that the value is not. *)
Inductive SetTo : Type :=
  | Value (value : string)
  | CoalesceOwn (column value : string).

Inductive Wanted : Type :=
  | StillNull (column : string)
  | NullAndGiven (column value : string).

Definition set_text (i : Intent) (e : SetTo) : string :=
  match e with
  | Value value => "(" +:+ value +:+ ")"
  | CoalesceOwn column value => "COALESCE(" +:+ own_column i column +:+ ", (" +:+ value +:+ "))"
  end.

Definition wanted_text (i : Intent) (w : Wanted) : string :=
  match w with
  | StillNull column => own_column i column +:+ " IS NULL"
  | NullAndGiven column value => "(" +:+ own_column i column +:+ " IS NULL AND (" +:+ value +:+ ") IS NOT NULL)"
  end.

Definition pass_sets (simple : bool) (p : Pass) : list (string * SetTo) :=
  (fun g => (column_name g, if simple then Value (pass_value p g) else CoalesceOwn (column_name g) (pass_value p g)))
    <$> ps_columns p.

Definition pass_wants (p : Pass) : list Wanted :=
  (fun g => if pass_joined p then NullAndGiven (column_name g) (pass_value p g) else StillNull (column_name g))
    <$> ps_columns p.

Definition pass_set (i : Intent) (simple : bool) (p : Pass) : list (string * json) :=
  foldl (fun l ce => set_key ce.1 (JStr (set_text i ce.2)) l) [] (pass_sets simple p).

Definition pass_terms (i : Intent) (p : Pass) : list string := wanted_text i <$> pass_wants p.

(** The backfill an add_column composes, with the keys only the planner writes. *)
Definition composed_backfill (i : Intent) (key : string) (set : list (string * json)) (more : list (string * json)) : Intent :=
  {| kind := kBackfill; kind_name := "backfill"; ordinal := ordinal i;
     body := JObj ([("schema", JStr (in_schema i)); ("table", JStr (in_table i)); ("key", JStr key); ("set", JObj set)]
                   ++ more ++ (if bbool i "paced" true then [] else [("paced", JBool false)])) |}.

Definition pass_intent (i : Intent) (key : string) (simple : bool) (p : Pass) : Intent :=
  let terms := join " OR " (pass_terms i p) in
  composed_backfill i key (pass_set i simple p)
    (("new_rows_are_filled", JBool true)
     :: (if pass_joined p then [("from", JStr (ps_from p)); ("where", JStr ("(" +:+ ps_on p +:+ ") AND (" +:+ terms +:+ ")"))]
         else [("where", JStr terms)])).

(** What the steps of a pass say beside the backfill's own words. *)
Definition told_of_pass (rounds : nat) (p : Pass) (s : Step) : Step :=
  if (1 <? rounds)%nat || pass_joined p then
    set_detail "fill_source" (JInt (Z.of_nat (S (ps_round p))))
      (with_why ("source " +:+ to_string (Z.of_nat (S (ps_round p))) +:+ " of " +:+ to_string (Z.of_nat rounds) +:+ " for "
                 +:+ join ", " (column_name <$> ps_columns p)
                 +:+ (if pass_joined p then ": joined to " +:+ ps_from p +:+ " on " +:+ ps_on p
                      else ": an expression over the row")
                 +:+ ", over the rows still null. " +:+ st_why s) s)
  else s.

(** Steps changed, the rest as it is. *)
Definition on_steps (f : Step -> Step) (e : Emitted) : Emitted :=
  {| e_steps := f <$> e_steps e; e_warnings := e_warnings e; e_conflicts := e_conflicts e |}.

Section Filled.
Context `{Vendors, Printing}.

(** A pass's steps; a refused backfill keeps its own words. *)
Definition plan_pass (i : Intent) (key : string) (simple : bool) (rounds : nat) (o : Observations) (cfg : PlannerConfig)
    (p : Pass) : Emitted :=
  let e := plan_backfill (pass_intent i key simple p) o cfg in
  if is_refused e then e else on_steps (told_of_pass rounds p) e.

Fixpoint plan_passes (i : Intent) (key : string) (simple : bool) (rounds : nat) (o : Observations) (cfg : PlannerConfig)
    (l : list Pass) (rest : Emitted) : Emitted :=
  match l with
  | [] => rest
  | p :: l' => unless_stopped (plan_pass i key simple rounds o cfg p) (plan_passes i key simple rounds o cfg l' rest)
  end.

(** ** Step 3: NOT NULL *)

(** [make] of the recipe for several columns. *)
Definition shared_step (i : Intent) (group : list Intent) (q : Stmt) (lock why : string) : Step :=
  let step := make "set_not_null" kRequired true [q] lock why
                [("columns", strings_json (column_name <$> group)); ("qualified", JStr (in_qualified i))] in
  if has_sub "VALIDATE CONSTRAINT" (render q) then step else weaker_lock_first [in_qualified i] step.

(** The check's name: the first column's. *)
Definition shared_check (i : Intent) : string := in_table i +:+ "_" +:+ bstr i "column" "" +:+ "_laswell_nn".

(** One check over all the columns, one scan, one statement. *)
Definition shared_not_null (i : Intent) (group pending : list Intent) (have : ConstraintState) : list Step :=
  let qualified := in_qualified i in
  let check := shared_check i in
  let n := to_string (Z.of_nat (length pending)) in
  let terms := (fun g => quote_identifier (column_name g) +:+ " IS NOT NULL") <$> pending in
  let set_nn := shared_step i group (SetNotNulls qualified (column_name <$> pending)) "AccessExclusiveLock, but no scan"
    "still an exclusive lock, but PostgreSQL skips the scan for every column: the validated check proves each has no nulls (measured: both of two columns in one statement, 4 ms on 6 million rows, against 344 ms for one bare SET NOT NULL)" in
  (if bool_decide (have = kAbsent)
   then [shared_step i group (AddCheck qualified check (join " AND " terms) true) exclusive_briefly
           ("one check over all " +:+ n +:+ " columns, NOT VALID: no scan, so the exclusive lock is held for the catalog change only")]
   else [])
  ++ (if bool_decide (have = kValid) then []
      else [do_not_rehearse not_rehearsed_text false
              (shared_step i group (ValidateConstraint qualified check) weak_lock
                 ("the ONE scan for all " +:+ n
                  +:+ " columns, under a lock that lets the application keep working. Its own transaction, or the lock of the step before would be held across it"))])
  ++ [if bool_decide (have = kValid) then set_nn else do_not_rehearse needs_the_scan_text true set_nn]
  ++ [shared_step i group (DropConstraint qualified check) "AccessExclusiveLock, briefly"
        "the check is redundant once the columns are NOT NULL, and a redundant constraint costs time on every insert"].

(** The set_not_null an add_column composes. *)
Definition composed_not_null (i g : Intent) : Intent :=
  {| kind := kSetNotNull; kind_name := "set_not_null"; ordinal := ordinal i;
     body := JObj [("schema", JStr (in_schema i)); ("table", JStr (in_table i)); ("column", JStr (column_name g))] |}.

Definition emit_all (l : list Emitted) : Emitted := foldr and_emit (warn []) l.

Definition fill_not_null (i : Intent) (group pending : list Intent) (t : TableObs) (after : Observations) : Emitted :=
  let together := (1 <? length pending)%nat
                  && match constraint_traits after (in_qualified i) with
                     | Some (_, tr) => ct_separate_validation tr
                     | None => true
                     end in
  if together then emit (shared_not_null i group pending (constraint_state t (shared_check i)))
  else emit_all ((fun g => plan_set_not_null (composed_not_null i g) after) <$> pending).

(** ** The recipe *)
Definition fill_warnings (i : Intent) (group : list Intent) : list string :=
  let sources := (fun g => column_name g +:+ " from " +:+ fill_described (fill_sources (body g))) <$> group in
  (if existsb (fun g => existsb joined (fill_sources (body g))) group
   then [say "a source's ~on~ must match at most one row of its table. The trigger takes the value by a subquery and FAILS the write when two rows match (~more than one row returned by a subquery~); the backfill joins, and takes one of them without saying which. A unique key on what ~on~ compares is what makes the two agree. The value is copied when the row is written: a later change in the other table does not follow."]
   else [])
  ++ [in_qualified i +:+ ": " +:+ join "; " sources +:+ " -- filled by trigger " +:+ filler i
      +:+ " for rows written from step 1 on and by a backfill for the rest. A row for which no source gives a value stays null, and the VALIDATE before SET NOT NULL then fails on it: the job stops there with the column nullable and the trigger in place, and the same specification resumes once the row is repaired. The dry run does not look for such a row.";
      "trigger " +:+ filler i +:+ " and its function are created by this plan in schema " +:+ in_schema i
      +:+ ", and run as the role writing the row: names inside an expression resolve through that role's search_path, so qualify what it calls. The row's own columns are written bare or as "
      +:+ in_table i +:+ ".<column>."].

(** Step 4. *)
Definition fill_end (i : Intent) (group : list Intent) : Emitted :=
  if String.eqb (bstr i "after" "") "drop_trigger" then
    emit [drop_filler i ("last step: NOT NULL is set and the application writes " +:+ plural group "the column" "the columns"
                         +:+ say " itself (~after~: ~drop_trigger~), so the trigger and its function go. An insert that does not supply "
                         +:+ plural group "it" "them" +:+ " fails from here on")]
  else warn ["trigger " +:+ filler i +:+ say " STAYS (~after~: ~keep_trigger~): it runs on every insert and update of "
             +:+ in_qualified i +:+ " until a later specification drops it with drop_trigger and drop_function."].

(** What is left of each column: those missing and those still nullable, or the
    first whose type differs. *)
Fixpoint fill_state (qualified : string) (columns : gmap string ColumnObs) (group : list Intent) :
  string + (list Intent * list Intent) :=
  match group with
  | [] => inr ([], [])
  | g :: group' =>
      match columns !! column_name g with
      | None =>
          match fill_state qualified columns group' with
          | inr (missing, pending) => inr (g :: missing, g :: pending)
          | inl why => inl why
          end
      | Some c =>
          let type := bstr g "type" "" in
          if negb (String.eqb (c_type c) type) && negb (String.eqb type "") then
            inl (qualified +:+ "." +:+ column_name g +:+ " exists as " +:+ c_type c +:+ ", spec declares " +:+ type)
          else
            match fill_state qualified columns group' with
            | inr (missing, pending) => inr (missing, if c_not_null c then pending else g :: pending)
            | inl why => inl why
            end
      end
  end.

(** The recipe finished, or all of it but its last step. *)
Definition fill_finished (i : Intent) (group : list Intent) (t : TableObs) (has_trigger : bool) : Emitted :=
  let names := column_name <$> group in
  if String.eqb (bstr i "after" "") "drop_trigger" && has_trigger then
    emit [drop_filler i (join ", " names +:+ plural group " is" " are" +:+ " NOT NULL and the trigger that filled "
                         +:+ plural group "it" "them"
                         +:+ " is still there: an earlier attempt stopped before dropping it")]
  else
    satisfied i (plural group
      ("column already present as "
       +:+ default "" (c_type <$> (t_columns t !! default "" (head names))) +:+ " NOT NULL")
      ("columns " +:+ join ", " names +:+ " already present, NOT NULL")).

(** The steps of an accepted recipe, [key] the one it walks. *)
Definition fill_recipe (i : Intent) (group missing pending : list Intent) (t : TableObs) (has_trigger : bool) (key : string)
    (o : Observations) (cfg : PlannerConfig) : Emitted :=
  let qualified := in_qualified i in
  let first := if bool_decide (missing = []) && has_trigger then [] else [fill_step i group missing has_trigger] in
  let after := adding_trigger qualified (filler i)
                 (foldl (fun o g => adding_column qualified (column_name g) (plain_column (bstr g "type" "") false) o)
                        o missing) in
  and_emit (emit first)
    (plan_passes i key (simple_fill pending) (fill_rounds pending) after cfg (fill_passes pending)
       (and_emit (fill_not_null i group pending t after)
          (and_emit (warn (fill_warnings i group)) (fill_end i group)))).

(** [plan_add_columns_filled]. *)
Definition plan_add_columns_filled (group : list Intent) (o : Observations) (cfg : PlannerConfig) : Emitted :=
  match group with
  | [] => emit []
  | i :: _ =>
      let qualified := in_qualified i in
      let t := table_obs o qualified in
      let names := join ", " (column_name <$> group) in
      if negb (t_exists t) then
        let why := qualified +:+ " does not exist, so " +:+ names +:+ " cannot be added to it" in refuse i why why
      else
        match fill_state qualified (t_columns t) group with
        | inl why => refuse i why why
        | inr (missing, pending) =>
            let has_trigger := bool_decide (filler i ∈ dom (t_triggers t)) in
            if bool_decide (pending = []) then fill_finished i group t has_trigger
            else
              let key := fill_key i o in
              if String.eqb key "" then no_key_to_walk i names
              else fill_recipe i group missing pending t has_trigger key o cfg
        end
  end.

End Filled.

(** ** A default and a fill *)

(** [join]: one joined source, the same for every column. *)
Definition one_join (group : list Intent) : option FillSource :=
  match group with
  | [] => None
  | i :: _ =>
      match fill_sources (body i) with
      | [s] =>
          if joined s && forallb (fun g => match fill_sources (body g) with
                                           | [s'] => joined s' && String.eqb (fill_from s') (fill_from s)
                                                     && String.eqb (fill_on s') (fill_on s)
                                           | _ => false
                                           end) group
          then Some s else None
      | _ => None
      end
  end.

(** The texts of one column, the [n]th of the group. *)
Record Defaulted : Type := {
  df_column : string;
  df_set : string;
  df_any : string;          (** still holds the default, and there is another value *)
  df_described : string;
  df_named_value : string;  (** the same over the value computed once *)
  df_any_named : string;
  df_taken : string;
}.

Definition fill_alias : string := quote_identifier "laswell_fill".

(** The default's text; [None] is the exception of [get<std::string>] on a default
    that is no string, which no parser excludes. *)
Definition default_text (i : Intent) : option string :=
  if defaulted i then match at_key (body i) "default" with JStr s => Some s | _ => None end else Some "".

Definition defaulted_column (i : Intent) (alone join_ : bool) (n : nat) (gd : Intent * string) : Defaulted :=
  let g := gd.1 in
  let c := own_column i (column_name g) in
  let dflt := "(" +:+ gd.2 +:+ ")" in
  let sources := fill_sources (body g) in
  let value := if join_ then default "" (fill_value <$> head sources) else fill_expression sources in
  let differs := c +:+ " IS NOT DISTINCT FROM " +:+ dflt +:+ " AND (" +:+ value +:+ ") IS NOT NULL AND (" +:+ value
                 +:+ ") IS DISTINCT FROM " +:+ dflt in
  let name := quote_identifier ("v" +:+ to_string (Z.of_nat (S n))) in
  let v := fill_alias +:+ "." +:+ name in
  let named := c +:+ " IS NOT DISTINCT FROM " +:+ dflt +:+ " AND " +:+ v +:+ " IS NOT NULL AND " +:+ v
               +:+ " IS DISTINCT FROM " +:+ dflt in
  let only s := if alone then s else "(" +:+ s +:+ ")" in
  {| df_column := column_name g;
     df_set := if alone then "(" +:+ value +:+ ")"
               else "CASE WHEN " +:+ differs +:+ " THEN (" +:+ value +:+ ") ELSE " +:+ c +:+ " END";
     df_any := only differs;
     df_described := column_name g +:+ " (default " +:+ dflt +:+ ") from " +:+ fill_described sources;
     df_named_value := "(" +:+ value +:+ ") AS " +:+ name;
     df_any_named := only named;
     df_taken := "CASE WHEN " +:+ named +:+ " THEN " +:+ v +:+ " ELSE " +:+ c +:+ " END" |}.

Section Defaulted.
Context `{Vendors, Printing}.

Definition defaulted_intent (i : Intent) (key : string) (join_ : option FillSource) (l : list Defaulted) : Intent :=
  let alone := (length l =? 1)%nat in
  let any := join " OR " (df_any <$> l) in
  let set := foldl (fun s d => set_key (df_column d) (JStr (df_set d)) s) [] l in
  let columns := (fun d => quote_identifier (df_column d)) <$> l in
  composed_backfill i key set
    (match join_ with
     | Some s => [("from", JStr (fill_from s));
                  ("where", JStr ("(" +:+ fill_on s +:+ ") AND " +:+ (if alone then any else "(" +:+ any +:+ ")")))]
     | None =>
         let once := "(SELECT " +:+ join ", " (df_named_value <$> l) +:+ " OFFSET 0) AS " +:+ fill_alias in
         [("where", JStr any); ("computed", JStr ("LATERAL " +:+ once));
          ("select_where", JStr (join " OR " (df_any_named <$> l)));
          ("apply_set",
            JStr (if alone then default "" (head columns) +:+ " = " +:+ default "" (head (df_set <$> l))
                  else "(" +:+ join ", " columns +:+ ") = (SELECT " +:+ join ", " (df_taken <$> l) +:+ " FROM "
                       +:+ once +:+ ")"));
          ("single_columns", strings_json columns); ("single_values", strings_json (df_taken <$> l))]
     end).

Definition defaulted_warning (i : Intent) (l : list Defaulted) : string :=
  in_qualified i +:+ ": " +:+ join "; " (df_described <$> l) +:+ " -- NOT NULL with "
  +:+ (if (length l =? 1)%nat then "its default" else "their defaults")
  +:+ " from the first step, and no trigger is created. A row written from then on gets the default unless the application supplies a value; the backfill writes a column only while it still holds the default, so a value the application wrote is kept -- and a row it deliberately set to the default is indistinguishable from one it never set, and is given the computed value. A row no source has a value for keeps the default.".

(** [plan_defaulted_fill]. *)
Definition plan_defaulted_fill (group : list Intent) (o : Observations) (cfg : PlannerConfig) : option Emitted :=
  match group with
  | [] => Some (emit [])
  | i :: _ =>
      let key := fill_key i o in
      if String.eqb key "" then Some (no_key_to_walk i (column_name i))
      else
        defaults ← mapM default_text group;
        let join_ := one_join group in
        let alone := (length group =? 1)%nat in
        let l := imap (defaulted_column i alone (bool_decide (is_Some join_))) (zip group defaults) in
        let e := plan_backfill (defaulted_intent i key join_ l) o cfg in
        Some (if is_refused e then e
        else
          and_emit
            (on_steps (fun s => with_why ("only the rows whose value differs from the default are written: "
                                          +:+ join "; " (df_described <$> l) +:+ ". " +:+ st_why s) s) e)
            (warn (warn_about_looked_up_fills group (in_qualified i) ++ [defaulted_warning i l])))
  end.

(** ** A column by itself *)

(** [calls_a_function]: a parenthesis outside a quoted string. *)
Fixpoint calls_from (quoted : bool) (expr : string) : bool :=
  match expr with
  | EmptyString => false
  | String c expr' =>
      let quoted := if Ascii.eqb c "'" then negb quoted else quoted in
      (Ascii.eqb c "(" && negb quoted) || calls_from quoted expr'
  end.

Definition calls_a_function (expr : string) : bool := calls_from false expr.

Definition not_visible_warning (qualified column : string) (views : list string) : list string :=
  match views with
  | [] => []
  | _ => [qualified +:+ "." +:+ column +:+ " will not be visible through " +:+ to_string (Z.of_nat (length views))
          +:+ " view(s) that read this table: " +:+ join ", " views
          +:+ ". A view stores its column list when it is created -- SELECT * is expanded then and there -- so adding a column never reaches one. Expose it with a replace_view intent per view that should carry it; PostgreSQL will not warn, and the column will simply be absent for anything reading through the view."]
  end.

Definition volatile_warning (qualified column text : string) : string :=
  qualified +:+ "." +:+ column +:+ " takes the default " +:+ text
  +:+ say ", which calls a function. PostgreSQL keeps a default in the catalog when it is not volatile -- measured: a constant, and now() -- and REWRITES the whole table under AccessExclusiveLock when it is: measured, gen_random_uuid(). pg_laswell does not know which this is. SELECT proname, provolatile FROM pg_proc WHERE proname = '<the function>' says: 'v' is volatile. For a volatile value on a table of any size, add the column without the default and give the value as ~fill~.".

(** The statements of a column that is not there. *)
Definition add_plain (i : Intent) (text : string) : list Stmt :=
  let qualified := in_qualified i in
  [AddColumn qualified (column_name i)
     (bstr i "type" "" +:+ (if defaulted i then " DEFAULT " +:+ text else "")
      +:+ (if bbool i "nullable" true then "" else " NOT NULL"));
   CommentOn ("COLUMN " +:+ quote_qualified qualified +:+ "." +:+ quote_identifier (column_name i)) (bstr i "comment" "")].

(** The step with the statements, refused for want of a default. *)
Definition plan_absent_column (i : Intent) (text : string) (views : list string) : Emitted :=
  let qualified := in_qualified i in
  let column := column_name i in
  let has_default := defaulted i in
  let calls := has_default && calls_a_function text in
  let ws := not_visible_warning qualified column views in
  let made why detail := make (kind_name i) kRequired false (add_plain i text) "AccessExclusiveLock" why detail in
  if negb (bbool i "nullable" true) && negb has_default then
    {| e_steps := [with_action kConflict "NOT NULL with no default requires every existing row to be non-null" (made "" [])];
       e_warnings := ws;
       e_conflicts := [qualified +:+ "." +:+ column
         +:+ say " is declared NOT NULL with no default; on a non-empty table that fails outright. Give the value as ~fill~ -- one expression over the row's own columns, with ~after~ saying what becomes of the trigger -- and the plan adds the column nullable, fills new rows by trigger and existing ones by a paced backfill, and sets NOT NULL last. Or give a ~default~, which is catalog-only."] |}
  else
    {| e_steps :=
         [made (if negb has_default then "column absent; nullable with no default is catalog-only"
                else if negb calls then "column absent; a constant default is catalog-only on PG 11+"
                else "column absent; the default calls a function, and is catalog-only on PG 11+ only if that function is not volatile")
            [("expected", JStr (if calls then "metadata only, unless the default is volatile"
                                else "metadata only, no table rewrite"))]];
       e_warnings := ws ++ (if calls then [volatile_warning qualified column text] else []); e_conflicts := [] |}.

(** [plan_add_column_plain]. *)
Definition plan_add_column_plain (i : Intent) (o : Observations) : option Emitted :=
  let qualified := in_qualified i in
  let t := table_obs o qualified in
  let column := column_name i in
  let type := bstr i "type" "" in
  let s := with_lock "AccessExclusiveLock" (with_class kRequired (new_step (kind_name i))) in
  let conflict why text := refused_with [] [] s {| rf_why := why; rf_conflict := text |} in
  if negb (t_exists t) then
    Some (conflict (qualified +:+ " does not exist")
            (qualified +:+ " does not exist, so " +:+ column +:+ " cannot be added to it"))
  else
    match t_columns t !! column with
    | Some c =>
        let differs := qualified +:+ "." +:+ column +:+ " exists as " +:+ c_type c +:+ ", spec declares " +:+ type in
        let strict := qualified +:+ "." +:+ column +:+ " exists as NOT NULL, spec declares nullable" in
        Some (if negb (String.eqb (c_type c) type) && negb (String.eqb type "") then conflict differs differs
              else if c_not_null c && bbool i "nullable" true then conflict strict strict
              else emit [with_action kSatisfied ("column already present as " +:+ c_type c
                                                 +:+ (if c_not_null c then " NOT NULL" else " NULL")) s])
    | None => text ← default_text i; Some (plan_absent_column i text ((by_key (map_to_list (t_dependent_views t))).*1))
    end.

(** The walk after the columns, unless one of them was refused. *)
Definition then_fill (added : Emitted) (rest : option Emitted) : option Emitted :=
  if is_refused added then Some added else e ← rest; Some (and_emit added e).

(** [plan_add_columns_defaulted]. *)
Definition plan_add_columns_defaulted (group : list Intent) (o : Observations) (cfg : PlannerConfig) : option Emitted :=
  added ← mapM (fun g => plan_add_column_plain g o) group;
  let after := foldl (fun o g => adding_column (in_qualified g) (column_name g) (plain_column (bstr g "type" "") true) o)
                     o group in
  then_fill (emit_all added) (plan_defaulted_fill group after cfg).

(** [plan_add_column]. *)
Definition plan_add_column (i : Intent) (o : Observations) (cfg : PlannerConfig) : option Emitted :=
  let has_fill := contains (body i) "fill" in
  if has_fill && negb (defaulted i) then Some (plan_add_columns_filled [i] o cfg)
  else
    added ← plan_add_column_plain i o;
    if negb has_fill then Some added
    else
      then_fill added
        (plan_defaulted_fill [i]
           (adding_column (in_qualified i) (column_name i) (plain_column (bstr i "type" "") true) o) cfg).

End Defaulted.
