(* ===== verification/Views.v ===== *)
(** * Views: views around a changed column (src/cpp/src/planner.h)

    PostgreSQL refuses to change the type of a column that a view reads, so
    alter_column_type drops the views above the column, changes it and puts them back
    with their owners, comments, privileges, indexes and triggers, in one transaction.
    drop_column refuses where a view reads the column; replace_view replaces one. *)
From S2P Require Import Prelude Config Json Canonical Spec Quote RowSql Plan Planner Indexes RowPlan Dml.

(** ** Privileges *)
Definition privilege_of (c : ascii) : option string :=
  match List.find (fun kv => Ascii.eqb kv.1 c)
          [("r"%char, "SELECT"); ("w"%char, "UPDATE"); ("a"%char, "INSERT"); ("d"%char, "DELETE"); ("D"%char, "TRUNCATE");
           ("x"%char, "REFERENCES"); ("t"%char, "TRIGGER")] with
  | Some kv => Some kv.2
  | None => None
  end.

(** The letters, each with an asterisk behind it where it can be granted on. *)
Fixpoint grants_of (column on who privs : string) : list Stmt :=
  match privs with
  | EmptyString => []
  | String c privs' =>
      let with_grant := match privs' with String d _ => Ascii.eqb d "*" | EmptyString => false end in
      match privilege_of c with Some p => [Grant p column on who with_grant] | None => [] end
      ++ grants_of column on who privs'
  end.

(** [grants_from_aclitem]. *)
Definition grants_from_aclitem (item on column : string) : list Stmt :=
  match split_first "=" item with
  | None => []
  | Some (grantee, rest) =>
      let privs := match split_first "/" rest with Some (p, _) => p | None => rest end in
      let who := if String.eqb grantee "" then "PUBLIC" else quote_identifier grantee in
      grants_of column on who privs
  end.

(** ** Which views, and in which order: [views_to_rebuild] *)
Notation Views := (gmap string DependentView) (only parsing).

Definition views_items (views : Views) : list (string * DependentView) := by_key (map_to_list views).

Definition reading_directly (views : Views) (column : string) : gset string :=
  list_to_set (fst <$> List.filter (fun kv => existsb (String.eqb column) (v_uses kv.2)) (views_items views)).

(** One turn of the loop over the edges between views. *)
Definition grow (views : Views) (affected : gset string) : gset string :=
  foldl (fun affected kv =>
           if bool_decide (kv.1 ∈ affected) then affected
           else if existsb (fun d => bool_decide (d ∈ affected)) (v_depends kv.2) then {[kv.1]} ∪ affected
           else affected) affected (views_items views).

Fixpoint close (fuel : nat) (views : Views) (affected : gset string) : gset string :=
  match fuel with
  | O => affected
  | S fuel' => let next := grow views affected in if bool_decide (next = affected) then affected else close fuel' views next
  end.

Definition deeper (a b : Z * string) : bool := (b.1 <? a.1) || ((a.1 =? b.1) && string_leb a.2 b.2).

Definition view_level (views : Views) (name : string) : Z := default 1 (v_level <$> views !! name).

Definition affected_views (views : Views) (column : string) : gset string :=
  close (S (size views)) views (reading_directly views column).

Definition views_to_rebuild (views : Views) (column : string) : list (Z * string) :=
  sort_by deeper ((fun name => (view_level views name, name)) <$> base.elements (affected_views views column)).

(** ** Taking them down and putting them back *)
Definition materialized (v : DependentView) : bool := String.eqb (v_kind v) "materialized".

(** [emit_view_drops]. *)
Definition emit_view_drops (views : Views) (order : list (Z * string)) : list Stmt :=
  order ≫= fun ln => match views !! ln.2 with Some v => [DropView (materialized v) (v_name v)] | None => [] end.

(** The body without what ends it. *)
Definition ends_body (c : ascii) : bool := Ascii.eqb c ";" || Ascii.eqb c " " || String.eqb (string_of_char c) nl.

Fixpoint drop_end (s : string) : string :=
  match s with
  | EmptyString => ""
  | String c s' => match drop_end s' with
                   | EmptyString => if ends_body c then "" else string_of_char c
                   | rest => String c rest
                   end
  end.

Definition view_words (v : DependentView) : string := if materialized v then "MATERIALIZED VIEW " else "VIEW ".

Definition view_options (l : list string) : string :=
  match l with [] => "" | _ => " WITH (" +:+ join ", " l +:+ ")" end.

(** One view with all that hung on it. *)
Definition recreate (v : DependentView) : list Stmt :=
  let name := v_name v in
  [CreateView (materialized v) name (view_options (v_reloptions v)) (drop_end (v_definition v))]
  ++ (if String.eqb (v_owner v) "" then []
      else [OtherSql ("ALTER " +:+ view_words v +:+ name +:+ " OWNER TO " +:+ quote_identifier (v_owner v) +:+ ";")])
  ++ ((fun ix => OtherSql (ix +:+ ";")) <$> v_indexes v)
  ++ match v_comment v with Some c => [CommentOn (view_words v +:+ name) c] | None => [] end
  ++ ((fun ct => CommentOn ("COLUMN " +:+ name +:+ "." +:+ quote_identifier ct.1) ct.2) <$> v_column_comments v)
  ++ (v_grants v ≫= fun acl => grants_from_aclitem acl name "")
  ++ (v_column_grants v ≫= fun cg => cg.2 ≫= fun acl => grants_from_aclitem acl name cg.1)
  ++ ((fun tg => OtherSql (tg +:+ ";")) <$> v_triggers v).

(** [emit_view_recreates]. *)
Definition emit_view_recreates (views : Views) (order : list (Z * string)) : list Stmt :=
  reverse order ≫= fun ln => match views !! ln.2 with Some v => recreate v | None => [] end.

(** [warn_about_rebuild]. *)
Definition warn_about_rebuild (views : Views) (order : list (Z * string)) (qualified : string) : list string :=
  let matviews := List.filter (fun n => match views !! n with Some v => materialized v | None => false end) order.*2 in
  ["changing " +:+ qualified +:+ " rebuilds " +:+ to_string (Z.of_nat (length order)) +:+ " dependent view(s): "
   +:+ join ", " order.*2
   +:+ ". They are dropped and recreated in one transaction, so no reader sees them missing -- but the table holds AccessExclusiveLock for the whole of it, including any rewrite."]
  ++ match matviews with
     | [] => []
     | _ => ["materialized view(s) " +:+ join ", " matviews
             +:+ " are rebuilt WITH DATA, so the transaction also re-runs their queries in full. On a large one that is the dominant cost of this migration, and it is paid while the lock is held."]
     end.

(** ** Types *)
Record TypeShape : Type := { ty_base : string; ty_first : Z; ty_second : Z }.

Fixpoint trim_spaces_end (s : string) : string :=
  match s with
  | EmptyString => ""
  | String c s' => match trim_spaces_end s' with
                   | EmptyString => if Ascii.eqb c " " then "" else string_of_char c
                   | rest => String c rest
                   end
  end.

Definition unmodified (base : string) : TypeShape := {| ty_base := base; ty_first := -1; ty_second := -1 |}.

(** [type_shape]. *)
Definition type_shape (t : string) : TypeShape :=
  match split_first "(" t with
  | None => unmodified t
  | Some (before, after) =>
      let base := trim_spaces_end before in
      let mods := match split_first ")" after with Some (m, _) => m | None => after end in
      match split_first "," mods with
      | None => match stol mods with
                | Some (n, _) => {| ty_base := base; ty_first := n; ty_second := -1 |}
                | None => unmodified base
                end
      | Some (a, b) => match stol a, stol b with
                       | Some (n, _), Some (m, _) => {| ty_base := base; ty_first := n; ty_second := m |}
                       | _, _ => unmodified base
                       end
      end
  end.

(** [provably_no_rewrite]. *)
Definition provably_no_rewrite (from to : string) : bool :=
  let a := type_shape from in
  let b := type_shape to in
  if (String.eqb (ty_base a) "character varying" || String.eqb (ty_base a) "character") && String.eqb (ty_base b) "text" then true
  else if negb (String.eqb (ty_base a) (ty_base b)) then false
  else if ty_first b =? -1 then negb (ty_first a =? -1)
  else if ty_first a =? -1 then false
  else if negb (ty_second a =? ty_second b) then false
  else ty_first a <=? ty_first b.

(** ** The rules *)
Section Rules.
Context `{Vendors}.

(** [table_data(...).bytes]. *)
Definition table_bytes (o : Observations) (qualified : string) (i : Intent) : Z :=
  match index_traits o qualified i with
  | Some (_, tr) => if 0 <=? it_size_bytes tr then it_size_bytes tr else t_size_estimate (table_obs o qualified)
  | None => t_size_estimate (table_obs o qualified)
  end.

Definition rebuild_why (order : list (Z * string)) : string :=
  match order with
  | [] => ""
  | _ => "; " +:+ to_string (Z.of_nat (length order)) +:+ " dependent view(s) block the change and are rebuilt around it"
  end.

Definition assumed_warning (qualified column current target : string) : string :=
  "alter_column_type on " +:+ qualified +:+ "." +:+ column +:+ " (" +:+ current +:+ " -> " +:+ target
  +:+ ") is assumed to rewrite the table. Only a relaxed type modifier is provably free; this project measures rather than guesses, and the measured no-rewrite cases are varchar(n)->varchar(m>n), varchar(n)->text, numeric(p,s)->numeric(p2>=p,s) and a widened timestamp precision.".

(** The step of a type change from [current]. *)
Definition alter_type_step (i : Intent) (o : Observations) (current : string) : Emitted :=
  let qualified := in_qualified i in
  let column := bstr i "column" "" in
  let target := bstr i "type" "" in
  let views := t_dependent_views (table_obs o qualified) in
  let order := views_to_rebuild views column in
  let free := provably_no_rewrite current target in
  let using_ := if contains (body i) "using" then Some (bstr i "using" "") else None in
  let s := make (kind_name i) kRequired true
    (emit_view_drops views order ++ [AlterColumnType qualified column target using_] ++ emit_view_recreates views order)
    ("AccessExclusiveLock on " +:+ qualified +:+ (match order with [] => "" | _ => " and on every view rebuilt with it" end))
    ((if free then current +:+ " -> " +:+ target
        +:+ " relaxes the type modifier, which PostgreSQL applies without rewriting the table (measured on 18.6 by relfilenode)"
      else current +:+ " -> " +:+ target
        +:+ " is not a provable widening, so assume PostgreSQL rewrites the whole table: "
        +:+ human_bytes (table_bytes o qualified i)
        +:+ " under AccessExclusiveLock, during which every reader and writer queues")
     +:+ rebuild_why order) [] in
  let s := do_not_rehearse heavy_not_rehearsed_text true s in
  let s := set_details [("column", JStr column); ("from", JStr current); ("to", JStr target);
                        ("rewrite", JStr (if free then "no" else "assumed"));
                        ("views_rebuilt", JArr ((fun ln => JObj [("level", JInt ln.1); ("view", JStr ln.2)]) <$> order))] s in
  {| e_steps := [s];
     e_warnings := (if free then [] else [assumed_warning qualified column current target])
                   ++ match order with [] => [] | _ => warn_about_rebuild views order (qualified +:+ "." +:+ column) end;
     e_conflicts := [] |}.

(** [plan_alter_column_type]. *)
Definition plan_alter_column_type (i : Intent) (o : Observations) : Emitted :=
  let qualified := in_qualified i in
  let t := table_obs o qualified in
  let column := bstr i "column" "" in
  let target := bstr i "type" "" in
  if negb (t_exists t) then let why := qualified +:+ " does not exist" in refuse i why why
  else
    match t_columns t !! column with
    | None =>
        let why := qualified +:+ "." +:+ column +:+ " does not exist" in
        refuse i why (why +:+ ". A type change names a column that must already be there; add_column is the intent for one that is not.")
    | Some c =>
        if String.eqb (c_type c) target then satisfied i (qualified +:+ "." +:+ column +:+ " is already " +:+ target)
        else alter_type_step i o (c_type c)
    end.

(** [plan_drop_column]. *)
Definition plan_drop_column (i : Intent) (o : Observations) : Emitted :=
  let qualified := in_qualified i in
  let t := table_obs o qualified in
  let column := bstr i "column" "" in
  if negb (t_exists t) then let why := qualified +:+ " does not exist" in refuse i why why
  else
    match t_columns t !! column with
    | None => satisfied i ("no column " +:+ column +:+ " on " +:+ qualified)
    | Some c =>
        let order := views_to_rebuild (t_dependent_views t) column in
        let made sql why detail := make (kind_name i) kRequired true sql ("AccessExclusiveLock on " +:+ qualified) why detail in
        match order with
        | [] =>
            {| e_steps := [made [DropColumn qualified column]
                 "dropping a column is catalog-only in PostgreSQL -- the data is not reclaimed, the attribute is marked dropped -- so the statement is fast whatever the table's size"
                 [("column", JStr column); ("type", JStr (c_type c))]];
               e_warnings := ["dropping " +:+ qualified +:+ "." +:+ column
                 +:+ " is irreversible: the values are gone at commit and no revert can recover them. If they may be needed, capture them in an earlier intent first."];
               e_conflicts := [] |}
        | _ =>
            let names := join ", " order.*2 in
            let why := column +:+ " is read by " +:+ names in
            {| e_steps := [with_action kConflict why (made [] why [])]; e_warnings := [];
               e_conflicts := ["cannot drop " +:+ qualified +:+ "." +:+ column +:+ ": it is read by " +:+ names
                 +:+ ". Unlike a type change, the recorded view definitions cannot be replayed here -- they still select the column being removed, so recreating them verbatim would fail. Change or drop those views in earlier intents, where the new definition is written down and reviewable. pg_laswell will not guess at a rewritten view body, and will not emit CASCADE: measured on 18.6, DROP ... CASCADE under a three-level stack left zero views standing."] |}
        end
    end.
End Rules.

(** ** replace_view *)
Definition view_qualified (i : Intent) : string := bstr i "schema" "" +:+ "." +:+ bstr i "name" "".

Definition view_step (i : Intent) (own : bool) (sql : list Stmt) (lock why method : string) : Step :=
  make (kind_name i) kRequired own sql lock why [("view", JStr (view_qualified i)); ("method", JStr method)].

Definition create_view (i : Intent) : Emitted :=
  let qualified := view_qualified i in
  let rel := quote_qualified qualified in
  emit [view_step i false
          (CreateView false rel "" (bstr i "definition" "")
           :: (if contains (body i) "comment" then [CommentOn ("VIEW " +:+ rel) (bstr i "comment" "")] else []))
          "no lock on any existing object" (qualified +:+ " does not exist, so this creates it") "create"].

Definition replace_plain_view (i : Intent) (reloptions : list string) : Emitted :=
  let qualified := view_qualified i in
  let rel := quote_qualified qualified in
  let o := join ", " reloptions in
  {| e_steps := [view_step i false
       (OtherSql ("CREATE OR REPLACE VIEW " +:+ rel +:+ " AS " +:+ bstr i "definition" "" +:+ ";")
        :: match reloptions with [] => [] | _ => [OtherSql ("ALTER VIEW " +:+ rel +:+ " SET (" +:+ o +:+ ");")] end)
       ("AccessExclusiveLock on " +:+ qualified +:+ " only, briefly")
       "CREATE OR REPLACE keeps the comment, grants, column grants, INSTEAD OF triggers, owner and every dependent object -- so this is the cheap path, and it is available because the definition only appends columns"
       "replace"];
     e_warnings :=
       match reloptions with
       | [] => []
       | _ => ["CREATE OR REPLACE VIEW resets a view's options, so " +:+ qualified +:+ " would silently lose " +:+ o
               +:+ ". The plan re-applies them in the same transaction; a hand-written replace would not, and nothing would report it."]
       end
       ++ ["CREATE OR REPLACE VIEW can only APPEND columns to " +:+ qualified
           +:+ ". Reordering, removing, retyping or renaming an existing column is refused by PostgreSQL; such a change needs the view dropped and rebuilt, and every dependent object with it."];
     e_conflicts := [] |}.

Definition replace_matview (i : Intent) (owner : string) : Emitted :=
  let qualified := view_qualified i in
  let rel := quote_qualified qualified in
  let s := view_step i true
    (DropView true rel :: CreateView true rel "" (bstr i "definition" "")
     :: (if String.eqb owner "" then []
         else [OtherSql ("ALTER MATERIALIZED VIEW " +:+ rel +:+ " OWNER TO " +:+ quote_identifier owner +:+ ";")]))
    ("AccessExclusiveLock on " +:+ qualified)
    "PostgreSQL has no CREATE OR REPLACE MATERIALIZED VIEW, so this is a drop and recreate: the query is re-run in full and everything attached to the old object has to be put back"
    "drop_and_recreate" in
  {| e_steps := [do_not_rehearse heavy_not_rehearsed_text true s];
     e_warnings := [qualified
       +:+ " is a materialized view, which has no replace form. It is dropped and recreated WITH DATA, so its query re-runs in full inside the transaction -- and its indexes, comments and grants go with it. Restate them in later intents; pg_laswell restores the owner only, because anything else here would be it inventing objects the spec never named."];
     e_conflicts := [] |}.

(** [plan_replace_view]. *)
Definition plan_replace_view (i : Intent) (o : Observations) : Emitted :=
  let qualified := view_qualified i in
  let v := table_obs o qualified in
  if negb (t_exists v) then create_view i
  else if negb (String.eqb (t_kind v) "view") && negb (String.eqb (t_kind v) "materialized_view") then
    let s := with_class kRequired (set_detail "view" (JStr qualified) (new_step (kind_name i))) in
    {| e_steps := [with_action kConflict (qualified +:+ " is a " +:+ t_kind v +:+ ", not a view") s]; e_warnings := [];
       e_conflicts := [qualified +:+ " is a " +:+ t_kind v
         +:+ ". replace_view will not turn a table into a view: that is a data loss dressed as a definition change."] |}
  else if String.eqb (t_kind v) "view" then replace_plain_view i (t_reloptions v)
  else replace_matview i (t_owner v).
