(* ===== verification/Tables.v ===== *)
(** * Tables: whole tables and their partitions (src/cpp/src/planner.h)

    create_table, as a table or as a partition; drop_table; the three renames;
    attach_partition, whose bound is proved by a check before the lock that would scan
    for it; detach_partition. *)
From S2P Require Import Prelude Json Canonical Spec Quote RowSql Plan Planner Indexes RowPlan Dml Views.

(** ** Texts the rules share *)
Definition known_scalars : list string :=
  ["smallint"; "integer"; "bigint"; "int2"; "int4"; "int8"; "int"; "text"; "character varying"; "varchar"; "character";
   "char"; "bpchar"; "date"; "timestamp"; "timestamptz"; "timestamp without time zone"; "timestamp with time zone"; "time";
   "timetz"; "time without time zone"; "time with time zone"; "interval"; "uuid"; "numeric"; "decimal"; "boolean"; "bool";
   "real"; "double precision"; "float4"; "float8"; "oid"; "money"; "bytea"; "macaddr"; "macaddr8"].

(** [known_scalar_type]. *)
Definition known_scalar_type (type : string) : bool :=
  existsb (String.eqb (trim_spaces_end (before_char "(" (lower_text type)))) known_scalars.

Definition to_upper (c : ascii) : ascii :=
  let b := byte_val c in if (97 <=? b) && (b <=? 122) then byte_of (b - 32) else c.

(** [key.substr(0, key.find_first_of(" ("))], in capitals. *)
Fixpoint strategy_of (key : string) : string :=
  match key with
  | EmptyString => ""
  | String c key' => if Ascii.eqb c " " || Ascii.eqb c "(" then "" else String (to_upper c) (strategy_of key')
  end.

Definition bint (i : Intent) (k : string) (d : Z) : Z := match value_int (body i) k d with Ok n => n | Err _ => d end.

(** The bound an intent gives that a check can express. *)
Inductive Bound : Type :=
  | RangeBound (from to : string)
  | ListBound (values : list string).

Definition bound_of (i : Intent) : option Bound :=
  if contains (body i) "from" then Some (RangeBound (bstr i "from" "") (bstr i "to" ""))
  else if contains (body i) "values" then Some (ListBound (bstrs i "values"))
  else None.

(** [bounds_as_for_values]. *)
Definition bounds_as_for_values (i : Intent) : string :=
  if contains (body i) "modulus" then
    "FOR VALUES WITH (MODULUS " +:+ to_string (bint i "modulus" 1) +:+ ", REMAINDER " +:+ to_string (bint i "remainder" 0) +:+ ")"
  else
    match bound_of i with
    | Some (RangeBound from to) => "FOR VALUES FROM (" +:+ from +:+ ") TO (" +:+ to +:+ ")"
    | Some (ListBound values) => "FOR VALUES IN (" +:+ join ", " values +:+ ")"
    | None => "DEFAULT"
    end.

(** [bounds_as_check]. *)
Definition bounds_as_check (i : Intent) (key : string) : string :=
  match bound_of i with
  | Some (RangeBound from to) => key +:+ " >= " +:+ from +:+ " AND " +:+ key +:+ " < " +:+ to
  | Some (ListBound values) => key +:+ " IN (" +:+ join ", " values +:+ ")"
  | None => ""
  end.

(** [substr(0, rfind(c))]. *)
Fixpoint before_last (c : ascii) (s : string) : option string :=
  match s with
  | EmptyString => None
  | String d s' => match before_last c s' with
                   | Some r => Some (String d r)
                   | None => if Ascii.eqb d c then Some "" else None
                   end
  end.

(** [single_partition_key]: between the first parenthesis and the last. *)
Definition single_partition_key (partkeydef : string) : string :=
  match split_first "(" partkeydef with
  | None => ""
  | Some (_, after) =>
      match before_last ")" after with
      | Some inner => if has_char "," inner then "" else inner
      | None => ""
      end
  end.

Section Tables.
Context `{Vendors, Printing}.

(** [storage_parameters]. *)
Definition storage_parameters (options : json) : string :=
  join ", " ((fun kv => kv.1 +:+ " = " +:+ match kv.2 with JStr s => s | v => dump v end) <$> members options).

Definition options_sql (i : Intent) : string :=
  match members (at_key (body i) "options") with
  | [] => ""
  | _ => " WITH (" +:+ storage_parameters (at_key (body i) "options") +:+ ")"
  end.

Definition partition_by_sql (i : Intent) : string :=
  if contains (body i) "partition_by" then " PARTITION BY " +:+ bstr i "partition_by" "" else "".

Definition create_words (i : Intent) : string :=
  "CREATE " +:+ (if bbool i "unlogged" false then "UNLOGGED " else "") +:+ "TABLE " +:+ quote_qualified (in_qualified i).

(** ** create_table with partition_of *)
Definition refuse_partition (i : Intent) (why more : string) : Emitted :=
  refuse i why (if String.eqb more "" then why else why +:+ ". " +:+ more).

Definition bound_strategy (i : Intent) : string :=
  if contains (body i) "modulus" then "HASH" else if contains (body i) "values" then "LIST"
  else if bbool i "default" false then "DEFAULT" else "RANGE".

Definition partition_strategy (p : TableObs) : string := strategy_of (first_text (t_partition_key p) (t_partition_by p)).

(** The refusal of a bound that the parent does not take. *)
Definition refused_bound (i : Intent) (parent : string) (p : TableObs) : option (string * string) :=
  let strategy := partition_strategy p in
  let deflt := bbool i "default" false in
  let bound := bound_strategy i in
  if negb (String.eqb strategy "") && deflt && String.eqb strategy "HASH" then
    Some (parent +:+ " is hash partitioned, and a hash-partitioned table has no DEFAULT partition",
          "Every value hashes to some remainder, so there is nothing for a default to hold. Create one partition per remainder.")
  else if negb (String.eqb strategy "") && negb deflt && negb (String.eqb strategy bound) then
    Some (parent +:+ " is partitioned by " +:+ strategy +:+ ", and this bound is " +:+ bound,
          "Use " +:+ (if String.eqb strategy "RANGE" then say "~from~ and ~to~"
                      else if String.eqb strategy "LIST" then say "~values~" else say "~modulus~ and ~remainder~")
          +:+ " for a partition of " +:+ parent +:+ ".")
  else
    match t_default_partition p with
    | Some d => if deflt then Some (parent +:+ " already has a DEFAULT partition, " +:+ d,
                                    say "PostgreSQL refuses a second one (~conflicts with existing default partition~).")
                else None
    | None => None
    end.

Definition partition_warnings (i : Intent) (parent : string) (p : TableObs) : list string :=
  ["Creating a partition locks " +:+ parent
   +:+ " against every read and write until the step commits. It is brief -- the new table is empty -- but it queues behind any long transaction on "
   +:+ parent
   +:+ " (lock_timeout bounds that). On a busy parent the lighter route is create_table without partition_of, then attach_partition, which takes only ShareUpdateExclusiveLock on the parent."]
  ++ match t_default_partition p with
     | Some d =>
         ["Beside the DEFAULT partition " +:+ d
          +:+ match t_default_rows p with Some n => " (" +:+ to_string n +:+ " estimated rows)" | None => "" end
          +:+ ", every row of it is read under lock to prove none belongs to the new bound -- measured, 47 ms for 1M rows. One that does fails the step, in the job: the dry run does not read the default under that lock."]
     | None => []
     end
  ++ (if bbool i "unlogged" false
      then [in_qualified i +:+ " is UNLOGGED: it is not written to WAL, so it is not replicated to any standby and its rows do not survive a crash. That is a durability decision, not a performance setting."]
      else []).

Definition create_partition_step (i : Intent) (parent : string) (p : TableObs) : Step :=
  let qualified := in_qualified i in
  let rel := quote_qualified qualified in
  let s := make (kind_name i) kRequired false
    [OtherSql (create_words i +:+ " PARTITION OF " +:+ quote_qualified parent +:+ " " +:+ bounds_as_for_values i
               +:+ partition_by_sql i +:+ options_sql i +:+ ";");
     CommentOn ("TABLE " +:+ rel) (bstr i "comment" "")]
    ("AccessExclusiveLock on " +:+ parent +:+ match t_default_partition p with Some d => " and " +:+ d | None => "" end
     +:+ " -- measured: reads and writes on the parent wait until this commits")
    (qualified +:+ " is created as a partition of " +:+ parent +:+ ", taking its columns from it rather than restating them")
    [("partition_of", JStr parent); ("bound", JStr (bounds_as_for_values i))] in
  match t_default_partition p with
  | Some d => do_not_rehearse heavy_not_rehearsed_text true
                (set_details [("default_partition", JStr d);
                              ("default_partition_rows", match t_default_rows p with Some n => JInt n | None => JNull end)] s)
  | None => s
  end.

(** [plan_create_partition]. *)
Definition plan_create_partition (i : Intent) (o : Observations) : Emitted :=
  let qualified := in_qualified i in
  let parent := bstr i "partition_of" "" in
  let p := table_obs o parent in
  if t_exists (table_obs o qualified) then
    if existsb (String.eqb qualified) (t_partitions p) then satisfied i (qualified +:+ " is already a partition of " +:+ parent)
    else refuse_partition i (qualified +:+ " exists and is not a partition of " +:+ parent)
           "attach_partition adopts an existing table as a partition, and takes only ShareUpdateExclusiveLock on the parent to do it"
  else if negb (t_exists p) then
    refuse_partition i (parent +:+ " does not exist, so nothing can be a partition of it")
      "Create it with create_table and partition_by, in an earlier intent."
  else if negb (String.eqb (t_kind p) "partitioned_table") then
    refuse_partition i (parent +:+ " is a " +:+ t_kind p +:+ ", not a partitioned table")
      (say "PostgreSQL refuses it (~is not partitioned~). A table is partitioned when it is created, with partition_by.")
  else
    match refused_bound i parent p with
    | Some (why, more) => refuse_partition i why more
    | None => {| e_steps := [create_partition_step i parent p]; e_warnings := partition_warnings i parent p; e_conflicts := [] |}
    end.

(** ** create_table *)
Definition declared_columns_of (i : Intent) : list json := elements (at_key (body i) "columns").

Definition column_def (col : json) : string :=
  quote_identifier (text_at col "name") +:+ " " +:+ text_at col "type"
  +:+ (if contains col "default" then " DEFAULT " +:+ text_at col "default" else "")
  +:+ (if match value_bool col "nullable" true with Ok b => b | Err _ => true end then "" else " NOT NULL").

Definition column_comment (rel : string) (col : json) : Stmt :=
  CommentOn ("COLUMN " +:+ rel +:+ "." +:+ quote_identifier (text_at col "name")) (text_at col "comment").

(** [declared[name]]. *)
Definition declared_type (i : Intent) (name : string) : string :=
  match List.find (fun col => String.eqb (text_at col "name") name) (reverse (declared_columns_of i)) with
  | Some col => text_at col "type"
  | None => ""
  end.

(** Why a key WITHOUT OVERLAPS cannot be built as declared. *)
Definition period_refusal (i : Intent) (o : Observations) (keys : list string) : option string :=
  let period := default "" (last keys) in
  if known_scalar_type (declared_type i period) then
    Some ("without_overlaps makes the last column of the key, " +:+ period +:+ ", the period, and it is declared "
          +:+ declared_type i period
          +:+ ". A period is one range or multirange column -- daterange, tstzrange -- not a date or a pair of them.")
  else if ob_exists (object_obs o "extension:btree_gist") then None
  else
    c ← List.find (fun c => known_scalar_type (declared_type i c)) (take (pred (length keys)) keys);
    Some ("a primary key with a period is a GiST index, and GiST has no operator class for " +:+ c +:+ " (" +:+ declared_type i c
          +:+ ") without the extension btree_gist, which is not installed. Add a create_extension intent for btree_gist before this one.").

(** The last of the names with words behind it. *)
Fixpoint mark_last (words : string) (l : list string) : list string :=
  match l with [] => [] | [x] => [x +:+ words] | x :: l' => x :: mark_last words l' end.

Definition primary_key_def (i : Intent) (keys : list string) : string :=
  let pk := quote_identifier <$> keys in
  "PRIMARY KEY (" +:+ join ", " (if bbool i "without_overlaps" false then mark_last " WITHOUT OVERLAPS" pk else pk) +:+ ")".

Definition create_table_step (i : Intent) : Step :=
  let rel := quote_qualified (in_qualified i) in
  let cols := declared_columns_of i in
  let defs := (column_def <$> cols)
              ++ (if contains (body i) "primary_key" then [primary_key_def i (bstrs i "primary_key")] else []) in
  make (kind_name i) kRequired false
    (OtherSql (create_words i +:+ " (" +:+ nl +:+ "  " +:+ join ("," +:+ nl +:+ "  ") defs +:+ nl +:+ ")" +:+ partition_by_sql i
               +:+ options_sql i +:+ ";")
     :: CommentOn ("TABLE " +:+ rel) (bstr i "comment" "") :: (column_comment rel <$> cols))
    "no lock on any existing object -- the table does not exist yet"
    "creating a table locks nothing and scans nothing, whatever else is happening; the risk of this intent is what it OMITS, not what it does"
    [("columns", JInt (Z.of_nat (length defs)))].

(** [plan_create_table]. *)
Definition plan_create_table (i : Intent) (o : Observations) : Emitted :=
  let qualified := in_qualified i in
  let overlaps := contains (body i) "primary_key" && bbool i "without_overlaps" false in
  if contains (body i) "partition_of" then plan_create_partition i o
  else if t_exists (table_obs o qualified) then
    {| e_steps := [with_action kSatisfied (qualified +:+ " already exists") (new_step (kind_name i))];
       e_warnings := [qualified
         +:+ " already exists, so create_table is reported satisfied WITHOUT comparing its columns to the spec. This kind proves absence, not shape: if the existing table might differ, check it, or express the difference as add_column and alter_column_type intents which do compare."];
       e_conflicts := [] |}
  else
    match (if overlaps then period_refusal i o (bstrs i "primary_key") else None) with
    | Some refusal => refuse i ("the primary key of " +:+ qualified +:+ " cannot be built as declared")
                        ("create_table " +:+ qualified +:+ ": " +:+ refusal)
    | None =>
        {| e_steps := [create_table_step i];
           e_warnings := if bbool i "unlogged" false
             then [qualified +:+ " is UNLOGGED: it is not written to WAL, so it is not replicated to any standby and its contents do not survive a crash. That is a durability decision, not a performance setting."]
             else [];
           e_conflicts := [] |}
    end.

(** ** drop_table *)
Definition table_blockers (t : TableObs) : list string :=
  ((fun n => "view " +:+ n) <$> (views_items (t_dependent_views t)).*1) ++ ((fun n => "foreign key " +:+ n) <$> t_referenced_by t).

(** The tables its foreign keys reference, in the order of a set. *)
Definition referenced_tables (t : TableObs) (qualified : string) : list string :=
  sort_by string_leb (base.elements (list_to_set (List.filter (fun r => negb (String.eqb r "") && negb (String.eqb r qualified))
    (k_references <$> (map_to_list (t_constraints t)).*2)) : gset string)).

(** [plan_drop_table]. *)
Definition plan_drop_table (i : Intent) (o : Observations) : Emitted :=
  let qualified := in_qualified i in
  let t := table_obs o qualified in
  if negb (t_exists t) then satisfied i (qualified +:+ " does not exist")
  else
    match table_blockers t with
    | [] =>
        {| e_steps := [make (kind_name i) kRequired false [DropTable qualified]
             ("AccessExclusiveLock on " +:+ qualified
              +:+ (if t_is_partition t then ", on its parent table and on the parent's DEFAULT partition if there is one -- every query against every partition waits" else "")
              +:+ join "" ((fun r => ", and on " +:+ r +:+ " (a foreign key references it)") <$> referenced_tables t qualified))
             ("nothing depends on " +:+ qualified +:+ ", so the drop is a brief catalog change whatever the table's size") []];
           e_warnings := ["dropping " +:+ qualified +:+ " is irreversible. " +:+ human_bytes (table_bytes o qualified i)
             +:+ " and roughly " +:+ to_string (table_rows o qualified i)
             +:+ " rows go at commit, and no revert recovers them. If the data may be wanted, copy it out in an earlier intent."];
           e_conflicts := [] |}
    | blockers =>
        refuse i (qualified +:+ " has " +:+ to_string (Z.of_nat (length blockers)) +:+ " dependant(s)")
          ("cannot drop " +:+ qualified +:+ ": " +:+ join ", " blockers
           +:+ " depend on it. Remove them in earlier intents, where each removal is written down and reviewed. pg_laswell will not emit CASCADE, which would drop every one of those objects without the spec ever naming them.")
    end.
(** ** Renames *)
Definition rename_opened (i : Intent) : Step :=
  make (kind_name i) kRequired false []
    ("AccessExclusiveLock on " +:+ in_qualified i +:+ " only -- dependent views are not locked and not rebuilt") ""
    [("to", JStr (bstr i "to" ""))].

Definition rename_refused (i : Intent) (why conflict : string) : Emitted :=
  {| e_steps := [with_action kConflict why (rename_opened i)]; e_warnings := []; e_conflicts := [conflict] |}.

Definition rename_done (i : Intent) (why : string) : Emitted := emit [with_action kSatisfied why (rename_opened i)].

Definition rename_applied (i : Intent) (q : Stmt) (why : string) (detail : list (string * json)) (ws : list string) : Emitted :=
  {| e_steps := [set_details detail (with_why why (with_sql [q] (rename_opened i)))]; e_warnings := ws; e_conflicts := [] |}.

Definition plan_rename_table (i : Intent) (t : TableObs) : Emitted :=
  let qualified := in_qualified i in
  let to := bstr i "to" "" in
  let views := views_items (t_dependent_views t) in
  if String.eqb (in_table i) to then rename_done i (qualified +:+ " is already named " +:+ to)
  else
    rename_applied i (RenameTable qualified to)
      "renaming a table is catalog-only, and every index, constraint and dependent view follows it by OID -- measured, not assumed"
      []
      match views with
      | [] => []
      | _ => [to_string (Z.of_nat (length views)) +:+ " view(s) read " +:+ qualified
              +:+ " and will follow the rename automatically -- their stored definitions are rewritten to name " +:+ to
              +:+ ". Nothing in the database breaks. What breaks is anything holding the OLD name as text: application SQL, a search_path-dependent script, a dashboard query."]
      end.

(** The views that read the column, once for every time it is listed. *)
Definition views_reading (t : TableObs) (column : string) : list string :=
  views_items (t_dependent_views t) ≫= fun kv => (fun _ => kv.1) <$> List.filter (String.eqb column) (v_uses kv.2).

Definition plan_rename_column (i : Intent) (t : TableObs) : Emitted :=
  let qualified := in_qualified i in
  let to := bstr i "to" "" in
  let column := bstr i "column" "" in
  match t_columns t !! column, t_columns t !! to with
  | None, Some _ => rename_done i (qualified +:+ "." +:+ to +:+ " already exists and " +:+ column
                                   +:+ " does not, so the rename has been applied")
  | None, None => let why := qualified +:+ "." +:+ column +:+ " does not exist" in rename_refused i why why
  | Some _, Some _ =>
      rename_refused i (qualified +:+ "." +:+ to +:+ " already exists")
        ("cannot rename " +:+ qualified +:+ "." +:+ column +:+ " to " +:+ to
         +:+ ": a column of that name is already there. Drop or rename it first, in an earlier intent.")
  | Some _, None =>
      rename_applied i (RenameColumn qualified column to)
        "renaming a column is catalog-only; indexes, constraints and view definitions follow it by OID with no rebuild"
        [("column", JStr column)]
        match views_reading t column with
        | [] => []
        | reading => [join ", " reading +:+ " read " +:+ qualified +:+ "." +:+ column
            +:+ " and will follow the rename, but each KEEPS ITS OWN OUTPUT NAME: the view definition becomes " +:+ dq +:+ to
            +:+ " AS " +:+ column +:+ dq +:+ " and anything selecting through the view still sees " +:+ dq +:+ column +:+ dq
            +:+ ". Measured on 18.6. So this rename does not reach the application at all unless those views are changed too, with replace_view intents -- and nothing will error to tell you."]
        end
  end.

Definition plan_rename_constraint (i : Intent) (t : TableObs) : Emitted :=
  let qualified := in_qualified i in
  let to := bstr i "to" "" in
  let name := bstr i "name" "" in
  match t_constraints t !! name, t_constraints t !! to with
  | None, Some _ => rename_done i (to +:+ " already exists on " +:+ qualified +:+ " and " +:+ name
                                   +:+ " does not, so the rename has been applied")
  | None, None => let why := "no constraint named " +:+ name +:+ " on " +:+ qualified in rename_refused i why why
  | Some _, Some _ =>
      rename_refused i (to +:+ " already exists on " +:+ qualified)
        ("cannot rename " +:+ name +:+ " to " +:+ to +:+ " on " +:+ qualified +:+ ": that name is taken.")
  | Some c, None =>
      rename_applied i (RenameConstraint qualified name to) "renaming a constraint is catalog-only" [("constraint", JStr name)]
        (if k_has_index c
         then ["renaming constraint " +:+ dq +:+ name +:+ dq +:+ " also renames its backing index to " +:+ dq +:+ to +:+ dq
               +:+ " -- measured on 18.6. Anything naming the old index, a dashboard or an alert or a REINDEX script, stops matching, and PostgreSQL says nothing about it."]
         else [])
  end.

(** [plan_rename]. *)
Definition plan_rename (i : Intent) (o : Observations) : Emitted :=
  let qualified := in_qualified i in
  let t := table_obs o qualified in
  if negb (t_exists t) then let why := qualified +:+ " does not exist" in refuse i why why
  else
    match kind i with
    | kRenameTable => plan_rename_table i t
    | kRenameColumn => plan_rename_column i t
    | _ => plan_rename_constraint i t
    end.

(** ** attach_partition *)
Definition partition_child (i : Intent) : string := bstr i "schema" "" +:+ "." +:+ bstr i "partition" "".
Definition bound_check (i : Intent) : string := bstr i "partition" "" +:+ "_laswell_bound".

(** [shape_of]. *)
Definition shape_of (ix : IndexObs) : string :=
  i_method ix +:+ "(" +:+ join "," (i_columns ix) +:+ ")" +:+ (if i_is_unique ix then " unique" else "") +:+ " where "
  +:+ i_predicate ix.

Definition unmatched_indexes (p c : TableObs) : list string :=
  let shapes := (fun ni => shape_of ni.2) <$> indexes_of c in
  fst <$> List.filter (fun ni => negb (existsb (String.eqb (shape_of ni.2)) shapes)) (indexes_of p).

Definition unmatched_warning (parent child : string) (unmatched : list string) : list string :=
  match unmatched with
  | [] => []
  | _ => [child +:+ " has no index matching " +:+ to_string (Z.of_nat (length unmatched)) +:+ " of " +:+ parent
          +:+ "'s partitioned index(es): " +:+ join ", " unmatched
          +:+ ". ATTACH builds each one on the candidate under AccessExclusiveLock, and on a large partition that is the dominant cost of the whole operation. Build them first with create_index intents on "
          +:+ child +:+ ": a matching index is ATTACHED to the parent's rather than rebuilt."]
  end.

(** The expression of the check, where the key is one column. *)
Definition bound_expression (i : Intent) (p : TableObs) : string :=
  let key := single_partition_key (t_partition_key p) in
  if String.eqb key "" then "" else bounds_as_check i key.

Definition attach_step (i : Intent) (q : Stmt) (lock why : string) : Step := make (kind_name i) kRequired true [q] lock why [].

(** Steps 1 and 2. *)
Definition prove_bound (i : Intent) (child expression : string) (have : ConstraintState) : list Step :=
  (if bool_decide (have = kAbsent)
   then [attach_step i (AddCheck child (bound_check i) expression true)
           ("AccessExclusiveLock on " +:+ child +:+ ", briefly; NOT VALID means no scan")
           "step 1 of 4: the CHECK is what lets ATTACH skip its scan, and adding it NOT VALID costs nothing"]
   else [])
  ++ (if bool_decide (have = kValid) then []
      else [do_not_rehearse not_rehearsed_text false
              (attach_step i (ValidateConstraint child (bound_check i))
                 ("ShareUpdateExclusiveLock on " +:+ child +:+ " -- does NOT block reads or writes")
                 "step 2 of 4: the scan happens here instead, under a lock the application survives. Measured: ATTACH without this took 98ms on 2M rows against 0.9ms with it")]).

Definition composite_warning (parent child : string) (p : TableObs) : string :=
  parent +:+ " has a composite or expression partition key ("
  +:+ (if String.eqb (t_partition_key p) "" then "unknown" else t_partition_key p)
  +:+ "), which pg_laswell will not reduce to a CHECK. ATTACH therefore scans " +:+ child
  +:+ " in full under AccessExclusiveLock. Refusing to guess here is deliberate: a CHECK over part of the key would not prove what ATTACH needs, and the scan would happen anyway without anyone being told.".

(** Step 3. *)
Definition attach_itself (i : Intent) (parent child : string) (p : TableObs) (proved : bool) : Step :=
  do_not_rehearse (if negb proved || bool_decide (is_Some (t_default_partition p)) then heavy_not_rehearsed_text else needs_the_scan_text)
    true
    (attach_step i (AttachPartition parent child (bounds_as_for_values i))
       ("ShareUpdateExclusiveLock on " +:+ parent +:+ " -- other partitions keep serving -- and AccessExclusiveLock on " +:+ child
        +:+ match t_default_partition p with
            | Some d => " and on the DEFAULT partition " +:+ d +:+ ", whose readers and writers wait while it is scanned"
            | None => ""
            end)
       (if proved then "step 3 of 4: attaching, now a catalog change because the validated CHECK already proves the bounds"
        else "step 3 of 4: attaching, with a full validation scan under the lock")).

(** Step 4. *)
Definition drop_bound_check (i : Intent) (child : string) : Step :=
  attach_step i (DropConstraint child (bound_check i)) ("AccessExclusiveLock on " +:+ child +:+ ", briefly")
    "step 4 of 4: the partition bound now enforces what the CHECK did, and PostgreSQL evaluates both on every insert if it is left behind".

Definition default_scan_warning (parent child : string) (p : TableObs) : list string :=
  match t_default_partition p with
  | Some d => [parent +:+ " has a DEFAULT partition (" +:+ d
               +:+ "), which ATTACH scans in full to prove it holds no row belonging to the new bounds. No CHECK on " +:+ child
               +:+ " avoids that -- the cost belongs to the default. Measured at 165ms with a 2M-row default against 0.9ms without one, and it grows with the default's size."]
  | None => []
  end.

Definition attach_recipe (i : Intent) (p c : TableObs) : Emitted :=
  let parent := in_qualified i in
  let child := partition_child i in
  let expression := bound_expression i p in
  let proved := negb (String.eqb expression "") in
  {| e_steps := (if proved then prove_bound i child expression (constraint_state c (bound_check i)) else [])
                ++ [attach_itself i parent child p proved] ++ (if proved then [drop_bound_check i child] else []);
     e_warnings := unmatched_warning parent child (unmatched_indexes p c)
                   ++ (if String.eqb (single_partition_key (t_partition_key p)) "" then [composite_warning parent child p] else [])
                   ++ default_scan_warning parent child p;
     e_conflicts := [] |}.

(** [plan_attach_partition]. *)
Definition plan_attach_partition (i : Intent) (o : Observations) : Emitted :=
  let parent := in_qualified i in
  let p := table_obs o parent in
  let child := partition_child i in
  let c := table_obs o child in
  if negb (t_exists p) then let why := parent +:+ " does not exist" in refuse i why why
  else if negb (String.eqb (t_kind p) "partitioned_table") then
    refuse i (parent +:+ " is not partitioned")
      (parent +:+ " is a " +:+ t_kind p +:+ ", not a partitioned table, so nothing can be attached to it.")
  else if negb (t_exists c) then
    refuse i (child +:+ " does not exist")
      (child +:+ " does not exist. attach_partition adopts an existing table; create it in an earlier intent.")
  else if existsb (String.eqb child) (t_partitions p) then satisfied i (child +:+ " is already a partition of " +:+ parent)
  else attach_recipe i p c.

(** ** detach_partition *)
Definition kDetachCeiling : Z := Z.shiftl 64 20.

Definition detach_concurrently_available (o : Observations) (p : TableObs) : bool :=
  (140000 <=? o_server_version o) && negb (bool_decide (is_Some (t_default_partition p))).

Definition small_and_quiet (size waiters : Z) : bool := (size <? kDetachCeiling) && (waiters =? 0).

Definition finalize_step (i : Intent) (parent child : string) : Step :=
  make (kind_name i) kForbidden true [DetachPartition parent child " FINALIZE"] ("ShareUpdateExclusiveLock on " +:+ parent)
    (child +:+ " is mid-detach: a previous DETACH CONCURRENTLY was interrupted, leaving it in pg_inherits with inhdetachpending set. FINALIZE is the only legal next step; a fresh DETACH is refused")
    [("method", JStr "finalize")].

Definition concurrent_detach (i : Intent) (parent child : string) (size waiters : Z) : Emitted :=
  {| e_steps := [make (kind_name i) kForbidden true [DetachPartition parent child " CONCURRENTLY"]
       ("ShareUpdateExclusiveLock on " +:+ parent +:+ ", so the rest of the table keeps serving")
       ("size " +:+ human_bytes size +:+ (if 0 <? waiters then " with " +:+ to_string waiters +:+ " lock waiter(s)" else "")
        +:+ ": a plain DETACH takes AccessExclusiveLock on the PARENT as well as the partition, which blocks every query against every partition. CONCURRENTLY does not -- and it cannot run inside a transaction block, which is why this step owns its own")
       [("method", JStr "concurrent")]];
     e_warnings := ["DETACH ... CONCURRENTLY on " +:+ child
       +:+ " cannot be rolled back with the rest of a transaction, and an interruption leaves the partition half-detached (inhdetachpending). That state is recoverable -- re-running this intent emits FINALIZE -- but until it is finished the partition is neither in nor out."];
     e_conflicts := [] |}.

Definition plain_detach_why (o : Observations) (p : TableObs) (parent : string) (size : Z) : string :=
  if detach_concurrently_available o p then
    "size " +:+ human_bytes size
    +:+ " < 64 MiB and nothing queued: a plain detach is a brief catalog change, and CONCURRENTLY costs an extra transaction and a recoverable-but-awkward intermediate state for nothing"
  else if bool_decide (is_Some (t_default_partition p)) then
    parent +:+ " has a DEFAULT partition, and PostgreSQL refuses DETACH ... CONCURRENTLY beside one, so the exclusive lock on the parent is unavoidable -- it blocks every query against every partition while it is held"
  else
    "PostgreSQL " +:+ to_string (o_server_version o)
    +:+ " has no DETACH ... CONCURRENTLY (it arrived in 14), so the exclusive lock on the parent is unavoidable -- it blocks every query against every partition while it is held".

Definition plain_detach (i : Intent) (o : Observations) (p : TableObs) (parent child : string) (size waiters : Z) : Emitted :=
  {| e_steps := [make (kind_name i) kRequired true [DetachPartition parent child ""]
       ("AccessExclusiveLock on " +:+ parent +:+ " AND on " +:+ child
        +:+ match t_default_partition p with
            | Some d => if String.eqb d child then "" else " AND on the DEFAULT partition " +:+ d
            | None => ""
            end)
       (plain_detach_why o p parent size) [("method", JStr "plain")]];
     e_warnings :=
       match t_default_partition p with
       | Some d =>
           if (140000 <=? o_server_version o) && negb (small_and_quiet size waiters)
           then ["detaching " +:+ child +:+ " (" +:+ human_bytes size
                 +:+ (if 0 <? waiters then ", " +:+ to_string waiters +:+ " lock waiter(s)" else "")
                 +:+ ") takes AccessExclusiveLock on " +:+ parent
                 +:+ " and blocks queries against EVERY partition: the DEFAULT partition " +:+ d
                 +:+ " rules out DETACH ... CONCURRENTLY. Schedule it for a quiet window."]
           else []
       | None => []
       end
       ++ (if o_server_version o <? 140000
           then ["this server is older than PostgreSQL 14, so detaching " +:+ child +:+ " takes AccessExclusiveLock on " +:+ parent
                 +:+ " and blocks queries against EVERY partition, not just this one."]
           else []);
     e_conflicts := [] |}.

(** [plan_detach_partition]. *)
Definition plan_detach_partition (i : Intent) (o : Observations) : Emitted :=
  let parent := in_qualified i in
  let p := table_obs o parent in
  let child := partition_child i in
  let size := table_bytes o child i in
  let waiters := t_lock_waiters p in
  if negb (t_exists p) then let why := parent +:+ " does not exist" in refuse i why why
  else if existsb (String.eqb child) (t_detach_pending p) then emit [finalize_step i parent child]
  else if negb (existsb (String.eqb child) (t_partitions p)) then satisfied i (child +:+ " is not a partition of " +:+ parent)
  else if detach_concurrently_available o p && negb (small_and_quiet size waiters) then
    concurrent_detach i parent child size waiters
  else plain_detach i o p parent child size waiters.

End Tables.
