(* ===== verification/Keys.v ===== *)
(** * Keys: unique constraints, primary keys, exclusion constraints (src/cpp/src/planner.h)

    A key is a unique index: adopted where one is there, built in one statement on a
    small table, built concurrently and then adopted on a large one, and partition by
    partition on a partitioned table. A key with a period and an exclusion constraint
    are GiST indexes that only ADD CONSTRAINT can build, under its lock. *)
From S2P Require Import Prelude Json Canonical Spec Quote RowSql Plan Planner Indexes RowPlan Dml AddColumn Views Tables.

(** ** Texts *)
Definition key_words (primary : bool) : string := if primary then "PRIMARY KEY" else "UNIQUE".
Definition key_type (primary : bool) : string := if primary then "p" else "u".
Definition quoted_list (columns : list string) : string := join ", " (quote_identifier <$> columns).
Definition key_clause (primary : bool) (columns : list string) : string :=
  key_words primary +:+ " (" +:+ quoted_list columns +:+ ")".

Definition schema_of (relation : string) : string := before_char dot relation.

(** ** Partition by partition: what there is to do *)

(** What the catalog's reading (catalog.h) says of an index of a partition, from the
    names and types of the constraints it backs: a constraint only where it is a key's. *)
Definition constraint_of_index (backs : list (string * string)) : option string :=
  fst <$> List.find (fun k => String.eqb k.2 "p" || String.eqb k.2 "u") backs.

Definition part_index_reading (valid unique : bool) (backs : list (string * string)) (attached : option string) : PartIndex :=
  {| px_valid := valid; px_unique := unique; px_constraint := bool_decide (is_Some (constraint_of_index backs));
     px_attached := attached |}.

Record KeyPart : Type := { kp_relation : string; kp_child : string; kp_index : option PartIndex }.

Inductive PartRefusal : Type :=
  | ItselfPartitioned (relation : string)
  | NameTooLong (relation child : string)
  | IndexInTheWay (relation child : string).

(** The loop over [partition_parts], up to the first partition it refuses. *)
Fixpoint key_parts (in_the_way : PartIndex -> bool) (name : string) (parts : list PartObs) :
  result PartRefusal (list KeyPart) :=
  match parts with
  | [] => Ok []
  | p :: parts' =>
      let relation := pt_relation p in
      let child := partition_index_name relation name in
      let ix := pt_indexes p !! child in
      if pt_partitioned p then Err (ItselfPartitioned relation)
      else if (63 <? String.length child)%nat then Err (NameTooLong relation child)
      else if match ix with Some x => in_the_way x | None => false end then Err (IndexInTheWay relation child)
      else todo ← key_parts in_the_way name parts'; Ok ({| kp_relation := relation; kp_child := child; kp_index := ix |} :: todo)
  end.

Definition name_too_long_text (relation child : string) : string :=
  "the constraint on " +:+ relation +:+ " would be named " +:+ dq +:+ child +:+ dq
  +:+ ", which PostgreSQL would truncate at 63 bytes -- and a truncated name is not deterministic, so a resumed recipe could not find what it built. Use a shorter constraint name.".

Definition key_step (i : Intent) (name : string) (c : TxnClass) (sql : list Stmt) (lock why : string) : Step :=
  make (kind_name i) c true sql lock why [("constraint", JStr name)].

Definition part_of (n total : nat) (relation : string) : string :=
  "partition " +:+ to_string (Z.of_nat n) +:+ " of " +:+ to_string (Z.of_nat total) +:+ " (" +:+ relation +:+ ")".

Definition add_without_partitions (i : Intent) (name clause : string) : Step :=
  key_step i name kRequired [AddKey false (in_qualified i) name clause]
    ("AccessExclusiveLock on " +:+ in_qualified i +:+ ", briefly: it has no partitions")
    (in_qualified i
     +:+ " is partitioned and has no partitions yet, so the constraint is a catalog change; each partition created later gets it").

(** ON ONLY the parent. *)
Definition add_on_only (i : Intent) (name clause scans : string) : Step :=
  weaker_lock_only (in_qualified i)
    (key_step i name kRequired [AddKey true (in_qualified i) name clause]
       ("AccessExclusiveLock on " +:+ in_qualified i +:+ " alone, briefly -- no partition is locked or read")
       ("ON ONLY the parent the constraint is a catalog entry whose index holds nothing, so this " +:+ scans
        +:+ " nothing. It stays INVALID until every partition's index is attached, and a partition created meanwhile gets the constraint by itself")).

Definition attach_key_part (i : Intent) (name whose : string) (p : KeyPart) : Step :=
  set_detail "partition" (JStr (kp_relation p))
    (key_step i name kRequired
       [AttachIndexOf (schema_of (in_qualified i)) name (schema_of (kp_relation p)) (kp_child p)]
       "AccessExclusiveLock on the partition's index and ShareUpdateExclusiveLock on the parent's, briefly"
       (whose +:+ ": attached; the constraint on " +:+ in_qualified i +:+ " becomes valid when the last partition's is")).

Definition verify_key (i : Intent) (name : string) : Step :=
  verify_step (schema_of (in_qualified i)) name
    "a partitioned constraint missing even one partition's index exists, is INVALID, and enforces nothing across partitions -- and nothing else would say so".

(** The first column of the partition key that is not among the columns. *)
Definition partition_column_outside (columns key : list string) : option string :=
  List.find (fun k => negb (existsb (String.eqb k) columns)) key.

(** ** [plan_unique_on_partitions] *)
Definition built (p : KeyPart) : bool := match kp_index p with Some x => px_valid x | None => false end.
Definition adopted (p : KeyPart) : bool := match kp_index p with Some x => px_valid x && px_constraint x | None => false end.
Definition attached_as (name : string) (p : KeyPart) : bool :=
  match kp_index p with Some x => bool_decide (px_attached x = Some name) | None => false end.

Definition build_part (i : Intent) (name whose cols : string) (p : KeyPart) : Step :=
  let left_invalid := bool_decide (is_Some (kp_index p)) in
  let schema := schema_of (kp_relation p) in
  set_details ([("partition", JStr (kp_relation p)); ("index", JStr (kp_child p)); ("schema", JStr schema)]
               ++ (if left_invalid then [("recovering_invalid_index", JBool true)] else []))
    (key_step i name kForbidden
       ((if left_invalid then [DropIndex true schema (kp_child p)] else [])
        ++ [CreateIndex true true false (kp_child p) (kp_relation p) (" (" +:+ cols +:+ ")")])
       ("ShareUpdateExclusiveLock on " +:+ kp_relation p +:+ " -- reads and writes continue")
       (whose +:+ ": the index is built concurrently on the partition itself, because CREATE INDEX CONCURRENTLY is refused on the parent")).

Definition adopt_part (i : Intent) (primary : bool) (name whose : string) (p : KeyPart) : Step :=
  set_detail "partition" (JStr (kp_relation p))
    (weaker_lock_first [kp_relation p]
       (key_step i name kRequired [AddKeyUsing (kp_relation p) (kp_child p) (key_words primary) (kp_child p)]
          ("AccessExclusiveLock on " +:+ kp_relation p +:+ ", briefly: no build and no scan under it")
          (whose +:+ ": the index becomes the partition's own constraint, without which PostgreSQL will not attach it to the parent's"))).

Definition part_steps (i : Intent) (primary : bool) (name cols : string) (total n : nat) (p : KeyPart) : list Step :=
  let whose := part_of n total (kp_relation p) in
  (if built p then [] else [build_part i name whose cols p])
  ++ (if adopted p then [] else [adopt_part i primary name whose p])
  ++ (if built p && attached_as name p then [] else [attach_key_part i name whose p]).

Definition key_what (primary : bool) : string := if primary then "primary key" else "unique constraint".

Definition unique_part_refused (i : Intent) (name : string) (r : PartRefusal) : Emitted :=
  match r with
  | ItselfPartitioned relation =>
      refuse i (relation +:+ " is itself partitioned")
        (dq +:+ name +:+ dq +:+ " on " +:+ in_qualified i +:+ ": its partition " +:+ relation
         +:+ " is itself partitioned, so no index can be built on it concurrently either. The recipe would have to descend into its partitions, which pg_laswell does not plan yet; add the constraint by hand, partition by partition, as PostgreSQL's documentation of partitioned tables describes.")
  | NameTooLong relation child =>
      refuse i "a per-partition constraint name would exceed 63 bytes" (name_too_long_text relation child)
  | IndexInTheWay relation child =>
      refuse i (dq +:+ child +:+ dq +:+ " exists and is not unique")
        ("an index named " +:+ dq +:+ child +:+ dq +:+ " already exists on " +:+ relation
         +:+ " and is not unique, so it cannot back " +:+ dq +:+ name +:+ dq
         +:+ ". Drop or rename it in an earlier intent.")
  end.

Definition unique_recipe (i : Intent) (t : TableObs) (primary : bool) (name : string) (columns : list string)
    (todo : list KeyPart) : Emitted :=
  let clause := key_clause primary columns in
  {| e_steps := (if bool_decide (is_Some (t_constraints t !! name)) then [] else [add_on_only i name clause "scans"])
                ++ concat (imap (fun k p => part_steps i primary name (quoted_list columns) (length todo) (S k) p) todo)
                ++ [verify_key i name];
     e_warnings := ["there is no NOT VALID form for a unique constraint, so each partition's index build IS the validation. If ("
        +:+ quoted_list columns
        +:+ ") holds duplicates in a partition its build fails and leaves an INVALID index there, with the constraint on "
        +:+ in_qualified i
        +:+ " added and not yet valid. Remove the duplicates and apply the specification again: it drops that index, builds it again, and carries on from that partition."];
     e_conflicts := [] |}.

Definition plan_unique_on_partitions (i : Intent) (t : TableObs) (primary : bool) (name : string) (columns : list string) : Emitted :=
  let qualified := in_qualified i in
  let partkey := t_partition_key t in
  match partition_key_columns partkey, partition_column_outside columns (partition_key_columns partkey) with
  | [], _ =>
      refuse i ("the partition key of " +:+ qualified +:+ " is an expression")
        (qualified +:+ " is partitioned by " +:+ partkey +:+ ", and PostgreSQL allows no " +:+ key_what primary
         +:+ " on a table whose partition key includes an expression.")
  | _, Some k =>
      refuse i ("the key does not contain the partition column " +:+ k)
        (dq +:+ name +:+ dq +:+ " on " +:+ qualified +:+ ": the key (" +:+ join ", " columns +:+ ") does not contain " +:+ k
         +:+ ", and " +:+ qualified +:+ " is partitioned by " +:+ partkey +:+ ". PostgreSQL: " +:+ dq
         +:+ "unique constraint on partitioned table must include all partitioning columns" +:+ dq +:+ ". Add " +:+ k
         +:+ " to the key.")
  | _, None =>
      match key_parts (fun x => px_valid x && negb (px_unique x)) name (t_partition_parts t) with
      | Err r => unique_part_refused i name r
      | Ok [] => emit [weaker_lock_first [qualified] (add_without_partitions i name (key_clause primary columns))]
      | Ok todo => unique_recipe i t primary name columns todo
      end
  end.

(** ** What only ADD CONSTRAINT can build *)
Record LockedBuild : Type := {
  lb_name : string;
  lb_clause : string;
  lb_what : string;
  lb_equal_columns : list string;
  lb_index_columns : list string;
  lb_gist : bool;
}.

Definition locked_part_steps (i : Intent) (c : LockedBuild) (rehearse : bool) (total n : nat) (p : KeyPart) : list Step :=
  let whose := part_of n total (kp_relation p) in
  let add :=
    set_detail "partition" (JStr (kp_relation p))
      (weaker_lock_first [kp_relation p]
         (key_step i (lb_name c) kRequired [AddKey false (kp_relation p) (kp_child p) (lb_clause c)]
            ("AccessExclusiveLock on " +:+ kp_relation p
             +:+ " for the whole of its index build; the other partitions are not locked")
            (whose
             +:+ ": the index is built on the partition itself, under its own lock, because there is no way to build it without one -- so one partition waits at a time and not the whole table"))) in
  (if bool_decide (is_Some (kp_index p)) then []
   else [if rehearse then add else do_not_rehearse heavy_not_rehearsed_text true add])
  ++ (if attached_as (lb_name c) p then [] else [attach_key_part i (lb_name c) whose p]).

Definition locked_part_refused (i : Intent) (c : LockedBuild) (r : PartRefusal) : Emitted :=
  match r with
  | ItselfPartitioned relation =>
      refuse i (relation +:+ " is itself partitioned")
        (dq +:+ lb_name c +:+ dq +:+ " on " +:+ in_qualified i +:+ ": its partition " +:+ relation
         +:+ " is itself partitioned. The recipe would have to descend into its partitions, which pg_laswell does not plan yet; add the constraint by hand, partition by partition.")
  | NameTooLong relation child =>
      refuse i "a per-partition constraint name would exceed 63 bytes" (name_too_long_text relation child)
  | IndexInTheWay relation child =>
      refuse i (dq +:+ child +:+ dq +:+ " exists and backs no constraint")
        ("an index named " +:+ dq +:+ child +:+ dq +:+ " already exists on " +:+ relation
         +:+ " and is not a constraint's, so the constraint the recipe adds there could not take that name. Drop or rename it in an earlier intent.")
  end.

Definition locked_recipe (i : Intent) (t : TableObs) (c : LockedBuild) (rehearse : bool) (todo : list KeyPart) : Emitted :=
  let qualified := in_qualified i in
  {| e_steps := (if bool_decide (is_Some (t_constraints t !! lb_name c)) then []
                 else [add_on_only i (lb_name c) (lb_clause c) "builds"])
                ++ concat (imap (fun k p => locked_part_steps i c rehearse (length todo) (S k) p) todo)
                ++ [verify_key i (lb_name c)];
     e_warnings := ["a " +:+ lb_what c
        +:+ " has no NOT VALID form and no index that can be built beforehand, so each partition of " +:+ qualified
        +:+ " is locked against reads and writes while its own index builds -- one partition at a time, "
        +:+ to_string (Z.of_nat (length todo))
        +:+ " in all. If a partition holds rows that conflict its step fails there, with the constraint on " +:+ qualified
        +:+ " added and not yet valid; remove the conflict and apply the specification again, and it carries on from that partition."];
     e_conflicts := [] |}.

(** [plan_locked_build_on_partitions]. *)
Definition plan_locked_build_on_partitions (i : Intent) (t : TableObs) (c : LockedBuild) (rehearse : bool) : Emitted :=
  let qualified := in_qualified i in
  let partkey := t_partition_key t in
  match partition_key_columns partkey, partition_column_outside (lb_equal_columns c) (partition_key_columns partkey) with
  | [], _ =>
      refuse i ("the partition key of " +:+ qualified +:+ " is an expression")
        (qualified +:+ " is partitioned by " +:+ partkey +:+ ", and PostgreSQL allows no " +:+ lb_what c
         +:+ " on a table whose partition key includes an expression.")
  | _, Some k =>
      refuse i ("the constraint does not compare the partition column " +:+ k +:+ " for equality")
        (dq +:+ lb_name c +:+ dq +:+ " on " +:+ qualified +:+ ": " +:+ qualified +:+ " is partitioned by " +:+ partkey
         +:+ ", and the " +:+ lb_what c +:+ " does not have " +:+ k +:+ " among the columns it compares with " +:+ dq +:+ "="
         +:+ dq +:+ " (" +:+ join ", " (lb_equal_columns c) +:+ "). PostgreSQL: " +:+ dq
         +:+ "unique constraint on partitioned table must include all partitioning columns" +:+ dq +:+ ", and " +:+ dq
         +:+ "cannot match partition key to index ... using non-equal operator" +:+ dq
         +:+ " where it is there with another operator. Add " +:+ k +:+ " to it, compared with " +:+ dq +:+ "=" +:+ dq +:+ ".")
  | _, None =>
      match key_parts (fun x => negb (px_constraint x)) (lb_name c) (t_partition_parts t) with
      | Err r => locked_part_refused i c r
      | Ok [] => emit [add_without_partitions i (lb_name c) (lb_clause c)]
      | Ok todo => locked_recipe i t c rehearse todo
      end
  end.

(** A column of a base type GiST has no operator class for. *)
Definition no_gist_class (t : TableObs) (column : string) : bool :=
  match t_columns t !! column with
  | Some c => match c_gist c with
              | Some g => negb g && String.eqb (default "" (c_type_kind c)) "b"
              | None => false
              end
  | None => false
  end.

Definition column_type (t : TableObs) (column : string) : string := default "" (c_type <$> t_columns t !! column).

Section Keys.
Context `{Vendors}.

Definition no_class_refused (i : Intent) (o : Observations) (t : TableObs) (c : LockedBuild) (column : string) : Emitted :=
  let qualified := in_qualified i in
  refuse i ("GiST has no operator class for " +:+ qualified +:+ "." +:+ column)
    (dq +:+ lb_name c +:+ dq +:+ " on " +:+ qualified +:+ ": a " +:+ lb_what c
     +:+ " is a GiST index, and GiST has no default operator class for " +:+ column +:+ " (" +:+ column_type t column +:+ ")."
     +:+ (if ob_exists (object_obs o "extension:btree_gist")
          then " btree_gist is installed and does not cover that type."
          else " The extension btree_gist supplies them for integers, text, dates, uuid and the like, and it is not installed: add a create_extension intent for btree_gist before this one.")).

Definition locked_step (i : Intent) (c : LockedBuild) (scope : string) (bytes waiters : Z) : Emitted :=
  let qualified := in_qualified i in
  let brief := small_and_quiet bytes waiters in
  let s := make (kind_name i) kRequired (negb brief) [AddKey false qualified (lb_name c) (lb_clause c)]
             ("AccessExclusiveLock on " +:+ scope +:+ " for the whole of the index build")
             ("a " +:+ lb_what c
              +:+ " is built by this statement and no other: there is no NOT VALID form and no index that can be built beforehand and adopted. "
              +:+ human_bytes bytes +:+ " to index" +:+ (if brief then ", which is brief" else ""))
             [("constraint", JStr (lb_name c))] in
  if brief then emit [s]
  else
    {| e_steps := [do_not_rehearse heavy_not_rehearsed_text true s];
       e_warnings := [dq +:+ lb_name c +:+ dq +:+ " on " +:+ qualified
          +:+ " is added in one statement that holds AccessExclusiveLock on " +:+ scope
          +:+ " while a GiST index is built over " +:+ human_bytes bytes
          +:+ (if 0 <? waiters then ", with sessions already waiting on the table" else "")
          +:+ ": every reader and writer queues for the whole build. PostgreSQL offers no other way to add a " +:+ lb_what c
          +:+ " to a table that has rows -- measured on 18.6 at 20.8 s for 2 million rows -- so schedule it for a window, or partition the table, where it is done a partition at a time."];
       e_conflicts := [] |}.

(** [plan_locked_build]. *)
Definition plan_locked_build (i : Intent) (o : Observations) (t : TableObs) (c : LockedBuild) : Emitted :=
  let qualified := in_qualified i in
  match (if lb_gist c then List.find (no_gist_class t) (lb_index_columns c) else None) with
  | Some column => no_class_refused i o t c column
  | None =>
      let bytes := table_bytes o qualified i in
      let waiters := t_lock_waiters t in
      if String.eqb (t_kind t) "partitioned_table"
      then plan_locked_build_on_partitions i t c (small_and_quiet bytes waiters)
      else
        let scope := match index_traits o qualified i with
                     | Some (_, tr) => if String.eqb (it_scope tr) "" then qualified else it_scope tr
                     | None => qualified
                     end in
        locked_step i c scope bytes waiters
  end.

(** ** [plan_unique_like] *)

(** The constraint is there on the parent alone, its index not yet valid. *)
Definition unfinished (t : TableObs) (name type : string) : bool :=
  String.eqb (t_kind t) "partitioned_table"
  && match t_constraints t !! name with Some k => String.eqb (k_type k) type | None => false end
  && match t_indexes t !! name with Some x => negb (i_is_valid x) | None => false end.

(** A constraint of the name that is there and not to be resumed. *)
Definition already_there (i : Intent) (t : TableObs) (name type what : string) : option Emitted :=
  match t_constraints t !! name with
  | Some k =>
      if unfinished t name type then None
      else if String.eqb (k_type k) type then Some (satisfied i (name +:+ " is already present on " +:+ in_qualified i))
      else Some (refuse i (name +:+ " exists as a different constraint type")
                   (name +:+ " already exists on " +:+ in_qualified i +:+ " as contype '" +:+ k_type k +:+ "', not as " +:+ what
                    +:+ ". Drop it in an earlier intent if it is to be replaced."))
  | None => None
  end.

Definition primary_key_of (t : TableObs) : option string :=
  fst <$> List.find (fun kc => String.eqb (k_type kc.2) "p") (by_key (map_to_list (t_constraints t))).

(** The columns of a primary key that are not NOT NULL yet, made so first. *)
Definition nullable_keys (t : TableObs) (columns : list string) : list string :=
  List.filter (fun c => negb (match t_columns t !! c with Some x => c_not_null x | None => false end)) columns.

Definition key_not_null (i : Intent) (column : string) : Intent :=
  {| kind := kSetNotNull; kind_name := "set_not_null"; ordinal := ordinal i;
     body := JObj [("schema", JStr (in_schema i)); ("table", JStr (in_table i)); ("column", JStr column)] |}.

Definition make_not_null (i : Intent) (o : Observations) (columns : list string) : Emitted :=
  emit_all ((fun c => and_emit (plan_set_not_null (key_not_null i c) o)
    (warn [in_qualified i +:+ "." +:+ c
           +:+ " is nullable, and a primary key makes it NOT NULL either way. The plan does that first through the NOT VALID check recipe, because letting ADD PRIMARY KEY do it costs a full scan under AccessExclusiveLock -- measured at 75ms on 2M rows against 0.6ms when the column is already NOT NULL, and it grows with the table."]))
    <$> columns).

(** A key with a period. *)
Definition plan_period_key (i : Intent) (o : Observations) (t : TableObs) (primary : bool) (name : string)
    (columns : list string) : Emitted :=
  let period := default "" (last columns) in
  let kind_of := default "r" (t_columns t !! period ≫= c_type_kind) in
  if negb (String.eqb kind_of "r") && negb (String.eqb kind_of "m") then
    refuse i (in_qualified i +:+ "." +:+ period +:+ " is not a range")
      (dq +:+ name +:+ dq +:+ " on " +:+ in_qualified i +:+ ": without_overlaps makes the last column, " +:+ period
       +:+ ", the period, and it is " +:+ column_type t period +:+ ". PostgreSQL: " +:+ dq
       +:+ "column in WITHOUT OVERLAPS is not a range or multirange type" +:+ dq
       +:+ ". Two columns that hold a start and an end are not a period until they are one range column.")
  else
    plan_locked_build i o t
      {| lb_name := name;
         lb_clause := key_words primary +:+ " (" +:+ join ", " (mark_last " WITHOUT OVERLAPS" (quote_identifier <$> columns)) +:+ ")";
         lb_what := key_what primary +:+ " with a period";
         lb_equal_columns := removelast columns; lb_index_columns := columns; lb_gist := true |}.

(** A valid unique index over exactly these columns. *)
Definition backing_index (t : TableObs) (columns : list string) : option string :=
  fst <$> List.find (fun ni =>
            i_is_valid ni.2 && i_is_unique ni.2 && negb (i_has_expressions ni.2) && String.eqb (i_predicate ni.2) ""
            && bool_decide (i_columns ni.2 = columns)) (indexes_of t).

Definition adopt_index (i : Intent) (primary : bool) (name : string) (columns : list string) (backing : string)
    (was_nullable : bool) : Emitted :=
  let s := key_step i name kRequired [AddKeyUsing (in_qualified i) name (key_words primary) backing]
             ("AccessExclusiveLock on " +:+ in_qualified i +:+ ", but with no index build and no scan under it")
             ("index " +:+ dq +:+ backing +:+ dq +:+ " already covers (" +:+ quoted_list columns
              +:+ ") and is valid and unique, so the constraint is a catalog change over a build that is already paid for") in
  {| e_steps := [if was_nullable then do_not_rehearse needs_the_scan_text true s else s];
     e_warnings := if String.eqb backing name then []
                   else ["ADD CONSTRAINT ... USING INDEX renames the index: " +:+ dq +:+ backing +:+ dq +:+ " becomes " +:+ dq
                         +:+ name +:+ dq
                         +:+ ". Anything naming the old index -- a dashboard, an alert, a REINDEX script -- stops matching, and PostgreSQL reports it only as a NOTICE."];
     e_conflicts := [] |}.

Definition one_statement_key (i : Intent) (primary : bool) (name : string) (columns : list string) (size : Z) (heavy : bool) : Step :=
  let s := make (kind_name i) kOptional false [AddKey false (in_qualified i) name (key_clause primary columns)]
             ("AccessExclusiveLock and ShareLock on " +:+ in_qualified i +:+ " while the index builds")
             ("size " +:+ human_bytes size
              +:+ " < 64 MiB and no lock waiters, so one statement is briefer than a concurrent build plus a second exclusive lock")
             [("constraint", JStr name)] in
  if heavy then do_not_rehearse heavy_not_rehearsed_text true s else s.

Definition build_then_adopt (i : Intent) (primary : bool) (name : string) (columns : list string) (size waiters : Z) : Emitted :=
  {| e_steps :=
       [key_step i name kForbidden
          [CreateIndex true true false name (in_qualified i) (" (" +:+ quoted_list columns +:+ ")")]
          "ShareUpdateExclusiveLock -- does NOT block reads or writes"
          ("size " +:+ human_bytes size
           +:+ (if 0 <? waiters then " with " +:+ to_string waiters +:+ " lock waiter(s)" else "")
           +:+ ": step 1 of 2, build the index without blocking the application. It is named after the constraint because USING INDEX would rename it to that anyway");
        key_step i name kRequired [AddKeyUsing (in_qualified i) name (key_words primary) name]
          ("AccessExclusiveLock on " +:+ in_qualified i +:+ ", briefly and with no scan")
          "step 2 of 2: the lock is the same LEVEL a plain ADD CONSTRAINT takes, and that is the point -- what the concurrent build removed is the index build held under it, not the lock itself"];
     e_warnings := ["there is no NOT VALID form for a unique constraint, so the index build IS the validation. If ("
        +:+ quoted_list columns +:+ ") on " +:+ in_qualified i
        +:+ " holds duplicates the concurrent build fails and leaves an INVALID index named " +:+ dq +:+ name +:+ dq
        +:+ "; USING INDEX then refuses it, so the job stops rather than creating a constraint nothing checked. Clear it with a drop_index intent before retrying."];
     e_conflicts := [] |}.

(** The key of an ordinary table. *)
Definition plan_plain_key (i : Intent) (o : Observations) (t : TableObs) (primary : bool) (name : string)
    (columns : list string) (was_nullable : bool) : Emitted :=
  let qualified := in_qualified i in
  let tr := index_traits o qualified i in
  let size := table_bytes o qualified i in
  let waiters := t_lock_waiters t in
  let no_concurrent := match tr with Some (_, x) => negb (it_concurrent x) | None => false end in
  let quiet := small_and_quiet size waiters in
  let heavy := no_concurrent && negb quiet in
  let said :=
    match tr with
    | Some (by_, x) =>
        if heavy
        then ["the constraint on " +:+ qualified +:+ " is added in one statement although the data is " +:+ human_bytes size
              +:+ (if 0 <? waiters then " and sessions are waiting" else "") +:+ ": " +:+ by_
              +:+ " allows no concurrent index build here, so AccessExclusiveLock is held on "
              +:+ (if String.eqb (it_scope x) "" then qualified else it_scope x)
              +:+ " while the unique index builds. Schedule it for a quiet window."]
        else []
    | None => []
    end in
  and_emit (warn said)
    match backing_index t columns with
    | Some backing => adopt_index i primary name columns backing was_nullable
    | None =>
        if quiet || no_concurrent then emit [one_statement_key i primary name columns size heavy]
        else build_then_adopt i primary name columns size waiters
    end.

(** [plan_unique_like]. *)
Definition plan_unique_like (i : Intent) (o : Observations) : Emitted :=
  let primary := bool_decide (kind i = kAddPrimaryKey) in
  let qualified := in_qualified i in
  let t := table_obs o qualified in
  let name := bstr i "name" "" in
  let columns := bstrs i "columns" in
  let type := key_type primary in
  if negb (t_exists t) then let why := qualified +:+ " does not exist" in refuse i why why
  else
    match List.find (fun c => negb (bool_decide (is_Some (t_columns t !! c)))) columns with
    | Some c =>
        refuse i (qualified +:+ "." +:+ c +:+ " does not exist")
          (qualified +:+ "." +:+ c +:+ " does not exist, so no constraint can cover it")
    | None =>
        match already_there i t name type (if primary then "a primary key" else "a unique constraint") with
        | Some e => e
        | None =>
            match (if primary && negb (unfinished t name type) then primary_key_of t else None) with
            | Some other =>
                refuse i (qualified +:+ " already has a primary key")
                  (qualified +:+ " already has primary key " +:+ dq +:+ other +:+ dq
                   +:+ ". A table has at most one; drop that constraint in an earlier intent before adding another.")
            | None =>
                let nullable := if primary then nullable_keys t columns else [] in
                and_emit (make_not_null i o nullable)
                  (if bbool i "without_overlaps" false then plan_period_key i o t primary name columns
                   else if String.eqb (t_kind t) "partitioned_table" then plan_unique_on_partitions i t primary name columns
                   else plan_plain_key i o t primary name columns (match nullable with [] => false | _ => true end))
            end
        end
    end.

(** ** [plan_add_exclusion_constraint] *)
Definition exclusion_elements (i : Intent) : list json := elements (at_key (body i) "elements").

Definition element_sql (e : json) : string :=
  (if contains e "column" then quote_identifier (text_at e "column") else "(" +:+ text_at e "expression" +:+ ")")
  +:+ " WITH " +:+ text_at e "with".

Definition exclusion_columns (es : list json) : list string :=
  omap (fun e => if contains e "column" then Some (text_at e "column") else None) es.

Definition exclusion_build (i : Intent) : LockedBuild :=
  let es := exclusion_elements i in
  let method := bstr i "using" "gist" in
  {| lb_name := bstr i "name" "";
     lb_clause := "EXCLUDE USING " +:+ quote_identifier method +:+ " (" +:+ join ", " (element_sql <$> es) +:+ ")"
                  +:+ (if contains (body i) "where" then " WHERE (" +:+ bstr i "where" "" +:+ ")" else "");
     lb_what := "exclusion constraint";
     lb_equal_columns := exclusion_columns (List.filter (fun e => String.eqb (text_at e "with") "=") es);
     lb_index_columns := exclusion_columns es;
     lb_gist := String.eqb method "gist" |}.

Definition plan_add_exclusion_constraint (i : Intent) (o : Observations) : Emitted :=
  let qualified := in_qualified i in
  let t := table_obs o qualified in
  let c := exclusion_build i in
  if negb (t_exists t) then let why := qualified +:+ " does not exist" in refuse i why why
  else
    match List.find (fun c => negb (bool_decide (is_Some (t_columns t !! c)))) (lb_index_columns c) with
    | Some col =>
        refuse i (qualified +:+ "." +:+ col +:+ " does not exist")
          (qualified +:+ "." +:+ col +:+ " does not exist, so no constraint can compare it")
    | None => default (plan_locked_build i o t c) (already_there i t (lb_name c) "x" "an exclusion constraint")
    end.
End Keys.
