(* ===== verification/Objects.v ===== *)
(** * Objects: what is not a table (src/cpp/src/planner.h, plan_object)

    Schemas, extensions, types, enum labels, functions, sequences, and views dropped:
    one step each, in a transaction, refused where something depends on what would go. *)
From S2P Require Import Prelude Json Canonical Spec Quote RowSql Plan Planner Indexes RowPlan Dml AddColumn Views Tables.

(** ** Outcomes *)

(** [Step step; step.txn_class = kRequired]. *)
Definition object_opened (i : Intent) : Step := make (kind_name i) kRequired false [] "" "" [].
Definition object_satisfied (i : Intent) (why : string) : Emitted := emit [with_action kSatisfied why (object_opened i)].
Definition object_refused (i : Intent) (why text : string) : Emitted :=
  {| e_steps := [with_action kConflict why (object_opened i)]; e_warnings := []; e_conflicts := [text] |}.
Definition object_applied (i : Intent) (sql : list Stmt) (lock why : string) (ws : list string) : Emitted :=
  {| e_steps := [make (kind_name i) kRequired false sql lock why []]; e_warnings := ws; e_conflicts := [] |}.

Definition object_schema (i : Intent) : string := bstr i "schema" "".
Definition object_name (i : Intent) : string := bstr i "name" "".
Definition object_qualified (i : Intent) : string := object_schema i +:+ "." +:+ object_name i.

(** [refuse_if_depended_on], and what comes after it. *)
Definition unless_depended_on (i : Intent) (x : ObjectObs) (what : string) (e : Emitted) : Emitted :=
  match ob_depended_on_by x with
  | [] => e
  | names =>
      object_refused i (what +:+ " is depended on by " +:+ to_string (Z.of_nat (length names)) +:+ " object(s)")
        ("cannot drop " +:+ what +:+ ": " +:+ join ", " names +:+ " depend" +:+ (if (length names =? 1)%nat then "s" else "")
         +:+ " on it. PostgreSQL would refuse this and suggest CASCADE; pg_laswell will not emit CASCADE, because it drops objects the spec never named. Remove them in earlier intents.")
  end.

Definition comment_text (i : Intent) : string := bstr i "comment" "".

(** ** Schemas *)
Definition plan_create_schema (i : Intent) (o : Observations) : Emitted :=
  let schema := object_schema i in
  if ob_exists (object_obs o ("schema:" +:+ schema)) then object_satisfied i ("schema " +:+ schema +:+ " already exists")
  else
    object_applied i
      ([OtherSql ("CREATE SCHEMA " +:+ quote_identifier schema +:+ ";")]
       ++ (if contains (body i) "owner"
           then [OtherSql ("ALTER SCHEMA " +:+ quote_identifier schema +:+ " OWNER TO " +:+ quote_identifier (bstr i "owner" "") +:+ ";")]
           else [])
       ++ [CommentOn ("SCHEMA " +:+ quote_identifier schema) (comment_text i)])
      "no lock on any existing object" "creating a schema locks nothing and is instant" [].

Definition plan_drop_schema (i : Intent) (o : Observations) : Emitted :=
  let schema := object_schema i in
  let x := object_obs o ("schema:" +:+ schema) in
  if negb (ob_exists x) then object_satisfied i ("schema " +:+ schema +:+ " does not exist")
  else
    match ob_contains x with
    | [] => object_applied i [OtherSql ("DROP SCHEMA " +:+ quote_identifier schema +:+ ";")] "AccessExclusiveLock on the schema"
              "the schema is empty, so this removes only the schema itself" []
    | names =>
        object_refused i ("schema " +:+ schema +:+ " is not empty")
          ("cannot drop schema " +:+ schema +:+ ": it still contains " +:+ to_string (Z.of_nat (length names)) +:+ " object(s) -- "
           +:+ join ", " names
           +:+ ". Dropping a schema with CASCADE is the widest blast radius in this tool and pg_laswell will not do it; drop what is inside in earlier intents, where each one is named and reviewed.")
    end.

(** ** Extensions *)

(** [require_out_of_band]. *)
Definition require_out_of_band (kind target where_ requirement verify : string) (blocking : bool) : json :=
  JObj [("kind", JStr kind); ("target", JStr target); ("where", JStr where_); ("requirement", JStr requirement);
        ("verify", JStr verify); ("blocking", JBool blocking)].

Definition extension_unavailable (i : Intent) (ext : string) : Emitted * list json :=
  (object_refused i (ext +:+ " is not available on this server")
     ("extension " +:+ dq +:+ ext +:+ dq
      +:+ " is not in pg_available_extensions on this server, so CREATE EXTENSION would fail. Its files are installed on the host by a package, not by a migration -- this is an infrastructure prerequisite, not something the spec can fix."),
   [require_out_of_band "package" ext "the database host"
      ("the extension's files must be installed by a package -- typically postgresql-<version>-" +:+ ext
       +:+ " or a vendor build -- before any migration can create it")
      ("SELECT 1 FROM pg_available_extensions WHERE name = " +:+ quote_literal ext) true]).

Definition extension_warnings (i : Intent) (x : ObjectObs) (ext : string) : list string :=
  (if contains (body i) "schema" then []
   else ["create_extension for " +:+ dq +:+ ext +:+ dq
         +:+ " does not name a schema, so its objects land wherever search_path points when this runs -- measured, that is public by default. Where an extension lives affects every later query's search_path and every dump and restore, and moving it afterwards is far harder than choosing now. Name the schema."])
  ++ match ob_default_version x with
     | Some v =>
         ["this server would install " +:+ dq +:+ ext +:+ dq +:+ " at version " +:+ v
          +:+ (if contains (body i) "version" then ", and the spec asks for " +:+ bstr i "version" "" else ", and the spec does not pin one")
          +:+ ". An unpinned version means two databases can end up with different behaviour from the same repository."]
     | None => []
     end.

Definition plan_create_extension (i : Intent) (o : Observations) : Emitted * list json :=
  let ext := object_name i in
  let x := object_obs o ("extension:" +:+ ext) in
  if ob_exists x then
    (object_satisfied i ("extension " +:+ ext +:+ " is already installed"
                         +:+ match ob_version x with Some v => " at version " +:+ v | None => "" end), [])
  else if negb (default true (ob_available x)) then extension_unavailable i ext
  else
    (object_applied i
       [OtherSql ("CREATE EXTENSION " +:+ quote_identifier ext
                  +:+ (if contains (body i) "schema" then " SCHEMA " +:+ quote_identifier (bstr i "schema" "") else "")
                  +:+ (if contains (body i) "version" then " VERSION " +:+ quote_literal (bstr i "version" "") else "") +:+ ";")]
       "no lock on any existing object, but see the warning"
       "installing an extension creates every object it defines, in one transaction" (extension_warnings i x ext), []).

Definition plan_drop_extension (i : Intent) (o : Observations) : Emitted :=
  let ext := object_name i in
  let x := object_obs o ("extension:" +:+ ext) in
  if negb (ob_exists x) then object_satisfied i ("extension " +:+ ext +:+ " is not installed")
  else
    unless_depended_on i x ("extension " +:+ ext)
      (object_applied i [OtherSql ("DROP EXTENSION " +:+ quote_identifier ext +:+ ";")]
         "AccessExclusiveLock on every object the extension owns" "nothing outside the extension depends on it"
         ["dropping extension " +:+ dq +:+ ext +:+ dq
          +:+ " removes every function, type, operator and index method it defines. Any index using an operator class from it goes too, and queries written against it stop parsing."]).

(** ** Types *)
Definition type_sql (i : Intent) (tk sql_rel : string) : string :=
  if String.eqb tk "enum" then
    "CREATE TYPE " +:+ sql_rel +:+ " AS ENUM (" +:+ join ", " (quote_literal <$> bstrs i "labels") +:+ ");"
  else if String.eqb tk "domain" then
    "CREATE DOMAIN " +:+ sql_rel +:+ " AS " +:+ bstr i "base" "" +:+ (if bbool i "not_null" false then " NOT NULL" else "")
    +:+ (if contains (body i) "check" then " CHECK (" +:+ bstr i "check" "" +:+ ")" else "") +:+ ";"
  else
    "CREATE TYPE " +:+ sql_rel +:+ " AS ("
    +:+ join ", " ((fun a => quote_identifier (text_at a "name") +:+ " " +:+ text_at a "type") <$> elements (at_key (body i) "attributes"))
    +:+ ");".

Definition plan_create_type (i : Intent) (o : Observations) : Emitted :=
  let qualified := object_qualified i in
  let x := object_obs o ("type:" +:+ qualified) in
  let tk := bstr i "type_kind" "" in
  let sql_rel := quote_qualified qualified in
  if ob_exists x then
    let why := "type " +:+ qualified +:+ " already exists as a " +:+ ob_type_kind x in
    if String.eqb (ob_type_kind x) tk then object_satisfied i why
    else
      object_refused i why
        ("type " +:+ qualified +:+ " exists as a " +:+ ob_type_kind x +:+ ", and the spec declares a " +:+ tk
         +:+ ". Those are different types with one name; drop the existing one in an earlier intent if it is really meant to be replaced.")
  else
    object_applied i
      [OtherSql (type_sql i tk sql_rel);
       CommentOn ((if String.eqb tk "domain" then "DOMAIN " else "TYPE ") +:+ sql_rel) (comment_text i)]
      "no lock on any existing object" "creating a type locks nothing"
      (if String.eqb tk "enum"
       then ["an enum's labels can be ADDED later but never removed -- measured: " +:+ dq
             +:+ "dropping an enum value is not implemented" +:+ dq +:+ ". Every label in " +:+ qualified
             +:+ " is permanent for the life of the type, so a misspelling is repaired only by recreating the type and every column that uses it. A CHECK constraint over text is the reversible alternative."]
       else []).

Definition plan_drop_type (i : Intent) (o : Observations) : Emitted :=
  let qualified := object_qualified i in
  let x := object_obs o ("type:" +:+ qualified) in
  if negb (ob_exists x) then object_satisfied i ("type " +:+ qualified +:+ " does not exist")
  else
    unless_depended_on i x ("type " +:+ qualified)
      (object_applied i [OtherSql ("DROP TYPE " +:+ quote_qualified qualified +:+ ";")] "AccessExclusiveLock on the type"
         ("nothing uses " +:+ qualified) []).

Definition plan_add_enum_value (i : Intent) (o : Observations) : Emitted :=
  let qualified := object_qualified i in
  let x := object_obs o ("type:" +:+ qualified) in
  let value := bstr i "value" "" in
  if negb (ob_exists x) then let why := "type " +:+ qualified +:+ " does not exist" in object_refused i why why
  else if existsb (String.eqb value) (ob_enum_labels x) then object_satisfied i (qualified +:+ " already has the label " +:+ value)
  else
    {| e_steps :=
         [make (kind_name i) kRequired true
            [OtherSql ("ALTER TYPE " +:+ quote_qualified qualified +:+ " ADD VALUE " +:+ quote_literal value
                       +:+ (if contains (body i) "before" then " BEFORE " +:+ quote_literal (bstr i "before" "")
                            else if contains (body i) "after" then " AFTER " +:+ quote_literal (bstr i "after" "") else "")
                       +:+ ";")]
            "no table lock; the type's row is updated"
            ("added in its own transaction because PostgreSQL refuses to USE a new enum label until the transaction that added it has committed ("
             +:+ dq +:+ "unsafe use of new value" +:+ dq +:+ ") -- so anything backfilling with " +:+ value
             +:+ " must come after this commits, which this boundary guarantees") []];
       e_warnings := ["adding " +:+ dq +:+ value +:+ dq +:+ " to " +:+ qualified
          +:+ " is IRREVERSIBLE: PostgreSQL has no way to remove an enum label (" +:+ dq
          +:+ "dropping an enum value is not implemented" +:+ dq
          +:+ "). There is no revert for this step, in this tool or by hand, short of recreating the type and every column that uses it."];
       e_conflicts := [] |}.

(** ** Functions *)
Definition arguments_of (i : Intent) : list json := elements (at_key (body i) "arguments").

(** [function_signature]. *)
Definition function_signature (i : Intent) : string :=
  quote_identifier (object_schema i) +:+ "." +:+ quote_identifier (object_name i) +:+ "("
  +:+ join ", " ((fun a => text_at a "type") <$> arguments_of i) +:+ ")".

Definition argument_sql (a : json) : string :=
  (if contains a "name" then quote_identifier (text_at a "name") +:+ " " else "") +:+ text_at a "type".

(** The statement up to the body, and the tag the body is quoted with. *)
Definition function_head (i : Intent) (routine returns : string) : string :=
  "CREATE OR REPLACE " +:+ routine +:+ " " +:+ quote_qualified (object_qualified i) +:+ "("
  +:+ join ", " (argument_sql <$> arguments_of i)
  +:+ (if String.eqb routine "PROCEDURE" then ")" else ")" +:+ nl +:+ "  RETURNS " +:+ returns)
  +:+ nl +:+ "  LANGUAGE " +:+ bstr i "language" ""
  +:+ (if contains (body i) "volatility" then nl +:+ "  " +:+ bstr i "volatility" "" else "")
  +:+ (if bbool i "strict" false then nl +:+ "  STRICT" else "")
  +:+ (if bbool i "security_definer" false then nl +:+ "  SECURITY DEFINER" else "").

Definition body_tag : string := "$laswell$".

Definition function_sql (i : Intent) (routine returns : string) : string :=
  function_head i routine returns +:+ nl +:+ "AS " +:+ body_tag +:+ bstr i "body" "" +:+ body_tag +:+ ";".

Definition definer_warning (i : Intent) : list string :=
  if bbool i "security_definer" false
  then [function_signature i
        +:+ " is SECURITY DEFINER: it runs with the OWNER's privileges, not the caller's, so it bypasses whatever the caller is otherwise denied -- including row-level security. Set an explicit search_path inside the body, or a caller can change what the function resolves."]
  else [].

(** What an existing function returns, read as a string; [None] is the exception where
    the reading has null there. *)
Definition returns_read (x : ObjectObs) : option string := if ob_exists x then ob_returns x else Some "".

Definition plan_create_function (i : Intent) (o : Observations) : option Emitted :=
  let signature := function_signature i in
  let x := object_obs o ("function:" +:+ object_qualified i) in
  let returns := bstr i "returns" "" in
  let routine := bstr i "routine_kind" "FUNCTION" in
  was ← returns_read x;
  Some
    (if ob_exists x && negb (String.eqb was returns) then
       object_refused i (signature +:+ " changes its return type from " +:+ was +:+ " to " +:+ returns)
         ("cannot replace " +:+ signature +:+ ": its return type would change from " +:+ was +:+ " to " +:+ returns
          +:+ ", and PostgreSQL refuses that (" +:+ dq +:+ "cannot change return type of existing function" +:+ dq
          +:+ "). The only way through is DROP then CREATE, which loses the function's comment, its grants and its owner, and breaks every view that depends on it -- so it belongs in explicit drop_function and create_function intents, not hidden inside a replace.")
     else
       object_applied i
         [OtherSql (function_sql i routine returns); CommentOn (routine +:+ " " +:+ signature) (comment_text i)]
         "no lock on any table"
         (if ob_exists x
          then "CREATE OR REPLACE keeps the comment, grants, owner and the function's OID, so every dependent view survives -- measured; a drop and recreate would lose all four"
          else "creating a function locks nothing")
         (definer_warning i)).

Definition plan_drop_function (i : Intent) (o : Observations) : Emitted :=
  let signature := function_signature i in
  let x := object_obs o ("function:" +:+ object_qualified i) in
  if negb (ob_exists x) then object_satisfied i ("no function " +:+ signature)
  else
    unless_depended_on i x ("function " +:+ signature)
      (object_applied i [OtherSql ("DROP " +:+ bstr i "routine_kind" "FUNCTION" +:+ " " +:+ signature +:+ ";")]
         "AccessExclusiveLock on the function" ("nothing depends on " +:+ signature) []).

(** ** Sequences *)
Definition plan_create_sequence (i : Intent) (o : Observations) : Emitted :=
  let qualified := object_qualified i in
  let sql_rel := quote_qualified qualified in
  if ob_exists (object_obs o ("sequence:" +:+ qualified)) then object_satisfied i ("sequence " +:+ qualified +:+ " already exists")
  else
    object_applied i
      [OtherSql ("CREATE SEQUENCE " +:+ sql_rel
                 +:+ (if contains (body i) "increment" then " INCREMENT BY " +:+ to_string (bint i "increment" 1) else "")
                 +:+ (if contains (body i) "start" then " START WITH " +:+ to_string (bint i "start" 1) else "")
                 +:+ (if contains (body i) "owned_by" then " OWNED BY " +:+ bstr i "owned_by" "" else "") +:+ ";");
       CommentOn ("SEQUENCE " +:+ sql_rel) (comment_text i)]
      "no lock on any existing object" "creating a sequence locks nothing"
      (if contains (body i) "owned_by" then []
       else ["sequence " +:+ qualified
             +:+ " is not OWNED BY a column, so it survives every table that uses it and is not dropped with them. That is occasionally what is wanted and usually an oversight."]).

Definition plan_drop_sequence (i : Intent) (o : Observations) : Emitted :=
  let qualified := object_qualified i in
  let x := object_obs o ("sequence:" +:+ qualified) in
  if negb (ob_exists x) then object_satisfied i ("sequence " +:+ qualified +:+ " does not exist")
  else
    unless_depended_on i x ("sequence " +:+ qualified)
      (object_applied i [OtherSql ("DROP SEQUENCE " +:+ quote_qualified qualified +:+ ";")] "AccessExclusiveLock on the sequence"
         ("nothing depends on " +:+ qualified) []).

(** ** Views *)
Definition plan_drop_view (i : Intent) (o : Observations) : Emitted :=
  let qualified := object_qualified i in
  let t := table_obs o qualified in
  let matview := String.eqb (t_kind t) "materialized_view" in
  if negb (t_exists t) then object_satisfied i (qualified +:+ " does not exist")
  else if negb (String.eqb (t_kind t) "view") && negb matview then
    object_refused i (qualified +:+ " is a " +:+ t_kind t +:+ ", not a view")
      (qualified +:+ " is a " +:+ t_kind t
       +:+ ". drop_view will not drop a table; drop_table is the intent that says so out loud, and warns about the data.")
  else
    match (views_items (t_dependent_views t)).*1 with
    | [] =>
        object_applied i [DropView matview (quote_qualified qualified)] ("AccessExclusiveLock on " +:+ qualified)
          ("nothing reads " +:+ qualified)
          (if matview
           then [qualified +:+ " is a materialized view, so this discards its stored data as well as its definition. Recreating it re-runs the query in full."]
           else [])
    | names =>
        object_refused i (qualified +:+ " has views stacked on it")
          ("cannot drop " +:+ qualified +:+ ": " +:+ join ", " names
           +:+ " read it. Drop them first, in earlier intents. CASCADE would take the whole stack, which is measured to leave zero views standing.")
    end.

(** [plan_object]; [None] is an exception. *)
Definition plan_object (i : Intent) (o : Observations) : option (Emitted * list json) :=
  let plain e := Some (e, []) in
  match kind i with
  | kCreateSchema => plain (plan_create_schema i o)
  | kDropSchema => plain (plan_drop_schema i o)
  | kCreateExtension => Some (plan_create_extension i o)
  | kDropExtension => plain (plan_drop_extension i o)
  | kCreateType => plain (plan_create_type i o)
  | kDropType => plain (plan_drop_type i o)
  | kAddEnumValue => plain (plan_add_enum_value i o)
  | kCreateFunction => e ← plan_create_function i o; plain e
  | kDropFunction => plain (plan_drop_function i o)
  | kCreateSequence => plain (plan_create_sequence i o)
  | kDropSequence => plain (plan_drop_sequence i o)
  | kDropView => plain (plan_drop_view i o)
  | _ => plain (emit [object_opened i])
  end.
