(* ===== verification/Security.v ===== *)
(** * Security: row security, policies, triggers, privileges (src/cpp/src/planner.h, plan_security)

    One step each, in a transaction: what is already so is satisfied, what would be
    silent is said. *)
From S2P Require Import Prelude Json Canonical Spec Quote RowSql Plan Planner Indexes RowPlan Dml AddColumn Views Tables Objects.

(** ** Row security *)
Definition row_security_warnings (t : TableObs) (qualified : string) (force : bool) : list string :=
  (if bool_decide (t_policies t = ∅)
   then ["enabling row-level security on " +:+ qualified
         +:+ " with NO POLICY hides every row from every non-owner. Measured on 18.6: an application role reading the table went from 1000 rows to 0, with no error -- the query succeeds and returns nothing. Create the policies in EARLIER intents than this one."]
   else [])
  ++ ["you will probably not be able to see this working. Measured: a table's OWNER bypasses row-level security unless FORCE is also set"
      +:+ (if force then " (this plan sets it)" else "")
      +:+ ", and a SUPERUSER bypasses it whatever either flag says. Verifying an RLS change from a superuser session shows no change at all, however wrong the policy is. Check it as the application role, with SET ROLE."].

Definition plan_set_row_security (i : Intent) (t : TableObs) : Emitted :=
  let qualified := in_qualified i in
  let want := bbool i "enabled" false in
  let force := bbool i "force" false in
  if Bool.eqb (t_row_security t).1 want && Bool.eqb (t_row_security t).2 force then
    object_satisfied i ("row security on " +:+ qualified +:+ " is already " +:+ (if want then "enabled" else "disabled")
                        +:+ (if force then " and forced" else ""))
  else
    {| e_steps :=
         [make (kind_name i) kRequired false
            ([RowSecurity qualified (if want then RlsEnable else RlsDisable)]
             ++ (if want then [RowSecurity qualified (if force then RlsForce else RlsNoForce)] else []))
            ("AccessExclusiveLock on " +:+ qualified)
            ((if want then "enabling" else "disabling")
             +:+ " row-level security is a catalog change, and its effect is immediate for every session already connected")
            [("enabled", JBool want); ("forced", JBool force)]];
       e_warnings := if want then row_security_warnings t qualified force else [];
       e_conflicts := [] |}.

(** ** Policies *)
Definition policy_sql (i : Intent) : string :=
  "CREATE POLICY " +:+ quote_identifier (object_name i) +:+ " ON " +:+ quote_qualified (in_qualified i)
  +:+ (if contains (body i) "command" then " FOR " +:+ bstr i "command" "" else "")
  +:+ (if contains (body i) "roles" then " TO " +:+ join ", " (quote_identifier <$> bstrs i "roles") else "")
  +:+ (if contains (body i) "using" then " USING (" +:+ bstr i "using" "" +:+ ")" else "")
  +:+ (if contains (body i) "check" then " WITH CHECK (" +:+ bstr i "check" "" +:+ ")" else "") +:+ ";".

Definition plan_create_policy (i : Intent) (t : TableObs) : Emitted :=
  let qualified := in_qualified i in
  let name := object_name i in
  if bool_decide (name ∈ t_policies t) then object_satisfied i ("policy " +:+ name +:+ " already exists on " +:+ qualified)
  else
    {| e_steps := [make (kind_name i) kRequired false [OtherSql (policy_sql i)] ("AccessExclusiveLock on " +:+ qualified)
                     "adding a policy is a catalog change, and it takes effect for sessions already connected" [("policy", JStr name)]];
       e_warnings :=
         (if (t_row_security t).1 then []
          else ["policy " +:+ dq +:+ name +:+ dq +:+ " is being created on " +:+ qualified
                +:+ ", which does not have row-level security ENABLED. The policy is stored and does nothing at all until it is. That is the safe order to write it in -- policies first, then set_row_security -- but only if the enabling intent actually follows."])
         ++ (if negb (contains (body i) "check") && contains (body i) "command" && negb (String.eqb (bstr i "command" "") "SELECT")
             then ["policy " +:+ dq +:+ name +:+ dq
                   +:+ " has USING but no WITH CHECK. USING filters the rows a statement may SEE; WITH CHECK constrains the rows it may WRITE. With only USING, a role can insert or update a row into a state its own policy would not have let it read back."]
             else []);
       e_conflicts := [] |}.

Definition plan_drop_policy (i : Intent) (t : TableObs) : Emitted :=
  let qualified := in_qualified i in
  let name := object_name i in
  if negb (bool_decide (name ∈ t_policies t)) then object_satisfied i ("no policy named " +:+ name +:+ " on " +:+ qualified)
  else
    {| e_steps := [make (kind_name i) kRequired false
                     [OtherSql ("DROP POLICY " +:+ quote_identifier name +:+ " ON " +:+ quote_qualified qualified +:+ ";")]
                     ("AccessExclusiveLock on " +:+ qualified) "dropping a policy is a catalog change" [("policy", JStr name)]];
       e_warnings :=
         if (size (t_policies t) =? 1)%nat && (t_row_security t).1
         then [dq +:+ name +:+ dq +:+ " is the LAST policy on " +:+ qualified
               +:+ " and row-level security stays enabled, so afterwards every non-owner sees zero rows -- silently, with no error. If the intention is to stop filtering, disable row security in the same migration."]
         else [];
       e_conflicts := [] |}.

(** ** Triggers *)
Definition write_lock (qualified : string) : string := "ShareRowExclusiveLock on " +:+ qualified +:+ " -- blocks writes, not reads".

Definition plan_set_trigger_state (i : Intent) (t : TableObs) : Emitted :=
  let qualified := in_qualified i in
  let name := bstr i "trigger" "" in
  let want := bbool i "enabled" false in
  match t_triggers t !! name with
  | None => let why := "no trigger named " +:+ name +:+ " on " +:+ qualified in object_refused i why why
  | Some enabled =>
      if Bool.eqb enabled want then
        object_satisfied i ("trigger " +:+ name +:+ " is already " +:+ (if want then "enabled" else "disabled"))
      else
        {| e_steps := [make (kind_name i) kRequired false
                         [OtherSql ("ALTER TABLE " +:+ quote_qualified qualified
                                    +:+ (if want then " ENABLE TRIGGER " else " DISABLE TRIGGER ") +:+ quote_identifier name +:+ ";")]
                         (write_lock qualified)
                         "measured on 18.6: this takes ShareRowExclusiveLock rather than the AccessExclusiveLock most ALTER TABLE forms need, so readers are unaffected"
                         [("trigger", JStr name)]];
           e_warnings :=
             if want then []
             else ["while trigger " +:+ dq +:+ name +:+ dq
                   +:+ " is disabled, whatever it maintains stops being maintained -- an audit row not written, a denormalised column not updated, a total not adjusted. Nothing records the gap, and re-enabling does not backfill it. If rows change in between, they will need repairing explicitly."];
           e_conflicts := [] |}
  end.

Definition plan_create_trigger (i : Intent) (t : TableObs) : Emitted :=
  let qualified := in_qualified i in
  let name := object_name i in
  if bool_decide (is_Some (t_triggers t !! name)) then
    object_satisfied i ("trigger " +:+ name +:+ " already exists on " +:+ qualified)
  else
    {| e_steps := [make (kind_name i) kRequired false
                     [OtherSql ("CREATE TRIGGER " +:+ quote_identifier name +:+ " " +:+ bstr i "timing" "" +:+ " "
                                +:+ join " OR " (bstrs i "events") +:+ " ON " +:+ quote_qualified qualified +:+ " FOR EACH "
                                +:+ bstr i "for_each" "ROW"
                                +:+ (if contains (body i) "when" then " WHEN (" +:+ bstr i "when" "" +:+ ")" else "")
                                +:+ " EXECUTE FUNCTION " +:+ bstr i "function" "" +:+ ";")]
                     (write_lock qualified)
                     "creating a trigger takes ShareRowExclusiveLock rather than the AccessExclusiveLock most ALTER TABLE forms need, so reads continue throughout"
                     [("trigger", JStr name)]];
       e_warnings := ["trigger " +:+ dq +:+ name +:+ dq
          +:+ " starts firing at commit, for every row changed from then on -- and for none of the rows already there. If it maintains something derived, the existing rows need a backfill intent to match."];
       e_conflicts := [] |}.

Definition plan_drop_trigger (i : Intent) (t : TableObs) : Emitted :=
  let qualified := in_qualified i in
  let name := object_name i in
  if negb (bool_decide (is_Some (t_triggers t !! name))) then
    object_satisfied i ("no trigger named " +:+ name +:+ " on " +:+ qualified)
  else
    {| e_steps := [make (kind_name i) kRequired false [DropTrigger qualified name] ("AccessExclusiveLock on " +:+ qualified)
                     "dropping a trigger is a catalog change" [("trigger", JStr name)]];
       e_warnings := ["whatever trigger " +:+ dq +:+ name +:+ dq
          +:+ " maintained stops being maintained at commit, permanently. Unlike disabling it, this cannot be undone by re-enabling: the definition is gone and must be recreated from the spec."];
       e_conflicts := [] |}.

(** ** Privileges *)
Definition role_sql (name : string) : string := if String.eqb name "PUBLIC" then "PUBLIC" else quote_identifier name.

(** What the privileges are on. *)
Definition grant_target (i : Intent) : string :=
  let object_type := bstr i "object_type" "TABLE" in
  if String.eqb object_type "TABLE" then
    if bbool i "all_in_schema" false then "ALL TABLES IN SCHEMA " +:+ quote_identifier (bstr i "schema" "")
    else "TABLE " +:+ quote_qualified (in_qualified i)
  else if String.eqb object_type "FUNCTION" then "FUNCTION " +:+ function_signature i
  else if String.eqb object_type "SCHEMA" || String.eqb object_type "DATABASE" then
    object_type +:+ " " +:+ quote_identifier (bstr i "name" "")
  else object_type +:+ " " +:+ bstr i "schema" "" +:+ "." +:+ bstr i "name" "".

Definition plan_grant (i : Intent) : Emitted :=
  let granting := bool_decide (kind i = kGrant) in
  let privs := bstrs i "privileges" in
  let target := grant_target i in
  {| e_steps :=
       [make (kind_name i) kRequired false
          [OtherSql ((if granting then "GRANT " else "REVOKE ") +:+ join ", " privs
                     +:+ (if contains (body i) "columns"
                          then " (" +:+ join ", " (quote_identifier <$> bstrs i "columns") +:+ ")" else "")
                     +:+ " ON " +:+ target +:+ (if granting then " TO " else " FROM ")
                     +:+ join ", " (role_sql <$> bstrs i (if granting then "to" else "from")) +:+ ";")]
          ("AccessShareLock on " +:+ target +:+ " -- measured; a privilege change does not block anything")
          ((if granting then "granting" else "revoking")
           +:+ " takes only AccessShareLock, so this is safe on a busy table at any size")
          [("privileges", strings_json privs)]];
     e_warnings :=
       (if bbool i "all_in_schema" false
        then ["ALL TABLES IN SCHEMA applies to the tables that exist RIGHT NOW. A table created afterwards gets nothing, and the repository will not notice -- alter_default_privileges is what governs future objects, and this intent is not it."]
        else [])
       ++ (if granting then []
           else ["a revoke takes effect for sessions that are ALREADY CONNECTED, on their next statement. An application holding a pool of connections starts failing immediately, not at its next deploy."]);
     e_conflicts := [] |}.

(** [plan_security]. *)
Definition plan_security (i : Intent) (o : Observations) : Emitted :=
  let qualified := in_qualified i in
  let t := table_obs o qualified in
  let table_scoped := match kind i with kGrant | kRevoke => false | _ => true end in
  if table_scoped && negb (t_exists t) then let why := qualified +:+ " does not exist" in refuse i why why
  else
    match kind i with
    | kSetRowSecurity => plan_set_row_security i t
    | kCreatePolicy => plan_create_policy i t
    | kDropPolicy => plan_drop_policy i t
    | kSetTriggerState => plan_set_trigger_state i t
    | kCreateTrigger => plan_create_trigger i t
    | kDropTrigger => plan_drop_trigger i t
    | _ => plan_grant i
    end.
