(* ===== verification/Replication.v ===== *)
(** * Replication: publications and subscriptions (src/cpp/src/planner.h, plan_replication)

    One step each. Nothing is compared with the catalog; what a subscription needs
    outside the database is recorded as a prerequisite. *)
From S2P Require Import Prelude Json Canonical Spec Quote RowSql Plan Planner Indexes RowPlan Dml AddColumn Views Tables Objects.

(** ** What the parser does not look at

    [value(key, "")] and [get<std::string>()] throw on anything but a string. *)
Definition texts_given (i : Intent) (ks : list string) : bool :=
  forallb (fun k => negb (contains (body i) k) || is_string (at_key (body i) k)) ks.
Definition texts_listed (i : Intent) (ks : list string) : bool :=
  forallb (fun k => forallb is_string (elements (at_key (body i) k))) ks.
Definition flags_given (i : Intent) (ks : list string) : bool :=
  forallb (fun k => negb (contains (body i) k) || is_boolean (at_key (body i) k)) ks.

(** ** Publications *)
Definition tables_clause (i : Intent) (key : string) : string := join ", " (quote_qualified <$> bstrs i key).

Definition publication_options (i : Intent) : list string :=
  (if contains (body i) "operations" then ["publish = '" +:+ join ", " (bstrs i "operations") +:+ "'"] else [])
  ++ (if contains (body i) "publish_via_partition_root"
      then ["publish_via_partition_root = " +:+ (if bbool i "publish_via_partition_root" false then "true" else "false")]
      else []).

Definition publication_sql (i : Intent) (name : string) : string :=
  let options := publication_options i in
  "CREATE PUBLICATION " +:+ name
  +:+ (if bbool i "all_tables" false then " FOR ALL TABLES"
       else if contains (body i) "tables" then " FOR TABLE " +:+ tables_clause i "tables" else "")
  +:+ (match options with [] => "" | _ => " WITH (" +:+ join ", " options +:+ ")" end) +:+ ";".

Definition plan_create_publication (i : Intent) (name : string) : Emitted :=
  object_applied i [OtherSql (publication_sql i name)] "ShareUpdateExclusiveLock on each published table"
    "measured: a publication is created inside a transaction like any other catalog change"
    (["a publication only decides what is SENT. Every table in it must have a replica identity a subscriber can match rows by -- the default is the primary key, and a table without one replicates INSERTs and then fails on the first UPDATE or DELETE. set_replica_identity is the intent that fixes that, and nothing here checks it."]
     ++ (if bbool i "all_tables" false
         then ["FOR ALL TABLES includes tables created later, which is usually what is wanted and means every future migration adds to what this publication sends -- including tables nobody intended to replicate."]
         else [])
     ++ (if bbool i "publish_via_partition_root" false
         then ["publish_via_partition_root is on, so a change to a partition is published as a change to the ROOT table. That is what lets the subscriber be an ordinary table, or be partitioned differently -- a publisher keeping a rolling window and a subscriber keeping full history is the ordinary case for it. Two consequences worth knowing: the subscriber must have a table named after the ROOT and not after the partitions, and detaching a partition on this side does not remove its rows from the subscriber, because the detach publishes nothing."]
         else if contains (body i) "tables"
         then ["publish_via_partition_root is not set, so it is false -- PostgreSQL's default. If any table above is PARTITIONED, its leaf partitions are what replicate, and the subscriber needs a partition of each matching name or the change has nowhere to land. Set it true to publish as the root instead."]
         else [])).

Definition plan_alter_publication (i : Intent) (name : string) : Emitted :=
  let head := "ALTER PUBLICATION " +:+ name in
  let options := publication_options i in
  object_applied i
    ((if contains (body i) "add_tables" then [OtherSql (head +:+ " ADD TABLE " +:+ tables_clause i "add_tables" +:+ ";")] else [])
     ++ (if contains (body i) "drop_tables" then [OtherSql (head +:+ " DROP TABLE " +:+ tables_clause i "drop_tables" +:+ ";")] else [])
     ++ (match options with [] => [] | _ => [OtherSql (head +:+ " SET (" +:+ join ", " options +:+ ");")] end))
    "ShareUpdateExclusiveLock on each table added or removed" "catalog-only on this server"
    ((if contains (body i) "publish_via_partition_root"
      then ["changing publish_via_partition_root changes WHICH TABLE NAME the subscriber sees, so an existing subscription starts looking for a different table: as the root when this is turned on, as the leaf partitions when it is turned off. Neither side errors until a row has nowhere to land."]
      else [])
     ++ ["a subscriber does not pick up a publication change by itself: it needs ALTER SUBSCRIPTION ... REFRESH PUBLICATION, run THERE. Until that happens the two sides disagree about what is replicated, with no error on either."]).

Definition plan_drop_publication (i : Intent) (name : string) : Emitted :=
  object_applied i [OtherSql ("DROP PUBLICATION " +:+ name +:+ ";")] "none on the published tables"
    "the publication stops sending at commit"
    ["any subscriber to this publication stops receiving changes and does NOT error -- it simply falls behind, silently and permanently, until someone looks at the subscriber."].

(** ** Subscriptions *)
Definition credential (i : Intent) (connect : bool) : json :=
  let conn := bstr i "connection" "" in
  require_out_of_band "credential" (object_name i) "this server, as the postgres OS user"
    (if has_sub "service=" conn
     then "the connection service named in " +:+ dq +:+ conn +:+ dq
          +:+ " must exist in pg_service.conf with a password for the publisher"
     else "the role in " +:+ dq +:+ conn +:+ dq
          +:+ " must have a password in ~/.pgpass on this host, or the subscription cannot connect -- pg_laswell will not carry the credential, because everything it runs is stored verbatim in the ledger")
    "SELECT srsubstate FROM pg_subscription_rel, or check that pg_stat_subscription reports a worker for this subscription"
    connect.

Definition slot_monitor (i : Intent) : json :=
  require_out_of_band "monitor" (object_name i) "the publisher"
    "the replication slot this creates must be consumed or dropped; while it exists and is inactive the publisher retains every WAL segment it has not sent"
    "pg_licht replicationSlots against the publisher, or SELECT slot_name, active, pg_size_pretty(pg_wal_lsn_diff(pg_current_wal_lsn(), restart_lsn)) FROM pg_replication_slots"
    false.

Definition subscription_options (i : Intent) (connect : bool) : list string :=
  (if connect then [] else ["connect = false"])
  ++ (if contains (body i) "enabled" then ["enabled = " +:+ (if bbool i "enabled" true then "true" else "false")] else [])
  ++ (if contains (body i) "slot_name" then ["slot_name = " +:+ quote_literal (bstr i "slot_name" "")] else []).

Definition plan_create_subscription (i : Intent) (name : string) : Emitted * list json :=
  let connect := bbool i "connect" true in
  let sql := [Subscription name (SubCreate (bstr i "connection" "") (bstrs i "publications") (subscription_options i connect))] in
  if connect then
    ({| e_steps :=
          [make (kind_name i) kForbidden true sql "no lock here; it connects to the publisher and creates a replication slot THERE"
             "measured on 18.6: CREATE SUBSCRIPTION with create_slot cannot run inside a transaction block, so this step owns its own and cannot be rolled back with its neighbours" []];
        e_warnings :=
          ["this connects to the publisher and creates a replication slot on IT. The slot then holds WAL on the publisher until this subscription consumes it -- an inactive slot is the most common cause of a publisher filling its disk, and nothing on this server will report it. pg_licht replicationSlots, pointed at the publisher, is the reading that would."];
        e_conflicts := [] |},
     [credential i true; slot_monitor i])
  else
    (object_applied i sql "no lock; nothing is contacted"
       "connect = false creates the catalog entry only, so it runs inside a transaction -- measured, the connecting form does not"
       ["connect = false leaves the subscription NOT connected: the replication slot must be created on the publisher by hand, then the subscription enabled and refreshed. PostgreSQL says so as a NOTICE, which is easy to miss in a migration log."],
     [credential i false]).

Definition plan_alter_subscription (i : Intent) (name : string) : Emitted :=
  let given := contains (body i) in
  object_applied i
    (Subscription name
     <$> (if given "connection" then [SubConnection (bstr i "connection" "")] else [])
         ++ (if given "publications" then [SubSetPublication (bstrs i "publications")] else [])
         ++ (if bbool i "refresh" false then [SubRefresh] else [])
         ++ (if given "enabled" then [SubEnable (bbool i "enabled" true)] else []))
    "no table lock" "altering a subscription changes what this server asks for"
    (if given "enabled" && negb (bbool i "enabled" true)
     then ["disabling a subscription does NOT drop its replication slot, so the publisher keeps every WAL segment this subscription has not consumed -- indefinitely, until it is enabled again or the slot is dropped there. That is a disk-full on the publisher, caused from here."]
     else []).

Definition plan_drop_subscription (i : Intent) (name : string) : Emitted :=
  {| e_steps :=
       [make (kind_name i) kForbidden true [Subscription name SubDrop]
          "no table lock; it contacts the publisher to drop the slot"
          "dropping a subscription that still has a slot must contact the publisher to remove it, which cannot happen inside a transaction block" []];
     e_warnings :=
       ["if the publisher is unreachable this fails, and the fix is to disable the subscription, SET (slot_name = NONE), then drop -- which leaves the slot ORPHANED on the publisher, still holding WAL. That is a deliberate choice with a cost, not a workaround, and it has to be made on the publisher afterwards."];
     e_conflicts := [] |}.

(** [plan_replication]; [None] is an exception of the JSON library. *)
Definition plan_replication (i : Intent) : option (Emitted * list json) :=
  let name := quote_identifier (object_name i) in
  let plain e := Some (e, []) in
  match kind i with
  | kCreatePublication =>
      if flags_given i ["all_tables"] && texts_listed i ["operations"]
         && (bbool i "all_tables" false || texts_listed i ["tables"]) then plain (plan_create_publication i name) else None
  | kAlterPublication =>
      if texts_listed i ["add_tables"; "drop_tables"; "operations"] then plain (plan_alter_publication i name) else None
  | kDropPublication => plain (plan_drop_publication i name)
  | kCreateSubscription =>
      if texts_given i ["slot_name"] && texts_listed i ["publications"] then Some (plan_create_subscription i name) else None
  | kAlterSubscription => if texts_listed i ["publications"] then plain (plan_alter_subscription i name) else None
  | kDropSubscription => plain (plan_drop_subscription i name)
  | _ => plain (emit [object_opened i])
  end.
