(* ===== verification/Alter.v ===== *)
(** * Alter: objects changed in place (src/cpp/src/planner.h, plan_alter_misc)

    Defaults and NOT NULL of a column, sequences, schemas, extensions, domains,
    functions, views, policies, comments, owners. *)
From S2P Require Import Prelude Json Canonical Spec Quote RowSql Plan Planner Indexes RowPlan Dml AddColumn Views Tables Objects Replication.

(** [emit]. *)
Definition altered (i : Intent) (own : bool) (sql : list Stmt) (lock why : string) (ws : list string) : Emitted :=
  {| e_steps := [make (kind_name i) kRequired own sql lock why []]; e_warnings := ws; e_conflicts := [] |}.

(** A change that is made where its key is given. *)
Definition given_change (i : Intent) (k : string) (change : string -> NamedChange) : list NamedChange :=
  if contains (body i) k then [change (bstr i k "")] else [].

(** ** Columns *)
Definition plan_alter_column_default (i : Intent) (t : TableObs) : Emitted :=
  let qualified := in_qualified i in
  let column := bstr i "column" "" in
  let missing := qualified +:+ "." +:+ column +:+ " does not exist" in
  if negb (t_exists t) then let why := qualified +:+ " does not exist" in refuse i why why
  else if bool_decide (t_columns t !! column = None) then refuse i missing missing
  else
    altered i false
      [OtherSql ("ALTER TABLE " +:+ quote_qualified qualified +:+ " ALTER COLUMN " +:+ quote_identifier column
                 +:+ (if contains (body i) "default" then " SET DEFAULT " +:+ bstr i "default" "" else " DROP DEFAULT") +:+ ";")]
      ("AccessExclusiveLock on " +:+ qualified +:+ ", but no scan and no rewrite")
      "measured on 18.6: relfilenode is unchanged, so this is catalog-only whatever the table's size"
      ["a default applies only to rows inserted AFTER this commits. Existing rows keep whatever they have, including nulls -- if they should carry the new value, that is a backfill intent, and it is not implied by this one."].

Definition plan_drop_not_null (i : Intent) (t : TableObs) : Emitted :=
  let qualified := in_qualified i in
  let column := bstr i "column" "" in
  let missing := qualified +:+ "." +:+ column +:+ " does not exist" in
  match (if t_exists t then t_columns t !! column else None) with
  | None => refuse i missing missing
  | Some c =>
      if negb (c_not_null c) then satisfied i (qualified +:+ "." +:+ column +:+ " is already nullable")
      else
        altered i false
          [OtherSql ("ALTER TABLE " +:+ quote_qualified qualified +:+ " ALTER COLUMN " +:+ quote_identifier column +:+ " DROP NOT NULL;")]
          ("AccessExclusiveLock on " +:+ qualified +:+ ", briefly and with no scan")
          "removing NOT NULL needs no verification -- there is nothing to check when the constraint is being relaxed"
          ["this widens what " +:+ qualified +:+ "." +:+ column
           +:+ " may contain, so it is a change to the DATA's shape and not only to what is enforced. Anything reading the column that has never had to handle a null now does."]
  end.

(** ** Sequences and schemas *)
Definition sequence_changes (i : Intent) : string :=
  (if contains (body i) "increment" then " INCREMENT BY " +:+ to_string (bint i "increment" 1) else "")
  +:+ (if contains (body i) "restart" then " RESTART WITH " +:+ to_string (bint i "restart" 1) else "")
  +:+ (if contains (body i) "owned_by" then " OWNED BY " +:+ bstr i "owned_by" "" else "").

Definition sequence_statements (i : Intent) : list NamedChange :=
  given_change i "to" RenameTo
  ++ (if String.eqb (sequence_changes i) "" then [] else [ChangeTo (sequence_changes i)]).

Definition plan_alter_sequence (i : Intent) (o : Observations) : option Emitted :=
  let qualified := object_qualified i in
  let missing := "sequence " +:+ qualified +:+ " does not exist" in
  if negb (ob_exists (object_obs o ("sequence:" +:+ qualified))) then Some (refuse i missing missing)
  else if negb (texts_given i ["to"; "owned_by"]) then None
  else
    Some (altered i false (AlterNamed "SEQUENCE" qualified <$> sequence_statements i)
            "ShareRowExclusiveLock on the sequence" "altering a sequence touches no table"
            (if contains (body i) "restart"
             then ["RESTART sets the sequence back without checking what is already in the column it feeds. If rows exist at or above "
                   +:+ to_string (bint i "restart" 1)
                   +:+ ", the next inserts collide with them -- and only a unique constraint will notice."]
             else [])).

Definition schema_statements (i : Intent) : list NamedChange := given_change i "to" RenameTo ++ given_change i "owner" OwnerTo.

Definition plan_alter_schema (i : Intent) (o : Observations) : option Emitted :=
  let schema := object_schema i in
  let missing := "schema " +:+ schema +:+ " does not exist" in
  if negb (ob_exists (object_obs o ("schema:" +:+ schema))) then Some (refuse i missing missing)
  else if negb (texts_given i ["to"; "owner"]) then None
  else
    Some (altered i false (AlterNamed "SCHEMA" (quote_identifier schema) <$> schema_statements i)
            "AccessExclusiveLock on the schema" "catalog-only"
            (if contains (body i) "to"
             then ["renaming schema " +:+ schema
                   +:+ " moves every object inside it. Nothing in the database breaks -- dependencies are held by OID -- but every application search_path, every qualified query and every grant written against the old name stops matching, and none of that is visible from here."]
             else [])).

(** ** Extensions *)
Definition extension_update_warning (ext have want : string) : string :=
  "updating extension " +:+ ext +:+ " from " +:+ have +:+ " to " +:+ want
  +:+ " runs the extension's own migration scripts. What they do is not visible to pg_laswell, is not in this plan, and is generally NOT reversible -- there is usually no downgrade script. The ledger will record that the update ran, not what it did.".

Definition extension_statements (i : Intent) : list NamedChange :=
  given_change i "version" (fun want => ChangeTo (" UPDATE TO " +:+ quote_literal want)) ++ given_change i "schema" SetSchema.

Definition plan_alter_extension (i : Intent) (o : Observations) : option Emitted :=
  let ext := object_name i in
  let x := object_obs o ("extension:" +:+ ext) in
  let want := bstr i "version" "" in
  if negb (ob_exists x) then
    Some (refuse i ("extension " +:+ ext +:+ " is not installed")
            ("extension " +:+ ext +:+ " is not installed, so there is nothing to alter. create_extension is the intent for installing it."))
  else if negb (texts_given i ["version"]) then None
  else if contains (body i) "version" && String.eqb (default "" (ob_version x)) want then
    Some (satisfied i (ext +:+ " is already at version " +:+ want))
  else
    Some (altered i true (AlterNamed "EXTENSION" (quote_identifier ext) <$> extension_statements i)
            "AccessExclusiveLock on every object the extension owns" "an extension update rewrites its own objects"
            (if contains (body i) "version" then [extension_update_warning ext (default "?" (ob_version x)) want] else [])).

(** ** Domains *)
Definition domain_lock : string :=
  "ShareLock on every table with a column of this type while it is scanned: reads continue, writes to those tables wait".

Definition add_domain_check (i : Intent) : Emitted :=
  let qualified := object_qualified i in
  let cname := quote_identifier (bstr i "constraint_name" "") in
  {| e_steps :=
       [make (kind_name i) kRequired true
          [AlterNamed "DOMAIN" qualified (ChangeTo (" ADD CONSTRAINT " +:+ cname +:+ " CHECK (" +:+ bstr i "add_check" "" +:+ ") NOT VALID"))]
          "no lock on any table; NOT VALID means no scan"
          "step 1 of 2: measured on 18.6, adding the constraint NOT VALID took 0.5ms against 37ms for the same constraint validated -- and that 37ms was 1.5M values across two tables, growing with every column of this type anywhere in the database" [];
        do_not_rehearse not_rehearsed_text false
          (make (kind_name i) kRequired true
             [AlterNamed "DOMAIN" qualified (ChangeTo (" VALIDATE CONSTRAINT " +:+ cname))] domain_lock
             "step 2 of 2: the scan happens here, in its own transaction, so step 1's lock is not held across it" [])];
     e_warnings :=
       ["validating a domain constraint reads every column of type " +:+ qualified
        +:+ " in every table that has one. Unlike a table constraint, the cost is not bounded by one table and pg_laswell cannot size it from here -- pg_licht listTableSizes over the tables using this domain is the reading that would."];
     e_conflicts := [] |}.

Definition domain_statements (i : Intent) : list NamedChange :=
  given_change i "drop_constraint" (fun n => ChangeTo (" DROP CONSTRAINT " +:+ quote_identifier n))
  ++ (if contains (body i) "not_null"
      then [ChangeTo (if bbool i "not_null" false then " SET NOT NULL" else " DROP NOT NULL")] else [])
  ++ given_change i "default" (fun d => ChangeTo (" SET DEFAULT " +:+ d)).

Definition plan_alter_domain (i : Intent) (o : Observations) : option Emitted :=
  let qualified := object_qualified i in
  let x := object_obs o ("type:" +:+ qualified) in
  let missing := "domain " +:+ qualified +:+ " does not exist" in
  if negb (ob_exists x) then Some (refuse i missing missing)
  else if negb (String.eqb (ob_type_kind x) "domain") then
    Some (refuse i (qualified +:+ " is not a domain")
            (qualified +:+ " is a " +:+ (if String.eqb (ob_type_kind x) "" then "type" else ob_type_kind x) +:+ ", not a domain. alter_domain applies only to domains."))
  else if contains (body i) "add_check" then Some (add_domain_check i)
  else if negb (texts_given i ["drop_constraint"; "default"] && flags_given i ["not_null"]) then None
  else
    let scans := bbool i "not_null" false in
    let step := make (kind_name i) kRequired false (AlterNamed "DOMAIN" qualified <$> domain_statements i)
                  (if scans then domain_lock else "none on the tables using the domain")
                  "a domain change reaches every column of that type" [] in
    Some {| e_steps := [if scans then do_not_rehearse heavy_not_rehearsed_text false step else step];
            e_warnings :=
              if scans
              then ["SET NOT NULL on a domain scans every column of type " +:+ qualified
                    +:+ " and fails on the first null anywhere. There is no NOT VALID form for it, so the scan cannot be deferred the way a check can."]
              else [];
            e_conflicts := [] |}.

(** ** Functions, views, policies *)
Definition function_statements (i : Intent) : list NamedChange :=
  given_change i "to" RenameTo ++ given_change i "owner" OwnerTo
  ++ given_change i "search_path" (fun p => ChangeTo (" SET search_path = " +:+ p))
  ++ given_change i "volatility" (fun v => ChangeTo (" " +:+ v)).

Definition plan_alter_function (i : Intent) (o : Observations) : option Emitted :=
  let qualified := object_qualified i in
  let signature := function_signature i in
  let missing := "function " +:+ qualified +:+ " does not exist" in
  if negb (ob_exists (object_obs o ("function:" +:+ qualified))) then Some (refuse i missing missing)
  else if negb (texts_given i ["to"; "owner"; "search_path"; "volatility"]) then None
  else
    Some (altered i false (AlterNamed "FUNCTION" signature <$> function_statements i)
            "no lock on any table" "altering a function's properties is catalog-only"
            (if contains (body i) "volatility"
             then ["changing " +:+ signature
                   +:+ "'s volatility changes how the PLANNER may use it -- an IMMUTABLE function can be folded into an index expression and cached, a VOLATILE one cannot. Declaring a function more immutable than it is produces wrong answers from indexes built over it, and nothing will report that."]
             else [])).

Definition view_statements (i : Intent) : list NamedChange :=
  given_change i "to" RenameTo ++ given_change i "owner" OwnerTo
  ++ (if contains (body i) "options" then [ChangeTo (" SET (" +:+ join ", " (bstrs i "options") +:+ ")")] else []).

Definition plan_alter_view (i : Intent) (o : Observations) : option Emitted :=
  let qualified := object_qualified i in
  let t := table_obs o qualified in
  let missing := qualified +:+ " does not exist" in
  if negb (t_exists t) then Some (refuse i missing missing)
  else if negb (texts_given i ["to"; "owner"] && texts_listed i ["options"]) then None
  else
    let what := if String.eqb (t_kind t) "materialized_view" then "MATERIALIZED VIEW" else "VIEW" in
    Some (altered i false (AlterNamed what qualified <$> view_statements i)
            ("AccessExclusiveLock on " +:+ qualified) "catalog-only; the view's definition is untouched" []).

Definition plan_alter_policy (i : Intent) (o : Observations) : option Emitted :=
  let qualified := in_qualified i in
  let name := object_name i in
  if negb (bool_decide (name ∈ t_policies (table_obs o qualified))) then
    let why := "no policy named " +:+ name +:+ " on " +:+ qualified in
    Some (refuse i why (why +:+ ". create_policy is the intent for a new one."))
  else if negb (texts_given i ["using"; "check"] && texts_listed i ["roles"]) then None
  else
    Some (altered i false
            [OtherSql ("ALTER POLICY " +:+ quote_identifier name +:+ " ON " +:+ quote_qualified qualified
                       +:+ (if contains (body i) "roles" then " TO " +:+ join ", " (quote_identifier <$> bstrs i "roles") else "")
                       +:+ (if contains (body i) "using" then " USING (" +:+ bstr i "using" "" +:+ ")" else "")
                       +:+ (if contains (body i) "check" then " WITH CHECK (" +:+ bstr i "check" "" +:+ ")" else "") +:+ ";")]
            ("AccessExclusiveLock on " +:+ qualified +:+ " -- measured, the same lock CREATE POLICY takes")
            "changing a policy in place keeps its name and its place in the permissive/restrictive set, which dropping and recreating would not"
            ["this changes what rows the application sees the moment it commits, for sessions already connected. And you will probably not see it: an owner bypasses row-level security unless FORCE is set, and a superuser bypasses it regardless -- check the result as the application role, with SET ROLE."]).

(** ** Comments and owners *)
Definition one_among (l : list string) (x : string) : bool := existsb (String.eqb x) l.

(** Types that are named with the table they belong to. *)
Definition on_a_table (ot : string) : bool := one_among ["TRIGGER"; "POLICY"; "CONSTRAINT"; "RULE"] ot.

Definition named_target (i : Intent) : string :=
  if String.eqb (object_schema i) "" then quote_identifier (object_name i) else object_qualified i.

Definition comment_target (i : Intent) : string :=
  let ot := bstr i "object_type" "" in
  let name := quote_identifier (object_name i) in
  let rel := quote_qualified (in_qualified i) in
  if String.eqb ot "COLUMN" then "COLUMN " +:+ rel +:+ "." +:+ name
  else if on_a_table ot then ot +:+ " " +:+ name +:+ " ON " +:+ rel
  else if one_among ["SCHEMA"; "EXTENSION"; "PUBLICATION"; "SUBSCRIPTION"] ot then ot +:+ " " +:+ name
  else ot +:+ " " +:+ named_target i.

Definition comment_lock (i : Intent) : string :=
  let ot := bstr i "object_type" "" in
  if one_among ["TABLE"; "COLUMN"; "VIEW"; "MATERIALIZED VIEW"; "INDEX"; "SEQUENCE"] ot
  then "ShareUpdateExclusiveLock on the relation -- reads and writes continue; VACUUM, ANALYZE and other DDL on it wait"
  else if on_a_table ot
  then "AccessShareLock on " +:+ in_qualified i +:+ ", and ShareUpdateExclusiveLock on the " +:+ ot
       +:+ " itself -- nothing that touches rows waits"
  else "ShareUpdateExclusiveLock on the " +:+ ot +:+ " itself -- no table is locked".

Definition plan_set_comment (i : Intent) : Emitted :=
  altered i false [CommentOn (comment_target i) (comment_text i)] (comment_lock i)
    "documentation is a change to schema state like any other, and this is the intent that changes one without recreating the object" [].

Definition plan_set_owner (i : Intent) : Emitted :=
  let target := named_target i in
  altered i false [AlterNamed (bstr i "object_type" "") target (OwnerTo (bstr i "owner" ""))] ("AccessExclusiveLock on " +:+ target)
    "catalog-only"
    ["changing the owner of " +:+ target
     +:+ " changes who bypasses row-level security on it, who its SECURITY DEFINER functions run as, and which role future grants are recorded as coming from. It is a privilege change, not bookkeeping."].

(** [plan_alter_misc]; [None] is an exception of the JSON library. *)
Definition plan_alter_misc (i : Intent) (o : Observations) : option Emitted :=
  let t := table_obs o (in_qualified i) in
  if negb (texts_given i ["schema"; "name"; "table"]) then None
  else match kind i with
  | kAlterColumnDefault => Some (plan_alter_column_default i t)
  | kDropNotNull => Some (plan_drop_not_null i t)
  | kAlterSequence => plan_alter_sequence i o
  | kAlterSchema => plan_alter_schema i o
  | kAlterExtension => plan_alter_extension i o
  | kAlterDomain => plan_alter_domain i o
  | kAlterFunction => plan_alter_function i o
  | kAlterView => plan_alter_view i o
  | kAlterPolicy => plan_alter_policy i o
  | kSetComment => Some (plan_set_comment i)
  | kSetOwner => Some (plan_set_owner i)
  | _ => Some (emit [])
  end.
