(* ===== verification/Physical.v ===== *)
(** * Physical: identity, storage and layout (src/cpp/src/planner.h, plan_physical)

    Which changes of a table rewrite it, and what is said of those that do. *)
From S2P Require Import Prelude Json Canonical Spec Quote RowSql Plan Planner Indexes RowPlan Dml AddColumn Views Tables Objects Replication Alter.

Section Physical.
Context `{Vendors, Printing}.

Definition column_head (i : Intent) : string :=
  "ALTER TABLE " +:+ quote_qualified (in_qualified i) +:+ " ALTER COLUMN " +:+ quote_identifier (bstr i "column" "").

(** ** Identity and generated columns *)

(** The intent the NOT NULL of an identity column is planned with. *)
Definition identity_not_null (i : Intent) : Intent :=
  {| kind := kSetNotNull; kind_name := "set_not_null"; ordinal := ordinal i;
     body := JObj [("schema", JStr (in_schema i)); ("table", JStr (in_table i)); ("column", JStr (bstr i "column" ""))] |}.

Definition identity_warnings (i : Intent) : list string :=
  (if String.eqb (bstr i "identity" "") "BY DEFAULT"
   then ["BY DEFAULT lets a caller supply the value, so inserts that pass one do not advance the sequence -- which is how a sequence ends up behind its column and every later insert collides. ALWAYS refuses such a value."]
   else [])
  ++ ["the identity sequence starts from 1, not from the largest value already in " +:+ in_qualified i +:+ "." +:+ bstr i "column" ""
      +:+ ". If the column holds data, follow this with an alter_sequence restart above the maximum, or the first insert collides."].

Definition add_identity (i : Intent) (o : Observations) (c : ColumnObs) : Emitted :=
  let qualified := in_qualified i in
  let before := if c_not_null c then emit [] else plan_set_not_null (identity_not_null i) o in
  {| e_steps :=
       e_steps before
       ++ [make (kind_name i) kRequired true
             [OtherSql (column_head i +:+ " ADD GENERATED " +:+ bstr i "identity" "" +:+ " AS IDENTITY;")]
             ("AccessExclusiveLock on " +:+ qualified +:+ ", but no rewrite")
             "measured: relfilenode unchanged, so this is catalog-only plus a sequence, whatever the table's size" []];
     e_warnings :=
       e_warnings before
       ++ (if c_not_null c then []
           else [qualified +:+ "." +:+ bstr i "column" ""
                 +:+ " must be NOT NULL before an identity can be added -- measured, PostgreSQL refuses otherwise. The plan runs the NOT VALID check recipe first, which does that scan under ShareUpdateExclusiveLock instead of blocking the table."])
       ++ identity_warnings i;
     e_conflicts := e_conflicts before |}.

Definition plan_set_identity (i : Intent) (o : Observations) (c : ColumnObs) : Emitted :=
  if contains (body i) "identity" then add_identity i o c
  else
    altered i false [OtherSql (column_head i +:+ " DROP IDENTITY;")] ("AccessExclusiveLock on " +:+ in_qualified i +:+ ", no rewrite")
      "measured: catalog-only. The backing sequence goes with it" [].

Definition plan_drop_expression (i : Intent) : Emitted :=
  altered i false [OtherSql (column_head i +:+ " DROP EXPRESSION;")] ("AccessExclusiveLock on " +:+ in_qualified i +:+ ", no rewrite")
    "measured: catalog-only. The values already computed stay in the table and simply stop being maintained"
    [in_qualified i +:+ "." +:+ bstr i "column" ""
     +:+ " keeps the values it has but stops being recomputed, so it becomes an ordinary column that silently drifts from whatever it was derived from. Nothing will report the drift."].

(** ** Options *)
Definition plan_set_column_options (i : Intent) : Emitted :=
  let given := contains (body i) in
  let head := column_head i +:+ " SET " in
  let stored := given "storage" || given "compression" in
  altered i false
    ((if given "statistics" then [OtherSql (head +:+ "STATISTICS " +:+ to_string (bint i "statistics" 100) +:+ ";")] else [])
     ++ (if given "storage" then [OtherSql (head +:+ "STORAGE " +:+ bstr i "storage" "" +:+ ";")] else [])
     ++ (if given "compression" then [OtherSql (head +:+ "COMPRESSION " +:+ bstr i "compression" "" +:+ ";")] else []))
    ((if stored then "AccessExclusiveLock" else "ShareUpdateExclusiveLock") +:+ " on " +:+ in_qualified i +:+ ", no rewrite")
    "measured: all three are catalog-only"
    ((if stored
      then ["storage and compression apply to values written AFTER this commits. Everything already in " +:+ in_qualified i
            +:+ " keeps its current representation indefinitely, so the setting and the table disagree until the rows are rewritten -- which nothing here does."]
      else [])
     ++ (if given "statistics"
         then ["a new statistics target does nothing until the column is analysed. Run ANALYZE afterwards, outside this migration: it is maintenance, and not something this tool schedules."]
         else [])).

Definition plan_set_table_options (i : Intent) : Emitted :=
  let head := "ALTER TABLE " +:+ quote_qualified (in_qualified i) in
  let options := at_key (body i) "options" in
  altered i false
    ((if json_empty options then [] else [OtherSql (head +:+ " SET (" +:+ storage_parameters options +:+ ");")])
     ++ (if contains (body i) "reset" then [OtherSql (head +:+ " RESET (" +:+ join ", " (bstrs i "reset") +:+ ");")] else []))
    ("ShareUpdateExclusiveLock on " +:+ in_qualified i
     +:+ " for most parameters (PostgreSQL takes the strongest any named parameter asks for), no rewrite")
    "measured: setting a storage parameter such as fillfactor is catalog-only; it changes how FUTURE writes lay out pages and reorganises nothing already there" [].

(** ** Rewrites and moves *)

(** A step that copies the table under its exclusive lock. *)
Definition rewriting (i : Intent) (sql lock why : string) (ws : list string) : Emitted :=
  {| e_steps := [do_not_rehearse heavy_not_rehearsed_text false (make (kind_name i) kRequired true [OtherSql sql] lock why [])];
     e_warnings := ws; e_conflicts := [] |}.

Definition plan_set_logged (i : Intent) (size : Z) : Emitted :=
  let qualified := in_qualified i in
  let logged := bbool i "logged" true in
  rewriting i ("ALTER TABLE " +:+ quote_qualified qualified +:+ (if logged then " SET LOGGED;" else " SET UNLOGGED;"))
    ("AccessExclusiveLock on " +:+ qualified +:+ " for the whole rewrite")
    ("measured: this REWRITES the table -- relfilenode changes in both directions -- so " +:+ human_bytes size
     +:+ " is copied under an exclusive lock" +:+ (if logged then ", and every byte of it is written to WAL as it goes" else ""))
    [if logged
     then "SET LOGGED writes the entire table to WAL as it rewrites it, so a replica must receive " +:+ human_bytes size
          +:+ " of WAL and archiving must absorb it. On a large table that is the dominant cost, and it lands on the replication link rather than on this connection."
     else "UNLOGGED means " +:+ qualified
          +:+ " is not written to WAL: it is not replicated to any standby, it is not in any physical backup taken from one, and its contents are TRUNCATED after a crash. That is a durability decision, not a performance setting."].

Definition plan_set_tablespace (i : Intent) (size : Z) : Emitted * list json :=
  let qualified := in_qualified i in
  let tablespace := bstr i "tablespace" "" in
  (rewriting i ("ALTER TABLE " +:+ quote_qualified qualified +:+ " SET TABLESPACE " +:+ quote_identifier tablespace +:+ ";")
     ("AccessExclusiveLock on " +:+ qualified +:+ " for the whole move")
     ("moving a table copies every page to the new location under an exclusive lock: " +:+ human_bytes size +:+ " to write")
     ["the move needs " +:+ human_bytes size
      +:+ " free in the destination tablespace WHILE the source still holds it -- both at once, since the old files are removed only at commit. pg_laswell cannot see either filesystem's free space; that is a check to make before starting, not one it can make for you."],
   [require_out_of_band "capacity" tablespace "the database host's filesystem"
      ("at least " +:+ human_bytes size
       +:+ " must be free in the destination tablespace at the same time as the source still holds its copy")
      "df on the tablespace directory from pg_tablespace_location(), or pg_licht hostCapacity" true]).

Definition plan_set_access_method (i : Intent) (size : Z) : Emitted :=
  let qualified := in_qualified i in
  rewriting i ("ALTER TABLE " +:+ quote_qualified qualified +:+ " SET ACCESS METHOD " +:+ quote_identifier (bstr i "method" "") +:+ ";")
    ("AccessExclusiveLock on " +:+ qualified +:+ " for the whole rewrite")
    ("changing access method rewrites the table in the new method's format: " +:+ human_bytes size +:+ " under an exclusive lock")
    ["measured only for a no-op change (heap to heap, which does not rewrite). A real change of access method does rewrite, and this plan assumes it will rather than claiming a measurement it does not have."].

(** ** What only records something *)
Definition plan_set_replica_identity (i : Intent) : Emitted :=
  let qualified := in_qualified i in
  let form := bstr i "identity" "DEFAULT" in
  altered i false
    [OtherSql ("ALTER TABLE " +:+ quote_qualified qualified +:+ " REPLICA IDENTITY " +:+ form
               +:+ (if String.eqb form "USING INDEX" then " " +:+ quote_identifier (bstr i "index" "") else "") +:+ ";")]
    ("AccessExclusiveLock on " +:+ qualified +:+ ", no rewrite") "measured: catalog-only whatever the table's size"
    [if String.eqb form "NOTHING"
     then "REPLICA IDENTITY NOTHING means UPDATE and DELETE on " +:+ qualified
          +:+ " are replicated with no way to identify the row, so a logical subscriber cannot apply them -- it errors, or with publish_via_partition_root it silently diverges. Nothing on THIS server will report it."
     else if String.eqb form "FULL"
     then "REPLICA IDENTITY FULL puts every column of the old row into WAL for each UPDATE and DELETE, and a subscriber matches rows by scanning. It is correct and it is expensive on both sides, proportionally to the row's width."
     else "replica identity decides what logical replication can identify a row by. Changing it changes what subscribers receive, with no error and nothing visible on this server -- check the subscriber, not this database."].

Definition plan_cluster_on (i : Intent) : Emitted :=
  let qualified := in_qualified i in
  let setting := contains (body i) "index" in
  altered i false
    [OtherSql ("ALTER TABLE " +:+ quote_qualified qualified
               +:+ (if setting then " CLUSTER ON " +:+ quote_identifier (bstr i "index" "") +:+ ";" else " SET WITHOUT CLUSTER;"))]
    ("ShareUpdateExclusiveLock on " +:+ qualified +:+ ", no rewrite")
    "this only RECORDS which index a future CLUSTER would use; it does not reorder anything now"
    (if setting
     then ["CLUSTER ON reorders nothing by itself -- it marks the index for a later CLUSTER command, which is maintenance and is not a migration this tool runs. Nothing about "
           +:+ qualified +:+ "'s physical order changes at this commit."]
     else []).

(** [plan_physical]. *)
Definition plan_physical (i : Intent) (o : Observations) : Emitted * list json :=
  let qualified := in_qualified i in
  let t := table_obs o qualified in
  let column := bstr i "column" "" in
  let size := table_bytes o qualified i in
  let missing := qualified +:+ "." +:+ column +:+ " does not exist" in
  let c := t_columns t !! column in
  if negb (t_exists t) then let why := qualified +:+ " does not exist" in (refuse i why why, [])
  else if negb (String.eqb column "") && bool_decide (c = None) then (refuse i missing missing, [])
  else
    match kind i with
    | kSetIdentity => (plan_set_identity i o (default (plain_column "" false) c), [])
    | kDropExpression => (plan_drop_expression i, [])
    | kSetColumnOptions => (plan_set_column_options i, [])
    | kSetTableOptions => (plan_set_table_options i, [])
    | kSetLogged => (plan_set_logged i size, [])
    | kSetTablespace => plan_set_tablespace i size
    | kSetAccessMethod => (plan_set_access_method i size, [])
    | kSetReplicaIdentity => (plan_set_replica_identity i, [])
    | kClusterOn => (plan_cluster_on i, [])
    | _ => (emit [], [])
    end.
End Physical.
