(* ===== verification/Extras.v ===== *)
(** * Extras: the remaining kinds (src/cpp/src/planner.h, plan_relation_extras, plan_generic_object, plan_final_kinds)

    Materialized views, statistics, rules, object types without a kind of their own,
    tables made by a query, imported schemas, labels, default privileges. *)
From S2P Require Import Prelude Json Canonical Spec Quote RowSql Plan Planner Indexes RowPlan Dml AddColumn Views Tables Objects Security Replication Alter.

(** ** Materialized views *)
Definition matview_warnings (qualified : string) (with_data : bool) : list string :=
  (if with_data then []
   else [qualified +:+ " is created WITH NO DATA, so it is unreadable until REFRESH -- a query against it fails outright rather than returning nothing. REFRESH is maintenance and not a migration this tool runs, so something else must do it before anything reads the view."])
  ++ ["a materialized view does not track its sources: " +:+ qualified
      +:+ " is a snapshot, and it is stale from the moment the next write lands until something refreshes it. Nothing in the database will say so."].

Definition plan_create_materialized_view (i : Intent) (o : Observations) : Emitted :=
  let qualified := object_qualified i in
  let with_data := bbool i "with_data" true in
  if t_exists (table_obs o qualified) then
    {| e_steps := e_steps (object_satisfied i (qualified +:+ " already exists"));
       e_warnings := [qualified +:+ " already exists, so this is reported satisfied WITHOUT comparing its query to the spec. replace_view is the intent that changes an existing one, and it says what a matview rebuild costs."];
       e_conflicts := [] |}
  else
    altered i with_data
      [OtherSql ("CREATE MATERIALIZED VIEW " +:+ qualified +:+ " AS " +:+ bstr i "definition" ""
                 +:+ (if with_data then " WITH DATA;" else " WITH NO DATA;"));
       CommentOn ("MATERIALIZED VIEW " +:+ qualified) (comment_text i)]
      (if with_data then "AccessShareLock on every relation the query reads, for as long as it takes to run"
       else "no lock beyond the catalog -- nothing is read")
      (if with_data
       then "WITH DATA runs the query in full at creation, so this step costs whatever that query costs and holds read locks throughout"
       else "WITH NO DATA creates the definition and nothing else, so it is instant")
      (matview_warnings qualified with_data).

(** ** Statistics *)
Definition plan_create_statistics (i : Intent) (o : Observations) : option Emitted :=
  let qualified := in_qualified i in
  let t := table_obs o qualified in
  let columns := bstrs i "columns" in
  if negb (t_exists t) then let why := qualified +:+ " does not exist" in Some (object_refused i why why)
  else
    match List.find (fun c => bool_decide (t_columns t !! c = None)) columns with
    | Some c => let why := qualified +:+ "." +:+ c +:+ " does not exist" in Some (object_refused i why why)
    | None =>
        if negb (texts_given i ["comment"]) then None
        else Some (altered i false
          ([OtherSql ("CREATE STATISTICS " +:+ quote_qualified (object_qualified i)
                      +:+ (if contains (body i) "kinds" then " (" +:+ join ", " (bstrs i "kinds") +:+ ")" else "")
                      +:+ " ON " +:+ join ", " (quote_identifier <$> columns) +:+ " FROM " +:+ quote_qualified qualified +:+ ";")]
           ++ (if contains (body i) "comment" then [CommentOn ("STATISTICS " +:+ object_qualified i) (comment_text i)] else []))
          ("ShareUpdateExclusiveLock on " +:+ qualified +:+ " -- does NOT block reads or writes")
          "creating extended statistics records what to collect; it collects nothing now and scans nothing"
          ["extended statistics do nothing until the table is ANALYZEd -- until then the planner's estimates are exactly what they were. ANALYZE is maintenance and not something this tool schedules, so a plan that depends on the new estimates should not assume they exist yet."])
    end.

Definition plan_drop_statistics (i : Intent) : Emitted :=
  object_applied i [OtherSql ("DROP STATISTICS " +:+ object_qualified i +:+ ";")] "AccessExclusiveLock on the statistics object"
    "the planner's estimates revert to per-column ones at the next plan, which may change query plans immediately" [].

(** ** Rules *)

(** [std::toupper] over the text, and the loop that takes blanks off its end. *)
Definition upper_char (c : ascii) : ascii :=
  let n := Z.of_nat (nat_of_ascii c) in
  if (97 <=? n) && (n <=? 122) then ascii_of_nat (Z.to_nat (n - 32)) else c.

Fixpoint upper_text (s : string) : string :=
  match s with EmptyString => "" | String c s' => String (upper_char c) (upper_text s') end.

Fixpoint right_trim (s : string) : string :=
  match s with
  | EmptyString => ""
  | String c s' => match right_trim s' with
                   | EmptyString => if Ascii.eqb c " " then "" else string_of_char c
                   | r => String c r
                   end
  end.

(** NOTHING is not a command, and is not put in brackets. *)
Definition rule_action (action : string) : string :=
  if String.eqb (right_trim (upper_text action)) "NOTHING" then "NOTHING" else "(" +:+ action +:+ ")".

Definition plan_create_rule (i : Intent) (o : Observations) : Emitted :=
  let qualified := in_qualified i in
  let event := bstr i "event" "" in
  let instead := bbool i "instead" false in
  if negb (t_exists (table_obs o qualified)) then let why := qualified +:+ " does not exist" in object_refused i why why
  else
    object_applied i
      [OtherSql ("CREATE RULE " +:+ quote_identifier (object_name i) +:+ " AS ON " +:+ event +:+ " TO " +:+ quote_qualified qualified
                 +:+ (if contains (body i) "where" then " WHERE " +:+ bstr i "where" "" else "")
                 +:+ " DO " +:+ (if instead then "INSTEAD " else "") +:+ rule_action (bstr i "action" "") +:+ ";")]
      ("AccessExclusiveLock on " +:+ qualified)
      "a rule rewrites queries at parse time, so it is a catalog change with no scan"
      (["a rule REWRITES matching queries before they run, for every session and with nothing in the query text to say so. An "
        +:+ event +:+ " against " +:+ qualified
        +:+ " will no longer do what it appears to do. Rules interact badly with RETURNING, with statement-level counts and with triggers, and the PostgreSQL documentation itself recommends a trigger instead for everything except a view's _RETURN rule. Consider create_trigger."]
       ++ (if instead
           then ["DO INSTEAD means the original statement does not run at all. A caller's INSERT reports success having inserted nothing, unless the rule's own action happens to do it."]
           else [])).

Definition plan_drop_rule (i : Intent) : Emitted :=
  object_applied i [OtherSql ("DROP RULE " +:+ quote_identifier (object_name i) +:+ " ON " +:+ quote_qualified (in_qualified i) +:+ ";")]
    ("AccessExclusiveLock on " +:+ in_qualified i)
    "dropping a rule restores what the statements it matched actually mean" [].

(** [plan_relation_extras]. *)
Definition plan_relation_extras (i : Intent) (o : Observations) : option Emitted :=
  match kind i with
  | kCreateMaterializedView => Some (plan_create_materialized_view i o)
  | kCreateStatistics => plan_create_statistics i o
  | kCreateRule =>
      if negb (t_exists (table_obs o (in_qualified i))) || (texts_given i ["where"] && flags_given i ["instead"])
      then Some (plan_create_rule i o) else None
  | kDropRule => Some (plan_drop_rule i)
  | kDropStatistics => Some (plan_drop_statistics i)
  | _ => Some (emit [object_opened i])
  end.

(** ** Object types without a kind of their own *)

(** The name as it is written, behind the schema where there is one. *)
Definition raw_target (i : Intent) : string :=
  if String.eqb (object_schema i) "" then object_name i else object_qualified i.

Definition plan_generic_object (i : Intent) : option Emitted :=
  let ot := bstr i "object_type" "" in
  let target := ot +:+ " " +:+ raw_target i in
  if negb (texts_given i ["schema"]) then None
  else
    match kind i with
    | kCreateObject =>
        if negb (texts_given i ["comment"]) then None
        else
          Some (object_applied i
                  ([OtherSql ("CREATE " +:+ target +:+ " " +:+ bstr i "definition" "" +:+ ";")]
                   ++ (if contains (body i) "comment" then [CommentOn target (comment_text i)] else []))
                  "no lock on any existing object"
                  (ot +:+ " has no planning decision beyond whether it is already there: no lock to weigh, no scan to avoid, no rewrite to predict. It is here so the repository can express it, not because there is a choice to make")
                  [])
    | _ =>
        Some (object_applied i [OtherSql ("DROP " +:+ target +:+ ";")] "AccessExclusiveLock on the object" ("dropping " +:+ target)
                ["pg_laswell does not read dependants for " +:+ ot
                 +:+ " as it does for a type, function or sequence, so this drop is not pre-checked: PostgreSQL will refuse it if something depends on it, at execution rather than at plan time. No CASCADE is emitted either way."])
    end.

(** ** The last kinds *)
Definition object_statements (i : Intent) : list NamedChange :=
  given_change i "to" RenameTo ++ given_change i "owner" OwnerTo ++ given_change i "set_schema" SetSchema.

Definition plan_alter_object (i : Intent) : Emitted :=
  altered i false (AlterNamed (bstr i "object_type" "") (raw_target i) <$> object_statements i)
    "AccessExclusiveLock on the object" "catalog-only" [].

Definition plan_create_table_as (i : Intent) (o : Observations) : Emitted :=
  let qualified := in_qualified i in
  let with_data := bbool i "with_data" true in
  if t_exists (table_obs o qualified) then object_satisfied i (qualified +:+ " already exists")
  else
    altered i with_data
      [OtherSql ("CREATE " +:+ (if bbool i "unlogged" false then "UNLOGGED " else "") +:+ "TABLE " +:+ quote_qualified qualified +:+ " AS "
                 +:+ bstr i "definition" "" +:+ (if with_data then " WITH DATA;" else " WITH NO DATA;"));
       CommentOn ("TABLE " +:+ quote_qualified qualified) (comment_text i)]
      (if with_data then "AccessShareLock on every relation the query reads, for as long as the query takes"
       else "no lock beyond the catalog")
      (if with_data then "the query runs in full at creation, so this costs whatever it costs and holds read locks throughout"
       else "WITH NO DATA creates the shape and nothing else")
      ["CREATE TABLE AS copies the query's result and its column types, and nothing else: no primary key, no indexes, no constraints, no defaults, no identity. "
       +:+ qualified +:+ " is a heap of rows until later intents give it a shape."].

Definition plan_import_foreign_schema (i : Intent) : Emitted * list json :=
  (altered i true
     [OtherSql ("IMPORT FOREIGN SCHEMA " +:+ quote_identifier (bstr i "remote_schema" "")
                +:+ (if contains (body i) "limit_to" then " LIMIT TO (" +:+ join ", " (bstrs i "limit_to") +:+ ")"
                     else if contains (body i) "except" then " EXCEPT (" +:+ join ", " (bstrs i "except") +:+ ")" else "")
                +:+ " FROM SERVER " +:+ quote_identifier (bstr i "server" "") +:+ " INTO " +:+ quote_identifier (object_schema i) +:+ ";")]
     "no lock here; it queries the REMOTE server's catalog"
     "importing contacts the foreign server and creates one foreign table per remote table it finds"
     ["what this creates depends on the REMOTE schema at the moment it runs, so the same signed spec produces different objects on different days. That is the one place in this repository where the outcome is not determined by the spec, and the ledger will record the statement rather than the tables it made. Prefer explicit create_object FOREIGN TABLE intents where the set matters."],
   [require_out_of_band "reachability" (bstr i "server" "") "the foreign server"
      "the foreign server must be reachable with valid credentials when this runs, and the remote schema must contain what the spec assumes -- neither is visible to pg_laswell before it starts"
      ("SELECT 1 FROM information_schema.foreign_tables WHERE foreign_table_schema = " +:+ quote_literal (object_schema i)) true]).

Definition plan_security_label (i : Intent) : Emitted :=
  object_applied i
    [OtherSql ("SECURITY LABEL FOR " +:+ quote_literal (bstr i "provider" "") +:+ " ON " +:+ bstr i "object_type" "" +:+ " " +:+ raw_target i
               +:+ " IS " +:+ (if contains (body i) "label" then quote_literal (bstr i "label" "") else "NULL") +:+ ";")]
    "ShareUpdateExclusiveLock on a relation; none that blocks on other objects"
    "a security label is metadata this server stores and does not interpret"
    ["a security label means nothing without a label provider loaded to enforce it -- typically an extension such as sepgsql. If none is loaded the statement fails; if one is, the label changes what that provider permits, which is not visible in the catalog."].

Definition plan_alter_default_privileges (i : Intent) : Emitted :=
  let granting := bbool i "grant" true in
  object_applied i
    [OtherSql ("ALTER DEFAULT PRIVILEGES"
               +:+ (if contains (body i) "for_role" then " FOR ROLE " +:+ quote_identifier (bstr i "for_role" "") else "")
               +:+ (if String.eqb (object_schema i) "" then "" else " IN SCHEMA " +:+ quote_identifier (object_schema i))
               +:+ (if granting then " GRANT " else " REVOKE ") +:+ join ", " (bstrs i "privileges") +:+ " ON " +:+ bstr i "object_type" ""
               +:+ (if granting then " TO " else " FROM ") +:+ join ", " (role_sql <$> bstrs i (if granting then "to" else "from")) +:+ ";")]
    "no lock on any table" "this governs objects created LATER and changes nothing that exists now"
    ["default privileges apply only to objects created by the role they are recorded FOR -- by default the role running this statement, not every role. A table created later by a different role gets nothing from this, which is the single most common way an ALTER DEFAULT PRIVILEGES appears not to work. Name for_role deliberately.";
     "nothing that already exists is changed. Objects created before this commits keep whatever privileges they have -- a grant intent is what fixes those."].

(** [plan_final_kinds]; [None] is an exception of the JSON library. *)
Definition plan_final_kinds (i : Intent) (o : Observations) : option (Emitted * list json) :=
  let plain e := Some (e, []) in
  if negb (texts_given i ["object_type"; "schema"; "name"]) then None
  else
    match kind i with
    | kAlterObject => if texts_given i ["to"; "owner"; "set_schema"] then plain (plan_alter_object i) else None
    | kCreateTableAs =>
        if t_exists (table_obs o (in_qualified i)) || flags_given i ["unlogged"] then plain (plan_create_table_as i o) else None
    | kImportForeignSchema =>
        if texts_listed i ["limit_to"; "except"] then Some (plan_import_foreign_schema i) else None
    | kSecurityLabel => plain (plan_security_label i)
    | kAlterDefaultPrivileges =>
        if texts_given i ["for_role"] && texts_listed i ["privileges"; if bbool i "grant" true then "to" else "from"]
        then plain (plan_alter_default_privileges i) else None
    | _ => plain (emit [object_opened i])
    end.
