(* ===== verification/TextSearch.v ===== *)
(** * TextSearch: the mapping of a text search configuration (src/cpp/src/planner.h, plan_set_text_search_mapping)

    Which statement each token type needs, and the indexes that were built with the old
    mapping. *)
From S2P Require Import Prelude Json Canonical Spec Quote RowSql Plan Planner Indexes RowPlan Dml AddColumn Views Tables Objects Replication.

(** ** Dictionaries *)

(** A dictionary of the mapping as the catalog has it: its full name, one of several or
    none. *)
Definition resolve (known : list DictionaryObs) (given : string) : option string :=
  if has_char "." given then
    (if existsb (fun d => String.eqb (dictionary_name d) given) known then Some given else None)
  else
    match List.filter (fun d => String.eqb (d_name d) given && d_visible d) known with
    | [d] => Some (dictionary_name d)
    | _ => None
    end.

(** Each dictionary by its full name, or as given where an extension made by the
    specification may bring it; the first that is neither. *)
Fixpoint resolve_all (known : list DictionaryObs) (extension_created_here : bool) (given : list string) :
  string + (list string * bool) :=
  match given with
  | [] => inr ([], false)
  | d :: rest =>
      match resolve known d with
      | Some full => match resolve_all known extension_created_here rest with
                     | inl missing => inl missing
                     | inr (want, unresolved) => inr (full :: want, unresolved)
                     end
      | None =>
          if extension_created_here then
            match resolve_all known extension_created_here rest with
            | inl missing => inl missing
            | inr (want, _) => inr (d :: want, true)
            end
          else inl d
      end
  end.

Definition extension_created_here (o : Observations) : bool :=
  existsb (fun kx => String.prefix "extension:" kx.1 && ob_created_in_spec kx.2) (map_to_list (o_objects o)).

(** ** Token types *)

(** What is to be added, altered and dropped. *)
Record Mapping : Type := { m_add : list string; m_alter : list string; m_drop : list string }.

Definition with_token (have want : list string) (token : string) (m : Mapping) : Mapping :=
  if bool_decide (have = want) then m
  else
    match want, have with
    | [], _ => {| m_add := m_add m; m_alter := m_alter m; m_drop := token :: m_drop m |}
    | _, [] => {| m_add := token :: m_add m; m_alter := m_alter m; m_drop := m_drop m |}
    | _, _ => {| m_add := m_add m; m_alter := token :: m_alter m; m_drop := m_drop m |}
    end.

(** The loop over the tokens; the first that the parser does not know. *)
Fixpoint sort_tokens (known : list string) (mapping : gmap string (list string)) (want tokens : list string) : string + Mapping :=
  match tokens with
  | [] => inr {| m_add := []; m_alter := []; m_drop := [] |}
  | token :: rest =>
      if existsb (String.eqb token) known then
        match sort_tokens known mapping want rest with
        | inl unknown => inl unknown
        | inr m => inr (with_token (default [] (mapping !! token)) want token m)
        end
      else inl token
  end.

Definition for_tokens (form : list string -> MapForm) (l : list string) : list MapForm :=
  match l with [] => [] | _ => [form l] end.

Definition mapping_statements (m : Mapping) (want : list string) : list MapForm :=
  for_tokens (fun l => MapAdd l want) (m_add m) ++ for_tokens (fun l => MapAlter l want) (m_alter m)
  ++ for_tokens (MapDrop false) (m_drop m).

(** ** Indexes built with the old mapping *)
Section TextSearch.
Context `{Vendors}.

Definition reindex_steps (i : Intent) (config : string) (ix : BuiltIndex) : list Step :=
  [make (kind_name i) kForbidden false
     [OtherSql ("REINDEX INDEX CONCURRENTLY " +:+ quote_pair (b_schema ix) (b_index ix) +:+ ";")]
     ("ShareUpdateExclusiveLock on " +:+ b_table ix +:+ " -- reads and writes continue")
     (b_schema ix +:+ "." +:+ b_index ix +:+ " was built with " +:+ config +:+ " as it was (" +:+ human_bytes (b_bytes ix)
      +:+ "), and answers from the old vectors until it is rebuilt")
     [("configuration", JStr config); ("index", JStr (b_index ix)); ("schema", JStr (b_schema ix))];
   make "verify_index_valid" kOptional false [] "none (catalog read)"
     "a REINDEX CONCURRENTLY that fails leaves the old index in place and an INVALID copy beside it; this is what says the rebuild finished"
     [("index", JStr (b_index ix)); ("schema", JStr (b_schema ix))]].

(** What is not rebuilt as a whole, and by whose word. *)
Definition built_in_parts (i : Intent) (o : Observations) (ix : BuiltIndex) : option string :=
  match index_traits o (b_table ix) i with
  | Some (by_, traits) => if it_concurrent traits then None else Some by_
  | None => None
  end.

Definition rebuild_warnings (i : Intent) (o : Observations) (config : string) (l : list BuiltIndex) : list string :=
  let whole := List.filter (fun ix => bool_decide (built_in_parts i o ix = None)) l in
  let parts := omap (fun ix => by_ ← built_in_parts i o ix;
                               Some (b_schema ix +:+ "." +:+ b_index ix +:+ " (" +:+ by_
                                     +:+ ": rebuilt through the indexes of its parts, which follow)")) l in
  match l with
  | [] => []
  | _ =>
      ["changing the mapping of " +:+ config +:+ " leaves " +:+ to_string (Z.of_nat (length whole))
       +:+ " index(es) built with it holding the old vectors, and a search through one can miss rows until it is rebuilt. The plan rebuilds each with REINDEX INDEX CONCURRENTLY right after the change; between the change and the end of an index's rebuild its answers are not to be trusted. If a rebuild fails the mapping stays changed and a later plan finds nothing left to do, so that index has then to be rebuilt by hand."
       +:+ (match parts with [] => "" | _ => " Not rebuilt as a whole: " +:+ join "; " parts +:+ "." end)]
  end.

Definition stored_warning (config : string) (named : list string) : string :=
  "a tsvector that is STORED was computed with the old mapping of " +:+ config
  +:+ " and is not recomputed by anything here: a generated column, a column a trigger fills, a materialized view. "
  +:+ (match named with
       | [] => "The catalog records none that names the configuration, which does not cover one filled by a trigger or by the application."
       | _ => "The catalog records these as depending on it: " +:+ join "; " named +:+ "."
       end).

(** ** The rule *)
Definition mapping_lock : string := "none on any table: the configuration's catalog rows only".

(** A configuration an earlier intent creates: nothing to compare with. *)
Definition map_unread (i : Intent) (sql_config config : string) : Emitted :=
  let tokens := bstrs i "tokens" in
  let dicts := bstrs i "dictionaries" in
  {| e_steps :=
       [make (kind_name i) kRequired false
          (TextSearchMapping sql_config
           <$> [MapDrop true tokens] ++ (match dicts with [] => [] | _ => [MapAdd tokens dicts] end))
          mapping_lock
          (config +:+ " is created earlier in this specification, so its mapping is set without comparing with a catalog that does not hold it yet: whatever it copied for these token types is dropped and the mapping added")
          [("configuration", JStr config)]];
     e_warnings :=
       ["the mapping of " +:+ config
        +:+ " is planned without the catalog, because the configuration is created by an earlier intent of this specification: its token types and dictionaries are checked by the dry run, not before it, and a dictionary named without a schema is found by the search path of the connection that runs the job. Set the mapping before any index is built with the configuration: one built in between would hold vectors of the copied mapping."];
     e_conflicts := [] |}.

Definition change_mapping (i : Intent) (o : Observations) (sql_config config : string) (x : TextSearchObs) (m : Mapping) (want : list string) : Emitted :=
  {| e_steps :=
       make (kind_name i) kRequired true (TextSearchMapping sql_config <$> mapping_statements m want) mapping_lock
         ("a catalog change, and it takes effect for every to_tsvector and to_tsquery that names " +:+ config
          +:+ " from its commit on -- while whatever was computed before it keeps the old result")
         [("configuration", JStr config)]
       :: List.concat (reindex_steps i config
                       <$> List.filter (fun ix => bool_decide (built_in_parts i o ix = None)) (ts_indexes x));
     e_warnings := rebuild_warnings i o config (ts_indexes x) ++ [stored_warning config (ts_other_dependents x)];
     e_conflicts := [] |}.

Definition add_warnings (ws : list string) (e : Emitted) : Emitted :=
  {| e_steps := e_steps e; e_warnings := ws ++ e_warnings e; e_conflicts := e_conflicts e |}.

Definition map_tokens (i : Intent) (o : Observations) (sql_config config : string) (x : TextSearchObs) (want : list string) : Emitted :=
  let tokens := bstrs i "tokens" in
  match sort_tokens (ts_tokens x) (ts_mapping x) want tokens with
  | inl token =>
      refuse i (token +:+ " is not a token type of " +:+ config)
        ("set_text_search_mapping on " +:+ config +:+ ": its parser has no token type " +:+ dq +:+ token +:+ dq
         +:+ ". PostgreSQL: " +:+ dq +:+ "token type ... does not exist" +:+ dq
         +:+ ". The default parser's are listed by ts_token_type('default').")
  | inr m =>
      match mapping_statements m want with
      | [] => satisfied i (config +:+ " already maps " +:+ join ", " tokens
                           +:+ (match want with [] => " to nothing" | _ => " to " +:+ join ", " want end))
      | _ => change_mapping i o sql_config config x m want
      end
  end.

(** [plan_set_text_search_mapping]. *)
Definition plan_set_text_search_mapping (i : Intent) (o : Observations) : Emitted :=
  let config := object_qualified i in
  let sql_config := quote_pair (object_schema i) (object_name i) in
  let x := object_obs o ("tsconfig:" +:+ config) in
  if negb (ob_exists x) then
    let why := "text search configuration " +:+ config +:+ " does not exist" in
    refuse i why (why +:+ ". create_object with object_type TEXT SEARCH CONFIGURATION is the intent that creates one; this kind changes the mapping of one that is there.")
  else if ob_created_in_spec x then map_unread i sql_config config
  else
    match resolve_all (ts_dictionaries (ob_text_search x)) (extension_created_here o) (bstrs i "dictionaries") with
    | inl given =>
        refuse i ("text search dictionary " +:+ given +:+ " was not found")
          ("set_text_search_mapping on " +:+ config +:+ ": no text search dictionary " +:+ dq +:+ given +:+ dq +:+ " "
           +:+ (if has_char "." given then "exists" else "is on the search path of this connection")
           +:+ ". A dictionary an extension supplies is there once the extension is -- unaccent's comes with create_extension unaccent -- and one in a schema off the search path is named as schema.name.")
    | inr (want, unresolved) =>
        add_warnings
          (if unresolved
           then ["a dictionary of the mapping of " +:+ config
                 +:+ " is not in the catalog, and an earlier intent of this specification creates an extension that may bring it: it is written as given and checked by the dry run, not before it."]
           else [])
          (map_tokens i o sql_config config (ob_text_search x) want)
    end.
End TextSearch.
