(* ===== verification/StepReading.v ===== *)
(** * StepReading: what the executor reads of a paced step (src/cpp/src/executor.h, run_backfill)

    Which loop runs a step and with which statements: named by the detail's
    [batch_mode], with the statements counted before one is taken by its place.
    A statement that is not there is [None]: reading past the end of the array. *)
From S2P Require Import Prelude Json Canonical Spec Quote RowSql Plan Planner Indexes Executor.

(** The loop and its statements. *)
Inductive Loop : Type :=
  | OneStatement (sql : string)
  | TwoStatements (select apply : string)
  | CompositeOne (columns : list string) (sql : string)
  | CompositeTwo (columns : list string) (select apply : string)
  | GroupedThree (groups select apply : string).

Record StepReading : Type := {
  rd_single : option string;
  rd_loop : Loop;
  rd_key : string;
  rd_qualified : string;
  rd_where : string;
  rd_group : string;
  rd_columns : list string;
  rd_upper_bound : option (string * Z);
}.

(** [detail.value(k, d)] at the types read here. *)
Definition detail_or (k d : string) (s : Step) : string :=
  match obj_find k (st_detail s) with Some (JStr t) => t | _ => d end.

Definition detail_strings (k : string) (s : Step) : list string :=
  match obj_find k (st_detail s) with
  | Some v => omap (fun v => match v with JStr t => Some t | _ => None end) (elements v)
  | None => []
  end.

(** The locals of [run_backfill] before the loop. *)
Definition read_step (s : Step) : option StepReading :=
  let sqls := (fun q => strip_semicolon (render q)) <$> st_sql s in
  let first := if detail_flag "single_statement" s then 1%nat else O in
  let mode := detail_text "batch_mode" s in
  let size := length sqls in
  let two := String.eqb mode "two_statement" && (first + 1 <? size)%nat in
  let grouped := String.eqb mode "grouped" && (first + 2 <? size)%nat in
  let composite_statement := String.eqb mode "composite_statement" in
  let composite := String.eqb mode "composite" && (first + 1 <? size)%nat || composite_statement in
  let columns := detail_strings "key_columns" s in
  sql ← sqls !! first;
  loop ← (if grouped then
            select ← sqls !! (first + 1)%nat; apply ← sqls !! (first + 2)%nat; Some (GroupedThree sql select apply)
          else if composite then
            if composite_statement then Some (CompositeOne columns sql)
            else apply ← sqls !! (first + 1)%nat; Some (CompositeTwo columns sql apply)
          else if two then apply ← sqls !! (first + 1)%nat; Some (TwoStatements sql apply)
          else Some (OneStatement sql));
  Some {| rd_single := if (first =? 1)%nat then sqls !! O else None;
          rd_loop := loop;
          rd_key := detail_or "key" "id" s;
          rd_qualified := detail_text "qualified" s;
          rd_where := detail_text "where" s;
          rd_group := detail_text "group_column" s;
          rd_columns := if composite then columns else [];
          rd_upper_bound :=
            match obj_find "upper_bound_sql" (st_detail s) with
            | Some v => Some (match v with JStr t => t | _ => "" end,
                              match obj_find "upper_bound_columns" (st_detail s) with Some (JInt n) => n | _ => 1 end)
            | None => None
            end |}.
