(* ===== verification/KeyFacts.v ===== *)
(** * KeyFacts: what an index proves about a key

    A table holds to an index when no two of its rows agree on the index's
    columns. Under that reading the proofs the row-level planners ask for mean
    what they say: the key they accept identifies at most one row, and among the
    indexes that contain a key the one chosen is the least in a fixed order. *)
From S2P Require Import Prelude Json Canonical Spec Quote Batches RowSql RowMeaning RowFacts Plan Planner Indexes RowPlan Dml Backfill.

(** ** The order of the indexes *)
Lemma string_leb_total a b : string_leb a b = true \/ string_leb b a = true.
Proof. apply lex_leb_total. Qed.

Lemma string_leb_trans a b c : string_leb a b = true -> string_leb b c = true -> string_leb a c = true.
Proof. apply lex_leb_trans. Qed.

Lemma string_leb_antisym a b : string_leb a b = true -> string_leb b a = true -> a = b.
Proof.
  intros H1 H2. pose proof (lex_leb_antisym _ _ H1 H2) as Heq.
  assert (String.list_ascii_of_string a = String.list_ascii_of_string b) as Hl.
  { revert Heq. generalize (String.list_ascii_of_string b). induction (String.list_ascii_of_string a) as [|x l IH];
      intros [|y l']; csimpl; try done. intros [= Hxy Hll]. f_equal; [by apply byte_val_inj|auto]. }
  by rewrite <- (String.string_of_list_ascii_of_string a), Hl, String.string_of_list_ascii_of_string.
Qed.

Lemma elem_of_indexes t name ix : (name, ix) ∈ indexes_of t <-> t_indexes t !! name = Some ix.
Proof. unfold indexes_of, by_key. rewrite sort_by_Permutation. apply elem_of_map_to_list. Qed.

Lemma indexes_sorted t :
  StronglySorted (fun a b : string * IndexObs => string_leb a.1 b.1 = true) (indexes_of t).
Proof.
  apply (sort_by_sorted (fun x y : string * IndexObs => string_leb x.1 y.1)).
  - intros. apply string_leb_total.
  - intros ???. apply string_leb_trans.
Qed.

Lemma indexes_NoDup t : NoDup (indexes_of t).*1.
Proof. unfold indexes_of, by_key. rewrite sort_by_Permutation. apply NoDup_fst_map_to_list. Qed.

(** ** Rows a unique index keeps apart *)
Section Apart.
Context `{SqlValues V}.

(** Rows that hold to an observation: a valid unique index that is not partial
    keeps them apart by its key columns, where none is an expression, and by its
    leading column where that is all its key; and no column that is NOT NULL is
    NULL. *)
Record holds_to (t : TableObs) (rows : list (Row V)) : Prop := {
  ho_unique name ix :
    t_indexes t !! name = Some ix -> i_is_unique ix = true -> i_is_valid ix = true -> i_predicate ix = "" ->
    i_has_expressions ix = false -> apart (take (index_key_count ix) (i_columns ix)) rows;
  ho_leading name ix :
    t_indexes t !! name = Some ix -> i_is_unique ix = true -> i_is_valid ix = true -> i_predicate ix = "" ->
    index_key_count ix = 1%nat -> i_leading_column ix <> "" -> apart [i_leading_column ix] rows;
  ho_not_null name c r :
    t_columns t !! name = Some c -> c_not_null c = true -> r ∈ rows -> is_Some (r !! name);
}.

Lemma matches_weaken columns columns' (r s : Row V) :
  (forall c, c ∈ columns' -> c ∈ columns) -> matches columns r s = true -> matches columns' r s = true.
Proof.
  unfold matches. intros Hsub Hm. rewrite forallb_forall in Hm |- *. intros c Hc. apply Hm.
  apply list_elem_of_In, Hsub. by apply list_elem_of_In.
Qed.

Lemma apart_weaken columns columns' rows :
  (forall c, c ∈ columns' -> c ∈ columns) -> apart columns' rows -> apart columns rows.
Proof. intros Hsub Ha n m r s Hr Hs Hm. eapply Ha; [done..|]. by eapply matches_weaken. Qed.

Lemma proves_rows_apart_inv ix :
  proves_rows_apart ix = true ->
  i_is_unique ix = true /\ i_is_valid ix = true /\ i_has_expressions ix = false /\ i_predicate ix = "".
Proof.
  unfold proves_rows_apart. rewrite !andb_true_iff, negb_true_iff, String.eqb_eq. intros ((((? & ?) & ?) & ?) & ?). done.
Qed.

Lemma plain_index_apart t rows name ix :
  holds_to t rows -> t_indexes t !! name = Some ix -> proves_rows_apart ix = true ->
  apart (take (index_key_count ix) (i_columns ix)) rows.
Proof. intros Ht Hix (Hu & Hv & He & Hpr)%proves_rows_apart_inv. by eapply (ho_unique t rows Ht). Qed.

(** ** [unique_key_index] *)
Lemma prove_key_sound key nearest why l :
  kp_proven (prove_key key nearest why l) = true ->
  exists name ix, (name, ix) ∈ l /\ i_leading_column ix = key /\ why_not key name ix = None.
Proof.
  revert nearest why. induction l as [|[name ix] l IH]; intros nearest why; simpl; [done|].
  destruct (String.eqb_spec (i_leading_column ix) key) as [Hk|Hk]; simpl.
  - destruct (why_not key name ix) eqn:Hw.
    + intros (n & x & Hin & ?)%IH. exists n, x. split; [by right|done].
    + intros _. exists name, ix. split; [left|done].
  - intros (n & x & Hin & ?)%IH. exists n, x. split; [by right|done].
Qed.

Lemma why_not_None key name ix :
  why_not key name ix = None ->
  i_is_unique ix = true /\ i_is_valid ix = true /\ index_key_count ix = 1%nat /\ i_predicate ix = "".
Proof.
  unfold why_not. repeat (case_if; [done|]). intros _.
  repeat match goal with Hb : negb _ = false |- _ => apply negb_false_iff in Hb end.
  split_and!; [done|done|by apply Nat.eqb_eq|by apply String.eqb_eq].
Qed.

Lemma unique_key_index_apart t rows key :
  holds_to t rows -> key <> "" -> kp_proven (unique_key_index t key) = true -> apart [key] rows.
Proof.
  intros Ht Hk Hp. apply prove_key_sound in Hp as (name & ix & Hin & Hl & Hw).
  apply elem_of_indexes in Hin. apply why_not_None in Hw as (Hu & Hv & Hn & Hpr).
  subst key. by eapply (ho_leading t rows Ht).
Qed.

(** ** [row_key_is_unique] *)
Lemma row_key_is_unique_apart t rows key :
  holds_to t rows -> rk_first key <> "" -> kp_proven (row_key_is_unique t key) = true -> apart (rk_columns key) rows.
Proof.
  intros Ht Hf. unfold row_key_is_unique. destruct (rk_composite key) eqn:Hc; simpl.
  - destruct (List.find _ _) as [[name ix]|] eqn:Hfind; [|done]. intros _.
    apply find_some in Hfind as [Hin Hw]. apply list_elem_of_In, elem_of_indexes in Hin. simpl in Hw.
    unfold within_key in Hw. apply andb_true_iff in Hw as [Hw Hin']. apply andb_true_iff in Hw as [Hw Hlen].
    apply andb_true_iff in Hw as [Hp Hz].
    eapply apart_weaken; [|by eapply plain_index_apart]. intros c Hc'.
    rewrite forallb_forall in Hin'. specialize (Hin' c ltac:(by apply list_elem_of_In)).
    unfold rk_has in Hin'. apply existsb_exists in Hin' as (x & Hx & ->%String.eqb_eq). by apply list_elem_of_In.
  - intros Hp. destruct key as [[|k []]]; simpl in *; try done. by eapply unique_key_index_apart.
Qed.

(** ** Walks of a backfill *)
Lemma containing_columns_inv t key ix cols :
  containing_columns t key ix = Some cols ->
  cols = take (index_key_count ix) (i_columns ix) /\ proves_rows_apart ix = true /\ key ∈ cols
  /\ forall c, c ∈ cols -> exists o, t_columns t !! c = Some o /\ c_not_null o = true.
Proof.
  unfold containing_columns. case_if; [|done]. intros [= <-].
  match goal with Hb : _ && _ = true |- _ => rename Hb into Hall end.
  apply andb_true_iff in Hall as [Hall Hkey]. apply andb_true_iff in Hall as [Hall Hnn].
  apply andb_true_iff in Hall as [Hall _]. apply andb_true_iff in Hall as [Hp _].
  split_and!; [done..| |].
  - apply existsb_exists in Hkey as (x & Hx & ->%String.eqb_eq). by apply list_elem_of_In.
  - intros c Hc. rewrite forallb_forall in Hnn. specialize (Hnn c ltac:(by apply list_elem_of_In)).
    destruct (t_columns t !! c) as [o|]; [|done]. by exists o.
Qed.

(** What the loop has kept is one of the candidates. *)
Lemma consider_origin t key l have c :
  foldl (consider t key) have l = Some c ->
  have = Some c \/ exists name ix, (name, ix) ∈ l /\ containing_columns t key ix = Some (cd_columns c)
                                /\ cd_index c = name /\ cd_primary c = i_is_primary ix.
Proof.
  revert have. induction l as [|[name ix] l IH]; intros have; simpl; [by left|].
  intros [Hc|(n & x & Hin & Hx)]%IH.
  - unfold consider in Hc. simpl in Hc. destruct (containing_columns t key ix) as [cols|] eqn:Hcols; [|by left].
    destruct (better_candidate _ _); [|by left]. injection Hc as <-. right. exists name, ix. split; [left|done].
  - right. exists n, x. split; [by right|done].
Qed.

Lemma unique_index_containing_inv t key c :
  unique_index_containing t key = Some c ->
  exists ix, t_indexes t !! cd_index c = Some ix /\ containing_columns t key ix = Some (cd_columns c)
             /\ cd_primary c = i_is_primary ix.
Proof.
  intros [?|(name & ix & Hin & Hc & <- & ?)]%consider_origin; [done|]. exists ix. split; [|done].
  by apply elem_of_indexes.
Qed.

Lemma complete_not_null t rows cols r :
  holds_to t rows -> (forall c, c ∈ cols -> exists o, t_columns t !! c = Some o /\ c_not_null o = true) -> r ∈ rows ->
  complete (key_vals cols r) = true.
Proof.
  intros Ht Hc Hr. unfold complete, key_vals. apply forallb_forall. intros v (c & <- & Hin)%in_map_iff.
  apply list_elem_of_In in Hin. destruct (Hc c Hin) as (o & Ho & Hnn).
  by destruct (ho_not_null t rows Ht c o r Ho Hnn Hr) as [x ->].
Qed.

Lemma unique_group_key_index_apart t rows key required g name :
  holds_to t rows -> unique_group_key_index t key required = Some (g, name) -> apart [g; key] rows.
Proof.
  intros Ht Hg. unfold unique_group_key_index in Hg. apply head_Some_elem_of, list_elem_of_omap in Hg as ((n & ix) & Hin & Hx).
  apply elem_of_indexes in Hin. unfold group_of in Hx. simpl in Hx. case_if_in Hx; [|done].
  match goal with Hb : _ && _ = true |- _ => apply andb_true_iff in Hb as [Hp Hn] end. apply Nat.eqb_eq in Hn.
  destruct (i_columns ix) as [|g' [|k cols]] eqn:Hcols; try done. case_if_in Hx; [|done]. injection Hx as -> <-.
  match goal with Hb : _ && _ = true |- _ => apply andb_true_iff in Hb as [->%String.eqb_eq _] end.
  pose proof (plain_index_apart t rows n ix Ht Hin Hp) as Ha. by rewrite Hn, Hcols in Ha.
Qed.

(** The rows a walk visits are told apart by what its cursor holds. *)
Definition walk_key (key : string) (shape : WalkShape) : list string :=
  match shape with Plain => [key] | CompositeWalk columns => columns | Grouped g => [g; key] end.

Lemma choose_walk_sound t rows qualified key required confined_by w :
  holds_to t rows -> key <> "" -> choose_walk t qualified key required confined_by = inr w ->
  apart (walk_key key (wk_shape w)) rows
  /\ (forall columns r, wk_shape w = CompositeWalk columns -> r ∈ rows -> complete (key_vals columns r) = true)
  /\ (required <> "" -> wk_shape w = Grouped required).
Proof.
  intros Ht Hk. unfold choose_walk. destruct (String.eqb_spec required "") as [->|Hreq]; simpl.
  - destruct (kp_proven (unique_key_index t key)) eqn:Hp.
    { intros [= <-]. simpl. split_and!; [by eapply unique_key_index_apart|done|done]. }
    destruct (unique_index_containing t key) as [c|] eqn:Hc.
    { intros [= <-]. simpl. apply unique_index_containing_inv in Hc as (ix & Hix & (Hcols & Hpr & _ & Hnn)%containing_columns_inv & _).
      split_and!; [|intros columns r [= <-] Hr; by eapply complete_not_null|done].
      rewrite Hcols. by eapply plain_index_apart. }
    destruct (unique_group_key_index t key "") as [[g name]|] eqn:Hg; [|done]. intros [= <-]. simpl.
    split_and!; [by eapply unique_group_key_index_apart|done|done].
  - case_if; [done|]. destruct (unique_group_key_index t key required) as [[g name]|] eqn:Hg; [|done].
    intros [= <-]. simpl. split_and!; [by eapply unique_group_key_index_apart|done|]. intros _. f_equal.
    unfold unique_group_key_index in Hg. apply head_Some_elem_of, list_elem_of_omap in Hg as ((n & ix) & _ & Hx).
    unfold group_of in Hx. simpl in Hx. case_if_in Hx; [|done]. destruct (i_columns ix) as [|g' [|k cols]]; try done.
    case_if_in Hx; [|done]. injection Hx as -> _. bool_prop.
    match goal with Hb : _ || _ = true |- _ => apply orb_true_iff in Hb as [Hb|Hb]; apply String.eqb_eq in Hb end; done.
Qed.

End Apart.

(** ** Which index a composite walk follows

    The order the choice is made in: the primary key, then the narrowest, then by
    name. *)
Definition precedes (a b : Candidate) : bool :=
  if Bool.eqb (cd_primary a) (cd_primary b) then
    (length (cd_columns a) <? length (cd_columns b))%nat
    || (length (cd_columns a) =? length (cd_columns b))%nat && string_leb (cd_index a) (cd_index b)
  else cd_primary a.

Lemma precedes_spec a b :
  precedes a b = true <->
  (cd_primary a = true /\ cd_primary b = false)
  \/ (cd_primary a = cd_primary b
      /\ ((length (cd_columns a) < length (cd_columns b))%nat
          \/ (length (cd_columns a) = length (cd_columns b) /\ string_leb (cd_index a) (cd_index b) = true))).
Proof.
  unfold precedes. destruct (cd_primary a), (cd_primary b); simpl;
    rewrite ?orb_true_iff, ?andb_true_iff, ?Nat.ltb_lt, ?Nat.eqb_eq; naive_solver.
Qed.

Lemma precedes_refl a : precedes a a = true.
Proof. apply precedes_spec. right. split; [done|]. right. split; [done|]. by destruct (string_leb_total (cd_index a) (cd_index a)). Qed.

Lemma precedes_trans a b c : precedes a b = true -> precedes b c = true -> precedes a c = true.
Proof.
  rewrite !precedes_spec. intros [[Ha Hb]|[Hab Hl]] [[Hb' Hc]|[Hbc Hl']]; [congruence|left; split; congruence|
    left; split; congruence|]. right. split; [congruence|].
  destruct Hl as [Hl|[Hl Hs]], Hl' as [Hl'|[Hl' Hs']]; [left; lia..|]. right. split; [lia|]. by eapply string_leb_trans.
Qed.

Definition candidate (t : TableObs) (key : string) (c : Candidate) : Prop :=
  exists ix, t_indexes t !! cd_index c = Some ix /\ containing_columns t key ix = Some (cd_columns c)
             /\ cd_primary c = i_is_primary ix.

Lemma precedes_antisym t key a b :
  candidate t key a -> candidate t key b -> precedes a b = true -> precedes b a = true -> a = b.
Proof.
  intros (x & Hx & Hxc & Hxp) (y & Hy & Hyc & Hyp). rewrite !precedes_spec.
  intros [[Ha Hb]|[Hab Hl]] [[Hb' Ha']|[Hba Hl']]; try congruence.
  assert (cd_index a = cd_index b) as Hn.
  { destruct Hl as [Hl|[Hl Hs]], Hl' as [Hl'|[Hl' Hs']]; try lia. by apply string_leb_antisym. }
  rewrite Hn, Hy in Hx. injection Hx as <-. destruct a, b; simpl in *. congruence.
Qed.

(** One index of the list as a candidate. *)
Definition candidate_of (t : TableObs) (key : string) (ni : string * IndexObs) : option Candidate :=
  cols ← containing_columns t key ni.2;
  Some {| cd_columns := cols; cd_index := ni.1; cd_primary := i_is_primary ni.2 |}.

Lemma better_precedes b c :
  string_leb (cd_index b) (cd_index c) = true ->
  if better_candidate (Some b) c then precedes c b = true else precedes b c = true.
Proof.
  intros Hn. unfold better_candidate. case_if; apply precedes_spec.
  - bool_prop. match goal with Hb : _ || _ = true |- _ => apply orb_true_iff in Hb as [Hb|Hb] end; bool_prop; [by left|].
    right. split; [by apply eqb_prop|]. left. by apply Nat.ltb_lt.
  - bool_prop. destruct (cd_primary b), (cd_primary c); simpl in *; try done; [|by left|];
      right; (split; [done|]); match goal with Hb : (_ <? _)%nat = false |- _ => apply Nat.ltb_ge in Hb end;
      destruct (decide (length (cd_columns b) = length (cd_columns c))); auto; left; lia.
Qed.

(** The loop keeps the least of what it had and what it saw. *)
Lemma consider_least t key l have :
  StronglySorted (fun a b : string * IndexObs => string_leb a.1 b.1 = true) l ->
  (forall b, have = Some b -> Forall (fun ni => string_leb (cd_index b) ni.1 = true) l) ->
  match foldl (consider t key) have l with
  | None => have = None /\ Forall (fun ni => candidate_of t key ni = None) l
  | Some c => (forall b, have = Some b -> precedes c b = true)
              /\ Forall (fun ni => forall b, candidate_of t key ni = Some b -> precedes c b = true) l
  end.
Proof.
  intros Hs. revert have. induction Hs as [|x l Hl IH Hx]; intros have Hh; simpl.
  { destruct have as [b|]; [|by split]. split; [|done]. intros ? [= <-]. apply precedes_refl. }
  assert (forall b, consider t key have x = Some b -> Forall (fun ni => string_leb (cd_index b) ni.1 = true) l) as Hh'.
  { unfold consider. destruct (containing_columns t key x.2); [case_if|]; intros b Hb.
    - by injection Hb as <-.
    - specialize (Hh b Hb). by inversion Hh.
    - specialize (Hh b Hb). by inversion Hh. }
  assert (match consider t key have x with
          | None => have = None /\ candidate_of t key x = None
          | Some c => (forall b, have = Some b -> precedes c b = true)
                      /\ (forall b, candidate_of t key x = Some b -> precedes c b = true)
          end) as Hstep.
  { unfold consider, candidate_of. destruct (containing_columns t key x.2) as [cols|]; simpl.
    2: { destruct have as [b|]; [|done]. split; [|done]. intros ? [= <-]. apply precedes_refl. }
    destruct have as [b|]; simpl; [|split; [done|]; intros ? [= <-]; apply precedes_refl].
    specialize (Hh b eq_refl). inversion Hh as [|?? Hbx _]; subst. simpl.
    pose proof (better_precedes b {| cd_columns := cols; cd_index := x.1; cd_primary := i_is_primary x.2 |} Hbx) as Hb.
    cbn [better_candidate cd_columns cd_primary cd_index] in Hb |- *. case_if; split; intros ? [= <-]; done || apply precedes_refl. }
  specialize (IH _ Hh'). destruct (foldl (consider t key) (consider t key have x) l) as [c|].
  - destruct IH as [IH1 IH2]. destruct (consider t key have x) as [c'|] eqn:Hc.
    + destruct Hstep as [H1 H2]. split; [intros b Hb; eapply precedes_trans; eauto|].
      constructor; [intros b Hb; eapply precedes_trans; eauto|done].
    + destruct Hstep as [-> H2]. split; [done|]. constructor; [by rewrite H2|done].
  - destruct IH as [IH1 IH2]. rewrite IH1 in Hstep. destruct Hstep as [-> H2]. split; [done|]. by constructor.
Qed.

Lemma candidate_of_spec t key c : candidate t key c -> exists ni, ni ∈ indexes_of t /\ candidate_of t key ni = Some c.
Proof.
  intros (ix & Hix & Hc & Hp). exists (cd_index c, ix). split; [by apply elem_of_indexes|].
  unfold candidate_of. simpl. rewrite Hc. simpl. rewrite <- Hp. by destruct c.
Qed.

(** The index a composite walk follows is the same on every reading: the loop
    over the indexes gives exactly the least candidate in the order primary key
    first, then narrowest, then by name, among the valid unique indexes that
    contain the key over NOT NULL columns only; and nothing when there is none. *)
Theorem walk_index_is_the_least t key c :
  (unique_index_containing t key = Some c
   <-> candidate t key c /\ forall c', candidate t key c' -> precedes c c' = true)
  /\ (unique_index_containing t key = None <-> forall c', ~ candidate t key c').
Proof.
  pose proof (consider_least t key (indexes_of t) None (indexes_sorted t) ltac:(done)) as Hleast.
  fold (unique_index_containing t key) in Hleast.
  assert (forall c, unique_index_containing t key = Some c ->
            candidate t key c /\ forall c', candidate t key c' -> precedes c c' = true) as Hsome.
  { intros c0 Hc0. split; [by apply unique_index_containing_inv in Hc0|]. intros c' Hc'.
    rewrite Hc0 in Hleast. destruct Hleast as [_ Hl]. apply candidate_of_spec in Hc' as (ni & Hin & Hni).
    rewrite Forall_forall in Hl. by eapply Hl. }
  assert (unique_index_containing t key = None -> forall c', ~ candidate t key c') as Hnone.
  { intros Hn c' (ni & Hin & Hni)%candidate_of_spec. rewrite Hn in Hleast. destruct Hleast as [_ Hl].
    rewrite Forall_forall in Hl. by rewrite Hl in Hni. }
  split; split; [by apply Hsome| |done|].
  - intros [Hc Hmin]. destruct (unique_index_containing t key) as [c'|] eqn:Hu; [|by destruct (Hnone eq_refl c)].
    destruct (Hsome c' eq_refl) as [Hc' Hmin']. f_equal. by eapply precedes_antisym; eauto.
  - intros Hno. destruct (unique_index_containing t key) as [c'|] eqn:Hu; [|done].
    destruct (Hsome c' eq_refl) as [Hc' _]. by destruct (Hno c').
Qed.
