(* ===== verification/DmlFacts.v ===== *)
(** * DmlFacts: the row-level planners' steps

    What an accepted row-level intent means: the key it matches rows by names at
    most one of them, a paced statement does what the whole one does, the saved
    rows take the change back, and the executor reads from the step exactly the
    walk that was planned. *)
From S2P Require Import Prelude Json Canonical Spec Quote Batches RowSql RowMeaning RowFacts Plan Planner Indexes RowPlan Dml Backfill KeyFacts Executor StepReading.

(** ** What was accepted *)
Lemma refused_with_conflicts ss ws s r : e_conflicts (refused_with ss ws s r) <> [].
Proof. done. Qed.

Lemma unless_refused_inv r s rest e :
  unless_refused r s rest = e -> e_conflicts e = [] -> r = None /\ rest = e.
Proof. destruct r as [r|]; simpl; [by intros <-|done]. Qed.

Section Accepted.
Context `{Vendors, Printing}.

(** Peels the refusals of a planner that accepted. *)
Ltac accepted H :=
  repeat (apply unless_refused_inv in H as [? H]; [|done]).

Lemma update_accepted_inv i o cfg :
  e_conflicts (plan_update_rows i o cfg) = [] ->
  let t := table_obs o (in_qualified i) in
  row_target_refused t (in_qualified i) (row_key i) = None
  /\ refuse_unwritable_columns i (t_columns t) (in_qualified i) (column_names i) = None
  /\ refuse_duplicate_keys i (column_names i) (row_key i) = None
  /\ kp_proven (row_key_is_unique t (row_key i)) = true
  /\ plan_update_rows i o cfg = update_accepted i cfg t (kp_index (row_key_is_unique t (row_key i))).
Proof.
  intros Hc t. destruct (plan_update_rows i o cfg) as [ss ws cs] eqn:He. simpl in Hc. subst cs.
  unfold plan_update_rows in He. accepted He. split_and!; try done.
  unfold no_unique_key in *. by destruct (kp_proven _).
Qed.

Lemma merge_accepted_inv i o cfg :
  e_conflicts (plan_merge_rows i o cfg) = [] ->
  let t := table_obs o (in_qualified i) in
  row_target_refused t (in_qualified i) (row_key i) = None
  /\ refuse_duplicate_keys i (column_names i) (row_key i) = None
  /\ (bstr i "when_not_matched" "insert" = "insert" ->
      refuse_unwritable_columns i (t_columns t) (in_qualified i) (column_names i) = None)
  /\ kp_proven (row_key_is_unique t (row_key i)) = true
  /\ merge_refused o (in_qualified i) (bstr i "when_not_matched_by_source" "nothing") (pa_paced (decide_pacing i cfg true)) = None
  /\ plan_merge_rows i o cfg = merge_accepted i cfg t (kp_index (row_key_is_unique t (row_key i))).
Proof.
  intros Hc t. destruct (plan_merge_rows i o cfg) as [ss ws cs] eqn:He. simpl in Hc. subst cs.
  unfold plan_merge_rows in He. accepted He. split_and!; try done.
  - intros Hi. match goal with Hu : (if String.eqb _ _ then _ else _) = None |- _ => by rewrite Hi in Hu end.
  - unfold no_unique_key in *. by destruct (kp_proven _).
Qed.

Lemma insert_accepted_inv i o cfg :
  e_conflicts (plan_insert_rows i o cfg) = [] ->
  let t := table_obs o (in_qualified i) in
  row_target_refused t (in_qualified i) (row_key i) = None
  /\ refuse_unwritable_columns i (t_columns t) (in_qualified i) (column_names i) = None
  /\ refuse_duplicate_keys i (column_names i) (row_key i) = None
  /\ exists conflict, insert_conflict i t (in_qualified i) (column_names i) = inr conflict
       /\ plan_insert_rows i o cfg = insert_accepted i cfg t conflict.
Proof.
  intros Hc t. destruct (plan_insert_rows i o cfg) as [ss ws cs] eqn:He. simpl in Hc. subst cs.
  unfold plan_insert_rows in He. accepted He. split_and!; try done.
  destruct (insert_conflict i _ _ _) as [r|conflict] eqn:Hi; [by injection He|]. by exists conflict.
Qed.

Lemma backfill_accepted_inv i o cfg :
  e_conflicts (plan_backfill i o cfg) = [] ->
  let t := table_obs o (in_qualified i) in
  let rc := required_confinement o (in_qualified i) in
  t_exists t = true /\ missing_set_column i t (in_qualified i) = None
  /\ exists w, choose_walk t (in_qualified i) (bstr i "key" "") rc.1 rc.2 = inr w
       /\ plan_backfill i o cfg = backfill_accepted i cfg t (table_rows o (in_qualified i) i) w.
Proof.
  intros Hc t rc. destruct (plan_backfill i o cfg) as [ss ws cs] eqn:He. simpl in Hc. subst cs.
  unfold plan_backfill in He. accepted He. fold t in He.
  unfold rc. destruct (required_confinement o (in_qualified i)) as [required by_]. simpl.
  split_and!; [|done|].
  { unfold t. match goal with Hu : (if ?b then None else _) = None |- _ => by destruct b end. }
  destruct (choose_walk _ _ _ _ _) as [r|w]; [by injection He|]. by exists w.
Qed.

(** C5: The rows a change reaches are the ones it means. Whatever rows hold to the
    indexes and columns observed, the key of an accepted update_rows or merge_rows
    agrees on no two of them, so one row of the source changes at most one of the
    target; and the walk of an accepted backfill goes by columns that tell all its
    rows apart. Where the walk is along a composite key none of its columns is NULL
    in any row; a walk by groups, the one taken where a module confines the batches
    to a column, is by that column and may have NULLs in it. *)
Theorem changes_name_one_row `{SqlValues V} i o cfg (rows : list (Row V)) :
  let t := table_obs o (in_qualified i) in
  holds_to t rows ->
  (rk_first (row_key i) <> "" ->
   e_conflicts (plan_update_rows i o cfg) = [] \/ e_conflicts (plan_merge_rows i o cfg) = [] ->
   apart (rk_columns (row_key i)) rows)
  /\ (bstr i "key" "" <> "" -> e_conflicts (plan_backfill i o cfg) = [] ->
      exists w, choose_walk t (in_qualified i) (bstr i "key" "") (required_confinement o (in_qualified i)).1
                  (required_confinement o (in_qualified i)).2 = inr w
        /\ apart (walk_key (bstr i "key" "") (wk_shape w)) rows
        /\ (forall columns r, wk_shape w = CompositeWalk columns -> r ∈ rows -> complete (key_vals columns r) = true)
        /\ ((required_confinement o (in_qualified i)).1 <> "" ->
            wk_shape w = Grouped (required_confinement o (in_qualified i)).1)).
Proof.
  intros t Ht. split.
  - intros Hk [(_ & _ & _ & Hp & _)%update_accepted_inv|(_ & _ & _ & Hp & _)%merge_accepted_inv];
      by eapply row_key_is_unique_apart.
  - intros Hk (_ & _ & w & Hw & _)%backfill_accepted_inv. exists w. split; [done|]. fold t in Hw.
    destruct (required_confinement o (in_qualified i)) as [required by_]. simpl in *.
    by apply (choose_walk_sound t rows (in_qualified i) (bstr i "key" "") required by_ w).
Qed.

(** ** The statement of a step *)
Definition changes_of (s : Step) : list RowStmt := omap (fun q => match q with RowChange c => Some c | _ => None end) (st_sql s).

Definition row_changes (e : Emitted) : list RowStmt := e_steps e ≫= changes_of.

Lemma set_details_sql l s : st_sql (set_details l s) = st_sql s.
Proof. unfold set_details. revert s. induction l as [|kv l IH]; intros s; simpl; [done|]. by rewrite IH. Qed.

Lemma change_step_sql i cfg src columns saved m lock s :
  st_sql (change_step i cfg src columns saved m lock s)
  = [RowChange {| rs_paced := pa_paced src; rs_rel := in_qualified i;
                  rs_source := intent_source i (column_names i) columns; rs_key := row_key i; rs_saved := saved;
                  rs_mutation := m |}].
Proof.
  unfold change_step. destruct (pa_paced src); [|done].
  unfold attach_pacing_detail. cbn [with_lock with_class st_sql]. by rewrite set_details_sql.
Qed.

Lemma preserve_step_changes i columns rel key changed :
  option_list (fst <$> plan_preserve i columns rel key changed) ≫= changes_of = [].
Proof. unfold plan_preserve. by destruct (negb _). Qed.

Lemma catchup_changes i columns qualified names : emit_sequence_catchup i columns qualified names ≫= changes_of = [].
Proof.
  unfold emit_sequence_catchup. induction names as [|n names IH]; csimpl; [done|].
  destruct (columns !! n) as [c|]; csimpl; [|done]. destruct (c_sequence c) as [q|]; csimpl; [|done]. by case_if.
Qed.

(** What each kind's statement is, where the intent is accepted. *)
Definition the_change (i : Intent) (t : TableObs) (paced : bool) (saved : option Preserved) (m : Mutation) : RowStmt :=
  {| rs_paced := paced; rs_rel := in_qualified i; rs_source := intent_source i (column_names i) (t_columns t);
     rs_key := row_key i; rs_saved := saved; rs_mutation := m |}.

Lemma update_change i cfg t index :
  let sets := beside_key (row_key i) (column_names i) in
  row_changes (update_accepted i cfg t index)
  = [the_change i t (pa_paced (decide_pacing i cfg true))
       (snd <$> plan_preserve i (t_columns t) (quote_qualified (in_qualified i)) (rk_first (row_key i))
                  (with_rest_of_key (row_key i) sets)) (UpdateRows sets)].
Proof.
  intros sets. unfold row_changes, update_accepted. cbn [e_steps]. rewrite bind_app, preserve_step_changes. csimpl.
  unfold changes_of. cbn [with_why st_sql]. by rewrite change_step_sql.
Qed.

Lemma merge_change i cfg t index :
  exists saved, row_changes (merge_accepted i cfg t index)
  = [the_change i t (pa_paced (decide_pacing i cfg true)) saved (merge_mutation i)].
Proof.
  unfold row_changes, merge_accepted. cbn [e_steps]. rewrite bind_app, preserve_step_changes. csimpl.
  eexists. unfold changes_of at 1. cbn [with_why st_sql]. rewrite change_step_sql. csimpl.
  destruct (String.eqb _ "insert"); [by rewrite catchup_changes|done].
Qed.

Lemma insert_change i cfg t conflict :
  row_changes (insert_accepted i cfg t conflict)
  = [the_change i t (pa_paced (decide_pacing i cfg (negb (String.eqb (rk_first (row_key i)) "")))) None
       (InsertRows (column_names i) (bstr i "overriding" "") (fst <$> conflict))].
Proof.
  unfold row_changes, insert_accepted. cbn [e_steps]. csimpl. rewrite catchup_changes, app_nil_r.
  unfold changes_of. cbn [with_why st_sql]. by rewrite change_step_sql.
Qed.

Lemma delete_finished_sql i pv s : st_sql (delete_finished i pv s) = st_sql s.
Proof. unfold delete_finished. destruct pv as [[??]|]; by destruct (contains _ _). Qed.

(** A delete by predicate has no statement over a source; the other forms have one. *)
Lemma delete_accepted_inv i o cfg :
  e_conflicts (plan_delete_rows i o cfg) = [] ->
  let columns := t_columns (table_obs o (in_qualified i)) in
  let pv := plan_preserve i columns (quote_qualified (in_qualified i)) (rk_first (row_key i)) (all_columns columns) in
  let src := decide_pacing i cfg true in
  row_changes (plan_delete_rows i o cfg) = []
  \/ e_steps (plan_delete_rows i o cfg)
     = option_list (fst <$> pv)
       ++ [delete_finished i pv
             (with_why (pa_why src)
                (change_step i cfg src columns (snd <$> pv) DeleteRows (one_transaction_lock (in_qualified i))
                   (preserving pv (set_details [("row_source", JStr (row_source_text i)); ("paced", JBool (pa_paced src))]
                                     (new_step (kind_name i))))))].
Proof.
  intros Hc columns pv src. destruct (plan_delete_rows i o cfg) as [ss ws cs] eqn:He. simpl in Hc. subst cs.
  unfold plan_delete_rows in He. accepted He. fold columns in He. fold pv src in He. destruct (negb _ && negb _).
  - left. destruct (required_confinement o (in_qualified i)) as [g by_]. case_if_in He; [by injection He|].
    injection He as <- _. unfold row_changes. cbn [e_steps]. rewrite bind_app. unfold pv at 1.
    rewrite preserve_step_changes. csimpl. rewrite app_nil_r. unfold changes_of. rewrite delete_finished_sql.
    unfold delete_by_predicate, attach_pacing_detail. cbn [with_why with_lock with_class st_sql set_detail].
    rewrite set_details_sql. cbn [set_detail st_sql]. case_if; cbn [set_detail st_sql]; by rewrite ?set_details_sql.
  - right. by injection He as <- _.
Qed.

Lemma delete_change i o cfg s :
  e_conflicts (plan_delete_rows i o cfg) = [] -> s ∈ row_changes (plan_delete_rows i o cfg) ->
  let t := table_obs o (in_qualified i) in
  s = the_change i t (pa_paced (decide_pacing i cfg true))
        (snd <$> plan_preserve i (t_columns t) (quote_qualified (in_qualified i)) (rk_first (row_key i))
                   (all_columns (t_columns t))) DeleteRows.
Proof.
  intros Hc Hs t. destruct (delete_accepted_inv i o cfg Hc) as [He|He]; [rewrite He in Hs; by apply elem_of_nil in Hs|].
  revert Hs. unfold row_changes. rewrite He, bind_app, preserve_step_changes. csimpl. rewrite app_nil_r.
  unfold changes_of. rewrite delete_finished_sql. cbn [with_why st_sql]. rewrite change_step_sql. csimpl.
  by intros ->%list_elem_of_singleton.
Qed.

(** The kinds whose rows come from a source. *)
Definition plan_from_source (i : Intent) (o : Observations) (cfg : PlannerConfig) : Emitted :=
  match kind i with
  | kInsertRows => plan_insert_rows i o cfg
  | kUpdateRows => plan_update_rows i o cfg
  | kDeleteRows => plan_delete_rows i o cfg
  | kMergeRows => plan_merge_rows i o cfg
  | _ => emit []
  end.

Lemma paced_is_separable i o cfg s :
  e_conflicts (plan_from_source i o cfg) = [] -> s ∈ row_changes (plan_from_source i o cfg) -> rs_paced s = true ->
  (kind i = kInsertRows -> bstr i "on_conflict" "refuse" = "refuse") ->
  (kind i = kMergeRows -> forall c, c ∈ rk_columns (row_key i) -> c ∈ column_names i) ->
  separable (rk_columns (rs_key s)) (rs_mutation s).
Proof.
  unfold plan_from_source. intros Hc Hs Hp Hins Hmer.
  destruct (kind i); try by apply elem_of_nil in Hs.
  - by rewrite (delete_change i o cfg s Hc Hs).
  - apply insert_accepted_inv in Hc as (_ & _ & _ & conflict & Hcf & Hi). rewrite Hi, insert_change in Hs.
    apply list_elem_of_singleton in Hs as ->. simpl. unfold insert_conflict in Hcf. rewrite Hins in Hcf by done.
    simpl in Hcf. by injection Hcf as <-.
  - apply update_accepted_inv in Hc as (_ & _ & _ & _ & Hi). rewrite Hi, update_change in Hs.
    by apply list_elem_of_singleton in Hs as ->.
  - apply merge_accepted_inv in Hc as (_ & _ & _ & _ & Href & Hi). rewrite Hi in Hs.
    destruct (merge_change i cfg (table_obs o (in_qualified i)) (kp_index (row_key_is_unique (table_obs o (in_qualified i)) (row_key i))))
      as [saved Hm]. rewrite Hm in Hs. apply list_elem_of_singleton in Hs as ->. cbn [rs_paced the_change] in Hp.
    rewrite Hp in Href. cbn [rs_key rs_mutation the_change merge_mutation separable]. split.
    + intros columns Hcols. case_if_in Hcols; [|done]. injection Hcols as <-. by apply Hmer.
    + unfold merge_refused in Href. destruct (String.eqb (bstr i "when_not_matched_by_source" "nothing") "delete"); [|done].
      destruct (_ && _); done.
Qed.

(** C3: A paced change is the whole change. The statement of an accepted
    insert_rows, update_rows, delete_rows or merge_rows that is paced, run batch
    after batch with the cursor at the last key each returned, considers every row
    of the source after the cursor once, repeated keys included, in at most as many
    batches as there are rows, and leaves the table as the same change over all
    those rows in one statement does. What a batch takes and returns is the meaning
    of [batch_query], the query whose text [paced_statement] has. It holds for a
    source that reads the same in every batch and has no NULL in its key, for a
    cursor a walk can be at, for inserts without a conflict clause (on_conflict
    "refuse") and for merges whose columns include the key. *)
Theorem paced_change_is_the_whole_change `{SqlValues V} i o cfg s within c limit (src t : list (Row V)) :
  e_conflicts (plan_from_source i o cfg) = [] -> s ∈ row_changes (plan_from_source i o cfg) -> rs_paced s = true ->
  (kind i = kInsertRows -> bstr i "on_conflict" "refuse" = "refuse") ->
  (kind i = kMergeRows -> forall c, c ∈ rk_columns (row_key i) -> c ∈ column_names i) ->
  cursor_ok (rs_key s) c -> keyed (rk_columns (rs_key s)) src -> (1 <= limit)%nat ->
  let bs := source_walk (S (length src)) (rs_key s) c limit src in
  let ahead := List.filter (after (rs_key s) c) src in
  concat bs ≡ₚ ahead /\ (length bs <= length src)%nat
  /\ run_paced within (rs_key s) c limit (rs_mutation s) src t ≡ₚ run_whole within (rs_key s) (rs_mutation s) ahead t.
Proof. intros. apply paced_run; try done. by eapply paced_is_separable. Qed.

(** ** What is saved *)
Lemma elem_of_saved key changed x : x ∈ saved_columns key changed <-> x = key \/ x ∈ changed.
Proof.
  unfold saved_columns.
  assert (forall l acc, x ∈ foldl (fun cols c => if existsb (String.eqb c) cols then cols else cols ++ [c]) acc l
                        <-> x ∈ acc \/ x ∈ l) as Hgen.
  { induction l as [|c l IH]; intros acc; simpl; [set_solver|]. rewrite IH. case_if; [|set_solver].
    match goal with He : existsb _ _ = true |- _ => apply existsb_exists in He as (y & Hy & ->%String.eqb_eq) end.
    apply list_elem_of_In in Hy. set_solver. }
  rewrite Hgen. set_solver.
Qed.

Lemma saved_of i columns rel key changed pv :
  snd <$> plan_preserve i columns rel key changed = Some pv -> pv_cols pv = saved_columns key changed.
Proof. unfold plan_preserve. case_if; [done|]. by intros [= <-]. Qed.

Lemma elem_of_all_columns columns c : c ∈ all_columns columns <-> is_Some (columns !! c).
Proof.
  unfold all_columns, by_key. rewrite list_elem_of_fmap. split.
  - intros ([n o] & -> & Hin). rewrite sort_by_Permutation in Hin. apply elem_of_map_to_list in Hin. by exists o.
  - intros [o Ho]. exists (c, o). split; [done|]. rewrite sort_by_Permutation. by apply elem_of_map_to_list.
Qed.

Lemma first_or_rest key c : c ∈ rk_columns key -> c = rk_first key \/ c ∈ tail (rk_columns key).
Proof. destruct key as [[|k ks]]; simpl; set_solver. Qed.

(** C6: The pre-image takes the change back. Where an accepted update_rows asks
    for its pre-image, the statement, paced or whole, over any rows that hold to
    the observation and any source, saves enough that updating the changed table
    from the side table by key gives the table as it was. Where a delete_rows from
    a source of rows asks for it, the rows left and the rows saved are together the
    rows there were, for a source that names no key twice and rows whose columns are
    the observed ones. A paced statement is taken with a source without NULL in its
    key; a delete by predicate, which has no source, is not covered. *)
Theorem preimage_takes_the_change_back `{SqlValues V} i o cfg s pv within c limit (src rows : list (Row V)) :
  let t := table_obs o (in_qualified i) in
  e_conflicts (plan_from_source i o cfg) = [] -> s ∈ row_changes (plan_from_source i o cfg) ->
  rs_saved s = Some pv -> holds_to t rows -> rk_first (row_key i) <> "" ->
  (rs_paced s = true -> cursor_ok (rs_key s) c /\ keyed (rk_columns (rs_key s)) src /\ (1 <= limit)%nat) ->
  let after_it := run_stmt within c limit s src rows in
  (kind i = kUpdateRows -> run_update (rk_columns (row_key i)) (pv_cols pv) after_it.2 after_it.1 = rows)
  /\ (kind i = kDeleteRows -> apart (rk_columns (row_key i)) src ->
      (forall r x, r ∈ rows -> is_Some (r !! x) -> is_Some (t_columns t !! x)) -> after_it.1 ++ after_it.2 ≡ₚ rows).
Proof.
  intros t Hc Hs Hpv Ht Hk Hpaced after_it. unfold plan_from_source in Hc, Hs. split.
  - intros Hkind. rewrite Hkind in Hc, Hs. apply update_accepted_inv in Hc as (_ & _ & _ & Hp & Hi).
    rewrite Hi, update_change in Hs. apply list_elem_of_singleton in Hs as Hs'.
    assert (by_key_only (rs_mutation s)) as Hm by (by rewrite Hs').
    destruct (run_stmt_spec within c limit s pv src rows Hm Hpv Hpaced) as [Htab Hsv]. fold after_it in Htab, Hsv.
    rewrite Htab. rewrite Hs' in Hsv, Hpv |- *. cbn [rs_key rs_mutation the_change run_mutation rs_saved] in *.
    apply saved_of in Hpv. eapply update_reverts; [by eapply row_key_is_unique_apart| | |exact Hsv].
    + intros x Hx. rewrite Hpv. apply elem_of_saved. unfold with_rest_of_key. apply first_or_rest in Hx. set_solver.
    + intros x Hx. rewrite Hpv. apply elem_of_saved. unfold with_rest_of_key. set_solver.
  - intros Hkind Hsrc Hcols. rewrite Hkind in Hc, Hs. pose proof (delete_change i o cfg s Hc Hs) as Hs'. cbv zeta in Hs'.
    assert (by_key_only (rs_mutation s)) as Hm by (by rewrite Hs').
    destruct (run_stmt_spec within c limit s pv src rows Hm Hpv Hpaced) as [Htab Hsv]. fold after_it in Htab, Hsv.
    rewrite Htab. rewrite Hs' in Hsv, Hpv |- *. cbn [rs_key rs_mutation the_change run_mutation rs_saved] in *.
    apply saved_of in Hpv. apply (delete_reverts _ (pv_cols pv)); [|intros r x Hr Hx; rewrite Hpv; apply elem_of_saved; right;
      apply elem_of_all_columns; by eapply Hcols|exact Hsv].
    unfold reached. case_if; [by apply apart_sublist_filter|done].
Qed.

End Accepted.
