(* ===== verification/StepFacts.v ===== *)
(** * StepFacts: the executor runs the walk that was planned

    The detail of a paced step names the loop and the statements are counted
    before they are taken: for every step the row-level planners write, what the
    executor reads is the walk the planner chose. *)
From S2P Require Import Prelude Json Canonical Spec Quote Batches RowSql RowMeaning RowFacts Plan Planner Indexes RowPlan Dml Backfill KeyFacts Executor StepReading DmlFacts.

(** ** Reading a detail back *)
Lemma obj_find_set_key k k' v l : obj_find k (set_key k' v l) = if String.eqb k k' then Some v else obj_find k l.
Proof.
  induction l as [|[x y] l IH]; simpl; [done|].
  destruct (String.eqb_spec k' x) as [->|Hx]; simpl; [by destruct (String.eqb k x)|]. rewrite IH.
  destruct (String.eqb_spec k x) as [->|]; [|done]. by destruct (String.eqb_spec x k').
Qed.

Definition found (k : string) (start : option json) (l : list (string * json)) : option json :=
  foldl (fun acc kv => if String.eqb k kv.1 then Some kv.2 else acc) start l.

Lemma find_details k l s : obj_find k (st_detail (set_details l s)) = found k (obj_find k (st_detail s)) l.
Proof.
  unfold set_details, found. revert s. induction l as [|kv l IH]; intros s; simpl; [done|].
  by rewrite IH, <- obj_find_set_key.
Qed.

Lemma found_app k start l l' : found k start (l ++ l') = found k (found k start l) l'.
Proof. apply foldl_app. Qed.

(** The optional parts never name what the executor reads. *)
Lemma found_given k start i key note text :
  String.eqb k key = false -> String.eqb k note = false -> found k start (given i key note text) = start.
Proof. intros H1 H2. unfold given, found. destruct (contains _ _); simpl; by rewrite ?H1, ?H2. Qed.

(** The text the executor sends for a statement. *)
Definition sent (q : Stmt) : string := strip_semicolon (render q).

(** The loop a walk's statements are for. *)
Definition shape_loop (shape : WalkShape) (sqls : list string) : option Loop :=
  match shape, sqls with
  | Plain, [a; b] => Some (TwoStatements a b)
  | CompositeWalk columns, [a; b] => Some (CompositeTwo columns a b)
  | Grouped _, [a; b; c] => Some (GroupedThree a b c)
  | _, _ => None
  end.

Definition mode_of (shape : WalkShape) : string :=
  match shape with Plain => "two_statement" | CompositeWalk _ => "composite" | Grouped _ => "grouped" end.

Definition columns_of (shape : WalkShape) : list string := match shape with CompositeWalk columns => columns | _ => [] end.
Definition group_of_shape (shape : WalkShape) : string := match shape with Grouped g => g | _ => "" end.

Lemma strings_back l : omap (fun v => match v with JStr t => Some t | _ => None end) (elements (strings_json l)) = l.
Proof. unfold strings_json, elements. simpl. induction l as [|x l IH]; csimpl; [done|]. by rewrite IH. Qed.

(** A step whose detail names a shape is read as that shape. *)
Lemma read_shape (s : Step) (shape : WalkShape) (single : option Stmt) (sql : list Stmt) (loop : Loop) :
  st_sql s = option_list single ++ sql ->
  shape_loop shape (sent <$> sql) = Some loop ->
  detail_flag "single_statement" s = bool_decide (is_Some single) ->
  detail_text "batch_mode" s = mode_of shape ->
  detail_strings "key_columns" s = columns_of shape ->
  exists r, read_step s = Some r /\ rd_single r = sent <$> single /\ rd_loop r = loop /\ rd_columns r = columns_of shape
    /\ rd_key r = detail_or "key" "id" s /\ rd_where r = detail_text "where" s
    /\ rd_qualified r = detail_text "qualified" s /\ rd_group r = detail_text "group_column" s.
Proof.
  intros Hsql Hloop Hsingle Hmode Hcols. unfold read_step. rewrite Hsql, Hsingle, Hmode, Hcols. fold sent.
  destruct shape as [|columns|g], sql as [|a [|b [|c [|]]]]; csimpl in *; try done; injection Hloop as <-;
    destruct single as [q|]; (rewrite bool_decide_true by (by eexists)) || (rewrite bool_decide_false by (by intros [? ?]));
    csimpl; eexists; done.
Qed.

Section Reads.
Context `{Vendors, Printing}.

Lemma walk_statements_loop p columns w bound saved :
  exists loop, shape_loop (wk_shape w) (sent <$> (walk_statements p columns w bound saved).1) = Some loop.
Proof. destruct w as [[|cols|g] index by_]; simpl; by eexists. Qed.

(** What the executor reads of a backfill's detail. *)
Lemma backfill_detail_found k start i cfg qualified key key_type rows index :
  existsb (String.eqb k) ["single_statement"; "batch_mode"; "key_columns"; "group_column"] = true ->
  found k start (backfill_detail i cfg qualified key key_type rows index) = start.
Proof.
  intros Hk. apply existsb_exists in Hk as (x & Hx & ->%String.eqb_eq). unfold backfill_detail.
  rewrite !found_app. simpl in Hx. destruct Hx as [<-|[<-|[<-|[<-|[]]]]];
    rewrite !found_given by done; done.
Qed.

Lemma backfill_detail_reads start i cfg qualified key key_type rows index :
  let l := backfill_detail i cfg qualified key key_type rows index in
  found "key" start l = Some (JStr key) /\ found "where" start l = Some (JStr (bstr i "where" ""))
  /\ found "qualified" start l = Some (JStr qualified).
Proof. unfold backfill_detail. simpl. rewrite !found_app, !found_given by done. done. Qed.

(** Before the walk is named nothing of it is in the detail, but for the single
    statement. *)
Lemma begun_detail k i columns p shape pv :
  existsb (String.eqb k) ["single_statement"; "batch_mode"; "key_columns"; "group_column"] = true ->
  obj_find k (st_detail (backfill_begun i columns p shape pv))
  = if String.eqb k "single_statement" && negb (bbool i "paced" true) then Some (JBool true) else None.
Proof.
  intros Hk. apply existsb_exists in Hk as (x & Hx & ->%String.eqb_eq). unfold backfill_begun.
  assert (obj_find x (st_detail (if bounded i columns p shape
            then set_details (bound_detail p (walk_columns p shape)) (preserving pv (backfill_opened i))
            else preserving pv (backfill_opened i))) = None) as Hnone.
  { simpl in Hx. destruct (bounded i columns p shape); rewrite ?find_details; destruct pv as [[??]|];
      by destruct Hx as [<-|[<-|[<-|[<-|[]]]]]. }
  destruct (bbool i "paced" true); cbn [set_detail with_lock st_detail].
  - by rewrite andb_false_r.
  - rewrite obj_find_set_key, Hnone. by destruct (String.eqb x _).
Qed.

Lemma begun_class i columns p shape pv :
  st_class (backfill_begun i columns p shape pv) = kOwnTxnPerBatch /\ st_action (backfill_begun i columns p shape pv) = kApply.
Proof.
  unfold backfill_begun. destruct (bounded _ _ _ _), (bbool i "paced" true), pv as [[??]|]; done.
Qed.

Lemma set_details_class l s : st_class (set_details l s) = st_class s /\ st_action (set_details l s) = st_action s.
Proof. unfold set_details. revert s. induction l as [|kv l IH]; intros s; simpl; [done|]. by destruct (IH (set_detail kv.1 kv.2 s)) as [-> ->]. Qed.

Lemma walk_mode_reads p columns w bound saved start :
  let mode := (walk_statements p columns w bound saved).2 in
  found "batch_mode" start mode = Some (JStr (mode_of (wk_shape w)))
  /\ found "single_statement" start mode = start
  /\ (start = None -> found "key_columns" start mode
                      = match wk_shape w with CompositeWalk key => Some (strings_json key) | _ => None end)
  /\ (start = None -> found "group_column" start mode = match wk_shape w with Grouped g => Some (JStr g) | _ => None end).
Proof. destruct w as [[|cols|g] index by_]; simpl; [done..|]. destruct (String.eqb by_ ""); done. Qed.

Section OneBackfill.
Context (i : Intent) (cfg : PlannerConfig) (columns : gmap string ColumnObs) (rows : Z) (w : WalkChoice)
  (pv : option (Step * Preserved)).
Let p := backfill_parts i columns.
Let s := backfill_step i cfg columns rows w pv.
Let mode := (backfill_walk i columns w (snd <$> pv)).2.

Lemma backfill_step_class : st_class s = kOwnTxnPerBatch /\ st_action s = kApply.
Proof using Type.
  unfold s, backfill_step. cbn [with_why st_class st_action].
  edestruct set_details_class as [-> ->]. apply begun_class.
Qed.

Lemma backfill_step_found k :
  obj_find k (st_detail s)
  = found k (found k (obj_find k (st_detail (backfill_begun i columns p (wk_shape w) pv))) mode)
      (backfill_detail i cfg (in_qualified i) (bstr i "key" "") (bp_key_type p) rows (wk_index w)).
Proof using Type. unfold s, backfill_step. cbn [with_why st_detail]. by rewrite find_details, found_app. Qed.

(** What names the loop comes from the walk alone. *)
Lemma backfill_step_named k :
  existsb (String.eqb k) ["single_statement"; "batch_mode"; "key_columns"; "group_column"] = true ->
  obj_find k (st_detail s)
  = found k (if String.eqb k "single_statement" && negb (bbool i "paced" true) then Some (JBool true) else None) mode.
Proof using Type. intros Hk. by rewrite backfill_step_found, backfill_detail_found, begun_detail. Qed.

Lemma backfill_step_reads :
  exists r, read_step s = Some r
    /\ shape_loop (wk_shape w) (sent <$> (backfill_walk i columns w (snd <$> pv)).1) = Some (rd_loop r)
    /\ rd_single r = (if bbool i "paced" true then None else Some (sent (OtherSql (single_sql i p (wk_shape w)))))
    /\ rd_columns r = columns_of (wk_shape w) /\ rd_group r = group_of_shape (wk_shape w)
    /\ rd_key r = bstr i "key" "" /\ rd_where r = bstr i "where" "" /\ rd_qualified r = in_qualified i.
Proof using Type.
  set (single := if bbool i "paced" true then None else Some (OtherSql (single_sql i p (wk_shape w)))).
  pose proof (fun start => walk_mode_reads p columns w
    (if bounded i columns p (wk_shape w) then bound_sql p (walk_columns p (wk_shape w)) else "") (snd <$> pv) start) as Hmode.
  cbv zeta in Hmode. change (walk_statements p columns w _ (snd <$> pv)) with (backfill_walk i columns w (snd <$> pv)) in Hmode.
  fold mode in Hmode.
  destruct (walk_statements_loop p columns w
    (if bounded i columns p (wk_shape w) then bound_sql p (walk_columns p (wk_shape w)) else "") (snd <$> pv)) as [loop Hloop].
  destruct (read_shape s (wk_shape w) single (backfill_walk i columns w (snd <$> pv)).1 loop)
    as (r & Hr & Hrs & Hrl & Hrc & Hrk & Hrw & Hrq & Hrg).
  - unfold s, single, backfill_step. cbn [with_why st_sql]. rewrite set_details_sql. by destruct (bbool i "paced" true).
  - exact Hloop.
  - unfold detail_flag. rewrite backfill_step_named by done. destruct (Hmode
      (if String.eqb "single_statement" "single_statement" && negb (bbool i "paced" true) then Some (JBool true) else None))
      as (_ & -> & _). unfold single. by destruct (bbool i "paced" true).
  - unfold detail_text. rewrite backfill_step_named by done. by destruct (Hmode
      (if String.eqb "batch_mode" "single_statement" && negb (bbool i "paced" true) then Some (JBool true) else None)) as (-> & _).
  - unfold detail_strings. rewrite backfill_step_named by done. simpl. destruct (Hmode None) as (_ & _ & Hkc & _).
    rewrite Hkc by done. destruct (wk_shape w); simpl; [done|apply strings_back|done].
  - exists r. unfold detail_or, detail_text in *.
    rewrite (backfill_step_named "group_column") in Hrg by done. simpl in Hrg.
    rewrite backfill_step_found in Hrk, Hrw, Hrq.
    edestruct backfill_detail_reads as (Ek & _ & _). rewrite Ek in Hrk. clear Ek.
    edestruct backfill_detail_reads as (_ & Ew & _). rewrite Ew in Hrw. clear Ew.
    edestruct backfill_detail_reads as (_ & _ & Eq). rewrite Eq in Hrq. clear Eq.
    destruct (Hmode None) as (_ & _ & _ & Hgc). rewrite Hgc in Hrg by done. rewrite Hrg, Hrs, Hrl. unfold single.
    split_and!; try done; [by destruct (bbool i "paced" true)|by destruct (wk_shape w)].
Qed.
End OneBackfill.

(** ** A change from a source *)

(** What the executor reads, not yet in a detail. *)
Definition unnamed (s : Step) : Prop :=
  Forall (fun k => obj_find k (st_detail s) = None) ["single_statement"; "batch_mode"; "key_columns"; "group_column"].

Lemma unnamed_set k v s : existsb (String.eqb k) ["single_statement"; "batch_mode"; "key_columns"; "group_column"] = false ->
  unnamed s -> unnamed (set_detail k v s).
Proof.
  intros Hk Hs. unfold unnamed in *. rewrite Forall_forall in Hs |- *. intros x Hx. cbn [set_detail st_detail].
  rewrite obj_find_set_key. destruct (String.eqb_spec x k) as [->|]; [|by apply Hs]. exfalso.
  apply not_true_iff_false in Hk. apply Hk, existsb_exists. exists k. split; [by apply list_elem_of_In|apply String.eqb_refl].
Qed.

(** The detail of [attach_pacing_detail]. *)
Lemma attach_reads i cfg n qualified key where_ s :
  unnamed s ->
  let s' := attach_pacing_detail i cfg n qualified key where_ s in
  st_class s' = kOwnTxnPerBatch /\ detail_flag "single_statement" s' = false
  /\ detail_text "batch_mode" s' = (if rk_composite key then "composite_statement" else "")
  /\ detail_strings "key_columns" s' = (if rk_composite key then rk_columns key else [])
  /\ detail_text "where" s' = where_ /\ detail_text "qualified" s' = qualified.
Proof.
  intros Hs s'. unfold unnamed in Hs. rewrite !Forall_cons in Hs. destruct Hs as (Hs1 & Hs2 & Hs3 & _ & _).
  unfold s', attach_pacing_detail, detail_flag, detail_text, detail_strings. cbn [with_class st_detail st_class].
  rewrite !find_details, !found_app, !found_given, Hs1, Hs2, Hs3 by done.
  destruct (rk_composite key); cbn; split_and!; try done. apply strings_back.
Qed.

(** A paced change is read as the one statement it is. *)
Lemma change_step_reads i cfg src columns saved m lock why s c :
  unnamed s -> pa_paced src = true ->
  let s' := with_why why (change_step i cfg src columns saved m lock s) in
  c ∈ changes_of s' ->
  st_class s' = kOwnTxnPerBatch
  /\ exists r, read_step s' = Some r /\ rd_single r = None /\ rd_where r = "" /\ rd_qualified r = in_qualified i
       /\ rd_loop r = (if rk_composite (row_key i) then CompositeOne (rk_columns (row_key i)) (sent (RowChange c))
                       else OneStatement (sent (RowChange c))).
Proof.
  intros Hs Hp s' Hc. assert (st_sql s' = [RowChange c]) as Hsql.
  { unfold s', changes_of in *. cbn [with_why st_sql] in *. rewrite change_step_sql in *. csimpl in Hc.
    by apply list_elem_of_singleton in Hc as ->. }
  assert (st_class s' = kOwnTxnPerBatch /\ detail_flag "single_statement" s' = false
    /\ detail_text "batch_mode" s' = (if rk_composite (row_key i) then "composite_statement" else "")
    /\ detail_strings "key_columns" s' = (if rk_composite (row_key i) then rk_columns (row_key i) else [])
    /\ detail_text "where" s' = "" /\ detail_text "qualified" s' = in_qualified i) as (Hcl & Hf & Hm & Hk & Hw & Hq).
  { unfold s', change_step. rewrite Hp. by apply attach_reads. }
  split; [done|]. unfold read_step. rewrite Hsql, Hf, Hm, Hk, Hw, Hq. fold sent. csimpl.
  destruct (rk_composite (row_key i)); csimpl; eexists; split_and!; done.
Qed.

(** What the executor does not look at does not matter to it. *)
Lemma read_step_verify v s : read_step (set_detail "verify_remaining" v s) = read_step s.
Proof.
  unfold read_step, detail_flag, detail_text, detail_strings, detail_or. cbn [set_detail st_detail st_sql].
  rewrite !obj_find_set_key. done.
Qed.

Lemma in_steps_of_change (made rest : list Step) (s0 s : Step) c :
  made ≫= changes_of = [] -> rest ≫= changes_of = [] -> s ∈ made ++ s0 :: rest -> c ∈ changes_of s -> s = s0.
Proof.
  intros Hm Hr Hs Hc.
  assert (forall l : list Step, l ≫= changes_of = [] -> s ∈ l -> False) as Hno.
  { intros l Hl Hin. apply (proj1 (elem_of_nil c)). rewrite <- Hl. apply list_elem_of_bind. by exists s. }
  apply elem_of_app in Hs as [Hs|[->|Hs]%elem_of_cons]; [|done|]; exfalso; eauto.
Qed.

Lemma unnamed_new kind : unnamed (new_step kind).
Proof. unfold unnamed. repeat constructor. Qed.

Lemma unnamed_preserving pv s : unnamed s -> unnamed (preserving pv s).
Proof. destruct pv as [[??]|]; [|done]. by apply unnamed_set. Qed.

Ltac solve_unnamed :=
  repeat first [apply unnamed_preserving | apply unnamed_new | apply unnamed_set; [reflexivity|] | case_match].

(** The step of each kind that carries its change: the common form, up to what is
    added after. *)
Lemma source_step i o cfg s c :
  e_conflicts (plan_from_source i o cfg) = [] -> s ∈ e_steps (plan_from_source i o cfg) -> c ∈ changes_of s ->
  exists src columns saved m lock why s0,
    unnamed s0 /\ rs_paced c = pa_paced src
    /\ let s' := with_why why (change_step i cfg src columns saved m lock s0) in
       c ∈ changes_of s' /\ st_class s = st_class s' /\ read_step s = read_step s'.
Proof.
  unfold plan_from_source. intros Hc Hs Hin.
  assert (forall made rest src columns saved m lock why s0,
            unnamed s0 -> made ≫= changes_of = [] -> rest ≫= changes_of = [] ->
            s ∈ made ++ with_why why (change_step i cfg src columns saved m lock s0) :: rest ->
            exists src columns saved m lock why s0,
              unnamed s0 /\ rs_paced c = pa_paced src
              /\ let s' := with_why why (change_step i cfg src columns saved m lock s0) in
                 c ∈ changes_of s' /\ st_class s = st_class s' /\ read_step s = read_step s') as Hgen.
  { intros made rest src columns saved m lock why s0 Hu Hm Hr Hsin.
    pose proof (in_steps_of_change _ _ _ _ _ Hm Hr Hsin Hin) as ->.
    exists src, columns, saved, m, lock, why, s0. split; [done|]. split; [|done].
    unfold changes_of in Hin. cbn [with_why st_sql] in Hin. rewrite change_step_sql in Hin. csimpl in Hin.
    by apply list_elem_of_singleton in Hin as ->. }
  destruct (kind i); try by apply elem_of_nil in Hs.
  - destruct (delete_accepted_inv i o cfg Hc) as [He|He].
    { exfalso. apply (proj1 (elem_of_nil c)). rewrite <- He. apply list_elem_of_bind. by exists s. }
    rewrite He in Hs. pose proof (in_steps_of_change _ [] _ _ _ (preserve_step_changes _ _ _ _ _) eq_refl Hs Hin) as ->.
    match type of Hin with c ∈ changes_of (delete_finished i ?pv (with_why ?why ?s1)) =>
      set (s0 := s1) in *; set (p := pv) in *; exists (decide_pacing i cfg true), (t_columns (table_obs o (in_qualified i))),
        (snd <$> p), DeleteRows, (one_transaction_lock (in_qualified i)), why end.
    eexists. unfold changes_of in Hin |- *. rewrite delete_finished_sql in Hin. cbn [with_why st_sql] in Hin |- *.
    split; [|split; [|split; [exact Hin|]]].
    + cbn [set_details foldl fst snd]. solve_unnamed.
    + unfold s0 in Hin. rewrite change_step_sql in Hin. csimpl in Hin. by apply list_elem_of_singleton in Hin as ->.
    + unfold delete_finished. destruct p as [[??]|]; destruct (contains (body i) "verify_remaining");
        rewrite ?read_step_verify; done.
  - apply insert_accepted_inv in Hc as (_ & _ & _ & conflict & _ & Hi). rewrite Hi in Hs. unfold insert_accepted in Hs.
    cbn [e_steps] in Hs. eapply (Hgen [] (emit_sequence_catchup i _ _ _)); [|done|apply catchup_changes|exact Hs].
    cbn [set_details foldl fst snd]. destruct conflict as [[??]|]; solve_unnamed.
  - apply update_accepted_inv in Hc as (_ & _ & _ & _ & Hi). rewrite Hi in Hs. unfold update_accepted in Hs.
    cbn [e_steps] in Hs. eapply (Hgen _ []); [|apply preserve_step_changes|done|exact Hs].
    cbn [set_details foldl fst snd]. solve_unnamed.
  - apply merge_accepted_inv in Hc as (_ & _ & _ & _ & _ & Hi). rewrite Hi in Hs. unfold merge_accepted in Hs.
    cbn [e_steps] in Hs. eapply Hgen; [|apply preserve_step_changes| |exact Hs].
    + cbn [set_details foldl fst snd]. solve_unnamed.
    + case_if; [apply catchup_changes|done].
Qed.

(** C25: The executor runs the walk that was planned. An accepted backfill ends
    with one step that commits batch by batch; what the executor reads of it is
    the loop of the walk that was chosen with that walk's statements in their
    places, the single statement ahead of them exactly where pacing is off, the
    key columns of a walk along several, the group column of a grouped one, and
    the key, predicate and table the resumption check needs. A step with a paced
    change from a source commits batch by batch too and is read as that one
    statement, over all the columns of its key where there are several. *)
Theorem executor_reads_the_planned_walk i o cfg :
  let t := table_obs o (in_qualified i) in
  let p := backfill_parts i (t_columns t) in
  (e_conflicts (plan_backfill i o cfg) = [] ->
   exists made s w saved r,
    choose_walk t (in_qualified i) (bstr i "key" "") (required_confinement o (in_qualified i)).1
      (required_confinement o (in_qualified i)).2 = inr w
    /\ e_steps (plan_backfill i o cfg) = made ++ [s] /\ st_class s = kOwnTxnPerBatch /\ st_action s = kApply
    /\ read_step s = Some r
    /\ shape_loop (wk_shape w) (sent <$> (backfill_walk i (t_columns t) w saved).1) = Some (rd_loop r)
    /\ rd_single r = (if bbool i "paced" true then None else Some (sent (OtherSql (single_sql i p (wk_shape w)))))
    /\ rd_columns r = columns_of (wk_shape w) /\ rd_group r = group_of_shape (wk_shape w)
    /\ rd_key r = bstr i "key" "" /\ rd_where r = bstr i "where" "" /\ rd_qualified r = in_qualified i)
  /\ (forall s c, e_conflicts (plan_from_source i o cfg) = [] -> s ∈ e_steps (plan_from_source i o cfg) ->
      c ∈ changes_of s -> rs_paced c = true ->
      st_class s = kOwnTxnPerBatch
      /\ exists r, read_step s = Some r /\ rd_single r = None /\ rd_where r = "" /\ rd_qualified r = in_qualified i
           /\ rd_loop r = (if rk_composite (row_key i) then CompositeOne (rk_columns (row_key i)) (sent (RowChange c))
                           else OneStatement (sent (RowChange c)))).
Proof.
  intros t p. split.
  2: { intros s c Hc Hs Hin Hp. destruct (source_step i o cfg s c Hc Hs Hin) as
         (src & columns & saved & m & lock & why & s0 & Hu & Hpa & Hin' & -> & ->).
       apply change_step_reads; [done|congruence|done]. }
  intros (_ & _ & w & Hw & Hplan)%backfill_accepted_inv. rewrite Hplan. unfold backfill_accepted.
  destruct (backfill_saved i (bstr i "key" "") (wk_shape w)) as [first changed].
  set (pv := plan_preserve i _ _ first changed).
  destruct (backfill_step_reads i cfg (t_columns t) (table_rows o (in_qualified i) i) w pv) as (r & Hr).
  destruct (backfill_step_class i cfg (t_columns t) (table_rows o (in_qualified i) i) w pv) as [Hcl Hac].
  exists (option_list (fst <$> pv)), (backfill_step i cfg (t_columns t) (table_rows o (in_qualified i) i) w pv), w,
    (snd <$> pv), r.
  split; [done|]. split; [done|]. split; [done|]. split; [done|]. apply Hr.
Qed.

End Reads.
