(* ===== verification/FillFacts.v ===== *)
(** * FillFacts: a column filled while the table is in use

    The recipe of an added column with a fill: the trigger is there before any row
    can miss a value, a pass for every source fills the rows that were there as the
    trigger would have, and NOT NULL comes when no row is left without a value, in
    whatever way the application writes in between. *)
From S2P Require Import Prelude Json Canonical Spec Quote Batches RowSql Plan Planner Indexes RowPlan Dml Backfill AddColumn Executor StepReading KeyFacts DmlFacts StepFacts.

(** ** The passes of a recipe *)
Lemma add_to_passes_inv round src g l p h :
  p ∈ add_to_passes round src g l -> h ∈ ps_columns p ->
  (exists q, q ∈ l /\ ps_round q = ps_round p /\ h ∈ ps_columns q) \/ (h = g /\ (ps_round p = round \/ exists q, q ∈ l /\ ps_round q = ps_round p)).
Proof.
  induction l as [|q l IH]; simpl.
  - intros ->%list_elem_of_singleton ->%list_elem_of_singleton. right. by split; [|left].
  - case_if.
    + intros [->|Hp]%elem_of_cons Hh; simpl in *.
      * apply elem_of_app in Hh as [Hh|Hh%list_elem_of_singleton]; [left|right; split; [done|right]]; exists q; (split; [left|done]).
      * left. exists p. split; [by right|done].
    + intros [->|Hp]%elem_of_cons Hh; [left; exists q; split; [left|done]|].
      destruct (IH Hp Hh) as [(x & Hx & Hx')|[-> [Hr|(x & Hx & Hx')]]].
      * left. exists x. split; [by right|done].
      * right. by split; [|left].
      * right. split; [done|right]. exists x. split; [by right|done].
Qed.

Lemma add_to_passes_round round src g l :
  Forall (fun p => ps_round p = round) l -> Forall (fun p => ps_round p = round) (add_to_passes round src g l).
Proof.
  induction 1 as [|q l Hq Hl IH]; simpl; [by repeat constructor|]. case_if; constructor; done.
Qed.

Lemma add_to_passes_keeps round src g l h :
  h = g \/ (exists p, p ∈ l /\ h ∈ ps_columns p) -> exists p, p ∈ add_to_passes round src g l /\ h ∈ ps_columns p.
Proof.
  induction l as [|q l IH]; simpl.
  - intros [->|(p & Hp & _)]; [|by apply elem_of_nil in Hp]. eexists. split; [left|]. by left.
  - intros Hh. case_if.
    + destruct Hh as [->|(p & [->|Hp]%elem_of_cons & Hh)].
      * eexists. split; [left|]. simpl. apply elem_of_app. right. by left.
      * eexists. split; [left|]. simpl. apply elem_of_app. by left.
      * exists p. split; [by right|done].
    + destruct Hh as [->|(p & [->|Hp]%elem_of_cons & Hh)].
      * destruct IH as (p & Hp & Hh); [by left|]. exists p. split; [by right|done].
      * exists q. split; [left|done].
      * destruct IH as (p' & Hp' & Hh'); [right; by exists p|]. exists p'. split; [by right|done].
Qed.

(** What the passes of a round hold, built column by column. *)
Lemma passes_of_round_spec pending round :
  (forall p g, p ∈ passes_of_round pending round -> g ∈ ps_columns p ->
     ps_round p = round /\ g ∈ pending /\ is_Some (source_at round g))
  /\ (forall g, g ∈ pending -> is_Some (source_at round g) -> exists p, p ∈ passes_of_round pending round /\ g ∈ ps_columns p).
Proof.
  unfold passes_of_round.
  assert (forall l acc,
    Forall (fun p => ps_round p = round) acc ->
    Forall (fun p => forall g, g ∈ ps_columns p -> is_Some (source_at round g)) acc ->
    let r := foldl (fun l g => match source_at round g with Some src => add_to_passes round src g l | None => l end) acc l in
    Forall (fun p => ps_round p = round) r
    /\ (forall p g, p ∈ r -> g ∈ ps_columns p -> is_Some (source_at round g) /\ (g ∈ l \/ exists q, q ∈ acc /\ g ∈ ps_columns q))
    /\ (forall g, (g ∈ l /\ is_Some (source_at round g)) \/ (exists q, q ∈ acc /\ g ∈ ps_columns q) ->
          exists p, p ∈ r /\ g ∈ ps_columns p)) as Hgen.
  { induction l as [|x l IH]; intros acc Hr Hs; simpl.
    - split_and!; [done| |].
      + intros p g Hp Hg. rewrite Forall_forall in Hs. split; [by eapply Hs|]. right. by exists p.
      + intros g [[Hg _]|?]; [by apply elem_of_nil in Hg|done].
    - destruct (source_at round x) as [src|] eqn:Hsrc.
      + assert (Forall (fun p => forall g, g ∈ ps_columns p -> is_Some (source_at round g)) (add_to_passes round src x acc)) as Hs'.
        { apply Forall_forall. intros p Hp g Hg. destruct (add_to_passes_inv _ _ _ _ _ _ Hp Hg) as [(q & Hq & _ & Hgq)|[-> _]].
          - rewrite Forall_forall in Hs. by eapply Hs.
          - by rewrite Hsrc. }
        destruct (IH _ (add_to_passes_round _ src x _ Hr) Hs') as (I1 & I2 & I3). split_and!; [done| |].
        * intros p g Hp Hg. destruct (I2 p g Hp Hg) as [Hsome [Hin|(q & Hq & Hgq)]]; (split; [done|]).
          { left. by right. }
          destruct (add_to_passes_inv _ _ _ _ _ _ Hq Hgq) as [(q' & Hq' & _ & Hgq')|[-> _]]; [right; by exists q'|left; by left].
        * intros g Hg. apply I3. destruct Hg as [[[->|Hin]%elem_of_cons Hsome]|Hex].
          { right. apply add_to_passes_keeps. by left. }
          { by left. }
          { right. apply add_to_passes_keeps. by right. }
      + destruct (IH _ Hr Hs) as (I1 & I2 & I3). split_and!; [done| |].
        * intros p g Hp Hg. destruct (I2 p g Hp Hg) as [Hsome [Hin|Hex]]; (split; [done|]); [left; by right|by right].
        * intros g [[[->|Hin]%elem_of_cons Hsome]|Hex]; apply I3; [|by left|by right]. rewrite Hsrc in Hsome. by destruct Hsome. }
  destruct (Hgen pending [] ltac:(constructor) ltac:(constructor)) as (I1 & I2 & I3). split.
  - intros p g Hp Hg. destruct (I2 p g Hp Hg) as [Hsome [Hin|(q & Hq & _)]]; [|by apply elem_of_nil in Hq].
    rewrite Forall_forall in I1. by rewrite (I1 p Hp).
  - intros g Hg Hsome. apply I3. by left.
Qed.

Lemma passes_round pending round : Forall (fun p => ps_round p = round) (passes_of_round pending round).
Proof.
  unfold passes_of_round. assert (forall l acc, Forall (fun p => ps_round p = round) acc ->
    Forall (fun p => ps_round p = round)
      (foldl (fun l g => match source_at round g with Some src => add_to_passes round src g l | None => l end) acc l)) as Hgen.
  { induction l as [|g l IH]; intros acc Hacc; simpl; [done|]. apply IH. destruct (source_at round g); [|done].
    by apply add_to_passes_round. }
  by apply Hgen.
Qed.

Lemma rounds_cover pending g k : g ∈ pending -> is_Some (source_at k g) -> (k < fill_rounds pending)%nat.
Proof.
  unfold source_at, fill_rounds. intros Hg Hs%lookup_lt_is_Some. induction pending as [|x l IH]; [by apply elem_of_nil in Hg|].
  apply elem_of_cons in Hg as [->|Hg]; simpl; [lia|]. specialize (IH Hg). lia.
Qed.

(** Every source of every pending column has its pass, and a pass nothing else. *)
Lemma fill_passes_spec pending :
  (forall p g, p ∈ fill_passes pending -> g ∈ ps_columns p -> g ∈ pending)
  /\ (forall g k, g ∈ pending -> is_Some (source_at k g) ->
        exists p, p ∈ fill_passes pending /\ g ∈ ps_columns p /\ ps_round p = k).
Proof.
  unfold fill_passes. split.
  - intros p g (k & Hp & _)%list_elem_of_bind Hg. by destruct (proj1 (passes_of_round_spec pending k) p g Hp Hg) as (_ & ? & _).
  - intros g k Hg Hs. destruct (proj2 (passes_of_round_spec pending k) g Hg Hs) as (p & Hp & Hgp).
    exists p. split; [|split; [done|]].
    + apply list_elem_of_bind. exists k. split; [done|]. apply elem_of_seq. pose proof (rounds_cover _ _ _ Hg Hs). lia.
    + by destruct (proj1 (passes_of_round_spec pending k) p g Hp Hgp).
Qed.

(** The source of a pass for one of its columns, as its statement has it: the pass's
    relation and the column's value. *)
Definition pass_source (p : Pass) (g : Intent) : FillSource :=
  {| fill_from := ps_from p; fill_on := ps_on p; fill_value := pass_value p g |}.

(** A pass of [group] whose statement takes for each column its own source. *)
Definition sound_pass (group : list Intent) (p : Pass) : Prop :=
  forall g, g ∈ ps_columns p -> g ∈ group /\ source_at (ps_round p) g = Some (pass_source p g).

Lemma add_to_passes_sound group round src g l :
  g ∈ group -> source_at round g = Some src -> Forall (fun p => ps_round p = round /\ sound_pass group p) l ->
  Forall (fun p => ps_round p = round /\ sound_pass group p) (add_to_passes round src g l).
Proof.
  intros Hg Hsrc. induction 1 as [|q l [Hr Hq] Hl IH]; simpl.
  - constructor; [|constructor]. split; [done|]. intros h ->%list_elem_of_singleton. split; [done|].
    unfold pass_source, pass_value; cbn [ps_round ps_from ps_on]. rewrite Hsrc. by destruct src.
  - destruct (_ && _) eqn:Hm; [|by constructor]. apply andb_true_iff in Hm as [Hf%String.eqb_eq Ho%String.eqb_eq].
    constructor; [|done]. split; [done|]. intros h Hh. cbn [ps_columns] in Hh.
    unfold pass_source, pass_value; cbn [ps_round ps_from ps_on].
    apply elem_of_app in Hh as [Hh|Hh%list_elem_of_singleton]; [by apply Hq|subst h].
    split; [done|]. rewrite Hr, Hsrc. cbn. rewrite Hf, Ho. by destruct src.
Qed.

Lemma passes_of_round_sound pending round : Forall (sound_pass pending) (passes_of_round pending round).
Proof.
  unfold passes_of_round.
  assert (forall l acc, (forall g, g ∈ l -> g ∈ pending) -> Forall (fun p => ps_round p = round /\ sound_pass pending p) acc ->
    Forall (fun p => ps_round p = round /\ sound_pass pending p)
      (foldl (fun l g => match source_at round g with Some src => add_to_passes round src g l | None => l end) acc l)) as Hgen.
  { induction l as [|g l IH]; intros acc Hl Hacc; simpl; [done|]. apply IH; [intros; apply Hl; by right|].
    destruct (source_at round g) eqn:Hs; [|done]. apply add_to_passes_sound; [apply Hl; left|done..]. }
  eapply Forall_impl; [by apply Hgen|]. by intros p [_ Hp].
Qed.

Lemma fill_passes_sound pending : Forall (sound_pass pending) (fill_passes pending).
Proof.
  apply Forall_forall. intros p (k & Hp & _)%list_elem_of_bind. revert p Hp. apply Forall_forall, passes_of_round_sound.
Qed.

Lemma sound_pass_weaken group group' p : (forall g, g ∈ group -> g ∈ group') -> sound_pass group p -> sound_pass group' p.
Proof. intros Hsub Hp g Hg. destruct (Hp g Hg). auto. Qed.

(** A name that a list has once has one owner in it. *)
Lemma NoDup_fmap_inj {A B} (f : A -> B) (l : list A) x y : NoDup (f <$> l) -> x ∈ l -> y ∈ l -> f x = f y -> x = y.
Proof.
  intros Hnd [i Hi]%list_elem_of_lookup [j Hj]%list_elem_of_lookup He.
  assert (i = j) as ->; [|congruence]. eapply NoDup_lookup; [done|by rewrite list_lookup_fmap, Hi|].
  rewrite list_lookup_fmap, Hj. csimpl. by rewrite He.
Qed.

(** What is left to do: columns that are not there or still nullable. *)
Lemma fill_state_spec qualified columns group missing pending :
  fill_state qualified columns group = inr (missing, pending) ->
  (forall g, g ∈ missing <-> g ∈ group /\ columns !! column_name g = None)
  /\ (forall g, g ∈ pending -> g ∈ group /\ (columns !! column_name g = None \/ exists c, columns !! column_name g = Some c /\ c_not_null c = false))
  /\ (forall g, g ∈ group -> g ∈ pending \/ exists c, columns !! column_name g = Some c /\ c_not_null c = true)
  /\ sublist pending group.
Proof.
  revert missing pending. induction group as [|g group IH]; intros missing pending; simpl.
  { intros [= <- <-]. split_and!; [set_solver..|constructor]. }
  destruct (columns !! column_name g) as [c|] eqn:Hc.
  - case_if; [done|]. destruct (fill_state _ _ group) as [|[m p]] eqn:Hf; [done|]. intros [= <- <-].
    destruct (IH m p eq_refl) as (I1 & I2 & I3 & I4). split_and!.
    + intros h. rewrite I1. split; [set_solver|]. intros [[->|Hh]%elem_of_cons Hn]; [congruence|done].
    + intros h Hh. destruct (c_not_null c) eqn:Hnn; [destruct (I2 h Hh); split; [by right|done]|].
      apply elem_of_cons in Hh as [->|Hh]; [split; [left|right; by exists c]|]. destruct (I2 h Hh). split; [by right|done].
    + intros h [->|Hh]%elem_of_cons; destruct (c_not_null c) eqn:Hnn; [right; by exists c|left; left|by apply I3|].
      destruct (I3 h Hh); [left; by right|by right].
    + destruct (c_not_null c); by constructor.
  - destruct (fill_state _ _ group) as [|[m p]] eqn:Hf; [done|]. intros [= <- <-].
    destruct (IH m p eq_refl) as (I1 & I2 & I3 & I4). split_and!.
    + intros h. rewrite !elem_of_cons, I1. split; [intros [->|[? ?]]; auto|]. intros [[->|Hh] Hn]; auto.
    + intros h [->|Hh]%elem_of_cons; [split; [left|by left]|]. destruct (I2 h Hh). split; [by right|done].
    + intros h [->|Hh]%elem_of_cons; [left; left|]. destruct (I3 h Hh); [left; by right|by right].
    + by constructor.
Qed.

(** ** What the trigger and a pass do to a row

    A row is what each column holds. [eval] is the value a source gives for a row,
    [None] where it gives none. *)
Section Meaning.
Context {V : Type} (eval : FillSource -> (string -> option V) -> option V) (simple : bool).
#[local] Notation row := (string -> option V).

Definition set_column (c : string) (v : option V) (r : row) : row := fun c' => if String.eqb c' c then v else r c'.

(** COALESCE over the sources. *)
Definition first_value (sources : list FillSource) (r : row) : option V := head (omap (fun s => eval s r) sources).

(** The trigger's function: its statements one after the other, each over the row as
    filled so far. *)
Fixpoint run_fill (r : row) (s : FillStmt (list FillSource)) : row :=
  match s with
  | SelectInto c sources => set_column c (first_value sources r) r
  | IfNull c s => match r c with Some _ => r | None => run_fill r s end
  end.

Definition fill_row (group : list Intent) (r : row) : row := foldl run_fill r (fill_body group).

Lemma fill_row_cons g l r :
  fill_row (g :: l) r
  = fill_row l (match r (column_name g) with
                | Some _ => r
                | None => set_column (column_name g) (first_value (fill_sources (body g)) r) r
                end).
Proof. done. Qed.

(** A pass's statement on a row: whether its predicate selects the row, and what it
    sets, every expression over the row as it was. A value is read from the relation
    the pass joins, and there is none where no row of it matches. *)
Definition value_in (p : Pass) (value : string) (r : row) : option V :=
  eval {| fill_from := ps_from p; fill_on := ps_on p; fill_value := value |} r.

Definition set_value (p : Pass) (r : row) (e : SetTo) : option V :=
  match e with
  | Value value => value_in p value r
  | CoalesceOwn c value => match r c with Some v => Some v | None => value_in p value r end
  end.

Definition is_wanted (p : Pass) (r : row) (w : Wanted) : bool :=
  match w with
  | StillNull c => match r c with Some _ => false | None => true end
  | NullAndGiven c value =>
      match r c, value_in p value r with None, Some _ => true | _, _ => false end
  end.

Definition pass_row (p : Pass) (r : row) : row := fun c =>
  if existsb (is_wanted p r) (pass_wants p)
  then match List.find (fun ce => String.eqb ce.1 c) (pass_sets simple p) with
       | Some ce => set_value p r ce.2
       | None => r c
       end
  else r c.

(** A pass that may set a column outright has one column. *)
Definition fit (group : list Intent) (p : Pass) : Prop :=
  sound_pass group p /\ (simple = true -> exists g, ps_columns p = [g]).

Lemma find_sets p c :
  List.find (fun ce => String.eqb ce.1 c) (pass_sets simple p)
  = (fun g => (column_name g, if simple then Value (pass_value p g) else CoalesceOwn (column_name g) (pass_value p g)))
    <$> List.find (fun g => String.eqb (column_name g) c) (ps_columns p).
Proof.
  unfold pass_sets. induction (ps_columns p) as [|g l IH]; csimpl; [done|]. by destruct (String.eqb (column_name g) c).
Qed.

(** The guards leave a value that is there, and give a column that has none the
    value of its source. *)
Lemma pass_row_at group p r c :
  fit group p ->
  pass_row p r c = match r c with
                   | Some v => Some v
                   | None => g ← List.find (fun g => String.eqb (column_name g) c) (ps_columns p); eval (pass_source p g) r
                   end.
Proof.
  intros [_ Hone]. unfold pass_row. rewrite find_sets.
  destruct (List.find _ (ps_columns p)) as [g|] eqn:Hf; csimpl; [|by case_if; destruct (r c)].
  apply find_some in Hf as [Hg Hn]. apply String.eqb_eq in Hn. subst c.
  change (eval (pass_source p g) r) with (value_in p (pass_value p g) r).
  destruct (existsb (is_wanted p r) (pass_wants p)) eqn:Hw.
  - destruct simple; cbn [set_value]; [|done]. destruct Hone as [h Hh]; [done|]. unfold pass_wants in Hw.
    rewrite Hh in Hg, Hw. destruct Hg as [->|[]]. csimpl in Hw. rewrite orb_false_r in Hw. unfold is_wanted in Hw.
    destruct (pass_joined p); by destruct (r (column_name g)).
  - destruct (r (column_name g)) eqn:Hr; [done|].
    assert (is_wanted p r (if pass_joined p then NullAndGiven (column_name g) (pass_value p g) else StillNull (column_name g)) = false) as Hno.
    { destruct (is_wanted _ _ _) eqn:E; [|done]. rewrite <- Hw. symmetry. apply existsb_exists. eexists. split; [|exact E].
      unfold pass_wants. apply in_map_iff. by exists g. }
    unfold is_wanted in Hno. destruct (pass_joined p); rewrite Hr in Hno; [|done]. by destruct (value_in p (pass_value p g) r).
Qed.

(** Sources that do not look at the columns being filled. *)
Definition blind (group : list Intent) : Prop :=
  forall g s r r', g ∈ group -> s ∈ fill_sources (body g) ->
    (forall c, c ∉ column_name <$> group -> r c = r' c) -> eval s r = eval s r'.

Definition same_columns (group : list Intent) (r r' : row) : Prop := forall c, c ∉ column_name <$> group -> r c = r' c.

Lemma set_column_same group g v r : g ∈ group -> same_columns group (set_column (column_name g) v r) r.
Proof.
  intros Hg c Hc. unfold set_column. destruct (String.eqb_spec c (column_name g)) as [->|]; [|done].
  destruct Hc. apply list_elem_of_fmap. by exists g.
Qed.

Lemma fill_row_same group l r : (forall g, g ∈ l -> g ∈ group) -> same_columns group (fill_row l r) r.
Proof.
  unfold fill_row. revert r. induction l as [|g l IH]; intros r Hl c Hc; simpl; [done|].
  rewrite IH; [|intros; apply Hl; by right|done]. destruct (r (column_name g)); [done|].
  apply (set_column_same group); [|done]. apply Hl. left.
Qed.

Lemma first_value_blind group g r r' :
  blind group -> g ∈ group -> same_columns group r r' ->
  first_value (fill_sources (body g)) r = first_value (fill_sources (body g)) r'.
Proof.
  intros Hb Hg Hs. unfold first_value. f_equal. apply list_omap_ext. apply Forall2_same_length_lookup. split; [done|].
  intros i x y Hx Hy. rewrite Hx in Hy. injection Hy as <-. apply (Hb g); [done|by eapply list_elem_of_lookup_2|done].
Qed.

(** What the trigger leaves in a column. *)
Lemma fill_row_lookup group l r g :
  blind group -> NoDup (column_name <$> l) -> (forall g, g ∈ l -> g ∈ group) -> g ∈ l ->
  fill_row l r (column_name g)
  = match r (column_name g) with Some v => Some v | None => first_value (fill_sources (body g)) r end.
Proof.
  intros Hb. unfold fill_row. revert r. induction l as [|x l IH]; intros r Hnd Hl Hg; [by apply elem_of_nil in Hg|].
  csimpl in Hnd. apply NoDup_cons in Hnd as [Hx Hnd]. simpl.
  assert (forall y r, y ∉ column_name <$> l -> fill_row l r y = r y) as Hother.
  { clear. intros y r. unfold fill_row. revert r. induction l as [|z l IH]; intros r Hy; simpl; [done|]. csimpl in Hy.
    rewrite IH by set_solver. destruct (r (column_name z)); [done|]. unfold set_column.
    destruct (String.eqb_spec y (column_name z)); [set_solver|done]. }
  apply elem_of_cons in Hg as [->|Hg].
  - unfold fill_row in Hother. rewrite Hother by done. destruct (r (column_name x)) eqn:Hr; [done|].
    unfold set_column. by rewrite String.eqb_refl.
  - assert (column_name g <> column_name x) as Hne.
    { intros He. apply Hx. rewrite <- He. apply list_elem_of_fmap. by exists g. }
    rewrite IH; [|done|intros; apply Hl; by right|done]. destruct (r (column_name x)) eqn:Hr; [done|].
    unfold set_column at 1. rewrite (proj2 (String.eqb_neq _ _) Hne). destruct (r (column_name g)); [done|].
    apply (first_value_blind group); [done|apply Hl; by right|]. apply set_column_same, Hl. left.
Qed.

Lemma pass_row_same group p r : fit group p -> same_columns group (pass_row p r) r.
Proof.
  intros Hp c Hc. rewrite (pass_row_at group) by done. destruct (r c); [done|]. destruct (List.find _ _) as [g|] eqn:Hf; [|done].
  apply find_some in Hf as [Hg Hn]. apply String.eqb_eq in Hn as <-. destruct Hc. apply list_elem_of_fmap.
  exists g. split; [done|]. by apply (proj1 Hp), list_elem_of_In.
Qed.

(** A column still without a value after a pass that has it got none from it. *)
Lemma pass_row_none group p r g s :
  NoDup (column_name <$> group) -> fit group p -> g ∈ ps_columns p ->
  source_at (ps_round p) g = Some s -> pass_row p r (column_name g) = None -> eval s r = None.
Proof.
  intros Hnd Hp Hg Hs. rewrite (pass_row_at group) by done. destruct (r (column_name g)); [done|].
  destruct (List.find _ _) as [h|] eqn:Hf.
  - apply find_some in Hf as [Hh Hn]. apply list_elem_of_In in Hh. apply String.eqb_eq in Hn.
    assert (h = g) as -> by (apply (NoDup_fmap_inj column_name group); [done|by apply (proj1 Hp)..|done]).
    destruct (proj1 Hp g Hg) as [_ Hs']. rewrite Hs in Hs'. injection Hs' as ->. done.
  - apply find_none with (x := g) in Hf; [by rewrite String.eqb_refl in Hf|by apply list_elem_of_In].
Qed.

Lemma pass_row_keeps group p r c : fit group p -> is_Some (r c) -> pass_row p r c = r c.
Proof. intros Hp. rewrite (pass_row_at group) by done. by intros [v ->]. Qed.

(** ** The application writes while the passes run *)

(** What happens to the table from the trigger on: the application inserts and
    changes rows through the trigger, deletes them, and the pass under way visits
    one. *)
Inductive Event : Type :=
  | Inserted (r : string -> option V)
  | Changed (n : nat) (r : string -> option V)
  | Deleted (n : nat)
  | Visited (n : nat).

Definition happens (group : list Intent) (p : Pass) (rows : list (option row)) (e : Event) : list (option row) :=
  match e with
  | Inserted r => rows ++ [Some (fill_row group r)]
  | Changed n r => alter (fmap (fun _ => fill_row group r)) n rows
  | Deleted n => <[n := None]> rows
  | Visited n => alter (fmap (pass_row p)) n rows
  end.

(** A pass with what happens during it; it ends when it has visited every row that
    was there when it began. *)
Definition completes (rows : list (option row)) (es : list Event) : Prop :=
  forall n r, rows !! n = Some (Some r) -> Visited n ∈ es.

Fixpoint fills_run (group : list Intent) (rows : list (option row)) (ps : list (Pass * list Event)) : Prop :=
  match ps with
  | [] => True
  | (p, es) :: ps' => completes rows es /\ fills_run group (foldl (happens group p) rows es) ps'
  end.

Definition after_fills (group : list Intent) (rows : list (option row)) (ps : list (Pass * list Event)) : list (option row) :=
  foldl (fun rows pe => foldl (happens group pe.1) rows pe.2) rows ps.

(** Every row has a value for some source of every column. *)
Definition total (group : list Intent) : Prop :=
  forall g r, g ∈ group -> exists s, s ∈ fill_sources (body g) /\ is_Some (eval s r).

Definition filled (group : list Intent) (r : row) : Prop := forall g, g ∈ group -> is_Some (r (column_name g)).

(** A column without a value got none from the passes done. *)
Definition tried (group : list Intent) (ps : list Pass) (r : row) : Prop :=
  forall g p s, g ∈ group -> p ∈ ps -> g ∈ ps_columns p -> source_at (ps_round p) g = Some s ->
    r (column_name g) = None -> eval s r = None.

Section Runs.
Context (group : list Intent) (Hblind : blind group) (Hnd : NoDup (column_name <$> group)) (Htotal : total group).

Lemma first_value_total g r : g ∈ group -> is_Some (first_value (fill_sources (body g)) r).
Proof.
  intros Hg. destruct (Htotal g r Hg) as (s & Hs & v & Hv). unfold first_value.
  destruct (omap (fun s => eval s r) (fill_sources (body g))) as [|x l] eqn:Ho; [|by eexists]. exfalso.
  apply (proj1 (elem_of_nil v)). rewrite <- Ho. apply list_elem_of_omap. by exists s.
Qed.

Lemma fill_row_filled r : filled group (fill_row group r).
Proof.
  intros g Hg. rewrite (fill_row_lookup group group) by done. destruct (r (column_name g)); [by eexists|].
  by apply first_value_total.
Qed.

Lemma filled_tried ps r : filled group r -> tried group ps r.
Proof. intros Hf g p s Hg _ _ _ Hn. destruct (Hf g Hg). congruence. Qed.

Lemma visited_tried ps p r :
  fit group p -> tried group ps r -> tried group (p :: ps) (pass_row p r).
Proof.
  intros Hp Hd g q s Hg Hq Hgq Hs Hn. assert (eval s (pass_row p r) = eval s r) as ->.
  { apply (Hblind g); [done|by eapply list_elem_of_lookup_2|]. by apply pass_row_same. }
  apply elem_of_cons in Hq as [->|Hq]; [by eapply pass_row_none|].
  eapply Hd; [done..|]. destruct (r (column_name g)) eqn:Hr; [|done]. rewrite (pass_row_keeps group), Hr in Hn; [done|done|]. by rewrite Hr.
Qed.

Definition all_tried (ps : list Pass) (rows : list (option row)) : Prop :=
  forall n r, rows !! n = Some (Some r) -> tried group ps r.

(** During a pass the rows visited or written are done with it, the others with
    the passes before. *)
Definition under_way (ps : list Pass) (p : Pass) (rows : list (option row)) (open : nat -> Prop) : Prop :=
  forall n r, rows !! n = Some (Some r) -> tried group ps r /\ (~ open n -> tried group (p :: ps) r).

Lemma tried_weaken ps p r : tried group (p :: ps) r -> tried group ps r.
Proof. intros Hd g q s Hg Hq. apply Hd; [done|by right]. Qed.

Lemma happens_under_way ps p rows (open : nat -> Prop) e :
  fit group p -> (forall n, open n -> (n < length rows)%nat) ->
  under_way ps p rows open ->
  under_way ps p (happens group p rows e) (fun n => open n /\ e <> Visited n)
  /\ (length rows <= length (happens group p rows e))%nat.
Proof.
  intros Hp Hopen Hu. destruct e as [r|n r|n|n]; cbn [happens].
  - split; [|rewrite length_app; lia]. intros m x Hm. apply lookup_app_Some in Hm as [Hm|[Hlen Hm]].
    + destruct (Hu m x Hm) as [H1 H2]. split; [done|]. intros Hno. apply H2. intros Ho. by apply Hno.
    + destruct (m - length rows)%nat; [|done]. injection Hm as <-. split; [|intros _]; apply filled_tried, fill_row_filled.
  - split; [|by rewrite length_alter]. intros m x Hm. destruct (decide (n = m)) as [->|Hne].
    + rewrite list_lookup_alter_eq in Hm. destruct (rows !! m) as [[y|]|]; try done. injection Hm as <-.
      split; [|intros _]; apply filled_tried, fill_row_filled.
    + rewrite list_lookup_alter_ne in Hm by done. destruct (Hu m x Hm) as [H1 H2]. split; [done|]. intros Hno.
      apply H2. intros Ho. by apply Hno.
  - split; [|by rewrite length_insert]. intros m x Hm. destruct (decide (n = m)) as [->|Hne].
    + apply list_lookup_insert_Some in Hm as [(_ & ? & _)|[? _]]; done.
    + rewrite list_lookup_insert_ne in Hm by done. destruct (Hu m x Hm) as [H1 H2]. split; [done|]. intros Hno.
      apply H2. intros Ho. by apply Hno.
  - split; [|by rewrite length_alter]. intros m x Hm. destruct (decide (n = m)) as [->|Hne].
    + rewrite list_lookup_alter_eq in Hm. destruct (rows !! m) as [[y|]|] eqn:Hy; try done. injection Hm as <-.
      destruct (Hu m y Hy) as [H1 _]. pose proof (visited_tried ps p y Hp H1) as Hd.
      split; [by eapply tried_weaken|done].
    + rewrite list_lookup_alter_ne in Hm by done. destruct (Hu m x Hm) as [H1 H2]. split; [done|]. intros Hno.
      apply H2. intros Ho. apply Hno. split; [done|congruence].
Qed.

Lemma pass_ends ps p rows es :
  fit group p -> all_tried ps rows -> completes rows es ->
  all_tried (p :: ps) (foldl (happens group p) rows es).
Proof.
  intros Hp Ha Hc.
  assert (forall es rows (open : nat -> Prop), under_way ps p rows open -> (forall n, open n -> (n < length rows)%nat) ->
            (forall n, open n -> Visited n ∈ es) -> all_tried (p :: ps) (foldl (happens group p) rows es)) as Hgen.
  { clear rows es Ha Hc. induction es as [|e es IH]; intros rows open Hu Hlen Hv; simpl.
    - intros n r Hr. destruct (Hu n r Hr) as [_ Ht]. apply Ht. intros Ho%Hv. by apply elem_of_nil in Ho.
    - destruct (happens_under_way ps p rows open e Hp Hlen Hu) as [Hu' Hl].
      eapply IH; [exact Hu'| |].
      + intros n [Ho _]. specialize (Hlen n Ho). lia.
      + intros n [Ho Hne]. specialize (Hv n Ho). apply elem_of_cons in Hv as [<-|Hv]; done. }
  apply (Hgen es rows (fun n => exists r, rows !! n = Some (Some r))).
  - intros n r Hr. split; [by eapply Ha|]. intros Hno. destruct Hno. by exists r.
  - intros n [r Hr]. by apply lookup_lt_Some in Hr.
  - intros n [r Hr]. by eapply Hc.
Qed.

Lemma passes_end ps phases rows :
  Forall (fit group) phases.*1 -> all_tried ps rows -> fills_run group rows phases ->
  all_tried (reverse phases.*1 ++ ps) (after_fills group rows phases).
Proof.
  unfold after_fills. revert ps rows. induction phases as [|[p es] phases IH]; intros ps rows Hp Ha Hr; [done|].
  destruct Hr as [Hc Hr]. csimpl. rewrite reverse_cons, <- (assoc_L (++)). csimpl in Hp. apply Forall_cons in Hp as [Hp Hps].
  apply IH; [done| |done]. by apply pass_ends.
Qed.

Lemma tried_filled pending r g :
  g ∈ pending -> g ∈ group -> tried group (reverse (fill_passes pending) ++ []) r -> is_Some (r (column_name g)).
Proof.
  intros Hg Hgg Ht. destruct (r (column_name g)) as [v|] eqn:Hr; [by eexists|]. exfalso.
  destruct (Htotal g r Hgg) as (s & Hs & v & Hv). apply list_elem_of_lookup in Hs as [k Hk].
  destruct (proj2 (fill_passes_spec pending) g k Hg) as (p & Hp & Hgp & Hround); [by eexists|].
  assert (eval s r = None); [|congruence]. eapply (Ht g p s); [done| |done| |done].
  - rewrite app_nil_r, reverse_Permutation. done.
  - by rewrite Hround.
Qed.
End Runs.

(** ** The passes against the trigger *)
Definition has_column (g : Intent) (p : Pass) : bool :=
  existsb (fun h => String.eqb (column_name h) (column_name g)) (ps_columns p).

Lemma has_column_elem group g p :
  NoDup (column_name <$> group) -> g ∈ group -> fit group p ->
  has_column g p = true <-> g ∈ ps_columns p.
Proof.
  intros Hnd Hg [Hp _]. unfold has_column. rewrite existsb_exists. split.
  - intros (h & Hh & Hn%String.eqb_eq). apply list_elem_of_In in Hh.
    replace g with h; [done|]. apply (NoDup_fmap_inj column_name group); [done|by apply Hp|done..].
  - intros Hin. exists g. split; [by apply list_elem_of_In|apply String.eqb_refl].
Qed.

(** What one pass leaves in a column of the group. *)
Lemma pass_row_lookup group p r g :
  NoDup (column_name <$> group) -> g ∈ group -> fit group p ->
  pass_row p r (column_name g)
  = match r (column_name g) with
    | Some v => Some v
    | None => if has_column g p then s ← source_at (ps_round p) g; eval s r else None
    end.
Proof.
  intros Hnd Hg Hp. rewrite (pass_row_at group) by done. destruct (r (column_name g)); [done|].
  destruct (List.find _ _) as [h|] eqn:Hf.
  - pose proof (find_some _ _ Hf) as [Hh Hn]. apply list_elem_of_In in Hh. apply String.eqb_eq in Hn.
    assert (h = g) as -> by (apply (NoDup_fmap_inj column_name group); [done|by apply (proj1 Hp)|done..]).
    rewrite (proj2 (has_column_elem group g p Hnd Hg Hp) Hh). destruct (proj1 Hp g Hh) as [_ ->]. done.
  - destruct (has_column g p) eqn:Hhas; [|done]. apply (has_column_elem group) in Hhas; [|done..].
    apply find_none with (x := g) in Hf; [by rewrite String.eqb_refl in Hf|by apply list_elem_of_In].
Qed.

Lemma round_lookup group k l r g :
  blind group -> NoDup (column_name <$> group) -> g ∈ group ->
  Forall (fit group) l -> Forall (fun p => ps_round p = k) l ->
  let r' := foldl (fun r p => pass_row p r) r l in
  r' (column_name g)
  = match r (column_name g) with
    | Some v => Some v
    | None => if existsb (has_column g) l then s ← source_at k g; eval s r else None
    end
  /\ same_columns group r' r.
Proof.
  intros Hb Hnd Hg. revert r. induction l as [|p l IH]; intros r Hl Hk; simpl.
  { split; [|done]. by destruct (r (column_name g)). }
  apply Forall_cons in Hk as [Hpk Hk]. apply Forall_cons in Hl as [Hp Hl].
  pose proof (pass_row_same group p r Hp) as Hsame.
  destruct (IH (pass_row p r)) as [-> Hs']; [done..|]. split.
  2: { intros c Hc. by rewrite Hs', Hsame. }
  assert ((s ← source_at k g; eval s (pass_row p r)) = (s ← source_at k g; eval s r)) as ->.
  { destruct (source_at k g) as [s|] eqn:Hs; [|done]. csimpl. apply (Hb g); [done|by eapply list_elem_of_lookup_2|done]. }
  rewrite (pass_row_lookup group), Hpk by done. destruct (r (column_name g)); [done|].
  destruct (has_column g p); simpl; [|done]. destruct (source_at k g) as [s|]; csimpl; [|by destruct (existsb _ _)].
  destruct (eval s r); [done|]. by destruct (existsb _ _).
Qed.

(** A group whose passes may set their column outright. *)
Definition apt (group : list Intent) : Prop := simple = true -> exists g, group = [g].

Lemma passes_of_round_fit group k : apt group -> Forall (fit group) (passes_of_round group k).
Proof.
  intros Ha. pose proof (passes_of_round_sound group k) as Hs. rewrite !Forall_forall in *. intros p Hp.
  split; [by apply Hs|]. intros H. destruct (Ha H) as [g ->]. unfold passes_of_round in Hp. simpl in Hp.
  destruct (source_at k g); [|by apply elem_of_nil in Hp]. apply list_elem_of_singleton in Hp as ->. by exists g.
Qed.

Lemma fill_passes_fit group : apt group -> Forall (fit group) (fill_passes group).
Proof.
  intros Ha. apply Forall_forall. intros p (k & Hp & _)%list_elem_of_bind. revert p Hp.
  by apply Forall_forall, passes_of_round_fit.
Qed.

(** The rounds below [k]. *)
Lemma rounds_lookup group k r g :
  apt group -> blind group -> NoDup (column_name <$> group) -> g ∈ group ->
  let r' := foldl (fun r p => pass_row p r) r (seq 0 k ≫= passes_of_round group) in
  r' (column_name g)
  = match r (column_name g) with Some v => Some v | None => first_value (take k (fill_sources (body g))) r end
  /\ same_columns group r' r.
Proof.
  intros Ha Hb Hnd Hg. induction k as [|k IH].
  { split; [|done]. cbn. by destruct (r (column_name g)). }
  rewrite seq_S, bind_app, foldl_app. simpl. rewrite app_nil_r. cbv zeta in IH. destruct IH as [IHg IHs].
  set (rk := foldl (fun r p => pass_row p r) r (seq 0 k ≫= passes_of_round group)) in *.
  destruct (passes_of_round_spec group k) as [Hin Hall].
  destruct (round_lookup group k (passes_of_round group k) rk g Hb Hnd Hg) as [-> Hs].
  { by apply passes_of_round_fit. }
  { apply passes_round. }
  split; [|intros c Hc; by rewrite Hs, IHs]. rewrite IHg. destruct (r (column_name g)) as [v|]; [done|].
  assert ((s ← source_at k g; eval s rk) = (s ← source_at k g; eval s r)) as ->.
  { destruct (source_at k g) as [s|] eqn:Hsrc; [|done]. csimpl. apply (Hb g); [done|by eapply list_elem_of_lookup_2|done]. }
  unfold first_value. destruct (source_at k g) as [s|] eqn:Hsrc; csimpl.
  - assert (existsb (has_column g) (passes_of_round group k) = true) as ->.
    { destruct (Hall g Hg) as (p & Hp & Hgp); [by rewrite Hsrc|]. apply existsb_exists. exists p.
      split; [by apply list_elem_of_In|]. apply (has_column_elem group); [done..| |done].
      pose proof (passes_of_round_fit group k Ha) as Hsound. rewrite Forall_forall in Hsound. by apply Hsound. }
    unfold source_at in Hsrc. rewrite (take_S_r _ _ _ Hsrc), omap_app, head_app. csimpl.
    destruct (head (omap _ (take k _))) eqn:Hh; [done|]. by destruct (eval s r).
  - assert (take (S k) (fill_sources (body g)) = take k (fill_sources (body g))) as ->.
    { apply lookup_ge_None in Hsrc. rewrite !take_ge by lia. done. }
    destruct (head _); [done|]. by destruct (existsb _ _).
Qed.

Lemma passes_lookup group pending r g :
  apt pending -> blind group -> NoDup (column_name <$> pending) -> (forall h, h ∈ pending -> h ∈ group) -> g ∈ pending ->
  foldl (fun r p => pass_row p r) r (fill_passes pending) (column_name g)
  = match r (column_name g) with Some v => Some v | None => first_value (fill_sources (body g)) r end.
Proof.
  intros Ha Hb Hnd Hsub Hg. unfold fill_passes.
  assert (blind pending) as Hb'.
  { intros h s r1 r2 Hh Hs Hsame. apply (Hb h); [by apply Hsub|done|]. intros c Hc. apply Hsame.
    intros (x & -> & Hx)%list_elem_of_fmap. apply Hc, list_elem_of_fmap. exists x. auto. }
  destruct (rounds_lookup pending (fill_rounds pending) r g Ha Hb' Hnd Hg) as [-> _].
  rewrite take_ge; [done|]. destruct (fill_sources (body g)) as [|s l] eqn:Hs; simpl; [lia|].
  apply (rounds_cover pending g (length l) Hg). unfold source_at. rewrite Hs. apply lookup_lt_is_Some. simpl. lia.
Qed.

Lemma passes_same pending r c :
  apt pending -> c ∉ column_name <$> pending ->
  foldl (fun r p => pass_row p r) r (fill_passes pending) c = r c.
Proof.
  intros Ha Hc. pose proof (fill_passes_fit pending Ha) as Hp.
  revert r Hp. induction (fill_passes pending) as [|p l IH]; intros r Hp; simpl; [done|].
  apply Forall_cons in Hp as [Hp Hl]. rewrite IH by done. by apply (pass_row_same pending).
Qed.

End Meaning.

Lemma simple_fill_apt pending : apt (simple_fill pending) pending.
Proof. destruct pending as [|g [|h l]]; try done. intros _. by exists g. Qed.


(** C7: NOT NULL finds no row without a value. Once the trigger is in place, however
    the application inserts, changes and deletes rows while the passes run, and
    whatever order a pass visits the rows in, once every pass of the recipe has
    visited the rows that were there when it began, every row of the table has a value
    in every column that is still to become NOT NULL, provided each row has a source
    with a value and the sources do not look at the columns being filled ([blind]).
    What the trigger and a visit do to a row is the meaning of the function's
    statements and of the pass's SET list and predicate, as in
    [passes_fill_as_the_trigger]. *)
Theorem no_row_is_left_without_a_value {V} (eval : FillSource -> (string -> option V) -> option V)
    qualified columns group missing pending phases rows :
  fill_state qualified columns group = inr (missing, pending) ->
  blind eval group -> NoDup (column_name <$> group) -> total eval group ->
  phases.*1 = fill_passes pending -> fills_run eval (simple_fill pending) group rows phases ->
  forall n r g, after_fills eval (simple_fill pending) group rows phases !! n = Some (Some r) -> g ∈ pending ->
    is_Some (r (column_name g)).
Proof.
  intros (_ & Hpend & _)%fill_state_spec Hb Hnd Ht Hphases Hrun n r g Hr Hg.
  assert (all_tried eval group (reverse phases.*1 ++ []) (after_fills eval (simple_fill pending) group rows phases)) as Ha.
  { apply (passes_end eval _ group Hb Hnd Ht); [| |done]; [|intros ? ? ? ? ? ? ? Hp; by apply elem_of_nil in Hp].
    rewrite Hphases. eapply Forall_impl; [apply fill_passes_fit, simple_fill_apt|]. intros p [Hs Hone].
    split; [|done]. eapply sound_pass_weaken; [|exact Hs]. intros h Hh. by apply Hpend. }
  specialize (Ha n r Hr). rewrite Hphases in Ha. eapply (tried_filled eval); [done|done|by apply Hpend|done].
Qed.
