(* ===== verification/FillText.v ===== *)
(** * FillText: the function an added column's trigger runs, as text

    The expressions of a specification are written into the body of a function
    between dollar quotes; the tag of the quotes is one that the body does not hold. *)
From S2P Require Import Prelude Json Canonical Spec Quote RowSql Plan Planner AddColumn.

Lemma prefix_spec p s : String.prefix p s = true <-> exists b, s = p +:+ b.
Proof.
  revert s. induction p as [|c p IH]; intros s; simpl.
  - split; [intros _; by exists s|by destruct s].
  - destruct s as [|d s]; [split; [done|by intros [b Hb]]|]. simpl. destruct (Ascii.ascii_dec _ _) as [Hd|Hd].
    + subst d. rewrite IH. split; intros [b Hb]; exists b; [by rewrite Hb|by injection Hb].
    + split; [done|]. intros [b [= -> _]]. done.
Qed.

Lemma has_sub_cons p c s : has_sub p (String c s) = String.prefix p (String c s) || has_sub p s.
Proof. unfold has_sub. cbn [String.index]. destruct (String.prefix p (String c s)); [done|]. by destruct (String.index 0 p s). Qed.

Lemma has_sub_app_r p a b : has_sub p b = true -> has_sub p (a +:+ b) = true.
Proof.
  intros Hb. induction a as [|c a IH]; [done|]. change (String c a +:+ b) with (String c (a +:+ b)).
  rewrite has_sub_cons, IH. apply orb_true_r.
Qed.

Lemma has_sub_app_l p a b : has_sub p a = true -> has_sub p (a +:+ b) = true.
Proof.
  induction a as [|c a IH]; intros Ha.
  - destruct p as [|x p]; [|done]. by destruct b.
  - change (String c a +:+ b) with (String c (a +:+ b)). rewrite has_sub_cons in Ha |- *.
    apply orb_true_iff in Ha as [[d Hd]%prefix_spec|Ha]; [|by rewrite IH, orb_true_r].
    change (String c (a +:+ b)) with (String c a +:+ b). rewrite Hd.
    rewrite (proj2 (prefix_spec _ _)); [done|]. exists (d +:+ b). by rewrite string_app_assoc.
Qed.

Lemma has_sub_length p s : has_sub p s = true -> (String.length p <= String.length s)%nat.
Proof.
  induction s as [|c s IH].
  - by destruct p.
  - rewrite has_sub_cons. intros [[b ->]%prefix_spec|Hs]%orb_true_iff; [rewrite string_length_app; lia|]. simpl. specialize (IH Hs). lia.
Qed.

Lemma prefix_break p a x b : has_char x p = false -> String.prefix p (a +:+ String x b) = String.prefix p a.
Proof.
  revert a. induction p as [|c p IH]; intros a Hp; [by destruct a|]. cbn in Hp. apply orb_false_iff in Hp as [Hc Hp].
  destruct a as [|d a]; simpl.
  - destruct (Ascii.ascii_dec _ _) as [Hd|Hd]; [|done]. subst. by rewrite Ascii.eqb_refl in Hc.
  - destruct (Ascii.ascii_dec _ _); [|done]. by apply IH.
Qed.

(** An occurrence does not go over a character it does not have. *)
Lemma has_sub_break p a x b :
  p <> "" -> has_char x p = false -> has_sub p (a +:+ String x b) = has_sub p a || has_sub p b.
Proof.
  intros Hne Hp. induction a as [|c a IH].
  - change ("" +:+ String x b) with (String x b). rewrite has_sub_cons. destruct p as [|d p]; [done|].
    cbn in Hp |- *. apply orb_false_iff in Hp as [Hd _]. destruct (Ascii.ascii_dec _ _); [|done]. subst. by rewrite Ascii.eqb_refl in Hd.
  - change (String c a +:+ String x b) with (String c (a +:+ String x b)). rewrite !has_sub_cons, IH, orb_assoc.
    do 2 f_equal. apply (prefix_break p (String c a) x b Hp).
Qed.

(** Text before which nothing of an occurrence begins. *)
Definition quiet (p a : string) : Prop := forall b, has_sub p (a +:+ b) = has_sub p b.

(** Text that is quiet once it is closed by a character [p] does not have. *)
Definition closed (p e : string) : Prop := forall x b, has_char x p = false -> has_sub p (e +:+ String x b) = has_sub p b.

Lemma quiet_app p a b : quiet p a -> quiet p b -> quiet p (a +:+ b).
Proof. intros Ha Hb c. rewrite string_app_assoc. by rewrite Ha, Hb. Qed.

Lemma quiet_nil p : quiet p "".
Proof. done. Qed.

Lemma quiet_none c p a : has_char c a = false -> quiet (String c p) a.
Proof.
  intros Ha b. induction a as [|d a IH]; [done|]. cbn in Ha. apply orb_false_iff in Ha as [Hd Ha].
  change (String d a +:+ b) with (String d (a +:+ b)). rewrite has_sub_cons, (IH Ha). cbn.
  destruct (Ascii.ascii_dec _ _); [|done]. subst. by rewrite Ascii.eqb_refl in Hd.
Qed.

Lemma closed_free p e : p <> "" -> has_sub p e = false -> closed p e.
Proof. intros Hne He x b Hx. by rewrite has_sub_break, He. Qed.

Lemma closed_quiet p e x rest : closed p e -> has_char x p = false -> quiet p rest -> quiet p (e +:+ String x rest).
Proof.
  intros He Hx Hr b. rewrite string_app_assoc. change (String x rest +:+ b) with (String x (rest +:+ b)).
  by rewrite He, Hr.
Qed.

Lemma quiet_closed p a e : quiet p a -> closed p e -> closed p (a +:+ e).
Proof. intros Ha He x b Hx. rewrite string_app_assoc. by rewrite Ha, He. Qed.

(** The pieces of a source are in the text the tag is looked for in. *)
Definition free_source (p : string) (s : FillSource) : Prop :=
  has_sub p (fill_from s) = false /\ has_sub p (fill_on s) = false /\ has_sub p (fill_value s) = false.

Lemma concat_text_has p l x : x ∈ l -> has_sub p x = true -> has_sub p (concat_text l) = true.
Proof.
  induction l as [|y l IH]; [by intros ?%elem_of_nil|]. simpl. intros [->|Hx]%elem_of_cons Hp; [by apply has_sub_app_l|].
  apply has_sub_app_r. auto.
Qed.

Lemma not_true_has p s : (has_sub p s = true -> False) -> has_sub p s = false.
Proof. by destruct (has_sub p s); [intros []|]. Qed.

Lemma free_group p group g s :
  has_sub p (group_text group) = false -> g ∈ group -> s ∈ fill_sources (body g) -> free_source p s.
Proof.
  intros Hp Hg Hs.
  assert (forall t, has_sub p t = true -> (forall q, has_sub q t = true -> has_sub q (fill_from s +:+ " " +:+ fill_on s +:+ " " +:+ fill_value s +:+ " ") = true) -> False) as Hno.
  { intros t Ht Hin. unfold group_text in Hp. rewrite (concat_text_has p _ (fill_text (body g))) in Hp; [done| |].
    - apply list_elem_of_fmap. by exists g.
    - eapply concat_text_has; [|by apply Hin]. apply list_elem_of_fmap. by exists s. }
  split_and!; apply not_true_has; intros Ht; apply (Hno _ Ht); intros q Hq.
  - by apply has_sub_app_l.
  - do 2 apply has_sub_app_r. by apply has_sub_app_l.
  - do 4 apply has_sub_app_r. by apply has_sub_app_l.
Qed.

Section Text.
Context (p : string) (tail_ : string) (Hdollar : p = String "$" tail_).
Context (Hbreaks : forallb (fun x => negb (has_char x p)) [" "; ","; ")"]%char = true).

Lemma breaks x : x ∈ [" "; ","; ")"]%char -> has_char x p = false.
Proof. intros Hx. rewrite forallb_forall in Hbreaks. apply negb_true_iff, Hbreaks. by apply list_elem_of_In. Qed.

Lemma p_not_empty : p <> "".
Proof. by rewrite Hdollar. Qed.

Lemma quiet_plain a : has_char "$" a = false -> quiet p a.
Proof. rewrite Hdollar. apply quiet_none. Qed.

Lemma closed_then e x rest : closed p e -> x ∈ [" "; ","; ")"]%char -> has_char "$" rest = false -> quiet p (e +:+ String x rest).
Proof. intros He Hx Hr. apply closed_quiet; [done|by apply breaks|by apply quiet_plain]. Qed.

Lemma quiet_is_closed a : quiet p a -> closed p a.
Proof. intros Ha x b Hx. rewrite Ha. change (String x b) with ("" +:+ String x b). rewrite has_sub_break; [by destruct p|apply p_not_empty|done]. Qed.

Lemma closed_source s : free_source p s -> closed p (source_expression s).
Proof.
  intros (Hf & Ho & Hv). unfold source_expression. destruct (joined s); [|apply closed_free; [apply p_not_empty|done]].
  apply quiet_is_closed, quiet_app; [by apply quiet_plain|].
  change (") FROM " +:+ fill_from s +:+ " WHERE " +:+ fill_on s +:+ ")")
    with (String ")" (" FROM " +:+ fill_from s +:+ " WHERE " +:+ fill_on s +:+ ")")).
  apply closed_quiet; [apply closed_free; [apply p_not_empty|done]|apply breaks; set_solver|].
  apply quiet_app; [by apply quiet_plain|].
  change (" WHERE " +:+ fill_on s +:+ ")") with (String " " ("WHERE " +:+ fill_on s +:+ ")")).
  apply closed_quiet; [apply closed_free; [apply p_not_empty|done]|apply breaks; set_solver|].
  apply quiet_app; [by apply quiet_plain|].
  apply (closed_quiet p (fill_on s) ")" ""); [apply closed_free; [apply p_not_empty|done]|apply breaks; set_solver|done].
Qed.

Lemma closed_list l : Forall (free_source p) l -> closed p (join ", " (source_expression <$> l)).
Proof.
  induction 1 as [|s l Hs Hl IH]; [apply quiet_is_closed, quiet_nil|]. csimpl.
  destruct (source_expression <$> l) as [|e l'] eqn:He; [by apply closed_source|].
  change (join ", " (source_expression s :: e :: l')) with (source_expression s +:+ ", " +:+ join ", " (e :: l')).
  change (", " +:+ join ", " (e :: l')) with (String "," (" " +:+ join ", " (e :: l'))).
  intros x b Hx. rewrite string_app_assoc. change (String "," (" " +:+ join ", " (e :: l')) +:+ String x b)
    with (String "," ((" " +:+ join ", " (e :: l')) +:+ String x b)).
  rewrite (closed_source s Hs) by (apply breaks; set_solver). rewrite string_app_assoc, (quiet_plain " ") by done. by apply IH.
Qed.

Lemma closed_expression l : Forall (free_source p) l -> closed p (fill_expression l).
Proof.
  intros Hl. assert (closed p ("COALESCE(" +:+ join ", " (source_expression <$> l) +:+ ")")) as Hc.
  { apply quiet_is_closed, quiet_app; [by apply quiet_plain|].
    apply (closed_quiet p _ ")" ""); [by apply closed_list|apply breaks; set_solver|done]. }
  unfold fill_expression. destruct l as [|s [|s' l]]; [done| |done]. apply closed_source. by inversion Hl.
Qed.

Lemma quiet_case alias c e :
  has_char "$" (quote_identifier c) = false -> has_char "$" alias = false -> closed p e -> quiet p (fill_case alias (IfNull c (SelectInto c e))).
Proof.
  intros Hc Ha He. cbn [fill_case]. rewrite !string_app_assoc.
  repeat (apply quiet_app; [by apply quiet_plain|]).
  set (rest := quote_identifier c +:+ _). change (") INTO NEW." +:+ rest) with (String ")" (" INTO NEW." +:+ rest)).
  apply closed_quiet; [done|apply breaks; set_solver|]. unfold rest.
  repeat (apply quiet_app; [by apply quiet_plain|]). by apply quiet_plain.
Qed.

Lemma quiet_join l : Forall (quiet p) l -> quiet p (join "" l).
Proof.
  induction 1 as [|a l Ha Hl IH]; [apply quiet_nil|]. destruct l as [|b l]; [done|].
  change (join "" (a :: b :: l)) with (a +:+ "" +:+ join "" (b :: l)). apply quiet_app; [done|]. exact IH.
Qed.
End Text.

Lemma has_char_doubled x q s : has_char x (double_quotes q s) = true -> has_char x s = true \/ x = q.
Proof.
  unfold has_char. induction s as [|c s IH]; [by left|]. cbn [double_quotes]. destruct (Ascii.eqb_spec c q) as [->|Hc]; cbn.
  - destruct (Ascii.eqb_spec x q) as [->|Hx]; [by right|]. simpl. auto.
  - destruct (Ascii.eqb x c); [by left|]. simpl. auto.
Qed.

Lemma identifier_no_dollar v : require_identifier v = Ok tt -> has_char "$" (quote_identifier v) = false.
Proof.
  intros Hv. assert (has_char "$" v = false) as Hno by by apply identifier_lacks.
  apply not_true_is_false. unfold quote_identifier, quote_with. rewrite has_char_cons, has_char_app.
  intros [Hx|[Hx|Hx]%orb_true_iff]%orb_true_iff; [done| |done].
  apply has_char_doubled in Hx as [Hx|Hx]; [congruence|done].
Qed.

(** A tag longer than the text is not in it, so the search ends. *)
Lemma free_tag_free fuel tag text :
  (String.length text < fuel + String.length tag)%nat -> has_sub ("$" +:+ free_tag fuel tag text +:+ "$") text = false.
Proof.
  revert tag. induction fuel as [|fuel IH]; intros tag Hlen; simpl.
  - apply not_true_has. intros Hh%has_sub_length. rewrite !string_length_app in Hh. simpl in Hh. lia.
  - destruct (has_sub ("$" +:+ tag +:+ "$") text) eqn:Hh; [|done]. apply IH. rewrite string_length_app. simpl. lia.
Qed.

Lemma free_tag_chars fuel tag text x : has_char x tag = false -> Ascii.eqb x "_" = false -> has_char x (free_tag fuel tag text) = false.
Proof.
  intros Ht Hx. revert tag Ht. induction fuel as [|fuel IH]; intros tag Ht; simpl; [done|].
  case_if; [|done]. apply IH. rewrite has_char_app, Ht. unfold has_char. cbn. by rewrite Hx.
Qed.

(** What stands between the dollar quotes. *)
Definition function_text (alias : string) (fills : list (FillStmt string)) : string :=
  nl +:+ "BEGIN" +:+ nl +:+ join "" (fill_case alias <$> fills) +:+ "  RETURN NEW;" +:+ nl +:+ "END" +:+ nl.

(** The trigger's function ends where the planner means it to, whatever the
    expressions hold. The search for a tag ends, and the tag it finds is not in the
    text it quotes, the expressions with what is written around them, so that text is
    the whole body of the function and nothing of a specification's expression is read
    outside it. *)
Theorem function_text_is_quoted i group missing has_trigger schema name tag alias fills :
  require_identifier (in_table i) = Ok tt -> Forall (fun g => require_identifier (column_name g) = Ok tt) group ->
  FillFunction schema name tag alias fills ∈ fill_statements i group missing has_trigger ->
  render (FillFunction schema name tag alias fills)
  = "CREATE OR REPLACE FUNCTION " +:+ quote_pair schema name +:+ "() RETURNS trigger LANGUAGE plpgsql AS "
    +:+ ("$" +:+ tag +:+ "$") +:+ function_text alias fills +:+ ("$" +:+ tag +:+ "$") +:+ ";"
  /\ has_sub ("$" +:+ tag +:+ "$") (function_text alias fills) = false.
Proof.
  intros Htable Hnames Hin. split.
  { unfold render, function_text. by rewrite !string_app_assoc. }
  unfold fill_statements in Hin. apply elem_of_app in Hin as [(g & Hg & _)%list_elem_of_bind|Hin].
  { unfold add_nullable in Hg. repeat (apply elem_of_cons in Hg as [Hg|Hg]; [done|]). by apply elem_of_nil in Hg. }
  apply elem_of_cons in Hin as [[= -> -> -> -> ->]|Hin].
  2: { destruct has_trigger; [by apply elem_of_nil in Hin|]. by apply list_elem_of_singleton in Hin. }
  set (p := "$" +:+ fill_tag group +:+ "$").
  assert (has_sub p (group_text group) = false) as Hfree by (apply free_tag_free; simpl; lia).
  assert (p = String "$" (fill_tag group +:+ "$")) as Hdollar by done.
  assert (forallb (fun x => negb (has_char x p)) [" "; ","; ")"]%char = true) as Hb.
  { assert (forall x, has_char x "laswell_fill" = false -> Ascii.eqb x "_" = false -> Ascii.eqb x "$" = false -> has_char x p = false) as Hx.
    { intros x H1 H2 H3. unfold p, fill_tag. rewrite !has_char_app, (free_tag_chars _ _ _ x) by done. unfold has_char. cbn. by rewrite H3. }
    cbn. by rewrite !Hx. }
  assert (quiet p (function_text (quote_identifier (in_table i))
            (fill_stmt_map fill_expression <$> fill_body group))) as Hq.
  { unfold function_text. repeat (apply quiet_app; [by apply (quiet_plain p _ Hdollar)|]).
    apply quiet_app; [|by apply (quiet_plain p _ Hdollar)]. apply quiet_join. unfold fill_body. rewrite <- !list_fmap_compose.
    apply Forall_fmap, Forall_forall. intros g Hg. rewrite Forall_forall in Hnames.
    eapply quiet_case; [done|done|by apply identifier_no_dollar, Hnames|by apply identifier_no_dollar|].
    eapply closed_expression; [done|done|]. apply Forall_forall. intros s Hs. by eapply free_group. }
  specialize (Hq ""). rewrite string_app_nil_r in Hq. rewrite Hq. by rewrite Hdollar.
Qed.
