(* ===== verification/FillSteps.v ===== *)
(** * FillSteps: the order of an added column's recipe

    The statements of an accepted recipe come stage after stage: the columns and the
    trigger, the passes over the rows already there, NOT NULL, and the trigger's end. *)
From S2P Require Import Prelude Json Canonical Spec Quote Batches RowSql Plan Planner Indexes RowPlan Dml Backfill AddColumn Executor StepReading KeyFacts DmlFacts StepFacts FillFacts.

(** The stage a statement belongs to; a weaker lock is taken in any. *)
Definition stage (q : Stmt) : option nat :=
  match q with
  | LockTable _ => None
  | AddColumn _ _ _ | CommentOn _ _ | FillFunction _ _ _ _ _ | FillTrigger _ _ _ => Some 0%nat
  | RowChange _ | OtherSql _ => Some 1%nat
  | AddCheck _ _ _ _ | ValidateConstraint _ _ | SetNotNull _ _ | SetNotNulls _ _ | DropConstraint _ _ => Some 2%nat
  | DropTrigger _ _ | DropFillFunction _ _ => Some 3%nat
  | _ => Some 4%nat
  end.

Definition at_stage (n : nat) (s : Step) : Prop := Forall (fun q => stage q = Some n \/ stage q = None) (st_sql s).

Lemma stages_at n ss : Forall (at_stage n) ss -> exists k, omap stage (ss ≫= st_sql) = replicate k n.
Proof.
  induction 1 as [|s ss Hs Hss IH]; [by exists 0%nat|]. destruct IH as [k Hk]. csimpl. rewrite omap_app, Hk.
  assert (exists j, omap stage (st_sql s) = replicate j n) as [j ->].
  { unfold at_stage in Hs. induction Hs as [|q l [Hq|Hq] Hl [j Hj]]; [by exists 0%nat|..]; csimpl; rewrite Hq, Hj; [by exists (S j)|by exists j]. }
  exists (j + k)%nat. by rewrite replicate_add.
Qed.

Lemma sorted_stages n l l' :
  StronglySorted le l' -> Forall (fun m => n <= m)%nat l' -> (exists k, l = replicate k n) -> StronglySorted le (l ++ l').
Proof.
  intros Hs Hl [k ->]. induction k as [|k IH]; [done|]. simpl. constructor; [done|]. apply Forall_app. split; [|done].
  apply Forall_replicate. lia.
Qed.

(** ** The walk of a pass *)
Section Steps.
Context `{Vendors, Printing}.

Lemma pass_walk i key simple p o cfg :
  let e := plan_backfill (pass_intent i key simple p) o cfg in
  e_conflicts e = [] ->
  exists s, e_steps e = [s] /\ st_class s = kOwnTxnPerBatch /\ st_action s = kApply /\ at_stage 1 s /\ st_sql s <> [].
Proof.
  intros e Hc. destruct (backfill_accepted_inv _ _ _ Hc) as (_ & _ & w & _ & He). fold e in He. rewrite He.
  unfold backfill_accepted. destruct (backfill_saved _ _ _) as [first changed].
  assert (forall cs rel, plan_preserve (pass_intent i key simple p) cs rel first changed = None) as Hpv.
  { intros cs rel. unfold plan_preserve, pass_intent, composed_backfill. cbn [body].
    destruct (pass_joined p), (bbool i "paced" true); done. }
  rewrite Hpv. cbn [e_steps fmap option_fmap option_map option_list app].
  set (s := backfill_step _ _ _ _ _ _). exists s. split; [done|].
  destruct (backfill_step_class (pass_intent i key simple p) cfg (t_columns (table_obs o (in_qualified (pass_intent i key simple p))))
    (table_rows o (in_qualified (pass_intent i key simple p)) (pass_intent i key simple p)) w None) as [Hcl Hac].
  split; [done|]. split; [done|]. unfold at_stage, s, backfill_step. cbn [with_why st_sql]. rewrite set_details_sql. cbn [with_sql st_sql].
  unfold backfill_walk, walk_statements. split.
  - apply Forall_app. split; [destruct (negb _); repeat constructor|].
    destruct (wk_shape w); cbn [fst]; repeat constructor; by left.
  - destruct (negb _), (wk_shape w); done.
Qed.
(** The step that a pass of the recipe runs. *)
Definition walks_for (i : Intent) (key : string) (simple : bool) (o : Observations) (cfg : PlannerConfig) (p : Pass) (s : Step) : Prop :=
  exists s0, e_steps (plan_backfill (pass_intent i key simple p) o cfg) = [s0]
    /\ st_sql s = st_sql s0 /\ st_sql s <> [] /\ st_class s = kOwnTxnPerBatch /\ st_action s = kApply /\ at_stage 1 s.

Lemma told_of_pass_same rounds p s :
  st_sql (told_of_pass rounds p s) = st_sql s /\ st_class (told_of_pass rounds p s) = st_class s
  /\ st_action (told_of_pass rounds p s) = st_action s.
Proof. unfold told_of_pass. by destruct (_ || _). Qed.

Lemma pass_planned i key simple rounds o cfg p :
  let e := plan_pass i key simple rounds o cfg p in
  e_conflicts e = [] -> is_refused e = false /\ exists s, e_steps e = [s] /\ walks_for i key simple o cfg p s.
Proof.
  intros e Hc. unfold plan_pass in e. set (b := plan_backfill _ _ _) in *.
  assert (e_conflicts b = []) as Hb by (subst e; revert Hc; cbn zeta; by destruct (is_refused b)).
  destruct (pass_walk i key simple p o cfg Hb) as (s & Hs & Hcl & Hac & Hst & Hne). fold b in Hs.
  assert (is_refused b = false) as Hr. { unfold is_refused. rewrite Hs. cbn. by rewrite Hac. }
  unfold e. rewrite Hr. destruct (told_of_pass_same rounds p s) as (Hq & Hcl' & Hac').
  assert (e_steps (on_steps (told_of_pass rounds p) b) = [told_of_pass rounds p s]) as He. { cbn. by rewrite Hs. }
  split; [unfold is_refused; rewrite He; cbn; by rewrite Hac', Hac|]. exists (told_of_pass rounds p s). split; [done|].
  exists s. unfold at_stage. rewrite Hq, Hcl', Hac'. done.
Qed.

Lemma passes_planned i key simple rounds o cfg l rest :
  e_conflicts (plan_passes i key simple rounds o cfg l rest) = [] ->
  exists walks, e_steps (plan_passes i key simple rounds o cfg l rest) = walks ++ e_steps rest
    /\ Forall2 (walks_for i key simple o cfg) l walks /\ e_conflicts rest = [].
Proof.
  induction l as [|p l IH]; intros Hc; [exists []; split_and!; [done|constructor|done]|]. cbn [plan_passes] in *.
  set (e := plan_pass i key simple rounds o cfg p) in *.
  assert (e_conflicts e = []) as He.
  { unfold unless_stopped in Hc. destruct (is_refused e); [done|]. by apply app_eq_nil in Hc as [? _]. }
  destruct (pass_planned i key simple rounds o cfg p He) as [Hr (s & Hs & Hw)]. fold e in Hr, Hs.
  unfold unless_stopped in *. rewrite Hr in *. cbn in Hc. apply app_eq_nil in Hc as [_ Hc].
  destruct (IH Hc) as (walks & Hwalks & Hf & Hrest). exists (s :: walks). cbn. rewrite Hs, Hwalks. split_and!; [done|by constructor|done].
Qed.

(** ** NOT NULL *)
Lemma shared_step_stage i group q lock why : stage q = Some 2%nat -> at_stage 2 (shared_step i group q lock why) /\ q ∈ st_sql (shared_step i group q lock why).
Proof.
  intros Hq. unfold shared_step, at_stage. destruct (has_sub _ _); cbn; split.
  - constructor; [by left|constructor].
  - left.
  - constructor; [by right|]. constructor; [by left|constructor].
  - right. left.
Qed.

Lemma do_not_rehearse_sql why gap s : st_sql (do_not_rehearse why gap s) = st_sql s.
Proof. done. Qed.

Lemma shared_not_null_stage i group pending have :
  Forall (at_stage 2) (shared_not_null i group pending have)
  /\ exists s, s ∈ shared_not_null i group pending have /\ SetNotNulls (in_qualified i) (column_name <$> pending) ∈ st_sql s.
Proof.
  unfold shared_not_null. split.
  - repeat (apply Forall_app; split); try (case_bool_decide; [by constructor|]); try (case_bool_decide; [|by constructor]);
      repeat constructor; try (case_bool_decide; by apply shared_step_stage); by apply shared_step_stage.
  - eexists. split; [apply elem_of_app; right; apply elem_of_app; right; left|]. case_bool_decide; by apply shared_step_stage.
Qed.

Lemma not_null_step_stage i q lock why : stage q = Some 2%nat -> at_stage 2 (not_null_step i q lock why) /\ q ∈ st_sql (not_null_step i q lock why).
Proof.
  intros Hq. unfold not_null_step, at_stage. destruct (has_sub _ _); cbn; split.
  - constructor; [by left|constructor].
  - left.
  - constructor; [by right|]. constructor; [by left|constructor].
  - right. left.
Qed.

Lemma set_not_null_stage i o c :
  t_exists (table_obs o (in_qualified i)) = true ->
  t_columns (table_obs o (in_qualified i)) !! bstr i "column" "" = Some c -> c_not_null c = false ->
  Forall (at_stage 2) (e_steps (plan_set_not_null i o))
  /\ e_conflicts (plan_set_not_null i o) = []
  /\ exists s, s ∈ e_steps (plan_set_not_null i o) /\ SetNotNull (in_qualified i) (bstr i "column" "") ∈ st_sql s.
Proof.
  intros He Hc Hn. unfold plan_set_not_null. rewrite He, Hc, Hn. cbn [negb].
  set (recipe := emit _).
  assert (Forall (at_stage 2) (e_steps recipe) /\ e_conflicts recipe = []
    /\ exists s, s ∈ e_steps recipe /\ SetNotNull (in_qualified i) (bstr i "column" "") ∈ st_sql s) as Hrec.
  { unfold recipe. cbn [emit e_steps e_conflicts]. split_and!; [|done|].
    - repeat (apply Forall_app; split); try (case_bool_decide; [by constructor|]); try (case_bool_decide; [|by constructor]);
        try (case_if; [by constructor|]); repeat constructor; try (case_bool_decide; by apply not_null_step_stage); by apply not_null_step_stage.
    - eexists. split; [apply elem_of_app; right; apply elem_of_app; right; left|]. case_bool_decide; by apply not_null_step_stage. }
  destruct (constraint_traits o (in_qualified i)) as [[by_ tr]|]; [|done]. destruct (ct_separate_validation tr); [done|].
  cbn [negb]. unfold validate_in_one_step. cbn [e_steps e_conflicts]. split_and!; [|done|].
  - constructor; [|constructor]. unfold at_stage. case_if; cbn; (constructor; [by left|constructor]).
  - eexists. split; [left|]. case_if; left.
Qed.

(** ** The table as the first step leaves it *)
Lemma table_obs_set t q o : table_obs (with_tables (<[q := t]> (o_tables o)) o) q = t.
Proof. unfold table_obs. cbn. by rewrite lookup_insert_eq. Qed.

Definition columns_added (q : string) (l : list Intent) (o : Observations) : Observations :=
  foldl (fun o g => adding_column q (column_name g) (plain_column (bstr g "type" "") false) o) o l.

Lemma columns_added_spec q l o :
  let t' := table_obs (columns_added q l o) q in
  t_exists t' = t_exists (table_obs o q)
  /\ forall c, (c ∈ column_name <$> l -> exists co, t_columns t' !! c = Some co /\ c_not_null co = false)
     /\ (c ∉ column_name <$> l -> t_columns t' !! c = t_columns (table_obs o q) !! c).
Proof.
  unfold columns_added. revert o. induction l as [|g l IH]; intros o; [split; [done|]; intros c; split; [by intros ?%elem_of_nil|done]|].
  csimpl. set (o1 := adding_column _ _ _ _). destruct (IH o1) as [He Hc]. clear IH.
  assert (table_obs o1 q = with_columns (<[column_name g := plain_column (bstr g "type" "") false]> (t_columns (table_obs o q))) (table_obs o q)) as Ho1
    by apply table_obs_set.
  rewrite Ho1 in He, Hc. cbn [with_columns t_exists t_columns] in He, Hc. split; [done|]. intros c. destruct (Hc c) as [Hin Hout]. split.
  - intros Hcl. destruct (decide (c ∈ column_name <$> l)) as [Hl|Hl]; [by apply Hin|].
    apply elem_of_cons in Hcl as [->|?]; [|done]. rewrite Hout by done. eexists. by rewrite lookup_insert_eq.
  - intros Hn. rewrite not_elem_of_cons in Hn. destruct Hn as [Hne Hl]. rewrite Hout by done. by rewrite lookup_insert_ne.
Qed.

Definition after_first (i : Intent) (missing : list Intent) (o : Observations) : Observations :=
  adding_trigger (in_qualified i) (filler i) (columns_added (in_qualified i) missing o).

Lemma after_first_columns i missing o :
  t_exists (table_obs (after_first i missing o) (in_qualified i)) = t_exists (table_obs o (in_qualified i))
  /\ t_columns (table_obs (after_first i missing o) (in_qualified i)) = t_columns (table_obs (columns_added (in_qualified i) missing o) (in_qualified i)).
Proof.
  unfold after_first, adding_trigger. rewrite table_obs_set. cbn [with_triggers t_exists t_columns]. split; [|done].
  apply columns_added_spec.
Qed.

Lemma pending_is_nullable i group missing pending o g :
  fill_state (in_qualified i) (t_columns (table_obs o (in_qualified i))) group = inr (missing, pending) -> g ∈ pending ->
  exists c, t_columns (table_obs (after_first i missing o) (in_qualified i)) !! column_name g = Some c /\ c_not_null c = false.
Proof.
  intros (Hm & Hp & _)%fill_state_spec Hg. destruct (after_first_columns i missing o) as [_ ->].
  destruct (columns_added_spec (in_qualified i) missing o) as [_ Hc]. destruct (Hc (column_name g)) as [Hin Hout].
  destruct (decide (column_name g ∈ column_name <$> missing)) as [Hl|Hl]; [by apply Hin|]. rewrite Hout by done.
  destruct (Hp g Hg) as [Hgg [Hno|Hsome]]; [|done]. destruct Hl. apply list_elem_of_fmap. exists g. split; [done|]. by apply Hm.
Qed.

Lemma emit_all_steps l : e_steps (emit_all l) = l ≫= e_steps /\ e_conflicts (emit_all l) = l ≫= e_conflicts.
Proof. unfold emit_all. induction l as [|e l [IH1 IH2]]; [done|]. cbn. by rewrite IH1, IH2. Qed.

(** The statement that makes a column NOT NULL. *)
Definition makes_strict (qualified column : string) (q : Stmt) : Prop :=
  q = SetNotNull qualified column \/ exists l, q = SetNotNulls qualified l /\ column ∈ l.

Lemma fill_not_null_stage i group missing pending o t :
  fill_state (in_qualified i) (t_columns (table_obs o (in_qualified i))) group = inr (missing, pending) ->
  t_exists (table_obs o (in_qualified i)) = true ->
  let e := fill_not_null i group pending t (after_first i missing o) in
  Forall (at_stage 2) (e_steps e)
  /\ forall g, g ∈ pending -> exists s q, s ∈ e_steps e /\ q ∈ st_sql s /\ makes_strict (in_qualified i) (column_name g) q.
Proof.
  intros Hf He e. unfold e, fill_not_null. case_if.
  { cbn [emit e_steps]. destruct (shared_not_null_stage i group pending (constraint_state t (shared_check i))) as [Hs (s & Hin & Hq)].
    split; [done|]. intros g Hg. exists s. eexists. split_and!; [done|done|]. right. eexists. split; [done|].
    apply list_elem_of_fmap. by exists g. }
  rewrite (proj1 (emit_all_steps _)).
  assert (forall g, g ∈ pending -> Forall (at_stage 2) (e_steps (plan_set_not_null (composed_not_null i g) (after_first i missing o)))
    /\ exists s, s ∈ e_steps (plan_set_not_null (composed_not_null i g) (after_first i missing o))
         /\ SetNotNull (in_qualified i) (column_name g) ∈ st_sql s) as Hone.
  { intros g Hg. destruct (pending_is_nullable _ _ _ _ _ _ Hf Hg) as (c & Hc & Hn).
    destruct (set_not_null_stage (composed_not_null i g) (after_first i missing o) c) as (H1 & _ & H2); [|done..].
    change (in_qualified (composed_not_null i g)) with (in_qualified i). by rewrite (proj1 (after_first_columns i missing o)). }
  split.
  - apply Forall_forall. intros s (e' & Hs & He')%list_elem_of_bind. apply list_elem_of_fmap in He' as (g & -> & Hg).
    destruct (Hone g Hg) as [Hall _]. rewrite Forall_forall in Hall. by apply Hall.
  - intros g Hg. destruct (Hone g Hg) as [_ (s & Hs & Hq)]. exists s. eexists. split_and!; [|done|by left].
    apply list_elem_of_bind. eexists. split; [done|]. apply list_elem_of_fmap. by exists g.
Qed.

(** ** The recipe *)
Lemma fill_step_stage i group missing has_trigger : at_stage 0 (fill_step i group missing has_trigger).
Proof.
  unfold at_stage, fill_step. cbn. constructor; [by right|]. unfold fill_statements. apply Forall_app. split.
  - apply Forall_bind, Forall_true. intros g. repeat constructor.
  - constructor; [by left|]. destruct has_trigger; repeat constructor.
Qed.

Lemma fill_end_stage i group : Forall (at_stage 3) (e_steps (fill_end i group)).
Proof.
  unfold fill_end. case_if; [|constructor]. constructor; [|constructor]. unfold at_stage. cbn.
  constructor; [by right|]. repeat constructor; by left.
Qed.

Lemma fill_recipe_steps i group missing pending has_trigger key o cfg :
  let q := in_qualified i in
  let t := table_obs o q in
  fill_state q (t_columns t) group = inr (missing, pending) -> t_exists t = true ->
  let e := fill_recipe i group missing pending t has_trigger key o cfg in
  e_conflicts e = [] ->
  exists walks strict,
    e_steps e = (if bool_decide (missing = []) && has_trigger then [] else [fill_step i group missing has_trigger])
                ++ walks ++ strict ++ e_steps (fill_end i group)
    /\ Forall2 (walks_for i key (simple_fill pending) (after_first i missing o) cfg) (fill_passes pending) walks
    /\ Forall (at_stage 2) strict
    /\ forall g, g ∈ pending -> exists s d, s ∈ strict /\ d ∈ st_sql s /\ makes_strict q (column_name g) d.
Proof.
  intros q t Hf Ht e Hc. unfold e, fill_recipe in *. cbn [and_emit e_conflicts emit] in Hc. cbn [app] in Hc.
  fold (columns_added q missing o) in *. fold (after_first i missing o) in *.
  destruct (passes_planned _ _ _ _ _ _ _ _ Hc) as (walks & Hw & Hf2 & _). cbn [and_emit e_steps emit]. rewrite Hw. cbn [and_emit e_steps warn app].
  destruct (fill_not_null_stage i group missing pending o t Hf Ht) as [Hs Hg].
  exists walks, (e_steps (fill_not_null i group pending t (after_first i missing o))). done.
Qed.

Lemma recipe_stages first walks strict last :
  Forall (at_stage 0) first -> Forall (at_stage 1) walks -> Forall (at_stage 2) strict -> Forall (at_stage 3) last ->
  StronglySorted le (omap stage ((first ++ walks ++ strict ++ last) ≫= st_sql)).
Proof.
  intros Hf Hw Hs Hl. rewrite !bind_app, !omap_app.
  destruct (stages_at 1 _ Hw) as [k1 ->], (stages_at 2 _ Hs) as [k2 ->], (stages_at 3 _ Hl) as [k3 ->].
  apply (sorted_stages 0); [|apply Forall_forall; lia|by apply stages_at].
  apply (sorted_stages 1); [|rewrite Forall_app; split; apply Forall_replicate; lia|by eexists].
  apply (sorted_stages 2); [|apply Forall_replicate; lia|by eexists].
  rewrite <- (app_nil_r (replicate k3 3%nat)). apply (sorted_stages 3); [constructor|constructor|by eexists].
Qed.

Lemma added_first first later s rel c d :
  Forall (fun s => exists n, n <> 0%nat /\ at_stage n s) later -> s ∈ first ++ later -> AddColumn rel c d ∈ st_sql s -> s ∈ first.
Proof.
  intros Hl Hin Hadd. apply elem_of_app in Hin as [?|Hin]; [done|]. rewrite Forall_forall in Hl.
  destruct (Hl s Hin) as (n & Hn & Hst). unfold at_stage in Hst. rewrite Forall_forall in Hst.
  destruct (Hst _ Hadd) as [[= <-]|?]; done.
Qed.

(** C8: A column that is added with a fill is at no moment without the trigger that
    fills it, and is not made NOT NULL before every pass over the rows already there.
    In an accepted recipe that has something left to do, the statements come in four
    stages in this order: the columns and the trigger, the passes, NOT NULL, the
    trigger's end. The step that adds a column is one transaction of its own that
    installs the function for every column of the group, and the trigger where it is
    not there already; where no step does, both were there; every pass has its paced
    step, and every column left to do the statement that makes it NOT NULL. *)
Theorem fill_recipe_comes_in_order i rest o cfg missing pending :
  let q := in_qualified i in
  let t := table_obs o q in
  let e := plan_add_columns_filled (i :: rest) o cfg in
  fill_state q (t_columns t) (i :: rest) = inr (missing, pending) -> pending <> [] -> e_conflicts e = [] ->
  StronglySorted le (omap stage (e_steps e ≫= st_sql))
  /\ (forall s rel c d, s ∈ e_steps e -> AddColumn rel c d ∈ st_sql s ->
        st_class s = kRequired /\ st_own s = true
        /\ (exists f, FillFunction (in_schema i) (filler i) (fill_tag (i :: rest)) (quote_identifier (in_table i)) f ∈ st_sql s
              /\ fill_column <$> f = column_name <$> i :: rest)
        /\ (filler i ∈ dom (t_triggers t) \/ FillTrigger q (filler i) (in_schema i) ∈ st_sql s))
  /\ (forall g, g ∈ missing -> exists s, s ∈ e_steps e /\ AddColumn q (column_name g) (bstr g "type" "") ∈ st_sql s)
  /\ (filler i ∈ dom (t_triggers t) \/ exists s, s ∈ e_steps e /\ FillTrigger q (filler i) (in_schema i) ∈ st_sql s)
  /\ (forall p, p ∈ fill_passes pending -> exists s, s ∈ e_steps e
        /\ walks_for i (fill_key i o) (simple_fill pending) (after_first i missing o) cfg p s)
  /\ (forall g, g ∈ pending -> exists s d, s ∈ e_steps e /\ d ∈ st_sql s /\ makes_strict q (column_name g) d).
Proof.
  intros q t e Hf Hp Hc. subst e. unfold plan_add_columns_filled in Hc |- *. fold q in Hc |- *. fold t in Hc |- *.
  destruct (t_exists t) eqn:Ht; [|done]. cbn [negb] in Hc |- *. rewrite Hf in Hc |- *.
  rewrite bool_decide_eq_false_2 in Hc |- * by done.
  destruct (String.eqb (fill_key i o) ""); [done|].
  destruct (fill_recipe_steps _ _ _ _ _ _ _ _ Hf Ht Hc) as (walks & strict & He & Hw & Hs & Hg). fold q t in He. rewrite He.
  set (there := bool_decide (filler i ∈ dom (t_triggers t))) in *.
  set (first := if bool_decide (missing = []) && there then [] else [fill_step i (i :: rest) missing there]) in *.
  set (l := walks_for _ _ _ _ _) in *.
  assert (forall s, s ∈ walks -> at_stage 1 s) as Hwalks.
  { intros s [n Hn]%list_elem_of_lookup. destruct (Forall2_lookup_r _ _ _ _ _ Hw Hn) as (p & _ & s0 & _ & _ & _ & _ & _ & Hst). done. }
  assert (Forall (at_stage 0) first) as Hfst.
  { unfold first. case_if; constructor; [apply fill_step_stage|constructor]. }
  split_and!.
  - apply recipe_stages; [done|by apply Forall_forall|done|apply fill_end_stage].
  - intros s rel c d Hin Hadd.
    assert (s ∈ first) as Hfirst.
    { eapply (added_first _ (walks ++ strict ++ e_steps (fill_end i (i :: rest)))); [|done..].
      rewrite !Forall_app. split_and!.
      - apply Forall_forall. intros x Hx. exists 1%nat. auto.
      - eapply Forall_impl; [exact Hs|]. intros x Hx. by exists 2%nat.
      - eapply Forall_impl; [apply fill_end_stage|]. intros x Hx. by exists 3%nat. }
    clear Hin. unfold first in Hfirst. destruct (bool_decide (missing = []) && there); [by apply elem_of_nil in Hfirst|].
    apply list_elem_of_singleton in Hfirst as ->. split_and!; [done|done| |].
    + eexists. split; [cbn; right; apply elem_of_app; right; left|]. unfold fill_body. by rewrite <- !list_fmap_compose.
    + unfold there. case_bool_decide as Hin; [by left|right]. cbn. right. apply elem_of_app. right. right. left.
  - intros g Hgm. exists (fill_step i (i :: rest) missing there). split.
    + apply elem_of_app. left. unfold first. destruct missing; [by apply elem_of_nil in Hgm|]. left.
    + cbn. right. apply elem_of_app. left. apply list_elem_of_bind. exists g. split; [left|done].
  - destruct (decide (filler i ∈ dom (t_triggers t))) as [|Hno]; [by left|right]. exists (fill_step i (i :: rest) missing there).
    assert (there = false) as Hthere by by apply bool_decide_eq_false_2. unfold first. rewrite Hthere, andb_false_r. split.
    + apply elem_of_app. left. left.
    + cbn. right. apply elem_of_app. right. right. left.
  - intros p [n Hn]%list_elem_of_lookup. destruct (Forall2_lookup_l _ _ _ _ _ Hw Hn) as (s & Hsn & Hl). exists s. split; [|done].
    rewrite !elem_of_app. right. left. by eapply list_elem_of_lookup_2.
  - intros g Hgp. destruct (Hg g Hgp) as (s & d & Hin & Hd & Hm). exists s, d. split; [|done]. rewrite !elem_of_app. auto.
Qed.

End Steps.
