(* ===== verification/ViewFacts.v ===== *)
(** * ViewFacts: views come down and go up again

    The views that are rebuilt around a changed column are exactly those above it,
    no statement of the rebuild is refused on account of a view in the order planned, and
    every view is back at the end. Privileges are granted again as the catalog lists
    them. *)
From S2P Require Import Prelude Config Json Canonical Spec Quote RowSql Plan Planner Indexes RowPlan Dml KeyFacts Views CanonicalFacts.

(** ** Which views *)

(** A view above a column: it reads the column, or a view that is above it. *)
Inductive above (views : gmap string DependentView) (column : string) : string -> Prop :=
  | above_reads k v : views !! k = Some v -> column ∈ v_uses v -> above views column k
  | above_through k v d : views !! k = Some v -> d ∈ v_depends v -> above views column d -> above views column k.

Lemma elem_of_by_key {A} (m : gmap string A) k v : (k, v) ∈ by_key (map_to_list m) <-> m !! k = Some v.
Proof. unfold by_key. rewrite sort_by_Permutation. apply elem_of_map_to_list. Qed.

Lemma elem_of_reading views column k :
  k ∈ reading_directly views column <-> exists v, views !! k = Some v /\ column ∈ v_uses v.
Proof.
  unfold reading_directly. rewrite elem_of_list_to_set, list_elem_of_fmap. split.
  - intros ([k' v] & -> & Hin). apply list_elem_of_In, filter_In in Hin as [Hin He]. apply list_elem_of_In, elem_of_by_key in Hin.
    exists v. split; [done|]. apply existsb_exists in He as (x & Hx & <-%String.eqb_eq). by apply list_elem_of_In.
  - intros (v & Hv & Hc). exists (k, v). split; [done|]. apply list_elem_of_In, filter_In. split.
    + by apply list_elem_of_In, elem_of_by_key.
    + apply existsb_exists. exists column. split; [by apply list_elem_of_In|apply String.eqb_refl].
Qed.

(** ** The loop over the edges *)
Definition grow_one (affected : gset string) (kv : string * DependentView) : gset string :=
  if bool_decide (kv.1 ∈ affected) then affected
  else if existsb (fun d => bool_decide (d ∈ affected)) (v_depends kv.2) then {[kv.1]} ∪ affected else affected.

Lemma grow_one_incl affected kv : affected ⊆ grow_one affected kv.
Proof. unfold grow_one. repeat case_if; set_solver. Qed.

Lemma grow_steps l affected : affected ⊆ foldl grow_one affected l.
Proof. revert affected. induction l as [|kv l IH]; intros affected; simpl; [done|]. etrans; [apply grow_one_incl|apply IH]. Qed.

Lemma existsb_in (l : list string) (a : gset string) :
  existsb (fun d => bool_decide (d ∈ a)) l = true <-> exists d, d ∈ l /\ d ∈ a.
Proof.
  rewrite existsb_exists. split; intros (d & Hd & Ha); exists d.
  - split; [by apply list_elem_of_In|by apply bool_decide_eq_true in Ha].
  - split; [by apply list_elem_of_In|by apply bool_decide_eq_true].
Qed.

(** What grows is above the column, and nothing that reads an affected view stays out. *)
Lemma grow_one_above views column affected k v :
  views !! k = Some v -> (forall x, x ∈ affected -> above views column x) ->
  forall x, x ∈ grow_one affected (k, v) -> above views column x.
Proof.
  intros Hv Ha x. unfold grow_one. case_if; [apply Ha|]. destruct (existsb _ _) eqn:He; [|apply Ha]. cbn [fst snd] in *.
  apply existsb_in in He as (d & Hd & Hda). rewrite elem_of_union, elem_of_singleton. intros [->|?]; [|by apply Ha].
  eapply above_through; [done|done|by apply Ha].
Qed.

Lemma grow_above views column affected :
  (forall x, x ∈ affected -> above views column x) -> forall x, x ∈ grow views affected -> above views column x.
Proof.
  unfold grow. fold grow_one. assert (forall kv, kv ∈ views_items views -> views !! kv.1 = Some kv.2) as Hall.
  { intros [k v]. apply elem_of_by_key. }
  revert affected Hall. induction (views_items views) as [|[k v] l IH]; intros affected Hall Ha; [done|]. simpl.
  apply IH; [intros kv Hkv; apply Hall; by right|]. apply grow_one_above; [|done]. apply (Hall (k, v)). left.
Qed.

Lemma grow_closed views affected k v d :
  grow views affected = affected -> views !! k = Some v -> d ∈ v_depends v -> d ∈ affected -> k ∈ affected.
Proof.
  unfold grow. fold grow_one. intros Hfix Hv Hd Hda.
  assert ((k, v) ∈ views_items views) as (l1 & l2 & Hl)%list_elem_of_split by by apply elem_of_by_key.
  rewrite Hl, foldl_app in Hfix. simpl in Hfix. set (a1 := foldl grow_one affected l1) in *.
  assert (d ∈ a1) as Hd1 by (apply (grow_steps l1 affected); done).
  assert (k ∈ grow_one a1 (k, v)) as Hk.
  { unfold grow_one. cbn [fst snd]. case_bool_decide as Hi; [done|].
    rewrite (proj2 (existsb_in _ _)) by (by exists d). set_solver. }
  rewrite <- Hfix. by apply (grow_steps l2).
Qed.

Lemma grow_within views affected : affected ⊆ dom views -> grow views affected ⊆ dom views.
Proof.
  unfold grow. fold grow_one. assert (forall kv, kv ∈ views_items views -> kv.1 ∈ dom views) as Hall.
  { intros [k v] Hkv%elem_of_by_key. apply elem_of_dom. by exists v. }
  revert affected Hall. induction (views_items views) as [|[k v] l IH]; intros affected Hall Ha; [done|]. simpl.
  apply IH; [intros kv Hkv; apply Hall; by right|]. unfold grow_one. specialize (Hall (k, v) ltac:(left)). repeat case_if; set_solver.
Qed.

(** As many turns as there are views are enough. *)
Lemma close_fixed views fuel affected :
  affected ⊆ dom views -> (size views < fuel + size affected)%nat -> grow views (close fuel views affected) = close fuel views affected.
Proof.
  revert affected. induction fuel as [|fuel IH]; intros affected Hin Hsize.
  { exfalso. assert (size affected <= size (dom views))%nat by by apply subseteq_size. rewrite size_dom in *. lia. }
  cbn [close]. case_bool_decide as He; [done|]. apply IH; [by apply grow_within|].
  assert (affected ⊂ grow views affected) as Hlt%subset_size.
  { split; [unfold grow; fold grow_one; apply grow_steps|]. intros Hsub. apply He. apply set_eq. intros x. split; [apply Hsub|].
    unfold grow. fold grow_one. apply grow_steps. }
  lia.
Qed.

Lemma close_incl views fuel affected : affected ⊆ close fuel views affected.
Proof.
  revert affected. induction fuel as [|fuel IH]; intros affected; [done|]. cbn [close]. case_bool_decide; [done|].
  etrans; [|apply IH]. unfold grow. fold grow_one. apply grow_steps.
Qed.

Lemma close_above views column fuel affected :
  (forall x, x ∈ affected -> above views column x) -> forall x, x ∈ close fuel views affected -> above views column x.
Proof.
  revert affected. induction fuel as [|fuel IH]; intros affected Ha; [done|]. cbn [close]. case_bool_decide; [done|].
  apply IH. by apply grow_above.
Qed.

Lemma affected_above views column k : k ∈ affected_views views column <-> above views column k.
Proof.
  unfold affected_views. assert (reading_directly views column ⊆ dom views) as Hin.
  { intros x (v & Hv & _)%elem_of_reading. apply elem_of_dom. by exists v. }
  split.
  - apply close_above. intros x (v & Hv & Hc)%elem_of_reading. by eapply above_reads.
  - induction 1 as [k v Hv Hc|k v d Hv Hd _ IH].
    + apply close_incl, elem_of_reading. by exists v.
    + eapply grow_closed; [apply close_fixed; [done|lia]|done..].
Qed.

(** ** The order *)
Lemma rebuild_names views column k : k ∈ (views_to_rebuild views column).*2 <-> above views column k.
Proof.
  unfold views_to_rebuild. rewrite sort_by_Permutation, <- list_fmap_compose. rewrite <- affected_above, <- elem_of_elements.
  rewrite list_elem_of_fmap. split; [by intros (x & -> & Hx)|]. intros Hk. by exists k.
Qed.

Lemma rebuild_levels views column l k : (l, k) ∈ views_to_rebuild views column -> l = view_level views k.
Proof. unfold views_to_rebuild. rewrite sort_by_Permutation. by intros (x & [= -> ->] & _)%list_elem_of_fmap. Qed.

Lemma rebuild_NoDup views column : NoDup (views_to_rebuild views column).*2.
Proof.
  unfold views_to_rebuild. rewrite sort_by_Permutation, <- list_fmap_compose.
  rewrite (list_fmap_ext _ (fun x => x)) by done. rewrite list_fmap_id. apply NoDup_elements.
Qed.

Lemma deeper_total a b : deeper a b = true \/ deeper b a = true.
Proof.
  unfold deeper. rewrite !orb_true_iff, !andb_true_iff, !Z.ltb_lt, !Z.eqb_eq.
  destruct (string_leb_total a.2 b.2); destruct (Z.lt_total a.1 b.1) as [|[|]]; auto.
Qed.

Lemma deeper_trans a b c : deeper a b = true -> deeper b c = true -> deeper a c = true.
Proof.
  unfold deeper. rewrite !orb_true_iff, !andb_true_iff, !Z.ltb_lt, !Z.eqb_eq. intros [?|[? ?]] [?|[? ?]]; [left; lia..|].
  right. split; [lia|]. by eapply string_leb_trans.
Qed.

Lemma rebuild_sorted views column : StronglySorted (fun a b => deeper a b = true) (views_to_rebuild views column).
Proof. apply (sort_by_sorted deeper); [apply deeper_total|intros ???; apply deeper_trans]. Qed.

(** A view that is later in the order is not deeper. *)
Lemma rebuild_later views column l1 l2 a b :
  views_to_rebuild views column = l1 ++ a :: l2 -> b ∈ l2 -> view_level views b.2 <= view_level views a.2.
Proof.
  intros Hl Hb. pose proof (rebuild_sorted views column) as Hs. rewrite Hl in Hs.
  apply StronglySorted_app in Hs as (_ & _ & Hs). apply StronglySorted_inv in Hs as [_ Hs].
  rewrite Forall_forall in Hs. specialize (Hs b Hb). destruct a as [la ka], b as [lb kb]. cbn [fst snd].
  rewrite <- (rebuild_levels views column la ka) by (rewrite Hl; set_solver).
  rewrite <- (rebuild_levels views column lb kb) by (rewrite Hl; set_solver).
  unfold deeper in Hs. cbn in Hs. rewrite orb_true_iff, andb_true_iff, Z.ltb_lt, Z.eqb_eq in Hs. lia.
Qed.

(** ** The server

    What PostgreSQL answers, the views that are there given as the set of their keys.
    A statement can be refused on account of a view, and any can fail for another
    reason (a privilege, a role that is not there, a function that reads the view, a
    definition the new type does not fit). *)
Inductive Answer : Type := Accepted (present : gset string) | Blocked | Failed.

(** A view goes only when none of those there reads it, comes only when those it reads
    are there, and a column's type changes only when no view there reads it: only then
    is the statement not refused on account of a view. What is put on a view that is
    there leaves the views as they are. *)
Class ViewServer (views : gmap string DependentView) : Type := {
  obey : Stmt -> gset string -> Answer;
  drop_answer : forall k v m present, views !! k = Some v -> k ∈ present ->
    match obey (DropView m (v_name v)) present with
    | Accepted present' => present' = present ∖ {[k]}
    | Blocked => exists w x, w ∈ present /\ views !! w = Some x /\ k ∈ v_depends x
    | Failed => True
    end;
  create_answer : forall k v m opts def present, views !! k = Some v -> k ∉ present ->
    match obey (CreateView m (v_name v) opts def) present with
    | Accepted present' => present' = {[k]} ∪ present
    | Blocked => exists d, d ∈ v_depends v /\ is_Some (views !! d) /\ d ∉ present
    | Failed => True
    end;
  alter_answer : forall rel c ty u present,
    match obey (AlterColumnType rel c ty u) present with
    | Accepted present' => present' = present
    | Blocked => exists w x, w ∈ present /\ views !! w = Some x /\ c ∈ v_uses x
    | Failed => True
    end;
  restore_answer : forall k v q present, views !! k = Some v -> k ∈ present -> q ∈ tail (recreate v) ->
    obey q present = Accepted present \/ obey q present = Failed;
}.

Section Rebuild.
Context (views : gmap string DependentView) `{ViewServer views}.

(** The statements of a transaction, up to the first that is not accepted. *)
Fixpoint run_sql (sql : list Stmt) (present : gset string) : Answer :=
  match sql with
  | [] => Accepted present
  | q :: sql' => match obey q present with Accepted p => run_sql sql' p | answer => answer end
  end.

(** No view is in the way: what is there at the end, unless a statement failed for
    another reason. *)
Definition passes (answer : Answer) (present : gset string) : Prop := answer = Accepted present \/ answer = Failed.

(** A view is deeper than those it reads. *)
Definition levels_ok : Prop :=
  forall k v d w, views !! k = Some v -> d ∈ v_depends v -> views !! d = Some w -> v_level w < v_level v.

Lemma run_sql_app l l' p p' r : passes (run_sql l p) p' -> passes (run_sql l' p') r -> passes (run_sql (l ++ l') p) r.
Proof.
  revert p. induction l as [|q l IH]; intros p; [by intros [[= ->]|?]|]. cbn [app run_sql].
  destruct (obey q p); [by apply IH|by intros [|]|by right].
Qed.

Lemma run_sql_cons q l p p' r : passes (obey q p) p' -> passes (run_sql l p') r -> passes (run_sql (q :: l) p) r.
Proof. cbn [run_sql]. intros [->| ->]; [done|by right]. Qed.

Lemma drop_passes k v m p :
  views !! k = Some v -> k ∈ p -> (forall w x, w ∈ p -> views !! w = Some x -> k ∉ v_depends x) ->
  passes (obey (DropView m (v_name v)) p) (p ∖ {[k]}).
Proof.
  intros Hv Hk Hno. pose proof (drop_answer k v m p Hv Hk) as Ha. destruct (obey _ p); [left; by subst| |by right].
  destruct Ha as (w & x & Hw & Hx & Hd). by destruct (Hno w x Hw Hx).
Qed.

Lemma create_passes k v m opts def p :
  views !! k = Some v -> k ∉ p -> (forall d, d ∈ v_depends v -> is_Some (views !! d) -> d ∈ p) ->
  passes (obey (CreateView m (v_name v) opts def) p) ({[k]} ∪ p).
Proof.
  intros Hv Hk Hall. pose proof (create_answer k v m opts def p Hv Hk) as Ha. destruct (obey _ p); [left; by subst| |by right].
  destruct Ha as (d & Hd & Hs & Hn). by destruct (Hn (Hall d Hd Hs)).
Qed.

Lemma alter_passes rel c ty u p :
  (forall w x, w ∈ p -> views !! w = Some x -> c ∉ v_uses x) -> passes (obey (AlterColumnType rel c ty u) p) p.
Proof.
  intros Hno. pose proof (alter_answer rel c ty u p) as Ha. destruct (obey _ p); [left; by subst| |by right].
  destruct Ha as (w & x & Hw & Hx & Hu). by destruct (Hno w x Hw Hx).
Qed.

Lemma run_restores k v l p :
  views !! k = Some v -> k ∈ p -> (forall q, q ∈ l -> q ∈ tail (recreate v)) -> passes (run_sql l p) p.
Proof.
  intros Hv Hk. induction l as [|q l IH]; intros Hl; [by left|].
  apply (run_sql_cons _ _ _ p); [apply (restore_answer k v); [done..|apply Hl; left]|]. apply IH. intros x Hx. apply Hl. by right.
Qed.

Lemma above_view column k : above views column k -> exists v, views !! k = Some v.
Proof. by inversion 1; eauto. Qed.

Context (column : string) (Hlevels : levels_ok).
Let order := views_to_rebuild views column.

Lemma order_view l1 a l2 : order = l1 ++ a :: l2 -> exists v, views !! a.2 = Some v.
Proof.
  intros Ho. apply (above_view column), rebuild_names. fold order. rewrite Ho, fmap_app. apply elem_of_app. right. left.
Qed.

Lemma run_drops l1 l2 :
  order = l1 ++ l2 -> passes (run_sql (emit_view_drops views l2) (dom views ∖ list_to_set l1.*2)) (dom views ∖ list_to_set order.*2).
Proof.
  revert l1. induction l2 as [|a l2 IH]; intros l1 Ho.
  { rewrite app_nil_r in Ho. rewrite Ho. by left. }
  destruct (order_view _ _ _ Ho) as [v Hv]. unfold emit_view_drops. csimpl. rewrite Hv. cbn [app].
  pose proof (rebuild_NoDup views column) as Hnd. fold order in Hnd. rewrite Ho, fmap_app in Hnd. csimpl in Hnd.
  apply NoDup_app in Hnd as (_ & Hdis & _).
  eapply run_sql_cons; [apply (drop_passes a.2 v); [done| |]|].
  - apply elem_of_difference. split; [apply elem_of_dom; by exists v|]. rewrite elem_of_list_to_set. intros Hin. apply (Hdis _ Hin). left.
  - intros w x [_ Hw]%elem_of_difference Hx Hdep. rewrite elem_of_list_to_set in Hw.
    assert (above views column a.2) as Ha by (apply rebuild_names; fold order; rewrite Ho, fmap_app; apply elem_of_app; right; left).
    assert (above views column w) as (b & -> & Hb)%rebuild_names%list_elem_of_fmap by by eapply above_through.
    fold order in Hb. rewrite Ho in Hb. apply elem_of_app in Hb as [Hb|Hb].
    { apply Hw, list_elem_of_fmap. by exists b. }
    apply elem_of_cons in Hb as [->|Hb].
    + pose proof (Hlevels _ _ _ _ Hx Hdep Hx). lia.
    + pose proof (rebuild_later views column _ _ _ _ Ho Hb) as Hlev. pose proof (Hlevels _ _ _ _ Hx Hdep Hv) as Hlt.
      unfold view_level in Hlev. rewrite Hx, Hv in Hlev. cbn in Hlev. lia.
  - specialize (IH (l1 ++ [a]) ltac:(by rewrite Ho, <- (assoc_L (++)))).
    assert (dom views ∖ list_to_set (l1 ++ [a]).*2 = dom views ∖ list_to_set l1.*2 ∖ {[a.2]}) as <-; [|exact IH].
    rewrite fmap_app, list_to_set_app_L. cbn. set_solver.
Qed.

Lemma run_recreates l1 l2 :
  order = l1 ++ l2 ->
  passes (run_sql (emit_view_recreates views l1) (dom views ∖ list_to_set l1.*2)) (dom views).
Proof.
  revert l2. induction l1 as [|a l1 IH] using rev_ind; intros l2 Ho.
  { left. cbn. f_equal. set_solver. }
  destruct (order_view l1 a l2) as [v Hv]; [by rewrite Ho, <- (assoc_L (++))|].
  pose proof (rebuild_NoDup views column) as Hnd. fold order in Hnd. rewrite Ho, !fmap_app in Hnd. csimpl in Hnd.
  apply NoDup_app in Hnd as (Hnd & _ & _). apply NoDup_app in Hnd as (_ & Hdis & _).
  assert (a.2 ∉ l1.*2) as Hout by (intros Hin; apply (Hdis _ Hin); left).
  unfold emit_view_recreates. rewrite reverse_app. csimpl. rewrite Hv.
  set (rest := reverse l1 ≫= _).
  assert (passes (run_sql (recreate v) (dom views ∖ list_to_set (l1 ++ [a]).*2)) (dom views ∖ list_to_set l1.*2)) as Hone.
  { assert (recreate v = CreateView (materialized v) (v_name v) (view_options (v_reloptions v)) (drop_end (v_definition v)) :: tail (recreate v))
      as -> by done.
    assert (a.2 ∈ dom views) as Hin by (apply elem_of_dom; by exists v).
    assert ({[a.2]} ∪ dom views ∖ list_to_set (l1 ++ [a]).*2 = dom views ∖ list_to_set l1.*2) as Heq.
    { rewrite fmap_app, list_to_set_app_L. cbn. apply set_eq. intros x. destruct (decide (x = a.2)) as [->|]; set_solver. }
    eapply run_sql_cons; [apply (create_passes a.2 v); [done| |]|].
    - rewrite fmap_app, list_to_set_app_L. set_solver.
    - intros d Hd [w Hw]. apply elem_of_difference. split; [apply elem_of_dom; by exists w|].
      rewrite elem_of_list_to_set. intros (b & -> & Hb)%list_elem_of_fmap. apply elem_of_app in Hb as [Hb|Hb].
      + apply list_elem_of_split in Hb as (m1 & m2 & ->).
        assert (order = m1 ++ b :: (m2 ++ [a] ++ l2)) as Ho' by (rewrite Ho; by rewrite <- !(assoc_L (++))).
        pose proof (rebuild_later views column m1 _ b a Ho' ltac:(set_solver)) as Hlev.
        pose proof (Hlevels _ _ _ _ Hv Hd Hw) as Hlt. unfold view_level in Hlev. rewrite Hv, Hw in Hlev. cbn in Hlev. lia.
      + apply list_elem_of_singleton in Hb as ->. pose proof (Hlevels _ _ _ _ Hv Hd Hv). lia.
    - rewrite Heq. apply (run_restores a.2 v); [done| |done]. set_solver. }
  eapply run_sql_app; [exact Hone|]. apply (IH ([a] ++ l2)). by rewrite Ho, <- (assoc_L (++)).
Qed.
End Rebuild.

(** ** A type change in front of the server *)
Lemma grants_of_grant column on who privs q : q ∈ grants_of column on who privs -> exists p g, q = Grant p column on who g.
Proof.
  induction privs as [|c privs IH]; [by intros ?%elem_of_nil|]. cbn [grants_of]. rewrite elem_of_app. intros [Hq|Hq]; [|by apply IH].
  destruct (privilege_of c); [|by apply elem_of_nil in Hq]. apply list_elem_of_singleton in Hq as ->. by eexists _, _.
Qed.

Lemma aclitem_grant item on column q : q ∈ grants_from_aclitem item on column -> exists p who g, q = Grant p column on who g.
Proof.
  unfold grants_from_aclitem. destruct (split_first "=" item) as [[grantee rest]|]; [|by intros ?%elem_of_nil].
  intros (p & g & ->)%grants_of_grant. by eexists _, _, _.
Qed.

(** What is put on a view once it is there. *)
Definition restores (q : Stmt) : Prop := match q with OtherSql _ | CommentOn _ _ | Grant _ _ _ _ _ => True | _ => False end.

Lemma recreate_restores v q : q ∈ tail (recreate v) -> restores q.
Proof.
  unfold recreate. cbn [app tail]. rewrite !elem_of_app. intros [Hq|[Hq|[Hq|[Hq|[Hq|[Hq|Hq]]]]]].
  - destruct (String.eqb _ _); [by apply elem_of_nil in Hq|by apply list_elem_of_singleton in Hq as ->].
  - by apply list_elem_of_fmap in Hq as (? & -> & _).
  - destruct (v_comment v); [by apply list_elem_of_singleton in Hq as ->|by apply elem_of_nil in Hq].
  - by apply list_elem_of_fmap in Hq as (? & -> & _).
  - apply list_elem_of_bind in Hq as (? & (? & ? & ? & ->)%aclitem_grant & _). done.
  - apply list_elem_of_bind in Hq as (? & Hq & _). apply list_elem_of_bind in Hq as (? & (? & ? & ? & ->)%aclitem_grant & _). done.
  - by apply list_elem_of_fmap in Hq as (? & -> & _).
Qed.

Lemma recreate_no_drop v m n : DropView m n ∉ recreate v.
Proof. intros [Hq|Hq]%elem_of_cons; [done|]. by apply recreate_restores in Hq. Qed.


(** ** Privileges read back *)

(** An aclitem as the server writes it: the letters, an asterisk behind those that can
    be granted on. *)
Definition privs_text (l : list (ascii * bool)) : string :=
  foldr (fun pg s => String pg.1 (if (pg.2 : bool) then String "*" s else s)) "" l.

Definition acl_text (grantee : string) (l : list (ascii * bool)) (grantor : string) : string :=
  grantee +:+ String "=" (privs_text l +:+ String "/" grantor).

Lemma grants_of_text column on who l :
  Forall (fun pg => pg.1 <> "*"%char) l ->
  grants_of column on who (privs_text l) = omap (fun pg => p ← privilege_of pg.1; Some (Grant p column on who pg.2)) l.
Proof.
  induction 1 as [|[c g] l Hc Hl IH]; [done|]. cbn [privs_text foldr fst snd]. fold (privs_text l).
  assert (privs_text l = "" \/ exists d r, privs_text l = String d r /\ d <> "*"%char) as Hhead.
  { destruct Hl as [|[d h] l Hd _]; [by left|]. right. by eexists _, _. }
  assert (grants_of column on who (String c (if g then String "*" (privs_text l) else privs_text l))
          = match privilege_of c with Some p => [Grant p column on who g] | None => [] end ++ grants_of column on who (privs_text l)) as ->.
  { destruct g; [done|]. cbn [grants_of]. destruct Hhead as [->|(d & r & -> & Hd)]; [done|].
    by rewrite (proj2 (Ascii.eqb_neq d "*") Hd). }
  rewrite IH. csimpl. by destruct (privilege_of c).
Qed.

Lemma privs_text_no_slash l : Forall (fun pg => pg.1 <> "/"%char) l -> has_char "/" (privs_text l) = false.
Proof.
  induction 1 as [|[c g] l Hc Hl IH]; [done|]. cbn in Hc. cbn [privs_text foldr fst snd]. fold (privs_text l).
  assert (Ascii.eqb "/" c = false) as Hne by (apply Ascii.eqb_neq; congruence).
  destruct g; rewrite ?has_char_cons, Hne; done.
Qed.

(** The privileges on a rebuilt view are granted again as the catalog lists them.
    For an entry whose grantee has no equals sign in its name, there is one GRANT for
    each letter that is known, in the order of the letters, to the grantee (PUBLIC
    where none is named), on the view or on its column, with the grant option exactly
    where an asterisk stands behind the letter; a letter that is not among the seven
    known (MAINTAIN is one) grants nothing. *)
Theorem grants_read_back grantee l grantor on column :
  has_char "=" grantee = false -> Forall (fun pg => pg.1 <> "*"%char /\ pg.1 <> "/"%char) l ->
  grants_from_aclitem (acl_text grantee l grantor) on column
  = omap (fun pg => p ← privilege_of pg.1;
                    Some (Grant p column on (if String.eqb grantee "" then "PUBLIC" else quote_identifier grantee) pg.2)) l.
Proof.
  intros Hg Hl. unfold grants_from_aclitem, acl_text. rewrite split_first_app by done.
  rewrite split_first_app by (apply privs_text_no_slash; eapply Forall_impl; [exact Hl|]; by intros ? [_ ?]).
  apply grants_of_text. eapply Forall_impl; [exact Hl|]. by intros ? [? _].
Qed.

(** ** Type modifiers *)
Lemma dec_digits_chars fuel n acc c :
  is_digit c = false -> has_char c (dec_digits fuel n acc) = has_char c acc.
Proof.
  intros Hc. revert n acc. induction fuel as [|fuel IH]; intros n acc; [done|]. cbn [dec_digits].
  assert (has_char c (String (byte_of (48 + n mod 10)) acc) = has_char c acc) as Hone.
  { unfold has_char. cbn. destruct (Ascii.eqb_spec c (byte_of (48 + n mod 10))) as [->|]; [|done].
    by rewrite digit_is_digit in Hc. }
  case_if; [done|]. by rewrite IH.
Qed.

Lemma to_string_chars n c : 0 <= n -> is_digit c = false -> has_char c (to_string n) = false.
Proof. intros Hn Hc. unfold to_string. rewrite (proj2 (Z.ltb_ge n 0)) by lia. by rewrite dec_digits_chars. Qed.

Lemma split_first_none c s : has_char c s = false -> split_first c s = None.
Proof.
  unfold has_char. induction s as [|d s IH]; [done|]. cbn. intros [Hd Hs]%orb_false_iff. rewrite IH by done.
  destruct (Ascii.eqb_spec d c) as [->|]; [by rewrite Ascii.eqb_refl in Hd|done].
Qed.

Lemma stol_to_string n : 0 <= n < 2 ^ 63 -> stol (to_string n) = Some (n, "").
Proof.
  intros Hn. unfold stol, to_string. rewrite (proj2 (Z.ltb_ge n 0)) by lia.
  pose proof (read_to_string n "" ltac:(lia) I) as Hr. rewrite string_app_nil_r in Hr.
  destruct (dec_digits_head (Z.to_nat (Z.log2 n)) n "") as (c & t & Hd & Hc). unfold digits_fuel in *. rewrite Hd in *.
  assert (forall d, is_digit d = false -> Ascii.eqb c d = false) as Hne.
  { intros d Hd'. apply Ascii.eqb_neq. intros ->. congruence. }
  assert (is_space c = false) as Hs.
  { unfold is_space, is_digit in *. apply andb_true_iff in Hc as [H1%Z.leb_le H2%Z.leb_le]. apply orb_false_iff.
    split; [apply Z.eqb_neq; lia|]. apply andb_false_iff. right. apply Z.leb_gt. lia. }
  cbn [skip_spaces]. rewrite Hs, (Hne "-"%char), (Hne "+"%char) by done. rewrite Hc, Hr.
  rewrite (proj2 (andb_true_iff _ _)); [done|]. split; [apply Z.leb_le; lia|apply Z.ltb_lt; lia].
Qed.

(** A type with one modifier, and what follows it; with two. *)
Definition one_modifier (base : string) (n : Z) (suffix : string) : string :=
  base +:+ String "(" (to_string n +:+ String ")" suffix).

Definition two_modifiers (base : string) (n m : Z) (suffix : string) : string :=
  base +:+ String "(" ((to_string n +:+ String "," (to_string m)) +:+ String ")" suffix).

Lemma shape_one base n suffix : has_char "(" base = false -> 0 <= n < 2 ^ 63 ->
  type_shape (one_modifier base n suffix) = {| ty_base := trim_spaces_end base; ty_first := n; ty_second := -1 |}.
Proof.
  intros Hb Hn. unfold type_shape, one_modifier. rewrite split_first_app by done.
  rewrite split_first_app by (apply to_string_chars; [lia|done]).
  rewrite split_first_none by (apply to_string_chars; [lia|done]). by rewrite stol_to_string.
Qed.

Lemma shape_two base n m suffix : has_char "(" base = false -> 0 <= n < 2 ^ 63 -> 0 <= m < 2 ^ 63 ->
  type_shape (two_modifiers base n m suffix) = {| ty_base := trim_spaces_end base; ty_first := n; ty_second := m |}.
Proof.
  intros Hb Hn Hm. unfold type_shape, two_modifiers. rewrite split_first_app by done.
  rewrite split_first_app by (rewrite has_char_app, has_char_cons, !to_string_chars by (done || lia); done).
  rewrite split_first_app by (apply to_string_chars; [lia|done]). by rewrite !stol_to_string.
Qed.

(** Whether a type change is taken to be free is decided by the name before the
    modifier and the numbers in it alone. A greater length or precision is free and a
    smaller one is not, as is meant for varchar and numeric; but what follows the
    modifier is not read, so timestamp(3) without time zone to timestamp(6) with time
    zone counts as free, and so does an array of varchar(10) made one of varchar(20) or
    made text; and character(n) to text does, though the measured cases the plan quotes
    name varchar(n) only. *)
Theorem text_after_the_modifier_is_not_read base n m p q suffix suffix' :
  has_char "(" base = false -> 0 <= n < 2 ^ 63 -> 0 <= m < 2 ^ 63 -> 0 <= p < 2 ^ 63 -> 0 <= q < 2 ^ 63 ->
  provably_no_rewrite (one_modifier base n suffix) (one_modifier base m suffix') = (n <=? m)
  /\ provably_no_rewrite (two_modifiers base n p suffix) (two_modifiers base m q suffix') = (p =? q) && (n <=? m)
  /\ provably_no_rewrite (one_modifier "character" n suffix) "text" = true
  /\ provably_no_rewrite (one_modifier "character varying" n suffix) "text" = true.
Proof.
  intros Hb Hn Hm Hp Hq. unfold provably_no_rewrite. rewrite !shape_one, !shape_two by done. cbn [ty_base ty_first ty_second].
  assert (forall (a : string), (String.eqb a "character varying" || String.eqb a "character") && String.eqb a "text" = false) as Hno.
  { intros a. destruct (String.eqb_spec a "text") as [->|]; [done|]. by rewrite andb_false_r. }
  rewrite !Hno, !String.eqb_refl. cbn [negb].
  rewrite (proj2 (Z.eqb_neq m (-1))), (proj2 (Z.eqb_neq n (-1))) by lia. rewrite Z.eqb_refl. cbn [negb].
  split_and!; [done| |done|done]. by destruct (p =? q).
Qed.

(** ** A server that keeps the laws *)
Section Instance.
Context (views : gmap string DependentView).
Context (Hnames : forall k v k' v', views !! k = Some v -> views !! k' = Some v' -> v_name v = v_name v' -> k = k').

Context (roles : string -> bool).

Definition key_of (name : string) : option string :=
  fst <$> List.find (fun kv => String.eqb (v_name kv.2) name) (views_items views).

Definition readers (present : gset string) (test : DependentView -> bool) : bool :=
  existsb (fun w => match views !! w with Some x => test x | None => false end) (base.elements present).

Definition try_stmt (q : Stmt) (present : gset string) : Answer :=
  match q with
  | DropView _ n =>
      match key_of n with
      | Some k =>
          if readers present (fun x => existsb (String.eqb k) (v_depends x)) then Blocked
          else if bool_decide (k ∈ present) then Accepted (present ∖ {[k]}) else Failed
      | None => Failed
      end
  | CreateView _ n _ _ =>
      match k ← key_of n; v ← views !! k; Some (k, v) with
      | Some (k, v) =>
          if existsb (fun d => bool_decide (is_Some (views !! d)) && negb (bool_decide (d ∈ present))) (v_depends v) then Blocked
          else if bool_decide (k ∈ present) then Failed else Accepted ({[k]} ∪ present)
      | None => Failed
      end
  | AlterColumnType _ c _ _ => if readers present (fun x => existsb (String.eqb c) (v_uses x)) then Blocked else Accepted present
  (** The role of a grant may not be there. *)
  | Grant _ _ _ who _ => if roles who then Accepted present else Failed
  | _ => Accepted present
  end.

Lemma key_of_name k v : views !! k = Some v -> key_of (v_name v) = Some k.
Proof using Hnames.
  intros Hv. unfold key_of. destruct (List.find _ _) as [[k' v']|] eqn:Hf; cbn.
  - apply find_some in Hf as [Hin Hn%String.eqb_eq]. apply list_elem_of_In, elem_of_by_key in Hin. f_equal. by eapply Hnames.
  - apply find_none with (x := (k, v)) in Hf; [by rewrite String.eqb_refl in Hf|]. by apply list_elem_of_In, elem_of_by_key.
Qed.

Lemma readers_some present (test : DependentView -> bool) :
  readers present test = true -> exists w x, w ∈ present /\ views !! w = Some x /\ test x = true.
Proof using Type.
  intros (w & Hw & Ht)%existsb_exists. apply list_elem_of_In, elem_of_elements in Hw.
  destruct (views !! w) as [x|] eqn:Hx; [|done]. by exists w, x.
Qed.

Lemma in_existsb (c : string) l : existsb (String.eqb c) l = true -> c ∈ l.
Proof using Type. intros (x & Hx & ->%String.eqb_eq)%existsb_exists. by apply list_elem_of_In. Qed.

Definition documented_server : ViewServer views.
Proof using Hnames roles.
  refine {| obey := try_stmt |}; unfold try_stmt.
  - intros k v m present Hv Hk. rewrite (key_of_name k v Hv). destruct (readers present _) eqn:Hr.
    + apply readers_some in Hr as (w & x & Hw & Hx & Hd%in_existsb). by exists w, x.
    + by rewrite bool_decide_eq_true_2.
  - intros k v m opts def present Hv Hk. rewrite (key_of_name k v Hv). cbn [mbind option_bind]. rewrite Hv. cbn [mbind option_bind].
    destruct (existsb _ _) eqn:He; [|by rewrite bool_decide_eq_false_2].
    apply existsb_exists in He as (d & Hd & [Hs Hn]%andb_true_iff). exists d.
    split_and!; [by apply list_elem_of_In|by apply bool_decide_eq_true in Hs|by apply negb_true_iff, bool_decide_eq_false in Hn].
  - intros rel c ty u present. destruct (readers present _) eqn:Hr; [|done].
    apply readers_some in Hr as (w & x & Hw & Hx & Hd%in_existsb). by exists w, x.
  - intros k v q present _ _ Hq%recreate_restores. destruct q; try done; try by left. case_match; [by left|by right].
Defined.
End Instance.
