(* ===== verification/Migration.v ===== *)
(** * Migration: a specification into a plan (src/cpp/src/planner.h)

    [plan_migration]: what it refuses to plan at all, the steps of every intent
    planned against the catalog as the intents before it leave it, what is done
    to every step whatever its kind, the grouping of steps into transactions and
    the check that follows every concurrent build. The rules of the kinds
    are those of the files required below; the rule of a kind that a module declares, the
    modules' guards and projections are a parameter. *)
From S2P Require Import Prelude Json Canonical Spec Quote RowSql Plan Planner Indexes RowPlan Dml Backfill AddColumn Views Tables Keys Objects Security Replication Alter Physical Extras TextSearch.

(** ** What is not modelled here *)
Class OtherRules : Type := {
  (** The rule of a kind that a module declares, with the prerequisites it records;
      [None] is an exception. *)
  plan_other : Intent -> Observations -> PlannerConfig -> option (Emitted * list json);
  (** A module's projection for a kind it declared, into its own reading. *)
  project_module : string -> Intent -> Observations -> Observations;
  (** The modules' guards: what they refuse and what they advise. *)
  plan_guards : Spec -> Observations -> json -> list string * list string;
  (** [compute_budget] as JSON. *)
  budget_json : Observations -> PlannerConfig -> json;
}.

(** ** What an intent leaves for the next: [project] *)
Definition planned_by (ordinal : Z) : string := "(planned by step " +:+ to_string ordinal +:+ ")".

(** [project_key_index]. *)
Definition project_key_index (name : string) (columns : list string) (primary without_overlaps : bool) (ordinal : Z)
    (t : TableObs) : TableObs :=
  match columns with
  | [] => t
  | c :: _ =>
      if String.eqb name "" then t
      else
        with_indexes
          (<[name := {| i_is_valid := true; i_is_unique := true; i_constraint_backed := true; i_leading_column := c;
                        i_columns := columns; i_key_column_count := Some (length columns);
                        i_column_order := (fun _ => "asc nulls last") <$> columns;
                        i_column_opclasses := (fun _ => "") <$> columns;
                        i_method := if without_overlaps then "gist" else "btree"; i_predicate := "";
                        i_options := Some []; i_has_expressions := false; i_is_primary := primary;
                        i_says_columns := true; i_definition := planned_by ordinal |}]>
             (t_indexes t)) t
  end.

Definition key_constraint (type : string) : ConstraintObs :=
  {| k_type := type; k_validated := true; k_depended_on_by := []; k_has_index := true; k_index := None;
     k_references := ""; k_column := None |}.

(** The index a [create_index] intent leaves. *)
Definition planned_index `{Vendors, Printing} (i : Intent) (ordinal : Z) : IndexObs :=
  let keys := index_columns (body i) in
  let cols := ic_name <$> keys in
  {| i_is_valid := true; i_is_unique := bbool i "unique" false; i_constraint_backed := false;
     i_leading_column := default "" (head (cols ++ bstrs i "include")); i_columns := cols ++ bstrs i "include";
     i_key_column_count := Some (length cols); i_column_order := index_order_terms keys;
     i_column_opclasses := ic_opclass <$> keys; i_method := bstr i "method" "btree";
     i_predicate := bstr i "where" ""; i_options := Some (index_options (body i));
     i_has_expressions := existsb (fun k => negb (String.eqb (ic_expression k) "")) keys;
     i_is_primary := false; i_says_columns := true; i_definition := planned_by ordinal |}.

(** [columns[c]["not_null"] = b], where a column that is not there is made. *)
Definition put_not_null (c : string) (b : bool) (cs : gmap string ColumnObs) : gmap string ColumnObs :=
  <[c := with_not_null b (default (plain_column "" false) (cs !! c))]> cs.

(** The object of a [create_table] intent, before its primary key. *)
Definition created_table (i : Intent) (cols : gmap string ColumnObs) : TableObs :=
  {| t_exists := true;
     t_kind := if contains (body i) "partition_by" then "partitioned_table" else "table";
     t_columns := cols; t_constraints := ∅; t_indexes := ∅; t_lock_waiters := 0; t_size_measured := None;
     t_size_estimate := 0; t_estimated_from := JNull; t_partitions := []; t_partition_key := "";
     t_partition_parts := []; t_blocked := None;
     t_reltuples := 0; t_referenced_by := []; t_row_security := (false, false); t_triggers := ∅; t_policies := ∅;
     t_dependent_views := ∅; t_reloptions := []; t_owner := "";
     t_default_partition := None; t_default_rows := None; t_detach_pending := [];
     t_is_partition := negb (String.eqb (bstr i "partition_of" "") "");
     t_partition_by := bstr i "partition_by" "" |}.

Definition declared_columns (i : Intent) : gmap string ColumnObs :=
  list_to_map (rev ((fun c => (text_at c "name",
    plain_column (text_at c "type")
      (negb (match value_bool c "nullable" true with Ok b => b | Err _ => true end))))
    <$> elements (at_key (body i) "columns"))).

Fixpoint remove_first (x : string) (l : list string) : list string :=
  match l with [] => [] | y :: l' => if String.eqb x y then l' else y :: remove_first x l' end.

(** Kinds that name an object in their own slot. What only [set_text_search_mapping]
    reads (mappings and dictionaries) is not kept; what the kinds that only touch
    policies, views' text and the like project is not read by the modelled rules and is
    left out. *)
Definition names_object (k : IntentKind) : bool :=
  match k with
  | kCreateSchema | kDropSchema | kAlterSchema | kCreateExtension | kDropExtension | kAlterExtension
  | kCreateType | kDropType | kAddEnumValue | kAlterDomain | kCreateFunction | kDropFunction | kAlterFunction
  | kCreateSequence | kDropSequence | kAlterSequence | kSetTextSearchMapping => true
  | _ => false
  end.

Definition put_object (key : string) (x : ObjectObs) (o : Observations) : Observations :=
  with_objects (<[key := x]> (o_objects o)) o.

Definition made_object (type_kind : string) (labels : list string) (returns : option string) (in_spec : bool) : ObjectObs :=
  {| ob_exists := true; ob_contains := []; ob_depended_on_by := []; ob_version := None; ob_available := None;
     ob_default_version := None; ob_type_kind := type_kind; ob_enum_labels := labels; ob_returns := returns;
     ob_created_in_spec := in_spec; ob_text_search := no_text_search |}.

Definition with_labels (labels : list string) (x : ObjectObs) : ObjectObs :=
  {| ob_exists := ob_exists x; ob_contains := ob_contains x; ob_depended_on_by := ob_depended_on_by x;
     ob_version := ob_version x; ob_available := ob_available x; ob_default_version := ob_default_version x;
     ob_type_kind := ob_type_kind x; ob_enum_labels := labels; ob_returns := ob_returns x;
     ob_created_in_spec := ob_created_in_spec x; ob_text_search := ob_text_search x |}.

Definition project_object (i : Intent) (o : Observations) : Observations :=
  let key := match object_key_for (fun _ _ => Ok "") i with Ok k => k | Err _ => "" end in
  match kind i with
  | kCreateSchema | kCreateSequence => put_object key (made_object "" [] None false) o
  | kCreateExtension => put_object key (made_object "" [] None true) o
  | kCreateType => put_object key (made_object (bstr i "type_kind" "") (bstrs i "labels") None false) o
  | kAddEnumValue =>
      match o_objects o !! key with
      | Some x => put_object key (with_labels (ob_enum_labels x ++ [bstr i "value" ""]) x) o
      | None => o
      end
  | kCreateFunction => put_object key (made_object "" [] (Some (bstr i "returns" "")) false) o
  | kDropSchema | kDropExtension | kDropType | kDropFunction | kDropSequence => put_object key no_object o
  | _ => o
  end.

(** A text search configuration made or dropped by the generic kinds. *)
Definition names_configuration (i : Intent) : bool :=
  match kind i with
  | kCreateObject | kDropObject => String.eqb (bstr i "object_type" "") "TEXT SEARCH CONFIGURATION"
  | _ => false
  end.

Definition project_configuration (i : Intent) (o : Observations) : Observations :=
  let name := bstr i "name" "" in
  let schema := bstr i "schema" "" in
  let name := if negb (String.eqb schema "") && negb (has_char "." name) then schema +:+ "." +:+ name else name in
  if has_char "." name
  then put_object ("tsconfig:" +:+ name)
         (if bool_decide (kind i = kCreateObject) then made_object "" [] None true else no_object) o
  else o.

Section Project.
Context `{Vendors, Printing, OtherRules}.

(** The switch on an intent whose table was read. *)
Definition project_table (i : Intent) (s : Step) (t : TableObs) (o : Observations) : Observations :=
  let qualified := in_qualified i in
  let put t' := with_tables (<[qualified := t']> (o_tables o)) o in
  let name := bstr i "name" "" in
  let column := bstr i "column" "" in
  let child := in_schema i +:+ "." +:+ bstr i "partition" "" in
  match kind i with
  | kModule m => project_module m i o
  | kAddColumn =>
      put (with_columns (<[column := plain_column (bstr i "type" "") (negb (bbool i "nullable" true))]>
                           (t_columns t)) t)
  | kCreateIndex => put (with_indexes (<[name := planned_index i (st_ordinal s)]> (t_indexes t)) t)
  | kDropIndex => put (with_indexes (delete name (t_indexes t)) t)
  | kSetNotNull => match t_columns t !! column with
                   | Some _ => put (with_columns (put_not_null column true (t_columns t)) t)
                   | None => o
                   end
  | kDropConstraint => put (with_constraints (delete name (t_constraints t)) t)
  | kAlterColumnType =>
      put (with_columns (<[column := with_type (bstr i "type" "") (default (plain_column "" false) (t_columns t !! column))]>
                           (t_columns t)) t)
  | kDropColumn => put (with_columns (delete column (t_columns t)) t)
  | kCreateTable =>
      let parent := bstr i "partition_of" "" in
      let from_parent := if String.eqb parent "" then None else o_tables o !! parent in
      let cols := match from_parent with Some p => t_columns p | None => declared_columns i end in
      let ts := match from_parent with
                | Some p =>
                    let p := with_partitions (t_partitions p ++ [qualified]) p in
                    <[parent := if bbool i "default" false then with_default_partition qualified 0 p else p]> (o_tables o)
                | None => o_tables o
                end in
      let made := created_table i cols in
      let made := if contains (body i) "primary_key"
                  then project_key_index (in_table i +:+ "_pkey") (bstrs i "primary_key") true
                         (bbool i "without_overlaps" false) (st_ordinal s) made
                  else made in
      with_tables (<[qualified := made]> ts) o
  | kDropTable | kDropView => put no_table
  | kRenameTable =>
      with_tables (delete qualified (<[in_schema i +:+ "." +:+ bstr i "to" "" := t]> (o_tables o))) o
  | kRenameColumn =>
      match t_columns t !! column with
      | Some c => put (with_columns (delete column (<[bstr i "to" "" := c]> (t_columns t))) t)
      | None => o
      end
  | kRenameConstraint =>
      match t_constraints t !! name with
      | Some c => put (with_constraints (delete name (<[bstr i "to" "" := c]> (t_constraints t))) t)
      | None => o
      end
  | kDropNotNull => put (with_columns (put_not_null column false (t_columns t)) t)
  | kCreateTableAs =>
      put (with_exists true "table" no_table)
  | kAttachPartition => put (with_partitions (t_partitions t ++ [child]) t)
  | kDetachPartition => put (with_partitions (remove_first child (t_partitions t)) t)
  | kAddUniqueConstraint | kAddPrimaryKey =>
      let primary := bool_decide (kind i = kAddPrimaryKey) in
      let t := with_constraints (<[name := key_constraint (if primary then "p" else "u")]> (t_constraints t)) t in
      let t := if primary
               then with_columns (foldl (fun cs c => put_not_null c true cs) (t_columns t) (bstrs i "columns")) t
               else t in
      put (project_key_index name (bstrs i "columns") primary (bbool i "without_overlaps" false) (st_ordinal s) t)
  | kReplaceView =>
      let v := in_schema i +:+ "." +:+ name in
      let before := default no_table (o_tables o !! v) in
      with_tables (<[v := with_exists true (if String.eqb (t_kind before) "" then "view" else t_kind before) before]>
                     (o_tables o)) o
  | kCreateMaterializedView =>
      with_tables (<[in_schema i +:+ "." +:+ name := with_exists true "materialized_view" no_table]> (o_tables o)) o
  | kAddExclusionConstraint => put (with_constraints (<[name := key_constraint "x"]> (t_constraints t)) t)
  | kCreateTrigger => put (with_triggers (<[name := true]> (t_triggers t)) t)
  | kDropTrigger => put (with_triggers (delete name (t_triggers t)) t)
  | kSetTriggerState => put (with_triggers (<[bstr i "trigger" "" := bbool i "enabled" false]> (t_triggers t)) t)
  | kCreatePolicy => put (with_policies ({[name]} ∪ t_policies t) t)
  | kDropPolicy => put (with_policies (t_policies t ∖ {[name]}) t)
  | kSetRowSecurity => put (with_row_security (bbool i "enabled" false) (bbool i "force" false) t)
  | _ => o
  end.

(** [project]. *)
Definition project (i : Intent) (s : Step) (o : Observations) : Observations :=
  if negb (bool_decide (st_action s = kApply)) then o
  else if names_configuration i then project_configuration i o
  else if names_object (kind i) then project_object i o
  else if String.eqb (in_table i) "" then
    match kind i with kModule m => project_module m i o | _ => o end
  else
    match o_tables o !! in_qualified i with
    | None => o
    | Some t => project_table i s t o
    end.

End Project.

(** ** What is done to every step *)

(** The tables a kind locks, in [take_weaker_lock_first]. *)
Definition locked_tables (i : Intent) : list string :=
  let qualified := in_qualified i in
  let child := in_schema i +:+ "." +:+ bstr i "partition" "" in
  match kind i with
  | kAddColumn | kDropColumn | kAlterColumnType | kDropConstraint | kRenameTable | kRenameColumn
  | kRenameConstraint | kDropTable | kCreateTrigger | kDropTrigger | kSetTriggerState | kSetRowSecurity
  | kCreatePolicy | kAlterPolicy | kDropPolicy | kAlterColumnDefault | kDropNotNull | kSetIdentity
  | kDropExpression | kSetColumnOptions | kSetLogged | kSetTablespace | kSetAccessMethod
  | kSetReplicaIdentity | kCreateRule | kDropRule | kSetOwner | kAddPrimaryKey | kAddUniqueConstraint
  | kAddExclusionConstraint | kAddCheckConstraint | kAddForeignKey | kSetNotNull | kCreateIndex | kDropIndex =>
      [qualified]
  | kAttachPartition => [child]
  | kDetachPartition => [qualified; child]
  | kCreateTable => match at_key (body i) "partition_of" with
                    | JStr p => if contains (body i) "partition_of" then [p] else []
                    | _ => []
                    end
  | _ => []
  end.

Definition lockable (o : Observations) (q : string) : bool :=
  let t := table_obs o q in
  t_exists t && (String.eqb (t_kind t) "table" || String.eqb (t_kind t) "partitioned_table").

(** A step of [take_weaker_lock_first]'s loop that gets the weaker lock. *)
Definition wants_weaker_lock (s : Step) : bool :=
  bool_decide (st_action s = kApply) && match st_sql s with [] => false | _ => true end
  && (bool_decide (st_class s = kRequired) || bool_decide (st_class s = kOptional))
  && negb (detail_flag "exclusive_retry" s)
  && (has_sub "AccessExclusiveLock" (st_lock s) || has_sub "ShareRowExclusiveLock" (st_lock s)
      || has_sub "ShareLock" (st_lock s))
  && negb (existsb (fun q => has_sub "VALIDATE CONSTRAINT" (render q)) (st_sql s))
  && negb (match st_sql s with q :: _ => String.prefix "ALTER INDEX " (render q) | [] => false end).

Definition take_weaker_lock_first (i : Intent) (o : Observations) (ss : list Step) : list Step :=
  match List.filter (lockable o) (locked_tables i) with
  | [] => ss
  | rels => (fun s => if wants_weaker_lock s then weaker_lock_first rels s else s) <$> ss
  end.

Definition has_detail (k : string) (s : Step) : bool :=
  match obj_find k (st_detail s) with Some _ => true | None => false end.

(** [lift_statement_timeout]. *)
Definition lift_statement_timeout (s : Step) : Step :=
  if bool_decide (st_action s = kApply) && negb (bool_decide (st_class s = kForbidden))
     && has_detail "not_rehearsed" s && negb (String.eqb (detail_text "not_rehearsed" s) needs_the_scan_text)
  then set_detail "no_statement_timeout" (JBool true) s else s.

(** A statement on the empty copy, with the relation it is a copy of:
    [check_definitions_on_empty_copy]'s rewriting of one statement. *)
Definition erase_at (n len : nat) (s : string) : string := String.substring 0 n s +:+ skip (n + len) s.

Definition index_on_copy (stmt : string) : string :=
  match String.index 0 " CONCURRENTLY " stmt, String.index 0 " ON " stmt with
  | Some c, Some on => if Nat.ltb c on then erase_at c (String.length " CONCURRENTLY") stmt else stmt
  | Some c, None => erase_at c (String.length " CONCURRENTLY") stmt
  | None, _ => stmt
  end.

Definition copy_target (at_ : nat) (s : string) : nat :=
  if String.prefix "ONLY " (skip at_ s) then (at_ + 5)%nat else at_.

Definition statement_on_copy (stmt : string) : option (string * string) :=
  let replaced target s :=
    let rel := quoted_relation_at (skip target s) in
    if String.eqb rel "" then None
    else Some (rel, String.substring 0 target s +:+ kEmptyCopy +:+ skip (target + String.length rel) s) in
  if String.prefix "CREATE INDEX " stmt || String.prefix "CREATE UNIQUE INDEX " stmt then
    let s := index_on_copy stmt in
    on ← String.index 0 " ON " s;
    replaced (copy_target (on + 4) s) s
  else if String.prefix "ALTER TABLE " stmt && has_sub " ADD CONSTRAINT " stmt && negb (has_sub " USING INDEX " stmt)
  then replaced (copy_target 12 stmt) stmt
  else None.

Definition checks_on_copy (s : Step) : Step :=
  if bool_decide (st_action s = kApply) && negb (has_detail "rehearse_on_copy" s)
     && (bool_decide (st_class s = kForbidden)
         || has_detail "not_rehearsed" s && detail_flag "not_rehearsed_leaves_gap" s)
  then foldl (fun s q => match statement_on_copy (render q) with
                         | Some (rel, sql) => check_on_empty_copy rel sql s
                         | None => s
                         end) s (st_sql s)
  else s.

Definition check_definitions_on_empty_copy (i : Intent) (ss : list Step) : list Step :=
  match kind i with
  | kCreateIndex | kAddUniqueConstraint | kAddPrimaryKey | kAddExclusionConstraint => checks_on_copy <$> ss
  | _ => ss
  end.

(** What a creation comment is on. *)
Definition comment_target (i : Intent) : option string :=
  let name := quote_identifier (bstr i "name" "") in
  let on_table := " ON " +:+ quote_qualified (in_qualified i) in
  match kind i with
  | kAddForeignKey | kAddCheckConstraint | kAddUniqueConstraint | kAddPrimaryKey | kAddExclusionConstraint =>
      Some ("CONSTRAINT " +:+ name +:+ on_table)
  | kCreateTrigger => Some ("TRIGGER " +:+ name +:+ on_table)
  | kCreatePolicy => Some ("POLICY " +:+ name +:+ on_table)
  | kCreateRule => Some ("RULE " +:+ name +:+ on_table)
  | kCreateExtension => Some ("EXTENSION " +:+ name)
  | kCreatePublication => Some ("PUBLICATION " +:+ name)
  | kCreateSubscription => Some ("SUBSCRIPTION " +:+ name)
  | _ => None
  end.

Definition runs_sql (s : Step) : bool :=
  bool_decide (st_action s = kApply) && match st_sql s with [] => false | _ => true end.

(** The last step that runs something, changed by [f]; the steps reversed. *)
Fixpoint on_last_run (f : Step -> Step) (rs : list Step) : list Step :=
  match rs with
  | [] => []
  | s :: rs' => if runs_sql s then f s :: rs' else s :: on_last_run f rs'
  end.

(** [append_creation_comment]. *)
Definition append_creation_comment (i : Intent) (ss : list Step) : list Step :=
  if negb (contains (body i) "comment") then ss
  else
    match comment_target i with
    | None => ss
    | Some target =>
        rev (on_last_run (fun s => with_sql (st_sql s ++ [CommentOn target (bstr i "comment" "")]) s) (rev ss))
    end.

(** The operations that use maintenance_work_mem, as the text tells them. *)
Definition uses_maintenance_memory (s : Step) : bool :=
  let sql := join " " (render <$> st_sql s) in
  has_sub "CREATE INDEX" sql || has_sub "CREATE UNIQUE INDEX" sql || has_sub "VALIDATE CONSTRAINT" sql
  || has_sub " FOREIGN KEY " sql && negb (has_sub " NOT VALID;" sql) || has_sub "ALTER COLUMN" sql.

Definition mark_memory (maintenance_mb : Z) (s : Step) : Step :=
  if (0 <? maintenance_mb) && bool_decide (st_action s = kApply) && uses_maintenance_memory s then
    let s := set_detail "maintenance_work_mem_mb" (JInt maintenance_mb) s in
    with_why (st_why s +:+ "; maintenance_work_mem raised to " +:+ to_string maintenance_mb
              +:+ "MB for this step (the configured ceiling divided by max_concurrent_jobs)") s
  else s.

(** ** Steps into transactions *)

(** [group], [previous] and [first]. *)
Record Grouping : Type := { g_group : Z; g_previous : TxnClass; g_first : bool }.

Definition grouping_start : Grouping := {| g_group := 1; g_previous := kRequired; g_first := true |}.

(** A class that commits by itself. *)
Definition apart (c : TxnClass) : bool :=
  match c with kForbidden | kOwnTxnPerBatch => true | _ => false end.

Definition boundary_before (g : Grouping) (s : Step) : bool :=
  st_own s || apart (st_class s) || apart (g_previous g).

Definition place (g : Grouping) (ordinal : Z) (s : Step) : Step * Grouping :=
  let group := if negb (g_first g) && boundary_before g s then g_group g + 1 else g_group g in
  (with_place ordinal group s, {| g_group := group; g_previous := st_class s; g_first := false |}).

Fixpoint place_all (g : Grouping) (ordinal : Z) (ss : list Step) : list Step * Grouping :=
  match ss with
  | [] => ([], g)
  | s :: ss' =>
      let '(s, g) := place g ordinal s in
      let '(ss', g) := place_all g (ordinal + 1) ss' in (s :: ss', g)
  end.

(** The concurrent builds a check is put after: those of steps of kind create_index.
    The builds of a unique constraint, a primary key or an index over partitions have
    other kinds, and none. *)
Definition builds_concurrently (s : Step) : bool :=
  String.eqb (st_kind s) "create_index" && bool_decide (st_action s = kApply) && bool_decide (st_class s = kForbidden).

Definition verification_of (s : Step) : Step :=
  with_place 0 (st_group s)
    (verify_step (detail_text "schema" s) (detail_text "index" s)
       "a concurrent build can return without error and leave an invalid index").

Definition with_verification (ss : list Step) : list Step :=
  concat ((fun s => if builds_concurrently s then [s; verification_of s] else [s]) <$> ss).

Definition renumber (ss : list Step) : list Step :=
  imap (fun n s => with_place (Z.of_nat n) (st_group s) s) ss.

(** ** [plan_migration] *)

(** The locals of the loop. *)
Record Planning : Type := {
  p_projected : Observations;
  p_planned_with : gmap Z Z;
  p_grouping : Grouping;
  p_steps : list Step;
  p_warnings : list string;
  p_conflicts : list string;
  p_prerequisites : list json;
}.

Section Migration.
Context `{Vendors, Printing, OtherRules}.

(** The columns of a group after the first, as later intents see them. *)
Definition project_group (lead : Intent) (others : list Intent) (o : Observations) : Observations :=
  foldl (fun o g =>
           let q := in_qualified lead in
           let t := default no_table (o_tables o !! q) in
           with_tables (<[q := with_columns (<[bstr g "column" "" :=
             plain_column (bstr g "type" "") true]> (t_columns t)) t]> (o_tables o)) o)
        o others.

(** The switch on the kind: what is emitted, which ordinals it plans, and the
    projection of the columns planned with it. *)
Definition dispatch (cfg : PlannerConfig) (p : Planning) (i : Intent) (rest : list Intent) :
  option (Emitted * list json * gmap Z Z * Observations) :=
  let o := p_projected p in
  let plain e := Some (e, [], p_planned_with p, o) in
  match kind i with
  | kAddColumn =>
      match p_planned_with p !! ordinal i with
      | Some lead =>
          plain (satisfied i ("planned together with intent " +:+ to_string lead +:+ ": " +:+ bstr i "column" ""
                              +:+ " is added and filled by that intent's steps, in one walk of the table for all of them"))
      | None =>
          match filled_column_group i rest with
          | (lead :: (_ :: _) as others) as group =>
              e ← (if defaulted lead then plan_add_columns_defaulted group o cfg
                   else Some (plan_add_columns_filled group o cfg));
              let applies := existsb (fun s => bool_decide (st_action s = kApply)) (e_steps e) in
              Some (e, [], foldl (fun m g => <[ordinal g := ordinal i]> m) (p_planned_with p) others,
                    if applies then project_group i others o else o)
          | _ => e ← plan_add_column i o cfg; plain e
          end
      end
  | kCreateIndex => e ← plan_create_index i o cfg; plain e
  | kDropIndex => plain (plan_drop_index i o)
  | kSetNotNull => plain (plan_set_not_null i o)
  | kAddForeignKey => plain (plan_add_foreign_key i o)
  | kAddCheckConstraint => plain (plan_add_check_constraint i o)
  | kDropConstraint => plain (plan_drop_constraint i o)
  | kAlterColumnType => plain (plan_alter_column_type i o)
  | kDropColumn => plain (plan_drop_column i o)
  | kReplaceView => plain (plan_replace_view i o)
  | kCreateTable => plain (plan_create_table i o)
  | kDropTable => plain (plan_drop_table i o)
  | kRenameTable | kRenameColumn | kRenameConstraint => plain (plan_rename i o)
  | kAttachPartition => plain (plan_attach_partition i o)
  | kDetachPartition => plain (plan_detach_partition i o)
  | kAddUniqueConstraint | kAddPrimaryKey => plain (plan_unique_like i o)
  | kAddExclusionConstraint => plain (plan_add_exclusion_constraint i o)
  | kCreateSchema | kDropSchema | kCreateExtension | kDropExtension | kCreateType | kDropType | kAddEnumValue
  | kCreateFunction | kDropFunction | kCreateSequence | kDropSequence | kDropView =>
      '(e, pre) ← plan_object i o; Some (e, pre, p_planned_with p, o)
  | kCreateTrigger | kDropTrigger | kSetRowSecurity | kCreatePolicy | kDropPolicy | kSetTriggerState | kGrant | kRevoke =>
      plain (plan_security i o)
  | kBackfill => plain (plan_backfill i o cfg)
  | kInsertRows => plain (plan_insert_rows i o cfg)
  | kUpdateRows => plain (plan_update_rows i o cfg)
  | kDeleteRows => plain (plan_delete_rows i o cfg)
  | kMergeRows => plain (plan_merge_rows i o cfg)
  | kCopyRows => plain (plan_copy_rows i o cfg)
  | kSetTextSearchMapping => plain (plan_set_text_search_mapping i o)
  | kCreateObject | kDropObject => e ← plan_generic_object i; plain e
  | kAlterColumnDefault | kDropNotNull | kAlterSequence | kAlterSchema | kAlterExtension | kAlterDomain
  | kAlterFunction | kAlterView | kAlterPolicy | kSetComment | kSetOwner => e ← plan_alter_misc i o; plain e
  | kSetIdentity | kDropExpression | kSetColumnOptions | kSetTableOptions | kSetLogged | kSetTablespace
  | kSetAccessMethod | kSetReplicaIdentity | kClusterOn =>
      let '(e, pre) := plan_physical i o in Some (e, pre, p_planned_with p, o)
  | kCreateMaterializedView | kCreateStatistics | kCreateRule | kDropRule | kDropStatistics =>
      e ← plan_relation_extras i o; plain e
  | kCreatePublication | kAlterPublication | kDropPublication | kCreateSubscription | kAlterSubscription
  | kDropSubscription => '(e, pre) ← plan_replication i; Some (e, pre, p_planned_with p, o)
  | kAlterObject | kCreateTableAs | kImportForeignSchema | kSecurityLabel | kAlterDefaultPrivileges =>
      '(e, pre) ← plan_final_kinds i o; Some (e, pre, p_planned_with p, o)
  | kModule _ => '(e, pre) ← plan_other i o cfg; Some (e, pre, p_planned_with p, o)
  end.

(** What every intent's steps go through before they are placed. *)
Definition finish_steps (i : Intent) (o : Observations) (ss : list Step) : list Step :=
  append_creation_comment i
    (lift_statement_timeout <$> check_definitions_on_empty_copy i (take_weaker_lock_first i o ss)).

Definition plan_intent (cfg : PlannerConfig) (maintenance_mb : Z) (p : Planning) (i : Intent) (rest : list Intent) :
  option Planning :=
  '(e, pre, planned, o) ← dispatch cfg p i rest;
  let emitted := finish_steps i o (e_steps e) in
  let o := match emitted with s :: _ => project i s o | [] => o end in
  let '(placed, g) := place_all (p_grouping p) (Z.of_nat (length (p_steps p))) (mark_memory maintenance_mb <$> emitted) in
  Some {| p_projected := o; p_planned_with := planned; p_grouping := g; p_steps := p_steps p ++ placed;
          p_warnings := p_warnings p ++ e_warnings e; p_conflicts := p_conflicts p ++ e_conflicts e;
          p_prerequisites := p_prerequisites p ++ pre |}.

Fixpoint plan_intents (cfg : PlannerConfig) (maintenance_mb : Z) (p : Planning) (l : list Intent) : option Planning :=
  match l with
  | [] => Some p
  | i :: rest => p ← plan_intent cfg maintenance_mb p i rest; plan_intents cfg maintenance_mb p rest
  end.

Definition planning_start (o : Observations) : Planning :=
  {| p_projected := o; p_planned_with := ∅; p_grouping := grouping_start; p_steps := []; p_warnings := [];
     p_conflicts := []; p_prerequisites := [] |}.

Definition unread_module_text (m error : string) : string :=
  "the " +:+ m +:+ " module could not read this database, so nothing is planned: without that reading a table the extension manages would be planned as an ordinary one. The server said: "
  +:+ error +:+ ". This is about the role or the extension's state, not about the specification -- a role lacking USAGE on one of the extension's schemas, or an extension release older than the module supports, are the usual causes.".

Definition standby_text : string :=
  "this connection is a standby (pg_is_in_recovery() is true); pg_laswell will not apply a migration to a replica".

(** The refusals before any step is planned, with the guards' advisories. *)
Definition refusals (spec : Spec) (o : Observations) (cfg : PlannerConfig) : list string * list string :=
  if (0 <? min_server_version spec) && (0 <? o_server_version o) && (o_server_version o <? min_server_version spec)
  then (["the spec requires server version " +:+ to_string (min_server_version spec) +:+ " and this server is "
         +:+ to_string (o_server_version o)], [])
  else if o_is_in_recovery o then ([standby_text], [])
  else
    let '(refused, advised) := plan_guards spec o (budget_json o cfg) in
    match refused ++ ((fun me => unread_module_text me.1 me.2) <$> o_extension_errors o) with
    | [] => (match omap (fun i => t_blocked (table_obs o (in_qualified i))) (intents spec) with
             | r :: _ => [r]
             | [] => []
             end, advised)
    | rs => (rs, advised)
    end.

(** [plan_migration]; [None] is an exception of a rule. *)
Definition plan_migration (spec : Spec) (o : Observations) (cfg : PlannerConfig) : option Plan :=
  let '(refused, advised) := refusals spec o cfg in
  let plan steps_ ws cs pre :=
    {| ok := match cs with [] => true | _ => false end; plan_spec_id := id spec; plan_spec_digest := digest spec;
       steps := steps_; warnings := ws; advisories := advised; conflicts := cs; prerequisites := pre;
       budget := budget_json o cfg |} in
  match refused with
  | _ :: _ => Some (plan [] [] refused [])
  | [] =>
      p ← plan_intents cfg (per_step_mb (work_mem o cfg)) (planning_start o) (intents spec);
      Some (plan (renumber (with_verification (p_steps p))) (p_warnings p) (p_conflicts p) (p_prerequisites p))
  end.

End Migration.
