(* ===== verification/IntentFacts.v ===== *)
(** * IntentFacts: what an accepted body is (src/cpp/src/spec.h)

    The body checks of [Intents] against what the rest of the tool takes for
    granted: the names that become lock keys, observations and quoted identifiers
    are identifiers, rows have as many cells as there are columns, and the keys a
    job locks can be read. *)
From S2P Require Import Prelude Json Canonical Spec SpecFacts Quote Plan Planner Intents VendorKinds.

(** ** The checks, inverted *)
Lemma each_Ok {A} (f : A -> result spec_error unit) l u :
  each f l = Ok u <-> Forall (fun x => f x = Ok tt) l.
Proof.
  destruct u. induction l as [|x l IH]; simpl; [by split|]. rewrite bind_Ok, Forall_cons, <- IH. split.
  - by intros ([] & ? & ?).
  - intros [Hx Hl]. by exists tt.
Qed.

Definition is_identifier (v : json) : Prop := exists s, v = JStr s /\ require_identifier s = Ok tt.

Lemma require_string_Ok b k s : require_string b k = Ok s -> at_key b k = JStr s /\ s <> "".
Proof.
  unfold require_string. destruct (at_key b k); try discriminate.
  destruct (String.eqb_spec s0 ""); [discriminate|]. by intros [= ->].
Qed.

Lemma identifier_at_Ok b k u : identifier_at b k = Ok u -> is_identifier (at_key b k).
Proof. intros H. unfold identifier_at in H. ok_inv. destruct u. apply require_string_Ok in H as [-> _]. by eexists. Qed.

Lemma identifiers_at_Ok b ks u : identifiers_at b ks = Ok u -> Forall (fun k => is_identifier (at_key b k)) ks.
Proof. intros H%each_Ok. eapply Forall_impl; [exact H|]. intros k. apply identifier_at_Ok. Qed.

Lemma text_at_Ok b k u : text_at b k = Ok u -> exists s, at_key b k = JStr s.
Proof. intros H. unfold text_at in H. ok_inv. eexists. by eapply require_string_Ok. Qed.

Lemma rejected_absent b ks u k :
  reject_unknown_keys b ks = Ok u -> existsb (String.eqb k) ks = false -> contains b k = false.
Proof.
  unfold reject_unknown_keys. destruct (List.find _ _) eqn:Hf; [done|]. intros _ Hk.
  destruct (contains b k) eqn:Hc; [|done]. destruct b; try discriminate. simpl in Hc.
  destruct (obj_find k l) as [v|] eqn:Ho; [|done]. apply obj_find_Some_in in Ho.
  apply List.find_none with (x := k) in Hf; [by rewrite Hk in Hf|]. apply list_elem_of_In, list_elem_of_fmap. by exists (k, v).
Qed.

Lemma identifier_named b ks u k :
  identifiers_at b ks = Ok u -> existsb (String.eqb k) ks = true -> is_identifier (at_key b k).
Proof.
  intros H%identifiers_at_Ok Hk. apply List.existsb_exists in Hk as (k' & Hin & ->%String.eqb_eq).
  rewrite Forall_forall in H. by apply H, list_elem_of_In.
Qed.

Lemma non_empty_array_Ok b k l : non_empty_array b k = Ok l -> at_key b k = JArr l /\ l <> [].
Proof. unfold non_empty_array. destruct (at_key b k) as [| | | | | |[|x l']| | |]; try discriminate. by intros [= <-]. Qed.

(** ** What a body's own names are *)

(** A module's kind that is accepted is one of the generated ones. *)
Lemma vendor_parse_Ok m b n u : vendor_parse m b n = Ok u -> exists parse, (m, parse) ∈ vendor_kinds /\ parse b = Ok u.
Proof.
  unfold vendor_parse. destruct (List.find _ _) as [[m' parse]|] eqn:Hf; [|done].
  apply List.find_some in Hf as [Hin Heq]. apply String.eqb_eq in Heq as ->. intros Hp. exists parse.
  split; [by apply list_elem_of_In|done].
Qed.

(** One goal per kind of the modules, with its parser taken apart. *)
Ltac vendor_inv H :=
  cbn [parse_core parse_module vendor_bodies] in H; apply vendor_parse_Ok in H as (parse & Hin & H);
  unfold vendor_kinds in Hin; repeat (apply elem_of_cons in Hin as [[= -> ->]|Hin]); [..|by apply not_elem_of_nil in Hin];
  unfold parse_citus_distribute_table, parse_citus_create_reference_table, parse_citus_distribute_function,
    parse_citus_alter_distributed_table, parse_citus_undistribute_table, parse_citus_add_local_table_to_metadata,
    parse_citus_truncate_local_data, parse_citus_add_node, parse_citus_remove_node, parse_citus_set_coordinator_host,
    parse_citus_set_node_property, parse_citus_drain_node, parse_citus_rebalance_shards, parse_citus_ensure_workers,
    parse_citus_disable_node, parse_citus_activate_node, parse_citus_update_table_statistics, parse_pg_cron_schedule,
    parse_pg_cron_unschedule, parse_timescaledb_create_hypertable, parse_timescaledb_set_chunk_time_interval,
    parse_timescaledb_set_columnstore, parse_timescaledb_add_columnstore_policy,
    parse_timescaledb_remove_columnstore_policy, parse_timescaledb_add_retention_policy,
    parse_timescaledb_remove_retention_policy, parse_timescaledb_create_continuous_aggregate,
    parse_timescaledb_add_continuous_aggregate_policy, ts_require_table in H; ok_inv.

Definition vendor_identifier_keys : list (string * list string) :=
  [("citus_distribute_table", ["schema"; "table"; "distribution_column"]);
   ("citus_create_reference_table", ["schema"; "table"]); ("citus_distribute_function", ["schema"; "name"]);
   ("citus_alter_distributed_table", ["schema"; "table"]); ("citus_undistribute_table", ["schema"; "table"]);
   ("citus_add_local_table_to_metadata", ["schema"; "table"]); ("citus_truncate_local_data", ["schema"; "table"]);
   ("citus_update_table_statistics", ["schema"; "table"]);
   ("timescaledb_create_hypertable", ["schema"; "table"; "time_column"]);
   ("timescaledb_set_chunk_time_interval", ["schema"; "table"]); ("timescaledb_set_columnstore", ["schema"; "table"]);
   ("timescaledb_add_columnstore_policy", ["schema"; "table"]);
   ("timescaledb_remove_columnstore_policy", ["schema"; "table"]);
   ("timescaledb_add_retention_policy", ["schema"; "table"]);
   ("timescaledb_remove_retention_policy", ["schema"; "table"]);
   ("timescaledb_create_continuous_aggregate", ["schema"; "name"]);
   ("timescaledb_add_continuous_aggregate_policy", ["schema"; "name"])].

(** The keys whose values have to be identifiers in every body of the kind. *)
Definition identifier_keys (k : IntentKind) : list string :=
  match k with
  | kAddColumn | kSetNotNull | kAlterColumnType | kDropColumn | kAlterColumnDefault | kDropNotNull | kDropExpression
  | kSetIdentity | kSetColumnOptions => ["schema"; "table"; "column"]
  | kBackfill => ["schema"; "table"; "key"]
  | kCreateIndex | kDropIndex | kAddCheckConstraint | kDropConstraint | kAddUniqueConstraint | kAddPrimaryKey
  | kAddExclusionConstraint | kCreatePolicy | kDropPolicy | kAlterPolicy | kCreateTrigger | kDropTrigger | kCreateRule
  | kDropRule | kCreateStatistics => ["schema"; "table"; "name"]
  | kAddForeignKey => ["schema"; "table"; "name"; "references_schema"; "references_table"]
  | kAttachPartition | kDetachPartition => ["schema"; "table"; "partition"]
  | kRenameTable => ["schema"; "table"; "to"]
  | kRenameColumn => ["schema"; "table"; "to"; "column"]
  | kRenameConstraint => ["schema"; "table"; "to"; "name"]
  | kCreateTable | kDropTable | kCreateTableAs | kDeleteRows | kInsertRows | kUpdateRows | kMergeRows | kCopyRows
  | kSetRowSecurity | kSetTableOptions | kSetLogged | kSetReplicaIdentity | kClusterOn => ["schema"; "table"]
  | kSetTablespace => ["schema"; "table"; "tablespace"]
  | kSetAccessMethod => ["schema"; "table"; "method"]
  | kSetTriggerState => ["schema"; "table"; "trigger"]
  | kReplaceView | kDropView | kAlterView | kCreateMaterializedView | kCreateType | kDropType | kAddEnumValue
  | kAlterDomain | kCreateFunction | kDropFunction | kAlterFunction | kCreateSequence | kDropSequence | kAlterSequence
  | kDropStatistics | kSetTextSearchMapping => ["schema"; "name"]
  | kCreateSchema | kDropSchema | kAlterSchema => ["schema"]
  | kCreateExtension | kDropExtension | kAlterExtension | kSetComment | kCreatePublication | kAlterPublication
  | kDropPublication | kCreateSubscription | kAlterSubscription | kDropSubscription => ["name"]
  | kSetOwner => ["name"; "owner"]
  | kImportForeignSchema => ["server"; "remote_schema"; "schema"]
  | kGrant | kRevoke | kCreateObject | kDropObject | kAlterObject | kSecurityLabel | kAlterDefaultPrivileges => []
  | kModule m => match List.find (fun p => String.eqb m p.1) vendor_identifier_keys with Some p => p.2 | None => [] end
  end.

(** Every parser of a core kind, unfolded in [H] and taken apart. *)
Ltac parse_inv H :=
  cbn [parse_core] in H;
  unfold parse_add_column, parse_set_not_null, parse_alter_column_type, parse_alter_column_default,
    parse_drop_not_null, parse_drop_column, parse_set_identity, parse_set_column_options, parse_create_index,
    parse_drop_index, parse_add_foreign_key, parse_add_exclusion_constraint, parse_add_check_constraint,
    parse_unique_like, parse_drop_constraint, parse_create_table, parse_drop_table, parse_rename,
    parse_attach_partition, parse_detach_partition, parse_create_table_as, parse_set_table_options, parse_set_logged,
    parse_set_tablespace, parse_set_access_method, parse_set_replica_identity, parse_cluster_on, parse_replace_view,
    parse_create_matview, parse_alter_view, parse_create_statistics, parse_create_rule, parse_drop_rule,
    parse_schema_like, parse_alter_schema, parse_create_extension, parse_drop_extension, parse_alter_extension,
    parse_named_object, parse_create_type, parse_add_enum_value, parse_alter_domain, parse_create_function,
    parse_drop_function, parse_alter_function, parse_create_trigger, parse_drop_trigger, parse_set_trigger_state,
    parse_create_sequence, parse_alter_sequence, parse_set_text_search_mapping, parse_set_row_security,
    parse_create_policy, parse_drop_policy, parse_alter_policy, parse_set_comment, parse_set_owner,
    parse_import_foreign_schema, parse_replication_name, parse_publication, parse_subscription, parse_backfill,
    parse_delete_rows, parse_insert_rows, parse_update_rows, parse_merge_rows, parse_copy_rows in H;
  cbn [app String.eqb Ascii.eqb Bool.eqb] in H; ok_inv.

Ltac name_keys :=
  try (eapply identifiers_at_Ok; eassumption);
  repeat apply Forall_cons_2; try apply Forall_nil_2;
  try (eapply identifier_at_Ok; eassumption);
  try (eapply identifier_named; [eassumption|reflexivity]).

Lemma names_checked k b n u :
  parse_core k b n = Ok u -> Forall (fun key => is_identifier (at_key b key)) (identifier_keys k).
Proof.
  intros Hp. destruct k; cbn [identifier_keys]; try apply Forall_nil_2; [parse_inv Hp; name_keys..|].
  vendor_inv Hp; cbn [List.find vendor_identifier_keys fst snd String.eqb Ascii.eqb Bool.eqb]; name_keys.
Qed.

(** What [parse_spec] keeps of an intent was checked. *)
Lemma parsed_intents_checked `{Modules, Bodies} l n is_ i :
  parse_intents n l = Ok is_ -> i ∈ is_ ->
  is_object (body i) = true /\ parse_body (kind i) (body i) (ordinal i) = Ok tt.
Proof.
  revert n is_. induction l as [|b l IH]; intros n is_; cbn [parse_intents].
  { intros [= <-] Hi. by apply not_elem_of_nil in Hi. }
  destruct (is_object b) eqn:Hb; cbn [negb]; [|done]. intros Hp. ok_inv.
  destruct (find_kind _ _) as [k|]; [|done]. ok_inv.
  match goal with Hi : i ∈ _ |- _ => idtac | |- _ -> _ => intros Hi end.
  apply elem_of_cons in Hi as [->|Hi]; [|by eapply IH].
  cbn. split; [done|]. by match goal with u : unit |- _ => destruct u end.
Qed.

Lemma parsed_spec_checked `{Modules, Bodies} sha256 doc s i :
  parse_spec sha256 doc = Ok s -> i ∈ intents s ->
  is_object (body i) = true /\ parse_body (kind i) (body i) (ordinal i) = Ok tt.
Proof.
  unfold parse_spec. destruct (negb _); [done|]. intros Hp Hi. ok_inv. cbn in Hi.
  destruct (at_key doc "intents") as [| | | | | |[|first rest]| | |]; try done. by eapply parsed_intents_checked.
Qed.

Lemma bstr_identifier i k : is_identifier (at_key (body i) k) -> require_identifier (bstr i k "") = Ok tt.
Proof.
  intros (s & Hs & Hi). unfold bstr, value_str, at_key in *. destruct (body i); try discriminate.
  destruct (obj_find k l) as [v|]; cbn in Hs; [|discriminate]. by subst v.
Qed.

(** ** Keys that can be read *)

(** [in.body.value(k, "")] does not throw. *)
Definition readable (b : json) (k : string) : Prop := exists s, str b k = Ok s.

Lemma absent_readable b k : is_object b = true -> contains b k = false -> readable b k.
Proof.
  unfold readable, str, value_str. destruct b; try discriminate. intros _. simpl.
  destruct (obj_find k l); [discriminate|]. by exists "".
Qed.

Lemma text_readable b k s : at_key b k = JStr s -> readable b k.
Proof.
  unfold readable, str, value_str. destruct b; try discriminate. simpl.
  destruct (obj_find k l) as [v|]; [|discriminate]. simpl. intros ->. by exists s.
Qed.

Lemma identifier_readable b k : is_identifier (at_key b k) -> readable b k.
Proof. intros (s & Hs & _). by eapply text_readable. Qed.

Lemma required_text_readable b k u : pg_cron_require_text b k true = Ok u -> readable b k.
Proof.
  unfold pg_cron_require_text. destruct (contains b k); cbn [negb]; intros H; ok_inv; [|discriminate].
  destruct (at_key b k) eqn:Hk; try discriminate. by eapply text_readable.
Qed.

(** The kinds of which some body has a name that nothing checks. *)
Definition unchecked_names (k : IntentKind) : bool :=
  match k with
  | kSetComment | kSetOwner | kCreateObject | kDropObject | kAlterObject | kSecurityLabel | kAlterExtension | kGrant
  | kRevoke | kAlterDefaultPrivileges => true
  | _ => false
  end.

Ltac read_key :=
  first
    [ eapply absent_readable; [assumption|eapply rejected_absent; [eassumption|reflexivity]]
    | eapply identifier_readable, identifier_named; [eassumption|reflexivity]
    | eapply identifier_readable, identifier_at_Ok; eassumption
    | match goal with Ht : text_at ?b ?k = Ok _ |- readable ?b ?k =>
        destruct (text_at_Ok _ _ _ Ht); eapply text_readable; eassumption end
    | match goal with Ht : pg_cron_require_text ?b ?k true = Ok _ |- readable ?b ?k =>
        eapply required_text_readable; eassumption end ].

Lemma names_readable k b n u :
  unchecked_names k = false -> is_object b = true -> parse_core k b n = Ok u ->
  readable b "schema" /\ readable b "name" /\ readable b "table".
Proof.
  intros Hk Hb Hp. destruct k; try discriminate Hk; [parse_inv Hp..|vendor_inv Hp]; try (split_and!; read_key).
  split_and!; try read_key. destruct (contains b "schema") eqn:Hs; [|by apply absent_readable].
  ok_inv. by eexists.
Qed.

(** The other keys [conflict_keys] reads are texts, booleans or columns with a type. *)
Lemma some_of_absent b ks k : some_of b ks = false -> k ∈ ks -> contains b k = false.
Proof.
  intros Hs Hk. apply not_true_is_false. intros Hc. apply not_true_iff_false in Hs. apply Hs.
  apply List.existsb_exists. exists k. split; [by apply list_elem_of_In|done].
Qed.

Lemma flag_readable b flag columns u :
  is_object b = true -> period_flag b flag columns = Ok u -> exists v, lift (value_bool b flag false) = Ok v.
Proof.
  unfold period_flag, value_bool, contains, at_key. destruct b as [| | | | | | |l| |]; try discriminate. intros _.
  destruct (obj_find flag l) as [v|]; cbn [negb]; [|by eexists]. cbn. destruct v as [|[] | | | | | | | |]; try discriminate;
    by eexists.
Qed.

Lemma absent_flag b flag :
  is_object b = true -> contains b flag = false -> lift (value_bool b flag false) = Ok false.
Proof.
  unfold value_bool, contains. destruct b; try discriminate. intros _. by destruct (obj_find flag l).
Qed.

Lemma columns_typed cols keys :
  Forall (fun c => readable c "type") cols -> exists ks, column_type_keys keys cols = Ok ks.
Proof.
  intros Hc. revert keys. induction Hc as [|c cols [t Ht] _ IH]; intros keys; simpl; [by eexists|].
  rewrite Ht. cbn [mbind result_bind]. apply IH.
Qed.

Lemma table_column_type c : table_column c = Ok tt -> readable c "type".
Proof.
  intros H. unfold table_column in H. ok_inv.
  match goal with H : text_at _ "type" = _ |- _ => apply text_at_Ok in H as [s Hs] end. by eapply text_readable.
Qed.

(** The columns a table is created with, and its period flag. *)
Lemma create_table_edges b u :
  is_object b = true -> parse_create_table b = Ok u ->
  (contains b "partition_of" = true -> readable b "partition_of")
  /\ (exists v, lift (value_bool b "without_overlaps" false) = Ok v)
  /\ exists cols, lift (value_json b "columns" (JArr [])) = Ok cols /\ Forall (fun c => readable c "type") (elements cols).
Proof.
  intros Hb H. unfold parse_create_table in H. ok_inv. destruct (contains b "partition_of") eqn:Hpo.
  - match goal with H : partition_bound _ _ _ _ _ = _ |- _ => unfold partition_bound in H end. ok_inv.
    match goal with H : some_of _ _ = false |- _ => rename H into Hno end. split_and!.
    + intros _. match goal with H : require_string _ _ = _ |- _ => apply require_string_Ok in H as [Hs _] end.
      by eapply text_readable.
    + eexists. apply absent_flag; [done|]. eapply some_of_absent; [exact Hno|set_solver].
    + exists (JArr []). split; [|by apply Forall_nil_2].
      assert (Hc : contains b "columns" = false) by (eapply some_of_absent; [exact Hno|set_solver]).
      destruct b; try discriminate. simpl in *. by destruct (obj_find "columns" l).
  - ok_inv. match goal with H : non_empty_array _ "columns" = Ok ?l |- _ =>
      rename l into cols; apply non_empty_array_Ok in H as [Hcols _] end.
    split_and!; [done| |].
    + destruct (contains b "without_overlaps") eqn:Hw; [|eexists; by apply absent_flag]. ok_inv. by eapply flag_readable.
    + match goal with H : each table_column _ = _ |- _ => apply each_Ok in H as Hall end.
      exists (JArr cols). destruct b; try discriminate. simpl in *. destruct (obj_find "columns" l); simpl in Hcols; [|done].
      subst. split; [done|]. eapply Forall_impl; [exact Hall|]. apply table_column_type.
Qed.

(** A colocation that is accepted is a text. *)
Lemma colocate_readable b u : citus_check_colocate_with b = Ok u -> readable b "colocate_with".
Proof. unfold citus_check_colocate_with. intros H. ok_inv. by eexists. Qed.

Lemma colocate_given b u :
  is_object b = true -> (if contains b "colocate_with" then citus_check_colocate_with b else Ok tt) = Ok u ->
  readable b "colocate_with".
Proof.
  intros Hb H. destruct (contains b "colocate_with") eqn:Hc; [by eapply colocate_readable|by apply absent_readable].
Qed.

Lemma alter_colocate_given b u :
  is_object b = true -> parse_citus_alter_distributed_table b = Ok u -> readable b "colocate_with".
Proof.
  intros Hb H. unfold parse_citus_alter_distributed_table in H. ok_inv.
  destruct (contains b "colocate_with") eqn:Hc; [|by apply absent_readable]. ok_inv. by eexists.
Qed.

Lemma vendor_edges_readable m b n u keys :
  is_object b = true -> vendor_parse m b n = Ok u -> exists ks, vendor_edges m b keys = Ok ks.
Proof.
  intros Hb Hp.
  destruct (names_readable (kModule m) b n u eq_refl Hb Hp) as ([s Hs] & [nm Hn] & [t Ht]).
  apply vendor_parse_Ok in Hp as (parse & Hin & Hp). unfold vendor_kinds in Hin.
  repeat (apply elem_of_cons in Hin as [[= -> ->]|Hin]); [..|by apply not_elem_of_nil in Hin];
    unfold vendor_edges, own_colocation, add_colocation;
    cbn [existsb orb topology_kinds String.eqb Ascii.eqb Bool.eqb]; rewrite ?Hs, ?Hn, ?Ht; cbn [mbind result_bind];
    try (by eexists).
  - unfold parse_citus_distribute_table in Hp. ok_inv.
    match goal with H : str b "colocate_with" = _ |- _ => rewrite H end. by eexists.
  - unfold parse_citus_distribute_function in Hp. ok_inv.
    match goal with H : (if contains b "colocate_with" then _ else _) = _ |- _ =>
      destruct (colocate_given b _ Hb H) as [w ->] end. by eexists.
  - destruct (alter_colocate_given b u Hb Hp) as [w ->]. by eexists.
Qed.

Lemma edges_readable i n u sch keys :
  unchecked_names (kind i) = false -> is_object (body i) = true ->
  parse_core (kind i) (body i) n = Ok u -> exists ks, conflict_edges module_edges i sch keys = Ok ks.
Proof.
  intros Hk Hb Hp. destruct (names_readable _ _ _ _ Hk Hb Hp) as (_ & [nm Hn] & _). revert Hp Hk.
  unfold conflict_edges. destruct (kind i) eqn:Ek; intros Hp Hk; try discriminate Hk;
    try (by eexists); try (rewrite Hn; by eexists); try exact (vendor_edges_readable _ _ n u _ Hb Hp).
  all: try match goal with Hp : parse_core _ _ _ = _ |- context [str (body ?j) ?k] =>
         assert (Hr : readable (body j) k) by (parse_inv Hp; read_key); destruct Hr as [v ->]; by eexists end.
  - (* add_foreign_key *)
    assert (Hr : readable (body i) "references_schema" /\ readable (body i) "references_table")
      by (parse_inv Hp; split; read_key). destruct Hr as [[v ->] [w ->]]. by eexists.
  - (* add_unique_constraint *)
    parse_inv Hp. destruct (flag_readable (body i) "without_overlaps" "columns" u) as [v ->]; [done..|]. by eexists.
  - (* add_primary_key *)
    parse_inv Hp. destruct (flag_readable (body i) "without_overlaps" "columns" u) as [v ->]; [done..|]. by eexists.
  - (* create_table *)
    destruct (create_table_edges (body i) u Hb Hp) as (Hpo & [v Hv] & cols & Hcols & Ht).
    destruct (contains (body i) "partition_of") eqn:Ep.
    + destruct Hpo as [p Hpo]; [done|]. rewrite Hpo. cbn [mbind result_bind]. rewrite Hv. cbn [mbind result_bind].
      rewrite Hcols. by apply columns_typed.
    + cbn [mbind result_bind]. rewrite Hv. cbn [mbind result_bind]. rewrite Hcols. by apply columns_typed.
  - (* add_exclusion_constraint *)
    parse_inv Hp. destruct (contains (body i) "using") eqn:Hu.
    + match goal with H : identifier_at _ "using" = _ |- _ => apply identifier_at_Ok in H as (v & Hv & _) end.
      destruct (body i); try discriminate. simpl in *. destruct (obj_find "using" l) as [w|]; [|done].
      simpl in Hv. subst w. by eexists.
    + destruct (body i); try discriminate. simpl in *. destruct (obj_find "using" l); [done|]. by eexists.
Qed.

Lemma lock_keys_readable i n u :
  unchecked_names (kind i) = false -> is_object (body i) = true ->
  parse_core (kind i) (body i) n = Ok u -> exists ks, @conflict_keys vendor_modules i = Ok ks.
Proof.
  intros Hk Hb Hp. destruct (names_readable _ _ _ _ Hk Hb Hp) as ([sch Hs] & [nm Hn] & [t Ht]).
  unfold conflict_keys, object_key_for, table, qualified_table, schema. rewrite Hs, Hn. cbn [mbind result_bind].
  assert (Ho : exists o, match kind i with
    | kCreateSchema | kDropSchema | kAlterSchema => Ok ("schema:" +:+ sch)
    | kCreateExtension | kDropExtension | kAlterExtension => Ok ("extension:" +:+ nm)
    | kCreateType | kDropType | kAddEnumValue | kAlterDomain => Ok ("type:" +:+ sch +:+ "." +:+ nm)
    | kCreateFunction | kDropFunction | kAlterFunction => Ok ("function:" +:+ sch +:+ "." +:+ nm)
    | kCreateSequence | kDropSequence | kAlterSequence => Ok ("sequence:" +:+ sch +:+ "." +:+ nm)
    | kSetTextSearchMapping => Ok ("tsconfig:" +:+ sch +:+ "." +:+ nm)
    | kModule m => module_key m (body i)
    | _ => Ok ""
    end = Ok o).
  { destruct (kind i); try (by eexists). cbn [module_key vendor_modules]. unfold vendor_key.
    case_if; [|by eexists]. rewrite Hs, Hn. by eexists. }
  destruct Ho as [o ->]. cbn [mbind result_bind]. rewrite Ht. cbn [mbind result_bind].
  destruct (String.eqb t ""); cbn [mbind result_bind]; [by eapply edges_readable|].
  unfold table. rewrite Ht. cbn [mbind result_bind]. by eapply edges_readable.
Qed.

(** ** Rows *)
Lemma distinct_identifiers_Ok seen l u :
  distinct_identifiers seen l = Ok u ->
  exists cs, l = JStr <$> cs /\ NoDup cs /\ Forall (fun c => c ∉ seen) cs /\ Forall (fun c => require_identifier c = Ok tt) cs.
Proof.
  revert seen. induction l as [|v l IH]; intros seen; cbn [distinct_identifiers].
  { intros _. exists []. repeat split; constructor. }
  destruct v as [| | | | |s| | | |]; try discriminate. intros H. ok_inv.
  destruct (existsb (String.eqb s) seen) eqn:Hs; [discriminate|]. destruct (IH _ H0) as (cs & -> & Hnd & Hns & Hid). exists (s :: cs). rewrite Forall_forall in Hns.
  assert (Hseen : s ∉ seen).
  { intros Hin. apply not_true_iff_false in Hs. apply Hs, List.existsb_exists. exists s.
    split; [by apply list_elem_of_In|apply String.eqb_refl]. }
  split_and!; [done| | |].
  - apply NoDup_cons. split; [|done]. intros Hin. apply (Hns s Hin). set_solver.
  - apply Forall_cons_2; [done|]. apply Forall_forall. intros c Hc Hin. apply (Hns c Hc). set_solver.
  - apply Forall_cons_2; [by match goal with u : unit |- _ => destruct u end|done].
Qed.

Lemma check_row_keys_Ok seen keys u :
  check_row_keys seen keys = Ok u -> NoDup keys /\ Forall (fun k => k ∉ seen) keys.
Proof.
  revert seen. induction keys as [|k keys IH]; intros seen; cbn [check_row_keys]; [split; constructor|].
  intros H. ok_inv. destruct (existsb (String.eqb k) seen) eqn:Hs; [discriminate|].
  destruct (IH _ H0) as [Hnd Hns]. rewrite Forall_forall in Hns. split.
  - apply NoDup_cons. split; [|done]. intros Hin. apply (Hns k Hin). set_solver.
  - apply Forall_cons_2.
    + intros Hin. apply not_true_iff_false in Hs. apply Hs, List.existsb_exists. exists k.
      split; [by apply list_elem_of_In|apply String.eqb_refl].
    + apply Forall_forall. intros c Hc Hin. apply (Hns c Hc). set_solver.
Qed.

Lemma row_keys_distinct b required keys : row_key_columns b required = Ok keys -> NoDup keys.
Proof.
  unfold row_key_columns. case_if; [case_if; [discriminate|]; intros [= <-]; constructor|]. intros H. ok_inv.
  by eapply check_row_keys_Ok.
Qed.

Definition scalar (v : json) : Prop := is_object v = false /\ is_array v = false.

Lemma value_rows_Ok n rows :
  Forall (fun r => value_row n r = Ok tt) rows ->
  exists cells, rows = JArr <$> cells /\ Forall (fun r => length r = n /\ Forall scalar r) cells.
Proof.
  induction 1 as [|r rows Hr _ (cells & -> & Hc)]; [by exists []|].
  destruct r as [| | | | | |l| | |]; try discriminate Hr. cbn [value_row] in Hr. ok_inv. exists (l :: cells).
  split; [done|]. apply Forall_cons_2; [|done]. bool_prop.
  match goal with H : (_ =? _)%nat = true |- _ => apply Nat.eqb_eq in H end. split; [done|].
  match goal with H : each _ _ = _ |- _ => apply each_Ok in H as Hall end.
  eapply Forall_impl; [exact Hall|]. intros v Hv. unfold scalar_cell in Hv. ok_inv.
  by match goal with H : _ || _ = false |- _ => apply orb_false_iff in H end.
Qed.

(** Literal rows, as the five row kinds take them. *)
Record well_formed_rows (b : json) (cols : list string) (rows : list (list json)) (keys : list string) : Prop := {
  wr_columns : at_key b "columns" = JArr (JStr <$> cols);
  wr_some : cols <> [] /\ rows <> [];
  wr_distinct : NoDup cols /\ NoDup keys;
  wr_named : Forall (fun c => require_identifier c = Ok tt) cols;
  wr_values : at_key b "values" = JArr (JArr <$> rows);
  wr_fit : Forall (fun r => length r = length cols /\ Forall scalar r) rows;
  wr_keys : row_key_columns b false = Ok keys /\ keys ⊆ cols;
}.

Lemma parse_values_Ok b u : parse_values b = Ok u -> exists cols rows keys, well_formed_rows b cols rows keys.
Proof.
  intros H. unfold parse_values in H. ok_inv.
  match goal with H : non_empty_array _ "columns" = _ |- _ => apply non_empty_array_Ok in H as [Hcs Hcne] end.
  match goal with H : non_empty_array _ "values" = _ |- _ => apply non_empty_array_Ok in H as [Hvs Hvne] end.
  match goal with H : distinct_identifiers _ _ = _ |- _ => apply distinct_identifiers_Ok in H as (cols & -> & Hnd & _ & Hid) end.
  match goal with H : each (value_row _) _ = _ |- _ => apply each_Ok, value_rows_Ok in H as (rows & -> & Hfit) end.
  match goal with H : row_key_columns _ _ = Ok ?l |- _ => rename l into keys; rename H into Hk end.
  match goal with H : each _ keys = _ |- _ => apply each_Ok in H as Hall end. rewrite length_fmap in Hfit.
  exists cols, rows, keys. split; try done.
  - split; [intros ->|intros ->]; by (apply Hcne || apply Hvne).
  - split; [done|]. by eapply row_keys_distinct.
  - split; [done|]. intros key Hin. rewrite Forall_forall in Hall. specialize (Hall key Hin). ok_inv. bool_prop.
    match goal with H : carries _ _ = true |- _ => apply List.existsb_exists in H as (c & Hc & Ht) end.
    apply list_elem_of_In, list_elem_of_fmap in Hc as (name & -> & Hc). by apply String.eqb_eq in Ht as ->.
Qed.

Definition row_kind (k : IntentKind) : bool :=
  match k with kDeleteRows | kInsertRows | kUpdateRows | kMergeRows | kCopyRows => true | _ => false end.

Lemma row_source_values b allow u :
  parse_row_source b allow = Ok u -> contains b "values" = true ->
  contains b "select" = false /\ exists cols rows keys, well_formed_rows b cols rows keys.
Proof.
  intros H Hv. unfold parse_row_source in H. rewrite Hv in H. ok_inv.
  split; [|by eapply parse_values_Ok]. bool_prop.
  match goal with H : (_ =? 1)%nat = true |- _ => apply Nat.eqb_eq in H; revert H end.
  destruct (contains b "select"); [|done]. cbn [Nat.b2n]. lia.
Qed.

(** ** Foreign keys *)
Lemma entry_identifiers_Ok l :
  Forall (fun v => entry_identifier v = Ok tt) l ->
  exists cs, l = JStr <$> cs /\ Forall (fun c => require_identifier c = Ok tt) cs.
Proof.
  induction 1 as [|v l Hv _ (cs & -> & Hcs)]; [by exists []|].
  destruct v as [| | | | |s| | | |]; try discriminate Hv. exists (s :: cs). split; [done|]. by apply Forall_cons_2.
Qed.

Lemma foreign_key_columns_Ok i key u :
  foreign_key_columns (body i) key = Ok u ->
  at_key (body i) key = JArr (JStr <$> bstrs i key) /\ bstrs i key <> []
  /\ Forall (fun c => require_identifier c = Ok tt) (bstrs i key).
Proof.
  intros H. unfold foreign_key_columns in H. ok_inv.
  match goal with H : non_empty_array _ _ = _ |- _ => apply non_empty_array_Ok in H as [Ha Hne] end.
  match goal with H : each _ _ = _ |- _ => apply each_Ok, entry_identifiers_Ok in H as (cs & -> & Hcs) end.
  assert (Hb : bstrs i key = cs).
  { unfold bstrs. rewrite Ha. cbn [elements]. clear. induction cs as [|c cs IH]; [done|]. csimpl. by rewrite IH. }
  rewrite Hb. split_and!; [done| |done]. by intros ->.
Qed.

Lemma bopt_str i k v : str (body i) k = Ok v -> contains (body i) k = true -> bopt i k = Some v.
Proof. unfold str, bopt, bstr. intros H ->. destruct (value_str _ _ _); [|discriminate]. by injection H as ->. Qed.

Lemma foreign_key_action_Ok i key u a :
  foreign_key_action (body i) key = Ok u -> bopt i key = Some a ->
  a ∈ foreign_key_actions /\ (bbool i "period" false = true -> a = "NO ACTION").
Proof.
  unfold foreign_key_action. intros H Ha. destruct (contains (body i) key) eqn:Hc; cbn [negb] in H.
  2: { unfold bopt in Ha. by rewrite Hc in Ha. }
  ok_inv. erewrite bopt_str in Ha by eassumption. injection Ha as <-. bool_prop. split.
  - match goal with H : one_of _ _ = true |- _ => apply List.existsb_exists in H as (a' & Hin & Heq) end.
    apply String.eqb_eq in Heq as ->. by apply list_elem_of_In.
  - unfold bbool. match goal with H : lift (value_bool _ _ _) = Ok ?p |- _ =>
      destruct (value_bool (body i) "period" false); [|discriminate H]; injection H as -> end.
    intros ->. cbn in *. bool_prop. by apply String.eqb_eq.
Qed.

(** ** Claims *)

(** The bodies whose schema is a number. *)
Definition numbered_schema (k : IntentKind) : json :=
  let object_type t := ("object_type", JStr t) in
  JObj (("schema", JUint 5)
        :: match k with
           | kSetComment => [object_type "TABLE"; ("name", JStr "orders"); ("comment", JStr "c")]
           | kSetOwner => [object_type "TABLE"; ("name", JStr "orders"); ("owner", JStr "app")]
           | kCreateObject => [object_type "CAST"; ("name", JStr "c"); ("definition", JStr "d")]
           | kDropObject => [object_type "CAST"; ("name", JStr "c")]
           | kAlterObject => [object_type "CAST"; ("name", JStr "c"); ("to", JStr "d")]
           | kSecurityLabel => [object_type "TABLE"; ("name", JStr "orders"); ("provider", JStr "p")]
           | kGrant => [object_type "SCHEMA"; ("name", JStr "shop"); ("privileges", JArr [JStr "USAGE"]);
                        ("to", JArr [JStr "app"])]
           | kRevoke => [object_type "SCHEMA"; ("name", JStr "shop"); ("privileges", JArr [JStr "USAGE"]);
                         ("from", JArr [JStr "app"])]
           | kAlterDefaultPrivileges => [object_type "TABLES"; ("privileges", JArr [JStr "SELECT"]);
                                         ("to", JArr [JStr "app"])]
           | _ => [("name", JStr "hstore")]
           end).

(** The keys a job locks can be read off every specification that parses, for
    all kinds, the modules' included, but ten: whatever the body holds beyond what was checked,
    [conflict_keys] does not throw on it. Of each of those ten kinds a body is
    accepted on which it does throw, because nothing checks its schema. *)
Theorem accepted_lock_keys_can_be_read :
  (forall sha256 doc s i, @parse_spec vendor_modules core_bodies sha256 doc = Ok s -> i ∈ intents s ->
     unchecked_names (kind i) = false -> exists ks, @conflict_keys vendor_modules i = Ok ks)
  /\ (forall k, unchecked_names k = true ->
        parse_core k (numbered_schema k) 0 = Ok tt
        /\ @conflict_keys vendor_modules {| kind := k; kind_name := ""; ordinal := 0; body := numbered_schema k |} = Err (Threw TypeError)).
Proof.
  split.
  - intros sha256 doc s i Hs Hi Hk. destruct (parsed_spec_checked _ _ _ _ Hs Hi) as [Hb Hp].
    exact (lock_keys_readable i _ tt Hk Hb Hp).
  - intros k Hk. destruct k; try discriminate Hk; (split; [vm_compute|]; reflexivity).
Qed.

(** C32: What the planner names is what was accepted. In a specification that
    parses, every key listed for the kind holds an identifier: a text of at most
    63 lower-case letters, digits and underscores that does not begin with a digit.
    So where a kind names a table, the relation the planner quotes is read by the
    server as exactly the schema and the table of the body, and two intents speak
    of the same relation only when schema and table are the same. *)
Theorem accepted_names_are_identifiers sha256 doc s i :
  @parse_spec vendor_modules core_bodies sha256 doc = Ok s -> i ∈ intents s ->
  Forall (fun key => is_identifier (at_key (body i) key)) (identifier_keys (kind i))
  /\ ("schema" ∈ identifier_keys (kind i) ->
      (forall r, not_at dquote r ->
         lex_relation (quote_qualified (in_qualified i) +:+ r) = Some ([in_schema i; in_table i], r))
      /\ (forall j, j ∈ intents s -> "schema" ∈ identifier_keys (kind j) -> in_qualified i = in_qualified j ->
            in_schema i = in_schema j /\ in_table i = in_table j)).
Proof.
  intros Hs Hi.
  assert (Hall : forall j, j ∈ intents s -> Forall (fun key => is_identifier (at_key (body j) key)) (identifier_keys (kind j))).
  { intros j Hj. destruct (parsed_spec_checked _ _ _ _ Hs Hj) as [_ Hp].
    exact (names_checked _ _ _ tt Hp). }
  assert (Hsch : forall j, j ∈ intents s -> "schema" ∈ identifier_keys (kind j) -> require_identifier (in_schema j) = Ok tt).
  { intros j Hj Hk. apply bstr_identifier. specialize (Hall j Hj). rewrite Forall_forall in Hall. by apply Hall. }
  split; [by apply Hall|]. intros Hk. split.
  - intros r Hr. apply lex_relation_quoted; [by apply Hsch|done].
  - intros j Hj Hkj Hq. unfold in_qualified in Hq.
    pose proof (identifier_lacks "." _ eq_refl (Hsch i Hi Hk)) as H1.
    pose proof (identifier_lacks "." _ eq_refl (Hsch j Hj Hkj)) as H2.
    apply (f_equal (split_first ".")) in Hq. change ("." +:+ ?x) with (String "." x) in Hq.
    rewrite !split_first_app in Hq by done. by injection Hq as -> ->.
Qed.

(** Rows fit their columns. A row kind that is accepted with literal rows names
    its columns, at least one, each an identifier and none twice; has at least one
    row; every row has exactly one value for every column and none of them is a
    nested object or array; the columns of its key are distinct and among the
    columns; and it has no query beside the rows. *)
Theorem accepted_rows_fit_their_columns sha256 doc s i :
  @parse_spec vendor_modules core_bodies sha256 doc = Ok s -> i ∈ intents s -> row_kind (kind i) = true ->
  contains (body i) "values" = true ->
  contains (body i) "select" = false /\ exists cols rows keys, well_formed_rows (body i) cols rows keys.
Proof.
  intros Hs Hi Hk Hv. destruct (parsed_spec_checked _ _ _ _ Hs Hi) as [_ Hp]. revert Hp. cbn [parse_body core_bodies].
  destruct (kind i); try discriminate Hk; intros Hp; parse_inv Hp; by eapply row_source_values.
Qed.

(** A foreign key that is accepted can be written. The columns the planner puts
    in its clause and the columns it references are as many, at least one, and all
    identifiers; its actions are ones PostgreSQL has; with a period there are at
    least two columns and no action but NO ACTION. *)
Theorem accepted_foreign_keys_pair_columns sha256 doc s i :
  @parse_spec vendor_modules core_bodies sha256 doc = Ok s -> i ∈ intents s -> kind i = kAddForeignKey ->
  let fk := intent_fk i in
  fk_columns fk <> [] /\ length (fk_columns fk) = length (fk_references fk)
  /\ Forall (fun c => require_identifier c = Ok tt) (fk_columns fk ++ fk_references fk)
  /\ (forall a, fk_on_delete fk = Some a \/ fk_on_update fk = Some a ->
        a ∈ foreign_key_actions /\ (fk_period fk = true -> a = "NO ACTION"))
  /\ (fk_period fk = true -> (2 <= length (fk_columns fk))%nat).
Proof.
  intros Hs Hi Hk fk. destruct (parsed_spec_checked _ _ _ _ Hs Hi) as [_ Hp]. revert Hp. cbn [parse_body core_bodies].
  rewrite Hk. intros Hp. parse_inv Hp.
  match goal with H : each (foreign_key_columns _) _ = _ |- _ => apply each_Ok in H as Hcs end.
  rewrite !Forall_cons in Hcs. destruct Hcs as (Hc & Hr & _).
  apply foreign_key_columns_Ok in Hc as (Hca & Hcne & Hci), Hr as (Hra & _ & Hri).
  match goal with H : each (foreign_key_action _) _ = _ |- _ => apply each_Ok in H as Has end.
  rewrite !Forall_cons in Has. destruct Has as (Hod & Hou & _). bool_prop. subst fk. cbn [intent_fk fk_columns fk_references
    fk_on_delete fk_on_update fk_period].
  match goal with H : (_ =? _)%nat = true |- _ => apply Nat.eqb_eq in H as Hlen end.
  rewrite Hca, Hra in Hlen. cbn [array_size] in Hlen. rewrite !length_fmap in Hlen. split_and!; [done..| | |].
  - by apply Forall_app.
  - intros a [Ha|Ha]; [exact (foreign_key_action_Ok i "on_delete" tt a Hod Ha)|exact (foreign_key_action_Ok i "on_update" tt a Hou Ha)].
  - unfold bbool. intros Hper.
    match goal with H : period_flag _ _ _ = _ |- _ => unfold period_flag in H; rename H into Hf end.
    unfold value_bool, contains, at_key in *. destruct (body i) as [| | | | | | |l| |]; try discriminate.
    destruct (obj_find "period" l) as [[|[] | | | | | | | |]|]; try discriminate. cbn in Hf. cbn in Hca. rewrite Hca in Hf.
    destruct (bstrs i "columns") as [|c1 [|c2 cs]]; try discriminate. simpl. lia.
Qed.

(** A specification with a table, a foreign key and rows. *)
Definition demo_bodies : list json :=
  [JObj [("kind", JStr "add_foreign_key"); ("schema", JStr "shop"); ("table", JStr "orders"); ("name", JStr "orders_tenant");
         ("columns", JArr [JStr "tenant"; JStr "valid"]); ("references_schema", JStr "shop");
         ("references_table", JStr "tenants"); ("references_columns", JArr [JStr "id"; JStr "valid"]);
         ("period", JBool true); ("on_delete", JStr "NO ACTION")];
   JObj [("kind", JStr "insert_rows"); ("schema", JStr "shop"); ("table", JStr "regions"); ("key", JStr "id");
         ("columns", JArr [JStr "id"; JStr "code"]);
         ("values", JArr [JArr [JUint 1; JStr "NA"]; JArr [JUint 2; JNull]])]].

Definition demo_document (bodies : list json) : json :=
  JObj [("laswell_spec_version", JUint 1); ("id", JStr "s1"); ("description", JStr "d"); ("intents", JArr bodies)].

Definition demo_parsed : result spec_error Spec := @parse_spec vendor_modules core_bodies (fun b => b) (demo_document demo_bodies).

Definition demo_intents : list Intent :=
  match demo_parsed with Ok s => intents s | Err _ => [] end.

Lemma demo_parses : exists s, demo_parsed = Ok s /\ intents s = demo_intents /\ length demo_intents = 2%nat.
Proof.
  unfold demo_intents. destruct demo_parsed as [s|e] eqn:E; [|vm_compute in E; discriminate E].
  exists s. split_and!; [done..|]. vm_compute in E. injection E as <-. reflexivity.
Qed.

(** [accepted_names_are_identifiers] on the foreign key. *)
Lemma accepted_names_are_identifiers_witness : exists i,
  demo_intents !! 0%nat = Some i /\ identifier_keys (kind i) <> []
  /\ lex_relation (quote_qualified (in_qualified i) +:+ ";") = Some (["shop"; "orders"], ";").
Proof.
  destruct demo_parses as (s & Hs & Hi & _).
  destruct (demo_intents !! 0%nat) as [i|] eqn:E; [|vm_compute in E; discriminate E].
  exists i. split; [done|].
  destruct (accepted_names_are_identifiers (fun b => b) _ s i Hs) as (_ & Hq).
  { rewrite Hi. by eapply list_elem_of_lookup_2. }
  vm_compute in E. injection E as <-. split; [discriminate|].
  destruct Hq as [Hq _]; [by left|]. exact (Hq ";" ltac:(done)).
Defined.

(** [accepted_lock_keys_can_be_read] on the same. *)
Lemma accepted_lock_keys_can_be_read_witness : exists i ks,
  demo_intents !! 0%nat = Some i /\ @conflict_keys vendor_modules i = Ok ks
  /\ ks = ["shop.orders"; "shop.tenants"].
Proof.
  destruct demo_parses as (s & Hs & Hi & _).
  destruct (demo_intents !! 0%nat) as [i|] eqn:E; [|vm_compute in E; discriminate E].
  destruct (accepted_lock_keys_can_be_read) as [Hk _].
  destruct (Hk _ _ s i Hs) as [ks Hks].
  - rewrite Hi. by eapply list_elem_of_lookup_2.
  - vm_compute in E. injection E as <-. reflexivity.
  - exists i, ks. split; [done|]. split; [done|]. vm_compute in E. injection E as <-. vm_compute in Hks.
    by injection Hks as <-.
Defined.

(** [accepted_rows_fit_their_columns] on the rows. *)
Lemma accepted_rows_fit_their_columns_witness : exists i cols rows keys,
  demo_intents !! 1%nat = Some i /\ well_formed_rows (body i) cols rows keys /\ keys = ["id"].
Proof.
  destruct demo_parses as (s & Hs & Hi & _).
  destruct (demo_intents !! 1%nat) as [i|] eqn:E; [|vm_compute in E; discriminate E].
  destruct (accepted_rows_fit_their_columns (fun b => b) _ s i Hs) as (_ & cols & rows & keys & Hw).
  - rewrite Hi. by eapply list_elem_of_lookup_2.
  - vm_compute in E. injection E as <-. reflexivity.
  - vm_compute in E. injection E as <-. reflexivity.
  - exists i, cols, rows, keys. split; [done|]. split; [done|]. destruct (wr_keys _ _ _ _ Hw) as [Hk _].
    vm_compute in E. injection E as <-. vm_compute in Hk. by injection Hk as <-.
Defined.

(** [accepted_foreign_keys_pair_columns] on the foreign key with a period. *)
Lemma accepted_foreign_keys_pair_columns_witness : exists i,
  demo_intents !! 0%nat = Some i /\ fk_columns (intent_fk i) = ["tenant"; "valid"]
  /\ length (fk_columns (intent_fk i)) = length (fk_references (intent_fk i)).
Proof.
  destruct demo_parses as (s & Hs & Hi & _).
  destruct (demo_intents !! 0%nat) as [i|] eqn:E; [|vm_compute in E; discriminate E].
  destruct (accepted_foreign_keys_pair_columns (fun b => b) _ s i Hs) as (_ & Hl & _).
  - rewrite Hi. by eapply list_elem_of_lookup_2.
  - vm_compute in E. injection E as <-. reflexivity.
  - exists i. split; [done|]. split; [|exact Hl]. vm_compute in E. injection E as <-. reflexivity.
Defined.

(** A hash partition is checked at 32 bits, as the planner renders it: a modulus and
    a remainder past them are accepted and mean other numbers. *)
Example large_moduli_wrap :
  let b := JObj [("kind", JStr "create_table"); ("schema", JStr "shop"); ("table", JStr "orders_1"); ("comment", JStr "c");
                 ("partition_of", JStr "shop.orders"); ("modulus", JUint 4294967300); ("remainder", JUint 4294967297)] in
  parse_create_table b = Ok tt /\ value_int b "modulus" 1 = Ok 4 /\ value_int b "remainder" 0 = Ok 1.
Proof. vm_compute. split_and!; reflexivity. Qed.
