(* ===== verification/RowRuns.v ===== *)
(** * RowRuns: row-level intents from the document to the rows

    The row-level planners together with what the parser accepts and what the
    server does: which changes commit in batches, what accepted columns are, what
    a NULL in a key does to a walk, and a key the update planner never takes; then
    concrete rows on which the theorems of this group are applied. *)
From S2P Require Import Prelude Json Canonical Spec Quote Batches RowSql RowMeaning RowFacts Intents VendorKinds Plan Planner Indexes RowPlan Dml Backfill Executor StepReading KeyFacts DmlFacts StepFacts IntentFacts.

(** ** The statement and its intent *)
Section Changes.
Context `{Vendors, Printing}.

(** Whether a change has a key to be paced by: all kinds but an insert must. *)
Definition walkable (i : Intent) : bool :=
  match kind i with kInsertRows => negb (String.eqb (rk_first (row_key i)) "") | _ => true end.

Lemma change_of_intent i o cfg s :
  e_conflicts (plan_from_source i o cfg) = [] -> s ∈ row_changes (plan_from_source i o cfg) ->
  exists saved m, s = the_change i (table_obs o (in_qualified i)) (pa_paced (decide_pacing i cfg (walkable i))) saved m.
Proof.
  unfold plan_from_source, walkable. intros Hc Hs. destruct (kind i); try by apply elem_of_nil in Hs.
  - rewrite (delete_change i o cfg s Hc Hs). by do 2 eexists.
  - apply insert_accepted_inv in Hc as (_ & _ & _ & conflict & _ & Hi). rewrite Hi, insert_change in Hs.
    apply list_elem_of_singleton in Hs as ->. by do 2 eexists.
  - apply update_accepted_inv in Hc as (_ & _ & _ & _ & Hi). rewrite Hi, update_change in Hs.
    apply list_elem_of_singleton in Hs as ->. by do 2 eexists.
  - apply merge_accepted_inv in Hc as (_ & _ & _ & _ & _ & Hi). rewrite Hi in Hs.
    destruct (merge_change i cfg (table_obs o (in_qualified i)) (kp_index (row_key_is_unique (table_obs o (in_qualified i)) (row_key i))))
      as [saved Hm]. rewrite Hm in Hs. apply list_elem_of_singleton in Hs as ->. by do 2 eexists.
Qed.

Lemma change_step_class i cfg src columns saved m lock s :
  st_class (change_step i cfg src columns saved m lock s) = if pa_paced src then kOwnTxnPerBatch else kRequired.
Proof. unfold change_step. by destruct (pa_paced src). Qed.

(** Whether the source is too large to hold, or of unknown size. *)
Definition needs_pacing (i : Intent) (cfg : PlannerConfig) : bool :=
  negb (contains (body i) "values") || (pc_dml_single_txn_rows cfg <? Z.of_nat (length (literal_rows i))).

Lemma decide_pacing_default i cfg available :
  contains (body i) "paced" = false -> pa_paced (decide_pacing i cfg available) = needs_pacing i cfg && available.
Proof.
  intros Hp. unfold decide_pacing, needs_pacing. rewrite Hp. cbn [pa_paced].
  destruct (contains (body i) "values"); [done|]. by destruct (contains (body i) "select").
Qed.

Lemma warned_for_want_of_a_key i cfg :
  contains (body i) "paced" = false ->
  pa_unpaced_for_want_of_a_key (decide_pacing i cfg false) = needs_pacing i cfg.
Proof.
  intros Hp. unfold decide_pacing, needs_pacing. rewrite Hp. cbn [pa_unpaced_for_want_of_a_key].
  rewrite andb_true_r. destruct (contains (body i) "values"); [done|]. by destruct (contains (body i) "select").
Qed.

(** No large change is held in one transaction unsaid. Where the intent does
    not set pacing itself, a change from a source is committed batch by batch
    exactly when it is a query or has more literal rows than dml_single_txn_rows,
    and in one transaction otherwise; an insert without a key to walk by is the
    exception, and is warned about, as is a COPY of that many rows; a backfill and
    a delete by predicate always commit in batches. *)
Theorem large_changes_commit_in_batches i o cfg :
  contains (body i) "paced" = false ->
  (forall s c, e_conflicts (plan_from_source i o cfg) = [] -> s ∈ e_steps (plan_from_source i o cfg) -> c ∈ changes_of s ->
     st_class s = if needs_pacing i cfg && walkable i then kOwnTxnPerBatch else kRequired)
  /\ (kind i = kInsertRows -> e_conflicts (plan_from_source i o cfg) = [] -> needs_pacing i cfg = true ->
      walkable i = false -> e_warnings (plan_from_source i o cfg) <> [])
  /\ (contains (body i) "values" = true -> needs_pacing i cfg = true -> e_conflicts (plan_copy_rows i o cfg) = [] ->
      e_warnings (plan_copy_rows i o cfg) <> [])
  /\ (kind i = kDeleteRows -> contains (body i) "values" = false -> contains (body i) "select" = false ->
      e_conflicts (plan_delete_rows i o cfg) = [] ->
      exists made s, e_steps (plan_delete_rows i o cfg) = made ++ [s] /\ st_class s = kOwnTxnPerBatch).
Proof.
  intros Hp. split_and!.
  - intros s c Hc Hs Hin. destruct (source_step i o cfg s c Hc Hs Hin) as
      (src & columns & saved & m & lock & why & s0 & _ & Hpa & Hin' & -> & _).
    assert (c ∈ row_changes (plan_from_source i o cfg)) as Hrow by (apply list_elem_of_bind; by exists s).
    destruct (change_of_intent i o cfg c Hc Hrow) as (? & ? & ->). cbn [the_change rs_paced] in Hpa.
    cbn [with_why st_class]. by rewrite change_step_class, <- Hpa, decide_pacing_default.
  - intros Hk Hc Hn Hw. unfold plan_from_source, walkable in *. rewrite Hk in *.
    apply insert_accepted_inv in Hc as (_ & _ & _ & conflict & _ & ->). cbn [insert_accepted e_warnings]. unfold insert_warnings.
    by rewrite Hw, warned_for_want_of_a_key, Hn.
  - intros Hv Hn Hc. destruct (plan_copy_rows i o cfg) as [ss ws cs] eqn:He. simpl in Hc. subst cs.
    unfold plan_copy_rows in He. repeat (apply unless_refused_inv in He as [? He]; [|done]). injection He as _ <-.
    unfold needs_pacing in Hn. rewrite Hv in Hn. cbn [negb orb] in Hn. unfold copy_warnings. by rewrite Hn.
  - intros Hk Hv Hs Hc. destruct (plan_delete_rows i o cfg) as [ss ws cs] eqn:He. simpl in Hc. subst cs.
    unfold plan_delete_rows in He. repeat (apply unless_refused_inv in He as [? He]; [|done]). rewrite Hv, Hs in He.
    cbn [negb andb] in He. destruct (required_confinement o (in_qualified i)) as [g by_]. case_if_in He; [by injection He|].
    injection He as <- _. eexists _, _. split; [done|].
    unfold delete_finished. destruct (plan_preserve _ _ _ _ _) as [[??]|]; by destruct (contains (body i) "verify_remaining").
Qed.

(** ** The columns of accepted rows *)
Lemma writable i t names n :
  refuse_unwritable_columns i (t_columns t) (in_qualified i) names = None -> n ∈ names ->
  exists c, t_columns t !! n = Some c /\ c_generated c <> "s" /\ (c_identity c = "a" -> bstr i "overriding" "" = "system").
Proof.
  unfold refuse_unwritable_columns. intros Hh Hn.
  assert (unwritable (bstr i "overriding" "") (in_qualified i) (t_columns t) n = None) as Hu.
  { destruct (unwritable _ _ _ n) as [r|] eqn:Hu; [|done]. exfalso. apply head_None in Hh.
    apply (proj1 (elem_of_nil r)). rewrite <- Hh. apply list_elem_of_omap. by exists n. }
  unfold unwritable in Hu. destruct (t_columns t !! n) as [c|]; [|done]. exists c. split; [done|].
  destruct (String.eqb_spec (c_generated c) "s"); [done|]. split; [done|]. intros Ha. rewrite Ha in Hu. simpl in Hu.
  by destruct (String.eqb_spec (bstr i "overriding" "") "system").
Qed.

Lemma catchup_elem i t names n c q :
  n ∈ names -> t_columns t !! n = Some c -> c_sequence c = Some q -> q <> "" ->
  catchup_step i (in_qualified i) n q ∈ emit_sequence_catchup i (t_columns t) (in_qualified i) names.
Proof.
  intros Hn Hc Hq Hne. unfold emit_sequence_catchup. apply list_elem_of_omap. exists n. split; [done|].
  rewrite Hc. csimpl. rewrite Hq. csimpl. by destruct (String.eqb_spec q "").
Qed.

(** All the kinds that write rows, and those among them that make new ones. *)
Definition plan_rows (i : Intent) (o : Observations) (cfg : PlannerConfig) : Emitted :=
  match kind i with kCopyRows => plan_copy_rows i o cfg | _ => plan_from_source i o cfg end.

Definition inserts (i : Intent) : bool :=
  match kind i with
  | kInsertRows | kCopyRows => true
  | kMergeRows => String.eqb (bstr i "when_not_matched" "insert") "insert"
  | _ => false
  end.

Definition writes_rows (s : Step) : Prop := changes_of s <> [] \/ exists rows, obj_find "copy_rows" (st_detail s) = Some rows.

Lemma change_step_writes i cfg src columns saved m lock why s :
  writes_rows (with_why why (change_step i cfg src columns saved m lock s)).
Proof. left. unfold changes_of. cbn [with_why st_sql]. by rewrite change_step_sql. Qed.

(** How the steps of a kind that makes new rows are laid out. *)
Lemma inserting_steps i o cfg :
  inserts i = true -> e_conflicts (plan_rows i o cfg) = [] ->
  let t := table_obs o (in_qualified i) in
  refuse_unwritable_columns i (t_columns t) (in_qualified i) (column_names i) = None
  /\ exists before change, writes_rows change
       /\ e_steps (plan_rows i o cfg)
          = before ++ change :: emit_sequence_catchup i (t_columns t) (in_qualified i) (column_names i).
Proof.
  unfold inserts, plan_rows, plan_from_source. intros Hins Hc. destruct (kind i); try done.
  - apply insert_accepted_inv in Hc as (_ & Hu & _ & conflict & _ & ->). split; [done|].
    eexists [], _. split; [|done]. apply change_step_writes.
  - apply merge_accepted_inv in Hc as (_ & _ & Hu & _ & _ & ->). split; [apply Hu; by apply String.eqb_eq|].
    unfold merge_accepted. rewrite Hins. eexists _, _. split; [|done]. apply change_step_writes.
  - destruct (plan_copy_rows i o cfg) as [ss ws cs] eqn:He. simpl in Hc. subst cs.
    unfold plan_copy_rows in He. repeat (apply unless_refused_inv in He as [? He]; [|done]). injection He as <- _.
    split; [done|]. eexists [], _. split; [|done]. right. by eexists.
Qed.

(** A column that is written can be written, and its sequence follows. Where an
    accepted insert_rows, merge_rows or copy_rows makes new rows, every column it
    supplies exists, is not generated, and is an ALWAYS identity only where the
    intent overrides it; and for each one that draws from a sequence, a step after
    the one that writes the rows sets the sequence to the column's maximum. *)
Theorem supplied_columns_can_be_written i o cfg n :
  let t := table_obs o (in_qualified i) in
  inserts i = true -> e_conflicts (plan_rows i o cfg) = [] -> n ∈ column_names i ->
  exists c, t_columns t !! n = Some c /\ c_generated c <> "s" /\ (c_identity c = "a" -> bstr i "overriding" "" = "system")
    /\ forall q, c_sequence c = Some q -> q <> "" ->
         exists before change rest, e_steps (plan_rows i o cfg) = before ++ change :: rest /\ writes_rows change
           /\ catchup_step i (in_qualified i) n q ∈ rest.
Proof.
  intros t Hi Hc Hn. destruct (inserting_steps i o cfg Hi Hc) as (Hu & before & change & Hw & Hs). fold t in Hu, Hs.
  destruct (writable i t _ n Hu Hn) as (c & Hcol & Hg & Ha). exists c. split_and!; [done..|].
  intros q Hq Hne. exists before, change. eexists. split; [exact Hs|]. split; [done|]. by eapply catchup_elem.
Qed.

(** ** A key the update planner never takes *)
Lemma carried_column i columns k :
  non_empty_array (body i) "columns" = Ok columns -> carries columns k = true -> k ∈ column_names i.
Proof.
  intros [Ha _]%non_empty_array_Ok Hc. apply List.existsb_exists in Hc as (c & Hin & Ht).
  destruct c; try discriminate Ht. apply String.eqb_eq in Ht as ->.
  unfold column_names, bstrs. rewrite Ha. simpl. apply list_elem_of_omap. eexists. split; [by apply list_elem_of_In|done].
Qed.

Lemma absent_text i k : contains (body i) k = false -> bstr i k "" = "".
Proof.
  unfold bstr, value_str, contains, at_key. destruct (body i); try done. by destruct (obj_find k l).
Qed.

Lemma key_strings_all l ks :
  key_strings l = Ok ks -> omap (fun v => match v with JStr s => Some s | _ => None end) l = ks.
Proof.
  revert ks. induction l as [|v l IH]; intros ks; simpl; [by intros [= <-]|]. destruct v; try done. intros Hk. ok_inv.
  csimpl. f_equal. by apply IH.
Qed.

(** The key the parser checks is the one the planner reads. *)
Lemma parsed_row_key i keys : row_key_columns (body i) true = Ok keys -> rk_columns (row_key i) = keys.
Proof.
  unfold row_key_columns, row_key. case_if; [done|]. intros Hk. ok_inv. cbn [rk_columns].
  destruct (at_key (body i) "key") as [| | | |s| |l| | |]; try done.
  - match goal with H : Ok _ = Ok _ |- _ => injection H as <- end. destruct (String.eqb_spec s "") as [->|]; [|done].
    match goal with H : check_row_keys _ _ = _ |- _ => by vm_compute in H end.
  - destruct l as [|x l]; [done|]. by apply key_strings_all.
Qed.

(** update_rows never takes a key that is an ALWAYS identity. The parser wants
    the key among the columns and refuses to override identities; the planner
    refuses every such column it was given, the key that is only matched on
    included: no specification updates rows of a table by such a key. *)
Theorem identity_keys_cannot_be_updated i o cfg u k c :
  parse_update_rows (body i) = Ok u -> k ∈ rk_columns (row_key i) ->
  t_columns (table_obs o (in_qualified i)) !! k = Some c -> c_identity c = "a" ->
  e_conflicts (plan_update_rows i o cfg) <> [].
Proof.
  intros Hp Hk Hc Ha Hacc. unfold parse_update_rows in Hp. ok_inv.
  match goal with H : row_key_columns _ _ = Ok _ |- _ => rewrite (parsed_row_key _ _ H) in Hk end.
  match goal with H : keys_carried _ _ = _ |- _ => apply each_Ok in H; rewrite Forall_forall in H; specialize (H k Hk) end.
  ok_inv. bool_prop. match goal with H : carries _ _ = true |- _ => rename H into Hcar end.
  eapply carried_column in Hcar; [|done].
  apply update_accepted_inv in Hacc as (_ & Hu & _).
  destruct (writable _ _ _ k Hu Hcar) as (c' & Hc' & _ & Hov). rewrite Hc in Hc'. injection Hc' as <-.
  specialize (Hov Ha). rewrite absent_text in Hov; [done|].
  match goal with H : reject_unknown_keys _ _ = _ |- _ => by apply (rejected_absent _ _ _ _ H) end.
Qed.

(** ** NULL in a later column of a key *)
Section Nulls.
Context `{SqlValues V}.
Implicit Types (src t : list (Row V)).

Lemma sort_le_last (l : list (list (option V))) limit :
  (length l <= limit)%nat -> head (sort_by order_ge (take limit (sort_by order_le l))) = last (sort_by order_le l).
Proof.
  intros Hl. rewrite take_ge by (by rewrite sort_by_Permutation). apply sort_ge_head.
  apply sort_by_sorted; [apply order_le_total|apply order_le_trans].
Qed.

(** The greatest key has the NULL. *)
Lemma greatest_has_null a (l : list (list (option V))) k :
  (forall x, x ∈ l -> exists v rest, x = Some a :: v :: rest) -> Some a :: None :: k ∈ l ->
  exists rest, last (sort_by order_le l) = Some (Some a :: None :: rest).
Proof.
  intros Hall Hk. destruct (last (sort_by order_le l)) as [u|] eqn:Hu.
  2: { apply last_None in Hu. apply (f_equal length) in Hu. rewrite sort_by_Permutation in Hu.
       destruct l; [by apply elem_of_nil in Hk|done]. }
  assert (u ∈ l) as Hin. { rewrite <- (sort_by_Permutation order_le l). by apply last_Some_elem_of. }
  destruct (Hall u Hin) as (v & rest & ->). destruct v as [x|]; [|by eexists]. exfalso.
  assert (order_le (Some a :: None :: k) (Some a :: Some x :: rest) = true) as Hle.
  { apply last_Some in Hu as [l' Hl']. assert (Some a :: None :: k ∈ l' ++ [Some a :: Some x :: rest]) as Hk'.
    { rewrite <- Hl', sort_by_Permutation. done. }
    apply elem_of_app in Hk' as [Hk'|Hk'%list_elem_of_singleton]; [|done].
    pose proof (sort_by_sorted order_le order_le_total order_le_trans l) as Hs. rewrite Hl' in Hs.
    eapply (StronglySorted_app_1_elem_of _ _ _ _ _ Hs Hk'). by apply list_elem_of_singleton. }
  simpl in Hle. by rewrite bool_decide_true in Hle.
Qed.

Lemma null_key_batch key k1 k2 ks c limit src a :
  rk_columns key = k1 :: k2 :: ks -> (forall r, r ∈ src -> r !! k1 = Some a) ->
  (exists r, r ∈ src /\ after key c r = true /\ r !! k2 = None) -> (length src <= limit)%nat ->
  batch key c limit src = [].
Proof.
  intros Hkey Ha (r0 & Hr0 & Haf & Hn) Hl. unfold batch, upto.
  rewrite sort_le_last by (rewrite length_fmap; etransitivity; [apply List.filter_length_le|done]).
  edestruct (greatest_has_null a (key_vals (rk_columns key) <$> List.filter (after key c) src)) as [rest ->].
  - intros x (r & -> & Hr)%list_elem_of_fmap. apply elem_of_filter_bool in Hr as [Hr _]. rewrite Hkey. csimpl.
    rewrite Ha by done. by do 2 eexists.
  - apply list_elem_of_fmap. exists r0. split; [|by apply elem_of_filter_bool]. rewrite Hkey. csimpl.
    rewrite Ha, Hn by done. done.
  - apply filter_none. intros r Hr. rewrite Hkey. csimpl. rewrite Ha by done. unfold row_le. simpl.
    rewrite (bool_decide_true (a = a)) by done. destruct (r !! k2); simpl; by rewrite andb_false_r.
Qed.

(** A NULL in a key of several columns ends the walk unsaid. The unique index
    behind such a key need not be over NOT NULL columns. Where the rows of the source
    agree on the first key column and one row the walk has yet to reach has NULL in
    the second, a batch large enough for all of them takes none: the bound it
    computes is the key with the NULL, to which nothing compares. The walk ends, no
    row is changed and none is saved, though the same statement without pacing
    changes every row it matches. *)
Theorem null_in_a_key_ends_the_walk i o cfg s within c limit src t k1 k2 ks a :
  e_conflicts (plan_from_source i o cfg) = [] -> s ∈ row_changes (plan_from_source i o cfg) -> rs_paced s = true ->
  rk_columns (row_key i) = k1 :: k2 :: ks -> (forall r, r ∈ src -> r !! k1 = Some a) ->
  (exists r, r ∈ src /\ after (row_key i) c r = true /\ r !! k2 = None) -> (length src <= limit)%nat ->
  run_stmt within c limit s src t = (t, [])
  /\ (kind i = kDeleteRows -> run_whole within (row_key i) (rs_mutation s) src t
       = List.filter (fun r => negb (existsb (matches (k1 :: k2 :: ks) r) src)) t).
Proof.
  intros Hc Hs Hp Hkey Ha Hn Hl. split.
  - destruct (change_of_intent i o cfg s Hc Hs) as (saved & m & Heq). unfold run_stmt. rewrite Hp. rewrite Heq.
    cbn [the_change rs_key rs_saved rs_mutation source_walk]. rewrite select_batch_eq; [|by rewrite Hkey|].
    + by erewrite null_key_batch.
    + destruct Hn as (r & _ & Haf & _). intros ->. unfold after, row_gt in Haf. rewrite Hkey in Haf. csimpl in *.
      rewrite andb_false_r in Haf. by destruct (r !! k1).
  - intros Hk. unfold plan_from_source in Hc, Hs. rewrite Hk in Hc, Hs. rewrite (delete_change i o cfg s Hc Hs).
    unfold run_whole, the_change, run_mutation, run_delete. cbn [rs_mutation]. by rewrite Hkey.
Qed.
End Nulls.
End Changes.
