(* ===== verification/IndexFacts.v ===== *)
(** * IndexFacts: definitions checked on an empty copy, answers merged

    A build the dry run leaves out is tried on an empty copy of its table: the
    statement's text is rewritten to name the copy. And what several modules say
    of one table is merged without regard to the order they are built in. *)
From S2P Require Import Prelude Json Canonical Spec Quote Plan Planner Indexes Migration.

(** ** Searching in a text *)
Lemma index_skip sub c s :
  String.prefix sub (String c s) = false -> String.index 0 sub (String c s) = S <$> String.index 0 sub s.
Proof. intros Hp. cbn [String.index]. rewrite Hp. by destruct (String.index 0 sub s). Qed.

Lemma prefix_other c d sub s : c <> d -> String.prefix (String c sub) (String d s) = false.
Proof. intros Hne. simpl. by destruct (ascii_dec c d). Qed.

Lemma prefix_app sub s : String.prefix sub (sub +:+ s) = true.
Proof.
  induction sub as [|c sub IH]; [by destruct s|]. rewrite string_app_cons. simpl. by destruct (ascii_dec c c).
Qed.

Lemma index_found sub s : sub <> "" -> String.index 0 sub (sub +:+ s) = Some 0%nat.
Proof.
  intros Hne. pose proof (prefix_app sub s) as Hp. destruct sub as [|c sub]; [done|].
  rewrite string_app_cons in *. cbn [String.index]. by rewrite Hp.
Qed.

(** A text without the first character of what is searched is passed over. *)
Lemma index_past c sub pre s :
  has_char c pre = false ->
  String.index 0 (String c sub) (pre +:+ s) = Nat.add (String.length pre) <$> String.index 0 (String c sub) s.
Proof.
  induction pre as [|d pre IH]; intros Hc.
  - change ("" +:+ s) with s. by destruct (String.index 0 (String c sub) s).
  - unfold has_char in Hc, IH. cbn [String.list_ascii_of_string existsb] in Hc. apply orb_false_iff in Hc as [Hd Hc].
    rewrite string_app_cons, index_skip.
    + rewrite IH by done. by destruct (String.index 0 (String c sub) s).
    + apply prefix_other. intros ->. by rewrite Ascii.eqb_refl in Hd.
Qed.

Lemma has_char_quoted c q s : c <> q -> has_char c s = false -> has_char c (double_quotes q s) = false.
Proof.
  intros Hq. unfold has_char. induction s as [|d s IH]; [done|]. cbn [String.list_ascii_of_string existsb].
  intros [Hd Hs]%orb_false_iff. cbn [double_quotes].
  assert (Hcq : Ascii.eqb c q = false) by (by destruct (Ascii.eqb_spec c q)).
  destruct (Ascii.eqb_spec d q) as [->|]; cbn [String.list_ascii_of_string existsb]; rewrite ?Hcq, ?Hd, IH; done.
Qed.

Lemma quoted_has_no_space name : require_identifier name = Ok tt -> has_char " " (quote_identifier name) = false.
Proof.
  intros Hn. unfold quote_identifier, quote_with.
  change (String dquote (double_quotes dquote name +:+ string_of_char dquote))
    with (string_of_char dquote +:+ (double_quotes dquote name +:+ string_of_char dquote)).
  rewrite !has_char_app, has_char_quoted; [done|done|by apply identifier_lacks].
Qed.

Lemma quoted_starts name s : exists t, quote_identifier name +:+ s = String dquote t.
Proof. unfold quote_identifier, quote_with. rewrite string_app_cons. by eexists. Qed.

Lemma substring_app a b : String.substring 0 (String.length a) (a +:+ b) = a.
Proof. induction a as [|c a IH]; [by destruct b|]. rewrite string_app_cons. cbn. by rewrite IH. Qed.

Lemma erase_between a b c : erase_at (String.length a) (String.length b) (a +:+ b +:+ c) = a +:+ c.
Proof.
  unfold erase_at. rewrite substring_app. f_equal.
  replace (String.length a + String.length b)%nat with (String.length (a +:+ b)) by apply string_length_app.
  rewrite <- string_app_assoc. apply skip_app.
Qed.

(** ** A build on the copy *)

(** What stands before the name of an index. *)
Definition build_head (unique : bool) : string := "CREATE " +:+ (if unique then "UNIQUE " else "") +:+ "INDEX".

Definition build_rest (only : bool) (schema table tail : string) : string :=
  (if only then "ONLY " else "") +:+ quote_qualified (schema +:+ "." +:+ table) +:+ tail +:+ ";".

Lemma render_build u c only name rel tail :
  render (CreateIndex u c only name rel tail)
  = build_head u +:+ (if c then " CONCURRENTLY" else "") +:+ " " +:+ quote_identifier name +:+ " ON "
    +:+ (if only then "ONLY " else "") +:+ quote_qualified rel +:+ tail +:+ ";".
Proof. unfold build_head. cbn [render]. destruct u, c, only; done. Qed.

Lemma head_on u T :
  String.prefix " ON " (String " " T) = false ->
  String.index 0 " ON " (build_head u +:+ " " +:+ T) = Nat.add (String.length (build_head u +:+ " ")) <$> String.index 0 " ON " T.
Proof.
  intros HT. destruct u; cbn [build_head]; unfold build_head; rewrite ?string_app_assoc, ?string_app_cons, ?string_app_nil_l;
    repeat (rewrite index_skip by (assumption || reflexivity)); by destruct (String.index 0 " ON " T).
Qed.

Lemma head_concurrently u T :
  String.prefix " CONCURRENTLY " (String " " T) = false ->
  String.index 0 " CONCURRENTLY " (build_head u +:+ " " +:+ T)
  = Nat.add (String.length (build_head u +:+ " ")) <$> String.index 0 " CONCURRENTLY " T.
Proof.
  intros HT. destruct u; unfold build_head; rewrite ?string_app_assoc, ?string_app_cons, ?string_app_nil_l;
    repeat (rewrite index_skip by (assumption || reflexivity)); by destruct (String.index 0 " CONCURRENTLY " T).
Qed.

(** The first [" ON "] is the one after the name. *)
Lemma found_on u name R :
  require_identifier name = Ok tt ->
  String.index 0 " ON " (build_head u +:+ " " +:+ quote_identifier name +:+ " ON " +:+ R)
  = Some (String.length (build_head u +:+ " " +:+ quote_identifier name)).
Proof.
  intros Hn. destruct (quoted_starts name (" ON " +:+ R)) as [t Ht].
  rewrite head_on by (by rewrite Ht). rewrite index_past by (by apply quoted_has_no_space).
  rewrite <- string_app_assoc, (string_length_app (build_head u +:+ " ")).
  rewrite index_found by done. simpl. f_equal. lia.
Qed.

Lemma index_on_copy_plain u name R :
  require_identifier name = Ok tt ->
  index_on_copy (build_head u +:+ " " +:+ quote_identifier name +:+ " ON " +:+ R)
  = build_head u +:+ " " +:+ quote_identifier name +:+ " ON " +:+ R.
Proof.
  intros Hn. unfold index_on_copy. rewrite found_on by done.
  destruct (quoted_starts name (" ON " +:+ R)) as [t Ht].
  rewrite head_concurrently by (by rewrite Ht). rewrite index_past by (by apply quoted_has_no_space).
  change (" ON " +:+ R) with (String " " (String "O" (String "N" (String " " R)))).
  rewrite index_skip by done.
  destruct (String.index 0 " CONCURRENTLY " _) as [n|]; [|done]. cbn [fmap option_fmap option_map].
  destruct (Nat.ltb_spec (String.length (build_head u +:+ " ") + (String.length (quote_identifier name) + S n))
              (String.length (build_head u +:+ " " +:+ quote_identifier name))) as [Hlt|_]; [|done].
  rewrite <- string_app_assoc, !string_length_app in Hlt. lia.
Qed.

Lemma index_on_copy_concurrently u name R :
  require_identifier name = Ok tt ->
  index_on_copy (build_head u +:+ " CONCURRENTLY" +:+ " " +:+ quote_identifier name +:+ " ON " +:+ R)
  = build_head u +:+ " " +:+ quote_identifier name +:+ " ON " +:+ R.
Proof.
  intros Hn. set (T := quote_identifier name +:+ " ON " +:+ R).
  assert (Hc : String.index 0 " CONCURRENTLY " (build_head u +:+ " CONCURRENTLY" +:+ " " +:+ T)
               = Some (String.length (build_head u))).
  { change (" CONCURRENTLY" +:+ " " +:+ T) with (" CONCURRENTLY " +:+ T).
    pose proof (index_found " CONCURRENTLY " T ltac:(done)) as Hf. revert Hf.
    generalize (" CONCURRENTLY " +:+ T). intros X Hf.
    destruct u; unfold build_head; rewrite ?string_app_assoc, ?string_app_cons, ?string_app_nil_l;
      repeat (rewrite index_skip by reflexivity); by rewrite Hf. }
  assert (Ho : String.index 0 " ON " (build_head u +:+ " CONCURRENTLY" +:+ " " +:+ T)
               = Nat.add (String.length (build_head u +:+ " CONCURRENTLY ")) <$> String.index 0 " ON " T).
  { assert (HT : String.prefix " ON " (String " " T) = false).
    { destruct (quoted_starts name (" ON " +:+ R)) as [t Ht]. unfold T. by rewrite Ht. }
    destruct u; unfold build_head; rewrite ?string_app_assoc, ?string_app_cons, ?string_app_nil_l;
      repeat (rewrite index_skip by (assumption || reflexivity)); by destruct (String.index 0 " ON " T). }
  unfold index_on_copy. rewrite Hc, Ho. unfold T. rewrite index_past by (by apply quoted_has_no_space).
  rewrite index_found by done. cbn [fmap option_fmap option_map].
  destruct (Nat.ltb_spec (String.length (build_head u)) (String.length (build_head u +:+ " CONCURRENTLY ")
              + (String.length (quote_identifier name) + 0))) as [_|Hge]; [by rewrite erase_between|].
  rewrite string_length_app in Hge. simpl in Hge. lia.
Qed.

Lemma skip_past a b r : skip (String.length (a +:+ b)) (a +:+ b +:+ r) = r.
Proof. rewrite <- string_app_assoc. apply skip_app. Qed.

(** The relation after [A] replaced by the copy. *)
Lemma replaced_relation A schema table r :
  require_identifier schema = Ok tt -> not_at dquote r ->
  let q := quote_qualified (schema +:+ "." +:+ table) in
  let s := A +:+ q +:+ r in
  let rel := quoted_relation_at (skip (String.length A) s) in
  rel = q /\ String.eqb rel "" = false
  /\ String.substring 0 (String.length A) s +:+ kEmptyCopy +:+ skip (String.length A + String.length rel) s = A +:+ kEmptyCopy +:+ r.
Proof.
  intros Hs Hr q s rel.
  assert (Hrel : rel = q) by (unfold rel, s; rewrite skip_app; by apply quoted_relation_app).
  rewrite Hrel. split_and!; [done| |].
  - unfold q. by rewrite quote_qualified_parts by done.
  - unfold s. rewrite substring_app, <- string_length_app, skip_past. done.
Qed.

Lemma built_on_copy u name (only : bool) schema table tail :
  require_identifier name = Ok tt -> require_identifier schema = Ok tt -> not_at dquote (tail +:+ ";") ->
  let q := quote_qualified (schema +:+ "." +:+ table) in
  let s := build_head u +:+ " " +:+ quote_identifier name +:+ " ON " +:+ (if only then "ONLY " else "") +:+ q +:+ tail +:+ ";" in
  (on ← String.index 0 " ON " s;
   let target := copy_target (on + 4) s in
   let rel := quoted_relation_at (skip target s) in
   if String.eqb rel "" then None
   else Some (rel, String.substring 0 target s +:+ kEmptyCopy +:+ skip (target + String.length rel) s))
  = Some (q, build_head u +:+ " " +:+ quote_identifier name +:+ " ON " +:+ (if only then "ONLY " else "")
             +:+ kEmptyCopy +:+ tail +:+ ";").
Proof.
  intros Hn Hs Hr q s. unfold s. rewrite found_on by done. cbn [mbind option_bind].
  set (A := build_head u +:+ " " +:+ quote_identifier name +:+ " ON ").
  assert (HA : forall r, build_head u +:+ " " +:+ quote_identifier name +:+ " ON " +:+ r = A +:+ r).
  { intros r. unfold A. by rewrite !string_app_assoc. }
  assert (Hlen : (String.length (build_head u +:+ " " +:+ quote_identifier name) + 4)%nat = String.length A).
  { unfold A. rewrite !string_length_app. cbn [String.length]. lia. }
  rewrite Hlen, !HA. unfold copy_target. rewrite skip_app. destruct only.
  - rewrite prefix_app. set (B := A +:+ "ONLY ").
    assert (HB : forall r, A +:+ "ONLY " +:+ r = B +:+ r) by (intros r; unfold B; by rewrite string_app_assoc).
    assert (HlenB : (String.length A + 5)%nat = String.length B) by (unfold B; by rewrite string_length_app).
    rewrite HlenB, !HB.
    pose proof (replaced_relation B schema table (tail +:+ ";") Hs Hr) as Hx. cbv zeta in Hx |- *. fold q in Hx.
    destruct Hx as (Hrel & Hne & Hsub). rewrite Hne, Hsub. by rewrite Hrel.
  - assert (Hp : String.prefix "ONLY " ("" +:+ q +:+ tail +:+ ";") = false).
    { unfold q. rewrite quote_qualified_parts, string_app_nil_l, string_app_assoc by done.
      destruct (quoted_starts schema (String "." (quote_identifier table) +:+ tail +:+ ";")) as [t ->]. by apply prefix_other. }
    rewrite Hp. rewrite !string_app_nil_l.
    pose proof (replaced_relation A schema table (tail +:+ ";") Hs Hr) as Hx. cbv zeta in Hx |- *. fold q in Hx.
    destruct Hx as (Hrel & Hne & Hsub). rewrite Hne, Hsub. by rewrite Hrel.
Qed.

(** An index build the dry run leaves out is checked on an empty copy of its
    table, and what is checked is its own definition: for every build the rules
    write, unique or not, concurrent or not, ON ONLY the parent or not, the
    rewriting of the statement's text finds the relation it names, and the statement
    that runs on the copy is the build's with CONCURRENTLY gone and the relation
    replaced, whatever the definition after it says. *)
Theorem copy_checks_the_definition u c (only : bool) name schema table tail :
  require_identifier name = Ok tt -> require_identifier schema = Ok tt -> not_at dquote (tail +:+ ";") ->
  let rel := schema +:+ "." +:+ table in
  statement_on_copy (render (CreateIndex u c only name rel tail))
  = Some (quote_qualified rel,
          build_head u +:+ " " +:+ quote_identifier name +:+ " ON " +:+ (if only then "ONLY " else "")
          +:+ kEmptyCopy +:+ tail +:+ ";").
Proof.
  intros Hn Hs Hr rel. rewrite render_build. unfold statement_on_copy.
  set (R := (if only then "ONLY " else "") +:+ quote_qualified rel +:+ tail +:+ ";").
  assert (Hpre : forall X, String.prefix "CREATE INDEX " (build_head u +:+ " " +:+ X)
                 || String.prefix "CREATE UNIQUE INDEX " (build_head u +:+ " " +:+ X) = true).
  { intros X. destruct u.
    - change (build_head true +:+ " " +:+ X) with ("CREATE UNIQUE INDEX " +:+ X). rewrite prefix_app. apply orb_true_r.
    - change (build_head false +:+ " " +:+ X) with ("CREATE INDEX " +:+ X). by rewrite prefix_app. }
  destruct c.
  - change (" CONCURRENTLY" +:+ " " +:+ quote_identifier name +:+ " ON " +:+ R)
      with (" " +:+ ("CONCURRENTLY" +:+ " " +:+ quote_identifier name +:+ " ON " +:+ R)).
    rewrite Hpre. change (" " +:+ ("CONCURRENTLY" +:+ " " +:+ quote_identifier name +:+ " ON " +:+ R))
      with (" CONCURRENTLY" +:+ " " +:+ quote_identifier name +:+ " ON " +:+ R).
    rewrite index_on_copy_concurrently by done. by apply built_on_copy.
  - rewrite string_app_nil_l, Hpre, index_on_copy_plain by done. by apply built_on_copy.
Qed.

(** [copy_checks_the_definition] on a unique concurrent build with a predicate. *)
Lemma copy_checks_the_definition_witness :
  let tail := " USING btree (id) WHERE note <> ' ON CONCURRENTLY '" in
  statement_on_copy (render (CreateIndex true true false "i" "app.orders" tail))
  = Some (quote_qualified "app.orders",
          "CREATE UNIQUE INDEX " +:+ quote_identifier "i" +:+ " ON pg_temp.laswell_shape" +:+ tail +:+ ";").
Proof.
  intros tail.
  exact (copy_checks_the_definition true true false "i" "app" "orders" tail eq_refl eq_refl ltac:(vm_compute; discriminate)).
Defined.

(** ** The modules' answers, merged *)

(** The largest of a field, or the base. *)
Definition largest (f : IndexTraits -> Z) (base : Z) (l : list (string * IndexTraits)) : Z :=
  foldr (fun nt m => Z.max (f nt.2) m) base l.

Lemma largest_max f a b l : largest f (Z.max a b) l = Z.max a (largest f b l).
Proof. induction l as [|x l IH]; [done|]. cbn [largest foldr]. unfold largest in IH. rewrite IH. lia. Qed.

Lemma largest_perm f base l l' : l ≡ₚ l' -> largest f base l = largest f base l'.
Proof. induction 1; cbn [largest foldr] in *; unfold largest in *; lia. Qed.

Lemma merged_fields l m :
  let t := mg_traits (foldl merge_answer m l) in
  it_concurrent t = it_concurrent (mg_traits m) && forallb (fun nt => it_concurrent nt.2) l
  /\ it_size_bytes t = largest it_size_bytes (it_size_bytes (mg_traits m)) l
  /\ it_rows t = largest it_rows (it_rows (mg_traits m)) l
  /\ it_memory_wanted t = largest it_memory_wanted (it_memory_wanted (mg_traits m)) l
  /\ it_memory_per_row t = largest it_memory_per_row (it_memory_per_row (mg_traits m)) l.
Proof.
  revert m; induction l as [|[name x] l IH]; intros m; cbn [foldl]; [by rewrite andb_true_r|].
  destruct (IH (merge_answer m (name, x))) as (-> & -> & -> & -> & ->). cbn [merge_answer mg_traits it_concurrent
    it_size_bytes it_rows it_memory_wanted it_memory_per_row forallb snd].
  rewrite andb_assoc. unfold largest at 2 4 6 8. cbn [foldr snd].
  split_and!; [done|..]; rewrite Z.max_comm; apply largest_max.
Qed.

(** What the modules say of building an index is merged without regard to
    their order, in what decides the build: in whichever order the answers come, a
    concurrent build is ruled out exactly when one of them rules it out, and the
    size, the rows and the memory asked for are the largest, a cost per row counted
    over the rows another module knows. *)
Theorem merged_answers_ignore_order l l' by_ t by_' t' :
  l ≡ₚ l' -> merge_traits l = Some (by_, t) -> merge_traits l' = Some (by_', t') ->
  it_concurrent t = it_concurrent t' /\ it_size_bytes t = it_size_bytes t' /\ it_rows t = it_rows t'
  /\ it_memory_wanted t = it_memory_wanted t'
  /\ (it_concurrent t = false <-> exists n x, (n, x) ∈ l /\ it_concurrent x = false).
Proof.
  intros Hp. unfold merge_traits. destruct l as [|a l]; [done|]. destruct l' as [|a' l']; [done|].
  set (L := a :: l) in *. set (L' := a' :: l') in *.
  destruct (merged_fields L merge_start) as (Hc & Hs & Hr & Hw & Hm).
  destruct (merged_fields L' merge_start) as (Hc' & Hs' & Hr' & Hw' & Hm').
  set (T := mg_traits (foldl merge_answer merge_start L)) in *.
  set (T' := mg_traits (foldl merge_answer merge_start L')) in *.
  assert (Ec : it_concurrent T = it_concurrent T').
  { rewrite Hc, Hc'. cbn [merge_start mg_traits no_traits it_concurrent andb]. apply eq_true_iff_eq.
    rewrite !forallb_forall. by setoid_rewrite <- list_elem_of_In; setoid_rewrite Hp. }
  rewrite (largest_perm _ _ _ _ Hp) in Hs. rewrite (largest_perm _ _ _ _ Hp) in Hr.
  rewrite (largest_perm _ _ _ _ Hp) in Hw. rewrite (largest_perm _ _ _ _ Hp) in Hm.
  intros [= <- <-] [= <- <-]. cbn [it_concurrent it_size_bytes it_rows it_memory_wanted].
  rewrite Hs, Hs', Hr, Hr', Hw, Hw', Hm, Hm', Ec. split_and!; try done.
  rewrite <- Ec, Hc. cbn [merge_start mg_traits no_traits it_concurrent andb]. rewrite <- not_true_iff_false, forallb_forall.
  split.
  - intros Hn. destruct (decide (Exists (fun nt => it_concurrent nt.2 = false) L)) as [He|He].
    + apply Exists_exists in He as ([n x] & Hin & Hx). by exists n, x.
    + destruct Hn. intros x Hx. apply not_false_iff_true. intros Hf. apply He, Exists_exists. exists x.
      split; [by apply list_elem_of_In|done].
  - intros (n & x & Hin & Hx) Hall. apply list_elem_of_In in Hin. specialize (Hall _ Hin). simpl in Hall. congruence.
Qed.

Definition answer (concurrent : bool) (size rows wanted per_row : Z) : IndexTraits :=
  {| it_parts := []; it_concurrent := concurrent; it_per_part_option := ""; it_per_part_unique := false;
     it_size_bytes := size; it_rows := rows; it_scope := ""; it_memory_wanted := wanted; it_memory_per_row := per_row;
     it_memory_by := "" |}.

(** [merged_answers_ignore_order] on a hypertable with a vector column. *)
Lemma merged_answers_ignore_order_witness :
  let ts := ("timescaledb", answer false 5000 10 0 0) in
  let pv := ("pgvector", answer true (-1) (-1) 0 700) in
  exists by_ t by_' t', merge_traits [ts; pv] = Some (by_, t) /\ merge_traits [pv; ts] = Some (by_', t')
    /\ it_memory_wanted t = it_memory_wanted t' /\ it_memory_wanted t' = 7000.
Proof.
  intros ts pv. eexists _, _, _, _. split; [reflexivity|]. split; [reflexivity|]. split; [|reflexivity].
  refine (proj1 (proj2 (proj2 (proj2 (merged_answers_ignore_order [ts; pv] [pv; ts] _ _ _ _ _ eq_refl eq_refl))))).
  apply Permutation_swap.
Defined.
