(* ===== verification/MigrationFacts.v ===== *)
(** * MigrationFacts: what a plan promises the executor

    A plan is laid out for the loop that runs it: ordinals are positions, groups
    never go down, a step that wants a transaction of its own opens one, a step
    that commits by itself shares its group with nothing but its check, and every
    concurrent build is followed by a check that looks at that build's index. An
    undisturbed run of such a plan commits all of its work. *)
From S2P Require Import Prelude Json Canonical Spec Quote Plan Planner Indexes Migration Executor ExecutorFacts.

(** ** The step as the executor reads it *)
Definition executor_step (s : Step) : PlanStep :=
  {| ps_ordinal := st_ordinal s; ps_group := st_group s; ps_kind := st_kind s;
     ps_class := txn_to_string (st_class s); ps_action := action_to_string (st_action s);
     ps_exclusive_retry := detail_flag "exclusive_retry" s;
     ps_index := Some (detail_text "schema" s, detail_text "index" s) |}.

(** ** Groups *)

(** A step that does not run in the transaction of the step before it. *)
Definition begins (s : Step) : bool := st_own s || apart (st_class s).

(** What holds between a step and any later one. *)
Definition laid_out (a b : Step) : Prop :=
  st_group a <= st_group b
  /\ (begins b = true -> st_group a < st_group b)
  /\ (apart (st_class a) = true -> st_group a < st_group b \/ b = verification_of a).

Lemma place_all_app g n l1 l2 :
  place_all g n (l1 ++ l2) =
    ((place_all g n l1).1 ++ (place_all (place_all g n l1).2 (n + Z.of_nat (length l1)) l2).1,
     (place_all (place_all g n l1).2 (n + Z.of_nat (length l1)) l2).2).
Proof.
  revert g n; induction l1 as [|s l1 IH]; intros g n.
  - cbn [app place_all fst snd length Z.of_nat]. rewrite Z.add_0_r. by destruct (place_all g n l2).
  - cbn [app place_all]. destruct (place g n s) as [s' g'] eqn:Hp. rewrite IH.
    destruct (place_all g' (n + 1) l1) as [p1 g1] eqn:H1. cbn [fst snd length].
    replace (n + 1 + Z.of_nat (length l1)) with (n + Z.of_nat (S (length l1))) by lia. done.
Qed.

Lemma place_all_length g n l : length (place_all g n l).1 = length l.
Proof.
  revert g n; induction l as [|s l IH]; intros g n; [done|]. cbn [place_all].
  destruct (place g n s) as [s' g']. specialize (IH g' (n + 1)).
  destruct (place_all g' (n + 1) l). simpl in *. by rewrite IH.
Qed.

Lemma with_verification_cons s l :
  with_verification (s :: l) =
    (if builds_concurrently s then [s; verification_of s] else [s]) ++ with_verification l.
Proof. done. Qed.

Lemma builds_concurrently_apart s : builds_concurrently s = true -> apart (st_class s) = true.
Proof. unfold builds_concurrently. intros [_ ->%bool_decide_eq_true_1]%andb_true_iff. done. Qed.

Lemma verification_begins s : begins (verification_of s) = false.
Proof. done. Qed.

(** Everything after a placed step is in its group or a later one. *)
Lemma after_grouping g n l t :
  g_first g = false -> t ∈ with_verification (place_all g n l).1 ->
  g_group g <= st_group t
  /\ (begins t = true \/ apart (g_previous g) = true -> g_group g < st_group t).
Proof.
  revert g n t; induction l as [|s l IH]; intros g n t Hf; [by rewrite elem_of_nil|].
  cbn [place_all]. unfold place. rewrite Hf. cbn [negb andb].
  set (gr := if boundary_before g s then g_group g + 1 else g_group g).
  set (g' := {| g_group := gr; g_previous := st_class s; g_first := false |}).
  pose proof (IH g' (n + 1)) as IH'. destruct (place_all g' (n + 1) l) as [p1 g1]. cbn [fst] in *.
  rewrite with_verification_cons, elem_of_app. intros Ht.
  assert (Hgr : g_group g <= gr /\ (begins s = true \/ apart (g_previous g) = true -> g_group g < gr)).
  { unfold gr, begins. unfold boundary_before in *.
    destruct (st_own s), (apart (st_class s)), (apart (g_previous g)); simpl; split; try lia; by intros [?|?]. }
  destruct Ht as [Ht|Ht].
  - set (s' := with_place n gr s) in *. assert (Hs' : st_group s' = gr /\ begins s' = begins s) by done.
    destruct (builds_concurrently s') eqn:Hb.
    + apply builds_concurrently_apart in Hb. change (apart (st_class s) = true) in Hb.
      assert (g_group g < gr) by (apply Hgr; left; unfold begins; rewrite Hb; apply orb_true_r).
      apply elem_of_cons in Ht as [->|Ht]; [simpl; lia|]. apply list_elem_of_singleton in Ht as ->.
      simpl. lia.
    + apply list_elem_of_singleton in Ht as ->. simpl. done.
  - destruct (IH' t eq_refl Ht) as [H1 H2]. simpl in H1, H2. split; [lia|].
    intros [Hb|Hp]; [specialize (H2 (or_introl Hb)); lia|].
    assert (g_group g < gr) by (apply Hgr; by right). lia.
Qed.

(** The plan before it is renumbered. *)
Lemma placed_laid_out g n l : StronglySorted laid_out (with_verification (place_all g n l).1).
Proof.
  revert g n; induction l as [|s l IH]; intros g n; [constructor|].
  cbn [place_all]. destruct (place g n s) as [s' g'] eqn:Hp. unfold place in Hp. apply pair_equal_spec in Hp as [Hs Hg].
  pose proof (after_grouping g' (n + 1) l) as Hafter. specialize (IH g' (n + 1)).
  destruct (place_all g' (n + 1) l) as [p1 g1]. cbn [fst] in *. rewrite with_verification_cons.
  assert (Hlater : forall t, t ∈ with_verification p1 ->
    st_group s' <= st_group t /\ (begins t = true \/ apart (st_class s') = true -> st_group s' < st_group t)).
  { intros t Ht. subst s' g'. apply (Hafter t eq_refl Ht). }
  destruct (builds_concurrently s') eqn:Hb; cbn [app].
  - pose proof (builds_concurrently_apart _ Hb) as Hap.
    constructor; [constructor; [done|]|constructor].
    + apply list.Forall_forall. intros t Ht. destruct (Hlater t Ht) as [H1 H2].
      assert (st_group s' < st_group t) by auto. unfold laid_out. change (st_group (verification_of s')) with (st_group s').
      repeat split; intros; lia.
    + unfold laid_out. change (st_group (verification_of s')) with (st_group s').
      rewrite verification_begins. split_and!; [lia|done|auto].
    + apply list.Forall_forall. intros t Ht. destruct (Hlater t Ht) as [H1 H2].
      unfold laid_out. split_and!; auto.
  - constructor; [done|]. apply list.Forall_forall. intros t Ht. destruct (Hlater t Ht) as [H1 H2].
    unfold laid_out. split_and!; auto.
Qed.

Lemma sorted_lookup {A} (R : A -> A -> Prop) l j k a b :
  StronglySorted R l -> (j < k)%nat -> l !! j = Some a -> l !! k = Some b -> R a b.
Proof.
  intros Hs; revert j k; induction Hs as [|x l Hs IH Hx]; intros [|j] [|k] Hjk Ha Hb; try done; try lia; simpl in *.
  - injection Ha as ->. rewrite list.Forall_forall in Hx. apply Hx. by eapply list_elem_of_lookup_2.
  - apply (IH j k); [lia|done..].
Qed.

Lemma verified_lookup l k a :
  with_verification l !! k = Some a -> builds_concurrently a = true ->
  with_verification l !! S k = Some (verification_of a).
Proof.
  revert k; induction l as [|s l IH]; intros k; [done|]. rewrite with_verification_cons.
  destruct (builds_concurrently s) eqn:Hb; destruct k as [|k]; cbn [app lookup list_lookup].
  - intros [= <-]. by destruct l.
  - destruct k as [|k]; cbn [app lookup list_lookup]; [intros [= <-]; done|]. intros Hk Ha. apply IH; done.
  - intros [= <-]. by rewrite Hb.
  - intros Hk Ha. apply IH; done.
Qed.

Lemma renumber_lookup l k :
  renumber l !! k = (fun s => with_place (Z.of_nat k) (st_group s) s) <$> l !! k.
Proof. apply list_lookup_imap. Qed.

Lemma renumber_lookup_inv l k b :
  renumber l !! k = Some b -> exists a, l !! k = Some a /\ b = with_place (Z.of_nat k) (st_group a) a.
Proof. rewrite renumber_lookup. destruct (l !! k) as [a|]; [|done]. intros [= <-]. by exists a. Qed.

(** ** The index a check looks at *)

(** Where a step's ordinal is its position, the inner loop finds that step. *)
Lemma find_ordinal (l : list PlanStep) m k s :
  (forall j x, l !! j = Some x -> ps_ordinal x = Z.of_nat (m + j)) ->
  l !! k = Some s -> ps_kind s = "create_index" ->
  List.find (fun x => (ps_ordinal x =? Z.of_nat (m + k)) && String.eqb (ps_kind x) "create_index") l = Some s.
Proof.
  revert m k; induction l as [|x l IH]; intros m k Ho Hk Hs; [done|]. cbn [List.find].
  pose proof (Ho 0%nat x eq_refl) as Hx. destruct k as [|k].
  - injection Hk as ->. rewrite Hx, Hs, Z.eqb_refl. done.
  - rewrite Hx. destruct (Z.eqb_spec (Z.of_nat (m + 0)) (Z.of_nat (m + S k))) as [?|_]; [lia|]. cbn [andb].
    replace (m + S k)%nat with (S m + k)%nat by lia. apply IH; [|done..].
    intros j y Hy. rewrite (Ho (S j) y Hy). f_equal. lia.
Qed.

Lemma index_name_at (l : list PlanStep) k s :
  (forall j x, l !! j = Some x -> ps_ordinal x = Z.of_nat j) ->
  l !! k = Some s -> ps_kind s = "create_index" ->
  index_name_for l (Z.of_nat (S k)) = default ("", "") (ps_index s).
Proof.
  intros Ho Hk Hs. unfold index_name_for. rewrite Nat2Z.id. cbn [index_name_from]. unfold build_at.
  pose proof (find_ordinal l 0 k s Ho Hk Hs) as Hf. cbn [Nat.add] in Hf. by rewrite Hf.
Qed.

(** ** What the executor is given *)
Record well_planned (ss : list Step) : Prop := {
  wp_ordinals : forall k s, ss !! k = Some s -> st_ordinal s = Z.of_nat k;
  wp_groups : forall j k a b, (j < k)%nat -> ss !! j = Some a -> ss !! k = Some b ->
    st_group a <= st_group b /\ (begins b = true -> st_group a < st_group b);
  wp_apart : forall j k a b, (j < k)%nat -> ss !! j = Some a -> ss !! k = Some b ->
    apart (st_class a) = true -> st_group a < st_group b \/ st_kind b = "verify_index_valid";
  wp_checked : forall k a, ss !! k = Some a -> builds_concurrently a = true ->
    exists b, ss !! S k = Some b /\ st_kind b = "verify_index_valid" /\ st_class b = kOptional
      /\ st_group b = st_group a
      /\ index_name_for (executor_step <$> ss) (st_ordinal b) = (detail_text "schema" a, detail_text "index" a);
}.

Lemma placed_well_planned g n l : well_planned (renumber (with_verification (place_all g n l).1)).
Proof.
  pose proof (placed_laid_out g n l) as Hl. set (f := with_verification _) in *.
  assert (Hord : forall k s, renumber f !! k = Some s -> st_ordinal s = Z.of_nat k).
  { intros k s (a & _ & ->)%renumber_lookup_inv. done. }
  split; [done|..].
  - intros j k a b Hjk (a' & Ha & ->)%renumber_lookup_inv (b' & Hb & ->)%renumber_lookup_inv.
    destruct (sorted_lookup _ _ _ _ _ _ Hl Hjk Ha Hb) as (H1 & H2 & _). done.
  - intros j k a b Hjk (a' & Ha & ->)%renumber_lookup_inv (b' & Hb & ->)%renumber_lookup_inv Hap.
    destruct (sorted_lookup _ _ _ _ _ _ Hl Hjk Ha Hb) as (_ & _ & H3). destruct (H3 Hap) as [?|He]; [by left|].
    right. by rewrite He.
  - intros k a Hk Hb. destruct (renumber_lookup_inv _ _ _ Hk) as (a' & Ha & ->).
    pose proof (verified_lookup _ _ _ Ha Hb) as Hv. fold f in Hv. eexists. rewrite renumber_lookup, Hv. split; [done|].
    split_and!; [done..|]. cbn [st_ordinal with_place].
    rewrite (index_name_at _ k (executor_step (with_place (Z.of_nat k) (st_group a') a'))).
    + done.
    + intros j x. rewrite list_lookup_fmap. intros (y & Hy & ->)%fmap_Some. by apply Hord.
    + by rewrite list_lookup_fmap, Hk.
    + unfold builds_concurrently in Hb. bool_prop. apply String.eqb_eq. done.
Qed.

(** ** What the passes keep of a step *)
Definition frame (s : Step) : string * TxnClass * Action * bool := (st_kind s, st_class s, st_action s, st_own s).

(** [b] is [a] with locks, comments and notes added. *)
Definition touched (a b : Step) : Prop :=
  frame b = frame a
  /\ forall r n, ValidateConstraint r n ∈ st_sql b -> ValidateConstraint r n ∈ st_sql a.

#[export] Instance touched_preorder : PreOrder touched.
Proof.
  split; [by intros s|]. intros a b c [Hf1 Hs1] [Hf2 Hs2]. split; [congruence|auto].
Qed.

Lemma touched_fmap (f : Step -> Step) ss : (forall s, touched s (f s)) -> Forall2 touched ss (f <$> ss).
Proof. intros Hf. induction ss; csimpl; constructor; auto. Qed.

Lemma touched_refl ss : Forall2 touched ss ss.
Proof. by induction ss; constructor. Qed.

Lemma weaker_lock_first_touched rels s : touched s (weaker_lock_first rels s).
Proof.
  split; [done|]. intros r n. change (st_sql (weaker_lock_first rels s)) with ((LockTable <$> rels) ++ st_sql s).
  rewrite elem_of_app, list_elem_of_fmap. intros [(x & [=] & _)|?]; done.
Qed.

Lemma take_weaker_lock_first_touched i o ss : Forall2 touched ss (take_weaker_lock_first i o ss).
Proof.
  unfold take_weaker_lock_first. destruct (List.filter _ _) as [|r rs]; [apply touched_refl|].
  apply touched_fmap. intros s. case_match; [apply weaker_lock_first_touched|done].
Qed.

Lemma check_folded_touched l s :
  touched s (foldl (fun s q => match statement_on_copy (render q) with
                               | Some (rel, sql) => check_on_empty_copy rel sql s
                               | None => s
                               end) s l).
Proof.
  revert s; induction l as [|q l IH]; intros s; [done|]. cbn [foldl].
  etransitivity; [|apply IH]. by destruct (statement_on_copy (render q)) as [[rel sql]|].
Qed.

Lemma check_definitions_touched i ss : Forall2 touched ss (check_definitions_on_empty_copy i ss).
Proof.
  unfold check_definitions_on_empty_copy.
  assert (Forall2 touched ss (checks_on_copy <$> ss)).
  { apply touched_fmap. intros s. unfold checks_on_copy. case_match; [apply check_folded_touched|done]. }
  destruct (kind i); first [done|apply touched_refl].
Qed.

Lemma lift_statement_timeout_touched s : touched s (lift_statement_timeout s).
Proof. unfold lift_statement_timeout. by case_match. Qed.

Lemma on_last_run_touched f ss : (forall s, touched s (f s)) -> Forall2 touched ss (on_last_run f ss).
Proof.
  intros Hf. induction ss as [|s ss IH]; [constructor|]. simpl.
  case_match; constructor; auto; [apply touched_refl|done].
Qed.

Lemma touched_rev ss ss' : Forall2 touched ss ss' -> Forall2 touched (rev ss) (rev ss').
Proof. induction 1; simpl; [constructor|]. apply Forall2_app; [done|]. constructor; [done|apply touched_refl]. Qed.

Lemma append_creation_comment_touched i ss : Forall2 touched ss (append_creation_comment i ss).
Proof.
  unfold append_creation_comment. case_match; [apply touched_refl|].
  case_match; [|apply touched_refl]. rewrite <- (rev_involutive ss) at 1.
  apply touched_rev, on_last_run_touched. intros x. split; [done|]. intros r n.
  cbn [st_sql with_sql]. rewrite elem_of_app, list_elem_of_singleton. by intros [?|[=]].
Qed.

Lemma mark_memory_touched mb s : touched s (mark_memory mb s).
Proof. unfold mark_memory. by case_match. Qed.

Lemma finish_steps_touched i o mb ss : Forall2 touched ss (mark_memory mb <$> finish_steps i o ss).
Proof.
  unfold finish_steps.
  etransitivity; [apply take_weaker_lock_first_touched|].
  etransitivity; [apply check_definitions_touched|].
  etransitivity; [apply touched_fmap, lift_statement_timeout_touched|].
  etransitivity; [apply append_creation_comment_touched|].
  apply touched_fmap, mark_memory_touched.
Qed.

(** A step that is no refusal and no check of an index; a scan opens its transaction. *)
Definition sound (s : Step) : Prop :=
  st_kind s <> "verify_index_valid" /\ st_action s <> kConflict
  /\ forall r n, ValidateConstraint r n ∈ st_sql s -> begins s = true.

Lemma sound_touched ss ss' : Forall2 touched ss ss' -> Forall sound ss -> Forall sound ss'.
Proof.
  induction 1 as [|a b ss ss' [Hf Hs] _ IH]; [done|]. intros [(Hk & Hc & Hv) Hr]%Forall_cons.
  constructor; [|auto]. unfold frame in Hf. injection Hf as E1 E2 E3 E4.
  split_and!; [congruence..|]. unfold begins. rewrite E2, E4. intros r n Hrn. by apply (Hv r n), Hs.
Qed.

(** ** The rules' steps are sound *)
Definition no_scan (q : Stmt) : bool := match q with ValidateConstraint _ _ => false | _ => true end.

Lemma sound_make kind c own sql lock why d :
  kind <> "verify_index_valid" -> own || apart c || forallb no_scan sql = true ->
  sound (make kind c own sql lock why d).
Proof.
  intros Hk H. split_and!; [done..|]. cbn [make st_sql]. intros r n Hrn. unfold begins. cbn [make st_own st_class].
  destruct (own || apart c); [done|]. cbn [orb] in H. rewrite forallb_forall in H.
  apply list_elem_of_In, H in Hrn. done.
Qed.

Lemma sound_weaker rels s : sound s -> sound (weaker_lock_first rels s).
Proof.
  intros Hs. assert (H : Forall sound [weaker_lock_first rels s]); [|by inversion H].
  apply (sound_touched [s]); [|by constructor]. constructor; [apply weaker_lock_first_touched|constructor].
Qed.

Lemma sound_satisfied k why : k <> "verify_index_valid" -> sound (with_action kSatisfied why (new_step k)).
Proof. intros Hk. split_and!; [done..|]. intros r n H. by apply not_elem_of_nil in H. Qed.

Lemma sound_raise `{Vendors} tr o cfg s : sound s -> sound (raise_build_memory tr o cfg s).
Proof. intros Hs. unfold raise_build_memory. repeat case_match; done. Qed.

(** Where a table cannot be partitioned the rules emit no check of their own. *)
Definition unpartitioned (o : Observations) : Prop :=
  forall q t, o_tables o !! q = Some t -> t_kind t <> "partitioned_table".

Lemma unpartitioned_table o q : unpartitioned o -> t_kind (table_obs o q) <> "partitioned_table".
Proof. intros Ho. unfold table_obs. destruct (o_tables o !! q) eqn:E; [by eapply Ho|done]. Qed.

Create HintDb rules.
#[export] Hint Resolve sound_weaker sound_satisfied sound_raise : rules.
#[export] Hint Resolve List.Forall_nil List.Forall_cons : rules.
#[export] Hint Extern 2 (sound (make _ _ _ _ _ _ _)) => apply sound_make; [assumption|reflexivity] : rules.
#[export] Hint Extern 3 (sound (set_detail _ _ ?s)) => change (sound s) : rules.
#[export] Hint Extern 3 (sound (with_lock _ ?s)) => change (sound s) : rules.
#[export] Hint Extern 3 (sound (do_not_rehearse _ _ ?s)) => change (sound s) : rules.

(** Every branch of a rule, its steps one by one. *)
Ltac rule_sound :=
  repeat (case_match; cbn [e_steps e_conflicts emit refuse satisfied app negb andb bool_decide]);
  try discriminate; try (intros _);
  repeat (apply List.Forall_nil || apply List.Forall_cons); eauto 6 with rules.

Section Sound.
Context `{Vendors, Printing}.

Lemma sound_one_step s tr by_ q what lock blocks one w :
  validate_in_one_step s tr by_ q what lock blocks = (one, w) -> st_kind s <> "verify_index_valid" ->
  st_action s = kApply -> sound one.
Proof.
  unfold validate_in_one_step. intros Hv Hk Ha. apply pair_equal_spec in Hv as [<- _].
  case_match; (split_and!; [done|cbn; congruence|]; intros; reflexivity).
Qed.
#[local] Hint Resolve sound_one_step : rules.

Lemma sound_check i o : kind_name i <> "verify_index_valid" ->
  e_conflicts (plan_add_check_constraint i o) = [] -> Forall sound (e_steps (plan_add_check_constraint i o)).
Proof. intros Hk. unfold plan_add_check_constraint. rule_sound. Qed.

Lemma sound_foreign_key i o : kind_name i <> "verify_index_valid" ->
  e_conflicts (plan_add_foreign_key i o) = [] -> Forall sound (e_steps (plan_add_foreign_key i o)).
Proof. intros Hk. unfold plan_add_foreign_key. case_match; [discriminate|]. cbn [e_steps e_conflicts]. rule_sound. Qed.

Lemma sound_not_null_step i q lock why :
  kind_name i <> "verify_index_valid" -> sound (not_null_step i q lock why).
Proof. intros Hk. unfold not_null_step. case_match; [|apply sound_weaker]; by apply sound_make. Qed.
#[local] Hint Resolve sound_not_null_step : rules.

Lemma sound_not_null i o : kind_name i <> "verify_index_valid" ->
  e_conflicts (plan_set_not_null i o) = [] -> Forall sound (e_steps (plan_set_not_null i o)).
Proof. intros Hk. unfold plan_set_not_null. rule_sound. Qed.

Lemma sound_drop_constraint i o : kind_name i <> "verify_index_valid" ->
  e_conflicts (plan_drop_constraint i o) = [] -> Forall sound (e_steps (plan_drop_constraint i o)).
Proof. intros Hk. unfold plan_drop_constraint. rule_sound. Qed.

Lemma sound_drop_index i o : kind_name i <> "verify_index_valid" ->
  e_conflicts (plan_drop_index i o) = [] -> Forall sound (e_steps (plan_drop_index i o)).
Proof. intros Hk. unfold plan_drop_index. rule_sound. Qed.

Lemma sound_by_parts i tr by_ tail b :
  kind_name i <> "verify_index_valid" -> Forall sound (e_steps (plan_index_by_parts i tr by_ tail b)).
Proof.
  intros Hk. unfold plan_index_by_parts.
  assert (Hb : forall total pos p, Forall sound (part_build i tail total pos p)).
  { intros. unfold part_build. rule_sound. }
  case_match; [rule_sound|]. cbn [e_steps]. apply Forall_app. split; [rule_sound|].
  apply Forall_concat, Forall_lookup_2. intros k l. rewrite list_lookup_imap.
  intros (p & _ & ->)%fmap_Some. apply Hb.
Qed.

Lemma sound_compared i l ws s cs :
  kind_name i <> "verify_index_valid" -> compare_all i l = (ws, Some (s, cs)) -> cs = [] -> sound s.
Proof.
  intros Hk. revert ws; induction l as [|[key ex] l IH]; intros ws; [done|]. cbn [compare_all].
  destruct (compare_existing i key ex) as [ws'|s' cs'] eqn:Hc.
  - destruct (compare_all i l) as [ws'' r] eqn:Hl. intros [= _ ->] ?. by eapply IH.
  - intros [= _ <- <-]. revert Hc. unfold compare_existing, equivalent_index.
    repeat case_match; intros [= <- <-] ?; try discriminate; eauto with rules.
Qed.

Lemma sound_table_build i t tr dropping detail s ws :
  kind_name i <> "verify_index_valid" -> forallb no_scan dropping = true ->
  table_build i t tr dropping detail = Some (s, ws) -> sound s.
Proof.
  intros Hk Hd. unfold table_build.
  assert (Hb : forall u c n q tail, forallb no_scan
    (dropping ++ [CreateIndex u c false n q tail]) = true).
  { intros. by rewrite forallb_app, Hd. }
  assert (Hm : forall c u cc n q tail lock why d,
    sound (make (kind_name i) c false (dropping ++ [CreateIndex u cc false n q tail]) lock why d)).
  { intros. apply sound_make; [done|]. by rewrite Hb, orb_true_r. }
  destruct (default ("", no_traits) tr) as [by_ x].
  destruct (no_concurrent tr && negb (builds_plainly i t tr)).
  - destruct (negb (String.eqb (it_per_part_option x) "") && _).
    + destruct (per_part_option_sql (it_per_part_option x)); [|done]. cbn [mbind option_bind].
      intros [= <- _]. case_match; apply Hm.
    + intros [= <- _]. case_match; apply Hm.
  - case_match; intros [= <- _]; apply Hm.
Qed.

Lemma sound_finish i t tr o cfg s : sound s -> sound (finish_build i t tr o cfg s).
Proof.
  intros Hs. destruct (sound_raise tr o cfg s Hs) as (Hk & Hc & Hv). split_and!; [done..|]. intros r n.
  change (ValidateConstraint r n ∈ st_sql (raise_build_memory tr o cfg s) ++ [comment_on_index i]
          -> begins (raise_build_memory tr o cfg s) = true).
  rewrite elem_of_app, list_elem_of_singleton. intros [?|[=]]. by apply (Hv r n).
Qed.

Lemma sound_create_index i o cfg e :
  kind_name i <> "verify_index_valid" -> unpartitioned o -> plan_create_index i o cfg = Some e -> e_conflicts e = [] ->
  Forall sound (e_steps e).
Proof.
  intros Hk Ho. unfold plan_create_index. case_match; [by intros [= <-]|].
  assert (Hbuild : forall rebuild e, build_index i (table_obs o (in_qualified i)) o cfg rebuild = Some e -> Forall sound (e_steps e)).
  { intros rebuild e'. unfold build_index. pose proof (unpartitioned_table o (in_qualified i) Ho) as Hp.
    destruct (String.eqb_spec (t_kind (table_obs o (in_qualified i))) "partitioned_table"); [done|].
    set (tr := index_traits o (in_qualified i) i). destruct (default ("", no_traits) tr) as [by_ x].
    pose proof (sound_by_parts i x by_ (index_tail i) false Hk) as Hparts. revert Hparts.
    generalize (plan_index_by_parts i x by_ (index_tail i) false). intros parts Hparts.
    destruct (_ && match index_parts_missing _ _ with Some _ => true | None => false end).
    - intros [= <-]. cbn [e_steps]. apply Forall_fmap.
      eapply Forall_impl; [exact Hparts|]. intros s Hs.
      assert (Hif : forall b : bool, sound (if b then raise_build_memory tr o cfg s else s))
        by (intros []; auto using sound_raise). apply Hif.
    - destruct (table_build _ _ _ _ _) as [[s ws]|] eqn:Hb; [|done]. cbn [mbind option_bind].
      intros [= <-]. cbn [e_steps]. constructor; [|constructor]. apply sound_finish.
      eapply sound_table_build; [done| |exact Hb]. by case_match. }
  assert (Hrest : forall rebuild e,
    (let '(ws, ended) := compare_all i (by_key (map_to_list (t_indexes (table_obs o (in_qualified i))))) in
     match ended with
     | Some (s, cs) => Some {| e_steps := [s]; e_warnings := ws; e_conflicts := cs |}
     | None => e ← build_index i (table_obs o (in_qualified i)) o cfg rebuild;
               Some {| e_steps := e_steps e; e_warnings := ws ++ e_warnings e; e_conflicts := e_conflicts e |}
     end) = Some e -> e_conflicts e = [] -> Forall sound (e_steps e)).
  { intros rebuild e'. destruct (compare_all _ _) as [ws [[s cs]|]] eqn:Hc.
    - intros [= <-] ?. constructor; [|constructor]. by eapply sound_compared.
    - destruct (build_index _ _ _ _ _) as [b|] eqn:Hb; [|done]. cbn [mbind option_bind]. intros [= <-] _.
      exact (Hbuild rebuild b Hb). }
  destruct (t_indexes _ !! _) as [ex|]; [|apply Hrest]. destruct (negb (i_is_valid ex)); [apply Hrest|].
  destruct (default _ _) as [by_ x].
  destruct (_ && match index_parts_missing _ _ with Some (S _) => true | _ => false end);
    intros [= <-] _; [by apply sound_by_parts|]. constructor; [|constructor]. auto with rules.
Qed.

End Sound.

(** ** Every intent's steps, placed one after the other *)
Section Planned.
Context `{Vendors, Printing, OtherRules}.

(** What holds of the steps of every intent, on the observations [plan_intents]
    reaches. *)
Context (obs_ok : Observations -> Prop) (intent_ok : Intent -> Prop) (step_ok : Step -> Prop).
Context (cfg : PlannerConfig).
Context (Hdispatch : forall p i rest e pre m o, obs_ok (p_projected p) -> intent_ok i ->
  dispatch cfg p i rest = Some (e, pre, m, o) -> obs_ok o /\ (e_conflicts e = [] -> Forall step_ok (e_steps e))).
Context (Htouched : forall ss ss', Forall2 touched ss ss' -> Forall step_ok ss -> Forall step_ok ss').
Context (Hproject : forall i s o, intent_ok i -> obs_ok o -> obs_ok (project i s o)).

Lemma plan_intents_placed mb l p p' placed :
  plan_intents cfg mb p l = Some p' -> Forall intent_ok l -> obs_ok (p_projected p) ->
  place_all grouping_start 0 placed = (p_steps p, p_grouping p) ->
  (p_conflicts p = [] -> Forall step_ok placed) ->
  exists more, place_all grouping_start 0 more = (p_steps p', p_grouping p')
    /\ (p_conflicts p' = [] -> Forall step_ok more).
Proof.
  revert p placed; induction l as [|i l IH]; intros p placed; [intros [= <-]; eauto|].
  cbn [plan_intents]. unfold plan_intent.
  destruct (dispatch cfg p i l) as [[[[e pre] m] o]|] eqn:Hd; [|done]. cbn [mbind option_bind].
  set (emitted := finish_steps i o (e_steps e)).
  destruct (place_all (p_grouping p) _ _) as [ss g] eqn:Hp.
  intros Hrun [Hi Hl]%Forall_cons Ho Hplaced Hok. destruct (Hdispatch _ _ _ _ _ _ _ Ho Hi Hd) as [Ho' Hsteps].
  apply (IH _ (placed ++ (mark_memory mb <$> emitted)) Hrun Hl); cbn [p_projected p_steps p_grouping p_conflicts].
  - destruct emitted; [done|by apply Hproject].
  - rewrite place_all_app, Hplaced. cbn [fst snd]. rewrite Z.add_0_l.
    pose proof (place_all_length grouping_start 0 placed) as Hlen. rewrite Hplaced in Hlen. cbn [fst] in Hlen.
    rewrite <- Hlen, Hp. done.
  - intros [Hc1 Hc2]%app_eq_nil. apply Forall_app. split; [auto|].
    eapply Htouched; [apply finish_steps_touched|auto].
Qed.
End Planned.

Lemma plan_migration_inv `{Vendors, Printing, OtherRules} spec o cfg p :
  plan_migration spec o cfg = Some p ->
  (steps p = [] /\ ok p = false)
  \/ exists p', plan_intents cfg (per_step_mb (work_mem o cfg)) (planning_start o) (intents spec) = Some p'
       /\ steps p = renumber (with_verification (p_steps p')) /\ conflicts p = p_conflicts p'
       /\ (refusals spec o cfg).1 = [].
Proof.
  unfold plan_migration. destruct (refusals spec o cfg) as [[|r rs] advised]; [|intros [= <-]; by left].
  destruct (plan_intents _ _ _ _) as [p'|] eqn:Hp; [|done]. cbn [mbind option_bind]. intros [= <-].
  right. by exists p'.
Qed.

Lemma well_planned_nil : well_planned [].
Proof. split; by intros. Qed.

Lemma planned_steps `{Vendors, Printing, OtherRules} spec o cfg p (obs_ok : Observations -> Prop) (intent_ok : Intent -> Prop)
    (step_ok : Step -> Prop) :
  (forall p i rest e pre m o, obs_ok (p_projected p) -> intent_ok i ->
     dispatch cfg p i rest = Some (e, pre, m, o) -> obs_ok o /\ (e_conflicts e = [] -> Forall step_ok (e_steps e))) ->
  (forall ss ss', Forall2 touched ss ss' -> Forall step_ok ss -> Forall step_ok ss') ->
  (forall i s o, intent_ok i -> obs_ok o -> obs_ok (project i s o)) ->
  plan_migration spec o cfg = Some p -> Forall intent_ok (intents spec) -> obs_ok o ->
  exists l, steps p = renumber (with_verification (place_all grouping_start 0 l).1)
    /\ (conflicts p = [] -> Forall step_ok l).
Proof.
  intros Hd Ht Hpr Hp Hi Ho. destruct (plan_migration_inv _ _ _ _ Hp) as [[Hs _]|(p' & Hp' & Hs & Hc & _)].
  - exists []. by rewrite Hs.
  - destruct (plan_intents_placed obs_ok intent_ok step_ok cfg Hd Ht Hpr _ _ _ _ [] Hp' Hi Ho eq_refl) as (l & Hl & Hok);
      [constructor|]. exists l. rewrite Hs, Hc. by rewrite Hl.
Qed.

(** ** The modelled kinds *)
Definition modelled_kind (k : IntentKind) : bool :=
  match k with
  | kCreateIndex | kDropIndex | kSetNotNull | kAddForeignKey | kAddCheckConstraint | kDropConstraint => true
  | _ => false
  end.

Definition modelled (i : Intent) : Prop := modelled_kind (kind i) = true /\ kind_name i <> "verify_index_valid".

Lemma unpartitioned_put o q t :
  unpartitioned o -> t_kind t <> "partitioned_table" -> unpartitioned (with_tables (<[q := t]> (o_tables o)) o).
Proof.
  intros Ho Ht q' t'. cbn [o_tables with_tables]. destruct (decide (q = q')) as [->|Hne].
  - rewrite lookup_insert_eq. by intros [= <-].
  - rewrite lookup_insert_ne by done. apply Ho.
Qed.

Lemma project_unpartitioned `{Vendors, Printing, OtherRules} i s o :
  modelled i -> unpartitioned o -> unpartitioned (project i s o).
Proof.
  intros [Hk _] Ho. unfold project. case_match; [done|].
  assert (names_configuration i = false) as -> by (unfold names_configuration; by destruct (kind i)).
  case_match; [by destruct (kind i)|]. case_match; [by destruct (kind i)|]. destruct (o_tables o !! in_qualified i) as [t|] eqn:Ht; [|done].
  pose proof (Ho _ _ Ht) as Hu. unfold project_table.
  destruct (kind i); try done; try (by apply unpartitioned_put).
  destruct (t_columns t !! _); [by apply unpartitioned_put|done].
Qed.

Lemma dispatch_sound `{Vendors, Printing, OtherRules} cfg p i rest e pre m o :
  unpartitioned (p_projected p) -> modelled i ->
  dispatch cfg p i rest = Some (e, pre, m, o) ->
  unpartitioned o /\ (e_conflicts e = [] -> Forall sound (e_steps e)).
Proof.
  intros Ho [Hk Hn]. unfold dispatch.
  destruct (kind i); try done; [|intros [= <- _ _ <-]; split;
    [done|first [by apply sound_drop_index | by apply sound_not_null | by apply sound_foreign_key
                |by apply sound_check | by apply sound_drop_constraint]]..].
  destruct (plan_create_index i (p_projected p) cfg) as [e'|] eqn:Hc; [|done]. cbn [mbind option_bind].
  intros [= <- _ _ <-]. split; [done|]. by eapply sound_create_index.
Qed.

(** Accepted plans of modelled kinds on ordinary tables. *)
Lemma planned_sound `{Vendors, Printing, OtherRules} spec o cfg p :
  plan_migration spec o cfg = Some p -> Forall modelled (intents spec) -> unpartitioned o ->
  conflicts p = [] ->
  exists l, steps p = renumber (with_verification (place_all grouping_start 0 l).1) /\ Forall sound l.
Proof.
  intros Hp Hi Ho Hc. cut (exists l, steps p = renumber (with_verification (place_all grouping_start 0 l).1)
    /\ (conflicts p = [] -> Forall sound l)); [intros (l & ? & ?); eauto|]. eapply (planned_steps spec o cfg p unpartitioned modelled sound); eauto.
  - intros. by eapply dispatch_sound.
  - apply sound_touched.
  - intros. by apply project_unpartitioned.
Qed.
