(* ===== verification/MigrationRuns.v ===== *)
(** * MigrationRuns: planned, then run

    The plan of a specification handed to the executor's loop: what every plan
    guarantees, that a scan never runs behind an earlier lock of its own
    transaction, that an accepted plan left undisturbed commits all of its work,
    and two places where a plan does not do what it was written to do. *)
From S2P Require Import Prelude Json Canonical Spec Quote Plan Planner Indexes Migration MigrationFacts Executor ExecutorFacts.

(** ** Where a step of the plan comes from *)
Lemma place_all_from g n l t : t ∈ (place_all g n l).1 -> exists a, a ∈ l /\ frame t = frame a /\ st_sql t = st_sql a.
Proof.
  revert g n; induction l as [|s l IH]; intros g n; [by rewrite elem_of_nil|]. cbn [place_all].
  destruct (place g n s) as [s' g'] eqn:Hp. specialize (IH g' (n + 1)).
  destruct (place_all g' (n + 1) l) as [ss g'']. cbn [fst] in *. rewrite elem_of_cons. intros [->|Ht].
  - exists s. unfold place in Hp. apply pair_equal_spec in Hp as [<- _]. split; [by left|done].
  - destruct (IH Ht) as (a & Ha & Hf). exists a. split; [by right|done].
Qed.

Lemma with_verification_from l t :
  t ∈ with_verification l -> t ∈ l \/ exists b, builds_concurrently b = true /\ t = verification_of b.
Proof.
  induction l as [|s l IH]; [intros Ht; by apply not_elem_of_nil in Ht|]. rewrite with_verification_cons, elem_of_app, elem_of_cons.
  destruct (builds_concurrently s) eqn:Hb; rewrite ?elem_of_cons, ?elem_of_nil; naive_solver.
Qed.

Lemma planned_from l k s :
  renumber (with_verification (place_all grouping_start 0 l).1) !! k = Some s ->
  (exists a, a ∈ l /\ frame s = frame a /\ st_sql s = st_sql a)
  \/ exists b, builds_concurrently b = true /\ frame s = frame (verification_of b) /\ st_sql s = [].
Proof.
  intros (t & Ht & ->)%renumber_lookup_inv. apply list_elem_of_lookup_2 in Ht.
  apply with_verification_from in Ht as [Ht|(b & Hb & ->)].
  - left. by apply place_all_from in Ht.
  - right. by exists b.
Qed.

(** A check stands directly after its build when no rule emits one. *)
Lemma verification_after l k v :
  Forall (fun s => st_kind s <> "verify_index_valid") l ->
  with_verification l !! k = Some v -> st_kind v = "verify_index_valid" ->
  exists k' a, k = S k' /\ with_verification l !! k' = Some a /\ builds_concurrently a = true.
Proof.
  intros Hl; revert k; induction Hl as [|s l Hs Hl IH]; intros k; [done|]. rewrite with_verification_cons.
  destruct (builds_concurrently s) eqn:Hb; destruct k as [|k]; cbn [app lookup list_lookup].
  - by intros [= <-].
  - destruct k as [|k]; cbn [app lookup list_lookup]; [intros _ _; by exists 0%nat, s|].
    intros Hk Hv. destruct (IH k Hk Hv) as (k' & a & -> & Ha & Hba). by exists (S (S k')), a.
  - by intros [= <-].
  - intros Hk Hv. destruct (IH k Hk Hv) as (k' & a & -> & Ha & Hba). by exists (S k'), a.
Qed.

Lemma sound_placed l : Forall sound l -> Forall (fun s => st_kind s <> "verify_index_valid") (place_all grouping_start 0 l).1.
Proof.
  intros Hl. apply list.Forall_forall. intros t Ht. apply place_all_from in Ht as (a & Ha & Hf & _).
  rewrite list.Forall_forall in Hl. destruct (Hl a Ha) as [Hk _]. unfold frame in Hf. congruence.
Qed.

(** The plan's checks never meet an open group. *)
Lemma planned_verify_apart l :
  Forall sound l -> verify_apart (executor_step <$> renumber (with_verification (place_all grouping_start 0 l).1)).
Proof.
  intros Hl. pose proof (placed_well_planned grouping_start 0 l) as Hw.
  pose proof (sound_placed l Hl) as Hv. set (f := (place_all grouping_start 0 l).1) in *.
  intros k s i Hk _ Hver _ _ (si & Hi & Hsi & Hg & Hgr & _).
  rewrite list_lookup_fmap in Hk, Hsi. apply fmap_Some in Hk as (v & Hkv & ->). apply fmap_Some in Hsi as (a & Ha & ->).
  destruct (renumber_lookup_inv _ _ _ Hkv) as (v' & Hv' & ->). apply String.eqb_eq in Hver.
  destruct (verification_after f k v' Hv Hv' Hver) as (k' & b & -> & Hb & Hbuild).
  assert (Hb' : renumber (with_verification f) !! k' = Some (with_place (Z.of_nat k') (st_group b) b))
    by (by rewrite renumber_lookup, Hb).
  pose proof (builds_concurrently_apart b Hbuild) as Hap.
  destruct (wp_checked _ Hw k' _ Hb' Hbuild) as (v2 & Hv2 & _ & _ & Hgv & _).
  rewrite Hkv in Hv2. injection Hv2 as <-.
  destruct (decide (i = k')) as [->|Hne].
  - rewrite Hb' in Ha. injection Ha as <-. unfold grouped, needs_own in Hg. cbn in Hg.
    apply andb_true_iff in Hg as [_ Hg]. by destruct (st_class b).
  - destruct (wp_groups _ Hw i k' a _ ltac:(lia) Ha Hb') as [_ Hlt].
    assert (st_group a < st_group b) by (apply Hlt; unfold begins; cbn [with_place st_own st_class]; by rewrite Hap, orb_true_r).
    cbn in Hgr, Hgv. lia.
Qed.

(** ** A concrete world: no modules, one table *)
Definition no_vendors : Vendors :=
  {| constraint_answers := fun _ _ => []; index_answers := fun _ _ _ => []; human_bytes := to_string; confinements := [] |}.

Definition demo_printing : Printing := {| dump := fun _ => "" |}.

(** Rules of the other kinds that emit one statement. *)
Definition one_statement : OtherRules :=
  {| plan_other := fun i _ _ => Some (emit [make (kind_name i) kRequired false [OtherSql "SELECT 1;"] "" "" []], []);
     project_module := fun _ _ o => o;
     plan_guards := fun _ _ _ => ([], []); budget_json := fun _ _ => JObj [] |}.

Definition demo_intent (k : IntentKind) (name : string) (n : Z) (b : list (string * json)) : Intent :=
  {| kind := k; kind_name := name; ordinal := n;
     body := JObj ([("schema", JStr "app"); ("table", JStr "orders")] ++ b) |}.

Definition demo_spec (l : list Intent) : Spec :=
  {| document := JNull; signed_projection := JNull; canonical_bytes := ""; digest := "d"; id := "0001-demo";
     description := ""; rationale := ""; target_connection := ""; target_database := ""; target_environment := "";
     target_epoch := ""; release := ""; min_server_version := 0; depends_on := []; intents := l;
     signatures := JNull |}.

Definition demo_table (kind : string) (parts : list string) : TableObs :=
  {| t_exists := true; t_kind := kind;
     t_columns := {[ "total" := plain_column "numeric" false ]}; t_constraints := ∅;
     t_indexes := ∅; t_lock_waiters := 0; t_size_measured := None; t_size_estimate := 8192;
     t_estimated_from := JNull; t_partitions := parts; t_partition_key := "RANGE (total)";
     t_partition_parts := []; t_blocked := None;
     t_reltuples := 0; t_referenced_by := []; t_row_security := (false, false);
     t_triggers := ∅; t_policies := ∅; t_dependent_views := ∅; t_reloptions := []; t_owner := "";
     t_default_partition := None; t_default_rows := None; t_detach_pending := []; t_is_partition := false;
     t_partition_by := "" |}.

Definition demo_obs (t : TableObs) : Observations :=
  {| o_server_version := 180006; o_is_in_recovery := false; o_shared_buffers_bytes := 134217728;
     o_maintenance_work_mem_kb := 65536; o_tables := {[ "app.orders" := t ]}; o_hypertables := None;
     o_citus := None; o_extension_errors := []; o_objects := ∅ |}.

Definition demo_config : PlannerConfig := 
  {| pc_maintenance_work_mem_mb := 0; pc_max_concurrent_jobs := 4; pc_batch_rows := 1000;
     pc_commit_interval_ms := 1000; pc_batch_cap_rows := 10000; pc_dml_single_txn_rows := 1000;
     pc_max_waiter_wait_ms := 5000 |}.

Definition demo_intents : list Intent :=
  [demo_intent kAddCheckConstraint "add_check_constraint" 0
     [("name", JStr "orders_total_ck"); ("expression", JStr "total >= 0")];
   demo_intent kCreateIndex "create_index" 1
     [("name", JStr "orders_total_key"); ("columns", JArr [JStr "total"]); ("unique", JBool true);
      ("comment", JStr "one order per total")];
   demo_intent kSetNotNull "set_not_null" 2 [("column", JStr "total")]].

Definition demo_plan_of (l : list Intent) (t : TableObs) : option Plan :=
  @plan_migration no_vendors demo_printing one_statement (demo_spec l) (demo_obs t) demo_config.

Example demo_groups :
  (fun s => (st_ordinal s, st_group s, st_kind s)) <$> default [] (steps <$> demo_plan_of demo_intents (demo_table "table" []))
  = [(0, 1, "add_check_constraint"); (1, 2, "add_check_constraint"); (2, 3, "create_index");
     (3, 3, "verify_index_valid"); (4, 4, "set_not_null"); (5, 5, "set_not_null"); (6, 6, "set_not_null");
     (7, 7, "set_not_null")].
Proof. vm_compute. reflexivity. Qed.

(** ** What every plan guarantees *)

(** C16: Whatever the rules of the kinds emit, a plan is laid out for the executor:
    ordinals are the positions from 0; transaction groups never go down along the
    plan; a step that wants its own transaction, cannot run in one or commits by
    itself is in a later group than every step before it; nothing shares the group
    of a step that commits by itself except a check; and every concurrent build by a
    step of kind create_index is directly followed by a check, in its group, for which the executor's
    search finds that build's own schema and index. *)
Theorem plan_is_laid_out `{Vendors, Printing, OtherRules} spec o cfg p :
  plan_migration spec o cfg = Some p -> well_planned (steps p).
Proof.
  intros Hp.
  destruct (planned_steps spec o cfg p (fun _ => True) (fun _ => True) (fun _ => True)) as (l & -> & _); try done.
  - intros. split; [done|]. intros _. by apply list.Forall_true.
  - intros. by apply list.Forall_true.
  - by apply list.Forall_true.
  - apply placed_well_planned.
Qed.

(** [plan_is_laid_out] on a check, a unique index and a NOT NULL. *)
Lemma plan_is_laid_out_witness :
  exists p, demo_plan_of demo_intents (demo_table "table" []) = Some p /\ length (steps p) = 8%nat
    /\ well_planned (steps p).
Proof.
  destruct (demo_plan_of demo_intents (demo_table "table" [])) as [p|] eqn:Hp; [|vm_compute in Hp; discriminate].
  exists p. split; [done|]. split.
  - vm_compute in Hp. injection Hp as <-. reflexivity.
  - exact (@plan_is_laid_out no_vendors demo_printing one_statement _ _ _ p Hp).
Defined.

(** C17: An accepted plan of constraint and index kinds on ordinary tables, run by
    the executor with no lock refused, no failure and no stop, succeeds, and what
    is committed is the work of every step that is not already satisfied: no step
    is left out as a conflict, no check meets a transaction that is open, and every
    validating scan runs in a group none of the steps before it belong to, so no
    lock an earlier step took is held across it. *)
Theorem accepted_plan_runs `{Vendors, Printing, OtherRules} spec o cfg p lock_timeout_ms evs :
  plan_migration spec o cfg = Some p -> ok p = true -> Forall modelled (intents spec) -> unpartitioned o ->
  forallb calm_event evs = true -> (length (steps p) < length evs)%nat ->
  (forall s, s ∈ steps p -> st_action s <> kConflict)
  /\ (forall j k a b r n, (j < k)%nat -> steps p !! j = Some a -> steps p !! k = Some b ->
        ValidateConstraint r n ∈ st_sql b -> st_group a < st_group b)
  /\ exists x, execute (executor_step <$> steps p) lock_timeout_ms exec_start evs = XSucceeded x
       /\ x_db x = work (executor_step <$> steps p).
Proof.
  intros Hp Hok Hi Ho Hc Hl.
  assert (Hcs : conflicts p = []).
  { revert Hp Hok. unfold plan_migration. destruct (refusals spec o cfg) as [[|r rs] adv].
    - destruct (plan_intents _ _ _ _) as [p'|]; [|done]. cbn [mbind option_bind]. intros [= <-]. cbn.
      by destruct (p_conflicts p').
    - by intros [= <-]. }
  destruct (planned_sound spec o cfg p Hp Hi Ho Hcs) as (l & Hs & Hsound). rewrite Hs in *.
  pose proof (placed_well_planned grouping_start 0 l) as Hw. split_and!.
  - intros s [k Hk]%list_elem_of_lookup. apply planned_from in Hk as [(a & Ha & Hf & _)|(b & _ & Hf & _)].
    + rewrite list.Forall_forall in Hsound. destruct (Hsound a Ha) as (_ & Hne & _). unfold frame in Hf. congruence.
    + unfold frame in Hf. cbn in Hf. congruence.
  - intros j k a b r n Hjk Ha Hb Hv. apply (wp_groups _ Hw j k a b Hjk Ha Hb).
    apply planned_from in Hb as [(x & Hx & Hf & Hq)|(x & _ & _ & Hq)]; rewrite Hq in Hv.
    + rewrite list.Forall_forall in Hsound. destruct (Hsound x Hx) as (_ & _ & Hsc).
      specialize (Hsc r n Hv). unfold frame in Hf. injection Hf as _ E2 _ E4. unfold begins in *. congruence.
    + by apply not_elem_of_nil in Hv.
  - pose proof (planned_verify_apart l Hsound) as Hap.
    destruct (execute_calm _ lock_timeout_ms evs exec_start (exec_start_shape _) Hap Hc) as [x Hx].
    { rewrite length_fmap. simpl. lia. }
    exists x. split; [done|].
    pose proof (execute_shape (executor_step <$> renumber (with_verification (place_all grouping_start 0 l).1))
                  lock_timeout_ms evs _ (exec_start_shape _)) as H2. by rewrite Hx in H2.
Qed.

Definition calm : ExecEvent :=
  {| xe_stop := false; xe_commit_ok := true; xe_ran := RanOk; xe_opened_ms := 5; xe_stop_after := false;
     xe_now_ms := 6; xe_begin_written := true; xe_record_written := true; xe_rollback_written := true |}.

(** [accepted_plan_runs] on the same specification. *)
Lemma accepted_plan_runs_witness :
  exists p x, demo_plan_of demo_intents (demo_table "table" []) = Some p /\ ok p = true
    /\ execute (executor_step <$> steps p) 1000 exec_start (replicate 9 calm) = XSucceeded x
    /\ x_db x = [0; 1; 2; 4; 5; 6; 7].
Proof.
  destruct (demo_plan_of demo_intents (demo_table "table" [])) as [p|] eqn:Hp; [|vm_compute in Hp; discriminate].
  assert (Hok : ok p = true) by (vm_compute in Hp; injection Hp as <-; reflexivity).
  assert (Hlen : length (steps p) = 8%nat) by (vm_compute in Hp; injection Hp as <-; reflexivity).
  assert (Hwork : work (executor_step <$> steps p) = [0; 1; 2; 4; 5; 6; 7])
    by (vm_compute in Hp; injection Hp as <-; reflexivity).
  destruct (@accepted_plan_runs no_vendors demo_printing one_statement (demo_spec demo_intents)
              (demo_obs (demo_table "table" [])) demo_config p 1000 (replicate 9 calm) Hp Hok) as (_ & _ & x & Hx & Hdb).
  - repeat constructor; discriminate.
  - intros q t. cbn. rewrite lookup_singleton_Some. intros [_ <-]. discriminate.
  - reflexivity.
  - rewrite Hlen. simpl. lia.
  - exists p, x. rewrite Hdb. split_and!; done.
Defined.

(** ** Where a plan does not do what it was written to do *)

Definition partitioned_demo : list Intent :=
  [demo_intent kCreateIndex "create_index" 0
     [("name", JStr "by_total"); ("columns", JArr [JStr "total"]); ("comment", JStr "")]].

(** The last step of the recipe for a partitioned index is there to see that
    the parent index became valid when every partition was attached, and it names
    that index in its detail. The executor does not read the detail: it looks back
    for the nearest [create_index] step, which is an ATTACH with no index in it,
    finds no name and records the check as succeeded without reading the catalog --
    also when the server would have answered that the index is invalid. *)
Theorem partitioned_index_goes_unverified :
  exists p k v, demo_plan_of partitioned_demo (demo_table "partitioned_table" ["app.orders_1"; "app.orders_2"]) = Some p
    /\ ok p = true /\ steps p !! k = Some v
    /\ st_kind v = "verify_index_valid" /\ detail_text "index" v = "by_total"
    /\ index_name_for (executor_step <$> steps p) (st_ordinal v) = ("", "")
    /\ forall ev x, step_verify (executor_step <$> steps p) (executor_step v) ev x
         = XGoing (next (record_step (xe_record_written ev) (st_ordinal v) "succeeded" x)).
Proof.
  destruct (demo_plan_of partitioned_demo (demo_table "partitioned_table" ["app.orders_1"; "app.orders_2"])) as [p|] eqn:Hp;
    [|vm_compute in Hp; discriminate].
  vm_compute in Hp. injection Hp as <-. eexists _, 7%nat, _.
  do 6 (split; [reflexivity|]). intros ev x. reflexivity.
Qed.

(** [project] writes a view or a materialized view where a later intent of the
    specification would find it, but the kinds that make one name it in "name" and
    have no "table", and [project] returns before that code for an intent without a
    table: what they leave is never projected. So an index on a materialized view
    created by the intent before it is refused, the relation taken to be absent. *)
Theorem views_are_not_projected `{Vendors, Printing, OtherRules} i s o :
  in_table i = "" -> match kind i with kReplaceView | kCreateMaterializedView | kDropView => True | _ => False end ->
  project i s o = o.
Proof.
  intros Ht Hk. unfold project. destruct (bool_decide (st_action s = kApply)); [|done].
  unfold names_configuration. rewrite Ht. by destruct (kind i).
Qed.

(** [views_are_not_projected], and the refusal it leads to. *)
Lemma views_are_not_projected_witness :
  let view := {| kind := kCreateMaterializedView; kind_name := "create_materialized_view"; ordinal := 0;
                 body := JObj [("schema", JStr "app"); ("name", JStr "totals"); ("definition", JStr "SELECT 1");
                               ("comment", JStr "")] |} in
  let index := {| kind := kCreateIndex; kind_name := "create_index"; ordinal := 1;
                  body := JObj [("schema", JStr "app"); ("table", JStr "totals"); ("name", JStr "totals_i");
                                ("columns", JArr [JStr "c"]); ("comment", JStr "")] |} in
  let o := demo_obs (demo_table "table" []) in
  @project no_vendors demo_printing one_statement view (new_step "create_materialized_view") o = o
  /\ conflicts <$> demo_plan_of [view; index] (demo_table "table" []) = Some ["app.totals does not exist"].
Proof.
  intros view index o. split.
  - by apply (@views_are_not_projected no_vendors demo_printing one_statement view).
  - vm_compute. reflexivity.
Defined.
