(* ===== verification/Demos.v ===== *)
(** * Demos: row-level intents, added columns and views on concrete rows

    A table of orders with integers for values, the intents that change it, and the
    theorems of the row-level planners applied to them; the recipe of two columns with
    two sources each, while the application inserts, changes and deletes rows; a stack
    of views over one table. *)
From S2P Require Import Prelude Json Canonical Spec Quote Batches Intents Plan Planner Indexes Migration MigrationFacts MigrationRuns Executor RowSql RowMeaning RowFacts RowPlan Dml Backfill StepReading KeyFacts DmlFacts StepFacts RowRuns AddColumn FillFacts FillText FillSteps Config Views ViewFacts.

(** ** Values, indexes and tables *)
#[local] Instance integer_values : SqlValues Z.
Proof.
  refine {| vlt := Z.ltb |}.
  - split; repeat intro; rewrite ?Is_true_true, ?Z.ltb_lt in *; lia.
  - intros a b Hab. rewrite !Z.ltb_lt. lia.
Defined.

Definition unique_index (primary : bool) (columns : list string) : IndexObs :=
  {| i_is_valid := true; i_is_unique := true; i_constraint_backed := true;
     i_leading_column := default "" (head columns); i_columns := columns;
     i_key_column_count := Some (length columns); i_column_order := []; i_column_opclasses := []; i_method := "btree";
     i_predicate := ""; i_options := None; i_has_expressions := false; i_is_primary := primary; i_says_columns := true;
     i_definition := "" |}.

Definition orders (columns : gmap string ColumnObs) (key : list string) : TableObs :=
  {| t_exists := true; t_kind := "table"; t_columns := columns; t_constraints := ∅;
     t_indexes := {[ "orders_key" := unique_index false key ]}; t_lock_waiters := 0; t_size_measured := None;
     t_size_estimate := 8192; t_estimated_from := JNull; t_partitions := []; t_partition_key := "";
     t_partition_parts := []; t_blocked := None; t_reltuples := 3; t_referenced_by := []; t_row_security := (false, false);
     t_triggers := ∅; t_policies := ∅; t_dependent_views := ∅; t_reloptions := []; t_owner := "";
     t_default_partition := None; t_default_rows := None; t_detach_pending := []; t_is_partition := false;
     t_partition_by := "" |}.

(** The key's column: plain, from a sequence, or an identity. *)
Definition id_column (identity : string) (sequence : option string) : ColumnObs :=
  {| c_type := "bigint"; c_not_null := true; c_generated := ""; c_identity := identity; c_sequence := sequence;
     c_type_kind := Some "b"; c_gist := Some false |}.

Definition order_columns (id : ColumnObs) : gmap string ColumnObs :=
  {[ "id" := id; "total" := plain_column "numeric" false ]}.

Definition by_id : Observations := demo_obs (orders (order_columns (id_column "" None)) ["id"]).

(** ** Rows that hold to what was observed *)
Definition order (id total : Z) : Row Z := {[ "id" := id; "total" := total ]}.

Definition order_rows : list (Row Z) := [order 1 10; order 2 20; order 3 30].

Definition apart_bool (columns : list string) (rows : list (Row Z)) : bool :=
  forallb (fun n => forallb (fun m => (n =? m)%nat
     || negb (match rows !! n, rows !! m with Some r, Some s => matches columns r s | _, _ => false end))
       (seq 0 (length rows))) (seq 0 (length rows)).

Lemma apart_bool_apart columns rows : apart_bool columns rows = true -> apart columns rows.
Proof.
  unfold apart_bool. rewrite forallb_forall. intros Hall n m r s Hn Hm Hms.
  assert (forall k x, rows !! k = Some x -> In k (seq 0 (length rows))) as Hin.
  { intros k x Hk. apply in_seq. apply lookup_lt_Some in Hk. lia. }
  specialize (Hall n (Hin _ _ Hn)). rewrite forallb_forall in Hall. specialize (Hall m (Hin _ _ Hm)).
  rewrite Hn, Hm, Hms in Hall. simpl in Hall. rewrite orb_false_r in Hall. by apply Nat.eqb_eq.
Qed.

(** One unique index over its columns, and a column that is never NULL. *)
Lemma orders_hold columns key (rows : list (Row Z)) :
  key <> [] -> apart_bool key rows = true ->
  (forall name c r, columns !! name = Some c -> c_not_null c = true -> r ∈ rows -> is_Some (r !! name)) ->
  holds_to (orders columns key) rows.
Proof.
  intros Hne Ha Hnn.
  assert (forall name ix, t_indexes (orders columns key) !! name = Some ix -> ix = unique_index false key) as Hone.
  { intros name ix Hix. cbn [orders t_indexes] in Hix. by apply lookup_singleton_Some in Hix as [_ <-]. }
  split.
  - intros name ix ->%Hone _ _ _ _. unfold index_key_count. simpl.
    rewrite firstn_all. by apply apart_bool_apart.
  - intros name ix ->%Hone _ _ _ Hn _. unfold index_key_count in Hn. simpl in *.
    destruct key as [|k [|]]; try done. by apply apart_bool_apart.
  - exact Hnn.
Qed.

Lemma order_rows_hold id : holds_to (orders (order_columns id) ["id"]) order_rows.
Proof.
  apply orders_hold; [done|reflexivity|]. intros name c r Hc Hnn Hr. unfold order_columns in Hc.
  assert (name = "id") as ->.
  { apply lookup_insert_Some in Hc as [[<- _]|[_ Hc]]; [done|]. apply lookup_singleton_Some in Hc as [<- <-]. done. }
  unfold order_rows in Hr. rewrite !elem_of_cons in Hr.
  destruct Hr as [->|[->|[->|Hr]]]; [by eexists..|by apply elem_of_nil in Hr].
Qed.

(** ** Intents *)
Definition from_query (k : IntentKind) (name : string) (key : json) (b : list (string * json)) : Intent :=
  demo_intent k name 0
    ([("key", key); ("columns", JArr [JStr "id"; JStr "total"]); ("select", JStr "SELECT id, total FROM app.incoming")] ++ b).

Definition saving : list (string * json) :=
  [("preserve", JObj [("schema", JStr "app"); ("table", JStr "orders_before")])].

Definition update_orders : Intent := from_query kUpdateRows "update_rows" (JStr "id") saving.

Definition backfill_orders : Intent :=
  demo_intent kBackfill "backfill" 0
    [("key", JStr "id"); ("set", JObj [("total", JStr "total * 2")]); ("where", JStr "total < 100")].

#[local] Existing Instances no_vendors demo_printing.

(** The statement of an intent that has one. *)
Definition change_in (i : Intent) (o : Observations) : option RowStmt := head (row_changes (plan_from_source i o demo_config)).

Lemma change_in_elem i o s : change_in i o = Some s -> s ∈ row_changes (plan_from_source i o demo_config).
Proof. apply head_Some_elem_of. Qed.

Definition incoming : list (Row Z) := [order 2 25; order 3 35; order 7 70].

(** [changes_name_one_row] on the update and the backfill. *)
Lemma changes_name_one_row_witness :
  apart ["id"] order_rows
  /\ exists w, choose_walk (table_obs by_id "app.orders") "app.orders" "id" "" "" = inr w
       /\ apart (walk_key "id" (wk_shape w)) order_rows.
Proof.
  split.
  - destruct (changes_name_one_row update_orders by_id demo_config order_rows (order_rows_hold _)) as [Hu _].
    apply Hu; [done|]. left. vm_compute. reflexivity.
  - destruct (changes_name_one_row backfill_orders by_id demo_config order_rows (order_rows_hold _)) as [_ Hb].
    destruct Hb as (w & Hw & Ha & _); [done|vm_compute; reflexivity|]. exists w. split; [exact Hw|exact Ha].
Defined.

(** The start of a walk along one column, below every key. *)
Definition start : list (option Z) := [Some 0].

Lemma incoming_keyed : keyed ["id"] incoming.
Proof. repeat constructor. Qed.

(** [paced_change_is_the_whole_change] on the update, two rows at a time. *)
Lemma paced_change_is_the_whole_change_witness : exists s,
  change_in update_orders by_id = Some s /\ rs_paced s = true
  /\ length (source_walk 4 (rs_key s) start 2 incoming) = 2%nat
  /\ run_paced (fun _ _ => true) (rs_key s) start 2 (rs_mutation s) incoming order_rows
     ≡ₚ run_whole (fun _ _ => true) (rs_key s) (rs_mutation s) incoming order_rows.
Proof.
  destruct (change_in update_orders by_id) as [s|] eqn:Hs; [|vm_compute in Hs; discriminate Hs]. exists s.
  pose proof (paced_change_is_the_whole_change update_orders by_id demo_config s (fun _ _ => true) start 2 incoming order_rows
    ltac:(vm_compute; reflexivity) (change_in_elem _ _ _ Hs)) as Ht.
  vm_compute in Hs. injection Hs as <-. split; [done|]. split; [done|]. split; [vm_compute; reflexivity|].
  apply Ht; [done|done|done|by right|exact incoming_keyed|lia].
Defined.

(** [preimage_takes_the_change_back] on the update: what was changed, and what the
    side table gives back. *)
Lemma preimage_takes_the_change_back_witness : exists s pv,
  change_in update_orders by_id = Some s /\ rs_saved s = Some pv
  /\ let after_it := run_stmt (fun _ _ => true) start 2 s incoming order_rows in
     after_it.1 = [order 1 10; order 2 25; order 3 35]
     /\ run_update ["id"] (pv_cols pv) after_it.2 after_it.1 = order_rows.
Proof.
  destruct (change_in update_orders by_id) as [s|] eqn:Hs; [|vm_compute in Hs; discriminate Hs]. exists s.
  destruct (rs_saved s) as [pv|] eqn:Hpv; [|vm_compute in Hs; injection Hs as <-; discriminate Hpv]. exists pv.
  pose proof (preimage_takes_the_change_back update_orders by_id demo_config s pv (fun _ _ => true) start 2 incoming order_rows
    ltac:(vm_compute; reflexivity) (change_in_elem _ _ _ Hs) Hpv (order_rows_hold _) ltac:(done)) as Ht.
  vm_compute in Hs. injection Hs as <-. vm_compute in Hpv. injection Hpv as <-. split; [done|]. split; [done|].
  split; [vm_compute; reflexivity|]. apply Ht; [|done]. intros _. split; [by right|]. split; [exact incoming_keyed|lia].
Defined.

(** [executor_reads_the_planned_walk] on the backfill: two statements along id. *)
Lemma executor_reads_the_planned_walk_witness : exists s r select apply,
  e_steps (plan_backfill backfill_orders by_id demo_config) = [s] /\ read_step s = Some r
  /\ rd_loop r = TwoStatements select apply /\ rd_key r = "id" /\ rd_where r = "total < 100".
Proof.
  destruct (executor_reads_the_planned_walk backfill_orders by_id demo_config) as [Hb _].
  destruct Hb as (made & s & w & saved & r & Hw & Hs & _ & _ & Hr & Hl & _ & _ & _ & Hk & Hwh & _); [vm_compute; reflexivity|].
  vm_compute in Hw. injection Hw as <-.
  destruct (rd_loop r) as [|a b| | |] eqn:Hloop; try discriminate Hl. exists s, r, a, b.
  assert (length (e_steps (plan_backfill backfill_orders by_id demo_config)) = 1%nat) as Hone by (vm_compute; reflexivity).
  assert (made = []) as ->. { rewrite Hs, length_app in Hone. destruct made; [done|simpl in Hone; lia]. }
  split; [exact Hs|]. split; [done|]. split; [done|]. split; [exact Hk|exact Hwh].
Defined.

(** [large_changes_commit_in_batches] on the update from a query. *)
Lemma large_changes_commit_in_batches_witness : exists s,
  e_steps (plan_from_source update_orders by_id demo_config) !! 1%nat = Some s /\ st_class s = kOwnTxnPerBatch.
Proof.
  destruct (e_steps (plan_from_source update_orders by_id demo_config) !! 1%nat) as [s|] eqn:Hs;
    [|vm_compute in Hs; discriminate Hs]. exists s. split; [done|].
  destruct (large_changes_commit_in_batches update_orders by_id demo_config ltac:(reflexivity)) as [Ht _].
  destruct (changes_of s) as [|c l] eqn:Hc; [vm_compute in Hs; injection Hs as <-; discriminate Hc|].
  apply (Ht s c); [vm_compute; reflexivity|by eapply list_elem_of_lookup_2|rewrite Hc; left].
Defined.

(** [supplied_columns_can_be_written] where the key draws from a sequence. *)
Definition insert_orders : Intent := from_query kInsertRows "insert_rows" (JStr "id") [].
Definition from_sequence : Observations :=
  demo_obs (orders (order_columns (id_column "d" (Some "app.orders_id_seq"))) ["id"]).

Lemma supplied_columns_can_be_written_witness : exists c before change rest,
  t_columns (table_obs from_sequence "app.orders") !! "id" = Some c /\ c_generated c <> "s"
  /\ e_steps (plan_rows insert_orders from_sequence demo_config) = before ++ change :: rest /\ writes_rows change
  /\ catchup_step insert_orders "app.orders" "id" "app.orders_id_seq" ∈ rest.
Proof.
  destruct (supplied_columns_can_be_written insert_orders from_sequence demo_config "id") as (c & Hc & Hg & _ & Hq);
    [reflexivity|vm_compute; reflexivity|by left|].
  exists c. destruct (Hq "app.orders_id_seq") as (before & change & rest & Hs & Hw & Hin);
    [vm_compute in Hc; by injection Hc as <-|done|]. exists before, change, rest. split_and!; [exact Hc|exact Hg|exact Hs|exact Hw|exact Hin].
Defined.

(** [identity_keys_cannot_be_updated] on the same update where id is an identity. *)
Definition always_identity : Observations := demo_obs (orders (order_columns (id_column "a" None)) ["id"]).

Lemma identity_keys_cannot_be_updated_witness :
  parse_update_rows (body update_orders) = Ok tt
  /\ e_conflicts (plan_update_rows update_orders always_identity demo_config) <> [].
Proof.
  assert (parse_update_rows (body update_orders) = Ok tt) as Hp by (vm_compute; reflexivity). split; [exact Hp|].
  apply (identity_keys_cannot_be_updated update_orders always_identity demo_config tt "id" (id_column "a" None) Hp);
    [by left|vm_compute; reflexivity|reflexivity].
Defined.

(** [null_in_a_key_ends_the_walk]: a delete by region and place, where one place of
    the source is not known. *)
Definition by_place : Observations :=
  demo_obs (orders {[ "region" := plain_column "bigint" true; "place" := plain_column "bigint" false ]} ["region"; "place"]).

Definition delete_places : Intent :=
  demo_intent kDeleteRows "delete_rows" 0
    [("key", JArr [JStr "region"; JStr "place"]); ("columns", JArr [JStr "region"; JStr "place"]);
     ("select", JStr "SELECT region, place FROM app.closed")].

Definition place (region n : Z) : Row Z := {[ "region" := region; "place" := n ]}.

Lemma null_in_a_key_ends_the_walk_witness : exists s,
  change_in delete_places by_place = Some s
  /\ run_stmt (fun _ _ => true) [None; None] 1000 s [place 1 1; {[ "region" := 1 ]}] [place 1 1; place 1 2]
     = ([place 1 1; place 1 2], [])
  /\ run_whole (fun _ _ => true) (row_key delete_places) (rs_mutation s) [place 1 1; {[ "region" := 1 ]}]
       [place 1 1; place 1 2] = [place 1 2].
Proof.
  destruct (change_in delete_places by_place) as [s|] eqn:Hs; [|vm_compute in Hs; discriminate Hs]. exists s.
  pose proof (null_in_a_key_ends_the_walk delete_places by_place demo_config s (fun _ _ => true) [None; None] 1000
    [place 1 1; {[ "region" := 1 ]}] [place 1 1; place 1 2] "region" "place" [] 1
    ltac:(vm_compute; reflexivity) (change_in_elem _ _ _ Hs)) as Ht.
  split; [done|]. assert (rs_paced s = true) as Hp by (vm_compute in Hs; by injection Hs as <-).
  destruct Ht as [Hr Hd]; [done|reflexivity| | |simpl; lia|].
  - intros r. rewrite !elem_of_cons. intros [->|[->|Hr]]; [done..|by apply elem_of_nil in Hr].
  - exists {[ "region" := 1 ]}. split; [right; left|done].
  - split; [exact Hr|]. rewrite Hd by reflexivity. vm_compute. reflexivity.
Defined.

Definition filled_intent (column source : string) : Intent :=
  demo_intent kAddColumn "add_column" 0
    [("column", JStr column); ("type", JStr "bigint"); ("key", JStr "id"); ("after", JStr "drop_trigger");
     ("fill", JArr [JStr source; JStr "zero"])].

Definition note : Intent := filled_intent "note" "nickname".
Definition rank : Intent := filled_intent "rank" "total".

(** A source is a column of the row, or the constant zero. *)
Definition read_source (s : FillSource) (r : string -> option Z) : option Z :=
  if String.eqb (fill_value s) "zero" then Some 0 else r (fill_value s).

Definition old_row (id total : Z) : string -> option Z := fun c =>
  if String.eqb c "id" then Some id else if String.eqb c "total" then Some total else None.

Lemma demo_blind : blind read_source [note; rank].
Proof.
  intros g s r r' Hg Hs Hsame. unfold read_source. case_if; [done|]. apply Hsame. cbn.
  rewrite !elem_of_cons in Hg. destruct Hg as [->|[->|Hg]]; [| |by apply elem_of_nil in Hg];
    cbn in Hs; rewrite !elem_of_cons in Hs; destruct Hs as [->|[->|Hs]]; try (by apply elem_of_nil in Hs); cbn; set_solver.
Qed.

Lemma demo_total : total read_source [note; rank].
Proof.
  intros g r Hg. rewrite !elem_of_cons in Hg. destruct Hg as [->|[->|Hg]]; [| |by apply elem_of_nil in Hg];
    (eexists; split; [right; left|by eexists]).
Qed.

Lemma demo_apart : NoDup (column_name <$> [note; rank]).
Proof. apply (bool_decide_unpack _). vm_compute. exact I. Qed.

Definition demo_columns : gmap string ColumnObs := {[ "id" := id_column "" None ]}.

Lemma demo_state : fill_state "app.orders" demo_columns [note; rank] = inr ([note; rank], [note; rank]).
Proof. vm_compute. reflexivity. Qed.


(** Rows 0 and 1 are there; row 2 arrives and row 0 goes during the first pass, row 1
    is written again during the second. *)
Definition demo_events : list (list (@Event Z)) :=
  [[Visited 1; Inserted (old_row 3 30); Deleted 0; Visited 0]; [Changed 1 (old_row 2 25); Visited 1; Visited 2]].

Definition demo_rows : list (option (string -> option Z)) := [Some (old_row 1 10); Some (old_row 2 20)].

Definition demo_phases : list (Pass * list (@Event Z)) := zip (fill_passes [note; rank]) demo_events.

Lemma no_row_is_left_without_a_value_witness :
  length (after_fills read_source (simple_fill [note; rank]) [note; rank] demo_rows demo_phases) = 3%nat
  /\ forall n r, after_fills read_source (simple_fill [note; rank]) [note; rank] demo_rows demo_phases !! n = Some (Some r) -> is_Some (r "rank").
Proof.
  split; [reflexivity|]. intros n r Hr.
  apply (no_row_is_left_without_a_value read_source "app.orders" demo_columns [note; rank] [note; rank] [note; rank]
    demo_phases demo_rows demo_state demo_blind demo_apart demo_total eq_refl) with (n := n) (g := rank); [|exact Hr|right; left].
  split; [|split; [|exact I]].
  - intros m x Hm. destruct m as [|[|m]]; [right; right; right; left|left|discriminate Hm].
  - intros m x Hm. destruct m as [|[|[|m]]]; [discriminate Hm|right; left|right; right; left|discriminate Hm].
Defined.

(** [function_text_is_quoted], on an expression that holds the first tag. *)
Definition quoting : Intent :=
  demo_intent kAddColumn "add_column" 0 [("column", JStr "note"); ("fill", JStr "$laswell_fill$x$laswell_fill$")].

Lemma function_text_is_quoted_witness :
  exists f, FillFunction "app" "orders_note_laswell_fill" "laswell_fill_" (quote_identifier "orders") f ∈ fill_statements quoting [quoting] [quoting] false
    /\ has_sub "$laswell_fill_$" (function_text (quote_identifier "orders") f) = false.
Proof.
  eexists. split; [cbn; right; right; left|].
  apply (function_text_is_quoted quoting [quoting] [quoting] false "app" "orders_note_laswell_fill" "laswell_fill_");
    [reflexivity|constructor; [reflexivity|constructor]|cbn; right; right; left].
Defined.

#[local] Existing Instances no_vendors demo_printing.

(** [fill_recipe_comes_in_order], on the table as it is. *)
Lemma fill_recipe_comes_in_order_witness :
  let e := plan_add_columns_filled [note; rank] by_id demo_config in
  omap stage (e_steps e ≫= st_sql) = [0; 0; 0; 0; 0; 0; 1; 1; 1; 1; 2; 2; 2; 2; 3; 3]%nat
  /\ exists s, s ∈ e_steps e /\ AddColumn "app.orders" "rank" "bigint" ∈ st_sql s.
Proof.
  cbv zeta. split; [vm_compute; reflexivity|].
  destruct (fill_recipe_comes_in_order note [rank] by_id demo_config [note; rank] [note; rank]) as (_ & _ & Hadds & _);
    [vm_compute; reflexivity|discriminate|vm_compute; reflexivity|].
  apply (Hadds rank). right. left.
Defined.

(** A check kept by an earlier set_not_null is taken for the recipe's own: the first
    column is NOT NULL and has its check, two others are to be filled. *)
Definition score : Intent := filled_intent "score" "total".

Definition kept : ConstraintObs :=
  {| k_type := "c"; k_validated := true; k_depended_on_by := []; k_has_index := false; k_index := None; k_references := "";
     k_column := None |}.

Definition kept_check : Observations :=
  demo_obs (with_constraints {[ "orders_note_laswell_nn" := kept ]}
    (with_columns (<["note" := plain_column "bigint" true]> (order_columns (id_column "" None)))
       (orders (order_columns (id_column "" None)) ["id"]))).

(** Nothing validates the two columns before they are set NOT NULL, and the check that
    was to be kept is dropped. *)
Lemma kept_check_is_taken_for_another :
  let e := plan_add_columns_filled [note; rank; score] kept_check demo_config in
  e_conflicts e = []
  /\ omap (fun q => match q with
                    | AddCheck _ _ _ _ => Some "check" | ValidateConstraint _ _ => Some "validate"
                    | SetNotNulls _ l => Some ("not null " +:+ join ", " l) | DropConstraint _ n => Some ("drop " +:+ n)
                    | _ => None
                    end) (e_steps e ≫= st_sql) = ["not null rank, score"; "drop orders_note_laswell_nn"].
Proof. vm_compute. split; reflexivity. Qed.

Definition demo_view (name : string) (level : Z) (uses depends : list string) : DependentView :=
  {| v_name := name; v_kind := "view"; v_level := level; v_definition := " SELECT 1;"; v_owner := "app"; v_comment := Some "kept";
     v_reloptions := []; v_uses := uses; v_depends := depends; v_column_comments := []; v_grants := ["=r/app"; "reader=r*w/app"];
     v_column_grants := []; v_triggers := []; v_indexes := [] |}.

Definition totals : DependentView := demo_view "app.totals" 1 ["total"] [].
Definition report : DependentView := demo_view "app.report" 2 [] ["app.totals"].
Definition ids : DependentView := demo_view "app.ids" 1 ["id"] [].

Definition demo_views : gmap string DependentView := {[ "app.totals" := totals; "app.report" := report; "app.ids" := ids ]}.

Definition viewed (o : TableObs) : TableObs :=
  {| t_exists := t_exists o; t_kind := t_kind o; t_columns := t_columns o; t_constraints := t_constraints o;
     t_indexes := t_indexes o; t_lock_waiters := t_lock_waiters o; t_size_measured := t_size_measured o;
     t_size_estimate := t_size_estimate o; t_estimated_from := t_estimated_from o; t_partitions := t_partitions o;
     t_partition_key := t_partition_key o; t_partition_parts := t_partition_parts o; t_blocked := t_blocked o;
     t_reltuples := t_reltuples o; t_referenced_by := t_referenced_by o; t_row_security := t_row_security o;
     t_triggers := t_triggers o; t_policies := t_policies o; t_dependent_views := demo_views; t_reloptions := t_reloptions o; t_owner := t_owner o;
     t_default_partition := t_default_partition o; t_default_rows := t_default_rows o;
     t_detach_pending := t_detach_pending o; t_is_partition := t_is_partition o; t_partition_by := t_partition_by o |}.

Definition with_views : Observations := demo_obs (viewed (orders (order_columns (id_column "" None)) ["id"])).

Definition widen_total : Intent :=
  demo_intent kAlterColumnType "alter_column_type" 0 [("column", JStr "total"); ("type", JStr "bigint")].

#[local] Existing Instances no_vendors.

Lemma demo_views_are k v : demo_views !! k = Some v -> (k, v) ∈ [("app.ids", ids); ("app.report", report); ("app.totals", totals)].
Proof. intros Hv%elem_of_by_key. exact Hv. Qed.

Lemma demo_names k v k' v' : demo_views !! k = Some v -> demo_views !! k' = Some v' -> v_name v = v_name v' -> k = k'.
Proof.
  intros Hv%demo_views_are Hv'%demo_views_are. rewrite !elem_of_cons in Hv, Hv'.
  destruct Hv as [[= -> ->]|[[= -> ->]|[[= -> ->]|Hv]]]; [..|by apply elem_of_nil in Hv];
    destruct Hv' as [[= -> ->]|[[= -> ->]|[[= -> ->]|Hv']]]; try (by apply elem_of_nil in Hv'); done.
Qed.

Lemma demo_levels : levels_ok demo_views.
Proof.
  intros k v d w Hv%demo_views_are Hd Hw%demo_views_are. rewrite !elem_of_cons in Hv, Hw.
  destruct Hv as [[= -> ->]|[[= -> ->]|[[= -> ->]|Hv]]]; [..|by apply elem_of_nil in Hv]; try (by apply elem_of_nil in Hd).
  apply list_elem_of_singleton in Hd as ->.
  destruct Hw as [[= <- ->]|[[= <- ->]|[[= ->]|Hw]]]; [done..|by apply elem_of_nil in Hw].
Qed.


(** [grants_read_back] on an entry with a grant option and MAINTAIN. *)
Lemma grants_read_back_witness :
  acl_text "reader" [("r"%char, true); ("m"%char, false); ("w"%char, false)] "app" = "reader=r*mw/app"
  /\ grants_from_aclitem "reader=r*mw/app" "app.totals" ""
     = [Grant "SELECT" "" "app.totals" (quote_identifier "reader") true; Grant "UPDATE" "" "app.totals" (quote_identifier "reader") false].
Proof.
  split; [reflexivity|].
  exact (grants_read_back "reader" [("r"%char, true); ("m"%char, false); ("w"%char, false)] "app" "app.totals" ""
    ltac:(reflexivity) ltac:(repeat constructor; discriminate)).
Defined.

(** A name the server writes in quotes is quoted once more. *)
Lemma quoted_grantees_are_quoted_again :
  grants_from_aclitem (quote_identifier "my-role" +:+ "=r/app") "app.totals" ""
  = [Grant "SELECT" "" "app.totals" (quote_identifier (quote_identifier "my-role")) false].
Proof. vm_compute. reflexivity. Qed.

(** [text_after_the_modifier_is_not_read] on a timestamp that gets a time zone. *)
Lemma text_after_the_modifier_is_not_read_witness :
  one_modifier "timestamp" 3 " without time zone" = "timestamp(3) without time zone"
  /\ provably_no_rewrite "timestamp(3) without time zone" "timestamp(6) with time zone" = true.
Proof.
  split; [reflexivity|].
  exact (proj1 (text_after_the_modifier_is_not_read "timestamp" 3 6 0 0 " without time zone" " with time zone"
    ltac:(reflexivity) ltac:(lia) ltac:(lia) ltac:(lia) ltac:(lia))).
Defined.
