(* ===== verification/Recipes.v ===== *)
(** * Recipes: constraint recipes against a server

    A constraint is added in several transactions, and a job can stop between any
    two of them. What a plan made anew finds is what the statements that ran left
    in the catalog. The server is not modelled: it is a class of operations with
    the documented effect of each statement on the readings these rules use. *)
From S2P Require Import Prelude Json Canonical Spec Quote Plan Planner Indexes Migration MigrationFacts MigrationRuns.

(** ** The server *)
Class Server : Type := {
  db : Type;
  observe : db -> Observations;
  run_stmt : Stmt -> db -> option db;   (** [None]: the server raised an error. *)
}.

(** An identifier as the server keeps it: NAMEDATALEN - 1 bytes of it. *)
Definition stored (name : string) : string := String.substring 0 63 name.

Definition reading `{Server} (d : db) (q : string) : TableObs := table_obs (observe d) q.

(** The readings a statement on another matter leaves alone. *)
Definition same_readings (t t' : TableObs) : Prop :=
  t_exists t' = t_exists t /\ t_columns t' = t_columns t /\ t_constraints t' = t_constraints t.

(** [ADD CONSTRAINT]: under the stored name, validated or not; it was not there. *)
Definition constraint_added (name : string) (not_valid : bool) (t t' : TableObs) : Prop :=
  t_exists t' = t_exists t /\ t_columns t' = t_columns t /\ t_constraints t !! stored name = None
  /\ exists c, k_validated c = negb not_valid /\ t_constraints t' = <[stored name := c]> (t_constraints t).

(** What PostgreSQL documents of LOCK, COMMENT and the forms of ALTER TABLE used. *)
Class Documented `{Server} : Prop := {
  lock_reads : forall q rel d d', run_stmt (LockTable rel) d = Some d' -> same_readings (reading d q) (reading d' q);
  add_check_reads : forall rel name e nv d d', run_stmt (AddCheck rel name e nv) d = Some d' ->
    constraint_added name nv (reading d rel) (reading d' rel);
  add_foreign_key_reads : forall rel name fk nv d d', run_stmt (AddForeignKey rel name fk nv) d = Some d' ->
    constraint_added name nv (reading d rel) (reading d' rel);
  add_check_again : forall rel name e nv d, is_Some (t_constraints (reading d rel) !! stored name) ->
    run_stmt (AddCheck rel name e nv) d = None;
  validate_reads : forall rel name d d', run_stmt (ValidateConstraint rel name) d = Some d' ->
    t_exists (reading d' rel) = t_exists (reading d rel) /\ t_columns (reading d' rel) = t_columns (reading d rel)
    /\ exists c c', t_constraints (reading d rel) !! stored name = Some c /\ k_validated c' = true
         /\ t_constraints (reading d' rel) = <[stored name := c']> (t_constraints (reading d rel));
  set_not_null_reads : forall rel column d d', run_stmt (SetNotNull rel column) d = Some d' ->
    t_exists (reading d' rel) = t_exists (reading d rel)
    /\ (exists c, t_columns (reading d' rel) !! column = Some c /\ c_not_null c = true)
    /\ forall n c, t_constraints (reading d rel) !! n = Some c -> t_constraints (reading d' rel) !! n = Some c;
  drop_constraint_reads : forall rel name d d', run_stmt (DropConstraint rel name) d = Some d' ->
    t_exists (reading d' rel) = t_exists (reading d rel) /\ t_columns (reading d' rel) = t_columns (reading d rel)
    /\ t_constraints (reading d' rel) = delete (stored name) (t_constraints (reading d rel));
}.

Fixpoint run_stmts `{Server} (l : list Stmt) (d : db) : option db :=
  match l with [] => Some d | q :: l' => d ← run_stmt q d; run_stmts l' d end.

(** Steps one after the other, each in its transaction. *)
Fixpoint run_steps `{Server} (l : list (list Stmt)) (d : db) : option db :=
  match l with [] => Some d | s :: l' => d ← run_stmts s d; run_steps l' d end.

(** What a rule would run: the statements of its steps. *)
Definition statements (e : Emitted) : list (list Stmt) :=
  st_sql <$> List.filter (fun s => bool_decide (st_action s = kApply)) (e_steps e).

Lemma statements_apply ss : Forall (fun s => st_action s = kApply) ss -> statements (emit ss) = st_sql <$> ss.
Proof.
  unfold statements. cbn [e_steps emit]. induction 1 as [|s ss Hs _ IH]; [done|]. cbn [List.filter].
  rewrite Hs, bool_decide_eq_true_2 by done. csimpl. by rewrite IH.
Qed.

Lemma rehearsal_sql why gap s : st_sql (do_not_rehearse why gap s) = st_sql s.
Proof. done. Qed.

Lemma rehearsal_action why gap s : st_action (do_not_rehearse why gap s) = st_action s.
Proof. done. Qed.

Ltac decide_states :=
  repeat first [rewrite bool_decide_eq_true_2 by done | rewrite bool_decide_eq_false_2 by done].

Section Recipes.
Context `{Vendors} `{Documented}.

(** No module answers for a constraint of the table. *)
Context (unmanaged : forall d q, constraint_traits (observe d) q = None).

Lemma run_stmts_app l1 l2 d : run_stmts (l1 ++ l2) d = d' ← run_stmts l1 d; run_stmts l2 d'.
Proof.
  revert d; induction l1 as [|q l1 IH]; intros d; [done|]. cbn [app run_stmts].
  destruct (run_stmt q d); [|done]. cbn [mbind option_bind]. apply IH.
Qed.

(** Locks change nothing a rule reads. *)
Lemma run_locks rels q d d' : run_stmts (LockTable <$> rels) d = Some d' -> same_readings (reading d q) (reading d' q).
Proof.
  revert d; induction rels as [|r rels IH]; intros d; csimpl; [by intros [= ->]|].
  destruct (run_stmt (LockTable r) d) as [d1|] eqn:Hr; [|done]. cbn [mbind option_bind]. intros Hd.
  apply (lock_reads q) in Hr. apply IH in Hd. unfold same_readings in *. intuition congruence.
Qed.

(** A step is its locks and then its statement. *)
Lemma run_locked rels s q d d' :
  run_stmts ((LockTable <$> rels) ++ [s]) d = Some d' ->
  exists d1, same_readings (reading d q) (reading d1 q) /\ run_stmt s d1 = Some d'.
Proof.
  rewrite run_stmts_app. destruct (run_stmts (LockTable <$> rels) d) as [d1|] eqn:Hl; [|done].
  cbn [mbind option_bind run_stmts]. destruct (run_stmt s d1) as [d2|] eqn:Hs; [|done]. cbn [mbind option_bind].
  intros [= ->]. exists d1. split; [by apply (run_locks rels)|done].
Qed.

(** ** NOT VALID, then VALIDATE *)

(** The two steps of a check and of a foreign key. *)
Record two_step : Type := {
  ts_rule : Intent -> Observations -> Emitted;
  ts_locks : Intent -> list string;
  ts_add : Intent -> Stmt;
}.

Definition adds_check : two_step :=
  {| ts_rule := plan_add_check_constraint; ts_locks := fun i => [in_qualified i];
     ts_add := fun i => AddCheck (in_qualified i) (bstr i "name" "") (bstr i "expression" "") true |}.

Definition adds_foreign_key : two_step :=
  {| ts_rule := plan_add_foreign_key; ts_locks := fun i => [in_qualified i; fk_parent (intent_fk i)];
     ts_add := fun i => AddForeignKey (in_qualified i) (bstr i "name" "") (intent_fk i) true |}.

(** The statements left for each state of the constraint. *)
Definition two_step_rest (r : two_step) (i : Intent) (s : ConstraintState) : list (list Stmt) :=
  match s with
  | kAbsent => [(LockTable <$> ts_locks r i) ++ [ts_add r i]; [ValidateConstraint (in_qualified i) (bstr i "name" "")]]
  | kNotValid => [[ValidateConstraint (in_qualified i) (bstr i "name" "")]]
  | kValid => []
  end.

Lemma check_statements i d :
  t_exists (reading d (in_qualified i)) = true ->
  statements (plan_add_check_constraint i (observe d))
  = two_step_rest adds_check i (constraint_state (reading d (in_qualified i)) (bstr i "name" "")).
Proof.
  unfold reading. intros He. unfold plan_add_check_constraint. rewrite He, unmanaged. cbn [negb].
  by destruct (constraint_state _ _).
Qed.

Lemma foreign_key_statements i d :
  t_exists (reading d (in_qualified i)) = true ->
  statements (plan_add_foreign_key i (observe d))
  = two_step_rest adds_foreign_key i (constraint_state (reading d (in_qualified i)) (bstr i "name" "")).
Proof.
  unfold reading. intros He. unfold plan_add_foreign_key. rewrite He, unmanaged. cbn [negb].
  by destruct (constraint_state _ _).
Qed.

(** What a statement leaves, as [constraint_state] reads it. *)
Lemma state_readings t t' n : same_readings t t' -> constraint_state t' n = constraint_state t n.
Proof. intros (_ & _ & Hc). unfold constraint_state. by rewrite Hc. Qed.

Lemma state_added name nv t t' :
  constraint_added name nv t t' ->
  constraint_state t (stored name) = kAbsent
  /\ constraint_state t' (stored name) = (if nv then kNotValid else kValid).
Proof.
  intros (_ & _ & Hn & c & Hc & Ht). unfold constraint_state. rewrite Hn, Ht, lookup_insert_eq, Hc.
  split; [done|]. by destruct nv.
Qed.

Lemma state_validated rel name d d' :
  run_stmt (ValidateConstraint rel name) d = Some d' -> constraint_state (reading d' rel) (stored name) = kValid.
Proof.
  intros (_ & _ & c & c' & _ & Hv & Ht)%validate_reads. unfold constraint_state. by rewrite Ht, lookup_insert_eq, Hv.
Qed.

Lemma run_one s d : run_steps [[s]] d = run_stmt s d.
Proof. cbn. by destruct (run_stmt s d). Qed.

Lemma run_steps_cons s l d : run_steps (s :: l) d = d1 ← run_stmts s d; run_steps l d1.
Proof. done. Qed.

(** Stopped after any number of its steps, the recipe goes on where it was. *)
Lemma two_step_resumes r i d d' k :
  (forall d d', run_stmt (ts_add r i) d = Some d' ->
     constraint_added (bstr i "name" "") true (reading d (in_qualified i)) (reading d' (in_qualified i))) ->
  stored (bstr i "name" "") = bstr i "name" "" ->
  let state d := constraint_state (reading d (in_qualified i)) (bstr i "name" "") in
  run_steps (take k (two_step_rest r i (state d))) d = Some d' ->
  t_exists (reading d' (in_qualified i)) = t_exists (reading d (in_qualified i))
  /\ two_step_rest r i (state d') = drop k (two_step_rest r i (state d))
  /\ ((length (two_step_rest r i (state d)) <= k)%nat -> state d' = kValid).
Proof.
  intros Hadd Hn state.
  assert (Hval : forall d d', run_stmt (ValidateConstraint (in_qualified i) (bstr i "name" "")) d = Some d' ->
    t_exists (reading d' (in_qualified i)) = t_exists (reading d (in_qualified i)) /\ state d' = kValid).
  { intros d1 d2 Hv. split; [by apply validate_reads in Hv as (? & _)|].
    unfold state. rewrite <- Hn. by apply (state_validated _ _ d1). }
  assert (Hlock : forall d d', run_stmts ((LockTable <$> ts_locks r i) ++ [ts_add r i]) d = Some d' ->
    t_exists (reading d' (in_qualified i)) = t_exists (reading d (in_qualified i)) /\ state d' = kNotValid).
  { intros d1 d2 Hr. apply (run_locked _ _ (in_qualified i)) in Hr as (d3 & Hs & Hr). apply Hadd in Hr.
    destruct Hs as (He & _). pose proof (state_added _ _ _ _ Hr) as [_ Hst]. rewrite Hn in Hst.
    destruct Hr as (He' & _). split; [congruence|done]. }
  destruct (state d) eqn:Hd; cbn [two_step_rest]; [destruct k as [|[|k]]|destruct k as [|k]|];
    cbn [take drop]; try (intros [= <-]; rewrite Hd; split_and!; [done..|intros; simpl in *; lia]).
  - cbn [run_steps]. destruct (run_stmts _ d) as [d1|] eqn:Hr1; [|done]. cbn [mbind option_bind]. intros [= <-].
    destruct (Hlock _ _ Hr1) as [He ->]. split_and!; [done..|intros; simpl in *; lia].
  - rewrite take_nil, drop_nil, run_steps_cons.
    destruct (run_stmts (_ ++ _) d) as [d1|] eqn:Hr1; [|done]. cbn [mbind option_bind].
    destruct (Hlock _ _ Hr1) as [He _]. rewrite run_one. intros Hv.
    destruct (Hval _ _ Hv) as [He2 ->]. split_and!; [congruence|done..].
  - rewrite take_nil, drop_nil, run_one. intros Hv. destruct (Hval _ _ Hv) as [He ->]. done.
  - rewrite take_nil, drop_nil. intros [= <-]. by rewrite Hd.
Qed.

(** ** NOT NULL through a check *)
Section NotNull.
Context (i : Intent).
#[local] Notation q := (in_qualified i).
#[local] Notation column := (bstr i "column" "").
#[local] Notation check := (not_null_check i).

(** The statements of a step: locked, but for the scan. *)
Definition nn_sql (s : Stmt) : list Stmt :=
  (LockTable <$> (if has_sub "VALIDATE CONSTRAINT" (render s) then [] else [in_qualified i])) ++ [s].

Lemma not_null_step_sql s lock why : st_sql (not_null_step i s lock why) = nn_sql s.
Proof. unfold not_null_step, nn_sql. by case_match. Qed.

Definition nn_add : list Stmt :=
  nn_sql (AddCheck (in_qualified i) (not_null_check i) (quote_identifier (bstr i "column" "") +:+ " IS NOT NULL") true).
Definition nn_validate : list Stmt := nn_sql (ValidateConstraint (in_qualified i) (not_null_check i)).
Definition nn_set : list Stmt := nn_sql (SetNotNull (in_qualified i) (bstr i "column" "")).
Definition nn_drop : list Stmt := nn_sql (DropConstraint (in_qualified i) (not_null_check i)).

Definition nn_rest (s : ConstraintState) : list (list Stmt) :=
  match s with kAbsent => [nn_add; nn_validate] | kNotValid => [nn_validate] | kValid => [] end
  ++ nn_set :: (if bbool i "keep_check" false then [] else [nn_drop]).

Lemma not_null_step_action s lock why : st_action (not_null_step i s lock why) = kApply.
Proof. unfold not_null_step. by case_match. Qed.

(** What the rule reads: the column's flag and the check's state. *)
Definition nn_view (t : TableObs) : option bool * ConstraintState :=
  (c_not_null <$> t_columns t !! bstr i "column" "", constraint_state t (not_null_check i)).

Definition nn_statements (v : option bool * ConstraintState) : list (list Stmt) :=
  match v with (Some false, s) => nn_rest s | _ => [] end.

Lemma not_null_statements d :
  t_exists (reading d q) = true ->
  statements (plan_set_not_null i (observe d)) = nn_statements (nn_view (reading d q)).
Proof.
  unfold reading, nn_view. intros He. unfold plan_set_not_null. rewrite He. cbn [negb].
  destruct (t_columns _ !! _) as [c|]; [|done]. csimpl. destruct (c_not_null c); [done|]. rewrite unmanaged.
  cbn [nn_statements]. rewrite statements_apply.
  - unfold nn_rest, nn_add, nn_validate, nn_set, nn_drop.
    destruct (constraint_state _ _); decide_states; destruct (bbool i "keep_check" false); csimpl;
      rewrite ?rehearsal_sql, ?not_null_step_sql; done.
  - destruct (constraint_state _ _); decide_states; destruct (bbool i "keep_check" false); csimpl;
      repeat constructor; rewrite ?rehearsal_action; apply not_null_step_action.
Qed.

Context (Hfits : stored check = check).

(** Each step's effect on what the rule reads. *)
Definition nn_effect (sql : list Stmt) (f : option bool * ConstraintState -> option bool * ConstraintState) : Prop :=
  forall d d', run_stmts sql d = Some d' ->
    t_exists (reading d' q) = t_exists (reading d q) /\ nn_view (reading d' q) = f (nn_view (reading d q)).

Lemma nn_locked s f :
  (forall d d', run_stmt s d = Some d' ->
     t_exists (reading d' q) = t_exists (reading d q) /\ nn_view (reading d' q) = f (nn_view (reading d q))) ->
  nn_effect (nn_sql s) f.
Proof.
  intros Hs d d' Hr. apply (run_locked _ _ q) in Hr as (d1 & Hsame & Hr). destruct (Hs _ _ Hr) as [He Hv].
  assert (Hv1 : nn_view (reading d1 q) = nn_view (reading d q)).
  { unfold nn_view. rewrite (state_readings _ _ _ Hsame). destruct Hsame as (_ & Hc & _). by rewrite Hc. }
  destruct Hsame as (He1 & _). rewrite Hv, Hv1. split; [congruence|done].
Qed.

Lemma nn_add_effect : nn_effect nn_add (fun v => (v.1, kNotValid)).
Proof.
  apply nn_locked. intros d d' Hr%add_check_reads. pose proof (state_added _ _ _ _ Hr) as [_ Hst].
  destruct Hr as (He & Hc & _). rewrite Hfits in Hst. unfold nn_view. by rewrite Hst, Hc.
Qed.

Lemma nn_validate_effect : nn_effect nn_validate (fun v => (v.1, kValid)).
Proof.
  apply nn_locked. intros d d' Hr. pose proof (state_validated _ _ _ _ Hr) as Hst.
  apply validate_reads in Hr as (He & Hc & _). rewrite Hfits in Hst. unfold nn_view.
  by rewrite Hst, Hc.
Qed.

Lemma nn_drop_effect : nn_effect nn_drop (fun v => (v.1, kAbsent)).
Proof.
  apply nn_locked. intros d d' (He & Hc & Hk)%drop_constraint_reads. rewrite Hfits in Hk.
  unfold nn_view, constraint_state. by rewrite Hc, Hk, lookup_delete_eq.
Qed.

Lemma nn_set_effect d d' :
  run_stmts nn_set d = Some d' -> (nn_view (reading d q)).2 = kValid ->
  t_exists (reading d' q) = t_exists (reading d q) /\ nn_view (reading d' q) = (Some true, kValid).
Proof.
  intros Hr Hs. apply (run_locked _ _ q) in Hr as (d1 & Hsame & Hr).
  assert (Hs1 : constraint_state (reading d1 q) check = kValid) by (by rewrite (state_readings _ _ _ Hsame)).
  destruct Hsame as (He1 & _). apply set_not_null_reads in Hr as (He & (c & Hc & Hnn) & Hk). 
  split; [congruence|]. unfold nn_view. rewrite Hc. csimpl. rewrite Hnn. f_equal.
  unfold constraint_state in *. destruct (t_constraints (reading d1 q) !! check) as [k|] eqn:Ek; [|done].
  by rewrite (Hk _ _ Ek).
Qed.

(** Stopped anywhere, a plan made anew goes on where it was, except between the
    last two steps: there the column is already NOT NULL and the check stays. *)
Definition resumed (rest : list (list Stmt)) (d d' : db) : Prop :=
  t_exists (reading d' q) = t_exists (reading d q)
  /\ (rest <> [nn_drop] -> nn_statements (nn_view (reading d' q)) = rest)
  /\ (rest = [nn_drop] -> nn_view (reading d' q) = (Some true, kValid)).

Lemma resumed_after rest d d1 d' : t_exists (reading d1 q) = t_exists (reading d q) -> resumed rest d1 d' -> resumed rest d d'.
Proof. intros He (He' & Hr). split; [congruence|done]. Qed.

Lemma nn_rest_is_no_drop st : nn_rest st <> [nn_drop].
Proof. unfold nn_rest. intros Hr. destruct st; [done..|]. injection Hr as Hs _. by apply app_inj_tail in Hs as [_ [=]]. Qed.

Lemma resumed_unmoved st d : nn_view (reading d q) = (Some false, st) -> resumed (nn_rest st) d d.
Proof.
  intros Hv. split_and!; [done| |intros Hr; by apply nn_rest_is_no_drop in Hr]. intros _. by rewrite Hv.
Qed.

Lemma resumes_from_valid d d' k :
  nn_view (reading d q) = (Some false, kValid) -> run_steps (take k (nn_rest kValid)) d = Some d' ->
  resumed (drop k (nn_rest kValid)) d d'.
Proof.
  intros Hv. destruct k as [|k]; [intros [= <-]; by apply resumed_unmoved|].
  unfold nn_rest. cbn [app take drop]. rewrite run_steps_cons.
  destruct (run_stmts nn_set d) as [d1|] eqn:Hset; [|done]. cbn [mbind option_bind].
  destruct (nn_set_effect _ _ Hset) as [He Hv1]; [by rewrite Hv|]. intros Hrun. apply (resumed_after _ d d1); [done|].
  destruct (bbool i "keep_check" false).
  - rewrite take_nil in Hrun. injection Hrun as <-. rewrite drop_nil. split_and!; [done|by rewrite Hv1|done].
  - destruct k as [|k]; cbn [take drop] in *; [injection Hrun as <-; by split_and!|].
    rewrite take_nil, run_steps_cons in Hrun. rewrite drop_nil.
    destruct (run_stmts nn_drop d1) as [d2|] eqn:Hd; [|done]. injection Hrun as <-.
    destruct (nn_drop_effect _ _ Hd) as [He2 Hv2]. rewrite Hv1 in Hv2. split_and!; [done|by rewrite Hv2|done].
Qed.

Lemma resumes_from_not_valid d d' k :
  nn_view (reading d q) = (Some false, kNotValid) -> run_steps (take k (nn_rest kNotValid)) d = Some d' ->
  resumed (drop k (nn_rest kNotValid)) d d'.
Proof.
  intros Hv. destruct k as [|k]; [intros [= <-]; by apply resumed_unmoved|].
  change (nn_rest kNotValid) with (nn_validate :: nn_rest kValid). cbn [take drop]. rewrite run_steps_cons.
  destruct (run_stmts nn_validate d) as [d1|] eqn:Hr; [|done]. cbn [mbind option_bind].
  destruct (nn_validate_effect _ _ Hr) as [He Hv1]. rewrite Hv in Hv1. intros Hrun.
  apply (resumed_after _ d d1); [done|]. by apply resumes_from_valid.
Qed.

Lemma resumes_from_absent d d' k :
  nn_view (reading d q) = (Some false, kAbsent) -> run_steps (take k (nn_rest kAbsent)) d = Some d' ->
  resumed (drop k (nn_rest kAbsent)) d d'.
Proof.
  intros Hv. destruct k as [|k]; [intros [= <-]; by apply resumed_unmoved|].
  change (nn_rest kAbsent) with (nn_add :: nn_rest kNotValid). cbn [take drop]. rewrite run_steps_cons.
  destruct (run_stmts nn_add d) as [d1|] eqn:Hr; [|done]. cbn [mbind option_bind].
  destruct (nn_add_effect _ _ Hr) as [He Hv1]. rewrite Hv in Hv1. intros Hrun.
  apply (resumed_after _ d d1); [done|]. by apply resumes_from_not_valid.
Qed.

Lemma not_null_resumes d d' k :
  run_steps (take k (nn_statements (nn_view (reading d q)))) d = Some d' ->
  resumed (drop k (nn_statements (nn_view (reading d q)))) d d'.
Proof.
  destruct (nn_view (reading d q)) as [[[|]|] st] eqn:Hv; cbn [nn_statements].
  2: destruct st; auto using resumes_from_absent, resumes_from_not_valid, resumes_from_valid.
  all: rewrite take_nil, drop_nil; intros [= <-]; split_and!; [done|by rewrite Hv|done].
Qed.
End NotNull.
End Recipes.

(** ** A concrete server *)
Notation shop := (gmap string TableObs) (only parsing).

Definition shop_obs (hypertables : option (gmap string Hypertable)) (d : shop) : Observations :=
  {| o_server_version := 180006; o_is_in_recovery := false; o_shared_buffers_bytes := 134217728;
     o_maintenance_work_mem_kb := 65536; o_tables := d; o_hypertables := hypertables; o_citus := None;
     o_extension_errors := []; o_objects := ∅ |}.

Definition shop_constraint (validated : bool) : ConstraintObs :=
  {| k_type := "c"; k_validated := validated; k_depended_on_by := []; k_has_index := false; k_index := None;
     k_references := ""; k_column := None |}.

Definition shop_change (d : shop) (rel : string) (f : TableObs -> option TableObs) : option shop :=
  t ← d !! rel; t' ← f t; Some (<[rel := t']> d).

Definition shop_add (name : string) (not_valid : bool) (t : TableObs) : option TableObs :=
  match t_constraints t !! stored name with
  | Some _ => None
  | None => Some (with_constraints (<[stored name := shop_constraint (negb not_valid)]> (t_constraints t)) t)
  end.

Definition shop_run (q : Stmt) (d : shop) : option shop :=
  match q with
  | LockTable rel => Some d
  | AddCheck rel name _ nv => shop_change d rel (shop_add name nv)
  | AddForeignKey rel name _ nv => shop_change d rel (shop_add name nv)
  | ValidateConstraint rel name =>
      shop_change d rel (fun t => _ ← t_constraints t !! stored name;
        Some (with_constraints (<[stored name := shop_constraint true]> (t_constraints t)) t))
  | SetNotNull rel column =>
      shop_change d rel (fun t => _ ← t_columns t !! column;
        Some (with_columns (put_not_null column true (t_columns t)) t))
  | DropConstraint rel name =>
      shop_change d rel (fun t => Some (with_constraints (delete (stored name) (t_constraints t)) t))
  | AttachPartition parent child _ => shop_change d parent (fun t => Some (with_partitions (t_partitions t ++ [child]) t))
  | _ => None
  end.

Definition shop_server (hypertables : option (gmap string Hypertable)) : Server :=
  {| db := shop; observe := shop_obs hypertables; run_stmt := shop_run |}.

Lemma shop_reading h (d : shop) q : @reading (shop_server h) d q = default no_table (d !! q).
Proof. done. Qed.

Lemma shop_changed (d d' : shop) rel f :
  shop_change d rel f = Some d' -> exists t t', d !! rel = Some t /\ f t = Some t' /\ d' !! rel = Some t'.
Proof.
  unfold shop_change. destruct (d !! rel) as [t|] eqn:Ht; [|done]. cbn [mbind option_bind].
  destruct (f t) as [t'|] eqn:Hf; [|done]. cbn [mbind option_bind]. intros [= <-].
  exists t, t'. by rewrite lookup_insert_eq.
Qed.

Lemma shop_added h name nv rel (d d' : shop) :
  shop_change d rel (shop_add name nv) = Some d' ->
  constraint_added name nv (@reading (shop_server h) d rel) (@reading (shop_server h) d' rel).
Proof.
  intros (t & t' & Ht & Hf & Ht')%shop_changed. rewrite !shop_reading, Ht, Ht'. cbn [default].
  revert Hf. unfold shop_add. destruct (t_constraints t !! stored name) eqn:Hn; [done|]. intros [= <-].
  split_and!; [done..|]. by exists (shop_constraint (negb nv)).
Qed.

Lemma shop_again (d : shop) rel name nv :
  is_Some (t_constraints (default no_table (d !! rel)) !! stored name) -> shop_change d rel (shop_add name nv) = None.
Proof.
  intros [c Hc]. unfold shop_change. destruct (d !! rel) as [t|]; [|done]. cbn [mbind option_bind].
  unfold shop_add. change (default no_table (Some t)) with t in Hc. by rewrite Hc.
Qed.

Lemma shop_documented h : @Documented (shop_server h).
Proof.
  split.
  - by intros q rel d d' [= ->].
  - intros rel name e nv d d'. apply shop_added.
  - intros rel name fk nv d d'. apply shop_added.
  - intros rel name e nv d. apply shop_again.
  - intros rel name d d' (t & t' & Ht & Hf & Ht')%shop_changed. rewrite !shop_reading, Ht, Ht'. cbn [default].
    revert Hf. destruct (t_constraints t !! stored name) as [c|] eqn:Hc; [|done]. intros [= <-].
    split_and!; [done..|]. by exists c, (shop_constraint true).
  - intros rel column d d' (t & t' & Ht & Hf & Ht')%shop_changed. rewrite !shop_reading, Ht, Ht'. cbn [default].
    revert Hf. destruct (t_columns t !! column) as [c|] eqn:Hc; [|done]. intros [= <-]. split_and!; [done|..|done].
    exists (with_not_null true c). cbn [t_columns with_columns Datatypes.id].
    unfold put_not_null. by rewrite lookup_insert_eq, Hc.
  - intros rel name d d' (t & t' & Ht & Hf & Ht')%shop_changed. rewrite !shop_reading, Ht, Ht'. cbn [default].
    by injection Hf as <-.
Qed.

(** ** The recipes *)

(** C18: A check or a foreign key added by the recipe, on a table no module answers
    for (one that is validated in one step is added again:
    [one_step_check_never_settles]) and under a name that fits the server's 63 bytes: if a job stops after any number of
    the recipe's steps, the plan made from what the catalog then holds has exactly
    the statements that are left, in order, so that applying the specification again
    goes on where it stopped and never adds the constraint twice; and once all of
    them ran the constraint is valid and nothing is left. *)
Theorem validated_recipe_resumes `{Vendors} `{Documented} r i d d' k :
  (forall d q, constraint_traits (observe d) q = None) ->
  r = adds_check \/ r = adds_foreign_key ->
  t_exists (reading d (in_qualified i)) = true -> stored (bstr i "name" "") = bstr i "name" "" ->
  run_steps (take k (statements (ts_rule r i (observe d)))) d = Some d' ->
  statements (ts_rule r i (observe d')) = drop k (statements (ts_rule r i (observe d)))
  /\ ((length (statements (ts_rule r i (observe d))) <= k)%nat ->
      constraint_state (reading d' (in_qualified i)) (bstr i "name" "") = kValid).
Proof.
  intros Hu Hr He Hn.
  assert (Hst : forall d, t_exists (reading d (in_qualified i)) = true -> statements (ts_rule r i (observe d))
            = two_step_rest r i (constraint_state (reading d (in_qualified i)) (bstr i "name" ""))).
  { destruct Hr as [->| ->]; [apply (check_statements Hu)|apply (foreign_key_statements Hu)]. }
  assert (Hadd : forall d d', run_stmt (ts_add r i) d = Some d' ->
            constraint_added (bstr i "name" "") true (reading d (in_qualified i)) (reading d' (in_qualified i))).
  { destruct Hr as [->| ->]; intros ?? Ha; [by apply add_check_reads in Ha|by apply add_foreign_key_reads in Ha]. }
  rewrite Hst by done. intros Hrun. destruct (two_step_resumes r i d d' k Hadd Hn Hrun) as (He' & Hrest & Hvalid).
  rewrite Hst by congruence. done.
Qed.

Definition shop_start : shop := {[ "app.orders" := demo_table "table" [] ]}.

Definition demo_check : Intent :=
  demo_intent kAddCheckConstraint "add_check_constraint" 0
    [("name", JStr "orders_total_ck"); ("expression", JStr "total >= 0")].

(** [validated_recipe_resumes] on a job that stopped after the first step. *)
Lemma validated_recipe_resumes_witness :
  exists d', @run_steps (shop_server None) (take 1 (statements (@plan_add_check_constraint no_vendors demo_check (shop_obs None shop_start)))) shop_start = Some d'
    /\ statements (@plan_add_check_constraint no_vendors demo_check (shop_obs None d'))
       = [[ValidateConstraint "app.orders" "orders_total_ck"]].
Proof.
  destruct (@run_steps (shop_server None) (take 1 (statements (@plan_add_check_constraint no_vendors demo_check (shop_obs None shop_start)))) shop_start)
    as [d'|] eqn:Hr; [|vm_compute in Hr; discriminate].
  exists d'. split; [done|].
  pose proof (@validated_recipe_resumes no_vendors (shop_server None) (shop_documented None) adds_check demo_check
                shop_start d' 1 (fun _ _ => eq_refl) (or_introl eq_refl) eq_refl eq_refl Hr) as [Hs _].
  etransitivity; [exact Hs|]. vm_compute. reflexivity.
Defined.

(** C31: [set_not_null] stopped after any number of its steps, on a table no module
    answers for and where the temporary check's name, made of the table's and the
    column's, fits the server's 63 bytes (one that does not is stored truncated and not
    found again: [long_check_name_stops_the_recipe]): a plan made anew has exactly the statements that are left,
    with one exception. Between SET NOT NULL and the DROP of the temporary check the
    column already reads NOT NULL, the intent is reported satisfied and nothing is
    left to run, although the check is still there, validated, and stays. *)
Theorem not_null_recipe_resumes `{Vendors} `{Documented} i d d' k :
  (forall d q, constraint_traits (observe d) q = None) ->
  t_exists (reading d (in_qualified i)) = true -> stored (not_null_check i) = not_null_check i ->
  run_steps (take k (statements (plan_set_not_null i (observe d)))) d = Some d' ->
  let rest := drop k (statements (plan_set_not_null i (observe d))) in
  (rest <> [nn_drop i] -> statements (plan_set_not_null i (observe d')) = rest)
  /\ (rest = [nn_drop i] ->
      statements (plan_set_not_null i (observe d')) = []
      /\ constraint_state (reading d' (in_qualified i)) (not_null_check i) = kValid).
Proof.
  intros Hu He Hn. rewrite (not_null_statements Hu) by done. intros Hrun.
  destruct (not_null_resumes i Hn d d' k Hrun) as (He' & Hrest & Hleft).
  rewrite (not_null_statements Hu) by congruence. split; [done|]. intros Hr. specialize (Hleft Hr).
  rewrite Hleft. split; [done|]. by injection Hleft as _ ->.
Qed.

Definition demo_not_null : Intent := demo_intent kSetNotNull "set_not_null" 0 [("column", JStr "total")].

(** [not_null_recipe_resumes] on a job that stopped before its last step: the check stays. *)
Lemma not_null_recipe_resumes_witness :
  exists d', @run_steps (shop_server None) (take 3 (statements (@plan_set_not_null no_vendors demo_not_null (shop_obs None shop_start)))) shop_start = Some d'
    /\ statements (@plan_set_not_null no_vendors demo_not_null (shop_obs None d')) = []
    /\ constraint_state (table_obs (shop_obs None d') "app.orders") "orders_total_laswell_nn" = kValid.
Proof.
  destruct (@run_steps (shop_server None) (take 3 (statements (@plan_set_not_null no_vendors demo_not_null (shop_obs None shop_start)))) shop_start)
    as [d'|] eqn:Hr; [|vm_compute in Hr; discriminate].
  exists d'. split; [done|].
  apply (@not_null_recipe_resumes no_vendors (shop_server None) (shop_documented None) demo_not_null shop_start d' 3
           (fun _ _ => eq_refl) eq_refl eq_refl Hr).
  vm_compute. reflexivity.
Defined.

(** A temporary check whose name is longer than the server keeps is not found
    again: a job that stopped after adding it is planned anew from the first step,
    and adding it a second time fails, however often the specification is applied. *)
Theorem long_check_name_stops_the_recipe `{Vendors} `{Documented} i d d' :
  (forall d q, constraint_traits (observe d) q = None) ->
  t_exists (reading d (in_qualified i)) = true -> nn_view i (reading d (in_qualified i)) = (Some false, kAbsent) ->
  stored (not_null_check i) <> not_null_check i ->
  run_steps (take 1 (statements (plan_set_not_null i (observe d)))) d = Some d' ->
  statements (plan_set_not_null i (observe d')) = statements (plan_set_not_null i (observe d))
  /\ run_steps (statements (plan_set_not_null i (observe d'))) d' = None.
Proof.
  intros Hu He Hv Hlong. rewrite (not_null_statements Hu i d) by done. rewrite Hv.
  change (nn_statements i (Some false, kAbsent)) with (nn_add i :: nn_rest i kNotValid). cbn [take].
  rewrite run_steps_cons. destruct (run_stmts (nn_add i) d) as [d1|] eqn:Ha; [|done]. cbn [mbind option_bind].
  intros [= <-]. apply (run_locked _ _ (in_qualified i)) in Ha as (d0 & Hsame & Ha).
  pose proof (add_check_reads _ _ _ _ _ _ Ha) as (He1 & Hc1 & _ & c & _ & Hk1). destruct Hsame as (He0 & Hc0 & Hk0).
  assert (Hv1 : nn_view i (reading d1 (in_qualified i)) = (Some false, kAbsent)).
  { rewrite <- Hv. unfold nn_view, constraint_state. rewrite Hc1, Hk1, Hc0, Hk0. by rewrite lookup_insert_ne by done. }
  assert (Hs1 : statements (plan_set_not_null i (observe d1)) = nn_add i :: nn_rest i kNotValid).
  { rewrite (not_null_statements Hu) by congruence. by rewrite Hv1. }
  rewrite Hs1. split; [done|]. rewrite run_steps_cons.
  destruct (run_stmts (nn_add i) d1) as [d2|] eqn:Ha2; [|done]. exfalso.
  apply (run_locked _ _ (in_qualified i)) in Ha2 as (d3 & (_ & _ & Hk3) & Ha2).
  rewrite add_check_again in Ha2; [done|]. rewrite Hk3, Hk1, lookup_insert_eq. by eexists.
Qed.

Definition long_column : string := "customer_reference_number_assigned_by_the_warehouse".
Definition long_not_null : Intent := demo_intent kSetNotNull "set_not_null" 0 [("column", JStr long_column)].
Definition long_shop : shop :=
  {[ "app.orders" := with_columns {[ long_column := plain_column "text" false ]} (demo_table "table" []) ]}.

(** [long_check_name_stops_the_recipe] on a column whose name is an identifier of 50 bytes. *)
Lemma long_check_name_stops_the_recipe_witness :
  require_identifier long_column = Ok tt
  /\ exists d', @run_steps (shop_server None) (take 1 (statements (@plan_set_not_null no_vendors long_not_null (shop_obs None long_shop)))) long_shop = Some d'
    /\ @run_steps (shop_server None) (statements (@plan_set_not_null no_vendors long_not_null (shop_obs None d'))) d' = None.
Proof.
  split; [reflexivity|].
  destruct (@run_steps (shop_server None) (take 1 (statements (@plan_set_not_null no_vendors long_not_null (shop_obs None long_shop)))) long_shop)
    as [d'|] eqn:Hr; [|vm_compute in Hr; discriminate].
  exists d'. split; [done|].
  assert (Hlong : stored (not_null_check long_not_null) <> not_null_check long_not_null) by (vm_compute; discriminate).
  apply (@long_check_name_stops_the_recipe no_vendors (shop_server None) (shop_documented None) long_not_null long_shop d'
           (fun _ _ => eq_refl) eq_refl eq_refl Hlong Hr).
Defined.

(** Where a module allows no separate validation the rule never looks whether
    the check is there: a specification whose job added it is planned again as if
    it were not, and the statement fails, however often it is applied. *)
Theorem one_step_check_never_settles `{Vendors} `{Documented} i d d' :
  (forall d, exists by_ tr, constraint_traits (observe d) (in_qualified i) = Some (by_, tr) /\ ct_separate_validation tr = false) ->
  t_exists (reading d (in_qualified i)) = true ->
  run_steps (statements (plan_add_check_constraint i (observe d))) d = Some d' ->
  statements (plan_add_check_constraint i (observe d')) = statements (plan_add_check_constraint i (observe d))
  /\ run_steps (statements (plan_add_check_constraint i (observe d'))) d' = None.
Proof.
  intros Hm He.
  assert (Hst : forall d, t_exists (reading d (in_qualified i)) = true ->
    statements (plan_add_check_constraint i (observe d))
    = [[AddCheck (in_qualified i) (bstr i "name" "") (bstr i "expression" "") false]]).
  { unfold reading. intros d1 He1. destruct (Hm d1) as (by_ & tr & Hc & Hs). unfold plan_add_check_constraint.
    rewrite He1, Hc, Hs. cbn [negb]. unfold validate_in_one_step. by case_match. }
  rewrite Hst by done. rewrite run_one. intros Hr.
  pose proof (add_check_reads _ _ _ _ _ _ Hr) as (He' & _ & _ & c & _ & Hk).
  rewrite Hst by congruence. split; [done|]. rewrite run_one. apply add_check_again. rewrite Hk, lookup_insert_eq. by eexists.
Qed.

(** TimescaleDB alone, with a columnstore hypertable. *)
Definition timescaledb_only : Vendors :=
  {| constraint_answers := fun o q => match timescaledb_constraint_traits o q with
                                     | Some t => [("timescaledb", t)] | None => [] end;
     index_answers := fun _ _ _ => []; human_bytes := to_string; confinements := [] |}.

Definition columnstore : option (gmap string Hypertable) :=
  Some {[ "app.orders" := {| h_columnstore := true; h_size_bytes := 1000; h_rows := 10; h_chunks := 3; h_projected := false |} ]}.

(** [one_step_check_never_settles] on such a table. *)
Lemma one_step_check_never_settles_witness :
  exists d', @run_steps (shop_server columnstore) (statements (@plan_add_check_constraint timescaledb_only demo_check (shop_obs columnstore shop_start))) shop_start = Some d'
    /\ @run_steps (shop_server columnstore) (statements (@plan_add_check_constraint timescaledb_only demo_check (shop_obs columnstore d'))) d' = None.
Proof.
  destruct (@run_steps (shop_server columnstore) (statements (@plan_add_check_constraint timescaledb_only demo_check (shop_obs columnstore shop_start))) shop_start)
    as [d'|] eqn:Hr; [|vm_compute in Hr; discriminate].
  exists d'. split; [done|].
  refine (proj2 (@one_step_check_never_settles timescaledb_only (shop_server columnstore) (shop_documented columnstore)
           demo_check shop_start d' _ eq_refl Hr)).
  intros d. eexists _, _. split; reflexivity.
Defined.
