(* ===== verification/TableFacts.v ===== *)
(** * TableFacts: tables and partitions planned again

    What a specification finds when it is applied a second time, after a rename and
    after an attach that stopped between two of its steps; and what the check that is
    to prove a partition's bound proves. *)
From S2P Require Import Prelude Json Canonical Spec Quote RowSql Plan Planner Indexes RowPlan Dml Views Tables Migration MigrationFacts MigrationRuns Recipes.

(** ** A rename, applied again *)
Section Renames.
Context `{Vendors, Printing, OtherRules}.

(** An applied step of a kind that names a table changes that table's reading. *)
Lemma project_reaches_table i s o t :
  st_action s = kApply -> names_configuration i = false -> names_object (kind i) = false -> in_table i <> "" ->
  o_tables o !! in_qualified i = Some t -> project i s o = project_table i s t o.
Proof.
  intros Ha Hc Hn Ht Hq. unfold project. rewrite Ha, bool_decide_eq_true_2, Hc, Hn by done. cbn [negb].
  rewrite (proj2 (String.eqb_neq _ _) Ht). by rewrite Hq.
Qed.

Lemma table_is_read o q : t_exists (table_obs o q) = true -> o_tables o !! q = Some (table_obs o q).
Proof. unfold table_obs. by destruct (o_tables o !! q). Qed.

Definition verdict (e : Emitted) : list Action := st_action <$> e_steps e.

(** A rename that has been applied is known again, except a table's. Planned
    against the catalog an accepted rename leaves, the same rename_column and
    rename_constraint are satisfied, where the new name is another name; rename_table
    is refused, because the table is looked for under its old name only, so a
    specification that stopped after the rename cannot be applied again. *)
Theorem renames_are_known_again i o s :
  in_table i <> "" -> e_steps (plan_rename i o) = [s] -> st_action s = kApply ->
  match kind i with
  | kRenameColumn => bstr i "column" "" <> bstr i "to" "" -> verdict (plan_rename i (project i s o)) = [kSatisfied]
  | kRenameConstraint => bstr i "name" "" <> bstr i "to" "" -> verdict (plan_rename i (project i s o)) = [kSatisfied]
  | kRenameTable => verdict (plan_rename i (project i s o)) = [kConflict] /\ e_conflicts (plan_rename i (project i s o)) <> []
  | _ => True
  end.
Proof.
  intros Htable Hs Ha.
  set (q := in_qualified i). set (t := table_obs o q).
  assert (t_exists t = true) as Ht.
  { unfold plan_rename in Hs. fold q in Hs. fold t in Hs. destruct (t_exists t); [done|]. cbn in Hs. injection Hs as <-. done. }
  pose proof (table_is_read o q Ht) as Hq.
  unfold plan_rename in Hs. fold q in Hs. fold t in Hs. rewrite Ht in Hs. cbn [negb] in Hs.
  unfold verdict. destruct (kind i) eqn:Hk; try done;
    (rewrite (project_reaches_table i s o t) by (first [done | unfold names_configuration; by rewrite Hk | by rewrite Hk]));
    unfold project_table; rewrite Hk; fold q.
  - unfold plan_rename_table in Hs. destruct (String.eqb_spec (in_table i) (bstr i "to" "")) as [He|Hne].
    + cbn in Hs. injection Hs as <-. done.
    + unfold plan_rename, table_obs. fold q. cbn [o_tables with_tables]. rewrite lookup_delete_eq. done.
  - unfold plan_rename_column in Hs. destruct (t_columns t !! _) as [c|] eqn:Hc, (t_columns t !! bstr i "to" "") eqn:Hto;
      cbn in Hs; try (injection Hs as <-; done). intros Hne.
    unfold plan_rename, table_obs. fold q. cbn [o_tables with_tables]. rewrite lookup_insert_eq, Hk. cbn [default from_option Datatypes.id t_exists with_columns with_constraints].
    rewrite Ht. cbn [negb]. unfold plan_rename_column. cbn [t_columns with_columns].
    rewrite lookup_delete_eq, lookup_delete_ne, lookup_insert_eq by done. done.
  - unfold plan_rename_constraint in Hs. destruct (t_constraints t !! _) as [c|] eqn:Hc, (t_constraints t !! bstr i "to" "") eqn:Hto;
      cbn in Hs; try (injection Hs as <-; done). intros Hne.
    unfold plan_rename, table_obs. fold q. cbn [o_tables with_tables]. rewrite lookup_insert_eq, Hk. cbn [default from_option Datatypes.id t_exists with_columns with_constraints].
    rewrite Ht. cbn [negb]. unfold plan_rename_constraint. cbn [t_constraints with_constraints].
    rewrite lookup_delete_eq, lookup_delete_ne, lookup_insert_eq by done. done.
Qed.
End Renames.

(** ** An attach that stopped *)

(** Steps that keep to a relation between the catalog and what is left, in any number. *)
Lemma resumes_along `{Server} (left : db -> list (list Stmt) -> Prop) :
  (forall d s rest d', left d (s :: rest) -> run_stmts s d = Some d' -> left d' rest) ->
  forall k l d d', left d l -> run_steps (take k l) d = Some d' -> left d' (drop k l).
Proof.
  intros Hstep k. induction k as [|k IH]; intros l d d' Hl; [by intros [= <-]|].
  destruct l as [|s l]; [by intros [= <-]|]. cbn [take drop]. rewrite run_steps_cons.
  destruct (run_stmts s d) as [d1|] eqn:Hs; [|done]. cbn [mbind option_bind]. eauto.
Qed.

(** What [plan_attach_partition] reads of a parent, but for its indexes and its
    DEFAULT, which only warnings and the lock's text read. *)
Definition same_parent (t t' : TableObs) : Prop :=
  t_exists t' = t_exists t /\ t_kind t' = t_kind t /\ t_partition_key t' = t_partition_key t
  /\ t_partitions t' = t_partitions t.

(** What PostgreSQL documents of a constraint on another table, and of ATTACH. *)
Class Attaching `{Documented} : Prop := {
  elsewhere_reads : forall s rel d d' q, match s with
      | AddCheck r _ _ _ | ValidateConstraint r _ | DropConstraint r _ => r = rel | _ => False end ->
    q <> rel -> run_stmt s d = Some d' -> same_parent (reading d q) (reading d' q);
  attach_parent : forall parent child bound d d', run_stmt (AttachPartition parent child bound) d = Some d' ->
    t_exists (reading d' parent) = t_exists (reading d parent) /\ t_kind (reading d' parent) = t_kind (reading d parent)
    /\ t_partition_key (reading d' parent) = t_partition_key (reading d parent)
    /\ child ∈ t_partitions (reading d' parent);
  attach_child : forall parent child bound d d', run_stmt (AttachPartition parent child bound) d = Some d' ->
    child <> parent ->
    t_exists (reading d' child) = t_exists (reading d child)
    /\ forall n c, t_constraints (reading d child) !! n = Some c -> t_constraints (reading d' child) !! n = Some c;
}.

Section Attach.
Context `{Attaching} (i : Intent) (expression : string).
#[local] Notation parent := (in_qualified i).
#[local] Notation child := (partition_child i).
#[local] Notation check := (bound_check i).

Definition at_add : list Stmt := [AddCheck (partition_child i) (bound_check i) expression true].
Definition at_validate : list Stmt := [ValidateConstraint (partition_child i) (bound_check i)].
Definition at_attach : list Stmt := [AttachPartition (in_qualified i) (partition_child i) (bounds_as_for_values i)].
Definition at_drop : list Stmt := [DropConstraint (partition_child i) (bound_check i)].

Definition at_rest (s : ConstraintState) : list (list Stmt) :=
  match s with kAbsent => [at_add; at_validate] | kNotValid => [at_validate] | kValid => [] end ++ [at_attach; at_drop].

(** Both tables are there, and the key gives the expression. *)
Definition at_ready (d : db) : Prop :=
  t_exists (reading d parent) = true /\ t_kind (reading d parent) = "partitioned_table"
  /\ t_exists (reading d child) = true /\ bound_expression i (reading d parent) = expression.

Definition attached (d : db) : bool := existsb (String.eqb child) (t_partitions (reading d parent)).
Definition bound_state (d : db) : ConstraintState := constraint_state (reading d child) check.

Lemma attach_statements d :
  at_ready d -> expression <> "" ->
  statements (plan_attach_partition i (observe d)) = if attached d then [] else at_rest (bound_state d).
Proof.
  unfold attached, bound_state, reading. intros (He & Hk & Hc & Hx) Hne. unfold plan_attach_partition, reading in *.
  rewrite He, Hk, Hc. cbn [negb]. rewrite String.eqb_refl. cbn [negb]. case_match; [done|].
  unfold attach_recipe, statements, prove_bound, at_rest. rewrite Hx, (proj2 (String.eqb_neq _ _) Hne).
  cbn [negb e_steps]. destruct (constraint_state _ _); by decide_states.
Qed.

(** What is left, as the catalog shows it and as it is. *)
Definition at_left (d : db) (rest : list (list Stmt)) : Prop :=
  at_ready d /\ ((attached d = false /\ rest = at_rest (bound_state d))
              \/ (attached d = true /\ bound_state d = kValid /\ rest = [at_drop])
              \/ (attached d = true /\ bound_state d = kAbsent /\ rest = [])).

Context (Hfits : stored check = check) (Hapart : child <> parent).

(** A statement on the candidate's constraints leaves the rest of the reading. *)
Lemma at_elsewhere s d d' st :
  run_stmt s d = Some d' ->
  match s with AddCheck r _ _ _ | ValidateConstraint r _ | DropConstraint r _ => r = child | _ => False end ->
  t_exists (reading d' child) = t_exists (reading d child) -> bound_state d' = st ->
  at_ready d -> at_ready d' /\ attached d' = attached d /\ bound_state d' = st.
Proof.
  intros Hr Hs He Hst (Hp & Hk & Hc & Hx).
  destruct (elsewhere_reads _ _ _ _ parent Hs (not_eq_sym Hapart) Hr) as (Hp' & Hk' & Hkey & Hparts).
  unfold at_ready, attached, bound_expression in *. rewrite Hp', Hk', Hkey, Hparts, He. done.
Qed.

Lemma run_single s d : run_stmts [s] d = run_stmt s d.
Proof. cbn. by destruct (run_stmt s d). Qed.

Lemma at_attached d d' :
  run_stmts at_attach d = Some d' -> at_ready d -> bound_state d = kValid ->
  at_ready d' /\ attached d' = true /\ bound_state d' = kValid.
Proof.
  unfold at_attach. rewrite run_single. intros Hr (Hp & Hk & Hc & Hx) Hst.
  destruct (attach_parent _ _ _ _ _ Hr) as (Hp' & Hk' & Hkey & Hin).
  destruct (attach_child _ _ _ _ _ Hr Hapart) as (Hc' & Hkeep).
  unfold at_ready, attached, bound_expression, bound_state, constraint_state in *.
  rewrite Hp', Hk', Hkey, Hc'. split; [done|]. split.
  - apply existsb_exists. exists child. split; [by apply list_elem_of_In|apply String.eqb_refl].
  - destruct (t_constraints (reading d child) !! check) as [c|] eqn:Hck; [|done]. by rewrite (Hkeep _ _ Hck).
Qed.

Lemma at_step d s rest d' : at_left d (s :: rest) -> run_stmts s d = Some d' -> at_left d' rest.
Proof.
  intros [Hok [[Ha Hs]|[(Ha & Hb & Hs)|(_ & _ & ?)]]] Hr; [| |done].
  - destruct (bound_state d) eqn:Hb; injection Hs as -> ->.
    + pose proof Hr as Hr'. unfold at_add in Hr'. rewrite run_single in Hr'. pose proof (add_check_reads _ _ _ _ _ _ Hr') as Hadd.
      pose proof (state_added _ _ _ _ Hadd) as [_ Hst]. rewrite Hfits in Hst. destruct Hadd as (He & _).
      destruct (at_elsewhere _ _ _ _ Hr' eq_refl He Hst Hok) as (Hok' & Ha' & Hb').
      split; [done|]. left. rewrite Ha', Hb'. done.
    + pose proof Hr as Hr'. unfold at_validate in Hr'. rewrite run_single in Hr'. pose proof (state_validated _ _ _ _ Hr') as Hst.
      rewrite Hfits in Hst. pose proof (validate_reads _ _ _ _ Hr') as (He & _).
      destruct (at_elsewhere _ _ _ _ Hr' eq_refl He Hst Hok) as (Hok' & Ha' & Hb').
      split; [done|]. left. rewrite Ha', Hb'. done.
    + destruct (at_attached _ _ Hr Hok Hb) as (Hok' & Ha' & Hb'). split; [done|]. right. left. done.
  - injection Hs as -> ->. unfold at_drop in Hr. rewrite run_single in Hr.
    pose proof (drop_constraint_reads _ _ _ _ Hr) as (He & _ & Hk). rewrite Hfits in Hk.
    assert (bound_state d' = kAbsent) as Hst by (unfold bound_state, constraint_state; by rewrite Hk, lookup_delete_eq).
    destruct (at_elsewhere _ _ _ _ Hr eq_refl He Hst Hok) as (Hok' & Ha' & Hb').
    split; [done|]. right. right. by rewrite Ha'.
Qed.
End Attach.

(** C20: An attach of a candidate whose bound the rule can prove, where the name of the
    temporary check, the candidate's with "_laswell_bound", fits the server's 63 bytes,
    stopped after any number of its steps: a plan made anew has exactly the statements that are left,
    so the check is never added twice and ATTACH comes only once the check is valid,
    with one exception. Between ATTACH and the DROP of the temporary check the
    candidate is already a partition, the intent is reported satisfied, nothing is
    left to run, and the check stays, evaluated beside the bound on every insert. *)
Theorem attach_recipe_resumes `{Attaching} i d d' k :
  at_ready i (bound_expression i (reading d (in_qualified i))) d -> bound_expression i (reading d (in_qualified i)) <> "" ->
  attached i d = false -> stored (bound_check i) = bound_check i -> partition_child i <> in_qualified i ->
  run_steps (take k (statements (plan_attach_partition i (observe d)))) d = Some d' ->
  let rest := drop k (statements (plan_attach_partition i (observe d))) in
  (rest <> [at_drop i] -> statements (plan_attach_partition i (observe d')) = rest)
  /\ (rest = [at_drop i] ->
      verdict (plan_attach_partition i (observe d')) = [kSatisfied] /\ bound_state i d' = kValid).
Proof.
  intros Hok Hne Ha Hfits Hapart. set (x := bound_expression i _) in *.
  rewrite (attach_statements i x d Hok Hne), Ha. intros Hrun.
  pose proof (resumes_along (at_left i x) (at_step i x Hfits Hapart) k _ d d' (conj Hok (or_introl (conj Ha eq_refl))) Hrun)
    as (Hok' & Hleft). cbv zeta. rewrite (attach_statements i x d' Hok' Hne).
  destruct Hleft as [[Ha' Hr]|[(Ha' & Hb' & Hr)|(Ha' & Hb' & Hr)]]; rewrite Ha', Hr.
  - split; [done|]. by destruct (bound_state i d').
  - split; [done|]. intros _. split; [|done]. destruct Hok' as (Hp & Hk & Hc & _).
    unfold verdict, plan_attach_partition, attached, reading in *. rewrite Hp, Hk, Hc, Ha'. done.
  - done.
Qed.

(** ** Concrete runs *)
Lemma shop_elsewhere h rel f (d d' : gmap string TableObs) q :
  shop_change d rel f = Some d' -> q <> rel -> @reading (shop_server h) d' q = @reading (shop_server h) d q.
Proof.
  unfold shop_change. destruct (d !! rel) as [t|]; [|done]. cbn [mbind option_bind]. destruct (f t); [|done].
  cbn [mbind option_bind]. intros [= <-] Hq. rewrite !shop_reading. by rewrite lookup_insert_ne.
Qed.

Lemma shop_attaching h : @Attaching (shop_server h) (shop_documented h).
Proof.
  split.
  - intros s rel d d' q Hs Hq Hr.
    enough (@reading (shop_server h) d' q = @reading (shop_server h) d q) as Heq by (by unfold same_parent; rewrite Heq).
    destruct s; try done; subst; exact (shop_elsewhere h _ _ _ _ _ Hr Hq).
  - intros parent child b d d' (t & t' & Ht & Hf & Ht')%shop_changed. injection Hf as <-.
    rewrite !shop_reading, Ht, Ht'. cbn [default from_option Datatypes.id with_partitions t_exists t_kind t_partition_key t_partitions].
    split_and!; [done..|]. set_solver.
  - intros parent child b d d' Hr Hne. by rewrite (shop_elsewhere h _ _ _ _ _ Hr Hne).
Qed.

Definition attach_intent : Intent :=
  demo_intent kAttachPartition "attach_partition" 0
    [("partition", JStr "orders_1"); ("from", JStr "0"); ("to", JStr "100")].

Definition attach_start : gmap string TableObs :=
  <["app.orders" := demo_table "partitioned_table" []]> {["app.orders_1" := demo_table "table" []]}.

(** [attach_recipe_resumes] on a job that stopped after the validation, and on one
    that stopped after ATTACH. *)
Lemma attach_recipe_resumes_witness :
  let run k := @run_steps (shop_server None) (take k (statements (plan_attach_partition attach_intent (shop_obs None attach_start)))) attach_start in
  (exists d2, run 2%nat = Some d2
    /\ statements (plan_attach_partition attach_intent (shop_obs None d2))
       = [[AttachPartition "app.orders" "app.orders_1" "FOR VALUES FROM (0) TO (100)"];
          [DropConstraint "app.orders_1" "orders_1_laswell_bound"]])
  /\ (exists d3, run 3%nat = Some d3 /\ verdict (plan_attach_partition attach_intent (shop_obs None d3)) = [kSatisfied]
        /\ @bound_state (shop_server None) attach_intent d3 = kValid).
Proof.
  intros run.
  assert (Hfresh : forall k d', run k = Some d' -> _)
    by (intros k d' Hr; exact (@attach_recipe_resumes (shop_server None) (shop_documented None) (shop_attaching None)
          attach_intent attach_start d' k (conj eq_refl (conj eq_refl (conj eq_refl eq_refl)))
          (ltac:(vm_compute; discriminate)) eq_refl eq_refl (ltac:(vm_compute; discriminate)) Hr)).
  split.
  - destruct (run 2%nat) as [d2|] eqn:Hr; [|vm_compute in Hr; discriminate]. exists d2. split; [done|].
    destruct (Hfresh _ _ Hr) as [Hs _]. etransitivity; [apply Hs; vm_compute; discriminate|]. vm_compute. reflexivity.
  - destruct (run 3%nat) as [d3|] eqn:Hr; [|vm_compute in Hr; discriminate]. exists d3. split; [done|].
    destruct (Hfresh _ _ Hr) as [_ Hs]. apply Hs. vm_compute. reflexivity.
Defined.

Definition rename_intent (k : IntentKind) (name : string) (b : list (string * json)) : Intent :=
  demo_intent k name 0 (("to", JStr "fresh") :: b).

(** [renames_are_known_again] for a column and for the table. *)
Lemma renames_are_known_again_witness :
  let o := demo_obs (demo_table "table" []) in
  let after i := @project no_vendors demo_printing one_statement i (default (new_step "") (head (e_steps (plan_rename i o)))) o in
  let column := rename_intent kRenameColumn "rename_column" [("column", JStr "total")] in
  let table := rename_intent kRenameTable "rename_table" [] in
  verdict (plan_rename column (after column)) = [kSatisfied] /\ verdict (plan_rename table (after table)) = [kConflict].
Proof.
  intros o after column table. split.
  - destruct (e_steps (plan_rename column o)) as [|s [|? ?]] eqn:Hs; [vm_compute in Hs; discriminate| |vm_compute in Hs; discriminate].
    assert (st_action s = kApply) as Ha by (vm_compute in Hs; injection Hs as <-; reflexivity).
    pose proof (@renames_are_known_again no_vendors demo_printing one_statement column o s
                  (ltac:(vm_compute; discriminate)) Hs Ha (ltac:(vm_compute; discriminate))) as Hp.
    unfold after. rewrite Hs. exact Hp.
  - destruct (e_steps (plan_rename table o)) as [|s [|? ?]] eqn:Hs; [vm_compute in Hs; discriminate| |vm_compute in Hs; discriminate].
    assert (st_action s = kApply) as Ha by (vm_compute in Hs; injection Hs as <-; reflexivity).
    pose proof (@renames_are_known_again no_vendors demo_printing one_statement table o s
                  (ltac:(vm_compute; discriminate)) Hs Ha) as Hp.
    unfold after. rewrite Hs. exact (proj1 Hp).
Defined.
