(* ===== verification/UniqueFacts.v ===== *)
(** * UniqueFacts: keys added partition by partition

    A unique constraint or primary key on a partitioned table takes three steps for
    each partition, and a job can stop after any of them, or in a build that fails.
    What the plan made anew reads is what the statements left of each partition's index;
    the server is a class with the documented effect of each. *)
From S2P Require Import Prelude Json Canonical Spec Quote RowSql Plan Planner Indexes RowPlan Dml AddColumn Views Tables Keys Migration MigrationFacts MigrationRuns Recipes TableFacts.

(** ** What the statements leave of a partition *)
Definition fresh_index : PartIndex := {| px_valid := true; px_unique := true; px_constraint := false; px_attached := None |}.
Definition broken_index : PartIndex := {| px_valid := false; px_unique := true; px_constraint := false; px_attached := None |}.
Definition as_constraint (x : PartIndex) : PartIndex :=
  {| px_valid := px_valid x; px_unique := px_unique x; px_constraint := true; px_attached := px_attached x |}.
Definition as_part_of (name : string) (x : PartIndex) : PartIndex :=
  {| px_valid := px_valid x; px_unique := px_unique x; px_constraint := px_constraint x; px_attached := Some name |}.

Definition with_part_index (child : string) (f : option PartIndex -> option PartIndex) (p : PartObs) : PartObs :=
  {| pt_relation := pt_relation p; pt_partitioned := pt_partitioned p; pt_indexes := partial_alter f child (pt_indexes p) |}.

(** One partition's index changes. *)
Definition on_part (rel child : string) (f : option PartIndex -> option PartIndex) (parts : list PartObs) : list PartObs :=
  (fun p => if String.eqb (pt_relation p) rel then with_part_index child f p else p) <$> parts.

(** What the rule reads of the parent, but for its partitions and the constraint. *)
Definition keeps (t t' : TableObs) : Prop :=
  t_exists t' = t_exists t /\ t_kind t' = t_kind t /\ t_partition_key t' = t_partition_key t
  /\ forall c x, t_columns t !! c = Some x -> exists y, t_columns t' !! c = Some y /\ (c_not_null x = true -> c_not_null y = true).

Definition moved (f : list PartObs -> list PartObs) (t t' : TableObs) : Prop :=
  keeps t t' /\ t_constraints t' = t_constraints t /\ t_partition_parts t' = f (t_partition_parts t).

(** Every partition has an index attached to the parent's. *)
Definition all_attached (name : string) (parts : list PartObs) : Prop :=
  Forall (fun p => exists n x, pt_indexes p !! n = Some x /\ px_attached x = Some name) parts.

(** The partition an index is of: names of indexes are unique in a schema. *)
Definition index_of (parts : list PartObs) (schema child rel : string) : Prop :=
  exists p, p ∈ parts /\ pt_relation p = rel /\ schema_of rel = schema /\ is_Some (pt_indexes p !! child).

(** A concurrent build of an index, by its name and its table, that began and failed,
    and what it left. *)
Class Failures `{Server} : Type := { failed_build : string -> string -> db -> db -> Prop }.

(** What PostgreSQL documents of these statements, as the parent [q] is read. *)
Class KeyServer `{Server} `{!Failures} : Prop := {
  relations_differ : forall d q, NoDup (pt_relation <$> t_partition_parts (reading d q));
  parts_are_others : forall d q p, p ∈ t_partition_parts (reading d q) -> pt_relation p <> q;
  index_names_unique : forall d q p p' child, p ∈ t_partition_parts (reading d q) -> p' ∈ t_partition_parts (reading d q) ->
    schema_of (pt_relation p) = schema_of (pt_relation p') -> is_Some (pt_indexes p !! child) ->
    is_Some (pt_indexes p' !! child) -> pt_relation p = pt_relation p';
  (** Only a valid index that is a constraint's is attached to a constraint's. *)
  attached_is_whole : forall d q p n x name, p ∈ t_partition_parts (reading d q) -> pt_indexes p !! n = Some x ->
    px_attached x = Some name -> is_Some (t_constraints (reading d q) !! name) ->
    px_valid x = true /\ px_constraint x = true;
  locked_reads : forall s q d d', match s with LockTable _ | LockOnly _ => True | _ => False end ->
    run_stmt s d = Some d' -> reading d' q = reading d q;
  only_reads : forall primary columns q name d d', run_stmt (AddKey true q name (key_clause primary columns)) d = Some d' ->
    let t := reading d q in
    let t' := reading d' q in
    keeps t t' /\ t_partition_parts t' = t_partition_parts t
    /\ (exists k, k_type k = key_type primary /\ t_constraints t' = <[name := k]> (t_constraints t))
    /\ exists x, t_indexes t' !! name = Some x /\ (t_partition_parts t <> [] -> i_is_valid x = false);
  created_reads : forall child rel tail q d d', run_stmt (CreateIndex true true false child rel tail) d = Some d' -> q <> rel ->
    moved (on_part rel child (fun _ => Some fresh_index)) (reading d q) (reading d' q)
    /\ t_indexes (reading d' q) = t_indexes (reading d q);
  (** An index that is there, valid or not, is not built over. *)
  built_over : forall child rel tail q d p, p ∈ t_partition_parts (reading d q) -> pt_relation p = rel ->
    is_Some (pt_indexes p !! child) -> run_stmt (CreateIndex true true false child rel tail) d = None;
  (** A build that fails leaves its index, INVALID. *)
  failed_reads : forall child rel q d d', failed_build child rel d d' -> q <> rel ->
    moved (on_part rel child (fun _ => Some broken_index)) (reading d q) (reading d' q)
    /\ t_indexes (reading d' q) = t_indexes (reading d q);
  dropped_reads : forall schema child rel q d d', run_stmt (DropIndex true schema child) d = Some d' ->
    index_of (t_partition_parts (reading d q)) schema child rel ->
    moved (on_part rel child (fun _ => None)) (reading d q) (reading d' q)
    /\ t_indexes (reading d' q) = t_indexes (reading d q);
  adopted_reads : forall rel child words q d d', run_stmt (AddKeyUsing rel child words child) d = Some d' -> q <> rel ->
    moved (on_part rel child (fmap as_constraint)) (reading d q) (reading d' q)
    /\ t_indexes (reading d' q) = t_indexes (reading d q);
  attached_reads : forall name schema child rel q d d',
    run_stmt (AttachIndexOf (schema_of q) name schema child) d = Some d' ->
    index_of (t_partition_parts (reading d q)) schema child rel ->
    moved (on_part rel child (fmap (as_part_of name))) (reading d q) (reading d' q)
    /\ exists x, t_indexes (reading d' q) !! name = Some x
         /\ (i_is_valid x = true <-> all_attached name (t_partition_parts (reading d' q)));
}.

(** ** The statements of a recipe *)
Lemma run_stmts_cons_lock `{Server} s s' d : run_stmts [s; s'] d = d1 ← run_stmt s d; run_stmt s' d1.
Proof. cbn. destruct (run_stmt s d); [|done]. cbn. by destruct (run_stmt s' d0). Qed.

(** What a rule would run: the statements of its steps, but for checks that have none. *)
Definition to_run (e : Emitted) : list (list Stmt) :=
  List.filter (fun l => match l with [] => false | _ => true end) (statements e).

(** The statements of a build. *)
Definition build_sql (again : bool) (child rel tail : string) : list Stmt :=
  (if again then [DropIndex true (schema_of rel) child] else []) ++ [CreateIndex true true false child rel tail].

Section Partitions.
Context (i : Intent) (primary : bool) (name : string) (columns : list string).
#[local] Notation q := (in_qualified i).

(** The statements left for one partition. *)
Definition part_sql (p : KeyPart) : list (list Stmt) :=
  (if built p then []
   else [build_sql (bool_decide (is_Some (kp_index p))) (kp_child p) (kp_relation p) (" (" +:+ quoted_list columns +:+ ")")])
  ++ (if adopted p then [] else [[LockTable (kp_relation p); AddKeyUsing (kp_relation p) (kp_child p) (key_words primary) (kp_child p)]])
  ++ (if built p && attached_as name p then []
      else [[AttachIndexOf (schema_of (in_qualified i)) name (schema_of (kp_relation p)) (kp_child p)]]).

Definition only_sql : list Stmt :=
  [LockOnly (in_qualified i); AddKey true (in_qualified i) name (key_clause primary columns)].

Definition recipe_sql (there : bool) (todo : list KeyPart) : list (list Stmt) :=
  (if there then [] else [only_sql]) ++ concat (part_sql <$> todo).

Lemma part_steps_sql cols total n p :
  cols = quoted_list columns ->
  st_sql <$> part_steps i primary name cols total n p = part_sql p
  /\ Forall (fun s => st_action s = kApply) (part_steps i primary name cols total n p).
Proof.
  intros ->. unfold part_steps, part_sql. destruct (built p), (adopted p), (attached_as name p); csimpl; split; try done;
    repeat constructor; unfold build_part, set_details, build_sql; by destruct (bool_decide _).
Qed.

Lemma part_sql_nonempty p : Forall (fun l => l <> []) (part_sql p).
Proof.
  unfold part_sql. apply Forall_app; split; [|apply Forall_app; split].
  - case_match; [done|]. constructor; [|done]. unfold build_sql. by case_match.
  - case_match; [done|]. by repeat constructor.
  - case_match; [done|]. by repeat constructor.
Qed.

Lemma filter_nonempty (l : list (list Stmt)) :
  Forall (fun l => l <> []) l -> List.filter (fun l => match l with [] => false | _ => true end) l = l.
Proof. induction 1 as [|x l Hx _ IH]; [done|]. csimpl. destruct x; [done|]. by rewrite IH. Qed.

Lemma concat_parts total todo k :
  st_sql <$> concat (imap (fun j p => part_steps i primary name (quoted_list columns) total (S (k + j)) p) todo)
    = concat (part_sql <$> todo)
  /\ Forall (fun s => st_action s = kApply)
       (concat (imap (fun j p => part_steps i primary name (quoted_list columns) total (S (k + j)) p) todo)).
Proof.
  revert k; induction todo as [|p todo IH]; intros k; [done|]. rewrite imap_cons. csimpl.
  destruct (part_steps_sql (quoted_list columns) total (S (k + 0)) p eq_refl) as [Hs Ha].
  rewrite (imap_ext _ (fun j p => part_steps i primary name (quoted_list columns) total (S (S k + j)) p)).
  2: { intros j x _. unfold compose. by rewrite Nat.add_succ_r. }
  destruct (IH (S k)) as [Hs' Ha']. rewrite fmap_app, Hs, Hs'. split; [done|]. by apply Forall_app.
Qed.

Lemma recipe_statements t todo :
  to_run (unique_recipe i t primary name columns todo)
  = recipe_sql (bool_decide (is_Some (t_constraints t !! name))) todo.
Proof.
  unfold to_run, unique_recipe, recipe_sql.
  destruct (concat_parts (length todo) todo 0) as [Hs Ha]. simpl plus in Hs, Ha.
  assert (forall e, Forall (fun s => st_action s = kApply) (e_steps e) -> statements e = st_sql <$> e_steps e) as Hall.
  { intros e He. rewrite <- (statements_apply (e_steps e) He). done. }
  rewrite Hall; cbn [e_steps].
  - rewrite !fmap_app, !List.filter_app, Hs. rewrite (filter_nonempty (concat _)).
    + case_match; csimpl; by rewrite app_nil_r.
    + apply Forall_concat. apply Forall_fmap, Forall_forall. intros p _. apply part_sql_nonempty.
  - apply Forall_app; split; [case_match; by repeat constructor|]. apply Forall_app; split; [done|]. by repeat constructor.
Qed.

(** ** What the rule reads *)

(** An index that is in the way: valid and not unique. *)
Definition not_unique (x : PartIndex) : bool := px_valid x && negb (px_unique x).

Definition key_part (p : PartObs) : KeyPart :=
  {| kp_relation := pt_relation p; kp_child := partition_index_name (pt_relation p) name;
     kp_index := pt_indexes p !! partition_index_name (pt_relation p) name |}.

Definition index_fits (ox : option PartIndex) : Prop := match ox with Some x => not_unique x = false | None => True end.

Definition part_fits (p : PartObs) : Prop :=
  pt_partitioned p = false /\ (String.length (partition_index_name (pt_relation p) name) <= 63)%nat
  /\ index_fits (pt_indexes p !! partition_index_name (pt_relation p) name).

Lemma key_parts_fit parts :
  Forall part_fits parts -> key_parts not_unique name parts = Ok (key_part <$> parts).
Proof.
  induction 1 as [|p parts (Hp & Hl & Hx) _ IH]; [done|]. cbn [key_parts]. rewrite Hp, (proj2 (Nat.ltb_ge _ _) Hl).
  unfold index_fits in Hx. destruct (pt_indexes p !! _) as [x|] eqn:Hix; [rewrite Hx|];
    rewrite IH; cbn; unfold key_part; by rewrite Hix.
Qed.

(** The rule accepts the table, its key and its partitions. *)
Definition ready (t : TableObs) : Prop :=
  t_exists t = true /\ t_kind t = "partitioned_table"
  /\ partition_key_columns (t_partition_key t) <> []
  /\ partition_column_outside columns (partition_key_columns (t_partition_key t)) = None
  /\ Forall (fun c => exists x, t_columns t !! c = Some x /\ (primary = true -> c_not_null x = true)) columns
  /\ t_partition_parts t <> [] /\ Forall part_fits (t_partition_parts t).

(** Of the indexes attached to the constraint's, each bears the name the recipe gives it. *)
Definition ours (t : TableObs) : Prop :=
  forall p n x, p ∈ t_partition_parts t -> pt_indexes p !! n = Some x -> px_attached x = Some name ->
    n = partition_index_name (pt_relation p) name.

Definition todo_of (t : TableObs) : list KeyPart := key_part <$> t_partition_parts t.

Lemma keeps_trans t1 t2 t3 : keeps t1 t2 -> keeps t2 t3 -> keeps t1 t3.
Proof.
  intros (He & Hk & Hp & Hc) (He' & Hk' & Hp' & Hc'). split_and!; [congruence..|].
  intros c x (y & Hy & Hn)%Hc. apply Hc' in Hy as (z & Hz & Hn'). eauto.
Qed.

Lemma on_part_twice rel child f g parts :
  on_part rel child g (on_part rel child f parts) = on_part rel child (fun x => g (f x)) parts.
Proof.
  unfold on_part. rewrite <- list_fmap_compose. apply list_fmap_ext. intros _ p _. unfold compose.
  destruct (String.eqb (pt_relation p) rel) eqn:Hr; [|by rewrite Hr]. cbn [with_part_index pt_relation]. rewrite Hr.
  unfold with_part_index. cbn [pt_relation pt_partitioned pt_indexes]. f_equal.
  apply map_eq. intros n. destruct (decide (n = child)) as [->|Hn].
  - by rewrite !lookup_partial_alter_eq.
  - by rewrite !lookup_partial_alter_ne.
Qed.

Lemma moved_nothing rel child t : moved (on_part rel child (fun x => x)) t t.
Proof.
  split_and!; [split_and!; eauto|done|]. symmetry. unfold on_part. rewrite <- (list_fmap_id (t_partition_parts t)) at 2.
  apply list_fmap_ext. intros _ p _. case_match; [|done]. destruct p as [rel' part ixs]. unfold with_part_index. cbn. f_equal.
  apply map_eq. intros n. destruct (decide (n = child)) as [->|Hn]; [by rewrite lookup_partial_alter_eq|by rewrite lookup_partial_alter_ne].
Qed.

Lemma moved_twice rel child f g t1 t2 t3 :
  moved (on_part rel child f) t1 t2 -> moved (on_part rel child g) t2 t3 ->
  moved (on_part rel child (fun x => g (f x))) t1 t3.
Proof.
  intros (Hk & Hc & Hp) (Hk' & Hc' & Hp'). split_and!; [by eapply keeps_trans|congruence|].
  by rewrite Hp', Hp, on_part_twice.
Qed.

Lemma keeps_ready t t' :
  keeps t t' -> t_partition_parts t' <> [] -> Forall part_fits (t_partition_parts t') -> ready t -> ready t'.
Proof.
  intros (He & Hk & Hp & Hc) Hne Hf (He' & Hk' & Hkey & Hout & Hcols & _). unfold ready. rewrite He, Hk, Hp.
  split_and!; [done..| |done|done]. eapply Forall_impl; [exact Hcols|]. intros c (x & Hx & Hn).
  destruct (Hc _ _ Hx) as (y & Hy & Hny). eauto.
Qed.

(** One partition's part of what is to do changes. *)
Definition after_part (rel : string) (f : option PartIndex -> option PartIndex) (p : KeyPart) : KeyPart :=
  if String.eqb (kp_relation p) rel
  then {| kp_relation := kp_relation p; kp_child := kp_child p; kp_index := f (kp_index p) |} else p.

Lemma moved_ready rel f t t' :
  moved (on_part rel (partition_index_name rel name) f) t t' -> (forall ox, index_fits ox -> index_fits (f ox)) ->
  ready t -> ready t' /\ todo_of t' = after_part rel f <$> todo_of t.
Proof.
  intros (Hk & _ & Hp) Hf Hr.
  assert (forall p, String.eqb (pt_relation p) rel = true ->
            pt_indexes (with_part_index (partition_index_name rel name) f p) !! partition_index_name (pt_relation p) name
            = f (pt_indexes p !! partition_index_name (pt_relation p) name)) as Hlook.
  { intros p ->%String.eqb_eq. cbn [with_part_index pt_indexes]. by rewrite lookup_partial_alter_eq. }
  split.
  - apply (keeps_ready t); [done| | |done]; destruct Hr as (_ & _ & _ & _ & _ & Hne & Hfit); rewrite Hp.
    + by destruct (t_partition_parts t).
    + apply Forall_fmap. eapply Forall_impl; [exact Hfit|]. intros p (Hq & Hl & Hx). unfold compose.
      destruct (String.eqb (pt_relation p) rel) eqn:He; [|done].
      split_and!; [done..|]. change (pt_relation (with_part_index _ _ p)) with (pt_relation p). rewrite Hlook by done. by apply Hf.
  - unfold todo_of. rewrite Hp. unfold on_part. rewrite <- !list_fmap_compose. apply list_fmap_ext. intros _ p _.
    unfold compose, after_part. cbn [key_part kp_relation]. destruct (String.eqb (pt_relation p) rel) eqn:He; [|done].
    unfold key_part at 1. change (pt_relation (with_part_index _ _ p)) with (pt_relation p). by rewrite Hlook.
Qed.

Lemma moved_ours rel f t t' :
  moved (on_part rel (partition_index_name rel name) f) t t' -> ours t -> ours t'.
Proof.
  intros (_ & _ & Hp) Ho p n x Hin Hx Ha. rewrite Hp in Hin. apply list_elem_of_fmap in Hin as (p' & -> & Hin).
  destruct (String.eqb (pt_relation p') rel) eqn:He; [|by eapply Ho]. apply String.eqb_eq in He as <-.
  cbn [with_part_index pt_relation pt_indexes] in *. destruct (decide (n = partition_index_name (pt_relation p') name)) as [->|Hn]; [done|].
  rewrite lookup_partial_alter_ne in Hx by done. by eapply Ho.
Qed.

(** ** A step of a partition *)
Section Steps.
Context `{KeyServer}.

(** The parent's own index: as it was, or valid exactly when every partition's is attached. *)
Definition index_after (t t' : TableObs) : Prop :=
  t_indexes t' = t_indexes t
  \/ exists x, t_indexes t' !! name = Some x /\ (i_is_valid x = true <-> all_attached name (t_partition_parts t')).

Definition part_stepped (p : KeyPart) (r : list (list Stmt)) (d d' : db) : Prop :=
  exists f, moved (on_part (kp_relation p) (kp_child p) f) (reading d q) (reading d' q)
    /\ (forall ox, index_fits ox -> index_fits (f ox))
    /\ part_sql (after_part (kp_relation p) f p) = r /\ index_after (reading d q) (reading d' q).

Lemma after_itself f p :
  after_part (kp_relation p) f p = {| kp_relation := kp_relation p; kp_child := kp_child p; kp_index := f (kp_index p) |}.
Proof. unfold after_part. by rewrite String.eqb_refl. Qed.

Lemma index_of_part p d :
  p ∈ t_partition_parts (reading d q) -> is_Some (kp_index (key_part p)) ->
  index_of (t_partition_parts (reading d q)) (schema_of (kp_relation (key_part p))) (kp_child (key_part p)) (kp_relation (key_part p)).
Proof. intros Hp Hx. by exists p. Qed.

Lemma built_step p d d' :
  p ∈ t_partition_parts (reading d q) -> built (key_part p) = false ->
  run_stmts (build_sql (bool_decide (is_Some (kp_index (key_part p)))) (kp_child (key_part p)) (kp_relation (key_part p))
               (" (" +:+ quoted_list columns +:+ ")")) d
  = Some d' ->
  exists f, moved (on_part (kp_relation (key_part p)) (kp_child (key_part p)) f) (reading d q) (reading d' q)
    /\ (forall ox, f ox = Some fresh_index) /\ t_indexes (reading d' q) = t_indexes (reading d q).
Proof.
  intros Hp _. unfold build_sql.
  assert (forall d, p ∈ t_partition_parts (reading d q) -> q <> kp_relation (key_part p)) as Hne.
  { intros d0 Hp0 Heq. by apply (parts_are_others d0 q p Hp0). }
  specialize (Hne d Hp).
  case_bool_decide as Hx.
  - rewrite run_stmts_app, run_single. destruct (run_stmt (DropIndex _ _ _) d) as [d1|] eqn:Hd; [|done]. cbn [mbind option_bind].
    rewrite run_single. intros Hc. destruct (dropped_reads _ _ _ q _ _ Hd (index_of_part p d Hp Hx)) as [Hm Hi].
    destruct (created_reads _ _ _ q _ _ Hc Hne) as [Hm' Hi']. eexists. split; [by eapply moved_twice|]. split; [done|congruence].
  - cbn [app]. rewrite run_single. intros Hc.
    destruct (created_reads _ _ _ q _ _ Hc Hne) as [Hm' Hi']. eexists. by split_and!.
Qed.

Lemma part_step p s r d d' :
  p ∈ t_partition_parts (reading d q) -> part_fits p -> part_sql (key_part p) = s :: r -> run_stmts s d = Some d' ->
  part_stepped (key_part p) r d d'.
Proof.
  intros Hp Hfit Hs Hr. unfold part_sql in Hs.
  assert (q <> kp_relation (key_part p)) as Hne by (intros Heq; by apply (parts_are_others d q p Hp)).
  destruct (built (key_part p)) eqn:Hb.
  - assert (exists x, kp_index (key_part p) = Some x /\ px_valid x = true) as (x & Hx & Hv).
    { unfold built in Hb. destruct (kp_index (key_part p)) as [x|]; [eauto|done]. }
    assert (adopted (key_part p) = px_constraint x) as Had by (unfold adopted; by rewrite Hx, Hv).
    assert (attached_as name (key_part p) = bool_decide (px_attached x = Some name)) as Hat by (unfold attached_as; by rewrite Hx).
    rewrite Had, Hat in Hs. cbn [app andb] in Hs. destruct (px_constraint x) eqn:Hc; cbn [app] in Hs.
    + case_bool_decide as Ha; [done|]. injection Hs as <- <-. rewrite run_single in Hr.
      destruct (attached_reads _ _ _ _ q _ _ Hr (index_of_part p d Hp (ex_intro _ _ Hx))) as (Hm & Hi).
      exists (fmap (as_part_of name)). split_and!; [done| | |by right].
      * intros [y|]; [|done]. done.
      * rewrite after_itself, Hx. unfold part_sql, built, adopted, attached_as. cbn. rewrite Hv, Hc.
        by rewrite bool_decide_eq_true_2.
    + injection Hs as <- <-. rewrite run_stmts_cons_lock in Hr.
      destruct (run_stmt (LockTable _) d) as [d1|] eqn:Hl; [|done]. cbn [mbind option_bind] in Hr.
      pose proof (locked_reads (LockTable (kp_relation (key_part p))) q d d1 I Hl) as Hsame.
      destruct (adopted_reads _ _ _ q _ _ Hr Hne) as (Hm & Hi). rewrite Hsame in Hm, Hi.
      exists (fmap as_constraint). split_and!; [done| | |by left].
      * intros [y|]; [|done]. done.
      * rewrite after_itself, Hx. unfold part_sql, built, adopted, attached_as. cbn. rewrite Hv. cbn.
        by destruct (bool_decide _).
  - assert (adopted (key_part p) = false) as Had.
    { unfold adopted. unfold built in Hb. destruct (kp_index (key_part p)); [by rewrite Hb|done]. }
    rewrite Had in Hs. injection Hs as <- <-. destruct (built_step _ _ _ Hp Hb Hr) as (f & Hm & Hf & Hi).
    exists f. split_and!; [done|intros ? _; by rewrite Hf| |by left].
    rewrite after_itself, Hf. unfold part_sql, built, adopted, attached_as. done.
Qed.

(** ** The recipe, step by step *)
Lemma columns_are_there t : ready t -> List.find (fun c => negb (bool_decide (is_Some (t_columns t !! c)))) columns = None.
Proof.
  intros (_ & _ & _ & _ & Hc & _). induction Hc as [|c l (x & Hx & _) _ IH]; [done|]. cbn [List.find].
  rewrite bool_decide_eq_true_2 by (rewrite Hx; eauto). exact IH.
Qed.

Lemma keys_not_null t : ready t -> (if primary then nullable_keys t columns else []) = [].
Proof.
  intros (_ & _ & _ & _ & Hc & _). destruct primary; [|done]. unfold nullable_keys.
  induction Hc as [|c l (x & Hx & Hn) _ IH]; [done|]. cbn [List.filter]. by rewrite Hx, Hn.
Qed.

Lemma parts_recipe t : ready t -> plan_unique_on_partitions i t primary name columns = unique_recipe i t primary name columns (todo_of t).
Proof.
  intros (_ & _ & Hkey & Hout & _ & Hne & Hfit). unfold plan_unique_on_partitions. rewrite Hout.
  destruct (partition_key_columns (t_partition_key t)) as [|k ks]; [done|].
  change (fun x => px_valid x && negb (px_unique x)) with not_unique. rewrite key_parts_fit by done. unfold todo_of.
  by destruct (t_partition_parts t).
Qed.

Context `{Vendors}.
Context (Hprimary : primary = bool_decide (kind i = kAddPrimaryKey)) (Hname : name = bstr i "name" "")
        (Hcolumns : columns = bstrs i "columns") (Hplain : bbool i "without_overlaps" false = false).

Definition planned (t : TableObs) : list (list Stmt) :=
  match t_constraints t !! name with
  | None => if primary && bool_decide (is_Some (primary_key_of t)) then [] else recipe_sql false (todo_of t)
  | Some k =>
      match t_indexes t !! name with
      | Some x => if String.eqb (k_type k) (key_type primary) && negb (i_is_valid x) then recipe_sql true (todo_of t) else []
      | None => []
      end
  end.

Lemma planned_unique d : ready (reading d q) -> to_run (plan_unique_like i (observe d)) = planned (reading d q).
Proof.
  intros Hr. unfold planned. pose proof (columns_are_there _ Hr) as Hcs. pose proof (keys_not_null _ Hr) as Hnn.
  pose proof (parts_recipe _ Hr) as Hparts. pose proof (recipe_statements (reading d q) (todo_of (reading d q))) as Hrec.
  destruct Hr as (He & Hk & _). unfold plan_unique_like. rewrite <- Hprimary, <- Hname, <- Hcolumns, Hplain.
  unfold reading in *. set (t := table_obs (observe d) q) in *. rewrite He, Hcs. cbn [negb]. unfold already_there, unfinished.
  rewrite Hk. change (String.eqb "partitioned_table" "partitioned_table") with true. cbn [andb].
  destruct (t_constraints t !! name) as [k|] eqn:Hc.
  - rewrite bool_decide_eq_true_2 in Hrec by done.
    destruct (t_indexes t !! name) as [x|]; destruct (String.eqb (k_type k) (key_type primary)); cbn [andb]; [destruct (i_is_valid x); cbn [andb negb]|done..].
    + done.
    + rewrite andb_false_r, Hnn, Hparts. unfold make_not_null, emit_all. cbn [foldr fmap list_fmap and_emit warn e_steps app].
      exact Hrec.
  - rewrite bool_decide_eq_false_2 in Hrec by (by intros [??]). cbn [andb negb]. rewrite andb_true_r. destruct primary; cbn [andb].
    + destruct (primary_key_of t); [done|]. rewrite Hnn, Hparts. exact Hrec.
    + rewrite Hparts. exact Hrec.
Qed.

(** What is left, where the recipe has been begun or can be. *)
Definition key_left (d : db) (rest : list (list Stmt)) : Prop :=
  let t := reading d q in
  ready t /\ ours t
  /\ ((t_constraints t !! name = None /\ (primary = true -> primary_key_of t = None) /\ rest = recipe_sql false (todo_of t))
      \/ exists k x, t_constraints t !! name = Some k /\ k_type k = key_type primary /\ t_indexes t !! name = Some x
           /\ rest = if i_is_valid x then [] else recipe_sql true (todo_of t)).

Lemma left_is_planned d rest : key_left d rest -> to_run (plan_unique_like i (observe d)) = rest.
Proof.
  intros (Hr & _ & [(Hc & Hpk & ->)|(k & x & Hc & Ht & Hx & ->)]); rewrite planned_unique by done; unfold planned; rewrite Hc.
  - destruct primary; [|done]. by rewrite Hpk.
  - rewrite Hx, Ht, String.eqb_refl. by destruct (i_is_valid x).
Qed.

Lemma concat_head {A B} (f : A -> list B) l s r :
  concat (f <$> l) = s :: r ->
  exists l1 p l2 r1, l = l1 ++ p :: l2 /\ Forall (fun x => f x = []) l1 /\ f p = s :: r1 /\ r = r1 ++ concat (f <$> l2).
Proof.
  induction l as [|x l IH]; csimpl; [done|]. destruct (f x) as [|y r1] eqn:Hx; cbn [app].
  - intros (l1 & p & l2 & r1 & -> & Hl & Hp & Hr)%IH. exists (x :: l1), p, l2, r1. by split_and!; [|constructor| |].
  - intros [= -> <-]. exists [], x, l, r1. by split_and!.
Qed.

(** The other partitions are as they were. *)
Lemma others_unchanged rel f (l : list KeyPart) : rel ∉ kp_relation <$> l -> after_part rel f <$> l = l.
Proof.
  induction l as [|p l IH]; csimpl; [done|]. intros [Hp Hl]%not_elem_of_cons. rewrite IH by done.
  unfold after_part. by rewrite (proj2 (String.eqb_neq _ _)).
Qed.

Lemma relations_of t : kp_relation <$> todo_of t = pt_relation <$> t_partition_parts t.
Proof. unfold todo_of. by rewrite <- list_fmap_compose. Qed.

(** With every partition's index attached, nothing is left. *)
Lemma attached_leaves_nothing d :
  is_Some (t_constraints (reading d q) !! name) -> ours (reading d q) -> all_attached name (t_partition_parts (reading d q)) ->
  recipe_sql true (todo_of (reading d q)) = [].
Proof.
  intros Hc Ho Ha. unfold recipe_sql, todo_of. cbn [app]. rewrite <- list_fmap_compose.
  assert (forall p, p ∈ t_partition_parts (reading d q) -> part_sql (key_part p) = []) as Hnone.
  { intros p Hp. destruct (proj1 (Forall_forall _ _) Ha p Hp) as (n & x & Hx & Hat).
    destruct (attached_is_whole _ _ _ _ _ _ Hp Hx Hat Hc) as [Hv Hk]. pose proof (Ho _ _ _ Hp Hx Hat) as ->.
    unfold part_sql, built, adopted, attached_as. cbn [key_part kp_index]. rewrite Hx, Hv, Hk.
    by rewrite bool_decide_eq_true_2. }
  revert Hnone. generalize (t_partition_parts (reading d q)) as parts. intros parts Hnone.
  induction parts as [|p parts IH]; [done|]. csimpl. unfold compose at 1. rewrite Hnone by set_solver. apply IH. set_solver.
Qed.

(** One partition moves on, and with it what is left of the recipe. *)
Lemma stepped_left d k x l1 p l2 r d' :
  ready (reading d q) -> ours (reading d q) ->
  t_constraints (reading d q) !! name = Some k -> k_type k = key_type primary ->
  t_indexes (reading d q) !! name = Some x -> i_is_valid x = false ->
  todo_of (reading d q) = l1 ++ key_part p :: l2 -> Forall (fun y => part_sql y = []) l1 ->
  part_stepped (key_part p) r d d' -> key_left d' (r ++ concat (part_sql <$> l2)).
Proof.
  intros Hr Ho Hc Ht Hx Hvalid Hl Hl1 (f & Hm & Hf & Hsql & Hi).
  destruct (moved_ready _ _ _ _ Hm Hf Hr) as [Hr' Htodo]. pose proof (moved_ours _ _ _ _ Hm Ho) as Ho'.
  assert (recipe_sql true (todo_of (reading d' q)) = r ++ concat (part_sql <$> l2)) as Hrest.
  { pose proof (relations_differ d q) as Hnd. rewrite <- relations_of, Hl, fmap_app, fmap_cons in Hnd.
    apply NoDup_app in Hnd as (_ & Hd1 & [Hd2 _]%NoDup_cons).
    unfold recipe_sql. rewrite Htodo, Hl, fmap_app, fmap_cons.
    rewrite (others_unchanged _ _ l1), (others_unchanged _ _ l2) by set_solver. cbn [app].
    rewrite fmap_app, fmap_cons, concat_app. cbn [concat]. change (kp_relation (key_part p)) with (pt_relation p) in Hsql |- *.
    rewrite Hsql.
    assert (concat (part_sql <$> l1) = []) as ->; [|done]. clear -Hl1. induction Hl1 as [|y l Hy _ IH]; [done|]. csimpl. by rewrite Hy. }
  destruct Hm as (_ & Hcs & _). split_and!; [done..|]. right.
  destruct Hi as [Hi|(x' & Hx' & Hva)].
  - exists k, x. rewrite Hcs, Hi, Hvalid, Hrest. by split_and!.
  - exists k, x'. rewrite Hcs. split_and!; [done..|]. rewrite <- Hrest. destruct (i_is_valid x') eqn:Hv'; [|done].
    apply attached_leaves_nothing; [rewrite Hcs; eauto|done|by apply Hva].
Qed.

(** A step left is one of the recipe's first, or of the partitions'. *)
Lemma head_of_left d s rest :
  key_left d (s :: rest) ->
  (s = only_sql /\ rest = concat (part_sql <$> todo_of (reading d q)))
  \/ exists k x l1 p l2 r, t_constraints (reading d q) !! name = Some k /\ k_type k = key_type primary
       /\ t_indexes (reading d q) !! name = Some x /\ i_is_valid x = false
       /\ todo_of (reading d q) = l1 ++ key_part p :: l2 /\ Forall (fun y => part_sql y = []) l1
       /\ p ∈ t_partition_parts (reading d q) /\ part_sql (key_part p) = s :: r /\ rest = r ++ concat (part_sql <$> l2).
Proof.
  intros (_ & _ & [(_ & _ & Hs)|(k & x & Hc & Ht & Hx & Hs)]); [by injection Hs as -> ->; left|right].
  destruct (i_is_valid x) eqn:Hvalid; [done|].
  symmetry in Hs. apply concat_head in Hs as (l1 & p' & l2 & r & Hl & Hl1 & Hp' & ->).
  assert (exists p, p' = key_part p /\ p ∈ t_partition_parts (reading d q)) as (p & -> & Hp).
  { apply list_elem_of_fmap. change (p' ∈ todo_of (reading d q)). rewrite Hl. set_solver. }
  by exists k, x, l1, p, l2, r.
Qed.

Lemma key_step_left d s rest d' : key_left d (s :: rest) -> run_stmts s d = Some d' -> key_left d' rest.
Proof.
  intros Hleft Hrun. pose proof Hleft as (Hr & Ho & Hcase). pose proof Hr as (_ & _ & _ & _ & _ & Hne & Hfit).
  destruct (head_of_left _ _ _ Hleft) as [[-> ->]|(k & x & l1 & p & l2 & r & Hc & Ht & Hx & Hv & Hl & Hl1 & Hp & Hs & ->)].
  - unfold only_sql in Hrun. rewrite run_stmts_cons_lock in Hrun.
    destruct (run_stmt (LockOnly q) d) as [d1|] eqn:Hlock; [|done]. cbn [mbind option_bind] in Hrun.
    pose proof (locked_reads (LockOnly q) q d d1 I Hlock) as Hsame.
    pose proof (only_reads _ _ _ _ _ _ Hrun) as (Hk & Hp & (k & Hkt & Hcs) & x & Hx & Hv). rewrite Hsame in Hk, Hp, Hcs, Hv.
    split_and!; [apply (keeps_ready (reading d q)); rewrite ?Hp; done|unfold ours; by rewrite Hp|].
    right. exists k, x. rewrite Hcs, lookup_insert_eq, Hx, Hv by done. split_and!; [done..|]. unfold todo_of. by rewrite Hp.
  - rewrite Forall_forall in Hfit. eapply stepped_left; eauto using part_step.
Qed.

(** A build that fails is the next step again, the index it left dropped first. *)
Lemma failed_left d before child rel tail rest d1 d' :
  key_left d ((before ++ [CreateIndex true true false child rel tail]) :: rest) ->
  run_stmts before d = Some d1 -> failed_build child rel d1 d' -> key_left d' (build_sql true child rel tail :: rest).
Proof.
  intros Hleft Hrun Hfail. pose proof Hleft as (Hr & Ho & _).
  destruct (head_of_left _ _ _ Hleft) as [[Hs _]|(k & x & l1 & p & l2 & r & Hc & Ht & Hx & Hv & Hl & Hl1 & Hp & Hs & ->)].
  { unfold only_sql in Hs. by destruct before as [|? [|? []]]. }
  rewrite app_comm_cons. apply (stepped_left d k x l1 p l2 _ d'); try done.
  assert (q <> pt_relation p) as Hne by (intros Heq; by apply (parts_are_others d q p Hp)).
  assert (built (key_part p) = false /\ child = kp_child (key_part p) /\ rel = kp_relation (key_part p)
          /\ tail = (" (" +:+ quoted_list columns +:+ ")")
          /\ before = (if bool_decide (is_Some (kp_index (key_part p)))
                       then [DropIndex true (schema_of (kp_relation (key_part p))) (kp_child (key_part p))] else [])
          /\ r = tl (part_sql (key_part p))) as (Hb & -> & -> & -> & -> & Hrest).
  { rewrite Hs. unfold part_sql in Hs. destruct (built (key_part p)).
    - exfalso. destruct (adopted (key_part p)), (attached_as name (key_part p)); cbn [app andb] in Hs; try done;
        injection Hs as Hs _; by destruct before as [|? [|? []]].
    - cbn [app] in Hs. injection Hs as Hs _. apply app_inj_tail in Hs as [<- Hlast]. injection Hlast as <- <- <-. done. }
  assert (exists f, moved (on_part (kp_relation (key_part p)) (kp_child (key_part p)) f) (reading d q) (reading d1 q)
            /\ t_indexes (reading d1 q) = t_indexes (reading d q)) as (f & Hm1 & Hi1).
  { case_bool_decide as Hix.
    - rewrite run_single in Hrun. eexists. exact (dropped_reads _ _ _ q _ _ Hrun (index_of_part p d Hp Hix)).
    - injection Hrun as ->. exists (fun x => x). split; [|done]. apply moved_nothing. }
  destruct (failed_reads _ _ q _ _ Hfail Hne) as [Hm Hi].
  eexists. split; [by eapply moved_twice|]. split_and!; [done| |left; congruence].
  rewrite after_itself, Hrest. unfold part_sql. rewrite Hb.
  assert (adopted (key_part p) = false) as ->.
  { unfold adopted. unfold built in Hb. destruct (kp_index (key_part p)); [by rewrite Hb|done]. }
  unfold built, adopted. done.
Qed.
End Steps.
End Partitions.

(** A build to be made is a step of the plan. *)
Lemma builds_are_planned i primary name columns t p :
  p ∈ t_partition_parts t -> (forall x, pt_indexes p !! partition_index_name (pt_relation p) name = Some x -> px_valid x = false) ->
  build_sql (bool_decide (is_Some (pt_indexes p !! partition_index_name (pt_relation p) name)))
    (partition_index_name (pt_relation p) name) (pt_relation p) (" (" +:+ quoted_list columns +:+ ")")
  ∈ recipe_sql i primary name columns false (todo_of name t).
Proof.
  intros Hp Hx. unfold recipe_sql. cbn [app]. right. apply list_elem_of_In, in_concat.
  exists (part_sql i primary name columns (key_part name p)). rewrite <- !list_elem_of_In. split; [by do 2 apply list_elem_of_fmap_2|].
  unfold part_sql. assert (built (key_part name p) = false) as ->; [|by left].
  unfold built. cbn [key_part kp_index]. destruct (pt_indexes p !! _) as [x|] eqn:Hix; [by apply Hx|done].
Qed.

(** C21: A unique constraint or primary key on a partitioned table, stopped after any
    number of its steps: a plan made anew has exactly the statements that are left, so
    no partition is built or attached twice and none is left out. Every partition
    whose index is not there has a step that builds it, every one whose index is there
    and INVALID a step that drops it first and builds it again; and when the build of
    a step fails, the plan made anew is the same but for that step, which drops the
    index the build left INVALID and builds it again. It is so for a key without a
    period (WITHOUT OVERLAPS) whose columns exist and are NOT NULL already for a
    primary key, on a table none of whose partitions is itself partitioned or has a
    valid index of the recipe's name that is not unique, where the names of the
    partitions' indexes fit 63 bytes, the indexes attached to the constraint's own are
    the recipe's, and no partition comes or goes meanwhile. *)
Theorem partitioned_key_resumes `{Vendors} `{KeyServer} i d :
  let primary := bool_decide (kind i = kAddPrimaryKey) in
  let name := bstr i "name" "" in
  let t := reading d (in_qualified i) in
  let plan d := to_run (plan_unique_like i (observe d)) in
  let columns := " (" +:+ quoted_list (bstrs i "columns") +:+ ")" in
  bbool i "without_overlaps" false = false -> ready primary name (bstrs i "columns") t -> ours name t ->
  t_constraints t !! name = None -> (primary = true -> primary_key_of t = None) ->
  (forall p, p ∈ t_partition_parts t -> pt_indexes p !! partition_index_name (pt_relation p) name = None ->
     [CreateIndex true true false (partition_index_name (pt_relation p) name) (pt_relation p) columns] ∈ plan d)
  /\ (forall p x, p ∈ t_partition_parts t -> pt_indexes p !! partition_index_name (pt_relation p) name = Some x ->
       px_valid x = false ->
       [DropIndex true (schema_of (pt_relation p)) (partition_index_name (pt_relation p) name);
        CreateIndex true true false (partition_index_name (pt_relation p) name) (pt_relation p) columns] ∈ plan d)
  /\ forall k d', run_steps (take k (plan d)) d = Some d' ->
       plan d' = drop k (plan d)
       /\ forall before child rel tail rest d1 d2,
            drop k (plan d) = (before ++ [CreateIndex true true false child rel tail]) :: rest ->
            run_stmts before d' = Some d1 -> failed_build child rel d1 d2 ->
            plan d2 = [DropIndex true (schema_of rel) child; CreateIndex true true false child rel tail] :: rest.
Proof.
  intros primary name t plan columns Hplain Hr Ho Hc Hpk.
  pose proof (left_is_planned i primary name _ eq_refl eq_refl eq_refl Hplain) as Hplan.
  assert (key_left i primary name (bstrs i "columns") d (recipe_sql i primary name (bstrs i "columns") false (todo_of name t)))
    as Hleft by (split_and!; [done..|by left]).
  unfold plan. rewrite (Hplan d _ Hleft). split_and!.
  - intros p Hp Hix. pose proof (builds_are_planned i primary name (bstrs i "columns") t p Hp) as Hb.
    rewrite Hix in Hb. by apply Hb.
  - intros p x Hp Hix Hv. pose proof (builds_are_planned i primary name (bstrs i "columns") t p Hp) as Hb.
    rewrite Hix in Hb. apply Hb. by intros ? [= <-].
  - intros k d' Hrun.
    assert (key_left i primary name (bstrs i "columns") d' (drop k (recipe_sql i primary name (bstrs i "columns") false (todo_of name t))))
      as Hleft' by (eapply (resumes_along (key_left i primary name (bstrs i "columns"))); [intros; by eapply key_step_left|exact Hleft|exact Hrun]).
    split; [by apply Hplan|]. intros before child rel tail rest d1 d2 Hs Hb Hf. rewrite Hs in Hleft'.
    apply Hplan. change (key_left i primary name (bstrs i "columns") d2 (build_sql true child rel tail :: rest)).
    by eapply failed_left.
Qed.

(** ** An exclusion constraint *)
Lemma key_parts_clear bad name parts todo :
  key_parts bad name parts = Ok todo ->
  Forall (fun p => match pt_indexes p !! partition_index_name (pt_relation p) name with
                   | Some x => bad x = false | None => True end) parts.
Proof.
  revert todo; induction parts as [|p parts IH]; intros todo; [constructor|]. cbn [key_parts].
  destruct (pt_partitioned p); [done|]. case_match; [done|]. destruct (pt_indexes p !! _) as [x|] eqn:Hx.
  - destruct (bad x) eqn:Hb; [done|]. intros Hk. ok_inv. constructor; [by rewrite Hx|]. eauto.
  - intros Hk. ok_inv. constructor; [by rewrite Hx|]. eauto.
Qed.

Lemma refused_runs_nothing i why text : e_conflicts (refuse i why text) <> [] /\ statements (refuse i why text) = [].
Proof. done. Qed.

(** An exclusion constraint on a partitioned table cannot be resumed. Once the
    constraint of a partition has been added, the plan made anew is refused, with
    nothing to run: the catalog's reading names the constraint behind an index only
    where it is a key's, so the recipe takes the index it built itself for one that
    backs no constraint. The warning that goes with the recipe says that applying the
    specification again carries on from the partition where it stopped. *)
Theorem exclusion_recipe_does_not_resume `{Vendors} i o p k x valid unique attached :
  let t := table_obs o (in_qualified i) in
  let name := bstr i "name" "" in
  let child := partition_index_name (pt_relation p) name in
  t_kind t = "partitioned_table" -> p ∈ t_partition_parts t ->
  t_constraints t !! name = Some k -> k_type k = "x" -> t_indexes t !! name = Some x -> i_is_valid x = false ->
  pt_indexes p !! child = Some (part_index_reading valid unique [(child, "x")] attached) ->
  e_conflicts (plan_add_exclusion_constraint i o) <> [] /\ statements (plan_add_exclusion_constraint i o) = [].
Proof.
  intros t name child Hk Hp Hc Ht Hx Hv Hix. unfold plan_add_exclusion_constraint. fold t.
  destruct (t_exists t); [|done]. cbn [negb]. case_match; [done|].
  unfold already_there, unfinished. cbn [exclusion_build lb_name]. fold name. rewrite Hc, Hk, Ht, Hx, Hv.
  change (String.eqb "partitioned_table" "partitioned_table" && String.eqb "x" "x" && negb false) with true. cbn [default from_option].
  unfold plan_locked_build. case_match; [done|]. rewrite Hk. change (String.eqb "partitioned_table" "partitioned_table") with true.
  cbv iota. unfold plan_locked_build_on_partitions. cbn [exclusion_build lb_name]. fold name.
  destruct (partition_key_columns _) as [|c cs]; [done|]. destruct (partition_column_outside _ _); [done|].
  destruct (key_parts _ name _) as [todo|r] eqn:Hkp; [exfalso|by destruct r].
  pose proof (proj1 (Forall_forall _ _) (key_parts_clear _ _ _ _ Hkp) p Hp) as Hbad. cbv beta in Hbad. fold child in Hbad.
  by rewrite Hix in Hbad.
Qed.
