(* ===== verification/UniqueDemo.v ===== *)
(** * UniqueDemo: a table of two partitions

    A server on which the statements of a unique constraint have their documented
    effect, and what the planner makes of readings that are not as it expects. *)
From S2P Require Import Prelude Json Canonical Spec Quote RowSql Plan Planner Indexes RowPlan Dml AddColumn Views Tables Keys Migration MigrationFacts MigrationRuns Recipes TableFacts UniqueFacts.

(** ** The server *)
Inductive PartState : Type := NoIndex | LeftInvalid | Built | Adopted | Attached.

Definition index_in (s : PartState) : option PartIndex :=
  match s with
  | NoIndex => None
  | LeftInvalid => Some broken_index
  | Built => Some fresh_index
  | Adopted => Some (as_constraint fresh_index)
  | Attached => Some (as_part_of "orders_key" (as_constraint fresh_index))
  end.

(** Whether the parent has the constraint, and how far its two partitions are. *)
Definition Shelf : Type := bool * (PartState * PartState).

Definition shelf_part (rel child : string) (s : PartState) : PartObs :=
  {| pt_relation := rel; pt_partitioned := false;
     pt_indexes := match index_in s with Some x => {[child := x]} | None => ∅ end |}.

Definition shelf_parts (d : Shelf) : list PartObs :=
  [shelf_part "app.orders_1" "orders_1_orders_key" d.2.1; shelf_part "app.orders_2" "orders_2_orders_key" d.2.2].

Definition is_attached (s : PartState) : bool := match s with Attached => true | _ => false end.

Definition parent_index (d : Shelf) : IndexObs :=
  {| i_is_valid := is_attached d.2.1 && is_attached d.2.2; i_is_unique := true; i_constraint_backed := true;
     i_leading_column := "total"; i_columns := ["total"]; i_key_column_count := Some 1%nat;
     i_column_order := ["asc nulls last"]; i_column_opclasses := [""]; i_method := "btree"; i_predicate := "";
     i_options := Some []; i_has_expressions := false; i_is_primary := false; i_says_columns := true; i_definition := "" |}.

Definition with_partition_parts (parts : list PartObs) (t : TableObs) : TableObs :=
  {| t_exists := t_exists t; t_kind := t_kind t; t_columns := t_columns t; t_constraints := t_constraints t;
     t_indexes := t_indexes t; t_lock_waiters := t_lock_waiters t; t_size_measured := t_size_measured t;
     t_size_estimate := t_size_estimate t; t_estimated_from := t_estimated_from t; t_partitions := t_partitions t;
     t_partition_key := t_partition_key t; t_partition_parts := parts; t_blocked := t_blocked t;
     t_reltuples := t_reltuples t; t_referenced_by := t_referenced_by t; t_row_security := t_row_security t;
     t_triggers := t_triggers t; t_policies := t_policies t; t_dependent_views := t_dependent_views t;
     t_reloptions := t_reloptions t; t_owner := t_owner t;
     t_default_partition := t_default_partition t; t_default_rows := t_default_rows t;
     t_detach_pending := t_detach_pending t; t_is_partition := t_is_partition t; t_partition_by := t_partition_by t |}.

Definition shelf_table (d : Shelf) : TableObs :=
  let t := with_partition_parts (shelf_parts d) (demo_table "partitioned_table" ["app.orders_1"; "app.orders_2"]) in
  if d.1 then with_constraints {["orders_key" := key_constraint "u"]} (with_indexes {["orders_key" := parent_index d]} t) else t.

Definition part_named (rel : string) (d : Shelf) : option PartState :=
  if String.eqb rel "app.orders_1" then Some d.2.1 else if String.eqb rel "app.orders_2" then Some d.2.2 else None.

Definition put_part (rel : string) (s : PartState) (d : Shelf) : Shelf :=
  if String.eqb rel "app.orders_1" then (d.1, (s, d.2.2)) else (d.1, (d.2.1, s)).

(** The partition an index's name is of. *)
Definition relation_of (child : string) : string :=
  if String.eqb child "orders_1_orders_key" then "app.orders_1"
  else if String.eqb child "orders_2_orders_key" then "app.orders_2" else "".

Definition shelf_run (s : Stmt) (d : Shelf) : option Shelf :=
  match s with
  | LockTable _ | LockOnly _ => Some d
  | AddKey true rel name clause =>
      if String.eqb rel "app.orders" && String.eqb name "orders_key" && String.eqb clause (key_clause false ["total"])
         && negb (d.1 || is_attached d.2.1 && is_attached d.2.2)
      then Some (true, d.2) else None
  | CreateIndex true true false child rel _ =>
      if String.eqb rel (relation_of child)
      then match part_named rel d with Some NoIndex => Some (put_part rel Built d) | _ => None end else None
  | DropIndex true schema child =>
      if String.eqb schema "app"
      then match part_named (relation_of child) d with Some LeftInvalid => Some (put_part (relation_of child) NoIndex d) | _ => None end
      else None
  | AddKeyUsing rel child _ child' =>
      if String.eqb rel (relation_of child) && String.eqb child child'
      then match part_named rel d with Some Built => Some (put_part rel Adopted d) | _ => None end else None
  | AttachIndexOf schema name child_schema child =>
      if String.eqb schema "app" && String.eqb name "orders_key" && String.eqb child_schema "app" && d.1
      then match part_named (relation_of child) d with Some Adopted => Some (put_part (relation_of child) Attached d) | _ => None end
      else None
  | _ => None
  end.

#[local] Instance shelf_server : Server :=
  {| db := Shelf; observe := fun d => shop_obs None {["app.orders" := shelf_table d]}; run_stmt := shelf_run |}.

#[local] Instance shelf_failures : Failures :=
  {| failed_build := fun child rel d d' =>
       rel = relation_of child /\ part_named rel d = Some NoIndex /\ d' = put_part rel LeftInvalid d |}.

Lemma shelf_reading (d : Shelf) q : reading d q = if String.eqb q "app.orders" then shelf_table d else no_table.
Proof.
  unfold reading, table_obs. cbn [observe shelf_server shop_obs o_tables]. destruct (String.eqb_spec q "app.orders") as [->|Hq].
  - by rewrite lookup_singleton_eq.
  - by rewrite lookup_singleton_ne.
Qed.

Lemma shelf_part_altered rel child f s s' :
  f (index_in s) = index_in s' -> with_part_index child f (shelf_part rel child s) = shelf_part rel child s'.
Proof.
  intros Hf. unfold with_part_index, shelf_part. cbn [pt_relation pt_partitioned pt_indexes]. f_equal. apply map_eq. intros n.
  assert (forall s, (match index_in s with Some x => {[child := x]} | None => ∅ end : gmap string PartIndex) !! n
            = if String.eqb n child then index_in s else None) as Hl.
  { intros s0. destruct (String.eqb_spec n child) as [->|Hn]; destruct (index_in s0); by rewrite ?lookup_singleton_eq, ?lookup_singleton_ne. }
  rewrite Hl. specialize (Hl s). destruct (decide (n = child)) as [Hn|Hn].
  - subst n. rewrite String.eqb_refl in *. by rewrite lookup_partial_alter_eq, Hl.
  - rewrite (proj2 (String.eqb_neq _ _) Hn) in *. by rewrite lookup_partial_alter_ne by done.
Qed.

Lemma part_named_inv rel d s :
  part_named rel d = Some s -> (rel = "app.orders_1" /\ s = d.2.1) \/ (rel = "app.orders_2" /\ s = d.2.2).
Proof.
  unfold part_named. destruct (String.eqb_spec rel "app.orders_1") as [->|]; [intros [= <-]; by left|].
  destruct (String.eqb_spec rel "app.orders_2") as [->|]; [intros [= <-]; by right|done].
Qed.

Lemma relation_of_inv child rel : rel <> "" -> relation_of child = rel ->
  (child = "orders_1_orders_key" /\ rel = "app.orders_1") \/ (child = "orders_2_orders_key" /\ rel = "app.orders_2").
Proof.
  unfold relation_of. destruct (String.eqb_spec child "orders_1_orders_key") as [->|]; [intros _ <-; by left|].
  destruct (String.eqb_spec child "orders_2_orders_key") as [->|]; [intros _ <-; by right|done].
Qed.

(** A statement that moves one partition from one state to the next. *)
Lemma shelf_moved child f s s' (d : Shelf) q :
  part_named (relation_of child) d = Some s -> f (index_in s) = index_in s' ->
  moved (on_part (relation_of child) child f) (reading d q) (reading (put_part (relation_of child) s' d) q)
  /\ (is_attached s = is_attached s' -> t_indexes (reading (put_part (relation_of child) s' d) q) = t_indexes (reading d q)).
Proof.
  intros Hp Hf. destruct (relation_of_inv child (relation_of child)) as [[-> Hr]|[-> Hr]]; [|done|..].
  { intros He. rewrite He in Hp. done. }
  all: change (relation_of "orders_1_orders_key") with "app.orders_1" in *; change (relation_of "orders_2_orders_key") with "app.orders_2" in *;
    cbn in Hp; injection Hp as <-; destruct d as [there [s1 s2]]; rewrite !shelf_reading;
    destruct (String.eqb q "app.orders"); [|by split; [split_and!; [split_and!; try done; eauto|done|done]|done]];
    unfold shelf_table; cbn [fst snd put_part String.eqb]; (split; [split_and!|]).
  all: try (destruct there; done).
  all: try (split_and!; destruct there; try done; intros c x Hx; exists x; done).
  all: try (cbn [fst snd] in *; destruct there; csimpl; by rewrite (shelf_part_altered _ _ _ _ _ Hf)).
  all: cbn [fst snd] in *; intros He; destruct there; [|done]; cbn; unfold parent_index; cbn; by rewrite He.
Qed.

Lemma shelf_part_of (d : Shelf) q p :
  p ∈ t_partition_parts (reading d q) -> q = "app.orders" /\ p ∈ shelf_parts d.
Proof.
  rewrite shelf_reading. destruct (String.eqb_spec q "app.orders") as [->|]; [|by intros ?%elem_of_nil].
  intros Hp. split; [done|]. unfold shelf_table in Hp. by destruct d.1.
Qed.

Lemma shelf_index rel child s n x : pt_indexes (shelf_part rel child s) !! n = Some x -> n = child /\ index_in s = Some x.
Proof.
  cbn [shelf_part pt_indexes]. destruct (index_in s) as [y|]; [|done]. intros [-> ->]%lookup_singleton_Some. done.
Qed.

(** Whose index it is, by its name. *)
Lemma shelf_index_of (d : Shelf) q schema child rel :
  index_of (t_partition_parts (reading d q)) schema child rel -> rel = relation_of child /\ q = "app.orders".
Proof.
  intros (p & [Hq Hp]%shelf_part_of & <- & _ & x & Hx). split; [|done].
  apply elem_of_cons in Hp as [->|Hp]; [|apply list_elem_of_singleton in Hp as ->]; by apply shelf_index in Hx as [-> _].
Qed.

Lemma shelf_attached d :
  is_attached d.2.1 && is_attached d.2.2 = true <-> all_attached "orders_key" (shelf_parts d).
Proof.
  assert (forall rel child s, is_attached s = true
            <-> exists n x, pt_indexes (shelf_part rel child s) !! n = Some x /\ px_attached x = Some "orders_key") as Hone.
  { intros rel child s. split.
    - destruct s; try done. intros _. exists child. eexists. split; [apply lookup_singleton_eq|done].
    - intros (n & x & [_ Hx]%shelf_index & Ha). destruct s; cbn in Hx; simplify_eq; done. }
  unfold all_attached, shelf_parts. rewrite andb_true_iff, !Forall_cons, Forall_nil, <- !Hone. tauto.
Qed.

Ltac shelf_run_inv H :=
  cbn [run_stmt shelf_server shelf_run] in H; repeat case_match; try discriminate; simplify_eq;
  repeat match goal with Hb : _ && _ = true |- _ => apply andb_true_iff in Hb as [??] end;
  repeat match goal with Hb : String.eqb _ _ = true |- _ => apply String.eqb_eq in Hb end; subst.

Lemma shelf_put (d : Shelf) child s : (put_part (relation_of child) s d).1 = d.1.
Proof. unfold put_part. by case_match. Qed.

#[local] Instance shelf_keys : KeyServer.
Proof.
  split.
  - intros d q. rewrite shelf_reading. case_match; [|constructor]. unfold shelf_table. destruct d.1; cbn; repeat constructor; set_solver.
  - intros d q p [-> Hp]%shelf_part_of. unfold shelf_parts in Hp. set_unfold. destruct Hp as [->|[->|[]]]; done.
  - intros d q p p' child [-> Hp]%shelf_part_of [_ Hp']%shelf_part_of _ [x Hx] [y Hy].
    apply elem_of_cons in Hp as [->|Hp]; [|apply list_elem_of_singleton in Hp as ->];
      (apply elem_of_cons in Hp' as [->|Hp']; [|apply list_elem_of_singleton in Hp' as ->]);
      apply shelf_index in Hx as [-> _], Hy as [? _]; done.
  - intros d q p n x name [-> Hp]%shelf_part_of Hx Ha _.
    assert (exists rel child s, p = shelf_part rel child s) as (rel & child & s & ->).
    { apply elem_of_cons in Hp as [->|Hp]; [|apply list_elem_of_singleton in Hp as ->]; eauto. }
    apply shelf_index in Hx as [_ Hx]. destruct s; cbn in Hx; simplify_eq; done.
  - intros s q d d' Hs Hr. destruct s; try done; by injection Hr as ->.
  - intros primary columns q name [there parts] d' Hr. destruct primary.
    { exfalso. shelf_run_inv Hr. done. }
    shelf_run_inv Hr. rewrite !shelf_reading. change (String.eqb "app.orders" "app.orders") with true. cbv zeta.
    destruct there; [done|]. unfold shelf_table. cbn [fst snd]. split; [split_and!; [done..|eauto]|]. split; [done|]. split.
    + exists (key_constraint "u"). done.
    + exists (parent_index (true, parts)). split; [done|]. intros _. cbn [i_is_valid parent_index]. by apply negb_true_iff.
  - intros child rel tail q d d' Hr Hq. shelf_run_inv Hr.
    edestruct (shelf_moved child (fun _ => Some fresh_index) NoIndex Built d q) as [Hm Hi]; [done..|]. by split; [|apply Hi].
  - intros child rel tail q d p [-> Hp]%shelf_part_of Hrel [x Hx].
    apply elem_of_cons in Hp as [->|Hp]; [|apply list_elem_of_singleton in Hp as ->]; cbn in Hrel; subst rel;
      apply shelf_index in Hx as [-> Hx]; destruct d as [? [[] []]]; done.
  - intros child rel q d d' (-> & Hn & ->) Hq.
    edestruct (shelf_moved child (fun _ => Some broken_index) NoIndex LeftInvalid d q) as [Hm Hi]; [done..|]. by split; [|apply Hi].
  - intros schema child rel q d d' Hr [-> ->]%shelf_index_of. shelf_run_inv Hr.
    edestruct (shelf_moved child (fun _ => None) LeftInvalid NoIndex d "app.orders") as [Hm Hi]; [done..|]. by split; [|apply Hi].
  - intros rel child words q d d' Hr Hq. shelf_run_inv Hr.
    edestruct (shelf_moved child (fmap as_constraint) Built Adopted d q) as [Hm Hi]; [done..|]. by split; [|apply Hi].
  - intros name schema child rel q d d' Hr [-> ->]%shelf_index_of. shelf_run_inv Hr.
    edestruct (shelf_moved child (fmap (as_part_of "orders_key")) Adopted Attached d "app.orders") as [Hm _]; [done..|].
    split; [done|]. rewrite shelf_reading. change (String.eqb "app.orders" "app.orders") with true. cbv iota.
    unfold shelf_table. rewrite shelf_put. destruct d as [[] ?]; [|done]. cbn [fst].
    eexists. split; [apply lookup_singleton_eq|]. apply shelf_attached.
Qed.

(** ** A unique constraint stopped in the middle *)
Definition unique_intent : Intent :=
  demo_intent kAddUniqueConstraint "add_unique_constraint" 0 [("name", JStr "orders_key"); ("columns", JArr [JStr "total"])].

Definition shelf_start : db := (false, (NoIndex, LeftInvalid)).

Lemma shelf_ready : ready false "orders_key" ["total"] (shelf_table shelf_start).
Proof.
  split_and!; try done.
  - repeat constructor. exists (plain_column "numeric" false). by split.
  - constructor; [split_and!; [done|vm_compute; lia|done]|]. constructor; [split_and!; [done|vm_compute; lia|done]|done].
Qed.

Lemma shelf_ours : ours "orders_key" (shelf_table shelf_start).
Proof.
  intros p n x Hp Hx Ha. apply elem_of_cons in Hp as [->|Hp]; [|apply list_elem_of_singleton in Hp as ->];
    by apply shelf_index in Hx as [-> _].
Qed.

(** [partitioned_key_resumes] on a job that stopped after the first partition: the
    second, whose index an earlier build left INVALID, is all that is left, and it is
    after the build has failed again. *)
Lemma partitioned_key_resumes_witness :
  let plan d := to_run (@plan_unique_like no_vendors unique_intent (observe d)) in
  let tail := " (" +:+ quoted_list ["total"] +:+ ")" in
  let left :=
    [[DropIndex true "app" "orders_2_orders_key"; CreateIndex true true false "orders_2_orders_key" "app.orders_2" tail];
     [LockTable "app.orders_2"; AddKeyUsing "app.orders_2" "orders_2_orders_key" "UNIQUE" "orders_2_orders_key"];
     [AttachIndexOf "app" "orders_key" "app" "orders_2_orders_key"]] in
  exists d' d1 d2, run_steps (take 4 (plan shelf_start)) shelf_start = Some d' /\ plan d' = left
    /\ run_stmts [DropIndex true "app" "orders_2_orders_key"] d' = Some d1
    /\ failed_build "orders_2_orders_key" "app.orders_2" d1 d2 /\ plan d2 = left.
Proof.
  intros plan tail left.
  pose proof (@partitioned_key_resumes no_vendors shelf_server shelf_failures shelf_keys unique_intent shelf_start eq_refl
    shelf_ready shelf_ours eq_refl (ltac:(done))) as (_ & _ & Hresume).
  exists (true, (Attached, LeftInvalid)), (true, (Attached, NoIndex)), (true, (Attached, LeftInvalid)).
  assert (run_steps (take 4 (plan shelf_start)) shelf_start = Some (true, (Attached, LeftInvalid))) as Hr by (vm_compute; reflexivity).
  assert (drop 4 (plan shelf_start) = left) as Hd by (vm_compute; reflexivity).
  destruct (Hresume 4%nat (true, (Attached, LeftInvalid)) Hr) as [Hplan Hfail].
  assert (run_stmts [DropIndex true "app" "orders_2_orders_key"] (true, (Attached, LeftInvalid)) = Some (true, (Attached, NoIndex)))
    as Hdrop by reflexivity.
  assert (failed_build "orders_2_orders_key" "app.orders_2" (true, (Attached, NoIndex)) (true, (Attached, LeftInvalid))) as Hf
    by (split; [|split]; reflexivity).
  split; [exact Hr|]. split; [rewrite <- Hd; exact Hplan|]. split; [exact Hdrop|]. split; [exact Hf|].
  exact (Hfail [DropIndex true "app" "orders_2_orders_key"] "orders_2_orders_key" "app.orders_2" tail (tl left) _ _ Hd Hdrop Hf).
Defined.

(** ** Readings the recipes do not expect *)

(** A partition created while the recipe was stopped has the constraint from its
    parent, under an index of the server's naming. The recipe looks for its own name
    only: it would build a second index there, make it a second constraint and attach
    it where one is attached already. *)
Lemma partition_made_meanwhile_is_built_again i primary name cols total n p x other :
  pt_indexes p = {[other := x]} -> px_attached x = Some name -> other <> partition_index_name (pt_relation p) name ->
  length (part_steps i primary name cols total n (key_part name p)) = 3%nat.
Proof.
  intros Hp _ Hne. unfold part_steps, built, adopted, attached_as. cbn [key_part kp_index].
  by rewrite Hp, lookup_singleton_ne.
Qed.

(** An index of more columns than its key is taken to back a constraint over all of
    them, and one that backs a constraint already to back another. *)
Lemma adopted_index_is_not_looked_into :
  let ix := {| i_is_valid := true; i_is_unique := true; i_constraint_backed := true; i_leading_column := "id";
               i_columns := ["id"; "total"]; i_key_column_count := Some 1%nat; i_column_order := ["asc nulls last"];
               i_column_opclasses := [""]; i_method := "btree"; i_predicate := ""; i_options := Some [];
               i_has_expressions := false; i_is_primary := true; i_says_columns := true;
               i_definition := "CREATE UNIQUE INDEX orders_pkey ON app.orders USING btree (id) INCLUDE (total)" |} in
  backing_index (with_indexes {["orders_pkey" := ix]} (demo_table "table" [])) ["id"; "total"] = Some "orders_pkey".
Proof. vm_compute. reflexivity. Qed.

(** ** An exclusion constraint stopped after its first partition *)
Definition exclusion_intent : Intent :=
  demo_intent kAddExclusionConstraint "add_exclusion_constraint" 0
    [("name", JStr "orders_x"); ("elements", JArr [JObj [("column", JStr "total"); ("with", JStr "=")]])].

(** The partition before its constraint is added, and after. *)
Definition exclusion_part (added : bool) : PartObs :=
  {| pt_relation := "app.orders_1"; pt_partitioned := false;
     pt_indexes := if added then {["orders_1_orders_x" := part_index_reading true false [("orders_1_orders_x", "x")] None]} else ∅ |}.

Definition exclusion_table (added : bool) : TableObs :=
  let t := with_partition_parts [exclusion_part added] (demo_table "partitioned_table" ["app.orders_1"]) in
  if added then with_constraints {["orders_x" := key_constraint "x"]} (with_indexes {["orders_x" := parent_index (true, (NoIndex, NoIndex))]} t)
  else t.

(** [exclusion_recipe_does_not_resume], and the plan it follows on. *)
Lemma exclusion_recipe_does_not_resume_witness :
  let plan added := @plan_add_exclusion_constraint no_vendors exclusion_intent (demo_obs (exclusion_table added)) in
  (exists clause, to_run (plan false)
     = [[LockOnly "app.orders"; AddKey true "app.orders" "orders_x" clause];
        [LockTable "app.orders_1"; AddKey false "app.orders_1" "orders_1_orders_x" clause];
        [AttachIndexOf "app" "orders_x" "app" "orders_1_orders_x"]])
  /\ e_conflicts (plan true) <> [] /\ statements (plan true) = [].
Proof.
  intros plan. split.
  - exists (lb_clause (exclusion_build exclusion_intent)). vm_compute. reflexivity.
  - apply (@exclusion_recipe_does_not_resume no_vendors exclusion_intent (demo_obs (exclusion_table true)) (exclusion_part true)
             (key_constraint "x") (parent_index (true, (NoIndex, NoIndex))) true false None); try reflexivity.
    vm_compute. by left.
Defined.
