(* ===== verification/ObjectFacts.v ===== *)
(** * ObjectFacts: an object asked for twice, and the body of a function

    What the planner makes of an intent that a specification repeats, and where the
    server takes the body of a function to end. *)
From S2P Require Import Prelude Json Canonical Spec Quote RowSql Plan Planner Indexes RowPlan Dml AddColumn FillText Views Tables Objects Migration MigrationFacts MigrationRuns TableFacts.

(** ** Planned again *)
Section Again.
Context `{Vendors, Printing, OtherRules}.

(** The kinds of [plan_object] whose result is in the projection, but for functions. *)
Definition settles (k : IntentKind) : bool :=
  match k with
  | kCreateSchema | kDropSchema | kCreateExtension | kDropExtension | kCreateType | kDropType | kAddEnumValue
  | kDropFunction | kCreateSequence | kDropSequence => true
  | _ => false
  end.

Definition object_key (i : Intent) : string := match object_key_for (fun _ _ => Ok "") i with Ok k => k | Err _ => "" end.

Lemma object_put o key x : object_obs (put_object key x o) key = x.
Proof. unfold object_obs. cbn [o_objects put_object with_objects]. by rewrite lookup_insert_eq. Qed.

Lemma str_given b k : is_ok (str b k) = true -> str b k = Ok (match value_str b k "" with Ok s => s | Err _ => "" end).
Proof. unfold str. by destruct (value_str b k ""). Qed.

Lemma object_key_is i :
  is_ok (str (body i) "schema") = true -> is_ok (str (body i) "name") = true ->
  object_key i = match kind i with
                 | kCreateSchema | kDropSchema | kAlterSchema => "schema:" +:+ object_schema i
                 | kCreateExtension | kDropExtension | kAlterExtension => "extension:" +:+ object_name i
                 | kCreateType | kDropType | kAddEnumValue | kAlterDomain => "type:" +:+ object_qualified i
                 | kCreateFunction | kDropFunction | kAlterFunction => "function:" +:+ object_qualified i
                 | kCreateSequence | kDropSequence | kAlterSequence => "sequence:" +:+ object_qualified i
                 | kSetTextSearchMapping => "tsconfig:" +:+ object_qualified i
                 | _ => ""
                 end.
Proof.
  intros Hs Hn. unfold object_key, object_key_for. rewrite (str_given _ _ Hs), (str_given _ _ Hn). cbn [mbind result_bind].
  unfold object_qualified, object_schema, object_name, bstr. by destruct (kind i).
Qed.

Lemma project_objects i s o :
  names_object (kind i) = true -> st_action s = kApply -> project i s o = project_object i o.
Proof.
  intros Hk Hs. unfold project, names_configuration. rewrite Hs, bool_decide_eq_true_2, Hk by done. cbn [negb].
  by destruct (kind i).
Qed.

Lemma project_idle i s o : st_action s <> kApply -> project i s o = o.
Proof. intros Ha. unfold project. by rewrite bool_decide_eq_false_2. Qed.

(** A step that has nothing to run, and why. *)
Definition nothing_to_do (e : Emitted) : Prop :=
  exists s, e = emit [s] /\ st_action s = kSatisfied /\ st_sql s = [].

Lemma satisfied_nothing i why : nothing_to_do (object_satisfied i why).
Proof. by eexists. Qed.

Lemma unless_depended_unrefused i x what e : e_conflicts (unless_depended_on i x what e) = [] -> unless_depended_on i x what e = e.
Proof. unfold unless_depended_on. by destruct (ob_depended_on_by x). Qed.

(** The object as the projection has it is as it is to be. *)
Ltac known_again :=
  eexists; split; [reflexivity|]; split; [done|]; rewrite object_put; cbn [made_object ob_exists ob_type_kind];
  rewrite ?String.eqb_refl; eexists; split; [reflexivity|apply satisfied_nothing].

(** A rule of these kinds that refuses nothing has found its object as it is to be, or
    has one step, after which it finds it so. *)
Lemma planned_object_settles i o e pre :
  settles (kind i) = true -> is_ok (str (body i) "schema") = true -> is_ok (str (body i) "name") = true ->
  plan_object i o = Some (e, pre) -> e_conflicts e = [] ->
  nothing_to_do e
  \/ exists s, e_steps e = [s] /\ st_action s = kApply
       /\ exists e', plan_object i (project_object i o) = Some (e', []) /\ nothing_to_do e'.
Proof.
  intros Hset Hschema Hname Hp Hc. pose proof (object_key_is i Hschema Hname) as Hkey.
  unfold project_object. fold (object_key i). rewrite Hkey. unfold plan_object in Hp |- *.
  destruct (kind i) eqn:Hk; try discriminate Hset; try (injection Hp as <- <-).
  - unfold plan_create_schema in *. destruct (ob_exists _) eqn:He; [left; apply satisfied_nothing|right].
    known_again.
  - unfold plan_drop_schema in *. destruct (ob_exists _) eqn:He; cbn [negb] in *; [right|left; apply satisfied_nothing].
    destruct (ob_contains _); [|done].
    known_again.
  - unfold plan_create_extension in *. destruct (ob_exists _) eqn:He; [injection Hp as <- <-; left; apply satisfied_nothing|right].
    destruct (default true _); cbn [negb] in Hp; injection Hp as <- <-; [|done].
    known_again.
  - unfold plan_drop_extension in *. destruct (ob_exists _) eqn:He; cbn [negb] in *; [right|left; apply satisfied_nothing].
    rewrite (unless_depended_unrefused _ _ _ _ Hc).
    known_again.
  - unfold plan_create_type in *. destruct (ob_exists _) eqn:He.
    + destruct (String.eqb _ _); [left; apply satisfied_nothing|done].
    + right. known_again.
  - unfold plan_drop_type in *. destruct (ob_exists _) eqn:He; cbn [negb] in *; [right|left; apply satisfied_nothing].
    rewrite (unless_depended_unrefused _ _ _ _ Hc).
    known_again.
  - unfold plan_add_enum_value, object_obs in *. destruct (o_objects o !! _) as [x|] eqn:Hx; [|done].
    cbn [default from_option Datatypes.id] in *. destruct (ob_exists x) eqn:He; cbn [negb] in *; [|done].
    destruct (existsb _ _); [left; apply satisfied_nothing|right].
    eexists. split; [reflexivity|]. split; [done|]. fold (object_obs (put_object ("type:" +:+ object_qualified i) (with_labels (ob_enum_labels x ++ [bstr i "value" ""]) x) o) ("type:" +:+ object_qualified i)).
    rewrite object_put. cbn [with_labels ob_exists ob_enum_labels]. rewrite He, existsb_app. cbn [existsb negb].
    rewrite String.eqb_refl, orb_true_r. eexists. split; [reflexivity|apply satisfied_nothing].
  - unfold plan_drop_function in *. destruct (ob_exists _) eqn:He; cbn [negb] in *; [right|left; apply satisfied_nothing].
    rewrite (unless_depended_unrefused _ _ _ _ Hc).
    known_again.
  - unfold plan_create_sequence in *. destruct (ob_exists _) eqn:He; [left; apply satisfied_nothing|right].
    known_again.
  - unfold plan_drop_sequence in *. destruct (ob_exists _) eqn:He; cbn [negb] in *; [right|left; apply satisfied_nothing].
    rewrite (unless_depended_unrefused _ _ _ _ Hc).
    known_again.
Qed.

(** ** In a specification *)

(** What the planner does to every step, of one step: its action stays, a step that does
    nothing is left alone, and so are the statements of a function. *)
Lemma finish_one i o s : exists s1, finish_steps i o [s] = [s1] /\ st_action s1 = st_action s.
Proof.
  pose proof (finish_steps_touched i o 0 [s]) as Ht. rewrite (list_fmap_ext _ (fun s => s)), list_fmap_id in Ht by done.
  apply Forall2_cons_inv_l in Ht as (s1 & l & [Hf _] & ->%Forall2_nil_inv_l & ->). exists s1. split; [done|].
  by injection Hf as _ _ ? _.
Qed.

Lemma finish_idle i o s : st_action s = kSatisfied -> st_sql s = [] -> finish_steps i o [s] = [s].
Proof.
  intros Ha Hq. unfold finish_steps, take_weaker_lock_first.
  assert (wants_weaker_lock s = false) as Hw by (unfold wants_weaker_lock; by rewrite Ha).
  assert (checks_on_copy <$> [s] = [s]) as Hc by (unfold checks_on_copy; cbn [fmap list_fmap]; by rewrite Ha).
  assert (lift_statement_timeout s = s) as Hl by (unfold lift_statement_timeout; by rewrite Ha).
  assert (runs_sql s = false) as Hr by (unfold runs_sql; by rewrite Ha).
  assert ((match List.filter (lockable o) (locked_tables i) with
           | [] => [s] | rels => (fun s => if wants_weaker_lock s then weaker_lock_first rels s else s) <$> [s] end) = [s]) as ->
    by (case_match; [done|]; cbn [fmap list_fmap]; by rewrite Hw).
  assert (check_definitions_on_empty_copy i [s] = [s]) as ->
    by (unfold check_definitions_on_empty_copy; destruct (kind i); done || exact Hc).
  csimpl. rewrite Hl. unfold append_creation_comment. destruct (negb _); [done|]. destruct (comment_target i); [|done].
  cbn [rev app on_last_run]. by rewrite Hr.
Qed.

Lemma finish_function i o s s1 : kind i = kCreateFunction -> finish_steps i o [s] = [s1] -> st_sql s1 = st_sql s.
Proof.
  intros Hk. unfold finish_steps, take_weaker_lock_first, locked_tables, check_definitions_on_empty_copy, append_creation_comment, comment_target.
  rewrite Hk. cbn [List.filter]. csimpl. destruct (negb _); intros [= <-];
    unfold lift_statement_timeout; by case_match.
Qed.

Lemma mark_memory_sql mb s : st_action (mark_memory mb s) = st_action s /\ st_sql (mark_memory mb s) = st_sql s.
Proof. unfold mark_memory. by case_match. Qed.

(** The same intent, further on in the specification. *)
Definition again (n : Z) (i : Intent) : Intent :=
  {| kind := kind i; kind_name := kind_name i; ordinal := n; body := body i |}.

Lemma dispatch_object cfg p i rest :
  settles (kind i) = true \/ kind i = kCreateFunction ->
  dispatch cfg p i rest = '(e, pre) ← plan_object i (p_projected p); Some (e, pre, p_planned_with p, p_projected p).
Proof. unfold dispatch. intros [Hk| ->]; [by destruct (kind i)|done]. Qed.

(** One step, placed, and the catalog the next intent is planned against. *)
Lemma plan_intent_object cfg mb p i rest e pre s s1 :
  settles (kind i) = true \/ kind i = kCreateFunction -> plan_object i (p_projected p) = Some (e, pre) -> e_steps e = [s] ->
  finish_steps i (p_projected p) [s] = [s1] ->
  exists p' t, plan_intent cfg mb p i rest = Some p' /\ p_steps p' = p_steps p ++ [t] /\ p_conflicts p' = p_conflicts p ++ e_conflicts e
    /\ p_projected p' = project i s1 (p_projected p) /\ st_action t = st_action s1 /\ st_sql t = st_sql s1.
Proof.
  intros Hk Hp Hs Hf. unfold plan_intent. rewrite dispatch_object, Hp by done. cbn [mbind option_bind]. rewrite Hs, Hf. csimpl.
  eexists _, _. split; [reflexivity|]. cbn [p_steps p_conflicts p_projected]. split_and!; [done..| |]; apply mark_memory_sql.
Qed.

Lemma repeated_nothing cfg mb p i n rest e pre :
  settles (kind i) = true -> plan_object i (p_projected p) = Some (e, pre) -> nothing_to_do e ->
  exists p' t, plan_intent cfg mb p (again n i) rest = Some p' /\ p_steps p' = p_steps p ++ [t] /\ p_conflicts p' = p_conflicts p
    /\ st_action t = kSatisfied /\ st_sql t = [].
Proof.
  intros Hk Hp (s & -> & Ha & Hq).
  destruct (plan_intent_object cfg mb p (again n i) rest (emit [s]) pre s s (or_introl Hk) Hp eq_refl (finish_idle _ _ _ Ha Hq))
    as (p' & t & Hp' & Hs & Hc & _ & Hta & Htq).
  exists p', t. rewrite Hs, Hc, app_nil_r, Hta, Htq. by split_and!.
Qed.

Lemma unrefused_object cfg mb p i rest p1 :
  settles (kind i) = true \/ kind i = kCreateFunction -> plan_intent cfg mb p i rest = Some p1 -> p_conflicts p1 = p_conflicts p ->
  exists e pre, plan_object i (p_projected p) = Some (e, pre) /\ e_conflicts e = [].
Proof.
  intros Hk. unfold plan_intent. rewrite dispatch_object by done.
  destruct (plan_object i (p_projected p)) as [[e pre]|]; [|done]. cbn [mbind option_bind].
  destruct (place_all _ _ _) as [placed g]. intros [= <-]. cbn [p_conflicts]. intros Hc. exists e, pre. split; [done|].
  apply (app_inv_head (p_conflicts p)). by rewrite app_nil_r.
Qed.

(** A function that is made is one step, made again on its projection. *)
Lemma planned_function i o e pre :
  kind i = kCreateFunction -> is_ok (str (body i) "schema") = true -> is_ok (str (body i) "name") = true ->
  plan_object i o = Some (e, pre) -> e_conflicts e = [] ->
  exists s e' s', e_steps e = [s] /\ st_action s = kApply /\ plan_object i (project_object i o) = Some (e', [])
    /\ e_steps e' = [s'] /\ e_conflicts e' = [] /\ st_action s' = kApply /\ st_sql s' = st_sql s.
Proof.
  intros Hk Hschema Hname Hp Hc. pose proof (object_key_is i Hschema Hname) as Hkey. rewrite Hk in Hkey.
  unfold project_object. fold (object_key i). rewrite Hkey, Hk. unfold plan_object in Hp |- *. rewrite Hk in Hp |- *.
  unfold plan_create_function in Hp |- *. rewrite object_put.
  destruct (returns_read (object_obs o _)) as [was|]; [|done]. cbn [mbind option_bind] in Hp |- *. injection Hp as <- <-.
  cbn [made_object ob_exists ob_returns returns_read andb mbind option_bind]. rewrite String.eqb_refl. cbn [negb].
  destruct (ob_exists (object_obs o _) && _); [done|]. eexists _, _, _. split; [reflexivity|]. split; [done|].
  split; [reflexivity|]. split; [reflexivity|]. done.
Qed.

(** C37: A specification that asks for an object of its own kind twice is planned as if it
    asked once. Wherever in a specification an intent creates or drops a schema, an
    extension, a type or a sequence, drops a function or adds an enum label, and
    nothing is refused, the same intent put right after it is planned too, adds no
    conflict, and its one step is satisfied with nothing to run. The same creation of a function is
    applied again, with the same statements, since the text of a function is not
    compared. This is what the planner makes of its own projection of the first intent,
    within one specification; what the catalog reads once the first has been applied can
    differ (the result of a procedure, the spelling of a result type). *)
Theorem objects_are_known_again cfg mb p i n rest p1 :
  is_ok (str (body i) "schema") = true -> is_ok (str (body i) "name") = true ->
  settles (kind i) = true \/ kind i = kCreateFunction ->
  plan_intent cfg mb p i (again n i :: rest) = Some p1 -> p_conflicts p1 = p_conflicts p ->
  exists p2 s s', plan_intent cfg mb p1 (again n i) rest = Some p2 /\ p_conflicts p2 = p_conflicts p
    /\ p_steps p1 = p_steps p ++ [s] /\ p_steps p2 = p_steps p1 ++ [s']
    /\ if settles (kind i) then st_action s' = kSatisfied /\ st_sql s' = []
       else st_action s = kApply /\ st_action s' = kApply /\ st_sql s' = st_sql s.
Proof.
  intros Hschema Hname Hk Hplan Hc1. destruct (unrefused_object _ _ _ _ _ _ Hk Hplan Hc1) as (e & pre & Hp & Hc).
  pose proof Hk as [Hset|Hfun].
  - rewrite Hset. destruct (planned_object_settles i (p_projected p) e pre Hset Hschema Hname Hp Hc) as [Hn|(s & Hs & Ha & e' & Hp' & Hn)].
    + pose proof Hn as (s & -> & Ha & Hq).
      destruct (plan_intent_object cfg mb p i (again n i :: rest) _ pre s s Hk Hp eq_refl (finish_idle _ _ _ Ha Hq))
        as (p1' & t & Hplan' & Ht & _ & Ho & _). rewrite Hplan in Hplan'. injection Hplan' as <-.
      rewrite (project_idle i s) in Ho by (by rewrite Ha). rewrite <- Ho in Hp.
      destruct (repeated_nothing cfg mb p1 i n rest _ pre Hset Hp Hn) as (p2 & t2 & H2 & Hs2 & Hc2 & Ha2 & Hq2).
      exists p2, t, t2. rewrite Hc2. by split_and!.
    + destruct (finish_one i (p_projected p) s) as (s1 & Hf & Ha1).
      destruct (plan_intent_object cfg mb p i (again n i :: rest) e pre s s1 Hk Hp Hs Hf) as (p1' & t & Hplan' & Ht & _ & Ho & _).
      rewrite Hplan in Hplan'. injection Hplan' as <-.
      rewrite project_objects in Ho by (by rewrite ?Ha1 || by destruct (kind i)). rewrite <- Ho in Hp'.
      destruct (repeated_nothing cfg mb p1 i n rest e' [] Hset Hp' Hn) as (p2 & t2 & H2 & Hs2 & Hc2 & Ha2 & Hq2).
      exists p2, t, t2. rewrite Hc2. by split_and!.
  - assert (settles (kind i) = false) as -> by by rewrite Hfun.
    destruct (planned_function i (p_projected p) e pre Hfun Hschema Hname Hp Hc) as (s & e' & s' & Hs & Ha & Hp' & Hs' & Hc' & Ha' & Hq).
    destruct (finish_one i (p_projected p) s) as (s1 & Hf & Ha1).
    destruct (plan_intent_object cfg mb p i (again n i :: rest) e pre s s1 Hk Hp Hs Hf) as (p1' & t & Hplan' & Ht & _ & Ho & Hta & Htq).
    rewrite Hplan in Hplan'. injection Hplan' as <-.
    rewrite project_objects in Ho by (by rewrite ?Ha1 || by rewrite Hfun). rewrite <- Ho in Hp'.
    destruct (finish_one (again n i) (p_projected p1) s') as (s2 & Hf2 & Ha2).
    destruct (plan_intent_object cfg mb p1 (again n i) rest e' [] s' s2 Hk Hp' Hs' Hf2) as (p2 & t2 & H2 & Ht2 & Hc2 & _ & Hta2 & Htq2).
    exists p2, t, t2. rewrite Hc2, Hc', app_nil_r, Hc1, Hta, Hta2, Ha1, Ha2, Htq, Htq2.
    rewrite (finish_function i _ _ _ Hfun Hf), (finish_function (again n i) _ _ _ Hfun Hf2). by split_and!.
Qed.
End Again.

(** ** The body of a function *)

(** What a dollar-quoted text is to the server: all up to the first closing tag. *)
Fixpoint quoted_until (tag s : string) : option string :=
  if String.prefix tag s then Some ""
  else match s with EmptyString => None | String c s' => String c <$> quoted_until tag s' end.

(** A text with its last character gone. *)
Fixpoint but_last (s : string) : string :=
  match s with EmptyString => "" | String c EmptyString => "" | String c s' => String c (but_last s') end.

Lemma but_last_split c s : exists x, String c s = but_last (String c s) +:+ String x "".
Proof.
  revert c; induction s as [|d s IH]; intros c; [by exists c|]. destruct (IH d) as [x Hx]. exists x.
  change (but_last (String c (String d s))) with (String c (but_last (String d s))).
  change (String c (but_last (String d s)) +:+ String x "") with (String c (but_last (String d s) +:+ String x "")). by rewrite <- Hx.
Qed.

Lemma prefix_long p a b : (String.length p <= String.length a)%nat -> String.prefix p (a +:+ b) = String.prefix p a.
Proof.
  revert a; induction p as [|c p IH]; intros a Hl; [by destruct a, b|]. destruct a as [|d a]; [simpl in Hl; lia|].
  simpl. simpl in Hl. destruct (Ascii.ascii_dec _ _); [|done]. apply IH. lia.
Qed.

(** The text between the tags is read back exactly when no occurrence of the tag begins in it. *)
Lemma quoted_until_spec tag b rest :
  tag <> "" -> quoted_until tag (b +:+ tag +:+ rest) = Some b <-> has_sub tag (b +:+ but_last tag) = false.
Proof.
  intros Hne. destruct tag as [|t0 tag0] eqn:Htag; [done|]. rewrite <- Htag. destruct (but_last_split t0 tag0) as [x Hx].
  rewrite <- Htag in Hx.
  assert (String.length tag = S (String.length (but_last tag))) as Hlen.
  { rewrite Hx at 1. rewrite string_length_app. simpl. lia. }
  induction b as [|c b IH].
  - change ("" +:+ ?s) with s. split; intros _.
    + destruct (has_sub tag (but_last tag)) eqn:Hs; [|done]. apply has_sub_length in Hs. lia.
    + rewrite Htag. cbn [quoted_until]. change (String t0 tag0 +:+ rest) with (String t0 (tag0 +:+ rest)).
      assert (String.prefix (String t0 tag0) (String t0 (tag0 +:+ rest)) = true) as Hp by (apply prefix_spec; by exists rest).
      cbn [quoted_until]. by rewrite Hp.
  - change (String c b +:+ ?s) with (String c (b +:+ s)). cbn [quoted_until]. rewrite has_sub_cons.
    assert (String.prefix tag (String c (b +:+ tag +:+ rest)) = String.prefix tag (String c (b +:+ but_last tag))) as ->.
    { rewrite Hx at 2. rewrite !string_app_assoc.
      change (String c (b +:+ but_last tag +:+ String x "" +:+ rest)) with (String c b +:+ (but_last tag +:+ (String x "" +:+ rest))).
      rewrite <- (string_app_assoc (String c b)). rewrite prefix_long; [done|].
      rewrite string_length_app. simpl. lia. }
    destruct (String.prefix tag (String c (b +:+ but_last tag))) eqn:Hp; cbn [orb]; [done|].
    rewrite <- IH. destruct (quoted_until tag (b +:+ tag +:+ rest)) as [y|]; cbn; [|done]. split; [by intros [= ->]|by intros [= ->]].
Qed.

(** The body of a function is quoted with one fixed tag, and the server reads it
    back as it was given exactly when it does not hold the tag and does not end in the
    tag's beginning. What a body with the tag has after it is read as further SQL; the
    parser accepts such a body. *)
Theorem function_body_reads_back i routine returns :
  function_sql i routine returns
    = function_head i routine returns +:+ nl +:+ "AS " +:+ body_tag +:+ (bstr i "body" "" +:+ body_tag +:+ ";")
  /\ (quoted_until body_tag (bstr i "body" "" +:+ body_tag +:+ ";") = Some (bstr i "body" "")
      <-> has_sub body_tag (bstr i "body" "" +:+ "$laswell") = false).
Proof. split; [done|]. by apply (quoted_until_spec body_tag (bstr i "body" "") ";"). Qed.

(** A procedure is read with null where a function has what it returns, and that is
    read as a string: replacing a procedure that is there throws, and no plan is made. *)
Lemma existing_procedure_stops_the_plan i o :
  kind i = kCreateFunction -> ob_exists (object_obs o ("function:" +:+ object_qualified i)) = true ->
  ob_returns (object_obs o ("function:" +:+ object_qualified i)) = None -> plan_object i o = None.
Proof. intros Hk He Hr. unfold plan_object, plan_create_function, returns_read. by rewrite Hk, He, Hr. Qed.

(** ** Concrete objects *)
Definition object_intent (k : IntentKind) (name : string) (b : list (string * json)) : Intent :=
  {| kind := k; kind_name := name; ordinal := 0; body := JObj ([("schema", JStr "app"); ("name", JStr "mood")] ++ b) |}.

Definition objects_obs (os : gmap string ObjectObs) : Observations := with_objects os (demo_obs (demo_table "table" [])).

(** [objects_are_known_again] for a type and for a function. *)
Lemma objects_are_known_again_witness :
  let type := object_intent kCreateType "create_type" [("type_kind", JStr "enum"); ("labels", JArr [JStr "glad"]); ("comment", JStr "")] in
  let func := object_intent kCreateFunction "create_function"
                [("returns", JStr "integer"); ("language", JStr "sql"); ("body", JStr "SELECT 1"); ("comment", JStr "")] in
  let p := planning_start (objects_obs ∅) in
  let planned p i rest := @plan_intent no_vendors demo_printing one_statement demo_config 0 p i rest in
  (exists p1 p2 s s', planned p type [again 1 type] = Some p1 /\ planned p1 (again 1 type) [] = Some p2
     /\ p_steps p1 = [s] /\ p_steps p2 = [s; s'] /\ st_action s' = kSatisfied /\ st_sql s' = [])
  /\ (exists p1 p2 s s', planned p func [again 1 func] = Some p1 /\ planned p1 (again 1 func) [] = Some p2
     /\ p_steps p1 = [s] /\ p_steps p2 = [s; s'] /\ st_action s' = kApply /\ st_sql s' = st_sql s).
Proof.
  intros type func p planned. split.
  - destruct (planned p type [again 1 type]) as [p1|] eqn:Hp1; [|vm_compute in Hp1; discriminate].
    assert (p_conflicts p1 = p_conflicts p) as Hc by (vm_compute in Hp1; injection Hp1 as <-; reflexivity).
    destruct (@objects_are_known_again no_vendors demo_printing one_statement demo_config 0 p type 1 [] p1 eq_refl eq_refl
                (or_introl eq_refl) Hp1 Hc) as (p2 & s & s' & Hp2 & _ & Hs & Hs' & Ha & Hq).
    exists p1, p2, s, s'. rewrite Hs in Hs' |- *. by split_and!.
  - destruct (planned p func [again 1 func]) as [p1|] eqn:Hp1; [|vm_compute in Hp1; discriminate].
    assert (p_conflicts p1 = p_conflicts p) as Hc by (vm_compute in Hp1; injection Hp1 as <-; reflexivity).
    destruct (@objects_are_known_again no_vendors demo_printing one_statement demo_config 0 p func 1 [] p1 eq_refl eq_refl
                (or_intror eq_refl) Hp1 Hc) as (p2 & s & s' & Hp2 & _ & Hs & Hs' & Hc' & Ha & Hq).
    exists p1, p2, s, s'. rewrite Hs in Hs' |- *. by split_and!.
Defined.
