(* ===== verification/DryRun.v ===== *)
(** * DryRun: a plan tried in a transaction that is rolled back (src/cpp/src/catalog.h, src/cpp/src/tools.h)

    What of a plan is tried ([rehearsal_inputs]), how one statement is tried
    ([verify_statement]), what is done for a step that cannot be run
    ([check_on_empty_copies]) and how the rehearsal of a plan ends
    ([rehearse_steps], [dry_run]). The server is a class: a statement is accepted or
    refused, in a state of its own. *)
From S2P Require Import Prelude Json Canonical Spec Quote RowSql Plan Planner.

(** ** The connection *)

(** [pqxx::sql_error] and [pqxx::broken_connection], with whether the connection is
    still open. *)
Inductive ServerError : Type :=
  | SqlError (sqlstate what : string)
  | BrokenConnection (what : string) (is_open : bool).

Class Transaction (W : Type) : Type := {
  exec : string -> W -> option ServerError * W;
  stream_copy : json -> W -> option ServerError * W;
}.

(** A computation on the connection that may throw. *)
Definition Act (W A : Type) : Type := W -> (A + ServerError) * W.

#[export] Instance act_ret {W} : MRet (Act W) := fun A a w => (inl a, w).
#[export] Instance act_bind {W} : MBind (Act W) := fun A B f m w =>
  match m w with (inl a, w') => f a w' | (inr e, w') => (inr e, w') end.

(** [catch (const pqxx::sql_error&)]. *)
Definition catch_sql {W A} (m : Act W A) (h : string -> string -> Act W A) : Act W A := fun w =>
  match m w with (inr (SqlError st what), w') => h st what w' | r => r end.

(** ** Texts *)
Definition is_space (c : ascii) : bool :=
  Ascii.eqb c " " || Ascii.eqb c (byte_of 10) || Ascii.eqb c (byte_of 9) || Ascii.eqb c (byte_of 13).

(** [find_last_not_of], and what is before it. *)
Fixpoint drop_right (f : ascii -> bool) (s : string) : string :=
  match s with
  | EmptyString => ""
  | String c s' => match drop_right f s' with
                   | EmptyString => if f c then "" else string_of_char c
                   | r => String c r
                   end
  end.

Fixpoint last_char (s : string) : option ascii :=
  match s with EmptyString => None | String c EmptyString => Some c | String _ s' => last_char s' end.

Fixpoint without_last (s : string) : string :=
  match s with EmptyString => "" | String _ EmptyString => "" | String c s' => String c (without_last s') end.

(** A text that is a semicolon alone stays: the second search begins at it. *)
Definition strip_trailing_semicolon (s : string) : string :=
  let t := drop_right is_space s in
  match last_char t with
  | Some c =>
      if Ascii.eqb c ";" then
        match without_last t with EmptyString => t | before => drop_right is_space before end
      else t
  | None => ""
  end.

Fixpoint drop_left (f : ascii -> bool) (s : string) : string :=
  match s with EmptyString => "" | String c s' => if f c then drop_left f s' else s end.

Definition server_message (raw : string) : string :=
  let m := if String.prefix "ERROR:" raw then skip 6 raw else raw in
  drop_left (fun c => Ascii.eqb c " " || Ascii.eqb c (byte_of 9))
    (drop_right (fun c => Ascii.eqb c " " || Ascii.eqb c (byte_of 10) || Ascii.eqb c (byte_of 13)) m).

(** The first word. *)
Fixpoint first_word (s : string) : string :=
  match s with
  | EmptyString => ""
  | String c s' => if Ascii.eqb c " " || Ascii.eqb c (byte_of 10) then "" else String c (first_word s')
  end.

(** ** One statement *)
Definition is_query (stmt : string) (execute : bool) : bool :=
  negb execute
  && (String.prefix "WITH" stmt || existsb (String.eqb (first_word stmt)) ["UPDATE"; "INSERT"; "SELECT"; "DELETE"; "MERGE"]).

Section Rehearsing.
Context {W : Type} `{Transaction W}.

Definition execute (sql : string) : Act W unit := fun w =>
  match exec sql w with (None, w') => (inl tt, w') | (Some e, w') => (inr e, w') end.

Definition generic_plan (stmt : string) : Act W bool :=
  _ ← execute "SAVEPOINT laswell_generic_plan";
  catch_sql
    (_ ← execute ("EXPLAIN (GENERIC_PLAN, FORMAT JSON) " +:+ stmt);
     _ ← execute "RELEASE SAVEPOINT laswell_generic_plan"; mret true)
    (fun _ _ =>
       _ ← execute "ROLLBACK TO SAVEPOINT laswell_generic_plan";
       _ ← execute "RELEASE SAVEPOINT laswell_generic_plan"; mret false).

(** Whether the check was only a weak one. *)
Definition verify_statement (stmt : string) (server_version : Z) (run_it : bool) : Act W bool :=
  if negb (is_query stmt run_it) then _ ← execute stmt; mret false
  else
    planned ← (if 160000 <=? server_version then generic_plan stmt else mret false);
    if planned : bool then mret false
    else _ ← execute ("PREPARE laswell_dry AS " +:+ stmt); _ ← execute "DEALLOCATE laswell_dry"; mret true.

(** ** What a rehearsal finds *)
Record RehearsalProblem : Type := { pr_step : Z; pr_sqlstate : string; pr_message : string; pr_statement : string }.

Record DryRun : Type := {
  dr_ran : bool;
  dr_weak_verification : bool;      (* whether the text is set *)
  dr_problems : list RehearsalProblem;
  dr_unverified_steps : list Z;
  dr_skipped_reason : string;
  dr_timed_out_at : Z;
  dr_lock_unavailable_at : Z;
  dr_depends_on_skipped : bool;
  dr_definition_checked : list Z;
}.

Definition no_dry_run : DryRun :=
  {| dr_ran := false; dr_weak_verification := false; dr_problems := []; dr_unverified_steps := []; dr_skipped_reason := "";
     dr_timed_out_at := -1; dr_lock_unavailable_at := -1; dr_depends_on_skipped := false; dr_definition_checked := [] |}.

Definition with_found (d : DryRun) (weak : bool) (ps : list RehearsalProblem) (unverified : list Z) (timed locked : Z)
    (gap : bool) (checked : list Z) : DryRun :=
  {| dr_ran := dr_ran d; dr_weak_verification := dr_weak_verification d || weak; dr_problems := dr_problems d ++ ps;
     dr_unverified_steps := unverified; dr_skipped_reason := dr_skipped_reason d; dr_timed_out_at := timed;
     dr_lock_unavailable_at := locked; dr_depends_on_skipped := dr_depends_on_skipped d || gap;
     dr_definition_checked := dr_definition_checked d ++ checked |}.

(** [note_unverified]. *)
Definition note_one (l : list Z) (ordinal : Z) : list Z := if bool_decide (ordinal ∈ l) then l else l ++ [ordinal].
Definition note_unverified (ordinal : Z) (d : DryRun) : DryRun :=
  with_found d false [] (note_one (dr_unverified_steps d) ordinal) (dr_timed_out_at d) (dr_lock_unavailable_at d) false [].
Definition note_all (ordinals : list Z) (d : DryRun) : DryRun := foldl (fun d n => note_unverified n d) d ordinals.
Definition note_weak (ordinal : Z) (d : DryRun) : DryRun :=
  let d := note_unverified ordinal d in
  with_found d true [] (dr_unverified_steps d) (dr_timed_out_at d) (dr_lock_unavailable_at d) false [].
Definition note_problem (p : RehearsalProblem) (d : DryRun) : DryRun :=
  with_found d false [p] (dr_unverified_steps d) (dr_timed_out_at d) (dr_lock_unavailable_at d) false [].
Definition note_timeout (ordinal : Z) (d : DryRun) : DryRun :=
  with_found d false [] (dr_unverified_steps d) ordinal (dr_lock_unavailable_at d) false [].
Definition note_locked (ordinal : Z) (d : DryRun) : DryRun :=
  with_found d false [] (dr_unverified_steps d) (dr_timed_out_at d) ordinal false [].
Definition note_gap (d : DryRun) : DryRun :=
  with_found d false [] (dr_unverified_steps d) (dr_timed_out_at d) (dr_lock_unavailable_at d) true [].
Definition note_checked (ordinal : Z) (d : DryRun) : DryRun :=
  with_found d false [] (dr_unverified_steps d) (dr_timed_out_at d) (dr_lock_unavailable_at d) false [ordinal].

(** ** A definition on an empty copy *)
Definition back_to_savepoint : Act W unit :=
  _ ← execute "ROLLBACK TO SAVEPOINT laswell_empty_copy"; execute "RELEASE SAVEPOINT laswell_empty_copy".

(** One check: the copy could not be made, the definition is refused, or it is accepted. *)
Inductive CopyCheck : Type :=
  | NoCopy
  | CopyRefused (sqlstate message statement : string)
  | CopyAccepted.

Definition check_one_copy (of_ stmt : string) : Act W CopyCheck :=
  _ ← execute "SAVEPOINT laswell_empty_copy";
  made ← catch_sql
    (_ ← execute ("CREATE TEMP TABLE laswell_shape (LIKE " +:+ of_ +:+ " INCLUDING GENERATED) ON COMMIT DROP"); mret true)
    (fun _ _ => _ ← back_to_savepoint; mret false);
  if negb made then mret NoCopy
  else
    tried ← catch_sql (_ ← execute stmt; mret CopyAccepted)
              (fun st what => mret (CopyRefused st (server_message what) (stmt +:+ "   -- on an empty copy of " +:+ of_)));
    _ ← back_to_savepoint; mret tried.

(** [value(key, "")] of an entry of the list. *)
Definition entry_text (c : json) (k : string) : string := match value_str c k "" with Ok s => s | Err _ => "" end.

Fixpoint check_on_empty_copies (checks : list json) (checked : bool) : Act W (option RehearsalProblem * bool) :=
  match checks with
  | [] => mret (None, checked)
  | c :: rest =>
      let of_ := entry_text c "of" in
      let stmt := strip_trailing_semicolon (entry_text c "sql") in
      if String.eqb of_ "" || String.eqb stmt "" then check_on_empty_copies rest checked
      else
        r ← check_one_copy of_ stmt;
        match r with
        | NoCopy => mret (None, false)
        | CopyRefused st message statement =>
            mret (Some {| pr_step := -1; pr_sqlstate := st; pr_message := message; pr_statement := statement |}, checked)
        | CopyAccepted => check_on_empty_copies rest true
        end
  end.

(** ** Every step of a plan *)
Inductive Rehearsal : Type := kOk | kFailed | kTimedOut | kGap.

(** What is rehearsed of a step: the entries of [RehearsalInputs] at one index. *)
Record RehearsalStep : Type := {
  rs_ordinal : Z;
  rs_sql : list string;
  rs_forbidden : bool;
  rs_copy_payload : json;
  rs_execute : bool;
  rs_on_copy : json;
}.

Definition kObservationLockTimeoutMs : Z := 2000.
Definition kRehearsalExclusiveTryMs : Z := 200.

(** The last of the weaker locks of a step. *)
Definition last_weaker_lock (stmt : string) (rest : list string) : bool :=
  String.prefix "LOCK TABLE " stmt && has_sub "SHARE UPDATE EXCLUSIVE" stmt
  && negb (match rest with next :: _ => String.prefix "LOCK TABLE " next | [] => false end).

(** One statement with the wait that is shortened after it; whether it was weak, and
    whether the wait is short from here on. *)
Definition try_statement (server_version : Z) (run_it short_wait : bool) (stmt : string) (rest : list string) : Act W (bool * bool) :=
  weak ← verify_statement stmt server_version run_it;
  if negb short_wait && last_weaker_lock stmt rest
  then _ ← execute ("SET LOCAL lock_timeout = " +:+ to_string kRehearsalExclusiveTryMs); mret (weak, true)
  else mret (weak, short_wait).

(** What a refused statement of the step means; [after] are the steps not yet run, the
    step itself first. *)
Definition on_error (s : RehearsalStep) (after : list RehearsalStep) (skipped_any short_wait : bool) (stmt : string)
    (e : ServerError) (d : DryRun) : (Rehearsal * DryRun) + ServerError :=
  match e with
  | SqlError st what =>
      if short_wait && String.eqb st "55P03" then
        inl (kTimedOut, note_all (rs_ordinal <$> after) (note_locked (rs_ordinal s) d))
      else if String.eqb st "57014" then
        inl (kTimedOut, note_all (rs_ordinal <$> after) (note_timeout (rs_ordinal s) d))
      else if skipped_any then inl (kGap, note_gap (note_unverified (rs_ordinal s) d))
      else inl (kFailed, note_problem {| pr_step := rs_ordinal s; pr_sqlstate := st; pr_message := server_message what;
                                         pr_statement := stmt |} d)
  | BrokenConnection what is_open =>
      if is_open
      then inl (kFailed, note_problem {| pr_step := rs_ordinal s; pr_sqlstate := "08000"; pr_message := server_message what;
                                         pr_statement := stmt |} d)
      else inr e
  end.

(** The statements of a step: an end, or on with the next step. *)
Fixpoint run_statements (server_version : Z) (s : RehearsalStep) (after : list RehearsalStep) (skipped_any short_wait : bool)
    (sql : list string) (d : DryRun) : Act W (option Rehearsal * bool * DryRun) := fun w =>
  match sql with
  | [] => (inl (None, short_wait, d), w)
  | raw :: rest =>
      let stmt := strip_trailing_semicolon raw in
      if String.eqb stmt "" then run_statements server_version s after skipped_any short_wait rest d w
      else
        match try_statement server_version (rs_execute s) short_wait stmt rest w with
        | (inl (weak, short), w') =>
            run_statements server_version s after skipped_any short rest (if weak then note_weak (rs_ordinal s) d else d) w'
        | (inr e, w') =>
            match on_error s after skipped_any short_wait stmt e d with
            | inl (r, d') => (inl (Some r, short_wait, d'), w')
            | inr e => (inr e, w')
            end
        end
  end.

(** The state the loop carries: what was found, whether a step was skipped, and whether
    one was skipped with nothing checked. *)
Record Loop : Type := { lp_found : DryRun; lp_skipped_any : bool; lp_skipped_unchecked : bool }.

(** A step that is not run. *)
Definition skip_step (s : RehearsalStep) (l : Loop) : Act W (option Rehearsal * Loop) :=
  let d := note_unverified (rs_ordinal s) (lp_found l) in
  let on checked d :=
    {| lp_found := if (checked : bool) then note_checked (rs_ordinal s) d else d; lp_skipped_any := true;
       lp_skipped_unchecked := lp_skipped_unchecked l || negb checked |} in
  match rs_on_copy s with
  | JArr ((_ :: _) as checks) =>
      '(problem, checked) ← check_on_empty_copies checks false;
      match problem with
      | Some p =>
          if lp_skipped_unchecked l then mret (None, on false d)
          else mret (Some kFailed,
                     {| lp_found := note_problem {| pr_step := rs_ordinal s; pr_sqlstate := pr_sqlstate p;
                                                    pr_message := pr_message p; pr_statement := pr_statement p |} d;
                        lp_skipped_any := lp_skipped_any l; lp_skipped_unchecked := lp_skipped_unchecked l |})
      | None => mret (None, on checked d)
      end
  | _ => mret (None, on false d)
  end.

(** A step whose rows are copied. *)
Definition copy_step (s : RehearsalStep) (l : Loop) : Act W (option Rehearsal * Loop) := fun w =>
  match stream_copy (rs_copy_payload s) w with
  | (None, w') => (inl (None, l), w')
  | (Some (SqlError st what), w') =>
      (inl (Some kFailed,
            {| lp_found := note_problem {| pr_step := rs_ordinal s; pr_sqlstate := st; pr_message := server_message what;
                 pr_statement := "COPY into " +:+ match value_str (rs_copy_payload s) "qualified" "?" with Ok q => q | Err _ => "?" end |}
                 (lp_found l);
               lp_skipped_any := lp_skipped_any l; lp_skipped_unchecked := lp_skipped_unchecked l |}), w')
  | (Some e, w') => (inr e, w')
  end.

Definition with_dry_run (d : DryRun) (l : Loop) : Loop :=
  {| lp_found := d; lp_skipped_any := lp_skipped_any l; lp_skipped_unchecked := lp_skipped_unchecked l |}.

Definition run_step (server_version : Z) (s : RehearsalStep) (after : list RehearsalStep) (l : Loop) : Act W (option Rehearsal * Loop) :=
  '(r, short_wait, d) ← run_statements server_version s after (lp_skipped_any l) false (rs_sql s) (lp_found l);
  match r with
  | Some r => mret (Some r, with_dry_run d l)
  | None =>
      _ ← (if (short_wait : bool) then execute ("SET LOCAL lock_timeout = " +:+ to_string kObservationLockTimeoutMs) else mret tt);
      mret (None, with_dry_run d l)
  end.

Definition rehearse_step (server_version : Z) (s : RehearsalStep) (after : list RehearsalStep) (l : Loop) : Act W (option Rehearsal * Loop) :=
  if rs_forbidden s then skip_step s l
  else if is_object (rs_copy_payload s) then copy_step s l
  else run_step server_version s after l.

Fixpoint rehearse_loop (server_version : Z) (steps : list RehearsalStep) (l : Loop) : Act W (Rehearsal * Loop) :=
  match steps with
  | [] => mret (kOk, l)
  | s :: rest =>
      '(r, l') ← rehearse_step server_version s steps l;
      match r with Some r => mret (r, l') | None => rehearse_loop server_version rest l' end
  end.

Definition rehearse_steps (server_version : Z) (steps : list RehearsalStep) (d : DryRun) (skipped_any : bool) :
  Act W (Rehearsal * Loop) :=
  rehearse_loop server_version steps {| lp_found := d; lp_skipped_any := skipped_any; lp_skipped_unchecked := skipped_any |}.

End Rehearsing.

(** ** What of a plan is rehearsed *)
Definition detail_of (s : Step) (k : string) : json := match obj_find k (st_detail s) with Some v => v | None => JNull end.
Definition has_detail (s : Step) (k : string) : bool := match obj_find k (st_detail s) with Some _ => true | None => false end.

Definition with_memory (s : Step) : list string :=
  let sql := render <$> st_sql s in
  let mwm := match value_int (JObj (st_detail s)) "maintenance_work_mem_mb" 0 with Ok n => n | Err _ => 0 end in
  if (0 <? mwm) && negb (bool_decide (st_class s = kForbidden)) && negb (has_detail s "copy_rows")
  then ["SET LOCAL maintenance_work_mem = '" +:+ to_string mwm +:+ "MB';"] ++ sql ++ ["SET LOCAL maintenance_work_mem TO DEFAULT;"]
  else sql.

Definition rehearsed (run_scans : bool) (s : Step) : RehearsalStep :=
  let forbidden := bool_decide (st_class s = kForbidden) in
  if negb run_scans && has_detail s "not_rehearsed" then
    let gap := match value_bool (JObj (st_detail s)) "not_rehearsed_leaves_gap" false with Ok b => b | Err _ => false end in
    {| rs_ordinal := st_ordinal s; rs_sql := []; rs_forbidden := gap; rs_copy_payload := JNull; rs_execute := false;
       rs_on_copy := if gap then detail_of s "rehearse_on_copy" else JNull |}
  else
    {| rs_ordinal := st_ordinal s;
       rs_sql := with_memory s
                 ++ (if forbidden then []
                     else omap (fun v => match v with JStr q => Some q | _ => None end) (elements (detail_of s "rehearse_only")));
       rs_forbidden := forbidden;
       rs_copy_payload := if has_detail s "copy_rows" then JObj (st_detail s) else JNull;
       rs_execute := match value_str (JObj (st_detail s)) "rehearse_by" "" with Ok v => String.eqb v "execution" | Err _ => false end;
       rs_on_copy := if forbidden then detail_of s "rehearse_on_copy" else JNull |}.

(** Steps rehearsed as nothing, on purpose, that leave no gap behind them. *)
Definition not_run (run_scans : bool) (s : Step) : bool :=
  negb run_scans && has_detail s "not_rehearsed"
  && negb (match value_bool (JObj (st_detail s)) "not_rehearsed_leaves_gap" false with Ok b => b | Err _ => false end).

Definition applied_steps (p : Plan) : list Step := List.filter (fun s => bool_decide (st_action s = kApply)) (steps p).

Definition rehearsal_inputs (p : Plan) (run_scans : bool) : list RehearsalStep := rehearsed run_scans <$> applied_steps p.

(** Checks in another database, with the step that asks for them. *)
Definition elsewhere (p : Plan) (run_scans : bool) : list (Z * json) :=
  omap (fun s => if negb run_scans && has_detail s "not_rehearsed" then None
                 else if has_detail s "rehearse_elsewhere" then Some (st_ordinal s, detail_of s "rehearse_elsewhere") else None)
       (applied_steps p).

(** [note_not_run]: added and sorted. *)
Definition note_not_run (p : Plan) (run_scans : bool) (d : DryRun) : DryRun :=
  let d := note_all (st_ordinal <$> List.filter (not_run run_scans) (applied_steps p)) d in
  with_found d false [] (sort_by Z.leb (dr_unverified_steps d)) (dr_timed_out_at d) (dr_lock_unavailable_at d) false [].
