(* ===== verification/DryRunFacts.v ===== *)
(** * DryRunFacts: what a rehearsal says of each step

    A step that is neither listed as unverified nor where the rehearsal stopped was
    accepted by the server in full, unless the rehearsal stopped at a gap: the steps
    after that are neither run nor listed. *)
From S2P Require Import Prelude Json Canonical Spec Quote RowSql Plan Planner DryRun.

Section Accounts.
Context {W : Type} `{Transaction W}.
Implicit Types (w : W) (d : DryRun) (s : RehearsalStep).

(** ** What the server accepted *)

(** The wait for a lock may be changed between two statements. *)
Definition settles w w' : Prop := w = w' \/ exists sql, exec sql w = (None, w').

(** Every statement of a step in order, each run or planned in full. *)
Inductive passes (server_version : Z) (run_it : bool) : list string -> W -> W -> Prop :=
  | passes_nil w : passes server_version run_it [] w w
  | passes_blank raw rest w w' :
      strip_trailing_semicolon raw = "" -> passes server_version run_it rest w w' ->
      passes server_version run_it (raw :: rest) w w'
  | passes_cons raw rest w w1 w2 w3 :
      verify_statement (strip_trailing_semicolon raw) server_version run_it w = (inl false, w1) -> settles w1 w2 ->
      passes server_version run_it rest w2 w3 -> passes server_version run_it (raw :: rest) w w3.

Definition accepted (server_version : Z) s : Prop :=
  exists w w', if is_object (rs_copy_payload s) then stream_copy (rs_copy_payload s) w = (None, w')
               else passes server_version (rs_execute s) (rs_sql s) w w'.

Definition listed d s : Prop := rs_ordinal s ∈ dr_unverified_steps d.

(** ** What is noted *)
Lemma noted_one l n x : x ∈ note_one l n <-> x ∈ l \/ x = n.
Proof. unfold note_one. case_bool_decide; rewrite ?elem_of_app, ?list_elem_of_singleton; [|done]. intuition congruence. Qed.

Lemma noted n d x : x ∈ dr_unverified_steps (note_unverified n d) <-> x ∈ dr_unverified_steps d \/ x = n.
Proof. apply noted_one. Qed.

Lemma noted_all ns d x : x ∈ dr_unverified_steps (note_all ns d) <-> x ∈ dr_unverified_steps d \/ x ∈ ns.
Proof.
  unfold note_all. revert d. induction ns as [|n ns IH]; intros d; cbn [foldl]; [set_solver|]. rewrite IH, noted. set_solver.
Qed.

Lemma noted_weak n d x : x ∈ dr_unverified_steps (note_weak n d) <-> x ∈ dr_unverified_steps d \/ x = n.
Proof. apply noted_one. Qed.

(** ** One step *)

(** How a step ends that is not the last one run. *)
Definition grows s d d' : Prop :=
  (forall x, x ∈ dr_unverified_steps d -> x ∈ dr_unverified_steps d')
  /\ (forall x, x ∈ dr_unverified_steps d' -> x ∈ dr_unverified_steps d \/ x = rs_ordinal s).

(** How a step ends that stops the rehearsal; [after] begins with it. *)
Definition stops s (after : list RehearsalStep) d d' (r : Rehearsal) : Prop :=
  (forall x, x ∈ dr_unverified_steps d -> x ∈ dr_unverified_steps d')
  /\ match r with
     | kOk => False
     | kTimedOut => Forall (listed d') after
     | kGap => listed d' s /\ grows s d d'
     | kFailed => (exists p, p ∈ dr_problems d' /\ pr_step p = rs_ordinal s) /\ grows s d d'
     end.

Lemma grows_refl s d : grows s d d.
Proof. split; auto. Qed.

Lemma grows_same s d d' : dr_unverified_steps d' = dr_unverified_steps d -> grows s d d'.
Proof. intros E. split; intros x; rewrite E; auto. Qed.

Lemma grows_trans s d d' d'' : grows s d d' -> grows s d' d'' -> grows s d d''.
Proof. intros [A B] [A' B']. split; [auto|]. intros x [Hx|Hx]%B'; [by apply B|by right]. Qed.

Lemma grows_weak s d (weak : bool) : grows s d (if weak then note_weak (rs_ordinal s) d else d).
Proof. destruct weak; [|apply grows_refl]. split; intros x; rewrite noted_weak; auto. Qed.

Lemma stops_after_grows s after d d' d'' r : grows s d d' -> stops s after d' d'' r -> stops s after d d'' r.
Proof.
  intros Hg [A B]. split; [destruct Hg; auto|]. destruct r; intuition eauto using grows_trans.
Qed.

Lemma error_stops s after skipped short stmt e d r d' :
  on_error s after skipped short stmt e d = inl (r, d') -> stops s after d d' r.
Proof.
  unfold on_error. destruct e as [st what|what o].
  - repeat case_match; intros [= <- <-].
    + split; [intros x; rewrite noted_all; auto|]. apply Forall_forall. intros t Ht. apply noted_all. right.
      apply list_elem_of_fmap. by exists t.
    + split; [intros x; rewrite noted_all; auto|]. apply Forall_forall. intros t Ht. apply noted_all. right.
      apply list_elem_of_fmap. by exists t.
    + split; [intros x Hx; by apply noted; left|]. split; [by apply noted; right|].
      split; intros x; [intros Hx; by apply noted; left|by intros Hx%noted].
    + split; [auto|]. split; [|by apply grows_same]. eexists. split; [apply elem_of_app; right; left|done].
  - case_match; [|done]. intros [= <- <-]. split; [auto|]. split; [|by apply grows_same].
    eexists. split; [apply elem_of_app; right; left|done].
Qed.

Lemma try_settles ver run_it short stmt rest w weak short' w' :
  try_statement ver run_it short stmt rest w = (inl (weak, short'), w') ->
  exists w1, verify_statement stmt ver run_it w = (inl weak, w1) /\ settles w1 w'.
Proof.
  unfold try_statement, mbind, act_bind. destruct (verify_statement stmt ver run_it w) as [[weak'|] w1]; [|done].
  case_match.
  - unfold execute. destruct (exec _ w1) as [[e|] w2] eqn:He; [done|]. intros [= <- _ <-]. exists w1. split; [done|]. right. by eexists.
  - intros [= <- _ <-]. exists w1. split; [done|]. by left.
Qed.

Lemma statements_spec ver s after skipped sql : forall short d w r short' d' w',
  run_statements ver s after skipped short sql d w = (inl (r, short', d'), w') ->
  match r with
  | Some r => stops s after d d' r
  | None => grows s d d' /\ (listed d' s \/ exists w1, passes ver (rs_execute s) sql w w1)
  end.
Proof.
  induction sql as [|raw sql IH]; intros short d w r short' d' w'; cbn [run_statements].
  { intros [= <- _ <- _]. split; [apply grows_refl|]. right. eexists. constructor. }
  destruct (String.eqb_spec (strip_trailing_semicolon raw) "") as [Hb|Hb].
  { intros Hr%IH. destruct r; [done|]. destruct Hr as [Hg [Hl|[w1 Hp]]]; (split; [done|]); [by left|].
    right. exists w1. by apply passes_blank. }
  destruct (try_statement _ _ _ _ _ w) as [[[weak short1]|e] w1] eqn:Ht.
  - intros Hr%IH. apply try_settles in Ht as (w0 & Hv & Hs). pose proof (grows_weak s d weak) as Hw.
    destruct r as [r|]; [by eapply stops_after_grows|]. destruct Hr as [Hg Hp]. split; [by eapply grows_trans|].
    destruct Hp as [Hl|[w2 Hp]]; [by left|]. destruct weak.
    + left. apply Hg. apply noted_weak. by right.
    + right. exists w2. by eapply passes_cons.
  - destruct (on_error _ _ _ _ _ _ _) as [[r1 d1]|] eqn:He; [|done]. intros [= <- _ <- _]. by eapply error_stops.
Qed.

Lemma step_spec ver s after l w r l' w' :
  rehearse_step ver s (s :: after) l w = (inl (r, l'), w') ->
  match r with
  | Some r => stops s (s :: after) (lp_found l) (lp_found l') r
  | None => grows s (lp_found l) (lp_found l') /\ (listed (lp_found l') s \/ accepted ver s)
  end.
Proof.
  unfold rehearse_step. destruct (rs_forbidden s); [|destruct (is_object (rs_copy_payload s)) eqn:Hc].
  - unfold skip_step. set (d := note_unverified (rs_ordinal s) (lp_found l)).
    assert (grows s (lp_found l) d /\ listed d s) as [Hg Hl].
    { split; [split; intros x; unfold d; rewrite noted; auto|]. apply noted. by right. }
    assert (forall b : bool, grows s (lp_found l) (if b then note_checked (rs_ordinal s) d else d)
                             /\ listed (if b then note_checked (rs_ordinal s) d else d) s) as Hon by (by intros []).
    destruct (rs_on_copy s) as [| | | | | |[|c cs]| | |]; try (intros [= <- <- _]; cbn [lp_found]; by split; [|left]).
    unfold mbind, act_bind. destruct (check_on_empty_copies (c :: cs) false w) as [[[[p|] checked]|] w1]; [| |done].
    + case_match; intros [= <- <- _]; cbn [lp_found].
      * by split; [|left].
      * split; [apply Hg|]. split; [|exact Hg]. eexists. split; [apply elem_of_app; right; left|done].
    + intros [= <- <- _]. cbn [lp_found]. destruct (Hon checked). by split; [|left].
  - unfold copy_step. destruct (stream_copy (rs_copy_payload s) w) as [[[st what|what o]|] w1] eqn:He; [| done |].
    + intros [= <- <- _]. cbn [lp_found]. split; [auto|]. split; [|by apply grows_same].
      eexists. split; [apply elem_of_app; right; left|done].
    + intros [= <- <- _]. split; [apply grows_refl|]. right. exists w, w1. by rewrite Hc.
  - unfold run_step, mbind, act_bind. destruct (run_statements _ _ _ _ _ _ _ w) as [[[[r1 short] d1]|] w1] eqn:Hr; [|done].
    apply statements_spec in Hr. destruct r1 as [r1|]; [by intros [= <- <- _]|].
    intros Hx. assert (r = None /\ l' = with_dry_run d1 l) as [-> ->].
    { destruct short; cbv iota in Hx; [unfold execute in Hx; destruct (exec _ w1) as [[e|] w2]; [done|]|]; by injection Hx as <- <- _. }
    cbn [lp_found with_dry_run].
    destruct Hr as [Hg [Hl|[w3 Hp]]]; (split; [done|]); [by left|]. right. exists w, w3. by rewrite Hc.
Qed.

Lemma loop_keeps ver steps : forall l w r l' w',
  rehearse_loop ver steps l w = (inl (r, l'), w') ->
  forall x, x ∈ dr_unverified_steps (lp_found l) -> x ∈ dr_unverified_steps (lp_found l').
Proof.
  induction steps as [|s steps IH]; intros l w r l' w'; cbn [rehearse_loop]; [by intros [= _ <- _]|].
  unfold mbind, act_bind. destruct (rehearse_step ver s (s :: steps) l w) as [[[r1 l1]|] w1] eqn:Hs; [|done].
  apply step_spec in Hs. destruct r1 as [r1|]; [intros [= _ <- _]; apply Hs|].
  intros Hr x Hx. by eapply IH; [exact Hr|apply Hs].
Qed.

(** What comes after a step matters only to what is listed where time runs out. *)
Lemma statements_alone ver s after after' skipped sql : forall short d w r short' d' w',
  run_statements ver s after skipped short sql d w = (inl (r, short', d'), w') ->
  exists d'', run_statements ver s after' skipped short sql d w = (inl (r, short', d''), w')
    /\ (r <> Some kTimedOut -> d'' = d').
Proof.
  induction sql as [|raw sql IH]; intros short d w r short' d' w'; cbn [run_statements].
  { intros [= <- <- <- <-]. by eexists. }
  destruct (String.eqb _ ""); [apply IH|].
  destruct (try_statement _ _ _ _ _ w) as [[[weak short1]|e] w1]; [apply IH|].
  unfold on_error. destruct e as [st what|what o]; repeat case_match; intros Hr; simplify_eq; by eexists.
Qed.

Lemma step_alone ver s after after' l w r l' w' :
  rehearse_step ver s after l w = (inl (r, l'), w') ->
  exists l'', rehearse_step ver s after' l w = (inl (r, l''), w') /\ (r <> Some kTimedOut -> l'' = l').
Proof.
  unfold rehearse_step. destruct (rs_forbidden s); [by eexists|]. destruct (is_object (rs_copy_payload s)); [by eexists|].
  unfold run_step, mbind, act_bind.
  destruct (run_statements ver s after _ _ _ _ w) as [[[[r1 short] d1]|] w1] eqn:Hr; [|done].
  destruct (statements_alone ver s after after' _ _ _ _ _ _ _ _ _ Hr) as (d2 & -> & Hd).
  destruct r1 as [r1|].
  - intros [= <- <- <-]. eexists. split; [done|]. intros Hne. by rewrite Hd.
  - rewrite Hd by done. intros Hx. by exists l'.
Qed.

(** C13: A rehearsal accounts for the steps it went through: each is listed as unverified,
    or the server accepted all of its statements, in full, one after the other. Where it
    ends well these are all the steps, and where it ran out of time or did not get a lock
    the rest is listed. Where it found a problem, the problem names the step it stopped at.
    Where it stopped at a gap, the step it stopped at is listed, but none of those after
    it is. However it stopped, nothing was sent for the steps after the one it stopped
    at: a rehearsal of the steps up to that one ends the same way in the same state of
    the server, and but for what is listed when time runs out with the same findings. *)
Theorem rehearsal_accounts_for_its_steps ver steps d skipped w r l w' :
  rehearse_steps ver steps d skipped w = (inl (r, l), w') ->
  exists before after,
    steps = before ++ after
    /\ Forall (fun s => listed (lp_found l) s \/ accepted ver s) before
    /\ match r with
       | kOk => after = []
       | kTimedOut => Forall (listed (lp_found l)) after
       | kFailed => exists s rest p, after = s :: rest /\ p ∈ dr_problems (lp_found l) /\ pr_step p = rs_ordinal s
       | kGap =>
           exists s rest, after = s :: rest /\ listed (lp_found l) s
             /\ forall t, t ∈ rest -> listed (lp_found l) t ->
                 listed d t \/ rs_ordinal t ∈ (rs_ordinal <$> before ++ [s])
       end
    /\ (r <> kOk -> exists s rest l1, after = s :: rest
         /\ rehearse_steps ver (before ++ [s]) d skipped w = (inl (r, l1), w') /\ (r <> kTimedOut -> l1 = l)).
Proof.
  unfold rehearse_steps. set (l0 := {| lp_found := d; lp_skipped_any := skipped; lp_skipped_unchecked := skipped |}).
  change d with (lp_found l0). generalize l0. clear l0 d skipped. revert w.
  induction steps as [|s steps IH]; intros w l0; cbn [rehearse_loop].
  { intros [= <- <- _]. by exists [], []. }
  unfold mbind at 1, act_bind at 1. destruct (rehearse_step ver s (s :: steps) l0 w) as [[[r1 l1]|] w1] eqn:Hs; [|done].
  pose proof (step_alone ver s _ [s] _ _ _ _ _ Hs) as (l2 & Halone & Hsame).
  apply step_spec in Hs. destruct r1 as [r1|].
  - intros [= -> -> ->]. exists [], (s :: steps). split; [done|]. split; [constructor|]. destruct Hs as [_ Hs].
    split.
    { destruct r; [done|..].
      + destruct Hs as [(p & Hp & Hn) _]. by exists s, steps, p.
      + done.
      + destruct Hs as [Hl [_ Hg]]. exists s, steps. split; [done|]. split; [done|]. intros t _ [Ht|Ht]%Hg; [by left|right].
        rewrite Ht. cbn. left. }
    intros _. exists s, steps, l2. split; [done|]. cbn [app rehearse_loop]. unfold mbind, act_bind. rewrite Halone.
    split; [done|]. intros Hne. apply Hsame. congruence.
  - intros Hr. destruct Hs as [Hg Ha]. destruct (IH w1 l1 Hr) as (before & after & -> & Hb & Hm & Hstop).
    exists (s :: before), after. split; [done|]. split; [|split].
    + constructor; [|done]. destruct Ha as [Hl|Ha]; [left|by right]. by eapply loop_keeps.
    + destruct r; try done. destruct Hm as (t & rest & -> & Hl & Hrest). exists t, rest. split; [done|]. split; [done|].
      intros u Hu Hlu. destruct (Hrest u Hu Hlu) as [Hd|Hin].
      * apply Hg in Hd as [Hd|Hd]; [by left|right]. rewrite Hd. cbn. left.
      * right. cbn. by right.
    + intros Hne. destruct (Hstop Hne) as (t & rest & l3 & -> & Hloop & Hl3). exists t, rest, l3. split; [done|].
      split; [|done]. cbn [app rehearse_loop]. unfold mbind, act_bind.
      destruct (step_alone ver s _ (s :: before ++ [t]) _ _ _ _ _ Halone) as (l4 & -> & Hl4).
      rewrite Hl4, Hsame by done. exact Hloop.
Qed.
End Accounts.

(** A COPY that is refused is a problem of the plan, also where a step before it was
    skipped and where the statement ran out of time: neither is asked. *)
Lemma refused_copy_is_a_problem {W} `{Transaction W} ver s after l w st what w1 :
  rs_forbidden s = false -> is_object (rs_copy_payload s) = true ->
  stream_copy (rs_copy_payload s) w = (Some (SqlError st what), w1) ->
  exists l', rehearse_step ver s after l w = (inl (Some kFailed, l'), w1) /\ dr_problems (lp_found l') <> [].
Proof.
  intros Hf Hc He. unfold rehearse_step, copy_step. rewrite Hf, Hc, He. eexists. split; [done|]. cbn.
  destruct (dr_problems (lp_found l)); done.
Qed.

(** ** A server that lacks what a skipped step would have made *)
#[export] Instance demo_transaction : Transaction (list string) :=
  {| exec sql log := (if has_sub "ATTACH" sql then Some (SqlError "42P01" "ERROR:  relation does not exist") else None, log ++ [sql]);
     stream_copy _ log := (None, log) |}.

Definition rehearsal_step (n : Z) (forbidden : bool) (sql : string) : RehearsalStep :=
  {| rs_ordinal := n; rs_sql := [sql]; rs_forbidden := forbidden; rs_copy_payload := JNull; rs_execute := false; rs_on_copy := JNull |}.

Definition demo_rehearsal : list RehearsalStep :=
  [rehearsal_step 0 true "CREATE INDEX CONCURRENTLY part_ix ON part (a);"; rehearsal_step 1 false "ALTER INDEX ix ATTACH PARTITION part_ix;";
   rehearsal_step 2 false "ALTER TABLE t ADD COLUMN b integer;"].

(** The third step is not run and not listed. *)
Lemma rehearsal_accounts_for_its_steps_witness :
  exists r l log,
    rehearse_steps 180000 demo_rehearsal no_dry_run false [] = (inl (r, l), log)
    /\ r = kGap /\ dr_unverified_steps (lp_found l) = [0; 1] /\ log = ["ALTER INDEX ix ATTACH PARTITION part_ix"]
    /\ exists before after, demo_rehearsal = before ++ after
         /\ Forall (fun s => listed (lp_found l) s \/ accepted (W := list string) 180000 s) before.
Proof.
  destruct (rehearse_steps 180000 demo_rehearsal no_dry_run false []) as [[[r l]|e] log] eqn:Hr; [|vm_compute in Hr; discriminate].
  exists r, l, log. split; [done|].
  destruct (rehearsal_accounts_for_its_steps 180000 demo_rehearsal no_dry_run false [] r l log Hr) as (before & after & Hs & Hb & _).
  vm_compute in Hr. injection Hr as <- <- <-. split; [done|]. split; [done|]. split; [done|]. by exists before, after.
Defined.
