(* ===== verification/Timescale.v ===== *)
(** * Timescale: the rules of the TimescaleDB module
    (src/cpp/src/modules/timescaledb: plan.h, project.h, index.h, guard.h)

    The module's reading of the server, the plan of each of its kinds, what a planned
    step leaves for the intents after it, its answer on indexes, and what its guard
    refuses of the core's kinds and says of policies changed by hand. *)
From S2P Require Import Prelude Json Canonical Spec Quote Plan Planner Intents VendorKinds Indexes DryRun.

(** ** The reading *)
Record TsDimension : Type := { td_column : string; td_interval : option TsInterval }.

Record TsHypertable : Type := {
  th_num_chunks : Z;
  th_columnstore : bool;
  th_compressed : Z;
  th_dimensions : list TsDimension;
  th_segmentby : list string;
  th_orderby : list string;
  th_orderby_desc : list bool;
  th_size_bytes : Z;
  th_rows : Z;
  th_chunks : option (list (string * gmap string bool));   (* relation, its indexes and whether each is valid *)
  th_projected : bool;
}.

(** A policy: its intervals by key, and whether its job is scheduled. *)
Record TsPolicy : Type := { tp_intervals : gmap string TsInterval; tp_scheduled : bool }.

(** What a step of an applied specification declared of a policy; [None] its removal. *)
Record TsDeclared : Type := {
  tc_action : string;
  tc_target : string;
  tc_which : string;
  tc_declared : option (list (string * string));
}.

Record TsReading : Type := {
  tr_version : string;
  tr_license : string;
  tr_functions : gset string;
  tr_hypertables : gmap string TsHypertable;
  tr_policies : gmap string (gmap string TsPolicy);
  tr_caggs : gset string;
  tr_applied : list TsDeclared;
}.

#[export] Instance TsInterval_eq_dec : EqDecision TsInterval.
Proof. solve_decision. Defined.

(** ** Shapes shared by the rules *)
Definition ts_qualified (i : Intent) (name_key : string) : string := bstr i "schema" "" +:+ "." +:+ bstr i name_key "".

Definition ts_policy (ts : TsReading) (target which : string) : option TsPolicy := m ← tr_policies ts !! target; m !! which.
Definition ts_has_function (ts : TsReading) (name : string) : bool := bool_decide (name ∈ tr_functions ts).

(** A rule's steps and warnings, and the prerequisites it records. *)
Definition TsPlan : Type := Emitted * list json.

Definition ts_step (i : Intent) (detail : list (string * json)) : Step := make (kind_name i) kOptional false [] "" "" detail.
Definition ts_refuse (i : Intent) (detail : list (string * json)) (why : string) : TsPlan :=
  ({| e_steps := [with_action kConflict why (ts_step i detail)]; e_warnings := []; e_conflicts := [why] |}, []).
Definition ts_satisfied (i : Intent) (detail : list (string * json)) (why : string) (ws : list string) : TsPlan :=
  ({| e_steps := [with_action kSatisfied why (ts_step i detail)]; e_warnings := ws; e_conflicts := [] |}, []).
Definition ts_apply (i : Intent) (detail : list (string * json)) (sql : list Stmt) (lock why : string) (ws : list string) : TsPlan :=
  ({| e_steps := [make (kind_name i) kRequired false sql lock why
                    (set_key "rehearse_by" (JStr "execution") detail)];
      e_warnings := ws; e_conflicts := [] |}, []).

(** [ts_present]: with the extension as a prerequisite where it is not installed. *)
Definition ts_absent (i : Intent) : TsPlan :=
  ((ts_refuse i [] ("the timescaledb extension is not installed in this database, so " +:+ kind_name i +:+ " cannot be planned")).1,
   [JObj [("kind", JStr "extension"); ("target", JStr "timescaledb");
          ("where", JStr "postgresql.conf, then this database, as a superuser");
          ("requirement", JStr "shared_preload_libraries = 'timescaledb' and a restart; CREATE EXTENSION timescaledb");
          ("verify", JStr "SELECT extversion FROM pg_extension WHERE extname = 'timescaledb'"); ("blocking", JBool true)]]).

(** [ts_present], then [ts_tsl]: the Timescale License features. *)
Definition ts_with (tsl : bool) (i : Intent) (ts : option TsReading) (k : TsReading -> TsPlan) : TsPlan :=
  match ts with
  | None => ts_absent i
  | Some ts =>
      if tsl && negb (String.eqb (tr_license ts) "timescale") then
        ts_refuse i [] (kind_name i +:+ " needs the Timescale License edition, and this server reports " +:+ tr_license ts)
      else k ts
  end.

(** [ts_require_hypertable]. *)
Definition ts_on_hypertable (i : Intent) (ts : TsReading) (k : string -> TsHypertable -> TsPlan) : TsPlan :=
  let qualified := ts_qualified i "table" in
  match tr_hypertables ts !! qualified with
  | None => ts_refuse i [] (kind_name i +:+ ": " +:+ qualified +:+ " is not a hypertable")
  | Some h => k qualified h
  end.

(** ** timescaledb_create_hypertable *)

(** [ts_is_time_type]: in small letters, without a precision, blanks run together. *)
Definition without_precision (type : string) : string :=
  match split_first "(" type with
  | None => type
  | Some (before, after) => match split_first ")" after with None => before | Some (_, rest) => before +:+ rest end
  end.

Fixpoint squeeze (after_blank : bool) (s : string) : string :=
  match s with
  | EmptyString => ""
  | String c s' =>
      let b := Ascii.eqb c " " in
      if b && after_blank then squeeze true s' else String c (squeeze b s')
  end.

Definition ts_is_time_type (type : string) : bool :=
  let norm := drop_right (Ascii.eqb " ") (squeeze true (without_precision (lower_text type))) in
  existsb (String.eqb norm)
    ["timestamptz"; "timestamp"; "date"; "timestamp with time zone"; "timestamp without time zone";
     "pg_catalog.timestamptz"; "pg_catalog.timestamp"].

(** The first unique index that leaves the column out. *)
Definition ts_unique_without (t : TableObs) (column : string) : option string :=
  head (omap (fun kv : string * IndexObs =>
    if i_is_unique kv.2 && negb (bool_decide (column ∈ i_columns kv.2)) then Some kv.1 else None)
    (by_key (map_to_list (t_indexes t)))).

Definition ts_hypertable_args (i : Intent) (qualified column : string) : string :=
  ts_regclass qualified +:+ ", by_range(" +:+ quote_literal column
  +:+ (if contains (body i) "chunk_time_interval" then ", " +:+ ts_interval_sql (bstr i "chunk_time_interval" "") else "")
  +:+ ")" +:+ (if bbool i "migrate_data" false then ", migrate_data => true" else "").

(** A table that is a hypertable already. *)
Definition ts_is_hypertable (i : Intent) (qualified column : string) (detail : list (string * json)) (h : TsHypertable) : TsPlan :=
  let current := match th_dimensions h with d :: _ => td_column d | [] => "" end in
  if negb (String.eqb current column) then
    ts_refuse i detail (qualified +:+ " is already a hypertable, partitioned on " +:+ current +:+ ", not " +:+ column)
  else
    let other := match th_dimensions h with
                 | d :: _ =>
                     contains (body i) "chunk_time_interval"
                     && match ts_parse_interval (bstr i "chunk_time_interval" ""), td_interval d with
                        | Some want, Some have => negb (bool_decide (want = have))
                        | _, _ => false
                        end
                 | [] => false
                 end in
    ts_satisfied i detail (qualified +:+ " is already a hypertable on " +:+ column)
      (if other then [qualified +:+ " is a hypertable with another chunk interval than this specification declares"] else []).

(** [n_live_tup] is the table's reading of its statistics. *)
Definition plan_timescaledb_create_hypertable (i : Intent) (ts : option TsReading) (o : Observations) (n_live_tup : Z) : TsPlan :=
  ts_with false i ts (fun ts =>
    let qualified := ts_qualified i "table" in
    let column := bstr i "time_column" "" in
    let t := table_obs o qualified in
    let detail := [("table", JStr qualified); ("time_column", JStr column)] in
    match tr_hypertables ts !! qualified with
    | Some h => ts_is_hypertable i qualified column detail h
    | None =>
        if negb (t_exists t) then ts_refuse i detail (qualified +:+ " does not exist")
        else if negb (ts_has_function ts "by_range") then
          ts_refuse i detail ("this TimescaleDB (" +:+ tr_version ts +:+ ") has no by_range(), which this kind calls")
        else
          match t_columns t !! column with
          | None => ts_refuse i detail (qualified +:+ " has no column " +:+ column)
          | Some c =>
              if negb (ts_is_time_type (c_type c)) then
                ts_refuse i detail (column +:+ " is " +:+ c_type c +:+ "; this kind partitions on time")
              else
                match ts_unique_without t column with
                | Some name => ts_refuse i detail (qualified +:+ " has the unique index " +:+ name +:+ ", which does not contain " +:+ column)
                | None =>
                    let rows := Z.max (t_reltuples t) n_live_tup in
                    let migrate := bbool i "migrate_data" false in
                    if (0 <? rows) && negb migrate then
                      ts_refuse i detail (qualified +:+ " holds about " +:+ to_string rows +:+ " rows")
                    else
                      let moves := migrate && (0 <? rows) in
                      let '(e, pre) :=
                        ts_apply i detail [OtherSql ("SELECT create_hypertable(" +:+ ts_hypertable_args i qualified column +:+ ");")]
                          (if moves then "AccessExclusiveLock on " +:+ qualified +:+ " while its rows move into chunks"
                           else "AccessExclusiveLock on " +:+ qualified +:+ ", briefly: the table is empty")
                          (if moves then qualified +:+ " becomes a hypertable on " +:+ column +:+ ", and its ~" +:+ to_string rows
                                         +:+ " rows move into chunks"
                           else qualified +:+ " becomes a hypertable partitioned on " +:+ column)
                          ((if moves then [qualified +:+ " is unreadable and unwritable while its ~" +:+ to_string rows
                                           +:+ " rows are copied into chunks"] else [])
                           ++ if c_not_null c then [] else [column +:+ " on " +:+ qualified +:+ " is nullable, and create_hypertable makes it NOT NULL"]) in
                      (if migrate && ((0 <? rows) || (0 <? t_size_estimate t))
                       then {| e_steps := do_not_rehearse heavy_not_rehearsed_text true <$> e_steps e; e_warnings := e_warnings e;
                               e_conflicts := e_conflicts e |}
                       else e, pre)
                end
          end
    end).

(** ** timescaledb_set_chunk_time_interval *)
Definition plan_timescaledb_set_chunk_time_interval (i : Intent) (ts : option TsReading) : TsPlan :=
  ts_with false i ts (fun ts => ts_on_hypertable i ts (fun qualified h =>
    let text := bstr i "chunk_time_interval" "" in
    let have := match th_dimensions h with d :: _ => td_interval d | [] => None end in
    if match ts_parse_interval text, have with Some want, Some have => bool_decide (want = have) | _, _ => false end then
      ts_satisfied i [] (qualified +:+ "'s chunk interval is already " +:+ text) []
    else
      ts_apply i [] [OtherSql ("SELECT set_chunk_time_interval(" +:+ ts_regclass qualified +:+ ", " +:+ ts_interval_sql text +:+ ");")]
        "no table lock on the data: catalog only, for chunks created from now on"
        ("new chunks of " +:+ qualified +:+ " cover " +:+ text +:+ "; existing chunks keep the interval they were made with") [])).

(** ** timescaledb_set_columnstore *)

(** "column" or "column DESC": two words of the entry. *)
Definition ts_order (e : string) : string * bool :=
  match words e with
  | [] => ("", false)
  | [c] => (c, false)
  | c :: d :: _ => (c, String.eqb (lower_text d) "desc")
  end.

Definition ts_orders (i : Intent) : list (string * bool) := ts_order <$> bstrs i "order_by".

Definition plan_timescaledb_set_columnstore (i : Intent) (ts : option TsReading) : TsPlan :=
  ts_with true i ts (fun ts => ts_on_hypertable i ts (fun qualified h =>
    let seg := bstrs i "segment_by" in
    let ord := ts_orders i in
    if th_columnstore h && bool_decide (th_segmentby h = seg) && bool_decide (th_orderby h = ord.*1)
       && bool_decide (th_orderby_desc h = ord.*2) then
      ts_satisfied i [] (qualified +:+ " already has the columnstore, segmented and ordered as declared") []
    else
      let opts := ["timescaledb.enable_columnstore = true"]
        ++ (if contains (body i) "segment_by" then ["timescaledb.segmentby = " +:+ quote_literal (join ", " seg)] else [])
        ++ (if contains (body i) "order_by"
            then ["timescaledb.orderby = " +:+ quote_literal (join ", " ((fun c => c.1 +:+ (if c.2 : bool then " DESC" else "")) <$> ord))] else []) in
      ts_apply i [] [OtherSql ("ALTER TABLE " +:+ quote_qualified qualified +:+ " SET (" +:+ join ", " opts +:+ ");")]
        ("AccessExclusiveLock on " +:+ qualified +:+ ", briefly (measured): settings only")
        (qualified +:+ " gets the columnstore" +:+ match seg with [] => "" | _ => ", segmented by " +:+ join ", " seg end)
        ((if 0 <? th_compressed h then ["the new columnstore settings on " +:+ qualified +:+ " apply to chunks converted from now on; its "
                                        +:+ to_string (th_compressed h) +:+ " converted chunks keep the old ones until recompressed"] else [])
         ++ ["with the columnstore enabled on " +:+ qualified +:+ ", TimescaleDB refuses VALIDATE CONSTRAINT on it"]))).

(** ** Policies *)

(** [ts_declare_policy]: what the step declared, kept with it for the ledger. *)
Definition ts_declare (target which : string) (declared : json) : list (string * json) :=
  [("policy", JObj [("target", JStr target); ("which", JStr which); ("declared", declared)])].

(** A reading's interval is the text's. *)
Definition ts_same (p : TsPolicy) (key text : string) : bool :=
  match tp_intervals p !! key, ts_parse_interval text with Some have, Some want => bool_decide (have = want) | _, _ => false end.

Definition ts_removal (ts : TsReading) (which modern_name qualified : string) : Stmt :=
  JobPolicy qualified (if String.eqb which "columnstore" then RemoveColumnstorePolicy (ts_has_function ts modern_name)
                       else RemoveRetentionPolicy).

Definition plan_timescaledb_add_columnstore_policy (i : Intent) (ts : option TsReading) : TsPlan :=
  ts_with true i ts (fun ts => ts_on_hypertable i ts (fun qualified h =>
    if negb (th_columnstore h) then ts_refuse i [] (qualified +:+ " does not have the columnstore enabled")
    else
      let text := bstr i "after" "" in
      let detail := ts_declare qualified "columnstore" (JObj [("after", JStr text)]) in
      let existing := ts_policy ts qualified "columnstore" in
      if match existing with Some p => ts_same p "after" text | None => false end then
        ts_satisfied i detail (qualified +:+ " already converts chunks older than " +:+ text) []
      else
        ts_apply i detail
          ((match existing with Some _ => [ts_removal ts "columnstore" "add_columnstore_policy" qualified] | None => [] end)
           ++ [JobPolicy qualified (AddColumnstorePolicy (ts_has_function ts "add_columnstore_policy") text)])
          "no table lock: a background job, run by TimescaleDB's scheduler"
          (match existing with
           | Some _ => qualified +:+ "'s columnstore policy changes to chunks older than " +:+ text
           | None => qualified +:+ " converts chunks older than " +:+ text +:+ " to the columnstore"
           end) [])).

(** The removals do not ask for a hypertable: a policy that is not there is removed. *)
Definition ts_remove_policy (which modern_name lock why none : string) (i : Intent) (ts : option TsReading) : TsPlan :=
  ts_with true i ts (fun ts =>
    let qualified := ts_qualified i "table" in
    let detail := ts_declare qualified which JNull in
    match ts_policy ts qualified which with
    | None => ts_satisfied i detail (qualified +:+ none) []
    | Some _ => ts_apply i detail [ts_removal ts which modern_name qualified] lock (qualified +:+ why) []
    end).

Definition plan_timescaledb_remove_columnstore_policy : Intent -> option TsReading -> TsPlan :=
  ts_remove_policy "columnstore" "remove_columnstore_policy" "no table lock: removes a background job"
    " stops converting chunks; those already converted stay so" " has no columnstore policy".

Definition plan_timescaledb_add_retention_policy (i : Intent) (ts : option TsReading) : TsPlan :=
  ts_with true i ts (fun ts => ts_on_hypertable i ts (fun qualified _ =>
    let text := bstr i "drop_after" "" in
    let detail := ts_declare qualified "retention" (JObj [("drop_after", JStr text)]) in
    let existing := ts_policy ts qualified "retention" in
    if match existing with Some p => ts_same p "drop_after" text | None => false end then
      ts_satisfied i detail (qualified +:+ " already drops chunks older than " +:+ text) []
    else
      ts_apply i detail
        ((match existing with Some _ => [ts_removal ts "retention" "" qualified] | None => [] end)
         ++ [JobPolicy qualified (AddRetentionPolicy text)])
        "no table lock now; the job drops chunks on its schedule"
        (match existing with
         | Some _ => qualified +:+ "'s retention changes to chunks older than "
         | None => qualified +:+ " drops chunks older than "
         end +:+ text)
        ["DATA LOSS by design: from now on TimescaleDB drops every chunk of " +:+ qualified +:+ " older than " +:+ text])).

Definition plan_timescaledb_remove_retention_policy : Intent -> option TsReading -> TsPlan :=
  ts_remove_policy "retention" "" "no table lock: removes a background job" " stops dropping old chunks" " has no retention policy".

(** ** Continuous aggregates *)

(** Filled in a step of its own, outside any transaction, where that is asked for. *)
Definition ts_refresh (i : Intent) (qualified : string) : Step :=
  make (kind_name i) kForbidden false [OtherSql ("CALL refresh_continuous_aggregate(" +:+ ts_regclass qualified +:+ ", NULL, NULL);")]
    "reads the whole source hypertable; the view is readable throughout"
    (qualified +:+ " is filled from its source, all of it")
    [("on_failure", JStr "the view exists, created by the step before, and holds whatever was materialized before the failure; refreshing it again is safe");
     ("view", JStr qualified)].

Definition plan_timescaledb_create_continuous_aggregate (i : Intent) (ts : option TsReading) : TsPlan :=
  ts_with true i ts (fun ts =>
    let qualified := ts_qualified i "name" in
    let detail := [("view", JStr qualified)] in
    if bool_decide (qualified ∈ tr_caggs ts) then
      ts_satisfied i detail (qualified +:+ " is already a continuous aggregate (its query is not compared)") []
    else
      let with_ := "timescaledb.continuous"
        +:+ (if contains (body i) "materialized_only"
             then ", timescaledb.materialized_only = " +:+ (if bbool i "materialized_only" false then "true" else "false") else "") in
      let '(e, pre) := ts_apply i detail
        (OtherSql ("CREATE MATERIALIZED VIEW " +:+ quote_qualified qualified +:+ " WITH (" +:+ with_ +:+ ") AS " +:+ bstr i "query" "" +:+ " WITH NO DATA;")
         :: (if contains (body i) "comment" then [CommentOn ("VIEW " +:+ quote_qualified qualified) (bstr i "comment" "")] else []))
        "AccessShareLock on the hypertables it reads; no data is read: WITH NO DATA"
        (qualified +:+ " is created empty, as a continuous aggregate") [] in
      ({| e_steps := e_steps e ++ (if bbool i "refresh" false then [ts_refresh i qualified] else []);
          e_warnings := e_warnings e; e_conflicts := e_conflicts e |}, pre)).

Definition ts_refresh_keys : list string := ["start_offset"; "end_offset"; "schedule_interval"].

Definition plan_timescaledb_add_continuous_aggregate_policy (i : Intent) (ts : option TsReading) : TsPlan :=
  ts_with true i ts (fun ts =>
    let qualified := ts_qualified i "name" in
    let view := [("view", JStr qualified)] in
    if bool_decide (qualified ∉ tr_caggs ts) then ts_refuse i view (qualified +:+ " is not a continuous aggregate")
    else
      let text k := bstr i k "" in
      let detail := ts_declare qualified "refresh" (JObj ((fun k => (k, JStr (text k))) <$> ts_refresh_keys)) ++ view in
      let existing := ts_policy ts qualified "refresh" in
      if match existing with Some p => forallb (fun k => ts_same p k (text k)) ts_refresh_keys | None => false end then
        ts_satisfied i detail (qualified +:+ " is already refreshed as declared") []
      else
        ts_apply i detail
          ((match existing with Some _ => [JobPolicy qualified RemoveRefreshPolicy] | None => [] end)
           ++ [JobPolicy qualified (AddRefreshPolicy (text "start_offset") (text "end_offset") (text "schedule_interval"))])
          "no table lock: a background job"
          (qualified +:+ " is refreshed every " +:+ text "schedule_interval" +:+ ", from " +:+ text "start_offset" +:+ " ago to "
           +:+ text "end_offset" +:+ " ago") []).

(** The rule of each kind. *)
Definition plan_timescaledb (i : Intent) (ts : option TsReading) (o : Observations) (n_live_tup : Z) : option TsPlan :=
  match kind i with
  | kModule m =>
      if String.eqb m "timescaledb_create_hypertable" then Some (plan_timescaledb_create_hypertable i ts o n_live_tup)
      else if String.eqb m "timescaledb_set_chunk_time_interval" then Some (plan_timescaledb_set_chunk_time_interval i ts)
      else if String.eqb m "timescaledb_set_columnstore" then Some (plan_timescaledb_set_columnstore i ts)
      else if String.eqb m "timescaledb_add_columnstore_policy" then Some (plan_timescaledb_add_columnstore_policy i ts)
      else if String.eqb m "timescaledb_remove_columnstore_policy" then Some (plan_timescaledb_remove_columnstore_policy i ts)
      else if String.eqb m "timescaledb_add_retention_policy" then Some (plan_timescaledb_add_retention_policy i ts)
      else if String.eqb m "timescaledb_remove_retention_policy" then Some (plan_timescaledb_remove_retention_policy i ts)
      else if String.eqb m "timescaledb_create_continuous_aggregate" then Some (plan_timescaledb_create_continuous_aggregate i ts)
      else if String.eqb m "timescaledb_add_continuous_aggregate_policy" then Some (plan_timescaledb_add_continuous_aggregate_policy i ts)
      else None
  | _ => None
  end.

(** ** What a step leaves for the intents after it (project.h) *)
Definition with_hypertables (f : gmap string TsHypertable -> gmap string TsHypertable) (ts : TsReading) : TsReading :=
  {| tr_version := tr_version ts; tr_license := tr_license ts; tr_functions := tr_functions ts;
     tr_hypertables := f (tr_hypertables ts); tr_policies := tr_policies ts; tr_caggs := tr_caggs ts; tr_applied := tr_applied ts |}.

Definition with_policies (f : gmap string (gmap string TsPolicy) -> gmap string (gmap string TsPolicy)) (ts : TsReading) : TsReading :=
  {| tr_version := tr_version ts; tr_license := tr_license ts; tr_functions := tr_functions ts;
     tr_hypertables := tr_hypertables ts; tr_policies := f (tr_policies ts); tr_caggs := tr_caggs ts; tr_applied := tr_applied ts |}.

Definition with_cagg (view : string) (ts : TsReading) : TsReading :=
  {| tr_version := tr_version ts; tr_license := tr_license ts; tr_functions := tr_functions ts;
     tr_hypertables := tr_hypertables ts; tr_policies := tr_policies ts; tr_caggs := {[ view ]} ∪ tr_caggs ts; tr_applied := tr_applied ts |}.

(** Seven days where the intent gives no interval. *)
Definition ts_project_create_hypertable (i : Intent) (ts : TsReading) : TsReading :=
  with_hypertables (<[ts_qualified i "table" :=
    {| th_num_chunks := 0; th_columnstore := false; th_compressed := 0;
       th_dimensions := [{| td_column := bstr i "time_column" "";
                            td_interval := if contains (body i) "chunk_time_interval"
                                           then ts_parse_interval (bstr i "chunk_time_interval" "") else Some (in_days 7) |}];
       th_segmentby := []; th_orderby := []; th_orderby_desc := []; th_size_bytes := -1; th_rows := -1; th_chunks := None;
       th_projected := true |}]>) ts.

Definition ts_project_chunk_interval (i : Intent) (ts : TsReading) : TsReading :=
  with_hypertables (alter (fun h =>
    {| th_num_chunks := th_num_chunks h; th_columnstore := th_columnstore h; th_compressed := th_compressed h;
       th_dimensions := match th_dimensions h with
                        | d :: rest => {| td_column := td_column d; td_interval := ts_parse_interval (bstr i "chunk_time_interval" "") |} :: rest
                        | [] => []
                        end;
       th_segmentby := th_segmentby h; th_orderby := th_orderby h; th_orderby_desc := th_orderby_desc h;
       th_size_bytes := th_size_bytes h; th_rows := th_rows h; th_chunks := th_chunks h; th_projected := th_projected h |})
    (ts_qualified i "table")) ts.

Definition ts_project_columnstore (i : Intent) (ts : TsReading) : TsReading :=
  with_hypertables (alter (fun h =>
    {| th_num_chunks := th_num_chunks h; th_columnstore := true; th_compressed := th_compressed h;
       th_dimensions := th_dimensions h; th_segmentby := bstrs i "segment_by"; th_orderby := (ts_orders i).*1;
       th_orderby_desc := (ts_orders i).*2; th_size_bytes := th_size_bytes h; th_rows := th_rows h; th_chunks := th_chunks h;
       th_projected := th_projected h |})
    (ts_qualified i "table")) ts.

(** [timescaledb_project_policy]: the keys given, or a removal. *)
Definition ts_project_policy (target which : string) (policy : option (list (string * string))) (ts : TsReading) : TsReading :=
  match policy with
  | None => with_policies (alter (base.delete which) target) ts
  | Some l =>
      let p := {| tp_intervals := list_to_map (omap (fun kt => v ← ts_parse_interval kt.2; Some (kt.1, v)) l); tp_scheduled := true |} in
      with_policies (fun m => <[target := <[which := p]> (default ∅ (m !! target))]> m) ts
  end.

(** [PGLASWELL_PROJECT] by kind; only a step that applies is projected, which the arms
    for a new hypertable or view ask once more. *)
Definition ts_project (i : Intent) (ts : TsReading) : TsReading :=
  let table := ts_qualified i "table" in
  let view := ts_qualified i "name" in
  match kind i with
  | kModule m =>
      if String.eqb m "timescaledb_create_hypertable" then ts_project_create_hypertable i ts
      else if String.eqb m "timescaledb_set_chunk_time_interval" then ts_project_chunk_interval i ts
      else if String.eqb m "timescaledb_set_columnstore" then ts_project_columnstore i ts
      else if String.eqb m "timescaledb_add_columnstore_policy" then ts_project_policy table "columnstore" (Some [("after", bstr i "after" "")]) ts
      else if String.eqb m "timescaledb_remove_columnstore_policy" then ts_project_policy table "columnstore" None ts
      else if String.eqb m "timescaledb_add_retention_policy" then ts_project_policy table "retention" (Some [("drop_after", bstr i "drop_after" "")]) ts
      else if String.eqb m "timescaledb_remove_retention_policy" then ts_project_policy table "retention" None ts
      else if String.eqb m "timescaledb_create_continuous_aggregate" then with_cagg view ts
      else if String.eqb m "timescaledb_add_continuous_aggregate_policy" then
        ts_project_policy view "refresh" (Some ((fun k => (k, bstr i k "")) <$> ts_refresh_keys)) ts
      else ts
  | _ => ts
  end.

(** ** The answer on indexes (index.h) *)

Fixpoint leading_digits (s : string) : string :=
  match s with String c s' => if digit c then String c (leading_digits s') else "" | EmptyString => "" end.

(** [std::stoi] at the start of a text: the number and what is after it. *)
Definition stoi (s : string) : option (Z * string) :=
  let s := drop_left blank s in
  let '(negative, s) := match s with
                        | String "-" r => (true, r)
                        | String "+" r => (false, r)
                        | _ => (false, s)
                        end in
  let number := leading_digits s in
  let rest := skip (String.length number) s in
  if String.eqb number "" then None
  else
    let n := digits_value 0 (String.list_ascii_of_string number) in
    let n := if negative then - n else n in
    if (- 2 ^ 31 <=? n) && (n <? 2 ^ 31) then Some (n, rest) else None.

(** An exception leaves [major] at zero. *)
Definition ts_version_from (version : string) : Z * Z :=
  match stoi version with
  | None => (0, 0)
  | Some (major, EmptyString) => (major, 0)
  | Some (major, String _ rest) => match stoi rest with Some (minor, _) => (major, minor) | None => (0, 0) end
  end.

Definition ts_measured (version : string) (h : TsHypertable) : bool :=
  let '(major, minor) := ts_version_from version in
  ((2 <? major) || (major =? 2) && (30 <=? minor)) && negb (th_columnstore h) && negb (th_projected h).

Definition timescaledb_index_traits (ts : option TsReading) (qualified : string) : option IndexTraits :=
  ts ← ts;
  h ← tr_hypertables ts !! qualified;
  Some {| it_parts := if ts_measured (tr_version ts) h
                      then omap (fun c => if String.eqb c.1 "" then None else Some {| part_relation := c.1; part_indexes := c.2 |})
                             (default [] (th_chunks h))
                      else [];
          it_concurrent := false; it_per_part_option := "timescaledb.transaction_per_chunk"; it_per_part_unique := false;
          it_size_bytes := if th_projected h then -1 else th_size_bytes h;
          it_rows := if th_projected h then -1 else th_rows h;
          it_scope := qualified +:+ " and each of its " +:+ to_string (th_num_chunks h) +:+ " chunk"
                      +:+ (if th_num_chunks h =? 1 then "" else "s");
          it_memory_wanted := 0; it_memory_per_row := 0; it_memory_by := "" |}.

(** ** The guard (guard.h) *)

(** Policies changed by hand: the newest declaration of each against the server. *)
Definition ts_policy_advice (ts : TsReading) (d : TsDeclared) : list string :=
  let words := tc_which d +:+ " policy" in
  let existing := ts_policy ts (tc_target d) (tc_which d) in
  match tc_declared d, existing with
  | None, None => []
  | None, Some _ => [tc_target d +:+ "'s " +:+ words +:+ " was removed by an applied specification and exists again"]
  | Some _, None => [tc_target d +:+ "'s " +:+ words +:+ " was added by an applied specification and is no longer there"]
  | Some l, Some p =>
      let changed := omap (fun kt : string * string =>
                       match ts_parse_interval kt.2, tp_intervals p !! kt.1 with
                       | Some want, Some got => if bool_decide (want = got) then None else Some (kt.1 +:+ " is no longer " +:+ kt.2)
                       | _, _ => None
                       end) l
                     ++ (if tp_scheduled p then [] else ["the job is paused"]) in
      match changed with
      | [] => []
      | _ => [tc_target d +:+ "'s " +:+ words +:+ " differs from what an applied specification declared: " +:+ join ", " changed]
      end
  end.

Fixpoint ts_policies_advice (ts : TsReading) (seen : list string) (l : list TsDeclared) : list string :=
  match l with
  | [] => []
  | d :: rest =>
      let key := tc_target d +:+ "/" +:+ tc_which d in
      if negb (String.eqb (tc_action d) "apply" || String.eqb (tc_action d) "satisfied") || String.eqb (tc_target d) ""
         || bool_decide (key ∈ seen)
      then ts_policies_advice ts seen rest
      else ts_policy_advice ts d ++ ts_policies_advice ts (key :: seen) rest
  end.

(** What the guard keeps of a hypertable as it goes through the intents. *)
Record Hyper : Type := { hy_dims : list string; hy_columnstore : bool; hy_compressed : Z }.

Definition hypers (ts : TsReading) : gmap string Hyper :=
  (fun h => {| hy_dims := td_column <$> th_dimensions h; hy_columnstore := th_columnstore h; hy_compressed := th_compressed h |})
    <$> tr_hypertables ts.

Definition missing_dim (h : Hyper) (cols : list string) : option string :=
  List.find (fun d => negb (bool_decide (d ∈ cols))) (hy_dims h).

(** The columns a unique key of the intent compares, where it has one. *)
Definition ts_unique_key (i : Intent) : option (list string) :=
  match kind i with
  | kCreateIndex =>
      if bbool i "unique" false
      then Some ((fun c => match c with JStr s => s | c => entry_text c "name" end) <$> elements (at_key (body i) "columns")) else None
  | kAddPrimaryKey | kAddUniqueConstraint =>
      let key := bstrs i "columns" in
      Some (if bbool i "without_overlaps" false then take (length key - 1) key else key)
  | kAddExclusionConstraint =>
      Some (omap (fun e => if contains e "column" && String.eqb (entry_text e "with") "=" then Some (entry_text e "column") else None)
              (elements (at_key (body i) "elements")))
  | _ => None
  end.

(** A unique index over exactly the key, which a plain table's constraint would adopt. *)
Definition ts_adoptable (t : TableObs) (key : list string) : option string :=
  head (omap (fun kv : string * IndexObs =>
    if i_is_unique kv.2 && i_is_valid kv.2 && String.eqb (i_predicate kv.2) "" && bool_decide (i_columns kv.2 = key) then Some kv.1 else None)
    (by_key (map_to_list (t_indexes t)))).

Definition ts_refusals_of (i : Intent) (o : Observations) (h : Hyper) : list string :=
  let q := in_qualified i in
  let what := kind_name i +:+ " on " +:+ q in
  let key := default [] (ts_unique_key i) in
  let missing := missing_dim h key in
  (match ts_unique_key i, missing with
   | Some _, Some d => [what +:+ ": the key does not contain " +:+ d +:+ ", and " +:+ q +:+ " is a hypertable partitioned on it"]
   | _, _ => []
   end)
  ++ (match kind i with
      | kAddPrimaryKey | kAddUniqueConstraint =>
          let t := table_obs o q in
          if bbool i "without_overlaps" false || bool_decide (missing <> None)
             || bool_decide (is_Some (t_constraints t !! bstr i "name" "")) then []
          else match ts_adoptable t key with
               | Some name => [what +:+ ": the unique index " +:+ dq +:+ name +:+ dq +:+ " already covers it"]
               | None => []
               end
      | kAlterColumnType =>
          if 0 <? hy_compressed h then [what +:+ ": " +:+ q +:+ " has " +:+ to_string (hy_compressed h) +:+ " chunk(s) in the columnstore"] else []
      | _ => []
      end).

(** The guard follows the specification in order. *)
Fixpoint ts_refusals (l : list Intent) (o : Observations) (hyper : gmap string Hyper) : list string :=
  match l with
  | [] => []
  | i :: rest =>
      let q := in_qualified i in
      match kind i with
      | kModule m =>
          if String.eqb m "timescaledb_create_hypertable" then
            let h := default {| hy_dims := []; hy_columnstore := false; hy_compressed := 0 |} (hyper !! q) in
            ts_refusals rest o (<[q := {| hy_dims := [bstr i "time_column" ""]; hy_columnstore := hy_columnstore h;
                                          hy_compressed := hy_compressed h |}]> hyper)
          else if String.eqb m "timescaledb_set_columnstore" then
            ts_refusals rest o (alter (fun h => {| hy_dims := hy_dims h; hy_columnstore := true; hy_compressed := hy_compressed h |}) q hyper)
          else ts_refusals rest o hyper
      | _ =>
          match hyper !! q with
          | Some h => ts_refusals_of i o h ++ ts_refusals rest o hyper
          | None => ts_refusals rest o hyper
          end
      end
  end.

Definition timescaledb_plan_refusals (spec : Spec) (o : Observations) (ts : option TsReading) : list string * list string :=
  match ts with
  | None => ([], [])
  | Some ts => (ts_refusals (intents spec) o (hypers ts), ts_policies_advice ts [] (tr_applied ts))
  end.
