(* ===== verification/Tools.v ===== *)
(** * Tools: planMigration, startMigration, the chained rehearsal (src/cpp/src/tools.h)

    What a caller's request goes through before a job runs: parsing, both trust gates,
    the readings, the plan, its rehearsal, the limits, the ledger's rows and locks. The
    database, the ledger and the job registry are a class of calls that may throw. In a
    chained rehearsal ([ChainRehearsal]) there is one transaction per connection and a
    savepoint per specification: what a specification would make is kept for the next one
    where its rehearsal is clean, and rolled back otherwise. At the end every transaction
    is rolled back. *)
From S2P Require Import Prelude Json Canonical Config Repository Spec SpecFacts Trust Locks Quote RowSql Plan Planner Indexes RowPlan Dml Backfill AddColumn Views Tables Keys Objects Security Replication Alter Physical Extras TextSearch Migration DryRun.

(** ** Calls *)
Inductive ToolError : Type :=
  | FromSpec (e : spec_error)
  | FromTrust (e : trust_error)
  | FromServer (e : ServerError)
  | FromJson (e : json_error)
  | FromDigest (e : canon_error)
  | OtherError (what : string).

Definition Call (W A : Type) : Type := W -> (A + ToolError) * W.

#[export] Instance call_ret {W} : MRet (Call W) := fun A a w => (inl a, w).
#[export] Instance call_bind {W} : MBind (Call W) := fun A B f m w =>
  match m w with (inl a, w') => f a w' | (inr e, w') => (inr e, w') end.

Definition throw {W A} (e : ToolError) : Call W A := fun w => (inr e, w).

(** A result of the pure parts, its error thrown. *)
Definition from {W E A} (inject : E -> ToolError) (r : result E A) : Call W A :=
  match r with Ok a => mret a | Err e => throw (inject e) end.

(** [catch (const std::exception&)]. *)
Definition or_else {W A} (m : Call W A) (a : A) : Call W A := fun w =>
  match m w with (inr _, w') => (inl a, w') | r => r end.

Definition attempt {W A} (m : Call W A) : Call W (option A) := fun w =>
  match m w with (inl a, w') => (inl (Some a), w') | (inr _, w') => (inl None, w') end.

(** Calls that do not throw. *)
Definition does {W A} (f : W -> A * W) : Call W A := fun w => let '(a, w') := f w in (inl a, w').
Definition update {W} (f : W -> W) : Call W unit := fun w => (inl tt, f w).
Definition gets {W A} (f : W -> A) : Call W A := fun w => (inl (f w), w).

Class Host (W : Type) : Type := {
  host_transaction :: Transaction W;
  (** [Ledger::status], as the repository's view has it. *)
  read_status : Call W View;
  (** laswell.trusted_key, which [verify_signer] reads. *)
  read_trusted : Call W (gmap string TrustedRow);
  (** [Catalog::observe]: schemas and tables in parallel, and keys of other objects. *)
  observe : list string -> list string -> list string -> Call W Observations;
  (** Advice from the ledger and from the server's language. *)
  earlier_forms : string -> string -> Call W (list string);
  language_advice : Call W (list string);
  (** The session of a dry run: an error where it could not be opened. *)
  begin_rehearsal : W -> option string * W;
  roll_back : W -> W;
  (** A session in another database of the same server, and its rollback. *)
  begin_elsewhere : string -> W -> option ServerError * W;
  exec_elsewhere : string -> string -> W -> option ServerError * W;
  rollback_elsewhere : string -> W -> option ServerError * W;
  reconcile_dead_jobs : Call W unit;
  running_count : W -> Z;
  create_job : W -> string * W;
  fail_job : string -> W -> W;
  write_migration : Spec -> string -> Call W Z;
  (** The locks and the job's row; [false] is a conflict. *)
  open_job : string -> Z -> Plan -> string -> list Z -> Call W bool;
  start_worker : string -> W -> W;
}.

(** ** What a specification must have observed *)

(** A key once, as a relation (schema and name) or as another object. *)
Fixpoint sort_targets (seen : list string) (keys : list string) : list (string * string) * list string :=
  match keys with
  | [] => ([], [])
  | key :: rest =>
      if bool_decide (key ∈ seen) then sort_targets seen rest
      else
        let '(tables, objects) := sort_targets (key :: seen) rest in
        if has_char ":" key then (tables, key :: objects)
        else match split_first "." key with
             | Some (schema, table) => ((schema, table) :: tables, objects)
             | None => (tables, objects)
             end
  end.

Definition observation_targets `{Modules} (spec : Spec) : result spec_error (list string * list string * list string) :=
  keys ← sequence (conflict_keys <$> intents spec);
  let '(tables, objects) := sort_targets [] (concat keys) in
  Ok (tables.*1, tables.*2, objects).

Section Tools.
Context {W : Type} `{Host W, OpenSSL, Modules, Bodies, Vendors, Printing, OtherRules}.
Variables (modules : list string) (policy : TrustPolicy) (cfg : PlannerConfig).

(** ** Both gates, the machine's first: the ledger is read only where it passes. *)
Definition gates (spec : Spec) : Call W GateAnswer :=
  gate1 ← from FromTrust (verify_against_policy policy (canonical_bytes spec) (signatures spec));
  if negb (verified gate1) && negb (not_configured gate1) then mret (MachineRefuses (reason gate1))
  else trusted ← read_trusted; from FromTrust (trust_gates policy trusted spec).

(** ** The dry run *)
Definition found_elsewhere (ps : list RehearsalProblem) (d : DryRun) : DryRun :=
  with_found d false ps (dr_unverified_steps d) (dr_timed_out_at d) (dr_lock_unavailable_at d) false [].

(** The statements one after the other; the one that was tried last, with its error. *)
Fixpoint run_elsewhere (database current : string) (sql : list string) (w : W) : option (string * ServerError) * W :=
  match sql with
  | [] => match rollback_elsewhere database w with (Some e, w') => (Some (current, e), w') | (None, w') => (None, w') end
  | q :: rest =>
      match exec_elsewhere database q w with
      | (Some e, w') => (Some (q, e), w')
      | (None, w') => run_elsewhere database q rest w'
      end
  end.

(** Not being able to get there is a problem of the step too. *)
Definition elsewhere_problem (step : Z) (database current : string) (e : ServerError) : RehearsalProblem :=
  match e with
  | SqlError state what =>
      {| pr_step := step; pr_sqlstate := state; pr_message := server_message what;
         pr_statement := "in database " +:+ database +:+ ": " +:+ current |}
  | BrokenConnection what _ =>
      {| pr_step := step; pr_sqlstate := ""; pr_message := "could not check in database " +:+ database +:+ ": " +:+ what;
         pr_statement := current |}
  end.

(** [rehearse_elsewhere]: the entries of ["sql"] are texts the planner wrote. *)
Definition rehearse_elsewhere (e : Z * json) (w : W) : list RehearsalProblem * W :=
  let database := entry_text e.2 "database" in
  let sql := omap (fun v => match v with JStr q => Some q | _ => None end) (Spec.elements (at_key e.2 "sql")) in
  let '(r, w') := match begin_elsewhere database w with
                  | (Some err, w') => (Some ("", err), w')
                  | (None, w') => run_elsewhere database "" sql w'
                  end in
  (match r with Some (current, err) => [elsewhere_problem e.1 database current err] | None => [] end, w').

Fixpoint check_elsewhere (l : list (Z * json)) (d : DryRun) (w : W) : DryRun * W :=
  match l with
  | [] => (d, w)
  | e :: rest => let '(ps, w') := rehearse_elsewhere e w in check_elsewhere rest (found_elsewhere ps d) w'
  end.

Definition ran (b : bool) (why : string) (d : DryRun) : DryRun :=
  {| dr_ran := b; dr_weak_verification := dr_weak_verification d; dr_problems := dr_problems d;
     dr_unverified_steps := dr_unverified_steps d; dr_skipped_reason := why; dr_timed_out_at := dr_timed_out_at d;
     dr_lock_unavailable_at := dr_lock_unavailable_at d; dr_depends_on_skipped := dr_depends_on_skipped d;
     dr_definition_checked := dr_definition_checked d |}.

(** [Catalog::dry_run]: whatever happens, what was tried is rolled back. *)
Definition dry_run (server_version : Z) (steps : list RehearsalStep) : Call W DryRun := fun w =>
  match begin_rehearsal w with
  | (Some why, w') => (inl (ran false ("could not open a dry-run transaction: " +:+ why) no_dry_run), w')
  | (None, w') =>
      match rehearse_steps server_version steps (ran true "" no_dry_run) false w' with
      | (inl (_, l), w'') => (inl (lp_found l), roll_back w'')
      | (inr e, w'') => (inr (FromServer e), roll_back w'')
      end
  end.

Definition rehearse_plan (server_version : Z) (p : Plan) : Call W DryRun :=
  d ← dry_run server_version (rehearsal_inputs p false);
  let d := note_not_run p false d in
  if dr_ran d then does (check_elsewhere (elsewhere p false) d) else mret d.

(** ** planMigration *)
Inductive PlanRefusal : Type :=
  | NeedsSpec
  | SpecRefused (e : spec_error)
  | TrustRefused (g : GateAnswer).

(** What the answer says of a plan: [pa_error] where the rehearsal found a problem. *)
Record PlanAnswer : Type := {
  pa_plan : Plan;
  pa_ok : bool;
  pa_error : bool;
  pa_dry_run : option DryRun;
  pa_digest : string;
  pa_draft : bool;
}.

Definition with_advice (advice : list string) (p : Plan) : Plan :=
  {| ok := ok p; plan_spec_id := plan_spec_id p; plan_spec_digest := plan_spec_digest p; steps := steps p;
     warnings := warnings p; advisories := advisories p ++ advice; conflicts := conflicts p;
     prerequisites := prerequisites p; budget := budget p |}.

Definition plan_spec (spec : Spec) : Call W (Observations * Plan) :=
  '(schemas, tables, keys) ← from FromSpec (observation_targets spec);
  obs ← observe schemas tables keys;
  match plan_migration spec obs cfg with
  | Some p => mret (obs, p)
  | None => throw (OtherError "a rule threw")
  end.

Definition plan_migration_tool (args : json) : Call W (PlanAnswer + PlanRefusal) :=
  if negb (is_object (at_key args "spec")) then mret (inr NeedsSpec)
  else
    match parse_spec sha256 (at_key args "spec") with
    | Err (Refused what) => mret (inr (SpecRefused (Refused what)))
    | Err e => throw (FromSpec e)
    | Ok spec =>
        skip_trust ← from FromJson (value_bool args "skipTrustChecks" false);
        g ← (if (skip_trust : bool) then mret BothPass else gates spec);
        match g with
        | BothPass =>
            '(obs, p) ← plan_spec spec;
            forms ← or_else (earlier_forms (id spec) (digest spec)) [];
            advice ← or_else language_advice [];
            let p := with_advice (forms ++ advice) p in
            wanted ← from FromJson (value_bool args "dryRun" true);
            dry ← (if ok p && wanted then d ← rehearse_plan (o_server_version obs) p; mret (Some d) else mret None);
            let failed := match dry with Some d => match dr_problems d with [] => false | _ => true end | None => false end in
            digest ← from FromDigest (plan_digest sha256 modules p);
            mret (inl {| pa_plan := p; pa_ok := ok p && negb failed; pa_error := failed; pa_dry_run := dry;
                         pa_digest := digest; pa_draft := skip_trust |})
        | g => mret (inr (TrustRefused g))
        end
    end.

(** ** startMigration *)
Inductive StartRefusal : Type :=
  | NoRegistry
  | WrongDatabaseName
  | WrongEnvironmentName
  | ReleaseNotReady
  | NotPlanned (why : PlanRefusal)
  | RehearsalFailed
  | PlanNotOk
  | DraftPlan
  | TooManyJobs
  | SignerRefused (r : Reason)
  | NotRecorded
  | LockConflict.

Record StartedJob : Type := {
  sj_job_id : string;
  sj_spec_id : string;
  sj_spec_digest : string;
  sj_plan_digest : string;
  sj_signer : string;
}.

(** The gates the listing has, made again where a job starts. *)
Definition target_refused (spec : Spec) (st : View) : option StartRefusal :=
  if negb (String.eqb (target_database spec) "") && negb (String.eqb (v_database st) "")
     && negb (String.eqb (target_database spec) (v_database st)) then Some WrongDatabaseName
  else if negb (String.eqb (target_environment spec) "") && negb (String.eqb (target_environment spec) (v_environment st))
  then Some WrongEnvironmentName
  else if negb (String.eqb (release spec) "") && bool_decide (release spec ∉ releases_ready st) then Some ReleaseNotReady
  else None.

Definition target_named (spec : Spec) : bool :=
  negb (String.eqb (target_database spec) "") || negb (String.eqb (target_environment spec) "") || negb (String.eqb (release spec) "").

(** The first [try]: a specification that does not parse is left to the plan. *)
Definition check_target (args : json) : Call W (option StartRefusal) :=
  match parse_spec sha256 (at_key args "spec") with
  | Ok spec => if target_named spec then st ← read_status; mret (target_refused spec st) else mret None
  | Err (Refused _) => mret None
  | Err e => throw (FromSpec e)
  end.

(** After the plan: the limit, the signer once more, the ledger's rows, the locks. *)
Definition open_and_start (args : json) (planned : PlanAnswer) : Call W (StartedJob + StartRefusal) :=
  _ ← or_else reconcile_dead_jobs tt;
  running ← gets running_count;
  if pc_max_concurrent_jobs cfg <=? running then mret (inr TooManyJobs)
  else
    spec ← from FromSpec (parse_spec sha256 (at_key args "spec"));
    trusted ← read_trusted;
    let signer := verify_signer trusted spec in
    if negb (verified signer) then mret (inr (SignerRefused (reason signer)))
    else
      job ← does create_job;
      keys ← from FromSpec (lock_keys spec);
      row ← attempt (write_migration spec (check_key_id signer));
      match row with
      | None => _ ← update (fail_job job); mret (inr NotRecorded)
      | Some row =>
          opened ← open_job job row (pa_plan planned) (pa_digest planned) keys;
          if (opened : bool) then
            _ ← update (start_worker job);
            mret (inl {| sj_job_id := job; sj_spec_id := id spec; sj_spec_digest := digest spec;
                         sj_plan_digest := pa_digest planned; sj_signer := check_key_id signer |})
          else _ ← update (fail_job job); mret (inr LockConflict)
      end.

Definition start_migration (has_registry : bool) (args : json) : Call W (StartedJob + StartRefusal) :=
  if negb has_registry then mret (inr NoRegistry)
  else
    target ← check_target args;
    match target with
    | Some why => mret (inr why)
    | None =>
        planned ← plan_migration_tool args;
        match planned with
        | inr why => mret (inr (NotPlanned why))
        | inl a =>
            if pa_error a then mret (inr RehearsalFailed)
            else if negb (pa_ok a) then mret (inr PlanNotOk)
            else if pa_draft a then mret (inr DraftPlan)
            else open_and_start args a
        end
    end.
End Tools.

(** The loop's state where it ends, by an exception too: [skipped_any] is the caller's. *)
Fixpoint rehearse_kept {W} `{Transaction W} (server_version : Z) (steps : list RehearsalStep) (l : Loop) (w : W) : Loop :=
  match steps with
  | [] => l
  | s :: rest =>
      match rehearse_step server_version s steps l w with
      | (inl (Some _, l'), _) => l'
      | (inl (None, l'), w') => rehearse_kept server_version rest l' w'
      | (inr _, _) => l
      end
  end.

Record Link : Type := { ln_server_version : Z; ln_skipped_any : bool }.

(** What the rehearsal holds, by connection, beside the world. *)
Record Chain (W : Type) : Type := { ch_world : W; ch_links : gmap string Link }.
Arguments ch_world {W} _.
Arguments ch_links {W} _.

Class Linked (W : Type) : Type := {
  linked_host :: Host W;
  (** The session of a connection. *)
  link_transaction : string -> Transaction W;
  (** A session, begun, with its server's version. *)
  open_link : string -> Call W Z;
  observe_in : string -> Z -> list string -> list string -> list string -> Call W Observations;
  (** The rollback of a session; what it throws is dropped. *)
  rollback_link : string -> W -> W;
}.

Inductive ChainAnswer : Type :=
  | ChainSpecRefused (e : spec_error)
  | ChainTrustRefused (g : GateAnswer)
  | ChainNotPlanned
  | ChainConflicts (p : Plan)
  | ChainRehearsed (p : Plan) (d : DryRun)
  | ChainFailed (p : Plan) (d : DryRun)
  | ChainIncomplete (p : Plan) (d : DryRun) (timed_out : bool).

Section Chained.
Context {W : Type} `{Linked W, OpenSSL, Modules, Bodies, Vendors, Printing, OtherRules}.
Variables (policy : TrustPolicy) (cfg : PlannerConfig).

(** A call on the world alone. *)
Definition outside {A} (m : Call W A) : Call (Chain W) A := fun c =>
  let '(r, w) := m (ch_world c) in (r, {| ch_world := w; ch_links := ch_links c |}).

(** On the session of a connection. *)
Definition in_session {A} (m : Act W A) : Call (Chain W) A :=
  outside (fun w => match m w with (inl a, w') => (inl a, w') | (inr e, w') => (inr (FromServer e), w') end).

Definition statement (name sql : string) : Call (Chain W) unit :=
  in_session (@execute W (link_transaction name) sql).

Definition set_link (name : string) (k : Link) : Call (Chain W) unit :=
  update (fun c => {| ch_world := ch_world c; ch_links := <[name := k]> (ch_links c) |}).

Definition link_for (name : string) : Call (Chain W) Link := fun c =>
  match ch_links c !! name with
  | Some k => (inl k, c)
  | None => (version ← outside (open_link name);
             let k := {| ln_server_version := version; ln_skipped_any := false |} in
             _ ← set_link name k; mret k) c
  end.

Definition undo (name : string) : Call (Chain W) unit :=
  _ ← statement name "ROLLBACK TO SAVEPOINT laswell_chain_spec";
  statement name "RELEASE SAVEPOINT laswell_chain_spec".

(** [rehearse_steps] with the link's [skipped_any], which is left where it got to. *)
Definition rehearse_on (name : string) (k : Link) (steps : list RehearsalStep) : Call (Chain W) (Rehearsal * Loop) := fun c =>
  let version := ln_server_version k in
  let d := ran true "" no_dry_run in
  let l := {| lp_found := d; lp_skipped_any := ln_skipped_any k; lp_skipped_unchecked := ln_skipped_any k |} in
  let kept := @rehearse_kept W (link_transaction name) version steps l (ch_world c) in
  let k' := {| ln_server_version := version; ln_skipped_any := lp_skipped_any kept |} in
  let '(r, c') := in_session (@rehearse_steps W (link_transaction name) version steps d (ln_skipped_any k)) c in
  (r, {| ch_world := ch_world c'; ch_links := <[name := k']> (ch_links c') |}).

(** The [try]: observed through the transaction, planned, rehearsed. *)
Definition rehearse_planned (name : string) (k : Link) (spec : Spec) : Call (Chain W) ChainAnswer :=
  '(schemas, tables, keys) ← from FromSpec (observation_targets spec);
  obs ← outside (observe_in name (ln_server_version k) schemas tables keys);
  match plan_migration spec obs cfg with
  | None => throw (OtherError "a rule threw")
  | Some p =>
      if negb (ok p) then _ ← undo name; mret (ChainConflicts p)
      else
        '(result, l) ← rehearse_on name k (rehearsal_inputs p true);
        let d := note_all (fst <$> elsewhere p true) (lp_found l) in
        match result with
        | kOk => _ ← statement name "RELEASE SAVEPOINT laswell_chain_spec"; mret (ChainRehearsed p d)
        | kFailed => _ ← undo name; mret (ChainFailed p d)
        | kTimedOut => _ ← undo name; mret (ChainIncomplete p d true)
        | kGap => _ ← undo name; mret (ChainIncomplete p d false)
        end
  end.

Definition rehearse_spec (name : string) (k : Link) (spec : Spec) : Call (Chain W) ChainAnswer :=
  _ ← statement name "SAVEPOINT laswell_chain_spec";
  planned ← attempt (rehearse_planned name k spec);
  match planned with
  | Some a => mret a
  | None => _ ← undo name; mret ChainNotPlanned
  end.

Definition rehearse (doc : json) (name : string) : Call (Chain W) ChainAnswer :=
  match parse_spec sha256 doc with
  | Err (Refused what) => mret (ChainSpecRefused (Refused what))
  | Err e => throw (FromSpec e)
  | Ok spec =>
      g ← outside (gates policy spec);
      match g with
      | BothPass => k ← link_for name; rehearse_spec name k spec
      | g => mret (ChainTrustRefused g)
      end
  end.

(** [end], the destructor's too. *)
Definition end_chain (c : Chain W) : Chain W :=
  {| ch_world := foldl (fun w name => rollback_link name w) (ch_world c) (sort_by string_leb (fst <$> map_to_list (ch_links c)));
     ch_links := ∅ |}.
End Chained.
