(* ===== verification/SecurityFacts.v ===== *)
(** * SecurityFacts: security changes planned again, and which privileges a column list limits

    What a specification finds when its policies, triggers and flags are as it wants
    them, and where a change of row security is never done. In GRANT and REVOKE a column
    list belongs to the one privilege it is written after, as PostgreSQL documents; the
    planner writes it once, after all of them. *)
From S2P Require Import Prelude Json Canonical Spec Quote RowSql Plan Planner Indexes RowPlan Dml AddColumn Views Tables Objects Security Migration MigrationFacts MigrationRuns TableFacts SpecFacts Intents VendorKinds IntentFacts.

(** What the forms of ALTER TABLE do to a table's two flags, as PostgreSQL documents. *)
Definition rls_after (flags : bool * bool) (q : Stmt) : bool * bool :=
  match q with
  | RowSecurity _ RlsEnable => (true, flags.2)
  | RowSecurity _ RlsDisable => (false, flags.2)
  | RowSecurity _ RlsForce => (flags.1, true)
  | RowSecurity _ RlsNoForce => (flags.1, false)
  | _ => flags
  end.

Definition rls_run (sql : list Stmt) (flags : bool * bool) : bool * bool := foldl rls_after flags sql.

Definition with_flags (flags : bool * bool) (o : Observations) (q : string) : Observations :=
  with_tables (<[q := with_row_security flags.1 flags.2 (table_obs o q)]> (o_tables o)) o.

Section Settles.
Context `{Vendors, Printing, OtherRules}.

(** Row security, against what the statements leave of the flags. *)
Lemma row_security_planned_again i t s :
  e_steps (plan_set_row_security i t) = [s] -> st_action s = kApply ->
  let after := rls_run (st_sql s) (t_row_security t) in
  verdict (plan_set_row_security i (with_row_security after.1 after.2 t)) = [kSatisfied]
  <-> bbool i "enabled" false = true \/ (t_row_security t).2 = bbool i "force" false.
Proof.
  unfold plan_set_row_security. cbn [with_row_security t_row_security fst snd]. destruct (t_row_security t) as [e f].
  cbn [fst snd]. destruct (bbool i "enabled" false), (bbool i "force" false), e, f; cbn;
    intros [= <-]; try done; intros _; cbn; intuition congruence.
Qed.

(** C38: Policies and triggers that have been created or dropped, and triggers that have
    been enabled or disabled, are known again: planned against the catalog an accepted
    step leaves, the same intent is satisfied. Row security is too, where it is enabled;
    where it is disabled, only if the table is forced already as the specification says,
    since disabling leaves FORCE as it is while the comparison asks for both: otherwise
    the step is planned, and applied, every time. *)
Theorem security_changes_settle i o s :
  in_table i <> "" -> e_steps (plan_security i o) = [s] -> st_action s = kApply ->
  match kind i with
  | kCreatePolicy | kDropPolicy | kCreateTrigger | kDropTrigger | kSetTriggerState =>
      verdict (plan_security i (project i s o)) = [kSatisfied]
  | kSetRowSecurity =>
      let before := t_row_security (table_obs o (in_qualified i)) in
      verdict (plan_security i (with_flags (rls_run (st_sql s) before) o (in_qualified i))) = [kSatisfied]
      <-> bbool i "enabled" false = true \/ before.2 = bbool i "force" false
  | _ => True
  end.
Proof.
  intros Htable Hs Ha. set (q := in_qualified i). set (t := table_obs o q).
  destruct (t_exists t) eqn:Ht.
  2: { unfold plan_security in Hs. fold q t in Hs. rewrite Ht in Hs. destruct (kind i); try done; cbn in Hs; injection Hs as <-; done. }
  pose proof (table_is_read o q Ht) as Hq. unfold plan_security in Hs. fold q t in Hs. rewrite Ht in Hs. cbn [negb andb] in Hs.
  destruct (kind i) eqn:Hk; try done;
    try (rewrite (project_reaches_table i s o t) by (first [done | unfold names_configuration; by rewrite Hk | by rewrite Hk]));
    unfold plan_security, table_obs; rewrite Hk; unfold project_table; rewrite ?Hk; fold q; cbn [o_tables with_tables];
    rewrite ?lookup_insert_eq; cbn [default from_option Datatypes.id].
  - unfold with_flags. cbn [o_tables with_tables]. rewrite lookup_insert_eq. cbn [default from_option Datatypes.id].
    change (t_exists (with_row_security ?a ?b ?t)) with (t_exists t). fold t. rewrite Ht. cbn [negb andb] in Hs |- *.
    by apply row_security_planned_again.
  - change (t_exists (with_policies ?a ?t)) with (t_exists t). rewrite Ht. cbn [negb andb].
    unfold plan_create_policy. cbn [with_policies t_policies]. by rewrite bool_decide_eq_true_2 by set_solver.
  - change (t_exists (with_policies ?a ?t)) with (t_exists t). rewrite Ht. cbn [negb andb].
    unfold plan_drop_policy. cbn [with_policies t_policies]. by rewrite bool_decide_eq_false_2 by set_solver.
  - change (t_exists (with_triggers ?a ?t)) with (t_exists t). rewrite Ht. cbn [negb andb].
    unfold plan_set_trigger_state. cbn [with_triggers t_triggers]. by rewrite lookup_insert_eq, Bool.eqb_reflx.
  - change (t_exists (with_triggers ?a ?t)) with (t_exists t). rewrite Ht. cbn [negb andb].
    unfold plan_create_trigger. cbn [with_triggers t_triggers]. by rewrite lookup_insert_eq, bool_decide_eq_true_2.
  - change (t_exists (with_triggers ?a ?t)) with (t_exists t). rewrite Ht. cbn [negb andb].
    unfold plan_drop_trigger. cbn [with_triggers t_triggers]. rewrite lookup_delete_eq, bool_decide_eq_false_2; [done|by intros [? ?]].
Qed.
End Settles.

(** ** Concrete changes *)
Definition rls_intent (enabled force : bool) : Intent :=
  demo_intent kSetRowSecurity "set_row_security" 0 [("enabled", JBool enabled); ("force", JBool force)].

Definition forced_table : TableObs := with_row_security true true (demo_table "table" []).

(** [security_changes_settle] on a policy, and on row security disabled on a table that
    stays forced. *)
Lemma security_changes_settle_witness :
  let o := demo_obs forced_table in
  let policy := demo_intent kCreatePolicy "create_policy" 0 [("name", JStr "mine"); ("using", JStr "true")] in
  let off := rls_intent false false in
  verdict (plan_security policy (@project no_vendors demo_printing one_statement policy
             (default (new_step "") (head (e_steps (plan_security policy o)))) o)) = [kSatisfied]
  /\ verdict (plan_security off (with_flags (rls_run [RowSecurity "app.orders" RlsDisable] (true, true)) o "app.orders")) <> [kSatisfied].
Proof.
  intros o policy off. split.
  - destruct (e_steps (plan_security policy o)) as [|s [|? ?]] eqn:Hs; [vm_compute in Hs; discriminate| |vm_compute in Hs; discriminate].
    assert (st_action s = kApply) as Ha by (vm_compute in Hs; injection Hs as <-; reflexivity).
    exact (@security_changes_settle no_vendors demo_printing one_statement policy o s (ltac:(vm_compute; discriminate)) Hs Ha).
  - destruct (e_steps (plan_security off o)) as [|s [|? ?]] eqn:Hs; [vm_compute in Hs; discriminate| |vm_compute in Hs; discriminate].
    assert (st_action s = kApply /\ st_sql s = [RowSecurity "app.orders" RlsDisable]) as [Ha Hq]
      by (vm_compute in Hs; injection Hs as <-; by split).
    pose proof (@security_changes_settle no_vendors demo_printing one_statement off o s (ltac:(vm_compute; discriminate)) Hs Ha) as Hsettle.
    cbv beta iota zeta in Hsettle. change (kind off) with kSetRowSecurity in Hsettle. cbv iota in Hsettle. rewrite Hq in Hsettle.
    intros Hv. apply Hsettle in Hv as [Hv|Hv]; vm_compute in Hv; discriminate.
Defined.

(** ** The privileges of a statement, as the server reads them

    Items are separated by commas outside brackets and quoted names; ON ends them. *)
Definition push (c : ascii) (l : list string) : list string :=
  match l with [] => [string_of_char c] | x :: l' => String c x :: l' end.

Definition push_all (w : string) (l : list string) : list string :=
  match l with [] => [w] | x :: l' => (w +:+ x) :: l' end.

Fixpoint grant_items (quoted bracket : bool) (s : string) : list string :=
  match s with
  | EmptyString => [""]
  | String c s' =>
      if quoted then push c (grant_items (negb (Ascii.eqb c dquote)) bracket s')
      else if Ascii.eqb c dquote then push c (grant_items true bracket s')
      else if bracket then push c (grant_items false (negb (Ascii.eqb c ")")) s')
      else if String.prefix " ON " s then [""]
      else if Ascii.eqb c "," then "" :: grant_items false false s'
      else push c (grant_items false (Ascii.eqb c "(") s')
  end.

Fixpoint no_blanks (s : string) : string :=
  match s with
  | EmptyString => ""
  | String c s' => if Ascii.eqb c " " then no_blanks s' else String c (no_blanks s')
  end.

(** A privilege and the columns it is limited to. *)
Definition grant_item (x : string) : string * option string :=
  match split_first "(" x with
  | None => (no_blanks x, None)
  | Some (w, columns) => (no_blanks w, Some columns)
  end.

Definition granted (sql : string) : list (string * option string) :=
  match split_first " " sql with None => [] | Some (_, r) => grant_item <$> grant_items false false (" " +:+ r) end.

(** ** Reading what is written *)
Lemma push_all_cons c w l : push_all (String c w) l = push c (push_all w l).
Proof. by destruct l. Qed.

Lemma push_all_nil l : l <> [] -> push_all "" l = l.
Proof. by destruct l. Qed.

Lemma grant_items_some q b s : grant_items q b s <> [].
Proof.
  assert (forall c l, push c l <> []) by (by intros c [|]). destruct s; cbn [grant_items]; [done|].
  repeat case_match; auto.
Qed.

Lemma push_all_app a b l : push_all (a +:+ b) l = push_all a (push_all b l).
Proof. destruct l; cbn; [done|]. by rewrite string_app_assoc. Qed.

Lemma items_doubled n s :
  grant_items true true (double_quotes dquote n +:+ s) = push_all (double_quotes dquote n) (grant_items true true s).
Proof.
  induction n as [|c n IH]; [by rewrite push_all_nil by apply grant_items_some|].
  cbn [double_quotes]. destruct (Ascii.eqb_spec c dquote) as [->|Hc]; rewrite !string_app_cons, !push_all_cons, <- IH;
    cbn [grant_items]; [done|]. by destruct (Ascii.eqb_spec c dquote).
Qed.

Lemma items_identifier n s :
  grant_items false true (quote_identifier n +:+ s) = push_all (quote_identifier n) (grant_items false true s).
Proof.
  unfold quote_identifier, quote_with. rewrite string_app_cons, push_all_cons, string_app_assoc, push_all_app.
  cbn [grant_items]. change (Ascii.eqb dquote dquote) with true. cbn iota. rewrite items_doubled. f_equal.
Qed.

Lemma items_columns cs s :
  grant_items false true (join ", " (quote_identifier <$> cs) +:+ ")" +:+ s)
  = push_all (join ", " (quote_identifier <$> cs) +:+ ")") (grant_items false false s).
Proof.
  assert (grant_items false true (")" +:+ s) = push_all ")" (grant_items false false s)) as Hend.
  { reflexivity. }
  induction cs as [|c [|c' cs] IH]; [exact Hend| |]; cbn [fmap list_fmap join].
  - by rewrite items_identifier, Hend, push_all_app.
  - cbn [fmap list_fmap join] in IH. rewrite !string_app_assoc, items_identifier, push_all_app. f_equal.
    change (grant_items false true (", " +:+ ?r)) with (push "," (push " " (grant_items false true r))).
    rewrite IH. by rewrite <- !push_all_cons.
Qed.

(** The words of [kPrivs]. *)
Definition privilege_words : list string := List.concat (snd <$> privileges_of).

Ltac each_word w Hw := revert w Hw; apply Forall_forall; vm_compute (privilege_words); repeat (apply List.Forall_nil || apply List.Forall_cons).

Lemma items_blank_word w s :
  w ∈ privilege_words -> grant_items false false (" " +:+ w +:+ s) = push_all (" " +:+ w) (grant_items false false s).
Proof.
  intros Hw. each_word w Hw;
    by rewrite ?string_app_cons, ?string_app_nil_l, !push_all_cons, push_all_nil by apply grant_items_some.
Qed.

Lemma items_join privs last s :
  Forall (.∈ privilege_words) (privs ++ [last]) ->
  grant_items false false (" " +:+ join ", " (privs ++ [last]) +:+ s)
  = ((fun p => " " +:+ p) <$> privs) ++ push_all (" " +:+ last) (grant_items false false s).
Proof.
  induction privs as [|p privs IH]; cbn [app fmap list_fmap]; intros Hw.
  - apply items_blank_word. by apply Forall_inv in Hw.
  - apply Forall_cons in Hw as [Hp Hw]. specialize (IH Hw).
    assert (join ", " (p :: privs ++ [last]) = p +:+ ", " +:+ join ", " (privs ++ [last])) as -> by (by destruct privs).
    rewrite !string_app_assoc, items_blank_word by done.
    change (grant_items false false (", " +:+ ?r)) with ("" :: grant_items false false (" " +:+ r)).
    rewrite IH. cbn [push_all]. by rewrite string_app_nil_r.
Qed.

Lemma item_of_word w : w ∈ privilege_words -> grant_item (" " +:+ w) = (w, None).
Proof. intros Hw. by each_word w Hw. Qed.

Lemma item_of_columns w columns :
  w ∈ privilege_words -> grant_item (" " +:+ w +:+ " (" +:+ columns) = (w, Some columns).
Proof. intros Hw. by each_word w Hw. Qed.

(** The privileges the parser lets through are words of the list. *)
Lemma allowed_word ot allowed v :
  (ot, allowed) ∈ privileges_of -> one_of allowed v = true -> exists w, v = JStr w /\ w ∈ privilege_words.
Proof.
  intros Hin Hv. unfold one_of in Hv. apply List.existsb_exists in Hv as (w & Hw & Hv).
  destruct v; try discriminate. apply String.eqb_eq in Hv as ->. exists w. split; [done|].
  apply list_elem_of_In, List.in_concat. exists allowed. split; [|done].
  apply list_elem_of_In, list_elem_of_fmap. by exists (ot, allowed).
Qed.

Lemma accepted_words i granting :
  parse_grant_like (body i) granting = Ok tt ->
  Forall (.∈ privilege_words) (bstrs i "privileges") /\ bstrs i "privileges" <> [].
Proof.
  intros H. unfold parse_grant_like in H. ok_inv.
  destruct (List.find _ _) as [[ot allowed]|] eqn:Hf; [|done]. apply List.find_some in Hf as [Hin _]. ok_inv.
  match goal with H : non_empty_array _ "privileges" = Ok ?l, H' : each _ ?l = _ |- _ =>
    apply non_empty_array_Ok in H as [Hl Hne]; apply each_Ok in H'; rename H' into Hall, l into vs end.
  unfold bstrs. rewrite Hl. cbn [elements].
  assert (Forall (fun v => exists w, v = JStr w /\ w ∈ privilege_words) vs) as Hws.
  { eapply Forall_impl; [exact Hall|]. intros v Hv. eapply allowed_word; [by apply list_elem_of_In|].
    cbv beta in Hv. destruct (one_of allowed v); [done|discriminate Hv]. }
  split.
  - clear -Hws. induction Hws as [|v vs (w & -> & Hw) _ IH]; [constructor|]. csimpl. by constructor.
  - destruct Hws as [|v vs' (w & -> & Hw) _]; done.
Qed.

(** ** What a grant with columns grants *)
Lemma items_end rest : grant_items false false (" ON " +:+ rest) = [""].
Proof. by destruct rest. Qed.

Definition limit_sql (columns : option (list string)) : string :=
  match columns with Some cs => " (" +:+ join ", " (quote_identifier <$> cs) +:+ ")" | None => "" end.

Lemma granted_reads verb privs last columns rest :
  has_char " " verb = false -> Forall (.∈ privilege_words) (privs ++ [last]) ->
  granted (verb +:+ " " +:+ join ", " (privs ++ [last]) +:+ limit_sql columns +:+ " ON " +:+ rest)
  = ((fun p => (p, None)) <$> privs)
    ++ [(last, (fun cs => join ", " (quote_identifier <$> cs) +:+ ")") <$> columns)].
Proof.
  intros Hv Hw. unfold granted. rewrite (string_app_cons " " ""), string_app_nil_l, split_first_app by done.
  rewrite items_join, fmap_app by done.
  apply Forall_app in Hw as [Hps [Hlast _]%Forall_cons]. f_equal.
  - clear -Hps. induction Hps as [|p ps Hp _ IH]; [done|]. csimpl. by rewrite IH, item_of_word.
  - destruct columns as [cs|]; cbn [limit_sql].
    + rewrite !string_app_assoc. change (grant_items false false (" (" +:+ ?r)) with (push " " (push "(" (grant_items false true r))).
      rewrite items_columns. rewrite items_end.
      cbn [push_all push]. rewrite string_app_nil_r. csimpl. f_equal. 
      by rewrite <- item_of_columns by done.
    + rewrite string_app_nil_l. rewrite items_end.
      cbn [push_all]. rewrite string_app_nil_r. csimpl. by rewrite item_of_word.
Qed.

(** Of the privileges an accepted grant or revoke names, the statement written for
    it, as the server reads it, limits the last one to the columns of the specification
    and takes every other for the whole table: columns limit all of them only where there
    is one. Without columns each is for the whole table, as it should be. *)
Theorem columns_limit_the_last_privilege i o s :
  kind i = kGrant \/ kind i = kRevoke -> parse_grant_like (body i) (bool_decide (kind i = kGrant)) = Ok tt ->
  e_steps (plan_security i o) = [s] ->
  exists privs last sql,
    bstrs i "privileges" = privs ++ [last] /\ render <$> st_sql s = [sql]
    /\ granted sql = ((fun p => (p, None)) <$> privs)
                     ++ [(last, if contains (body i) "columns"
                                then Some (join ", " (quote_identifier <$> bstrs i "columns") +:+ ")") else None)].
Proof.
  intros Hk Hp%accepted_words Hs. destruct Hp as [Hw Hne]. destruct (exists_last Hne) as (privs & last & Hl). rewrite Hl in Hw.
  assert (plan_security i o = plan_grant i) as Hg by (unfold plan_security; by destruct Hk as [-> | ->]).
  rewrite Hg in Hs. unfold plan_grant in Hs. injection Hs as <-. exists privs, last. eexists. split; [done|]. split; [done|].
  pose proof (granted_reads (if bool_decide (kind i = kGrant) then "GRANT" else "REVOKE") privs last
                (if contains (body i) "columns" then Some (bstrs i "columns") else None)) as Hr.
  cbn [render]. rewrite Hl. destruct (bool_decide (kind i = kGrant)), (contains (body i) "columns"); exact (Hr _ eq_refl Hw).
Qed.

(** ** A grant to read and change one column *)
Definition demo_grant : Intent :=
  {| kind := kGrant; kind_name := "grant"; ordinal := 0;
     body := JObj [("schema", JStr "shop"); ("table", JStr "customers");
                   ("privileges", JArr [JStr "SELECT"; JStr "UPDATE"]);
                   ("columns", JArr [JStr "email"]); ("to", JArr [JStr "support"])] |}.

Lemma columns_limit_the_last_privilege_witness :
  exists s sql, e_steps (plan_security demo_grant (demo_obs (demo_table "table" []))) = [s] /\ render <$> st_sql s = [sql]
    /\ granted sql = [("SELECT", None); ("UPDATE", Some (quote_identifier "email" +:+ ")"))].
Proof.
  set (o := demo_obs _). destruct (e_steps (plan_security demo_grant o)) as [|s [|? ?]] eqn:Hs; [vm_compute in Hs; discriminate| |vm_compute in Hs; discriminate].
  destruct (columns_limit_the_last_privilege demo_grant o s (or_introl eq_refl) eq_refl Hs) as (privs & last & sql & Hp & Hq & Hg).
  exists s, sql. split; [done|]. split; [done|]. rewrite Hg.
  assert (privs = ["SELECT"] /\ last = "UPDATE") as [-> ->]; [|reflexivity].
  apply (app_inj_2 ["SELECT"] privs ["UPDATE"] [last]) in Hp as [<- [= <-]]; done.
Defined.
