(* ===== verification/AlterFacts.v ===== *)
(** * AlterFacts: objects changed in place, and where the change is not what was asked

    An intent that renames an object and changes more of it names the object by its old
    name throughout, so that it is never applied; a condition that is met early hides
    the rest of the intent. Which statements on a subscription PostgreSQL refuses inside a
    transaction block, as it documents, and which steps the planner puts outside one. The
    statements chosen for each token type of a text search configuration are ones the
    server accepts, leave the mapping of the specification, and are not chosen again. *)
From S2P Require Import Prelude Json Canonical Spec Quote RowSql Plan Planner Indexes RowPlan Dml AddColumn Views Tables Objects Security Replication Alter Physical Extras Intents Migration MigrationFacts MigrationRuns TableFacts TextSearch.

(** ** Objects known by name

    What PostgreSQL documents of ALTER: it fails where no object has the name it is
    given, and a rename that succeeds leaves none of the old name (to the name it has
    an object is not renamed). A statement may fail for any other reason. *)
Class NamedServer : Type := {
  objects : Type;
  named : string -> string -> objects -> Prop;   (** An object of a type and a name. *)
  alter : Stmt -> objects -> option objects;
  missing_fails : forall what target c d, ~ named what target d -> alter (AlterNamed what target c) d = None;
  renamed_away : forall what target to d d', alter (AlterNamed what target (RenameTo to)) d = Some d' -> ~ named what target d';
}.

Fixpoint alter_all `{NamedServer} (sql : list Stmt) (d : objects) : option objects :=
  match sql with
  | [] => Some d
  | q :: rest => d' ← alter q d; alter_all rest d'
  end.

Definition moves (c : NamedChange) : bool := match c with RenameTo _ | SetSchema _ => true | _ => false end.

(** Whether a change that moves the object is followed by another. *)
Fixpoint moves_early (cs : list NamedChange) : bool :=
  match cs with
  | [] => false
  | c :: rest => match rest with [] => false | _ => moves c || moves_early rest end
  end.

Lemma early_move cs before c after :
  moves_early cs = false -> cs = before ++ c :: after -> after <> [] -> moves c = false.
Proof.
  intros Hm -> Ha. induction before as [|b before IH].
  - cbn [app moves_early] in Hm. destruct after; [done|]. by apply orb_false_iff in Hm as [? _].
  - apply IH. cbn [app moves_early] in Hm. destruct (before ++ c :: after) eqn:He; [by destruct before|].
    by apply orb_false_iff in Hm as [_ ?].
Qed.

(** A rename with more after it, by the old name. *)
Lemma renamed_first `{NamedServer} what target to c cs d :
  alter_all (AlterNamed what target <$> RenameTo to :: c :: cs) d = None.
Proof.
  cbn [fmap list_fmap alter_all]. destruct (alter (AlterNamed what target (RenameTo to)) d) as [d'|] eqn:Ha; [|done].
  cbn [mbind option_bind]. by rewrite missing_fails by (by eapply renamed_away).
Qed.

(** ** The statements of the kinds that rename *)
Definition alter_target (i : Intent) : string :=
  match kind i with
  | kAlterSchema => quote_identifier (object_schema i)
  | kAlterFunction => function_signature i
  | kAlterObject => raw_target i
  | _ => object_qualified i
  end.

(** What else than a rename an intent of the kind may ask for. *)
Definition other_changes (k : IntentKind) : list string :=
  match k with
  | kAlterSequence => ["increment"; "restart"; "owned_by"]
  | kAlterSchema => ["owner"]
  | kAlterFunction => ["owner"; "search_path"; "volatility"]
  | kAlterView => ["owner"; "options"]
  | kAlterObject => ["owner"; "set_schema"]
  | _ => []
  end.

Definition renaming_statements (i : Intent) : list NamedChange :=
  match kind i with
  | kAlterSequence => sequence_statements i
  | kAlterSchema => schema_statements i
  | kAlterFunction => function_statements i
  | kAlterView => view_statements i
  | kAlterObject => object_statements i
  | _ => []
  end.

(** The rule of the kind. *)
Definition plan_renaming (i : Intent) (o : Observations) : option Emitted :=
  match kind i with
  | kAlterObject => fst <$> plan_final_kinds i o
  | _ => plan_alter_misc i o
  end.

Definition renaming_kind (k : IntentKind) : bool := match other_changes k with [] => false | _ => true end.

Lemma renaming_sql i o e s :
  renaming_kind (kind i) = true -> plan_renaming i o = Some e -> e_steps e = [s] -> st_action s = kApply ->
  exists what, st_sql s = AlterNamed what (alter_target i) <$> renaming_statements i.
Proof.
  unfold plan_renaming, renaming_statements, alter_target. destruct (kind i) eqn:Hk; try discriminate; intros _;
    unfold plan_alter_misc, plan_final_kinds; rewrite Hk;
    unfold plan_alter_sequence, plan_alter_schema, plan_alter_function, plan_alter_view;
    repeat (case_match; try discriminate); intros [= <-]; intros [= <-]; try discriminate; intros _; eexists; reflexivity.
Qed.

Lemma renames_early i :
  renaming_kind (kind i) = true ->
  moves_early (renaming_statements i) = contains (body i) "to" && some_of (body i) (other_changes (kind i)).
Proof.
  unfold renaming_statements. destruct (kind i); try discriminate; intros _;
    unfold sequence_statements, schema_statements, function_statements, view_statements, object_statements, given_change, some_of;
    unfold sequence_changes; cbn [other_changes existsb]; repeat case_match; try done; simplify_eq.
Qed.

(** With a new name and something else, the rename comes first. *)
Lemma rename_comes_first i :
  renaming_kind (kind i) = true -> contains (body i) "to" = true -> some_of (body i) (other_changes (kind i)) = true ->
  exists to c cs, renaming_statements i = RenameTo to :: c :: cs.
Proof.
  intros Hk Hto Ho. pose proof (renames_early i Hk) as He. rewrite Hto, Ho in He.
  assert (exists to cs, renaming_statements i = RenameTo to :: cs) as (to & cs & Hcs).
  { unfold renaming_statements in *. destruct (kind i); try discriminate;
      unfold sequence_statements, schema_statements, function_statements, view_statements, object_statements, given_change;
      rewrite Hto; eauto. }
  rewrite Hcs in He |- *. destruct cs as [|c cs]; [done|]. by exists to, c, cs.
Qed.


(** ** Changes that are not made *)

(** An extension that has the version asked for stays in its schema, whatever schema is
    asked for. *)
Lemma same_version_hides_the_schema i o :
  kind i = kAlterExtension -> texts_given i ["schema"; "name"; "table"] = true -> texts_given i ["version"] = true ->
  contains (body i) "version" = true ->
  let x := object_obs o ("extension:" +:+ object_name i) in
  ob_exists x = true -> ob_version x = Some (bstr i "version" "") ->
  exists e, plan_alter_misc i o = Some e /\ verdict e = [kSatisfied] /\ (st_sql <$> e_steps e) = [[]].
Proof.
  intros Hk Ht Hv Hc x Hx Hver. unfold plan_alter_misc, plan_alter_extension. subst x. rewrite Hk, Ht, Hx, Hv, Hc, Hver.
  cbn. rewrite String.eqb_refl. eexists. repeat split.
Qed.

(** With a check to add, nothing else of the intent is planned. *)
Lemma added_check_hides_the_rest i j o :
  contains (body i) "add_check" = true -> kind i = kAlterDomain -> kind j = kind i -> kind_name j = kind_name i ->
  contains (body j) "add_check" = true -> object_qualified j = object_qualified i ->
  texts_given i ["schema"; "name"; "table"] = texts_given j ["schema"; "name"; "table"] ->
  bstr i "add_check" "" = bstr j "add_check" "" -> bstr i "constraint_name" "" = bstr j "constraint_name" "" ->
  e_steps <$> plan_alter_misc i o = e_steps <$> plan_alter_misc j o.
Proof.
  intros Hc Hk Hkj Hn Hcj Hq Ht Ha Hcn. unfold plan_alter_misc, plan_alter_domain, add_domain_check, refuse. rewrite Hkj, Hk, Hc, Hcj, Hq, Ht, Ha, Hcn, Hn.
  by repeat case_match.
Qed.

(** Numbers are read as 32-bit integers: a restart beyond them is another number. *)
Definition restart_intent (n : Z) : Intent :=
  {| kind := kAlterSequence; kind_name := "alter_sequence"; ordinal := 0;
     body := JObj [("schema", JStr "shop"); ("name", JStr "order_id"); ("restart", JInt n)] |}.

Lemma large_restart_wraps :
  parse_alter_sequence (body (restart_intent 3000000000)) = Ok tt
  /\ sequence_statements (restart_intent 3000000000) = [ChangeTo " RESTART WITH -1294967296"].
Proof. by vm_compute. Qed.

(** ** A schema renamed and given to another owner *)
Definition schema_intent (b : list (string * json)) : Intent :=
  {| kind := kAlterSchema; kind_name := "alter_schema"; ordinal := 0; body := JObj (("schema", JStr "shop") :: b) |}.

(** The schemas there are, by their quoted names. *)
#[local] Instance schemas_server : NamedServer.
Proof.
  refine {| objects := gset string; named := fun _ target d => target ∈ d;
            alter := fun q d =>
              match q with
              | AlterNamed _ target c =>
                  if bool_decide (target ∈ d) then
                    match c with
                    | RenameTo to => if bool_decide (quote_identifier to ∈ d) then None else Some ({[quote_identifier to]} ∪ d ∖ {[target]})
                    | _ => Some d
                    end
                  else None
              | _ => None
              end |}.
  - intros what target c d Hd. by rewrite bool_decide_eq_false_2.
  - intros what target to d d'. repeat case_bool_decide; try done. intros [= <-]. set_solver.
Defined.

Definition shop_obs : Observations :=
  with_objects {["schema:shop" := {| ob_exists := true; ob_contains := []; ob_depended_on_by := []; ob_version := None;
    ob_available := None; ob_default_version := None; ob_type_kind := ""; ob_enum_labels := []; ob_returns := None;
    ob_created_in_spec := false; ob_text_search := no_text_search |}]} (demo_obs (demo_table "table" [])).


(** CREATE SUBSCRIPTION that makes a slot, DROP SUBSCRIPTION (refused where the
    subscription still has a slot), REFRESH PUBLICATION, and SET
    PUBLICATION, which refreshes unless it is told not to. *)
Definition outside_block (q : Stmt) : bool :=
  match q with
  | Subscription _ (SubCreate _ _ options) => negb (existsb (String.eqb "connect = false") options)
  | Subscription _ (SubSetPublication _) | Subscription _ SubRefresh | Subscription _ SubDrop => true
  | _ => false
  end.

Lemma subscription_options_connect i connect :
  existsb (String.eqb "connect = false") (subscription_options i connect) = negb connect.
Proof.
  unfold subscription_options. rewrite !existsb_app. destruct connect; [|done]. by repeat case_match.
Qed.

(** C36: The step of a publication or subscription is put outside a transaction exactly
    when one of its statements cannot run inside one, except for alter_subscription: its
    step always runs in a transaction, where SET PUBLICATION and REFRESH PUBLICATION are
    refused, so that every intent that names publications or asks for a refresh fails. *)
Theorem subscriptions_run_where_they_can i e pre s :
  plan_replication i = Some (e, pre) -> e_steps e = [s] ->
  match kind i with
  | kAlterSubscription =>
      st_class s = kRequired
      /\ existsb outside_block (st_sql s) = contains (body i) "publications" || bbool i "refresh" false
  | _ => existsb outside_block (st_sql s) = bool_decide (st_class s = kForbidden)
  end.
Proof.
  unfold plan_replication. destruct (kind i) eqn:Hk; repeat (case_match; try discriminate);
    try (intros [= <- <-]; intros [= <-]; done).
  - intros [= <- <-]. intros [= <-]. cbn [st_sql make]. by repeat case_match.
  - unfold plan_create_subscription. case_match; intros [= <- <-]; intros [= <-]; cbn [st_sql make existsb outside_block];
      rewrite subscription_options_connect; done.
  - intros [= <- <-]. intros [= <-]. split; [done|]. cbn [st_sql make]. by repeat case_match.
Qed.

(** ** A subscription that is given other publications *)
Definition demo_subscription : Intent :=
  {| kind := kAlterSubscription; kind_name := "alter_subscription"; ordinal := 0;
     body := JObj [("name", JStr "orders"); ("publications", JArr [JStr "orders_v2"])] |}.

Lemma subscriptions_run_where_they_can_witness :
  parse_subscription (body demo_subscription) false = Ok tt
  /\ exists e pre s, plan_replication demo_subscription = Some (e, pre) /\ e_steps e = [s]
       /\ st_class s = kRequired /\ existsb outside_block (st_sql s) = true.
Proof.
  split; [reflexivity|].
  destruct (plan_replication demo_subscription) as [[e pre]|] eqn:Hp; [|vm_compute in Hp; discriminate].
  destruct (e_steps e) as [|s [|? ?]] eqn:Hs; [vm_compute in Hp; injection Hp as <- <-; discriminate Hs| |vm_compute in Hp; injection Hp as <- <-; discriminate Hs].
  exists e, pre, s. destruct (subscriptions_run_where_they_can demo_subscription e pre s Hp Hs) as [Hc Ho].
  split; [done|]. split; [done|]. split; [done|]. by rewrite Ho.
Defined.

(** ** What the statements do to a mapping, as PostgreSQL documents *)
Definition mapped (mp : gmap string (list string)) (t : string) : list string := default [] (mp !! t).

Definition set_all (tokens ds : list string) (mp : gmap string (list string)) : gmap string (list string) :=
  foldr (fun t => <[t := ds]>) mp tokens.
Definition drop_all (tokens : list string) (mp : gmap string (list string)) : gmap string (list string) :=
  foldr (fun t => delete t) mp tokens.

(** ADD refuses a token type that is mapped, DROP without IF EXISTS one that is not. *)
Definition map_step (mp : gmap string (list string)) (q : Stmt) : option (gmap string (list string)) :=
  match q with
  | TextSearchMapping _ (MapAdd tokens ds) =>
      if forallb (fun t => bool_decide (mapped mp t = [])) tokens then Some (set_all tokens ds mp) else None
  | TextSearchMapping _ (MapAlter tokens ds) => Some (set_all tokens ds mp)
  | TextSearchMapping _ (MapDrop if_exists tokens) =>
      if if_exists || forallb (fun t => bool_decide (mapped mp t <> [])) tokens then Some (drop_all tokens mp) else None
  | _ => Some mp
  end.

Fixpoint map_run (mp : gmap string (list string)) (sql : list Stmt) : option (gmap string (list string)) :=
  match sql with
  | [] => Some mp
  | q :: rest => mp' ← map_step mp q; map_run mp' rest
  end.

Lemma mapped_set_all tokens ds mp t : mapped (set_all tokens ds mp) t = if bool_decide (t ∈ tokens) then ds else mapped mp t.
Proof.
  induction tokens as [|u tokens IH]; [done|]. cbn [set_all foldr]. unfold mapped in *.
  destruct (decide (t = u)) as [->|Hn]; [rewrite lookup_insert_eq|rewrite lookup_insert_ne by done].
  - rewrite bool_decide_eq_true_2; [done|left].
  - fold (set_all tokens ds mp). rewrite IH. repeat case_bool_decide; set_solver.
Qed.

Lemma mapped_drop_all tokens mp t : mapped (drop_all tokens mp) t = if bool_decide (t ∈ tokens) then [] else mapped mp t.
Proof.
  induction tokens as [|u tokens IH]; [done|]. cbn [drop_all foldr]. unfold mapped in *.
  destruct (decide (t = u)) as [->|Hn]; [rewrite lookup_delete_eq|rewrite lookup_delete_ne by done].
  - rewrite bool_decide_eq_true_2; [done|left].
  - fold (drop_all tokens mp). rewrite IH. repeat case_bool_decide; set_solver.
Qed.

(** ** Which statement a token type needs *)
Lemma sorted_tokens known mp want tokens m :
  sort_tokens known mp want tokens = inr m ->
  m_add m = List.filter (fun t => bool_decide (want <> [] /\ mapped mp t = [])) tokens
  /\ m_alter m = List.filter (fun t => bool_decide (want <> [] /\ mapped mp t <> [] /\ mapped mp t <> want)) tokens
  /\ m_drop m = List.filter (fun t => bool_decide (want = [] /\ mapped mp t <> [])) tokens.
Proof.
  revert m. induction tokens as [|t tokens IH]; cbn [sort_tokens]; [by intros m [= <-]|].
  case_match; [|done]. destruct (sort_tokens known mp want tokens) as [|m']; [done|]. intros m [= <-].
  destruct (IH m' eq_refl) as (Ha & Hl & Hd). change (default [] (mp !! t)) with (mapped mp t). cbn [List.filter].
  unfold with_token. destruct want as [|w want], (mapped mp t) as [|h have] eqn:Hh;
    repeat (case_bool_decide; cbn [m_add m_alter m_drop]); rewrite ?Ha, ?Hl, ?Hd; intuition congruence.
Qed.

Definition pass (want : list string) (mp after : gmap string (list string)) (tokens : list string) : Prop :=
  forall t, mapped after t = if bool_decide (t ∈ tokens) then want else mapped mp t.

Lemma run_add sql_config l ds mp rest :
  Forall (fun t => mapped mp t = []) l ->
  map_run mp ((TextSearchMapping sql_config <$> for_tokens (fun l => MapAdd l ds) l) ++ rest)
  = map_run (set_all l ds mp) rest.
Proof.
  intros Hl. destruct l as [|t l]; [done|]. cbn [for_tokens fmap list_fmap app map_run map_step].
  replace (forallb _ _) with true; [done|]. symmetry. apply forallb_forall. intros u Hu.
  apply bool_decide_eq_true_2. rewrite Forall_forall in Hl. by apply Hl, list_elem_of_In.
Qed.

Lemma run_alter sql_config l ds mp rest :
  map_run mp ((TextSearchMapping sql_config <$> for_tokens (fun l => MapAlter l ds) l) ++ rest)
  = map_run (set_all l ds mp) rest.
Proof. by destruct l. Qed.

Lemma run_drop sql_config l mp :
  Forall (fun t => mapped mp t <> []) l ->
  map_run mp (TextSearchMapping sql_config <$> for_tokens (MapDrop false) l) = Some (drop_all l mp).
Proof.
  intros Hl. destruct l as [|t l]; [done|]. cbn [for_tokens fmap list_fmap app map_run map_step].
  replace (false || forallb _ _) with true; [done|]. symmetry. apply forallb_forall. intros u Hu.
  apply bool_decide_eq_true_2. rewrite Forall_forall in Hl. by apply Hl, list_elem_of_In.
Qed.

Lemma elem_kept (f : string -> bool) t l : t ∈ List.filter f l <-> t ∈ l /\ f t = true.
Proof. by rewrite !list_elem_of_In, List.filter_In. Qed.

Lemma bool_decide_kept (f : string -> bool) t l : bool_decide (t ∈ List.filter f l) = bool_decide (t ∈ l) && f t.
Proof.
  destruct (bool_decide (t ∈ l) && f t) eqn:E.
  - apply andb_true_iff in E as [Hl%bool_decide_eq_true Hf]. by apply bool_decide_eq_true, elem_kept.
  - apply bool_decide_eq_false. intros [Hl Hf]%elem_kept. by rewrite bool_decide_eq_true_2, Hf in E.
Qed.

(** The statements of a mapping are accepted, and what they leave is what was asked for. *)
Lemma mapping_run known mp want tokens m sql_config :
  sort_tokens known mp want tokens = inr m ->
  exists after, map_run mp (TextSearchMapping sql_config <$> mapping_statements m want) = Some after /\ pass want mp after tokens.
Proof.
  intros (Ha & Hl & Hd)%sorted_tokens. unfold mapping_statements. rewrite !fmap_app.
  rewrite run_add, run_alter, run_drop.
  - eexists. split; [reflexivity|]. intros t. rewrite mapped_drop_all, !mapped_set_all, Ha, Hl, Hd.
    rewrite !bool_decide_kept. destruct (decide (t ∈ tokens)) as [Ht|Ht];
      [rewrite !(bool_decide_eq_true_2 _ Ht)|rewrite !(bool_decide_eq_false_2 _ Ht); done]. cbn [andb].
    destruct (decide (mapped mp t = want)) as [He|He]; repeat case_bool_decide; intuition; try congruence.
    destruct want, (mapped mp t); intuition congruence.
  - rewrite Hd. apply Forall_forall. intros t [_ [-> Ht]%bool_decide_eq_true]%elem_kept.
    rewrite !mapped_set_all, Ha, Hl. repeat case_bool_decide; try done;
      match goal with H : t ∈ List.filter _ _ |- _ => apply elem_kept in H as [_ [H _]%bool_decide_eq_true]; done end.
  - rewrite Ha. apply Forall_forall. by intros t [_ [_ Ht]%bool_decide_eq_true]%elem_kept.
Qed.

(** A mapping that is as asked for needs no statement. *)
Lemma nothing_to_map known mp want tokens :
  Forall (fun t => existsb (String.eqb t) known = true) tokens -> Forall (fun t => mapped mp t = want) tokens ->
  sort_tokens known mp want tokens = inr {| m_add := []; m_alter := []; m_drop := [] |}.
Proof.
  induction tokens as [|t tokens IH]; [done|]. intros [Hk Hks]%Forall_cons [Hm Hms]%Forall_cons. cbn [sort_tokens].
  rewrite Hk, IH by done. change (default [] (mp !! t)) with (mapped mp t). unfold with_token. by rewrite bool_decide_eq_true_2.
Qed.

Lemma tokens_known known mp want tokens m :
  sort_tokens known mp want tokens = inr m -> Forall (fun t => existsb (String.eqb t) known = true) tokens.
Proof.
  revert m. induction tokens as [|t tokens IH]; [done|]. cbn [sort_tokens]. intros m. case_match; [|done].
  destruct (sort_tokens known mp want tokens) as [|m']; [done|]. intros _. constructor; [done|]. by eapply IH.
Qed.

(** ** The catalog after the step *)
Definition with_text_mapping (after : gmap string (list string)) (x : ObjectObs) : ObjectObs :=
  {| ob_exists := ob_exists x; ob_contains := ob_contains x; ob_depended_on_by := ob_depended_on_by x;
     ob_version := ob_version x; ob_available := ob_available x; ob_default_version := ob_default_version x;
     ob_type_kind := ob_type_kind x; ob_enum_labels := ob_enum_labels x; ob_returns := ob_returns x;
     ob_created_in_spec := ob_created_in_spec x;
     ob_text_search :=
       {| ts_dictionaries := ts_dictionaries (ob_text_search x); ts_tokens := ts_tokens (ob_text_search x);
          ts_mapping := after; ts_indexes := ts_indexes (ob_text_search x);
          ts_other_dependents := ts_other_dependents (ob_text_search x) |} |}.

Definition mapping_key (i : Intent) : string := "tsconfig:" +:+ object_qualified i.

Definition after_mapping (i : Intent) (after : gmap string (list string)) (o : Observations) : Observations :=
  put_object (mapping_key i) (with_text_mapping after (object_obs o (mapping_key i))) o.

Lemma created_here o :
  extension_created_here o = true
  <-> exists k x, o_objects o !! k = Some x /\ String.prefix "extension:" k && ob_created_in_spec x = true.
Proof.
  unfold extension_created_here. rewrite List.existsb_exists. split.
  - intros ([k x] & Hin%list_elem_of_In%elem_of_map_to_list & Hp). by exists k, x.
  - intros (k & x & Hin & Hp). exists (k, x). split; [|done]. by apply list_elem_of_In, elem_of_map_to_list.
Qed.

Lemma created_here_after i after o : extension_created_here (after_mapping i after o) = extension_created_here o.
Proof.
  apply eq_true_iff_eq. rewrite !created_here. unfold after_mapping, put_object. cbn [o_objects with_objects].
  split; intros (k & x & Hk & Hp); exists k, x; (split; [|done]).
  - destruct (decide (k = mapping_key i)) as [->|Hn]; [by destruct (object_qualified i)|]. by rewrite lookup_insert_ne in Hk.
  - destruct (decide (k = mapping_key i)) as [->|Hn]; [by destruct (object_qualified i)|]. by rewrite lookup_insert_ne.
Qed.

Section Settles.
Context `{Vendors}.

(** C34: The statements planned for a text search configuration that is in the catalog are
    accepted by the server (a token type is added only where it has no mapping, dropped
    only where it has one), map the token types of the specification to its dictionaries
    and no other token type, and planned against what they leave the intent is satisfied:
    whether the indexes built with the old mapping have been rebuilt is not looked at. *)
Theorem text_search_mapping_is_set i o want unresolved s rest :
  let x := object_obs o (mapping_key i) in
  ob_created_in_spec x = false ->
  resolve_all (ts_dictionaries (ob_text_search x)) (extension_created_here o) (bstrs i "dictionaries") = inr (want, unresolved) ->
  e_steps (plan_set_text_search_mapping i o) = s :: rest -> st_action s = kApply ->
  exists after,
    map_run (ts_mapping (ob_text_search x)) (st_sql s) = Some after
    /\ pass want (ts_mapping (ob_text_search x)) after (bstrs i "tokens")
    /\ verdict (plan_set_text_search_mapping i (after_mapping i after o)) = [kSatisfied].
Proof.
  intros x Hc Hr Hs Ha. unfold plan_set_text_search_mapping in Hs. fold (mapping_key i) in Hs. fold x in Hs.
  destruct (ob_exists x) eqn:Hx; [|injection Hs as <- _; discriminate]. rewrite Hc, Hr in Hs. cbn [negb add_warnings e_steps] in Hs.
  unfold map_tokens in Hs. destruct (sort_tokens _ _ _ _) as [t|m] eqn:Hm; [injection Hs as <- _; discriminate|].
  destruct (mapping_run _ _ _ _ _ (quote_pair (object_schema i) (object_name i)) Hm) as (after & Hrun & Hpass).
  destruct (mapping_statements m want) as [|q qs] eqn:Hq; [injection Hs as <- _; discriminate|].
  injection Hs as <- _. exists after. split; [rewrite <- Hq in Hrun; exact Hrun|]. split; [done|].
  unfold plan_set_text_search_mapping. fold (mapping_key i). rewrite created_here_after.
  assert (object_obs (after_mapping i after o) (mapping_key i) = with_text_mapping after x) as ->.
  { unfold object_obs, after_mapping, put_object. cbn [o_objects with_objects]. by rewrite lookup_insert_eq. }
  cbn [ob_exists ob_created_in_spec ob_text_search ts_dictionaries with_text_mapping]. rewrite Hx, Hc, Hr. cbn [negb].
  unfold map_tokens. cbn [ts_tokens ts_mapping]. rewrite nothing_to_map; [done|by eapply tokens_known|].
  apply Forall_forall. intros t Ht. rewrite Hpass. by rewrite bool_decide_eq_true_2.
Qed.
End Settles.

(** A configuration made earlier in the specification is mapped whatever it was made as a
    copy of. *)
Lemma unread_mapping_is_set i sql_config config copied :
  exists after,
    map_run copied (List.concat (st_sql <$> e_steps (map_unread i sql_config config))) = Some after
    /\ pass (bstrs i "dictionaries") copied after (bstrs i "tokens").
Proof.
  cbn [map_unread e_steps fmap list_fmap List.concat st_sql make]. rewrite app_nil_r.
  rewrite fmap_app. cbn [fmap list_fmap app map_run map_step orb mbind option_bind].
  assert (forall t, mapped (drop_all (bstrs i "tokens") copied) t = if bool_decide (t ∈ bstrs i "tokens") then [] else mapped copied t)
    as Hd by apply mapped_drop_all.
  destruct (bstrs i "dictionaries") as [|d ds] eqn:Hds; cbn [fmap list_fmap app map_run map_step].
  - eexists. split; [reflexivity|]. intros t. by rewrite Hd.
  - replace (forallb _ _) with true.
    + eexists. split; [reflexivity|]. intros t. rewrite mapped_set_all, Hd. by repeat case_bool_decide.
    + symmetry. apply forallb_forall. intros t Ht%list_elem_of_In. apply bool_decide_eq_true_2. by rewrite Hd, bool_decide_eq_true_2.
Qed.

(** ** A configuration with two token types *)
Definition demo_config : ObjectObs :=
  {| ob_exists := true; ob_contains := []; ob_depended_on_by := []; ob_version := None; ob_available := None;
     ob_default_version := None; ob_type_kind := ""; ob_enum_labels := []; ob_returns := None; ob_created_in_spec := false;
     ob_text_search :=
       {| ts_dictionaries := [{| d_schema := "pg_catalog"; d_name := "simple"; d_visible := true |};
                              {| d_schema := "public"; d_name := "unaccent"; d_visible := true |}];
          ts_tokens := ["asciiword"; "word"; "email"];
          ts_mapping := {["asciiword" := ["pg_catalog.simple"]]}; ts_indexes := []; ts_other_dependents := [] |} |}.

Definition demo_mapping : Intent :=
  {| kind := kSetTextSearchMapping; kind_name := "set_text_search_mapping"; ordinal := 0;
     body := JObj [("schema", JStr "public"); ("name", JStr "plain"); ("tokens", JArr [JStr "asciiword"; JStr "word"]);
                   ("dictionaries", JArr [JStr "unaccent"; JStr "simple"])] |}.

Lemma text_search_mapping_is_set_witness :
  let o := put_object "tsconfig:public.plain" demo_config (demo_obs (demo_table "table" [])) in
  exists s rest after,
    e_steps (@plan_set_text_search_mapping no_vendors demo_mapping o) = s :: rest
    /\ map_run {["asciiword" := ["pg_catalog.simple"]]} (st_sql s) = Some after
    /\ mapped after "word" = ["public.unaccent"; "pg_catalog.simple"]
    /\ verdict (@plan_set_text_search_mapping no_vendors demo_mapping (after_mapping demo_mapping after o)) = [kSatisfied].
Proof.
  intros o. destruct (e_steps (@plan_set_text_search_mapping no_vendors demo_mapping o)) as [|s rest] eqn:Hs; [vm_compute in Hs; discriminate|].
  assert (st_action s = kApply) as Ha by (vm_compute in Hs; injection Hs as <- _; reflexivity).
  destruct (@text_search_mapping_is_set no_vendors demo_mapping o ["public.unaccent"; "pg_catalog.simple"] false s rest
              eq_refl eq_refl Hs Ha) as (after & Hrun & Hpass & Hv).
  exists s, rest, after. split; [done|]. split; [exact Hrun|]. split; [|done]. by rewrite Hpass.
Defined.
