(* ===== verification/ToolsFacts.v ===== *)
(** * ToolsFacts: what starts passed every gate, what is kept was rehearsed (tools.h)

    What [startMigration] checked, call by call, before it answers with a job. A chained
    rehearsal, against an interface of what a transaction promises of its savepoints: a
    specification whose rehearsal is not clean leaves the transaction as it found it, and
    one that is kept was planned on what the ones before it had made. *)
From S2P Require Import Prelude Json Canonical Config Repository Spec SpecFacts Trust TrustFacts Locks Quote RowSql Plan Planner Indexes RowPlan Dml Backfill AddColumn Views Tables Keys Objects Security Replication Alter Physical Extras TextSearch Migration MigrationRuns DryRun DryRunFacts Tools.

(** ** Calls *)
Section Calls.
Context {W : Type}.

Lemma bind_inl {A B} (m : Call W A) (f : A -> Call W B) w b w' :
  (m ≫= f) w = (inl b, w') <-> exists a w1, m w = (inl a, w1) /\ f a w1 = (inl b, w').
Proof.
  unfold mbind, call_bind. destruct (m w) as [[a|e] w1]; split; try done.
  - intros Hf. by exists a, w1.
  - by intros (? & ? & [= <- <-] & Hf).
  - by intros (? & ? & [=] & _).
Qed.

Lemma from_inl {E A} (inject : E -> ToolError) (r : result E A) (w : W) a w' :
  from inject r w = (inl a, w') <-> r = Ok a /\ w' = w.
Proof. destruct r; cbn; split; try done; [by intros [= -> ->]|by intros [[= ->] ->]|by intros [[=] _]]. Qed.

Lemma or_else_inl {A} (m : Call W A) a0 w a w' :
  or_else m a0 w = (inl a, w') <-> m w = (inl a, w') \/ a = a0 /\ exists e, m w = (inr e, w').
Proof.
  unfold or_else. destruct (m w) as [[x|e] w1]; split.
  - by left.
  - by intros [?|[_ [? [=]]]].
  - intros [= <- <-]. right. split; [done|]. by exists e.
  - by intros [[=]|[-> [? [= _ ->]]]].
Qed.

Lemma attempt_inl {A} (m : Call W A) w a w' :
  attempt m w = (inl (Some a), w') <-> m w = (inl a, w').
Proof. unfold attempt. destruct (m w) as [[x|e] w1]; split; try done; by intros [= -> ->]. Qed.
End Calls.

(** Takes a call that returned apart. *)
Ltac call_inv :=
  repeat match goal with
  | H : (_ ≫= _) _ = (inl _, _) |- _ => apply bind_inl in H as (? & ? & ? & H); cbv beta in H
  | H : from _ _ _ = (inl _, _) |- _ => apply from_inl in H as [? ->]
  | H : mret _ _ = (inl _, _) |- _ => unfold mret, call_ret in H; simplify_eq
  | H : (if ?b then _ else _) _ = (inl _, _) |- _ => destruct b eqn:?
  end.

Section Gates.
Context {W : Type} `{Host W, OpenSSL, Modules, Bodies, Vendors, Printing, OtherRules}.
Variables (modules : list string) (policy : TrustPolicy) (cfg : PlannerConfig).

(** The database a specification names, its environment and an approved release. *)
Definition fits (spec : Spec) (st : View) : Prop :=
  (target_database spec = "" \/ v_database st = "" \/ target_database spec = v_database st)
  /\ (target_environment spec = "" \/ target_environment spec = v_environment st)
  /\ (release spec = "" \/ release spec ∈ releases_ready st).

Lemma target_fits spec st : target_refused spec st = None <-> fits spec st.
Proof using Type.
  unfold target_refused, fits.
  destruct (String.eqb_spec (target_database spec) ""), (String.eqb_spec (v_database st) ""),
    (String.eqb_spec (target_database spec) (v_database st)), (String.eqb_spec (target_environment spec) ""),
    (String.eqb_spec (target_environment spec) (v_environment st)), (String.eqb_spec (release spec) "");
    cbn [negb andb]; try case_bool_decide; split; try done; try (intros _; tauto); intros (? & ? & ?); tauto.
Qed.

Lemma check_target_inl args spec w w1 :
  parse_spec sha256 (at_key args "spec") = Ok spec ->
  check_target args w = (inl None, w1) ->
  if target_named spec then exists st, read_status w = (inl st, w1) /\ fits spec st else w1 = w.
Proof using Type.
  intros Hp. unfold check_target. rewrite Hp. destruct (target_named spec); intros Hc; call_inv; [|done].
  eexists. split; [done|]. by apply target_fits.
Qed.

Lemma gates_inl spec w w' :
  gates policy spec w = (inl BothPass, w') ->
  exists trusted, read_trusted w = (inl trusted, w') /\ trust_gates policy trusted spec = Ok BothPass.
Proof using Type.
  unfold gates. intros Hg. call_inv. by exists x0.
Qed.

(** Planned between [w] and [w']: both trust gates passed on the keys the ledger then
    held, the plan of what was then observed is free of conflicts, [digest] is its digest
    with the advice, and its rehearsal, where the caller did not decline it, found no
    problem. *)
Definition planned (args : json) (spec : Spec) (w : W) (p : Plan) (digest : string) (w' : W) : Prop :=
  exists trusted w1 schemas tables keys obs w2 p0 forms w3 advice w4 wanted,
    read_trusted w = (inl trusted, w1) /\ trust_gates policy trusted spec = Ok BothPass
    /\ observation_targets spec = Ok (schemas, tables, keys) /\ observe schemas tables keys w1 = (inl obs, w2)
    /\ plan_migration spec obs cfg = Some p0 /\ ok p0 = true
    /\ or_else (earlier_forms (id spec) (Spec.digest spec)) [] w2 = (inl forms, w3)
    /\ or_else language_advice [] w3 = (inl advice, w4)
    /\ p = with_advice (forms ++ advice) p0 /\ plan_digest sha256 modules p = Ok digest
    /\ value_bool args "dryRun" true = Ok wanted
    /\ if (wanted : bool) then exists d, rehearse_plan (o_server_version obs) p w4 = (inl d, w') /\ dr_problems d = []
       else w' = w4.

(** Opened between [w] and [w']: below the limit of jobs, signed by a key the ledger
    still trusted, written to it under that key, and holding every lock. *)
Definition opened (spec : Spec) (p : Plan) (w : W) (job : StartedJob) (w' : W) : Prop :=
  exists w1 trusted w2 w3 keys row w4 w5,
    or_else reconcile_dead_jobs tt w = (inl tt, w1) /\ running_count w1 < pc_max_concurrent_jobs cfg
    /\ read_trusted w1 = (inl trusted, w2)
    /\ verified (verify_signer trusted spec) = true /\ check_key_id (verify_signer trusted spec) = sj_signer job
    /\ create_job w2 = (sj_job_id job, w3) /\ lock_keys spec = Ok keys
    /\ write_migration spec (sj_signer job) w3 = (inl row, w4)
    /\ open_job (sj_job_id job) row p (sj_plan_digest job) keys w4 = (inl true, w5)
    /\ w' = start_worker (sj_job_id job) w5.

Lemma plan_spec_inl spec w obs p w' :
  plan_spec cfg spec w = (inl (obs, p), w') ->
  exists schemas tables keys, observation_targets spec = Ok (schemas, tables, keys)
    /\ observe schemas tables keys w = (inl obs, w') /\ plan_migration spec obs cfg = Some p.
Proof using Type.
  unfold plan_spec. intros Hp. call_inv. destruct x as [[schemas tables] keys]. call_inv.
  exists schemas, tables, keys. destruct (plan_migration _ _ _) eqn:E; [|done]. call_inv. done.
Qed.

Lemma plan_tool_inl args spec a w w' :
  parse_spec sha256 (at_key args "spec") = Ok spec ->
  plan_migration_tool modules policy cfg args w = (inl (inl a), w') -> pa_ok a = true -> pa_draft a = false ->
  value_bool args "skipTrustChecks" false = Ok false /\ planned args spec w (pa_plan a) (pa_digest a) w'.
Proof using Type.
  intros Hp. unfold plan_migration_tool. rewrite Hp. intros Ht Hok Hd. case_match; [done|].
  apply bind_inl in Ht as (skip & w0 & [Hs ->]%from_inl & Ht). apply bind_inl in Ht as (g & w1 & Hg & Ht).
  destruct g; [|call_inv..]. apply bind_inl in Ht as ([obs p0] & w2 & (schemas & tables & keys & Ho & Hobs & Hplan)%plan_spec_inl & Ht).
  apply bind_inl in Ht as (forms & w3 & Hf & Ht). apply bind_inl in Ht as (advice & w4 & Ha & Ht).
  apply bind_inl in Ht as (wanted & w5 & [Hw ->]%from_inl & Ht). apply bind_inl in Ht as (dry & w6 & Hdry & Ht).
  apply bind_inl in Ht as (dg & w7 & [Hdg ->]%from_inl & Ht). unfold mret, call_ret in Ht. injection Ht as <- <-.
  cbn [pa_draft pa_ok pa_plan pa_digest] in *. subst skip. apply gates_inl in Hg as (trusted & Hread & Hgates).
  apply andb_true_iff in Hok as [Hok Hclean]. split; [done|].
  exists trusted, w1, schemas, tables, keys, obs, w2, p0, forms, w3, advice, w4, wanted.
  repeat (split; [done|]). change (ok (with_advice (forms ++ advice) p0)) with (ok p0) in Hdry. rewrite Hok in Hdry. destruct wanted; cbn [andb] in Hdry; call_inv; [|done].
  eexists. split; [done|]. by destruct (dr_problems _).
Qed.

Lemma open_inl args spec a w job w' :
  parse_spec sha256 (at_key args "spec") = Ok spec ->
  open_and_start cfg args a w = (inl (inl job), w') ->
  sj_spec_id job = id spec /\ sj_spec_digest job = Spec.digest spec /\ sj_plan_digest job = pa_digest a
  /\ opened spec (pa_plan a) w job w'.
Proof using Type.
  intros Hp Ho. unfold open_and_start in Ho. apply bind_inl in Ho as ([] & w1 & Hr & Ho).
  apply bind_inl in Ho as (n & w1' & Hn & Ho). unfold gets in Hn. injection Hn as <- <-. rewrite Hp in Ho. cbv beta in Ho.
  case_match; [call_inv|]. apply bind_inl in Ho as (spec' & w2 & [[= <-] ->]%from_inl & Ho).
  apply bind_inl in Ho as (trusted & w2 & Hread & Ho). case_match eqn:Hv; [call_inv|].
  apply bind_inl in Ho as (jid & w3 & Hj & Ho). apply bind_inl in Ho as (keys & w3' & [Hk ->]%from_inl & Ho).
  apply bind_inl in Ho as ([row|] & w4 & Hrow & Ho); [|call_inv].
  apply bind_inl in Ho as ([] & w5 & Hopen & Ho); [|call_inv]. apply (proj1 (attempt_inl _ _ _ _)) in Hrow.
  apply bind_inl in Ho as ([] & w6 & Hw & Ho). unfold update in Hw. injection Hw as <-. unfold mret, call_ret in Ho. injection Ho as <- <-.
  cbn. split; [done|]. split; [done|]. split; [done|]. apply negb_false_iff in Hv. apply Z.leb_gt in H6.
  unfold does in Hj. destruct (create_job w2) as [j w3''] eqn:Hc. injection Hj as -> ->.
  exists w1, trusted, w2, w3, keys, row, w4, w5. split_and!; done.
Qed.
End Gates.

(** C12: A job that [startMigration] answers with passed every gate, in this order: the
    specification parses and the ledger's database name, environment and approved
    releases fit it; the caller did not ask to skip the trust checks and both pass; the
    plan of what was observed is accepted and its rehearsal, unless declined, found no
    problem; fewer jobs than the limit run; the ledger still trusts the signer under whom
    the migration is written; every lock of the specification is held. Only then is the
    worker started, on the plan whose digest the caller is told. *)
Theorem started_job_passed_every_gate {W} `{Host W, OpenSSL, Modules, Bodies, Vendors, Printing, OtherRules}
    modules policy cfg args (w : W) job w' :
  start_migration modules policy cfg true args w = (inl (inl job), w') ->
  exists spec w1 p w2,
    parse_spec sha256 (at_key args "spec") = Ok spec
    /\ (if target_named spec then exists st, read_status w = (inl st, w1) /\ fits spec st else w1 = w)
    /\ value_bool args "skipTrustChecks" false = Ok false
    /\ planned modules policy cfg args spec w1 p (sj_plan_digest job) w2
    /\ opened cfg spec p w2 job w'
    /\ sj_spec_id job = id spec /\ sj_spec_digest job = Spec.digest spec.
Proof.
  unfold start_migration. cbn [negb]. intros Hs. apply bind_inl in Hs as ([why|] & w1 & Hc & Hs); [call_inv|].
  apply bind_inl in Hs as ([a|why] & w2 & Hp & Hs); [|call_inv].
  destruct (pa_error a) eqn:He; [call_inv|]. destruct (pa_ok a) eqn:Hok; cbn [negb] in Hs; [|call_inv].
  destruct (pa_draft a) eqn:Hd; [call_inv|].
  destruct (parse_spec sha256 (at_key args "spec")) as [spec|e] eqn:Hspec.
  - apply (check_target_inl _ _ _ _ Hspec) in Hc. apply (plan_tool_inl _ _ _ _ _ _ _ _ Hspec) in Hp as [Hskip Hp]; [|done..].
    apply (open_inl _ _ _ _ _ _ _ Hspec) in Hs as (Hi & Hg & Hd' & Ho).
    exists spec, w1, (pa_plan a), w2. rewrite Hd'. done.
  - exfalso. unfold plan_migration_tool in Hp. rewrite Hspec in Hp. destruct (is_object _); destruct e; call_inv; done.
Qed.

(** ** The listing's gates *)
Lemma held_is_another e s d : is_runnable (status e) = true -> is_runnable s = false -> with_status e s d <> e.
Proof. intros He Hs Heq. apply (f_equal status) in Heq. cbn in Heq. congruence. Qed.

(** The gates the listing puts an entry through and those [startMigration] repeats
    where a job starts agree on the database, the environment and the release; the epoch
    is the listing's alone: it lets an entry through exactly where the start does and the
    entry's epoch is neither retired nor missing from the live ones. A call that did not
    consult the listing starts what the listing holds for its epoch. *)
Theorem direct_start_skips_the_epoch e spec v :
  is_runnable (status e) = true ->
  database e = target_database spec -> environment e = target_environment spec -> Repository.release e = release spec ->
  gate e v = e <->
  target_refused spec v = None /\ epoch e ∉ epochs_retired v
  /\ (epoch e = "" \/ epoch e ∈ epochs_live v \/ epochs_live v = ∅).
Proof.
  intros Hr Hd He Hrel. pose proof (fun s => held_is_another e s (applied_digest e) Hr) as Hheld.
  unfold gate, target_refused. rewrite Hr, Hd, He, Hrel. cbn [negb].
  destruct (String.eqb_spec (target_environment spec) (v_environment v)) as [->|Hne];
    destruct (String.eqb_spec (target_environment spec) ""), (String.eqb_spec (v_environment v) ""); try congruence;
    destruct (_ && negb (String.eqb (target_database spec) (v_database v))); cbn [negb andb];
    try (split; [by intros []%Hheld|by intros [[=] _]]);
    destruct (String.eqb_spec (epoch e) ""), (String.eqb_spec (release spec) ""); cbn [negb andb];
    repeat case_bool_decide; cbn [negb andb]; try tauto; (split; [by intros []%Hheld|]); try (by intros [[=] _]); tauto.
Qed.

(** ** A server on which a job starts *)
Definition demo_view : View :=
  {| v_database := "shop"; v_identity := ""; v_environment := "prod"; releases_ready := {[ "2024.1" ]};
     epochs_live := ∅; epochs_retired := {[ "2019" ]}; applied := ∅ |}.

Definition calls {W A} (a : A) : Call W A := mret a.

#[export] Instance demo_host : Host (list string) :=
  {| host_transaction := demo_transaction;
     read_status := calls demo_view;
     read_trusted := calls toy_trusted;
     observe := fun _ _ _ => calls (demo_obs (demo_table "table" []));
     earlier_forms := fun _ _ => throw (OtherError "no ledger");
     language_advice := calls ["write the comments in English"];
     begin_rehearsal := fun log => (None, log ++ ["BEGIN"]);
     roll_back := fun log => log ++ ["ROLLBACK"];
     begin_elsewhere := fun _ log => (None, log);
     exec_elsewhere := fun _ sql log => (None, log ++ [sql]);
     rollback_elsewhere := fun _ log => (None, log);
     reconcile_dead_jobs := calls tt;
     running_count := fun _ => 3;
     create_job := fun log => ("job-1", log);
     fail_job := fun job log => log ++ ["failed " +:+ job];
     write_migration := fun spec signer => fun log => (inl 7, log ++ ["migration " +:+ id spec +:+ " by " +:+ signer]);
     open_job := fun job _ _ _ _ => fun log => (inl true, log ++ ["open " +:+ job]);
     start_worker := fun job log => log ++ ["run " +:+ job] |}.

Definition start_members : list (string * json) :=
  [("laswell_spec_version", JUint 1); ("id", JStr "0001-total"); ("description", JStr "d");
   ("target", JObj [("environment", JStr "prod"); ("database", JStr "shop"); ("epoch", JStr "2019")]); ("release", JStr "2024.1");
   ("intents", JArr [JObj [("kind", JStr "add_check_constraint"); ("schema", JStr "app"); ("table", JStr "orders");
                           ("name", JStr "orders_total_ck"); ("expression", JStr "total >= 0")]])].

Definition start_bytes : string :=
  match canonicalize (Spec.project (JObj start_members)) with Ok bytes => bytes | Err _ => "" end.

Definition start_args (l : list (string * json)) : json :=
  JObj (l ++ [("spec", JObj (start_members ++ [("signatures", JArr [toy_entry toy_id (sign_with start_bytes)])]))]).

#[local] Existing Instances no_vendors demo_printing one_statement.

Definition demo_start (l : list (string * json)) : (StartedJob + StartRefusal + ToolError) * list string :=
  start_migration [] toy_policy demo_config true (start_args l) [].

(** Started, rehearsed first and on a host whose ledger has the specification's epoch retired;
    nothing is started of a draft. *)
Lemma started_job_passed_every_gate_witness : exists job log spec,
  demo_start [] = (inl (inl job), log)
  /\ log !! 3%nat = Some ("ALTER TABLE " +:+ dq +:+ "app" +:+ dq +:+ "." +:+ dq +:+ "orders" +:+ dq +:+ " ADD CONSTRAINT "
                          +:+ dq +:+ "orders_total_ck" +:+ dq +:+ " CHECK (total >= 0) NOT VALID")
  /\ drop 5 log = ["ROLLBACK"; "migration 0001-total by ed25519:0000000000000000"; "open job-1"; "run job-1"]
  /\ sj_spec_digest job = Spec.digest spec /\ fits spec demo_view
  /\ (demo_start [("skipTrustChecks", JBool true)]).1 = inl (inr DraftPlan).
Proof.
  destruct (demo_start []) as [[[job|why]|e] log] eqn:Hs; [|vm_compute in Hs; discriminate Hs..].
  destruct (started_job_passed_every_gate [] toy_policy demo_config (start_args []) [] job log Hs)
    as (spec & w1 & p & w2 & Hspec & Hfits & _ & _ & _ & _ & Hd).
  exists job, log, spec. split; [done|].
  assert ((demo_start []).2 = log) as Hlog by (rewrite Hs; done).
  split; [rewrite <-Hlog; vm_compute; reflexivity|]. split; [rewrite <-Hlog; vm_compute; reflexivity|].
  split; [done|]. split; [|vm_compute; reflexivity].
  destruct (target_named spec) eqn:Hn.
  - destruct Hfits as (st & Hst & Hfit). injection Hst as <- _. exact Hfit.
  - exfalso. assert (target_named <$> parse_spec sha256 (at_key (start_args []) "spec") = Ok true) as Ht by (vm_compute; reflexivity).
    rewrite Hspec in Ht. cbn in Ht. congruence.
Defined.

(** The listing's entry of that specification, held for its epoch. *)
Definition start_entry (epoch : string) : RepoEntry :=
  {| spec_id := "0001-total"; Repository.digest := ""; status := kPending; Repository.depends_on := [];
     rels := no_relations; applied_digest := ""; connection := ""; database_name := ""; database_identity := "";
     database := "shop"; environment := "prod"; Repository.release := "2024.1"; epoch := epoch |}.

Lemma direct_start_skips_the_epoch_witness : exists spec,
  parse_spec sha256 (at_key (start_args []) "spec") = Ok spec /\ target_refused spec demo_view = None
  /\ gate (start_entry "2020") demo_view = start_entry "2020" /\ status (gate (start_entry "2019") demo_view) = kRetiredEpoch.
Proof.
  destruct (parse_spec sha256 (at_key (start_args []) "spec")) as [spec|] eqn:E; [|vm_compute in E; discriminate E].
  assert ((fun s => (target_database s, target_environment s, release s)) <$> parse_spec sha256 (at_key (start_args []) "spec")
          = Ok ("shop", "prod", "2024.1")) as Ht by (vm_compute; reflexivity).
  rewrite E in Ht. injection Ht as Hd He Hr.
  assert (target_refused spec demo_view = None) as Hf by (unfold target_refused; rewrite Hd, He, Hr; vm_compute; reflexivity).
  exists spec. split; [reflexivity|]. split; [exact Hf|]. split; [|vm_compute; reflexivity].
  apply (direct_start_skips_the_epoch (start_entry "2020") spec demo_view); [reflexivity|symmetry; assumption..|].
  split; [exact Hf|]. split; [apply (bool_decide_unpack _); vm_compute; exact I|]. right. right. reflexivity.
Defined.

(** The savepoints a rehearsal sets inside a specification's own. *)
Definition inner_savepoints : list string :=
  verb ← ["SAVEPOINT "; "RELEASE SAVEPOINT "; "ROLLBACK TO SAVEPOINT "];
  (fun name => verb +:+ name) <$> ["laswell_generic_plan"; "laswell_empty_copy"].

(** What the server promises of a transaction: its contents as its own statements see
    them, and those at the savepoint laswell_chain_spec, which statements that do not
    control the transaction leave alone. *)
Class Savepoints (W D : Type) (T : Transaction W) : Type := {
  contents : W -> D;
  saved : W -> option D;
  harmless : string -> bool;
  inner_harmless sql : sql ∈ inner_savepoints -> harmless sql = true;
  explain_harmless sql : harmless sql = true -> harmless ("EXPLAIN (GENERIC_PLAN, FORMAT JSON) " +:+ sql) = true;
  prepare_harmless sql : harmless sql = true -> harmless ("PREPARE laswell_dry AS " +:+ sql) = true;
  deallocate_harmless : harmless "DEALLOCATE laswell_dry" = true;
  timeout_harmless n : harmless ("SET LOCAL lock_timeout = " +:+ to_string n) = true;
  harmless_keeps sql e w w' : harmless sql = true -> exec sql w = (e, w') -> saved w' = saved w;
  copy_keeps payload e w w' : stream_copy payload w = (e, w') -> saved w' = saved w;
  failed_keeps sql e w w' : exec sql w = (Some e, w') -> saved w' = saved w;
  savepoint_saves w w' : exec "SAVEPOINT laswell_chain_spec" w = (None, w') ->
    contents w' = contents w /\ saved w' = Some (contents w);
  rollback_restores w w' d : exec "ROLLBACK TO SAVEPOINT laswell_chain_spec" w = (None, w') -> saved w = Some d ->
    contents w' = d /\ saved w' = Some d;
  release_keeps w w' : exec "RELEASE SAVEPOINT laswell_chain_spec" w = (None, w') -> contents w' = contents w;
}.
Arguments harmless {W D T _} _.

(** ** What keeps the savepoint *)
Section Keeps.
Context {W D : Type} `{T : Transaction W} `{S : !Savepoints W D T}.

Definition keeps {A} (m : Act W A) : Prop := forall w r w', m w = (r, w') -> saved w' = saved w.

Lemma keeps_ret {A} (a : A) : keeps (mret a).
Proof. by intros w r w' [= _ <-]. Qed.

Lemma keeps_bind {A B} (m : Act W A) (f : A -> Act W B) : keeps m -> (forall a, keeps (f a)) -> keeps (m ≫= f).
Proof.
  intros Hm Hf w r w'. unfold mbind, act_bind. destruct (m w) as [[a|e] w1] eqn:E.
  - intros Hr. rewrite (Hf _ _ _ _ Hr). by eapply Hm.
  - intros [= _ <-]. by eapply Hm.
Qed.

Lemma keeps_catch {A} (m : Act W A) h : keeps m -> (forall st what, keeps (h st what)) -> keeps (catch_sql m h).
Proof.
  intros Hm Hh w r w'. unfold catch_sql. destruct (m w) as [[a|[st what|what o]] w1] eqn:E; try (intros [= _ <-]; by eapply Hm).
  intros Hr. rewrite (Hh _ _ _ _ _ Hr). by eapply Hm.
Qed.

Lemma keeps_execute sql : harmless sql = true -> keeps (execute sql).
Proof.
  intros Hs w r w'. unfold execute. destruct (exec sql w) as [[e|] w1] eqn:E; intros [= _ <-]; by eapply harmless_keeps.
Qed.

Lemma keeps_inner sql : sql ∈ inner_savepoints -> keeps (execute sql).
Proof. intros Hs. by apply keeps_execute, inner_harmless. Qed.
End Keeps.

Create HintDb keeps.
#[export] Hint Resolve keeps_ret keeps_execute explain_harmless prepare_harmless deallocate_harmless timeout_harmless : keeps.

(** Through the monad, to the statements. *)
Ltac keeps_solve :=
  repeat first
    [ progress intros
    | apply keeps_bind | apply keeps_catch | solve [auto with keeps]
    | apply keeps_inner; apply (bool_decide_unpack _); vm_compute; exact I
    | match goal with |- keeps (if ?b then _ else _) => destruct b end
    | match goal with |- keeps (match ?x with _ => _ end) => destruct x end ].

Section Rehearsed.
Context {W D : Type} `{T : Transaction W} `{S : !Savepoints W D T}.

(** A step whose statements do not control the transaction. *)
Definition harmless_check (c : json) : Prop :=
  harmless ("CREATE TEMP TABLE laswell_shape (LIKE " +:+ entry_text c "of" +:+ " INCLUDING GENERATED) ON COMMIT DROP") = true
  /\ harmless (strip_trailing_semicolon (entry_text c "sql")) = true.

Definition harmless_step (s : RehearsalStep) : Prop :=
  Forall (fun q => harmless (strip_trailing_semicolon q) = true) (rs_sql s)
  /\ match rs_on_copy s with JArr checks => Forall harmless_check checks | _ => True end.

#[export] Instance harmless_check_dec c : Decision (harmless_check c).
Proof. unfold harmless_check. apply _. Defined.

#[export] Instance harmless_step_dec s : Decision (harmless_step s).
Proof. unfold harmless_step. destruct (rs_on_copy s); apply _. Defined.

Lemma verify_keeps stmt ver run_it : harmless stmt = true -> keeps (verify_statement stmt ver run_it).
Proof using S. intros Hs. unfold verify_statement, generic_plan. keeps_solve. Qed.

Lemma try_keeps ver run_it short stmt rest : harmless stmt = true -> keeps (try_statement ver run_it short stmt rest).
Proof using S. intros Hs. unfold try_statement. apply keeps_bind; [by apply verify_keeps|]. keeps_solve. Qed.

Lemma copies_keep checks : forall checked, Forall harmless_check checks -> keeps (check_on_empty_copies checks checked).
Proof using S.
  induction checks as [|c checks IH]; intros checked Hc; cbn [check_on_empty_copies]; [apply keeps_ret|].
  apply Forall_cons in Hc as [[Hof Hsql] Hc]. destruct (_ || _); [by apply IH|]. apply keeps_bind.
  - unfold check_one_copy, back_to_savepoint. keeps_solve.
  - intros []; [apply keeps_ret..|by apply IH].
Qed.

Lemma statements_keep ver s after skipped sql : forall short d,
  Forall (fun q => harmless (strip_trailing_semicolon q) = true) sql ->
  keeps (run_statements ver s after skipped short sql d).
Proof using S.
  induction sql as [|raw sql IH]; intros short d Hs w r w'; cbn [run_statements]; [by intros [= _ <-]|].
  apply Forall_cons in Hs as [Hq Hs]. case_match; [by apply IH|].
  destruct (try_statement _ _ _ _ _ w) as [[[weak short']|e] w1] eqn:Ht; apply (try_keeps _ _ _ _ _ Hq) in Ht; rewrite <-Ht.
  - by apply IH.
  - destruct (on_error _ _ _ _ _ _ _) as [[r' d']|e']; by intros [= _ <-].
Qed.

Lemma step_keeps ver s after l : harmless_step s -> keeps (rehearse_step ver s after l).
Proof using S.
  intros [Hs Hc]. unfold rehearse_step. destruct (rs_forbidden s); [|destruct (is_object _)].
  - unfold skip_step. destruct (rs_on_copy s) as [| | | | | |[|c cs]| | |]; try apply keeps_ret.
    apply keeps_bind; [by apply copies_keep|]. keeps_solve.
  - unfold copy_step. intros w r w'. destruct (stream_copy _ w) as [[[]|] w1] eqn:E; intros [= _ <-]; by eapply copy_keeps.
  - unfold run_step. apply keeps_bind; [by apply statements_keep|]. keeps_solve.
Qed.

Lemma loop_keeps_saved ver steps : forall l, Forall harmless_step steps -> keeps (rehearse_loop ver steps l).
Proof using S.
  induction steps as [|s steps IH]; intros l Hs; cbn [rehearse_loop]; [apply keeps_ret|].
  apply Forall_cons in Hs as [Hq Hs]. apply keeps_bind; [by apply step_keeps|]. intros [[r|] l']; [apply keeps_ret|by apply IH].
Qed.
End Rehearsed.

(** Where the loop reaches its end every step is listed or was accepted. *)
Lemma loop_accepts {W} `{Transaction W} ver steps : forall l w l' w',
  rehearse_loop ver steps l w = (inl (kOk, l'), w') ->
  Forall (fun s => listed (lp_found l') s \/ accepted ver s) steps.
Proof.
  induction steps as [|s steps IH]; intros l w l' w'; cbn [rehearse_loop]; [done|].
  unfold mbind, act_bind. destruct (rehearse_step ver s (s :: steps) l w) as [[[r1 l1]|] w1] eqn:Hs; [|done].
  apply step_spec in Hs. destruct r1 as [r1|].
  - intros [= -> _ _]. by destruct Hs as [_ []].
  - intros Hr. constructor; [|by eapply IH]. destruct Hs as [_ [Hl|Ha]]; [left|by right]. by eapply loop_keeps.
Qed.

(** As a connection's session has them. *)
Definition saved_of {W D} `{Linked W} (name : string) `{S : !Savepoints W D (link_transaction name)} (w : W) : option D :=
  @saved W D (link_transaction name) S w.
Definition contents_of {W D} `{Linked W} (name : string) `{S : !Savepoints W D (link_transaction name)} (w : W) : D :=
  @contents W D (link_transaction name) S w.

(** ** One specification *)
Section Chains.
Context {W D : Type} `{L : Linked W, OpenSSL, Modules, Bodies, Vendors, Printing, OtherRules}.
Variables (cfg : PlannerConfig) (name : string).
Context `{S : !Savepoints W D (link_transaction name)}.
Implicit Types c : Chain W.

#[local] Notation saved_in := (@saved W D (link_transaction name) S).
#[local] Notation contents_in := (@contents W D (link_transaction name) S).
#[local] Notation harmless_in := (@harmless_step W D (link_transaction name) S).

(** Reading the catalog leaves the savepoint alone. *)
Hypothesis reading_keeps : forall version schemas tables keys r (w w' : W),
  observe_in name version schemas tables keys w = (r, w') -> saved_in w' = saved_in w.

Lemma statement_run sql c r c' :
  statement name sql c = (r, c') ->
  exists e, @exec W (link_transaction name) sql (ch_world c) = (e, ch_world c')
            /\ match e with None => r = inl tt | Some err => r = inr (FromServer err) end.
Proof using Type.
  unfold statement, in_session, outside, execute. destruct (exec sql (ch_world c)) as [[e|] w1]; intros [= <- <-]; by eexists.
Qed.

Lemma undo_run c d r c' :
  saved_in (ch_world c) = Some d -> undo name c = (r, c') ->
  match r with inl _ => contents_in (ch_world c') = d | inr _ => saved_in (ch_world c') = Some d end.
Proof using Type.
  intros Hs. unfold undo, mbind, call_bind.
  destruct (statement name "ROLLBACK TO SAVEPOINT laswell_chain_spec" c) as [r1 c1] eqn:E1.
  apply statement_run in E1 as ([e|] & E1 & ->).
  - intros [= <- <-]. rewrite <-Hs. by eapply failed_keeps.
  - destruct (rollback_restores _ _ _ E1 Hs) as [Hc Hs1]. intros E2. apply statement_run in E2 as ([e|] & E2 & ->).
    + rewrite <-Hs1. by eapply failed_keeps.
    + rewrite <-Hc. by eapply release_keeps.
Qed.

(** What is known of a specification whose effects are kept. *)
Definition kept_plan (version : Z) (spec : Spec) (w : W) (p : Plan) (d : DryRun) : Prop :=
  exists schemas tables keys obs w1,
    observation_targets spec = Ok (schemas, tables, keys)
    /\ observe_in name version schemas tables keys w = (inl obs, w1)
    /\ plan_migration spec obs cfg = Some p /\ ok p = true
    /\ Forall (fun s => listed d s \/ @accepted W (link_transaction name) version s) (rehearsal_inputs p true).

(** No statement of a plan made of what is read here controls the transaction. *)
Definition harmless_plans (spec : Spec) : Prop :=
  forall version schemas tables keys w obs w1 p,
    observe_in name version schemas tables keys w = (inl obs, w1) -> plan_migration spec obs cfg = Some p ->
    Forall harmless_in (rehearsal_inputs p true).

(** Ends a path that undoes: with the contents back, or with the savepoint still there. *)
Lemma undone c d (a : ChainAnswer) (r : ChainAnswer + ToolError) c' :
  saved_in (ch_world c) = Some d -> (_ ← undo name; mret a) c = (r, c') ->
  match r with inl a' => a' = a /\ contents_in (ch_world c') = d | inr _ => saved_in (ch_world c') = Some d end.
Proof using Type.
  intros Hs. unfold mbind, call_bind. destruct (undo name c) as [r1 c1] eqn:E. apply (undo_run _ _ _ _ Hs) in E.
  destruct r1; by intros [= <- <-].
Qed.

Lemma rehearse_on_run k steps c r c' :
  Forall harmless_in steps -> rehearse_on name k steps c = (r, c') ->
  saved_in (ch_world c') = saved_in (ch_world c)
  /\ forall l, r = inl (kOk, l) -> Forall (fun s => listed (lp_found l) s \/ @accepted W (link_transaction name) (ln_server_version k) s) steps.
Proof using Type.
  intros Hh. unfold rehearse_on, in_session, outside, rehearse_steps.
  destruct (rehearse_loop _ _ _ (ch_world c)) as [[x|e] w1] eqn:E; intros [= <- <-]; cbn [ch_world].
  - split; [by eapply loop_keeps_saved|]. intros l [= ->]. by eapply loop_accepts.
  - split; [by eapply loop_keeps_saved|done].
Qed.

Lemma planned_run k spec c d r c' :
  harmless_plans spec -> saved_in (ch_world c) = Some d -> rehearse_planned cfg name k spec c = (r, c') ->
  match r with
  | inr _ => saved_in (ch_world c') = Some d
  | inl (ChainRehearsed p dr) => kept_plan (ln_server_version k) spec (ch_world c) p dr
  | inl _ => contents_in (ch_world c') = d
  end.
Proof using reading_keeps.
  intros Hh Hs. unfold rehearse_planned. unfold mbind at 1, call_bind at 1.
  destruct (observation_targets spec) as [[[schemas tables] keys]|e] eqn:Ho; [|by intros [= <- <-]].
  cbn [from]. unfold mret at 1, call_ret at 1, mbind at 1, call_bind at 1, outside.
  destruct (observe_in name (ln_server_version k) schemas tables keys (ch_world c)) as [ro w1] eqn:Hobs.
  pose proof (reading_keeps _ _ _ _ _ _ _ Hobs) as Hw1. rewrite Hs in Hw1.
  destruct ro as [obs|e]; [|by intros [= <- <-]].
  destruct (plan_migration spec obs cfg) as [p|] eqn:Hp; [|by intros [= <- <-]].
  destruct (ok p) eqn:Hok; cbn [negb]; [|intros E; apply (undone _ d) in E; [|done]; destruct r; [by destruct E as [-> ?]|done]].
  unfold mbind at 1, call_bind at 1.
  destruct (rehearse_on name k (rehearsal_inputs p true) {| ch_world := w1; ch_links := ch_links c |}) as [rr c2] eqn:Hr.
  apply (rehearse_on_run _ _ _ _ _ (Hh _ _ _ _ _ _ _ _ Hobs Hp)) in Hr as [Hs2 Hok2]. cbn [ch_world] in Hs2. rewrite Hw1 in Hs2.
  destruct rr as [[result l]|e]; [|by intros [= <- <-]].
  destruct result; try (intros E; apply (undone _ d) in E; [|done]; destruct r; [by destruct E as [-> ?]|done]).
  unfold mbind, call_bind. destruct (statement name _ c2) as [rs c3] eqn:Hst.
  apply statement_run in Hst as ([e|] & He & ->); intros [= <- <-].
  - rewrite <-Hs2. by eapply failed_keeps.
  - exists schemas, tables, keys, obs, w1. split_and!; try done.
    eapply Forall_impl; [by apply Hok2|]. intros s [Hl|Ha]; [left|by right]. apply noted_all. by left.
Qed.

Lemma spec_run k spec c a c' :
  harmless_plans spec -> rehearse_spec cfg name k spec c = (inl a, c') ->
  match a with
  | ChainRehearsed p d =>
      exists w, contents_in w = contents_in (ch_world c) /\ kept_plan (ln_server_version k) spec w p d
  | _ => contents_in (ch_world c') = contents_in (ch_world c)
  end.
Proof using reading_keeps.
  intros Hh. unfold rehearse_spec. unfold mbind at 1, call_bind at 1.
  destruct (statement name "SAVEPOINT laswell_chain_spec" c) as [r0 c0] eqn:E0.
  apply statement_run in E0 as ([e|] & E0 & ->); [done|]. apply savepoint_saves in E0 as [Hc0 Hs0].
  unfold mbind at 1, call_bind at 1, attempt.
  destruct (rehearse_planned cfg name k spec c0) as [[b|e] c1] eqn:E; apply (planned_run _ _ _ _ _ _ Hh Hs0) in E.
  - intros [= <- <-]. destruct b; try done. by exists (ch_world c0).
  - intros Hu. apply (undone _ _ _ _ _ E) in Hu as [-> Hu]. done.
Qed.
End Chains.

(** C14: A chained rehearsal on an open connection, whose server keeps its promises about
    savepoints, keeps what was rehearsed and nothing else. Any other answer, a
    specification that does not parse or is not trusted, that conflicts, fails, stops at a
    gap, runs out of time or throws, leaves the transaction's contents as they were. A
    specification whose effects are kept passed the trust gates, its plan was made of what
    was read in the transaction with those contents, so on top of the specifications kept
    before it, and each of its steps is listed as unverified or was accepted in full. *)
Theorem chain_keeps_only_what_it_rehearsed {W D} `{Linked W, OpenSSL, Modules, Bodies, Vendors, Printing, OtherRules}
    policy cfg name `{!Savepoints W D (link_transaction name)} doc k (c c' : Chain W) a :
  (forall version schemas tables keys r (w w' : W),
     observe_in name version schemas tables keys w = (r, w') -> saved_of name w' = saved_of name w) ->
  (forall r (w w' : W), read_trusted w = (r, w') -> contents_of name w' = contents_of name w) ->
  (forall spec, parse_spec sha256 doc = Ok spec -> harmless_plans cfg name spec) ->
  ch_links c !! name = Some k ->
  rehearse policy cfg doc name c = (inl a, c') ->
  match a with
  | ChainRehearsed p d =>
      exists spec trusted w, parse_spec sha256 doc = Ok spec /\ trust_gates policy trusted spec = Ok BothPass
        /\ contents_of name w = contents_of name (ch_world c) /\ kept_plan cfg name (ln_server_version k) spec w p d
  | _ => contents_of name (ch_world c') = contents_of name (ch_world c)
  end.
Proof.
  intros Hread Hledger Hplans Hk. unfold rehearse. destruct (parse_spec sha256 doc) as [spec|e] eqn:Hp.
  2:{ destruct e; try done. by intros [= <- <-]. }
  unfold mbind at 1, call_bind at 1, outside. destruct (gates policy spec (ch_world c)) as [[g|e] w1] eqn:Hg; [|done].
  assert (contents_of name w1 = contents_of name (ch_world c)) as Hc.
  { revert Hg. unfold gates. unfold mbind, call_bind. destruct (verify_against_policy _ _ _); [|done]. cbn.
    case_match; [by intros [= _ <-]|]. destruct (read_trusted (ch_world c)) as [[t|] w2] eqn:Ht; [|done].
    destruct (trust_gates _ t spec); [|done]. intros [= _ <-]. by eapply Hledger. }
  destruct g; [|by intros [= <- <-]..]. apply gates_inl in Hg as (trusted & _ & Htrust).
  unfold mbind, call_bind, link_for. cbn [ch_links]. rewrite Hk. intros Hs.
  apply (spec_run cfg name Hread _ _ _ _ _ (Hplans _ eq_refl)) in Hs. change (@contents W D (link_transaction name) Savepoints0) with (contents_of name) in Hs. cbn [ch_world] in Hs. rewrite Hc in Hs.
  destruct a; try done. destruct Hs as (w & Hw & Hkept). by exists spec, trusted, w.
Qed.

(** ** A server with savepoints *)

(** The statements in effect, and those at the savepoint. *)
Record Session : Type := { ss_now : list string; ss_saved : option (list string) }.

Definition session_exec (sql : string) (w : Session) : option ServerError * Session :=
  if String.eqb sql "SAVEPOINT laswell_chain_spec" then (None, {| ss_now := ss_now w; ss_saved := Some (ss_now w) |})
  else if String.eqb sql "ROLLBACK TO SAVEPOINT laswell_chain_spec" then
    match ss_saved w with
    | Some l => (None, {| ss_now := l; ss_saved := Some l |})
    | None => (Some (SqlError "3B001" "ERROR:  savepoint does not exist"), w)
    end
  else if String.eqb sql "RELEASE SAVEPOINT laswell_chain_spec" then (None, {| ss_now := ss_now w; ss_saved := None |})
  else if has_sub "absent" sql then (Some (SqlError "42703" "ERROR:  column does not exist"), w)
  else (None, {| ss_now := ss_now w ++ [sql]; ss_saved := ss_saved w |}).

#[export] Instance session_transaction : Transaction Session :=
  {| exec := session_exec; stream_copy := fun _ w => (None, w) |}.

Definition chain_commands : list string :=
  ["SAVEPOINT laswell_chain_spec"; "ROLLBACK TO SAVEPOINT laswell_chain_spec"; "RELEASE SAVEPOINT laswell_chain_spec"].

#[export] Instance session_savepoints : Savepoints Session (list string) session_transaction.
Proof.
  refine {| contents := ss_now; saved := ss_saved; harmless sql := negb (existsb (String.eqb sql) chain_commands) |}.
  - intros sql Hs. cbv in Hs. repeat (apply elem_of_cons in Hs as [->|Hs]; [reflexivity|]). by apply not_elem_of_nil in Hs.
  - done.
  - done.
  - done.
  - done.
  - intros sql e w w' Hs. unfold exec, session_transaction, session_exec. cbn in Hs. repeat case_match; try done; by intros [= _ <-].
  - by intros payload e w w' [= _ <-].
  - intros sql e w w'. unfold exec, session_transaction, session_exec. repeat case_match; try done; by intros [= _ <-].
  - by intros w w' [= <-].
  - intros w w' d. cbn. destruct (ss_saved w); [|done]. by intros [= <-] [= ->].
  - by intros w w' [= <-].
Defined.

#[export] Instance session_host : Host Session :=
  {| host_transaction := session_transaction;
     read_status := calls demo_view;
     read_trusted := calls toy_trusted;
     observe := fun _ _ _ => calls (demo_obs (demo_table "table" []));
     earlier_forms := fun _ _ => calls [];
     language_advice := calls [];
     begin_rehearsal := fun w => (None, w);
     roll_back := fun w => w;
     begin_elsewhere := fun _ w => (None, w);
     exec_elsewhere := fun _ _ w => (None, w);
     rollback_elsewhere := fun _ w => (None, w);
     reconcile_dead_jobs := calls tt;
     running_count := fun _ => 0;
     create_job := fun w => ("job-1", w);
     fail_job := fun _ w => w;
     write_migration := fun _ _ => calls 7;
     open_job := fun _ _ _ _ _ => calls true;
     start_worker := fun _ w => w |}.

#[export] Instance session_linked : Linked Session :=
  {| linked_host := session_host; link_transaction := fun _ => session_transaction;
     open_link := fun _ => calls 180006; observe_in := fun _ _ _ _ _ => calls (demo_obs (demo_table "table" []));
     rollback_link := fun _ w => {| ss_now := []; ss_saved := None |} |}.

#[local] Existing Instances no_vendors demo_printing one_statement.

(** A specification with one check constraint, signed. *)
Definition chain_members (spec_id expression : string) : list (string * json) :=
  [("laswell_spec_version", JUint 1); ("id", JStr spec_id); ("description", JStr "d");
   ("intents", JArr [JObj [("kind", JStr "add_check_constraint"); ("schema", JStr "app"); ("table", JStr "orders");
                           ("name", JStr "orders_ck"); ("expression", JStr expression)]])].
Definition chain_doc (spec_id expression : string) : json :=
  let l := chain_members spec_id expression in
  let bytes := match canonicalize (Spec.project (JObj l)) with Ok b => b | Err _ => "" end in
  JObj (l ++ [("signatures", JArr [toy_entry toy_id (sign_with bytes)])]).

Definition demo_rehearse (expression : string) (c : Chain Session) : (ChainAnswer + ToolError) * Chain Session :=
  rehearse toy_policy demo_config (chain_doc "0001" expression) "main" c.
Definition demo_chain (l : list string) : Chain Session :=
  {| ch_world := {| ss_now := l; ss_saved := None |};
     ch_links := {[ "main" := {| ln_server_version := 180006; ln_skipped_any := false |} ]} |}.

Definition checked_harmless (expression : string) : bool :=
  match parse_spec sha256 (chain_doc "0001" expression) with
  | Ok spec =>
      match plan_migration spec (demo_obs (demo_table "table" [])) demo_config with
      | Some p => bool_decide (Forall (harmless_step (W := Session) (D := list string)) (rehearsal_inputs p true))
      | None => true
      end
  | Err _ => true
  end.

Lemma demo_harmless expression spec :
  checked_harmless expression = true -> parse_spec sha256 (chain_doc "0001" expression) = Ok spec ->
  harmless_plans (W := Session) (D := list string) demo_config "main" spec.
Proof.
  unfold checked_harmless. intros Hc Hs version schemas tables keys w obs w1 p Hobs Hp. injection Hobs as <- _.
  rewrite Hs, Hp in Hc. by apply bool_decide_eq_true in Hc.
Qed.

(** A check that the server accepts stays; one on a column that is not there leaves the
    first as it was. *)
Lemma chain_keeps_only_what_it_rehearsed_witness : exists p d c1 a c2,
  demo_rehearse "total >= 0" (demo_chain ["BEGIN"]) = (inl (ChainRehearsed p d), c1)
  /\ length (contents_of "main" (ch_world c1)) = 6%nat
  /\ demo_rehearse "absent >= 0" c1 = (inl a, c2) /\ contents_of "main" (ch_world c2) = contents_of "main" (ch_world c1)
  /\ Forall (fun s => listed d s \/ accepted (W := Session) 180006 s) (rehearsal_inputs p true).
Proof.
  destruct (demo_rehearse "total >= 0" (demo_chain ["BEGIN"])) as [[[| | | |p d| |]|] c1] eqn:E1;
    try (vm_compute in E1; discriminate E1).
  destruct (demo_rehearse "absent >= 0" c1) as [[a|] c2] eqn:E2.
  2:{ assert (match (demo_rehearse "absent >= 0" (demo_rehearse "total >= 0" (demo_chain ["BEGIN"])).2).1 with inl _ => true | inr _ => false end = true)
        as E by (vm_compute; reflexivity). rewrite E1 in E. cbn [snd] in E. rewrite E2 in E. discriminate E. }
  exists p, d, c1, a, c2. split; [done|]. split.
  { change c1 with (inl (B := ToolError) (ChainRehearsed p d), c1).2. rewrite <-E1. vm_compute. reflexivity. }
  split; [done|].
  pose proof (chain_keeps_only_what_it_rehearsed (W := Session) (D := list string) toy_policy demo_config "main") as Hchain.
  assert (forall r (w w' : Session), read_trusted w = (r, w') -> contents_of "main" w' = contents_of "main" w) as Hl by (by intros r w w' [= _ <-]).
  assert (forall version schemas tables keys r (w w' : Session), observe_in "main" version schemas tables keys w = (r, w') ->
    saved_of "main" w' = saved_of "main" w) as Hr by (by intros version schemas tables keys r w w' [= _ <-]).
  split.
  - assert (ch_links c1 !! "main" = Some {| ln_server_version := 180006; ln_skipped_any := false |}) as Hk.
    { change c1 with (inl (B := ToolError) (ChainRehearsed p d), c1).2. rewrite <-E1. vm_compute. reflexivity. }
    assert (match (demo_rehearse "absent >= 0" (demo_rehearse "total >= 0" (demo_chain ["BEGIN"])).2).1 with
            inl (ChainFailed _ _) => true | _ => false end = true) as E by (vm_compute; reflexivity).
    rewrite E1 in E. cbn [snd] in E. rewrite E2 in E. cbn in E.
    pose proof (Hchain (chain_doc "0001" "absent >= 0") {| ln_server_version := 180006; ln_skipped_any := false |} c1 c2 a) as Ha. destruct a; try discriminate E. apply Ha; [exact Hr|exact Hl| |exact Hk|exact E2].
    intros spec. apply demo_harmless. vm_compute. reflexivity.
  - destruct (Hchain (chain_doc "0001" "total >= 0") {| ln_server_version := 180006; ln_skipped_any := false |}
      (demo_chain ["BEGIN"]) c1 (ChainRehearsed p d)) as (spec & trusted & w & _ & _ & _ & Hkept); [exact Hr|exact Hl| |reflexivity|exact E1|].
    + intros spec. apply demo_harmless. vm_compute. reflexivity.
    + destruct Hkept as (schemas & tables & keys & obs & w1 & _ & _ & _ & _ & Hsteps). exact Hsteps.
Defined.
