(* ===== verification/TimescaleFacts.v ===== *)
(** * TimescaleFacts: changes to hypertables settle

    Planned again on the module's projection, every kind of the TimescaleDB module is
    satisfied; policies are so on what the statements of their steps do to the server.
    What the columnstore's statement does not reset, and what the guard does not see. *)
From S2P Require Import Prelude Json Canonical Spec Quote Plan Planner Intents VendorKinds Indexes DryRun Timescale.

Lemma required_interval i key :
  ts_require_interval (body i) key true = Ok tt -> exists v, ts_parse_interval (bstr i key "") = Some v.
Proof.
  unfold ts_require_interval, bstr, value_str. destruct (contains (body i) key) eqn:Hc; [|done]. cbn [negb].
  unfold contains, at_key in *. destruct (body i); try done. destruct (obj_find key l) as [v|]; [|done].
  change (default JNull (Some v)) with v. intros Hv. destruct v; try discriminate Hv.
  destruct (ts_parse_interval s) as [v|]; [by exists v|discriminate Hv].
Qed.

(** ** Satisfied, with nothing to run *)
Definition settled (p : TsPlan) : Prop :=
  e_conflicts p.1 = [] /\ Forall (fun s => st_action s = kSatisfied /\ st_sql s = []) (e_steps p.1).

Definition applies (p : TsPlan) : bool := existsb (fun s => bool_decide (st_action s = kApply)) (e_steps p.1).

(** What the reading is after the step. *)
Definition after_step (i : Intent) (p : TsPlan) (ts : TsReading) : TsReading := if applies p then ts_project i ts else ts.

Lemma satisfied_settled i d why ws : settled (ts_satisfied i d why ws).
Proof. split; [done|]. by repeat constructor. Qed.

Lemma satisfied_applies i d why ws : applies (ts_satisfied i d why ws) = false.
Proof. done. Qed.

Lemma applied_applies i d sql lock why ws : applies (ts_apply i d sql lock why ws) = true.
Proof. done. Qed.

Lemma refused_conflicts i d why : e_conflicts (ts_refuse i d why).1 <> [].
Proof. done. Qed.

(** ** Shapes of the rules *)

(** What remains to show of a rule [f] on a licensed server: the first plan, the
    projection and the second plan. *)
Lemma with_reading tsl i ts k :
  e_conflicts (ts_with tsl i (Some ts) k).1 = [] ->
  ts_with tsl i (Some ts) k = k ts /\ (tsl = true -> tr_license ts = "timescale").
Proof.
  cbn [ts_with]. destruct tsl; cbn [andb]; [|done]. destruct (String.eqb_spec (tr_license ts) "timescale"); done.
Qed.

Lemma with_license tsl i ts k : (tsl = true -> tr_license ts = "timescale") -> ts_with tsl i (Some ts) k = k ts.
Proof. cbn [ts_with]. destruct tsl; [|done]. intros ->; done. Qed.

Lemma on_hypertable i ts k :
  e_conflicts (ts_on_hypertable i ts k).1 = [] ->
  exists h, tr_hypertables ts !! ts_qualified i "table" = Some h /\ ts_on_hypertable i ts k = k (ts_qualified i "table") h.
Proof. unfold ts_on_hypertable. destruct (tr_hypertables ts !! _) as [h|]; [|done]. intros _. by exists h. Qed.

Lemma policy_projected target which l ts :
  ts_policy (ts_project_policy target which (Some l) ts) target which =
  Some {| tp_intervals := list_to_map (omap (fun kt => v ← ts_parse_interval kt.2; Some (kt.1, v)) l); tp_scheduled := true |}.
Proof. unfold ts_policy. cbn. by rewrite lookup_insert_eq; cbn; rewrite lookup_insert_eq. Qed.

Lemma policy_removed target which ts : ts_policy (ts_project_policy target which None ts) target which = None.
Proof.
  unfold ts_policy. cbn. rewrite lookup_alter_eq. destruct (tr_policies ts !! target); [|done]. cbn. apply lookup_delete_eq.
Qed.

Lemma policy_hypertables target which l ts : tr_hypertables (ts_project_policy target which l ts) = tr_hypertables ts.
Proof. by destruct l. Qed.
Lemma policy_license target which l ts : tr_license (ts_project_policy target which l ts) = tr_license ts.
Proof. by destruct l. Qed.
Lemma policy_caggs target which l ts : tr_caggs (ts_project_policy target which l ts) = tr_caggs ts.
Proof. by destruct l. Qed.

(** One interval of a policy that was just declared. *)
Lemma same_declared key text v b :
  ts_parse_interval text = Some v ->
  ts_same {| tp_intervals := list_to_map (omap (fun kt => v ← ts_parse_interval kt.2; Some (kt.1, v)) [(key, text)]); tp_scheduled := b |}
    key text = true.
Proof. intros Hv. unfold ts_same. cbn. rewrite Hv. cbn. rewrite lookup_insert_eq. by case_bool_decide. Qed.

(** ** Each kind settles *)
Section Settles.
Variables (i : Intent) (ts : TsReading).

(** A rule, with the projection of its kind. *)
Definition settles_by (rule : option TsReading -> TsPlan) (project : TsReading -> TsReading) : Prop :=
  e_conflicts (rule (Some ts)).1 = [] ->
  settled (rule (Some (if applies (rule (Some ts)) then project ts else ts))).

Lemma hypertable_settles o live :
  settles_by (fun r => plan_timescaledb_create_hypertable i r o live) (ts_project_create_hypertable i).
Proof using Type.
  intros Hc. unfold plan_timescaledb_create_hypertable in *. cbn [ts_with andb] in *.
  destruct (tr_hypertables ts !! ts_qualified i "table") as [h|] eqn:Hh.
  - unfold ts_is_hypertable in *. destruct (String.eqb match th_dimensions h with [] => "" | d :: _ => td_column d end (bstr i "time_column" "")) eqn:Hcol; [|done].
    cbn [negb] in *. rewrite satisfied_applies, Hh, Hcol. apply satisfied_settled.
  - assert (applies (plan_timescaledb_create_hypertable i (Some ts) o live) = true) as Ha.
    { unfold plan_timescaledb_create_hypertable. cbn [ts_with andb]. rewrite Hh. revert Hc. repeat case_match; try done;
      match goal with H : ts_apply _ _ _ _ _ _ = _ |- _ => unfold ts_apply in H; by injection H as <- <- end. }
    unfold plan_timescaledb_create_hypertable in Ha. cbn [ts_with andb] in Ha. rewrite Hh in Ha. rewrite Ha.
    cbn [ts_project_create_hypertable with_hypertables tr_hypertables]. rewrite lookup_insert_eq.
    unfold ts_is_hypertable. cbn [th_dimensions td_column]. rewrite String.eqb_refl. apply satisfied_settled.
Qed.

Lemma chunk_interval_settles :
  ts_require_interval (body i) "chunk_time_interval" true = Ok tt ->
  (forall q h, tr_hypertables ts !! q = Some h -> th_dimensions h <> []) ->
  settles_by (plan_timescaledb_set_chunk_time_interval i) (ts_project_chunk_interval i).
Proof using Type.
  intros [v Hv]%required_interval Hdims Hc. unfold plan_timescaledb_set_chunk_time_interval in *.
  apply with_reading in Hc as Hw. destruct Hw as [Hw _]. rewrite Hw in Hc |- *. apply on_hypertable in Hc as (h & Hh & Ho).
  rewrite Ho. pose proof (Hdims _ _ Hh) as Hd. destruct (th_dimensions h) as [|d rest] eqn:Ed; [done|].
  destruct (match ts_parse_interval _ with Some _ => _ | None => _ end) eqn:Esame.
  - rewrite satisfied_applies, Hw, Ho. apply satisfied_settled.
  - rewrite applied_applies. cbn [ts_with andb]. unfold ts_on_hypertable, ts_project_chunk_interval, with_hypertables.
    cbn [tr_hypertables]. rewrite lookup_alter_eq, Hh. cbn. rewrite Ed. cbn. rewrite Hv. rewrite bool_decide_true by done. apply satisfied_settled.
Qed.

Lemma columnstore_settles : settles_by (plan_timescaledb_set_columnstore i) (ts_project_columnstore i).
Proof using Type.
  intros Hc. unfold plan_timescaledb_set_columnstore in *. apply with_reading in Hc as Hw. destruct Hw as [Hw Hl].
  rewrite Hw in Hc |- *. apply on_hypertable in Hc as (h & Hh & Ho). rewrite Ho.
  destruct (th_columnstore h && _ && _ && _) eqn:Esame.
  - rewrite satisfied_applies, Hw, Ho. apply satisfied_settled.
  - rewrite applied_applies, with_license by done. unfold ts_on_hypertable, ts_project_columnstore, with_hypertables.
    cbn [tr_hypertables]. rewrite lookup_alter_eq, Hh. cbn [option_fmap option_map fmap th_columnstore th_segmentby th_orderby th_orderby_desc].
    rewrite !bool_decide_true by done. apply satisfied_settled.
Qed.

Lemma columnstore_policy_settles :
  ts_require_interval (body i) "after" true = Ok tt ->
  settles_by (plan_timescaledb_add_columnstore_policy i)
    (ts_project_policy (ts_qualified i "table") "columnstore" (Some [("after", bstr i "after" "")])).
Proof using Type.
  intros [v Hv]%required_interval Hc. unfold plan_timescaledb_add_columnstore_policy in *.
  apply with_reading in Hc as Hw. destruct Hw as [Hw Hl]. rewrite Hw in Hc |- *. apply on_hypertable in Hc as Ho.
  destruct Ho as (h & Hh & Ho). rewrite Ho in Hc |- *. destruct (th_columnstore h) eqn:Hs; [|done]. cbn [negb] in *.
  destruct (match ts_policy ts _ _ with Some p => _ | None => _ end) eqn:Esame.
  - rewrite satisfied_applies, Hw, Ho. apply satisfied_settled.
  - rewrite applied_applies, with_license by (by rewrite policy_license). unfold ts_on_hypertable.
    rewrite policy_hypertables, Hh, Hs, policy_projected, (same_declared _ _ _ _ Hv). apply satisfied_settled.
Qed.

Lemma retention_policy_settles :
  ts_require_interval (body i) "drop_after" true = Ok tt ->
  settles_by (plan_timescaledb_add_retention_policy i)
    (ts_project_policy (ts_qualified i "table") "retention" (Some [("drop_after", bstr i "drop_after" "")])).
Proof using Type.
  intros [v Hv]%required_interval Hc. unfold plan_timescaledb_add_retention_policy in *.
  apply with_reading in Hc as Hw. destruct Hw as [Hw Hl]. rewrite Hw in Hc |- *. apply on_hypertable in Hc as (h & Hh & Ho).
  rewrite Ho. destruct (match ts_policy ts _ _ with Some p => _ | None => _ end) eqn:Esame.
  - rewrite satisfied_applies, Hw, Ho. apply satisfied_settled.
  - rewrite applied_applies, with_license by (by rewrite policy_license). unfold ts_on_hypertable.
    rewrite policy_hypertables, Hh, policy_projected, (same_declared _ _ _ _ Hv). apply satisfied_settled.
Qed.

Lemma removed_policy_settles which modern lock why none :
  settles_by (ts_remove_policy which modern lock why none i) (ts_project_policy (ts_qualified i "table") which None).
Proof using Type.
  intros Hc. unfold ts_remove_policy in *. apply with_reading in Hc as Hw. destruct Hw as [Hw Hl]. rewrite Hw.
  destruct (ts_policy ts (ts_qualified i "table") which) as [p|] eqn:Ep.
  - rewrite applied_applies, with_license by (by rewrite policy_license). rewrite policy_removed. apply satisfied_settled.
  - rewrite satisfied_applies, Hw. apply satisfied_settled.
Qed.

Lemma aggregate_settles : settles_by (plan_timescaledb_create_continuous_aggregate i) (with_cagg (ts_qualified i "name")).
Proof using Type.
  intros Hc. unfold plan_timescaledb_create_continuous_aggregate in *. apply with_reading in Hc as Hw.
  destruct Hw as [Hw Hl]. rewrite Hw. destruct (bool_decide (ts_qualified i "name" ∈ tr_caggs ts)) eqn:Eb.
  - rewrite satisfied_applies, Hw. apply satisfied_settled.
  - cbn [ts_apply applies e_steps fst existsb app orb]. rewrite with_license by done. cbn [with_cagg tr_caggs].
    rewrite bool_decide_true by set_solver. apply satisfied_settled.
Qed.

Lemma refresh_same v1 v2 v3 b :
  ts_parse_interval (bstr i "start_offset" "") = Some v1 -> ts_parse_interval (bstr i "end_offset" "") = Some v2 ->
  ts_parse_interval (bstr i "schedule_interval" "") = Some v3 ->
  forallb (fun k => ts_same {| tp_intervals := list_to_map (omap (fun kt => v ← ts_parse_interval kt.2; Some (kt.1, v))
                                                 ((fun k => (k, bstr i k "")) <$> ts_refresh_keys)); tp_scheduled := b |}
                      k (bstr i k "")) ts_refresh_keys = true.
Proof using Type.
  intros H1 H2 H3. unfold ts_same, ts_refresh_keys. cbn. rewrite H1, H2, H3. cbn. simplify_map_eq. by rewrite !bool_decide_true.
Qed.

Lemma refresh_policy_settles :
  Forall (fun k => ts_require_interval (body i) k true = Ok tt) ts_refresh_keys ->
  settles_by (plan_timescaledb_add_continuous_aggregate_policy i)
    (ts_project_policy (ts_qualified i "name") "refresh" (Some ((fun k => (k, bstr i k "")) <$> ts_refresh_keys))).
Proof using Type.
  intros Hk Hc. unfold ts_refresh_keys in Hk. rewrite !Forall_cons in Hk. destruct Hk as (H1 & H2 & H3 & _).
  apply required_interval in H1 as [v1 H1], H2 as [v2 H2], H3 as [v3 H3].
  unfold plan_timescaledb_add_continuous_aggregate_policy in *.
  apply with_reading in Hc as Hw. destruct Hw as [Hw Hl]. rewrite Hw in Hc |- *.
  destruct (bool_decide (ts_qualified i "name" ∉ tr_caggs ts)) eqn:Eb; [done|].
  destruct (match ts_policy ts _ _ with Some p => _ | None => _ end) eqn:Esame.
  - rewrite satisfied_applies, Hw. apply satisfied_settled.
  - rewrite applied_applies, with_license by (by rewrite policy_license). rewrite policy_caggs, Eb, policy_projected.
    rewrite (refresh_same _ _ _ _ H1 H2 H3). apply satisfied_settled.
Qed.
End Settles.

(** What the parser checked. *)
Ltac parsed H :=
  cbn in H;
  unfold parse_timescaledb_set_chunk_time_interval, parse_timescaledb_add_columnstore_policy, parse_timescaledb_add_retention_policy,
    parse_timescaledb_add_continuous_aggregate_policy in H;
  ok_inv; repeat match goal with u : unit |- _ => destruct u end.

(** Within one specification, as the module's projection has it: a change of any of the
    module's kinds that the parser accepts and the rule does not refuse, planned again
    behind its step, is satisfied and has nothing to run. Every hypertable is partitioned
    on something. What the server reads then can differ ([kept_segmentation]). *)
Lemma projected_changes_settle i n ts o live m p :
  kind i = kModule m -> vendor_parse m (body i) n = Ok tt ->
  (forall q h, tr_hypertables ts !! q = Some h -> th_dimensions h <> []) ->
  plan_timescaledb i (Some ts) o live = Some p -> e_conflicts p.1 = [] ->
  exists p', plan_timescaledb i (Some (after_step i p ts)) o live = Some p' /\ settled p'.
Proof.
  intros Hk Hparse Hdims. unfold plan_timescaledb, after_step, ts_project. rewrite Hk. intros Hp Hc.
  revert Hp.
  destruct (String.eqb_spec m "timescaledb_create_hypertable") as [->|_]; [intros [= <-]; eexists; split; [done|]; by apply hypertable_settles|].
  destruct (String.eqb_spec m "timescaledb_set_chunk_time_interval") as [->|_];
    [intros [= <-]; parsed Hparse; eexists; split; [done|]; by apply chunk_interval_settles|].
  destruct (String.eqb_spec m "timescaledb_set_columnstore") as [->|_]; [intros [= <-]; eexists; split; [done|]; by apply columnstore_settles|].
  destruct (String.eqb_spec m "timescaledb_add_columnstore_policy") as [->|_];
    [intros [= <-]; parsed Hparse; eexists; split; [done|]; by apply columnstore_policy_settles|].
  destruct (String.eqb_spec m "timescaledb_remove_columnstore_policy") as [->|_];
    [intros [= <-]; eexists; split; [done|]; by apply removed_policy_settles|].
  destruct (String.eqb_spec m "timescaledb_add_retention_policy") as [->|_];
    [intros [= <-]; parsed Hparse; eexists; split; [done|]; by apply retention_policy_settles|].
  destruct (String.eqb_spec m "timescaledb_remove_retention_policy") as [->|_];
    [intros [= <-]; eexists; split; [done|]; by apply removed_policy_settles|].
  destruct (String.eqb_spec m "timescaledb_create_continuous_aggregate") as [->|_];
    [intros [= <-]; eexists; split; [done|]; by apply aggregate_settles|].
  destruct (String.eqb_spec m "timescaledb_add_continuous_aggregate_policy") as [->|_]; [|done].
  intros [= <-]; parsed Hparse; eexists; split; [done|]. apply refresh_policy_settles; [|done]. by repeat constructor.
Qed.

(** ** A hypertable with a retention policy *)
Definition demo_hypertable : TsHypertable :=
  {| th_num_chunks := 12; th_columnstore := true; th_compressed := 3;
     th_dimensions := [{| td_column := "ts"; td_interval := Some (in_days 7) |}];
     th_segmentby := []; th_orderby := []; th_orderby_desc := []; th_size_bytes := 1000000; th_rows := 5000; th_chunks := None;
     th_projected := false |}.

Definition demo_reading : TsReading :=
  {| tr_version := "2.30.2"; tr_license := "timescale"; tr_functions := {[ "by_range"; "add_columnstore_policy" ]};
     tr_hypertables := {[ "app.events" := demo_hypertable ]}; tr_policies := ∅; tr_caggs := ∅; tr_applied := [] |}.

Definition demo_retention (drop_after : string) : Intent :=
  {| kind := kModule "timescaledb_add_retention_policy"; kind_name := "timescaledb_add_retention_policy"; ordinal := 0;
     body := JObj [("kind", JStr "timescaledb_add_retention_policy"); ("schema", JStr "app"); ("table", JStr "events");
                   ("drop_after", JStr drop_after); ("acknowledge_data_loss", JBool true)] |}.

Definition no_observations : Observations :=
  {| o_server_version := 180006; o_is_in_recovery := false; o_shared_buffers_bytes := 0; o_maintenance_work_mem_kb := 0;
     o_tables := ∅; o_hypertables := None; o_citus := None; o_extension_errors := []; o_objects := ∅ |}.

(** ** What the statements on policies do

    As TimescaleDB documents, and the source measured: a policy is removed where there is
    one and is an error where there is none; one that is added where there is none is
    scheduled with the intervals it is given; and where there is one already, the
    statement leaves it as it is, whatever the intervals. Any statement may fail. *)
Definition policy_name (f : PolicyForm) : string :=
  match f with
  | AddColumnstorePolicy _ _ | RemoveColumnstorePolicy _ => "columnstore"
  | AddRetentionPolicy _ | RemoveRetentionPolicy => "retention"
  | AddRefreshPolicy _ _ _ | RemoveRefreshPolicy => "refresh"
  end.

(** The intervals of a policy that is added, by the keys of the reading. *)
Definition policy_given (f : PolicyForm) : option (list (string * string)) :=
  match f with
  | AddColumnstorePolicy _ after => Some [("after", after)]
  | AddRetentionPolicy drop_after => Some [("drop_after", drop_after)]
  | AddRefreshPolicy from to every => Some [("start_offset", from); ("end_offset", to); ("schedule_interval", every)]
  | _ => None
  end.

Section Server.
Variable fails : Stmt -> TsReading -> bool.
(** How the server reads an interval, and the intervals a new job has besides. *)
Variable interval_in : string -> TsInterval.
Hypothesis same_interval : forall text v, ts_parse_interval text = Some v -> interval_in text = v.
Variable besides : string -> gmap string TsInterval.

Definition new_policy (which : string) (l : list (string * string)) : TsPolicy :=
  {| tp_intervals := list_to_map ((fun kt => (kt.1, interval_in kt.2)) <$> l) ∪ besides which; tp_scheduled := true |}.

Definition run_policy (q : Stmt) (ts : TsReading) : option TsReading :=
  if fails q ts then None
  else
    match q with
    | JobPolicy target f =>
        let which := policy_name f in
        match policy_given f, ts_policy ts target which with
        | Some l, None =>
            Some (with_policies (fun m => <[target := <[which := new_policy which l]> (default ∅ (m !! target))]> m) ts)
        | Some _, Some _ => Some ts
        | None, Some _ => Some (with_policies (alter (base.delete which) target) ts)
        | None, None => None
        end
    | _ => Some ts
    end.

Fixpoint run_policies (sql : list Stmt) (ts : TsReading) : option TsReading :=
  match sql with [] => Some ts | q :: rest => ts ← run_policy q ts; run_policies rest ts end.

(** Only one policy is another. *)
Definition one_policy (target which : string) (p : option TsPolicy) (ts ts' : TsReading) : Prop :=
  tr_license ts' = tr_license ts /\ tr_functions ts' = tr_functions ts /\ tr_hypertables ts' = tr_hypertables ts
  /\ tr_caggs ts' = tr_caggs ts /\ ts_policy ts' target which = p
  /\ forall t w, (t, w) <> (target, which) -> ts_policy ts' t w = ts_policy ts t w.

Lemma policy_put target which p ts :
  one_policy target which (Some p) ts (with_policies (fun m => <[target := <[which := p]> (default ∅ (m !! target))]> m) ts).
Proof using Type.
  split_and!; [done..| |].
  - unfold ts_policy. cbn. rewrite lookup_insert_eq. cbn. apply lookup_insert_eq.
  - intros t w Hne. unfold ts_policy. cbn. destruct (decide (t = target)) as [->|Ht]; [|by rewrite lookup_insert_ne].
    rewrite lookup_insert_eq. cbn. rewrite lookup_insert_ne by congruence.
    destruct (tr_policies ts !! target); [done|]. cbn. apply lookup_empty.
Qed.

Lemma policy_taken target which ts :
  one_policy target which None ts (with_policies (alter (base.delete which) target) ts).
Proof using Type.
  split_and!; [done..| |].
  - unfold ts_policy. cbn. rewrite lookup_alter_eq. destruct (tr_policies ts !! target); [|done]. cbn. apply lookup_delete_eq.
  - intros t w Hne. unfold ts_policy. cbn. destruct (decide (t = target)) as [->|Ht]; [|by rewrite lookup_alter_ne].
    rewrite lookup_alter_eq. destruct (tr_policies ts !! target); [|done]. cbn. rewrite lookup_delete_ne by congruence. done.
Qed.

Lemma one_policy_twice target which p q ts1 ts2 ts3 :
  one_policy target which p ts1 ts2 -> one_policy target which q ts2 ts3 -> one_policy target which q ts1 ts3.
Proof using Type.
  intros (H1 & H2 & H3 & H4 & _ & Ho) (H1' & H2' & H3' & H4' & Hp & Ho'). split_and!; [congruence..|].
  intros t w Hne. by rewrite Ho', Ho.
Qed.

(** A policy that is removed where there is one and added then. *)
Definition replacing (target : string) (there : option TsPolicy) (rm f : PolicyForm) : list Stmt :=
  (match there with Some _ => [JobPolicy target rm] | None => [] end) ++ [JobPolicy target f].

Definition done_or_failed (P : TsReading -> Prop) (r : option TsReading) : Prop :=
  match r with Some ts' => P ts' | None => exists q ts, fails q ts = true end.

Lemma run_policy_cases q ts :
  fails q ts = true /\ run_policy q ts = None
  \/ fails q ts = false.
Proof using Type. unfold run_policy. destruct (fails q ts); [by left|by right]. Qed.

Lemma policy_replaced target rm f l ts :
  policy_given rm = None -> policy_given f = Some l -> policy_name rm = policy_name f ->
  done_or_failed (one_policy target (policy_name f) (Some (new_policy (policy_name f) l)) ts)
    (run_policies (replacing target (ts_policy ts target (policy_name f)) rm f) ts).
Proof using Type.
  intros Hrm Hf Hn. unfold replacing. destruct (ts_policy ts target (policy_name f)) as [p|] eqn:Hp; cbn [app run_policies].
  - destruct (run_policy_cases (JobPolicy target rm) ts) as [[Hx ->]|Hx]; [cbn; eauto|].
    pose proof (policy_taken target (policy_name f) ts) as H1. set (ts1 := with_policies _ ts) in H1.
    assert (run_policy (JobPolicy target rm) ts = Some ts1) as -> by (unfold run_policy; by rewrite Hx, Hrm, Hn, Hp).
    cbn [mbind option_bind].
    destruct (run_policy_cases (JobPolicy target f) ts1) as [[Hx1 ->]|Hx1]; [cbn; eauto|].
    unfold run_policy. destruct H1 as (Hl & Hfn & Hh & Hc & Hnone & Ho). rewrite Hx1, Hf, Hnone. cbn [mbind option_bind done_or_failed].
    eapply one_policy_twice; [by split_and!|apply policy_put].
  - destruct (run_policy_cases (JobPolicy target f) ts) as [[Hx ->]|Hx]; [cbn; eauto|].
    unfold run_policy. rewrite Hx, Hf, Hp. cbn [mbind option_bind done_or_failed]. apply policy_put.
Qed.

Lemma policy_dropped target rm ts p :
  policy_given rm = None -> ts_policy ts target (policy_name rm) = Some p ->
  done_or_failed (one_policy target (policy_name rm) None ts) (run_policies [JobPolicy target rm] ts).
Proof using Type.
  intros Hrm Hp. cbn [run_policies]. destruct (run_policy_cases (JobPolicy target rm) ts) as [[Hx ->]|Hx]; [cbn; eauto|].
  unfold run_policy. rewrite Hx, Hrm, Hp. cbn [mbind option_bind done_or_failed]. apply policy_taken.
Qed.

Lemma one_policy_itself target which ts : one_policy target which (ts_policy ts target which) ts ts.
Proof using Type. by split_and!. Qed.

(** A policy has the intervals the intent gives it. *)
Definition as_given (i : Intent) (ks : list string) (p : TsPolicy) : bool := forallb (fun k => ts_same p k (bstr i k "")) ks.

(** What is asked of a policy: that it has these intervals, or that there is none. *)
Definition as_asked (i : Intent) (keys : option (list string)) (p : option TsPolicy) : Prop :=
  match keys with Some ks => exists q, p = Some q /\ as_given i ks q = true | None => p = None end.

Lemma new_policy_given i which ks :
  NoDup ks -> Forall (fun k => is_Some (ts_parse_interval (bstr i k ""))) ks ->
  as_given i ks (new_policy which ((fun k => (k, bstr i k "")) <$> ks)) = true.
Proof using same_interval.
  intros Hnd Hks. apply forallb_forall. intros k Hk%list_elem_of_In. rewrite Forall_forall in Hks. destruct (Hks k Hk) as [v Hv].
  unfold ts_same, new_policy. cbn [tp_intervals]. rewrite Hv.
  rewrite (lookup_union_Some_l _ _ k v); [by rewrite bool_decide_true|]. rewrite <- list_fmap_compose.
  apply elem_of_list_to_map_1.
  - rewrite <- list_fmap_compose. by rewrite list_fmap_id.
  - apply list_elem_of_fmap. exists k. split; [|done]. unfold compose. cbn. by rewrite (same_interval _ _ Hv).
Qed.

(** What a rule has to be. *)
Definition alike (ts ts' : TsReading) : Prop :=
  tr_license ts' = tr_license ts /\ tr_functions ts' = tr_functions ts /\ tr_hypertables ts' = tr_hypertables ts
  /\ tr_caggs ts' = tr_caggs ts.

Definition settles_policy (i : Intent) (rule : TsReading -> TsPlan) (target which : string) (keys : option (list string)) (ts : TsReading) : Prop :=
  done_or_failed
    (fun ts' => settled (rule ts') /\ as_asked i keys (ts_policy ts' target which)
       /\ forall t w, (t, w) <> (target, which) -> ts_policy ts' t w = ts_policy ts t w)
    (run_policies (e_steps (rule ts).1 ≫= st_sql) ts).

Lemma added_settles i rule target rm f ks ts :
  policy_given rm = None -> policy_given f = Some ((fun k => (k, bstr i k "")) <$> ks) -> policy_name rm = policy_name f ->
  NoDup ks -> Forall (fun k => is_Some (ts_parse_interval (bstr i k ""))) ks ->
  (forall ts', alike ts ts' -> exists d why ws d' lock why' ws',
     rule ts' = if match ts_policy ts' target (policy_name f) with Some p => as_given i ks p | None => false end
                then ts_satisfied i d why ws
                else ts_apply i d' (replacing target (ts_policy ts' target (policy_name f)) rm f) lock why' ws') ->
  settles_policy i rule target (policy_name f) (Some ks) ts.
Proof using same_interval.
  intros Hrm Hf Hn Hnd Hks Hrule. unfold settles_policy.
  destruct (Hrule ts) as (d & why & ws & d' & lock & why' & ws' & ->); [by split_and!|].
  destruct (match ts_policy ts target (policy_name f) with Some p => as_given i ks p | None => false end) eqn:Hsame.
  - cbn [done_or_failed run_policies ts_satisfied e_steps fst mbind list_bind app st_sql with_action ts_step make].
    split_and!; [|destruct (ts_policy ts target (policy_name f)) as [p|]; [by exists p|done]|done].
    destruct (Hrule ts) as (? & ? & ? & ? & ? & ? & ? & ->); [by split_and!|]. rewrite Hsame. apply satisfied_settled.
  - pose proof (policy_replaced target rm f _ ts Hrm Hf Hn) as Hr. cbn [ts_apply e_steps fst mbind list_bind st_sql make]. rewrite app_nil_r.
    destruct (run_policies _ ts) as [ts'|]; [|done]. destruct Hr as (Hl & Hfn & Hh & Hc & Hp & Ho). cbn [done_or_failed].
    pose proof (new_policy_given i (policy_name f) ks Hnd Hks) as Hg. split_and!; [|rewrite Hp; by eexists|done].
    destruct (Hrule ts') as (? & ? & ? & ? & ? & ? & ? & ->); [by split_and!|]. rewrite Hp, Hg. apply satisfied_settled.
Qed.

Lemma removed_settles i rule target rm ts :
  policy_given rm = None ->
  (forall ts', alike ts ts' -> exists d why ws lock why' ws',
     rule ts' = match ts_policy ts' target (policy_name rm) with
                | None => ts_satisfied i d why ws
                | Some _ => ts_apply i d [JobPolicy target rm] lock why' ws'
                end) ->
  settles_policy i rule target (policy_name rm) None ts.
Proof using Type.
  intros Hrm Hrule. unfold settles_policy.
  destruct (Hrule ts) as (d & why & ws & lock & why' & ws' & ->); [by split_and!|].
  destruct (ts_policy ts target (policy_name rm)) as [p|] eqn:Hp.
  - pose proof (policy_dropped target rm ts p Hrm Hp) as Hr. cbn [ts_apply e_steps fst mbind list_bind st_sql make app].
    destruct (run_policies _ ts) as [ts'|]; [|done]. destruct Hr as (Hl & Hfn & Hh & Hc & Hnone & Ho). cbn [done_or_failed].
    split_and!; [|done|done]. destruct (Hrule ts') as (? & ? & ? & ? & ? & ? & ->); [by split_and!|]. rewrite Hnone. apply satisfied_settled.
  - cbn [done_or_failed run_policies ts_satisfied e_steps fst mbind list_bind app st_sql with_action ts_step make].
    split_and!; [|done|done]. destruct (Hrule ts) as (? & ? & ? & ? & ? & ? & ->); [by split_and!|]. rewrite Hp. apply satisfied_settled.
Qed.
End Server.

(** ** The kinds that declare a policy *)

(** The target, the policy and the keys of its intervals, or its removal. *)
Definition policy_asked (i : Intent) : option (string * string * option (list string)) :=
  match kind i with
  | kModule m =>
      let table := ts_qualified i "table" in
      if String.eqb m "timescaledb_add_columnstore_policy" then Some (table, "columnstore", Some ["after"])
      else if String.eqb m "timescaledb_remove_columnstore_policy" then Some (table, "columnstore", None)
      else if String.eqb m "timescaledb_add_retention_policy" then Some (table, "retention", Some ["drop_after"])
      else if String.eqb m "timescaledb_remove_retention_policy" then Some (table, "retention", None)
      else if String.eqb m "timescaledb_add_continuous_aggregate_policy" then Some (ts_qualified i "name", "refresh", Some ts_refresh_keys)
      else None
  | _ => None
  end.

Section Rules.
Variables (i : Intent) (ts : TsReading).

Lemma columnstore_rule ts' :
  e_conflicts (plan_timescaledb_add_columnstore_policy i (Some ts)).1 = [] -> alike ts ts' ->
  exists d why ws d' lock why' ws',
    plan_timescaledb_add_columnstore_policy i (Some ts') =
    if match ts_policy ts' (ts_qualified i "table") "columnstore" with Some p => as_given i ["after"] p | None => false end
    then ts_satisfied i d why ws
    else ts_apply i d' (replacing (ts_qualified i "table") (ts_policy ts' (ts_qualified i "table") "columnstore")
                          (RemoveColumnstorePolicy (ts_has_function ts "add_columnstore_policy"))
                          (AddColumnstorePolicy (ts_has_function ts "add_columnstore_policy") (bstr i "after" ""))) lock why' ws'.
Proof using Type.
  intros Hc (Hl & Hf & Hh & _). unfold plan_timescaledb_add_columnstore_policy in *. apply with_reading in Hc as Hw. destruct Hw as [Hw Hli].
  rewrite Hw in Hc. apply on_hypertable in Hc as Ho. destruct Ho as (h & Hx & Ho). rewrite Ho in Hc. destruct (th_columnstore h) eqn:Hs; [|done].
  rewrite with_license by (by rewrite Hl). unfold ts_on_hypertable. rewrite Hh, Hx, Hs. cbn [negb].
  unfold as_given, ts_removal, ts_has_function. cbn [forallb]. rewrite Hf.
  destruct (ts_policy ts' _ _) as [p|]; [rewrite andb_true_r; by do 7 eexists|]. exists [], "", []. by do 4 eexists.
Qed.

Lemma retention_rule ts' :
  e_conflicts (plan_timescaledb_add_retention_policy i (Some ts)).1 = [] -> alike ts ts' ->
  exists d why ws d' lock why' ws',
    plan_timescaledb_add_retention_policy i (Some ts') =
    if match ts_policy ts' (ts_qualified i "table") "retention" with Some p => as_given i ["drop_after"] p | None => false end
    then ts_satisfied i d why ws
    else ts_apply i d' (replacing (ts_qualified i "table") (ts_policy ts' (ts_qualified i "table") "retention")
                          RemoveRetentionPolicy (AddRetentionPolicy (bstr i "drop_after" ""))) lock why' ws'.
Proof using Type.
  intros Hc (Hl & Hf & Hh & _). unfold plan_timescaledb_add_retention_policy in *. apply with_reading in Hc as Hw. destruct Hw as [Hw Hli].
  rewrite Hw in Hc. apply on_hypertable in Hc as (h & Hx & Ho).
  rewrite with_license by (by rewrite Hl). unfold ts_on_hypertable. rewrite Hh, Hx. unfold as_given, ts_removal. cbn [forallb].
  destruct (ts_policy ts' _ _) as [p|]; [rewrite andb_true_r; by do 7 eexists|]. exists [], "", []. by do 4 eexists.
Qed.

Lemma refresh_rule ts' :
  e_conflicts (plan_timescaledb_add_continuous_aggregate_policy i (Some ts)).1 = [] -> alike ts ts' ->
  exists d why ws d' lock why' ws',
    plan_timescaledb_add_continuous_aggregate_policy i (Some ts') =
    if match ts_policy ts' (ts_qualified i "name") "refresh" with Some p => as_given i ts_refresh_keys p | None => false end
    then ts_satisfied i d why ws
    else ts_apply i d' (replacing (ts_qualified i "name") (ts_policy ts' (ts_qualified i "name") "refresh")
                          RemoveRefreshPolicy (AddRefreshPolicy (bstr i "start_offset" "") (bstr i "end_offset" "") (bstr i "schedule_interval" "")))
                         lock why' ws'.
Proof using Type.
  intros Hc (Hl & _ & _ & Hcg). unfold plan_timescaledb_add_continuous_aggregate_policy in *. apply with_reading in Hc as Hw. destruct Hw as [Hw Hli].
  rewrite Hw in Hc. rewrite with_license by (by rewrite Hl). rewrite Hcg. destruct (bool_decide _); [done|].
  do 7 eexists. reflexivity.
Qed.

Lemma removal_rule which modern_name lock why none ts' :
  which = "columnstore" \/ which = "retention" ->
  e_conflicts (ts_remove_policy which modern_name lock why none i (Some ts)).1 = [] -> alike ts ts' ->
  exists d why1 ws lock' why' ws',
    ts_remove_policy which modern_name lock why none i (Some ts') =
    match ts_policy ts' (ts_qualified i "table") which with
    | None => ts_satisfied i d why1 ws
    | Some _ => ts_apply i d [JobPolicy (ts_qualified i "table") (if String.eqb which "columnstore"
                                then RemoveColumnstorePolicy (ts_has_function ts modern_name) else RemoveRetentionPolicy)] lock' why' ws'
    end.
Proof using Type.
  intros Hwh Hc (Hl & Hf & _). unfold ts_remove_policy in *. apply with_reading in Hc as [_ Hli]. rewrite with_license by (by rewrite Hl).
  unfold ts_removal, ts_has_function. rewrite Hf. do 6 eexists. reflexivity.
Qed.
End Rules.

(** C39: A policy of TimescaleDB added or removed (of the columnstore, of retention, of
    the refresh of a continuous aggregate) by an intent the parser accepts and the rule
    does not refuse: when the step's statements have run, the server has the policy with
    the intervals the intent gives it, or has none where it is removed, and no other
    policy is another; and the intent planned again on that is satisfied and has nothing
    to run. So it is too where another policy of that kind is there already, which an
    added one would leave as it is: the step removes it first. Otherwise a statement
    failed, and the step's transaction with it. The server's reading of an interval is
    the one the module has of the text. *)
Theorem policies_settle fails interval_in besides i n m ts o live p target which keys :
  (forall text v, ts_parse_interval text = Some v -> interval_in text = v) ->
  kind i = kModule m -> vendor_parse m (body i) n = Ok tt -> policy_asked i = Some (target, which, keys) ->
  plan_timescaledb i (Some ts) o live = Some p -> e_conflicts p.1 = [] ->
  done_or_failed fails
    (fun ts' => (exists p', plan_timescaledb i (Some ts') o live = Some p' /\ settled p')
       /\ as_asked i keys (ts_policy ts' target which)
       /\ forall t w, (t, w) <> (target, which) -> ts_policy ts' t w = ts_policy ts t w)
    (run_policies fails interval_in besides (e_steps p.1 ≫= st_sql) ts).
Proof.
  intros Hin Hk Hparse Hask Hp Hc.
  assert (forall rule, plan_timescaledb i (Some ts) o live = Some (rule (Some ts)) ->
            (forall ts', plan_timescaledb i (Some ts') o live = Some (rule (Some ts'))) ->
            (p = rule (Some ts) -> settles_policy fails interval_in besides i (fun ts => rule (Some ts)) target which keys ts) ->
            done_or_failed fails
              (fun ts' => (exists p', plan_timescaledb i (Some ts') o live = Some p' /\ settled p')
                 /\ as_asked i keys (ts_policy ts' target which)
                 /\ forall t w, (t, w) <> (target, which) -> ts_policy ts' t w = ts_policy ts t w)
              (run_policies fails interval_in besides (e_steps p.1 ≫= st_sql) ts)) as Hgo.
  { intros rule Hr Hall Hs. rewrite Hp in Hr. injection Hr as ->. specialize (Hs eq_refl). unfold settles_policy in Hs.
    destruct (run_policies _ _ _ _ _) as [ts'|]; [|done]. cbn [done_or_failed] in *. destruct Hs as (Hst & Has & Ho).
    split_and!; [|done|done]. exists (rule (Some ts')). by rewrite Hall. }
  assert (forall k, ts_require_interval (body i) k true = Ok tt -> is_Some (ts_parse_interval (bstr i k ""))) as Hint
    by (intros k [v Hv]%required_interval; eauto).
  unfold policy_asked in Hask. rewrite Hk in Hask.
  destruct (String.eqb_spec m "timescaledb_add_columnstore_policy") as [->|_]; [|
  destruct (String.eqb_spec m "timescaledb_remove_columnstore_policy") as [->|_]; [|
  destruct (String.eqb_spec m "timescaledb_add_retention_policy") as [->|_]; [|
  destruct (String.eqb_spec m "timescaledb_remove_retention_policy") as [->|_]; [|
  destruct (String.eqb_spec m "timescaledb_add_continuous_aggregate_policy") as [->|_]; [|done]]]]];
  injection Hask as <- <- <-.
  - parsed Hparse. apply (Hgo (plan_timescaledb_add_columnstore_policy i)); [by unfold plan_timescaledb; rewrite Hk|by intros; unfold plan_timescaledb; rewrite Hk|].
    intros ->. eapply (added_settles fails interval_in Hin besides i _ _ (RemoveColumnstorePolicy (ts_has_function ts "add_columnstore_policy"))
      (AddColumnstorePolicy (ts_has_function ts "add_columnstore_policy") (bstr i "after" "")) ["after"]); [done|done|done| | |].
    + repeat constructor; set_solver.
    + repeat constructor. by apply Hint.
    + intros ts' Ha. by apply (columnstore_rule i ts).
  - apply (Hgo (plan_timescaledb_remove_columnstore_policy i)); [by unfold plan_timescaledb; rewrite Hk|by intros; unfold plan_timescaledb; rewrite Hk|].
    intros ->. apply (removed_settles fails interval_in besides i _ _ (RemoveColumnstorePolicy (ts_has_function ts "remove_columnstore_policy"))); [done|].
    intros ts' Ha. apply (removal_rule i ts "columnstore"); [by left|done|done].
  - parsed Hparse. apply (Hgo (plan_timescaledb_add_retention_policy i)); [by unfold plan_timescaledb; rewrite Hk|by intros; unfold plan_timescaledb; rewrite Hk|].
    intros ->. eapply (added_settles fails interval_in Hin besides i _ _ RemoveRetentionPolicy (AddRetentionPolicy (bstr i "drop_after" "")) ["drop_after"]); [done|done|done| | |].
    + repeat constructor; set_solver.
    + repeat constructor. by apply Hint.
    + intros ts' Ha. by apply (retention_rule i ts).
  - apply (Hgo (plan_timescaledb_remove_retention_policy i)); [by unfold plan_timescaledb; rewrite Hk|by intros; unfold plan_timescaledb; rewrite Hk|].
    intros ->. eapply (removed_settles fails interval_in besides i _ _ RemoveRetentionPolicy); [done|].
    intros ts' Ha. apply (removal_rule i ts "retention"); [by right|done|done].
  - parsed Hparse. apply (Hgo (plan_timescaledb_add_continuous_aggregate_policy i)); [by unfold plan_timescaledb; rewrite Hk|by intros; unfold plan_timescaledb; rewrite Hk|].
    intros ->. eapply (added_settles fails interval_in Hin besides i _ _ RemoveRefreshPolicy
      (AddRefreshPolicy (bstr i "start_offset" "") (bstr i "end_offset" "") (bstr i "schedule_interval" "")) ts_refresh_keys); [done|done|done| | |].
    + unfold ts_refresh_keys. repeat constructor; set_solver.
    + unfold ts_refresh_keys. repeat constructor; by apply Hint.
    + intros ts' Ha. by apply (refresh_rule i ts).
Qed.

(** A policy that is there with another interval is removed and added. *)
Definition kept_ninety : TsReading :=
  with_policies (fun _ => {["app.events" := {["retention" := {| tp_intervals := {["drop_after" := in_days 90]}; tp_scheduled := true |}]}]}) demo_reading.

Definition read_interval (text : string) : TsInterval := default (in_days 0) (ts_parse_interval text).

Lemma policies_settle_witness : exists p ts',
  plan_timescaledb (demo_retention "30 days") (Some kept_ninety) no_observations 0 = Some p
  /\ (render <$> (e_steps p.1 ≫= st_sql))
     = ["SELECT remove_retention_policy('" +:+ dq +:+ "app" +:+ dq +:+ "." +:+ dq +:+ "events" +:+ dq +:+ "'::regclass);";
        "SELECT add_retention_policy('" +:+ dq +:+ "app" +:+ dq +:+ "." +:+ dq +:+ "events" +:+ dq +:+ "'::regclass, drop_after => INTERVAL '30 days');"]
  /\ run_policies (fun _ _ => false) read_interval (fun _ => ∅) (e_steps p.1 ≫= st_sql) kept_ninety = Some ts'
  /\ (exists p', plan_timescaledb (demo_retention "30 days") (Some ts') no_observations 0 = Some p' /\ settled p').
Proof.
  destruct (plan_timescaledb (demo_retention "30 days") (Some kept_ninety) no_observations 0) as [p|] eqn:Hp;
    [|vm_compute in Hp; discriminate Hp].
  assert (forall text v, ts_parse_interval text = Some v -> read_interval text = v) as Hin
    by (intros text v Hv; unfold read_interval; rewrite Hv; reflexivity).
  assert (e_conflicts p.1 = []) as Hc by (vm_compute in Hp; injection Hp as <-; reflexivity).
  pose proof (policies_settle (fun _ _ => false) read_interval (fun _ => ∅) (demo_retention "30 days") 0 "timescaledb_add_retention_policy"
                kept_ninety no_observations 0 p "app.events" "retention" (Some ["drop_after"]) Hin eq_refl eq_refl eq_refl Hp Hc) as Hs.
  destruct (run_policies (fun _ _ => false) read_interval (fun _ => ∅) (e_steps p.1 ≫= st_sql) kept_ninety) as [ts'|] eqn:Hr.
  - exists p, ts'. split; [reflexivity|]. split; [vm_compute in Hp; injection Hp as <-; vm_compute; reflexivity|].
    split; [exact Hr|]. exact (proj1 Hs).
  - destruct Hs as (q & ts & Hs). discriminate Hs.
Defined.

(** ** What the columnstore's settings keep *)

(** The settings statement resets nothing that it does not name: an intent without
    "segment_by", on a table that is segmented, is planned however often it has run. *)
Lemma kept_segmentation i ts o live h :
  kind i = kModule "timescaledb_set_columnstore" -> tr_license ts = "timescale" ->
  tr_hypertables ts !! ts_qualified i "table" = Some h -> contains (body i) "segment_by" = false -> th_segmentby h <> [] ->
  exists p, plan_timescaledb i (Some ts) o live = Some p /\ applies p = true
    /\ exists s q, e_steps p.1 = [s] /\ st_sql s = [OtherSql q].
Proof.
  intros Hk Hl Hh Hc Hs. unfold plan_timescaledb. rewrite Hk. cbn [String.eqb Ascii.eqb]. eexists. split; [reflexivity|].
  unfold plan_timescaledb_set_columnstore. rewrite with_license by done. unfold ts_on_hypertable. rewrite Hh.
  assert (bstrs i "segment_by" = []) as ->.
  { unfold bstrs, at_key, contains in *. destruct (body i); try done. by destruct (obj_find _ l). }
  rewrite (bool_decide_eq_false_2 (th_segmentby h = [])) by done. rewrite andb_false_r. cbn [andb]. split; [done|]. by eexists _, _.
Qed.

(** ** What the guard does not see *)

(** The guard reads the catalog as it was before the specification: an index that an
    intent drops first, as the refusal of a constraint over it advises, is still found. *)
Lemma dropped_index_is_still_found d l o hyper :
  kind d = kDropIndex -> ts_refusals (d :: l) o hyper = ts_refusals l o hyper.
Proof.
  intros Hk. cbn [ts_refusals]. rewrite Hk. destruct (hyper !! in_qualified d) as [h|]; [|done].
  unfold ts_refusals_of, ts_unique_key. by rewrite Hk.
Qed.

(** An intent that finds the hypertable there leaves one partitioning column of it to the
    intents after it: a unique key without the second is not refused. *)
Lemma second_dimension_is_forgotten i l o hyper h :
  kind i = kModule "timescaledb_create_hypertable" -> hyper !! in_qualified i = Some h ->
  ts_refusals (i :: l) o hyper =
  ts_refusals l o (<[in_qualified i := {| hy_dims := [bstr i "time_column" ""]; hy_columnstore := hy_columnstore h;
                                          hy_compressed := hy_compressed h |}]> hyper).
Proof. intros Hk Hh. cbn [ts_refusals]. rewrite Hk, Hh. done. Qed.
